(* ===== verification/_CoqProject ===== *)
-Q . S2P
Prelude.v
Text.v
StorageTypes.v
Crc32.v
LocalStore.v
LocalSpec.v
ObjCodec.v
ObjStore.v
ObjStorage.v
ObjVersions.v
ObjInv.v
ObjLive.v
ObjWrite.v
ObjRecover.v
ObjBranches.v
ObjSpec.v
Seam.v
SeamBranch.v
SeamSpec.v
Numbers.v
Float.v
Chars.v
Datetime.v
EngineTypes.v
Values.v
Json.v
Session.v
Funcs.v
Like.v
Ast.v
Lex.v
Parser.v
Statements.v
ParserSpec.v
PrintSpec.v
CaptureSpec.v
Expr.v
ExprSpec.v
ParserDemo.v
Rls.v
SortBy.v
Controller.v
ControllerSys.v
ControllerSpec.v
Wal.v
WalSpec.v
MvccStore.v
Select.v
SelectSpec.v
Joins.v
JoinsSpec.v
Relational.v
RelationalSpec.v
Dml.v
Recovery.v
Hnsw.v
HnswSpec.v
HnswPages.v
GroupCommit.v
Conn.v
ViewSpec.v
Wire.v
Engine.v
Introspect.v
Datapath.v
Server.v
WireSpec.v
DmlProofs.v
EngineInv.v
EngineSpec.v
SystemSpec.v
EngineDemo.v
QueryDemo.v
TxnSpec.v
SqlSystem.v
WriteSpec.v
SystemDemo.v
GroupSpec.v
EngineWitness.v
WireDemo.v
