(* ===== verification/Prelude.v ===== *)
(** * Twill DB: a verification library

    Twill DB is an embedded SQL database in Rust (crates/ of the repository): a storage seam with an embedded
    and a disaggregated backend, an engine with a write-ahead log, multi-version tables, group commit and an
    SQL executor, a lexer and parser, a vector index, a server that speaks the Postgres wire protocol, and a
    controller that opens databases on demand.  This library models these parts as functions of their state
    and proves what each promises and how they compose.

    ** The program and the files that model it

    - Language and standard library: [Prelude] (results, state-passing computations, machine integers, byte
      parsers, shared tactics), [Text], [Numbers], [Chars] (strings, decimals, UTF-8), [Float] (IEEE
      arithmetic, reading and writing of decimals), [SortBy] (the stable sort).
    - Storage, crates/storage/src: [StorageTypes] (types.rs), [Crc32]; the embedded backend local.rs in
      [LocalStore] with [LocalSpec]; the disaggregated backend object/ in [ObjCodec] (codec.rs), [ObjStore]
      (store.rs, mem.rs, fault.rs, binding.rs), [ObjStorage] (mod.rs) with [ObjVersions], [ObjInv], [ObjLive],
      [ObjWrite], [ObjRecover], [ObjBranches] and [ObjSpec]; the [Storage] trait of lib.rs and the branch
      overlay branch.rs in [Seam], [SeamBranch] and [SeamSpec].
    - Engine data, crates/engine/src: [EngineTypes] (value.rs, catalog.rs, error.rs, parts of vector.rs),
      [Values] (value.rs), [Datetime], [Json], [Session]; the log records wal.rs in [Wal] and [WalSpec].
    - Engine write path: [MvccStore] (store.rs), [Dml] (the write half of exec.rs), [Recovery] (db.rs),
      [GroupCommit] (group_commit.rs), [Conn] (conn.rs); [DmlProofs], [EngineInv], [EngineSpec], [TxnSpec],
      [GroupSpec], and [SystemSpec] for the engine over a backend.
    - Vector index, vector.rs and its checkpoints in db.rs: [Hnsw], [HnswSpec], [HnswPages].
    - SQL front end: [Lex] (lex.rs and the token rendering of sql.rs), [Ast], [Parser] and [Statements]
      (sql.rs) with [ParserSpec], [CaptureSpec] and [PrintSpec].
    - Engine read path (exec.rs): [Funcs], [Like], [Expr], [Rls], [Select], [Joins], [Relational] with
      [ExprSpec], [SelectSpec], [JoinsSpec], [RelationalSpec], [ViewSpec].
    - From SQL text to the store: [Engine] (the DML of exec.rs with expressions, joins and policies, the
      statement dispatch, prepared statements and catalog reflection of conn.rs) with [WriteSpec], and
      [SqlSystem] for connections that run SQL over a backend.
    - Server, crates/server/src: [Wire] (protocol.rs, types.rs), [Introspect] (introspect.rs, capability.rs,
      reflect.rs), [Datapath] (datapath.rs), [Server] (session.rs) with [WireSpec].
    - Controller, crates/controller/src/lib.rs: [Controller], [ControllerSys], [ControllerSpec].
    - Evaluated examples, witnesses and findings: [EngineDemo], [QueryDemo], [ParserDemo], [SystemDemo],
      [EngineWitness], [WireDemo].

    State behind a lock is a record, a method on it is a function to a [Result] or a [Comp] (the state
    survives an early error return), a trait is a class of operations with a class of laws, threads are the
    interleaved steps of a relation whose steps are the critical sections of the code.

    ** What the theorems show

    - Durability and recovery: a database reopened from its file or its bucket holds what was committed, at
      every point of a crash, for both backends, behind the seam, and for the engine above them.  The top of
      this is [sql_recovers]: whatever SQL any number of connections ran over a lawful backend, the rows are
      those of the transactions in its log with the open writer's on top, and a reopened database shows every
      published snapshot what it saw.
    - Atomicity, fencing, maintenance: a batch is appended as a whole or not at all under every failure of the
      object client; a newer lease refuses every older writer; flush, compaction and garbage collection change
      no read above the floor; a branch reads its own writes over the parent's state at the fork.
    - Isolation: the store is the replayed log with the pending work of writers on it; a snapshot never
      changes; conflicting writers are refused; one connection writes at a time; group commit ends and starves
      nobody.
    - Front end: parsing ends on every text with a statement or a syntax error; the text captured for a CHECK,
      a DEFAULT or a policy parses back to the expression in the statement; every expression tree of the
      printable fragment is what the parser makes of its text with the fewest parentheses.
    - Queries and writes: row-level security is exact, no result depends on a hidden row, an UPDATE, DELETE or
      plain INSERT stays within the policies of its command, joins and set operations are those of SQL,
      evaluation does not panic outside the listed operators, LIKE is its denotation, queries over acyclic
      views end, CREATE VIEW keeps views acyclic where it sees the names; a prepared statement runs once and
      hands out its rows in order.
    - Vector index: any run of insertions, removals and marks implements a map without a panic, a search gives
      distinct live entries with their distances, nearest first, and agrees with an exhaustive one when it is
      as wide as the graph; checkpoints read back.
    - Server: whole client streams are read as they were encoded and answered message by message; every answer
      is a transition of the protocol written as a machine of its own ([reply]); the engine moves only by
      statements; both query protocols give the same frames; the documented subset is the codec's.
    - Controller: one warm-up per database, a bounded number at once, no panic, every start returns.

    ** Bounds and fuel

    A loop that is not structural takes fuel, and a lemma shows that the fuel given is enough: the lexer the
    number of bytes ([lex_go_fuel]), the parser the number of tokens ([calls_safe_fuel]), the JSON parser twice
    the length of its text plus two (request bodies likewise), the leader loop of group commit the length of the
    queue, a query the depth of its nesting ([query_terminates]), the layer search of the vector index the size
    of the graph, the command loop of the server the bytes of the stream ([command_loop_fuel]), the fetch of a
    statement one turn more than it has rows ([fetch_rows_rest]), the blocks of an embedding read the bytes of
    their text, each of which starts after the last.  A call past the fuel is an error no code path returns, and the
    theorems on termination show that it is not reached.  Decimal exponents beyond 400 are infinite or zero in
    [Float], which is beyond the range of an [f64].

    ** What is assumed

    Code outside the repository is a parameter with its documented behaviour as laws: the object client, the
    host's clock, random numbers, Unicode tables and transcendental functions ([Host]), the vector index where
    the store and the executor use it.  The read path takes the parser of policy predicates as an argument,
    which [Engine] gives it.  The texts of errors are not modelled; a server session takes them, and the
    engine's counters, from its environment ([Env]).  The steps of the engine leave out an append whose failure
    is reported after the records became durable.  In [sql_step] a write waits for the lane, a statement that
    fails inside an open transaction changes no row, ROLLBACK TO runs where nothing was written, and a DEFAULT
    added by ALTER TABLE evaluates as it will on replay: the findings show runs of the code outside these
    conditions.  A panic ends the run of a database, since it poisons the lock of its store; a panicking DEFAULT
    of ADD COLUMN is taken for NULL.

    ** Not modelled

    The TCP listener, its threads, metrics and the SQL log of the server; the registry of open databases and the renewal of leases; the branching calls of a connection; the
    command line, benchmarks, clients and the C ABI; the file-system object store and the conformance suite:
    input and output, bindings and tests around the modelled parts.  Inside the modelled parts, the interleaving
    of a client's statements with other connections is that of [sql_step], and the server's theorems are about
    one session. *)

From Stdlib Require Export ZArith Lia Ascii String.
From stdpp Require Export base gmap strings pretty list fin_maps sorting.
From coqutil Require Export Byte Word.LittleEndianList.

#[global] Open Scope Z_scope.

Abbreviation bytes := (list Init.Byte.byte).

(** A [u8] as a number. *)
Definition bz (b : Init.Byte.byte) : Z := byte.unsigned b.

(** ** Rust's [Result] *)

Inductive Result (E A : Type) : Type :=
| Ok (a : A)
| Err (e : E).
Arguments Ok {E A} a.
Arguments Err {E A} e.

#[export] Instance Result_ret E : MRet (Result E) := λ A a, Ok a.
#[export] Instance Result_bind E : MBind (Result E) := λ A B f m,
  match m with Ok a => f a | Err e => Err e end.

Definition is_ok {E A} (r : Result E A) : bool :=
  match r with Ok _ => true | Err _ => false end.

Definition map_err {E F A} (f : E → F) (r : Result E A) : Result F A :=
  match r with Ok a => Ok a | Err e => Err (f e) end.

Definition ok_or {E A} (o : option A) (e : E) : Result E A :=
  match o with Some a => Ok a | None => Err e end.

Lemma Result_bind_Ok {E A B} (m : Result E A) (f : A → Result E B) b :
  (m ≫= f) = Ok b ↔ ∃ a, m = Ok a ∧ f a = Ok b.
Proof. destruct m; cbn; naive_solver. Qed.

(** ** Stateful fallible code

    A Rust method on [&mut self] that returns a [Result]: the state survives an early return
    with an error, so what was written before the [?] stays written. *)

Definition Comp (S E A : Type) : Type := S → S * Result E A.

Definition comp_ret {S E A} (a : A) : Comp S E A := λ s, (s, Ok a).
Definition comp_err {S E A} (e : E) : Comp S E A := λ s, (s, Err e).
Definition comp_bind {S E A B} (m : Comp S E A) (f : A → Comp S E B) : Comp S E B := λ s,
  match m s with
  | (s', Ok a) => f a s'
  | (s', Err e) => (s', Err e)
  end.

Declare Scope comp_scope.
Delimit Scope comp_scope with comp.
Notation "'let!' x ':=' m 'in' k" := (comp_bind m (λ x, k))
  (at level 10, x pattern, m at level 100, k at level 200) : comp_scope.
Notation "'do!' m 'in' k" := (comp_bind m (λ _, k))
  (at level 10, m at level 100, k at level 200) : comp_scope.

(** ** Machine integers *)

Definition u64_max : Z := 2 ^ 64 - 1.
Definition u32_max : Z := 2 ^ 32 - 1.

Definition is_u64 (z : Z) : Prop := 0 ≤ z < 2 ^ 64.
Definition is_u32 (z : Z) : Prop := 0 ≤ z < 2 ^ 32.
Definition is_i64 (z : Z) : Prop := - 2 ^ 63 ≤ z < 2 ^ 63.

(** [x as u64] on an [i64], and back. *)
Definition i64_as_u64 (z : Z) : Z := z mod 2 ^ 64.
Definition u64_as_i64 (z : Z) : Z := if z <? 2 ^ 63 then z else z - 2 ^ 64.

(** [u64::saturating_sub]. *)
Definition saturating_sub (a b : Z) : Z := Z.max 0 (a - b).

Lemma i64_roundtrip z : is_i64 z → u64_as_i64 (i64_as_u64 z) = z.
Proof.
  unfold is_i64, u64_as_i64, i64_as_u64. intros H.
  assert (z mod 2 ^ 64 = if z <? 0 then z + 2 ^ 64 else z) as ->.
  { destruct (Z.ltb_spec z 0).
    - symmetry. apply Z.mod_unique_pos with (q := -1); lia.
    - apply Z.mod_small. lia. }
  destruct (Z.ltb_spec z 0), (Z.ltb_spec (z + 2^64) (2 ^ 63)), (Z.ltb_spec z (2^63)); lia.
Qed.

Lemma i64_as_u64_range z : is_u64 (i64_as_u64 z).
Proof. unfold is_u64, i64_as_u64. apply Z.mod_pos_bound. lia. Qed.

#[export] Instance byte_eq_decision : EqDecision Init.Byte.byte := Strings.Byte.byte_eq_dec.

(** [x.to_le_bytes()] for a [u32] and a [u64]; [from_le_bytes] is [le_combine]. *)
Abbreviation u32_le := (le_split 4).
Abbreviation u64_le := (le_split 8).
Abbreviation from_le := le_combine.
#[global] Opaque le_split le_combine byte.of_Z.
#[global] Arguments Z.pow : simpl never.

Lemma from_le_u32 z : is_u32 z → from_le (u32_le z) = z.
Proof. intros H. rewrite le_combine_split. apply Z.mod_small. exact H. Qed.

Lemma from_le_u64 z : is_u64 z → from_le (u64_le z) = z.
Proof. intros H. rewrite le_combine_split. apply Z.mod_small. exact H. Qed.

Lemma from_le_bound4 bs : length bs = 4%nat → is_u32 (from_le bs).
Proof. intros H. pose proof (le_combine_bound bs) as B. rewrite H in B. exact B. Qed.

Lemma from_le_bound8 bs : length bs = 8%nat → is_u64 (from_le bs).
Proof. intros H. pose proof (le_combine_bound bs) as B. rewrite H in B. exact B. Qed.

(** ** Slices *)

Definition zlen {A} (l : list A) : Z := Z.of_nat (length l).

(** [&l[a..b]], for bounds the caller has checked. *)
Definition slice {A} (l : list A) (a b : Z) : list A :=
  take (Z.to_nat (b - a)) (drop (Z.to_nat a) l).

Create HintDb len.
#[export] Hint Rewrite @length_app @length_take @length_drop @length_replicate @length_fmap
  @length_le_split @length_cons @length_nil @length_rev : len.

(** Normalises every list length, then linear arithmetic. *)
Ltac len := unfold zlen, is_u64, is_u32, u64_max, u32_max in *; autorewrite with len in *; try lia.

Lemma zlen_nonneg {A} (l : list A) : 0 ≤ zlen l.
Proof. len. Qed.

Lemma zlen_app {A} (l k : list A) : zlen (l ++ k) = zlen l + zlen k.
Proof. len. Qed.

Lemma zlen_cons {A} (x : A) l : zlen (x :: l) = 1 + zlen l.
Proof. unfold zlen. simpl. lia. Qed.

Lemma zlen_nil {A} : zlen (@nil A) = 0.
Proof. reflexivity. Qed.

Lemma zlen_u32 z : zlen (u32_le z) = 4.
Proof. len. Qed.

Lemma zlen_u64 z : zlen (u64_le z) = 8.
Proof. len. Qed.

#[export] Hint Rewrite @zlen_app @zlen_cons @zlen_nil zlen_u32 zlen_u64 : zlen.

Lemma slice_app_mid {A} (a b c : list A) i j :
  i = zlen a → j = zlen a + zlen b → slice (a ++ b ++ c) i j = b.
Proof.
  intros -> ->. unfold slice, zlen.
  rewrite Nat2Z.id, drop_app_length.
  replace (Z.to_nat _) with (length b) by lia. apply take_app_length.
Qed.

Lemma slice_prefix {A} (b c : list A) j : j = zlen b → slice (b ++ c) 0 j = b.
Proof. intros ->. apply (slice_app_mid [] b c); unfold zlen; simpl; lia. Qed.

Lemma slice_suffix {A} (a b : list A) i j :
  i = zlen a → j = zlen a + zlen b → slice (a ++ b) i j = b.
Proof. intros Hi Hj. pose proof (slice_app_mid a b [] i j Hi Hj) as H. by rewrite app_nil_r in H. Qed.

Lemma length_slice {A} (l : list A) i j :
  0 ≤ i ≤ j → j ≤ zlen l → zlen (slice l i j) = j - i.
Proof. intros. unfold slice, zlen in *. rewrite length_take, length_drop. lia. Qed.

(** ** Filters *)

Lemma filter_all {A} (p : A → bool) l : Forall (λ x, p x = true) l → List.filter p l = l.
Proof. induction 1 as [|x l Hx _ IH]; [done|]. cbn. by rewrite Hx, IH. Qed.

Lemma filter_none {A} (p : A → bool) l : Forall (λ x, p x = false) l → List.filter p l = [].
Proof. induction 1 as [|x l Hx _ IH]; [done|]. cbn. by rewrite Hx. Qed.

Lemma filter_filter {A} (p q : A → bool) l : List.filter p (List.filter q l) = List.filter (λ x, q x && p x) l.
Proof. induction l as [|x l IH]; [done|]. cbn. destruct (q x); cbn; [|done]. by destruct (p x); rewrite IH. Qed.

Lemma filter_map_comm {A B} (f : A → B) (p : B → bool) l :
  List.filter p (f <$> l) = f <$> List.filter (λ x, p (f x)) l.
Proof. induction l as [|x l IH]; [done|]. cbn. destruct (p (f x)); cbn; by rewrite IH. Qed.

(** ** Byte parsers: a cursor is the list of bytes left to read *)

Definition Parser (E A : Type) : Type := bytes → Result E (A * bytes).

#[export] Instance Parser_ret E : MRet (Parser E) := λ A a bs, Ok (a, bs).
#[export] Instance Parser_bind E : MBind (Parser E) := λ A B f p bs,
  match p bs with Ok (a, rest) => f a rest | Err e => Err e end.

Section Parsers.
Context {E : Type} (trunc : E).

Definition p_fail {A} (e : E) : Parser E A := λ _, Err e.

(** [Cursor::take]: the next [n] bytes, or the truncation error. *)
Definition p_take (n : Z) : Parser E bytes := λ bs,
  if zlen bs <? n then Err trunc else Ok (take (Z.to_nat n) bs, drop (Z.to_nat n) bs).

Definition p_u8 : Parser E Init.Byte.byte :=
  b ← p_take 1; match b with x :: _ => mret x | [] => p_fail trunc end.
Definition p_u32 : Parser E Z := b ← p_take 4; mret (from_le b).
Definition p_u64 : Parser E Z := b ← p_take 8; mret (from_le b).

(** [for _ in 0..n { out.push(p(c)?) }]. *)
Fixpoint p_rep {A} (n : nat) (p : Parser E A) : Parser E (list A) :=
  match n with
  | O => mret []
  | S n => x ← p; xs ← p_rep n p; mret (x :: xs)
  end.

(** [p] reads back [v] from its encoding [enc] and leaves what follows. *)
Definition reads {A} (p : Parser E A) (enc : bytes) (v : A) : Prop :=
  ∀ rest, p (enc ++ rest) = Ok (v, rest).

Lemma reads_ret {A} (v : A) : reads (mret v) [] v.
Proof. intros rest. reflexivity. Qed.

Lemma reads_bind {A B} (p : Parser E A) (f : A → Parser E B) e1 e2 a b :
  reads p e1 a → reads (f a) e2 b → reads (p ≫= f) (e1 ++ e2) b.
Proof.
  intros H1 H2 rest. unfold mbind, Parser_bind.
  rewrite <- app_assoc, H1. apply H2.
Qed.

(** The last step of a record: nothing is left to read but the value is still mapped. *)
Lemma reads_map {A B} (p : Parser E A) (f : A → B) e a :
  reads p e a → reads (x ← p; mret (f x)) e (f a).
Proof. intros H. rewrite <- (app_nil_r e). eapply reads_bind; [exact H | apply reads_ret]. Qed.

Lemma reads_take n bs : n = zlen bs → reads (p_take n) bs bs.
Proof.
  intros -> rest. unfold p_take. rewrite zlen_app.
  pose proof (zlen_nonneg rest).
  destruct (Z.ltb_spec (zlen bs + zlen rest) (zlen bs)); [lia|].
  unfold zlen. by rewrite Nat2Z.id, take_app_length, drop_app_length.
Qed.

Lemma reads_u8 b : reads p_u8 [b] b.
Proof.
  intros rest. unfold p_u8, mbind, Parser_bind.
  rewrite (reads_take 1 [b]); [reflexivity | done].
Qed.

Lemma reads_u32 z : is_u32 z → reads p_u32 (u32_le z) z.
Proof.
  intros H. unfold p_u32. rewrite <- (from_le_u32 z H) at 2.
  apply reads_map, reads_take. by rewrite zlen_u32.
Qed.

Lemma reads_u64 z : is_u64 z → reads p_u64 (u64_le z) z.
Proof.
  intros H. unfold p_u64. rewrite <- (from_le_u64 z H) at 2.
  apply reads_map, reads_take. by rewrite zlen_u64.
Qed.

Lemma reads_rep {A} (p : Parser E A) (encs : list bytes) (vs : list A) n :
  Forall2 (reads p) encs vs → n = length vs → reads (p_rep n p) (concat encs) vs.
Proof.
  intros H. revert n. induction H as [|e v encs vs He _ IH]; intros n ->; [apply reads_ret|].
  simpl. eapply reads_bind; [exact He|].
  rewrite <- (app_nil_r (concat encs)).
  eapply reads_bind; [by apply IH | apply reads_ret].
Qed.

(** [p] fails only with the truncation error, and what it returns satisfies [P]. *)
Definition parses {A} (p : Parser E A) (P : A → Prop) : Prop :=
  ∀ bs, match p bs with Ok (a, _) => P a | Err e => e = trunc end.

Lemma parses_ret {A} (v : A) (P : A → Prop) : P v → parses (mret v) P.
Proof. intros H bs. exact H. Qed.

Lemma parses_fail {A} (P : A → Prop) : parses (p_fail trunc) P.
Proof. intros bs. reflexivity. Qed.

Lemma parses_bind {A B} (p : Parser E A) (f : A → Parser E B) (P : A → Prop) Q :
  parses p P → (∀ a, P a → parses (f a) Q) → parses (p ≫= f) Q.
Proof.
  intros H1 H2 bs. unfold mbind, Parser_bind. specialize (H1 bs).
  destruct (p bs) as [[a rest]|e]; [by apply H2 | done].
Qed.

Lemma parses_take n : parses (p_take n) (λ b, 0 ≤ n → zlen b = n).
Proof.
  intros bs. unfold p_take. destruct (Z.ltb_spec (zlen bs) n); [done|].
  intros Hn. len.
Qed.

Lemma parses_u8 : parses p_u8 (λ _, True).
Proof.
  eapply parses_bind; [apply parses_take|].
  intros [|x l] Hx; [apply parses_fail | by apply parses_ret].
Qed.

Lemma parses_u32 : parses p_u32 is_u32.
Proof.
  eapply parses_bind; [apply parses_take|].
  intros b Hb. apply parses_ret, from_le_bound4. len.
Qed.

Lemma parses_u64 : parses p_u64 is_u64.
Proof.
  eapply parses_bind; [apply parses_take|].
  intros b Hb. apply parses_ret, from_le_bound8. len.
Qed.

Lemma parses_rep {A} n (p : Parser E A) (P : A → Prop) :
  parses p P → parses (p_rep n p) (λ l, length l = n ∧ Forall P l).
Proof.
  intros Hp. induction n as [|n IH]; simpl; [by apply parses_ret|].
  eapply parses_bind; [exact Hp|]. intros a Ha.
  eapply parses_bind; [exact IH|]. intros l [Hl HF].
  apply parses_ret. split; [simpl; lia | by constructor].
Qed.
End Parsers.

Create HintDb reads.
Create HintDb parses.
#[export] Hint Resolve parses_ret parses_fail parses_take parses_u8 parses_u32 parses_u64
  parses_rep : parses.
#[export] Hint Resolve reads_ret reads_take reads_u8 reads_u32 reads_u64 reads_rep reads_map : reads.

(** ** Automation shared by the components *)

(** Splits the [Result] binds of the hypotheses and closes contradictory branches. *)
Ltac simp_res :=
  repeat match goal with
  | H : (_ ≫= _) = Ok _ |- _ => apply Result_bind_Ok in H as (? & ? & ?)
  | H : Ok _ = Ok _ |- _ => injection H as H
  | H : Err _ = Ok _ |- _ => discriminate H
  | H : Ok _ = Err _ |- _ => discriminate H
  | H : (_, _) = (_, _) |- _ => injection H as ? ?
  end; try subst.

(** Case split on the innermost [if] or [match] of the goal or of a hypothesis. *)
Ltac case_if :=
  match goal with
  | |- context [if ?b then _ else _] => destruct b eqn:?
  | H : context [if ?b then _ else _] |- _ => destruct b eqn:?
  end.

Ltac bool_to_Prop :=
  repeat match goal with
  | H : (_ <? _) = true |- _ => apply Z.ltb_lt in H
  | H : (_ <? _) = false |- _ => apply Z.ltb_ge in H
  | H : (_ <=? _) = true |- _ => apply Z.leb_le in H
  | H : (_ <=? _) = false |- _ => apply Z.leb_gt in H
  | H : (_ =? _) = true |- _ => apply Z.eqb_eq in H
  | H : (_ =? _) = false |- _ => apply Z.eqb_neq in H
  | H : (_ && _) = true |- _ => apply andb_true_iff in H as [? ?]
  | H : negb _ = true |- _ => apply negb_true_iff in H
  | H : negb _ = false |- _ => apply negb_false_iff in H
  | H : bool_decide _ = true |- _ => apply bool_decide_eq_true in H
  | H : bool_decide _ = false |- _ => apply bool_decide_eq_false in H
  end.
