(* ===== verification/Text.v ===== *)
(** * Rust's [str] methods and integer formatting

    What the sources use of the standard library on object keys and URLs: [strip_prefix],
    [strip_suffix], [split_once], [starts_with], [contains], [rsplit('/').next()], the
    [{:020}] format and [str::parse::<u64>].  Keys are compared byte by byte, as [String]'s
    [Ord] does; zero-padded decimals of one width compare like the numbers. *)

From S2P Require Import Prelude.

#[local] Arguments String.append : simpl nomatch.

Fixpoint strip_prefix (p s : string) : option string :=
  match p, s with
  | EmptyString, _ => Some s
  | String a p, String b s => if Ascii.eqb a b then strip_prefix p s else None
  | String _ _, EmptyString => None
  end.

Definition starts_with (p s : string) : bool :=
  match strip_prefix p s with Some _ => true | None => false end.

Fixpoint strip_suffix (suf s : string) : option string :=
  if String.eqb s suf then Some EmptyString
  else match s with
       | EmptyString => None
       | String a s => String a <$> strip_suffix suf s
       end.

Definition ends_with (suf s : string) : bool :=
  match strip_suffix suf s with Some _ => true | None => false end.

(** [s.split_once(pat)]: around the first occurrence. *)
Fixpoint split_once (pat s : string) : option (string * string) :=
  match strip_prefix pat s with
  | Some r => Some (EmptyString, r)
  | None => match s with
            | EmptyString => None
            | String a s => '(l, r) ← split_once pat s; Some (String a l, r)
            end
  end.

Fixpoint str_contains (pat s : string) : bool :=
  starts_with pat s ||
  match s with EmptyString => false | String _ s => str_contains pat s end.

Fixpoint has_char (c : Ascii.ascii) (s : string) : bool :=
  match s with
  | EmptyString => false
  | String a s => Ascii.eqb a c || has_char c s
  end.

(** [s.split(c).next()]. *)
Fixpoint before_char (c : Ascii.ascii) (s : string) : string :=
  match s with
  | EmptyString => EmptyString
  | String a s => if Ascii.eqb a c then EmptyString else String a (before_char c s)
  end.

(** [s.rsplit(c).next()]: what follows the last [c]. *)
Fixpoint after_last (c : Ascii.ascii) (s : string) : string :=
  match s with
  | EmptyString => EmptyString
  | String a s' => if has_char c s' then after_last c s' else if Ascii.eqb a c then s' else s
  end.

(** ** ASCII case *)

Definition ascii_lower (a : Ascii.ascii) : Ascii.ascii :=
  let n := Ascii.nat_of_ascii a in
  if (65 <=? n)%nat && (n <=? 90)%nat then Ascii.ascii_of_nat (n + 32) else a.

Definition ascii_upper (a : Ascii.ascii) : Ascii.ascii :=
  let n := Ascii.nat_of_ascii a in
  if (97 <=? n)%nat && (n <=? 122)%nat then Ascii.ascii_of_nat (n - 32) else a.

Fixpoint str_map (f : Ascii.ascii → Ascii.ascii) (s : string) : string :=
  match s with EmptyString => EmptyString | String a s => String (f a) (str_map f s) end.

Definition to_ascii_lowercase : string → string := str_map ascii_lower.
Definition to_ascii_uppercase : string → string := str_map ascii_upper.

(** [a.eq_ignore_ascii_case(b)]. *)
Definition eq_ignore_ascii_case (a b : string) : bool :=
  String.eqb (to_ascii_lowercase a) (to_ascii_lowercase b).

(** ** Decimal numbers *)

Definition digit (d : Z) : Ascii.ascii := Ascii.ascii_of_nat (48 + Z.to_nat d).

#[global] Arguments digit : simpl never.

Definition digit_val (a : Ascii.ascii) : option Z :=
  let n := Z.of_nat (Ascii.nat_of_ascii a) in
  if (48 <=? n) && (n <=? 57) then Some (n - 48) else None.

(** The last [k] decimal digits of [n], most significant first. *)
Fixpoint dec_digits (k : nat) (n : Z) : string :=
  match k with
  | O => EmptyString
  | S k => String (digit (n / 10 ^ Z.of_nat k mod 10)) (dec_digits k n)
  end.

(** [format!("{n:020}")]: a [u64] has at most twenty digits. *)
Definition fmt_020 (n : Z) : string := dec_digits 20 n.
#[global] Arguments fmt_020 : simpl never.

Fixpoint parse_digits (s : string) (acc : Z) : option Z :=
  match s with
  | EmptyString => Some acc
  | String a s =>
      match digit_val a with
      | None => None
      | Some d =>
          let acc := acc * 10 + d in
          if u64_max <? acc then None else parse_digits s acc
      end
  end.

(** [s.parse::<u64>().ok()]: an optional [+], then at least one digit, without overflow. *)
Definition parse_u64 (s : string) : option Z :=
  let s := match s with
           | String a r => if Ascii.eqb a "+"%char then r else s
           | EmptyString => s
           end in
  if String.eqb s "" then None else parse_digits s 0.

(** ** Prefixes and suffixes *)

Lemma str_app_assoc (a b c : string) : ((a +:+ b) +:+ c = a +:+ (b +:+ c))%string.
Proof. induction a as [|x a IH]; simpl; congruence. Qed.

Lemma str_app_nil_r (a : string) : (a +:+ "" = a)%string.
Proof. induction a as [|x a IH]; simpl; congruence. Qed.

Lemma str_app_inj_l (p a b : string) : (p +:+ a = p +:+ b)%string → a = b.
Proof. induction p as [|x p IH]; simpl; [done|]. intros [= H]. auto. Qed.

Lemma str_length_app (a b : string) :
  String.length (a +:+ b) = (String.length a + String.length b)%nat.
Proof. induction a as [|x a IH]; simpl; auto. Qed.

Lemma str_app_inj_len (a a' b b' : string) :
  String.length a = String.length a' → (a +:+ b = a' +:+ b')%string → a = a' ∧ b = b'.
Proof.
  revert a'. induction a as [|x a IH]; intros [|y a'] Hl; try discriminate Hl; simpl; [done|].
  intros [= -> H]. injection Hl as Hl. destruct (IH _ Hl H) as [-> ->]. done.
Qed.

Lemma strip_prefix_app (p s : string) : strip_prefix p (p +:+ s) = Some s.
Proof. induction p as [|a p IH]; simpl; [by destruct s | by rewrite Ascii.eqb_refl]. Qed.

Lemma strip_prefix_Some (p s r : string) : strip_prefix p s = Some r ↔ s = (p +:+ r)%string.
Proof.
  split; [|intros ->; apply strip_prefix_app].
  revert s. induction p as [|a p IH]; intros s; simpl.
  - destruct s; congruence.
  - destruct s as [|b s]; [done|]. destruct (Ascii.eqb_spec a b) as [->|]; [|done].
    intros H. by rewrite (IH _ H).
Qed.

Lemma starts_with_true (p s : string) : starts_with p s = true ↔ ∃ r, s = (p +:+ r)%string.
Proof.
  unfold starts_with. destruct (strip_prefix p s) as [r|] eqn:E.
  - split; [|done]. intros _. exists r. by apply strip_prefix_Some.
  - split; [done|]. intros [r Hr%strip_prefix_Some]. congruence.
Qed.

Lemma starts_with_app (p s : string) : starts_with p (p +:+ s) = true.
Proof. apply starts_with_true. by exists s. Qed.

Lemma starts_with_app_l (p a b : string) : starts_with (p +:+ a) (p +:+ b) = starts_with a b.
Proof.
  unfold starts_with. induction p as [|x p IH]; simpl; [done|]. by rewrite Ascii.eqb_refl.
Qed.

Lemma strip_suffix_app (suf s : string) : strip_suffix suf (s +:+ suf) = Some s.
Proof.
  induction s as [|a s IH].
  - cbn [append]. unfold strip_suffix. destruct suf; by rewrite String.eqb_refl.
  - cbn [append strip_suffix].
    destruct (String.eqb_spec (String a (s +:+ suf)) suf) as [H|_].
    + exfalso. apply (f_equal String.length) in H. cbn in H. rewrite str_length_app in H. lia.
    + by rewrite IH.
Qed.

Lemma strip_suffix_Some (suf s r : string) :
  strip_suffix suf s = Some r → s = (r +:+ suf)%string.
Proof.
  revert r. induction s as [|a s IH]; intros r; cbn [strip_suffix].
  - destruct (String.eqb_spec "" suf) as [<-|]; [by intros [= <-]|done].
  - destruct (String.eqb_spec (String a s) suf) as [<-|]; [by intros [= <-]|].
    destruct (strip_suffix suf s) as [r'|]; [|done]. intros [= <-]. by rewrite (IH r').
Qed.

Lemma ends_with_app (suf s : string) : ends_with suf (s +:+ suf) = true.
Proof. unfold ends_with. by rewrite strip_suffix_app. Qed.

Lemma has_char_app c (a b : string) : has_char c (a +:+ b) = has_char c a || has_char c b.
Proof. induction a as [|x a IH]; simpl; [done|]. by rewrite IH, orb_assoc. Qed.

(** The part after the last separator, when the rest has no separator. *)
Lemma after_last_none c (b : string) : has_char c b = false → after_last c b = b.
Proof. destruct b as [|x b]; simpl; [done|]. destruct (Ascii.eqb x c), (has_char c b); done. Qed.

Lemma after_last_app c (a b : string) :
  has_char c b = false → after_last c (a +:+ String c b) = b.
Proof.
  intros Hb. induction a as [|x a IH]; simpl.
  - by rewrite Hb, Ascii.eqb_refl.
  - rewrite has_char_app. simpl. by rewrite Ascii.eqb_refl, orb_true_l, orb_true_r.
Qed.

(** Splitting around a separator whose first character does not occur before it. *)
Lemma split_once_app c pat (a b : string) :
  has_char c a = false → split_once (String c pat) (a +:+ String c pat +:+ b) = Some (a, b).
Proof.
  intros Ha. induction a as [|x a IH].
  - change ("" +:+ ?x)%string with x.
    destruct (String c pat +:+ b)%string eqn:E; unfold split_once; fold split_once;
      by rewrite <- E, strip_prefix_app.
  - cbn [append has_char] in *. apply orb_false_iff in Ha as [Hx Ha].
    cbn [split_once strip_prefix]. by rewrite Ascii.eqb_sym, Hx, IH.
Qed.

(** ** Digits *)

Lemma digit_val_digit d : 0 ≤ d < 10 → digit_val (digit d) = Some d.
Proof.
  intros H. unfold digit_val, digit. rewrite Ascii.nat_ascii_embedding by lia.
  rewrite (proj2 (Z.leb_le _ _)), (proj2 (Z.leb_le _ _)) by lia. cbn [andb]. f_equal. lia.
Qed.

Lemma digit_code d : 0 ≤ d < 10 → Ascii.nat_of_ascii (digit d) = (48 + Z.to_nat d)%nat.
Proof. intros. unfold digit. rewrite Ascii.nat_ascii_embedding; lia. Qed.

Lemma mod10_range n : 0 ≤ n mod 10 < 10.
Proof. apply Z.mod_pos_bound. lia. Qed.

(** No separator of the key grammar is a digit. *)
Lemma dec_digits_no_char c k n :
  digit_val c = None → has_char c (dec_digits k n) = false.
Proof.
  intros Hc. induction k as [|k IH]; cbn [dec_digits has_char]; [done|].
  rewrite IH, orb_false_r.
  apply Ascii.eqb_neq. intros <-. by rewrite digit_val_digit in Hc by apply mod10_range.
Qed.

Lemma length_dec_digits k n : String.length (dec_digits k n) = k.
Proof. induction k; simpl; auto. Qed.

Lemma dec_digits_step k n :
  0 ≤ n → n mod 10 ^ (Z.of_nat (S k))
          = (n / 10 ^ Z.of_nat k mod 10) * 10 ^ Z.of_nat k + n mod 10 ^ Z.of_nat k.
Proof.
  intros Hn. rewrite Nat2Z.inj_succ, Z.pow_succ_r by lia.
  rewrite (Z.mul_comm 10), Z.rem_mul_r by lia. lia.
Qed.

Lemma parse_digits_dec k n acc :
  0 ≤ n → 0 ≤ acc → acc * 10 ^ Z.of_nat k + n mod 10 ^ Z.of_nat k ≤ u64_max →
  parse_digits (dec_digits k n) acc = Some (acc * 10 ^ Z.of_nat k + n mod 10 ^ Z.of_nat k).
Proof.
  intros Hn. revert acc. induction k as [|k IH]; intros acc Hacc Hle.
  - cbn [dec_digits parse_digits]. f_equal. rewrite Z.mod_1_r. lia.
  - cbn [dec_digits parse_digits]. pose proof (mod10_range (n / 10 ^ Z.of_nat k)) as Hd.
    rewrite digit_val_digit by done. rewrite dec_digits_step in * by done.
    rewrite Nat2Z.inj_succ, Z.pow_succ_r in * by lia.
    set (d := _ mod 10) in *. set (P := 10 ^ Z.of_nat k) in *.
    assert (0 < P) by (unfold P; lia). pose proof (Z.mod_pos_bound n P).
    destruct (Z.ltb_spec u64_max (acc * 10 + d)) as [Hlt|_]; [nia|].
    rewrite IH; [f_equal; ring | lia | nia].
Qed.

Lemma u64_lt_10_20 n : is_u64 n → 0 ≤ n ∧ n mod 10 ^ 20 = n.
Proof. unfold is_u64. intros H. split; [lia|]. apply Z.mod_small. lia. Qed.

Lemma parse_fmt_020 n : is_u64 n → parse_u64 (fmt_020 n) = Some n.
Proof.
  intros Hn. destruct (u64_lt_10_20 n Hn) as [H0 Hm]. unfold parse_u64, fmt_020.
  pose proof (parse_digits_dec 20 n 0) as H. change (Z.of_nat 20) with 20 in H. rewrite Hm in H.
  destruct (dec_digits 20 n) as [|a r] eqn:E; [discriminate E|].
  assert (Ascii.eqb a "+"%char = false) as ->.
  { pose proof (dec_digits_no_char "+"%char 20 n eq_refl) as Hc. rewrite E in Hc.
    simpl in Hc. by apply orb_false_iff in Hc as [? _]. }
  cbn [String.eqb]. rewrite H; [done..|]. unfold is_u64, u64_max in *. lia.
Qed.

Lemma fmt_020_inj n m : is_u64 n → is_u64 m → fmt_020 n = fmt_020 m → n = m.
Proof. intros Hn Hm H. apply (f_equal parse_u64) in H. rewrite !parse_fmt_020 in H; congruence. Qed.

(** ** Order *)

Lemma str_compare_app (p a b : string) :
  String.compare (p +:+ a) (p +:+ b) = String.compare a b.
Proof.
  induction p as [|x p IH]; simpl; [done|]. unfold Ascii.compare. by rewrite N.compare_refl.
Qed.

Lemma digit_compare d e :
  0 ≤ d < 10 → 0 ≤ e < 10 → Ascii.compare (digit d) (digit e) = (d ?= e).
Proof.
  intros Hd He. unfold Ascii.compare.
  assert (∀ x, 0 ≤ x < 10 → Ascii.N_of_ascii (digit x) = Z.to_N (48 + x)) as Hc.
  { intros x Hx. apply N2Nat.inj. change (N.to_nat (Ascii.N_of_ascii (digit x)))
      with (Ascii.nat_of_ascii (digit x)). rewrite digit_code by done. lia. }
  rewrite !Hc by done. destruct (Z.compare_spec d e) as [->|H|H].
  - apply N.compare_refl.
  - apply N.compare_lt_iff. lia.
  - apply N.compare_gt_iff. lia.
Qed.

Lemma dec_digits_compare k n m :
  0 ≤ n → 0 ≤ m →
  String.compare (dec_digits k n) (dec_digits k m) = (n mod 10 ^ Z.of_nat k ?= m mod 10 ^ Z.of_nat k).
Proof.
  intros Hn Hm. induction k as [|k IH].
  - simpl. by rewrite !Z.mod_1_r.
  - rewrite !dec_digits_step by done. cbn [dec_digits String.compare].
    rewrite digit_compare by apply mod10_range. rewrite IH.
    set (a := n / _ mod 10). set (b := m / _ mod 10). set (P := 10 ^ Z.of_nat k).
    assert (0 < P) by (unfold P; lia).
    pose proof (Z.mod_pos_bound n P). pose proof (Z.mod_pos_bound m P).
    destruct (Z.compare_spec a b) as [->|Hlt|Hgt].
    + symmetry. apply Zcompare_plus_compat.
    + symmetry. apply Z.compare_lt_iff. nia.
    + symmetry. apply Z.compare_gt_iff. nia.
Qed.

(** Padded numbers under one prefix are ordered like the numbers. *)
Lemma padded_le (p : string) n m :
  is_u64 n → is_u64 m → n ≤ m → String.le (p +:+ fmt_020 n) (p +:+ fmt_020 m).
Proof.
  intros Hn Hm Hle. unfold String.le, String.leb. rewrite str_compare_app. unfold fmt_020.
  destruct (u64_lt_10_20 n Hn), (u64_lt_10_20 m Hm).
  rewrite dec_digits_compare by done. change (Z.of_nat 20) with 20.
  replace (n mod 10 ^ 20) with n by done. replace (m mod 10 ^ 20) with m by done.
  destruct (Z.compare_spec n m); [done..|lia].
Qed.

(** ** ASCII case *)

Lemma ascii_lower_idem a : ascii_lower (ascii_lower a) = ascii_lower a.
Proof. destruct a as [[] [] [] [] [] [] [] []]; reflexivity. Qed.

Lemma to_ascii_lowercase_idem s :
  to_ascii_lowercase (to_ascii_lowercase s) = to_ascii_lowercase s.
Proof.
  unfold to_ascii_lowercase. induction s as [|a s IH]; cbn [str_map]; [done|].
  by rewrite ascii_lower_idem, IH.
Qed.

Lemma eq_ignore_ascii_case_true a b :
  eq_ignore_ascii_case a b = true ↔ to_ascii_lowercase a = to_ascii_lowercase b.
Proof. unfold eq_ignore_ascii_case. apply String.eqb_eq. Qed.

Lemma eq_ignore_ascii_case_lower_l a b :
  eq_ignore_ascii_case (to_ascii_lowercase a) b = eq_ignore_ascii_case a b.
Proof. unfold eq_ignore_ascii_case. by rewrite to_ascii_lowercase_idem. Qed.
