(* ===== verification/StorageTypes.v ===== *)
(** * The types of the storage seam (crates/storage/src/types.rs)

    Pages, log records, fence tokens, branch pointers, the error taxonomy and the counters that
    every backend shares.  The text of an error message is not modelled: an error is its
    constructor and, for [Fenced], the two epochs.  An [Instant] is a number of milliseconds on
    the caller's monotonic clock. *)

From S2P Require Import Prelude.

Definition PAGE_SIZE : Z := 4096.

(** [Lsn], [PageId], [BranchId], [WriterId] are newtypes over unsigned integers. *)
Abbreviation Lsn := Z (only parsing).
Abbreviation PageId := Z (only parsing).
Abbreviation BranchId := Z (only parsing).
Abbreviation WriterId := Z (only parsing).
Abbreviation Instant := Z (only parsing).

Definition Lsn_ZERO : Lsn := 0.
Definition BranchId_ROOT : BranchId := 0.

Record Page := mkPage {
  page_id : PageId;
  page_lsn : Lsn;
  page_bytes : bytes
}.

(** [[0u8; PAGE_SIZE]] overwritten from the start by at most [PAGE_SIZE] bytes of [data]. *)
Definition page_image (data : bytes) : bytes :=
  let n := Z.min (zlen data) PAGE_SIZE in
  take (Z.to_nat n) data ++ replicate (Z.to_nat (PAGE_SIZE - n)) Init.Byte.x00.

(** [Page::from_slice]. *)
Definition Page_from_slice (id : PageId) (lsn : Lsn) (data : bytes) : Page :=
  {| page_id := id; page_lsn := lsn; page_bytes := page_image data |}.

Record WalRecord := mkWal { wal_bytes : bytes }.

Record LogEntry := mkEntry { entry_lsn : Lsn; entry_record : WalRecord }.

Record StorageStats := mkStats {
  wal_appends : Z;
  wal_bytes_total : Z;
  page_reads : Z;
  page_read_bytes : Z;
  cache_hits : Z;
  cache_misses : Z;
  fetch_latency_us_total : Z;
  fsyncs : Z
}.

Definition stats_default : StorageStats := mkStats 0 0 0 0 0 0 0 0.

Record FenceToken := mkToken {
  tok_epoch : Z;
  tok_owner : WriterId;
  tok_lease_until : Instant
}.

Record BranchRef := mkBranch {
  br_id : BranchId;
  br_parent : BranchId;
  br_base_lsn : Lsn;
  br_head_lsn : Lsn
}.

Inductive StorageError :=
| NotFound
| Fenced (held current : Z)
| Contended
| Transient
| DurabilityUnconfirmed
| Corruption
| Invalid.

(** [StorageError::is_retryable]. *)
Definition is_retryable (e : StorageError) : bool :=
  match e with Transient | Contended => true | _ => false end.

#[export] Instance StorageError_eq_dec : EqDecision StorageError.
Proof. solve_decision. Defined.
#[export] Instance WalRecord_eq_dec : EqDecision WalRecord.
Proof. solve_decision. Defined.
#[export] Instance Page_eq_dec : EqDecision Page.
Proof. solve_decision. Defined.
#[export] Instance BranchRef_eq_dec : EqDecision BranchRef.
Proof. solve_decision. Defined.
#[export] Instance FenceToken_eq_dec : EqDecision FenceToken.
Proof. solve_decision. Defined.

Lemma page_image_length data : zlen (page_image data) = PAGE_SIZE.
Proof.
  unfold page_image, PAGE_SIZE, zlen.
  rewrite length_app, length_take, length_replicate. lia.
Qed.

(** The image starts with the data it was built from. *)
Lemma page_image_prefix data :
  zlen data ≤ PAGE_SIZE → take (length data) (page_image data) = data.
Proof.
  intros H. unfold page_image. rewrite Z.min_l by exact H.
  unfold zlen. rewrite Nat2Z.id, (firstn_all data). apply take_app_length.
Qed.

Lemma page_image_image data : page_image (page_image data) = page_image data.
Proof.
  unfold page_image at 1. rewrite page_image_length, Z.min_id, Z.sub_diag. simpl.
  rewrite app_nil_r. apply take_ge. pose proof (page_image_length data). unfold zlen in *. lia.
Qed.

(** ** Branch maps, as both backends keep them *)

Definition br_le (a b : BranchRef) : Prop := br_id a ≤ br_id b.
#[export] Instance br_le_dec a b : Decision (br_le a b).
Proof. unfold br_le. apply _. Defined.
#[export] Instance br_le_total : Total br_le.
Proof. intros a b. unfold br_le. lia. Qed.
#[export] Instance br_le_trans : Transitive br_le.
Proof. intros a b c. unfold br_le. lia. Qed.

(** [v.sort_by_key(|b| b.id.0)] over the values of the map. *)
Definition sorted_branches (m : gmap Z BranchRef) : list BranchRef :=
  merge_sort br_le (map_to_list m).*2.

(** [branches.values().any(|b| b.parent == branch)]. *)
Definition has_children (branch : BranchId) (m : gmap Z BranchRef) : bool :=
  existsb (λ b, br_parent b =? branch) (map_to_list m).*2.

Lemma has_children_false branch m :
  has_children branch m = false ↔ ∀ i b, m !! i = Some b → br_parent b ≠ branch.
Proof.
  unfold has_children. split.
  - intros H i b Hi Hp.
    assert (existsb (λ b, br_parent b =? branch) (map_to_list m).*2 = true); [|congruence].
    apply existsb_exists. exists b. split; [|by apply Z.eqb_eq].
    apply list_elem_of_In, list_elem_of_fmap. exists (i, b).
    split; [done | by apply elem_of_map_to_list].
  - intros H. destruct (existsb _ _) eqn:E; [|done].
    apply existsb_exists in E as (b & Hb & Hp). apply Z.eqb_eq in Hp.
    apply list_elem_of_In, list_elem_of_fmap in Hb as ([i b'] & -> & Hib).
    apply elem_of_map_to_list in Hib. by destruct (H i b').
Qed.

#[global] Opaque page_image.
