(* ===== verification/Crc32.v ===== *)
(** * CRC-32, as both storage backends compute it

    [crc32_table], [crc32] and [crc32_pair] of crates/storage/src/local.rs (the same two
    functions are repeated in object/codec.rs).  A [u32] is a [Z] below 2^32.  The table-driven
    loop is shown equal to the bit-serial definition of the checksum, and the checksum is shown
    to detect every change confined to one byte. *)

From S2P Require Import Prelude.

Module Crc.

(** One turn of the inner [while k < 8]. *)
Definition crc_bit (c : Z) : Z :=
  if Z.land c 1 =? 0 then Z.shiftr c 1 else Z.lxor 0xEDB88320 (Z.shiftr c 1).

Definition crc_bits8 (c : Z) : Z := Nat.iter 8 crc_bit c.

Definition crc32_table : list Z :=
  Eval vm_compute in map (λ i, crc_bits8 (Z.of_nat i)) (seq 0 256).

Definition crc_step (crc : Z) (b : Init.Byte.byte) : Z :=
  Z.lxor (nth (Z.to_nat (Z.land (Z.lxor crc (byte.unsigned b)) 0xFF)) crc32_table 0)
         (Z.shiftr crc 8).

Definition crc32 (data : bytes) : Z :=
  Z.lxor (fold_left crc_step data 0xFFFFFFFF) 0xFFFFFFFF.

Definition crc32_pair (tag : Init.Byte.byte) (payload : bytes) : Z :=
  Z.lxor (fold_left crc_step payload (crc_step 0xFFFFFFFF tag)) 0xFFFFFFFF.

(** The bit-serial CRC-32 (reflected, polynomial 0xEDB88320): no table. *)
Definition crc32_serial (data : bytes) : Z :=
  Z.lxor (fold_left (λ c b, crc_bits8 (Z.lxor c (byte.unsigned b))) data 0xFFFFFFFF) 0xFFFFFFFF.

(** ** The register stays 32 bits wide *)

Lemma u32_bits z : is_u32 z ↔ 0 ≤ z ∧ ∀ i, 32 ≤ i → Z.testbit z i = false.
Proof.
  unfold is_u32. split.
  - intros [H1 H2]. split; [done|]. intros i Hi.
    destruct (Z.eq_dec z 0) as [->|]; [apply Z.bits_0|].
    apply Z.bits_above_log2; [done|].
    assert (Z.log2 z < 32) by (apply Z.log2_lt_pow2; lia). lia.
  - intros [H1 H2]. split; [done|]. destruct (Z.eq_dec z 0) as [->|]; [lia|].
    destruct (Z.lt_ge_cases z (2^32)) as [|Hge]; [done|].
    assert (32 ≤ Z.log2 z) by (apply Z.log2_le_pow2; lia).
    assert (Z.testbit z (Z.log2 z) = true) as T by (apply Z.bit_log2; lia).
    rewrite H2 in T; [discriminate | done].
Qed.

Lemma lxor_u32 a b : is_u32 a → is_u32 b → is_u32 (Z.lxor a b).
Proof.
  rewrite !u32_bits. intros [Ha Ha'] [Hb Hb']. split; [by apply Z.lxor_nonneg|].
  intros i Hi. by rewrite Z.lxor_spec, Ha', Hb'.
Qed.

Lemma shiftr_u32 a n : 0 ≤ n → is_u32 a → is_u32 (Z.shiftr a n).
Proof.
  rewrite !u32_bits. intros Hn [Ha Ha']. split; [by apply Z.shiftr_nonneg|].
  intros i Hi. rewrite Z.shiftr_spec by lia. apply Ha'. lia.
Qed.

Lemma byte_u32 b : is_u32 (byte.unsigned b).
Proof. pose proof (byte.unsigned_range b). unfold is_u32. lia. Qed.

Lemma poly_u32 : is_u32 0xEDB88320.
Proof. unfold is_u32. lia. Qed.

Lemma ones_u32 : is_u32 0xFFFFFFFF.
Proof. unfold is_u32. lia. Qed.

Lemma crc_bit_u32 c : is_u32 c → is_u32 (crc_bit c).
Proof.
  intros H. unfold crc_bit. case_if.
  - apply shiftr_u32; [lia | done].
  - apply lxor_u32; [apply poly_u32 | apply shiftr_u32; [lia | done]].
Qed.

Lemma crc_bits_u32 n c : is_u32 c → is_u32 (Nat.iter n crc_bit c).
Proof. intros H. induction n; simpl; [done | by apply crc_bit_u32]. Qed.

#[local] Hint Resolve lxor_u32 byte_u32 ones_u32 crc_bits_u32 : core.

(** ** Linearity over xor *)

Lemma land_1_bit0 c : (Z.land c 1 =? 0) = negb (Z.testbit c 0).
Proof.
  change 1 with (Z.ones 1). rewrite Z.land_ones by lia. change (2 ^ 1) with 2.
  rewrite Zmod_odd, Z.bit0_odd. by destruct (Z.odd c).
Qed.

Lemma crc_bit_alt c :
  crc_bit c = Z.lxor (if Z.testbit c 0 then 0xEDB88320 else 0) (Z.shiftr c 1).
Proof. unfold crc_bit. rewrite land_1_bit0. by destruct (Z.testbit c 0). Qed.

Lemma lxor_swap a b c d : Z.lxor (Z.lxor a b) (Z.lxor c d) = Z.lxor (Z.lxor a c) (Z.lxor b d).
Proof.
  apply Z.bits_inj'. intros n _. rewrite !Z.lxor_spec.
  by destruct (Z.testbit a n), (Z.testbit b n), (Z.testbit c n), (Z.testbit d n).
Qed.

Lemma crc_bit_lxor a b : crc_bit (Z.lxor a b) = Z.lxor (crc_bit a) (crc_bit b).
Proof.
  rewrite !crc_bit_alt, lxor_swap, Z.shiftr_lxor, Z.lxor_spec. f_equal.
  by destruct (Z.testbit a 0), (Z.testbit b 0).
Qed.

Lemma crc_bits_lxor n a b :
  Nat.iter n crc_bit (Z.lxor a b) = Z.lxor (Nat.iter n crc_bit a) (Nat.iter n crc_bit b).
Proof. induction n as [|n IH]; simpl; [done|]. by rewrite IH, crc_bit_lxor. Qed.

(** Shifting out zero bits leaves the rest of the register. *)
Lemma crc_bits_shiftl n y : Nat.iter n crc_bit (Z.shiftl y (Z.of_nat n)) = y.
Proof.
  induction n as [|n IH]; [apply Z.shiftl_0_r|].
  rewrite Nat.iter_succ_r, crc_bit_alt.
  rewrite Z.shiftl_spec_low by lia. rewrite Z.lxor_0_l, Z.shiftr_shiftl_l by lia.
  by replace (Z.of_nat (S n) - 1) with (Z.of_nat n) by lia.
Qed.

Lemma split_low8 x : x = Z.lxor (Z.land x 0xFF) (Z.shiftl (Z.shiftr x 8) 8).
Proof.
  apply Z.bits_inj'. intros n Hn. rewrite Z.lxor_spec, Z.land_spec.
  change 0xFF with (Z.ones 8). destruct (Z.lt_ge_cases n 8).
  - rewrite Z.ones_spec_low, Z.shiftl_spec_low by lia. by destruct (Z.testbit x n).
  - rewrite Z.ones_spec_high, Z.shiftl_spec, Z.shiftr_spec by lia.
    rewrite andb_false_r. by replace (n - 8 + 8) with n by lia.
Qed.

Lemma crc32_table_spec i : 0 ≤ i < 256 → nth (Z.to_nat i) crc32_table 0 = crc_bits8 i.
Proof.
  intros H.
  assert (∀ k, (k < 256)%nat → nth k crc32_table 0 = crc_bits8 (Z.of_nat k)) as T.
  { intros k Hk.
    change crc32_table with (map (λ i, crc_bits8 (Z.of_nat i)) (seq 0 256)).
    rewrite (nth_indep _ 0 (crc_bits8 (Z.of_nat 0))) by (rewrite length_map, length_seq; lia).
    rewrite (map_nth (λ i, crc_bits8 (Z.of_nat i))), seq_nth by lia. done. }
  rewrite T by lia. by rewrite Z2Nat.id by lia.
Qed.

Lemma low8_range x : 0 ≤ Z.land x 0xFF < 256.
Proof. change 0xFF with (Z.ones 8). rewrite Z.land_ones by lia. apply Z.mod_pos_bound. lia. Qed.

Lemma crc_step_serial c b : crc_step c b = crc_bits8 (Z.lxor c (byte.unsigned b)).
Proof.
  unfold crc_step. rewrite crc32_table_spec by apply low8_range.
  rewrite (split_low8 (Z.lxor c (byte.unsigned b))) at 2.
  unfold crc_bits8 at 2. rewrite crc_bits_lxor.
  rewrite (crc_bits_shiftl 8). unfold crc_bits8. f_equal.
  rewrite Z.shiftr_lxor.
  assert (Z.shiftr (byte.unsigned b) 8 = 0) as ->; [|by rewrite Z.lxor_0_r].
  rewrite Z.shiftr_div_pow2 by lia. apply Z.div_small. apply byte.unsigned_range.
Qed.

Lemma crc_step_u32 c b : is_u32 c → is_u32 (crc_step c b).
Proof. intros. rewrite crc_step_serial. unfold crc_bits8. auto. Qed.

Lemma crc_fold_u32 data c : is_u32 c → is_u32 (fold_left crc_step data c).
Proof.
  revert c. induction data as [|b data IH]; simpl; [done|].
  intros c H. by apply IH, crc_step_u32.
Qed.

Lemma crc32_u32 data : is_u32 (crc32 data).
Proof. apply lxor_u32; [by apply crc_fold_u32 | done]. Qed.

(** The pair checksum is the checksum of the tag followed by the payload. *)
Lemma crc32_pair_cons tag payload : crc32_pair tag payload = crc32 (tag :: payload).
Proof. reflexivity. Qed.

(** ** Injectivity of the register update *)

Lemma crc_bit_inj a b : is_u32 a → is_u32 b → crc_bit a = crc_bit b → a = b.
Proof.
  intros Ha Hb H. rewrite !crc_bit_alt in H.
  assert (∀ x, is_u32 x → Z.testbit (Z.shiftr x 1) 31 = false) as Hi.
  { intros x Hx. rewrite Z.shiftr_spec by lia. apply u32_bits in Hx as [_ Hx]. apply Hx. lia. }
  assert (Z.testbit a 0 = Z.testbit b 0) as H0.
  { apply (f_equal (λ z, Z.testbit z 31)) in H.
    rewrite !Z.lxor_spec, !Hi, !xorb_false_r in H by done.
    by destruct (Z.testbit a 0), (Z.testbit b 0). }
  rewrite H0 in H.
  assert (Z.shiftr a 1 = Z.shiftr b 1) as Hs.
  { apply (f_equal (Z.lxor (if Z.testbit b 0 then 0xEDB88320 else 0))) in H.
    by rewrite <- !Z.lxor_assoc, !Z.lxor_nilpotent, !Z.lxor_0_l in H. }
  apply Z.bits_inj'. intros n Hn. destruct (Z.eq_dec n 0) as [->|]; [done|].
  apply (f_equal (λ z, Z.testbit z (n - 1))) in Hs.
  rewrite !Z.shiftr_spec in Hs by lia. by replace (n - 1 + 1) with n in Hs by lia.
Qed.

Lemma crc_bits_inj n a b :
  is_u32 a → is_u32 b → Nat.iter n crc_bit a = Nat.iter n crc_bit b → a = b.
Proof.
  intros Ha Hb. induction n as [|n IH]; simpl; [done|].
  intros H. apply IH, crc_bit_inj; auto.
Qed.

Lemma lxor_inj_r a b c : Z.lxor a c = Z.lxor b c → a = b.
Proof.
  intros H. apply (f_equal (λ z, Z.lxor z c)) in H.
  by rewrite !Z.lxor_assoc, !Z.lxor_nilpotent, !Z.lxor_0_r in H.
Qed.

Lemma crc_step_inj_state b c1 c2 :
  is_u32 c1 → is_u32 c2 → crc_step c1 b = crc_step c2 b → c1 = c2.
Proof.
  intros. apply (lxor_inj_r _ _ (byte.unsigned b)), (crc_bits_inj 8); auto.
  by rewrite !crc_step_serial in *.
Qed.

Lemma crc_step_inj_byte c b1 b2 : is_u32 c → crc_step c b1 = crc_step c b2 → b1 = b2.
Proof.
  intros Hc H. rewrite !crc_step_serial in H. apply crc_bits_inj in H; auto.
  apply byte.unsigned_inj, (lxor_inj_r _ _ c). by rewrite (Z.lxor_comm _ c), (Z.lxor_comm _ c).
Qed.

Lemma crc_fold_inj data c1 c2 :
  is_u32 c1 → is_u32 c2 → fold_left crc_step data c1 = fold_left crc_step data c2 → c1 = c2.
Proof.
  revert c1 c2. induction data as [|b data IH]; simpl; [done|].
  intros c1 c2 H1 H2 H. apply (crc_step_inj_state b); [done..|].
  apply IH; [by apply crc_step_u32..|done].
Qed.

Lemma crc32_detects_byte_change_l pre b1 b2 post :
  b1 ≠ b2 → crc32 (pre ++ b1 :: post) ≠ crc32 (pre ++ b2 :: post).
Proof.
  intros Hne H. apply Hne. unfold crc32 in H. apply lxor_inj_r in H.
  rewrite !fold_left_app in H. simpl in H.
  apply (crc_step_inj_byte (fold_left crc_step pre 0xFFFFFFFF)); [by apply crc_fold_u32|].
  eapply crc_fold_inj; [..|exact H]; by apply crc_step_u32, crc_fold_u32.
Qed.

(** The table-driven checksum is the bit-serial CRC-32: for every byte string the loop over
    the 256-entry table computes what shifting the register one bit at a time through the
    reflected polynomial 0xEDB88320 computes. *)
Theorem crc32_is_serial data : crc32 data = crc32_serial data.
Proof.
  unfold crc32, crc32_serial. f_equal. generalize 0xFFFFFFFF.
  induction data as [|b data IH]; intros c; simpl; [done|]. by rewrite crc_step_serial, IH.
Qed.

(** The checksum detects every change confined to one byte, at any position of any string. *)
Theorem crc32_detects_byte_change pre b1 b2 post :
  b1 ≠ b2 → crc32 (pre ++ b1 :: post) ≠ crc32 (pre ++ b2 :: post).
Proof. apply crc32_detects_byte_change_l. Qed.

Lemma crc32_detects_byte_change_witness :
  crc32 ([Init.Byte.x31] ++ Init.Byte.x32 :: []) ≠ crc32 ([Init.Byte.x31] ++ Init.Byte.x33 :: []).
Proof. apply crc32_detects_byte_change. discriminate. Defined.

End Crc.

#[global] Opaque Crc.crc32 Crc.crc32_pair.
