(* ===== verification/LocalStore.v ===== *)
(** * The embedded backend (crates/storage/src/local.rs)

    One [.db] file: a 64-byte header, then CRC-checked frames.  [Inner] is the state behind the
    lock; its [file] field is the content of the open file.  Every I/O call can fail: an
    operation that writes takes an [Io] saying how its write ended, and a failed or interrupted
    write leaves a prefix of the buffer in the file. *)

From S2P Require Import Prelude Text StorageTypes Crc32.

Module Local.

Definition MAGIC : bytes := list_byte_of_string "BYDESIGN".
Definition FORMAT_VERSION : Z := 1.
Definition HEADER_SIZE : Z := 64.
Definition FENCE_LEASE : Z := 10000.

(** [(version_lsn, image)] entries in ascending LSN. *)
Abbreviation PageChain := (list (Z * bytes)).

Definition T_WAL : Init.Byte.byte := Init.Byte.x01.
Definition T_PAGE : Init.Byte.byte := Init.Byte.x02.
Definition T_FENCE : Init.Byte.byte := Init.Byte.x03.
Definition T_RETENTION : Init.Byte.byte := Init.Byte.x04.
Definition T_BRANCH : Init.Byte.byte := Init.Byte.x05.
Definition T_BRANCH_DEL : Init.Byte.byte := Init.Byte.x06.

Inductive Frame :=
| FWal (records : list (Lsn * WalRecord)) (commit_lsn : Lsn)
| FPage (lsn : Lsn) (page_id : Z) (image : bytes)
| FFence (epoch : Z)
| FRetention (floor : Z)
| FBranch (id base_lsn parent : Z)
| FBranchDel (id : Z).

Record Inner := mkInner {
  file : bytes;
  end_ : Z;
  next_lsn : Z;
  durable_lsn : Z;
  commit_lsn : Z;
  epoch : Z;
  retention_floor : Z;
  pages : gmap Z PageChain;
  branches : gmap Z BranchRef;
  next_branch_id : Z;
  stats : StorageStats
}.

Definition set_file (f : bytes) (g : Inner) : Inner :=
  mkInner f (end_ g) (next_lsn g) (durable_lsn g) (commit_lsn g) (epoch g) (retention_floor g)
    (pages g) (branches g) (next_branch_id g) (stats g).
Definition set_end (e : Z) (g : Inner) : Inner :=
  mkInner (file g) e (next_lsn g) (durable_lsn g) (commit_lsn g) (epoch g) (retention_floor g)
    (pages g) (branches g) (next_branch_id g) (stats g).
Definition set_next_lsn (n : Z) (g : Inner) : Inner :=
  mkInner (file g) (end_ g) n (durable_lsn g) (commit_lsn g) (epoch g) (retention_floor g)
    (pages g) (branches g) (next_branch_id g) (stats g).
Definition set_durable_lsn (n : Z) (g : Inner) : Inner :=
  mkInner (file g) (end_ g) (next_lsn g) n (commit_lsn g) (epoch g) (retention_floor g)
    (pages g) (branches g) (next_branch_id g) (stats g).
Definition set_commit_lsn (n : Z) (g : Inner) : Inner :=
  mkInner (file g) (end_ g) (next_lsn g) (durable_lsn g) n (epoch g) (retention_floor g)
    (pages g) (branches g) (next_branch_id g) (stats g).
Definition set_epoch (e : Z) (g : Inner) : Inner :=
  mkInner (file g) (end_ g) (next_lsn g) (durable_lsn g) (commit_lsn g) e (retention_floor g)
    (pages g) (branches g) (next_branch_id g) (stats g).
Definition set_floor (f : Z) (g : Inner) : Inner :=
  mkInner (file g) (end_ g) (next_lsn g) (durable_lsn g) (commit_lsn g) (epoch g) f
    (pages g) (branches g) (next_branch_id g) (stats g).
Definition set_pages (p : gmap Z PageChain) (g : Inner) : Inner :=
  mkInner (file g) (end_ g) (next_lsn g) (durable_lsn g) (commit_lsn g) (epoch g)
    (retention_floor g) p (branches g) (next_branch_id g) (stats g).
Definition set_branches (b : gmap Z BranchRef) (g : Inner) : Inner :=
  mkInner (file g) (end_ g) (next_lsn g) (durable_lsn g) (commit_lsn g) (epoch g)
    (retention_floor g) (pages g) b (next_branch_id g) (stats g).
Definition set_next_branch_id (n : Z) (g : Inner) : Inner :=
  mkInner (file g) (end_ g) (next_lsn g) (durable_lsn g) (commit_lsn g) (epoch g)
    (retention_floor g) (pages g) (branches g) n (stats g).
Definition set_stats (s : StorageStats) (g : Inner) : Inner :=
  mkInner (file g) (end_ g) (next_lsn g) (durable_lsn g) (commit_lsn g) (epoch g)
    (retention_floor g) (pages g) (branches g) (next_branch_id g) s.

Definition add_fsync (s : StorageStats) : StorageStats :=
  mkStats (wal_appends s) (wal_bytes_total s) (page_reads s) (page_read_bytes s) (cache_hits s)
    (cache_misses s) (fetch_latency_us_total s) (fsyncs s + 1).
Definition add_wal_append (n : Z) (s : StorageStats) : StorageStats :=
  mkStats (wal_appends s + 1) (wal_bytes_total s + n) (page_reads s) (page_read_bytes s)
    (cache_hits s) (cache_misses s) (fetch_latency_us_total s) (fsyncs s).
Definition add_page_read (s : StorageStats) : StorageStats :=
  mkStats (wal_appends s) (wal_bytes_total s) (page_reads s + 1) (page_read_bytes s + PAGE_SIZE)
    (cache_hits s) (cache_misses s) (fetch_latency_us_total s) (fsyncs s).

(** ** The file *)

(** How one write ended.  [IoWriteErr n]: [write_all] failed, or the machine stopped, after [n]
    bytes of the buffer reached the file. *)
Inductive Io :=
| IoOk
| IoSeekErr
| IoWriteErr (n : nat)
| IoSyncErr.

(** [seek(Start(off))] then [write_all(buf)]: overwrites, extending the file when needed. *)
Definition write_at (off : Z) (buf : bytes) (f : bytes) : bytes :=
  let o := Z.to_nat off in
  take o f ++ replicate (o - length f) Init.Byte.x00 ++ buf ++ drop (o + length buf) f.

(** [Inner::append_frame]. *)
Definition append_frame (io : Io) (tag : Init.Byte.byte) (payload : bytes)
    : Comp Inner StorageError unit := λ g,
  let len := zlen payload + 1 in
  let crc := Crc.crc32_pair tag payload in
  let buf := u32_le len ++ [tag] ++ payload ++ u32_le crc in
  match io with
  | IoSeekErr => (g, Err Transient)
  | IoWriteErr n =>
      (set_file (write_at (end_ g) (take n buf) (file g)) g, Err DurabilityUnconfirmed)
  | IoSyncErr => (set_file (write_at (end_ g) buf (file g)) g, Err DurabilityUnconfirmed)
  | IoOk =>
      let g := set_file (write_at (end_ g) buf (file g)) g in
      let g := set_end (end_ g + zlen buf) g in
      (set_stats (add_fsync (stats g)) g, Ok tt)
  end.

(** ** Reading the log back *)

Definition u32_at (l : bytes) (p : Z) : Z := from_le (slice l p (p + 4)).
Definition u64_at (l : bytes) (p : Z) : Z := from_le (slice l p (p + 8)).

(** The [for _ in 0..count] loop of a WAL frame.  The LSN counter keeps what the loop did to it
    even when the batch turns out torn ([None]). *)
Fixpoint read_records (n : nat) (payload : bytes) (p next_lsn : Z)
    : Z * option (list (Lsn * WalRecord)) :=
  match n with
  | O => (next_lsn, Some [])
  | S n =>
      if zlen payload <? p + 4 then (next_lsn, None)
      else
        let rlen := u32_at payload p in
        let p := p + 4 in
        if zlen payload <? p + rlen then (next_lsn, None)
        else
          let rec := (next_lsn, mkWal (slice payload p (p + rlen))) in
          let '(next, rest) := read_records n payload (p + rlen) (next_lsn + 1) in
          (next, (rec ::.) <$> rest)
  end.

(** The [match tag] of [read_log]: the next LSN, and the frame or [None] for a [break]. *)
Definition parse_body (body : bytes) (next_lsn : Z) : Z * option Frame :=
  match body with
  | [] => (next_lsn, None)
  | tag :: payload =>
      if bool_decide (tag = T_WAL) then
        if zlen payload <? 4 then (next_lsn, None)
        else
          let count := u32_at payload 0 in
          match read_records (Z.to_nat count) payload 4 next_lsn with
          | (next, None) => (next, None)
          | (next, Some records) =>
              if bool_decide (zlen records ≠ count) then (next, None)
              else
                let commit := match last records with Some (l, _) => l | None => Lsn_ZERO end in
                (next, Some (FWal records commit))
          end
      else if bool_decide (tag = T_PAGE) then
        if zlen payload <? 8 then (next_lsn, None)
        else (next_lsn + 1, Some (FPage next_lsn (u64_at payload 0) (drop 8 payload)))
      else if bool_decide (tag = T_FENCE) then
        if zlen payload <? 8 then (next_lsn, None)
        else (next_lsn, Some (FFence (u64_at payload 0)))
      else if bool_decide (tag = T_RETENTION) then
        if zlen payload <? 8 then (next_lsn, None)
        else (next_lsn, Some (FRetention (u64_at payload 0)))
      else if bool_decide (tag = T_BRANCH) then
        if zlen payload <? 24 then (next_lsn, None)
        else (next_lsn,
              Some (FBranch (u64_at payload 0) (u64_at payload 8) (u64_at payload 16)))
      else if bool_decide (tag = T_BRANCH_DEL) then
        if zlen payload <? 8 then (next_lsn, None)
        else (next_lsn, Some (FBranchDel (u64_at payload 0)))
      else (next_lsn, None)
  end.

(** The [while pos + 4 <= total] loop: the frames, the end of the last good one, the next LSN.
    Every turn moves [pos] by at least nine bytes, so the length of the file is enough fuel. *)
Fixpoint read_frames (fuel : nat) (all : bytes) (pos next_lsn : Z) : list Frame * Z * Z :=
  match fuel with
  | O => ([], pos, next_lsn)
  | S fuel =>
      let total := zlen all in
      if total <? pos + 4 then ([], pos, next_lsn)
      else
        let len := u32_at all pos in
        let frame_end := pos + 4 + len + 4 in
        if (len =? 0) || (total <? frame_end) then ([], pos, next_lsn)
        else
          let body := slice all (pos + 4) (pos + 4 + len) in
          let crc_stored := u32_at all (pos + 4 + len) in
          if negb (Crc.crc32 body =? crc_stored) then ([], pos, next_lsn)
          else
            match parse_body body next_lsn with
            | (next, None) => ([], pos, next)
            | (next, Some f) =>
                let '(fs, e, n) := read_frames fuel all frame_end next in (f :: fs, e, n)
            end
  end.

Definition read_log (all : bytes) : Result StorageError (list Frame * Z * Z) :=
  if zlen all <? HEADER_SIZE then Err Corruption
  else if bool_decide (slice all 0 8 ≠ MAGIC) then Err Corruption
  else if negb (u32_at all 8 =? FORMAT_VERSION) then Err Invalid
  else if negb (u32_at all 12 =? PAGE_SIZE) then Err Invalid
  else Ok (read_frames (length all) all HEADER_SIZE 1).

(** ** Recovery *)

(** [pages.entry(id).or_default().push(v)]. *)
Definition push_page (id : Z) (v : Z * bytes) (m : gmap Z PageChain) : gmap Z PageChain :=
  <[id := default [] (m !! id) ++ [v]]> m.

(** One turn of the [for f in frames] of [recover]. *)
Definition apply_frame (g : Inner) (f : Frame) : Inner :=
  match f with
  | FWal _ c =>
      set_commit_lsn (Z.max (commit_lsn g) c) (set_durable_lsn (Z.max (durable_lsn g) c) g)
  | FPage lsn id image =>
      let g := set_durable_lsn (Z.max (durable_lsn g) lsn) g in
      set_pages (push_page id (lsn, page_image image) (pages g)) g
  | FFence e => set_epoch (Z.max (epoch g) e) g
  | FRetention fl => set_floor (Z.max (retention_floor g) fl) g
  | FBranch id base parent =>
      let g := set_branches (<[id := mkBranch id parent base base]> (branches g)) g in
      set_next_branch_id (Z.max (next_branch_id g) (id + 1)) g
  | FBranchDel id => set_branches (delete id (branches g)) g
  end.

(** The state of [open] on an empty file, and the accumulator [recover] starts from. *)
Definition inner_new (f : bytes) : Inner :=
  mkInner f HEADER_SIZE 1 0 0 0 0 ∅ ∅ 1 stats_default.

Definition recover (f : bytes) : Result StorageError Inner :=
  '(frames, e, next) ← read_log f;
  Ok (set_end e (set_next_lsn next (fold_left apply_frame frames (inner_new f)))).

(** ** Opening *)

Definition header_bytes : bytes :=
  MAGIC ++ u32_le FORMAT_VERSION ++ u32_le PAGE_SIZE ++ replicate 48 Init.Byte.x00.

(** [write_header]: the file after the write, and how it ended. *)
Definition write_header (io : Io) (f : bytes) : bytes * Result StorageError unit :=
  match io with
  | IoSeekErr => (f, Err Transient)
  | IoWriteErr n => (write_at 0 (take n header_bytes) f, Err DurabilityUnconfirmed)
  | IoSyncErr => (write_at 0 header_bytes f, Err DurabilityUnconfirmed)
  | IoOk => (write_at 0 header_bytes f, Ok tt)
  end.

(** [set_len(end)] and [sync_all] when recovery found a torn tail. *)
Definition heal (io : Io) : Comp Inner StorageError unit := λ g,
  if end_ g <? zlen (file g) then
    match io with
    | IoSeekErr | IoWriteErr _ => (g, Err Transient)
    | IoSyncErr => (set_file (take (Z.to_nat (end_ g)) (file g)) g, Err DurabilityUnconfirmed)
    | IoOk => (set_file (take (Z.to_nat (end_ g)) (file g)) g, Ok tt)
    end
  else (g, Ok tt).

(** [LocalFileStorage::open] on a file with content [f]: the content it leaves, and the state
    or the error. *)
Definition open_file (io_header io_heal : Io) (f : bytes) : bytes * Result StorageError Inner :=
  let '(f, r) :=
    if zlen f =? 0 then
      let '(f, r) := write_header io_header f in (f, _ ← r; Ok (inner_new f))
    else (f, recover f) in
  match r with
  | Err e => (f, Err e)
  | Ok g => match heal io_heal g with
            | (g, Ok _) => (file g, Ok g)
            | (g, Err e) => (file g, Err e)
            end
  end.

(** [parse_file_url]: the path of a [file://] URL, without its query string. *)
Definition parse_file_url (url : string) : Result StorageError string :=
  match strip_prefix "file://" url with
  | None => Err Invalid
  | Some rest =>
      let rest := before_char "?"%char rest in
      if String.eqb rest "" then Err Invalid else Ok rest
  end.

(** ** The [Storage] methods *)

Definition check_fence (token : FenceToken) : Comp Inner StorageError unit := λ g,
  if negb (tok_epoch token =? epoch g)
  then (g, Err (Fenced (tok_epoch token) (epoch g)))
  else (g, Ok tt).

(** [chain.iter().rev().find(|(vlsn, _)| *vlsn <= lsn)]. *)
Definition find_version (chain : PageChain) (lsn : Lsn) : option (Z * bytes) :=
  List.find (λ v, v.1 <=? lsn) (rev chain).

Definition get_page (id : PageId) (lsn : Lsn) : Comp Inner StorageError Page := λ g,
  if lsn <? retention_floor g then (g, Err NotFound)
  else
    match pages g !! id with
    | None => (g, Err NotFound)
    | Some chain =>
        match find_version chain lsn with
        | Some (vlsn, image) =>
            (set_stats (add_page_read (stats g)) g, Ok (mkPage id vlsn image))
        | None => (g, Err NotFound)
        end
    end.

(** [Storage::get_pages], the default serial fan-out. *)
Fixpoint get_pages (ids : list PageId) (lsn : Lsn)
    : Comp Inner StorageError (list (Result StorageError Page)) := λ g,
  match ids with
  | [] => (g, Ok [])
  | id :: ids =>
      let '(g, r) := get_page id lsn g in
      match get_pages ids lsn g with
      | (g, Ok rs) => (g, Ok (r :: rs))
      | (g, Err e) => (g, Err e)
      end
  end.

Definition wal_payload (records : list WalRecord) : bytes :=
  u32_le (zlen records) ++
  concat (map (λ r, u32_le (zlen (wal_bytes r)) ++ wal_bytes r) records).

Definition append_wal (io : Io) (token : FenceToken) (records : list WalRecord)
    : Comp Inner StorageError Lsn :=
  (if bool_decide (records = []) then comp_err Invalid
   else
     do! check_fence token in
     let payload := wal_payload records in
     do! append_frame io T_WAL payload in
     λ g,
       let first := next_lsn g in
       let last := first + zlen records - 1 in
       let g := set_next_lsn (last + 1) g in
       let g := set_durable_lsn last g in
       let g := set_commit_lsn last g in
       (set_stats (add_wal_append (zlen payload) (stats g)) g, Ok last))%comp.

Definition put_page (io : Io) (token : FenceToken) (id : PageId) (image : bytes)
    : Comp Inner StorageError Lsn :=
  (if PAGE_SIZE <? zlen image then comp_err Invalid
   else
     do! check_fence token in
     do! append_frame io T_PAGE (u64_le id ++ image) in
     λ g,
       let lsn := next_lsn g in
       let g := set_next_lsn (lsn + 1) g in
       let g := set_durable_lsn lsn g in
       (set_pages (push_page id (lsn, page_image image) (pages g)) g, Ok lsn))%comp.

Definition wal_entries (after : Lsn) (frames : list Frame) : list LogEntry :=
  concat (map (λ f, match f with
                    | FWal records _ =>
                        map (λ p, mkEntry p.1 p.2) (List.filter (λ p, after <? p.1) records)
                    | _ => []
                    end) frames).

Definition scan_wal (after : Lsn) (g : Inner) : Result StorageError (list LogEntry) :=
  '(frames, _, _) ← read_log (file g); Ok (wal_entries after frames).

Definition flush (io : Io) : Comp Inner StorageError unit := λ g,
  match io with
  | IoOk => (set_stats (add_fsync (stats g)) g, Ok tt)
  | _ => (g, Err DurabilityUnconfirmed)
  end.

Definition acquire_fence (io : Io) (now : Instant) (owner : WriterId)
    : Comp Inner StorageError FenceToken := λ g,
  let new_epoch := epoch g + 1 in
  (do! append_frame io T_FENCE (u64_le new_epoch) in
   λ g, (set_epoch new_epoch g, Ok (mkToken new_epoch owner (now + FENCE_LEASE))))%comp g.

Definition renew_fence (now : Instant) (token : FenceToken) : Comp Inner StorageError FenceToken :=
  λ g,
  if negb (tok_epoch token =? epoch g)
  then (g, Err (Fenced (tok_epoch token) (epoch g)))
  else (g, Ok (mkToken (tok_epoch token) (tok_owner token) (now + FENCE_LEASE))).

Definition release_fence (token : FenceToken) : Comp Inner StorageError unit := comp_ret tt.

Definition branch_payload (id base parent : Z) : bytes :=
  u64_le id ++ u64_le base ++ u64_le parent.

Definition create_branch (io : Io) (base_lsn : Lsn) : Comp Inner StorageError BranchId := λ g,
  if base_lsn <? retention_floor g then (g, Err NotFound)
  else
    let id := next_branch_id g in
    (do! append_frame io T_BRANCH (branch_payload id base_lsn BranchId_ROOT) in
     λ g,
       let g := set_next_branch_id (next_branch_id g + 1) g in
       let bref := mkBranch id BranchId_ROOT base_lsn base_lsn in
       (set_branches (<[id := bref]> (branches g)) g, Ok id))%comp g.

Definition resolve_branch (branch : BranchId) (g : Inner) : Result StorageError BranchRef :=
  ok_or (branches g !! branch) NotFound.

Definition list_branches (g : Inner) : list BranchRef := sorted_branches (branches g).

(** The locked part of [delete_branch]; [delete_branch] also unlinks the sibling file. *)
Definition delete_branch_locked (io : Io) (branch : BranchId) : Comp Inner StorageError unit := λ g,
  if bool_decide (branches g !! branch = None) then (g, Err NotFound)
  else if has_children branch (branches g) then (g, Err Invalid)
  else
    (do! append_frame io T_BRANCH_DEL (u64_le branch) in
     λ g, (set_branches (delete branch (branches g)) g, Ok tt))%comp g.

Definition set_retention_floor (io : Io) (lsn : Lsn) : Comp Inner StorageError unit := λ g,
  if lsn <? retention_floor g then (g, Err Invalid)
  else
    (do! append_frame io T_RETENTION (u64_le lsn) in
     λ g, (set_floor lsn g, Ok tt))%comp g.

(** ** The handle: the locked state, its path, and the other files of the directory *)

Record LocalFileStorage := mkLocal {
  path : string;
  inner : Inner;
  others : gmap string bytes
}.

(** The sibling file that holds a branch's diverged data. *)
Definition branch_path (p : string) (branch : BranchId) : string :=
  (p +:+ ".branch-" +:+ pretty branch)%string.

Definition delete_branch (io : Io) (branch : BranchId) : Comp LocalFileStorage StorageError unit :=
  λ s,
  match delete_branch_locked io branch (inner s) with
  | (g, Err e) => (mkLocal (path s) g (others s), Err e)
  | (g, Ok _) => (mkLocal (path s) g (delete (branch_path (path s) branch) (others s)), Ok tt)
  end.

(** [LocalFileStorage::open]: the URL names a file of [dir], created empty when absent. *)
Definition open (io_open io_header io_heal : Io) (url : string) (dir : gmap string bytes)
    : gmap string bytes * Result StorageError LocalFileStorage :=
  match parse_file_url url with
  | Err e => (dir, Err e)
  | Ok p =>
      match io_open with
      | IoOk =>
          match open_file io_header io_heal (default [] (dir !! p)) with
          | (f, Err e) => (<[p := f]> dir, Err e)
          | (f, Ok g) => (<[p := f]> dir, Ok (mkLocal p g (delete p dir)))
          end
      | _ => (dir, Err Invalid)
      end
  end.

(** ** Operations as data: what a client of the backend can call *)

Inductive Op :=
| OGetPage (id : PageId) (lsn : Lsn)
| OAppendWal (token : FenceToken) (records : list WalRecord)
| OPutPage (token : FenceToken) (id : PageId) (image : bytes)
| OFlush
| OAcquireFence (now : Instant) (owner : WriterId)
| ORenewFence (now : Instant) (token : FenceToken)
| OReleaseFence (token : FenceToken)
| OCreateBranch (base_lsn : Lsn)
| ODeleteBranch (branch : BranchId)
| OSetRetentionFloor (lsn : Lsn).

Definition comp_void {S E A} (m : Comp S E A) : Comp S E unit :=
  comp_bind m (λ _, comp_ret tt).

Definition run_op (io : Io) (op : Op) : Comp Inner StorageError unit :=
  match op with
  | OGetPage id lsn => comp_void (get_page id lsn)
  | OAppendWal token records => comp_void (append_wal io token records)
  | OPutPage token id image => comp_void (put_page io token id image)
  | OFlush => flush io
  | OAcquireFence now owner => comp_void (acquire_fence io now owner)
  | ORenewFence now token => comp_void (renew_fence now token)
  | OReleaseFence token => release_fence token
  | OCreateBranch base => comp_void (create_branch io base)
  | ODeleteBranch branch => delete_branch_locked io branch
  | OSetRetentionFloor lsn => set_retention_floor io lsn
  end.

(** A run whose writes all succeed; refused operations are part of it. *)
Fixpoint run_ops (ops : list Op) (g : Inner) : Inner :=
  match ops with
  | [] => g
  | op :: ops => run_ops ops (run_op IoOk op g).1
  end.

(** Arguments that a Rust caller can pass: 64-bit integers, and batches whose byte length fits
    the 32-bit length fields of the format. *)
Definition op_wf (op : Op) : Prop :=
  match op with
  | OAppendWal _ records =>
      zlen (wal_payload records) + 1 < 2 ^ 32
  | OPutPage _ id image => is_u64 id
  | OCreateBranch base => is_u64 base
  | ODeleteBranch branch => is_u64 branch
  | OSetRetentionFloor lsn => is_u64 lsn
  | _ => True
  end.

End Local.
