(* ===== verification/LocalSpec.v ===== *)
(** * The embedded backend is durable, atomic and fenced

    The log of [LocalStore] seen as a list of logical records ([Rec]): what a frame says, before
    it is encoded and before LSNs are assigned.  [Coherent] ties the live state of an open
    database to the records in its file; every operation preserves it, so what recovery rebuilds
    from the file is the state the running process had. *)

From S2P Require Import Prelude StorageTypes Crc32 LocalStore.

Import Local.

Module LocalLog.

(** ** Logical records and their encoding *)

Inductive Rec :=
| RWal (records : list WalRecord)
| RPage (id : Z) (image : bytes)
| RFence (epoch : Z)
| RRetention (floor : Z)
| RBranch (id base parent : Z)
| RBranchDel (id : Z).

Definition rec_tag (r : Rec) : Init.Byte.byte :=
  match r with
  | RWal _ => T_WAL | RPage _ _ => T_PAGE | RFence _ => T_FENCE
  | RRetention _ => T_RETENTION | RBranch _ _ _ => T_BRANCH | RBranchDel _ => T_BRANCH_DEL
  end.

Definition rec_payload (r : Rec) : bytes :=
  match r with
  | RWal records => wal_payload records
  | RPage id image => u64_le id ++ image
  | RFence e => u64_le e
  | RRetention f => u64_le f
  | RBranch id base parent => branch_payload id base parent
  | RBranchDel id => u64_le id
  end.

Definition frame_bytes (tag : Init.Byte.byte) (payload : bytes) : bytes :=
  u32_le (zlen payload + 1) ++ [tag] ++ payload ++ u32_le (Crc.crc32_pair tag payload).

Definition rec_bytes (r : Rec) : bytes := frame_bytes (rec_tag r) (rec_payload r).
Definition log_bytes (rs : list Rec) : bytes := concat (map rec_bytes rs).

(** Consecutive LSNs from [lsn]. *)
Fixpoint number {A} (lsn : Lsn) (l : list A) : list (Lsn * A) :=
  match l with [] => [] | a :: l => (lsn, a) :: number (lsn + 1) l end.

Definition cost (r : Rec) : Z :=
  match r with RWal records => zlen records | RPage _ _ => 1 | _ => 0 end.

Definition frame_of (lsn : Lsn) (r : Rec) : Frame :=
  match r with
  | RWal records => FWal (number lsn records) (lsn + zlen records - 1)
  | RPage id image => FPage lsn id image
  | RFence e => FFence e
  | RRetention f => FRetention f
  | RBranch id base parent => FBranch id base parent
  | RBranchDel id => FBranchDel id
  end.

Fixpoint frames_of (lsn : Lsn) (rs : list Rec) : list Frame :=
  match rs with [] => [] | r :: rs => frame_of lsn r :: frames_of (lsn + cost r) rs end.

Definition costs (rs : list Rec) : Z := foldr (λ r n, cost r + n) 0 rs.

Definition rec_wf (r : Rec) : Prop :=
  zlen (rec_payload r) + 1 < 2 ^ 32 ∧
  match r with
  | RWal records => records ≠ []
  | RPage id image => is_u64 id
  | RFence e => is_u64 e
  | RRetention f => is_u64 f
  | RBranch id base parent => is_u64 id ∧ is_u64 base ∧ is_u64 parent
  | RBranchDel id => is_u64 id
  end.

(** ** Lists of numbered records *)

Lemma number_length {A} lsn (l : list A) : length (number lsn l) = length l.
Proof. revert lsn. induction l; intros; simpl; [done | by f_equal]. Qed.

Lemma number_last {A} lsn (l : list A) :
  l ≠ [] → ∃ a, last (number lsn l) = Some (lsn + zlen l - 1, a).
Proof.
  revert lsn. induction l as [|a l IH]; intros lsn H; [done|].
  destruct l as [|b l].
  - exists a. simpl. do 2 f_equal. rewrite zlen_cons. unfold zlen. simpl. lia.
  - destruct (IH (lsn + 1)) as [c Hc]; [done|]. exists c.
    change (number lsn (a :: b :: l)) with ((lsn, a) :: number (lsn + 1) (b :: l)).
    change (last ((lsn, a) :: number (lsn + 1) (b :: l)))
      with (last (number (lsn + 1) (b :: l))).
    rewrite Hc, (zlen_cons a). do 2 f_equal. lia.
Qed.

Lemma number_app {A} lsn (l k : list A) :
  number lsn (l ++ k) = number lsn l ++ number (lsn + zlen l) k.
Proof.
  revert lsn. induction l as [|a l IH]; intros lsn; simpl.
  - f_equal. unfold zlen. simpl. lia.
  - rewrite IH, zlen_cons. do 3 f_equal. lia.
Qed.

Lemma frames_of_app lsn rs ks :
  frames_of lsn (rs ++ ks) = frames_of lsn rs ++ frames_of (lsn + costs rs) ks.
Proof.
  revert lsn. induction rs as [|r rs IH]; intros lsn; simpl.
  - by rewrite Z.add_0_r.
  - rewrite IH. by rewrite Z.add_assoc.
Qed.

Lemma costs_app rs ks : costs (rs ++ ks) = costs rs + costs ks.
Proof. unfold costs. induction rs as [|r rs IH]; simpl; [done|]. rewrite IH. lia. Qed.

Lemma log_bytes_app rs ks : log_bytes (rs ++ ks) = log_bytes rs ++ log_bytes ks.
Proof. unfold log_bytes. by rewrite map_app, concat_app. Qed.

Lemma cost_nonneg r : 0 ≤ cost r.
Proof. destruct r; simpl; try lia. apply zlen_nonneg. Qed.

Lemma costs_nonneg rs : 0 ≤ costs rs.
Proof.
  unfold costs. induction rs as [|r rs IH]; simpl; [done|]. pose proof (cost_nonneg r). lia.
Qed.

(** ** Parsing what was encoded *)

Definition enc_record (r : WalRecord) : bytes := u32_le (zlen (wal_bytes r)) ++ wal_bytes r.

Lemma zlen_enc_record r : zlen (enc_record r) = 4 + zlen (wal_bytes r).
Proof. unfold enc_record. by autorewrite with zlen. Qed.
#[local] Hint Rewrite zlen_enc_record : zlen.

Lemma enc_records_bound rs :
  4 * zlen rs ≤ zlen (concat (map enc_record rs)) ∧
  Forall (λ r, zlen (wal_bytes r) ≤ zlen (concat (map enc_record rs))) rs.
Proof.
  induction rs as [|r rs [IH1 IH2]]; simpl; [split; [done | constructor]|].
  autorewrite with zlen.
  pose proof (zlen_nonneg (wal_bytes r)). pose proof (zlen_nonneg (concat (map enc_record rs))).
  split; [lia|]. constructor; [autorewrite with zlen; lia|].
  eapply Forall_impl; [exact IH2|]. simpl. intros x Hx. autorewrite with zlen. lia.
Qed.

Lemma u32_at_mid pre z post p :
  p = zlen pre → is_u32 z → u32_at (pre ++ u32_le z ++ post) p = z.
Proof.
  intros -> Hz. unfold u32_at. rewrite (slice_app_mid pre (u32_le z)).
  - by apply from_le_u32.
  - done.
  - by rewrite zlen_u32.
Qed.

Lemma u32_at_0 z post : is_u32 z → u32_at (u32_le z ++ post) 0 = z.
Proof. apply (u32_at_mid [] z post 0). done. Qed.

Lemma u64_at_mid pre z post p :
  p = zlen pre → is_u64 z → u64_at (pre ++ u64_le z ++ post) p = z.
Proof.
  intros -> Hz. unfold u64_at. rewrite (slice_app_mid pre (u64_le z)).
  - by apply from_le_u64.
  - done.
  - by rewrite zlen_u64.
Qed.

Lemma u64_at_0 z post : is_u64 z → u64_at (u64_le z ++ post) 0 = z.
Proof. apply (u64_at_mid [] z post 0). done. Qed.

Lemma u64_at_0' z : is_u64 z → u64_at (u64_le z) 0 = z.
Proof. intros. rewrite <- (app_nil_r (u64_le z)). by apply u64_at_0. Qed.

Lemma read_records_spec rs pre lsn :
  Forall (λ r, is_u32 (zlen (wal_bytes r))) rs →
  read_records (length rs) (pre ++ concat (map enc_record rs)) (zlen pre) lsn =
    (lsn + zlen rs, Some (number lsn rs)).
Proof.
  revert pre lsn. induction rs as [|r rs IH]; intros pre lsn H; simpl.
  { by rewrite Z.add_0_r. }
  inversion H as [|?? Hr Hrs]; subst.
  set (rest := concat (map enc_record rs)).
  unfold enc_record. rewrite <- app_assoc.
  assert (zlen (pre ++ u32_le (zlen (wal_bytes r)) ++ wal_bytes r ++ rest) =
          zlen pre + 4 + zlen (wal_bytes r) + zlen rest) as Hlen
    by (autorewrite with zlen; lia).
  pose proof (zlen_nonneg (wal_bytes r)). pose proof (zlen_nonneg rest).
  rewrite Hlen. destruct (Z.ltb_spec (zlen pre + 4 + zlen (wal_bytes r) + zlen rest) (zlen pre + 4)); [lia|].
  rewrite u32_at_mid by done.
  destruct (Z.ltb_spec (zlen pre + 4 + zlen (wal_bytes r) + zlen rest)
              (zlen pre + 4 + zlen (wal_bytes r))); [lia|].
  rewrite (app_assoc pre), (slice_app_mid (pre ++ u32_le _) (wal_bytes r) rest)
    by (autorewrite with zlen; lia).
  rewrite (app_assoc _ (wal_bytes r)).
  replace (zlen pre + 4 + zlen (wal_bytes r))
    with (zlen ((pre ++ u32_le (zlen (wal_bytes r))) ++ wal_bytes r))
    by (autorewrite with zlen; lia).
  unfold rest. rewrite IH by done. simpl. rewrite zlen_cons.
  destruct r. simpl. f_equal. lia.
Qed.

Lemma parse_wal records lsn :
  records ≠ [] → zlen (wal_payload records) + 1 < 2 ^ 32 →
  parse_body (T_WAL :: wal_payload records) lsn =
    (lsn + zlen records, Some (frame_of lsn (RWal records))).
Proof.
  intros Hne Hlen. unfold parse_body. rewrite bool_decide_true by done.
  destruct (enc_records_bound records) as [B1 B2]. unfold wal_payload in *.
  change (map (λ r, u32_le (zlen (wal_bytes r)) ++ wal_bytes r) records)
    with (map enc_record records) in *.
  set (body := concat (map enc_record records)) in *.
  pose proof (zlen_nonneg records). pose proof (zlen_nonneg body). autorewrite with zlen in *.
  destruct (Z.ltb_spec (4 + zlen body) 4); [lia|].
  rewrite u32_at_0 by (unfold is_u32; lia).
  replace (Z.to_nat (zlen records)) with (length records) by (unfold zlen; lia).
  rewrite <- (zlen_u32 (zlen records)). unfold body. rewrite read_records_spec.
  - rewrite bool_decide_false by (unfold zlen; rewrite number_length; tauto).
    destruct (number_last lsn records Hne) as [a ->]. done.
  - eapply Forall_impl; [exact B2|]. intros r Hr. unfold is_u32. fold body in Hr. simpl in Hr.
    pose proof (zlen_nonneg (wal_bytes r)). lia.
Qed.

Lemma parse_rec r lsn :
  rec_wf r → parse_body (rec_tag r :: rec_payload r) lsn = (lsn + cost r, Some (frame_of lsn r)).
Proof.
  intros [Hlen Hwf]. destruct r; simpl in Hwf; unfold rec_tag, rec_payload in *.
  - by apply parse_wal.
  - unfold parse_body. rewrite bool_decide_false, bool_decide_true by done.
    autorewrite with zlen. pose proof (zlen_nonneg image).
    destruct (Z.ltb_spec (8 + zlen image) 8); [lia|]. rewrite u64_at_0 by done.
    by rewrite drop_app_length' by (by rewrite length_le_split).
  - simpl. rewrite zlen_u64. simpl. by rewrite u64_at_0', Z.add_0_r by done.
  - simpl. rewrite zlen_u64. simpl. by rewrite u64_at_0', Z.add_0_r by done.
  - destruct Hwf as (H1 & H2 & H3). simpl. unfold branch_payload.
    autorewrite with zlen. simpl. rewrite u64_at_0 by done.
    rewrite (u64_at_mid (u64_le id) base) by (done || by rewrite zlen_u64).
    rewrite app_assoc, <- (app_nil_r (u64_le parent)).
    rewrite (u64_at_mid (u64_le id ++ u64_le base) parent)
      by (done || by autorewrite with zlen).
    by rewrite Z.add_0_r.
  - simpl. rewrite zlen_u64. simpl. by rewrite u64_at_0', Z.add_0_r by done.
Qed.

Lemma frame_bytes_len tag payload : zlen (frame_bytes tag payload) = zlen payload + 9.
Proof. unfold frame_bytes. autorewrite with zlen. lia. Qed.

(** One turn of the loop on a whole frame. *)
Lemma read_frames_step fuel pre r post lsn :
  rec_wf r →
  read_frames (S fuel) (pre ++ rec_bytes r ++ post) (zlen pre) lsn =
    let '(fs, e, n) :=
      read_frames fuel (pre ++ rec_bytes r ++ post) (zlen pre + zlen (rec_bytes r)) (lsn + cost r) in
    (frame_of lsn r :: fs, e, n).
Proof.
  intros Hwf. set (all := pre ++ rec_bytes r ++ post).
  set (payload := rec_payload r). set (tag := rec_tag r).
  set (crc := Crc.crc32_pair tag payload).
  assert (all = pre ++ u32_le (zlen payload + 1) ++ (tag :: payload) ++ u32_le crc ++ post) as Hall.
  { unfold all, rec_bytes, frame_bytes. fold tag payload crc. by rewrite <- !app_assoc. }
  assert (zlen all = zlen pre + zlen payload + 9 + zlen post) as Hlen.
  { rewrite Hall. autorewrite with zlen. lia. }
  assert (zlen (rec_bytes r) = zlen payload + 9) as Hr by apply frame_bytes_len.
  pose proof (zlen_nonneg payload). pose proof (zlen_nonneg post). destruct Hwf as [Hl Hwf'].
  fold payload in Hl.
  assert (u32_at all (zlen pre) = zlen payload + 1) as Hu1.
  { rewrite Hall. apply u32_at_mid; [done|]. unfold is_u32. lia. }
  assert (slice all (zlen pre + 4) (zlen pre + 4 + (zlen payload + 1)) = tag :: payload) as Hb.
  { rewrite Hall, app_assoc. apply slice_app_mid; autorewrite with zlen; lia. }
  assert (u32_at all (zlen pre + 4 + (zlen payload + 1)) = crc) as Hu2.
  { rewrite Hall, app_assoc, (app_assoc _ (tag :: payload)).
    apply u32_at_mid; [autorewrite with zlen; lia|].
    unfold crc. rewrite Crc.crc32_pair_cons. apply Crc.crc32_u32. }
  cbn [read_frames]. rewrite Hu1, Hb, Hu2, Hlen.
  destruct (Z.ltb_spec (zlen pre + zlen payload + 9 + zlen post) (zlen pre + 4)); [lia|].
  destruct (Z.eqb_spec (zlen payload + 1) 0); [lia|].
  destruct (Z.ltb_spec (zlen pre + zlen payload + 9 + zlen post)
              (zlen pre + 4 + (zlen payload + 1) + 4)); [lia|]. cbn [orb].
  unfold crc. rewrite Crc.crc32_pair_cons, Z.eqb_refl. cbn [negb].
  unfold tag, payload. rewrite parse_rec by done. fold payload.
  replace (zlen pre + 4 + (zlen payload + 1) + 4) with (zlen pre + zlen (rec_bytes r)) by lia.
  done.
Qed.

(** Bytes the loop does not get past, wherever they stand in the file. *)
Definition stops (tail : bytes) : Prop :=
  ∀ fuel pre lsn, read_frames fuel (pre ++ tail) (zlen pre) lsn = ([], zlen pre, lsn).

(** A strict prefix of a frame. *)
Definition torn (tail : bytes) : Prop :=
  ∃ r k, rec_wf r ∧ (k < length (rec_bytes r))%nat ∧ tail = take k (rec_bytes r).

Lemma torn_nil : torn [].
Proof.
  exists (RFence 0), 0%nat. split; [|split; [|done]].
  - split; simpl; [rewrite zlen_u64; lia | unfold is_u64; lia].
  - pose proof (frame_bytes_len T_FENCE (u64_le 0)). unfold rec_bytes. simpl rec_tag.
    simpl rec_payload. unfold zlen in *. lia.
Qed.

Lemma torn_stops tail : torn tail → stops tail.
Proof.
  intros (r & k & [Hl _] & Hk & ->) fuel pre lsn. destruct fuel as [|fuel]; [done|]. cbn [read_frames].
  set (payload := rec_payload r) in *.
  assert (zlen (rec_bytes r) = zlen payload + 9) as Hr by apply frame_bytes_len.
  assert (zlen (take k (rec_bytes r)) = Z.of_nat k) as Ht.
  { unfold zlen. rewrite length_take. lia. }
  rewrite zlen_app, Ht.
  destruct (Z.ltb_spec (zlen pre + Z.of_nat k) (zlen pre + 4)); [done|].
  assert (u32_at (pre ++ take k (rec_bytes r)) (zlen pre) = zlen payload + 1) as ->.
  { unfold rec_bytes, frame_bytes. fold payload.
    rewrite take_app_ge by (rewrite length_le_split; lia).
    apply u32_at_mid; [done|]. pose proof (zlen_nonneg payload). unfold is_u32. lia. }
  destruct (Z.ltb_spec (zlen pre + Z.of_nat k) (zlen pre + 4 + (zlen payload + 1) + 4)).
  - by rewrite orb_true_r.
  - unfold zlen in *. lia.
Qed.

Lemma stops_nil : stops [].
Proof. apply torn_stops, torn_nil. Qed.

(** A frame whose stored checksum is not the checksum of its body. *)
Lemma bad_crc_stops body crc tail :
  is_u32 (zlen body) → is_u32 crc → Crc.crc32 body ≠ crc →
  stops (u32_le (zlen body) ++ body ++ u32_le crc ++ tail).
Proof.
  intros Hb Hc Hne fuel pre lsn. destruct fuel as [|fuel]; [done|].
  set (all := pre ++ u32_le (zlen body) ++ body ++ u32_le crc ++ tail).
  assert (u32_at all (zlen pre) = zlen body) as H1 by (by apply u32_at_mid).
  assert (slice all (zlen pre + 4) (zlen pre + 4 + zlen body) = body) as H2.
  { unfold all. rewrite app_assoc. apply slice_app_mid; autorewrite with zlen; lia. }
  assert (u32_at all (zlen pre + 4 + zlen body) = crc) as H3.
  { unfold all. rewrite app_assoc, (app_assoc _ body).
    apply u32_at_mid; [autorewrite with zlen; lia | done]. }
  cbn [read_frames]. rewrite H1, H2, H3.
  destruct (zlen all <? zlen pre + 4); [done|].
  destruct (_ || _); [done|]. by rewrite (proj2 (Z.eqb_neq _ _) Hne).
Qed.

Lemma read_frames_log rs fuel pre tail lsn :
  Forall rec_wf rs → stops tail → (length rs < fuel)%nat →
  read_frames fuel (pre ++ log_bytes rs ++ tail) (zlen pre) lsn =
    (frames_of lsn rs, zlen pre + zlen (log_bytes rs), lsn + costs rs).
Proof.
  intros Hwf Ht. revert fuel pre lsn.
  induction Hwf as [|r rs Hr _ IH]; intros fuel pre lsn Hf.
  - simpl. rewrite Ht. unfold costs. simpl. by rewrite !Z.add_0_r.
  - destruct fuel as [|fuel]; [simpl in Hf; lia|].
    change (log_bytes (r :: rs)) with (rec_bytes r ++ log_bytes rs).
    rewrite <- app_assoc, read_frames_step by done.
    rewrite (app_assoc pre), <- zlen_app, IH by (simpl in Hf; lia).
    simpl. rewrite !zlen_app. f_equal; [f_equal; lia | lia].
Qed.

(** ** The state a log stands for *)

(** File, end offset and next LSN, which [recover] sets from what [read_log] found. *)
Definition place (f : bytes) (e n : Z) (g : Inner) : Inner :=
  set_file f (set_end e (set_next_lsn n g)).

Definition state_of (f : bytes) (rs : list Rec) : Inner :=
  place f (HEADER_SIZE + zlen (log_bytes rs)) (1 + costs rs)
    (fold_left apply_frame (frames_of 1 rs) (inner_new [])).

Lemma apply_frame_place f e n g fr :
  apply_frame (place f e n g) fr = place f e n (apply_frame g fr).
Proof. by destruct fr. Qed.

Lemma apply_frames_file f fs :
  fold_left apply_frame fs (inner_new f) = set_file f (fold_left apply_frame fs (inner_new [])).
Proof.
  induction fs as [|fr fs IH] using rev_ind; [done|].
  rewrite !fold_left_app. simpl. rewrite IH. by destruct fr.
Qed.

Lemma header_len : zlen header_bytes = HEADER_SIZE.
Proof. reflexivity. Qed.

Lemma log_bytes_length rs : (length rs ≤ length (log_bytes rs))%nat.
Proof.
  induction rs as [|r rs IH]; simpl; [done|]. unfold log_bytes in *. simpl.
  rewrite length_app. pose proof (frame_bytes_len (rec_tag r) (rec_payload r)).
  pose proof (zlen_nonneg (rec_payload r)). unfold rec_bytes, zlen in *. lia.
Qed.

Lemma read_log_spec rs tail :
  Forall rec_wf rs → stops tail →
  read_log (header_bytes ++ log_bytes rs ++ tail) =
    Ok (frames_of 1 rs, HEADER_SIZE + zlen (log_bytes rs), 1 + costs rs).
Proof.
  intros Hwf Ht. set (all := header_bytes ++ log_bytes rs ++ tail).
  assert (∃ z, all = MAGIC ++ u32_le FORMAT_VERSION ++ u32_le PAGE_SIZE ++ z) as [z Hz].
  { eexists. unfold all, header_bytes. by rewrite <- !app_assoc. }
  unfold read_log.
  assert (zlen all <? HEADER_SIZE = false) as ->.
  { apply Z.ltb_ge. unfold all. rewrite zlen_app, header_len.
    pose proof (zlen_nonneg (log_bytes rs ++ tail)). lia. }
  rewrite bool_decide_false by (intros E; apply E; rewrite Hz; by apply slice_prefix).
  assert (u32_at all 8 = FORMAT_VERSION) as ->.
  { rewrite Hz. apply u32_at_mid; [done | unfold is_u32, FORMAT_VERSION; lia]. }
  assert (u32_at all 12 = PAGE_SIZE) as ->.
  { rewrite Hz, app_assoc. apply u32_at_mid; [done | unfold is_u32, PAGE_SIZE; lia]. }
  rewrite !Z.eqb_refl. cbn [negb]. f_equal. rewrite <- header_len at 1. unfold all.
  rewrite read_frames_log; [by rewrite header_len|done..|].
  rewrite !length_app. pose proof (log_bytes_length rs).
  pose proof header_len as Hh. unfold zlen, HEADER_SIZE in Hh. lia.
Qed.

Lemma recover_spec rs tail :
  Forall rec_wf rs → stops tail →
  recover (header_bytes ++ log_bytes rs ++ tail) =
    Ok (state_of (header_bytes ++ log_bytes rs ++ tail) rs).
Proof. intros. unfold recover. rewrite read_log_spec by done. simpl. by rewrite apply_frames_file. Qed.

End LocalLog.

(** ** Live state and log agree *)

Module LocalInv.
Import LocalLog.
#[local] Opaque header_bytes.

(** The observability counters are not durable. *)
Definition forget (g : Inner) : Inner := set_stats stats_default g.

Lemma inner_ext g h :
  file g = file h → end_ g = end_ h → next_lsn g = next_lsn h → durable_lsn g = durable_lsn h →
  commit_lsn g = commit_lsn h → epoch g = epoch h → retention_floor g = retention_floor h →
  pages g = pages h → branches g = branches h → next_branch_id g = next_branch_id h →
  stats g = stats h → g = h.
Proof. destruct g, h. simpl. by intros -> -> -> -> -> -> -> -> -> -> ->. Qed.

(** Appending a record is applying its frame at the next LSN. *)
Lemma state_of_snoc f f' rs r :
  state_of f' (rs ++ [r]) =
  place f' (end_ (state_of f rs) + zlen (rec_bytes r)) (next_lsn (state_of f rs) + cost r)
    (apply_frame (state_of f rs) (frame_of (next_lsn (state_of f rs)) r)).
Proof.
  unfold state_of. rewrite frames_of_app, fold_left_app, log_bytes_app, costs_app, zlen_app.
  unfold log_bytes at 2, costs at 3. simpl. rewrite app_nil_r.
  replace (HEADER_SIZE + (zlen (log_bytes rs) + zlen (rec_bytes r)))
    with (HEADER_SIZE + zlen (log_bytes rs) + zlen (rec_bytes r)) by lia.
  replace (1 + (costs rs + (cost r + 0))) with (1 + costs rs + cost r) by lia.
  by rewrite apply_frame_place.
Qed.

(** The versions of a page in a list of frames, oldest first. *)
Definition versions (id : PageId) (fs : list Frame) : PageChain :=
  omap (λ f, match f with
             | FPage lsn i image => if i =? id then Some (lsn, page_image image) else None
             | _ => None
             end) fs.

Lemma pages_versions fs id :
  default [] (pages (fold_left apply_frame fs (inner_new [])) !! id) = versions id fs ∧
  (pages (fold_left apply_frame fs (inner_new [])) !! id = None ↔ versions id fs = []).
Proof.
  induction fs as [|fr fs IH] using rev_ind; [done|].
  rewrite fold_left_app. simpl. unfold versions. rewrite omap_app. fold (versions id fs).
  set (g := fold_left apply_frame fs (inner_new [])) in *.
  destruct fr; simpl; rewrite ?app_nil_r; try exact IH.
  unfold push_page. destruct (Z.eqb_spec page_id id) as [->|Hne].
  - rewrite lookup_insert_eq. simpl. destruct IH as [-> _]. split; [done|].
    split; [done|]. by destruct (versions id fs).
  - rewrite lookup_insert_ne by done. rewrite app_nil_r. exact IH.
Qed.

(** *** The invariant *)

Record Coherent (n : Z) (rs : list Rec) (g : Inner) : Prop := mkCoherent {
  co_wf : Forall rec_wf rs;
  co_file : file g = header_bytes ++ log_bytes rs;
  co_state : forget g = state_of (file g) rs;
  co_durable : durable_lsn g = next_lsn g - 1;
  co_commit : 0 ≤ commit_lsn g ≤ durable_lsn g;
  co_epoch : 0 ≤ epoch g ≤ n;
  co_floor : 0 ≤ retention_floor g;
  co_branch : 1 ≤ next_branch_id g ≤ n + 1
}.

Lemma coherent_end n rs g : Coherent n rs g → end_ g = zlen (file g).
Proof.
  intros C. change (end_ g) with (end_ (forget g)). rewrite (co_state _ _ _ C).
  rewrite (co_file _ _ _ C). simpl. by rewrite zlen_app, header_len.
Qed.

Lemma coherent_next n rs g : Coherent n rs g → next_lsn g = 1 + costs rs.
Proof. intros C. change (next_lsn g) with (next_lsn (forget g)). by rewrite (co_state _ _ _ C). Qed.

(** [open] on a file without content. *)
Lemma coherent_fresh : Coherent 0 [] (inner_new header_bytes).
Proof. split; try done; simpl; lia. Qed.

Definition logged (r : Rec) (g : Inner) : Inner :=
  place (file g ++ rec_bytes r) (end_ g + zlen (rec_bytes r)) (next_lsn g + cost r)
    (apply_frame g (frame_of (next_lsn g) r)).

Lemma coherent_logged n rs r g g' :
  Coherent n rs g → rec_wf r → forget g' = logged r (forget g) →
  durable_lsn g' = next_lsn g' - 1 → 0 ≤ commit_lsn g' ≤ durable_lsn g' →
  0 ≤ epoch g' ≤ n + 1 → 0 ≤ retention_floor g' → 1 ≤ next_branch_id g' ≤ n + 2 →
  Coherent (n + 1) (rs ++ [r]) g'.
Proof.
  intros C Hr Hg' ? ? ? ? ?.
  assert (file g' = file g ++ rec_bytes r) as Hf.
  { change (file g') with (file (forget g')). by rewrite Hg'. }
  split; try done; try lia.
  - apply Forall_app; split; [apply C | by constructor].
  - rewrite Hf, (co_file _ _ _ C), log_bytes_app, app_assoc. unfold log_bytes at 3. simpl.
    by rewrite app_nil_r.
  - rewrite Hg', (state_of_snoc (file g)), <- (co_state _ _ _ C). unfold logged.
    rewrite Hf. done.
Qed.

(** ** Every operation appends at most one record *)

Definition op_rec (op : Op) (g : Inner) : option Rec :=
  match op with
  | OAppendWal t records =>
      if bool_decide (records = []) then None
      else if negb (tok_epoch t =? epoch g) then None else Some (RWal records)
  | OPutPage t id image =>
      if PAGE_SIZE <? zlen image then None
      else if negb (tok_epoch t =? epoch g) then None else Some (RPage id image)
  | OAcquireFence _ _ => Some (RFence (epoch g + 1))
  | OCreateBranch base =>
      if base <? retention_floor g then None
      else Some (RBranch (next_branch_id g) base BranchId_ROOT)
  | ODeleteBranch b =>
      if bool_decide (branches g !! b = None) then None
      else if has_children b (branches g) then None else Some (RBranchDel b)
  | OSetRetentionFloor l => if l <? retention_floor g then None else Some (RRetention l)
  | _ => None
  end.

Ltac unfold_ops :=
  unfold run_op, comp_void, append_wal, put_page, acquire_fence, create_branch,
    delete_branch_locked, set_retention_floor, check_fence, comp_bind, comp_ret, comp_err in *.

Ltac case_op :=
  repeat (match goal with
  | |- context [if ?b then _ else _] => destruct b eqn:?
  | H : context [if ?b then _ else _] |- _ => destruct b eqn:?
  end; try discriminate).

Lemma run_op_none io op g : op_rec op g = None → forget (run_op io op g).1 = forget g.
Proof.
  destruct op; unfold op_rec; unfold_ops; intros H; case_op; try done.
  - unfold get_page. case_op; [done|]. destruct (pages g !! id); [|done].
    by destruct (find_version _ _) as [[??]|].
  - by destruct io.
  - unfold renew_fence. by case_op.
Qed.

Lemma run_op_fail io op g r :
  op_rec op g = Some r → io ≠ IoOk →
  (run_op io op g).1 = (append_frame io (rec_tag r) (rec_payload r) g).1.
Proof.
  destruct op; unfold op_rec; unfold_ops; intros H Hio; case_op; try discriminate;
    injection H as <-; unfold rec_tag, rec_payload, append_frame; by destruct io.
Qed.

Lemma write_at_end f buf : write_at (zlen f) buf f = f ++ buf.
Proof.
  unfold write_at, zlen. rewrite Nat2Z.id, Nat.sub_diag, firstn_all. simpl.
  rewrite drop_ge by lia. by rewrite app_nil_r.
Qed.

Lemma append_frame_ok g tag payload :
  end_ g = zlen (file g) →
  append_frame IoOk tag payload g =
    (set_stats (add_fsync (stats g))
       (place (file g ++ frame_bytes tag payload) (end_ g + zlen (frame_bytes tag payload))
          (next_lsn g) g), Ok tt).
Proof. intros He. unfold append_frame. rewrite He, write_at_end. rewrite <- He. done. Qed.

Lemma append_frame_cut g tag payload k :
  end_ g = zlen (file g) →
  file (append_frame (IoWriteErr k) tag payload g).1 = file g ++ take k (frame_bytes tag payload).
Proof. intros He. unfold append_frame. rewrite He, write_at_end. done. Qed.

Lemma append_frame_unsynced g tag payload :
  end_ g = zlen (file g) →
  file (append_frame IoSyncErr tag payload g).1 = file g ++ frame_bytes tag payload.
Proof. intros He. unfold append_frame. rewrite He, write_at_end. done. Qed.

Lemma run_op_logs n rs op g r :
  Coherent n rs g → op_rec op g = Some r →
  forget (run_op IoOk op g).1 = logged r (forget g).
Proof.
  intros C H. pose proof (coherent_end _ _ _ C) as He.
  pose proof (co_durable _ _ _ C). pose proof (co_commit _ _ _ C).
  pose proof (co_epoch _ _ _ C). pose proof (co_branch _ _ _ C). pose proof (co_floor _ _ _ C).
  assert (∀ records : list WalRecord, records ≠ [] → 1 ≤ zlen records) as Hne.
  { intros [|x l] ?; [done|]. rewrite zlen_cons. pose proof (zlen_nonneg l). lia. }
  destruct op; unfold op_rec in H; unfold_ops; case_op; try discriminate; injection H as <-;
    rewrite append_frame_ok by exact He; bool_to_Prop; apply inner_ext; try reflexivity; cbn;
    try (pose proof (Hne records ltac:(assumption))); lia.
Qed.

Lemma op_rec_wf n rs op g r :
  Coherent n rs g → n < 2 ^ 64 - 1 → op_wf op → op_rec op g = Some r → rec_wf r.
Proof.
  intros C Hn Hop H. pose proof (co_epoch _ _ _ C). pose proof (co_branch _ _ _ C).
  destruct op; unfold op_rec in H; case_op; try discriminate; injection H as <-;
    unfold rec_wf; simpl in *; unfold branch_payload, is_u64 in *; autorewrite with zlen;
    bool_to_Prop; unfold PAGE_SIZE, BranchId_ROOT in *; try (split; [done|]); try lia; try done.
Qed.

Lemma run_op_coherent n rs op g :
  Coherent n rs g → n < 2 ^ 64 - 1 → op_wf op →
  Coherent (n + 1) (rs ++ option_list (op_rec op g)) (run_op IoOk op g).1.
Proof.
  intros C Hn Hop. destruct (op_rec op g) as [r|] eqn:E; simpl.
  - pose proof (run_op_logs _ _ _ _ _ C E) as HL.
    pose proof (op_rec_wf _ _ _ _ _ C Hn Hop E) as Hwf.
    pose proof (co_durable _ _ _ C). pose proof (co_commit _ _ _ C).
    pose proof (co_epoch _ _ _ C). pose proof (co_branch _ _ _ C). pose proof (co_floor _ _ _ C).
    set (g' := (run_op IoOk op g).1) in *.
    eapply coherent_logged; [exact C | exact Hwf | exact HL |..];
      change (durable_lsn g') with (durable_lsn (forget g'));
      change (next_lsn g') with (next_lsn (forget g'));
      change (commit_lsn g') with (commit_lsn (forget g'));
      change (epoch g') with (epoch (forget g'));
      change (retention_floor g') with (retention_floor (forget g'));
      change (next_branch_id g') with (next_branch_id (forget g'));
      rewrite HL; destruct op; unfold op_rec in E; case_op; try discriminate; injection E as <-;
      simpl; try lia; destruct Hwf as [_ Hwf]; simpl in Hwf;
      assert (1 ≤ zlen records) by (destruct records; [done|];
        rewrite zlen_cons; pose proof (zlen_nonneg records); lia); lia.
  - rewrite app_nil_r. pose proof (run_op_none IoOk op g E) as HF.
    set (g' := (run_op IoOk op g).1) in *.
    assert (∀ A (f : Inner → A), (∀ g, f g = f (forget g)) → f g' = f g) as Hsame.
    { intros A f Hf. by rewrite (Hf g'), HF, <- Hf. }
    destruct C. split; rewrite ?HF, ?(Hsame _ file), ?(Hsame _ durable_lsn), ?(Hsame _ next_lsn),
      ?(Hsame _ commit_lsn), ?(Hsame _ epoch), ?(Hsame _ retention_floor),
      ?(Hsame _ next_branch_id) by done; (done || lia).
Qed.

Lemma run_ops_coherent ops n rs g :
  Coherent n rs g → Forall op_wf ops → n + zlen ops < 2 ^ 64 →
  ∃ rs', Coherent (n + zlen ops) (rs ++ rs') (run_ops ops g).
Proof.
  intros C H. revert n rs g C. induction H as [|op ops Hop _ IH]; intros n rs g C Hn.
  - exists []. rewrite app_nil_r. simpl. by rewrite zlen_nil, Z.add_0_r.
  - rewrite zlen_cons in *. pose proof (zlen_nonneg ops).
    destruct (IH (n + 1) (rs ++ option_list (op_rec op g)) (run_op IoOk op g).1) as [rs' C'];
      [apply run_op_coherent; [done | lia | done] | lia|].
    exists (option_list (op_rec op g) ++ rs').
    rewrite app_assoc. by replace (n + (1 + zlen ops)) with (n + 1 + zlen ops) by lia.
Qed.

(** ** Recovery of a coherent state, whole or torn *)

Lemma open_stops n rs g tail :
  Coherent n rs g → stops tail →
  open_file IoOk IoOk (file g ++ tail) = (file g, Ok (forget g)).
Proof.
  intros C Ht. unfold open_file.
  assert (zlen (file g ++ tail) =? 0 = false) as ->.
  { apply Z.eqb_neq. rewrite (co_file _ _ _ C), !zlen_app, header_len. unfold HEADER_SIZE.
    pose proof (zlen_nonneg (log_bytes rs)). pose proof (zlen_nonneg tail). lia. }
  assert (recover (file g ++ tail) = Ok (set_file (file g ++ tail) (forget g))) as ->.
  { rewrite (co_state _ _ _ C), (co_file _ _ _ C), <- app_assoc, recover_spec by (apply C || done). done. }
  unfold heal. simpl. rewrite (coherent_end _ _ _ C), zlen_app.
  assert (take (Z.to_nat (zlen (file g))) (file g ++ tail) = file g) as Htake.
  { unfold zlen. rewrite Nat2Z.id. apply take_app_length. }
  destruct (Z.ltb_spec (zlen (file g)) (zlen (file g) + zlen tail)).
  - rewrite Htake. done.
  - assert (tail = []) as -> by (destruct tail; [done | rewrite zlen_cons in *; pose proof (zlen_nonneg tail); lia]).
    by rewrite app_nil_r.
Qed.

Lemma open_coherent n rs g :
  Coherent n rs g → open_file IoOk IoOk (file g) = (file g, Ok (forget g)).
Proof. intros C. rewrite <- (app_nil_r (file g)) at 1. eapply open_stops; [done | apply stops_nil]. Qed.

End LocalInv.

(** * What the embedded backend promises

    The theorems of [LocalStore]: restart equivalence, crash atomicity, the MVCC read floor, the
    durable log scan, single-writer fencing, branch pointers, and what recovery does with
    corrupted or stale bytes.  [reachable] is the set of states of an open database whose writes
    succeeded so far. *)

Import Local LocalLog LocalInv.

Module LocalSpec.

(** A state of a database created by [open] on an empty file and driven by fewer than 2^64
    operations with arguments a Rust caller can pass. *)
Definition reachable (g : Inner) : Prop :=
  ∃ f0 g0 ops, open_file IoOk IoOk [] = (f0, Ok g0) ∧
    Forall op_wf ops ∧ zlen ops < 2 ^ 64 - 1 ∧ g = run_ops ops g0.

Lemma open_empty : open_file IoOk IoOk [] = (header_bytes, Ok (inner_new header_bytes)).
Proof. vm_compute. reflexivity. Qed.

Lemma reachable_coherent g : reachable g → ∃ n rs, Coherent n rs g ∧ n < 2 ^ 64 - 1.
Proof.
  intros (f0 & g0 & ops & Ho & Hops & Hn & ->). rewrite open_empty in Ho. injection Ho as <- <-.
  destruct (run_ops_coherent ops 0 [] (inner_new header_bytes)) as [rs C];
    [apply coherent_fresh | done | lia |]. exists (0 + zlen ops), rs. split; [exact C | lia].
Qed.

Lemma reachable_run ops :
  Forall op_wf ops → zlen ops < 2 ^ 64 - 1 → reachable (run_ops ops (inner_new header_bytes)).
Proof. intros. exists header_bytes, (inner_new header_bytes), ops. by rewrite open_empty. Qed.

(** ** Restart and crash *)


(** C9. Crash atomicity: however the write of one operation ends (refused by the seek, cut after
    any number of bytes, or complete but not synced), reopening the file yields exactly the state
    before the operation or exactly the state after it, never a part of a batch, and the file
    is healed to match. *)
Theorem local_crash_atomic g op io :
  reachable g → op_wf op →
  let g1 := (run_op io op g).1 in
  let g2 := (run_op IoOk op g).1 in
  open_file IoOk IoOk (file g1) = (file g, Ok (forget g)) ∨
  open_file IoOk IoOk (file g1) = (file g2, Ok (forget g2)).
Proof.
  intros (n & rs & C & Hn)%reachable_coherent Hop. simpl.
  destruct (op_rec op g) as [r|] eqn:E.
  2: { left. change (file (run_op io op g).1) with (file (forget (run_op io op g).1)).
       rewrite (run_op_none io op g E). exact (open_coherent _ _ _ C). }
  pose proof (op_rec_wf _ _ _ _ _ C Hn Hop E) as Hwf.
  pose proof (run_op_coherent _ _ _ _ C Hn Hop) as C2. rewrite E in C2. simpl in C2.
  assert (file (run_op IoOk op g).1 = file g ++ rec_bytes r) as Hf2.
  { change (file (run_op IoOk op g).1) with (file (forget (run_op IoOk op g).1)).
    by rewrite (run_op_logs _ _ _ _ _ C E). }
  destruct io as [| |k|].
  - right. by eapply open_coherent.
  - left. rewrite (run_op_fail _ _ _ _ E) by done. by eapply open_coherent.
  - rewrite (run_op_fail _ _ _ _ E) by done.
    rewrite append_frame_cut by exact (coherent_end _ _ _ C). fold (rec_bytes r).
    destruct (decide (k < length (rec_bytes r))%nat) as [Hk|Hk].
    + left. eapply open_stops; [done | apply torn_stops; by exists r, k].
    + right. rewrite take_ge by lia. rewrite <- Hf2. by eapply open_coherent.
  - right. rewrite (run_op_fail _ _ _ _ E) by done.
    rewrite append_frame_unsynced by exact (coherent_end _ _ _ C). fold (rec_bytes r).
    rewrite <- Hf2. by eapply open_coherent.
Qed.

(** ** Reads *)

Lemma find_rev {A} (p : A → bool) l : List.find p (rev l) = last (List.filter p l).
Proof.
  induction l as [|a l IH] using rev_ind; [done|].
  rewrite rev_app_distr, List.filter_app. simpl. destruct (p a); simpl.
  - by rewrite last_snoc.
  - by rewrite app_nil_r.
Qed.

Lemma versions_sorted id rs lsn :
  StronglySorted Z.lt (versions id (frames_of lsn rs)).*1 ∧
  Forall (λ v, lsn ≤ v) (versions id (frames_of lsn rs)).*1.
Proof.
  revert lsn. induction rs as [|r rs IH]; intros lsn; simpl; [split; constructor|].
  destruct (IH (lsn + cost r)) as [S1 F1]. pose proof (cost_nonneg r).
  assert (Forall (λ v, lsn ≤ v) (versions id (frames_of (lsn + cost r) rs)).*1) as F2
    by (eapply Forall_impl; [exact F1|]; simpl; lia).
  destruct r; simpl in *; try done.
  destruct (id0 =? id); simpl; [|done]. split; constructor; try done; try lia.
  eapply Forall_impl; [exact F1|]. simpl. lia.
Qed.

(** The MVCC read floor: a read at [q] below the retention floor is refused; otherwise it
    returns, from the page's versions in the durable log, the one with the greatest LSN
    at or below [q], and is refused when the log has none.  Versions carry strictly increasing
    LSNs, so "last" is "greatest". *)
Theorem local_get_page_floor g id q :
  reachable g →
  ∃ frames e n, read_log (file g) = Ok (frames, e, n) ∧
    StronglySorted Z.lt (versions id frames).*1 ∧
    (get_page id q g).2 =
      if q <? retention_floor g then Err NotFound
      else match last (List.filter (λ v, v.1 <=? q) (versions id frames)) with
           | Some (vlsn, image) => Ok (mkPage id vlsn image)
           | None => Err NotFound
           end.
Proof.
  intros (n & rs & C & _)%reachable_coherent.
  exists (frames_of 1 rs), (HEADER_SIZE + zlen (log_bytes rs)), (1 + costs rs).
  split; [|split; [apply versions_sorted|]].
  { rewrite (co_file _ _ _ C), <- (app_nil_r (log_bytes rs)) at 1. apply read_log_spec;
      [apply C | apply stops_nil]. }
  unfold get_page. destruct (q <? retention_floor g); [done|].
  change (pages g) with (pages (forget g)). rewrite (co_state _ _ _ C).
  change (pages (state_of (file g) rs))
    with (pages (fold_left apply_frame (frames_of 1 rs) (inner_new []))).
  destruct (pages_versions (frames_of 1 rs) id) as [H1 H2].
  destruct (pages (fold_left apply_frame (frames_of 1 rs) (inner_new [])) !! id) as [chain|].
  - simpl in H1. rewrite <- H1. unfold find_version. rewrite find_rev.
    by destruct (last _) as [[??]|].
  - destruct H2 as [-> _]; done.
Qed.

(** ** The write-ahead log *)

Lemma wal_entries_app after fs gs :
  wal_entries after (fs ++ gs) = wal_entries after fs ++ wal_entries after gs.
Proof. unfold wal_entries. by rewrite map_app, concat_app. Qed.

Lemma scan_wal_coherent n rs g after :
  Coherent n rs g → scan_wal after g = Ok (wal_entries after (frames_of 1 rs)).
Proof.
  intros C. unfold scan_wal. rewrite (co_file _ _ _ C), <- (app_nil_r (log_bytes rs)).
  rewrite read_log_spec by (apply C || apply stops_nil). done.
Qed.

Lemma number_filter {A} after lsn (l : list A) :
  after < lsn → List.filter (λ p, after <? p.1) (number lsn l) = number lsn l.
Proof.
  revert lsn. induction l as [|a l IH]; intros lsn H; simpl; [done|].
  destruct (Z.ltb_spec after lsn); [|lia]. rewrite IH by lia. done.
Qed.

(** Durable append: a successful [append_wal] of [records] returns the LSN of its last
    record, the records get the consecutive LSNs that follow every LSN assigned before (no gap,
    no reuse), both marks move to that LSN, and a recovery scan of the file returns the earlier
    entries unchanged followed by exactly these records in order. *)
Theorem local_append_scanned g token records g' lsn :
  reachable g → op_wf (OAppendWal token records) →
  append_wal IoOk token records g = (g', Ok lsn) →
  lsn = next_lsn g + zlen records - 1 ∧
  next_lsn g' = lsn + 1 ∧ durable_lsn g' = lsn ∧ commit_lsn g' = lsn ∧
  durable_lsn g = next_lsn g - 1 ∧
  ∃ old, scan_wal 0 g = Ok old ∧
    scan_wal 0 g' = Ok (old ++ map (λ p, mkEntry p.1 p.2) (number (next_lsn g) records)).
Proof.
  intros (n & rs & C & Hn)%reachable_coherent Hop H.
  assert (op_rec (OAppendWal token records) g = Some (RWal records) ∧
          (run_op IoOk (OAppendWal token records) g).1 = g') as [E Hg'].
  { revert H. unfold op_rec. unfold_ops. case_op; try done. by intros ->. }
  pose proof (run_op_coherent _ _ _ _ C Hn Hop) as C2. rewrite E, Hg' in C2. simpl in C2.
  pose proof (coherent_next _ _ _ C) as HN. pose proof (coherent_next _ _ _ C2) as HN2.
  rewrite costs_app in HN2. unfold costs at 2 in HN2. simpl in HN2.
  assert (lsn = next_lsn g + zlen records - 1 ∧ commit_lsn g' = lsn) as [-> Hc].
  { revert H. unfold_ops. case_op; try done. rewrite append_frame_ok by (by eapply coherent_end).
    intros [= <- <-]. done. }
  pose proof (co_durable _ _ _ C2). pose proof (co_durable _ _ _ C).
  split; [done|]. split; [lia|]. split; [lia|]. split; [lia|]. split; [done|].
  eexists. split; [by eapply scan_wal_coherent|].
  rewrite (scan_wal_coherent _ _ _ 0 C2), frames_of_app, wal_entries_app. do 2 f_equal.
  simpl. unfold wal_entries. simpl. rewrite app_nil_r, <- HN, number_filter; [done|].
  pose proof (costs_nonneg rs). lia.
Qed.

(** ** Fencing *)

Lemma run_op_epoch op g : epoch g ≤ epoch (run_op IoOk op g).1.
Proof.
  destruct (op_rec op g) as [r|] eqn:E.
  - destruct op; unfold op_rec in E; unfold_ops; case_op; try discriminate; cbn; lia.
  - change (epoch (run_op IoOk op g).1) with (epoch (forget (run_op IoOk op g).1)).
    by rewrite (run_op_none IoOk op g E).
Qed.

Lemma run_ops_epoch ops g : epoch g ≤ epoch (run_ops ops g).
Proof.
  revert g. induction ops as [|op ops IH]; intros g; simpl; [done|].
  pose proof (run_op_epoch op g). specialize (IH (run_op IoOk op g).1). lia.
Qed.

(** Single-writer fencing: acquiring the fence strictly increases the epoch, and from then
    on, whatever operations follow, a token of any earlier epoch is refused with [Fenced] by
    [append_wal], [put_page] and [renew_fence], without touching the file or the state. *)
Theorem local_fencing g now owner g1 token old ops io :
  acquire_fence IoOk now owner g = (g1, Ok token) → tok_epoch old ≤ epoch g →
  tok_epoch token = epoch g + 1 ∧
  let g2 := run_ops ops g1 in
  let refused := Err (Fenced (tok_epoch old) (epoch g2)) in
  tok_epoch old < epoch g2 ∧
  (∀ r records, append_wal io old (r :: records) g2 = (g2, refused)) ∧
  (∀ id image, zlen image ≤ PAGE_SIZE → put_page io old id image g2 = (g2, refused)) ∧
  (∀ t, renew_fence t old g2 = (g2, Err (Fenced (tok_epoch old) (epoch g2)))).
Proof.
  intros H Hold. unfold acquire_fence, comp_bind, append_frame in H.
  injection H as <- <-. split; [done|].
  match goal with |- context [run_ops ops ?x] => set (g1 := x) in * end.
  assert (epoch g1 = epoch g + 1) as E1 by done. pose proof (run_ops_epoch ops g1).
  assert (tok_epoch old =? epoch (run_ops ops g1) = false) as Hne by (apply Z.eqb_neq; lia).
  split; [lia|]. split; [|split].
  - intros r records. unfold append_wal. rewrite bool_decide_false by done.
    unfold check_fence, comp_bind. rewrite Hne. done.
  - intros id image Hi. unfold put_page.
    destruct (Z.ltb_spec PAGE_SIZE (zlen image)); [lia|].
    unfold check_fence, comp_bind. rewrite Hne. done.
  - intros t. unfold renew_fence. rewrite Hne. done.
Qed.

(** ** Branch pointers *)

Definition branches_ok (g : Inner) : Prop :=
  ∀ id b, branches g !! id = Some b →
    br_id b = id ∧ br_parent b = BranchId_ROOT ∧ br_head_lsn b = br_base_lsn b ∧
    1 ≤ id < next_branch_id g.

Lemma run_op_branches op g :
  branches_ok g → 1 ≤ next_branch_id g → branches_ok (run_op IoOk op g).1.
Proof.
  intros B Hn. destruct (op_rec op g) as [r|] eqn:E.
  2: { unfold branches_ok. change (branches (run_op IoOk op g).1)
         with (branches (forget (run_op IoOk op g).1)).
       change (next_branch_id (run_op IoOk op g).1)
         with (next_branch_id (forget (run_op IoOk op g).1)).
       rewrite (run_op_none IoOk op g E). exact B. }
  destruct op; unfold op_rec in E; unfold_ops; case_op; try discriminate; try exact B;
    intros id b; cbn -[insert delete]; intros Hb.
  - destruct (decide (next_branch_id g = id)) as [<-|Hne].
    + rewrite lookup_insert_eq in Hb. injection Hb as <-. simpl. lia.
    + rewrite lookup_insert_ne in Hb by done. apply B in Hb. lia.
  - apply lookup_delete_Some in Hb as [_ Hb]. by apply B.
Qed.

Lemma reachable_branches g : reachable g → branches_ok g.
Proof.
  intros (f0 & g0 & ops & Ho & Hops & Hn & ->). rewrite open_empty in Ho. injection Ho as <- <-.
  assert (Coherent 0 [] (inner_new header_bytes)) as C by apply coherent_fresh.
  assert (branches_ok (inner_new header_bytes)) as B by (intros id b; done).
  revert C B. generalize (inner_new header_bytes), ([] : list Rec).
  assert (0 + zlen ops < 2 ^ 64 - 1) as Hn' by lia. clear Hn. revert Hn'. generalize 0.
  induction Hops as [|op ops Hop _ IH]; intros n Hn g rs C B; simpl; [done|].
  rewrite zlen_cons in Hn. pose proof (zlen_nonneg ops).
  eapply (IH (n + 1)); [lia | apply run_op_coherent; [done | lia | done] |].
  apply run_op_branches; [done | apply C].
Qed.

(** Branch pointers: in every reachable state a stored branch carries its own id, an id below
    the next one to be given, the root as its parent and its fork point as its head; so a
    created branch gets an id no stored branch has, resolves to its fork point, and other
    branches resolve as before. *)
Theorem local_create_branch g base g' id :
  reachable g → create_branch IoOk base g = (g', Ok id) →
  branches g !! id = None ∧
  resolve_branch id g' = Ok (mkBranch id BranchId_ROOT base base) ∧
  next_branch_id g' = id + 1 ∧
  (∀ other, other ≠ id → resolve_branch other g' = resolve_branch other g).
Proof.
  intros Hr H. pose proof (reachable_branches g Hr) as B.
  unfold create_branch, comp_bind in H. case_op; try discriminate.
  unfold append_frame in H. injection H as <- <-. split; [|split; [|split]].
  - destruct (branches g !! next_branch_id g) eqn:E; [|done]. apply B in E. lia.
  - unfold resolve_branch. cbn -[insert]. by rewrite lookup_insert_eq.
  - done.
  - intros other Hne. unfold resolve_branch. cbn -[insert]. by rewrite lookup_insert_ne.
Qed.

(** Deleting a stored branch always succeeds: every branch of this namespace has the root as
    its parent and ids start at one, so the "live children" refusal of the contract cannot
    fire here.  After the delete the branch is unknown, and its id is not given again. *)
Theorem local_delete_branch g branch b :
  reachable g → resolve_branch branch g = Ok b →
  (delete_branch_locked IoOk branch g).2 = Ok tt ∧
  resolve_branch branch (delete_branch_locked IoOk branch g).1 = Err NotFound ∧
  branch < next_branch_id (delete_branch_locked IoOk branch g).1.
Proof.
  intros Hr H. pose proof (reachable_branches g Hr) as B.
  unfold resolve_branch in H. destruct (branches g !! branch) as [b'|] eqn:E; [|done].
  destruct (B _ _ E) as (_ & _ & _ & Hid).
  assert (has_children branch (branches g) = false) as Hc.
  { apply has_children_false. intros i c Hi. destruct (B _ _ Hi) as (_ & -> & _).
    unfold BranchId_ROOT. lia. }
  unfold delete_branch_locked. rewrite bool_decide_false by congruence. rewrite Hc.
  unfold comp_bind, append_frame. split; [done|]. split; [|cbn; lia].
  unfold resolve_branch. cbn -[delete]. by rewrite lookup_delete_eq.
Qed.

(** ** Retention *)

Lemma run_op_floor op g : retention_floor g ≤ retention_floor (run_op IoOk op g).1.
Proof.
  destruct (op_rec op g) as [r|] eqn:E.
  - destruct op; unfold op_rec in E; unfold_ops; case_op; try discriminate; bool_to_Prop; cbn; lia.
  - change (retention_floor (run_op IoOk op g).1)
      with (retention_floor (forget (run_op IoOk op g).1)).
    by rewrite (run_op_none IoOk op g E).
Qed.

Lemma run_ops_floor ops g : retention_floor g ≤ retention_floor (run_ops ops g).
Proof.
  revert g. induction ops as [|op ops IH]; intros g; simpl; [done|].
  pose proof (run_op_floor op g). specialize (IH (run_op IoOk op g).1). lia.
Qed.

(** The retention floor only moves forward: once it is at [lsn], whatever follows, a lower
    floor is refused with [Invalid], and reads and branch forks below [lsn] are refused with
    [NotFound]. *)
Theorem local_retention_floor g lsn g1 ops q io :
  set_retention_floor IoOk lsn g = (g1, Ok tt) → q < lsn →
  let g2 := run_ops ops g1 in
  lsn ≤ retention_floor g2 ∧
  set_retention_floor io q g2 = (g2, Err Invalid) ∧
  (∀ id, get_page id q g2 = (g2, Err NotFound)) ∧
  create_branch io q g2 = (g2, Err NotFound).
Proof.
  intros H Hq. simpl. assert (retention_floor g1 = lsn) as Hf.
  { revert H. unfold set_retention_floor, comp_bind, append_frame.
    destruct (lsn <? retention_floor g); [done|]. intros [= <-]. done. }
  pose proof (run_ops_floor ops g1). split; [lia|].
  assert (q <? retention_floor (run_ops ops g1) = true) as Hlt by (apply Z.ltb_lt; lia).
  unfold set_retention_floor, get_page, create_branch. by rewrite Hlt.
Qed.

(** ** Corrupted and stale bytes *)

(** A record with one changed byte is never replayed: when exactly one byte of the body of a
    frame appended after [g] differs on disk from what was written, recovery stops right before
    that frame, whatever follows it, and yields the state before it. *)
Theorem local_corrupt_byte_stops g tag payload a x y b tail :
  reachable g → zlen payload + 1 < 2 ^ 32 → tag :: payload = a ++ x :: b → x ≠ y →
  open_file IoOk IoOk
    (file g ++ u32_le (zlen payload + 1) ++ (a ++ y :: b) ++
     u32_le (Crc.crc32_pair tag payload) ++ tail) = (file g, Ok (forget g)).
Proof.
  intros (n & rs & C & _)%reachable_coherent Hlen Hbody Hne.
  eapply open_stops; [exact C|].
  assert (zlen (a ++ y :: b) = zlen payload + 1) as Hz.
  { apply (f_equal zlen) in Hbody. autorewrite with zlen in *. lia. }
  rewrite <- Hz. apply bad_crc_stops.
  - pose proof (zlen_nonneg payload). unfold is_u32. lia.
  - rewrite Crc.crc32_pair_cons. apply Crc.crc32_u32.
  - rewrite Crc.crc32_pair_cons, Hbody. intros E. symmetry in E.
    revert E. by apply Crc.crc32_detects_byte_change_l.
Qed.

(** A crash during the very first write leaves a file that no later [open] accepts: a header
    cut after 1 to 63 bytes is reported as [Corruption] and stays as it is. *)
Theorem local_torn_header_rejected k io1 io2 :
  (0 < k < 64)%nat →
  open_file (IoWriteErr k) io2 [] = (take k header_bytes, Err DurabilityUnconfirmed) ∧
  open_file io1 io2 (take k header_bytes) = (take k header_bytes, Err Corruption).
Proof.
  intros Hk. pose proof header_len as Hh. unfold HEADER_SIZE, zlen in Hh.
  assert (zlen (take k header_bytes) = Z.of_nat k) as Hl
    by (unfold zlen; rewrite length_take; lia).
  split.
  - unfold open_file. rewrite zlen_nil. simpl. unfold write_at. simpl.
    by rewrite drop_nil, app_nil_r.
  - unfold open_file, recover, read_log. rewrite Hl.
    destruct (Z.eqb_spec (Z.of_nat k) 0); [lia|].
    unfold HEADER_SIZE. destruct (Z.ltb_spec (Z.of_nat k) 64); [done | lia].
Qed.

Definition stale_token : FenceToken := mkToken 1 7 10000.
Definition ghost_frame : bytes :=
  let payload := wal_payload [mkWal (list_byte_of_string "ghost")] in frame_bytes T_WAL payload.
Definition stale_run : Inner :=
  let g := run_ops [OAcquireFence 0 7] (inner_new header_bytes) in
  let failed := OAppendWal stale_token [mkWal (list_byte_of_string "xxxxx" ++ ghost_frame)] in
  run_ops [OAppendWal stale_token [mkWal (list_byte_of_string "a")]] (run_op IoSyncErr failed g).1.

(** After a failed append the file keeps the bytes past the end mark, and a shorter append
    does not erase them: here the failed record's own bytes, user data, are replayed on restart
    as a committed record that no call ever appended, at an LSN past the durable one. *)
Theorem local_stale_tail_replayed :
  durable_lsn stale_run = 1 ∧
  scan_wal 0 stale_run =
    Ok [mkEntry 1 (mkWal (list_byte_of_string "a"));
        mkEntry 2 (mkWal (list_byte_of_string "ghost"))] ∧
  (open_file IoOk IoOk (file stale_run)).2 ≠ Ok (forget stale_run).
Proof. split; [|split]; vm_compute; [reflexivity..|]. intros [= ?]. Qed.

(** ** The theorems at a concrete database *)

Definition ex_ops : list Op :=
  [OAcquireFence 0 7;
   OAppendWal stale_token [mkWal (list_byte_of_string "a"); mkWal (list_byte_of_string "bc")];
   OPutPage stale_token 9 (list_byte_of_string "page");
   OCreateBranch 2].
Definition ex_state : Inner := run_ops ex_ops (inner_new header_bytes).
Definition ex_batch : list WalRecord := [mkWal (list_byte_of_string "d")].

Lemma ex_reachable : reachable ex_state.
Proof.
  apply reachable_run; [|by vm_compute].
  repeat constructor; simpl; unfold is_u64; try (vm_compute; done); lia.
Qed.


Lemma local_crash_atomic_witness :
  let g1 := (run_op (IoWriteErr 11) (OAppendWal stale_token ex_batch) ex_state).1 in
  let g2 := (run_op IoOk (OAppendWal stale_token ex_batch) ex_state).1 in
  open_file IoOk IoOk (file g1) = (file ex_state, Ok (forget ex_state)) ∨
  open_file IoOk IoOk (file g1) = (file g2, Ok (forget g2)).
Proof.
  apply (local_crash_atomic ex_state (OAppendWal stale_token ex_batch) (IoWriteErr 11));
    [apply ex_reachable | vm_compute; reflexivity].
Defined.

Lemma local_get_page_floor_witness :
  ∃ frames e n, read_log (file ex_state) = Ok (frames, e, n) ∧
    StronglySorted Z.lt (versions 9 frames).*1 ∧
    (get_page 9 3 ex_state).2 =
      if 3 <? retention_floor ex_state then Err NotFound
      else match last (List.filter (λ v, v.1 <=? 3) (versions 9 frames)) with
           | Some (vlsn, image) => Ok (mkPage 9 vlsn image)
           | None => Err NotFound
           end.
Proof. apply (local_get_page_floor ex_state 9 3). apply ex_reachable. Defined.

Lemma local_append_scanned_witness :
  let g' := (append_wal IoOk stale_token ex_batch ex_state).1 in
  4 = next_lsn ex_state + zlen ex_batch - 1 ∧
  next_lsn g' = 4 + 1 ∧ durable_lsn g' = 4 ∧ commit_lsn g' = 4 ∧
  durable_lsn ex_state = next_lsn ex_state - 1 ∧
  ∃ old, scan_wal 0 ex_state = Ok old ∧
    scan_wal 0 g' = Ok (old ++ map (λ p, mkEntry p.1 p.2) (number (next_lsn ex_state) ex_batch)).
Proof.
  apply (local_append_scanned ex_state stale_token ex_batch);
    [apply ex_reachable | vm_compute; reflexivity | vm_compute; reflexivity].
Defined.

Lemma local_fencing_witness :
  let g1 := (acquire_fence IoOk 5 8 ex_state).1 in
  let g2 := run_ops [OFlush] g1 in
  tok_epoch (mkToken 2 8 10005) = epoch ex_state + 1 ∧
  tok_epoch stale_token < epoch g2 ∧
  (∀ r records, append_wal IoOk stale_token (r :: records) g2 =
     (g2, Err (Fenced (tok_epoch stale_token) (epoch g2)))) ∧
  (∀ id image, zlen image ≤ PAGE_SIZE → put_page IoOk stale_token id image g2 =
     (g2, Err (Fenced (tok_epoch stale_token) (epoch g2)))) ∧
  (∀ t, renew_fence t stale_token g2 =
     (g2, Err (Fenced (tok_epoch stale_token) (epoch g2)))).
Proof.
  apply (local_fencing ex_state 5 8 (acquire_fence IoOk 5 8 ex_state).1 (mkToken 2 8 10005)
           stale_token [OFlush] IoOk); vm_compute; [reflexivity | discriminate].
Defined.

Lemma local_create_branch_witness :
  let g' := (create_branch IoOk 3 ex_state).1 in
  branches ex_state !! 2 = None ∧
  resolve_branch 2 g' = Ok (mkBranch 2 BranchId_ROOT 3 3) ∧
  next_branch_id g' = 2 + 1 ∧
  (∀ other, other ≠ 2 → resolve_branch other g' = resolve_branch other ex_state).
Proof.
  apply (local_create_branch ex_state 3); [apply ex_reachable | vm_compute; reflexivity].
Defined.

Lemma local_delete_branch_witness :
  (delete_branch_locked IoOk 1 ex_state).2 = Ok tt ∧
  resolve_branch 1 (delete_branch_locked IoOk 1 ex_state).1 = Err NotFound ∧
  1 < next_branch_id (delete_branch_locked IoOk 1 ex_state).1.
Proof.
  apply (local_delete_branch ex_state 1 (mkBranch 1 0 2 2));
    [apply ex_reachable | vm_compute; reflexivity].
Defined.

Lemma local_retention_floor_witness :
  let g2 := run_ops [OFlush] (set_retention_floor IoOk 2 ex_state).1 in
  2 ≤ retention_floor g2 ∧
  set_retention_floor IoOk 1 g2 = (g2, Err Invalid) ∧
  (∀ id, get_page id 1 g2 = (g2, Err NotFound)) ∧
  create_branch IoOk 1 g2 = (g2, Err NotFound).
Proof.
  apply (local_retention_floor ex_state 2 _ [OFlush] 1 IoOk); vm_compute; reflexivity.
Defined.

Lemma local_corrupt_byte_stops_witness :
  open_file IoOk IoOk
    (file ex_state ++ u32_le (zlen (u64_le 3) + 1) ++
     ([T_FENCE] ++ Init.Byte.xff :: drop 1 (u64_le 3)) ++
     u32_le (Crc.crc32_pair T_FENCE (u64_le 3)) ++ [Init.Byte.x00]) =
  (file ex_state, Ok (forget ex_state)).
Proof.
  apply (local_corrupt_byte_stops ex_state T_FENCE (u64_le 3) [T_FENCE] Init.Byte.x03);
    [apply ex_reachable | vm_compute; reflexivity | vm_compute; reflexivity | discriminate].
Defined.

Lemma local_torn_header_rejected_witness :
  open_file (IoWriteErr 10) IoOk [] = (take 10 header_bytes, Err DurabilityUnconfirmed) ∧
  open_file IoOk IoOk (take 10 header_bytes) = (take 10 header_bytes, Err Corruption).
Proof. apply local_torn_header_rejected. lia. Defined.

End LocalSpec.
