(* ===== verification/ObjCodec.v ===== *)
(** * The durable objects of the object-storage backend (crates/storage/src/object/codec.rs)

    Log segments, delta layers and image layers: a magic prefix, a counted body and a trailing
    CRC-32.  The [Reader] is a byte parser over what is left of the body.  The file shows the
    round trips, that a decoder accepts nothing that differs in one byte from an object it
    accepts, that it never reads one kind of object as another, and that it can only fail with
    [Corruption]. *)

From S2P Require Import Prelude StorageTypes Crc32.

Module Codec.

Definition SEG_MAGIC : bytes := list_byte_of_string "BDLOG1".
Definition DELTA_MAGIC : bytes := list_byte_of_string "BDDEL1".
Definition IMAGE_MAGIC : bytes := list_byte_of_string "BDIMG1".

Definition ITEM_WAL : Init.Byte.byte := Init.Byte.x01.
Definition ITEM_PAGE : Init.Byte.byte := Init.Byte.x02.

Inductive LogItem :=
| Wal (b : bytes)
| PageItem (page_id : Z) (image : bytes).

Record PageRecord := mkRecord {
  rec_page_id : Z;
  rec_lsn : Z;
  rec_image : bytes
}.

#[export] Instance LogItem_eq_dec : EqDecision LogItem.
Proof. solve_decision. Defined.
#[export] Instance PageRecord_eq_dec : EqDecision PageRecord.
Proof. solve_decision. Defined.

(** ** Framing *)

(** [finish]: the body followed by its checksum. *)
Definition finish (body : bytes) : bytes := body ++ u32_le (Crc.crc32 body).

(** [Reader::open]: the body after the magic. *)
Definition Reader_open (bs magic : bytes) : Result StorageError bytes :=
  if zlen bs <? zlen magic + 4 then Err Corruption
  else
    let n := Z.to_nat (zlen bs - 4) in
    let body := take n bs in
    let stored := from_le (drop n bs) in
    if negb (Crc.crc32 body =? stored) then Err Corruption
    else if bool_decide (take (length magic) body ≠ magic) then Err Corruption
    else Ok (drop (length magic) body).

(** [Reader::take], [u8], [u32] and [u64]. *)
Definition Reader_take (n : Z) : Parser StorageError bytes := p_take Corruption n.
Definition Reader_u8 : Parser StorageError Init.Byte.byte := p_u8 Corruption.
Definition Reader_u32 : Parser StorageError Z := p_u32 Corruption.
Definition Reader_u64 : Parser StorageError Z := p_u64 Corruption.

(** Runs a reader over a body; what it leaves unread is ignored. *)
Definition run_reader {A} (p : Parser StorageError A) (body : bytes) : Result StorageError A :=
  match p body with Ok (a, _) => Ok a | Err e => Err e end.

(** ** Log segments *)

Definition encode_item (i : LogItem) : bytes :=
  match i with
  | Wal b => [ITEM_WAL] ++ u32_le (zlen b) ++ b
  | PageItem id image => [ITEM_PAGE] ++ u64_le id ++ u32_le (zlen image) ++ image
  end.

Definition encode_segment (items : list LogItem) : bytes :=
  finish (SEG_MAGIC ++ u32_le (zlen items) ++ concat (map encode_item items)).

(** One turn of the [for _ in 0..count] of [decode_segment]. *)
Definition decode_item : Parser StorageError LogItem :=
  tag ← Reader_u8;
  if bool_decide (tag = ITEM_WAL) then
    len ← Reader_u32; b ← Reader_take len; mret (Wal b)
  else if bool_decide (tag = ITEM_PAGE) then
    page_id ← Reader_u64; len ← Reader_u32;
    if PAGE_SIZE <? len then p_fail Corruption
    else image ← Reader_take len; mret (PageItem page_id image)
  else p_fail Corruption.

Definition decode_segment (bs : bytes) : Result StorageError (list LogItem) :=
  body ← Reader_open bs SEG_MAGIC;
  run_reader (count ← Reader_u32; p_rep (Z.to_nat count) decode_item) body.

(** ** Layers *)

Definition encode_record (r : PageRecord) : bytes :=
  u64_le (rec_page_id r) ++ u64_le (rec_lsn r) ++ u32_le (zlen (rec_image r)) ++ rec_image r.

Definition encode_layer (magic : bytes) (records : list PageRecord) : bytes :=
  finish (magic ++ u32_le (zlen records) ++ concat (map encode_record records)).

Definition decode_record : Parser StorageError PageRecord :=
  page_id ← Reader_u64; lsn ← Reader_u64; len ← Reader_u32;
  if PAGE_SIZE <? len then p_fail Corruption
  else image ← Reader_take len; mret (mkRecord page_id lsn image).

Definition decode_layer (bs magic : bytes) : Result StorageError (list PageRecord) :=
  body ← Reader_open bs magic;
  run_reader (count ← Reader_u32; p_rep (Z.to_nat count) decode_record) body.

Definition encode_delta (records : list PageRecord) : bytes := encode_layer DELTA_MAGIC records.
Definition decode_delta (bs : bytes) : Result StorageError (list PageRecord) :=
  decode_layer bs DELTA_MAGIC.
Definition encode_image (records : list PageRecord) : bytes := encode_layer IMAGE_MAGIC records.
Definition decode_image (bs : bytes) : Result StorageError (list PageRecord) :=
  decode_layer bs IMAGE_MAGIC.

(** ** What the Rust types guarantee of a value handed to an encoder *)

Definition item_ok (i : LogItem) : Prop :=
  match i with
  | Wal b => is_u32 (zlen b)
  | PageItem id image => is_u64 id ∧ zlen image ≤ PAGE_SIZE
  end.

Definition record_ok (r : PageRecord) : Prop :=
  is_u64 (rec_page_id r) ∧ is_u64 (rec_lsn r) ∧ zlen (rec_image r) ≤ PAGE_SIZE.

#[export] Instance item_ok_dec i : Decision (item_ok i).
Proof. destruct i; unfold item_ok, is_u32, is_u64; apply _. Defined.
#[export] Instance record_ok_dec r : Decision (record_ok r).
Proof. unfold record_ok, is_u64; apply _. Defined.

(** ** Lemmas: framing *)

Lemma zlen_finish body : zlen (finish body) = zlen body + 4.
Proof. unfold finish. by rewrite zlen_app, zlen_u32. Qed.

Lemma finish_split body :
  take (Z.to_nat (zlen (finish body) - 4)) (finish body) = body ∧
  from_le (drop (Z.to_nat (zlen (finish body) - 4)) (finish body)) = Crc.crc32 body.
Proof.
  rewrite zlen_finish. replace (Z.to_nat _) with (length body) by (unfold zlen; lia).
  unfold finish. rewrite take_app_length, drop_app_length.
  split; [done | apply from_le_u32, Crc.crc32_u32].
Qed.

Lemma Reader_open_finish magic rest :
  Reader_open (finish (magic ++ rest)) magic = Ok rest.
Proof.
  unfold Reader_open. destruct (finish_split (magic ++ rest)) as [-> ->].
  rewrite zlen_finish, zlen_app. pose proof (zlen_nonneg rest).
  destruct (Z.ltb_spec (zlen magic + zlen rest + 4) (zlen magic + 4)); [lia|].
  by rewrite Z.eqb_refl, take_app_length, drop_app_length, bool_decide_eq_false_2 by naive_solver.
Qed.

(** What an accepted object looks like. *)
Lemma Reader_open_Ok bs magic rest :
  Reader_open bs magic = Ok rest → bs = finish (magic ++ rest).
Proof.
  unfold Reader_open. destruct (Z.ltb_spec (zlen bs) (zlen magic + 4)) as [|Hlen]; [done|].
  set (n := Z.to_nat (zlen bs - 4)). intros H.
  destruct (Z.eqb_spec (Crc.crc32 (take n bs)) (from_le (drop n bs))) as [Hc|]; [|done].
  cbn [negb] in H. case_bool_decide as Hm; [done|]. simp_res.
  unfold finish. rewrite <- Hm at 1 3. rewrite !take_drop, Hc.
  assert (length (drop n bs) = 4%nat) as H4 by (unfold n; len).
  rewrite <- H4, LittleEndianList.split_le_combine. by rewrite take_drop.
Qed.

(** The only error of [Reader::open]. *)
Lemma Reader_open_err bs magic e : Reader_open bs magic = Err e → e = Corruption.
Proof. unfold Reader_open. repeat case_match; congruence. Qed.

(** Two accepted objects that differ in at most one byte are the same object. *)
Lemma Reader_open_byte_change pre b1 b2 post magic rest :
  Reader_open (pre ++ b1 :: post) magic = Ok rest → b1 ≠ b2 →
  Reader_open (pre ++ b2 :: post) magic = Err Corruption.
Proof.
  intros H1 Hne. destruct (Reader_open (pre ++ b2 :: post) magic) as [rest'|e] eqn:H2;
    [|by rewrite (Reader_open_err _ _ _ H2)].
  exfalso. apply Reader_open_Ok in H1, H2. unfold finish in *.
  set (m1 := magic ++ rest) in *. set (m2 := magic ++ rest') in *.
  assert (length m1 = length m2) as Hl.
  { apply (f_equal length) in H1, H2. autorewrite with len in H1, H2. lia. }
  destruct (decide (length pre < length m1)%nat) as [Hlt|Hge].
  - assert (∀ b m, length m = length m1 → pre ++ b :: post = m ++ u32_le (Crc.crc32 m) →
      m = pre ++ b :: take (length m1 - length pre - 1) post ∧
      u32_le (Crc.crc32 m) = drop (length m1 - length pre - 1) post) as Hsplit.
    { intros b m Hm Heq. apply (f_equal (take (length m))) in Heq as Ht.
      apply (f_equal (drop (length m))) in Heq as Hd.
      rewrite take_app_length, take_app, take_ge in Ht by lia.
      rewrite drop_app_length, drop_app, drop_ge in Hd by lia.
      rewrite Hm in *. destruct (length m1 - length pre)%nat as [|k] eqn:Ek; [lia|].
      simpl in *. replace (k - 0)%nat with k by lia. done. }
    destruct (Hsplit b1 m1) as [E1 C1]; [done..|]. destruct (Hsplit b2 m2) as [E2 C2]; [done..|].
    apply (Crc.crc32_detects_byte_change_l pre b1 b2 (take (length m1 - length pre - 1) post)); [done|].
    rewrite <- E1, <- E2, <- (from_le_u32 (Crc.crc32 m1)), <- (from_le_u32 (Crc.crc32 m2))
      by apply Crc.crc32_u32. congruence.
  - assert (m1 = m2) as Hm.
    { apply (f_equal (take (length m1))) in H1, H2.
      rewrite take_app_le, take_app_length in H1 by lia.
      rewrite take_app_le in H2 by lia. rewrite Hl, take_app_length in H2. congruence. }
    rewrite Hm, <- H2 in H1. apply app_inv_head in H1. congruence.
Qed.

(** Objects of one kind never open as another kind. *)
Lemma Reader_open_other_magic magic magic' rest :
  length magic = length magic' → magic ≠ magic' →
  Reader_open (finish (magic ++ rest)) magic' = Err Corruption.
Proof.
  intros Hl Hne. destruct (Reader_open _ magic') as [r|e] eqn:H;
    [|by rewrite (Reader_open_err _ _ _ H)].
  apply Reader_open_Ok in H. unfold finish in H. exfalso. apply Hne.
  apply (f_equal (take (length magic))) in H.
  by rewrite <- !app_assoc, take_app_length, Hl, take_app_length in H.
Qed.

(** ** Lemmas: items and records *)

Lemma item_reads i : item_ok i → reads decode_item (encode_item i) i.
Proof.
  unfold decode_item, Reader_u8, Reader_u32, Reader_u64, Reader_take.
  destruct i as [b|id image]; intros Hok; cbn [encode_item]; eapply reads_bind;
    [apply reads_u8| |apply reads_u8|].
  - rewrite bool_decide_eq_true_2 by done.
    eapply reads_bind; [by apply reads_u32|]. by apply reads_map, reads_take.
  - destruct Hok as [Hid Him].
    rewrite bool_decide_eq_false_2, bool_decide_eq_true_2 by done.
    eapply reads_bind; [by apply reads_u64|].
    eapply reads_bind; [apply reads_u32; unfold PAGE_SIZE in Him; len|].
    destruct (Z.ltb_spec PAGE_SIZE (zlen image)); [lia|].
    by apply (reads_map _ (PageItem id)), reads_take.
Qed.

Lemma record_reads r : record_ok r → reads decode_record (encode_record r) r.
Proof.
  intros (Hid & Hlsn & Him). destruct r as [id lsn image]. cbn in *.
  unfold decode_record, encode_record, Reader_u64, Reader_u32, Reader_take; cbn.
  eapply reads_bind; [by apply reads_u64|]. eapply reads_bind; [by apply reads_u64|].
  eapply reads_bind; [apply reads_u32; unfold PAGE_SIZE in Him; len|].
  destruct (Z.ltb_spec PAGE_SIZE (zlen image)); [lia|].
  by apply (reads_map _ (mkRecord id lsn)), reads_take.
Qed.

(** A counted sequence of encodings, as both kinds of object hold one. *)
Lemma counted_reads {A} (p : Parser StorageError A) (enc : A → bytes) (l : list A) rest :
  is_u32 (zlen l) → (∀ x, x ∈ l → reads p (enc x) x) →
  run_reader (count ← Reader_u32; p_rep (Z.to_nat count) p)
    ((u32_le (zlen l) ++ concat (map enc l)) ++ rest) = Ok l.
Proof.
  intros Hn Henc. unfold run_reader.
  erewrite reads_bind; [reflexivity | by apply reads_u32 |].
  apply reads_rep; [|unfold zlen; lia].
  induction l as [|x l IH]; [constructor|]. simpl. constructor; [apply Henc; left|].
  apply IH; [len|]. intros y Hy. apply Henc. by right.
Qed.

Lemma decode_segment_encode items :
  Forall item_ok items → is_u32 (zlen items) → decode_segment (encode_segment items) = Ok items.
Proof.
  intros Hok Hn. unfold decode_segment, encode_segment. rewrite Reader_open_finish. cbn.
  rewrite <- (app_nil_r (u32_le (zlen items) ++ _)). apply counted_reads; [done|].
  intros x Hx. apply item_reads. by eapply Forall_forall in Hok.
Qed.

Lemma decode_layer_encode magic records :
  Forall record_ok records → is_u32 (zlen records) →
  decode_layer (encode_layer magic records) magic = Ok records.
Proof.
  intros Hok Hn. unfold decode_layer, encode_layer. rewrite Reader_open_finish. cbn.
  rewrite <- (app_nil_r (u32_le (zlen records) ++ _)). apply counted_reads; [done|].
  intros x Hx. apply record_reads. by eapply Forall_forall in Hok.
Qed.

Lemma decode_item_parses : parses Corruption decode_item item_ok.
Proof.
  unfold decode_item, Reader_u8, Reader_u32, Reader_u64, Reader_take.
  eapply parses_bind; [apply parses_u8|]. intros tag _.
  case_bool_decide; [|case_bool_decide; [|apply parses_fail]].
  - eapply parses_bind; [apply parses_u32|]. intros len Hlen.
    eapply parses_bind; [apply parses_take|]. intros b Hb.
    apply parses_ret. cbn. rewrite Hb; [done | by destruct Hlen].
  - eapply parses_bind; [apply parses_u64|]. intros id Hid.
    eapply parses_bind; [apply parses_u32|]. intros len [Hlen _].
    destruct (Z.ltb_spec PAGE_SIZE len); [apply parses_fail|].
    eapply parses_bind; [apply parses_take|]. intros image Him.
    apply parses_ret. split; [done | by rewrite Him].
Qed.

Lemma decode_record_parses : parses Corruption decode_record record_ok.
Proof.
  unfold decode_record, Reader_u64, Reader_u32, Reader_take.
  eapply parses_bind; [apply parses_u64|]. intros id Hid.
  eapply parses_bind; [apply parses_u64|]. intros lsn Hlsn.
  eapply parses_bind; [apply parses_u32|]. intros len [Hlen _].
  destruct (Z.ltb_spec PAGE_SIZE len); [apply parses_fail|].
  eapply parses_bind; [apply parses_take|]. intros image Him.
  apply parses_ret. split_and!; [done.. | by cbn; rewrite Him].
Qed.

(** The shared shape of both decoders on arbitrary bytes. *)
Lemma counted_total {A} (p : Parser StorageError A) (P : A → Prop) bs magic :
  parses Corruption p P →
  match (body ← Reader_open bs magic;
         run_reader (count ← Reader_u32; p_rep (Z.to_nat count) p) body) with
  | Ok l => Forall P l
  | Err e => e = Corruption
  end.
Proof.
  intros Hp. destruct (Reader_open bs magic) as [body|e] eqn:Ho; cbn;
    [|by eapply Reader_open_err].
  unfold run_reader.
  assert (parses Corruption (count ← Reader_u32; p_rep (Z.to_nat count) p) (Forall P)) as H.
  { eapply parses_bind; [apply parses_u32|]. intros n _ bs'.
    pose proof (parses_rep Corruption (Z.to_nat n) p P Hp bs') as Hr.
    destruct (p_rep _ _ _) as [[? ?]|]; [by destruct Hr | done]. }
  specialize (H body). cbv beta in H. revert H. case_match; [|done]. by case_match.
Qed.

(** ** Properties *)

(** Encoding the items of one append and decoding the object gives the items back: every WAL
    record byte for byte, every page image with its page id. *)
Theorem segment_roundtrip items :
  Forall item_ok items → is_u32 (zlen items) → decode_segment (encode_segment items) = Ok items.
Proof. apply decode_segment_encode. Qed.

Lemma segment_roundtrip_witness :
  decode_segment (encode_segment [Wal [Init.Byte.x61]; PageItem 7 [Init.Byte.x62; Init.Byte.x63]])
  = Ok [Wal [Init.Byte.x61]; PageItem 7 [Init.Byte.x62; Init.Byte.x63]].
Proof.
  apply segment_roundtrip; [|by vm_compute].
  apply (bool_decide_eq_true_1 (Forall item_ok _)). vm_compute. reflexivity.
Defined.

(** A layer reads back exactly the page records it was written with, and neither kind of
    layer is ever read as the other kind or as a log segment. *)
Theorem layer_roundtrip records :
  Forall record_ok records → is_u32 (zlen records) →
  decode_delta (encode_delta records) = Ok records ∧
  decode_image (encode_image records) = Ok records ∧
  decode_image (encode_delta records) = Err Corruption ∧
  decode_delta (encode_image records) = Err Corruption ∧
  decode_segment (encode_delta records) = Err Corruption ∧
  decode_segment (encode_image records) = Err Corruption.
Proof.
  intros Hok Hn. split_and!; try by apply decode_layer_encode.
  all: unfold decode_image, decode_delta, decode_layer, decode_segment,
    encode_image, encode_delta, encode_layer.
  all: by rewrite Reader_open_other_magic by done.
Qed.

Lemma layer_roundtrip_witness :
  let rs := [mkRecord 1 10 [Init.Byte.x61]; mkRecord 2 11 []] in
  decode_delta (encode_delta rs) = Ok rs ∧ decode_image (encode_image rs) = Ok rs ∧
  decode_image (encode_delta rs) = Err Corruption ∧
  decode_delta (encode_image rs) = Err Corruption ∧
  decode_segment (encode_delta rs) = Err Corruption ∧
  decode_segment (encode_image rs) = Err Corruption.
Proof.
  intros rs. apply layer_roundtrip; [|by vm_compute].
  apply (bool_decide_eq_true_1 (Forall record_ok _)). vm_compute. reflexivity.
Defined.

(** On arbitrary bytes the decoders either return values that could have been encoded (page
    images of at most one page, integers in range) or fail with [Corruption]; and an object that
    differs in one byte from one a decoder accepts is refused. *)
Theorem decoders_reject_corruption :
  (∀ bs, match decode_segment bs with Ok l => Forall item_ok l | Err e => e = Corruption end) ∧
  (∀ bs, match decode_delta bs with Ok l => Forall record_ok l | Err e => e = Corruption end) ∧
  (∀ bs, match decode_image bs with Ok l => Forall record_ok l | Err e => e = Corruption end) ∧
  (∀ pre b1 b2 post, b1 ≠ b2 →
     (is_ok (decode_segment (pre ++ b1 :: post)) = true →
      decode_segment (pre ++ b2 :: post) = Err Corruption) ∧
     (is_ok (decode_delta (pre ++ b1 :: post)) = true →
      decode_delta (pre ++ b2 :: post) = Err Corruption) ∧
     (is_ok (decode_image (pre ++ b1 :: post)) = true →
      decode_image (pre ++ b2 :: post) = Err Corruption)).
Proof.
  split_and!; [intros; by apply counted_total, decode_item_parses
              |intros; by apply counted_total, decode_record_parses
              |intros; by apply counted_total, decode_record_parses|].
  intros pre b1 b2 post Hne.
  unfold decode_segment, decode_delta, decode_image, decode_layer.
  split_and!; intros Hok;
    (destruct (Reader_open (pre ++ b1 :: post) _) as [body|] eqn:Ho; [|discriminate Hok]);
    by rewrite (Reader_open_byte_change _ _ _ _ _ _ Ho Hne).
Qed.

End Codec.

#[global] Opaque Codec.encode_segment Codec.decode_segment Codec.encode_layer Codec.decode_layer.
