(* ===== verification/ObjStore.v ===== *)
(** * The object-client seam (crates/storage/src/object/{store,mem,fault,binding}.rs)

    [ObjectStore] is the trait of store.rs as a type class over the state of a store, and
    [ObjectStoreLaws] is what its documentation promises: reads and listings do not change the
    bucket, a conditional write succeeds exactly when its precondition holds, a lost precondition
    writes nothing, and a call that fails for another reason may or may not have written.  The
    in-memory store, the host binding over any host, and the fault-injecting wrapper over any
    lawful store are instances. *)

From S2P Require Import Prelude Text StorageTypes.

Abbreviation ETag := string (only parsing).

Inductive ObjectError :=
| ONotFound
| Precondition
| OTransient.

#[global] Instance ObjectError_eq_dec : EqDecision ObjectError.
Proof. solve_decision. Defined.

Record GetResult := mkGet { gr_bytes : bytes; gr_etag : ETag }.

(** The trait: every method may change the state of the store it is called on. *)
Class ObjectStore (St : Type) := {
  get : string → Comp St ObjectError (option GetResult);
  put_if_absent : string → bytes → Comp St ObjectError ETag;
  put_if_match : string → bytes → ETag → Comp St ObjectError ETag;
  put : string → bytes → Comp St ObjectError ETag;
  delete_obj : string → Comp St ObjectError unit;
  list_keys : string → Comp St ObjectError (list string)
}.

(** ** [MemObjectStore] *)

Module Mem.

Record MemObjectStore := mkMem {
  map : gmap string (bytes * ETag);
  etag_seq : Z
}.

Definition new : MemObjectStore := mkMem ∅ 0.

(** [next_etag]: [format!("e{}", etag_seq.fetch_add(1))]. *)
Definition next_etag (m : MemObjectStore) : ETag * MemObjectStore :=
  (("e" +:+ pretty (etag_seq m))%string, mkMem (map m) (etag_seq m + 1)).

Definition mem_insert (key : string) (b : bytes) (m : MemObjectStore) : MemObjectStore * ETag :=
  let '(etag, m) := next_etag m in (mkMem (<[key := (b, etag)]> (map m)) (etag_seq m), etag).

Definition mem_get (key : string) : Comp MemObjectStore ObjectError (option GetResult) := λ m,
  (m, Ok ((λ v : bytes * ETag, mkGet v.1 v.2) <$> map m !! key)).

Definition mem_put_if_absent (key : string) (b : bytes) : Comp MemObjectStore ObjectError ETag :=
  λ m,
  if bool_decide (is_Some (map m !! key)) then (m, Err Precondition)
  else let '(m, etag) := mem_insert key b m in (m, Ok etag).

Definition mem_put_if_match (key : string) (b : bytes) (etag : ETag)
    : Comp MemObjectStore ObjectError ETag := λ m,
  match map m !! key with
  | Some (_, cur) =>
      if String.eqb cur etag then let '(m, new) := mem_insert key b m in (m, Ok new)
      else (m, Err Precondition)
  | None => (m, Err Precondition)
  end.

Definition mem_put (key : string) (b : bytes) : Comp MemObjectStore ObjectError ETag := λ m,
  let '(m, etag) := mem_insert key b m in (m, Ok etag).

Definition mem_delete (key : string) : Comp MemObjectStore ObjectError unit := λ m,
  (mkMem (delete key (map m)) (etag_seq m), Ok tt).

(** The keys of the [BTreeMap], in order, that start with [prefix]. *)
Definition sorted_keys {V} (prefix : string) (m : gmap string V) : list string :=
  filter (λ k, starts_with prefix k = true) (merge_sort String.le (map_to_list m).*1).

Definition mem_list (prefix : string) : Comp MemObjectStore ObjectError (list string) := λ m,
  (m, Ok (sorted_keys prefix (map m))).

#[global] Instance MemObjectStore_ObjectStore : ObjectStore MemObjectStore := {|
  get := mem_get;
  put_if_absent := mem_put_if_absent;
  put_if_match := mem_put_if_match;
  put := mem_put;
  delete_obj := mem_delete;
  list_keys := mem_list
|}.

End Mem.

(** ** The host binding *)

Module Binding.

Inductive BindingError :=
| BNotFound
| BPrecondition
| BTransient.

(** [impl From<BindingError> for ObjectError]. *)
Definition to_object_error (e : BindingError) : ObjectError :=
  match e with
  | BNotFound => ONotFound
  | BPrecondition => Precondition
  | BTransient => OTransient
  end.

Class BindingHost (H : Type) := {
  host_get : string → Comp H BindingError (option (bytes * ETag));
  host_put_if_absent : string → bytes → Comp H BindingError ETag;
  host_put_if_match : string → bytes → ETag → Comp H BindingError ETag;
  host_put : string → bytes → Comp H BindingError ETag;
  host_delete : string → Comp H BindingError unit;
  host_list : string → Comp H BindingError (list string)
}.

Record BindingObjectStore (H : Type) := mkBinding { host : H }.
Arguments mkBinding {H} host.
Arguments host {H} b.

(** [self.host.op(..)?], the error converted. *)
Definition on_host {H A} (m : Comp H BindingError A) : Comp (BindingObjectStore H) ObjectError A :=
  λ s, match m (host s) with
       | (h, Ok a) => (mkBinding h, Ok a)
       | (h, Err e) => (mkBinding h, Err (to_object_error e))
       end.

#[global] Instance BindingObjectStore_ObjectStore {H} `{BindingHost H} :
    ObjectStore (BindingObjectStore H) := {|
  get := λ key,
    comp_bind (on_host (host_get key))
      (λ v, comp_ret ((λ v : bytes * ETag, mkGet v.1 v.2) <$> v));
  put_if_absent := λ key b, on_host (host_put_if_absent key b);
  put_if_match := λ key b etag, on_host (host_put_if_match key b etag);
  put := λ key b, on_host (host_put key b);
  delete_obj := λ key, on_host (host_delete key);
  list_keys := λ prefix, on_host (host_list prefix)
|}.

Record MemBindingHost := mkHost {
  hmap : gmap string (bytes * ETag);
  hetag_seq : Z
}.

Definition host_new : MemBindingHost := mkHost ∅ 0.

(** [next_etag] and the insertion of a [(bytes, etag)] pair. *)
Definition host_insert (key : string) (b : bytes) (m : MemBindingHost) : MemBindingHost * ETag :=
  let etag := ("b" +:+ pretty (hetag_seq m))%string in
  (mkHost (<[key := (b, etag)]> (hmap m)) (hetag_seq m + 1), etag).

#[global] Instance MemBindingHost_BindingHost : BindingHost MemBindingHost := {|
  host_get := λ key m, (m, Ok (hmap m !! key));
  host_put_if_absent := λ key b m,
    if bool_decide (is_Some (hmap m !! key)) then (m, Err BPrecondition)
    else let '(m, etag) := host_insert key b m in (m, Ok etag);
  host_put_if_match := λ key b etag m,
    match hmap m !! key with
    | Some (_, cur) =>
        if String.eqb cur etag then let '(m, new) := host_insert key b m in (m, Ok new)
        else (m, Err BPrecondition)
    | None => (m, Err BPrecondition)
    end;
  host_put := λ key b m, let '(m, etag) := host_insert key b m in (m, Ok etag);
  host_delete := λ key m, (mkHost (delete key (hmap m)) (hetag_seq m), Ok tt);
  host_list := λ prefix m, (m, Ok (Mem.sorted_keys prefix (hmap m)))
|}.

End Binding.

(** ** [FaultObjectStore] *)

Module Fault.

Inductive FaultKind := Get | PutIfAbsent | PutIfMatch | Put | Delete | List_.
#[global] Instance FaultKind_eq_dec : EqDecision FaultKind.
Proof. solve_decision. Defined.

Inductive FaultMode := BeforeOp | AfterOp.

Record FaultPlan := mkPlan { kind : FaultKind; fire_at : Z; mode : FaultMode }.

Record FaultObjectStore (St : Type) := mkFault {
  inner : St;
  plan : option FaultPlan;
  fired : bool;
  counts : FaultKind → Z
}.
Arguments mkFault {St} inner plan fired counts.
Arguments inner {St} f.
Arguments plan {St} f.
Arguments fired {St} f.
Arguments counts {St} f.

Section Wrapper.
Context {St : Type} `{ObjectStore St}.

Definition fault_new (s : St) : FaultObjectStore St := mkFault s None false (λ _, 0).

Definition arm (p : FaultPlan) (f : FaultObjectStore St) : FaultObjectStore St :=
  mkFault (inner f) (Some p) false (counts f).

Definition disarm (f : FaultObjectStore St) : FaultObjectStore St :=
  mkFault (inner f) None (fired f) (counts f).

(** [fetch_add(1) + 1] on the counter of one kind. *)
Definition bump (k : FaultKind) (f : FaultObjectStore St) : Z * FaultObjectStore St :=
  let n := counts f k + 1 in
  (n, mkFault (inner f) (plan f) (fired f)
        (λ k', if bool_decide (k' = k) then n else counts f k')).

Definition decide_fault (k : FaultKind) (n : Z) (f : FaultObjectStore St)
    : option FaultMode * FaultObjectStore St :=
  if fired f then (None, f)
  else match plan f with
       | Some p =>
           if bool_decide (kind p = k) && (fire_at p =? n)
           then (Some (mode p), mkFault (inner f) (plan f) true (counts f))
           else (None, f)
       | None => (None, f)
       end.

Definition set_inner (s : St) (f : FaultObjectStore St) : FaultObjectStore St :=
  mkFault s (plan f) (fired f) (counts f).

(** The body every method of the wrapper shares: count, decide, then fail before the inner call,
    after it, or pass its result through. *)
Definition faulty {A} (k : FaultKind) (op : Comp St ObjectError A)
    : Comp (FaultObjectStore St) ObjectError A := λ f,
  let '(n, f) := bump k f in
  let '(m, f) := decide_fault k n f in
  match m with
  | Some BeforeOp => (f, Err OTransient)
  | Some AfterOp =>
      match op (inner f) with
      | (s, Ok _) => (set_inner s f, Err OTransient)
      | (s, Err e) => (set_inner s f, Err e)
      end
  | None => let '(s, r) := op (inner f) in (set_inner s f, r)
  end.

#[global] Instance FaultObjectStore_ObjectStore : ObjectStore (FaultObjectStore St) := {|
  get := λ key, faulty Get (get key);
  put_if_absent := λ key b, faulty PutIfAbsent (put_if_absent key b);
  put_if_match := λ key b etag, faulty PutIfMatch (put_if_match key b etag);
  put := λ key b, faulty Put (put key b);
  delete_obj := λ key, faulty Delete (delete_obj key);
  list_keys := λ prefix, faulty List_ (list_keys prefix)
|}.

End Wrapper.
End Fault.

(** * What the object client promises, and that the clients in the repository keep it

    [ObjectStoreLaws] states the documented contract of the [ObjectStore] trait (store.rs) over
    the bucket as a map from keys to bytes; the backend's theorems are proved against it.
    [ReliableStore] adds that no call fails for a reason other than a lost precondition. *)

Section Outcomes.
Context {St : Type} (contents : St → gmap string bytes) (tags : St → string → option ETag).

(** The call left the bucket as it was. *)
Definition unchanged (s s' : St) : Prop :=
  contents s' = contents s ∧ ∀ k, tags s' k = tags s k.

(** The call stored [b] under [k] and touched nothing else. *)
Definition wrote (k : string) (b : bytes) (s s' : St) : Prop :=
  contents s' = <[k := b]> (contents s) ∧ ∀ k', k' ≠ k → tags s' k' = tags s k'.

Definition removed (k : string) (s s' : St) : Prop :=
  contents s' = delete k (contents s) ∧ ∀ k', k' ≠ k → tags s' k' = tags s k'.
End Outcomes.

Class ObjectStoreLaws (St : Type) `{ObjectStore St} := {
  contents : St → gmap string bytes;
  tags : St → string → option ETag;
  get_law k s s' r : get k s = (s', r) →
    unchanged contents tags s s' ∧
    match r with
    | Ok None => contents s !! k = None
    | Ok (Some g) => contents s !! k = Some (gr_bytes g) ∧ tags s k = Some (gr_etag g)
    | Err e => e = OTransient
    end;
  put_if_absent_law k b s s' r : put_if_absent k b s = (s', r) →
    match r with
    | Ok _ => contents s !! k = None ∧ wrote contents tags k b s s'
    | Err Precondition => is_Some (contents s !! k) ∧ unchanged contents tags s s'
    | Err _ => unchanged contents tags s s' ∨
               (contents s !! k = None ∧ wrote contents tags k b s s')
    end;
  put_if_match_law k b t s s' r : put_if_match k b t s = (s', r) →
    match r with
    | Ok _ => tags s k = Some t ∧ wrote contents tags k b s s'
    | Err Precondition => tags s k ≠ Some t ∧ unchanged contents tags s s'
    | Err _ => unchanged contents tags s s' ∨ (tags s k = Some t ∧ wrote contents tags k b s s')
    end;
  put_law k b s s' r : put k b s = (s', r) →
    match r with
    | Ok _ => wrote contents tags k b s s'
    | Err e => e = OTransient ∧ (unchanged contents tags s s' ∨ wrote contents tags k b s s')
    end;
  delete_law k s s' r : delete_obj k s = (s', r) →
    match r with
    | Ok _ => removed contents tags k s s'
    | Err e => e = OTransient ∧ (unchanged contents tags s s' ∨ removed contents tags k s s')
    end;
  list_law p s s' r : list_keys p s = (s', r) →
    unchanged contents tags s s' ∧
    match r with
    | Ok ks => NoDup ks ∧ ∀ k, k ∈ ks ↔ starts_with p k = true ∧ is_Some (contents s !! k)
    | Err e => e = OTransient
    end
}.

(** No call fails except by a lost precondition. *)
Class ReliableStore (St : Type) `{ObjectStore St} : Prop := {
  get_total k s : ∃ s' g, get k s = (s', Ok g);
  put_if_absent_total k b s : ∃ s' r, put_if_absent k b s = (s', r) ∧
    (is_ok r = true ∨ r = Err Precondition);
  put_if_match_total k b t s : ∃ s' r, put_if_match k b t s = (s', r) ∧
    (is_ok r = true ∨ r = Err Precondition);
  put_total k b s : ∃ s' t, put k b s = (s', Ok t);
  delete_total k s : ∃ s', delete_obj k s = (s', Ok tt);
  list_total p s : ∃ s' ks, list_keys p s = (s', Ok ks)
}.

Arguments unchanged {St} contents tags s s' /.
Arguments wrote {St} contents tags k b s s' /.
Arguments removed {St} contents tags k s s' /.

(** ** The map under a lock *)

Section CasMap.
Context {V : Type}.

Lemma sorted_keys_NoDup p (m : gmap string V) : NoDup (Mem.sorted_keys p m).
Proof.
  unfold Mem.sorted_keys. apply NoDup_filter.
  rewrite merge_sort_Permutation. apply NoDup_fst_map_to_list.
Qed.

Lemma sorted_keys_elem p (m : gmap string V) k :
  k ∈ Mem.sorted_keys p m ↔ starts_with p k = true ∧ is_Some (m !! k).
Proof.
  unfold Mem.sorted_keys. rewrite list_elem_of_filter, merge_sort_Permutation, list_elem_of_fmap.
  f_equiv. split.
  - intros ([k' v] & -> & Hin). exists v. by apply elem_of_map_to_list.
  - intros [v Hv]. exists (k, v). split; [done | by apply elem_of_map_to_list].
Qed.
End CasMap.

#[export] Instance Mem_laws : ObjectStoreLaws Mem.MemObjectStore.
Proof.
  refine {| contents := λ m, fst <$> Mem.map m; tags := λ m k, snd <$> Mem.map m !! k |}; cbn;
    unfold Mem.mem_get, Mem.mem_put_if_absent, Mem.mem_put_if_match, Mem.mem_put, Mem.mem_delete,
    Mem.mem_list, Mem.mem_insert; cbn.
  - intros k s s' r [= <- <-]. rewrite lookup_fmap. by destruct (Mem.map s !! k).
  - intros k b s s' r. case_bool_decide as Hk; intros [= <- <-]; rewrite lookup_fmap.
    + by destruct Hk as [v ->].
    + rewrite <- eq_None_not_Some in Hk. rewrite Hk. cbn. rewrite fmap_insert.
      split_and!; [done..|]. intros k' Hk'. by rewrite lookup_insert_ne.
  - intros k b t s s' r. destruct (Mem.map s !! k) as [[v cur]|] eqn:Hk; [|by intros [= <- <-]].
    destruct (String.eqb_spec cur t) as [->|Hne]; intros [= <- <-]; cbn.
    + rewrite fmap_insert. split_and!; [done..|]. intros k' Hk'. by rewrite lookup_insert_ne.
    + split; [congruence | done].
  - intros k b s s' r [= <- <-]. cbn. rewrite fmap_insert. split; [done|].
    intros k' Hk'. by rewrite lookup_insert_ne.
  - intros k s s' r [= <- <-]. cbn. rewrite fmap_delete. split; [done|].
    intros k' Hk'. by rewrite lookup_delete_ne.
  - intros p s s' r [= <- <-]. split; [done|]. split; [apply sorted_keys_NoDup|].
    intros k. by rewrite sorted_keys_elem, lookup_fmap, fmap_is_Some.
Defined.

#[export] Instance Mem_reliable : ReliableStore Mem.MemObjectStore.
Proof.
  split; cbn; unfold Mem.mem_get, Mem.mem_put_if_absent, Mem.mem_put_if_match, Mem.mem_put,
    Mem.mem_delete, Mem.mem_list, Mem.mem_insert; cbn; eauto 6.
  - intros k b s. case_bool_decide; eauto 6.
  - intros k b t s. repeat case_match; eauto 6.
Qed.

(** ** The host binding: it forwards, so it promises what its host promises *)

#[export] Instance Binding_laws : ObjectStoreLaws (Binding.BindingObjectStore Binding.MemBindingHost).
Proof.
  refine {| contents := λ m, fst <$> Binding.hmap (Binding.host m);
            tags := λ m k, snd <$> Binding.hmap (Binding.host m) !! k |}; cbn;
    unfold comp_bind, Binding.on_host, comp_ret; cbn.
  - intros k s s' r [= <- <-]. cbn. rewrite lookup_fmap.
    by destruct (Binding.hmap (Binding.host s) !! k).
  - intros k b s s' r. case_bool_decide as Hk; intros [= <- <-]; rewrite lookup_fmap.
    + by destruct Hk as [v ->].
    + rewrite <- eq_None_not_Some in Hk. rewrite Hk. cbn. rewrite fmap_insert.
      split_and!; [done..|]. intros k' Hk'. by rewrite lookup_insert_ne.
  - intros k b t s s' r.
    destruct (Binding.hmap (Binding.host s) !! k) as [[v cur]|] eqn:Hk; [|by intros [= <- <-]].
    destruct (String.eqb_spec cur t) as [->|Hne]; intros [= <- <-]; cbn.
    + rewrite fmap_insert. split_and!; [done..|]. intros k' Hk'. by rewrite lookup_insert_ne.
    + split; [congruence | done].
  - intros k b s s' r [= <- <-]. cbn. rewrite fmap_insert. split; [done|].
    intros k' Hk'. by rewrite lookup_insert_ne.
  - intros k s s' r [= <- <-]. cbn. rewrite fmap_delete. split; [done|].
    intros k' Hk'. by rewrite lookup_delete_ne.
  - intros p s s' r [= <- <-]. split; [done|]. split; [apply sorted_keys_NoDup|].
    intros k. by rewrite sorted_keys_elem, lookup_fmap, fmap_is_Some.
Defined.

(** ** Fault injection keeps the contract of the store it wraps *)

Section FaultLaws.
Context {St : Type} `{Laws : ObjectStoreLaws St}.

(** The three ways a wrapped call can go. *)
Lemma faulty_cases {A} k (op : Comp St ObjectError A) f f' r :
  Fault.faulty k op f = (f', r) →
  (Fault.inner f' = Fault.inner f ∧ r = Err OTransient) ∨
  (∃ s a, op (Fault.inner f) = (s, Ok a) ∧ Fault.inner f' = s ∧ r = Err OTransient) ∨
  (∃ s, op (Fault.inner f) = (s, r) ∧ Fault.inner f' = s).
Proof.
  unfold Fault.faulty. cbn. unfold Fault.decide_fault. cbn.
  repeat case_match; intros; simplify_eq/=; eauto 10.
Qed.

#[export] Instance Fault_laws : ObjectStoreLaws (Fault.FaultObjectStore St).
Proof.
  refine {| contents := λ f, contents (Fault.inner f);
            tags := λ f, tags (Fault.inner f) |}; cbn.
  - intros k s s' r H'. apply faulty_cases in H' as [[-> ->]|[(s0&a&Ho&->&->)|(s0&Ho&->)]];
      [done| |by apply get_law in Ho]. by apply get_law in Ho as [? _].
  - intros k b s s' r H'. apply faulty_cases in H' as [[-> ->]|[(s0&a&Ho&->&->)|(s0&Ho&->)]];
      [by left| |by apply put_if_absent_law in Ho]. right. by apply put_if_absent_law in Ho.
  - intros k b t s s' r H'. apply faulty_cases in H' as [[-> ->]|[(s0&a&Ho&->&->)|(s0&Ho&->)]];
      [by left| |by apply put_if_match_law in Ho]. right. by apply put_if_match_law in Ho.
  - intros k b s s' r H'. apply faulty_cases in H' as [[-> ->]|[(s0&a&Ho&->&->)|(s0&Ho&->)]];
      [by split; [|left]| |by apply put_law in Ho]. split; [done|right]. by apply put_law in Ho.
  - intros k s s' r H'. apply faulty_cases in H' as [[-> ->]|[(s0&a&Ho&->&->)|(s0&Ho&->)]];
      [by split; [|left]| |by apply delete_law in Ho]. split; [done|right].
    by apply delete_law in Ho.
  - intros p s s' r H'. apply faulty_cases in H' as [[-> ->]|[(s0&a&Ho&->&->)|(s0&Ho&->)]];
      [done| |by apply list_law in Ho]. by apply list_law in Ho as [? _].
Defined.
End FaultLaws.
