(* ===== verification/ObjStorage.v ===== *)
(** * The disaggregated backend (crates/storage/src/object/mod.rs)

    [ObjectStorage]: a commit log of CAS-claimed segments, and an LSM page store (memtable, delta
    layers, one image layer) derived from it, all objects of one bucket reached through the
    [ObjectStore] seam.  The methods are state-passing functions over the handle, whose [store]
    field is the state of the object client; the [Mutex]es are held for a whole method or
    released between the calls written in sequence here.  Clock readings are arguments. *)

From S2P Require Import Prelude Text StorageTypes ObjCodec ObjStore.

Module Obj.
Import Codec.

Definition FENCE_LEASE : Z := 10000.

(** [epoch:u64 | owner:u128 | expires_at_ms:u64]. *)
Definition encode_lease (epoch owner expires_ms : Z) : bytes :=
  u64_le epoch ++ le_split 16 owner ++ u64_le expires_ms.

Record Config := mkConfig {
  flush_threshold_bytes : Z;
  cas_max_retries : nat
}.

Definition Config_default : Config := mkConfig (64 * 1024 * 1024) 8.

Record DeltaMeta := mkDelta { d_lo : Z; d_hi : Z; d_key : string }.
Record ImageMeta := mkImage { image_lsn : Z; i_key : string }.

Record Inner := mkInner {
  next_seq : Z;
  next_lsn : Z;
  durable_lsn : Z;
  commit_lsn : Z;
  epoch : Z;
  retention_floor : Z;
  memtable : gmap (Z * Z) bytes;
  memtable_bytes : Z;
  flushed_hw : Z;
  deltas : list DeltaMeta;
  image : option ImageMeta;
  branches : gmap Z BranchRef;
  next_branch_id : Z
}.

Definition inner_new : Inner := mkInner 1 1 0 0 0 0 ∅ 0 0 [] None ∅ 1.

Definition set_next_seq (x : Z) (g : Inner) : Inner :=
  mkInner x (next_lsn g) (durable_lsn g) (commit_lsn g) (epoch g) (retention_floor g) (memtable g)
    (memtable_bytes g) (flushed_hw g) (deltas g) (image g) (branches g) (next_branch_id g).
Definition set_next_lsn (x : Z) (g : Inner) : Inner :=
  mkInner (next_seq g) x (durable_lsn g) (commit_lsn g) (epoch g) (retention_floor g) (memtable g)
    (memtable_bytes g) (flushed_hw g) (deltas g) (image g) (branches g) (next_branch_id g).
Definition set_durable_lsn (x : Z) (g : Inner) : Inner :=
  mkInner (next_seq g) (next_lsn g) x (commit_lsn g) (epoch g) (retention_floor g) (memtable g)
    (memtable_bytes g) (flushed_hw g) (deltas g) (image g) (branches g) (next_branch_id g).
Definition set_commit_lsn (x : Z) (g : Inner) : Inner :=
  mkInner (next_seq g) (next_lsn g) (durable_lsn g) x (epoch g) (retention_floor g) (memtable g)
    (memtable_bytes g) (flushed_hw g) (deltas g) (image g) (branches g) (next_branch_id g).
Definition set_epoch (x : Z) (g : Inner) : Inner :=
  mkInner (next_seq g) (next_lsn g) (durable_lsn g) (commit_lsn g) x (retention_floor g)
    (memtable g) (memtable_bytes g) (flushed_hw g) (deltas g) (image g) (branches g)
    (next_branch_id g).
Definition set_floor (x : Z) (g : Inner) : Inner :=
  mkInner (next_seq g) (next_lsn g) (durable_lsn g) (commit_lsn g) (epoch g) x (memtable g)
    (memtable_bytes g) (flushed_hw g) (deltas g) (image g) (branches g) (next_branch_id g).
Definition set_memtable (m : gmap (Z * Z) bytes) (n : Z) (g : Inner) : Inner :=
  mkInner (next_seq g) (next_lsn g) (durable_lsn g) (commit_lsn g) (epoch g) (retention_floor g)
    m n (flushed_hw g) (deltas g) (image g) (branches g) (next_branch_id g).
Definition set_flushed_hw (x : Z) (g : Inner) : Inner :=
  mkInner (next_seq g) (next_lsn g) (durable_lsn g) (commit_lsn g) (epoch g) (retention_floor g)
    (memtable g) (memtable_bytes g) x (deltas g) (image g) (branches g) (next_branch_id g).
Definition set_deltas (x : list DeltaMeta) (g : Inner) : Inner :=
  mkInner (next_seq g) (next_lsn g) (durable_lsn g) (commit_lsn g) (epoch g) (retention_floor g)
    (memtable g) (memtable_bytes g) (flushed_hw g) x (image g) (branches g) (next_branch_id g).
Definition set_image (x : option ImageMeta) (g : Inner) : Inner :=
  mkInner (next_seq g) (next_lsn g) (durable_lsn g) (commit_lsn g) (epoch g) (retention_floor g)
    (memtable g) (memtable_bytes g) (flushed_hw g) (deltas g) x (branches g) (next_branch_id g).
Definition set_branches (x : gmap Z BranchRef) (g : Inner) : Inner :=
  mkInner (next_seq g) (next_lsn g) (durable_lsn g) (commit_lsn g) (epoch g) (retention_floor g)
    (memtable g) (memtable_bytes g) (flushed_hw g) (deltas g) (image g) x (next_branch_id g).
Definition set_next_branch_id (x : Z) (g : Inner) : Inner :=
  mkInner (next_seq g) (next_lsn g) (durable_lsn g) (commit_lsn g) (epoch g) (retention_floor g)
    (memtable g) (memtable_bytes g) (flushed_hw g) (deltas g) (image g) (branches g) x.

(** ** Keys *)

Definition lease_key (p : string) : string := p +:+ "lease".
Definition retention_key (p : string) : string := p +:+ "retention".
Definition log_prefix (p : string) : string := p +:+ "log/".
Definition delta_prefix (p : string) : string := p +:+ "delta/".
Definition image_prefix (p : string) : string := p +:+ "image/".
Definition branches_prefix (p : string) : string := p +:+ "branches/".
Definition log_key (p : string) (seq : Z) : string := p +:+ "log/" +:+ fmt_020 seq.
Definition delta_key (p : string) (lo hi : Z) : string :=
  p +:+ "delta/L" +:+ fmt_020 lo +:+ "-L" +:+ fmt_020 hi +:+ ".delta".
Definition image_key (p : string) (lsn : Z) : string :=
  p +:+ "image/img-L" +:+ fmt_020 lsn +:+ ".image".
Definition branch_key (p : string) (id : Z) : string :=
  p +:+ "branches/" +:+ fmt_020 id +:+ ".ptr".
(** The sub-prefix of a branch's private overlay. *)
Definition overlay_prefix (p : string) (id : Z) : string :=
  p +:+ "branches/" +:+ fmt_020 id +:+ "/".

Definition parse_delta_name (key : string) : option (Z * Z) :=
  let name := after_last "/"%char key in
  body ← strip_prefix "L" name; body ← strip_suffix ".delta" body;
  '(lo, hi) ← split_once "-L" body;
  lo ← parse_u64 lo; hi ← parse_u64 hi; Some (lo, hi).

Definition parse_image_name (key : string) : option Z :=
  let name := after_last "/"%char key in
  body ← strip_prefix "img-L" name; body ← strip_suffix ".image" body; parse_u64 body.

(** [key.rsplit('/').next().and_then(|n| n.parse::<u64>().ok())]. *)
Definition parse_log_name (key : string) : option Z := parse_u64 (after_last "/"%char key).

Definition map_obj_err (e : ObjectError) : StorageError :=
  match e with
  | ONotFound => NotFound
  | Precondition => Contended
  | OTransient => Transient
  end.

(** [s.replace(['/', '\\'], "_")]. *)
Fixpoint safe (s : string) : string :=
  match s with
  | EmptyString => EmptyString
  | String a s =>
      String (if Ascii.eqb a "/"%char || Ascii.eqb a "092"%char then "_"%char else a) (safe s)
  end.

(** [s.trim_end_matches('/')]. *)
Fixpoint trim_end_slash (s : string) : string :=
  match s with
  | EmptyString => EmptyString
  | String a s =>
      let t := trim_end_slash s in
      if String.eqb t "" && Ascii.eqb a "/"%char then EmptyString else String a t
  end.

Definition parse_object_url (url : string) : Result StorageError (string * string) :=
  match split_once "://" url with
  | None => Err Invalid
  | Some (scheme, rest) =>
      if negb (String.eqb scheme "s3" || String.eqb scheme "r2" || String.eqb scheme "gs")
      then Err Invalid
      else
        let rest := before_char "?"%char rest in
        let '(bucket, tail) := match split_once "/" rest with
                               | Some (b, t) => (b, Some t)
                               | None => (rest, None)
                               end in
        if String.eqb bucket "" then Err Invalid
        else
          let db_id := match tail with
                       | Some p => if String.eqb p "" then "default" else trim_end_slash p
                       | None => "default"
                       end in
          Ok (safe bucket, safe db_id)
  end.

(** ** Pure parts of the page store *)

(** [(page_id, lsn)] order of the [BTreeMap]. *)
Definition mem_le (a b : Z * Z * bytes) : Prop :=
  a.1.1 < b.1.1 ∨ (a.1.1 = b.1.1 ∧ a.1.2 ≤ b.1.2).
#[global] Instance mem_le_dec a b : Decision (mem_le a b).
Proof. unfold mem_le. apply _. Defined.

Definition memtable_entries (m : gmap (Z * Z) bytes) : list (Z * Z * bytes) :=
  merge_sort mem_le (map_to_list m).

Definition memtable_records (m : gmap (Z * Z) bytes) : list PageRecord :=
  List.map (λ e, mkRecord e.1.1 e.1.2 e.2) (memtable_entries m).

(** [memtable.range((id, 0)..=(id, query)).next_back()]. *)
Definition memtable_floor (m : gmap (Z * Z) bytes) (id query : Z) : option (Z * bytes) :=
  (λ e : Z * Z * bytes, (e.1.2, e.2)) <$>
    last (filter (λ e : Z * Z * bytes, e.1.1 = id ∧ 0 ≤ e.1.2 ≤ query) (memtable_entries m)).

(** [iter().filter(..).max_by_key(|r| r.lsn)]: the last of the greatest. *)
Definition max_by_lsn (recs : list PageRecord) : option PageRecord :=
  fold_left (λ acc r, match acc with
                      | None => Some r
                      | Some b => if rec_lsn b <=? rec_lsn r then Some r else Some b
                      end) recs None.

Definition best_in (recs : list PageRecord) (page_id query : Z) : option PageRecord :=
  max_by_lsn (filter (λ r, rec_page_id r = page_id ∧ rec_lsn r ≤ query) recs).

Definition merge_keep_greatest (m : gmap Z (Z * bytes)) (r : PageRecord) : gmap Z (Z * bytes) :=
  match m !! rec_page_id r with
  | Some cur =>
      if cur.1 <=? rec_lsn r then <[rec_page_id r := (rec_lsn r, rec_image r)]> m else m
  | None => <[rec_page_id r := (rec_lsn r, rec_image r)]> m
  end.

(** The records of one layer at or below the image LSN, merged in. *)
Definition merge_layer (image_lsn : Z) (m : gmap Z (Z * bytes)) (recs : list PageRecord)
    : gmap Z (Z * bytes) :=
  fold_left (λ m r, if rec_lsn r <=? image_lsn then merge_keep_greatest m r else m) recs m.

Definition page_le (a b : Z * (Z * bytes)) : Prop := a.1 ≤ b.1.
#[global] Instance page_le_dec a b : Decision (page_le a b).
Proof. unfold page_le. apply _. Defined.

Definition merged_records (m : gmap Z (Z * bytes)) : list PageRecord :=
  List.map (λ e, mkRecord e.1 e.2.1 e.2.2) (merge_sort page_le (map_to_list m)).

Definition hi_ge (a b : DeltaMeta) : Prop := d_hi b ≤ d_hi a.
#[global] Instance hi_ge_dec a b : Decision (hi_ge a b).
Proof. unfold hi_ge. apply _. Defined.
Definition hi_le (a b : DeltaMeta) : Prop := d_hi a ≤ d_hi b.
#[global] Instance hi_le_dec a b : Decision (hi_le a b).
Proof. unfold hi_le. apply _. Defined.

(** One durable item applied to the live state: the next LSN, the memtable, and whether the
    segment holds a WAL record. *)
Definition apply_item (acc : Inner * bool) (item : LogItem) : Inner * bool :=
  let '(g, has_wal) := acc in
  let lsn := next_lsn g in
  let g := set_next_lsn (lsn + 1) g in
  match item with
  | Wal _ => (g, true)
  | PageItem id img =>
      (set_memtable (<[(id, lsn) := img]> (memtable g)) (memtable_bytes g + zlen img) g, has_wal)
  end.

(** [LogReplay] and one item of [replay_log]. *)
Record LogReplay := mkReplay {
  max_seq : Z;
  r_next_lsn : Z;
  r_durable_lsn : Z;
  r_commit_lsn : Z;
  r_memtable : gmap (Z * Z) bytes;
  r_memtable_bytes : Z
}.

Definition replay_item (flushed_hw : Z) (acc : LogReplay * bool) (item : LogItem)
    : LogReplay * bool :=
  let '(r, has_wal) := acc in
  let lsn := r_next_lsn r in
  let r := mkReplay (max_seq r) (lsn + 1) lsn (r_commit_lsn r) (r_memtable r)
             (r_memtable_bytes r) in
  match item with
  | Wal _ => (r, true)
  | PageItem id img =>
      if flushed_hw <? lsn
      then (mkReplay (max_seq r) (r_next_lsn r) (r_durable_lsn r) (r_commit_lsn r)
              (<[(id, lsn) := img]> (r_memtable r)) (r_memtable_bytes r + zlen img), has_wal)
      else (r, has_wal)
  end.

(** A whole segment: its slot number, its items, then the commit mark. *)
Definition replay_segment (flushed_hw : Z) (r : LogReplay) (seq : option Z)
    (items : list LogItem) : LogReplay :=
  let r := match seq with
           | Some n => mkReplay (Z.max (max_seq r) n) (r_next_lsn r) (r_durable_lsn r)
                         (r_commit_lsn r) (r_memtable r) (r_memtable_bytes r)
           | None => r
           end in
  let '(r, has_wal) := fold_left (replay_item flushed_hw) items (r, false) in
  if has_wal
  then mkReplay (max_seq r) (r_next_lsn r) (r_durable_lsn r) (r_durable_lsn r) (r_memtable r)
         (r_memtable_bytes r)
  else r.

(** The items of one segment in [scan_wal]: the LSN counter and the records past [after]. *)
Definition scan_item (after : Z) (acc : Z * list LogEntry) (item : LogItem)
    : Z * list LogEntry :=
  let '(lsn, out) := acc in
  let lsn := lsn + 1 in
  match item with
  | Wal b => (lsn, if after <? lsn then out ++ [mkEntry lsn (mkWal b)] else out)
  | PageItem _ _ => (lsn, out)
  end.

(** ** The handle *)

Record ObjectStorage (St : Type) := mkObj {
  store : St;
  prefix : string;
  config : Config;
  inner : Inner;
  cache : gmap string (list PageRecord)
}.
Arguments mkObj {St} store prefix config inner cache.
Arguments store {St} o.
Arguments prefix {St} o.
Arguments config {St} o.
Arguments inner {St} o.
Arguments cache {St} o.

Section Backend.
Context {St : Type} `{ObjectStore St}.

Abbreviation M := (Comp (ObjectStorage St) StorageError).

Definition set_store (x : St) (s : ObjectStorage St) : ObjectStorage St :=
  mkObj x (prefix s) (config s) (inner s) (cache s).
Definition set_cache (x : gmap string (list PageRecord)) (s : ObjectStorage St)
    : ObjectStorage St :=
  mkObj (store s) (prefix s) (config s) (inner s) x.

(** Reads and updates of the locked state. *)
Definition ask {A} (f : ObjectStorage St → A) : M A := λ s, (s, Ok (f s)).
Definition modify (f : Inner → Inner) : M unit := λ s,
  (mkObj (store s) (prefix s) (config s) (f (inner s)) (cache s), Ok tt).

(** A call on the object client, driven to completion. *)
Definition on_store {A} (m : Comp St ObjectError A) : Comp (ObjectStorage St) ObjectError A :=
  λ s, let '(st, r) := m (store s) in (set_store st s, r).

Definition comp_map_err {S E F A} (f : E → F) (m : Comp S E A) : Comp S F A :=
  λ s, let '(s, r) := m s in (s, map_err f r).

Definition obj_get (key : string) : M (option GetResult) :=
  comp_map_err map_obj_err (on_store (get key)).
Definition obj_put_if_absent (key : string) (b : bytes)
    : Comp (ObjectStorage St) ObjectError ETag := on_store (put_if_absent key b).
Definition obj_put (key : string) (b : bytes) : M ETag :=
  comp_map_err map_obj_err (on_store (put key b)).
Definition obj_delete (key : string) : M unit :=
  comp_map_err map_obj_err (on_store (delete_obj key)).
Definition obj_list (p : string) : M (list string) :=
  comp_map_err map_obj_err (on_store (list_keys p)).

(** The epoch in a lease object: its first eight bytes, 0 when it is shorter. *)
Definition lease_epoch (b : bytes) : Z :=
  if zlen b <? 8 then 0 else from_le (take 8 b).

Definition durable_epoch : M (Z * option ETag) :=
  (let! p := ask prefix in
   let! got := obj_get (lease_key p) in
   comp_ret match got with
            | Some g => (lease_epoch (gr_bytes g), Some (gr_etag g))
            | None => (0, None)
            end)%comp.

Definition check_fence (token : FenceToken) : M unit :=
  (let! (current, _) := durable_epoch in
   if negb (tok_epoch token =? current) then comp_err (Fenced (tok_epoch token) current)
   else comp_ret tt)%comp.

(** Highest existing slot plus one. *)
Definition scan_next_seq : M Z :=
  (let! p := ask prefix in
   let! keys := obj_list (log_prefix p) in
   comp_ret (fold_left Z.max (omap parse_log_name keys) 0 + 1))%comp.

(** The CAS loop of [append_segment]; [retries] counts the attempts left. *)
Fixpoint claim_slot (token : FenceToken) (bs : bytes) (retries : nat) : M unit := λ s,
  match obj_put_if_absent (log_key (prefix s) (next_seq (inner s))) bs s with
  | (s, Ok _) => (s, Ok tt)
  | (s, Err Precondition) =>
      (let! n := scan_next_seq in
       do! modify (set_next_seq n) in
       let! (current, _) := durable_epoch in
       if negb (tok_epoch token =? current) then comp_err (Fenced (tok_epoch token) current)
       else match retries with
            | O => comp_err Contended
            | S retries => claim_slot token bs retries
            end)%comp s
  | (s, Err _) => (s, Err Transient)
  end.

(** [flush_locked]. *)
Definition flush_locked : M unit := λ s,
  let g := inner s in
  if bool_decide (memtable g = ∅) then (s, Ok tt)
  else
    let lo := flushed_hw g + 1 in
    let hi := durable_lsn g in
    let key := delta_key (prefix s) lo hi in
    (do! comp_map_err map_obj_err
           (obj_put_if_absent key (encode_delta (memtable_records (memtable g)))) in
     modify (λ g, set_memtable ∅ 0 (set_flushed_hw hi
       (set_deltas (deltas g ++ [mkDelta lo hi key]) g))))%comp s.

(** What [append_segment] does with a durable segment: LSNs, memtable, marks. *)
Definition apply_segment (items : list LogItem) (g : Inner) : Inner :=
  let seq := next_seq g in
  let '(g, has_wal) := fold_left apply_item items (g, false) in
  let last := next_lsn g - 1 in
  let g := set_durable_lsn last (set_next_seq (seq + 1) g) in
  if has_wal then set_commit_lsn last g else g.

(** [append_segment] after the fence check. *)
Definition append_locked (token : FenceToken) (items : list LogItem) : M Lsn :=
  (let! c := ask config in
   do! claim_slot token (encode_segment items) (cas_max_retries c) in
   do! modify (apply_segment items) in
   let! last := ask (λ s, durable_lsn (inner s)) in
   let! n := ask (λ s, memtable_bytes (inner s)) in
   do! (if flush_threshold_bytes c <=? n then flush_locked else comp_ret tt) in
   comp_ret last)%comp.

Definition append_segment (token : FenceToken) (items : list LogItem) : M Lsn :=
  (do! check_fence token in append_locked token items)%comp.

Definition load_layer (key : string) : M (list PageRecord) := λ s,
  match cache s !! key with
  | Some hit => (s, Ok hit)
  | None =>
      (let! got := obj_get key in
       match got with
       | None => comp_err Corruption
       | Some g =>
           match (if str_contains "/image/" key then decode_image (gr_bytes g)
                  else decode_delta (gr_bytes g)) with
           | Err e => comp_err e
           | Ok recs => λ s, (set_cache (<[key := recs]> (cache s)) s, Ok recs)
           end
       end)%comp s
  end.

(** [for key in keys { f(load_layer(key)) }], threading the merged map. *)
Fixpoint merge_layers (image_lsn : Z) (keys : list string) (m : gmap Z (Z * bytes))
    : M (gmap Z (Z * bytes)) :=
  match keys with
  | [] => comp_ret m
  | key :: keys =>
      (let! recs := load_layer key in merge_layers image_lsn keys (merge_layer image_lsn m recs))%comp
  end.

Definition compact : M unit :=
  (do! flush_locked in
   let! g := ask inner in
   let! p := ask prefix in
   let image_lsn := retention_floor g in
   if image_lsn =? 0 then comp_ret tt
   else
     let! merged := merge_layers image_lsn
       (match image g with Some img => [i_key img] | None => [] end ++ List.map d_key (deltas g)) ∅ in
     let new_key := image_key p image_lsn in
     do! obj_put new_key (encode_image (merged_records merged)) in
     modify (λ g, set_image (Some (mkImage image_lsn new_key))
                    (set_deltas (filter (λ d, image_lsn < d_hi d) (deltas g)) g)))%comp.

Definition live_keys (g : Inner) : list string :=
  List.map d_key (deltas g) ++ match image g with Some img => [i_key img] | None => [] end.

(** Deletes the victims one by one, dropping each from the cache. *)
Fixpoint delete_all (keys : list string) : M unit :=
  match keys with
  | [] => comp_ret tt
  | key :: keys =>
      (do! obj_delete key in
       do! (λ s, (set_cache (delete key (cache s)) s, Ok tt)) in
       delete_all keys)%comp
  end.

Definition gc : M unit :=
  (let! p := ask prefix in
   let! live := ask (λ s, live_keys (inner s)) in
   let! ds := obj_list (delta_prefix p) in
   let! imgs := obj_list (image_prefix p) in
   delete_all (filter (λ k, k ∉ live) (ds ++ imgs)))%comp.

(** ** Recovery *)

Definition newer_image (acc : option ImageMeta) (key : string) : option ImageMeta :=
  match parse_image_name key with
  | None => acc
  | Some l => match acc with
              | Some i => if image_lsn i <? l then Some (mkImage l key) else acc
              | None => Some (mkImage l key)
              end
  end.

Definition discover_layers : M (list DeltaMeta * option ImageMeta * Z) :=
  (let! p := ask prefix in
   let! dkeys := obj_list (delta_prefix p) in
   let ds := merge_sort hi_le
     (omap (λ k, '(lo, hi) ← parse_delta_name k; Some (mkDelta lo hi k)) dkeys) in
   let! ikeys := obj_list (image_prefix p) in
   let img := fold_left newer_image ikeys None in
   let hw := fold_left Z.max
     (List.map d_hi ds ++ match img with Some i => [image_lsn i] | None => [] end) 0 in
   comp_ret (ds, img, hw))%comp.

(** [self.obj_get(key)?.ok_or(Corruption)] then [decode_segment]. *)
Definition read_segment (key : string) : M (list LogItem) :=
  (let! got := obj_get key in
   match got with
   | None => comp_err Corruption
   | Some g => match decode_segment (gr_bytes g) with
               | Ok items => comp_ret items
               | Err e => comp_err e
               end
   end)%comp.

Fixpoint replay_keys (hw : Z) (keys : list string) (r : LogReplay) : M LogReplay :=
  match keys with
  | [] => comp_ret r
  | key :: keys =>
      (let! items := read_segment key in
       replay_keys hw keys (replay_segment hw r (parse_log_name key) items))%comp
  end.

Definition replay_log (hw : Z) : M LogReplay :=
  (let! p := ask prefix in
   let! keys := obj_list (log_prefix p) in
   replay_keys hw (merge_sort String.le keys) (mkReplay 0 1 0 0 ∅ 0))%comp.

(** A branch pointer: [id | base_lsn | parent]. *)
Definition branch_of (b : bytes) : option BranchRef :=
  if zlen b <? 24 then None
  else
    let base := from_le (slice b 8 16) in
    Some (mkBranch (from_le (slice b 0 8)) (from_le (slice b 16 24)) base base).

Fixpoint load_branch_keys (keys : list string) (acc : gmap Z BranchRef * Z)
    : M (gmap Z BranchRef * Z) :=
  match keys with
  | [] => comp_ret acc
  | key :: keys =>
      if negb (ends_with ".ptr" key) then load_branch_keys keys acc
      else
        (let! got := obj_get key in
         let acc := match got ≫= (λ g, branch_of (gr_bytes g)) with
                    | Some b => (<[br_id b := b]> acc.1, Z.max acc.2 (br_id b + 1))
                    | None => acc
                    end in
         load_branch_keys keys acc)%comp
  end.

Definition load_branches : M (gmap Z BranchRef * Z) :=
  (let! p := ask prefix in
   let! keys := obj_list (branches_prefix p) in
   load_branch_keys keys (∅, 1))%comp.

(** The retention marker: its first eight bytes, 0 when absent or shorter. *)
Definition read_floor : M Z :=
  (let! p := ask prefix in
   let! got := obj_get (retention_key p) in
   comp_ret match got with Some g => lease_epoch (gr_bytes g) | None => 0 end)%comp.

Definition recover : M unit :=
  (let! (ds, img, hw) := discover_layers in
   let! replay := replay_log hw in
   let! (brs, next_id) := load_branches in
   let! (e, _) := durable_epoch in
   let! floor := read_floor in
   modify (λ _, mkInner (max_seq replay + 1) (r_next_lsn replay) (r_durable_lsn replay)
     (r_commit_lsn replay) e floor (r_memtable replay) (r_memtable_bytes replay) hw ds img
     brs next_id))%comp.

(** [prefix.is_empty() || prefix.ends_with('/')], else a slash is added. *)
Definition normal_prefix (p : string) : string :=
  if String.eqb p "" || ends_with "/" p then p else p +:+ "/".

Definition with_store (st : St) (p : string) (c : Config)
    : St * Result StorageError (ObjectStorage St) :=
  let s := mkObj st (normal_prefix p) c inner_new ∅ in
  match recover s with
  | (s, Ok _) => (store s, Ok s)
  | (s, Err e) => (store s, Err e)
  end.

(** ** The [Storage] methods *)

(** The delta loop of [get_page]: newest first, pruned by LSN span. *)
Fixpoint search_deltas (ds : list DeltaMeta) (id query : Z) : M (option PageRecord) :=
  match ds with
  | [] => comp_ret None
  | d :: ds =>
      if query <? d_lo d then search_deltas ds id query
      else
        (let! recs := load_layer (d_key d) in
         match best_in recs id query with
         | Some best => comp_ret (Some best)
         | None => search_deltas ds id query
         end)%comp
  end.

Definition get_page (id : PageId) (lsn : Lsn) : M Page := λ s,
  let g := inner s in
  if lsn <? retention_floor g then (s, Err NotFound)
  else
    match memtable_floor (memtable g) id lsn with
    | Some (vlsn, img) => (s, Ok (Page_from_slice id vlsn img))
    | None =>
        (let! hit := search_deltas (merge_sort hi_ge (deltas g)) id lsn in
         match hit with
         | Some best => comp_ret (Page_from_slice id (rec_lsn best) (rec_image best))
         | None =>
             match image g with
             | Some img =>
                 if image_lsn img <=? lsn then
                   let! recs := load_layer (i_key img) in
                   match best_in recs id lsn with
                   | Some best => comp_ret (Page_from_slice id (rec_lsn best) (rec_image best))
                   | None => comp_err NotFound
                   end
                 else comp_err NotFound
             | None => comp_err NotFound
             end
         end)%comp s
    end.

Definition append_wal (token : FenceToken) (records : list WalRecord) : M Lsn :=
  if bool_decide (records = []) then comp_err Invalid
  else append_segment token (List.map (λ r, Wal (wal_bytes r)) records).

Definition put_page (token : FenceToken) (id : PageId) (img : bytes) : M Lsn :=
  if PAGE_SIZE <? zlen img then comp_err Invalid
  else append_segment token [PageItem id img].

Fixpoint scan_keys (after : Z) (keys : list string) (acc : Z * list LogEntry)
    : M (list LogEntry) :=
  match keys with
  | [] => comp_ret acc.2
  | key :: keys =>
      (let! items := read_segment key in
       scan_keys after keys (fold_left (scan_item after) items acc))%comp
  end.

Definition scan_wal (after : Lsn) : M (list LogEntry) :=
  (let! p := ask prefix in
   let! keys := obj_list (log_prefix p) in
   scan_keys after (merge_sort String.le keys) (0, []))%comp.

Definition flush : M unit := flush_locked.

(** The conditional write of the lease: over the version read, or a first creation. *)
Definition put_lease (p : string) (b : bytes) (etag : option ETag)
    : Comp (ObjectStorage St) ObjectError ETag :=
  on_store match etag with
           | Some t => put_if_match (lease_key p) b t
           | None => put_if_absent (lease_key p) b
           end.

Fixpoint acquire_loop (now_ms now : Z) (owner : WriterId) (retries : nat) : M FenceToken :=
  (let! (cur_epoch, etag) := durable_epoch in
   let new_epoch := cur_epoch + 1 in
   let b := encode_lease new_epoch owner (now_ms + FENCE_LEASE) in
   λ s,
     match put_lease (prefix s) b etag s with
     | (s, Ok _) =>
         (do! modify (set_epoch new_epoch) in
          comp_ret (mkToken new_epoch owner (now + FENCE_LEASE))) s
     | (s, Err Precondition) =>
         match retries with
         | O => (s, Err Contended)
         | S retries => acquire_loop now_ms now owner retries s
         end
     | (s, Err e) => (s, Err (map_obj_err e))
     end)%comp.

Definition acquire_fence (now_ms now : Z) (owner : WriterId) : M FenceToken :=
  (let! c := ask config in acquire_loop now_ms now owner (cas_max_retries c))%comp.

Fixpoint renew_loop (now_ms now : Z) (token : FenceToken) (retries : nat) : M FenceToken :=
  (let! (current, etag) := durable_epoch in
   if negb (tok_epoch token =? current) then comp_err (Fenced (tok_epoch token) current)
   else
     let b := encode_lease (tok_epoch token) (tok_owner token) (now_ms + FENCE_LEASE) in
     λ s,
       match put_lease (prefix s) b etag s with
       | (s, Ok _) => (s, Ok (mkToken (tok_epoch token) (tok_owner token) (now + FENCE_LEASE)))
       | (s, Err Precondition) =>
           match retries with
           | O => (s, Err Contended)
           | S retries => renew_loop now_ms now token retries s
           end
       | (s, Err e) => (s, Err (map_obj_err e))
       end)%comp.

Definition renew_fence (now_ms now : Z) (token : FenceToken) : M FenceToken :=
  (let! c := ask config in renew_loop now_ms now token (cas_max_retries c))%comp.

Definition release_fence (token : FenceToken) : M unit :=
  (let! (current, etag) := durable_epoch in
   if negb (tok_epoch token =? current) then comp_ret tt
   else
     let b := encode_lease (tok_epoch token) (tok_owner token) 0 in
     match etag with
     | Some t => λ s, let '(s, _) := put_lease (prefix s) b (Some t) s in (s, Ok tt)
     | None => comp_ret tt
     end)%comp.

Definition branch_payload (id base parent : Z) : bytes :=
  u64_le id ++ u64_le base ++ u64_le parent.

Definition create_branch (base_lsn : Lsn) : M BranchId := λ s,
  let g := inner s in
  if base_lsn <? retention_floor g then (s, Err NotFound)
  else
    let id := next_branch_id g in
    (do! comp_map_err map_obj_err (obj_put_if_absent (branch_key (prefix s) id)
           (branch_payload id base_lsn BranchId_ROOT)) in
     do! modify (λ g, set_next_branch_id (next_branch_id g + 1) g) in
     let bref := mkBranch id BranchId_ROOT base_lsn base_lsn in
     do! modify (λ g, set_branches (<[id := bref]> (branches g)) g) in
     comp_ret id)%comp s.

Definition resolve_branch (branch : BranchId) : M BranchRef := λ s,
  (s, ok_or (branches (inner s) !! branch) NotFound).

Definition list_branches : M (list BranchRef) := ask (λ s, sorted_branches (branches (inner s))).

Definition delete_branch (branch : BranchId) : M unit := λ s,
  if bool_decide (branches (inner s) !! branch = None) then (s, Err NotFound)
  else if has_children branch (branches (inner s)) then (s, Err Invalid)
  else
    (do! obj_delete (branch_key (prefix s) branch) in
     let! keys := obj_list (overlay_prefix (prefix s) branch) in
     do! delete_all keys in
     modify (λ g, set_branches (delete branch (branches g)) g))%comp s.

Definition set_retention_floor (lsn : Lsn) : M unit := λ s,
  if lsn <? retention_floor (inner s) then (s, Err Invalid)
  else
    (do! obj_put (retention_key (prefix s)) (u64_le lsn) in modify (set_floor lsn))%comp s.

End Backend.
End Obj.
