(* ===== verification/ObjVersions.v ===== *)
(** * The object namespace of the disaggregated backend

    Every name the backend writes parses back to the numbers in it, names of one kind never
    collide or start like another kind, and sorting the names of log segments sorts the slots. *)

From S2P Require Import Prelude Text StorageTypes ObjStorage ObjCodec.

#[local] Arguments String.append : simpl nomatch.

Module ObjKeys.
Import Obj.

(** ** Names parse back *)

Lemma fmt_no_char c n : digit_val c = None → has_char c (fmt_020 n) = false.
Proof. apply dec_digits_no_char. Qed.

Lemma parse_log_key p n : is_u64 n → parse_log_name (log_key p n) = Some n.
Proof.
  intros Hn. unfold parse_log_name, log_key.
  change ("log/" +:+ fmt_020 n) with ("log" +:+ String "/"%char (fmt_020 n)).
  rewrite <- str_app_assoc, after_last_app by (by apply fmt_no_char). by apply parse_fmt_020.
Qed.

Lemma parse_delta_key p lo hi :
  is_u64 lo → is_u64 hi → parse_delta_name (delta_key p lo hi) = Some (lo, hi).
Proof.
  intros Hlo Hhi. unfold parse_delta_name, delta_key.
  change ("delta/L" +:+ ?x) with ("delta" +:+ String "/"%char ("L" +:+ x)).
  rewrite <- (str_app_assoc p), after_last_app.
  2:{ rewrite !has_char_app, !fmt_no_char by done. reflexivity. }
  rewrite strip_prefix_app. cbn [mbind option_bind].
  rewrite <- !str_app_assoc, strip_suffix_app. cbn [mbind option_bind]. rewrite str_app_assoc.
  change ("-L" +:+ fmt_020 hi) with (String "-"%char "L" +:+ fmt_020 hi).
  rewrite split_once_app by (by apply fmt_no_char). cbn [mbind option_bind].
  by rewrite !parse_fmt_020.
Qed.

Lemma parse_image_key p l : is_u64 l → parse_image_name (image_key p l) = Some l.
Proof.
  intros Hl. unfold parse_image_name, image_key.
  change ("image/img-L" +:+ ?x) with ("image" +:+ String "/"%char ("img-L" +:+ x)).
  rewrite <- (str_app_assoc p), after_last_app.
  2:{ rewrite !has_char_app, !fmt_no_char by done. reflexivity. }
  rewrite strip_prefix_app. cbn [mbind option_bind].
  rewrite strip_suffix_app. cbn [mbind option_bind]. by apply parse_fmt_020.
Qed.

Lemma log_key_inj p n m : is_u64 n → is_u64 m → log_key p n = log_key p m → n = m.
Proof. intros Hn Hm E. apply (f_equal parse_log_name) in E. rewrite !parse_log_key in E; congruence. Qed.

Lemma delta_key_inj p lo hi lo' hi' :
  is_u64 lo → is_u64 hi → is_u64 lo' → is_u64 hi' →
  delta_key p lo hi = delta_key p lo' hi' → lo = lo' ∧ hi = hi'.
Proof.
  intros H1 H2 H3 H4 E. apply (f_equal parse_delta_name) in E.
  rewrite !parse_delta_key in E by done. naive_solver.
Qed.

Lemma image_key_inj p l l' : is_u64 l → is_u64 l' → image_key p l = image_key p l' → l = l'.
Proof. intros Hn Hm E. apply (f_equal parse_image_name) in E. rewrite !parse_image_key in E; congruence. Qed.

Lemma branch_key_inj p n m : is_u64 n → is_u64 m → branch_key p n = branch_key p m → n = m.
Proof.
  intros Hn Hm E. unfold branch_key in E. apply str_app_inj_l, str_app_inj_l in E.
  apply str_app_inj_len in E as [E _]; [by apply fmt_020_inj|]. unfold fmt_020. by rewrite !length_dec_digits.
Qed.

(** ** The kinds of object *)

Inductive Kind := KLease | KRetention | KLog | KDelta | KImage | KBranch.

(** The literal that follows the database prefix in every name of a kind. *)
Definition tail_of (k : Kind) : string :=
  match k with
  | KLease => "lease" | KRetention => "retention" | KLog => "log/"
  | KDelta => "delta/" | KImage => "image/" | KBranch => "branches/"
  end.

(** [key] is a name of kind [k] under the prefix [p]. *)
Definition of_kind (p : string) (k : Kind) (key : string) : Prop :=
  ∃ r, key = p +:+ tail_of k +:+ r.

Lemma of_kind_disjoint p k k' key : of_kind p k key → of_kind p k' key → k = k'.
Proof.
  intros [r ->] [r' E]. apply str_app_inj_l in E. by destruct k, k'; try discriminate E.
Qed.

Lemma lease_kind p : of_kind p KLease (lease_key p).
Proof. exists ""%string. reflexivity. Qed.
Lemma retention_kind p : of_kind p KRetention (retention_key p).
Proof. exists ""%string. reflexivity. Qed.
Lemma log_kind p n : of_kind p KLog (log_key p n).
Proof. by eexists. Qed.
Lemma delta_kind p lo hi : of_kind p KDelta (delta_key p lo hi).
Proof. unfold delta_key. by eexists ("L" +:+ _). Qed.
Lemma image_kind p l : of_kind p KImage (image_key p l).
Proof. unfold image_key. by eexists ("img-L" +:+ _). Qed.
Lemma branch_kind p id : of_kind p KBranch (branch_key p id).
Proof. by eexists. Qed.
Lemma overlay_kind p id r : of_kind p KBranch (overlay_prefix p id +:+ r).
Proof. unfold overlay_prefix. rewrite !str_app_assoc. by eexists. Qed.

Lemma prefix_kind p k key :
  starts_with (p +:+ tail_of k) key = true ↔ of_kind p k key.
Proof.
  rewrite starts_with_true. unfold of_kind.
  split; intros [r ->]; exists r; by rewrite str_app_assoc.
Qed.

Create HintDb kinds.
#[export] Hint Resolve lease_kind retention_kind log_kind delta_kind image_kind branch_kind
  overlay_kind : kinds.

(** Two names of different kinds differ. *)
Lemma kind_ne p k k' key key' :
  of_kind p k key → of_kind p k' key' → k ≠ k' → key ≠ key'.
Proof. intros H H' Hne ->. by apply Hne, (of_kind_disjoint p k k' key'). Qed.

(** ** Layer names tell their kind *)

(** Prefixes under which a name contains ["/image/"] exactly when it names an image layer. *)
Definition kind_visible (p : string) : Prop :=
  (∀ lo hi, str_contains "/image/" (delta_key p lo hi) = false) ∧
  (∀ l, str_contains "/image/" (image_key p l) = true).

Lemma str_contains_app_r pat (a b : string) :
  str_contains pat b = true → str_contains pat (a +:+ b) = true.
Proof.
  intros Hb. induction a as [|x a IH]; [done|].
  change (String x a +:+ b) with (String x (a +:+ b)). cbn [str_contains].
  by rewrite IH, orb_true_r.
Qed.

Lemma contains_no_char c pat s : has_char c s = false → str_contains (String c pat) s = false.
Proof.
  induction s as [|x s IH]; [done|]. cbn [has_char str_contains]. intros [Hx Hs]%orb_false_iff.
  rewrite (IH Hs), orb_false_r. unfold starts_with. cbn [strip_prefix].
  by rewrite Ascii.eqb_sym, Hx.
Qed.

(** An occurrence of ["/image/"] at the head of a string that has a slash inside its first seven
    characters ends at that slash. *)
Lemma slash_image_split x (q d r : string) :
  String x (q +:+ "/" +:+ d) = "/image/" +:+ r → starts_with "/image/" (String x (q +:+ "/")) = true.
Proof.
  intros E. apply starts_with_true.
  change ("/image/" +:+ r) with (String "/" (String "i" (String "m" (String "a" (String "g"
    (String "e" (String "/" r))))))) in E.
  injection E as -> E.
  do 5 (destruct q as [|? q]; [discriminate E|]; 
    change (String ?c q +:+ ?t) with (String c (q +:+ t)) in E; injection E as -> E).
  destruct q as [|c q]; [by exists ""%string|].
  change (String c q +:+ ?t) with (String c (q +:+ t)) in E. injection E as -> E.
  by exists (q +:+ "/").
Qed.

(** A database prefix that ends in a slash and does not itself contain ["/image/"]. *)
Lemma kind_visible_prefix (q : string) :
  str_contains "/image/" (q +:+ "/") = false → kind_visible (q +:+ "/").
Proof.
  intros Hq. split.
  - intros lo hi. unfold delta_key. rewrite str_app_assoc.
    set (tail := "L" +:+ fmt_020 lo +:+ "-L" +:+ fmt_020 hi +:+ ".delta").
    change ("delta/L" +:+ _) with ("delta/" +:+ tail).
    assert (str_contains "/image/" tail = false) as Ht.
    { apply contains_no_char. unfold tail.
      rewrite !has_char_app, !fmt_no_char by done. reflexivity. }
    revert Hq. induction q as [|x q IH]; intros Hq.
    + assert (starts_with "/image/" (String "/" tail) = false) as Hs by reflexivity.
      clearbody tail. cbn. by rewrite Hs, Ht.
    + change ((String x q +:+ "/")) with (String x (q +:+ "/")) in Hq.
      cbn [str_contains] in Hq. apply orb_false_iff in Hq as [Hx Hq].
      change (String x q +:+ ?t) with (String x (q +:+ t)). cbn [str_contains].
      rewrite (IH Hq), orb_false_r. clear IH Hq Ht.
      destruct (starts_with _ (String x (q +:+ "/" +:+ "delta/" +:+ tail))) eqn:E; [|done].
      rewrite <- Hx. symmetry. apply starts_with_true in E as [r E]. clearbody tail.
      by apply (slash_image_split x q ("delta/" +:+ tail) r).
  - intros l. unfold image_key. rewrite str_app_assoc. apply str_contains_app_r.
    reflexivity.
Qed.

(** ** Sorting the names sorts the slots *)

Definition log_keys (p : string) (n : Z) : list string := log_key p <$> seqZ 1 n.

Lemma log_key_le p i j : is_u64 i → is_u64 j → i ≤ j → String.le (log_key p i) (log_key p j).
Proof. intros. unfold log_key. rewrite <- !str_app_assoc. by apply padded_le. Qed.

Lemma log_keys_sorted p m (n : nat) :
  0 ≤ m → m + Z.of_nat n ≤ 2 ^ 64 → Sorted String.le (log_key p <$> seqZ m (Z.of_nat n)).
Proof.
  intros Hm Hn. apply StronglySorted_Sorted. revert m Hm Hn.
  induction n as [|n IH]; intros m Hm Hn; [constructor|].
  rewrite seqZ_cons by lia. rewrite fmap_cons. constructor.
  - replace (Z.pred (Z.of_nat (S n))) with (Z.of_nat n) by lia. apply IH; lia.
  - apply Forall_forall. intros k (i & -> & Hi%elem_of_seqZ)%list_elem_of_fmap.
    apply log_key_le; unfold is_u64; lia.
Qed.

Lemma log_keys_NoDup p n : n < 2 ^ 64 → NoDup (log_keys p n).
Proof.
  intros Hn. apply NoDup_fmap_2_strong; [|apply NoDup_seqZ].
  intros i j Hi%elem_of_seqZ Hj%elem_of_seqZ. apply log_key_inj; unfold is_u64; lia.
Qed.

Lemma elem_of_log_keys p n k : k ∈ log_keys p n ↔ ∃ i, 1 ≤ i ≤ n ∧ k = log_key p i.
Proof.
  unfold log_keys. rewrite list_elem_of_fmap. split.
  - intros (i & -> & Hi%elem_of_seqZ). exists i. split; [lia | done].
  - intros (i & Hi & ->). exists i. split; [done|]. apply elem_of_seqZ. lia.
Qed.

Lemma sort_log_keys p n ks :
  0 ≤ n < 2 ^ 64 → NoDup ks → (∀ k, k ∈ ks ↔ ∃ i, 1 ≤ i ≤ n ∧ k = log_key p i) →
  merge_sort String.le ks = log_keys p n.
Proof.
  intros Hn Hnd Hks. apply (Sorted_unique String.le).
  - apply (Sorted_merge_sort String.le _).
  - unfold log_keys. replace n with (Z.of_nat (Z.to_nat n)) by lia. apply log_keys_sorted; lia.
  - rewrite merge_sort_Permutation. apply NoDup_Permutation; [done | apply log_keys_NoDup; lia |].
    intros k. by rewrite Hks, elem_of_log_keys.
Qed.

End ObjKeys.

(** * Page versions: what the log says and what the layers hold

    The abstract view of the page store: the page images of the log, each with the LSN of its
    item.  A read wants the greatest version at or below a snapshot ([greatest]).  The memtable,
    a delta layer and an image layer each hold a set of versions, and the searches of the code
    ([best_in], [memtable_floor], [merge_layer]) find the greatest one in it. *)

Module Versions.
Import Codec Obj.

(** The page versions of a log whose first item has LSN [n]. *)
Fixpoint versions_from (n : Z) (items : list LogItem) : list PageRecord :=
  match items with
  | [] => []
  | Wal _ :: items => versions_from (n + 1) items
  | PageItem id img :: items => mkRecord id n img :: versions_from (n + 1) items
  end.

Definition versions (items : list LogItem) : list PageRecord := versions_from 1 items.

(** [o] is the version a read of page [id] at snapshot [q] must see among those in [V]. *)
Definition greatest (V : PageRecord → Prop) (id q : Z) (o : option PageRecord) : Prop :=
  match o with
  | None => ∀ r, V r → rec_page_id r = id → rec_lsn r ≤ q → False
  | Some r => V r ∧ rec_page_id r = id ∧ rec_lsn r ≤ q ∧
              ∀ r', V r' → rec_page_id r' = id → rec_lsn r' ≤ q → rec_lsn r' ≤ rec_lsn r
  end.

(** What a delta layer, an image layer and the memtable hold. *)
Definition delta_ok (items : list LogItem) (lo hi : Z) (recs : list PageRecord) : Prop :=
  ∀ r, r ∈ recs ↔ r ∈ versions items ∧ lo ≤ rec_lsn r ≤ hi.

Definition image_ok (items : list LogItem) (l : Z) (recs : list PageRecord) : Prop :=
  (∀ r, r ∈ recs → r ∈ versions items ∧ rec_lsn r ≤ l) ∧
  (∀ r, r ∈ versions items → rec_lsn r ≤ l →
     ∃ r', r' ∈ recs ∧ rec_page_id r' = rec_page_id r ∧ rec_lsn r ≤ rec_lsn r').

Definition mem_ok (items : list LogItem) (hw : Z) (m : gmap (Z * Z) bytes) : Prop :=
  ∀ id l img, m !! (id, l) = Some img ↔ mkRecord id l img ∈ versions items ∧ hw < l.

(** ** Versions of a log *)

Lemma versions_from_app n a b :
  versions_from n (a ++ b) = versions_from n a ++ versions_from (n + zlen a) b.
Proof.
  revert n. induction a as [|[b'|id img] a IH]; intros n; cbn [versions_from app].
  - by rewrite zlen_nil, Z.add_0_r.
  - rewrite IH, zlen_cons. do 2 f_equal. lia.
  - rewrite IH, zlen_cons. do 3 f_equal. lia.
Qed.

Lemma versions_from_range n items r :
  r ∈ versions_from n items → n ≤ rec_lsn r < n + zlen items.
Proof.
  revert n. induction items as [|[b|id img] items IH]; intros n; cbn [versions_from].
  - by intros ?%elem_of_nil.
  - intros H%IH. rewrite zlen_cons. lia.
  - rewrite zlen_cons. pose proof (zlen_nonneg items).
    intros [->|Hin%IH]%elem_of_cons; cbn; lia.
Qed.

Lemma versions_from_inj n items r r' :
  r ∈ versions_from n items → r' ∈ versions_from n items → rec_lsn r = rec_lsn r' → r = r'.
Proof.
  revert n. induction items as [|[b|id img] items IH]; intros n; cbn [versions_from].
  - by intros ?%elem_of_nil.
  - apply IH.
  - intros [->|H]%elem_of_cons [->|H']%elem_of_cons; [done| | |by eapply IH]; cbn.
    + apply versions_from_range in H'. lia.
    + apply versions_from_range in H. lia.
Qed.

Lemma versions_range items r : r ∈ versions items → 1 ≤ rec_lsn r ≤ zlen items.
Proof. intros H%versions_from_range. lia. Qed.

Lemma versions_app items items' r :
  r ∈ versions (items ++ items') ↔
  r ∈ versions items ∨ r ∈ versions_from (zlen items + 1) items'.
Proof.
  unfold versions. rewrite versions_from_app, elem_of_app. by rewrite (Z.add_comm 1).
Qed.

(** A version at or below the old end of the log was there before the append. *)
Lemma versions_app_old items items' r :
  rec_lsn r ≤ zlen items → r ∈ versions (items ++ items') ↔ r ∈ versions items.
Proof.
  intros Hr. rewrite versions_app. split; [|auto]. intros [H|H]; [done|].
  apply versions_from_range in H. lia.
Qed.

Lemma versions_record_ok items r :
  Forall item_ok items → zlen items < 2 ^ 64 → r ∈ versions items → record_ok r.
Proof.
  intros Hok Hn Hr. pose proof (versions_range _ _ Hr) as Hl.
  assert (is_u64 (rec_page_id r) ∧ zlen (rec_image r) ≤ PAGE_SIZE) as [? ?].
  { clear Hl Hn. unfold versions in Hr. revert Hr. generalize 1.
    induction Hok as [|[b|id img] items Hi _ IH]; intros n; cbn [versions_from].
    - by intros ?%elem_of_nil.
    - apply IH.
    - intros [->|H]%elem_of_cons; [done | by eapply IH]. }
  split_and!; [done | unfold is_u64; lia | done].
Qed.

(** ** The greatest version is unique, and found by [best_in] *)

Lemma greatest_unique items (V : PageRecord → Prop) id q o o' :
  (∀ r, V r → r ∈ versions items) → greatest V id q o → greatest V id q o' → o = o'.
Proof.
  intros HV. destruct o as [r|], o' as [r'|]; cbn; [|naive_solver..|done].
  intros (H1 & H2 & H3 & H4) (H1' & H2' & H3' & H4'). f_equal.
  apply (versions_from_inj 1 items); [by apply HV..|].
  specialize (H4 _ H1' H2' H3'). specialize (H4' _ H1 H2 H3). lia.
Qed.

Lemma greatest_ext (V W : PageRecord → Prop) id q o :
  (∀ r, rec_lsn r ≤ q → V r ↔ W r) → greatest V id q o → greatest W id q o.
Proof.
  intros HE. destruct o as [r|]; cbn.
  - intros (H1 & H2 & H3 & H4). split_and!; [by apply HE|done..|].
    intros r' H1' H2' H3'. apply H4; [by apply HE|done..].
  - intros H r H1 H2 H3. apply (H r); [by apply HE|done..].
Qed.

Lemma max_by_lsn_spec recs acc :
  match fold_left (λ acc r, match acc with
                            | None => Some r
                            | Some b => if rec_lsn b <=? rec_lsn r then Some r else Some b
                            end) recs acc with
  | None => acc = None ∧ recs = []
  | Some r => (acc = Some r ∨ r ∈ recs) ∧
              (∀ r', acc = Some r' ∨ r' ∈ recs → rec_lsn r' ≤ rec_lsn r)
  end.
Proof.
  revert acc. induction recs as [|x recs IH]; intros acc; cbn [fold_left].
  - destruct acc as [r|]; [|done]. split; [by left|]. intros r' [[= ->]|?%elem_of_nil]; done.
  - match goal with |- context [fold_left _ recs ?a] => specialize (IH a); set (a' := a) in * end.
    destruct (fold_left _ recs a') as [r|].
    + destruct IH as [Hin Hmax]. split.
      * destruct Hin as [Ha|Hin]; [|right; by apply list_elem_of_further].
        destruct acc as [b|]; unfold a' in Ha; [|injection Ha as ->; right; apply list_elem_of_here].
        case_match; injection Ha as ->; [right; apply list_elem_of_here | by left].
      * intros r' [->|[->|H']%elem_of_cons]; [| |apply Hmax; by right].
        -- unfold a' in Hmax. destruct (Z.leb_spec (rec_lsn r') (rec_lsn x)).
           ++ specialize (Hmax x (or_introl eq_refl)). lia.
           ++ by apply Hmax; left.
        -- destruct acc as [b|]; unfold a' in Hmax; [|by apply Hmax; left].
           destruct (Z.leb_spec (rec_lsn b) (rec_lsn x)); [by apply Hmax; left|].
           specialize (Hmax b (or_introl eq_refl)). lia.
    + destruct IH as [Ha _]. exfalso. unfold a' in Ha. destruct acc; [case_match|]; done.
Qed.

Lemma best_in_greatest recs id q : greatest (.∈ recs) id q (best_in recs id q).
Proof.
  unfold best_in, max_by_lsn.
  pose proof (max_by_lsn_spec
    (filter (λ r, rec_page_id r = id ∧ rec_lsn r ≤ q) recs) None) as H.
  destruct (fold_left _ _ _) as [r|]; cbn.
  - destruct H as [[?|Hin] Hmax]; [done|]. apply list_elem_of_filter in Hin as [[H1 H2] H3].
    split_and!; [done..|]. intros r' H1' H2' H3'. apply Hmax. right. by apply list_elem_of_filter.
  - destruct H as [_ H]. intros r H1 H2 H3. apply (filter_nil_not_elem_of _ _ _ H (conj H2 H3) H1).
Qed.

(** ** The memtable *)

#[export] Instance mem_le_trans : Transitive mem_le.
Proof. intros a b c. unfold mem_le. lia. Qed.
#[export] Instance mem_le_total : Total mem_le.
Proof. intros a b. unfold mem_le. lia. Qed.

Lemma StronglySorted_filter' {A} (R : relation A) P `{∀ x, Decision (P x)} l :
  StronglySorted R l → StronglySorted R (filter P l).
Proof.
  induction 1 as [|x l _ IH HF]; [constructor|]. rewrite filter_cons. case_decide; [|done].
  constructor; [done|]. apply Forall_forall. intros y [_ Hy]%list_elem_of_filter.
  by eapply Forall_forall in HF.
Qed.

Lemma last_sorted {A} (R : relation A) l x :
  (∀ y, R y y) → StronglySorted R l → last l = Some x → x ∈ l ∧ ∀ y, y ∈ l → R y x.
Proof.
  intros Hrefl Hs Hl. apply last_Some in Hl as [k ->].
  split; [apply elem_of_app; right; apply list_elem_of_here|].
  intros y [Hy|Hy%list_elem_of_singleton]%elem_of_app; [|by subst y].
  eapply StronglySorted_app_1_elem_of; [exact Hs | done | apply list_elem_of_here].
Qed.

Lemma memtable_entries_elem m id l img :
  (id, l, img) ∈ memtable_entries m ↔ m !! (id, l) = Some img.
Proof. unfold memtable_entries. by rewrite merge_sort_Permutation, elem_of_map_to_list. Qed.

Lemma memtable_records_elem m r :
  r ∈ memtable_records m ↔ m !! (rec_page_id r, rec_lsn r) = Some (rec_image r).
Proof.
  unfold memtable_records. rewrite <- memtable_entries_elem. split.
  - intros ([[id l] img] & -> & Hin)%list_elem_of_fmap. done.
  - intros Hin. apply list_elem_of_fmap. eexists. split; [|exact Hin]. by destruct r.
Qed.

Definition floor_record (id : Z) (o : option (Z * bytes)) : option PageRecord :=
  (λ v : Z * bytes, mkRecord id v.1 v.2) <$> o.

Lemma memtable_floor_greatest items hw m id q :
  mem_ok items hw m →
  greatest (λ r, r ∈ versions items ∧ hw < rec_lsn r) id q (floor_record id (memtable_floor m id q)).
Proof.
  intros Hm. unfold memtable_floor.
  set (P := λ e : Z * Z * bytes, e.1.1 = id ∧ 0 ≤ e.1.2 ≤ q).
  assert (StronglySorted mem_le (filter P (memtable_entries m))) as Hs.
  { apply StronglySorted_filter', StronglySorted_merge_sort; apply _. }
  assert (∀ r, r ∈ versions items → hw < rec_lsn r → rec_page_id r = id → rec_lsn r ≤ q →
            (id, rec_lsn r, rec_image r) ∈ filter P (memtable_entries m)) as Hall.
  { intros r Hr Hlt <- Hq. apply list_elem_of_filter. pose proof (versions_range _ _ Hr).
    split; [split; cbn; lia|]. apply memtable_entries_elem, Hm. by destruct r. }
  destruct (last (filter P (memtable_entries m))) as [[[id' l] img]|] eqn:Hl; cbn.
  - apply (last_sorted mem_le) in Hl as [Hin Hmax]; [|by intros ?; right|done].
    apply list_elem_of_filter in Hin as [[Hid Hq] Hin]. cbn in *. subst id'.
    apply memtable_entries_elem, Hm in Hin as [Hin Hlt].
    split_and!; [done..|lia|]. intros r [Hr Hr'] Hid Hrq.
    destruct (Hmax _ (Hall r Hr Hr' Hid Hrq)) as [?|[_ ?]]; cbn in *; lia.
  - apply last_None in Hl. intros r [Hr Hr'] Hid Hrq.
    specialize (Hall r Hr Hr' Hid Hrq). rewrite Hl in Hall. by apply elem_of_nil in Hall.
Qed.

(** The layer a flush writes holds the versions of its span. *)
Lemma memtable_delta_ok items hw m :
  mem_ok items hw m → delta_ok items (hw + 1) (zlen items) (memtable_records m).
Proof.
  intros Hm r. rewrite memtable_records_elem, (Hm _ _ _).
  replace (mkRecord _ _ _) with r by (by destruct r). split.
  - intros [Hr Hlt]. pose proof (versions_range _ _ Hr). split; [done|lia].
  - intros [Hr Hlt]. split; [done|lia].
Qed.

(** ** Merging layers *)

(** [m] holds, per page, the greatest version of [V]. *)
Definition merged_ok (V : PageRecord → Prop) (q : Z) (m : gmap Z (Z * bytes)) : Prop :=
  ∀ id, greatest V id q (floor_record id (m !! id)).

Lemma merge_keep_greatest_ok V q m x :
  rec_lsn x ≤ q → merged_ok V q m → merged_ok (λ r, V r ∨ r = x) q (merge_keep_greatest m x).
Proof.
  intros Hx Hm id. unfold merge_keep_greatest. specialize (Hm id) as Hid.
  destruct (decide (id = rec_page_id x)) as [->|Hne].
  - assert (∀ m' : gmap Z (Z * bytes), floor_record (rec_page_id x)
      ((<[rec_page_id x := (rec_lsn x, rec_image x)]> m') !! rec_page_id x) = Some x) as Hins.
    { intros m'. rewrite lookup_insert_eq. by destruct x. }
    destruct (m !! rec_page_id x) as [[l img]|] eqn:E; cbn in Hid.
    + destruct Hid as (H1 & _ & H3 & H4). cbn in H3, H4. cbn [fst].
      destruct (Z.leb_spec l (rec_lsn x)) as [Hle|Hlt].
      * rewrite Hins. split_and!; [by right|done..|].
        intros r' [Hr'| ->] Hp Hq; [|lia]. specialize (H4 r' Hr' Hp Hq). lia.
      * rewrite E. cbn. split_and!; [by left|done..|].
        intros r' [Hr'| ->] Hp Hq; [auto|lia].
    + rewrite Hins. split_and!; [by right|done..|].
      intros r' [Hr'| ->] Hp Hq; [|lia]. by destruct (Hid r').
  - assert (merge_keep_greatest m x !! id = m !! id) as Hsame.
    { unfold merge_keep_greatest. repeat case_match; by rewrite ?lookup_insert_ne by done. }
    unfold merge_keep_greatest in Hsame. rewrite Hsame.
    destruct (floor_record id (m !! id)) as [r|]; cbn in *.
    + destruct Hid as (H1 & H2 & H3 & H4). split_and!; [by left|done..|].
      intros r' [Hr'| ->] Hp Hq; [auto | congruence].
    + intros r' [Hr'| ->] Hp Hq; [eauto | congruence].
Qed.

Lemma merged_ok_iff V W q m :
  (∀ r, rec_lsn r ≤ q → V r ↔ W r) → merged_ok V q m → merged_ok W q m.
Proof. intros HE Hm id. by apply (greatest_ext V). Qed.

Lemma merge_layer_ok V q m recs :
  merged_ok V q m → merged_ok (λ r, V r ∨ r ∈ recs) q (merge_layer q m recs).
Proof.
  unfold merge_layer. revert V m. induction recs as [|x recs IH]; intros V m Hm; cbn [fold_left].
  - apply (merged_ok_iff V); [|done]. intros r _. rewrite elem_of_nil. tauto.
  - destruct (Z.leb_spec (rec_lsn x) q) as [Hle|Hlt].
    + apply (merged_ok_iff (λ r, (V r ∨ r = x) ∨ r ∈ recs)).
      { intros r _. rewrite elem_of_cons. tauto. }
      by apply IH, merge_keep_greatest_ok.
    + apply (merged_ok_iff (λ r, V r ∨ r ∈ recs)); [|by apply IH].
      intros r Hr. rewrite elem_of_cons. split; [tauto|]. intros [?|[->|?]]; [tauto|lia|tauto].
Qed.

Lemma merged_ok_empty q : merged_ok (λ _, False) q ∅.
Proof. intros id. rewrite lookup_empty. cbn. done. Qed.

Lemma merged_records_elem m r :
  r ∈ merged_records m ↔ m !! rec_page_id r = Some (rec_lsn r, rec_image r).
Proof.
  unfold merged_records. split.
  - intros ([id [l img]] & -> & Hin)%list_elem_of_fmap.
    rewrite merge_sort_Permutation in Hin. by apply elem_of_map_to_list in Hin.
  - intros Hin. apply list_elem_of_fmap. exists (rec_page_id r, (rec_lsn r, rec_image r)).
    split; [by destruct r|]. rewrite merge_sort_Permutation. by apply elem_of_map_to_list.
Qed.

(** Merging versions that cover the log up to [q] gives an image of it at [q]. *)
Lemma merged_image_ok items V q m :
  (∀ r, V r → r ∈ versions items) →
  (∀ r, r ∈ versions items → rec_lsn r ≤ q →
     ∃ r', V r' ∧ rec_page_id r' = rec_page_id r ∧ rec_lsn r ≤ rec_lsn r' ≤ q) →
  merged_ok V q m → image_ok items q (merged_records m).
Proof.
  intros HV Hcov Hm. split.
  - intros r Hr%merged_records_elem. specialize (Hm (rec_page_id r)). rewrite Hr in Hm. cbn in Hm.
    destruct Hm as (H1 & _ & H3 & _). cbn in *. split; [|done].
    apply HV in H1. by destruct r.
  - intros r Hr Hq. destruct (Hcov r Hr Hq) as (r' & H1 & H2 & H3).
    specialize (Hm (rec_page_id r)).
    destruct (m !! rec_page_id r) as [[l img]|] eqn:E; cbn in Hm.
    + destruct Hm as (_ & _ & _ & H4). exists (mkRecord (rec_page_id r) l img).
      split; [by apply merged_records_elem|]. split; [done|]. cbn in *.
      specialize (H4 r' H1 H2). lia.
    + exfalso. apply (Hm r' H1 H2). lia.
Qed.

(** ** Appending to the log *)

Lemma delta_ok_app items items' lo hi recs :
  hi ≤ zlen items → delta_ok items lo hi recs → delta_ok (items ++ items') lo hi recs.
Proof.
  intros Hhi Hd r. rewrite (Hd r). split; intros [Hr Hl]; (split; [|done]);
    [by apply versions_app; left | apply versions_app_old in Hr; [done|lia]].
Qed.

Lemma image_ok_app items items' l recs :
  l ≤ zlen items → image_ok items l recs → image_ok (items ++ items') l recs.
Proof.
  intros Hl [H1 H2]. split.
  - intros r Hr. destruct (H1 r Hr) as [? ?]. split; [|done]. by apply versions_app; left.
  - intros r Hr Hrl. apply H2; [|done]. apply versions_app_old in Hr; [done|lia].
Qed.

(** One more item, as replay and append apply it to the memtable. *)
Lemma mem_ok_wal items hw m b : mem_ok items hw m → mem_ok (items ++ [Wal b]) hw m.
Proof.
  intros Hm id l img. rewrite (Hm id l img), versions_app. cbn [versions_from].
  rewrite elem_of_nil. tauto.
Qed.

Lemma mem_ok_page items hw m id img :
  hw ≤ zlen items → mem_ok items hw m →
  mem_ok (items ++ [PageItem id img]) hw (<[(id, zlen items + 1) := img]> m).
Proof.
  intros Hhw Hm id' l img'. rewrite versions_app. cbn [versions_from].
  rewrite list_elem_of_singleton.
  destruct (decide ((id, zlen items + 1) = (id', l))) as [[= <- <-]|Hne].
  - rewrite lookup_insert_eq. split.
    + intros [= <-]. split; [by right|lia].
    + intros [[Hin|Heq] _]; [|congruence]. apply versions_range in Hin. cbn in Hin. lia.
  - rewrite lookup_insert_ne by done. rewrite (Hm id' l img').
    split; [tauto|]. intros [[?|[= -> -> ->]] ?]; [done | by destruct Hne].
Qed.

Lemma mem_ok_page_old items hw m id img :
  zlen items + 1 ≤ hw → mem_ok items hw m → mem_ok (items ++ [PageItem id img]) hw m.
Proof.
  intros Hhw Hm id' l img'. rewrite (Hm id' l img'), versions_app. cbn [versions_from].
  rewrite list_elem_of_singleton. split; [tauto|].
  intros [[?|[= -> -> ->]] ?]; [done | lia].
Qed.

Lemma mem_ok_nil hw : mem_ok [] hw ∅.
Proof. intros id l img. cbn. rewrite lookup_empty, elem_of_nil. split; [done | tauto]. Qed.

(** Nothing of the memtable is lost when the mark moves over LSNs without versions. *)
Lemma mem_ok_empty_hw items hw hw' :
  mem_ok items hw ∅ → hw ≤ hw' → mem_ok items hw' ∅.
Proof.
  intros Hm Hle id l img. rewrite lookup_empty. split; [done|]. intros [Hin Hl].
  assert ((∅ : gmap (Z * Z) bytes) !! (id, l) = Some img) as E by (apply Hm; split; [done|lia]).
  by rewrite lookup_empty in E.
Qed.

(** ** Layers are small enough for their 32-bit counts *)

Lemma length_versions_from n items : (length (versions_from n items) ≤ length items)%nat.
Proof.
  revert n. induction items as [|[b|id img] items IH]; intros n; cbn [versions_from length];
    [done|specialize (IH (n + 1)); lia..].
Qed.

Lemma records_count items recs :
  NoDup recs → (∀ r, r ∈ recs → r ∈ versions items) → zlen recs ≤ zlen items.
Proof.
  intros Hnd Hin. pose proof (submseteq_length _ _ (NoDup_submseteq _ _ Hnd Hin)).
  pose proof (length_versions_from 1 items). unfold zlen, versions in *. lia.
Qed.

Lemma memtable_records_NoDup m : NoDup (memtable_records m).
Proof.
  unfold memtable_records. apply (NoDup_fmap_2_strong (λ e : Z * Z * bytes, _)).
  - intros [[a b] c] [[a' b'] c'] _ _ [= -> -> ->]. done.
  - unfold memtable_entries. rewrite merge_sort_Permutation. apply NoDup_map_to_list.
Qed.

Lemma merged_records_NoDup m : NoDup (merged_records m).
Proof.
  unfold merged_records. apply (NoDup_fmap_2_strong (λ e : Z * (Z * bytes), _)).
  - intros [a [b c]] [a' [b' c']] _ _ [= -> -> ->]. done.
  - rewrite merge_sort_Permutation. apply NoDup_map_to_list.
Qed.

(** Both kinds of layer read back when their records are versions of a log within the bounds. *)
Lemma layer_decodes magic items recs :
  Forall item_ok items → zlen items < 2 ^ 32 → NoDup recs →
  (∀ r, r ∈ recs → r ∈ versions items) → decode_layer (encode_layer magic recs) magic = Ok recs.
Proof.
  intros Hok Hn Hnd Hin. apply decode_layer_encode.
  - apply Forall_forall. intros r Hr. apply (versions_record_ok items); [done|lia|auto].
  - pose proof (records_count _ _ Hnd Hin). pose proof (zlen_nonneg recs). unfold is_u32. lia.
Qed.

End Versions.
