(* ===== verification/ObjInv.v ===== *)
(** * What the bucket holds and how a live handle relates to it

    [Bucket p c segs]: the objects of [c] under the database prefix [p] are a commit log of the
    segments [segs], layers that agree with it, and nothing else of those kinds.  [Live s segs]:
    the locked state of a handle is what that log says.  The lemmas give what each call on the
    object client does to a handle, under the laws of [ObjectStoreLaws]. *)

From S2P Require Import Prelude Text StorageTypes ObjCodec ObjStore ObjStorage ObjVersions.

Module ObjInv.
Import Codec Obj ObjKeys Versions.

(** ** The bucket *)

Definition seg_ok (seg : list LogItem) : Prop := Forall item_ok seg.

Record segs_ok (segs : list (list LogItem)) : Prop := {
  so_items : Forall item_ok (concat segs);
  so_count : zlen (concat segs) < 2 ^ 32;
  so_segs : zlen segs < 2 ^ 32
}.

Definition log_ok (p : string) (c : gmap string bytes) (segs : list (list LogItem)) : Prop :=
  ∀ k b, of_kind p KLog k →
    c !! k = Some b ↔
    ∃ (i : nat) seg, segs !! i = Some seg ∧ k = log_key p (Z.of_nat i + 1) ∧ b = encode_segment seg.

(** The number in the retention marker and in the lease, 0 when absent. *)
Definition floor_of (p : string) (c : gmap string bytes) : Z :=
  match c !! retention_key p with Some b => lease_epoch b | None => 0 end.
Definition epoch_of (p : string) (c : gmap string bytes) : Z :=
  match c !! lease_key p with Some b => lease_epoch b | None => 0 end.

Definition delta_obj (p : string) (c : gmap string bytes) (items : list LogItem) (lo hi : Z)
    : Prop :=
  is_u64 lo ∧ is_u64 hi ∧ hi ≤ zlen items ∧
  ∃ b recs, c !! delta_key p lo hi = Some b ∧ decode_delta b = Ok recs ∧ delta_ok items lo hi recs.

Definition image_obj (p : string) (c : gmap string bytes) (items : list LogItem) (l : Z) : Prop :=
  is_u64 l ∧ l ≤ floor_of p c ∧ l ≤ zlen items ∧
  ∃ b recs, c !! image_key p l = Some b ∧ decode_image b = Ok recs ∧ image_ok items l recs.

(** A delta layer of the bucket spans [l]; some layer reaches up to [l]. *)
Definition in_delta (p : string) (c : gmap string bytes) (items : list LogItem) (l : Z) : Prop :=
  ∃ lo hi, delta_obj p c items lo hi ∧ lo ≤ l ≤ hi.
Definition reached (p : string) (c : gmap string bytes) (items : list LogItem) (l : Z) : Prop :=
  (∃ lo hi, delta_obj p c items lo hi ∧ l ≤ hi) ∨ (∃ i, image_obj p c items i ∧ l ≤ i).

(** Every version below the top of a layer is in a delta or below an image, and above the bottom
    of a delta it is in a delta. *)
Record Bucket (p : string) (c : gmap string bytes) (segs : list (list LogItem)) : Prop := {
  bk_segs : segs_ok segs;
  bk_log : log_ok p c segs;
  bk_delta k : of_kind p KDelta k → is_Some (c !! k) →
    ∃ lo hi, k = delta_key p lo hi ∧ delta_obj p c (concat segs) lo hi;
  bk_image k : of_kind p KImage k → is_Some (c !! k) →
    ∃ l, k = image_key p l ∧ image_obj p c (concat segs) l;
  bk_cover r : r ∈ versions (concat segs) → reached p c (concat segs) (rec_lsn r) →
    in_delta p c (concat segs) (rec_lsn r) ∨ (∃ i, image_obj p c (concat segs) i ∧ rec_lsn r ≤ i);
  bk_up lo hi r : delta_obj p c (concat segs) lo hi → r ∈ versions (concat segs) →
    lo ≤ rec_lsn r → reached p c (concat segs) (rec_lsn r) → in_delta p c (concat segs) (rec_lsn r)
}.

(** The last LSN of the last segment with a WAL record. *)
Definition is_wal (i : LogItem) : bool := match i with Wal _ => true | PageItem _ _ => false end.
Fixpoint commit_from (n c : Z) (segs : list (list LogItem)) : Z :=
  match segs with
  | [] => c
  | seg :: segs =>
      commit_from (n + zlen seg) (if existsb is_wal seg then n + zlen seg else c) segs
  end.
Definition commit_of (segs : list (list LogItem)) : Z := commit_from 0 0 segs.

(** ** The live handle *)

(** [recs] is what a layer named [k] holds. *)
Definition layer_holds (p : string) (items : list LogItem) (k : string) (recs : list PageRecord)
    : Prop :=
  (∃ lo hi, k = delta_key p lo hi ∧ is_u64 lo ∧ is_u64 hi ∧ hi ≤ zlen items ∧
            delta_ok items lo hi recs) ∨
  (∃ l, k = image_key p l ∧ is_u64 l ∧ l ≤ zlen items ∧ image_ok items l recs).

Definition cache_ok (p : string) (items : list LogItem) (ca : gmap string (list PageRecord)) : Prop :=
  ∀ k recs, ca !! k = Some recs → layer_holds p items k recs.

(** [k] names a layer object of the bucket. *)
Definition layer_obj (p : string) (c : gmap string bytes) (items : list LogItem) (k : string)
    : Prop :=
  (∃ lo hi, k = delta_key p lo hi ∧ delta_obj p c items lo hi) ∨
  (∃ l, k = image_key p l ∧ image_obj p c items l).

(** The layers in the live set agree with the log; together with the memtable they hold every
    version a read can ask for. *)
Record Layers (p : string) (c : gmap string bytes) (items : list LogItem) (g : Inner) : Prop := {
  ly_delta d : d ∈ deltas g →
    d_key d = delta_key p (d_lo d) (d_hi d) ∧ delta_obj p c items (d_lo d) (d_hi d) ∧
    d_hi d ≤ flushed_hw g;
  ly_image i : image g = Some i →
    i_key i = image_key p (image_lsn i) ∧ image_obj p c items (image_lsn i) ∧
    ∀ r, r ∈ versions items → rec_lsn r ≤ image_lsn i → rec_lsn r ≤ flushed_hw g;
  ly_cover r : r ∈ versions items → rec_lsn r ≤ flushed_hw g →
    (∃ d, d ∈ deltas g ∧ d_lo d ≤ rec_lsn r ≤ d_hi d) ∨
    (∃ i, image g = Some i ∧ rec_lsn r ≤ image_lsn i);
  ly_up d r : d ∈ deltas g → r ∈ versions items → d_lo d ≤ rec_lsn r ≤ flushed_hw g →
    ∃ d', d' ∈ deltas g ∧ d_lo d' ≤ rec_lsn r ≤ d_hi d';
  ly_hw : 0 ≤ flushed_hw g ≤ zlen items;
  ly_mem : mem_ok items (flushed_hw g) (memtable g)
}.

(** The counters of the locked state follow the log. *)
Record Counters (segs : list (list LogItem)) (g : Inner) : Prop := {
  ct_seq : next_seq g = zlen segs + 1;
  ct_next : next_lsn g = zlen (concat segs) + 1;
  ct_durable : durable_lsn g = zlen (concat segs);
  ct_commit : commit_lsn g = commit_of segs
}.

(** The branch pointers of the bucket are those of [m], all forked off the root line.  Objects
    of an overlay live under the same prefix; none of them may look like a pointer. *)
Record Branches (p : string) (c : gmap string bytes) (m : gmap Z BranchRef) : Prop := {
  br_obj id b : m !! id = Some b →
    is_u64 id ∧ is_u64 (br_base_lsn b) ∧
    b = mkBranch id BranchId_ROOT (br_base_lsn b) (br_base_lsn b) ∧
    c !! branch_key p id = Some (branch_payload id (br_base_lsn b) BranchId_ROOT);
  br_ptr k : of_kind p KBranch k → ends_with ".ptr" k = true → is_Some (c !! k) →
    ∃ id, is_Some (m !! id) ∧ k = branch_key p id
}.

(** ** Segments of a log *)

Lemma concat_snoc {A} (segs : list (list A)) seg : concat (segs ++ [seg]) = concat segs ++ seg.
Proof. by rewrite concat_app, concat_cons, app_nil_r. Qed.

Lemma commit_from_app n c segs seg :
  commit_from n c (segs ++ [seg]) =
  if existsb is_wal seg then n + zlen (concat segs) + zlen seg else commit_from n c segs.
Proof.
  revert n c. induction segs as [|s segs IH]; intros n c; cbn [app commit_from concat].
  - rewrite zlen_nil, Z.add_0_r. done.
  - rewrite IH. by rewrite zlen_app, !Z.add_assoc.
Qed.

Lemma commit_of_snoc segs seg :
  commit_of (segs ++ [seg]) =
  if existsb is_wal seg then zlen (concat (segs ++ [seg])) else commit_of segs.
Proof. unfold commit_of. rewrite commit_from_app, concat_snoc, zlen_app. done. Qed.

(** The names of the segments, and the objects under them. *)
Lemma log_ok_keys p c segs k :
  log_ok p c segs → of_kind p KLog k →
  is_Some (c !! k) ↔ ∃ i, 1 ≤ i ≤ zlen segs ∧ k = log_key p i.
Proof.
  intros Hlog Hk. split.
  - intros [b (i & seg & Hi & -> & _)%(Hlog k b Hk)]. exists (Z.of_nat i + 1). split; [|done].
    apply lookup_lt_Some in Hi. unfold zlen. lia.
  - intros (i & Hi & ->). destruct (lookup_lt_is_Some_2 segs (Z.to_nat (i - 1))) as [seg Hseg].
    { unfold zlen in Hi. lia. }
    exists (encode_segment seg). apply Hlog; [done|]. exists (Z.to_nat (i - 1)), seg.
    split_and!; [done| |done]. f_equal. lia.
Qed.

Lemma log_ok_lookup p c segs i seg :
  log_ok p c segs → segs !! i = Some seg →
  c !! log_key p (Z.of_nat i + 1) = Some (encode_segment seg).
Proof. intros Hlog Hi. apply Hlog; [apply log_kind|]. by exists i, seg. Qed.

Lemma log_ok_next p c segs : log_ok p c segs → zlen segs < 2 ^ 32 → c !! log_key p (zlen segs + 1) = None.
Proof.
  intros Hlog Hn. apply eq_None_not_Some. intros H%(log_ok_keys p c segs); [|done|apply log_kind].
  destruct H as (i & Hi & E%log_key_inj); [lia|unfold is_u64..]; pose proof (zlen_nonneg segs); lia.
Qed.

Lemma log_ok_snoc p c segs seg :
  zlen segs < 2 ^ 32 → log_ok p c segs →
  log_ok p (<[log_key p (zlen segs + 1) := encode_segment seg]> c) (segs ++ [seg]).
Proof.
  intros Hn Hlog k b Hk.
  destruct (decide (k = log_key p (zlen segs + 1))) as [->|Hne].
  - rewrite lookup_insert_eq. split.
    + intros [= <-]. exists (length segs), seg. split_and!; [|done..].
      by rewrite lookup_app_r, Nat.sub_diag by lia.
    + intros (i & seg' & Hi & E & ->).
      assert (i < length (segs ++ [seg]))%nat as Hlt by (by eapply lookup_lt_Some).
      rewrite length_app in Hlt. cbn in Hlt.
      apply log_key_inj in E; [|unfold is_u64, zlen in *; lia..]. unfold zlen in E.
      assert (i = length segs) as -> by lia.
      rewrite lookup_app_r, Nat.sub_diag in Hi by lia. by injection Hi as ->.
  - rewrite lookup_insert_ne, (Hlog k b Hk) by done. split; intros (i & seg' & Hi & -> & ->).
    + exists i, seg'. split_and!; [|done..]. by apply lookup_app_l_Some.
    + exists i, seg'. split_and!; [|done..].
      apply lookup_app_Some in Hi as [?|[Hge Hi]]; [done|]. exfalso. apply Hne.
      destruct (i - length segs)%nat eqn:E; [|done]. f_equal. unfold zlen. lia.
Qed.

(** ** Objects of other kinds do not matter *)

(** [c'] agrees with [c] on the objects of kind [K]. *)
Definition agree (p : string) (K : Kind) (c c' : gmap string bytes) : Prop :=
  ∀ k, of_kind p K k → c' !! k = c !! k.

Lemma agree_insert p K K' c k b : of_kind p K' k → K ≠ K' → agree p K c (<[k := b]> c).
Proof.
  intros Hk Hne k' Hk'. apply lookup_insert_ne. intros ->. by apply Hne, (of_kind_disjoint p K K' k').
Qed.

Lemma agree_delete p K K' c k : of_kind p K' k → K ≠ K' → agree p K c (delete k c).
Proof.
  intros Hk Hne k' Hk'. apply lookup_delete_ne. intros ->. by apply Hne, (of_kind_disjoint p K K' k').
Qed.

Lemma log_ok_agree p c c' segs : agree p KLog c c' → log_ok p c segs → log_ok p c' segs.
Proof. intros Ha Hl k b Hk. by rewrite (Ha k Hk), (Hl k b Hk). Qed.

Lemma floor_of_agree p c c' : agree p KRetention c c' → floor_of p c' = floor_of p c.
Proof. intros Ha. unfold floor_of. by rewrite Ha by apply retention_kind. Qed.

Lemma epoch_of_agree p c c' : agree p KLease c c' → epoch_of p c' = epoch_of p c.
Proof. intros Ha. unfold epoch_of. by rewrite Ha by apply lease_kind. Qed.

Lemma lease_epoch_range b : is_u64 (lease_epoch b).
Proof.
  unfold lease_epoch. destruct (Z.ltb_spec (zlen b) 8); [unfold is_u64; lia|].
  apply from_le_bound8. unfold zlen in *. rewrite length_take. lia.
Qed.

Lemma lease_epoch_u64 z rest : is_u64 z → lease_epoch (u64_le z ++ rest) = z.
Proof.
  intros Hz. unfold lease_epoch. rewrite zlen_app, zlen_u64. pose proof (zlen_nonneg rest).
  destruct (Z.ltb_spec (8 + zlen rest) 8); [lia|].
  rewrite <- (length_le_split 8 z), take_app_length. by apply from_le_u64.
Qed.

Lemma floor_of_range p c : is_u64 (floor_of p c).
Proof. unfold floor_of. case_match; [apply lease_epoch_range | unfold is_u64; lia]. Qed.

(** Layer objects survive every change that keeps them and does not lower the floor. *)
Lemma delta_obj_keep p c c' items items' lo hi :
  c' !! delta_key p lo hi = c !! delta_key p lo hi →
  delta_obj p c items lo hi → delta_obj p c' (items ++ items') lo hi.
Proof.
  intros Hc (H1 & H2 & H3 & b & recs & H4 & H5 & H6). split_and!; [done..|len|].
  exists b, recs. split_and!; [congruence | done | by apply delta_ok_app].
Qed.

Lemma image_obj_keep p c c' items items' l :
  c' !! image_key p l = c !! image_key p l → floor_of p c ≤ floor_of p c' →
  image_obj p c items l → image_obj p c' (items ++ items') l.
Proof.
  intros Hc Hf (H1 & H2 & H3 & b & recs & H4 & H5 & H6). split_and!; [done|lia|len|].
  exists b, recs. split_and!; [congruence | done | by apply image_ok_app].
Qed.

Lemma delta_obj_exists p c items lo hi : delta_obj p c items lo hi → is_Some (c !! delta_key p lo hi).
Proof. intros (_ & _ & _ & b & recs & Hb & _). by exists b. Qed.

Lemma image_obj_exists p c items l : image_obj p c items l → is_Some (c !! image_key p l).
Proof. intros (_ & _ & _ & b & recs & Hb & _). by exists b. Qed.

(** Back from a bucket with the same layer objects. *)
Lemma Bucket_layers_back p c c' segs segs' :
  agree p KDelta c c' → agree p KImage c c' → Bucket p c segs →
  (∀ lo hi, delta_obj p c' (concat segs') lo hi → delta_obj p c (concat segs) lo hi) ∧
  (∀ l, image_obj p c' (concat segs') l → image_obj p c (concat segs) l).
Proof.
  intros Hd Hi HB. split.
  - intros lo hi Ho.
    destruct (bk_delta p c segs HB (delta_key p lo hi)) as (lo' & hi' & E & Ho');
      [apply delta_kind | rewrite <- (Hd _ (delta_kind p lo hi)); by apply delta_obj_exists in Ho |].
    by apply delta_key_inj in E as [<- <-]; [|apply Ho|apply Ho|apply Ho'|apply Ho'].
  - intros l Ho.
    destruct (bk_image p c segs HB (image_key p l)) as (l' & E & Ho');
      [apply image_kind | rewrite <- (Hi _ (image_kind p l)); by apply image_obj_exists in Ho |].
    by apply image_key_inj in E as <-; [|apply Ho|apply Ho'].
Qed.

Lemma reached_bound p c items l : reached p c items l → l ≤ zlen items.
Proof. intros [(lo & hi & (_ & _ & H & _) & Hl)|(i & (_ & _ & H & _) & Hl)]; lia. Qed.

(** The bucket stays a bucket when the log grows and no layer object changes. *)
Lemma Bucket_extend p c c' segs segs' items' :
  agree p KDelta c c' → agree p KImage c c' → floor_of p c ≤ floor_of p c' →
  concat segs' = concat segs ++ items' → segs_ok segs' → log_ok p c' segs' →
  Bucket p c segs → Bucket p c' segs'.
Proof.
  intros Hd Hi Hf Hsegs Hok Hlog HB.
  assert (∀ lo hi, delta_obj p c (concat segs) lo hi → delta_obj p c' (concat segs') lo hi) as HD.
  { intros lo hi. rewrite Hsegs. apply delta_obj_keep, Hd, delta_kind. }
  assert (∀ l, image_obj p c (concat segs) l → image_obj p c' (concat segs') l) as HI.
  { intros l. rewrite Hsegs. apply image_obj_keep; [apply Hi, image_kind | done]. }
  destruct (Bucket_layers_back p c c' segs segs' Hd Hi HB) as [HD' HI'].
  assert (∀ l, reached p c' (concat segs') l → reached p c (concat segs) l) as HR.
  { intros l [(lo & hi & H1 & H2)|(i & H1 & H2)]; [left|right]; eauto 6. }
  assert (∀ r, r ∈ versions (concat segs') → reached p c' (concat segs') (rec_lsn r) →
            r ∈ versions (concat segs)) as HV.
  { intros r Hr Hre%HR%reached_bound. rewrite Hsegs in Hr. by apply versions_app_old in Hr. }
  split; [done..| | | |].
  - intros k Hk. rewrite (Hd k Hk). intros (lo & hi & -> & Ho)%(bk_delta p c segs HB k Hk). eauto.
  - intros k Hk. rewrite (Hi k Hk). intros (l & -> & Ho)%(bk_image p c segs HB k Hk). eauto.
  - intros r Hr Hre. destruct (bk_cover p c segs HB r) as [(lo & hi & H1 & H2)|(i & H1 & H2)]; [auto..| |];
      [left; exists lo, hi | right]; eauto.
  - intros lo hi r Ho Hr Hlo Hre. destruct (bk_up p c segs HB lo hi r) as (lo' & hi' & H1 & H2); [auto..|].
    exists lo', hi'. eauto.
Qed.

(** A change outside log, layers and the retention marker. *)
Lemma Bucket_agree p c c' segs :
  agree p KDelta c c' → agree p KImage c c' → agree p KLog c c' → floor_of p c ≤ floor_of p c' →
  Bucket p c segs → Bucket p c' segs.
Proof.
  intros Hd Hi Hl Hf HB. apply (Bucket_extend p c c' segs segs []); try done.
  - by rewrite app_nil_r.
  - apply (bk_segs _ _ _ HB).
  - by apply (log_ok_agree p c), (bk_log _ _ _ HB).
Qed.

Lemma Layers_extend p c c' items items' g g' :
  agree p KDelta c c' → agree p KImage c c' → floor_of p c ≤ floor_of p c' →
  deltas g' = deltas g → image g' = image g → flushed_hw g' = flushed_hw g →
  mem_ok (items ++ items') (flushed_hw g) (memtable g') →
  Layers p c items g → Layers p c' (items ++ items') g'.
Proof.
  intros Hd Hi Hf E1 E2 E3 Hm HL. pose proof (ly_hw _ _ _ _ HL) as Hhw.
  assert (∀ r l, r ∈ versions (items ++ items') → rec_lsn r ≤ l → l ≤ zlen items →
            r ∈ versions items) as HV.
  { intros r l Hr H1 H2. apply versions_app_old in Hr; [done|lia]. }
  split; rewrite ?E1, ?E2, ?E3.
  - intros d Hin. destruct (ly_delta _ _ _ _ HL d Hin) as (? & ? & ?). split_and!; [done| |done].
    eapply delta_obj_keep; [apply Hd, delta_kind | done].
  - intros i Hin. destruct (ly_image _ _ _ _ HL i Hin) as (? & Ho & Hr). split_and!; [done| |].
    + eapply image_obj_keep; [apply Hi, image_kind | done..].
    + intros r Hv Hl. apply Hr; [|done]. eapply HV; [done..|]. apply Ho.
  - intros r Hr Hl. apply (ly_cover _ _ _ _ HL); [|done]. eapply HV; [done..|lia].
  - intros d r Hin Hr Hl. apply (ly_up _ _ _ _ HL d); [done| |done].
    apply (HV r (flushed_hw g)); [done|lia|lia].
  - len.
  - done.
Qed.

Lemma Layers_agree p c c' items g g' :
  agree p KDelta c c' → agree p KImage c c' → floor_of p c ≤ floor_of p c' →
  deltas g' = deltas g → image g' = image g → flushed_hw g' = flushed_hw g →
  memtable g' = memtable g → Layers p c items g → Layers p c' items g'.
Proof.
  intros Hd Hi Hf E1 E2 E3 E4 HL. rewrite <- (app_nil_r items).
  apply (Layers_extend p c c' items [] g); try done.
  rewrite app_nil_r, E4. apply (ly_mem _ _ _ _ HL).
Qed.

(** ** Writing a layer object *)

(** Facts about the bucket with one more object of a kind that is not the retention marker. *)
Lemma obj_insert_new p K c k b items :
  of_kind p K k → c !! k = None → K ≠ KRetention →
  (∀ lo hi, delta_obj p c items lo hi → delta_obj p (<[k := b]> c) items lo hi) ∧
  (∀ l, image_obj p c items l → image_obj p (<[k := b]> c) items l).
Proof.
  intros Hk Hn HK. assert (∀ k', is_Some (c !! k') → <[k := b]> c !! k' = c !! k') as Hsame.
  { intros k' Hs. apply lookup_insert_ne. intros <-. rewrite Hn in Hs. by destruct Hs. }
  split.
  - intros lo hi Ho. rewrite <- (app_nil_r items).
    apply (delta_obj_keep p c); [|done]. by apply Hsame, (delta_obj_exists _ _ _ _ _ Ho).
  - intros l Ho. rewrite <- (app_nil_r items). apply (image_obj_keep p c); [| |done].
    + by apply Hsame, (image_obj_exists _ _ _ _ Ho).
    + by rewrite (floor_of_agree p c (<[k := b]> c)) by (apply (agree_insert p _ K); naive_solver).
Qed.

Lemma Layers_objects p c c' items g :
  (∀ lo hi, delta_obj p c items lo hi → delta_obj p c' items lo hi) →
  (∀ l, image_obj p c items l → image_obj p c' items l) →
  Layers p c items g → Layers p c' items g.
Proof.
  intros HD HI [H1 H2 H3 H4 H5 H6]. split; [| |done..].
  - intros d Hd. destruct (H1 d Hd) as (? & ? & ?). auto.
  - intros i Hi. destruct (H2 i Hi) as (? & ? & ?). auto.
Qed.

(** A bucket whose only layers are the live ones. *)
Lemma Layers_Bucket p c segs g :
  segs_ok segs → log_ok p c segs → Layers p c (concat segs) g →
  (∀ k, of_kind p KDelta k → is_Some (c !! k) → ∃ d, d ∈ deltas g ∧ k = d_key d) →
  (∀ k, of_kind p KImage k → is_Some (c !! k) → ∃ i, image g = Some i ∧ k = i_key i) →
  Bucket p c segs.
Proof.
  intros Hok Hlog HL Hd Hi. pose proof HL as [L1 L2 L3 L4 L5 L6].
  assert (∀ lo hi, delta_obj p c (concat segs) lo hi →
            ∃ d, d ∈ deltas g ∧ d_lo d = lo ∧ d_hi d = hi) as HD.
  { intros lo hi Ho. destruct (Hd _ (delta_kind p lo hi) (delta_obj_exists _ _ _ _ _ Ho)) as (d & Hin & E).
    destruct (L1 d Hin) as (Hk & Ho' & _). rewrite Hk in E.
    apply delta_key_inj in E as [-> ->]; [|apply Ho|apply Ho|apply Ho'|apply Ho']. eauto. }
  assert (∀ r, r ∈ versions (concat segs) → reached p c (concat segs) (rec_lsn r) →
            rec_lsn r ≤ flushed_hw g) as Hhw.
  { intros r Hr [(lo & hi & (d & Hin & <- & <-)%HD & ?)|(l & Ho & Hl)].
    - destruct (L1 d Hin) as (_ & _ & ?). lia.
    - destruct (Hi _ (image_kind p l) (image_obj_exists _ _ _ _ Ho)) as (i & Hin & E).
      destruct (L2 i Hin) as (Hk & Ho' & Hle). rewrite Hk in E.
      apply image_key_inj in E as ->; [|apply Ho|apply Ho']. auto. }
  split; [done..| | | |].
  - intros k Hk Hs. destruct (Hd k Hk Hs) as (d & Hin & ->). destruct (L1 d Hin) as (-> & ? & _). eauto.
  - intros k Hk Hs. destruct (Hi k Hk Hs) as (i & Hin & ->). destruct (L2 i Hin) as (-> & ? & _). eauto.
  - intros r Hr Hre. destruct (L3 r Hr (Hhw r Hr Hre)) as [(d & Hin & ?)|(i & Hin & ?)].
    + left. exists (d_lo d), (d_hi d). destruct (L1 d Hin) as (_ & ? & _). auto.
    + right. destruct (L2 i Hin) as (_ & ? & _). eauto.
  - intros lo hi r (d & Hin & <- & <-)%HD Hr Hlo Hre.
    destruct (L4 d r Hin Hr) as (d' & Hin' & ?); [split; auto|].
    exists (d_lo d'), (d_hi d'). destruct (L1 d' Hin') as (_ & ? & _). auto.
Qed.

(** The object of a flush. *)
Lemma flush_delta_obj p c segs g :
  segs_ok segs → Layers p c (concat segs) g → memtable g ≠ ∅ →
  delta_obj p (<[delta_key p (flushed_hw g + 1) (zlen (concat segs)) :=
    encode_delta (memtable_records (memtable g))]> c) (concat segs)
    (flushed_hw g + 1) (zlen (concat segs)).
Proof.
  intros [Hok Hn _] HL Hne. pose proof (ly_hw _ _ _ _ HL) as Hhw.
  pose proof (memtable_delta_ok _ _ _ (ly_mem _ _ _ _ HL)) as Hd.
  assert (flushed_hw g < zlen (concat segs)).
  { apply map_choose in Hne as ([id l] & img & Hm).
    apply (ly_mem _ _ _ _ HL) in Hm as [Hv ?]. apply versions_range in Hv. cbn in Hv. lia. }
  split_and!; [unfold is_u64; lia.. | done |].
  exists (encode_delta (memtable_records (memtable g))), (memtable_records (memtable g)).
  split_and!; [apply lookup_insert_eq | | done].
  apply (layer_decodes _ (concat segs)); [done..|apply memtable_records_NoDup|].
  intros r Hr. by apply Hd in Hr as [? _].
Qed.

(** The locked state after a successful flush. *)
Definition flushed (key : string) (g : Inner) : Inner :=
  set_memtable ∅ 0 (set_flushed_hw (durable_lsn g)
    (set_deltas (deltas g ++ [mkDelta (flushed_hw g + 1) (durable_lsn g) key]) g)).

Lemma Layers_flushed p c items g :
  durable_lsn g = zlen items → Layers p c items g →
  delta_obj p c items (flushed_hw g + 1) (zlen items) →
  Layers p c items (flushed (delta_key p (flushed_hw g + 1) (zlen items)) g).
Proof.
  intros Hdl [L1 L2 L3 L4 L5 L6] Hnew. unfold flushed. rewrite Hdl.
  set (d0 := mkDelta _ _ _).
  assert (∀ r, r ∈ versions items → flushed_hw g < rec_lsn r →
    ∃ d, d ∈ deltas g ++ [d0] ∧ d_lo d ≤ rec_lsn r ≤ d_hi d) as Hhigh.
  { intros r Hr%versions_range Hlt. exists d0. split; [|cbn; lia].
    apply elem_of_app. right. by apply list_elem_of_singleton. }
  assert (∀ r, (∃ d, d ∈ deltas g ∧ d_lo d ≤ rec_lsn r ≤ d_hi d) →
    ∃ d, d ∈ deltas g ++ [d0] ∧ d_lo d ≤ rec_lsn r ≤ d_hi d) as Hold.
  { intros r (d & Hd & ?). exists d. split; [apply elem_of_app; by left | done]. }
  split; cbn.
  - intros d [Hd|Hd%list_elem_of_singleton]%elem_of_app; [|by subst d].
    destruct (L1 d Hd) as (? & ? & ?). split_and!; [done..|lia].
  - intros i Hi. destruct (L2 i Hi) as (? & ? & _). split_and!; [done..|].
    intros r Hr%versions_range _. lia.
  - intros r Hr _. destruct (Z.lt_ge_cases (flushed_hw g) (rec_lsn r)); [by left; apply Hhigh|].
    destruct (L3 r Hr) as [?|?]; [done|left; by apply Hold|by right].
  - intros d r Hd Hr Hlo. destruct (Z.lt_ge_cases (flushed_hw g) (rec_lsn r)); [by apply Hhigh|].
    apply elem_of_app in Hd as [Hd|Hd%list_elem_of_singleton]; [|subst d; cbn in Hlo; lia].
    apply Hold, (L4 d); [done..|lia].
  - lia.
  - intros id l img. rewrite lookup_empty. split; [done|].
    intros [Hr%versions_range ?]. cbn in Hr. lia.
Qed.

(** Layer objects may be added: what was flushed stays covered by the live layers, and new
    delta layers lie above it. *)
Lemma Bucket_relayer p c c' segs g :
  Bucket p c segs → Layers p c (concat segs) g → agree p KLog c c' →
  (∀ lo hi, delta_obj p c (concat segs) lo hi → delta_obj p c' (concat segs) lo hi) →
  (∀ l, image_obj p c (concat segs) l → image_obj p c' (concat segs) l) →
  (∀ k, of_kind p KDelta k → is_Some (c' !! k) →
     ∃ lo hi, k = delta_key p lo hi ∧ delta_obj p c' (concat segs) lo hi ∧
       (delta_obj p c (concat segs) lo hi ∨ flushed_hw g < lo)) →
  (∀ k, of_kind p KImage k → is_Some (c' !! k) →
     ∃ l, k = image_key p l ∧ image_obj p c' (concat segs) l) →
  (∀ r, r ∈ versions (concat segs) → flushed_hw g < rec_lsn r →
     in_delta p c' (concat segs) (rec_lsn r)) →
  Bucket p c' segs.
Proof.
  intros HB HL Hlog HD HI Hkd Hki Hhigh.
  assert (∀ r, r ∈ versions (concat segs) → rec_lsn r ≤ flushed_hw g →
            reached p c (concat segs) (rec_lsn r)) as Hlow.
  { intros r Hr Hle. destruct (ly_cover _ _ _ _ HL r Hr Hle) as [(d & Hd & ?)|(i & Hi & ?)].
    - destruct (ly_delta _ _ _ _ HL d Hd) as (_ & ? & _). left. exists (d_lo d), (d_hi d). split; [done|lia].
    - destruct (ly_image _ _ _ _ HL i Hi) as (_ & ? & _). right. eauto. }
  assert (∀ l, in_delta p c (concat segs) l → in_delta p c' (concat segs) l) as Hin.
  { intros l (lo & hi & ? & ?). exists lo, hi. auto. }
  split.
  - apply (bk_segs _ _ _ HB).
  - by apply (log_ok_agree p c), (bk_log _ _ _ HB).
  - intros k Hk Hs. destruct (Hkd k Hk Hs) as (lo & hi & ? & ? & _). eauto.
  - done.
  - intros r Hr _. destruct (Z.lt_ge_cases (flushed_hw g) (rec_lsn r)) as [|Hle]; [by left; apply Hhigh|].
    destruct (bk_cover _ _ _ HB r Hr (Hlow r Hr Hle)) as [?|(i & ? & ?)]; [by left; apply Hin|right; eauto].
  - intros lo hi r Ho Hr Hlo _.
    destruct (Z.lt_ge_cases (flushed_hw g) (rec_lsn r)) as [|Hle]; [by apply Hhigh|].
    destruct (Hkd _ (delta_kind p lo hi) (delta_obj_exists _ _ _ _ _ Ho)) as (lo' & hi' & E & Ho' & Hor).
    apply delta_key_inj in E as [<- <-]; [|apply Ho|apply Ho|apply Ho'|apply Ho'].
    destruct Hor as [Hor|?]; [|lia]. by apply Hin, (bk_up _ _ _ HB lo hi); [| | |apply Hlow].
Qed.

Lemma Bucket_flush p c segs g :
  Bucket p c segs → Layers p c (concat segs) g → memtable g ≠ ∅ →
  c !! delta_key p (flushed_hw g + 1) (zlen (concat segs)) = None →
  Bucket p (<[delta_key p (flushed_hw g + 1) (zlen (concat segs)) :=
    encode_delta (memtable_records (memtable g))]> c) segs.
Proof.
  intros HB HL Hne Hnone. pose proof (flush_delta_obj _ _ _ _ (bk_segs _ _ _ HB) HL Hne) as Hnew.
  destruct (obj_insert_new p KDelta c _ (encode_delta (memtable_records (memtable g))) (concat segs)
    (delta_kind p (flushed_hw g + 1) (zlen (concat segs))) Hnone ltac:(done)) as [HD HI].
  apply (Bucket_relayer p c _ segs g); [done|done| |done|done| | |].
  - by apply (agree_insert p _ KDelta); [apply delta_kind|].
  - intros k Hk Hs.
    destruct (decide (k = delta_key p (flushed_hw g + 1) (zlen (concat segs)))) as [->|Hk'].
    + do 2 eexists. split_and!; [done..|]. right. lia.
    + rewrite lookup_insert_ne in Hs by done.
      destruct (bk_delta _ _ _ HB k Hk Hs) as (lo & hi & -> & ?). exists lo, hi. auto.
  - intros k Hk Hs. rewrite (agree_insert p KImage KDelta) in Hs by (done || apply delta_kind).
    destruct (bk_image _ _ _ HB k Hk Hs) as (l & -> & ?). eauto.
  - intros r Hr%versions_range Hlt. do 2 eexists. split; [exact Hnew | lia].
Qed.

Lemma layer_holds_delta p items lo hi recs :
  is_u64 lo → is_u64 hi → layer_holds p items (delta_key p lo hi) recs → delta_ok items lo hi recs.
Proof.
  intros Hlo Hhi [(lo' & hi' & E & H1 & H2 & _ & H4)|(l & E & _)].
  - by apply delta_key_inj in E as [-> ->].
  - by destruct (kind_ne p KDelta KImage _ _ (delta_kind p lo hi) (image_kind p l)).
Qed.

Lemma layer_holds_image p items l recs :
  is_u64 l → layer_holds p items (image_key p l) recs → image_ok items l recs.
Proof.
  intros Hl [(lo' & hi' & E & _)|(l' & E & H1 & _ & H3)].
  - by destruct (kind_ne p KImage KDelta _ _ (image_kind p l) (delta_kind p lo' hi')).
  - by apply image_key_inj in E as ->.
Qed.

Lemma cache_ok_app p items items' ca : cache_ok p items ca → cache_ok p (items ++ items') ca.
Proof.
  intros Hc k recs Hk. destruct (Hc k recs Hk) as [(lo & hi & -> & H1 & H2 & H3 & H4)|(l & -> & H1 & H2 & H3)].
  - left. exists lo, hi. split_and!; [done..|len|by apply delta_ok_app].
  - right. exists l. split_and!; [done..|len|by apply image_ok_app].
Qed.
End ObjInv.
