(* ===== verification/ObjLive.v ===== *)
(** * Calls on the object client, and reads of the page store

    What every call of the backend on a lawful object client does to the handle, and the theorem
    behind [get_page]: memtable, delta layers and image layer together answer a read with the
    greatest version of the log.  A call can only fail with [Transient], and only on a client
    that is not reliable. *)

From S2P Require Import Prelude Text StorageTypes ObjCodec ObjStore ObjStorage ObjVersions ObjInv.

Module ObjCalls.
Import Codec Obj ObjKeys Versions ObjInv.

Section Calls.
Context {St : Type} `{Laws : ObjectStoreLaws St}.

Abbreviation Handle := (ObjectStorage St).
Abbreviation bucket s := (contents (store s)).
Abbreviation unreliable := (¬ ReliableStore St).

(** The handle is the same but for the state of the client and the cache. *)
Record quiet (s s' : Handle) : Prop := {
  q_prefix : prefix s' = prefix s;
  q_config : config s' = config s;
  q_inner : inner s' = inner s;
  q_bucket : bucket s' = bucket s;
  q_tags k : tags (store s') k = tags (store s) k
}.

Lemma quiet_refl s : quiet s s.
Proof. by split. Qed.
Lemma quiet_trans s s' s'' : quiet s s' → quiet s' s'' → quiet s s''.
Proof. intros [] []. split; congruence. Qed.

(** One object was written, the locked state and the cache are untouched. *)
Record stored (k : string) (b : bytes) (s s' : Handle) : Prop := {
  st_prefix : prefix s' = prefix s;
  st_config : config s' = config s;
  st_inner : inner s' = inner s;
  st_cache : cache s' = cache s;
  st_bucket : bucket s' = <[k := b]> (bucket s)
}.

(** ** The bridges *)

Lemma obj_get_spec k (s s' : Handle) r :
  obj_get k s = (s', r) →
  quiet s s' ∧ cache s' = cache s ∧
  match r with
  | Ok None => bucket s !! k = None
  | Ok (Some g) => bucket s !! k = Some (gr_bytes g) ∧ tags (store s) k = Some (gr_etag g)
  | Err e => e = Transient ∧ unreliable
  end.
Proof.
  unfold obj_get, comp_map_err, on_store.
  destruct (get k (store s)) as [st r'] eqn:E. intros [= <- <-].
  pose proof (get_law _ _ _ _ E) as [[Hc Ht] Hr].
  split; [by split|]. split; [done|]. destruct r' as [[g|]|e]; cbn; [done..|].
  subst e. split; [done|]. intros HR. destruct (get_total k (store s)) as (? & ? & E'). congruence.
Qed.

Lemma obj_list_spec p (s s' : Handle) r :
  obj_list p s = (s', r) →
  quiet s s' ∧ cache s' = cache s ∧
  match r with
  | Ok ks => NoDup ks ∧ ∀ k, k ∈ ks ↔ starts_with p k = true ∧ is_Some (bucket s !! k)
  | Err e => e = Transient ∧ unreliable
  end.
Proof.
  unfold obj_list, comp_map_err, on_store.
  destruct (list_keys p (store s)) as [st r'] eqn:E. intros [= <- <-].
  pose proof (list_law _ _ _ _ E) as [[Hc Ht] Hr].
  split; [by split|]. split; [done|]. destruct r' as [ks|e]; cbn; [done|].
  subst e. split; [done|]. intros HR. destruct (list_total p (store s)) as (? & ? & E'). congruence.
Qed.

Lemma obj_put_if_absent_spec k b (s s' : Handle) r :
  obj_put_if_absent k b s = (s', r) →
  match r with
  | Ok _ => bucket s !! k = None ∧ stored k b s s'
  | Err Precondition => is_Some (bucket s !! k) ∧ quiet s s' ∧ cache s' = cache s
  | Err _ => unreliable ∧
      (quiet s s' ∧ cache s' = cache s ∨ (bucket s !! k = None ∧ stored k b s s'))
  end.
Proof.
  unfold obj_put_if_absent, on_store.
  destruct (put_if_absent k b (store s)) as [st r'] eqn:E. intros [= <- <-].
  pose proof (put_if_absent_law _ _ _ _ _ E) as Hr.
  assert (∀ e, r' = Err e → e ≠ Precondition → unreliable) as Hrel.
  { intros e -> Hne HR. destruct (put_if_absent_total k b (store s)) as (? & ? & E' & Hok).
    rewrite E in E'. simplify_eq. destruct Hok; naive_solver. }
  destruct r' as [t|[]]; cbn in *; repeat destruct_and?; repeat split; try done; try naive_solver.
  all: destruct Hr as [[? ?]|[? [? ?]]]; [left|right]; repeat split; done.
Qed.

Lemma obj_put_spec k b (s s' : Handle) r :
  obj_put k b s = (s', r) →
  match r with
  | Ok _ => stored k b s s'
  | Err e => e = Transient ∧ unreliable ∧ (quiet s s' ∧ cache s' = cache s ∨ stored k b s s')
  end.
Proof.
  unfold obj_put, comp_map_err, on_store.
  destruct (put k b (store s)) as [st r'] eqn:E. intros [= <- <-].
  pose proof (put_law _ _ _ _ _ E) as Hr. destruct r' as [t|e]; cbn in *.
  - destruct Hr. by split.
  - destruct Hr as [-> Hr]. split_and!; [done| |].
    + intros HR. destruct (put_total k b (store s)) as (? & ? & E'). congruence.
    + destruct Hr as [[? ?]|[? ?]]; [left|right]; repeat split; done.
Qed.

(** One object was removed. *)
Record erased (k : string) (s s' : Handle) : Prop := {
  er_prefix : prefix s' = prefix s;
  er_config : config s' = config s;
  er_inner : inner s' = inner s;
  er_cache : cache s' = cache s;
  er_bucket : bucket s' = delete k (bucket s)
}.

Lemma obj_delete_spec k (s s' : Handle) r :
  obj_delete k s = (s', r) →
  match r with
  | Ok _ => erased k s s'
  | Err e => e = Transient ∧ unreliable ∧ (quiet s s' ∧ cache s' = cache s ∨ erased k s s')
  end.
Proof.
  unfold obj_delete, comp_map_err, on_store.
  destruct (delete_obj k (store s)) as [st r'] eqn:E. intros [= <- <-].
  pose proof (delete_law _ _ _ _ E) as Hr. destruct r' as [t|e]; cbn in *.
  - destruct Hr. by split.
  - destruct Hr as [-> Hr]. split_and!; [done| |].
    + intros HR. destruct (delete_total k (store s)) as (? & E'). congruence.
    + destruct Hr as [[? ?]|[? ?]]; [left|right]; repeat split; done.
Qed.

(** ** Sequencing *)

Lemma comp_bind_inv {S E A B} (m : Comp S E A) (f : A → Comp S E B) s s' r :
  comp_bind m f s = (s', r) →
  (∃ s1 a, m s = (s1, Ok a) ∧ f a s1 = (s', r)) ∨ (∃ e, m s = (s', Err e) ∧ r = Err e).
Proof.
  unfold comp_bind. destruct (m s) as [s1 [a|e]]; intros H'; [left | right]; simplify_eq; eauto.
Qed.

Lemma ask_inv {A} (f : Handle → A) s s' r : ask f s = (s', r) → s' = s ∧ r = Ok (f s).
Proof. unfold ask. by intros [= <- <-]. Qed.

(** ** Loading a layer *)

Lemma load_layer_spec items k (s s' : Handle) r :
  kind_visible (prefix s) → cache_ok (prefix s) items (cache s) →
  layer_obj (prefix s) (bucket s) items k → load_layer k s = (s', r) →
  quiet s s' ∧ cache_ok (prefix s) items (cache s') ∧
  match r with
  | Ok recs => layer_holds (prefix s) items k recs
  | Err e => e = Transient ∧ unreliable
  end.
Proof.
  intros [Hvd Hvi] Hca Hl. unfold load_layer. destruct (cache s !! k) as [hit|] eqn:Hk.
  { intros [= <- <-]. split; [apply quiet_refl|]. eauto. }
  intros [(s1 & g & Hg & H2)|(e & Hg & ->)]%comp_bind_inv;
    apply obj_get_spec in Hg as (Hq & Hc1 & Hg); [|by rewrite Hc1].
  assert (∃ b recs, bucket s !! k = Some b ∧
    (if str_contains "/image/" k then decode_image b else decode_delta b) = Ok recs ∧
    layer_holds (prefix s) items k recs) as (b & recs & Hb & Hdec & Hh).
  { destruct Hl as [(lo & hi & -> & H1 & H3 & H4 & b & recs & H5 & H6 & H7)
                   |(l & -> & H1 & H3 & H4 & b & recs & H5 & H6 & H7)]; exists b, recs.
    - rewrite Hvd. split_and!; [done..|]. left. by exists lo, hi.
    - rewrite Hvi. split_and!; [done..|]. right. by exists l. }
  destruct g as [g|]; [|congruence]. destruct Hg as [Hg _].
  assert (gr_bytes g = b) as <- by congruence. rewrite Hdec in H2. injection H2 as <- <-.
  destruct Hq. split_and!; [by split | | done]. cbn. rewrite Hc1. intros k' recs'.
  destruct (decide (k = k')) as [<-|Hne];
    [rewrite lookup_insert_eq; by intros [= <-] | rewrite lookup_insert_ne by done; apply Hca].
Qed.

(** ** Searching the deltas *)

#[export] Instance hi_ge_trans : Transitive hi_ge.
Proof. intros a b c. unfold hi_ge. lia. Qed.
#[export] Instance hi_ge_total : Total hi_ge.
Proof. intros a b. unfold hi_ge. lia. Qed.

(** The versions in the span of a layer of [ds]. *)
Definition in_deltas (items : list LogItem) (ds : list DeltaMeta) (r : PageRecord) : Prop :=
  r ∈ versions items ∧ ∃ d, d ∈ ds ∧ d_lo d ≤ rec_lsn r ≤ d_hi d.

Definition deltas_ok (p : string) (c : gmap string bytes) (items : list LogItem)
    (ds : list DeltaMeta) : Prop :=
  ∀ d, d ∈ ds → d_key d = delta_key p (d_lo d) (d_hi d) ∧ delta_obj p c items (d_lo d) (d_hi d).

Lemma best_in_first items d ds recs id q :
  StronglySorted hi_ge (d :: ds) → delta_ok items (d_lo d) (d_hi d) recs →
  ∀ best, best_in recs id q = Some best → greatest (in_deltas items (d :: ds)) id q (Some best).
Proof.
  intros Hs Hd best Hb. pose proof (best_in_greatest recs id q) as HG. rewrite Hb in HG.
  destruct HG as (H1 & H2 & H3 & H4). apply Hd in H1 as [H1 Hspan].
  split_and!; [split; [done|]; exists d; split; [apply list_elem_of_here | done] | done | done |].
  intros r' [Hr' (d' & Hd' & Hsp')] Hid Hq.
  destruct (Z.lt_ge_cases (rec_lsn r') (d_lo d)) as [Hlt|Hge]; [lia|].
  apply H4; [|done..]. apply Hd. split; [done|]. split; [done|].
  apply elem_of_cons in Hd' as [->|Hd']; [lia|].
  apply StronglySorted_inv in Hs as [_ HF]. eapply Forall_forall in HF; [|exact Hd'].
  unfold hi_ge in HF. lia.
Qed.

Lemma greatest_skip items d ds id q o :
  (∀ r, r ∈ versions items → rec_page_id r = id → rec_lsn r ≤ q → d_lo d ≤ rec_lsn r ≤ d_hi d → False) →
  greatest (in_deltas items ds) id q o → greatest (in_deltas items (d :: ds)) id q o.
Proof.
  intros Hskip. destruct o as [r|]; cbn.
  - intros ((H1 & d' & Hd' & Hsp) & H2 & H3 & H4).
    split_and!; [split; [done|]; exists d'; split; [by apply list_elem_of_further|done]|done..|].
    intros r' [Hr' (d2 & Hd2 & Hsp')] Hid Hq. apply elem_of_cons in Hd2 as [->|Hd2].
    + by destruct (Hskip r').
    + apply H4; [|done..]. split; [done|]. by exists d2.
  - intros HN r' [Hr' (d2 & Hd2 & Hsp')] Hid Hq. apply elem_of_cons in Hd2 as [->|Hd2].
    + by destruct (Hskip r').
    + apply (HN r'); [|done..]. split; [done|]. by exists d2.
Qed.

Lemma search_deltas_spec items ds id q (s s' : Handle) r :
  kind_visible (prefix s) → cache_ok (prefix s) items (cache s) →
  deltas_ok (prefix s) (bucket s) items ds → StronglySorted hi_ge ds →
  search_deltas ds id q s = (s', r) →
  quiet s s' ∧ cache_ok (prefix s) items (cache s') ∧
  match r with
  | Ok o => greatest (in_deltas items ds) id q o
  | Err e => e = Transient ∧ unreliable
  end.
Proof.
  revert s. induction ds as [|d ds IH]; intros s Hv Hca Hok Hs; cbn [search_deltas].
  - intros [= <- <-]. split_and!; [apply quiet_refl | done |].
    intros r [_ (d & Hd%elem_of_nil & _)]. done.
  - assert (deltas_ok (prefix s) (bucket s) items ds) as Hok'.
    { intros d' Hd'. apply Hok. by apply list_elem_of_further. }
    assert (StronglySorted hi_ge ds) as Hs' by (by apply StronglySorted_inv in Hs as [? _]).
    destruct (Z.ltb_spec q (d_lo d)) as [Hlt|Hge].
    + intros (Hq & Hc & Hr)%IH; try done. split_and!; [done..|]. destruct r; [|done].
      apply greatest_skip; [|done]. intros; lia.
    + destruct (Hok d) as [Hkey Hobj]; [apply list_elem_of_here|].
      intros [(s1 & recs & Hl & H2)|(e & Hl & ->)]%comp_bind_inv;
        (eapply load_layer_spec in Hl as (Hq & Hc & Hr); [|done..|left; eauto]); [|done].
      rewrite Hkey in Hr. destruct Hobj as (Hlo & Hhi & Hobj).
      apply layer_holds_delta in Hr as Hd; [|done..].
      destruct (best_in recs id q) as [best|] eqn:Hb.
      * injection H2 as <- <-. split_and!; [done..|]. by eapply best_in_first.
      * destruct Hq as [Ep Ec Ei Eb Et].
        apply IH in H2 as (Hq & Hc' & Hr'); [|rewrite ?Ep, ?Eb; done..].
        split_and!; [by eapply quiet_trans|by rewrite Ep in Hc'|]. destruct r; [|done].
        apply greatest_skip; [|done]. intros r' Hr1 Hr2 Hr3 Hr4.
        pose proof (best_in_greatest recs id q) as HG. rewrite Hb in HG.
        apply (HG r'); [by apply Hd|done..].
Qed.
End Calls.
End ObjCalls.

(** * A live handle of the disaggregated backend

    [Live s segs] relates a handle to the log in its bucket; reads answer from the log, and
    flushes, appends, compactions and garbage collection keep the relation. *)

Module ObjLive.
Import Codec Obj ObjKeys Versions ObjInv ObjCalls.

Section Live.
Context {St : Type} `{Laws : ObjectStoreLaws St}.
Abbreviation Handle := (ObjectStorage St).
Abbreviation bucket s := (contents (store s)).
Abbreviation unreliable := (¬ ReliableStore St).

Record Live (s : Handle) (segs : list (list LogItem)) : Prop := {
  lv_visible : kind_visible (prefix s);
  lv_bucket : Bucket (prefix s) (bucket s) segs;
  lv_counters : Counters segs (inner s);
  lv_layers : Layers (prefix s) (bucket s) (concat segs) (inner s);
  lv_floor : retention_floor (inner s) = floor_of (prefix s) (bucket s);
  lv_cache : cache_ok (prefix s) (concat segs) (cache s)
}.

Lemma Live_quiet s s' segs :
  quiet s s' → cache_ok (prefix s) (concat segs) (cache s') → Live s segs → Live s' segs.
Proof.
  intros [Ep Ec Ei Eb Et] Hca [H1 H2 H3 H4 H5 H6].
  split; rewrite ?Ep, ?Ei, ?Eb; done.
Qed.

Lemma Live_quiet' s s' segs : quiet s s' → cache s' = cache s → Live s segs → Live s' segs.
Proof. intros Hq Hc HL. apply (Live_quiet s); [done| |done]. rewrite Hc. apply (lv_cache _ _ HL). Qed.

(** ** Reading a page *)

(** What a read must return: the greatest version of the log at or below the snapshot, unless
    the snapshot is below the retention floor. *)
Definition spec_read (segs : list (list LogItem)) (floor id q : Z) : Result StorageError Page :=
  if q <? floor then Err NotFound
  else match best_in (versions (concat segs)) id q with
       | Some r => Ok (Page_from_slice id (rec_lsn r) (rec_image r))
       | None => Err NotFound
       end.

Definition page_of (id : Z) (o : option PageRecord) : Result StorageError Page :=
  match o with
  | Some r => Ok (Page_from_slice id (rec_lsn r) (rec_image r))
  | None => Err NotFound
  end.

Lemma spec_read_greatest segs floor id q o :
  floor ≤ q → greatest (.∈ versions (concat segs)) id q o → spec_read segs floor id q = page_of id o.
Proof.
  intros Hq HG. unfold spec_read. destruct (Z.ltb_spec q floor); [lia|].
  rewrite (greatest_unique (concat segs) (.∈ versions (concat segs)) id q
    (best_in (versions (concat segs)) id q) o); [done..|apply best_in_greatest|done].
Qed.

(** The three places a version can be, searched in order. *)
Lemma greatest_memtable p c items g id q r :
  Layers p c items g →
  greatest (λ r, r ∈ versions items ∧ flushed_hw g < rec_lsn r) id q (Some r) →
  greatest (.∈ versions items) id q (Some r).
Proof.
  intros HL ((H1 & H1') & H2 & H3 & H4). split_and!; [done..|].
  intros r' Hr' Hid Hq. destruct (Z.lt_ge_cases (flushed_hw g) (rec_lsn r')); [auto|lia].
Qed.

Lemma greatest_deltas p c items g id q r :
  Layers p c items g →
  greatest (λ r, r ∈ versions items ∧ flushed_hw g < rec_lsn r) id q None →
  greatest (in_deltas items (deltas g)) id q (Some r) →
  greatest (.∈ versions items) id q (Some r).
Proof.
  intros HL HN ((H1 & d & Hd & Hsp) & H2 & H3 & H4). split_and!; [done..|].
  intros r' Hr' Hid Hq.
  assert (rec_lsn r' ≤ flushed_hw g) as Hle.
  { destruct (Z.lt_ge_cases (flushed_hw g) (rec_lsn r')); [|done]. by destruct (HN r'). }
  destruct (Z.lt_ge_cases (rec_lsn r') (rec_lsn r)) as [|Hge]; [lia|].
  apply H4; [|done..]. split; [done|]. apply (ly_up _ _ _ _ HL d); [done..|lia].
Qed.

Lemma greatest_image p c items g id q i recs :
  Layers p c items g →
  greatest (λ r, r ∈ versions items ∧ flushed_hw g < rec_lsn r) id q None →
  greatest (in_deltas items (deltas g)) id q None →
  image g = Some i → image_ok items (image_lsn i) recs →
  greatest (.∈ versions items) id q (best_in recs id q) ∨ q < image_lsn i.
Proof.
  intros HL HN HD Hi [H1 H2]. destruct (Z.lt_ge_cases q (image_lsn i)) as [|Hq]; [by right|left].
  assert (∀ r, r ∈ versions items → rec_page_id r = id → rec_lsn r ≤ q → rec_lsn r ≤ image_lsn i) as HV.
  { intros r Hr Hid Hrq. destruct (Z.lt_ge_cases (flushed_hw g) (rec_lsn r)); [by destruct (HN r)|].
    destruct (ly_cover _ _ _ _ HL r) as [?|(i' & Hi' & ?)]; [done|lia| |congruence].
    by destruct (HD r). }
  pose proof (best_in_greatest recs id q) as HG. destruct (best_in recs id q) as [r|]; cbn in *.
  - destruct HG as (G1 & G2 & G3 & G4). split_and!; [by apply H1|done..|].
    intros r' Hr' Hid Hq'. destruct (H2 r' Hr') as (r2 & E1 & E2 & E3); [by apply HV|].
    specialize (G4 r2 E1). destruct (H1 r2 E1). lia.
  - intros r Hr Hid Hq'. destruct (H2 r Hr) as (r2 & E1 & E2 & E3); [by apply HV|].
    apply (HG r2 E1); [congruence|]. destruct (H1 r2 E1). lia.
Qed.

Lemma greatest_nowhere p c items g id q :
  Layers p c items g →
  greatest (λ r, r ∈ versions items ∧ flushed_hw g < rec_lsn r) id q None →
  greatest (in_deltas items (deltas g)) id q None → image g = None →
  greatest (.∈ versions items) id q None.
Proof.
  intros HL HN HD Hi r Hr Hid Hq.
  destruct (Z.lt_ge_cases (flushed_hw g) (rec_lsn r)); [by destruct (HN r)|].
  destruct (ly_cover _ _ _ _ HL r) as [?|(i' & Hi' & ?)]; [done|lia| |congruence].
  by destruct (HD r).
Qed.

Lemma get_page_spec id q (s s' : Handle) segs r :
  Live s segs → get_page id q s = (s', r) →
  quiet s s' ∧ Live s' segs ∧
  (r = spec_read segs (retention_floor (inner s)) id q ∨ (r = Err Transient ∧ unreliable)).
Proof.
  intros HL. unfold get_page.
  destruct (Z.ltb_spec q (retention_floor (inner s))) as [Hlt|Hge].
  { intros [= <- <-]. split_and!; [apply quiet_refl|done|left]. unfold spec_read.
    by rewrite (proj2 (Z.ltb_lt _ _) Hlt). }
  pose proof (lv_layers _ _ HL) as HY.
  pose proof (memtable_floor_greatest _ _ _ id q (ly_mem _ _ _ _ HY)) as HM.
  destruct (memtable_floor (memtable (inner s)) id q) as [[v img]|].
  { intros [= <- <-]. split_and!; [apply quiet_refl|done|left].
    by rewrite (spec_read_greatest _ _ _ _ (Some (mkRecord id v img)))
      by (done || by eapply greatest_memtable). }
  cbn in HM.
  intros [(s1 & o & Hsd & H2)|(e & Hsd & ->)]%comp_bind_inv;
    (apply (search_deltas_spec (concat segs)) in Hsd as (Hq1 & Hc1 & Hr1);
      [|apply HL|apply HL| |apply StronglySorted_merge_sort; apply _]).
  2, 4: intros d; rewrite merge_sort_Permutation; intros Hd;
    by destruct (ly_delta _ _ _ _ HY d Hd) as (? & ? & ?).
  2:{ split_and!; [done|by eapply Live_quiet|]. destruct Hr1 as [-> ?]. by right. }
  assert (greatest (in_deltas (concat segs) (deltas (inner s))) id q o) as HD.
  { eapply greatest_ext; [|exact Hr1]. intros r' _. unfold in_deltas.
    by setoid_rewrite merge_sort_Permutation. }
  assert (Live s1 segs) as HL1 by (by eapply Live_quiet).
  destruct o as [best|].
  { injection H2 as <- <-. split_and!; [done..|left].
    by rewrite (spec_read_greatest _ _ _ _ (Some best)) by (done || by eapply greatest_deltas). }
  destruct (image (inner s)) as [i|] eqn:Hi.
  2:{ injection H2 as <- <-. split_and!; [done..|left].
      by rewrite (spec_read_greatest _ _ _ _ None) by (done || by eapply greatest_nowhere). }
  destruct (ly_image _ _ _ _ HY i Hi) as (Hk & Ho & _).
  assert (image_lsn i ≤ q) as Hiq.
  { destruct Ho as (_ & Ho & _). pose proof (lv_floor _ _ HL). lia. }
  rewrite (proj2 (Z.leb_le _ _) Hiq) in H2. destruct Hq1 as [Ep Ec Ei Eb Et].
  apply comp_bind_inv in H2 as [(s2 & recs & Hl & H3)|(e & Hl & ->)];
    (eapply load_layer_spec in Hl as (Hq2 & Hc2 & Hr2);
      [|apply HL1|apply HL1|rewrite Ep, Eb; right; eauto]);
    (assert (Live s' segs) as HL' by
      (try (destruct (best_in recs id q); injection H3 as <- <-); by eapply Live_quiet));
    (assert (quiet s s') as Hq' by
      (eapply quiet_trans; [by split|]; try (destruct (best_in recs id q); injection H3 as <- <-); done)).
  2:{ split_and!; [done..|]. destruct Hr2 as [-> ?]. by right. }
  split_and!; [done..|left]. rewrite Hk, Ep in Hr2. apply layer_holds_image in Hr2; [|apply Ho].
  destruct (greatest_image _ _ _ _ id q i recs HY HM HD Hi Hr2) as [HG|]; [|lia].
  rewrite (spec_read_greatest _ _ _ _ _ Hge HG). destruct (best_in recs id q); by injection H3.
Qed.
End Live.
End ObjLive.
