(* ===== verification/ObjWrite.v ===== *)
(** * Writing through a live handle: flush, append, compaction and garbage collection *)

From S2P Require Import Prelude Text StorageTypes ObjCodec ObjStore ObjStorage ObjVersions ObjInv ObjLive.

Module ObjWrite.
Import Codec Obj ObjKeys Versions ObjInv ObjCalls ObjLive.

(** The parts of the locked state that appends and the page store never touch. *)
Record same_rest (g g' : Inner) : Prop := {
  sr_epoch : epoch g' = epoch g;
  sr_floor : retention_floor g' = retention_floor g;
  sr_branches : branches g' = branches g;
  sr_next_branch : next_branch_id g' = next_branch_id g
}.

Lemma same_rest_refl g : same_rest g g.
Proof. by split. Qed.
Lemma same_rest_trans g g' g'' : same_rest g g' → same_rest g' g'' → same_rest g g''.
Proof. intros [] []. split; congruence. Qed.

(** ** Applying a durable segment *)

Lemma apply_items_spec seg g w items hw :
  next_lsn g = zlen items + 1 → hw ≤ zlen items → mem_ok items hw (memtable g) →
  let '(g', w') := fold_left apply_item seg (g, w) in
  next_lsn g' = zlen (items ++ seg) + 1 ∧ mem_ok (items ++ seg) hw (memtable g') ∧
  w' = w || existsb is_wal seg ∧
  g' = set_memtable (memtable g') (memtable_bytes g') (set_next_lsn (next_lsn g') g).
Proof.
  revert g w items. induction seg as [|x seg IH]; intros g w items Hn Hhw Hm; cbn [fold_left existsb].
  - rewrite app_nil_r, orb_false_r. by destruct g.
  - rewrite (cons_middle x items seg), app_assoc.
    assert (zlen (items ++ [x]) = zlen items + 1) as Hz by (rewrite zlen_app; reflexivity).
    assert (hw ≤ zlen (items ++ [x])) as Hhw' by lia.
    destruct x as [b|id img]; cbn [apply_item is_wal].
    + specialize (IH (set_next_lsn (next_lsn g + 1) g) true (items ++ [Wal b])).
      destruct (fold_left _ _ _) as [g' w']. destruct IH as (H1 & H2 & -> & H4);
        [cbn; lia|done|by apply mem_ok_wal|]. rewrite orb_true_r. done.
    + rewrite Hn.
      specialize (IH (set_memtable (<[(id, zlen items + 1) := img]> (memtable g))
        (memtable_bytes g + zlen img) (set_next_lsn (zlen items + 1 + 1) g)) w (items ++ [PageItem id img])).
      cbn in IH |- *. destruct (fold_left _ _ _) as [g' w']. destruct IH as (H1 & H2 & -> & H4);
        [lia|done|by apply mem_ok_page|]. done.
Qed.

Lemma apply_segment_spec seg segs g hw :
  Counters segs g → hw ≤ zlen (concat segs) → mem_ok (concat segs) hw (memtable g) →
  let g' := apply_segment seg g in
  Counters (segs ++ [seg]) g' ∧ mem_ok (concat (segs ++ [seg])) hw (memtable g') ∧
  deltas g' = deltas g ∧ image g' = image g ∧ flushed_hw g' = flushed_hw g ∧ same_rest g g'.
Proof.
  intros [H1 H2 H3 H4] Hhw Hm. unfold apply_segment.
  pose proof (apply_items_spec seg g false (concat segs) hw H2 Hhw Hm) as H.
  destruct (fold_left apply_item seg (g, false)) as [g' w]. destruct H as (E1 & E2 & -> & E4).
  rewrite concat_snoc. cbn [orb]. rewrite E4. cbn zeta.
  split; [|by destruct (existsb is_wal seg)].
  split; destruct (existsb is_wal seg) eqn:Ew; cbn; rewrite ?commit_of_snoc, ?Ew, ?concat_snoc;
    rewrite ?H1, ?H4, ?(zlen_app segs); try lia.
  all: unfold zlen; cbn; lia.
Qed.

Section Write.
Context {St : Type} `{Laws : ObjectStoreLaws St}.
Abbreviation Handle := (ObjectStorage St).
Abbreviation bucket s := (contents (store s)).
Abbreviation unreliable := (¬ ReliableStore St).

(** ** Flushing the memtable *)

Lemma flush_locked_spec (s s' : Handle) segs r :
  Live s segs → flush_locked s = (s', r) →
  Live s' segs ∧ prefix s' = prefix s ∧ config s' = config s ∧ same_rest (inner s) (inner s') ∧
  match r with
  | Ok _ => memtable (inner s') = ∅
  | Err e => e = Contended ∨ unreliable
  end.
Proof.
  intros HL. unfold flush_locked. case_bool_decide as Hm.
  { intros [= <- <-]. split_and!; [done..|apply same_rest_refl|done]. }
  rewrite (ct_durable _ _ (lv_counters _ _ HL)).
  set (hw := flushed_hw (inner s)). set (N := zlen (concat segs)).
  pose proof (lv_layers _ _ HL) as HY. pose proof (lv_bucket _ _ HL) as HB.
  assert (∀ s1, bucket s !! delta_key (prefix s) (hw + 1) N = None →
    stored (delta_key (prefix s) (hw + 1) N) (encode_delta (memtable_records (memtable (inner s)))) s s1 →
    Live s1 segs ∧ delta_obj (prefix s) (bucket s1) (concat segs) (hw + 1) N) as Hwrote.
  { intros s1 Hnone [Ep Ec Ei Eca Eb].
    destruct (obj_insert_new (prefix s) KDelta (bucket s) _
      (encode_delta (memtable_records (memtable (inner s)))) (concat segs)
      (delta_kind _ (hw + 1) N) Hnone ltac:(done)) as [HD HI].
    split; [|rewrite Eb; by apply (flush_delta_obj _ _ segs); [apply HB|..]].
    split; rewrite ?Ep, ?Ei, ?Eca, ?Eb; [apply HL|by apply Bucket_flush|apply HL| | |apply HL].
    - by apply (Layers_objects _ (bucket s)).
    - rewrite (lv_floor _ _ HL). symmetry. apply floor_of_agree.
      by apply (agree_insert _ _ KDelta); [apply delta_kind|]. }
  unfold comp_bind, comp_map_err, modify.
  destruct (obj_put_if_absent _ _ s) as [s1 r1] eqn:E. apply obj_put_if_absent_spec in E.
  destruct r1 as [t|[]]; intros [= <- <-]; cbn.
  3:{ destruct E as (_ & Hq & Hc).
      split_and!; [by eapply Live_quiet'|apply Hq|apply Hq| |by left].
      rewrite (q_inner _ _ Hq). apply same_rest_refl. }
  2, 3: destruct E as [Hu [[Hq Hc]|[Hnone Hst]]];
    [split_and!; [by eapply Live_quiet'|apply Hq|apply Hq| |by right];
       rewrite (q_inner _ _ Hq); apply same_rest_refl
    |split_and!; [by apply Hwrote|apply Hst|apply Hst| |by right];
       rewrite (st_inner _ _ _ _ Hst); apply same_rest_refl].
  destruct E as [Hnone Hst]. destruct (Hwrote s1 Hnone Hst) as [[H1 H2 H3 H4 H5 H6] Hnew].
  destruct Hst as [Ep Ec Ei Eca Eb]. rewrite Ep, Ei in *.
  split_and!; try done. split; cbn; rewrite ?Ep; try done; [by destruct H3|].
  unfold hw, N. rewrite <- (ct_durable _ _ (lv_counters _ _ HL)) at 1 2.
  apply Layers_flushed; [apply HL|done..].
Qed.

(** ** Appending a segment *)

Lemma durable_epoch_spec (s s' : Handle) r :
  durable_epoch s = (s', r) →
  quiet s s' ∧ cache s' = cache s ∧
  match r with
  | Ok (e, o) => e = epoch_of (prefix s) (bucket s) ∧
      match o with
      | Some t => tags (store s) (lease_key (prefix s)) = Some t
      | None => bucket s !! lease_key (prefix s) = None
      end
  | Err e => e = Transient ∧ unreliable
  end.
Proof.
  unfold durable_epoch. intros [(s1 & p & Ha & H2)|(e & Ha & ->)]%comp_bind_inv;
    apply ask_inv in Ha as [-> Ha]; [|done]. injection Ha as ->.
  apply comp_bind_inv in H2 as [(s2 & g & Hg & H3)|(e & Hg & ->)];
    apply obj_get_spec in Hg as (Hq & Hc & Hg); [|done].
  injection H3 as <- <-. split_and!; [done..|]. unfold epoch_of.
  destruct g as [g|]; [destruct Hg as [-> ?] | rewrite Hg]; done.
Qed.

Lemma check_fence_spec token (s s' : Handle) r :
  check_fence token s = (s', r) →
  quiet s s' ∧ cache s' = cache s ∧
  match r with
  | Ok _ => tok_epoch token = epoch_of (prefix s) (bucket s)
  | Err e => (e = Fenced (tok_epoch token) (epoch_of (prefix s) (bucket s)) ∧
              tok_epoch token ≠ epoch_of (prefix s) (bucket s)) ∨ (e = Transient ∧ unreliable)
  end.
Proof.
  unfold check_fence. intros [(s1 & [e o] & Ha & H2)|(e & Ha & ->)]%comp_bind_inv;
    apply durable_epoch_spec in Ha as (Hq & Hc & He); [|by auto].
  destruct He as [-> _].
  destruct (Z.eqb_spec (tok_epoch token) (epoch_of (prefix s) (bucket s))); cbn in H2;
    injection H2 as <- <-; auto.
Qed.

(** The next slot of a live handle is free, so the claim loop writes at its first turn. *)
Lemma claim_slot_spec token seg retries (s s' : Handle) segs r :
  Live s segs → claim_slot token (encode_segment seg) retries s = (s', r) →
  let k := log_key (prefix s) (zlen segs + 1) in
  (r = Ok tt ∧ stored k (encode_segment seg) s s') ∨
  (r = Err Transient ∧ unreliable ∧
   (quiet s s' ∧ cache s' = cache s ∨ stored k (encode_segment seg) s s')).
Proof.
  intros HL. pose proof (lv_bucket _ _ HL) as HB.
  pose proof (log_ok_next _ _ _ (bk_log _ _ _ HB) (so_segs _ (bk_segs _ _ _ HB))) as Hfree.
  destruct retries; cbn [claim_slot]; rewrite (ct_seq _ _ (lv_counters _ _ HL)); (destruct (obj_put_if_absent _ _ s) as [s1 r1] eqn:E;
    apply obj_put_if_absent_spec in E; destruct r1 as [t|[]]; cbn;
    [intros [= <- <-]; left; by destruct E
    |intros [= <- <-]; right; by destruct E as (? & [?|[? ?]]); auto
    |rewrite Hfree in E; by destruct E as [[? [=]] _]
    |intros [= <- <-]; right; by destruct E as (? & [?|[? ?]]); auto]).
Qed.

(** The bucket with one more segment. *)
Lemma Bucket_append p c segs seg :
  segs_ok (segs ++ [seg]) → Bucket p c segs →
  Bucket p (<[log_key p (zlen segs + 1) := encode_segment seg]> c) (segs ++ [seg]).
Proof.
  intros Hok HB. apply (Bucket_extend p c _ segs _ seg); try done.
  - by apply (agree_insert _ _ KLog); [apply log_kind|].
  - by apply (agree_insert _ _ KLog); [apply log_kind|].
  - rewrite (floor_of_agree p c (<[log_key p (zlen segs + 1) := encode_segment seg]> c)); [done|].
    by apply (agree_insert _ _ KLog); [apply log_kind|].
  - apply concat_snoc.
  - apply log_ok_snoc; [apply (so_segs _ (bk_segs _ _ _ HB)) | apply (bk_log _ _ _ HB)].
Qed.

Lemma Live_append (s s' : Handle) segs seg :
  segs_ok (segs ++ [seg]) → Live s segs →
  stored (log_key (prefix s) (zlen segs + 1)) (encode_segment seg) s s' →
  Live (mkObj (store s') (prefix s') (config s') (apply_segment seg (inner s')) (cache s'))
    (segs ++ [seg]).
Proof.
  intros Hok HL [Ep Ec Ei Eca Eb]. pose proof (lv_layers _ _ HL) as HY.
  pose proof (ly_hw _ _ _ _ HY) as Hhw.
  destruct (apply_segment_spec seg segs (inner s) (flushed_hw (inner s))) as (H1 & H2 & H3 & H4 & H5 & H6);
    [apply HL|lia|apply HY|].
  assert (∀ K, K ≠ KLog → agree (prefix s) K (bucket s) (bucket s')) as Hag.
  { intros K HK. rewrite Eb. apply (agree_insert _ _ KLog); [apply log_kind|done]. }
  split; cbn; rewrite ?Ep, ?Ei, ?Eca; try done.
  - apply HL.
  - rewrite Eb. apply Bucket_append; [done|apply HL].
  - rewrite concat_snoc in *. apply (Layers_extend _ (bucket s) _ _ _ (inner s)); auto.
    by rewrite (floor_of_agree _ (bucket s) (bucket s')) by auto.
  - rewrite (sr_floor _ _ H6), (lv_floor _ _ HL). symmetry. by apply floor_of_agree, Hag.
  - rewrite concat_snoc. apply cache_ok_app, HL.
Qed.

(** What an append can do to the bucket and the handle. *)
Definition append_outcome (s s' : Handle) (segs : list (list LogItem)) (seg : list LogItem)
    (r : Result StorageError Lsn) : Prop :=
  match r with
  | Ok lsn => lsn = zlen (concat segs) + zlen seg ∧ Live s' (segs ++ [seg])
  | Err e => (Live s' segs ∧ bucket s' = bucket s ∧ unreliable) ∨
             (Bucket (prefix s') (bucket s') (segs ++ [seg]) ∧ (e = Contended ∨ unreliable))
  end.

Lemma append_locked_spec token seg (s s' : Handle) segs r :
  Live s segs → segs_ok (segs ++ [seg]) → append_locked token seg s = (s', r) →
  append_outcome s s' segs seg r ∧ prefix s' = prefix s ∧ same_rest (inner s) (inner s').
Proof.
  intros HL Hok. unfold append_locked.
  intros [(s1 & c & Ha & H2)|(e & Ha & ->)]%comp_bind_inv; apply ask_inv in Ha as [-> Ha]; [|done].
  injection Ha as ->.
  apply comp_bind_inv in H2 as [(s2 & [] & Hcl & H3)|(e & Hcl & ->)];
    apply (claim_slot_spec _ _ _ _ _ segs) in Hcl as [[Hr Hst]|(Hr & Hu & Hor)]; try done.
  2:{ destruct Hor as [[Hq Hc]|Hst].
      - split_and!; [left; split_and!; [by eapply Live_quiet'|apply Hq|done]|apply Hq|].
        rewrite (q_inner _ _ Hq). apply same_rest_refl.
      - split_and!; [right; split; [|by right]|apply Hst|].
        + rewrite (st_prefix _ _ _ _ Hst), (st_bucket _ _ _ _ Hst). apply Bucket_append; [done|apply HL].
        + rewrite (st_inner _ _ _ _ Hst). apply same_rest_refl. }
  pose proof (Live_append _ _ _ _ Hok HL Hst) as HL2.
  pose proof (ct_durable _ _ (lv_counters _ _ HL2)) as Hd. cbn in Hd.
  destruct (apply_segment_spec seg segs (inner s) (flushed_hw (inner s))) as (_ & _ & _ & _ & _ & Hrest);
    [apply HL|apply (ly_hw _ _ _ _ (lv_layers _ _ HL))|apply (lv_layers _ _ HL)|].
  rewrite <- (st_inner _ _ _ _ Hst) in Hrest at 2.
  unfold comp_bind, modify, ask in H3. cbn in H3. rewrite Hd, concat_snoc, zlen_app in H3.
  set (s3 := mkObj _ _ _ _ _) in *.
  destruct (_ <=? _).
  - destruct (flush_locked s3) as [s4 r4] eqn:Ef.
    apply (flush_locked_spec _ _ _ _ HL2) in Ef as (HL4 & Ep & Ec & Hs4 & Hr4).
    assert (prefix s4 = prefix s) as Ep4 by (rewrite Ep; apply Hst).
    assert (same_rest (inner s) (inner s4)) as Hrs by (by eapply same_rest_trans).
    destruct r4 as [[]|e]; injection H3 as <- <-; (split_and!; [|done..]); [done|].
    right. split; [apply HL4|done].
  - injection H3 as <- <-. split_and!; [done|apply Hst|done].
Qed.

Lemma append_segment_prefix token seg (s s' : Handle) segs r :
  Live s segs → segs_ok (segs ++ [seg]) → append_segment token seg s = (s', r) →
  prefix s' = prefix s.
Proof.
  intros HL Hok. unfold append_segment.
  intros [(s1 & [] & Hc & H2)|(e & Hc & ->)]%comp_bind_inv;
    apply check_fence_spec in Hc as (Hq & Hca & _); [|apply Hq].
  pose proof (Live_quiet' _ _ _ Hq Hca HL) as HL1.
  apply (append_locked_spec _ _ _ _ segs) in H2 as (_ & -> & _); [apply Hq|done..].
Qed.

(** The whole append: fenced without effect, or one of the outcomes of the claim. *)
Lemma append_segment_spec token seg (s s' : Handle) segs r :
  Live s segs → segs_ok (segs ++ [seg]) → append_segment token seg s = (s', r) →
  let cur := epoch_of (prefix s) (bucket s) in
  (tok_epoch token = cur ∧ append_outcome s s' segs seg r) ∨
  (r = Err (Fenced (tok_epoch token) cur) ∧ tok_epoch token ≠ cur ∧ Live s' segs ∧
   bucket s' = bucket s) ∨
  (r = Err Transient ∧ unreliable ∧ Live s' segs ∧ bucket s' = bucket s).
Proof.
  intros HL Hok. unfold append_segment.
  intros [(s1 & [] & Hc & H2)|(e & Hc & ->)]%comp_bind_inv;
    apply check_fence_spec in Hc as (Hq & Hca & Hr);
    pose proof (Live_quiet' _ _ _ Hq Hca HL) as HL1.
  - apply (append_locked_spec _ _ _ _ segs) in H2 as (Ho & _ & _); [|done..]. left. split; [done|].
    unfold append_outcome in *. by rewrite (q_bucket _ _ Hq) in Ho.
  - right. destruct Hr as [[-> ?]|[-> ?]]; [left|right]; split_and!; try done; apply Hq.
Qed.
End Write.
End ObjWrite.

(** * Compaction and garbage collection keep every read above the floor *)

Module ObjCompact.
Import Codec Obj ObjKeys Versions ObjInv ObjCalls ObjLive ObjWrite.

(** ** The new image *)

Lemma image_obj_insert p c items l recs :
  is_u64 l → l ≤ floor_of p c → l ≤ zlen items → Forall item_ok items → zlen items < 2 ^ 32 →
  NoDup recs → image_ok items l recs →
  image_obj p (<[image_key p l := encode_image recs]> c) items l ∧
  ∀ l', image_obj p c items l' → image_obj p (<[image_key p l := encode_image recs]> c) items l'.
Proof.
  intros Hl Hf Hn Hok Hb Hnd Himg.
  assert (floor_of p (<[image_key p l := encode_image recs]> c) = floor_of p c) as Hfl.
  { apply floor_of_agree. by apply (agree_insert _ _ KImage); [apply image_kind|]. }
  assert (image_obj p (<[image_key p l := encode_image recs]> c) items l) as Hnew.
  { split_and!; [done|by rewrite Hfl|done|]. exists (encode_image recs), recs.
    split_and!; [apply lookup_insert_eq| |done]. apply (layer_decodes _ items); try done.
    intros r Hr. by apply Himg. }
  split; [done|]. intros l' Ho. destruct (decide (l' = l)) as [->|Hne]; [done|].
  rewrite <- (app_nil_r items). apply (image_obj_keep p c); [| by rewrite Hfl | done].
  apply lookup_insert_ne. intros E. apply Hne. symmetry. by apply (image_key_inj p); [|apply Ho|].
Qed.

(** The locked state after a successful compaction. *)
Definition compacted (l : Z) (key : string) (g : Inner) : Inner :=
  set_image (Some (mkImage l key)) (set_deltas (filter (λ d, l < d_hi d) (deltas g)) g).

Lemma no_versions_above p c items g r :
  Layers p c items g → memtable g = ∅ → r ∈ versions items → rec_lsn r ≤ flushed_hw g.
Proof.
  intros HL Hm Hr. destruct (Z.lt_ge_cases (flushed_hw g) (rec_lsn r)) as [Hlt|]; [|done].
  assert (memtable g !! (rec_page_id r, rec_lsn r) = Some (rec_image r)) as E.
  { apply (ly_mem _ _ _ _ HL). by destruct r. }
  by rewrite Hm, lookup_empty in E.
Qed.

Lemma Layers_compacted p c items g l :
  Layers p c items g → memtable g = ∅ → image_obj p c items l →
  (∀ i, image g = Some i → image_lsn i ≤ l) →
  Layers p c items (compacted l (image_key p l) g).
Proof.
  intros HL Hm Ho Hle. pose proof HL as [L1 L2 L3 L4 L5 L6]. split; cbn; [..|done|done].
  - intros d [_ Hd]%list_elem_of_filter. auto.
  - intros i [= <-]. cbn. split_and!; [done..|]. intros r Hr _. by eapply no_versions_above.
  - intros r Hr Hhw. destruct (Z.lt_ge_cases l (rec_lsn r)) as [Hlt|Hge]; [left|right; eauto].
    destruct (L3 r Hr Hhw) as [(d & Hd & ?)|(i & Hi & ?)].
    + exists d. split; [|done]. apply list_elem_of_filter. split; [lia|done].
    + specialize (Hle i Hi). lia.
  - intros d r [Hd1 Hd2]%list_elem_of_filter Hr Hsp.
    destruct (L4 d r Hd2 Hr Hsp) as (d' & Hd' & ?).
    destruct (Z.lt_ge_cases l (d_hi d')); [exists d' | exists d];
      (split; [apply list_elem_of_filter|]); (done || lia).
Qed.

(** [image_ok] of the merge of all live layers. *)
Lemma merge_live_image_ok p c items g (W : PageRecord → Prop) l m :
  Layers p c items g → memtable g = ∅ → (∀ i, image g = Some i → image_lsn i ≤ l) →
  (∀ r, W r → r ∈ versions items) →
  (∀ d, d ∈ deltas g → ∃ recs, layer_holds p items (d_key d) recs ∧ ∀ r, r ∈ recs → W r) →
  (∀ i, image g = Some i → ∃ recs, layer_holds p items (i_key i) recs ∧ ∀ r, r ∈ recs → W r) →
  merged_ok W l m → image_ok items l (merged_records m).
Proof.
  intros HL Hm Hle HW Hds His. apply merged_image_ok; [done|].
  intros r Hr Hrl. pose proof (no_versions_above _ _ _ _ _ HL Hm Hr) as Hhw.
  destruct (ly_cover _ _ _ _ HL r Hr Hhw) as [(d & Hd & Hsp)|(i & Hi & Hil)].
  - destruct (Hds d Hd) as (recs & Hh & Hin). destruct (ly_delta _ _ _ _ HL d Hd) as (Hk & Ho & _).
    rewrite Hk in Hh. apply layer_holds_delta in Hh; [|apply Ho|apply Ho].
    exists r. split_and!; [|done..|lia]. apply Hin, Hh. done.
  - destruct (His i Hi) as (recs & Hh & Hin). destruct (ly_image _ _ _ _ HL i Hi) as (Hk & Ho & _).
    rewrite Hk in Hh. apply layer_holds_image in Hh as [H1 H2]; [|apply Ho].
    destruct (H2 r Hr Hil) as (r' & E1 & E2 & E3). exists r'. destruct (H1 r' E1) as [_ ?].
    specialize (Hle i Hi). split_and!; [by apply Hin|done|done|lia].
Qed.

Section Compact.
Context {St : Type} `{Laws : ObjectStoreLaws St}.
Abbreviation Handle := (ObjectStorage St).
Abbreviation bucket s := (contents (store s)).
Abbreviation unreliable := (¬ ReliableStore St).

Lemma merge_layers_spec items q keys (s s' : Handle) m r (V : PageRecord → Prop) :
  kind_visible (prefix s) → cache_ok (prefix s) items (cache s) →
  (∀ k, k ∈ keys → layer_obj (prefix s) (bucket s) items k) →
  (∀ r, V r → r ∈ versions items) → merged_ok V q m →
  merge_layers q keys m s = (s', r) →
  quiet s s' ∧ cache_ok (prefix s) items (cache s') ∧
  match r with
  | Ok m' => ∃ W : PageRecord → Prop, merged_ok W q m' ∧ (∀ r, V r → W r) ∧
      (∀ r, W r → r ∈ versions items) ∧
      (∀ k, k ∈ keys → ∃ recs, layer_holds (prefix s) items k recs ∧ ∀ r, r ∈ recs → W r)
  | Err e => e = Transient ∧ unreliable
  end.
Proof.
  revert s m V. induction keys as [|k keys IH]; intros s m V Hv Hca Hks HV Hm; cbn [merge_layers].
  - intros [= <- <-]. split_and!; [apply quiet_refl|done|]. exists V. split_and!; [done..|].
    by intros k ?%elem_of_nil.
  - intros [(s1 & recs & Hl & H2)|(e & Hl & ->)]%comp_bind_inv;
      (eapply load_layer_spec in Hl as (Hq & Hc & Hr); [|done..|apply Hks, list_elem_of_here]); [|done].
    pose proof Hq as [Ep Ec Ei Eb Et].
    apply (IH _ _ (λ r, V r ∨ r ∈ recs)) in H2 as (Hq2 & Hc2 & Hr2); rewrite ?Ep, ?Eb; try done.
    + split_and!; [by eapply quiet_trans|by rewrite <- Ep|]. destruct r as [m'|e]; [|done].
      destruct Hr2 as (W & H1 & H3 & H4 & H5). exists W. split_and!; [done|auto|done|].
      intros k' [->|Hk']%elem_of_cons; [|rewrite <- Ep; auto]. exists recs. auto.
    + intros k' Hk'. apply Hks. by apply list_elem_of_further.
    + intros r' [?|Hin]; [auto|].
      destruct Hr as [(lo & hi & _ & _ & _ & _ & Hd)|(l & _ & _ & _ & [Hd _])]; by apply Hd in Hin as [? _].
    + by apply merge_layer_ok.
Qed.

(** Writing the image object of a compaction keeps the handle live. *)
Lemma Live_image (s s' : Handle) segs recs :
  let l := retention_floor (inner s) in
  Live s segs → memtable (inner s) = ∅ → l ≤ zlen (concat segs) → NoDup recs →
  image_ok (concat segs) l recs →
  stored (image_key (prefix s) l) (encode_image recs) s s' →
  Live s' segs ∧ image_obj (prefix s) (bucket s') (concat segs) l.
Proof.
  intros l HL Hm Hle Hnd Himg [Ep Ec Ei Eca Eb].
  pose proof (lv_layers _ _ HL) as HY. pose proof (lv_floor _ _ HL) as Hl. fold l in Hl.
  pose proof (bk_segs _ _ _ (lv_bucket _ _ HL)) as [Hok Hcnt _].
  destruct (image_obj_insert (prefix s) (bucket s) (concat segs) l recs) as [Hnew HI]; try done;
    [rewrite Hl; apply floor_of_range|lia|]. rewrite <- Eb in Hnew, HI.
  assert (∀ K, K ≠ KImage → agree (prefix s) K (bucket s) (bucket s')) as Hag.
  { intros K HK. rewrite Eb. by apply (agree_insert _ _ KImage); [apply image_kind|]. }
  assert (∀ lo hi, delta_obj (prefix s) (bucket s) (concat segs) lo hi →
                   delta_obj (prefix s) (bucket s') (concat segs) lo hi) as HD.
  { intros lo hi Ho. rewrite <- (app_nil_r (concat segs)).
    apply (delta_obj_keep _ (bucket s)); [|done]. apply (Hag KDelta); [done|apply delta_kind]. }
  split; [|done]. split; rewrite ?Ep, ?Ei, ?Eca; [apply HL| |apply HL| | |apply HL].
  - apply (Bucket_relayer _ (bucket s) _ _ (inner s)); auto; [apply HL| | |].
    + intros k Hk Hs. rewrite (Hag KDelta) in Hs by done.
      destruct (bk_delta _ _ _ (lv_bucket _ _ HL) k Hk Hs) as (lo & hi & -> & ?). exists lo, hi. auto.
    + intros k Hk Hs. destruct (decide (k = image_key (prefix s) l)) as [->|Hne]; [eauto|].
      rewrite Eb, lookup_insert_ne in Hs by done.
      destruct (bk_image _ _ _ (lv_bucket _ _ HL) k Hk Hs) as (l' & -> & ?). eauto.
    + intros r Hr Hlt. pose proof (no_versions_above _ _ _ _ _ HY Hm Hr). lia.
  - by apply (Layers_objects _ (bucket s)).
  - rewrite (lv_floor _ _ HL). symmetry. by apply floor_of_agree, Hag.
Qed.

(** The keys [compact] merges all name layers of the bucket. *)
Lemma live_layer_keys (s : Handle) segs k :
  Live s segs →
  k ∈ match image (inner s) with Some img => [i_key img] | None => [] end
      ++ List.map d_key (deltas (inner s)) →
  layer_obj (prefix s) (bucket s) (concat segs) k.
Proof.
  intros HL. pose proof (lv_layers _ _ HL) as HY.
  intros [Hk|(d & -> & Hd)%list_elem_of_fmap]%elem_of_app.
  - destruct (image (inner s)) as [i|] eqn:Hi; [|by apply elem_of_nil in Hk].
    apply list_elem_of_singleton in Hk as ->.
    destruct (ly_image _ _ _ _ HY i Hi) as (-> & ? & _). right. eauto.
  - destruct (ly_delta _ _ _ _ HY d Hd) as (-> & ? & _). left. eauto.
Qed.

Lemma compact_spec (s s' : Handle) segs r :
  Live s segs → retention_floor (inner s) ≤ zlen (concat segs) → compact s = (s', r) →
  Live s' segs ∧ prefix s' = prefix s ∧ same_rest (inner s) (inner s') ∧
  match r with Ok _ => True | Err e => e = Contended ∨ unreliable end.
Proof.
  intros HL Hfl. unfold compact.
  intros [(s1 & [] & Hf & H2)|(e & Hf & ->)]%comp_bind_inv;
    apply (flush_locked_spec _ _ _ _ HL) in Hf as (HL1 & Ep1 & Ec1 & Hr1 & Hm1); [|done].
  unfold ask, comp_bind at 1 2 in H2. cbv beta iota zeta in H2.
  destruct (Z.eqb_spec (retention_floor (inner s1)) 0) as [_|Hnz]; [by injection H2 as <- <-|].
  pose proof (lv_layers _ _ HL1) as HY.
  assert (∀ i, image (inner s1) = Some i → image_lsn i ≤ retention_floor (inner s1)) as Hile.
  { intros i Hi. destruct (ly_image _ _ _ _ HY i Hi) as (_ & (_ & ? & _) & _).
    by rewrite (lv_floor _ _ HL1). }
  apply comp_bind_inv in H2 as [(s2 & m & Hmg & H3)|(e & Hmg & ->)];
    (apply (merge_layers_spec (concat segs) _ _ _ _ _ _ (λ _, False)) in Hmg as (Hq2 & Hc2 & Hr2);
      [|apply HL1|apply HL1|intros; by apply live_layer_keys|done|apply merged_ok_empty]).
  2:{ split_and!; [by eapply Live_quiet| |by rewrite (q_inner _ _ Hq2)|by destruct Hr2; right].
      by rewrite (q_prefix _ _ Hq2). }
  assert (image_ok (concat segs) (retention_floor (inner s1)) (merged_records m)) as Himg.
  { destruct Hr2 as (W & H1 & _ & H4 & H5). eapply merge_live_image_ok; try done.
    - intros d Hd. apply H5, elem_of_app. right. by apply list_elem_of_fmap_2.
    - intros i Hi. apply H5, elem_of_app. left. rewrite Hi. by apply list_elem_of_singleton. }
  assert (Live s2 segs) as HL2 by (by eapply Live_quiet).
  destruct Hq2 as [Ep2 Ec2 Ei2 Eb2 _].
  apply comp_bind_inv in H3 as [(s3 & t & Hp & H4)|(e & Hp & ->)]; apply obj_put_spec in Hp;
    rewrite <- Ep2, <- Ei2 in *.
  - destruct (Live_image s2 s3 segs (merged_records m)) as [HL3 Ho]; try done;
      [rewrite (sr_floor _ _ Hr1); lia|apply merged_records_NoDup|].
    injection H4 as <- <-. destruct Hp as [Ep Ec Ei Eca Eb]. cbn. rewrite Ei in *.
    split_and!; [|congruence|by destruct Hr1|done].
    destruct HL3 as [A1 A2 A3 A4 A5 A6]. rewrite Ei in *. split; cbn; try done; [by destruct A3|].
    rewrite Ep. apply Layers_compacted; try done. by rewrite <- Ep.
  - destruct Hp as (-> & Hu & [[Hq Hc]|Hst]).
    + split_and!; [by eapply Live_quiet'| |by rewrite (q_inner _ _ Hq)|by right].
      rewrite (q_prefix _ _ Hq). congruence.
    + destruct (Live_image s2 s' segs (merged_records m)) as [HL3 Ho]; try done;
        [rewrite (sr_floor _ _ Hr1); lia|apply merged_records_NoDup|].
      split_and!; [done| |by rewrite (st_inner _ _ _ _ Hst)|by right].
      rewrite (st_prefix _ _ _ _ Hst). congruence.
Qed.

(** ** Deleting dead layers *)

(** [done_] of [keys] were deleted, and nothing else changed. *)
Record swept (done_ : list string) (s s' : Handle) : Prop := {
  sw_prefix : prefix s' = prefix s;
  sw_config : config s' = config s;
  sw_inner : inner s' = inner s;
  sw_gone k : k ∈ done_ → bucket s' !! k = None;
  sw_kept k : k ∉ done_ → bucket s' !! k = bucket s !! k;
  sw_cache k recs : cache s' !! k = Some recs → cache s !! k = Some recs
}.

Lemma delete_all_spec keys (s s' : Handle) r :
  delete_all keys s = (s', r) →
  ∃ done_, swept done_ s s' ∧ (∀ k, k ∈ done_ → k ∈ keys) ∧
    match r with Ok _ => ∀ k, k ∈ keys → k ∈ done_ | Err e => e = Transient ∧ unreliable end.
Proof.
  revert s. induction keys as [|k keys IH]; intros s; cbn [delete_all].
  - intros [= <- <-]. exists []. split_and!; [by split; set_solver|done..].
  - intros [(s1 & [] & Hd & H2)|(e & Hd & ->)]%comp_bind_inv; apply obj_delete_spec in Hd.
    + unfold comp_bind at 1 in H2. cbv beta iota in H2. apply IH in H2 as (dn & Hs & Hin & Hr).
      exists (k :: dn). destruct Hs as [S1 S2 S3 S4 S5 S6], Hd as [D1 D2 D3 D4 D5]. cbn in *.
      split_and!; [split; try congruence| |].
      * intros k' Hk'. destruct (decide (k' ∈ dn)) as [|Hn]; [auto|].
        rewrite S5, D5 by done. assert (k' = k) as -> by set_solver. apply lookup_delete_eq.
      * intros k' Hk'. rewrite S5, D5 by set_solver. apply lookup_delete_ne. set_solver.
      * intros k' recs Hk'%S6. rewrite D4 in Hk'. by apply lookup_delete_Some in Hk' as [_ ?].
      * set_solver.
      * destruct r; [set_solver|done].
    + destruct Hd as (-> & Hu & [[Hq Hc]|He]).
      * exists []. destruct Hq as [Q1 Q2 Q3 Q4 _]. split_and!; [|set_solver|done..].
        split; try done; [set_solver|intros; by rewrite Q4|intros k' recs; by rewrite Hc].
      * exists [k]. destruct He as [D1 D2 D3 D4 D5]. split_and!; [|set_solver|done..].
        split; try done.
        -- intros k' ->%list_elem_of_singleton. rewrite D5. apply lookup_delete_eq.
        -- intros k' Hk'. rewrite D5. apply lookup_delete_ne. set_solver.
        -- intros k' recs. by rewrite D4.
Qed.

(** When exactly the layers outside the live set are gone, the bucket is still a bucket. *)
Lemma Live_swept (s s' : Handle) segs dn :
  Live s segs → swept dn s s' →
  (∀ k, k ∈ dn ↔ (of_kind (prefix s) KDelta k ∨ of_kind (prefix s) KImage k) ∧
                 is_Some (bucket s !! k) ∧ k ∉ live_keys (inner s)) →
  Live s' segs.
Proof.
  intros HL [S1 S2 S3 S4 S5 S6] Hdn. pose proof (lv_layers _ _ HL) as HY.
  pose proof (lv_bucket _ _ HL) as HB. pose proof HY as [L1 L2 L3 L4 L5 L6].
  assert (∀ K, K ≠ KDelta → K ≠ KImage → agree (prefix s) K (bucket s) (bucket s')) as Hag.
  { intros K H1 H2 k Hk. apply S5. intros [[H'|H'] _]%Hdn.
    - by apply H1, (of_kind_disjoint (prefix s) _ _ k).
    - by apply H2, (of_kind_disjoint (prefix s) _ _ k). }
  assert (floor_of (prefix s) (bucket s') = floor_of (prefix s) (bucket s)) as Hfl.
  { by apply floor_of_agree, Hag. }
  assert (∀ k, k ∈ live_keys (inner s) → bucket s' !! k = bucket s !! k) as Hlive.
  { intros k Hk. apply S5. intros (_ & _ & ?)%Hdn. done. }
  assert (Layers (prefix s) (bucket s') (concat segs) (inner s)) as HY'.
  { split; [| |done..].
    - intros d Hd. destruct (L1 d Hd) as (Hk & Ho & ?). split_and!; [done| |done].
      rewrite <- (app_nil_r (concat segs)). apply (delta_obj_keep _ (bucket s)); [|done].
      apply Hlive. rewrite <- Hk. apply elem_of_app. left. by apply list_elem_of_fmap_2.
    - intros i Hi. destruct (L2 i Hi) as (Hk & Ho & ?). split_and!; [done| |done].
      rewrite <- (app_nil_r (concat segs)). apply (image_obj_keep _ (bucket s)); [|by rewrite Hfl|done].
      apply Hlive. rewrite <- Hk. apply elem_of_app. right. rewrite Hi. by apply list_elem_of_singleton. }
  split; rewrite ?S1, ?S3; [apply HL| |apply HL|done|by rewrite (lv_floor _ _ HL)|].
  - apply (Layers_Bucket _ _ _ (inner s)); [apply HB| |done|..].
    + apply (log_ok_agree _ (bucket s)); [by apply Hag | apply HB].
    + intros k Hk [b Hb]. destruct (decide (k ∈ dn)) as [Hin|Hn]; [by rewrite S4 in Hb|].
      rewrite S5 in Hb by done. destruct (decide (k ∈ live_keys (inner s))) as [Hlk|Hlk].
      * apply elem_of_app in Hlk as [(d & -> & Hd)%list_elem_of_fmap|Hi]; [eauto|].
        destruct (image (inner s)) as [i|] eqn:Ei; [|by apply elem_of_nil in Hi].
        apply list_elem_of_singleton in Hi as ->. destruct (L2 i eq_refl) as (E & _).
        rewrite E in Hk. by pose proof (of_kind_disjoint _ _ _ _ Hk (image_kind _ _)).
      * destruct Hn. apply Hdn. split_and!; [by left|by exists b|done].
    + intros k Hk [b Hb]. destruct (decide (k ∈ dn)) as [Hin|Hn]; [by rewrite S4 in Hb|].
      rewrite S5 in Hb by done. destruct (decide (k ∈ live_keys (inner s))) as [Hlk|Hlk].
      * apply elem_of_app in Hlk as [(d & -> & Hd)%list_elem_of_fmap|Hi].
        -- destruct (L1 d Hd) as (E & _). rewrite E in Hk.
           by pose proof (of_kind_disjoint _ _ _ _ Hk (delta_kind _ _ _)).
        -- destruct (image (inner s)) as [i|]; [|by apply elem_of_nil in Hi].
           apply list_elem_of_singleton in Hi as ->. eauto.
      * destruct Hn. apply Hdn. split_and!; [by right|by exists b|done].
  - intros k recs Hk%S6. by apply (lv_cache _ _ HL).
Qed.

Lemma gc_spec (s s' : Handle) segs r :
  Live s segs → gc s = (s', r) →
  prefix s' = prefix s ∧ inner s' = inner s ∧
  match r with
  | Ok _ => Live s' segs
  | Err e => e = Transient ∧ unreliable ∧ log_ok (prefix s) (bucket s') segs
  end.
Proof.
  intros HL. pose proof (lv_bucket _ _ HL) as HB. unfold gc, ask, comp_bind at 1 2. cbv beta iota.
  intros [(s1 & ds & Hd & H2)|(e & Hd & ->)]%comp_bind_inv; apply obj_list_spec in Hd as (Hq1 & Hc1 & Hr1).
  2:{ destruct Hr1, Hq1 as [Q1 Q2 Q3 Q4 _]. rewrite Q4. split_and!; try done. apply HB. }
  apply comp_bind_inv in H2 as [(s2 & is_ & Hi & H3)|(e & Hi & ->)];
    apply obj_list_spec in Hi as (Hq2 & Hc2 & Hr2);
    pose proof (quiet_trans _ _ _ Hq1 Hq2) as [Q1 Q2 Q3 Q4 _].
  2:{ destruct Hr2. rewrite Q4. split_and!; try done. apply HB. }
  assert (Live s2 segs) as HL2.
  { apply (Live_quiet' s); [by eapply quiet_trans|congruence|done]. }
  apply delete_all_spec in H3 as (dn & Hs & Hin & Hr). pose proof Hs as [S1 S2 S3 S4 S5 S6].
  assert (∀ k, k ∈ filter (.∉ live_keys (inner s)) (ds ++ is_) ↔
    (of_kind (prefix s) KDelta k ∨ of_kind (prefix s) KImage k) ∧ is_Some (bucket s !! k) ∧
    k ∉ live_keys (inner s)) as Hk.
  { intros k. destruct Hr1 as [_ Hr1], Hr2 as [_ Hr2].
    rewrite list_elem_of_filter, elem_of_app, Hr1, Hr2, (q_bucket _ _ Hq1).
    unfold delta_prefix, image_prefix.
    rewrite (prefix_kind (prefix s) KDelta), (prefix_kind (prefix s) KImage). tauto. }
  split_and!; [congruence..|]. destruct r as [[]|e].
  - apply (Live_swept s2 s' segs dn); [done..|]. rewrite Q1, Q3, Q4. intros k. rewrite <- Hk.
    split; auto.
  - destruct Hr as [-> ?]. split_and!; [done..|].
    apply (log_ok_agree _ (bucket s)); [|apply HB]. intros k Hkk. rewrite S5, Q4; [done|].
    intros [[H'|H'] _]%Hin%Hk; by pose proof (of_kind_disjoint _ _ _ _ Hkk H').
Qed.

(** ** Moving the retention floor *)

Lemma Bucket_floor p c segs lsn :
  is_u64 lsn → floor_of p c ≤ lsn → Bucket p c segs →
  Bucket p (<[retention_key p := u64_le lsn]> c) segs ∧
  floor_of p (<[retention_key p := u64_le lsn]> c) = lsn.
Proof.
  intros Hl Hle HB.
  assert (floor_of p (<[retention_key p := u64_le lsn]> c) = lsn) as Hf.
  { unfold floor_of. rewrite lookup_insert_eq, <- (app_nil_r (u64_le lsn)). by apply lease_epoch_u64. }
  split; [|done]. apply (Bucket_agree p c); try done; [..|by rewrite Hf];
    by apply (agree_insert _ _ KRetention); [apply retention_kind|].
Qed.

Lemma set_retention_floor_spec lsn (s s' : Handle) segs r :
  Live s segs → is_u64 lsn → set_retention_floor lsn s = (s', r) →
  prefix s' = prefix s ∧
  match r with
  | Ok _ => retention_floor (inner s) ≤ lsn ∧ Live s' segs ∧ retention_floor (inner s') = lsn
  | Err e => (e = Invalid ∧ lsn < retention_floor (inner s) ∧ s' = s) ∨
             (e = Transient ∧ unreliable ∧ Bucket (prefix s') (bucket s') segs)
  end.
Proof.
  intros HL Hl. unfold set_retention_floor.
  destruct (Z.ltb_spec lsn (retention_floor (inner s))) as [Hlt|Hge].
  { intros [= <- <-]. auto. }
  pose proof (lv_floor _ _ HL) as Hf. rewrite Hf in Hge.
  destruct (Bucket_floor _ _ segs lsn Hl Hge (lv_bucket _ _ HL)) as [HB Hfl].
  intros [(s1 & t & Hp & H2)|(e & Hp & ->)]%comp_bind_inv; apply obj_put_spec in Hp.
  - injection H2 as <- <-. destruct Hp as [Ep Ec Ei Eca Eb].
    split; [done|]. cbn. rewrite Hf. split_and!; [done| |done].
    split; cbn; rewrite ?Ep, ?Ei, ?Eca, ?Eb; [apply HL|done| | |done|apply HL].
    + by destruct (lv_counters _ _ HL).
    + apply (Layers_agree _ (bucket s) _ _ (inner s)); try done; [..|lia|apply HL];
        by apply (agree_insert _ _ KRetention); [apply retention_kind|].
  - destruct Hp as (-> & Hu & [[Hq Hc]|Hst]).
    + split; [apply Hq|]. right. split_and!; [done..|]. apply (Live_quiet' s s' segs Hq Hc HL).
    + split; [apply Hst|]. right. split_and!; [done..|].
      by rewrite (st_prefix _ _ _ _ Hst), (st_bucket _ _ _ _ Hst).
Qed.
End Compact.
End ObjCompact.
