(* ===== verification/ObjRecover.v ===== *)
(** * Recovery of the disaggregated backend

    Opening a bucket that satisfies [Bucket] gives a live handle on exactly the log in it: the
    layers are rediscovered by listing, the log is replayed in slot order above the flushed
    mark. *)

From S2P Require Import Prelude Text StorageTypes ObjCodec ObjStore ObjStorage ObjVersions.
From S2P Require Import ObjInv ObjLive ObjWrite.

Module ObjRecover.
Import Codec Obj ObjKeys Versions ObjInv ObjCalls ObjLive ObjWrite.

(** ** Folds of the scans *)

Lemma fold_max_spec l a :
  a ≤ fold_left Z.max l a ∧ (∀ x, x ∈ l → x ≤ fold_left Z.max l a) ∧
  (fold_left Z.max l a = a ∨ fold_left Z.max l a ∈ l).
Proof.
  revert a. induction l as [|y l IH]; intros a; cbn [fold_left].
  - split_and!; [lia|by intros x ?%elem_of_nil|by left].
  - destruct (IH (Z.max a y)) as (H1 & H2 & H3). split_and!; [lia| |].
    + intros x [->|Hx]%elem_of_cons; [lia|auto].
    + destruct H3 as [->|?]; [|right; by apply list_elem_of_further].
      destruct (Z.max_spec a y) as [[_ ->]|[_ ->]]; [right; apply list_elem_of_here | by left].
Qed.

(** [newer_image] keeps the image with the greatest LSN among the names that parse. *)
Lemma newer_image_spec p ks acc :
  (∀ k, k ∈ ks → ∃ l, k = image_key p l ∧ is_u64 l) →
  match fold_left newer_image ks acc with
  | None => acc = None ∧ ks = []
  | Some i => (acc = Some i ∨ (i_key i ∈ ks ∧ i_key i = image_key p (image_lsn i) ∧ is_u64 (image_lsn i))) ∧
              (∀ j, acc = Some j → image_lsn j ≤ image_lsn i) ∧
              (∀ l, is_u64 l → image_key p l ∈ ks → l ≤ image_lsn i)
  end.
Proof.
  revert acc. induction ks as [|k ks IH]; intros acc Hks; cbn [fold_left].
  - destruct acc as [i|]; [|done]. split_and!; [by left|by intros j [= ->]|].
    by intros l _ ?%elem_of_nil.
  - destruct (Hks k) as (l & -> & Hl); [apply list_elem_of_here|].
    assert (∃ j, newer_image acc (image_key p l) = Some j ∧ l ≤ image_lsn j ∧
      (∀ a, acc = Some a → image_lsn a ≤ image_lsn j) ∧
      (acc = Some j ∨ j = mkImage l (image_key p l))) as (j & Ej & J1 & J2 & J3).
    { unfold newer_image. rewrite parse_image_key by done. destruct acc as [a|].
      - destruct (Z.ltb_spec (image_lsn a) l).
        + eexists. split_and!; [done|cbn; lia|intros ? [= ->]; cbn; lia|by right].
        + eexists. split_and!; [done|done|by intros ? [= ->]|by left].
      - eexists. split_and!; [done|cbn; lia|done|by right]. }
    specialize (IH (newer_image acc (image_key p l))).
    destruct (fold_left _ _ _) as [i|]; [|destruct IH; [|congruence];
      intros k' Hk'; apply Hks; by apply list_elem_of_further].
    destruct IH as (H1 & H2 & H3); [intros k' Hk'; apply Hks; by apply list_elem_of_further|].
    specialize (H2 j Ej). split_and!.
    + destruct H1 as [E|(? & ? & ?)]; [|right; split_and!; [by apply list_elem_of_further|done..]].
      rewrite Ej in E. injection E as ->. destruct J3 as [?| ->]; [by left|right].
      split_and!; [apply list_elem_of_here|done..].
    + intros a Ha. specialize (J2 a Ha). lia.
    + intros l' Hl' [E|?]%elem_of_cons; [|auto]. apply image_key_inj in E as ->; [lia|done..].
Qed.

(** ** Replaying the log *)

(** The accumulator after the segments [pre]. *)
Record Replayed (hw : Z) (pre : list (list LogItem)) (r : LogReplay) : Prop := {
  rp_seq : max_seq r = zlen pre;
  rp_next : r_next_lsn r = zlen (concat pre) + 1;
  rp_durable : r_durable_lsn r = zlen (concat pre);
  rp_commit : r_commit_lsn r = commit_of pre;
  rp_mem : mem_ok (concat pre) hw (r_memtable r)
}.

Lemma replay_item_spec hw x r w items :
  r_next_lsn r = zlen items + 1 → r_durable_lsn r = zlen items → mem_ok items hw (r_memtable r) →
  let '(r', w') := replay_item hw (r, w) x in
  max_seq r' = max_seq r ∧ r_next_lsn r' = zlen (items ++ [x]) + 1 ∧
  r_durable_lsn r' = zlen (items ++ [x]) ∧ r_commit_lsn r' = r_commit_lsn r ∧
  mem_ok (items ++ [x]) hw (r_memtable r') ∧ w' = w || is_wal x.
Proof.
  intros Hn Hd Hm.
  assert (zlen (items ++ [x]) = zlen items + 1) as Hz by (rewrite zlen_app; reflexivity).
  destruct x as [b|id img]; cbn [replay_item is_wal];
    [|destruct (Z.ltb_spec hw (r_next_lsn r))]; cbn; rewrite Hn, ?orb_true_r, ?orb_false_r in *;
    split_and!; try done; try lia.
  - by apply mem_ok_wal.
  - apply mem_ok_page; [lia|done].
  - apply mem_ok_page_old; [lia|done].
Qed.

Lemma replay_items_spec hw seg r w items :
  r_next_lsn r = zlen items + 1 → r_durable_lsn r = zlen items → mem_ok items hw (r_memtable r) →
  let '(r', w') := fold_left (replay_item hw) seg (r, w) in
  max_seq r' = max_seq r ∧ r_next_lsn r' = zlen (items ++ seg) + 1 ∧
  r_durable_lsn r' = zlen (items ++ seg) ∧ r_commit_lsn r' = r_commit_lsn r ∧
  mem_ok (items ++ seg) hw (r_memtable r') ∧ w' = w || existsb is_wal seg.
Proof.
  revert r w items. induction seg as [|x seg IH]; intros r w items Hn Hd Hm; cbn [fold_left existsb].
  - by rewrite app_nil_r, orb_false_r.
  - rewrite (cons_middle x items seg), app_assoc.
    pose proof (replay_item_spec hw x r w items Hn Hd Hm) as Hx.
    destruct (replay_item hw (r, w) x) as [r1 w1]. destruct Hx as (E1 & E2 & E3 & E4 & E5 & ->).
    specialize (IH r1 (w || is_wal x) (items ++ [x]) E2 E3 E5).
    destruct (fold_left _ _ _) as [r2 w2]. rewrite <- orb_assoc in IH.
    destruct IH as (? & ? & ? & ? & ? & ?). split_and!; done || congruence.
Qed.

Lemma replay_segment_spec hw pre seg r :
  Replayed hw pre r → Replayed hw (pre ++ [seg]) (replay_segment hw r (Some (zlen pre + 1)) seg).
Proof.
  intros [H1 H2 H3 H4 H5]. unfold replay_segment.
  pose proof (replay_items_spec hw seg (mkReplay (Z.max (max_seq r) (zlen pre + 1)) (r_next_lsn r)
    (r_durable_lsn r) (r_commit_lsn r) (r_memtable r) (r_memtable_bytes r)) false (concat pre)
    H2 H3 H5) as H.
  destruct (fold_left _ _ _) as [r' w]. destruct H as (E1 & E2 & E3 & E4 & E5 & ->).
  cbn [max_seq r_commit_lsn orb] in *.
  assert (max_seq r' = zlen (pre ++ [seg])) as Hs by (rewrite E1, zlen_app, zlen_cons, zlen_nil, H1; lia).
  destruct (existsb is_wal seg) eqn:Ew; split; cbn; rewrite ?concat_snoc, ?commit_of_snoc, ?Ew, ?concat_snoc;
    done || congruence.
Qed.

(** The discovered layers are the layers of a live handle. *)
Lemma Layers_discovered p c segs g ds img :
  Bucket p c segs →
  (∀ d, d ∈ ds ↔ d_key d = delta_key p (d_lo d) (d_hi d) ∧ delta_obj p c (concat segs) (d_lo d) (d_hi d)) →
  match img with
  | None => ∀ l, ¬ image_obj p c (concat segs) l
  | Some i => i_key i = image_key p (image_lsn i) ∧ image_obj p c (concat segs) (image_lsn i) ∧
      ∀ l, image_obj p c (concat segs) l → l ≤ image_lsn i
  end →
  deltas g = ds → image g = img →
  flushed_hw g = fold_left Z.max (List.map d_hi ds ++
    match img with Some i => [image_lsn i] | None => [] end) 0 →
  mem_ok (concat segs) (flushed_hw g) (memtable g) → Layers p c (concat segs) g.
Proof.
  intros HB Hds Himg Ed Ei Ehw Hm.
  pose proof (fold_max_spec (List.map d_hi ds ++
    match img with Some i => [image_lsn i] | None => [] end) 0) as (M1 & M2 & M3).
  rewrite <- Ehw in *.
  assert (∀ d, d ∈ ds → d_hi d ≤ flushed_hw g) as Hdhw.
  { intros d Hd. apply M2, elem_of_app. left. by apply list_elem_of_fmap_2. }
  assert (∀ lo hi, delta_obj p c (concat segs) lo hi → mkDelta lo hi (delta_key p lo hi) ∈ ds) as Hobj.
  { intros lo hi Ho. by apply Hds. }
  assert (∀ i, img = Some i → image_lsn i ≤ flushed_hw g) as Hihw.
  { intros i ->. apply M2, elem_of_app. right. by apply list_elem_of_singleton. }
  assert (∀ r, r ∈ versions (concat segs) → rec_lsn r ≤ flushed_hw g →
            reached p c (concat segs) (rec_lsn r)) as Hre.
  { intros r Hr Hle. apply versions_range in Hr.
    destruct M3 as [?|[(d & E & [_ Ho]%Hds)%list_elem_of_fmap|Hi]%elem_of_app]; [lia| |].
    - left. exists (d_lo d), (d_hi d). split; [done|lia].
    - destruct img as [i|]; [|by apply elem_of_nil in Hi]. apply list_elem_of_singleton in Hi.
      right. exists (image_lsn i). destruct Himg as (_ & ? & _). split; [done|lia]. }
  assert (0 ≤ flushed_hw g ≤ zlen (concat segs)) as Hhw.
  { split; [done|]. destruct M3 as [->|[(d & -> & [_ Ho]%Hds)%list_elem_of_fmap|Hi]%elem_of_app];
      [apply zlen_nonneg|apply Ho|]. destruct img as [i|]; [|by apply elem_of_nil in Hi].
    apply list_elem_of_singleton in Hi as ->. apply Himg. }
  split; rewrite ?Ed, ?Ei; try done.
  - intros d Hd. destruct (proj1 (Hds d) Hd). auto.
  - intros i ->. destruct Himg as (? & ? & _). split_and!; [done..|]. intros r _ Hr.
    specialize (Hihw i eq_refl). lia.
  - intros r Hr Hle. destruct (bk_cover _ _ _ HB r Hr (Hre r Hr Hle)) as [(lo & hi & Ho & ?)|(l & Ho & Hl)].
    + left. eexists. split; [by apply Hobj|done].
    + right. destruct img as [i|]; [|by destruct (Himg l)]. exists i. split; [done|].
      destruct Himg as (_ & _ & Hmax). specialize (Hmax l Ho). lia.
  - intros d r Hd Hr Hsp. destruct (proj1 (Hds d) Hd) as [_ Ho].
    destruct (bk_up _ _ _ HB _ _ r Ho Hr) as (lo & hi & Ho' & ?); [lia|apply Hre; [done|lia]|].
    eexists. split; [by apply Hobj|done].
Qed.

Lemma branch_of_payload id base parent :
  is_u64 id → is_u64 base → is_u64 parent →
  branch_of (branch_payload id base parent) = Some (mkBranch id parent base base).
Proof.
  intros H1 H2 H3. unfold branch_of, branch_payload. rewrite !zlen_app, !zlen_u64. cbn [Z.ltb].
  rewrite (slice_app_mid (u64_le id) (u64_le base) (u64_le parent) 8 16),
    (slice_prefix (u64_le id) _ 8), app_assoc,
    (slice_suffix (u64_le id ++ u64_le base) (u64_le parent) 16 24)
    by (rewrite ?zlen_app, ?zlen_u64; done).
  by rewrite !from_le_u64.
Qed.

(** Listing the log and sorting the names gives the slots in order. *)
Lemma log_listing p c ks segs :
  NoDup ks ∧ (∀ k, k ∈ ks ↔ starts_with (log_prefix p) k = true ∧ is_Some (c !! k)) →
  Bucket p c segs → merge_sort String.le ks = log_keys p (zlen segs).
Proof.
  intros [Hnd Hks] HB. apply sort_log_keys; [|done|].
  - pose proof (so_segs _ (bk_segs _ _ _ HB)). pose proof (zlen_nonneg segs). lia.
  - intros k. rewrite Hks. unfold log_prefix. rewrite (prefix_kind p KLog). split.
    + intros [Hk Hs]. by apply (log_ok_keys p c segs) in Hs; [|apply HB|].
    + intros (i & Hi & ->). split; [apply log_kind|].
      apply (log_ok_keys p c segs); [apply HB|apply log_kind|eauto].
Qed.

Section Recover.
Context {St : Type} `{Laws : ObjectStoreLaws St}.
Abbreviation Handle := (ObjectStorage St).
Abbreviation bucket s := (contents (store s)).
Abbreviation unreliable := (¬ ReliableStore St).

Lemma read_segment_spec (s s' : Handle) segs i seg r :
  Bucket (prefix s) (bucket s) segs → segs !! i = Some seg →
  read_segment (log_key (prefix s) (Z.of_nat i + 1)) s = (s', r) →
  quiet s s' ∧ cache s' = cache s ∧ (r = Ok seg ∨ (r = Err Transient ∧ unreliable)).
Proof.
  intros HB Hi. unfold read_segment.
  intros [(s1 & g & Hg & H2)|(e & Hg & ->)]%comp_bind_inv; apply obj_get_spec in Hg as (Hq & Hc & Hg).
  2:{ destruct Hg as [-> ?]. auto. }
  rewrite (log_ok_lookup _ _ _ _ _ (bk_log _ _ _ HB) Hi) in Hg. destruct g as [g|]; [|done].
  destruct Hg as [[= E] _]. rewrite <- E in H2. clear E. destruct (bk_segs _ _ _ HB) as [Hok Hcnt _].
  assert (concat segs ≡ₚ seg ++ concat (take i segs ++ drop (S i) segs)) as Hperm.
  { rewrite <- (take_drop_middle segs i seg Hi) at 1. rewrite !concat_app, concat_cons. solve_Permutation. }
  rewrite decode_segment_encode in H2.
  - injection H2 as <- <-. auto.
  - rewrite Hperm in Hok. by apply Forall_app in Hok as [? _].
  - assert (zlen (concat segs) = zlen (seg ++ concat (take i segs ++ drop (S i) segs))) as E.
    { unfold zlen. by rewrite Hperm. }
    rewrite zlen_app in E. pose proof (zlen_nonneg (concat (take i segs ++ drop (S i) segs))).
    pose proof (zlen_nonneg seg). unfold is_u32. lia.
Qed.

Lemma replay_keys_spec hw rest pre (s s' : Handle) acc r :
  Bucket (prefix s) (bucket s) (pre ++ rest) → Replayed hw pre acc →
  replay_keys hw (log_key (prefix s) <$> seqZ (zlen pre + 1) (zlen rest)) acc s = (s', r) →
  quiet s s' ∧ cache s' = cache s ∧
  match r with
  | Ok acc' => Replayed hw (pre ++ rest) acc'
  | Err e => e = Transient ∧ unreliable
  end.
Proof.
  revert pre s acc. induction rest as [|seg rest IH]; intros pre s acc HB Hacc.
  - cbn. intros [= <- <-]. rewrite app_nil_r. split_and!; [apply quiet_refl|done..].
  - rewrite zlen_cons. pose proof (zlen_nonneg rest). rewrite seqZ_cons by lia.
    replace (Z.pred (1 + zlen rest)) with (zlen rest) by lia.
    replace (Z.succ (zlen pre + 1)) with (zlen (pre ++ [seg]) + 1) by (rewrite zlen_app, zlen_cons, zlen_nil; lia).
    rewrite fmap_cons. cbn [replay_keys].
    assert (zlen pre + 1 < 2 ^ 64) as Hb.
    { pose proof (so_segs _ (bk_segs _ _ _ HB)) as Hs. rewrite zlen_app, zlen_cons in Hs. lia. }
    intros [(s1 & items & Hr & H2)|(e & Hr & ->)]%comp_bind_inv;
      (apply (read_segment_spec _ _ (pre ++ seg :: rest) (length pre) seg) in Hr as (Hq & Hc & Hr);
        [|done|by rewrite lookup_app_r, Nat.sub_diag by lia]);
      (destruct Hr as [Hr|[Hr ?]]; [try discriminate Hr | try discriminate Hr]).
    2:{ by injection Hr as ->. }
    injection Hr as ->. rewrite parse_log_key in H2 by (pose proof (zlen_nonneg pre); unfold is_u64; lia).
    pose proof Hq as [Q1 Q2 Q3 Q4 _]. rewrite <- Q1 in H2.
    apply IH in H2 as (Hq2 & Hc2 & H3); [|rewrite Q1, Q4, <- app_assoc; done|by apply replay_segment_spec].
    rewrite <- app_assoc in H3. split_and!; [by eapply quiet_trans|congruence|done].
Qed.

Lemma replay_log_spec hw (s s' : Handle) segs r :
  Bucket (prefix s) (bucket s) segs → replay_log hw s = (s', r) →
  quiet s s' ∧ cache s' = cache s ∧
  match r with
  | Ok acc => Replayed hw segs acc
  | Err e => e = Transient ∧ unreliable
  end.
Proof.
  intros HB. unfold replay_log, ask, comp_bind at 1. cbv beta iota.
  intros [(s1 & ks & Hl & H2)|(e & Hl & ->)]%comp_bind_inv;
    apply obj_list_spec in Hl as (Hq & Hc & Hks); [|done].
  destruct Hks as [Hnd Hks]. pose proof Hq as [Q1 Q2 Q3 Q4 _].
  rewrite (log_listing _ _ _ segs (conj Hnd Hks) HB) in H2. unfold log_keys in H2. rewrite <- Q1 in H2.
  apply (replay_keys_spec hw segs []) in H2 as (Hq2 & Hc2 & Hr).
  - split_and!; [by eapply quiet_trans|congruence|done].
  - by rewrite Q1, Q4.
  - split; try done. apply mem_ok_nil.
Qed.

Lemma read_floor_spec (s s' : Handle) r :
  read_floor s = (s', r) →
  quiet s s' ∧ cache s' = cache s ∧
  match r with Ok f => f = floor_of (prefix s) (bucket s) | Err e => e = Transient ∧ unreliable end.
Proof.
  unfold read_floor, ask, comp_bind at 1. cbv beta iota.
  intros [(s2 & g & Hg & H3)|(e & Hg & ->)]%comp_bind_inv;
    apply obj_get_spec in Hg as (Hq & Hc & Hg); [|done].
  injection H3 as <- <-. split_and!; [done..|]. unfold floor_of.
  destruct g as [g|]; [destruct Hg as [-> ?] | rewrite Hg]; done.
Qed.

(** ** Discovering the layers *)

Lemma delta_metas_elem (s : Handle) segs dkeys d :
  Bucket (prefix s) (bucket s) segs →
  (∀ k, k ∈ dkeys ↔ starts_with (delta_prefix (prefix s)) k = true ∧ is_Some (bucket s !! k)) →
  d ∈ merge_sort hi_le (omap (λ k, '(lo, hi) ← parse_delta_name k; Some (mkDelta lo hi k)) dkeys) ↔
  d_key d = delta_key (prefix s) (d_lo d) (d_hi d) ∧
  delta_obj (prefix s) (bucket s) (concat segs) (d_lo d) (d_hi d).
Proof.
  intros HB Hk. rewrite merge_sort_Permutation, list_elem_of_omap.
  unfold delta_prefix in Hk. setoid_rewrite (prefix_kind (prefix s) KDelta) in Hk. split.
  - intros (k & [Hkind Hs]%Hk & E). destruct (bk_delta _ _ _ HB k Hkind Hs) as (lo & hi & -> & Ho).
    rewrite parse_delta_key in E by apply Ho. by injection E as <-.
  - intros [E Ho]. exists (d_key d). rewrite E, Hk. split.
    + split; [apply delta_kind | by eapply delta_obj_exists].
    + rewrite parse_delta_key by apply Ho. destruct d; cbn in *. by subst.
Qed.

Lemma discover_layers_spec (s s' : Handle) segs r :
  Bucket (prefix s) (bucket s) segs → discover_layers s = (s', r) →
  quiet s s' ∧ cache s' = cache s ∧
  match r with
  | Ok (ds, img, hw) => ∀ g, deltas g = ds → image g = img → flushed_hw g = hw →
      mem_ok (concat segs) hw (memtable g) → Layers (prefix s) (bucket s) (concat segs) g
  | Err e => e = Transient ∧ unreliable
  end.
Proof.
  intros HB. unfold discover_layers, ask, comp_bind at 1. cbv beta iota.
  intros [(s1 & dkeys & Hd & H2)|(e & Hd & ->)]%comp_bind_inv;
    apply obj_list_spec in Hd as (Hq1 & Hc1 & Hr1); [|done].
  apply comp_bind_inv in H2 as [(s2 & ikeys & Hi & H3)|(e & Hi & ->)];
    apply obj_list_spec in Hi as (Hq2 & Hc2 & Hr2);
    pose proof (quiet_trans _ _ _ Hq1 Hq2) as Hq; (split; [by try injection H3 as <- <-|]);
    (split; [try injection H3 as <- <-; congruence|]); [|done].
  injection H3 as <- <-. destruct Hr1 as [_ Hr1], Hr2 as [_ Hr2]. rewrite (q_bucket _ _ Hq1) in Hr2.
  intros g Eds Eimg Ehw Hmem.
  pose proof (λ d, delta_metas_elem s segs dkeys d HB Hr1) as Hds.
  set (ds := merge_sort _ _) in *.
  pose proof (newer_image_spec (prefix s) ikeys None) as Himg.
  set (img := fold_left newer_image ikeys None) in *.
  assert (∀ l, image_obj (prefix s) (bucket s) (concat segs) l → image_key (prefix s) l ∈ ikeys) as Hin.
  { intros l Ho. apply Hr2. split; [|by eapply image_obj_exists].
    apply (prefix_kind (prefix s) KImage), image_kind. }
  assert (∀ k, k ∈ ikeys → ∃ l, k = image_key (prefix s) l ∧
            image_obj (prefix s) (bucket s) (concat segs) l) as Hik.
  { intros k [Hk Hs]%Hr2. apply (prefix_kind (prefix s) KImage) in Hk. apply (bk_image _ _ _ HB k Hk Hs). }
  assert (match img with
    | None => ∀ l, ¬ image_obj (prefix s) (bucket s) (concat segs) l
    | Some i => i_key i = image_key (prefix s) (image_lsn i) ∧
        image_obj (prefix s) (bucket s) (concat segs) (image_lsn i) ∧
        ∀ l, image_obj (prefix s) (bucket s) (concat segs) l → l ≤ image_lsn i
    end) as Hbest.
  { destruct img as [i|].
    - destruct Himg as ([?|(H1 & H2 & H3)] & _ & H4); [|done|].
      { intros k (l & -> & Ho)%Hik. exists l. split; [done|apply Ho]. }
      split_and!; [done| |intros l Ho; apply H4; [apply Ho|by apply Hin]].
      destruct (Hik _ H1) as (l & E & Ho). rewrite H2 in E.
      by apply image_key_inj in E as ->; [|done|apply Ho].
    - destruct Himg as [_ ->]; [intros k (l & -> & Ho)%Hik; exists l; split; [done|apply Ho]|].
      intros l Ho%Hin. by apply elem_of_nil in Ho. }
  apply (Layers_discovered _ _ segs g ds img); try done.
  by rewrite Ehw.
Qed.

(** ** Branch pointers *)

Lemma load_branch_keys_spec m keys acc (s s' : Handle) r :
  Branches (prefix s) (bucket s) m →
  (∀ k, k ∈ keys → of_kind (prefix s) KBranch k ∧ is_Some (bucket s !! k)) →
  (∀ id b, acc.1 !! id = Some b → m !! id = Some b ∧ id < acc.2) → 1 ≤ acc.2 →
  load_branch_keys keys acc s = (s', r) →
  quiet s s' ∧ cache s' = cache s ∧
  match r with
  | Ok acc' => (∀ id b, acc'.1 !! id = Some b → m !! id = Some b ∧ id < acc'.2) ∧ 1 ≤ acc'.2 ∧
      (∀ id b, m !! id = Some b → branch_key (prefix s) id ∈ keys ∨ acc.1 !! id = Some b →
         acc'.1 !! id = Some b)
  | Err e => e = Transient ∧ unreliable
  end.
Proof.
  revert acc s. induction keys as [|k keys IH]; intros acc s HB Hks Hacc Hge; cbn [load_branch_keys].
  - intros [= <- <-]. split_and!; [apply quiet_refl|done..|]. intros id b _ [?%elem_of_nil|?]; done.
  - destruct (Hks k) as [Hkind Hs]; [apply list_elem_of_here|].
    assert (∀ k', k' ∈ keys → of_kind (prefix s) KBranch k' ∧ is_Some (bucket s !! k')) as Hks'.
    { intros k' Hk'. apply Hks. by apply list_elem_of_further. }
    destruct (ends_with ".ptr" k) eqn:Hptr; cbn [negb].
    + destruct (br_ptr _ _ _ HB k Hkind Hptr Hs) as (id & [b Hid] & ->).
      destruct (br_obj _ _ _ HB id b Hid) as (H1 & H2 & H3 & H4).
      intros [(s1 & g & Hg & H5)|(e & Hg & ->)]%comp_bind_inv;
        apply obj_get_spec in Hg as (Hq & Hc & Hg); [|done].
      rewrite H4 in Hg. destruct g as [g|]; [|done]. destruct Hg as [[= E] _].
      cbn [mbind option_bind] in H5. rewrite <- E, branch_of_payload in H5 by done. rewrite <- H3 in H5.
      assert (br_id b = id) as Eid by (by rewrite H3). rewrite Eid in H5.
      pose proof Hq as [Q1 Q2 Q3 Q4 _].
      apply IH in H5 as (Hq2 & Hc2 & H6); rewrite ?Q1, ?Q4; try done.
      * split_and!; [by eapply quiet_trans|congruence|]. destruct r as [acc'|]; [|done].
        destruct H6 as (A1 & A2 & A3). split_and!; [done..|]. rewrite Q1 in A3.
        intros id' b' Hm Hor. apply A3; [done|]. destruct (decide (id' = id)) as [->|Hne].
        -- right. cbn. rewrite lookup_insert_eq. congruence.
        -- destruct Hor as [[Ek|?]%elem_of_cons|?]; [|by left|right; cbn; by rewrite lookup_insert_ne].
           apply branch_key_inj in Ek; [done| |done]. by destruct (br_obj _ _ _ HB id' b' Hm).
      * cbn. intros id' b'. destruct (decide (id = id')) as [<-|Hne].
        -- rewrite lookup_insert_eq. intros [= <-]. split; [done|lia].
        -- rewrite lookup_insert_ne by done. intros [? ?]%Hacc. split; [done|lia].
      * cbn. lia.
    + intros (Hq2 & Hc2 & H6)%IH; try done. split_and!; [done..|]. destruct r as [acc'|]; [|done].
      destruct H6 as (A1 & A2 & A3). split_and!; [done..|].
      intros id' b' Hm [[Ek|?]%elem_of_cons|?]; [|by apply A3; [|left]|by apply A3; [|right]].
      exfalso. rewrite <- Ek in Hptr. unfold branch_key in Hptr.
      by rewrite <- !str_app_assoc, ends_with_app in Hptr.
Qed.

Lemma load_branches_spec m (s s' : Handle) r :
  Branches (prefix s) (bucket s) m → load_branches s = (s', r) →
  quiet s s' ∧ cache s' = cache s ∧
  match r with
  | Ok (m', n) => m' = m ∧ ∀ id, is_Some (m !! id) → id < n
  | Err e => e = Transient ∧ unreliable
  end.
Proof.
  intros HB. unfold load_branches, ask, comp_bind at 1. cbv beta iota.
  intros [(s1 & ks & Hl & H2)|(e & Hl & ->)]%comp_bind_inv;
    apply obj_list_spec in Hl as (Hq & Hc & Hks); [|done].
  destruct Hks as [_ Hks]. unfold branches_prefix in Hks.
  setoid_rewrite (prefix_kind (prefix s) KBranch) in Hks. pose proof Hq as [Q1 Q2 Q3 Q4 _].
  apply (load_branch_keys_spec m) in H2 as (Hq2 & Hc2 & Hr); rewrite ?Q1, ?Q4; try done;
    [|by intros k ?%Hks].
  split_and!; [by eapply quiet_trans|congruence|]. destruct r as [[m' n]|]; [|done].
  destruct Hr as (A1 & A2 & A3). cbn in *. rewrite Q1 in A3. split.
  - apply map_eq. intros id. apply option_eq. intros b. split; [by intros [? _]%A1|].
    intros Hm. apply A3; [done|]. left. apply Hks.
    destruct (br_obj _ _ _ HB id b Hm) as (_ & _ & _ & ->). split; [apply branch_kind|by eexists].
  - intros id [b Hm]. assert (m' !! id = Some b) as [_ ?]%A1; [|done].
    apply A3; [done|]. left. apply Hks.
    destruct (br_obj _ _ _ HB id b Hm) as (_ & _ & _ & ->). split; [apply branch_kind|by eexists].
Qed.

(** Whatever the pointers hold, loading them changes nothing and fails only with the client. *)
Lemma load_branch_keys_quiet keys acc (s s' : Handle) r :
  load_branch_keys keys acc s = (s', r) →
  quiet s s' ∧ cache s' = cache s ∧
  match r with Ok _ => True | Err e => e = Transient ∧ unreliable end.
Proof.
  revert acc s. induction keys as [|k keys IH]; intros acc s; cbn [load_branch_keys].
  - intros [= <- <-]. split_and!; [apply quiet_refl|done..].
  - destruct (negb _); [apply IH|].
    intros [(s1 & g & Hg & H5)|(e & Hg & ->)]%comp_bind_inv;
      apply obj_get_spec in Hg as (Hq & Hc & Hg); [|done].
    apply IH in H5 as (Hq2 & Hc2 & Hr). split_and!; [by eapply quiet_trans|congruence|done].
Qed.

Lemma load_branches_quiet (s s' : Handle) r :
  load_branches s = (s', r) →
  quiet s s' ∧ cache s' = cache s ∧
  match r with Ok _ => True | Err e => e = Transient ∧ unreliable end.
Proof.
  unfold load_branches, ask, comp_bind at 1. cbv beta iota.
  intros [(s1 & ks & Hl & H2)|(e & Hl & ->)]%comp_bind_inv;
    apply obj_list_spec in Hl as (Hq & Hc & Hks); [|done].
  apply load_branch_keys_quiet in H2 as (Hq2 & Hc2 & Hr).
  split_and!; [by eapply quiet_trans|congruence|done].
Qed.

(** ** Recovery as a whole *)

(** The pointers found are the ones in the bucket, when no other object looks like a pointer. *)
Definition branches_found (p : string) (c : gmap string bytes) (g : Inner) : Prop :=
  ∀ m, Branches p c m →
    branches g = m ∧ ∀ id, is_Some (m !! id) → id < next_branch_id g.

Lemma object_recover_spec (s s' : Handle) segs r :
  kind_visible (prefix s) → Bucket (prefix s) (bucket s) segs → cache s = ∅ →
  recover s = (s', r) →
  prefix s' = prefix s ∧ bucket s' = bucket s ∧
  match r with
  | Ok _ => Live s' segs ∧ epoch (inner s') = epoch_of (prefix s) (bucket s) ∧
            branches_found (prefix s) (bucket s) (inner s')
  | Err e => e = Transient ∧ unreliable
  end.
Proof.
  intros Hv HB Hca. unfold recover.
  intros [(s1 & [[ds img] hw] & H1 & H2)|(e & H1 & ->)]%comp_bind_inv;
    apply (discover_layers_spec _ _ segs) in H1 as (Hq1 & Hc1 & Hr1); try done.
  2:{ by destruct Hq1. }
  apply comp_bind_inv in H2 as [(s2 & rp & H2 & H3)|(e & H2 & ->)];
    apply (replay_log_spec _ _ _ segs) in H2 as (Hq2 & Hc2 & Hr2);
    try (rewrite (q_prefix _ _ Hq1), (q_bucket _ _ Hq1); done);
    pose proof (quiet_trans _ _ _ Hq1 Hq2) as Hq12; [|by destruct Hq12].
  apply comp_bind_inv in H3 as [(s3 & [m' n] & H3 & H4)|(e & H3 & ->)];
    pose proof (load_branches_quiet _ _ _ H3) as (Hq3 & Hc3 & Hr3);
    pose proof (quiet_trans _ _ _ Hq12 Hq3) as Hq13; [|by destruct Hq13].
  apply comp_bind_inv in H4 as [(s4 & [ep t] & H4 & H5)|(e & H4 & ->)];
    apply durable_epoch_spec in H4 as (Hq4 & Hc4 & Hr4);
    pose proof (quiet_trans _ _ _ Hq13 Hq4) as Hq14; [|by destruct Hq14].
  apply comp_bind_inv in H5 as [(s5 & fl & H5 & H6)|(e & H5 & ->)];
    apply read_floor_spec in H5 as (Hq5 & Hc5 & Hr5);
    pose proof (quiet_trans _ _ _ Hq14 Hq5) as [P1 P2 P3 P4 _]; [|done].
  injection H6 as <- <-. cbn. destruct Hr4 as [-> _], Hq13 as [Q1 _ _ Q4 _].
  destruct Hq14 as [R1 _ _ R4 _], Hq12 as [T1 _ _ T4 _]. rewrite Q1, Q4. rewrite R1, R4 in Hr5. subst fl.
  split_and!; try done.
  - split; cbn; rewrite ?P1, ?P4; try done.
    + destruct Hr2 as [E1 E2 E3 E4 E5]. split; cbn; [lia|done..].
    + apply Hr1; try done. apply Hr2.
    + rewrite Hc5, Hc4, Hc3, Hc2, Hc1, Hca. intros k recs. by rewrite lookup_empty.
  - intros m Hm. rewrite <- T1, <- T4 in Hm.
    by apply (load_branches_spec m) in H3 as (_ & _ & -> & ?).
Qed.

Lemma with_store_spec st p c st' segs r :
  kind_visible (normal_prefix p) → Bucket (normal_prefix p) (contents st) segs →
  with_store st p c = (st', r) →
  contents st' = contents st ∧
  match r with
  | Ok s => store s = st' ∧ prefix s = normal_prefix p ∧ Live s segs ∧
            epoch (inner s) = epoch_of (normal_prefix p) (contents st) ∧
            branches_found (normal_prefix p) (contents st) (inner s)
  | Err e => e = Transient ∧ unreliable
  end.
Proof.
  intros Hv HB. unfold with_store. set (s0 := mkObj _ _ _ _ _).
  destruct (recover s0) as [s r'] eqn:E.
  apply (object_recover_spec _ _ segs) in E as (E1 & E2 & Hr); try done.
  destruct r' as [[]|e]; intros [= <- <-]; (split; [done|]); [|done].
  destruct Hr as (? & ? & ?). done.
Qed.
End Recover.
End ObjRecover.
