(* ===== verification/ObjBranches.v ===== *)
(** * Fencing, branches and the recovery scan of the disaggregated backend *)

From S2P Require Import Prelude Text StorageTypes ObjCodec ObjStore ObjStorage ObjVersions ObjInv ObjLive.
From S2P Require Import ObjWrite ObjRecover.

Module ObjFence.
Import Codec Obj ObjKeys Versions ObjInv ObjCalls ObjLive ObjWrite ObjRecover.

(** The WAL records of a log whose first item has LSN [n]. *)
Fixpoint wal_from (n : Z) (items : list LogItem) : list LogEntry :=
  match items with
  | [] => []
  | Wal b :: items => mkEntry n (mkWal b) :: wal_from (n + 1) items
  | PageItem _ _ :: items => wal_from (n + 1) items
  end.

Lemma wal_from_app n a b : wal_from n (a ++ b) = wal_from n a ++ wal_from (n + zlen a) b.
Proof.
  revert n. induction a as [|[b'|id img] a IH]; intros n; cbn [wal_from app].
  - by rewrite zlen_nil, Z.add_0_r.
  - rewrite IH, zlen_cons. cbn. do 3 f_equal. lia.
  - rewrite IH, zlen_cons. do 2 f_equal. lia.
Qed.

(** What a recovery scan past [after] must return. *)
Definition spec_scan (segs : list (list LogItem)) (after : Z) : list LogEntry :=
  filter (λ e, after < entry_lsn e) (wal_from 1 (concat segs)).

Lemma scan_items_spec after seg n out :
  fold_left (scan_item after) seg (n, out) =
  (n + zlen seg, out ++ filter (λ e, after < entry_lsn e) (wal_from (n + 1) seg)).
Proof.
  revert n out. induction seg as [|x seg IH]; intros n out; cbn [fold_left wal_from].
  - by rewrite zlen_nil, Z.add_0_r, app_nil_r.
  - rewrite zlen_cons. destruct x as [b|id img]; cbn [scan_item].
    + rewrite IH, filter_cons. cbn [entry_lsn].
      destruct (Z.ltb_spec after (n + 1)); case_decide; try lia; f_equal; try lia.
      by rewrite <- app_assoc.
    + rewrite IH. f_equal. lia.
Qed.

Section Fence.
Context {St : Type} `{Laws : ObjectStoreLaws St}.
Abbreviation Handle := (ObjectStorage St).
Abbreviation bucket s := (contents (store s)).
Abbreviation unreliable := (¬ ReliableStore St).

Lemma scan_keys_spec after rest pre (s s' : Handle) r :
  Bucket (prefix s) (bucket s) (pre ++ rest) →
  scan_keys after (log_key (prefix s) <$> seqZ (zlen pre + 1) (zlen rest))
    (zlen (concat pre), spec_scan pre after) s = (s', r) →
  quiet s s' ∧ cache s' = cache s ∧
  (r = Ok (spec_scan (pre ++ rest) after) ∨ (r = Err Transient ∧ unreliable)).
Proof.
  revert pre s. induction rest as [|seg rest IH]; intros pre s HB.
  - cbn. intros [= <- <-]. rewrite app_nil_r. split_and!; [apply quiet_refl|done|by left].
  - rewrite zlen_cons. pose proof (zlen_nonneg rest). rewrite seqZ_cons by lia.
    replace (Z.pred (1 + zlen rest)) with (zlen rest) by lia.
    replace (Z.succ (zlen pre + 1)) with (zlen (pre ++ [seg]) + 1)
      by (rewrite zlen_app, zlen_cons, zlen_nil; lia).
    rewrite fmap_cons. cbn [scan_keys].
    intros [(s1 & items & Hr & H2)|(e & Hr & ->)]%comp_bind_inv;
      (apply (read_segment_spec _ _ (pre ++ seg :: rest) (length pre) seg) in Hr as (Hq & Hc & Hr);
        [|done|by rewrite lookup_app_r, Nat.sub_diag by lia]);
      (destruct Hr as [Hr|[Hr ?]]; [try discriminate Hr | try discriminate Hr]).
    2:{ injection Hr as ->. auto. }
    injection Hr as ->. rewrite scan_items_spec in H2. pose proof Hq as [Q1 Q2 Q3 Q4 _].
    assert (spec_scan pre after ++ filter (λ e, after < entry_lsn e) (wal_from (zlen (concat pre) + 1) seg)
            = spec_scan (pre ++ [seg]) after) as E.
    { unfold spec_scan. rewrite concat_snoc, wal_from_app, filter_app.
      by rewrite (Z.add_comm 1). }
    rewrite E, <- Q1 in H2.
    replace (zlen (concat pre) + zlen seg) with (zlen (concat (pre ++ [seg]))) in H2
      by (rewrite concat_snoc, zlen_app; lia).
    apply IH in H2 as (Hq2 & Hc2 & H3); [|rewrite Q1, Q4, <- app_assoc; done].
    rewrite <- app_assoc in H3. split_and!; [by eapply quiet_trans|congruence|done].
Qed.

Lemma scan_wal_spec after (s s' : Handle) segs r :
  Bucket (prefix s) (bucket s) segs → scan_wal after s = (s', r) →
  quiet s s' ∧ cache s' = cache s ∧
  (r = Ok (spec_scan segs after) ∨ (r = Err Transient ∧ unreliable)).
Proof.
  intros HB. unfold scan_wal, ask, comp_bind at 1. cbv beta iota.
  intros [(s1 & ks & Hl & H2)|(e & Hl & ->)]%comp_bind_inv;
    apply obj_list_spec in Hl as (Hq & Hc & Hks); [|destruct Hks as [-> ?]; by auto].
  pose proof Hq as [Q1 Q2 Q3 Q4 _].
  rewrite (log_listing _ _ _ segs Hks HB) in H2. unfold log_keys in H2. rewrite <- Q1 in H2.
  apply (scan_keys_spec after segs []) in H2 as (Hq2 & Hc2 & Hr); [|by rewrite Q1, Q4].
  split_and!; [by eapply quiet_trans|congruence|done].
Qed.

(** ** The lease *)

Lemma lease_epoch_encode e owner ms : is_u64 e → lease_epoch (encode_lease e owner ms) = e.
Proof. apply lease_epoch_u64. Qed.

Lemma epoch_of_insert p c e owner ms :
  is_u64 e → epoch_of p (<[lease_key p := encode_lease e owner ms]> c) = e.
Proof. intros He. unfold epoch_of. by rewrite lookup_insert_eq, lease_epoch_encode. Qed.

Lemma put_lease_spec b o (s s' : Handle) r :
  match o with
  | Some t => tags (store s) (lease_key (prefix s)) = Some t
  | None => bucket s !! lease_key (prefix s) = None
  end →
  put_lease (prefix s) b o s = (s', r) →
  match r with
  | Ok _ => stored (lease_key (prefix s)) b s s'
  | Err e => e ≠ Precondition ∧ unreliable ∧
      (quiet s s' ∧ cache s' = cache s ∨ stored (lease_key (prefix s)) b s s')
  end.
Proof.
  intros Ho. destruct o as [t|].
  - unfold put_lease, on_store.
    destruct (put_if_match (lease_key (prefix s)) b t (store s)) as [st r'] eqn:E. intros [= <- <-].
    pose proof (put_if_match_law _ _ _ _ _ _ E) as Hr.
    assert (∀ e, r' = Err e → e ≠ Precondition → unreliable) as Hrel.
    { intros e -> Hne HR. destruct (put_if_match_total (lease_key (prefix s)) b t (store s)) as (? & ? & E' & Hok).
      rewrite E in E'. simplify_eq. destruct Hok; naive_solver. }
    destruct r' as [t'|[]]; cbn in *; [by destruct Hr as (? & ? & ?)| |by destruct Hr|].
    all: split_and!; [done|by eapply Hrel|];
      destruct Hr as [[? ?]|(? & ? & ?)]; [left|right]; repeat split; done.
  - intros E. apply obj_put_if_absent_spec in E. destruct r as [t|[]].
    + by destruct E.
    + destruct E as (? & [?|[? ?]]); auto.
    + destruct E as [[? E] _]. rewrite Ho in E. done.
    + destruct E as (? & [?|[? ?]]); auto.
Qed.

(** Acquiring the lease: exactly the next epoch, or nothing the caller may rely on. *)
Lemma acquire_fence_spec now_ms now owner (s s' : Handle) r :
  acquire_fence now_ms now owner s = (s', r) →
  let e := epoch_of (prefix s) (bucket s) + 1 in
  let b := encode_lease e owner (now_ms + FENCE_LEASE) in
  prefix s' = prefix s ∧
  match r with
  | Ok tok => tok = mkToken e owner (now + FENCE_LEASE) ∧
              bucket s' = <[lease_key (prefix s) := b]> (bucket s) ∧
              inner s' = set_epoch e (inner s) ∧ cache s' = cache s
  | Err er => unreliable ∧ inner s' = inner s ∧ cache s' = cache s ∧
              (bucket s' = bucket s ∨ bucket s' = <[lease_key (prefix s) := b]> (bucket s))
  end.
Proof.
  unfold acquire_fence, ask, comp_bind at 1. cbv beta iota.
  destruct (cas_max_retries (config s)); cbn [acquire_loop];
    intros [(s1 & [e o] & Hd & H2)|(e & Hd & ->)]%comp_bind_inv;
    apply durable_epoch_spec in Hd as (Hq & Hc & Hr); pose proof Hq as [Q1 Q2 Q3 Q4 Q5].
  2, 4: destruct Hr as [-> ?]; by auto 8.
  all: destruct Hr as [-> Ho].
  all: destruct (put_lease (prefix s1) _ o s1) as [s2 r2] eqn:Hp.
  all: apply put_lease_spec in Hp; [|destruct o; rewrite ?Q1, ?Q4, ?Q5; exact Ho]; rewrite Q1 in Hp.
  all: destruct r2 as [t|e2].
  1, 3: destruct Hp as [P1 P2 P3 P4 P5]; injection H2 as <- <-; cbn;
    rewrite P1, P3, P4, P5, Q1, Q3, Q4; auto.
  all: destruct Hp as (Hne & Hu & Hor).
  all: assert (s' = s2 ∧ r = Err (map_obj_err e2)) as [-> ->] by (by destruct e2; simplify_eq).
  all: destruct Hor as [[[P1 P2 P3 P4 _] P5]|[P1 P2 P3 P4 P5]];
    rewrite P1, P3, P4, P5, ?Q1, ?Q3, ?Q4, ?Hc; auto 8.
Qed.

(** Renewing: refused once the epoch moved, else the lease is re-stamped under the same epoch. *)
Lemma renew_fence_spec now_ms now token (s s' : Handle) r :
  renew_fence now_ms now token s = (s', r) →
  let b := encode_lease (tok_epoch token) (tok_owner token) (now_ms + FENCE_LEASE) in
  prefix s' = prefix s ∧ inner s' = inner s ∧
  match r with
  | Ok tok => tok_epoch token = epoch_of (prefix s) (bucket s) ∧
              tok = mkToken (tok_epoch token) (tok_owner token) (now + FENCE_LEASE) ∧
              bucket s' = <[lease_key (prefix s) := b]> (bucket s)
  | Err er => (er = Fenced (tok_epoch token) (epoch_of (prefix s) (bucket s)) ∧
               tok_epoch token ≠ epoch_of (prefix s) (bucket s) ∧ bucket s' = bucket s) ∨
              (unreliable ∧
               (bucket s' = bucket s ∨ bucket s' = <[lease_key (prefix s) := b]> (bucket s)))
  end.
Proof.
  unfold renew_fence, ask, comp_bind at 1. cbv beta iota.
  destruct (cas_max_retries (config s)); cbn [renew_loop];
    intros [(s1 & [e o] & Hd & H2)|(e & Hd & ->)]%comp_bind_inv;
    apply durable_epoch_spec in Hd as (Hq & Hc & Hr); pose proof Hq as [Q1 Q2 Q3 Q4 Q5].
  2, 4: destruct Hr as [-> ?]; by auto 8.
  all: destruct Hr as [-> Ho].
  all: destruct (Z.eqb_spec (tok_epoch token) (epoch_of (prefix s) (bucket s))) as [He|He]; cbn [negb] in H2.
  2, 4: injection H2 as <- <-; by auto 8.
  all: destruct (put_lease (prefix s1) _ o s1) as [s2 r2] eqn:Hp.
  all: apply put_lease_spec in Hp; [|destruct o; rewrite ?Q1, ?Q4, ?Q5; exact Ho]; rewrite Q1 in Hp.
  all: destruct r2 as [t|e2].
  1, 3: destruct Hp as [P1 P2 P3 P4 P5]; injection H2 as <- <-;
    rewrite P1, P3, P5, Q1, Q3, Q4; auto.
  all: destruct Hp as (Hne & Hu & Hor).
  all: assert (s' = s2 ∧ r = Err (map_obj_err e2)) as [-> ->] by (by destruct e2; simplify_eq).
  all: destruct Hor as [[[P1 P2 P3 P4 _] P5]|[P1 P2 P3 P4 P5]];
    rewrite P1, P3, ?P4, ?P5, ?Q1, ?Q3, ?Q4; auto 8.
Qed.

(** Releasing keeps the epoch: the stamp expires but the token stays the current one. *)
Lemma release_fence_spec token (s s' : Handle) r :
  is_u64 (tok_epoch token) → release_fence token s = (s', r) →
  prefix s' = prefix s ∧ inner s' = inner s ∧
  epoch_of (prefix s) (bucket s') = epoch_of (prefix s) (bucket s) ∧
  (∀ k, k ≠ lease_key (prefix s) → bucket s' !! k = bucket s !! k) ∧
  (r = Ok tt ∨ (r = Err Transient ∧ unreliable)).
Proof.
  intros Hu64. unfold release_fence.
  intros [(s1 & [e o] & Hd & H2)|(e & Hd & ->)]%comp_bind_inv;
    apply durable_epoch_spec in Hd as (Hq & Hc & Hr); pose proof Hq as [Q1 Q2 Q3 Q4 Q5].
  2:{ destruct Hr as [-> ?]. rewrite Q4. auto 8. }
  destruct Hr as [-> Ho].
  destruct (Z.eqb_spec (tok_epoch token) (epoch_of (prefix s) (bucket s))) as [He|He]; cbn [negb] in H2.
  2:{ injection H2 as <- <-. rewrite Q4. auto 8. }
  destruct o as [t|]; [|injection H2 as <- <-; rewrite Q4; auto 8].
  destruct (put_lease (prefix s1) _ (Some t) s1) as [s2 r2] eqn:Hp. injection H2 as <- <-.
  apply put_lease_spec in Hp; [|by rewrite Q1, Q5]. rewrite Q1 in Hp.
  assert (bucket s2 = bucket s ∨ bucket s2 =
    <[lease_key (prefix s) := encode_lease (tok_epoch token) (tok_owner token) 0]> (bucket s)) as Hb.
  { destruct r2; [destruct Hp as [_ _ _ _ P5]; rewrite P5, Q4; by right|].
    destruct Hp as (_ & _ & [[[_ _ _ P4 _] _]|[_ _ _ _ P5]]); [left|right]; congruence. }
  assert (prefix s2 = prefix s ∧ inner s2 = inner s) as [-> ->].
  { destruct r2; [destruct Hp; split; congruence|].
    destruct Hp as (_ & _ & [[[] _]|[]]); split; congruence. }
  destruct Hb as [->| ->]; split_and!; auto; [by rewrite epoch_of_insert|].
  intros k Hk. by rewrite lookup_insert_ne.
Qed.

(** A lease write does not disturb the log or the layers. *)
Lemma Live_lease (s s' : Handle) segs b :
  Live s segs → prefix s' = prefix s → cache s' = cache s →
  bucket s' = <[lease_key (prefix s) := b]> (bucket s) →
  (∃ e, inner s' = set_epoch e (inner s)) ∨ inner s' = inner s → Live s' segs.
Proof.
  intros HL Ep Eca Eb Ei.
  assert (∀ K, K ≠ KLease → agree (prefix s) K (bucket s) (bucket s')) as Hag.
  { intros K HK. rewrite Eb. by apply (agree_insert _ _ KLease); [apply lease_kind|]. }
  assert (floor_of (prefix s) (bucket s') = floor_of (prefix s) (bucket s)) as Hf by (by apply floor_of_agree, Hag).
  split; rewrite ?Ep, ?Eca; [apply HL| | | | |apply HL].
  - apply (Bucket_agree _ (bucket s)); auto; [lia|apply HL].
  - destruct Ei as [[e ->]| ->]; by destruct (lv_counters _ _ HL).
  - apply (Layers_agree _ (bucket s) _ _ (inner s)); auto; [lia|..|apply HL];
      by destruct Ei as [[e ->]| ->].
  - rewrite Hf, <- (lv_floor _ _ HL). by destruct Ei as [[e ->]| ->].
Qed.

End Fence.
End ObjFence.

(** * Branch pointers of the disaggregated backend *)

Module ObjBranches.
Import Codec Obj ObjKeys Versions ObjInv ObjCalls ObjLive ObjWrite ObjCompact ObjRecover.

(** A pointer is never an object of an overlay. *)
Lemma branch_key_not_overlay p id id' :
  starts_with (overlay_prefix p id) (branch_key p id') = false.
Proof.
  unfold overlay_prefix, branch_key. rewrite !starts_with_app_l.
  destruct (starts_with _ _) eqn:E; [|done]. apply starts_with_true in E as [r E].
  rewrite str_app_assoc in E. apply str_app_inj_len in E as [_ E]; [discriminate E|].
  unfold fmt_020. by rewrite !length_dec_digits.
Qed.

Section Branches.
Context {St : Type} `{Laws : ObjectStoreLaws St}.
Abbreviation Handle := (ObjectStorage St).
Abbreviation bucket s := (contents (store s)).
Abbreviation unreliable := (¬ ReliableStore St).

(** The handle knows exactly the pointers in the bucket, and its next id is fresh. *)
Record LiveBranches (s : Handle) : Prop := {
  lb_bucket : Branches (prefix s) (bucket s) (branches (inner s));
  lb_next id : is_Some (branches (inner s) !! id) → 1 ≤ id < next_branch_id (inner s);
  lb_range : 1 ≤ next_branch_id (inner s)
}.

(** Objects under [branches/] do not matter to the log and the layers. *)
Lemma Live_branch_change (s s' : Handle) segs :
  Live s segs → prefix s' = prefix s →
  (∀ k, ¬ of_kind (prefix s) KBranch k → bucket s' !! k = bucket s !! k) →
  (∀ k recs, cache s' !! k = Some recs → cache s !! k = Some recs) →
  (∃ m n, inner s' = set_branches m (set_next_branch_id n (inner s))) → Live s' segs.
Proof.
  intros HL Ep Hb Hca (m & n & Ei).
  assert (∀ K, K ≠ KBranch → agree (prefix s) K (bucket s) (bucket s')) as Hag.
  { intros K HK k Hk. apply Hb. intros Hk'. by apply HK, (of_kind_disjoint (prefix s) _ _ k). }
  assert (floor_of (prefix s) (bucket s') = floor_of (prefix s) (bucket s)) as Hf by (by apply floor_of_agree, Hag).
  split; rewrite ?Ep; [apply HL| | | | |].
  - apply (Bucket_agree _ (bucket s)); auto; [lia|apply HL].
  - rewrite Ei. by destruct (lv_counters _ _ HL).
  - apply (Layers_agree _ (bucket s) _ _ (inner s)); auto; [lia|..|apply HL]; by rewrite Ei.
  - rewrite Hf, <- (lv_floor _ _ HL). by rewrite Ei.
  - intros k recs Hk%Hca. by apply (lv_cache _ _ HL).
Qed.

Lemma Branches_insert p c m id base :
  is_u64 id → is_u64 base → m !! id = None → Branches p c m →
  Branches p (<[branch_key p id := branch_payload id base BranchId_ROOT]> c)
    (<[id := mkBranch id BranchId_ROOT base base]> m).
Proof.
  intros Hid Hbase Hnone [H1 H2]. split.
  - intros id' b. destruct (decide (id = id')) as [<-|Hne].
    + rewrite lookup_insert_eq. intros [= <-]. cbn. split_and!; [done..|apply lookup_insert_eq].
    + rewrite lookup_insert_ne by done. intros (? & ? & ? & ?)%H1. split_and!; [done..|].
      rewrite lookup_insert_ne; [done|]. by intros E%branch_key_inj.
  - intros k Hk Hptr Hs. destruct (decide (k = branch_key p id)) as [->|Hne].
    + exists id. by rewrite lookup_insert_eq.
    + rewrite lookup_insert_ne in Hs by done. destruct (H2 k Hk Hptr Hs) as (id' & [b Hb] & ->).
      exists id'. rewrite lookup_insert_ne; [by rewrite Hb|]. intros ->. congruence.
Qed.

Lemma create_branch_spec base (s s' : Handle) segs r :
  Live s segs → LiveBranches s → is_u64 base → is_u64 (next_branch_id (inner s)) →
  create_branch base s = (s', r) →
  let id := next_branch_id (inner s) in
  prefix s' = prefix s ∧
  match r with
  | Ok id' => id' = id ∧ retention_floor (inner s) ≤ base ∧
      Live s' segs ∧ LiveBranches s' ∧ next_branch_id (inner s') = id + 1 ∧
      branches (inner s') = <[id := mkBranch id BranchId_ROOT base base]> (branches (inner s))
  | Err e => (e = NotFound ∧ base < retention_floor (inner s) ∧ s' = s) ∨ unreliable
  end.
Proof.
  intros HL HLB Hbase Hid. unfold create_branch.
  destruct (Z.ltb_spec base (retention_floor (inner s))) as [Hlt|Hge].
  { intros [= <- <-]. auto. }
  destruct HLB as [L1 L2 L3].
  assert (branches (inner s) !! next_branch_id (inner s) = None) as Hnone.
  { apply eq_None_not_Some. intros ?%L2. lia. }
  unfold comp_bind at 1, comp_map_err.
  destruct (obj_put_if_absent _ _ s) as [s1 r1] eqn:E. apply obj_put_if_absent_spec in E.
  destruct r1 as [t|[]]; intros [= <- <-]; cbn.
  - destruct E as [_ [P1 P2 P3 P4 P5]]. rewrite P3. split_and!; try done.
    + apply (Live_branch_change s); cbn; [done..| | |].
      * intros k Hk. rewrite P5. apply lookup_insert_ne. intros <-. apply Hk, branch_kind.
      * intros k recs. by rewrite P4.
      * by eexists _, _.
    + split; cbn; rewrite ?P1, ?P3, ?P5; [by apply Branches_insert| |lia].
      intros id [b [(<- & _)|(? & ?)]%lookup_insert_Some]; [lia|].
      specialize (L2 id (ex_intro _ _ H1)). lia.
  - destruct E as [Hu [[[] _]|[_ []]]]; auto.
  - destruct E as [Hs _]. exfalso.
    destruct (br_ptr _ _ _ L1 _ (branch_kind (prefix s) (next_branch_id (inner s)))) as (id & Hid' & Ek);
      [unfold branch_key; rewrite <- !str_app_assoc; apply ends_with_app|done|].
    destruct Hid' as [b Hb]. destruct (br_obj _ _ _ L1 id b Hb) as (Hu & _).
    apply branch_key_inj in Ek as <-; [|done..]. congruence.
  - destruct E as [Hu [[[] _]|[_ []]]]; auto.
Qed.

Lemma Branches_remove p c c' m id (dn : list string) :
  is_u64 id → Branches p c m →
  (∀ k, k ∈ dn → starts_with (overlay_prefix p id) k = true) →
  (∀ k, k ∉ dn → c' !! k = delete (branch_key p id) c !! k) → (∀ k, k ∈ dn → c' !! k = None) →
  Branches p c' (delete id m).
Proof.
  intros Hid [H1 H2] Hdn Hkept Hgone. split.
  - intros id' b [Hne Hb]%lookup_delete_Some. destruct (H1 id' b Hb) as (? & ? & ? & ?).
    split_and!; [done..|]. rewrite Hkept.
    + rewrite lookup_delete_ne; [done|]. by intros E%branch_key_inj.
    + intros Hin%Hdn. by rewrite branch_key_not_overlay in Hin.
  - intros k Hk Hptr [b Hb]. destruct (decide (k ∈ dn)) as [Hin|Hin]; [by rewrite Hgone in Hb|].
    rewrite Hkept in Hb by done. apply lookup_delete_Some in Hb as [Hne Hb].
    destruct (H2 k Hk Hptr (ex_intro _ _ Hb)) as (id' & Hs & ->). exists id'.
    split; [|done]. rewrite lookup_delete_ne; [done|congruence].
Qed.

(** Deleting a known branch: the pointer and every object of the overlay go, nothing else. *)
Lemma delete_branch_spec id (s s' : Handle) segs r :
  Live s segs → LiveBranches s → delete_branch id s = (s', r) →
  prefix s' = prefix s ∧
  match r with
  | Ok _ => is_Some (branches (inner s) !! id) ∧ Live s' segs ∧ LiveBranches s' ∧
      branches (inner s') = delete id (branches (inner s)) ∧
      next_branch_id (inner s') = next_branch_id (inner s) ∧
      (∀ k, starts_with (overlay_prefix (prefix s) id) k = true → bucket s' !! k = None) ∧
      (∀ k, starts_with (overlay_prefix (prefix s) id) k = false → k ≠ branch_key (prefix s) id →
         bucket s' !! k = bucket s !! k)
  | Err e => (e = NotFound ∧ branches (inner s) !! id = None ∧ s' = s) ∨ unreliable
  end.
Proof.
  intros HL [L1 L2 L3]. unfold delete_branch. case_bool_decide as Hnone.
  { intros [= <- <-]. auto. }
  apply not_eq_None_Some in Hnone as Hs. destruct Hs as [b Hb].
  destruct (br_obj _ _ _ L1 id b Hb) as (Hid & _).
  assert (has_children id (branches (inner s)) = false) as ->.
  { apply has_children_false. intros i b' Hi. destruct (br_obj _ _ _ L1 i b' Hi) as (_ & _ & -> & _).
    cbn. destruct (L2 id); [by eexists|]. unfold BranchId_ROOT. lia. }
  intros [(s1 & [] & Hd & H2)|(e & Hd & ->)]%comp_bind_inv; apply obj_delete_spec in Hd.
  2:{ destruct Hd as (-> & Hu & [[[] _]|[]]); auto. }
  destruct Hd as [D1 D2 D3 D4 D5]. rewrite <- D1 in *.
  apply comp_bind_inv in H2 as [(s2 & ks & Hl & H3)|(e & Hl & ->)];
    apply obj_list_spec in Hl as (Hq & Hc & Hks); pose proof Hq as [Q1 Q2 Q3 Q4 _].
  2:{ destruct Hks. auto. }
  apply comp_bind_inv in H3 as [(s3 & [] & Hda & H4)|(e & Hda & ->)];
    apply delete_all_spec in Hda as (dn & [S1 S2 S3 S4 S5 S6] & Hin & Hr).
  2:{ destruct Hr. split; [congruence|auto]. }
  injection H4 as <- <-. cbn. destruct Hks as [_ Hks].
  assert (∀ k, k ∈ dn ↔ starts_with (overlay_prefix (prefix s1) id) k = true ∧ is_Some (bucket s1 !! k)) as Hdn.
  { intros k. rewrite <- Hks. split; auto. }
  assert (∀ k, k ∉ dn → bucket s3 !! k = delete (branch_key (prefix s1) id) (bucket s) !! k) as Hkept.
  { intros k Hk. by rewrite S5, Q4, D5. }
  assert (∀ k, ¬ of_kind (prefix s1) KBranch k → bucket s3 !! k = bucket s !! k) as Hother.
  { intros k Hk. rewrite Hkept.
    - apply lookup_delete_ne. intros <-. apply Hk, branch_kind.
    - intros [[r ->]%starts_with_true _]%Hdn. apply Hk, overlay_kind. }
  rewrite S1, S3, Q1, Q3, D3. split_and!; try done.
  - apply (Live_branch_change s); cbn; [done|congruence|by rewrite <- D1| |].
    + intros k recs Hk%S6. by rewrite Hc, D4 in Hk.
    + exists (delete id (branches (inner s))), (next_branch_id (inner s)).
      by destruct (inner s).
  - split; cbn; rewrite ?S1, ?S3, ?Q1, ?Q3, ?D3; [| |done].
    + apply (Branches_remove _ (bucket s) _ _ _ dn); try done. by intros k [? _]%Hdn.
    + intros id' [b' [_ Hb']%lookup_delete_Some]. apply L2. by eexists.
  - intros k Hk. destruct (decide (k ∈ dn)) as [|Hn]; [auto|]. rewrite Hkept by done.
    apply lookup_delete_None. right. apply eq_None_not_Some. intros Hs. apply Hn, Hdn.
    split; [done|]. rewrite D5. rewrite lookup_delete_ne; [done|].
    intros <-. by rewrite branch_key_not_overlay in Hk.
  - intros k Hk Hne. rewrite Hkept; [by rewrite lookup_delete_ne|].
    intros [? _]%Hdn. congruence.
Qed.
End Branches.
End ObjBranches.
