(* ===== verification/ObjSpec.v ===== *)
(** * Properties of the disaggregated backend

    Reads answer from the log, recovery rebuilds the live state from the bucket, appends are
    atomic under every failure of the object client, maintenance changes no read, a newer lease
    fences every older token.  The theorems hold for any object client that keeps the contract of
    [ObjectStoreLaws]; a call fails with [Transient] only on a client that is not reliable.  The
    witnesses run on the in-memory store.  The last group are concrete runs in which the code does
    something its documentation excludes. *)

From S2P Require Import Prelude Text StorageTypes ObjCodec ObjStore ObjStorage ObjVersions.
From S2P Require Import ObjInv ObjLive ObjWrite ObjRecover ObjBranches.

Module ObjSpec.
Import Codec Obj ObjKeys Versions ObjInv ObjCalls ObjLive ObjWrite ObjCompact ObjRecover ObjFence
  ObjBranches.

(** ** An empty bucket *)

Lemma Bucket_empty p : Bucket p ∅ [].
Proof.
  assert (∀ k : string, is_Some ((∅ : gmap string bytes) !! k) → False) as HN.
  { intros k. rewrite lookup_empty. by intros [? ?]. }
  assert (∀ items lo hi, delta_obj p ∅ items lo hi → False) as HD.
  { intros items lo hi Ho. by eapply HN, delta_obj_exists. }
  split.
  - by split; [constructor | vm_compute..].
  - intros k b Hk. rewrite lookup_empty. split; [done|]. by intros (i & seg & E & _).
  - by intros k Hk ?%HN.
  - by intros k Hk ?%HN.
  - by intros r ?%elem_of_nil.
  - intros lo hi r Ho. by destruct (HD _ _ _ Ho).
Qed.

Lemma Branches_empty p : Branches p ∅ ∅.
Proof.
  split; [intros id b; by rewrite lookup_empty | intros k _ _ [b E]; by rewrite lookup_empty in E].
Qed.

(** ** A demonstration database: two appends on the in-memory store *)

Definition demo_open (st : Mem.MemObjectStore) (p : string) : ObjectStorage Mem.MemObjectStore :=
  match with_store st p Config_default with
  | (_, Ok s) => s
  | (st, Err _) => mkObj st "" Config_default inner_new ∅
  end.
Definition demo0 : ObjectStorage Mem.MemObjectStore := demo_open Mem.new "db/demo".
Definition demo_token : FenceToken := mkToken 1 7 10000.
Definition demo1 : ObjectStorage Mem.MemObjectStore := (acquire_fence 0 0 7 demo0).1.
Definition demo2 : ObjectStorage Mem.MemObjectStore :=
  (append_segment demo_token [PageItem 3 [Init.Byte.x61]] demo1).1.
Definition demo3 : ObjectStorage Mem.MemObjectStore :=
  (append_segment demo_token [Wal [Init.Byte.x62]; Wal [Init.Byte.x63]] demo2).1.
Definition demo_segs : list (list LogItem) :=
  [[PageItem 3 [Init.Byte.x61]]; [Wal [Init.Byte.x62]; Wal [Init.Byte.x63]]].

Lemma demo_visible : kind_visible (normal_prefix "db/demo").
Proof. apply (kind_visible_prefix "db/demo"). vm_compute. reflexivity. Qed.

#[export] Instance segs_ok_dec segs : Decision (segs_ok segs).
Proof.
  refine (cast_if (decide (Forall item_ok (concat segs) ∧ zlen (concat segs) < 2 ^ 32 ∧
                           zlen segs < 2 ^ 32)));
    [by destruct_and!; split | intros [? ? ?]; naive_solver].
Defined.

Lemma demo0_live : Live demo0 [].
Proof.
  unfold demo0, demo_open. destruct (with_store Mem.new "db/demo" Config_default) as [st r] eqn:E.
  pose proof (with_store_spec Mem.new "db/demo" Config_default st [] r demo_visible
    (Bucket_empty _) E) as [_ Hr].
  destruct r as [s|e]; [apply Hr|]. exfalso. vm_compute in E. discriminate E.
Qed.

Lemma demo1_live : Live demo1 [].
Proof.
  unfold demo1. destruct (acquire_fence 0 0 7 demo0) as [s r] eqn:E.
  destruct r as [tok|e]; [|exfalso; vm_compute in E; discriminate E].
  apply acquire_fence_spec in E as (E1 & -> & E2 & E3 & E4).
  apply (Live_lease demo0 _ _ _ demo0_live E1 E4 E2). eauto.
Qed.

(** One append of the demonstration, from its result being [Ok]. *)
Lemma demo_append s segs seg :
  Live s segs → bool_decide (segs_ok (segs ++ [seg])) = true →
  is_ok (append_segment demo_token seg s).2 = true →
  Live (append_segment demo_token seg s).1 (segs ++ [seg]).
Proof.
  intros HL Hok Hr. destruct (append_segment demo_token seg s) as [s' r] eqn:E.
  apply bool_decide_eq_true in Hok. apply (append_segment_spec _ _ _ _ _ _ HL Hok) in E.
  cbn in *. destruct r; [|done]. by destruct E as [(_ & _ & ?)|[(? & _)|(? & _)]].
Qed.

Lemma demo2_live : Live demo2 [[PageItem 3 [Init.Byte.x61]]].
Proof. apply (demo_append demo1 []); [apply demo1_live | vm_compute; reflexivity..]. Qed.

Lemma demo3_live : Live demo3 demo_segs.
Proof. apply (demo_append demo2 [_]); [apply demo2_live | vm_compute; reflexivity..]. Qed.

Inductive Maintenance := MFlush | MCompact | MGc.

Section Properties.
Context {St : Type} `{Laws : ObjectStoreLaws St}.
Abbreviation Handle := (ObjectStorage St).
Abbreviation bucket s := (contents (store s)).

(** C3. A page read on a live handle returns the version with the greatest LSN at or below the
    snapshot among all page images of the commit log, wherever it is held (memtable, a delta
    layer, the image layer, the cache), [NotFound] when there is none or when the snapshot is
    below the retention floor; only a client that is not reliable can make it fail otherwise.
    The read changes nothing in the bucket and keeps the handle live. *)
Theorem object_get_page_floor id q (s s' : Handle) segs r :
  Live s segs → get_page id q s = (s', r) →
  Live s' segs ∧ bucket s' = bucket s ∧ inner s' = inner s ∧
  (r = spec_read segs (retention_floor (inner s)) id q ∨ (r = Err Transient ∧ ¬ ReliableStore St)).
Proof. intros HL Hg. destruct (get_page_spec _ _ _ _ _ _ HL Hg) as ([] & HL' & Hr). done. Qed.

(** C4. Opening a bucket rebuilds the live state: if the objects under the prefix are a commit log
    and layers that agree with it, the new handle is live on exactly that log, holds the durable
    epoch and, when no overlay object looks like a pointer, exactly the branches of the bucket.
    Opening writes nothing. *)
Theorem object_recover_refines st p c st' segs r :
  kind_visible (normal_prefix p) → Bucket (normal_prefix p) (contents st) segs →
  with_store st p c = (st', r) →
  contents st' = contents st ∧
  match r with
  | Ok s => store s = st' ∧ prefix s = normal_prefix p ∧ Live s segs ∧
            epoch (inner s) = epoch_of (normal_prefix p) (contents st) ∧
            branches_found (normal_prefix p) (contents st) (inner s)
  | Err e => e = Transient ∧ ¬ ReliableStore St
  end.
Proof. apply with_store_spec. Qed.

(** C5. Appends are ordered and all or nothing.  An append that returns [Ok] held the current
    epoch, took the next LSNs without a gap and leaves the handle live on the log with that
    segment.  A refused one ([Fenced] exactly when the token is not current) changes nothing.  Any
    other failure leaves a bucket that holds the old log, or the old log and the whole segment. *)
Theorem object_append_atomic token seg (s s' : Handle) segs r :
  Live s segs → segs_ok (segs ++ [seg]) → append_segment token seg s = (s', r) →
  let cur := epoch_of (prefix s) (bucket s) in
  (∃ lsn, r = Ok lsn ∧ tok_epoch token = cur ∧ lsn = zlen (concat segs) + zlen seg ∧
     Live s' (segs ++ [seg])) ∨
  (∃ e, r = Err e ∧ Live s' segs ∧ bucket s' = bucket s ∧
     ((tok_epoch token ≠ cur ∧ e = Fenced (tok_epoch token) cur) ∨ ¬ ReliableStore St)) ∨
  (∃ e, r = Err e ∧ tok_epoch token = cur ∧ Bucket (prefix s') (bucket s') (segs ++ [seg]) ∧
     (e = Contended ∨ ¬ ReliableStore St)).
Proof.
  intros HL Hok Ha cur.
  destruct (append_segment_spec _ _ _ _ _ _ HL Hok Ha) as [(He & Ho)|[(-> & Hne & HL' & Hb)|(-> & Hu & HL' & Hb)]];
    [|right; left; eauto 8..].
  destruct r as [lsn|e]; cbn in Ho; [left; naive_solver|].
  destruct Ho as [(? & ? & ?)|(? & ?)]; right; [left|right]; eauto 8.
Qed.

(** C6. Durability: reopening the bucket after an append, however the append ended, gives a live
    handle on the old log or on the old log with the whole segment; after an append that returned
    [Ok], always the latter. *)
Theorem object_append_survives token seg (s s' s2 : Handle) segs r st p c :
  Live s segs → segs_ok (segs ++ [seg]) → prefix s = normal_prefix p →
  append_segment token seg s = (s', r) → with_store (store s') p c = (st, Ok s2) →
  (Live s2 segs ∨ Live s2 (segs ++ [seg])) ∧ (is_ok r = true → Live s2 (segs ++ [seg])).
Proof.
  intros HL Hok Hp Ha Hw. pose proof (lv_visible _ _ HL) as Hv. rewrite Hp in Hv.
  assert (prefix s' = prefix s) as Hp' by (by eapply append_segment_prefix).
  assert (∀ l, Bucket (prefix s') (bucket s') l → Live s2 l) as Hre.
  { intros l HB. rewrite Hp', Hp in HB.
    by pose proof (with_store_spec _ _ _ _ _ _ Hv HB Hw) as (_ & _ & _ & ? & _). }
  destruct (append_segment_spec _ _ _ _ _ _ HL Hok Ha) as [(He & Ho)|[(-> & Hne & HL' & Hb)|(-> & Hu & HL' & Hb)]];
    [|split; [left; apply Hre, HL'|done]..].
  destruct r as [lsn|e]; cbn in Ho.
  - destruct Ho as [_ HL']. split; [right|intros _]; apply Hre, HL'.
  - split; [|done]. destruct Ho as [(HL' & _)|(HB & _)]; [left; apply Hre, HL'|right; by apply Hre].
Qed.

(** The maintenance operations: flush the memtable, fold layers into an image, delete the dead. *)
Definition maintain (m : Maintenance) : Comp Handle StorageError unit :=
  match m with MFlush => flush | MCompact => compact | MGc => gc end.

Lemma maintain_live m (s s' : Handle) segs :
  Live s segs → retention_floor (inner s) ≤ zlen (concat segs) → maintain m s = (s', Ok tt) →
  Live s' segs ∧ retention_floor (inner s') = retention_floor (inner s).
Proof.
  intros HL Hfl Hm. destruct m; cbn in Hm.
  - apply (flush_locked_spec _ _ _ _ HL) in Hm as (? & _ & _ & [] & _). done.
  - apply (compact_spec _ _ _ _ HL Hfl) in Hm as (? & _ & [] & _). done.
  - apply (gc_spec _ _ _ _ HL) in Hm as (_ & E & ?). by rewrite E.
Qed.


(** The retention floor only moves forward; moving it keeps the handle live, so that reads at
    or above it answer as before and reads below it are [NotFound]. *)
Theorem object_retention_floor lsn id q (s s' : Handle) segs :
  ReliableStore St → Live s segs → is_u64 lsn → set_retention_floor lsn s = (s', Ok tt) →
  retention_floor (inner s) ≤ lsn ∧ Live s' segs ∧
  (get_page id q s').2 = (if q <? lsn then Err NotFound else (get_page id q s).2).
Proof.
  intros HR HL Hl Hs. apply (set_retention_floor_spec _ _ _ segs) in Hs as (_ & Hge & HL' & Hf); [|done..].
  split_and!; [done..|].
  destruct (get_page id q s) as [s1 r1] eqn:E1. destruct (get_page id q s') as [s2 r2] eqn:E2.
  apply (get_page_spec _ _ _ _ segs) in E1 as (_ & _ & [->|[_ ?]]); [|done..].
  apply (get_page_spec _ _ _ _ segs) in E2 as (_ & _ & [->|[_ ?]]); [|done..].
  cbn. rewrite Hf. unfold spec_read. destruct (Z.ltb_spec q lsn); [done|].
  destruct (Z.ltb_spec q (retention_floor (inner s))); [lia|done].
Qed.

(** C12. Fencing across handles: once another handle on the same bucket has acquired the lease, its
    epoch is the durable epoch plus one, and every token issued before is refused, both for
    appends and for renewals, without any change to the bucket. *)
Theorem object_fencing now_ms now owner (s1 s2 s2' : Handle) tok2 tok items now_ms' now' :
  prefix s1 = prefix s2 → is_u64 (epoch_of (prefix s2) (bucket s2) + 1) →
  acquire_fence now_ms now owner s2 = (s2', Ok tok2) →
  tok_epoch tok ≤ epoch_of (prefix s2) (bucket s2) →
  let old := set_store (store s2') s1 in
  tok_epoch tok2 = epoch_of (prefix s2) (bucket s2) + 1 ∧
  (∀ s' r, append_segment tok items old = (s', r) →
     bucket s' = bucket s2' ∧
     (r = Err (Fenced (tok_epoch tok) (tok_epoch tok2)) ∨ (r = Err Transient ∧ ¬ ReliableStore St))) ∧
  (∀ s' r, renew_fence now_ms' now' tok old = (s', r) →
     is_ok r = false ∧ (ReliableStore St → bucket s' = bucket s2')).
Proof.
  intros Hp Hu Ha Ht old. apply acquire_fence_spec in Ha as (Ep & -> & Eb & _ & _).
  assert (epoch_of (prefix s1) (bucket old) = epoch_of (prefix s2) (bucket s2) + 1) as He.
  { cbn. rewrite Eb, Hp. by apply epoch_of_insert. }
  cbn [tok_epoch]. split_and!; [done| |].
  - intros s' r [(s3 & [] & Hc & H2)|(e & Hc & ->)]%comp_bind_inv;
      apply check_fence_spec in Hc as (Hq & _ & Hr); change (prefix old) with (prefix s1) in Hr;
      rewrite He in Hr; [lia|].
    split; [apply Hq|]. destruct Hr as [[-> _]|[-> ?]]; auto.
  - intros s' r (_ & _ & Hr)%renew_fence_spec. change (prefix old) with (prefix s1) in Hr.
    rewrite He in Hr. destruct r as [tok'|e]; [lia|]. split; [done|]. intros HR.
    destruct Hr as [(_ & _ & ?)|[? _]]; done.
Qed.

(** The recovery scan returns exactly the WAL records of the log past the given LSN, in order,
    each with the LSN it was committed at. *)
Theorem object_scan_wal after (s s' : Handle) segs r :
  Live s segs → scan_wal after s = (s', r) →
  Live s' segs ∧ bucket s' = bucket s ∧
  (r = Ok (spec_scan segs after) ∨ (r = Err Transient ∧ ¬ ReliableStore St)).
Proof.
  intros HL Hs. apply (scan_wal_spec _ _ _ segs) in Hs as (Hq & Hc & Hr); [|apply HL].
  split_and!; [by eapply Live_quiet'|apply Hq|done].
Qed.

(** Creating a branch hands out a fresh id at an allowed fork point and records it; deleting
    it removes the pointer and every object of the branch's overlay and nothing else in the
    bucket, so the shared log and layers (the handle stays live on the same log) and the other
    branches are untouched. *)
Theorem object_branch_lifecycle base (s s1 s2 : Handle) segs id :
  Live s segs → LiveBranches s → is_u64 base → is_u64 (next_branch_id (inner s)) →
  create_branch base s = (s1, Ok id) → delete_branch id s1 = (s2, Ok tt) →
  retention_floor (inner s) ≤ base ∧ branches (inner s) !! id = None ∧
  Live s1 segs ∧ (resolve_branch id s1).2 = Ok (mkBranch id BranchId_ROOT base base) ∧
  Live s2 segs ∧ LiveBranches s2 ∧ branches (inner s2) = branches (inner s) ∧
  next_branch_id (inner s2) = id + 1 ∧
  (∀ k, starts_with (overlay_prefix (prefix s) id) k = true → bucket s2 !! k = None) ∧
  (∀ k, starts_with (overlay_prefix (prefix s) id) k = false → k ≠ branch_key (prefix s) id →
     bucket s2 !! k = bucket s1 !! k).
Proof.
  intros HL HLB Hb Hid Hc Hd.
  apply (create_branch_spec _ _ _ segs) in Hc as (Ep & -> & Hfl & HL1 & HLB1 & Hn1 & Hb1); try done.
  apply (delete_branch_spec _ _ _ segs) in Hd as (Ep2 & _ & HL2 & HLB2 & Hb2 & Hn2 & Hg & Hk); try done.
  rewrite Ep in *.
  assert (branches (inner s) !! next_branch_id (inner s) = None) as Hnone.
  { apply eq_None_not_Some. intros H'. apply (lb_next _ HLB) in H'. lia. }
  split_and!; try done.
  - unfold resolve_branch. cbn. by rewrite Hb1, lookup_insert_eq.
  - by rewrite Hb2, Hb1, delete_insert_id.
  - lia.
Qed.
End Properties.

(** ** Witnesses on the in-memory store *)

Abbreviation bucket s := (contents (store s)).

Lemma object_get_page_floor_witness :
  (get_page 3 2 demo3).2 = spec_read demo_segs (retention_floor (inner demo3)) 3 2.
Proof.
  destruct (object_get_page_floor 3 2 demo3 (get_page 3 2 demo3).1 demo_segs (get_page 3 2 demo3).2
    demo3_live (surjective_pairing _)) as (_ & _ & _ & [E|[_ Hn]]); [exact E|].
  destruct (Hn Mem_reliable).
Defined.

Lemma demo_bucket : Bucket (normal_prefix "db/demo") (contents Mem.new) [].
Proof. apply Bucket_empty. Qed.

Lemma object_recover_refines_witness :
  contents (with_store Mem.new "db/demo" Config_default).1 = contents Mem.new.
Proof.
  apply (object_recover_refines Mem.new "db/demo" Config_default _ [] _ demo_visible
    demo_bucket (surjective_pairing _)).
Defined.

Lemma demo_segs_ok : segs_ok ([[PageItem 3 [Init.Byte.x61]]] ++
  [[Wal [Init.Byte.x62]; Wal [Init.Byte.x63]]]).
Proof. apply (bool_decide_eq_true_1 (segs_ok _)). vm_compute. reflexivity. Qed.

Lemma object_append_atomic_witness :
  (append_segment demo_token [Wal [Init.Byte.x62]; Wal [Init.Byte.x63]] demo2).2 = Ok 3 ∧
  Live demo3 demo_segs.
Proof.
  destruct (object_append_atomic demo_token [Wal [Init.Byte.x62]; Wal [Init.Byte.x63]] demo2 demo3 _ _
    demo2_live demo_segs_ok (surjective_pairing _)) as [(lsn & E & _ & El & HL)|[(e & E & _)|(e & E & _)]].
  - split; [rewrite E, El; vm_compute; reflexivity | exact HL].
  - exfalso. vm_compute in E. discriminate E.
  - exfalso. vm_compute in E. discriminate E.
Defined.

Lemma demo_reopen : with_store (store demo3) "db/demo" Config_default
  = ((with_store (store demo3) "db/demo" Config_default).1, Ok (demo_open (store demo3) "db/demo")).
Proof. vm_compute. reflexivity. Qed.

Lemma object_append_survives_witness : Live (demo_open (store demo3) "db/demo") demo_segs.
Proof.
  apply (object_append_survives demo_token [Wal [Init.Byte.x62]; Wal [Init.Byte.x63]] demo2 demo3
    (demo_open (store demo3) "db/demo") [[PageItem 3 [Init.Byte.x61]]] _ _ "db/demo" Config_default
    demo2_live demo_segs_ok ltac:(vm_compute; reflexivity) (surjective_pairing _) demo_reopen).
  vm_compute. reflexivity.
Defined.

Lemma demo_floor : retention_floor (inner demo3) ≤ zlen (concat demo_segs).
Proof. by vm_compute. Qed.
Lemma demo_flush_ok : maintain MFlush demo3 = ((maintain MFlush demo3).1, Ok tt).
Proof. vm_compute. reflexivity. Qed.


Lemma demo_set_floor_ok : set_retention_floor 2 demo3 = ((set_retention_floor 2 demo3).1, Ok tt).
Proof. vm_compute. reflexivity. Qed.

Lemma object_retention_floor_witness :
  (get_page 3 1 (set_retention_floor 2 demo3).1).2 = Err NotFound.
Proof.
  apply (object_retention_floor 2 3 1 demo3 _ demo_segs Mem_reliable demo3_live
    ltac:(by vm_compute) demo_set_floor_ok).
Defined.

(** A second handle on the same bucket takes the lease over. *)
Definition demo_other : ObjectStorage Mem.MemObjectStore := demo_open (store demo3) "db/demo".
Definition demo_taken : ObjectStorage Mem.MemObjectStore := (acquire_fence 0 0 8 demo_other).1.
Lemma demo_take_ok : acquire_fence 0 0 8 demo_other = (demo_taken, Ok (mkToken 2 8 10000)).
Proof. vm_compute. reflexivity. Qed.

Lemma object_fencing_witness :
  (append_segment demo_token [Wal []] (set_store (store demo_taken) demo3)).2 = Err (Fenced 1 2).
Proof.
  destruct (object_fencing 0 0 8 demo3 demo_other demo_taken (mkToken 2 8 10000) demo_token [Wal []] 0 0
    ltac:(vm_compute; reflexivity) ltac:(by vm_compute) demo_take_ok ltac:(by vm_compute))
    as (_ & Happ & _).
  destruct (Happ _ _ (surjective_pairing _)) as [_ [E|[_ Hn]]]; [exact E | destruct (Hn Mem_reliable)].
Defined.

Lemma object_scan_wal_witness : (scan_wal 1 demo3).2 = Ok (spec_scan demo_segs 1).
Proof.
  destruct (object_scan_wal 1 demo3 _ demo_segs _ demo3_live (surjective_pairing _))
    as (_ & _ & [E|[_ Hn]]); [exact E | destruct (Hn Mem_reliable)].
Defined.

Lemma demo0_branches : LiveBranches demo0.
Proof.
  split.
  - replace (bucket demo0) with (∅ : gmap string bytes) by (vm_compute; reflexivity).
    replace (branches (inner demo0)) with (∅ : gmap Z BranchRef) by (vm_compute; reflexivity).
    apply Branches_empty.
  - intros id. replace (branches (inner demo0)) with (∅ : gmap Z BranchRef) by (vm_compute; reflexivity).
    rewrite lookup_empty. by intros [? ?].
  - by vm_compute.
Qed.
Definition demo_branched : ObjectStorage Mem.MemObjectStore := (create_branch 0 demo0).1.
Lemma demo_branch_ok : create_branch 0 demo0 = (demo_branched, Ok 1).
Proof. vm_compute. reflexivity. Qed.
Lemma demo_unbranch_ok : delete_branch 1 demo_branched = ((delete_branch 1 demo_branched).1, Ok tt).
Proof. vm_compute. reflexivity. Qed.

Lemma object_branch_lifecycle_witness :
  (resolve_branch 1 demo_branched).2 = Ok (mkBranch 1 BranchId_ROOT 0 0) ∧
  branches (inner (delete_branch 1 demo_branched).1) = branches (inner demo0).
Proof.
  destruct (object_branch_lifecycle 0 demo0 demo_branched _ [] 1 demo0_live demo0_branches
    ltac:(by vm_compute) ltac:(by vm_compute) demo_branch_ok demo_unbranch_ok)
    as (_ & _ & _ & E1 & _ & _ & E2 & _). exact (conj E1 E2).
Defined.

(** ** Runs that depart from the documentation *)

(** Write a page, flush it to a delta layer, read it back. *)
Definition write_flush_read : Comp (ObjectStorage Mem.MemObjectStore) StorageError Page :=
  (let! tok := acquire_fence 0 0 7 in
   let! l := put_page tok 3 [Init.Byte.x61] in
   do! flush in
   get_page 3 l)%comp.

(** A database whose id is [image] cannot read its delta layers: [load_layer] tells the kind of
    a layer by ["/image/"] occurring anywhere in the key, and the database prefix [db/image/]
    already contains it, so a page that was written and flushed reads back as [Corruption].  The
    same run on another name returns the page. *)
Theorem object_image_database_unreadable :
  parse_object_url "s3://bucket/image" = Ok ("bucket"%string, "image"%string) ∧
  (write_flush_read (demo_open Mem.new "db/image/")).2 = Err Corruption ∧
  (write_flush_read (demo_open Mem.new "db/photo/")).2 = Ok (Page_from_slice 3 1 [Init.Byte.x61]).
Proof. vm_compute. done. Qed.

(** The in-memory store behind fault injection, armed for the append after the lease write. *)
Abbreviation FaultyMem := (Fault.FaultObjectStore Mem.MemObjectStore).
Definition faulty_open : ObjectStorage FaultyMem :=
  match with_store (Fault.fault_new Mem.new) "db/demo" Config_default with
  | (_, Ok s) => s
  | (st, Err _) => mkObj st "" Config_default inner_new ∅
  end.
Definition faulty1 : ObjectStorage FaultyMem :=
  let s := (acquire_fence 0 0 7 faulty_open).1 in
  set_store (Fault.arm (Fault.mkPlan Fault.PutIfAbsent 2 Fault.AfterOp) (store s)) s.
Definition faulty2 : ObjectStorage FaultyMem := (append_wal demo_token [mkWal [Init.Byte.x61]] faulty1).1.
Definition faulty3 : ObjectStorage FaultyMem := (append_wal demo_token [mkWal [Init.Byte.x62]] faulty2).1.

(** LSN drift after an ambiguous write: an append whose segment became durable but whose answer
    was lost returns [Transient]; the retry finds the slot taken, moves to the next slot but not to
    the next LSN, and acknowledges LSN 1.  The log, and so every later recovery, has that record at
    LSN 2. *)
Theorem object_lsn_drift :
  (append_wal demo_token [mkWal [Init.Byte.x61]] faulty1).2 = Err Transient ∧
  (append_wal demo_token [mkWal [Init.Byte.x62]] faulty2).2 = Ok 1 ∧
  (scan_wal 0 faulty3).2 =
    Ok [mkEntry 1 (mkWal [Init.Byte.x61]); mkEntry 2 (mkWal [Init.Byte.x62])].
Proof. vm_compute. done. Qed.

(** Set a floor past the end of the log, compact, then write one more page. *)
Definition past_end : ObjectStorage Mem.MemObjectStore :=
  let s := (set_retention_floor 10 demo3).1 in
  let s := (compact s).1 in
  (put_page demo_token 4 [Init.Byte.x64] s).1.

(** A retention floor past the end of the log is accepted, and after a compaction the image
    layer claims LSNs that are not written yet: a page acknowledged afterwards (LSN 4) is read by
    the live handle but is [NotFound] for ever once the database is reopened. *)
Theorem object_floor_past_end :
  (set_retention_floor 10 demo3).2 = Ok tt ∧
  (put_page demo_token 4 [Init.Byte.x64] (compact (set_retention_floor 10 demo3).1).1).2 = Ok 4 ∧
  (get_page 4 10 past_end).2 = Ok (Page_from_slice 4 4 [Init.Byte.x64]) ∧
  (get_page 4 10 (demo_open (store past_end) "db/demo")).2 = Err NotFound.
Proof. vm_compute. done. Qed.

(** A branch of the database, and a branch of that branch in its overlay. *)
Definition parent1 : ObjectStorage Mem.MemObjectStore := (create_branch 3 demo3).1.
Definition overlay1 : ObjectStorage Mem.MemObjectStore :=
  (create_branch 0 (demo_open (store parent1) (overlay_prefix "db/demo/" 1))).1.

(** A branch of a branch damages its grandparent: its pointer lies under the listed prefix
    [branches/] and ends in [.ptr], so reopening the database loads it as a pointer of its own and
    branch 1, forked at LSN 3, resolves to LSN 0. *)
Theorem object_nested_pointer_overrides :
  (create_branch 3 demo3).2 = Ok 1 ∧
  (resolve_branch 1 (demo_open (store parent1) "db/demo")).2 = Ok (mkBranch 1 0 3 3) ∧
  (resolve_branch 1 (demo_open (store overlay1) "db/demo")).2 = Ok (mkBranch 1 0 0 0).
Proof. vm_compute. done. Qed.

(** The fence check and the claim of the slot are two calls: a writer that passed the check
    before another writer acquired the lease still claims the next slot and gets an acknowledged
    commit under the old epoch. *)
Theorem object_fence_race :
  (check_fence demo_token demo3).2 = Ok tt ∧
  (acquire_fence 0 0 8 demo_other).2 = Ok (mkToken 2 8 10000) ∧
  (append_locked demo_token [Wal [Init.Byte.x65]] (set_store (store demo_taken) demo3)).2 = Ok 4.
Proof. vm_compute. done. Qed.
End ObjSpec.
