(* ===== verification/Seam.v ===== *)
(** * The storage seam (crates/storage/src/lib.rs) and branches over it (branch.rs)

    The [Storage] trait as a class of operations, what the engine relies on as laws over an abstract
    history, the copy-on-write [BranchStorage] that makes a branch of any two backends, and the
    dispatch of a URL to a backend.

    A history is the list of items a backend has made durable; the item at position [i] has LSN
    [i + 1].  The laws speak of successful calls, and of failed reads as failures other than
    [NotFound]; what a failed write leaves behind is the subject of each backend's own theorems. *)

From S2P Require Import Prelude Text StorageTypes ObjCodec ObjStorage ObjVersions.
Import Codec Versions.

#[local] Open Scope comp_scope.

Definition STORAGE_TRAIT_VERSION : Z := 3.

(** ** The trait

    [stats], the counters for observability, is left out. *)

Class Storage (S : Type) := {
  st_get_page : PageId → Lsn → Comp S StorageError Page;
  st_append_wal : FenceToken → list WalRecord → Comp S StorageError Lsn;
  st_put_page : FenceToken → PageId → bytes → Comp S StorageError Lsn;
  st_scan_wal : Lsn → Comp S StorageError (list LogEntry);
  st_flush : Comp S StorageError unit;
  st_durable_lsn : Comp S StorageError Lsn;
  st_get_commit_lsn : Comp S StorageError Lsn;
  st_acquire_fence : WriterId → Comp S StorageError FenceToken;
  st_renew_fence : FenceToken → Comp S StorageError FenceToken;
  st_release_fence : FenceToken → Comp S StorageError unit;
  st_create_branch : string → Lsn → Comp S StorageError BranchId;
  st_resolve_branch : BranchId → Comp S StorageError BranchRef;
  st_list_branches : Comp S StorageError (list BranchRef);
  st_delete_branch : BranchId → Comp S StorageError unit;
  st_set_retention_floor : Lsn → Comp S StorageError unit;
  st_pitr_floor : Comp S StorageError Lsn
}.

(** The default [get_pages]: one read after the other, a failed one does not stop the rest. *)
Fixpoint st_get_pages {S : Type} `{!Storage S} (ids : list PageId) (lsn : Lsn)
    : Comp S StorageError (list (Result StorageError Page)) := λ s,
  match ids with
  | [] => (s, Ok [])
  | id :: ids =>
      let '(s, r) := st_get_page id lsn s in
      let '(s, rs) := st_get_pages ids lsn s in
      (s, rs ← rs; Ok (r :: rs))
  end.

(** ** Histories *)

(** The log records of a history whose first item has LSN [n]. *)
Fixpoint entries_from (n : Z) (h : list LogItem) : list LogEntry :=
  match h with
  | [] => []
  | Wal b :: h => mkEntry n (mkWal b) :: entries_from (n + 1) h
  | PageItem _ _ :: h => entries_from (n + 1) h
  end.

Definition entries_after (after : Lsn) (h : list LogItem) : list LogEntry :=
  List.filter (λ e, after <? entry_lsn e) (entries_from 1 h).

(** The greatest version of a page at or below a snapshot. *)
Definition hist_read (h : list LogItem) (id : PageId) (q : Lsn) : Result StorageError Page :=
  match Obj.best_in (versions h) id q with
  | Some r => Ok (Page_from_slice id (rec_lsn r) (rec_image r))
  | None => Err NotFound
  end.

Definition wal_items (rs : list WalRecord) : list LogItem := (λ r, Wal (wal_bytes r)) <$> rs.

(** A read gives this result or fails for a reason other than [NotFound]. *)
Definition reads_as {A} (r expected : Result StorageError A) : Prop :=
  r = expected ∨ ∃ e, r = Err e ∧ e ≠ NotFound.

Class StorageLaws (S : Type) `{!Storage S} := {
  (** [s] holds exactly the history [h]. *)
  holds : S → list LogItem → Prop;
  (** Snapshots that the retention floor has not made unreadable. *)
  readable : S → Lsn → Prop;
  (** Items that fit the widths of the backend's format next. *)
  admits : S → list LogItem → Prop;
  law_get_page s h id q s' r :
    holds s h → st_get_page id q s = (s', r) →
    holds s' h ∧ (∀ q, readable s q → readable s' q) ∧ (readable s q → reads_as r (hist_read h id q));
  law_append_wal s h t rs s' l :
    holds s h → admits s (wal_items rs) → st_append_wal t rs s = (s', Ok l) →
    holds s' (h ++ wal_items rs) ∧ l = zlen h + zlen rs ∧ (∀ q, readable s q → readable s' q);
  law_put_page s h t id img s' l :
    holds s h → admits s [PageItem id img] → st_put_page t id img s = (s', Ok l) →
    holds s' (h ++ [PageItem id img]) ∧ l = zlen h + 1 ∧ (∀ q, readable s q → readable s' q);
  law_scan_wal s h after s' r :
    holds s h → st_scan_wal after s = (s', r) →
    holds s' h ∧ (∀ q, readable s q → readable s' q) ∧ reads_as r (Ok (entries_after after h));
  law_durable_lsn s h s' l :
    holds s h → st_durable_lsn s = (s', Ok l) →
    holds s' h ∧ (∀ q, readable s q → readable s' q) ∧ l = zlen h;
  law_get_commit_lsn s h s' l :
    holds s h → st_get_commit_lsn s = (s', Ok l) →
    holds s' h ∧ (∀ q, readable s q → readable s' q) ∧
    Forall (λ e, entry_lsn e ≤ l) (entries_from 1 h) ∧ 0 ≤ l ≤ zlen h
}.
#[global] Hint Mode Storage ! : typeclass_instances.
#[global] Hint Mode StorageLaws ! - : typeclass_instances.

(** ** Branches: a parent's history up to the fork point, a private overlay above it *)

Record BranchStorage (P O : Type) := mkBranchStorage {
  bs_parent : P;
  bs_overlay : O;
  bs_base_lsn : Z;
  bs_id : BranchId;
  bs_parent_id : BranchId
}.
Arguments mkBranchStorage {P O} _ _ _ _ _.
Arguments bs_parent {P O} _.
Arguments bs_overlay {P O} _.
Arguments bs_base_lsn {P O} _.
Arguments bs_id {P O} _.
Arguments bs_parent_id {P O} _.

Section Branch.
Context {P O : Type} `{!Storage P, !Storage O}.
Abbreviation B := (BranchStorage P O).
Abbreviation M A := (Comp B StorageError A).

Definition BranchStorage_new (parent : P) (overlay : O) (bref : BranchRef) : B :=
  mkBranchStorage parent overlay (br_base_lsn bref) (br_id bref) (br_parent bref).

Definition to_global (s : B) (local : Lsn) : Lsn := bs_base_lsn s + local.
Definition to_local (s : B) (global : Lsn) : Lsn := saturating_sub global (bs_base_lsn s).

(** A call on the parent, and one on the overlay. *)
Definition on_parent {A} (m : Comp P StorageError A) : M A := λ s,
  let '(p, r) := m (bs_parent s) in
  (mkBranchStorage p (bs_overlay s) (bs_base_lsn s) (bs_id s) (bs_parent_id s), r).
Definition on_overlay {A} (m : Comp O StorageError A) : M A := λ s,
  let '(o, r) := m (bs_overlay s) in
  (mkBranchStorage (bs_parent s) o (bs_base_lsn s) (bs_id s) (bs_parent_id s), r).

Definition get_page (id : PageId) (lsn : Lsn) : M Page := λ s,
  if lsn <=? bs_base_lsn s then on_parent (st_get_page id lsn) s
  else
    match on_overlay (st_get_page id (to_local s lsn)) s with
    | (s, Ok p) => (s, Ok (mkPage id (to_global s (page_lsn p)) (page_bytes p)))
    | (s, Err NotFound) => on_parent (st_get_page id (bs_base_lsn s)) s
    | (s, Err e) => (s, Err e)
    end.

(** A call on the overlay whose result is an LSN. *)
Definition global_lsn (m : Comp O StorageError Lsn) : M Lsn :=
  let! l := on_overlay m in λ s, (s, Ok (to_global s l)).

Definition append_wal (token : FenceToken) (records : list WalRecord) : M Lsn :=
  global_lsn (st_append_wal token records).
Definition put_page (token : FenceToken) (id : PageId) (image : bytes) : M Lsn :=
  global_lsn (st_put_page token id image).

Definition global_entry (s : B) (e : LogEntry) : LogEntry :=
  mkEntry (to_global s (entry_lsn e)) (entry_record e).

Definition scan_wal (after : Lsn) : M (list LogEntry) := λ s,
  if after <? bs_base_lsn s then
    (let! old := on_parent (st_scan_wal after) in
     let! new := on_overlay (st_scan_wal Lsn_ZERO) in
     λ s, (s, Ok (List.filter (λ e, entry_lsn e <=? bs_base_lsn s) old ++ (global_entry s <$> new)))) s
  else
    (let! new := on_overlay (st_scan_wal (to_local s after)) in
     λ s, (s, Ok (global_entry s <$> new))) s.

#[global] Instance BranchStorage_Storage : Storage B := {|
  st_get_page := get_page;
  st_append_wal := append_wal;
  st_put_page := put_page;
  st_scan_wal := scan_wal;
  st_flush := on_overlay st_flush;
  st_durable_lsn := global_lsn st_durable_lsn;
  st_get_commit_lsn := global_lsn st_get_commit_lsn;
  st_acquire_fence owner := on_overlay (st_acquire_fence owner);
  st_renew_fence token := on_overlay (st_renew_fence token);
  st_release_fence token := on_overlay (st_release_fence token);
  st_create_branch name base := λ s, on_overlay (st_create_branch name (to_local s base)) s;
  st_resolve_branch b := on_overlay (st_resolve_branch b);
  st_list_branches := on_overlay st_list_branches;
  st_delete_branch b := on_overlay (st_delete_branch b);
  st_set_retention_floor l := λ s, on_overlay (st_set_retention_floor (to_local s l)) s;
  st_pitr_floor := global_lsn st_pitr_floor
|}.

End Branch.

(** ** Opening *)

(** [dyn Storage]: one of the two backends. *)
Inductive AnyStorage (L O : Type) := ALocal (l : L) | AObject (o : O).
Arguments ALocal {L O} l.
Arguments AObject {L O} o.

Section Any.
Context {L O : Type} `{!Storage L, !Storage O}.

Definition on_any {A} (ml : Comp L StorageError A) (mo : Comp O StorageError A)
    : Comp (AnyStorage L O) StorageError A := λ s,
  match s with
  | ALocal l => let '(l, r) := ml l in (ALocal l, r)
  | AObject o => let '(o, r) := mo o in (AObject o, r)
  end.

#[global] Instance AnyStorage_Storage : Storage (AnyStorage L O) := {|
  st_get_page id l := on_any (st_get_page id l) (st_get_page id l);
  st_append_wal t rs := on_any (st_append_wal t rs) (st_append_wal t rs);
  st_put_page t id img := on_any (st_put_page t id img) (st_put_page t id img);
  st_scan_wal a := on_any (st_scan_wal a) (st_scan_wal a);
  st_flush := on_any st_flush st_flush;
  st_durable_lsn := on_any st_durable_lsn st_durable_lsn;
  st_get_commit_lsn := on_any st_get_commit_lsn st_get_commit_lsn;
  st_acquire_fence w := on_any (st_acquire_fence w) (st_acquire_fence w);
  st_renew_fence t := on_any (st_renew_fence t) (st_renew_fence t);
  st_release_fence t := on_any (st_release_fence t) (st_release_fence t);
  st_create_branch n b := on_any (st_create_branch n b) (st_create_branch n b);
  st_resolve_branch b := on_any (st_resolve_branch b) (st_resolve_branch b);
  st_list_branches := on_any st_list_branches st_list_branches;
  st_delete_branch b := on_any (st_delete_branch b) (st_delete_branch b);
  st_set_retention_floor l := on_any (st_set_retention_floor l) (st_set_retention_floor l);
  st_pitr_floor := on_any st_pitr_floor st_pitr_floor
|}.

(** The outside world [W] (files, buckets) and the constructors of the two backends. *)
Context {W : Type}.
Context (open_local : string → Comp W StorageError L).
Context (open_object : string → Comp W StorageError O).
Context (open_branch_overlay : string → BranchId → Comp W StorageError O).

Definition comp_map {S E A A'} (f : A → A') (m : Comp S E A) : Comp S E A' :=
  let! a := m in comp_ret (f a).

Definition is_object_scheme (scheme : string) : bool :=
  existsb (String.eqb scheme) ["s3"; "r2"; "gs"]%string.

Definition open_storage (url : string) : Comp W StorageError (AnyStorage L O) :=
  match split_once "://" url with
  | None => comp_err Invalid
  | Some (scheme, _) =>
      if String.eqb scheme "file" then comp_map ALocal (open_local url)
      else if is_object_scheme scheme then comp_map AObject (open_object url)
      else comp_err Invalid
  end.

(** The sibling URL of a branch's private data: the query string is dropped. *)
Definition branch_overlay_url (url : string) (branch : BranchId) : string :=
  (before_char "?"%char url +:+ ".branch-" +:+ pretty branch)%string.

Definition open_branch (url : string) (branch : BranchId)
    : Comp W StorageError (BranchStorage (AnyStorage L O) (AnyStorage L O)) :=
  let! parent := open_storage url in
  let '(parent, bref) := st_resolve_branch branch parent in
  match bref with
  | Err e => comp_err e
  | Ok bref =>
      let file := match split_once "://" url with Some (s, _) => String.eqb s "file" | None => false end in
      let! overlay := (if file then comp_map ALocal (open_local (branch_overlay_url url branch))
                       else comp_map AObject (open_branch_overlay url branch)) in
      comp_ret (BranchStorage_new parent overlay bref)
  end.

End Any.
