(* ===== verification/SeamBranch.v ===== *)
(** * Histories of the seam

    What the log records and the page reads of a history are when histories are cut and joined;
    shared by the laws of the backends and of branches. *)

From S2P Require Import Prelude Text StorageTypes ObjCodec ObjStorage ObjVersions Seam.

Import Codec Versions.

(** ** Histories that are put together *)

(** A version of the overlay, as the branch presents it. *)
Definition shift_record (n : Z) (r : PageRecord) : PageRecord :=
  mkRecord (rec_page_id r) (n + rec_lsn r) (rec_image r).
Definition shift_entry (n : Z) (e : LogEntry) : LogEntry := mkEntry (n + entry_lsn e) (entry_record e).

Lemma versions_from_shift k n h : versions_from (k + n) h = shift_record k <$> versions_from n h.
Proof.
  revert n. induction h as [|[b|id img] h IH]; intros n; cbn [versions_from fmap list_fmap]; [done| |].
  - by rewrite <- IH, Z.add_assoc.
  - rewrite <- Z.add_assoc, IH. done.
Qed.

Lemma versions_join a b : versions (a ++ b) = versions a ++ (shift_record (zlen a) <$> versions b).
Proof. unfold versions. by rewrite versions_from_app, Z.add_comm, versions_from_shift. Qed.

Lemma entries_from_app n a b : entries_from n (a ++ b) = entries_from n a ++ entries_from (n + zlen a) b.
Proof.
  revert n. induction a as [|[x|id img] a IH]; intros n; cbn [entries_from app].
  - by rewrite zlen_nil, Z.add_0_r.
  - rewrite IH, zlen_cons, Z.add_assoc. done.
  - rewrite IH, zlen_cons, Z.add_assoc. done.
Qed.

Lemma entries_from_shift k n h : entries_from (k + n) h = shift_entry k <$> entries_from n h.
Proof.
  revert n. induction h as [|[b|id img] h IH]; intros n; cbn [entries_from fmap list_fmap]; [done| |].
  - rewrite <- Z.add_assoc, IH. done.
  - by rewrite <- IH, Z.add_assoc.
Qed.

Lemma entries_from_range n h : Forall (λ e, n ≤ entry_lsn e < n + zlen h) (entries_from n h).
Proof.
  revert n. induction h as [|[b|id img] h IH]; intros n; cbn [entries_from]; [constructor| |].
  - rewrite zlen_cons. pose proof (zlen_nonneg h). constructor; [cbn; lia|].
    eapply Forall_impl; [apply (IH (n + 1))|]. cbn. lia.
  - rewrite zlen_cons. eapply Forall_impl; [apply (IH (n + 1))|]. cbn. lia.
Qed.

(** [take] at an LSN keeps the entries up to it. *)
Lemma entries_take k h :
  0 ≤ k ≤ zlen h →
  entries_from 1 (take (Z.to_nat k) h) = List.filter (λ e, entry_lsn e <=? k) (entries_from 1 h).
Proof.
  intros Hk. rewrite <- (take_drop (Z.to_nat k) h) at 2. rewrite entries_from_app, List.filter_app.
  assert (zlen (take (Z.to_nat k) h) = k) as Hl by (unfold zlen in *; rewrite length_take; lia).
  rewrite filter_all, filter_none; [by rewrite app_nil_r| |].
  - eapply Forall_impl; [apply entries_from_range|]. cbn. intros e He. apply Z.leb_gt. lia.
  - eapply Forall_impl; [apply entries_from_range|]. cbn. intros e He. apply Z.leb_le. lia.
Qed.

(** ** Reads of a joined history *)

Lemma hist_read_old a b id q : q ≤ zlen a → hist_read (a ++ b) id q = hist_read a id q.
Proof.
  intros Hq. unfold hist_read. rewrite (greatest_unique (a ++ b) (.∈ versions (a ++ b)) id q
    (Obj.best_in (versions (a ++ b)) id q) (Obj.best_in (versions a) id q)); [done|done|apply best_in_greatest|].
  eapply greatest_ext; [|apply best_in_greatest]. intros r Hr. cbn.
  symmetry. apply versions_app_old. lia.
Qed.

(** Past the end, a read sees what it sees at the end. *)
Lemma hist_read_end a id q : zlen a ≤ q → hist_read a id q = hist_read a id (zlen a).
Proof.
  intros Hq. unfold hist_read. rewrite (greatest_unique a (.∈ versions a) id q
    (Obj.best_in (versions a) id q) (Obj.best_in (versions a) id (zlen a))); [done|done|apply best_in_greatest|].
  pose proof (best_in_greatest (versions a) id (zlen a)) as H.
  destruct (Obj.best_in (versions a) id (zlen a)) as [r|]; cbn in *.
  - destruct H as (H1 & H2 & H3 & H4). split_and!; [done|done|lia|]. intros r' H1' H2' _.
    apply H4; [done|done|]. by apply versions_range.
  - intros r H1 H2 _. apply (H r H1 H2). by apply versions_range.
Qed.

Lemma hist_read_new a b id q :
  zlen a < q →
  hist_read (a ++ b) id q =
    match hist_read b id (q - zlen a) with
    | Ok p => Ok (mkPage id (zlen a + page_lsn p) (page_bytes p))
    | Err _ => hist_read a id (zlen a)
    end.
Proof.
  intros Hq. unfold hist_read at 2. pose proof (best_in_greatest (versions b) id (q - zlen a)) as Hb.
  destruct (Obj.best_in (versions b) id (q - zlen a)) as [r|].
  - unfold hist_read. rewrite (greatest_unique (a ++ b) (.∈ versions (a ++ b)) id q
      (Obj.best_in (versions (a ++ b)) id q) (Some (shift_record (zlen a) r)));
      [done|done|apply best_in_greatest|].
    destruct Hb as (H1 & H2 & H3 & H4). cbn. rewrite versions_join. split_and!; [|done|lia|].
    + apply elem_of_app. right. by apply list_elem_of_fmap_2.
    + intros r' [H|H]%elem_of_app Hi Hl.
      * apply versions_range in H. apply versions_range in H1. lia.
      * apply list_elem_of_fmap in H as (x & -> & Hx). cbn in *.
        pose proof (H4 x Hx Hi). lia.
  - rewrite <- (hist_read_end a id q) by lia. unfold hist_read.
    rewrite (greatest_unique (a ++ b) (.∈ versions (a ++ b)) id q
      (Obj.best_in (versions (a ++ b)) id q) (Obj.best_in (versions a) id q));
      [done|done|apply best_in_greatest|].
    assert (∀ r, r ∈ versions (a ++ b) → rec_page_id r = id → rec_lsn r ≤ q → r ∈ versions a) as Ha.
    { intros r. rewrite versions_join. intros [H|H]%elem_of_app Hi Hl; [done|].
      apply list_elem_of_fmap in H as (x & -> & Hx). cbn in *. destruct (Hb x Hx Hi). lia. }
    pose proof (best_in_greatest (versions a) id q) as H.
    destruct (Obj.best_in (versions a) id q) as [r|]; cbn in *.
    + destruct H as (H1 & H2 & H3 & H4). split_and!; [|done|done|auto].
      rewrite versions_join. apply elem_of_app. by left.
    + intros r H1 H2 H3. by apply (H r); auto.
Qed.

(** The last of the sorted versions is the greatest. *)
Lemma versions_from_sorted n h : StronglySorted Z.lt (rec_lsn <$> versions_from n h).
Proof.
  revert n. induction h as [|[b|id img] h IH]; intros n; cbn; [constructor|apply IH|].
  constructor; [apply IH|]. apply Forall_fmap, Forall_forall. intros r Hr.
  apply versions_from_range in Hr. cbn. lia.
Qed.

Lemma sorted_filter {A} (f : A → Z) p l :
  StronglySorted Z.lt (f <$> l) → StronglySorted Z.lt (f <$> List.filter p l).
Proof.
  induction l as [|x l IH]; [done|]. cbn. intros H. inversion H as [|?? Hs Hf]; subst.
  destruct (p x); [|auto]. cbn. constructor; [auto|]. apply Forall_fmap, Forall_forall. intros y Hy.
  rewrite Forall_fmap, Forall_forall in Hf. apply Hf.
  apply list_elem_of_In. apply list_elem_of_In, List.filter_In in Hy. by destruct Hy.
Qed.

Lemma last_sorted_greatest (h : list LogItem) id q :
  greatest (.∈ versions h) id q
    (last (List.filter (λ r, (rec_page_id r =? id) && (rec_lsn r <=? q)) (versions h))).
Proof.
  pose proof (sorted_filter rec_lsn (λ r, (rec_page_id r =? id) && (rec_lsn r <=? q)) _
    (versions_from_sorted 1 h)) as Hs. fold (versions h) in Hs.
  assert (∀ r, r ∈ List.filter (λ r, (rec_page_id r =? id) && (rec_lsn r <=? q)) (versions h) ↔
    r ∈ versions h ∧ rec_page_id r = id ∧ rec_lsn r ≤ q) as Hin.
  { intros r. rewrite !list_elem_of_In, List.filter_In, andb_true_iff, Z.eqb_eq, Z.leb_le. done. }
  set (l := List.filter _ _) in *. destruct (last l) as [r|] eqn:E.
  - apply last_Some in E as [l' El]. assert (r ∈ l) as Hr by (rewrite El; set_solver).
    apply Hin in Hr as (H1 & H2 & H3). cbn. split_and!; [done..|]. intros r' H1' H2' H3'.
    assert (r' ∈ l) as Hr' by (by apply Hin). rewrite El in Hr', Hs.
    apply elem_of_app in Hr' as [Hr'|Hr'].
    2:{ apply list_elem_of_singleton in Hr' as ->. done. }
    rewrite fmap_app in Hs. apply list_elem_of_split in Hr' as (a & b & ->).
    rewrite fmap_app, <- app_assoc in Hs. cbn in Hs. clear -Hs.
    induction (rec_lsn <$> a) as [|x xs IH]; cbn in Hs; inversion Hs as [|?? Hs' Hf]; subst; [|auto].
    rewrite Forall_forall in Hf. apply Z.lt_le_incl, Hf. set_solver.
  - apply last_None in E. cbn. intros r H1 H2 H3. assert (r ∈ l) as Hr by (by apply Hin).
    rewrite E in Hr. by apply elem_of_nil in Hr.
Qed.

(** * A branch keeps the laws of the seam

    Over any two lawful backends, [BranchStorage] holds the parent's history up to the fork point
    followed by the overlay's own: it is a lawful backend again, so branches of branches are too. *)

Import Codec Versions.

(** ** The laws *)

Section Laws.
Context {P O : Type} `{!Storage P, !Storage O, !StorageLaws P, !StorageLaws O}.
Abbreviation B := (BranchStorage P O).

Definition branch_hist (base : Z) (hp ho : list LogItem) : list LogItem := take (Z.to_nat base) hp ++ ho.

Definition branch_holds (s : B) (h : list LogItem) : Prop :=
  ∃ hp ho, holds (bs_parent s) hp ∧ holds (bs_overlay s) ho ∧ 0 ≤ bs_base_lsn s ≤ zlen hp ∧
    h = branch_hist (bs_base_lsn s) hp ho.

Definition branch_readable (s : B) (q : Lsn) : Prop :=
  readable (bs_parent s) (bs_base_lsn s) ∧
  if q <=? bs_base_lsn s then readable (bs_parent s) q else readable (bs_overlay s) (q - bs_base_lsn s).

Lemma zlen_fork base (hp : list LogItem) : 0 ≤ base ≤ zlen hp → zlen (take (Z.to_nat base) hp) = base.
Proof. intros H. unfold zlen in *. rewrite length_take. lia. Qed.

Lemma hist_read_fork base hp id q :
  0 ≤ base ≤ zlen hp → q ≤ base → hist_read (take (Z.to_nat base) hp) id q = hist_read hp id q.
Proof.
  intros Hb Hq. rewrite <- (take_drop (Z.to_nat base) hp) at 2. symmetry.
  apply hist_read_old. rewrite zlen_fork; done.
Qed.

Lemma branch_get_page s h id q s' r :
  branch_holds s h → get_page id q s = (s', r) →
  branch_holds s' h ∧ (∀ q, branch_readable s q → branch_readable s' q) ∧
  (branch_readable s q → reads_as r (hist_read h id q)).
Proof.
  intros (hp & ho & Hp & Ho & Hb & ->). pose proof (zlen_fork _ _ Hb) as Hz.
  unfold get_page, branch_hist. destruct s as [p o base i pi]. cbn in *.
  destruct (Z.leb_spec q base) as [Hq|Hq].
  { unfold on_parent. cbn. destruct (st_get_page id q p) as [p' r'] eqn:E. intros [= <- <-].
    destruct (law_get_page _ _ _ _ _ _ Hp E) as (Hp' & Hr & Hread). split_and!.
    - exists hp, ho. done.
    - intros q'. unfold branch_readable. cbn. destruct (q' <=? base); naive_solver.
    - unfold branch_readable. cbn. rewrite (proj2 (Z.leb_le _ _) Hq). intros [_ Hr'].
      rewrite hist_read_old, hist_read_fork by lia. auto. }
  unfold on_overlay, to_local, saturating_sub. cbn. rewrite Z.max_r by lia.
  destruct (st_get_page id (q - base) o) as [o' r'] eqn:E.
  destruct (law_get_page _ _ _ _ _ _ Ho E) as (Ho' & Hr & Hread).
  rewrite (hist_read_new _ ho) by lia. rewrite Hz, (hist_read_fork base hp id base) by lia.
  assert (∀ p' o', holds p' hp → holds o' ho → branch_holds (mkBranchStorage p' o' base i pi)
    (branch_hist base hp ho)) as Hmk by (intros p' o'' ??; by exists hp, ho).
  destruct r' as [pg|e].
  { intros [= <- <-]. split_and!; [by apply Hmk| |].
    - intros q'. unfold branch_readable. cbn. destruct (q' <=? base); naive_solver.
    - unfold branch_readable. cbn. destruct (Z.leb_spec q base); [lia|]. intros [_ Hr'].
      destruct (Hread Hr') as [<-|(e & [=] & _)]. by left. }
  destruct (decide (e = NotFound)) as [->|He].
  - unfold on_parent. cbn. destruct (st_get_page id base p) as [p' rp] eqn:Ep. intros [= <- <-].
    destruct (law_get_page _ _ _ _ _ _ Hp Ep) as (Hp' & Hrp & Hreadp). split_and!; [by apply Hmk| |].
    + intros q'. unfold branch_readable. cbn. destruct (q' <=? base); naive_solver.
    + unfold branch_readable. cbn. destruct (Z.leb_spec q base); [lia|]. intros [Hrb Hro].
      destruct (Hread Hro) as [<-|(e & He & Hne)]; [auto|by injection He].
  - assert ((mkBranchStorage p o' base i pi, Err e) = (s', r) →
      branch_holds s' (branch_hist base hp ho) ∧
      (∀ q, branch_readable (mkBranchStorage p o base i pi) q → branch_readable s' q) ∧ r = Err e) as Hgo.
    { intros [= <- <-]. split_and!; [by apply Hmk| |done].
      intros q'. unfold branch_readable. cbn. destruct (q' <=? base); naive_solver. }
    intros H. assert ((mkBranchStorage p o' base i pi, Err e) = (s', r)) as H' by (by destruct e).
    destruct (Hgo H') as (? & ? & ->). split_and!; [done..|]. intros _. right. eauto.
Qed.

(** A write that the overlay acknowledges. *)
Lemma branch_write (m : Comp O StorageError Lsn) s h new s' l :
  branch_holds s h →
  (∀ o' ho k, holds (bs_overlay s) ho → m (bs_overlay s) = (o', Ok k) →
     holds o' (ho ++ new) ∧ k = zlen ho + zlen new ∧ (∀ q, readable (bs_overlay s) q → readable o' q)) →
  global_lsn m s = (s', Ok l) →
  branch_holds s' (h ++ new) ∧ l = zlen h + zlen new ∧ (∀ q, branch_readable s q → branch_readable s' q).
Proof.
  intros (hp & ho & Hp & Ho & Hb & ->) Hm. unfold global_lsn, comp_bind, on_overlay.
  destruct (m (bs_overlay s)) as [o' [k|e]] eqn:E; [|done]. intros [= <- <-].
  destruct (Hm _ ho _ Ho eq_refl) as (Ho' & -> & Hr). unfold branch_hist. split_and!.
  - exists hp, (ho ++ new). cbn. unfold branch_hist. rewrite app_assoc. done.
  - unfold to_global. cbn. rewrite zlen_app, zlen_fork by done. lia.
  - intros q'. unfold branch_readable. cbn. destruct (q' <=? _); naive_solver.
Qed.

(** The entries of a branch past an LSN. *)
Lemma branch_entries_after base after hp ho :
  0 ≤ base ≤ zlen hp →
  entries_after after (branch_hist base hp ho) =
    (if after <? base
     then List.filter (λ e, entry_lsn e <=? base) (entries_after after hp) ++ (shift_entry base <$> entries_after 0 ho)
     else shift_entry base <$> entries_after (after - base) ho).
Proof.
  intros Hb. unfold entries_after at 1, branch_hist. rewrite entries_from_app, zlen_fork, (Z.add_comm 1) by done.
  rewrite entries_from_shift, List.filter_app, entries_take by done. rewrite filter_filter, filter_map_comm.
  pose proof (entries_from_range 1 ho) as Hro. destruct (Z.ltb_spec after base).
  - f_equal.
    + unfold entries_after. rewrite filter_filter. apply filter_ext. intros e. by rewrite andb_comm.
    + unfold entries_after. rewrite !filter_all; [done|..]; (eapply Forall_impl; [exact Hro|]; cbn;
        intros e He; apply Z.ltb_lt; lia).
  - rewrite filter_none; cbn [app].
    + unfold entries_after. f_equal. apply filter_ext. intros e. cbn.
      destruct (Z.ltb_spec after (base + entry_lsn e)), (Z.ltb_spec (after - base) (entry_lsn e)); lia || done.
    + apply Forall_forall. intros e _. destruct (Z.leb_spec (entry_lsn e) base), (Z.ltb_spec after (entry_lsn e));
        (done || lia).
Qed.

Lemma branch_scan_wal s h after s' r :
  branch_holds s h → scan_wal after s = (s', r) →
  branch_holds s' h ∧ (∀ q, branch_readable s q → branch_readable s' q) ∧
  reads_as r (Ok (entries_after after h)).
Proof.
  intros (hp & ho & Hp & Ho & Hb & ->). rewrite (branch_entries_after _ _ _ _ Hb). unfold scan_wal.
  destruct s as [p o base i pi]. cbn in *.
  assert (∀ p' o' (rp : ∀ q, readable p q → readable p' q) (ro : ∀ q, readable o q → readable o' q) q,
    branch_readable (mkBranchStorage p o base i pi) q → branch_readable (mkBranchStorage p' o' base i pi) q) as Hrd.
  { intros p' o' rp ro q. unfold branch_readable. cbn. destruct (q <=? base); naive_solver. }
  destruct (Z.ltb_spec after base) as [Ha|Ha]; unfold comp_bind, on_parent, on_overlay; cbn.
  - destruct (st_scan_wal after p) as [p' rp] eqn:Ep.
    destruct (law_scan_wal _ _ _ _ _ Hp Ep) as (Hp' & Hrp & Hreadp). destruct rp as [old|e].
    2:{ intros [= <- <-]. split_and!; [by exists hp, ho|by apply Hrd|].
        destruct Hreadp as [[=]|(e' & [= ->] & He)]. right. eauto. }
    cbn. unfold Lsn_ZERO. destruct (st_scan_wal 0 o) as [o' ro] eqn:Eo.
    destruct (law_scan_wal _ _ _ _ _ Ho Eo) as (Ho' & Hro & Hreado). destruct ro as [new|e].
    2:{ intros [= <- <-]. split_and!; [by exists hp, ho|by apply Hrd|].
        destruct Hreado as [[=]|(e' & [= ->] & He)]. right. eauto. }
    intros [= <- <-]. split_and!; [by exists hp, ho|by apply Hrd|]. left.
    destruct Hreadp as [[= ->]|(e' & [=] & _)]. destruct Hreado as [[= ->]|(e' & [=] & _)]. done.
  - unfold to_local, saturating_sub. cbn. rewrite Z.max_r by lia.
    destruct (st_scan_wal (after - base) o) as [o' ro] eqn:Eo.
    destruct (law_scan_wal _ _ _ _ _ Ho Eo) as (Ho' & Hro & Hreado). destruct ro as [new|e]; intros [= <- <-];
      (split_and!; [by exists hp, ho|by apply Hrd|]).
    + destruct Hreado as [[= ->]|(e' & [=] & _)]. by left.
    + destruct Hreado as [[=]|(e' & [= ->] & He)]. right. eauto.
Qed.

(** A query of the overlay's marks. *)
Lemma branch_mark (m : Comp O StorageError Lsn) s h s' l (Q : list LogItem → Lsn → Prop) :
  branch_holds s h →
  (∀ o' ho k, holds (bs_overlay s) ho → m (bs_overlay s) = (o', Ok k) →
     holds o' ho ∧ (∀ q, readable (bs_overlay s) q → readable o' q) ∧ Q ho k) →
  global_lsn m s = (s', Ok l) →
  branch_holds s' h ∧ (∀ q, branch_readable s q → branch_readable s' q) ∧
  ∃ hp ho k, 0 ≤ bs_base_lsn s ≤ zlen hp ∧ h = branch_hist (bs_base_lsn s) hp ho ∧ Q ho k ∧ l = bs_base_lsn s + k.
Proof.
  intros (hp & ho & Hp & Ho & Hb & ->) Hm. unfold global_lsn, comp_bind, on_overlay.
  destruct (m (bs_overlay s)) as [o' [k|e]] eqn:E; [|done]. intros [= <- <-].
  destruct (Hm _ ho _ Ho eq_refl) as (Ho' & Hr & HQ). split_and!.
  - by exists hp, ho.
  - intros q'. unfold branch_readable. cbn. destruct (q' <=? _); naive_solver.
  - by exists hp, ho, k.
Qed.

#[global] Program Instance BranchStorage_laws : StorageLaws B := {|
  holds := branch_holds;
  readable := branch_readable;
  admits s new := admits (bs_overlay s) new
|}.
Next Obligation. intros s h id q s' r. apply branch_get_page. Qed.
Next Obligation.
  intros s h t rs s' l Hh Ha Hw. cbn in Hw. unfold append_wal in Hw.
  replace (zlen rs) with (zlen (wal_items rs)) by (unfold zlen, wal_items; by rewrite length_fmap).
  eapply branch_write; [done| |exact Hw]. intros o' ho k Ho Hk.
  destruct (law_append_wal _ _ _ _ _ _ Ho Ha Hk) as (? & -> & ?). split_and!; [done| |done].
  unfold zlen, wal_items. by rewrite length_fmap.
Qed.
Next Obligation.
  intros s h t id img s' l Hh Ha Hw. eapply (branch_write _ _ _ [PageItem id img]); [done| |exact Hw].
  intros o' ho k Ho Hk. by destruct (law_put_page _ _ _ _ _ _ _ Ho Ha Hk) as (? & -> & ?).
Qed.
Next Obligation. intros s h after s' r. apply branch_scan_wal. Qed.
Next Obligation.
  intros s h s' l Hh Hm.
  destruct (branch_mark _ _ _ _ _ (λ ho k, k = zlen ho) Hh (λ o' ho k, law_durable_lsn _ _ _ _) Hm)
    as (? & ? & hp & ho & k & Hb & -> & -> & ->).
  split_and!; [done..|]. unfold branch_hist. by rewrite zlen_app, zlen_fork.
Qed.
Next Obligation.
  intros s h s' l Hh Hm.
  destruct (branch_mark _ _ _ _ _ (λ ho k, Forall (λ e, entry_lsn e ≤ k) (entries_from 1 ho) ∧ 0 ≤ k ≤ zlen ho) Hh
    (λ o' ho k, law_get_commit_lsn _ _ _ _) Hm) as (? & ? & hp & ho & k & Hb & -> & [Hf Hk] & ->).
  split_and!; [done|done| |lia|].
  - unfold branch_hist. rewrite entries_from_app, zlen_fork, (Z.add_comm 1), entries_from_shift by done.
    apply Forall_app. split.
    + eapply Forall_impl; [apply entries_from_range|]. cbn. rewrite zlen_fork by done. lia.
    + apply Forall_fmap. eapply Forall_impl; [exact Hf|]. cbn. lia.
  - unfold branch_hist. rewrite zlen_app, zlen_fork by done. lia.
Qed.

End Laws.
