(* ===== verification/SeamSpec.v ===== *)
(** * The embedded backend behind the seam

    [LocalFileStorage] as an instance of [Storage], with the outcomes of its coming writes and the
    readings of its clock as part of the state, and the laws of the seam for it: the history it
    holds is the sequence of items of the records in its file. *)

From S2P Require Import Prelude Text StorageTypes Crc32 ObjCodec ObjStorage ObjVersions LocalStore LocalSpec Seam.
From S2P Require Import SeamBranch ObjStore ObjInv ObjLive ObjWrite ObjRecover ObjBranches.

Import Codec Local LocalLog LocalInv LocalSpec.

#[local] Opaque header_bytes.

(** ** The instance *)

(** The handle and what the machine will do: how each coming write ends (those not listed succeed)
    and what the clock reads. *)
Record LocalEnv := mkLocalEnv {
  le_store : LocalFileStorage;
  le_io : list Io;
  le_now : Instant
}.

Definition le_inner (s : LocalEnv) : Inner := inner (le_store s).

(** A call under the lock that writes nothing. *)
Definition locked {A} (m : Comp Inner StorageError A) : Comp LocalEnv StorageError A := λ s,
  let '(g, r) := m (le_inner s) in
  (mkLocalEnv (mkLocal (path (le_store s)) g (others (le_store s))) (le_io s) (le_now s), r).

(** A call that may write: it takes the next outcome. *)
Definition next_io (s : LocalEnv) : Io := default IoOk (head (le_io s)).
Definition writing {A} (m : Io → Comp Inner StorageError A) : Comp LocalEnv StorageError A := λ s,
  let '(g, r) := m (next_io s) (le_inner s) in
  (mkLocalEnv (mkLocal (path (le_store s)) g (others (le_store s))) (tail (le_io s)) (le_now s), r).

Definition asking {A} (f : Inner → Result StorageError A) : Comp LocalEnv StorageError A :=
  λ s, (s, f (le_inner s)).

#[global] Instance LocalEnv_Storage : Storage LocalEnv := {|
  st_get_page id lsn := locked (get_page id lsn);
  st_append_wal t rs := writing (λ io, append_wal io t rs);
  st_put_page t id img := writing (λ io, put_page io t id img);
  st_scan_wal after := asking (scan_wal after);
  st_flush := writing flush;
  st_durable_lsn := asking (λ g, Ok (durable_lsn g));
  st_get_commit_lsn := asking (λ g, Ok (commit_lsn g));
  st_acquire_fence w := λ s, writing (λ io, acquire_fence io (le_now s) w) s;
  st_renew_fence t := λ s, locked (renew_fence (le_now s) t) s;
  st_release_fence t := locked (release_fence t);
  st_create_branch _ base := writing (λ io, create_branch io base);
  st_resolve_branch b := asking (resolve_branch b);
  st_list_branches := asking (λ g, Ok (list_branches g));
  st_delete_branch b := λ s,
    let '(st, r) := delete_branch (next_io s) b (le_store s) in
    (mkLocalEnv st (tail (le_io s)) (le_now s), r);
  st_set_retention_floor l := writing (λ io, set_retention_floor io l);
  st_pitr_floor := asking (λ g, Ok (retention_floor g))
|}.

(** ** The history in the file *)

Definition items_of (r : Rec) : list LogItem :=
  match r with RWal records => wal_items records | RPage id img => [PageItem id img] | _ => [] end.
Definition hist_of (rs : list Rec) : list LogItem := concat (items_of <$> rs).

Lemma hist_of_snoc rs r : hist_of (rs ++ [r]) = hist_of rs ++ items_of r.
Proof. unfold hist_of. rewrite fmap_app, concat_app. cbn. by rewrite app_nil_r. Qed.

Lemma zlen_items r : zlen (items_of r) = cost r.
Proof. destruct r; try done. cbn. unfold wal_items, zlen. by rewrite length_fmap. Qed.

Lemma zlen_hist rs : zlen (hist_of rs) = costs rs.
Proof.
  induction rs as [|r rs IH]; [done|]. unfold hist_of in *. cbn.
  rewrite zlen_app, zlen_items. unfold costs in *. cbn. by rewrite IH.
Qed.

Lemma entries_wal n rs : entries_from n (wal_items rs) = map (λ p, mkEntry p.1 p.2) (number n rs).
Proof. revert n. induction rs as [|[b] rs IH]; intros n; cbn; [done|]. f_equal. apply IH. Qed.

Lemma filter_map_entry after (l : list (Lsn * WalRecord)) :
  map (λ p, mkEntry p.1 p.2) (List.filter (λ p, after <? p.1) l) =
  List.filter (λ e, after <? entry_lsn e) (map (λ p, mkEntry p.1 p.2) l).
Proof. induction l as [|[x w] l IH]; [done|]. cbn. destruct (after <? x); cbn; by rewrite IH. Qed.

Lemma wal_entries_hist after n rs :
  wal_entries after (frames_of n rs) = List.filter (λ e, after <? entry_lsn e) (entries_from n (hist_of rs)).
Proof.
  revert n. induction rs as [|r rs IH]; intros n; [done|]. unfold hist_of in *. cbn.
  rewrite entries_from_app, List.filter_app, zlen_items, <- IH. unfold wal_entries. cbn. f_equal.
  destruct r; try done. cbn. by rewrite entries_wal, filter_map_entry.
Qed.

(** The page chains of the backend are the versions of its history. *)
Definition version_of (r : PageRecord) : Z * bytes := (rec_lsn r, page_image (rec_image r)).

Lemma versions_wal n rs : Versions.versions_from n (wal_items rs) = [].
Proof. revert n. induction rs as [|r rs IH]; intros n; [done|]. cbn. apply IH. Qed.

Lemma versions_hist id n rs :
  versions id (frames_of n rs) =
  version_of <$> List.filter (λ r, rec_page_id r =? id) (Versions.versions_from n (hist_of rs)).
Proof.
  revert n. induction rs as [|r rs IH]; intros n; [done|]. unfold hist_of in *. cbn [frames_of fmap list_fmap concat].
  rewrite Versions.versions_from_app, List.filter_app, fmap_app, zlen_items, <- IH.
  unfold versions at 1. destruct r as [recs|i img| | | |]; cbn; try done.
  - by rewrite versions_wal.
  - by destruct (i =? id).
Qed.

Lemma hist_read_last rs id q :
  hist_read (hist_of rs) id q =
  match last (List.filter (λ v, v.1 <=? q) (versions id (frames_of 1 rs))) with
  | Some (vlsn, image) => Ok (mkPage id vlsn image)
  | None => Err NotFound
  end.
Proof.
  unfold hist_read. rewrite (Versions.greatest_unique (hist_of rs) (.∈ Versions.versions (hist_of rs)) id q
    _ _ (λ _ H, H) (Versions.best_in_greatest _ _ _) (last_sorted_greatest _ _ _)).
  rewrite versions_hist. fold (Versions.versions (hist_of rs)).
  assert (∀ l : list PageRecord, List.filter (λ v, v.1 <=? q) (version_of <$> l) =
    version_of <$> List.filter (λ r, rec_lsn r <=? q) l) as ->.
  { induction l as [|r l IH]; [done|]. cbn. destruct (rec_lsn r <=? q); cbn; by rewrite <- IH. }
  rewrite filter_filter, fmap_last. by destruct (last _).
Qed.

(** ** The laws *)

Definition local_holds (s : LocalEnv) (h : list LogItem) : Prop :=
  ∃ n rs, Coherent n rs (le_inner s) ∧ n < 2 ^ 64 - 1 ∧ h = hist_of rs.

(** What the file's 32-bit lengths and 64-bit page ids can hold. *)
Definition payload_size (new : list LogItem) : Z :=
  foldr (λ i n, match i with Wal b => 4 + zlen b + n | PageItem _ _ => n end) 5 new.
Definition local_admits (new : list LogItem) : Prop :=
  payload_size new < 2 ^ 32 ∧ Forall (λ i, match i with Wal _ => True | PageItem id _ => is_u64 id end) new.

Lemma payload_size_wal rs : payload_size (wal_items rs) = zlen (wal_payload rs) + 1.
Proof.
  unfold wal_payload. rewrite zlen_app. autorewrite with zlen.
  enough (payload_size (wal_items rs) = 5 + zlen (concat (map enc_record rs))) as ->.
  { unfold enc_record. lia. }
  induction rs as [|[b] rs IH]; [done|].
  change (payload_size (wal_items (mkWal b :: rs))) with (4 + zlen b + payload_size (wal_items rs)).
  rewrite IH. cbn [map concat]. rewrite zlen_app, zlen_enc_record. cbn [wal_bytes]. lia.
Qed.

Lemma coherent_lower n rs g : Coherent (n + 1) rs g → epoch g ≤ n → next_branch_id g ≤ n + 1 → Coherent n rs g.
Proof. intros [] ??. split; done || lia. Qed.

Lemma coherent_forget n rs g g' : forget g' = forget g → Coherent n rs g → Coherent n rs g'.
Proof.
  intros HF. assert (∀ A (f : Inner → A), (∀ g, f g = f (forget g)) → f g' = f g) as Hsame.
  { intros A f Hf. by rewrite (Hf g'), HF, <- Hf. }
  intros []. split; rewrite ?HF, ?(Hsame _ file), ?(Hsame _ durable_lsn), ?(Hsame _ next_lsn),
    ?(Hsame _ commit_lsn), ?(Hsame _ epoch), ?(Hsame _ retention_floor), ?(Hsame _ next_branch_id) by done; done.
Qed.

(** A write of the log that succeeds appends its record's items and changes neither epoch, branch
    ids nor floor. *)
Lemma write_logged n rs op g r :
  Coherent n rs g → n < 2 ^ 64 - 1 → op_wf op → op_rec op g = Some r →
  (match r with RWal _ | RPage _ _ => True | _ => False end) →
  Coherent n (rs ++ [r]) (run_op IoOk op g).1 ∧ retention_floor (run_op IoOk op g).1 = retention_floor g.
Proof.
  intros C Hn Hop E Hr. pose proof (run_op_coherent _ _ _ _ C Hn Hop) as C2. rewrite E in C2. cbn in C2.
  pose proof (run_op_logs _ _ _ _ _ C E) as HL. set (g' := (run_op IoOk op g).1) in *.
  pose proof (co_epoch _ _ _ C). pose proof (co_branch _ _ _ C).
  assert (epoch g' = epoch g ∧ next_branch_id g' = next_branch_id g ∧ retention_floor g' = retention_floor g)
    as (He & Hb & Hf).
  { change (epoch g') with (epoch (forget g')). change (next_branch_id g') with (next_branch_id (forget g')).
    change (retention_floor g') with (retention_floor (forget g')). rewrite HL. by destruct r. }
  split; [|done]. apply coherent_lower; [done|lia|lia].
Qed.

Lemma commit_covers rs f :
  Forall (λ e, entry_lsn e ≤ commit_lsn (state_of f rs)) (entries_from 1 (hist_of rs)).
Proof.
  induction rs as [|r rs IH] using rev_ind; [constructor|].
  rewrite (state_of_snoc f), hist_of_snoc, entries_from_app. apply Forall_app. split.
  - eapply Forall_impl; [exact IH|]. intros e He. destruct r; cbn -[state_of] in *; lia.
  - destruct r; cbn -[state_of]; try constructor. rewrite zlen_hist.
    eapply Forall_impl; [apply entries_from_range|]. intros e He. cbn -[state_of] in He.
    change (next_lsn (state_of f rs)) with (1 + costs rs).
    assert (zlen (wal_items records) = zlen records) as Hz by (unfold wal_items, zlen; by rewrite length_fmap).
    rewrite Hz in He. cbn -[state_of]. lia.
Qed.

(** The result of an append or a page write that the caller sees as done. *)
Lemma append_wal_done io t rs g g' l :
  append_wal io t rs g = (g', Ok l) →
  io = IoOk ∧ op_rec (OAppendWal t rs) g = Some (RWal rs) ∧ (run_op IoOk (OAppendWal t rs) g).1 = g' ∧
  l = next_lsn g + zlen rs - 1.
Proof.
  unfold op_rec. unfold_ops. case_op; try done. unfold append_frame.
  destruct io; cbn; intros [= <- <-]. done.
Qed.

Lemma put_page_done io t id img g g' l :
  put_page io t id img g = (g', Ok l) →
  io = IoOk ∧ op_rec (OPutPage t id img) g = Some (RPage id img) ∧
  (run_op IoOk (OPutPage t id img) g).1 = g' ∧ l = next_lsn g.
Proof.
  unfold op_rec. unfold_ops. case_op; try done. unfold append_frame.
  destruct io; cbn; intros [= <- <-]. done.
Qed.

#[global] Program Instance LocalEnv_laws : StorageLaws LocalEnv := {|
  holds := local_holds;
  readable s q := retention_floor (le_inner s) ≤ q;
  admits _ new := local_admits new
|}.
Next Obligation.
  intros s h id q s' r (n & rs & C & Hn & ->). cbn. unfold locked.
  destruct (get_page id q (le_inner s)) as [g' r'] eqn:E. intros [= <- <-].
  assert (forget g' = forget (le_inner s)) as HF.
  { pose proof (run_op_none IoOk (OGetPage id q) (le_inner s) eq_refl) as H. cbn in H.
    unfold comp_void, comp_bind in H. rewrite E in H. by destruct r'. }
  assert (retention_floor g' = retention_floor (le_inner s)) as Hfl.
  { change (retention_floor g') with (retention_floor (forget g')). by rewrite HF. }
  split_and!.
  - exists n, rs. split_and!; [|done..]. by eapply coherent_forget.
  - cbn. intros q'. by rewrite Hfl.
  - intros Hq. left. rewrite hist_read_last. revert E. unfold get_page.
    destruct (Z.ltb_spec q (retention_floor (le_inner s))) as [Hlt|_]; [lia|].
    change (pages (le_inner s)) with (pages (forget (le_inner s))). rewrite (co_state _ _ _ C).
    change (pages (state_of (file (le_inner s)) rs))
      with (pages (fold_left apply_frame (frames_of 1 rs) (inner_new []))).
    destruct (pages_versions (frames_of 1 rs) id) as [H1 H2].
    destruct (pages (fold_left apply_frame (frames_of 1 rs) (inner_new [])) !! id) as [chain|].
    + cbn in H1. rewrite <- H1. unfold find_version. rewrite find_rev.
      by destruct (last _) as [[??]|]; intros [= _ <-].
    + rewrite (proj1 H2 eq_refl). by intros [= _ <-].
Qed.
Next Obligation.
  intros s h t rs s' l (n & recs & C & Hn & ->) [Ha _]. cbn. unfold writing.
  destruct (append_wal (next_io s) t rs (le_inner s)) as [g' r'] eqn:E. intros [= <- ->].
  apply append_wal_done in E as (Hio & Hop & Hg & ->). rewrite payload_size_wal in Ha.
  destruct (write_logged _ _ (OAppendWal t rs) _ _ C Hn Ha Hop I) as [C' Hf]. rewrite Hg in C', Hf.
  split_and!; [|rewrite (coherent_next _ _ _ C), zlen_hist; lia|cbn; lia].
  exists n, (recs ++ [RWal rs]). by rewrite hist_of_snoc.
Qed.
Next Obligation.
  intros s h t id img s' l (n & recs & C & Hn & ->) [_ Ha]. cbn. unfold writing.
  destruct (put_page (next_io s) t id img (le_inner s)) as [g' r'] eqn:E. intros [= <- ->].
  apply put_page_done in E as (Hio & Hop & Hg & ->). apply Forall_inv in Ha.
  destruct (write_logged _ _ (OPutPage t id img) _ _ C Hn Ha Hop I) as [C' Hf]. rewrite Hg in C', Hf.
  split_and!; [|rewrite (coherent_next _ _ _ C), zlen_hist; lia|cbn; lia].
  exists n, (recs ++ [RPage id img]). by rewrite hist_of_snoc.
Qed.
Next Obligation.
  intros s h after s' r (n & rs & C & Hn & ->). cbn. intros [= <- <-].
  split_and!; [by exists n, rs|done|]. left.
  rewrite (scan_wal_coherent _ _ _ after C), wal_entries_hist. done.
Qed.
Next Obligation.
  intros s h s' l (n & rs & C & Hn & ->). cbn. intros [= <- <-].
  split_and!; [by exists n, rs|done|].
  rewrite (co_durable _ _ _ C), (coherent_next _ _ _ C), zlen_hist. lia.
Qed.
Next Obligation.
  intros s h s' l (n & rs & C & Hn & ->). cbn. intros [= <- <-].
  pose proof (co_commit _ _ _ C). pose proof (co_durable _ _ _ C). pose proof (coherent_next _ _ _ C).
  split_and!; [by exists n, rs|done| |lia|rewrite zlen_hist; lia].
  change (commit_lsn (le_inner s)) with (commit_lsn (forget (le_inner s))). rewrite (co_state _ _ _ C).
  apply commit_covers.
Qed.

(** A fresh database holds the empty history. *)
Definition local_fresh (p : string) (io : list Io) : LocalEnv :=
  mkLocalEnv (mkLocal p (inner_new header_bytes) ∅) io 0.

Lemma local_fresh_holds p io : local_holds (local_fresh p io) [].
Proof. exists 0, []. split_and!; [apply coherent_fresh|lia|done]. Qed.

(** * The disaggregated backend behind the seam

    [ObjectStorage] over any lawful object client as an instance of [Storage], with the laws of the
    seam for it; [dyn Storage], one backend or the other, has them too. *)

Import Codec Obj Versions ObjInv ObjCalls ObjLive ObjWrite ObjFence.

#[local] Open Scope comp_scope.

(** A handle and its clocks. *)
Record ObjectEnv (St : Type) := mkObjectEnv {
  oe_store : ObjectStorage St;
  oe_now_ms : Z;
  oe_now : Instant
}.
Arguments mkObjectEnv {St} _ _ _.
Arguments oe_store {St} _.
Arguments oe_now_ms {St} _.
Arguments oe_now {St} _.

Section Instances.
Context {St : Type} `{ObjectStore St}.

Definition on_handle {A} (m : Comp (ObjectStorage St) StorageError A) : Comp (ObjectEnv St) StorageError A := λ s,
  let '(o, r) := m (oe_store s) in (mkObjectEnv o (oe_now_ms s) (oe_now s), r).

#[global] Instance ObjectEnv_Storage : Storage (ObjectEnv St) := {|
  st_get_page id lsn := on_handle (get_page id lsn);
  st_append_wal t rs := on_handle (append_wal t rs);
  st_put_page t id img := on_handle (put_page t id img);
  st_scan_wal after := on_handle (scan_wal after);
  st_flush := on_handle flush;
  st_durable_lsn := on_handle (ask (λ s, durable_lsn (inner s)));
  st_get_commit_lsn := on_handle (ask (λ s, commit_lsn (inner s)));
  st_acquire_fence w := λ s, on_handle (acquire_fence (oe_now_ms s) (oe_now s) w) s;
  st_renew_fence t := λ s, on_handle (renew_fence (oe_now_ms s) (oe_now s) t) s;
  st_release_fence t := on_handle (release_fence t);
  st_create_branch _ base := on_handle (create_branch base);
  st_resolve_branch b := on_handle (resolve_branch b);
  st_list_branches := on_handle list_branches;
  st_delete_branch b := on_handle (delete_branch b);
  st_set_retention_floor l := on_handle (set_retention_floor l);
  st_pitr_floor := on_handle (ask (λ s, retention_floor (inner s)))
|}.
End Instances.

(** ** The laws *)

Section Laws.
Context {St : Type} `{Laws : ObjectStoreLaws St}.
Abbreviation E := (ObjectEnv St).

Definition object_holds (s : E) (h : list LogItem) : Prop := ∃ segs, Live (oe_store s) segs ∧ h = concat segs.
Definition object_admits (s : E) (new : list LogItem) : Prop :=
  ∀ segs, Live (oe_store s) segs → segs_ok (segs ++ [new]).

Lemma wal_from_entries n h : wal_from n h = entries_from n h.
Proof. revert n. induction h as [|[b|id img] h IH]; intros n; cbn; [done|by rewrite IH|apply IH]. Qed.

Lemma spec_scan_entries segs after : spec_scan segs after = entries_after after (concat segs).
Proof.
  unfold spec_scan, entries_after. rewrite wal_from_entries.
  induction (entries_from 1 (concat segs)) as [|e l IH]; [done|]. rewrite filter_cons. cbn.
  destruct (Z.ltb_spec after (entry_lsn e)) as [H1|H1].
  - rewrite decide_True by done. by f_equal.
  - rewrite decide_False by lia. done.
Qed.

(** The commit mark covers every log record. *)
Lemma commit_of_covers segs :
  Forall (λ e, entry_lsn e ≤ commit_of segs) (entries_from 1 (concat segs)) ∧ 0 ≤ commit_of segs ≤ zlen (concat segs).
Proof.
  induction segs as [|seg segs [IH1 IH2]] using rev_ind; [split; [constructor|done]|].
  rewrite commit_of_snoc, concat_snoc, zlen_app, entries_from_app. pose proof (zlen_nonneg seg).
  destruct (existsb is_wal seg) eqn:Ew.
  - split; [|pose proof (zlen_nonneg (concat segs)); lia]. apply Forall_app. split.
    + eapply Forall_impl; [exact IH1|]. cbn. lia.
    + eapply Forall_impl; [apply entries_from_range|]. cbn. lia.
  - split; [|lia]. apply Forall_app. split; [done|].
    assert (∀ n, entries_from n seg = []) as ->; [|constructor]. intros n. revert n Ew. clear.
    induction seg as [|[b|id img] seg IH]; intros n; cbn; [done|done|auto].
Qed.

(** An append that the caller sees as done leaves the retention floor alone. *)
Lemma append_segment_done token seg (s s' : ObjectStorage St) segs l :
  Live s segs → segs_ok (segs ++ [seg]) → append_segment token seg s = (s', Ok l) →
  Live s' (segs ++ [seg]) ∧ l = zlen (concat segs) + zlen seg ∧
  retention_floor (inner s') = retention_floor (inner s).
Proof.
  intros HL Hok Ha. destruct (append_segment_spec _ _ _ _ _ _ HL Hok Ha) as [[_ [-> HL']]|[[[=] _]|[[=] _]]].
  split_and!; [done|done|]. revert Ha. unfold append_segment.
  intros [(s1 & [] & Hc & H2)|(e & Hc & [=])]%comp_bind_inv.
  apply check_fence_spec in Hc as (Hq & Hca & Hr). pose proof (Live_quiet' _ _ _ Hq Hca HL) as HL1.
  apply (append_locked_spec _ _ _ _ segs) in H2 as (_ & _ & Hsame); [|done..].
  by rewrite (sr_floor _ _ Hsame), (q_inner _ _ Hq).
Qed.

#[global] Program Instance ObjectEnv_laws : StorageLaws E := {|
  holds := object_holds;
  readable s q := retention_floor (inner (oe_store s)) ≤ q;
  admits := object_admits
|}.
Next Obligation.
  intros s h id q s' r (segs & HL & ->). cbn. unfold on_handle.
  destruct (get_page id q (oe_store s)) as [o r'] eqn:E. intros [= <- <-].
  apply (get_page_spec _ _ _ _ _ _ HL) in E as (Hq & HL' & Hr). cbn. rewrite (q_inner _ _ Hq).
  split_and!; [by exists segs|done|]. intros Hf. destruct Hr as [->|[-> _]]; [left|right; eauto].
  unfold spec_read. destruct (Z.ltb_spec q (retention_floor (inner (oe_store s)))); [lia|done].
Qed.
Next Obligation.
  intros s h t rs s' l (segs & HL & ->) Ha. cbn. unfold on_handle, append_wal. case_bool_decide as Hrs; [done|].
  destruct (append_segment t _ (oe_store s)) as [o r'] eqn:E. intros [= <- ->].
  apply (append_segment_done _ _ _ _ _ _ HL) in E as (HL' & -> & Hf); [|by apply Ha]. cbn. rewrite Hf.
  split_and!; [|unfold zlen; by rewrite length_map|done]. eexists. split; [done|]. by rewrite concat_snoc.
Qed.
Next Obligation.
  intros s h t id img s' l (segs & HL & ->) Ha. cbn. unfold on_handle, put_page. destruct (_ <? _); [done|].
  destruct (append_segment t _ (oe_store s)) as [o r'] eqn:E. intros [= <- ->].
  apply (append_segment_done _ _ _ _ _ _ HL) in E as (HL' & -> & Hf); [|by apply Ha]. cbn. rewrite Hf.
  split_and!; [|done..]. eexists. split; [done|]. by rewrite concat_snoc.
Qed.
Next Obligation.
  intros s h after s' r (segs & HL & ->). cbn. unfold on_handle.
  destruct (scan_wal after (oe_store s)) as [o r'] eqn:E. intros [= <- <-].
  apply (scan_wal_spec after _ _ segs) in E as (Hq & Hc & Hr); [|apply HL]. cbn. rewrite (q_inner _ _ Hq).
  split_and!; [exists segs; split; [by eapply Live_quiet'|done]|done|].
  destruct Hr as [->|[-> _]]; [left|right; eauto]. by rewrite spec_scan_entries.
Qed.
Next Obligation.
  intros s h s' l (segs & HL & ->). cbn. unfold on_handle, ask. intros [= <- <-]. cbn.
  split_and!; [by exists segs|done|apply HL].
Qed.
Next Obligation.
  intros s h s' l (segs & HL & ->). cbn. unfold on_handle, ask. intros [= <- <-]. cbn.
  rewrite (ct_commit _ _ (lv_counters _ _ HL)). destruct (commit_of_covers segs).
  split_and!; [by exists segs|done|done|lia|lia].
Qed.

End Laws.

(** ** [dyn Storage] *)

Section Any.
Context {L O : Type} `{!Storage L, !Storage O, !StorageLaws L, !StorageLaws O}.

Lemma on_any_cases {A} (ml : Comp L StorageError A) (mo : Comp O StorageError A) s s' r :
  on_any ml mo s = (s', r) →
  (∃ l l', s = ALocal l ∧ s' = ALocal l' ∧ ml l = (l', r)) ∨ (∃ o o', s = AObject o ∧ s' = AObject o' ∧ mo o = (o', r)).
Proof.
  intros H. destruct s as [l|o]; cbn in H; [left|right].
  - destruct (ml l) as [l' r'] eqn:E. injection H as <- <-. eauto.
  - destruct (mo o) as [o' r'] eqn:E. injection H as <- <-. eauto.
Qed.

#[global] Program Instance AnyStorage_laws : StorageLaws (AnyStorage L O) := {|
  holds s h := match s with ALocal l => holds l h | AObject o => holds o h end;
  readable s q := match s with ALocal l => readable l q | AObject o => readable o q end;
  admits s new := match s with ALocal l => admits l new | AObject o => admits o new end
|}.
Next Obligation.
  intros s h id q s' r Hh Hr.
  apply on_any_cases in Hr as [(l & l' & -> & -> & E)|(o & o' & -> & -> & E)]; by eapply law_get_page.
Qed.
Next Obligation.
  intros s h t rs s' l Hh Ha Hr.
  apply on_any_cases in Hr as [(x & x' & -> & -> & E)|(x & x' & -> & -> & E)]; by eapply law_append_wal.
Qed.
Next Obligation.
  intros s h t id img s' l Hh Ha Hr.
  apply on_any_cases in Hr as [(x & x' & -> & -> & E)|(x & x' & -> & -> & E)]; by eapply law_put_page.
Qed.
Next Obligation.
  intros s h a s' r Hh Hr.
  apply on_any_cases in Hr as [(x & x' & -> & -> & E)|(x & x' & -> & -> & E)]; by eapply law_scan_wal.
Qed.
Next Obligation.
  intros s h s' l Hh Hr.
  apply on_any_cases in Hr as [(x & x' & -> & -> & E)|(x & x' & -> & -> & E)]; by eapply law_durable_lsn.
Qed.
Next Obligation.
  intros s h s' l Hh Hr.
  apply on_any_cases in Hr as [(x & x' & -> & -> & E)|(x & x' & -> & -> & E)]; by eapply law_get_commit_lsn.
Qed.

End Any.

(** * What a branch promises, and what it does not

    Reads of a branch, its isolation from the parent, runs of the engine on the embedded backend
    and on a branch of it, and two places where a branch shows what its floor or its fork point
    should hide. *)

Import Codec Seam SeamBranch.

Section Properties.
Context {P O : Type} `{!Storage P, !Storage O, !StorageLaws P, !StorageLaws O}.

(** C13. Copy on write: a read of a branch at or below the fork point is the parent's read at that
    LSN; above it, it is the overlay's own version with its LSN moved past the fork point, and
    where the overlay has none, what the parent had at the fork point. *)
Theorem branch_reads (p : P) (o : O) base i pi hp ho id q s' r :
  holds p hp → holds o ho → 0 ≤ base ≤ zlen hp → readable p base →
  readable p (Z.min q base) → (base < q → readable o (q - base)) →
  get_page id q (mkBranchStorage p o base i pi) = (s', r) →
  reads_as r
    (if q <=? base then hist_read hp id q
     else match hist_read ho id (q - base) with
          | Ok pg => Ok (mkPage id (base + page_lsn pg) (page_bytes pg))
          | Err _ => hist_read hp id base
          end).
Proof.
  intros Hp Ho Hb Hrb Hrq Hro Hg.
  assert (branch_holds (mkBranchStorage p o base i pi) (branch_hist base hp ho)) as Hh by by exists hp, ho.
  destruct (branch_get_page _ _ _ _ _ _ Hh Hg) as (_ & _ & Hr).
  destruct Hr as [->|Hr]; [|left|by right].
  - unfold branch_readable. cbn. destruct (Z.leb_spec q base); [|by auto]. by rewrite Z.min_l in Hrq.
  - unfold branch_hist. destruct (Z.leb_spec q base).
    + rewrite hist_read_old, hist_read_fork; [done..|]. by rewrite zlen_fork.
    + rewrite hist_read_new; rewrite zlen_fork by done; [|done].
      by rewrite (hist_read_fork base hp id base).
Qed.

(** The parent's own work after the fork. *)
Inductive parent_step (p p' : P) : Prop :=
| par_append t rs l : admits p (wal_items rs) → st_append_wal t rs p = (p', Ok l) → parent_step p p'
| par_put t id img l : admits p [PageItem id img] → st_put_page t id img p = (p', Ok l) → parent_step p p'
| par_get id q r : st_get_page id q p = (p', r) → parent_step p p'
| par_scan after r : st_scan_wal after p = (p', r) → parent_step p p'.

(** The parent's log only grows, and what was readable stays so. *)
Lemma parent_grows p p' hp :
  rtc parent_step p p' → holds p hp →
  ∃ new, holds p' (hp ++ new) ∧ ∀ q, readable p q → readable p' q.
Proof.
  intros Hr. revert hp. induction Hr as [p|p p1 p2 Hst _ IH]; intros hp Hp; [exists []; by rewrite app_nil_r|].
  assert (∃ new, holds p1 (hp ++ new) ∧ ∀ q, readable p q → readable p1 q) as (new & H1 & Hq).
  { destruct Hst as [t rs l Ha Hw|t id img l Ha Hw|id q r Hg|after r Hg].
    - destruct (law_append_wal _ _ _ _ _ _ Hp Ha Hw) as (? & _ & ?). by eexists.
    - destruct (law_put_page _ _ _ _ _ _ _ Hp Ha Hw) as (? & _ & ?). by eexists.
    - destruct (law_get_page _ _ _ _ _ _ Hp Hg) as (? & ? & _). exists []. by rewrite app_nil_r.
    - destruct (law_scan_wal _ _ _ _ _ Hp Hg) as (? & ? & _). exists []. by rewrite app_nil_r. }
  destruct (IH _ H1) as (new' & H2 & Hq'). exists (new ++ new'). rewrite app_assoc. auto.
Qed.


End Properties.

(** ** A branch of an embedded database *)

Definition demo_tok : FenceToken := mkToken 1 7 10000.
Definition run1 {A} (m : Comp LocalEnv StorageError A) (s : LocalEnv) : LocalEnv := (m s).1.

(** A database with its writer's fence. *)
Definition fenced (p : string) : LocalEnv := run1 (st_acquire_fence 7) (local_fresh p []).

(** Parent: a page at LSN 1, then at LSN 2; the branch forks at 1 and writes its own version. *)
Definition demo_parent : LocalEnv :=
  run1 (st_put_page demo_tok 3 (list_byte_of_string "b"))
    (run1 (st_put_page demo_tok 3 (list_byte_of_string "a")) (fenced "db")).
Definition demo_overlay : LocalEnv :=
  run1 (st_put_page demo_tok 3 (list_byte_of_string "c")) (fenced "db.branch-1").
Definition demo_branch : BranchStorage LocalEnv LocalEnv := mkBranchStorage demo_parent demo_overlay 1 1 0.

Definition demo_parent_hist : list LogItem :=
  [PageItem 3 (list_byte_of_string "a"); PageItem 3 (list_byte_of_string "b")].
Definition demo_overlay_hist : list LogItem := [PageItem 3 (list_byte_of_string "c")].

Lemma fenced_holds p : holds (fenced p) [].
Proof.
  exists 1, [LocalLog.RFence 1]. split_and!; [|done|done].
  apply (LocalInv.run_op_coherent 0 [] (Local.OAcquireFence 0 7) (Local.inner_new Local.header_bytes));
    [apply LocalInv.coherent_fresh|done|done].
Qed.

(** A page written by a run that succeeds. *)
Lemma demo_put s h id img l :
  holds s h → is_u64 id → (st_put_page demo_tok id img s).2 = Ok l →
  holds (run1 (st_put_page demo_tok id img) s) (h ++ [PageItem id img]).
Proof.
  intros Hh Hid Hr. unfold run1. destruct (st_put_page demo_tok id img s) as [s' r] eqn:E. cbn in Hr. subst r.
  apply (law_put_page _ _ _ _ _ _ _ Hh) in E as (? & _); [done|].
  split; [done|]. by constructor.
Qed.

Lemma demo_parent_holds : holds demo_parent demo_parent_hist.
Proof.
  apply (demo_put _ [PageItem 3 (list_byte_of_string "a")] _ _ 2); [|done|by vm_compute].
  apply (demo_put _ [] _ _ 1); [apply fenced_holds|done|by vm_compute].
Qed.

Lemma demo_overlay_holds : holds demo_overlay demo_overlay_hist.
Proof. apply (demo_put _ [] _ _ 1); [apply fenced_holds|done|by vm_compute]. Qed.

Lemma branch_reads_witness :
  reads_as (get_page 3 2 demo_branch).2 (Ok (Page_from_slice 3 2 (list_byte_of_string "c"))).
Proof.
  refine (branch_reads demo_parent demo_overlay 1 1 0 demo_parent_hist demo_overlay_hist 3 2
    (get_page 3 2 demo_branch).1 (get_page 3 2 demo_branch).2
    demo_parent_holds demo_overlay_holds _ _ _ _ _); vm_compute; done.
Defined.

(** The parent goes on; the branch still reads what was there at the fork. *)
Definition later_parent : LocalEnv := run1 (st_put_page demo_tok 3 (list_byte_of_string "d")) demo_parent.


(** ** Where the floor and the fork point leak *)

Definition page_text (n : nat) (r : Result StorageError Page) : Result StorageError string :=
  match r with Ok p => Ok (string_of_list_byte (take n (page_bytes p))) | Err e => Err e end.

(** The overlay's history below LSN 2 is retired; the branch reads at LSN 2, its own first version. *)
Definition floored_branch : BranchStorage LocalEnv LocalEnv :=
  mkBranchStorage demo_parent
    (run1 (st_set_retention_floor 2)
       (run1 (st_put_page demo_tok 3 (list_byte_of_string "e")) demo_overlay)) 1 1 0.

(** A read below the branch's retention floor should be refused; the branch takes the overlay's
    refusal for an absent page and answers with the parent's image of the fork point. *)
Theorem branch_floor_falls_through :
  (st_pitr_floor floored_branch).2 = Ok 3 ∧ page_text 1 (get_page 3 2 floored_branch).2 = Ok "a"%string.
Proof. split; vm_compute; reflexivity. Qed.

(** A fork point past the end of the log is accepted, and later writes of the parent show through. *)
Definition early_parent : LocalEnv :=
  run1 (st_create_branch "b" 5) (run1 (st_put_page demo_tok 3 (list_byte_of_string "a")) (fenced "db")).
Definition early_branch (p : LocalEnv) : BranchStorage LocalEnv LocalEnv :=
  mkBranchStorage p (fenced "db.branch-1") 5 1 0.

Theorem branch_past_end_leaks :
  (st_create_branch "b" 5 (run1 (st_put_page demo_tok 3 (list_byte_of_string "a")) (fenced "db"))).2 = Ok 1 ∧
  page_text 1 (get_page 3 6 (early_branch early_parent)).2 = Ok "a"%string ∧
  page_text 1 (get_page 3 6 (early_branch
    (run1 (st_put_page demo_tok 3 (list_byte_of_string "b")) early_parent))).2 = Ok "b"%string.
Proof. split_and!; vm_compute; reflexivity. Qed.
