(* ===== verification/Numbers.v ===== *)
(** * Integers and more string methods of the language

    Wrapping [i64] arithmetic, as a release build computes it, with the division of Rust; the decimal
    forms ([{:04}], [parse::<i64>]); [trim], [split] and the other [str] methods the functions of the
    expression language use.  Strings are their UTF-8 bytes. *)

From S2P Require Import Prelude Text.

#[local] Arguments String.append : simpl nomatch.

(** ** [i64] *)

Definition wrap64 (z : Z) : Z := u64_as_i64 (z mod 2 ^ 64).

Declare Scope i64_scope.
Delimit Scope i64_scope with i64.
Notation "a +! b" := (wrap64 (a + b)) (at level 50, left associativity) : i64_scope.
Notation "a -! b" := (wrap64 (a - b)) (at level 50, left associativity) : i64_scope.
Notation "a *! b" := (wrap64 (a * b)) (at level 40, left associativity) : i64_scope.

(** [/] and [%] round towards zero, [div_euclid] and [rem_euclid] by a positive divisor down. *)
Notation "a /! b" := (Z.quot a b) (at level 40, left associativity) : i64_scope.
Notation "a %! b" := (Z.rem a b) (at level 40, left associativity) : i64_scope.
Definition div_euclid (a b : Z) : Z := a / b.
Definition rem_euclid (a b : Z) : Z := a mod b.

Lemma wrap64_id z : is_i64 z → wrap64 z = z.
Proof. intros H. apply i64_roundtrip, H. Qed.

Lemma wrap64_range z : is_i64 (wrap64 z).
Proof.
  unfold wrap64, u64_as_i64, is_i64. pose proof (Z.mod_pos_bound z (2 ^ 64)).
  destruct (Z.ltb_spec (z mod 2 ^ 64) (2 ^ 63)); lia.
Qed.

(** Removes the wrapping of values that are in range. *)
Ltac unwrap :=
  repeat match goal with
  | |- context [wrap64 ?z] =>
      rewrite (wrap64_id z) by (unfold is_i64; (lia || nia))
  end.

(** ** Decimal forms *)

Fixpoint dec_len_go (fuel : nat) (n : Z) : nat :=
  match fuel with
  | O => 1
  | S fuel => if n <? 10 then 1%nat else S (dec_len_go fuel (n / 10))
  end.
(** The number of decimal digits of a 64-bit magnitude. *)
Definition dec_len (n : Z) : nat := dec_len_go 20 n.

(** [format!("{n:0w}")]: zeros up to the width, the sign counted. *)
Definition fmt_pad (w : nat) (n : Z) : string :=
  if n <? 0 then String "-"%char (dec_digits (Nat.max (w - 1) (dec_len (- n))) (- n))
  else dec_digits (Nat.max w (dec_len n)) n.

(** [n.to_string()]. *)
Definition fmt_i64 (n : Z) : string := fmt_pad 1 n.

(** [s.parse::<i64>().ok()]: an optional sign, then digits, in range. *)
Definition parse_i64 (s : string) : option Z :=
  let '(neg, body) :=
    match s with
    | String a r => if Ascii.eqb a "-"%char then (true, r) else if Ascii.eqb a "+"%char then (false, r) else (false, s)
    | EmptyString => (false, s)
    end in
  if String.eqb body "" then None
  else
    match parse_digits body 0 with
    | None => None
    | Some n =>
        if (neg : bool) then if 2 ^ 63 <? n then None else Some (- n)
        else if 2 ^ 63 - 1 <? n then None else Some n
    end.

Lemma dec_len_go_bound fuel n : 0 ≤ n < 10 ^ Z.of_nat (S fuel) → n < 10 ^ Z.of_nat (dec_len_go fuel n).
Proof.
  revert n. induction fuel as [|fuel IH]; intros n Hn; cbn [dec_len_go]; [exact (proj2 Hn)|].
  destruct (Z.ltb_spec n 10) as [|Hge]; [done|].
  rewrite (Nat2Z.inj_succ (S fuel)), Z.pow_succ_r in Hn by lia.
  rewrite Nat2Z.inj_succ, Z.pow_succ_r by lia.
  assert (0 ≤ n / 10 < 10 ^ Z.of_nat (S fuel)) as Hq.
  { split; [apply Z.div_pos; lia|]. apply Z.div_lt_upper_bound; lia. }
  apply IH in Hq. pose proof (Z.div_mod n 10 ltac:(lia)) as E. pose proof (Z.mod_pos_bound n 10 ltac:(lia)). lia.
Qed.

Lemma dec_len_bound n : 0 ≤ n < 2 ^ 64 → n < 10 ^ Z.of_nat (dec_len n).
Proof. intros H. apply dec_len_go_bound. lia. Qed.

Lemma dec_len_pos n : (1 ≤ dec_len n)%nat.
Proof. unfold dec_len. cbn [dec_len_go]. destruct (n <? 10); lia. Qed.

(** Digits parse back whatever the padding. *)
Lemma parse_dec_digits k n :
  0 ≤ n < 2 ^ 63 → n < 10 ^ Z.of_nat k → (1 ≤ k)%nat → parse_i64 (dec_digits k n) = Some n.
Proof.
  intros Hn Hk H1. unfold parse_i64.
  pose proof (parse_digits_dec k n 0 (proj1 Hn) ltac:(lia)) as Hp. rewrite Z.mod_small in Hp by lia.
  unfold u64_max in Hp. specialize (Hp ltac:(lia)). rewrite Z.mul_0_l, Z.add_0_l in Hp.
  pose proof (dec_digits_no_char "-"%char k n eq_refl) as Hm. pose proof (dec_digits_no_char "+"%char k n eq_refl) as Hq.
  destruct k as [|k]; [lia|]. destruct (dec_digits (S k) n) as [|a r] eqn:E; [discriminate E|].
  cbn in Hm, Hq. apply orb_false_iff in Hm as [-> _]. apply orb_false_iff in Hq as [-> _].
  cbn [String.eqb]. rewrite Hp. destruct (Z.ltb_spec (2 ^ 63 - 1) n); [lia|done].
Qed.

Lemma parse_fmt_pad w n : 0 ≤ n < 2 ^ 63 → parse_i64 (fmt_pad w n) = Some n.
Proof.
  intros Hn. unfold fmt_pad. destruct (Z.ltb_spec n 0); [lia|]. pose proof (dec_len_pos n).
  pose proof (dec_len_bound n ltac:(lia)). apply parse_dec_digits; [done| |lia].
  eapply Z.lt_le_trans; [done|]. apply Z.pow_le_mono_r; lia.
Qed.

Lemma fmt_pad_no_char c w n : 0 ≤ n → digit_val c = None → has_char c (fmt_pad w n) = false.
Proof. intros Hn Hc. unfold fmt_pad. destruct (Z.ltb_spec n 0); [lia|]. by apply dec_digits_no_char. Qed.

(** ** [str] methods *)

(** [char::is_whitespace], as UTF-8. *)
Definition whitespace : list string :=
  (λ l, string_of_list_byte (byte.of_Z <$> l)) <$>
  [[9]; [10]; [11]; [12]; [13]; [32]; [0xC2; 0x85]; [0xC2; 0xA0]; [0xE1; 0x9A; 0x80];
   [0xE2; 0x80; 0x80]; [0xE2; 0x80; 0x81]; [0xE2; 0x80; 0x82]; [0xE2; 0x80; 0x83]; [0xE2; 0x80; 0x84];
   [0xE2; 0x80; 0x85]; [0xE2; 0x80; 0x86]; [0xE2; 0x80; 0x87]; [0xE2; 0x80; 0x88]; [0xE2; 0x80; 0x89];
   [0xE2; 0x80; 0x8A]; [0xE2; 0x80; 0xA8]; [0xE2; 0x80; 0xA9]; [0xE2; 0x80; 0xAF]; [0xE2; 0x81; 0x9F];
   [0xE3; 0x80; 0x80]].

(** The rest after stripping one of the patterns, if any applies. *)
Fixpoint first_some {A B} (f : A → option B) (l : list A) : option B :=
  match l with [] => None | x :: l => match f x with Some b => Some b | None => first_some f l end end.

Fixpoint trim_go (strip : string → string → option string) (fuel : nat) (s : string) : string :=
  match fuel with
  | O => s
  | S fuel => match first_some (λ w, strip w s) whitespace with Some r => trim_go strip fuel r | None => s end
  end.
Definition trim_start (s : string) : string := trim_go strip_prefix (String.length s) s.
Definition trim_end (s : string) : string := trim_go strip_suffix (String.length s) s.
Definition trim (s : string) : string := trim_end (trim_start s).

(** [s.split(p)] on a class of one-byte characters; never empty. *)
Fixpoint split_on (p : Ascii.ascii → bool) (s : string) : list string :=
  match s with
  | EmptyString => [EmptyString]
  | String a s =>
      if p a then EmptyString :: split_on p s
      else match split_on p s with [] => [String a EmptyString] | x :: xs => String a x :: xs end
  end.
Definition is_char (c a : Ascii.ascii) : bool := Ascii.eqb a c.

(** [s.split_once(p)] on a class of characters. *)
Fixpoint split_once_on (p : Ascii.ascii → bool) (s : string) : option (string * string) :=
  match s with
  | EmptyString => None
  | String a s => if p a then Some (EmptyString, s) else '(l, r) ← split_once_on p s; Some (String a l, r)
  end.

(** [s.split(p).next().unwrap()]. *)
Fixpoint before_on (p : Ascii.ascii → bool) (s : string) : string :=
  match s with EmptyString => EmptyString | String a s => if p a then EmptyString else String a (before_on p s) end.

(** [s.trim_end_matches(c)]. *)
Fixpoint trim_end_matches (c : Ascii.ascii) (s : string) : string :=
  match s with
  | EmptyString => EmptyString
  | String a s' =>
      match trim_end_matches c s' with
      | EmptyString => if Ascii.eqb a c then EmptyString else String a EmptyString
      | r => String a r
      end
  end.

(** No character of the class occurs. *)
Fixpoint free_of (p : Ascii.ascii → bool) (s : string) : bool :=
  match s with EmptyString => true | String a s => negb (p a) && free_of p s end.

Lemma str_single c (x : string) : (String c "" +:+ x = String c x)%string.
Proof. done. Qed.

Lemma free_of_app p a b : free_of p (a +:+ b)%string = free_of p a && free_of p b.
Proof. induction a as [|x a IH]; cbn; [done|]. by rewrite IH, andb_assoc. Qed.

Lemma split_on_free p s : free_of p s = true → split_on p s = [s].
Proof.
  induction s as [|a s IH]; cbn; [done|]. intros [Ha%negb_true_iff Hs]%andb_true_iff. rewrite Ha, IH; done.
Qed.

Lemma split_on_app p s c r :
  free_of p s = true → p c = true → split_on p (s +:+ String c r)%string = s :: split_on p r.
Proof.
  intros Hs Hc. induction s as [|a s IH]; cbn in *; [by rewrite Hc|].
  apply andb_true_iff in Hs as [Ha%negb_true_iff Hs]. rewrite Ha, IH; done.
Qed.

Lemma split_once_on_app p s c r :
  free_of p s = true → p c = true → split_once_on p (s +:+ String c r)%string = Some (s, r).
Proof.
  intros Hs Hc. induction s as [|a s IH]; cbn in *; [by rewrite Hc|].
  apply andb_true_iff in Hs as [Ha%negb_true_iff Hs]. rewrite Ha, IH; done.
Qed.

Lemma before_on_free p s : free_of p s = true → before_on p s = s.
Proof. induction s as [|a s IH]; cbn; [done|]. intros [Ha%negb_true_iff Hs]%andb_true_iff. rewrite Ha, IH; done. Qed.

Lemma trim_end_matches_free c s : free_of (is_char c) s = true → trim_end_matches c s = s.
Proof.
  induction s as [|a s IH]; cbn; [done|]. intros [Ha%negb_true_iff Hs]%andb_true_iff. rewrite IH by done.
  destruct s; [by unfold is_char in Ha; rewrite Ha|done].
Qed.

(** ** Text that begins and ends with a digit has nothing to trim *)

Definition is_digit (a : Ascii.ascii) : bool := match digit_val a with Some _ => true | None => false end.

Lemma list_ascii_app (a b : string) :
  list_ascii_of_string (a +:+ b) = list_ascii_of_string a ++ list_ascii_of_string b.
Proof. induction a as [|x a IH]; cbn; [done|]. by rewrite IH. Qed.

(** The first and the last byte of no whitespace character is a digit. *)
Lemma whitespace_ends :
  Forall (λ w, ∃ a r b l, list_ascii_of_string w = a :: r ∧ list_ascii_of_string w = l ++ [b] ∧
    is_digit a = false ∧ is_digit b = false) whitespace.
Proof.
  assert (forallb (λ w, match list_ascii_of_string w, last (list_ascii_of_string w) with
    | a :: _, Some b => negb (is_digit a) && negb (is_digit b) | _, _ => false end) whitespace = true) as H
    by (vm_compute; reflexivity).
  rewrite forallb_forall in H. apply Forall_forall. intros w Hw%list_elem_of_In. specialize (H w Hw).
  destruct (list_ascii_of_string w) as [|a r] eqn:E; [done|]. destruct (last (a :: r)) as [b|] eqn:El; [|done].
  apply last_Some in El as [l El]. apply andb_true_iff in H as [H1%negb_true_iff H2%negb_true_iff].
  exists a, r, b, l. done.
Qed.

Lemma first_some_none {A B} (f : A → option B) l : Forall (λ x, f x = None) l → first_some f l = None.
Proof. induction 1 as [|x l Hx _ IH]; cbn; [done|]. by rewrite Hx. Qed.

Lemma trim_go_none strip n s : Forall (λ w, strip w s = None) whitespace → trim_go strip n s = s.
Proof. intros H. destruct n; cbn [trim_go]; [done|]. by rewrite first_some_none. Qed.

Lemma trim_digits s a r l b :
  list_ascii_of_string s = a :: r → list_ascii_of_string s = l ++ [b] → is_digit a = true → is_digit b = true →
  trim s = s.
Proof.
  intros Ha Hb Da Db. unfold trim, trim_start. rewrite trim_go_none.
  - apply trim_go_none. eapply Forall_impl; [apply whitespace_ends|]. cbn.
    intros w (wa & wr & wb & wl & _ & Hw & _ & Dw). destruct (strip_suffix w s) as [x|] eqn:E; [|done].
    apply strip_suffix_Some in E. rewrite E, list_ascii_app, Hw, app_assoc in Hb.
    apply app_inj_tail in Hb as [_ ->]. congruence.
  - eapply Forall_impl; [apply whitespace_ends|]. cbn.
    intros w (wa & wr & wb & wl & Hw & _ & Dw & _). destruct (strip_prefix w s) as [x|] eqn:E; [|done].
    apply strip_prefix_Some in E. rewrite E, list_ascii_app, Hw in Ha. injection Ha as -> _. congruence.
Qed.

(** The digits of a number, as a list. *)
Definition digit_list (s : string) : Prop := ∃ a r l b, list_ascii_of_string s = a :: r ∧
  list_ascii_of_string s = l ++ [b] ∧ is_digit a = true ∧ is_digit b = true.

Lemma is_digit_digit d : 0 ≤ d < 10 → is_digit (digit d) = true.
Proof. intros H. unfold is_digit. by rewrite digit_val_digit. Qed.

Lemma dec_digits_list k n : (1 ≤ k)%nat → digit_list (dec_digits k n).
Proof.
  intros Hk. destruct k as [|k]; [lia|]. cbn [dec_digits]. set (a := digit _).
  assert (is_digit a = true) as Ha by (apply is_digit_digit, mod10_range).
  assert (∃ l b, list_ascii_of_string (String a (dec_digits k n)) = l ++ [b] ∧ is_digit b = true) as (l & b & El & Hb).
  { clearbody a. clear Hk. revert a Ha. induction k as [|k IH]; intros a Ha.
    - exists [], a. done.
    - cbn [dec_digits]. set (a' := digit _).
      destruct (IH a') as (l & b & El & Hb); [apply is_digit_digit, mod10_range|]. exists (a :: l), b.
      split; [|done]. change (list_ascii_of_string (String a (String a' (dec_digits k n))))
        with (a :: list_ascii_of_string (String a' (dec_digits k n))). by rewrite El. }
  exists a, (list_ascii_of_string (dec_digits k n)), l, b. split_and!; done.
Qed.

Lemma fmt_pad_list w n : 0 ≤ n → digit_list (fmt_pad w n).
Proof.
  intros Hn. unfold fmt_pad. destruct (Z.ltb_spec n 0); [lia|]. apply dec_digits_list. pose proof (dec_len_pos n). lia.
Qed.

Lemma digit_list_app s m t : digit_list s → digit_list t → digit_list (s +:+ m +:+ t)%string.
Proof.
  intros (a & r & _ & _ & Ha & _ & Da & _) (_ & _ & l & b & _ & Hb & _ & Db).
  exists a, (r ++ list_ascii_of_string m ++ list_ascii_of_string t),
    (list_ascii_of_string s ++ list_ascii_of_string m ++ l), b.
  rewrite !list_ascii_app, Ha, Hb. by rewrite <- !app_assoc.
Qed.

Lemma trim_digit_list s : digit_list s → trim s = s.
Proof. intros (a & r & l & b & H1 & H2 & H3 & H4). by eapply trim_digits. Qed.

Lemma dec_digits_free p k n : (∀ a, is_digit a = true → p a = false) → free_of p (dec_digits k n) = true.
Proof.
  intros Hp. induction k as [|k IH]; cbn [dec_digits free_of]; [done|].
  rewrite IH, (Hp _ (is_digit_digit _ (mod10_range _))). done.
Qed.

Lemma fmt_pad_free p w n : 0 ≤ n → (∀ a, is_digit a = true → p a = false) → free_of p (fmt_pad w n) = true.
Proof. intros Hn Hp. unfold fmt_pad. destruct (Z.ltb_spec n 0); [lia|]. by apply dec_digits_free. Qed.

Lemma digit_not_char c a : is_digit c = false → is_digit a = true → is_char c a = false.
Proof. intros Hc Ha. unfold is_char. destruct (Ascii.eqb_spec a c) as [->|]; [congruence|done]. Qed.
