(* ===== verification/Float.v ===== *)
(** * Binary floating point as the sources use it

    An [f64] or [f32] is its bit pattern, as in the log and the row store.  Arithmetic decodes the
    pattern, computes with the correctly rounded IEEE 754 operations of [SpecFloat], and encodes the
    result; where Rust leaves the bits of a NaN open, the result is the positive quiet one.  Casts
    saturate, [str::parse] rounds the decimal to the nearest, ties to even, and [Display] writes the
    shortest decimal that reads back. *)

From Stdlib Require Import SpecFloat.
From S2P Require Import Prelude Text Numbers.

Record Format := mkFormat { f_prec : Z; f_emax : Z }.
Definition F64 : Format := mkFormat 53 1024.
Definition F32 : Format := mkFormat 24 128.

Section Format.
Variable F : Format.
Abbreviation prec := (f_prec F).
Abbreviation emax := (f_emax F).

(** ** Bit patterns *)

(** The exponent field has values below [2 * emax]; the sign bit is above it. *)
Definition frac_span : Z := 2 ^ (prec - 1).
Definition sign_bit : Z := 2 * emax * frac_span.
Definition bias : Z := emax + prec - 2.

Definition decode_f (bits : Z) : spec_float :=
  let s := sign_bit <=? bits in
  let e := bits / frac_span mod (2 * emax) in
  let m := bits mod frac_span in
  if e =? 2 * emax - 1 then (if m =? 0 then S754_infinity s else S754_nan)
  else if e =? 0 then
    match m with Zpos p => S754_finite s p (1 - bias) | _ => S754_zero s end
  else match m + frac_span with Zpos p => S754_finite s p (e - bias) | _ => S754_nan end.

Definition signed (s : bool) (bits : Z) : Z := if s then bits + sign_bit else bits.

Definition encode_f (x : spec_float) : Z :=
  match x with
  | S754_zero s => signed s 0
  | S754_infinity s => signed s ((2 * emax - 1) * frac_span)
  | S754_nan => (2 * emax - 1) * frac_span + frac_span / 2
  | S754_finite s m e =>
      signed s (if Zpos m <? frac_span then Zpos m else (e + bias - 1) * frac_span + Zpos m)
  end.

Definition on1 (f : spec_float → spec_float) (a : Z) : Z := encode_f (f (decode_f a)).
Definition on2 (f : spec_float → spec_float → spec_float) (a b : Z) : Z :=
  encode_f (f (decode_f a) (decode_f b)).

(** ** Arithmetic and comparison *)

Definition f_add : Z → Z → Z := on2 (SFadd prec emax).
Definition f_sub : Z → Z → Z := on2 (SFsub prec emax).
Definition f_mul : Z → Z → Z := on2 (SFmul prec emax).
Definition f_div : Z → Z → Z := on2 (SFdiv prec emax).
Definition f_sqrt : Z → Z := on1 (SFsqrt prec emax).
(** [-x] and [x.abs()] act on the sign bit alone. *)
Definition f_neg (a : Z) : Z := if sign_bit <=? a then a - sign_bit else a + sign_bit.
Definition f_abs (a : Z) : Z := if sign_bit <=? a then a - sign_bit else a.
(** [partial_cmp], [==] and [<]. *)
Definition f_cmp (a b : Z) : option comparison := SFcompare (decode_f a) (decode_f b).
Definition f_eqb (a b : Z) : bool := match f_cmp a b with Some Eq => true | _ => false end.
Definition f_ltb (a b : Z) : bool := match f_cmp a b with Some Lt => true | _ => false end.
Definition f_zero : Z := 0.

Definition shift_pos (p : positive) (n : Z) : Z := Z.shiftl (Zpos p) n.

(** [%]: the remainder of the truncated quotient, exact, with the sign of the dividend. *)
Definition f_rem : Z → Z → Z := on2 (λ x y,
  match x, y with
  | S754_nan, _ | _, S754_nan | S754_infinity _, _ | _, S754_zero _ => S754_nan
  | S754_zero _, _ | _, S754_infinity _ => x
  | S754_finite s mx ex, S754_finite _ my ey =>
      let e := Z.min ex ey in
      let r := shift_pos mx (ex - e) mod shift_pos my (ey - e) in
      binary_normalize prec emax (cond_Zopp s r) e s
  end).

(** ** Rounding to integers *)

(** [x] as its sign, the integer part of its magnitude and what is cut off over a power of two. *)
Definition int_parts (m : positive) (e : Z) : Z * Z * Z :=
  if 0 <=? e then (shift_pos m e, 0, 1)
  else let d := Z.shiftl 1 (- e) in (Zpos m / d, Zpos m mod d, d).

Inductive Rounding := ToZero | Down | Up | HalfAway.

Definition round_up (r : Rounding) (s : bool) (frac den : Z) : bool :=
  match r with
  | ToZero => false
  | Down => s && negb (frac =? 0)
  | Up => negb s && negb (frac =? 0)
  | HalfAway => den <=? 2 * frac
  end.

Definition round_mag (r : Rounding) (s : bool) (m : positive) (e : Z) : Z :=
  let '(q, frac, den) := int_parts m e in if round_up r s frac den then q + 1 else q.

Definition f_round_to (r : Rounding) : Z → Z := on1 (λ x,
  match x with
  | S754_finite s m e => binary_normalize prec emax (cond_Zopp s (round_mag r s m e)) 0 s
  | _ => x
  end).
Definition f_trunc : Z → Z := f_round_to ToZero.
Definition f_floor : Z → Z := f_round_to Down.
Definition f_ceil : Z → Z := f_round_to Up.
Definition f_round : Z → Z := f_round_to HalfAway.
Definition f_fract (a : Z) : Z := f_sub a (f_trunc a).

Definition f_is_finite (a : Z) : bool :=
  match decode_f a with S754_zero _ | S754_finite _ _ _ => true | _ => false end.

(** ** Casts *)

(** [n as f64]. *)
Definition f_of_Z (n : Z) : Z := encode_f (binary_normalize prec emax n 0 false).

(** [x as i64]: toward zero, saturating, NaN to 0. *)
Definition sat_i64 (n : Z) : Z := Z.max (- 2 ^ 63) (Z.min (2 ^ 63 - 1) n).
Definition f_as_i64 (a : Z) : Z :=
  match decode_f a with
  | S754_finite s m e => sat_i64 (cond_Zopp s (round_mag ToZero s m e))
  | S754_infinity s => if s then - 2 ^ 63 else 2 ^ 63 - 1
  | _ => 0
  end.

(** The nearest float to [num / den]: a quotient with bits to spare and a sticky last bit. *)
Definition f_ratio (s : bool) (num den : Z) : spec_float :=
  let k := Z.max 0 (prec + 3 + Z.log2 den - Z.log2 num) in
  let n := Z.shiftl num k in
  let q := 2 * (n / den) + (if n mod den =? 0 then 0 else 1) in
  binary_normalize prec emax (cond_Zopp s q) (- (k + 1)) s.

(** [m * 10 ^ e]; the cut-offs keep the powers small and are far outside the finite range. *)
Definition f_decimal (s : bool) (m e : Z) : spec_float :=
  if m =? 0 then S754_zero s
  else let top := e + Z.of_nat (dec_len_go (Z.to_nat (Z.log2 m + 1)) m) in
       if 400 <? top then S754_infinity s
       else if top <? -400 then S754_zero s
       else if 0 <=? e then binary_normalize prec emax (cond_Zopp s (m * 10 ^ e)) 0 s
       else f_ratio s m (10 ^ (- e)).

(** ** Reading decimals: [str::parse] *)

(** The longest prefix of digits: its value on top of [acc], its length, and the rest. *)
Fixpoint take_digits (s : string) (acc : Z) (n : nat) : Z * nat * string :=
  match s with
  | String a r => match digit_val a with
                  | Some d => take_digits r (10 * acc + d) (S n)
                  | None => (acc, n, s)
                  end
  | EmptyString => (acc, n, s)
  end.

Definition parse_exp (s : string) : option Z :=
  match s with
  | EmptyString => Some 0
  | String a r =>
      if Ascii.eqb a "e" || Ascii.eqb a "E" then
        let '(neg, r) := match r with
                         | String b r' => if Ascii.eqb b "-" then (true, r')
                                          else if Ascii.eqb b "+" then (false, r') else (false, r)
                         | EmptyString => (false, r)
                         end in
        match take_digits r 0 0 with
        | (e, S _, EmptyString) => Some (if neg : bool then - e else e)
        | _ => None
        end
      else None
  end.

Definition parse_magnitude (neg : bool) (s : string) : option spec_float :=
  let l := to_ascii_lowercase s in
  if String.eqb l "nan" then Some S754_nan
  else if String.eqb l "inf" || String.eqb l "infinity" then Some (S754_infinity neg)
  else
    let '(m, n, r) := take_digits s 0 0 in
    let '(m, k, r) := match r with
                      | String a r' => if Ascii.eqb a "." then take_digits r' m 0 else (m, O, r)
                      | EmptyString => (m, O, r)
                      end in
    if (n + k =? 0)%nat then None
    else e ← parse_exp r; Some (f_decimal neg m (e - Z.of_nat k)).

Definition parse_float (s : string) : option Z :=
  match s with
  | EmptyString => None
  | String a r =>
      encode_f <$> (if Ascii.eqb a "-" then parse_magnitude true r
                    else if Ascii.eqb a "+" then parse_magnitude false r
                    else parse_magnitude false s)
  end.

(** ** Writing decimals: [Display] *)

Definition same_float (x y : spec_float) : bool :=
  match x, y with
  | S754_finite s m e, S754_finite s' m' e' => Bool.eqb s s' && Pos.eqb m m' && (e =? e')
  | _, _ => false
  end.

(** The number of decimal digits before the point of [num / den], from an estimate below it. *)
Fixpoint point_at (fuel : nat) (num den k : Z) : Z :=
  match fuel with
  | O => k
  | S fuel =>
      if (if 0 <=? k then num <? den * 10 ^ k else num * 10 ^ (- k) <? den) then k
      else point_at fuel num den (k + 1)
  end.

(** Digits [d] with [d * 10 ^ (k - n)] nearest to [num / den], the lower one in a tie, if one of the
    two neighbours reads back as [x]. *)
Definition digits_at (x : spec_float) (num den k : Z) (n : nat) : option Z :=
  let e := k - Z.of_nat n in
  let '(p, q) := if 0 <=? e then (num, den * 10 ^ e) else (num * 10 ^ (- e), den) in
  let lo := p / q in
  let reads d := same_float (f_decimal false d e) x in
  match reads lo, reads (lo + 1) with
  | true, true => Some (if 2 * (p mod q) <=? q then lo else lo + 1)
  | true, false => Some lo
  | false, true => Some (lo + 1)
  | false, false => None
  end.

Fixpoint shortest (x : spec_float) (num den k : Z) (n fuel : nat) : Z * nat :=
  match fuel with
  | O => (0, n)
  | S fuel => match digits_at x num den k n with
              | Some d => (d, n)
              | None => shortest x num den k (S n) fuel
              end
  end.

Fixpoint zeros (n : nat) : string :=
  match n with O => EmptyString | S n => String "0" (zeros n) end.

(** The digits [d] with the point [k] places from the left: never an exponent. *)
Definition place_point (d k : Z) : string :=
  let ds := fmt_i64 d in
  let n := Z.of_nat (String.length ds) in
  if k <=? 0 then "0." +:+ zeros (Z.to_nat (- k)) +:+ ds
  else if n <=? k then ds +:+ zeros (Z.to_nat (k - n))
  else String.substring 0 (Z.to_nat k) ds +:+ "." +:+ String.substring (Z.to_nat k) (Z.to_nat (n - k)) ds.

Definition minus (s : bool) (t : string) : string := if s then "-" +:+ t else t.

(** Seventeen digits (nine for [f32]) always suffice. *)
Definition display (a : Z) : string :=
  match decode_f a with
  | S754_nan => "NaN"
  | S754_infinity s => minus s "inf"
  | S754_zero s => minus s "0"
  | S754_finite s m e =>
      let '(num, den) := if 0 <=? e then (shift_pos m e, 1) else (Zpos m, Z.shiftl 1 (- e)) in
      let k0 := (Z.log2 num - Z.log2 den - 1) * 3 / 10 - 1 in
      let k := point_at 160 num den k0 in
      let '(d, n) := shortest (S754_finite false m e) num den k 1 17 in
      let '(d, k) := if d =? 10 ^ Z.of_nat n then (1, k + 1) else (d, k) in
      minus s (place_point d k)
  end.

(** [{:.0}] of an integral value of magnitude below [2 ^ 63]. *)
Definition display_integral (a : Z) : string :=
  minus (sign_bit <=? a)
    (match decode_f a with
     | S754_finite s m e => fmt_i64 (round_mag ToZero s m e)
     | _ => "0"
     end).

End Format.

(** [r as f64] of an [f32]: exact. *)
Definition f32_to_f64 (a : Z) : Z :=
  encode_f F64 (match decode_f F32 a with
                | S754_finite s m e => binary_normalize 53 1024 (cond_Zopp s (Zpos m)) e s
                | x => x
                end).

Definition parse_f64 : string → option Z := parse_float F64.
Definition parse_f32 : string → option Z := parse_float F32.
