(* ===== verification/Chars.v ===== *)
(** * Characters of a string ([str::chars], [char])

    A Rust [String] is valid UTF-8; a [char] is its code point.  [chars] decodes, [of_chars] is what
    [collect], [push] and [push_str] build; they are inverse to each other on valid strings. *)

From S2P Require Import Prelude Text.

#[local] Arguments String.append : simpl nomatch.

Definition code (a : Ascii.ascii) : Z := Z.of_N (Ascii.N_of_ascii a).
Definition of_code (z : Z) : Ascii.ascii := Ascii.ascii_of_N (Z.to_N z).

(** The payload of a continuation byte. *)
Definition cont (a : Ascii.ascii) : Z := code a - 0x80.

Fixpoint chars (s : string) : list Z :=
  match s with
  | EmptyString => []
  | String a r =>
      let b := code a in
      if b <? 0x80 then b :: chars r
      else match r with
           | EmptyString => []
           | String a1 r1 =>
               if b <? 0xE0 then ((b - 0xC0) * 0x40 + cont a1) :: chars r1
               else match r1 with
                    | EmptyString => []
                    | String a2 r2 =>
                        if b <? 0xF0 then (((b - 0xE0) * 0x40 + cont a1) * 0x40 + cont a2) :: chars r2
                        else match r2 with
                             | EmptyString => []
                             | String a3 r3 =>
                                 ((((b - 0xF0) * 0x40 + cont a1) * 0x40 + cont a2) * 0x40 + cont a3)
                                   :: chars r3
                             end
                    end
           end
  end.

(** [char::encode_utf8]. *)
Definition of_char (c : Z) : string :=
  let tail k := of_code (0x80 + c / 0x40 ^ k mod 0x40) in
  if c <? 0x80 then String (of_code c) EmptyString
  else if c <? 0x800 then String (of_code (0xC0 + c / 0x40)) (String (tail 0) EmptyString)
  else if c <? 0x10000 then
    String (of_code (0xE0 + c / 0x1000)) (String (tail 1) (String (tail 0) EmptyString))
  else String (of_code (0xF0 + c / 0x40000))
         (String (tail 2) (String (tail 1) (String (tail 0) EmptyString))).

Fixpoint of_chars (l : list Z) : string :=
  match l with [] => EmptyString | c :: l => of_char c +:+ of_chars l end.

(** A code point: what [char::from_u32] accepts, surrogates aside. *)
Definition is_scalar (c : Z) : bool := (0 <=? c) && (c <? 0x110000) && negb ((0xD800 <=? c) && (c <? 0xE000)).

(** [char::from_u32]. *)
Definition from_u32 (c : Z) : option Z := if is_scalar c then Some c else None.

(** [c.to_ascii_lowercase()]. *)
Definition char_lower (c : Z) : Z := if (65 <=? c) && (c <=? 90) then c + 32 else c.

Definition ch (a : Ascii.ascii) : Z := code a.

(** [c.is_ascii_whitespace()]: space, tab, line feed, form feed, carriage return. *)
Definition is_ascii_whitespace (c : Z) : bool :=
  (c =? 32) || (c =? 9) || (c =? 10) || (c =? 12) || (c =? 13).
Definition char_digit (c : Z) : bool := (48 <=? c) && (c <=? 57).
(** [c.to_digit(16)]. *)
Definition hex_digit (c : Z) : option Z :=
  if (48 <=? c) && (c <=? 57) then Some (c - 48)
  else if (97 <=? c) && (c <=? 102) then Some (c - 87)
  else if (65 <=? c) && (c <=? 70) then Some (c - 55)
  else None.

(** ** Lemmas *)

Lemma code_of_code z : 0 ≤ z < 256 → code (of_code z) = z.
Proof.
  intros Hz. unfold code, of_code. rewrite Ascii.N_ascii_embedding by lia. lia.
Qed.

Lemma of_code_code a : of_code (code a) = a.
Proof. unfold code, of_code. rewrite N2Z.id. apply Ascii.ascii_N_embedding. Qed.

Lemma code_range a : 0 ≤ code a < 256.
Proof. unfold code. pose proof (Ascii.N_ascii_bounded a). lia. Qed.

Lemma of_chars_app l k : of_chars (l ++ k) = of_chars l +:+ of_chars k.
Proof. induction l as [|c l IH]; cbn; [done|]. by rewrite IH, str_app_assoc. Qed.

Lemma chars_of_char c s : 0 ≤ c < 0x110000 → chars (of_char c +:+ s) = c :: chars s.
Proof.
  intros Hc. unfold of_char. destruct (Z.ltb_spec c 0x80).
  { cbn [String.append chars]. rewrite code_of_code by lia. destruct (Z.ltb_spec c 0x80); [done|lia]. }
  assert (∀ k, 0 ≤ c / 0x40 ^ k mod 0x40 < 0x40) as Hm by (intros; apply Z.mod_pos_bound; lia).
  destruct (Z.ltb_spec c 0x800); [|destruct (Z.ltb_spec c 0x10000)]; cbn [String.append chars]; unfold cont;
    rewrite !code_of_code by (try pose proof (Hm 0); try pose proof (Hm 1); try pose proof (Hm 2);
                              Z.to_euclidean_division_equations; lia).
  all: repeat match goal with |- context [?a <? ?b] =>
         destruct (Z.ltb_spec a b); [try (Z.to_euclidean_division_equations; lia)|
                                      try (Z.to_euclidean_division_equations; lia)] end.
  all: f_equal; change (0x40 ^ 0) with 1; change (0x40 ^ 1) with 0x40; change (0x40 ^ 2) with 0x1000;
       Z.to_euclidean_division_equations; lia.
Qed.

Lemma chars_of_chars_app l s : Forall (λ c, 0 ≤ c < 0x110000) l → chars (of_chars l +:+ s) = l ++ chars s.
Proof.
  intros Hl. induction Hl as [|c l Hc Hl IH]; cbn; [done|].
  by rewrite str_app_assoc, chars_of_char, IH.
Qed.

Lemma chars_of_chars l : Forall (λ c, 0 ≤ c < 0x110000) l → chars (of_chars l) = l.
Proof. intros Hl. rewrite <- (str_app_nil_r (of_chars l)), chars_of_chars_app, app_nil_r; done. Qed.
