(* ===== verification/Datetime.v ===== *)
(** * Dates and times (crates/engine/src/datetime.rs)

    The calendar behind the date functions: day numbers and civil dates, epoch seconds and their
    text, fields, truncation.  Arithmetic is [i64], wrapping as a release build does; the clock
    itself ([now_epoch]) is not modelled. *)

From S2P Require Import Prelude Text Numbers.

#[local] Open Scope i64_scope.

Definition days_from_civil (y m d : Z) : Z :=
  let y := if m <=? 2 then y -! 1 else y in
  let era := (if 0 <=? y then y else y -! 399) /! 400 in
  let yoe := y -! era *! 400 in
  let mp := if 2 <? m then m -! 3 else m +! 9 in
  let doy := (153 *! mp +! 2) /! 5 +! d -! 1 in
  let doe := yoe *! 365 +! yoe /! 4 -! yoe /! 100 +! doy in
  era *! 146097 +! doe -! 719468.

Definition civil_from_days (z : Z) : Z * Z * Z :=
  let z := z +! 719468 in
  let era := (if 0 <=? z then z else z -! 146096) /! 146097 in
  let doe := z -! era *! 146097 in
  let yoe := (doe -! doe /! 1460 +! doe /! 36524 -! doe /! 146096) /! 365 in
  let y := yoe +! era *! 400 in
  let doy := doe -! (365 *! yoe +! yoe /! 4 -! yoe /! 100) in
  let mp := (5 *! doy +! 2) /! 153 in
  let d := doy -! (153 *! mp +! 2) /! 5 +! 1 in
  let m := if mp <? 10 then mp +! 3 else mp -! 9 in
  (if m <=? 2 then y +! 1 else y, m, d).

Definition parts (epoch : Z) : Z * Z * Z * Z * Z * Z :=
  let days := div_euclid epoch 86400 in
  let rem := rem_euclid epoch 86400 in
  let '(y, m, d) := civil_from_days days in
  (y, m, d, rem /! 3600, (rem %! 3600) /! 60, rem %! 60).

(** [tp.next().unwrap_or("0")] and the iterator after it. *)
Definition next_or_zero (l : list string) : string * list string :=
  match l with [] => ("0"%string, []) | x :: l => (x, l) end.

(** The time of day after the date, in seconds. *)
Definition parse_time (t : string) : option Z :=
  let t := trim_end_matches "Z"%char t in
  let t := before_on (λ a, is_char "+"%char a || is_char "Z"%char a) t in
  let core := before_on (is_char "-"%char) t in
  let core := before_on (is_char "."%char) core in
  let '(h, tp) := next_or_zero (split_on (is_char ":"%char) core) in
  hh ← parse_i64 (trim h);
  let '(m, tp) := next_or_zero tp in
  mm ← parse_i64 m;
  let '(s, _) := next_or_zero tp in
  ss ← parse_i64 s;
  Some (hh *! 3600 +! mm *! 60 +! ss).

Definition parse_epoch_secs (s : string) : option Z :=
  let s := trim s in
  let '(date, time) :=
    match split_once_on (λ a, is_char "T"%char a || is_char " "%char a) s with
    | Some (d, t) => (d, Some t)
    | None => (s, None)
    end in
  match split_on (is_char "-"%char) date with
  | y :: mo :: d :: _ =>
      y ← parse_i64 y;
      mo ← parse_i64 mo;
      d ← parse_i64 d;
      if negb ((1 <=? mo) && (mo <=? 12)) || negb ((1 <=? d) && (d <=? 31)) then None
      else
        let secs := days_from_civil y mo d *! 86400 in
        match time with
        | Some t => n ← parse_time t; Some (secs +! n)
        | None => Some secs
        end
  | [y; mo] => y ← parse_i64 y; mo ← parse_i64 mo; None
  | [y] => y ← parse_i64 y; None
  | [] => None
  end.

Definition fmt_date (y m d : Z) : string :=
  (fmt_pad 4 y +:+ "-" +:+ fmt_pad 2 m +:+ "-" +:+ fmt_pad 2 d)%string.
Definition fmt_time (hh mm ss : Z) : string :=
  (fmt_pad 2 hh +:+ ":" +:+ fmt_pad 2 mm +:+ ":" +:+ fmt_pad 2 ss)%string.

Definition format_timestamp (epoch : Z) : string :=
  let '(y, m, d, hh, mm, ss) := parts epoch in (fmt_date y m d +:+ " " +:+ fmt_time hh mm ss)%string.
Definition format_date (epoch : Z) : string := let '(y, m, d, _, _, _) := parts epoch in fmt_date y m d.
Definition format_time (epoch : Z) : string := let '(_, _, _, hh, mm, ss) := parts epoch in fmt_time hh mm ss.

Definition day_of_week (epoch : Z) : Z :=
  let days := div_euclid epoch 86400 in (rem_euclid days 7 +! 4) %! 7.

Definition day_of_year (epoch : Z) : Z :=
  let '(y, _, _, _, _, _) := parts epoch in
  let days := div_euclid epoch 86400 in
  days -! days_from_civil y 1 1 +! 1.

Definition at_time (y m d hh mm ss : Z) : Z :=
  days_from_civil y m d *! 86400 +! hh *! 3600 +! mm *! 60 +! ss.

Definition date_trunc (unit : string) (epoch : Z) : option Z :=
  let '(y, m, d, hh, mm, _) := parts epoch in
  let u := to_ascii_lowercase unit in
  if String.eqb u "year" then Some (at_time y 1 1 0 0 0)
  else if String.eqb u "quarter" then Some (at_time y (((m -! 1) /! 3) *! 3 +! 1) 1 0 0 0)
  else if String.eqb u "month" then Some (at_time y m 1 0 0 0)
  else if String.eqb u "week" then
    let days := div_euclid epoch 86400 in
    let monday := days -! (rem_euclid days 7 +! 3) %! 7 in
    Some (monday *! 86400)
  else if String.eqb u "day" then Some (at_time y m d 0 0 0)
  else if String.eqb u "hour" then Some (at_time y m d hh 0 0)
  else if String.eqb u "minute" then Some (at_time y m d hh mm 0)
  else if String.eqb u "second" then Some epoch
  else None.

(** * The calendar is the Gregorian one, and its text reads back

    Day numbers and civil dates correspond one to one, the day after a day is the next date of the
    calendar, a formatted timestamp parses to what was formatted, and truncation goes to the last
    boundary at or before the time. *)

#[local] Open Scope i64_scope.

(** ** The Gregorian calendar *)

Definition is_leap (y : Z) : bool := (y mod 4 =? 0) && (negb (y mod 100 =? 0) || (y mod 400 =? 0)).

Definition days_in_month (y m : Z) : Z :=
  if m =? 2 then if is_leap y then 29 else 28
  else if existsb (Z.eqb m) [4; 6; 9; 11] then 30 else 31.

Definition valid_date (y m d : Z) : bool := (1 <=? m) && (m <=? 12) && (1 <=? d) && (d <=? days_in_month y m).

Definition next_day (c : Z * Z * Z) : Z * Z * Z :=
  let '(y, m, d) := c in
  if d <? days_in_month y m then (y, m, d + 1) else if m <? 12 then (y, m + 1, 1) else (y + 1, 1, 1).

(** Dates the functions compute without overflow: more than eight billion years either way. *)
Definition in_range (z : Z) : Prop := - 2 ^ 53 ≤ z ≤ 2 ^ 53.

(** ** Years from March *)

(** Days before year [y] of an era, counted from March; the length of that year. *)
Definition year_start (y : Z) : Z := 365 * y + y / 4 - y / 100 + y / 400.
Definition year_len (y : Z) : Z := year_start (y + 1) - year_start y.

Definition march_days (y doy : Z) : Z := (y / 400) * 146097 + year_start (y mod 400) + doy - 719468.

(** Month counted from March, and day of the month, of a day of the year. *)
Definition march_month (doy : Z) : Z := (5 * doy + 2) / 153.
Definition month_start (mp : Z) : Z := (153 * mp + 2) / 5.
Definition civil_of (y doy : Z) : Z * Z * Z :=
  let mp := march_month doy in
  let m := if mp <? 10 then mp + 3 else mp - 9 in
  (if m <=? 2 then y + 1 else y, m, doy - month_start mp + 1).

Lemma div_mod_400 y : ∃ q r, y = 400 * q + r ∧ 0 ≤ r < 400 ∧ y / 400 = q ∧ y mod 400 = r.
Proof. exists (y / 400), (y mod 400). pose proof (Z.div_mod y 400). pose proof (Z.mod_pos_bound y 400). lia. Qed.

Lemma year_len_leap y : year_len y = if is_leap (y + 1) then 366 else 365.
Proof.
  unfold year_len, year_start, is_leap.
  destruct (Z.eqb_spec ((y + 1) mod 4) 0), (Z.eqb_spec ((y + 1) mod 100) 0), (Z.eqb_spec ((y + 1) mod 400) 0);
    cbn; Z.to_euclidean_division_equations; lia.
Qed.

Lemma year_len_range y : 365 ≤ year_len y ≤ 366.
Proof. rewrite year_len_leap. destruct (is_leap _); lia. Qed.

Lemma is_leap_period y k : is_leap (y + 400 * k) = is_leap y.
Proof.
  unfold is_leap. assert ((y + 400 * k) mod 4 = y mod 4 ∧ (y + 400 * k) mod 100 = y mod 100 ∧
    (y + 400 * k) mod 400 = y mod 400) as (-> & -> & ->); [|done].
  Z.to_euclidean_division_equations. lia.
Qed.

Lemma year_len_mod y : year_len (y mod 400) = year_len y.
Proof.
  rewrite !year_len_leap. destruct (div_mod_400 y) as (q & r & -> & Hr & _ & ->).
  replace (400 * q + r + 1) with (r + 1 + 400 * q) by lia. by rewrite is_leap_period.
Qed.

Lemma year_start_0 y : 0 ≤ y < 400 → year_start y = 365 * y + y / 4 - y / 100.
Proof. intros H. unfold year_start. rewrite (Z.div_small y 400) by lia. lia. Qed.

Lemma year_start_bound y : 0 ≤ y ≤ 400 → 0 ≤ year_start y ≤ 146097.
Proof. intros H. unfold year_start. Z.to_euclidean_division_equations. lia. Qed.

(** A year follows the one before it. *)
Lemma march_next y : march_days (y + 1) 0 = march_days y (year_len y).
Proof.
  unfold march_days. rewrite <- (year_len_mod y). destruct (div_mod_400 y) as (q & r & Ey & Hr & -> & ->).
  destruct (div_mod_400 (y + 1)) as (q' & r' & Ey' & Hr' & -> & ->). unfold year_len.
  destruct (decide (r = 399)) as [->|].
  - assert (q' = q + 1 ∧ r' = 0) as [-> ->] by lia. change (year_start (399 + 1)) with 146097. change (year_start 0) with 0. lia.
  - assert (q' = q ∧ r' = r + 1) as [-> ->] by lia. lia.
Qed.

(** ** Which year a day of an era is in *)

Definition era_days (doe : Z) : Z := doe - doe / 1460 + doe / 36524 - doe / 146096.

Lemma era_days_step n : 0 ≤ n → era_days n ≤ era_days (n + 1).
Proof.
  intros Hn. unfold era_days. replace 146096 with (36524 * 4) by lia. rewrite <- !Z.div_div by lia.
  Z.to_euclidean_division_equations. lia.
Qed.

Lemma era_days_mono a b : 0 ≤ a ≤ b → era_days a ≤ era_days b.
Proof.
  intros [Ha Hb]. revert b Hb. apply (Zlt_lower_bound_ind (λ b, era_days a ≤ era_days b) a).
  intros x IH Hx. destruct (decide (x = a)) as [->|Hne]; [done|]. etrans; [apply (IH (x - 1)); lia|].
  replace x with (x - 1 + 1) at 2 by lia. apply era_days_step. lia.
Qed.

(** The 400 years of an era, by evaluation at their first and last days. *)
Lemma era_years_check :
  forallb (λ y, (era_days (year_start y) / 365 =? y) && (era_days (year_start (y + 1) - 1) / 365 =? y))
    (seqZ 0 400) = true.
Proof. vm_compute. reflexivity. Qed.

Lemma year_of_day yoe doe :
  0 ≤ yoe < 400 → year_start yoe ≤ doe < year_start (yoe + 1) → era_days doe / 365 = yoe.
Proof.
  intros Hy Hd. pose proof era_years_check as H. rewrite forallb_forall in H.
  specialize (H yoe). rewrite andb_true_iff, !Z.eqb_eq in H.
  destruct H as [H1 H2]; [apply list_elem_of_In, elem_of_seqZ; lia|].
  pose proof (year_start_bound yoe ltac:(lia)).
  pose proof (Z.div_le_mono _ _ 365 ltac:(lia) (era_days_mono (year_start yoe) doe ltac:(lia))).
  pose proof (Z.div_le_mono _ _ 365 ltac:(lia) (era_days_mono doe (year_start (yoe + 1) - 1) ltac:(lia))). lia.
Qed.

Lemma year_exists n doe : 0 ≤ doe < year_start (Z.of_nat n) → ∃ yoe, 0 ≤ yoe < Z.of_nat n ∧ year_start yoe ≤ doe < year_start (yoe + 1).
Proof.
  induction n as [|n IH]; intros Hd; [change (year_start (Z.of_nat 0)) with 0 in Hd; lia|].
  destruct (Z.lt_ge_cases doe (year_start (Z.of_nat n))) as [Hlt|Hge].
  - destruct IH as (y & ? & ?); [lia|]. exists y. lia.
  - exists (Z.of_nat n). rewrite Nat2Z.inj_succ in Hd. unfold Z.succ in Hd. lia.
Qed.

Lemma march_exists z : ∃ y doy, z = march_days y doy ∧ 0 ≤ doy < year_len y.
Proof.
  set (x := z + 719468). pose proof (Z.div_mod x 146097 ltac:(lia)) as E.
  pose proof (Z.mod_pos_bound x 146097 ltac:(lia)) as Hb. set (q := x / 146097) in *. set (doe := x mod 146097) in *.
  destruct (year_exists 400 doe) as (yoe & Hy & Hd); [change (year_start (Z.of_nat 400)) with 146097; lia|].
  exists (400 * q + yoe), (doe - year_start yoe). destruct (div_mod_400 (400 * q + yoe)) as (q' & r & Eq & Hr & Hdiv & Hmod).
  assert (q' = q ∧ r = yoe) as [-> ->] by lia. rewrite <- year_len_mod. unfold march_days. rewrite Hdiv, Hmod.
  unfold year_len. lia.
Qed.

(** ** The two functions, by year from March and day of the year *)

Lemma quot_floor x k : 0 < k → (if 0 <=? x then x else x - (k - 1)) /! k = x / k.
Proof.
  intros Hk. destruct (Z.leb_spec 0 x) as [Hx|Hx]; [by apply Z.quot_div_nonneg|].
  Z.to_euclidean_division_equations. nia.
Qed.

Lemma wrapped_if (b : bool) x y : wrap64 y = y → (if b then x else wrap64 y) = if b then x else y.
Proof. intros H. by rewrite H. Qed.

Lemma march_days_bound y doy : in_range (march_days y doy) → 0 ≤ doy < year_len y → - 2 ^ 46 ≤ y ≤ 2 ^ 46.
Proof.
  unfold in_range, march_days. intros H Hd. pose proof (year_len_range y).
  destruct (div_mod_400 y) as (q & r & Ey & Hr & Hq & Hm). rewrite Hq, Hm in H. pose proof (year_start_bound r ltac:(lia)). lia.
Qed.

Lemma civil_from_march y doy :
  in_range (march_days y doy) → 0 ≤ doy < year_len y → civil_from_days (march_days y doy) = civil_of y doy.
Proof.
  intros Hz Hd. pose proof (march_days_bound y doy Hz Hd) as Hy. pose proof (year_len_range y) as Hl.
  assert (0 ≤ doy ≤ 365) as Hd0 by lia. destruct (div_mod_400 y) as (q & r & Ey & Hr & Hq & Hm).
  assert (march_days y doy = q * 146097 + year_start r + doy - 719468) as Ez by (unfold march_days; by rewrite Hq, Hm).
  rewrite <- (year_len_mod y), Hm in Hd. unfold year_len in Hd.
  pose proof (year_start_bound r ltac:(lia)) as Hs. pose proof (year_start_bound (r + 1) ltac:(lia)) as Hs'.
  set (doe := year_start r + doy) in *. assert (0 ≤ doe < 146097) as Hdoe by (unfold doe; lia).
  unfold in_range in Hz. unfold civil_from_days. cbv zeta. rewrite Ez.
  rewrite (wrap64_id (_ + 719468)) by (unfold is_i64; lia).
  replace (q * 146097 + year_start r + doy - 719468 + 719468) with (q * 146097 + doe) by (unfold doe; lia).
  rewrite (wrapped_if (0 <=? q * 146097 + doe)) by (apply wrap64_id; unfold is_i64; lia).
  change 146096 with (146097 - 1) in |- *. rewrite (quot_floor (q * 146097 + doe) 146097) by lia. change (146097 - 1) with 146096.
  assert ((q * 146097 + doe) / 146097 = q) as -> by (rewrite Z.div_add_l, Z.div_small by lia; lia).
  rewrite (wrap64_id (q * 146097)) by (unfold is_i64; lia).
  rewrite (wrap64_id (_ - q * 146097)) by (unfold is_i64; lia).
  replace (q * 146097 + doe - q * 146097) with doe by lia.
  rewrite !(Z.quot_div_nonneg doe) by lia.
  assert (0 ≤ doe / 1460 ≤ 100 ∧ 0 ≤ doe / 36524 ≤ 4 ∧ 0 ≤ doe / 146096 ≤ 1) as (B1 & B2 & B3)
    by (Z.to_euclidean_division_equations; lia).
  rewrite (wrap64_id (doe - doe / 1460)), (wrap64_id (doe - doe / 1460 + doe / 36524)),
    (wrap64_id (doe - doe / 1460 + doe / 36524 - doe / 146096)) by (unfold is_i64; lia).
  change (doe - doe / 1460 + doe / 36524 - doe / 146096) with (era_days doe).
  pose proof (era_days_mono 0 doe ltac:(lia)) as B0. change (era_days 0) with 0 in B0.
  rewrite (Z.quot_div_nonneg (era_days doe)) by lia.
  rewrite (year_of_day r doe) by (unfold doe; lia). rewrite !(Z.quot_div_nonneg r) by lia.
  assert (0 ≤ r / 4 ≤ 100 ∧ 0 ≤ r / 100 ≤ 4) as (B4 & B5) by (Z.to_euclidean_division_equations; lia).
  rewrite (wrap64_id (q * 400)) by (unfold is_i64; lia).
  rewrite (wrap64_id (r + q * 400)) by (unfold is_i64; lia). replace (r + q * 400) with y by lia.
  rewrite (wrap64_id (365 * r)), (wrap64_id (365 * r + r / 4)), (wrap64_id (365 * r + r / 4 - r / 100)) by (unfold is_i64; lia).
  rewrite <- (year_start_0 r) by lia.
  rewrite (wrap64_id (doe - year_start r)) by (unfold is_i64; lia). replace (doe - year_start r) with doy by (unfold doe; lia).
  rewrite (wrap64_id (5 * doy)), (wrap64_id (5 * doy + 2)) by (unfold is_i64; lia).
  rewrite (Z.quot_div_nonneg (5 * doy + 2)) by lia. fold (march_month doy).
  assert (0 ≤ march_month doy ≤ 11) as B6 by (unfold march_month; Z.to_euclidean_division_equations; lia).
  rewrite (wrap64_id (153 * march_month doy)), (wrap64_id (153 * march_month doy + 2)) by (unfold is_i64; lia).
  rewrite (Z.quot_div_nonneg (153 * march_month doy + 2)) by lia. fold (month_start (march_month doy)).
  assert (0 ≤ month_start (march_month doy) ≤ 340) as B7 by (unfold month_start; Z.to_euclidean_division_equations; lia).
  unwrap. unfold civil_of. done.
Qed.

Definition march_year (y m : Z) : Z := if m <=? 2 then y - 1 else y.
Definition march_doy (m d : Z) : Z := month_start (if 2 <? m then m - 3 else m + 9) + d - 1.

Lemma days_from_march y m d :
  - 2 ^ 47 ≤ y ≤ 2 ^ 47 → 1 ≤ m ≤ 12 → 1 ≤ d ≤ 31 →
  days_from_civil y m d = march_days (march_year y m) (march_doy m d).
Proof.
  intros Hy Hm Hd. unfold days_from_civil. cbv zeta.
  assert ((if m <=? 2 then y -! 1 else y) = march_year y m) as ->.
  { unfold march_year. destruct (m <=? 2); [|done]. apply wrap64_id. unfold is_i64. lia. }
  assert (- 2 ^ 47 - 1 ≤ march_year y m ≤ 2 ^ 47) as Hy' by (unfold march_year; destruct (m <=? 2); lia).
  assert ((if 2 <? m then m -! 3 else m +! 9) = (if 2 <? m then m - 3 else m + 9)) as ->.
  { destruct (2 <? m); apply wrap64_id; unfold is_i64; lia. }
  assert (0 ≤ (if 2 <? m then m - 3 else m + 9) ≤ 11) as Hmp by (destruct (Z.ltb_spec 2 m); lia).
  unfold march_doy, march_days. set (y' := march_year y m) in *. set (mp := if 2 <? m then _ else _) in *. clearbody y' mp.
  rewrite (wrapped_if (0 <=? y')) by (apply wrap64_id; unfold is_i64; lia).
  change 399 with (400 - 1). rewrite (quot_floor y' 400) by lia.
  destruct (div_mod_400 y') as (q & r & Ey & Hr & Hq & Hm'). rewrite Hq, Hm'. pose proof (year_start_bound r ltac:(lia)).
  rewrite (wrap64_id (q * 400)) by (unfold is_i64; lia). rewrite (wrap64_id (y' - q * 400)) by (unfold is_i64; lia).
  replace (y' - q * 400) with r by lia. rewrite !(Z.quot_div_nonneg r) by lia.
  rewrite (wrap64_id (153 * mp)), (wrap64_id (153 * mp + 2)) by (unfold is_i64; lia).
  rewrite (Z.quot_div_nonneg (153 * mp + 2)) by lia. fold (month_start mp).
  assert (0 ≤ month_start mp ≤ 340) as B7 by (unfold month_start; Z.to_euclidean_division_equations; lia).
  assert (0 ≤ r / 4 ≤ 100 ∧ 0 ≤ r / 100 ≤ 4) as (B4 & B5) by (Z.to_euclidean_division_equations; lia).
  rewrite (year_start_0 r) by lia. unwrap. lia.
Qed.

(** ** Days and months of a year, by evaluation *)

(** From a day of the year (in a leap year or not) to a date and back, and to the next day. *)
Definition month_len (leap : bool) (m : Z) : Z :=
  if m =? 2 then if leap then 29 else 28 else if existsb (Z.eqb m) [4; 6; 9; 11] then 30 else 31.

Definition day_check (leap : bool) (doy : Z) : bool :=
  let '(carry, m, d) := civil_of 0 doy in
  (1 <=? m) && (m <=? 12) && (1 <=? d) && (d <=? month_len leap m) &&
  (march_year carry m =? 0) && (march_doy m d =? doy) &&
  (if doy + 1 <? (if leap then 366 else 365)
   then bool_decide (civil_of 0 (doy + 1) =
          if d <? month_len leap m then (carry, m, d + 1) else if m <? 12 then (carry, m + 1, 1) else (carry + 1, 1, 1))
   else (m =? 2) && (d =? month_len leap m)).

Lemma days_check : forallb (λ doy, day_check true doy && (day_check false doy || (doy =? 365))) (seqZ 0 366) = true.
Proof. vm_compute. reflexivity. Qed.

Definition date_check (m d : Z) : bool :=
  (31 <? d) || (month_len true m <? d) ||
  (bool_decide (civil_of 0 (march_doy m d) = (if m <=? 2 then 1 else 0, m, d)) && (0 <=? march_doy m d) &&
   (march_doy m d <? 366) && ((march_doy m d <? 365) || ((m =? 2) && (d =? 29)))).

Lemma dates_check : forallb (λ m, forallb (date_check m) (seqZ 1 31)) (seqZ 1 12) = true.
Proof. vm_compute. reflexivity. Qed.

Lemma civil_of_shift y doy : civil_of y doy = let '(c, m, d) := civil_of 0 doy in (y + c, m, d).
Proof. unfold civil_of. destruct (_ <=? 2); f_equal; f_equal; lia. Qed.

Lemma year_civil y m c : (m <=? 2) = (c =? 1) → 0 ≤ c ≤ 1 → days_in_month (y + c) m = month_len (is_leap (y + 1)) m.
Proof.
  intros Hm Hc. unfold days_in_month, month_len. destruct (Z.eqb_spec m 2) as [->|]; [|done].
  assert (c = 1) as ->; [|done]. cbn in Hm. symmetry in Hm. by apply Z.eqb_eq in Hm.
Qed.

(** What a day number means, with the facts of its day of the year. *)
Lemma civil_day z :
  in_range z → ∃ y doy c m d, z = march_days y doy ∧ 0 ≤ doy < year_len y ∧ civil_of 0 doy = (c, m, d) ∧
    civil_from_days z = (y + c, m, d) ∧ day_check (is_leap (y + 1)) doy = true ∧
    (m <=? 2) = (c =? 1) ∧ 0 ≤ c ≤ 1 ∧ - 2 ^ 46 ≤ y ≤ 2 ^ 46.
Proof.
  intros Hz. destruct (march_exists z) as (y & doy & -> & Hd). destruct (civil_of 0 doy) as [[c m] d] eqn:E.
  exists y, doy, c, m, d. split; [done|]. split; [done|]. split; [done|].
  rewrite (civil_from_march y doy Hz Hd), civil_of_shift, E. split; [done|].
  pose proof days_check as H. rewrite forallb_forall in H. pose proof (year_len_range y) as Hl.
  specialize (H doy). rewrite andb_true_iff, orb_true_iff, Z.eqb_eq in H.
  destruct H as [H1 H2]; [apply list_elem_of_In, elem_of_seqZ; lia|]. split.
  { rewrite year_len_leap in Hd. destruct (is_leap (y + 1)); [done|]. destruct H2; [done|lia]. }
  unfold civil_of in E. injection E as <- <- _. split; [by destruct (_ <=? 2)|].
  split; [destruct (_ <=? 2); lia|]. by apply (march_days_bound y doy).
Qed.

Ltac day_facts H :=
  unfold day_check in H; match type of H with context [civil_of 0 ?doy] =>
    match goal with E : civil_of 0 doy = _ |- _ => rewrite E in H end end;
  rewrite !andb_true_iff, !Z.leb_le, !Z.eqb_eq in H.

Lemma civil_valid z : in_range z → let '(y, m, d) := civil_from_days z in valid_date y m d = true.
Proof.
  intros Hz. destruct (civil_day z Hz) as (y & doy & c & m & d & Ez & Hd & E & -> & H & Hm & Hc & _).
  day_facts H. unfold valid_date. rewrite (year_civil y m c Hm Hc), !andb_true_iff, !Z.leb_le. tauto.
Qed.

Lemma month_len_31 leap m : month_len leap m ≤ 31.
Proof. unfold month_len. repeat case_match; lia. Qed.

Lemma days_from_civil_of z : in_range z → let '(y, m, d) := civil_from_days z in days_from_civil y m d = z.
Proof.
  intros Hz. destruct (civil_day z Hz) as (y & doy & c & m & d & Ez & Hd & E & -> & H & Hm & Hc & Hy).
  day_facts H. pose proof (month_len_31 (is_leap (y + 1)) m). destruct H as [[[[[[H1 H2] H3] H4] H5] H6] _].
  rewrite days_from_march by lia. rewrite H6, Ez. f_equal. unfold march_year in *. destruct (m <=? 2); lia.
Qed.

Lemma civil_from_days_of y m d :
  - 2 ^ 43 ≤ y ≤ 2 ^ 43 → valid_date y m d = true → civil_from_days (days_from_civil y m d) = (y, m, d).
Proof.
  intros Hy Hv. unfold valid_date in Hv. rewrite !andb_true_iff, !Z.leb_le in Hv. destruct Hv as [[[Hm1 Hm2] Hd1] Hd2].
  pose proof dates_check as H. rewrite forallb_forall in H. specialize (H m). rewrite forallb_forall in H.
  assert (days_in_month y m = month_len (is_leap y) m) as Hlen by done. rewrite Hlen in Hd2.
  pose proof (month_len_31 (is_leap y) m) as H31.
  specialize (H ltac:(apply list_elem_of_In, elem_of_seqZ; lia) d ltac:(apply list_elem_of_In, elem_of_seqZ; lia)).
  assert (d ≤ month_len true m) as Hlt.
  { etrans; [exact Hd2|]. unfold month_len. destruct (m =? 2), (is_leap y); lia || done. }
  unfold date_check in H. rewrite !orb_true_iff, !andb_true_iff, !Z.ltb_lt, Z.leb_le, !orb_true_iff, !andb_true_iff, !Z.ltb_lt, !Z.eqb_eq in H.
  destruct H as [[H|H]|[[[Hc%bool_decide_eq_true H0] H366] Hlp]]; [lia..|].
  rewrite days_from_march by lia.
  assert (march_year y m + 1 = y ∧ m ≤ 2 ∨ march_year y m = y ∧ 2 < m) as Hmy.
  { unfold march_year. destruct (Z.leb_spec m 2); lia. }
  assert (0 ≤ march_doy m d < year_len (march_year y m)) as Hdoy.
  { split; [done|]. rewrite year_len_leap. destruct Hlp as [Hlp|[-> ->]]; [destruct (is_leap (march_year y m + 1)); lia|].
    destruct Hmy as [[-> _]|[_ ?]]; [|lia]. destruct (is_leap y) eqn:El; [lia|]. by vm_compute in Hd2. }
  rewrite civil_from_march; [|unfold in_range, march_days|done].
  - rewrite civil_of_shift, Hc. f_equal. f_equal. unfold march_year. destruct (m <=? 2); lia.
  - destruct (div_mod_400 (march_year y m)) as (q & r & Ey & Hr & Hq & Hm'). rewrite Hq, Hm'.
    pose proof (year_start_bound r ltac:(lia)). lia.
Qed.

(** ** Seconds *)

Definition time_range (e : Z) : Prop := - 2 ^ 53 ≤ e ≤ 2 ^ 53.

(** Broken-down times that exist. *)
Definition valid_time (y m d hh mm ss : Z) : bool :=
  valid_date y m d && (0 <=? hh) && (hh <? 24) && (0 <=? mm) && (mm <? 60) && (0 <=? ss) && (ss <? 60).

Lemma valid_date_bounds y m d : valid_date y m d = true → 1 ≤ m ≤ 12 ∧ 1 ≤ d ≤ 31.
Proof.
  unfold valid_date. rewrite !andb_true_iff, !Z.leb_le. intros [[[? ?] ?] Hd].
  pose proof (month_len_31 (is_leap y) m). change (month_len (is_leap y) m) with (days_in_month y m) in *. lia.
Qed.

Lemma days_bound y m d : - 2 ^ 37 ≤ y ≤ 2 ^ 37 → 1 ≤ m ≤ 12 → 1 ≤ d ≤ 31 → - 2 ^ 46 ≤ days_from_civil y m d ≤ 2 ^ 46.
Proof.
  intros Hy Hm Hd. rewrite days_from_march by lia. unfold march_days.
  assert (- 2 ^ 37 - 1 ≤ march_year y m ≤ 2 ^ 37) by (unfold march_year; destruct (m <=? 2); lia).
  assert (0 ≤ march_doy m d ≤ 370).
  { unfold march_doy, month_start. destruct (Z.ltb_spec 2 m); Z.to_euclidean_division_equations; lia. }
  destruct (div_mod_400 (march_year y m)) as (q & r & Ey & Hr & -> & ->). pose proof (year_start_bound r ltac:(lia)). lia.
Qed.

Lemma at_time_plain y m d hh mm ss :
  - 2 ^ 37 ≤ y ≤ 2 ^ 37 → 1 ≤ m ≤ 12 → 1 ≤ d ≤ 31 → 0 ≤ hh < 24 → 0 ≤ mm < 60 → 0 ≤ ss < 60 →
  at_time y m d hh mm ss = days_from_civil y m d * 86400 + (hh * 3600 + mm * 60 + ss).
Proof. intros Hy Hm Hd Hh Hmm Hss. pose proof (days_bound y m d Hy Hm Hd). unfold at_time. unwrap. lia. Qed.

(** A time is its fields. *)
Lemma parts_spec e :
  time_range e → ∃ y m d hh mm ss, parts e = (y, m, d, hh, mm, ss) ∧ valid_time y m d hh mm ss = true ∧
    - 2 ^ 36 ≤ y ≤ 2 ^ 36 ∧ days_from_civil y m d = e / 86400 ∧ e = at_time y m d hh mm ss.
Proof.
  intros He. unfold time_range in He.
  assert (in_range (e / 86400)) as Hz by (unfold in_range; Z.to_euclidean_division_equations; lia).
  pose proof (civil_valid _ Hz) as Hv. pose proof (days_from_civil_of _ Hz) as Hd.
  destruct (civil_day _ Hz) as (y0 & doy & c & m0 & d0 & Ez & Hdoy & _ & E & _ & _ & Hc & _). rewrite E in Hv, Hd.
  assert (- 2 ^ 36 ≤ y0 + c ≤ 2 ^ 36) as Hy.
  { unfold march_days in Ez. destruct (div_mod_400 y0) as (q & r & Ey & Hr & Hq & Hm). rewrite Hq, Hm in Ez.
    pose proof (year_start_bound r ltac:(lia)). pose proof (year_len_range y0).
    assert (- 2 ^ 37 ≤ e / 86400 ≤ 2 ^ 37) by (Z.to_euclidean_division_equations; lia). lia. }
  set (s := e mod 86400). assert (0 ≤ s < 86400) as Hs by (apply Z.mod_pos_bound; lia).
  destruct (valid_date_bounds _ _ _ Hv) as [Hm0 Hd0].
  assert (0 ≤ s / 3600 < 24 ∧ 0 ≤ s mod 3600 / 60 < 60 ∧ 0 ≤ s mod 60 < 60 ∧ s = s / 3600 * 3600 + s mod 3600 / 60 * 60 + s mod 60)
    as (B1 & B2 & B3 & B4) by (Z.to_euclidean_division_equations; lia).
  exists (y0 + c), m0, d0, (s / 3600), (s mod 3600 / 60), (s mod 60). split.
  - unfold parts, div_euclid, rem_euclid. rewrite E. fold s. rewrite Z.quot_div_nonneg, !Z.rem_mod_nonneg by lia.
    rewrite Z.quot_div_nonneg by (try apply Z.mod_pos_bound; lia). done.
  - split; [|split; [done|split; [done|]]].
    + unfold valid_time. rewrite Hv, !andb_true_iff, !Z.leb_le, !Z.ltb_lt. split_and!; lia || done.
    + rewrite at_time_plain, Hd by lia. pose proof (Z.div_mod e 86400 ltac:(lia)). fold s in H. lia.
Qed.

(** And the fields are those of the time. *)
Lemma parts_at_time y m d hh mm ss :
  - 2 ^ 37 ≤ y ≤ 2 ^ 37 → valid_time y m d hh mm ss = true → parts (at_time y m d hh mm ss) = (y, m, d, hh, mm, ss).
Proof.
  intros Hy Hv. unfold valid_time in Hv. rewrite !andb_true_iff, !Z.leb_le, !Z.ltb_lt in Hv.
  destruct Hv as [[[[[[Hv ?] ?] ?] ?] ?] ?]. destruct (valid_date_bounds _ _ _ Hv) as [Hm Hd].
  rewrite at_time_plain by lia. set (t := hh * 3600 + mm * 60 + ss). assert (0 ≤ t < 86400) by (unfold t; lia).
  unfold parts, div_euclid, rem_euclid. rewrite Z.div_add_l, (Z.div_small t), Z.add_0_r by lia.
  rewrite civil_from_days_of by (done || lia). rewrite Z.add_comm, Z.mod_add, Z.mod_small by lia.
  rewrite Z.quot_div_nonneg, !Z.rem_mod_nonneg by lia. rewrite Z.quot_div_nonneg by (try apply Z.mod_pos_bound; lia).
  assert (t / 3600 = hh ∧ t mod 3600 / 60 = mm ∧ t mod 60 = ss) as (-> & -> & ->); [|done].
  unfold t. Z.to_euclidean_division_equations. lia.
Qed.

(** ** Text *)

#[local] Opaque fmt_pad.

(** Discharges that digits are not the separator. *)
Ltac no_sep := intros ? ?; rewrite ?orb_false_iff; repeat split; (by apply digit_not_char).

Lemma parse_fmt_time hh mm ss :
  0 ≤ hh < 24 → 0 ≤ mm < 60 → 0 ≤ ss < 60 → parse_time (fmt_time hh mm ss) = Some (hh * 3600 + mm * 60 + ss).
Proof.
  intros Hh Hm Hs. unfold fmt_time, parse_time.
  set (s := (fmt_pad 2 hh +:+ ":" +:+ fmt_pad 2 mm +:+ ":" +:+ fmt_pad 2 ss)%string).
  assert (∀ p, (∀ a, is_digit a = true → p a = false) → p ":"%char = false → free_of p s = true) as Hfree.
  { intros p Hp Hc. unfold s. rewrite !free_of_app. cbn [free_of]. rewrite Hc, !fmt_pad_free by (done || lia). done. }
  rewrite (trim_end_matches_free "Z"%char s) by (apply Hfree; [no_sep|done]).
  rewrite (before_on_free _ s) by (apply Hfree; [no_sep|done]).
  rewrite (before_on_free _ s) by (apply Hfree; [no_sep|done]).
  rewrite (before_on_free _ s) by (apply Hfree; [no_sep|done]). unfold s. clear s Hfree.
  assert (∀ n, 0 ≤ n → free_of (is_char ":"%char) (fmt_pad 2 n) = true) as Hf by (intros n Hn; apply fmt_pad_free; [done|no_sep]).
  rewrite !str_single.
  rewrite split_on_app by (done || apply Hf; lia). rewrite split_on_app by (done || apply Hf; lia).
  rewrite split_on_free by (apply Hf; lia). cbn [next_or_zero].
  rewrite trim_digit_list, !parse_fmt_pad by (apply fmt_pad_list || idtac; lia). cbn. f_equal. unwrap. lia.
Qed.

Lemma format_parses y m d hh mm ss :
  0 ≤ y ≤ 2 ^ 36 → valid_time y m d hh mm ss = true →
  parse_epoch_secs (fmt_date y m d +:+ " " +:+ fmt_time hh mm ss)%string = Some (at_time y m d hh mm ss) ∧
  parse_epoch_secs (fmt_date y m d) = Some (at_time y m d 0 0 0).
Proof.
  intros Hy Hv. unfold valid_time in Hv. rewrite !andb_true_iff, !Z.leb_le, !Z.ltb_lt in Hv.
  destruct Hv as [[[[[[Hv ?] ?] ?] ?] ?] ?]. destruct (valid_date_bounds _ _ _ Hv) as [Hm Hd].
  pose proof (days_bound y m d ltac:(lia) Hm Hd) as Hb. rewrite !at_time_plain by lia.
  assert (∀ n w, 0 ≤ n → free_of (is_char "-"%char) (fmt_pad w n) = true) as Hf by (intros n w Hn; apply fmt_pad_free; [done|no_sep]).
  assert (split_on (is_char "-"%char) (fmt_date y m d) = [fmt_pad 4 y; fmt_pad 2 m; fmt_pad 2 d]) as Hsplit.
  { unfold fmt_date. rewrite !str_single.
    rewrite split_on_app by (done || apply Hf; lia). rewrite split_on_app by (done || apply Hf; lia).
    by rewrite split_on_free by (apply Hf; lia). }
  assert (∀ p, (∀ a, is_digit a = true → p a = false) → p "-"%char = false → free_of p (fmt_date y m d) = true) as Hfree.
  { intros p Hp Hc. unfold fmt_date. rewrite !free_of_app. cbn [free_of]. rewrite Hc, !fmt_pad_free by (done || lia). done. }
  assert (digit_list (fmt_date y m d)) as Hld.
  { unfold fmt_date. apply digit_list_app; [apply fmt_pad_list; lia|]. rewrite <- str_app_assoc.
    rewrite str_app_assoc. apply digit_list_app; apply fmt_pad_list; lia. }
  assert (digit_list (fmt_time hh mm ss)) as Hlt.
  { unfold fmt_time. apply digit_list_app; [apply fmt_pad_list; lia|]. apply digit_list_app; apply fmt_pad_list; lia. }
  assert (∀ x, days_from_civil y m d *! 86400 +! x = wrap64 (days_from_civil y m d * 86400 + x)) as Hw by (intros x; unwrap; done).
  unfold parse_epoch_secs. split.
  - rewrite trim_digit_list by (by apply digit_list_app). rewrite str_single.
    rewrite split_once_on_app; [|apply Hfree; [no_sep|done]|done]. rewrite Hsplit, !parse_fmt_pad by lia. cbn [mbind option_bind].
    rewrite (proj2 (Z.leb_le 1 m)), (proj2 (Z.leb_le m 12)), (proj2 (Z.leb_le 1 d)), (proj2 (Z.leb_le d 31)) by lia. cbn [andb orb negb].
    rewrite parse_fmt_time by lia. cbn. f_equal. unwrap. lia.
  - rewrite trim_digit_list by done.
    assert (split_once_on (λ a, is_char "T"%char a || is_char " "%char a) (fmt_date y m d) = None) as ->.
    { assert (∀ p s, free_of p s = true → split_once_on p s = None) as Hn.
      { intros p s. induction s as [|a s IH]; cbn; [done|]. intros [Ha%negb_true_iff Hs]%andb_true_iff. by rewrite Ha, IH. }
      apply Hn, Hfree; [no_sep|done]. }
    rewrite Hsplit, !parse_fmt_pad by lia. cbn [mbind option_bind].
    rewrite (proj2 (Z.leb_le 1 m)), (proj2 (Z.leb_le m 12)), (proj2 (Z.leb_le 1 d)), (proj2 (Z.leb_le d 31)) by lia. cbn [andb orb negb].
    f_equal. unwrap. lia.
Qed.

(** ** Truncation *)

Lemma days_le y m m' d : - 2 ^ 37 ≤ y ≤ 2 ^ 37 → 1 ≤ m' ≤ m → m ≤ 12 → 1 ≤ d ≤ 31 → days_from_civil y m' 1 ≤ days_from_civil y m d.
Proof.
  intros Hy Hm' Hm Hd. rewrite !days_from_march by lia. unfold march_year.
  assert (∀ a b, 0 ≤ a ≤ b → b ≤ 11 → month_start a ≤ month_start b) as Hmono.
  { intros a b Hab Hb. unfold month_start. apply Z.div_le_mono; lia. }
  assert (march_doy m' 1 = month_start (if 2 <? m' then m' - 3 else m' + 9)) as -> by (unfold march_doy; lia).
  destruct (Z.leb_spec m 2), (Z.leb_spec m' 2); try lia.
  - unfold march_days, march_doy. destruct (Z.ltb_spec 2 m), (Z.ltb_spec 2 m'); try lia.
    pose proof (Hmono (m' + 9) (m + 9)). lia.
  - replace y with (y - 1 + 1) at 2 by lia. pose proof (march_next (y - 1)) as Hn. pose proof (year_len_range (y - 1)).
    destruct (Z.ltb_spec 2 m'); [lia|]. pose proof (Hmono (m' + 9) 11 ltac:(lia) ltac:(lia)) as Hl. change (month_start 11) with 337 in Hl.
    unfold march_doy. destruct (Z.ltb_spec 2 m); [|lia]. pose proof (Hmono 0 (m - 3) ltac:(lia) ltac:(lia)) as Hz0. change (month_start 0) with 0 in Hz0.
    unfold march_days in *. lia.
  - unfold march_days, march_doy. destruct (Z.ltb_spec 2 m), (Z.ltb_spec 2 m'); try lia.
    pose proof (Hmono (m' - 3) (m - 3)). lia.
Qed.

Lemma first_valid y m : 1 ≤ m ≤ 12 → valid_date y m 1 = true.
Proof.
  intros Hm. unfold valid_date, days_in_month. rewrite !andb_true_iff, !Z.leb_le. split_and!; try lia. repeat case_match; lia.
Qed.

Lemma valid_time_spec y m d hh mm ss :
  valid_time y m d hh mm ss = true ↔
  valid_date y m d = true ∧ 0 ≤ hh < 24 ∧ 0 ≤ mm < 60 ∧ 0 ≤ ss < 60.
Proof. unfold valid_time. rewrite !andb_true_iff, !Z.leb_le, !Z.ltb_lt. tauto. Qed.

Lemma at_time_le y m d hh mm ss m' d' hh' mm' :
  - 2 ^ 36 ≤ y ≤ 2 ^ 36 → valid_time y m d hh mm ss = true → 1 ≤ m' ≤ 12 →
  (m' ≤ m ∧ d' = 1 ∧ hh' = 0 ∧ mm' = 0 ∨ m' = m ∧ d' = d ∧ (hh' = 0 ∧ mm' = 0 ∨ hh' = hh ∧ (mm' = 0 ∨ mm' = mm))) →
  at_time y m' d' hh' mm' 0 ≤ at_time y m d hh mm ss ∧ parts (at_time y m' d' hh' mm' 0) = (y, m', d', hh', mm', 0).
Proof.
  intros Hy (Hv & Hh & Hmm & Hs)%valid_time_spec Hm' Hor. destruct (valid_date_bounds _ _ _ Hv) as [Hm Hd].
  assert (days_from_civil y m' d' ≤ days_from_civil y m d ∧ valid_date y m' d' = true ∧ 0 ≤ hh' < 24 ∧ 0 ≤ mm' < 60 ∧
    (days_from_civil y m' d' = days_from_civil y m d ∨ hh' = 0 ∧ mm' = 0)) as (H1 & H2 & H3 & H4 & H5).
  { destruct Hor as [(H1 & -> & -> & ->)|(-> & -> & Hor)].
    - split_and!; [apply days_le; lia|by apply first_valid|lia|lia|lia|lia|by right].
    - split_and!; first [done|lia|by left]. }
  destruct (valid_date_bounds _ _ _ H2). split.
  - rewrite !at_time_plain by lia. destruct H5 as [->|[-> ->]]; [|lia].
    destruct Hor as [(_ & _ & -> & ->)|(_ & _ & [[-> ->]|[-> [->| ->]]])]; lia.
  - apply parts_at_time; [lia|]. apply valid_time_spec. split_and!; done || lia.
Qed.

(** The first month of a quarter, and the Monday of a week. *)
Lemma quarter_plain m : 1 ≤ m ≤ 12 → ((m -! 1) /! 3) *! 3 +! 1 = (m - 1) / 3 * 3 + 1.
Proof.
  intros Hm. rewrite (wrap64_id (m - 1)) by (unfold is_i64; lia). rewrite Z.quot_div_nonneg by lia.
  assert (0 ≤ (m - 1) / 3 ≤ 3) by (Z.to_euclidean_division_equations; lia). unwrap. done.
Qed.

Lemma monday_plain x :
  - 2 ^ 40 ≤ x ≤ 2 ^ 40 → (x -! (rem_euclid x 7 +! 3) %! 7) *! 86400 = (x - (x mod 7 + 3) mod 7) * 86400.
Proof.
  intros Hx. unfold rem_euclid. pose proof (Z.mod_pos_bound x 7 ltac:(lia)).
  rewrite (wrap64_id (x mod 7 + 3)) by (unfold is_i64; lia). rewrite Z.rem_mod_nonneg by lia.
  pose proof (Z.mod_pos_bound (x mod 7 + 3) 7 ltac:(lia)). unwrap. done.
Qed.

(** ** Properties *)

(** Day numbers and dates correspond: over more than eight billion years either way and without
    overflow, [civil_from_days] gives a valid date of the Gregorian calendar that [days_from_civil]
    maps back to the day, and every valid date comes back from its day number. *)
Theorem calendar_roundtrip z y m d :
  in_range z → - 2 ^ 43 ≤ y ≤ 2 ^ 43 → valid_date y m d = true →
  (let '(y', m', d') := civil_from_days z in valid_date y' m' d' = true ∧ days_from_civil y' m' d' = z) ∧
  civil_from_days (days_from_civil y m d) = (y, m, d).
Proof.
  intros Hz Hy Hv. split; [|by apply civil_from_days_of].
  pose proof (civil_valid z Hz). pose proof (days_from_civil_of z Hz). destruct (civil_from_days z) as [[? ?] ?]. done.
Qed.

(** The closed formula is the calendar: day 0 is 1970-01-01, and the date of the next day is the
    next date, with months of 28 to 31 days and leap years every fourth year but for centuries not
    divisible by 400. *)
Theorem calendar_is_gregorian z :
  in_range z → in_range (z + 1) →
  civil_from_days 0 = (1970, 1, 1) ∧ civil_from_days (z + 1) = next_day (civil_from_days z).
Proof.
  intros Hz Hz1. split; [vm_compute; reflexivity|].
  destruct (civil_day z Hz) as (y & doy & c & m & d & Ez & Hd & E & -> & H & Hm & Hc & Hy).
  day_facts H. destruct H as [_ H]. unfold next_day. rewrite (year_civil y m c Hm Hc), Ez in *.
  assert ((if is_leap (y + 1) then 366 else 365) = year_len y) as Hlen by (by rewrite year_len_leap).
  rewrite Hlen in H. destruct (Z.ltb_spec (doy + 1) (year_len y)) as [Hlt|Hge].
  - replace (march_days y doy + 1) with (march_days y (doy + 1)) in * by (unfold march_days; lia).
    rewrite civil_from_march, civil_of_shift by (done || lia). apply bool_decide_eq_true in H. rewrite H.
    destruct (d <? _); [done|]. destruct (m <? 12); [done|]. f_equal. f_equal. lia.
  - apply andb_true_iff in H as [->%Z.eqb_eq ->%Z.eqb_eq]. rewrite Z.ltb_irrefl. cbn [Z.ltb].
    assert (c = 1) as -> by (cbn in Hm; symmetry in Hm; by apply Z.eqb_eq in Hm).
    replace (march_days y doy + 1) with (march_days (y + 1) 0) in *
      by (rewrite march_next; unfold march_days; lia).
    rewrite civil_from_march, civil_of_shift; [|done|pose proof (year_len_range (y + 1)); lia].
    vm_compute (civil_of 0 0). cbn. f_equal. f_equal. lia.
Qed.

Definition year_of (e : Z) : Z := let '(y, _, _, _, _, _) := parts e in y.

(** Timestamps read back: for every time from year 0 on, parsing what [format_timestamp] wrote
    gives the time again, and parsing what [format_date] wrote gives the start of that day. *)
Theorem timestamp_roundtrip e :
  time_range e → 0 ≤ year_of e →
  parse_epoch_secs (format_timestamp e) = Some e ∧ parse_epoch_secs (format_date e) = Some (e / 86400 * 86400).
Proof.
  intros He Hy. destruct (parts_spec e He) as (y & m & d & hh & mm & ss & Ep & Hv & Hyb & Hd & Ee).
  assert (format_timestamp e = (fmt_date y m d +:+ " " +:+ fmt_time hh mm ss)%string ∧ format_date e = fmt_date y m d ∧
    year_of e = y) as (-> & -> & Hy') by (unfold format_timestamp, format_date, year_of; rewrite Ep; done).
  rewrite Hy' in Hy. destruct (format_parses y m d hh mm ss ltac:(lia) Hv) as [-> ->]. split; [by rewrite Ee|].
  unfold valid_time in Hv. rewrite !andb_true_iff in Hv. destruct Hv as [[[[[[Hv _] _] _] _] _] _].
  destruct (valid_date_bounds _ _ _ Hv). rewrite at_time_plain by lia. rewrite Hd. f_equal. lia.
Qed.

(** Truncation goes to the last boundary: [date_trunc] returns a time at or before the one given,
    on which truncating to the same unit changes nothing. *)
Theorem date_trunc_floor unit e t :
  time_range e → date_trunc unit e = Some t → t ≤ e ∧ date_trunc unit t = Some t.
Proof.
  intros He. destruct (parts_spec e He) as (y & m & d & hh & mm & ss & Ep & Hv & Hy & _ & Ee).
  pose proof Hv as (Hvd & _)%valid_time_spec. destruct (valid_date_bounds _ _ _ Hvd) as [Hm _].
  assert (∀ m' d' hh' mm', 1 ≤ m' ≤ 12 →
    (m' ≤ m ∧ d' = 1 ∧ hh' = 0 ∧ mm' = 0 ∨ m' = m ∧ d' = d ∧ (hh' = 0 ∧ mm' = 0 ∨ hh' = hh ∧ (mm' = 0 ∨ mm' = mm))) →
    at_time y m' d' hh' mm' 0 ≤ e ∧ parts (at_time y m' d' hh' mm' 0) = (y, m', d', hh', mm', 0)) as Hat.
  { intros m' d' hh' mm' Hm' Hor. rewrite Ee. by apply at_time_le. }
  unfold date_trunc at 1. rewrite Ep. set (u := to_ascii_lowercase unit).
  destruct (String.eqb u "year") eqn:E1.
  { intros [= <-]. destruct (Hat 1 1 0 0) as [Hle Hp]; [lia|left; lia|]. split; [done|].
    unfold date_trunc. rewrite Hp. fold u. by rewrite E1. }
  destruct (String.eqb u "quarter") eqn:E2.
  { rewrite quarter_plain by done. intros [= <-]. assert (1 ≤ (m - 1) / 3 * 3 + 1 ≤ m) by (Z.to_euclidean_division_equations; lia).
    destruct (Hat ((m - 1) / 3 * 3 + 1) 1 0 0) as [Hle Hp]; [lia|left; lia|]. split; [done|].
    unfold date_trunc. rewrite Hp. fold u. rewrite E1, E2. do 2 f_equal.
    rewrite quarter_plain by lia. f_equal. Z.to_euclidean_division_equations. lia. }
  destruct (String.eqb u "month") eqn:E3.
  { intros [= <-]. destruct (Hat m 1 0 0) as [Hle Hp]; [lia|left; lia|]. split; [done|].
    unfold date_trunc. rewrite Hp. fold u. by rewrite E1, E2, E3. }
  destruct (String.eqb u "week") eqn:E4.
  { intros [= <-]. unfold time_range in He.
    unfold div_euclid. assert (- 2 ^ 38 ≤ e / 86400 ≤ 2 ^ 38) as Hd by (Z.to_euclidean_division_equations; lia).
    rewrite monday_plain by lia. set (x := e / 86400) in *. pose proof (Z.mod_pos_bound (x mod 7 + 3) 7 ltac:(lia)).
    pose proof (Z.div_mod e 86400 ltac:(lia)) as Edm. pose proof (Z.mod_pos_bound e 86400 ltac:(lia)). fold x in Edm. split; [lia|].
    unfold date_trunc. destruct (parts _) as [[[[[? ?] ?] ?] ?] ?]. fold u. rewrite E1, E2, E3, E4. unfold div_euclid.
    rewrite Z.div_mul by lia. rewrite monday_plain by lia. do 2 f_equal.
    assert (((x - (x mod 7 + 3) mod 7) mod 7 + 3) mod 7 = 0) as ->; [|lia]. clear. Z.to_euclidean_division_equations. lia. }
  destruct (String.eqb u "day") eqn:E5.
  { intros [= <-]. destruct (Hat m d 0 0) as [Hle Hp]; [lia|right; naive_solver|]. split; [done|].
    unfold date_trunc. rewrite Hp. fold u. by rewrite E1, E2, E3, E4, E5. }
  destruct (String.eqb u "hour") eqn:E6.
  { intros [= <-]. destruct (Hat m d hh 0) as [Hle Hp]; [lia|right; naive_solver|]. split; [done|].
    unfold date_trunc. rewrite Hp. fold u. by rewrite E1, E2, E3, E4, E5, E6. }
  destruct (String.eqb u "minute") eqn:E7.
  { intros [= <-]. destruct (Hat m d hh mm) as [Hle Hp]; [lia|right; naive_solver|]. split; [done|].
    unfold date_trunc. rewrite Hp. fold u. by rewrite E1, E2, E3, E4, E5, E6, E7. }
  destruct (String.eqb u "second") eqn:E8; [|done].
  intros [= <-]. split; [done|]. unfold date_trunc. rewrite Ep. fold u. by rewrite E1, E2, E3, E4, E5, E6, E7, E8.
Qed.

(** ** On concrete dates *)

Lemma calendar_roundtrip_witness :
  (let '(y, m, d) := civil_from_days 18812 in valid_date y m d = true ∧ days_from_civil y m d = 18812) ∧
  civil_from_days (days_from_civil 2000 2 29) = (2000, 2, 29).
Proof. apply (calendar_roundtrip 18812 2000 2 29); [vm_compute; split; discriminate|vm_compute; split; discriminate|reflexivity]. Defined.

Lemma calendar_is_gregorian_witness :
  civil_from_days 0 = (1970, 1, 1) ∧ civil_from_days (-719163 + 1) = next_day (civil_from_days (-719163)).
Proof. apply calendar_is_gregorian; vm_compute; split; discriminate. Defined.

Lemma timestamp_roundtrip_witness :
  parse_epoch_secs (format_timestamp 1625401845) = Some 1625401845 ∧
  parse_epoch_secs (format_date 1625401845) = Some (1625401845 / 86400 * 86400).
Proof. apply timestamp_roundtrip; [vm_compute; split; discriminate|vm_compute; discriminate]. Defined.

Lemma date_trunc_floor_witness :
  1624838400 ≤ 1625401845 ∧ date_trunc "week" 1624838400 = Some 1624838400.
Proof. apply (date_trunc_floor "week" 1625401845 1624838400); [vm_compute; split; discriminate|vm_compute; reflexivity]. Defined.

(** ** Where the text does not say what was meant *)

(** A time before year 0 formats with a sign that the parser takes for a separator. *)
Theorem timestamp_negative_year :
  format_timestamp (-62167219201) = "-001-12-31 23:59:59"%string ∧
  parse_epoch_secs (format_timestamp (-62167219201)) = None.
Proof. split; vm_compute; reflexivity. Qed.

(** Days past the end of the month and times past the end of the day are accepted and carried. *)
Theorem parse_accepts_impossible :
  parse_epoch_secs "2021-02-31" = parse_epoch_secs "2021-03-03" ∧
  parse_epoch_secs "2021-01-01 99:99:99" = parse_epoch_secs "2021-01-05 04:40:39".
Proof. split; vm_compute; reflexivity. Qed.
