(* ===== verification/EngineTypes.v ===== *)
(** * The engine's values, catalog and errors (value.rs, catalog.rs, error.rs, vector.rs)

    The data the SQL engine stores and logs: cell values and column types, table schemas with
    their constraints, foreign keys and row-level-security policies, vector index definitions,
    and the status codes of the C ABI.  A Rust [String] is a byte string that is valid UTF-8; an
    [f64] or [f32] is its bit pattern, which is all the log and the row store look at.  The text
    of an error message is not modelled. *)

From S2P Require Import Prelude Text StorageTypes.

(** ** Errors *)

Inductive EngineStatus :=
| StatusOk | ErrSql | ErrConstraint | ErrConflict | ErrStorage | ErrTxn | ErrMisuse | ErrInternal.

#[export] Instance EngineStatus_eq_dec : EqDecision EngineStatus.
Proof. solve_decision. Defined.

(** The discriminants of the C ABI. *)
Definition status_code (s : EngineStatus) : Z :=
  match s with
  | StatusOk => 0 | ErrSql => 1 | ErrConstraint => 2 | ErrConflict => 3
  | ErrStorage => 4 | ErrTxn => 5 | ErrMisuse => 6 | ErrInternal => 7
  end.

(** [From<StorageError> for EngineError]. *)
Definition engine_error_from (e : StorageError) : EngineStatus :=
  match e with
  | Fenced _ _ | Contended => ErrConflict
  | Invalid => ErrMisuse
  | _ => ErrStorage
  end.

(** [db::commit_error]. *)
Definition commit_error (e : StorageError) : EngineStatus :=
  match e with
  | Fenced _ _ | Contended => ErrConflict
  | _ => ErrStorage
  end.

(** ** Values *)

Inductive Value :=
| Null
| Int (i : Z)
| Real (bits : Z)
| TextV (s : string)
| Blob (b : bytes)
| Vector (v : list Z).

#[export] Instance Value_eq_dec : EqDecision Value.
Proof. solve_decision. Defined.

Definition is_null (v : Value) : bool := match v with Null => true | _ => false end.

Definition type_name (v : Value) : string :=
  match v with
  | Null => "NULL" | Int _ => "INTEGER" | Real _ => "REAL"
  | TextV _ => "TEXT" | Blob _ => "BLOB" | Vector _ => "VECTOR"
  end%string.

Definition as_vector (v : Value) : option (list Z) :=
  match v with Vector v => Some v | _ => None end.

(** A bit pattern of [0.0] or [-0.0]: the values [r != 0.0] is false on. *)
Definition real_is_zero (bits : Z) : bool := (bits =? 0) || (bits =? 2 ^ 63).

Definition as_bool (v : Value) : option bool :=
  match v with
  | Null => None
  | Int i => Some (negb (i =? 0))
  | Real r => Some (negb (real_is_zero r))
  | TextV s => Some (negb (String.eqb s "") && negb (String.eqb s "0"))
  | Blob b => Some (negb (zlen b =? 0))
  | Vector v => Some (negb (zlen v =? 0))
  end.

Inductive ColumnType :=
| CInteger | CReal | CText | CBlob | CVector (dim : Z).

#[export] Instance ColumnType_eq_dec : EqDecision ColumnType.
Proof. solve_decision. Defined.

Definition str_contains_any (pats : list string) (s : string) : bool :=
  existsb (λ p, str_contains p s) pats.

Definition ColumnType_from_sql (name : string) : ColumnType :=
  let n := to_ascii_uppercase name in
  if str_contains "INT" n then CInteger
  else if str_contains_any ["CHAR"; "TEXT"; "CLOB"; "STRING"]%string n then CText
  else if str_contains "VEC" n then CVector 0
  else if str_contains_any ["REAL"; "FLOA"; "DOUB"; "NUMERIC"; "DEC"]%string n then CReal
  else if str_contains_any ["BLOB"; "BYTEA"]%string n then CBlob
  else CText.

Definition is_vector (t : ColumnType) : bool := match t with CVector _ => true | _ => false end.

(** A [u8] of the wire is a [byte]; tags are written as their numbers. *)
Definition ColumnType_tag (t : ColumnType) : Init.Byte.byte :=
  match t with
  | CInteger => Init.Byte.x00 | CReal => Init.Byte.x01 | CText => Init.Byte.x02
  | CBlob => Init.Byte.x03 | CVector _ => Init.Byte.x04
  end.

Definition ColumnType_from_tag (t : Init.Byte.byte) : ColumnType :=
  match t with
  | Init.Byte.x00 => CInteger
  | Init.Byte.x01 => CReal
  | Init.Byte.x03 => CBlob
  | Init.Byte.x04 => CVector 0
  | _ => CText
  end.

(** ** Catalog *)

Record Column := mkColumn {
  col_name : string;
  col_ty : ColumnType;
  primary_key : bool;
  not_null : bool;
  unique : bool;
  autoincrement : bool;
  default_sql : option string
}.

Record ForeignKey := mkForeignKey {
  fk_name : string;
  fk_columns : list string;
  foreign_table : string;
  foreign_columns : list string
}.

Inductive PolicyCommand := PAll | PSelect | PInsert | PUpdate | PDelete.

Definition PolicyCommand_as_str (c : PolicyCommand) : string :=
  match c with
  | PAll => "ALL" | PSelect => "SELECT" | PInsert => "INSERT"
  | PUpdate => "UPDATE" | PDelete => "DELETE"
  end%string.

Definition PolicyCommand_tag (c : PolicyCommand) : Init.Byte.byte :=
  match c with
  | PAll => Init.Byte.x00 | PSelect => Init.Byte.x01 | PInsert => Init.Byte.x02
  | PUpdate => Init.Byte.x03 | PDelete => Init.Byte.x04
  end.

Definition PolicyCommand_from_tag (t : Init.Byte.byte) : PolicyCommand :=
  match t with
  | Init.Byte.x01 => PSelect
  | Init.Byte.x02 => PInsert
  | Init.Byte.x03 => PUpdate
  | Init.Byte.x04 => PDelete
  | _ => PAll
  end.

Record Policy := mkPolicy {
  pol_name : string;
  pol_command : PolicyCommand;
  pol_roles : list string;
  pol_using : option string;
  pol_check : option string
}.

Record TableSchema := mkSchema {
  schema_name : string;
  columns : list Column;
  foreign_keys : list ForeignKey;
  checks : list string;
  uniques : list (list string);
  rls_enabled : bool;
  policies : list Policy
}.

(** [iter().position(p)]. *)
Fixpoint position {A} (p : A → bool) (l : list A) : option nat :=
  match l with
  | [] => None
  | x :: l => if p x then Some 0%nat else S <$> position p l
  end.

Definition column_index (s : TableSchema) (name : string) : option nat :=
  position (λ c, eq_ignore_ascii_case (col_name c) name) (columns s).

Definition primary_key_index (s : TableSchema) : option nat := position primary_key (columns s).

(** The indices of the columns that satisfy [p], in declaration order. *)
Definition indices_where (p : Column → bool) (cols : list Column) : list nat :=
  omap (λ '(i, c), if p c then Some i else None) (zip (seq 0 (length cols)) cols).

Definition primary_key_indices (s : TableSchema) : list nat := indices_where primary_key (columns s).

Definition unique_sets (s : TableSchema) : list (list nat) :=
  let pk := primary_key_indices s in
  (if bool_decide (pk = []) then [] else [pk])
  ++ ((λ i, [i]) <$> indices_where unique (columns s))
  ++ omap (λ u : list string,
             let idxs := omap (column_index s) u in
             if (length idxs =? length u)%nat then Some idxs else None) (uniques s).

(** ** Vector indexes *)

Inductive Metric := Cosine | L2 | InnerProduct.

Definition Metric_tag (m : Metric) : Init.Byte.byte :=
  match m with Cosine => Init.Byte.x00 | L2 => Init.Byte.x01 | InnerProduct => Init.Byte.x02 end.

Definition Metric_from_tag (t : Init.Byte.byte) : Metric :=
  match t with Init.Byte.x01 => L2 | Init.Byte.x02 => InnerProduct | _ => Cosine end.

Definition Metric_from_name (s : string) : option Metric :=
  let s := to_ascii_lowercase s in
  if existsb (String.eqb s) ["cosine"; "cos"]%string then Some Cosine
  else if existsb (String.eqb s) ["l2"; "euclidean"; "l2sq"]%string then Some L2
  else if existsb (String.eqb s) ["ip"; "inner_product"; "dot"; "negative_inner_product"]%string
  then Some InnerProduct
  else None.

Definition Metric_as_name (m : Metric) : string :=
  match m with Cosine => "cosine" | L2 => "l2" | InnerProduct => "inner_product" end%string.

Record IndexParams := mkParams {
  ip_m : Z;
  ef_construction : Z;
  ef_search : Z;
  ip_metric : Metric
}.

Definition IndexParams_default : IndexParams := mkParams 16 200 64 Cosine.

Record IndexDef := mkIndexDef {
  ix_name : string;
  ix_table : string;
  ix_column : string;
  ix_params : IndexParams
}.

#[export] Instance Column_eq_dec : EqDecision Column.
Proof. solve_decision. Defined.
#[export] Instance ForeignKey_eq_dec : EqDecision ForeignKey.
Proof. solve_decision. Defined.
#[export] Instance PolicyCommand_eq_dec : EqDecision PolicyCommand.
Proof. solve_decision. Defined.
#[export] Instance Policy_eq_dec : EqDecision Policy.
Proof. solve_decision. Defined.
#[export] Instance TableSchema_eq_dec : EqDecision TableSchema.
Proof. solve_decision. Defined.
#[export] Instance Metric_eq_dec : EqDecision Metric.
Proof. solve_decision. Defined.
#[export] Instance IndexParams_eq_dec : EqDecision IndexParams.
Proof. solve_decision. Defined.
#[export] Instance IndexDef_eq_dec : EqDecision IndexDef.
Proof. solve_decision. Defined.

(** ** Results (exec.rs) *)

Record ResultSet := mkResultSet {
  rs_columns : list string;
  rs_types : list ColumnType;
  rs_rows : list (list Value)
}.

Definition ResultSet_default : ResultSet := mkResultSet [] [] [].

(** ** Lemmas *)

Lemma ColumnType_from_tag_tag t :
  is_vector t = false → ColumnType_from_tag (ColumnType_tag t) = t.
Proof. by destruct t. Qed.

Lemma PolicyCommand_from_tag_tag c : PolicyCommand_from_tag (PolicyCommand_tag c) = c.
Proof. by destruct c. Qed.

Lemma Metric_from_tag_tag m : Metric_from_tag (Metric_tag m) = m.
Proof. by destruct m. Qed.

Lemma Metric_from_name_as_name m : Metric_from_name (Metric_as_name m) = Some m.
Proof. by destruct m. Qed.

Lemma position_Some {A} (p : A → bool) l i :
  position p l = Some i →
  ∃ x, l !! i = Some x ∧ p x = true ∧ ∀ j y, (j < i)%nat → l !! j = Some y → p y = false.
Proof.
  revert i. induction l as [|x l IH]; intros i; cbn [position]; [done|].
  destruct (p x) eqn:E.
  - intros [= <-]. exists x. split_and!; [done..|]. intros. lia.
  - destruct (position p l) as [k|] eqn:Ek; [|done]. intros [= <-].
    destruct (IH k eq_refl) as (y & Hy & Hp & Hmin). exists y. split_and!; [done..|].
    intros [|j] z Hj; cbn; [congruence|]. apply Hmin. lia.
Qed.
