(* ===== verification/Values.v ===== *)
(** * Operations on cell values (crates/engine/src/value.rs)

    Rendering and truth of a value, SQL comparison and equality, the affinity of a column, the text
    form of vectors, and base64.  Numbers are compared as [f64], whatever their class. *)

From Stdlib Require Import SpecFloat.
From S2P Require Import Prelude Text Numbers Float Chars EngineTypes.

#[local] Arguments String.append : simpl nomatch.

(** ** Base64, standard alphabet with padding *)

Definition B64 : string := "ABCDEFGHIJKLMNOPQRSTUVWXYZabcdefghijklmnopqrstuvwxyz0123456789+/".
Definition b64_char (n : Z) : Ascii.ascii :=
  default "="%char (String.get (Z.to_nat (Z.land n 63)) B64).

Definition b64_chunk (b0 b1 b2 : Z) (len : nat) : string :=
  let n := Z.lor (Z.lor (Z.shiftl b0 16) (Z.shiftl b1 8)) b2 in
  String (b64_char (Z.shiftr n 18)) (String (b64_char (Z.shiftr n 12))
    (String (if (1 <? len)%nat then b64_char (Z.shiftr n 6) else "="%char)
      (String (if (2 <? len)%nat then b64_char n else "="%char) EmptyString))).

Fixpoint base64_encode (data : bytes) : string :=
  match data with
  | [] => EmptyString
  | [a] => b64_chunk (bz a) 0 0 1
  | [a; b] => b64_chunk (bz a) (bz b) 0 2
  | a :: b :: c :: rest => b64_chunk (bz a) (bz b) (bz c) 3 +:+ base64_encode rest
  end.

Definition b64_val (a : Ascii.ascii) : option Z :=
  let c := code a in
  if (65 <=? c) && (c <=? 90) then Some (c - 65)
  else if (97 <=? c) && (c <=? 122) then Some (c - 97 + 26)
  else if (48 <=? c) && (c <=? 57) then Some (c - 48 + 52)
  else if c =? 43 then Some 62
  else if c =? 47 then Some 63
  else None.

(** [(n << 6) | v] on a [u32]: four characters do not reach the top. *)
Fixpoint b64_gather (chunk : list Ascii.ascii) (n pad : Z) : option (Z * Z) :=
  match chunk with
  | [] => Some (n, pad)
  | a :: chunk =>
      if Ascii.eqb a "=" then b64_gather chunk (Z.shiftl n 6) (pad + 1)
      else v ← b64_val a; b64_gather chunk (Z.lor (Z.shiftl n 6) v) pad
  end.

Definition u8_of (n : Z) : Init.Byte.byte := byte.of_Z n.

Definition b64_bytes (n pad : Z) : bytes :=
  u8_of (Z.shiftr n 16) :: (if pad <? 2 then [u8_of (Z.shiftr n 8)] else [])
    ++ (if pad <? 1 then [u8_of n] else []).

Fixpoint b64_decode_chunks (l : list Ascii.ascii) : option bytes :=
  match l with
  | [] => Some []
  | a :: b :: c :: d :: rest =>
      '(n, pad) ← b64_gather [a; b; c; d] 0 0;
      out ← b64_decode_chunks rest; Some (b64_bytes n pad ++ out)
  | _ => None
  end.

Definition base64_decode (s : string) : option bytes :=
  b64_decode_chunks
    (List.filter (λ a, negb (is_ascii_whitespace (code a))) (list_ascii_of_string s)).

(** ** Text forms *)

(** [x.fract() == 0.0 && x.is_finite() && x.abs() < 1e15]. *)
Definition small_integral (F : Format) (x : Z) : bool :=
  f_eqb F (f_fract F x) f_zero && f_is_finite F x && f_ltb F (f_abs F x) (f_of_Z F (10 ^ 15)).

Definition format_f32 (x : Z) : string :=
  if small_integral F32 x then display_integral F32 x else display F32 x.

Definition format_real (r : Z) : string :=
  if small_integral F64 r then display_integral F64 r +:+ ".0" else display F64 r.

(** [parts.join(sep)]. *)
Fixpoint join_str (sep : string) (l : list string) : string :=
  match l with [] => "" | [x] => x | x :: l => x +:+ sep +:+ join_str sep l end.

Definition format_vector (v : list Z) : string := "[" +:+ join_str "," (format_f32 <$> v) +:+ "]".

Definition vector_sep (a : Ascii.ascii) : bool :=
  Ascii.eqb a "," || Ascii.eqb a " " || Ascii.eqb a (of_code 9).

(** [collect] into an [Option]: the first failure ends it. *)
Fixpoint collect_opt {A B} (f : A → option B) (l : list A) : option (list B) :=
  match l with [] => Some [] | x :: l => y ← f x; (y ::.) <$> collect_opt f l end.

Definition parse_component (t : string) : option Z :=
  x ← parse_f32 (trim t); if f_is_finite F32 x then Some x else None.

Definition parse_vector (s : string) : option (list Z) :=
  let inner := trim s in
  let inner := trim (match strip_prefix "[" inner with
                     | Some r => default r (strip_suffix "]" r)
                     | None => inner
                     end) in
  if String.eqb inner "" then Some []
  else collect_opt parse_component (List.filter (λ t, negb (String.eqb t "")) (split_on vector_sep inner)).

Definition render (v : Value) : option string :=
  match v with
  | Null => None
  | Int i => Some (fmt_i64 i)
  | Real r => Some (format_real r)
  | TextV s => Some s
  | Blob b => Some (base64_encode b)
  | Vector v => Some (format_vector v)
  end.

(** ** Comparison *)

Definition numeric (v : Value) : option Z :=
  match v with Int i => Some (f_of_Z F64 i) | Real r => Some r | _ => None end.

(** [Ord] of byte slices. *)
Fixpoint bytes_compare (a b : bytes) : comparison :=
  match a, b with
  | [], [] => Eq
  | [], _ => Lt
  | _, [] => Gt
  | x :: a, y :: b => match bz x ?= bz y with Eq => bytes_compare a b | c => c end
  end.

Definition sql_cmp (a b : Value) : option comparison :=
  if is_null a || is_null b then None
  else match numeric a, numeric b with
       | Some x, Some y => f_cmp F64 x y
       | _, _ => match a, b with
                 | TextV s, TextV t => Some (String.compare s t)
                 | Blob s, Blob t => Some (bytes_compare s t)
                 | _, _ => None
                 end
       end.

Definition is_eq (c : comparison) : bool := match c with Eq => true | _ => false end.

Definition sql_eq (a b : Value) : option bool :=
  if is_null a || is_null b then None
  else match sql_cmp a b with Some c => Some (is_eq c) | None => Some false end.

(** ** Affinity *)

Definition coerce (t : ColumnType) (v : Value) : Value :=
  match t, v with
  | CReal, Int i => Real (f_of_Z F64 i)
  | CInteger, Real r => if f_eqb F64 (f_fract F64 r) f_zero then Int (f_as_i64 F64 r) else v
  | CVector _, TextV s => match parse_vector s with Some x => Vector x | None => v end
  | _, _ => v
  end.

(** ** Keys: a string per value, for unique sets, grouping and DISTINCT ([exec::value_key]) *)

Definition value_key (v : Value) : string :=
  match v with
  | Null => String Ascii.zero "null"
  | Int i => "i" +:+ pretty i
  | Real r => "r" +:+ pretty r
  | TextV s => "t" +:+ s
  | Blob b => "b" +:+ base64_encode b
  | Vector v => "v" +:+ format_vector v
  end.

(** ** Base64 round trip *)

Definition b64_ok (n : Z) : bool :=
  negb (Ascii.eqb (b64_char n) "=") && negb (is_ascii_whitespace (code (b64_char n)))
  && match b64_val (b64_char n) with Some v => v =? Z.land n 63 | None => false end.

Lemma b64_char_ok n : b64_ok n = true.
Proof.
  assert (forallb (λ k, b64_ok (Z.of_nat k)) (seq 0 64) = true) as H by reflexivity.
  rewrite forallb_forall in H. change 63 with (Z.ones 6). unfold b64_ok, b64_char.
  change 63 with (Z.ones 6). rewrite Z.land_ones by lia.
  assert (0 ≤ n mod 2 ^ 6 < 64) as Hr by (apply Z.mod_pos_bound; lia).
  specialize (H (Z.to_nat (n mod 2 ^ 6))). rewrite Z2Nat.id in H by lia.
  unfold b64_ok, b64_char in H. change 63 with (Z.ones 6) in H. rewrite Z.land_ones, Z.mod_mod in H by lia.
  apply H, in_seq. lia.
Qed.

Lemma b64_char_val n : b64_val (b64_char n) = Some (n mod 64).
Proof.
  pose proof (b64_char_ok n) as H. unfold b64_ok in H.
  destruct (b64_val (b64_char n)) as [v|]; [|by rewrite andb_false_r in H].
  apply andb_prop in H as [_ H%Z.eqb_eq]. rewrite H. change 63 with (Z.ones 6). by rewrite Z.land_ones.
Qed.

Lemma b64_char_not_pad n : Ascii.eqb (b64_char n) "=" = false.
Proof. pose proof (b64_char_ok n) as H. unfold b64_ok in H. by destruct (Ascii.eqb (b64_char n) "="). Qed.

Lemma b64_char_not_space n : is_ascii_whitespace (code (b64_char n)) = false.
Proof.
  pose proof (b64_char_ok n) as H. unfold b64_ok in H.
  destruct (is_ascii_whitespace _); [|done]. by rewrite andb_false_r in H.
Qed.

Lemma lor_low x y k : 0 ≤ k → 0 ≤ y < 2 ^ k → Z.lor (Z.shiftl x k) y = x * 2 ^ k + y.
Proof.
  intros Hk Hy. rewrite <- Z.lxor_lor, <- Z.add_nocarry_lxor, Z.shiftl_mul_pow2; try done.
  all: apply Z.bits_inj'; intros i Hi; rewrite Z.land_spec, Z.bits_0; destruct (Z.lt_ge_cases i k).
  all: try by rewrite Z.shiftl_spec_low.
  all: replace y with (y mod 2 ^ k) by (by apply Z.mod_small); rewrite Z.mod_pow2_bits_high by lia.
  all: apply andb_false_r.
Qed.

Lemma b64_word b0 b1 b2 : 0 ≤ b0 < 256 → 0 ≤ b1 < 256 → 0 ≤ b2 < 256 →
  Z.lor (Z.lor (Z.shiftl b0 16) (Z.shiftl b1 8)) b2 = b0 * 65536 + b1 * 256 + b2.
Proof.
  intros. assert (Z.shiftl b1 8 = b1 * 256) as H2 by (rewrite Z.shiftl_mul_pow2; lia).
  rewrite lor_low by (rewrite ?H2; lia). rewrite H2.
  replace (b0 * 2 ^ 16 + b1 * 256) with (Z.shiftl (b0 * 256 + b1) 8) by (rewrite Z.shiftl_mul_pow2; lia).
  rewrite lor_low; lia.
Qed.

Lemma bz_range b : 0 ≤ bz b < 256.
Proof. apply byte.unsigned_range. Qed.

Lemma u8_of_mod n b : n mod 256 = bz b → u8_of n = b.
Proof. intros H. unfold u8_of. rewrite <- (byte.of_Z_unsigned b). apply byte.unsigned_inj.
  rewrite !byte.unsigned_of_Z. unfold byte.wrap, bz in *. change (2 ^ 8) with 256.
  rewrite H, Z.mod_small; [done|]. apply byte.unsigned_range. Qed.

(** The characters of a chunk, with [x] and [y] in place of the padded ones, give its bytes. *)
Lemma b64_gather_chunk n : 0 ≤ n < 2 ^ 24 →
  b64_gather [b64_char (Z.shiftr n 18); b64_char (Z.shiftr n 12); b64_char (Z.shiftr n 6); b64_char n] 0 0
    = Some (n, 0) ∧
  (n mod 64 = 0 →
   b64_gather [b64_char (Z.shiftr n 18); b64_char (Z.shiftr n 12); b64_char (Z.shiftr n 6); "="%char] 0 0
     = Some (n, 1)) ∧
  (n mod 4096 = 0 →
   b64_gather [b64_char (Z.shiftr n 18); b64_char (Z.shiftr n 12); "="%char; "="%char] 0 0 = Some (n, 2)).
Proof.
  intros Hn. cbn [b64_gather]. rewrite !b64_char_not_pad, !b64_char_val. cbn.
  rewrite !Z.shiftr_div_pow2, !Z.shiftl_mul_pow2 by lia. rewrite !Z.lor_0_l.
  assert (∀ x y, Z.lor (x * 2 ^ 6) (y mod 64) = x * 64 + y mod 64) as Hl.
  { intros x y. rewrite <- Z.shiftl_mul_pow2, lor_low by (try apply Z.mod_pos_bound; lia). lia. }
  rewrite !Hl. split_and!; intros; f_equal; f_equal; Z.to_euclidean_division_equations; lia.
Qed.

Lemma b64_bytes_word b0 b1 b2 :
  let n := bz b0 * 65536 + bz b1 * 256 + bz b2 in
  b64_bytes n 0 = [b0; b1; b2] ∧ b64_bytes n 1 = [b0; b1] ∧ b64_bytes n 2 = [b0].
Proof.
  intros n. subst n. pose proof (bz_range b0). pose proof (bz_range b1). pose proof (bz_range b2).
  unfold b64_bytes. cbn -[Z.mul Z.add Z.shiftr]. rewrite !Z.shiftr_div_pow2 by lia.
  rewrite (u8_of_mod _ b0), (u8_of_mod _ b1), (u8_of_mod _ b2); [done|..];
    Z.to_euclidean_division_equations; lia.
Qed.

Definition significant (s : string) : list Ascii.ascii :=
  List.filter (λ a, negb (is_ascii_whitespace (code a))) (list_ascii_of_string s).

Lemma significant_chunk b0 b1 b2 len s :
  significant (b64_chunk b0 b1 b2 len +:+ s) = list_ascii_of_string (b64_chunk b0 b1 b2 len) ++ significant s.
Proof.
  unfold significant, b64_chunk. set (n := Z.lor _ b2).
  assert (∀ x, negb (is_ascii_whitespace (code (b64_char x))) = true) as Hc
    by (intros; by rewrite b64_char_not_space).
  assert (∀ b x, negb (is_ascii_whitespace (code (if b : bool then b64_char x else "="%char))) = true) as Hp
    by (intros [] ?; [apply Hc|reflexivity]).
  cbn [String.append list_ascii_of_string List.filter app]. by rewrite !Hc, !Hp.
Qed.

Lemma base64_chunks_roundtrip (d : bytes) : b64_decode_chunks (significant (base64_encode d)) = Some d.
Proof.
  remember (length d) as k eqn:Hk. revert d Hk. induction (lt_wf k) as [k _ IH]. intros d ->.
  assert (∀ b0 b1 b2, 0 ≤ bz b0 * 65536 + bz b1 * 256 + bz b2 < 2 ^ 24) as Hb.
  { intros. pose proof (bz_range b0). pose proof (bz_range b1). pose proof (bz_range b2). lia. }
  destruct d as [|b0 [|b1 [|b2 rest]]]; cbn [base64_encode]; [done|..].
  - rewrite <- (str_app_nil_r (b64_chunk _ _ _ _)), significant_chunk. unfold b64_chunk.
    rewrite b64_word by (apply bz_range || lia). cbn [list_ascii_of_string app b64_decode_chunks].
    pose proof (Hb b0 Init.Byte.x00 Init.Byte.x00) as Hz. change (bz Init.Byte.x00) with 0 in Hz.
    destruct (b64_gather_chunk _ Hz) as (_ & _ & H).
    cbn [Nat.ltb Nat.leb]. rewrite H by (Z.to_euclidean_division_equations; lia).
    cbn [mbind option_bind]. destruct (b64_bytes_word b0 Init.Byte.x00 Init.Byte.x00) as (_ & _ & Hw).
    change (bz Init.Byte.x00) with 0 in Hw. by rewrite Hw.
  - rewrite <- (str_app_nil_r (b64_chunk _ _ _ _)), significant_chunk. unfold b64_chunk.
    rewrite b64_word by (apply bz_range || lia). cbn [list_ascii_of_string app b64_decode_chunks].
    pose proof (Hb b0 b1 Init.Byte.x00) as Hz. change (bz Init.Byte.x00) with 0 in Hz.
    destruct (b64_gather_chunk _ Hz) as (_ & H & _).
    cbn [Nat.ltb Nat.leb]. rewrite H by (Z.to_euclidean_division_equations; lia).
    cbn [mbind option_bind]. destruct (b64_bytes_word b0 b1 Init.Byte.x00) as (_ & Hw & _).
    change (bz Init.Byte.x00) with 0 in Hw. by rewrite Hw.
  - rewrite significant_chunk. unfold b64_chunk. rewrite b64_word by (apply bz_range || lia).
    cbn [list_ascii_of_string app b64_decode_chunks].
    destruct (b64_gather_chunk _ (Hb b0 b1 b2)) as (H & _ & _).
    cbn [Nat.ltb Nat.leb]. rewrite H. cbn [mbind option_bind]. rewrite (IH (length rest)); [|cbn; lia|done].
    cbn [mbind option_bind]. destruct (b64_bytes_word b0 b1 b2) as (-> & _ & _). done.
Qed.

(** * Properties of values: base64 and the comparison of integers *)

(** ** Integers as floats *)

Lemma digits2_log2 p : Zpos (digits2_pos p) = Z.log2 (Zpos p) + 1.
Proof.
  induction p as [p IH|p IH|]; cbn [digits2_pos]; rewrite ?Pos2Z.inj_succ, ?IH; [..|done].
  - change (Zpos p~1) with (2 * Zpos p + 1). rewrite Z.log2_succ_double; lia.
  - change (Zpos p~0) with (2 * Zpos p). rewrite Z.log2_double; lia.
Qed.

Lemma iter_xO p d : Zpos (Pos.iter xO p d) = Zpos p * 2 ^ Zpos d.
Proof.
  induction d as [|d IH] using Pos.peano_ind; [cbn; lia|].
  rewrite Pos.iter_succ. change (Zpos (Pos.iter xO p d)~0) with (2 * Zpos (Pos.iter xO p d)).
  rewrite IH, Pos2Z.inj_succ, Z.pow_succ_r; lia.
Qed.

Lemma log2_scaled x k : 0 < x → 0 ≤ k → Z.log2 (x * 2 ^ k) = Z.log2 x + k.
Proof. intros. rewrite Z.log2_mul_pow2; lia. Qed.

(** A mantissa of full width is not rounded. *)
Lemma round_full s m e : Z.log2 (Zpos m) = 52 → -1074 ≤ e ≤ 971 →
  binary_round_aux 53 1024 s (Zpos m) e loc_Exact = S754_finite s m e.
Proof.
  intros Hm He. unfold binary_round_aux, shr_fexp, fexp, emin. cbn [Zdigits2].
  rewrite digits2_log2, Hm. replace (Z.max (52 + 1 + e - 53) (3 - 1024 - 53) - e) with 0 by lia.
  cbn [shr shr_record_of_loc loc_of_shr_record round_nearest_even shr_m Zdigits2].
  rewrite digits2_log2, Hm. replace (Z.max (52 + 1 + e - 53) (3 - 1024 - 53) - e) with 0 by lia.
  cbn [shr shr_m]. destruct (Z.leb_spec e (1024 - 53)); [done|lia].
Qed.

(** The float of an integer below [2 ^ 53]: its digits, shifted to full width. *)
Definition full_width (p : positive) : positive :=
  match (52 - Z.log2 (Zpos p))%Z with Zpos d => Pos.iter xO p d | _ => p end.

Lemma full_width_val p : Zpos p < 2 ^ 53 → Zpos (full_width p) = Zpos p * 2 ^ (52 - Z.log2 (Zpos p)).
Proof.
  intros Hp. assert (Z.log2 (Zpos p) < 53) by (apply Z.log2_lt_pow2; lia).
  unfold full_width. destruct (52 - Z.log2 (Zpos p)) eqn:E; [lia| |lia]. apply iter_xO.
Qed.

Lemma full_width_log2 p : Zpos p < 2 ^ 53 → Z.log2 (Zpos (full_width p)) = 52.
Proof.
  intros Hp. assert (Z.log2 (Zpos p) < 53) by (apply Z.log2_lt_pow2; lia).
  rewrite full_width_val, log2_scaled by lia. lia.
Qed.

Lemma round_int s p : Zpos p < 2 ^ 53 →
  binary_round 53 1024 s p 0 = S754_finite s (full_width p) (Z.log2 (Zpos p) - 52).
Proof.
  intros Hp. assert (Z.log2 (Zpos p) < 53) by (apply Z.log2_lt_pow2; lia).
  pose proof (Z.log2_nonneg (Zpos p)). unfold binary_round, fexp, emin. rewrite digits2_log2.
  replace (Z.max (Z.log2 (Zpos p) + 1 + 0 - 53) (3 - 1024 - 53)) with (Z.log2 (Zpos p) - 52) by lia.
  assert (shl_align p 0 (Z.log2 (Zpos p) - 52) = (full_width p, Z.log2 (Zpos p) - 52)) as ->.
  { unfold shl_align, full_width. rewrite Z.sub_0_r.
    destruct (Z.log2 (Zpos p) - 52) eqn:E; [|lia|].
    - replace (52 - Z.log2 (Zpos p)) with 0 by lia. done.
    - replace (52 - Z.log2 (Zpos p)) with (Zpos p0) by lia. done. }
  apply round_full; [by apply full_width_log2|lia].
Qed.

(** Normal numbers survive their bit pattern. *)
Lemma decode_encode_full s m e : Z.log2 (Zpos m) = 52 → -1074 ≤ e ≤ 971 →
  decode_f F64 (encode_f F64 (S754_finite s m e)) = S754_finite s m e.
Proof.
  intros Hm He. assert (2 ^ 52 ≤ Zpos m < 2 ^ 53) as Hr.
  { pose proof (Z.log2_spec (Zpos m) ltac:(lia)) as H. rewrite Hm in H. exact H. }
  unfold encode_f, decode_f, signed, sign_bit, bias, frac_span. cbn [f_prec f_emax F64].
  change (53 - 1) with 52. change (1024 + 53 - 2) with 1075. change (2 * 1024) with 2048.
  change (2048 * 2 ^ 52) with (2 ^ 63).
  destruct (Z.ltb_spec (Zpos m) (2 ^ 52)); [lia|].
  set (b := (e + 1075 - 1) * 2 ^ 52 + Zpos m).
  assert (b = (e + 1075) * 2 ^ 52 + (Zpos m - 2 ^ 52)) as Hb by (unfold b; lia).
  assert (0 ≤ b < 2 ^ 63) as Hbr by lia.
  assert ((if s then b + 2 ^ 63 else b) = (e + 1075 + (if s then 2048 else 0)) * 2 ^ 52 + (Zpos m - 2 ^ 52)) as Hw.
  { destruct s; lia. }
  assert ((if s then b + 2 ^ 63 else b) / 2 ^ 52 mod 2048 = e + 1075) as ->.
  { rewrite Hw, Z.div_add_l, (Z.div_small (Zpos m - 2 ^ 52)), Z.add_0_r by lia.
    destruct s; [|rewrite Z.add_0_r; apply Z.mod_small; lia].
    change 2048 with (1 * 2048) at 1. rewrite Z.mod_add, Z.mod_small; lia. }
  assert ((if s then b + 2 ^ 63 else b) mod 2 ^ 52 = Zpos m - 2 ^ 52) as ->.
  { rewrite Hw, Z.add_comm, Z.mod_add, Z.mod_small; lia. }
  assert ((2 ^ 63 <=? (if s then b + 2 ^ 63 else b)) = s) as ->.
  { destruct s; [apply Z.leb_le|apply Z.leb_gt]; lia. }
  destruct (Z.eqb_spec (e + 1075) (2048 - 1)); [lia|]. destruct (Z.eqb_spec (e + 1075) 0); [lia|].
  replace (Zpos m - 2 ^ 52 + 2 ^ 52) with (Zpos m) by lia. cbv beta iota. by rewrite Z.add_simpl_r.
Qed.

Lemma decode_of_Z z : - 2 ^ 53 < z < 2 ^ 53 →
  decode_f F64 (f_of_Z F64 z) = match z with
    | Z0 => S754_zero false
    | Zpos p => S754_finite false (full_width p) (Z.log2 (Zpos p) - 52)
    | Zneg p => S754_finite true (full_width p) (Z.log2 (Zpos p) - 52)
    end.
Proof.
  intros Hz. destruct z as [|p|p]; [done| |]; unfold f_of_Z; cbn [binary_normalize f_prec f_emax F64];
    (rewrite round_int by lia; apply decode_encode_full; [by apply full_width_log2; lia|]);
    pose proof (Z.log2_nonneg (Zpos p)); assert (Z.log2 (Zpos p) < 53) by (apply Z.log2_lt_pow2; lia); lia.
Qed.

(** Floats of integers of the same sign order by exponent, then by mantissa: like the integers. *)
Lemma compare_full p q : Zpos p < 2 ^ 53 → Zpos q < 2 ^ 53 →
  match (Z.log2 (Zpos p) - 52 ?= Z.log2 (Zpos q) - 52) with
  | Lt => Lt | Gt => Gt | Eq => Pos.compare_cont Eq (full_width p) (full_width q)
  end = (Zpos p ?= Zpos q).
Proof.
  intros Hp Hq. pose proof (Z.log2_spec (Zpos p) ltac:(lia)) as Sp.
  pose proof (Z.log2_spec (Zpos q) ltac:(lia)) as Sq. symmetry.
  destruct (Z.compare_spec (Z.log2 (Zpos p) - 52) (Z.log2 (Zpos q) - 52)) as [E|L|L].
  - change (Pos.compare_cont Eq (full_width p) (full_width q))
      with (Zpos (full_width p) ?= Zpos (full_width q)).
    rewrite !full_width_val by done. replace (Z.log2 (Zpos q)) with (Z.log2 (Zpos p)) by lia.
    assert (Z.log2 (Zpos p) < 53) by (apply Z.log2_lt_pow2; lia).
    set (k := 2 ^ (52 - Z.log2 (Zpos p))). assert (0 < k) by (apply Z.pow_pos_nonneg; lia).
    rewrite !(Z.mul_comm _ k). by rewrite <- Zmult_compare_compat_l by lia.
  - apply Z.compare_lt_iff. eapply Z.lt_le_trans; [apply Sp|]. etrans; [|apply Sq].
    apply Z.pow_le_mono_r; lia.
  - apply Z.compare_gt_iff. eapply Z.lt_le_trans; [apply Sq|]. etrans; [|apply Sp].
    apply Z.pow_le_mono_r; lia.
Qed.

Lemma f_cmp_of_Z a b : - 2 ^ 53 < a < 2 ^ 53 → - 2 ^ 53 < b < 2 ^ 53 →
  f_cmp F64 (f_of_Z F64 a) (f_of_Z F64 b) = Some (a ?= b).
Proof.
  intros Ha Hb. unfold f_cmp. rewrite !decode_of_Z by done.
  destruct a as [|p|p], b as [|q|q]; try done; cbn [SFcompare]; f_equal.
  - apply compare_full; lia.
  - change (Zneg p ?= Zneg q) with (CompOpp (Zpos p ?= Zpos q)). rewrite <- compare_full by lia.
    by destruct (_ ?= _).
Qed.

(** ** Properties *)

(** Base64 reads back: every byte string decodes from what [base64_encode] writes. *)
Theorem base64_roundtrip (d : bytes) : base64_decode (base64_encode d) = Some d.
Proof. exact (base64_chunks_roundtrip d). Qed.

(** Integers compare exactly where [f64] holds them: below [2 ^ 53] in magnitude, SQL comparison
    and equality of integers are those of the numbers, although both go through [f64]. *)
Theorem int_comparison_exact a b :
  - 2 ^ 53 < a < 2 ^ 53 → - 2 ^ 53 < b < 2 ^ 53 →
  sql_cmp (Int a) (Int b) = Some (a ?= b) ∧ sql_eq (Int a) (Int b) = Some (a =? b).
Proof.
  intros Ha Hb. assert (sql_cmp (Int a) (Int b) = Some (a ?= b)) as Hc by (by apply f_cmp_of_Z).
  split; [done|]. unfold sql_eq. rewrite Hc. cbn. by rewrite Z.eqb_compare.
Qed.

Lemma int_comparison_exact_witness :
  sql_cmp (Int (-7)) (Int 9007199254740991) = Some Lt ∧ sql_eq (Int 5) (Int 5) = Some true.
Proof.
  split; [exact (proj1 (int_comparison_exact (-7) 9007199254740991 ltac:(lia) ltac:(lia)))|].
  exact (proj2 (int_comparison_exact 5 5 ltac:(lia) ltac:(lia))).
Defined.

(** Beyond that it is lost: two different [BIGINT]s are equal to SQL, though their unique keys and
    the stored rows differ. *)
Theorem int_comparison_lossy :
  sql_eq (Int (2 ^ 53)) (Int (2 ^ 53 + 1)) = Some true ∧
  sql_cmp (Int (2 ^ 63 - 1)) (Int (2 ^ 63 - 512)) = Some Eq.
Proof. split; vm_compute; reflexivity. Qed.

(** A NaN is comparable with nothing, itself included, yet not NULL. *)
Theorem nan_not_equal_itself :
  let nan := encode_f F64 S754_nan in sql_eq (Real nan) (Real nan) = Some false.
Proof. vm_compute. reflexivity. Qed.
