(* ===== verification/Json.v ===== *)
(** * JSON documents (crates/engine/src/json.rs)

    The value model behind [->], [->>], [json_extract] and the claims of a session: a parser over
    the characters of a text, the compact serializer, and navigation by key, index and path.  The
    parser's cursor is the list of characters that are left.  [value], [elements] and [members] call
    each other on fuel; [parse] gives them enough for any input of its length. *)

From S2P Require Import Prelude Text Numbers Float Chars EngineTypes Values.

Inductive Json :=
| JNull
| JBool (b : bool)
| JNum (n : Z)
| JStr (s : string)
| JArr (l : list Json)
| JObj (m : list (string * Json)).

Section JsonInd.
Variable P : Json → Prop.
Hypothesis Hnull : P JNull.
Hypothesis Hbool : ∀ b, P (JBool b).
Hypothesis Hnum : ∀ n, P (JNum n).
Hypothesis Hstr : ∀ s, P (JStr s).
Hypothesis Harr : ∀ l, Forall P l → P (JArr l).
Hypothesis Hobj : ∀ m, Forall (λ kv, P kv.2) m → P (JObj m).

(** Induction through the elements of arrays and the members of objects. *)
Fixpoint Json_induction (j : Json) : P j :=
  match j with
  | JNull => Hnull
  | JBool b => Hbool b
  | JNum n => Hnum n
  | JStr s => Hstr s
  | JArr l => Harr l ((fix go l : Forall P l :=
      match l with [] => List.Forall_nil _ | x :: l => List.Forall_cons _ x l (Json_induction x) (go l) end) l)
  | JObj m => Hobj m ((fix go m : Forall (λ kv : string * Json, P kv.2) m :=
      match m with [] => List.Forall_nil _ | kv :: m => List.Forall_cons _ kv m (Json_induction kv.2) (go m) end) m)
  end.
End JsonInd.

(** ** Serializing *)

(** [n.fract() == 0.0 && n.is_finite() && n.abs() < 1e15] prints as an integer. *)
Definition fmt_num (n : Z) : string :=
  if small_integral F64 n then fmt_i64 (f_as_i64 F64 n) else display F64 n.

Definition hex_char (n : Z) : Z := if n <? 10 then 48 + n else 87 + n.

Definition escape_char (c : Z) : list Z :=
  if c =? 34 then [92; 34]
  else if c =? 92 then [92; 92]
  else if c =? 10 then [92; 110]
  else if c =? 13 then [92; 114]
  else if c =? 9 then [92; 116]
  else if c <? 0x20 then [92; 117; 48; 48; hex_char (c / 16); hex_char (c mod 16)]
  else [c].

Definition quote (s : string) : list Z := 34 :: concat (escape_char <$> chars s) ++ [34].

(** Items with a comma between them. *)
Fixpoint commas (l : list (list Z)) : list Z :=
  match l with [] => [] | [x] => x | x :: l => x ++ 44 :: commas l end.

Fixpoint write_json (j : Json) : list Z :=
  match j with
  | JNull => chars "null"
  | JBool b => chars (if b then "true" else "false")
  | JNum n => chars (fmt_num n)
  | JStr s => quote s
  | JArr l => 91 :: commas (write_json <$> l) ++ [93]
  | JObj m => 123 :: commas ((λ kv, quote kv.1 ++ 58 :: write_json kv.2) <$> m) ++ [125]
  end.

Definition to_json_text (j : Json) : string := of_chars (write_json j).

Definition as_text (j : Json) : option string :=
  match j with
  | JNull => None
  | JBool b => Some (if b then "true" else "false")%string
  | JNum n => Some (fmt_num n)
  | JStr s => Some s
  | JArr _ | JObj _ => Some (to_json_text j)
  end.

(** ** Parsing *)

Fixpoint ws (l : list Z) : list Z :=
  match l with c :: r => if is_ascii_whitespace c then ws r else l | [] => [] end.

Fixpoint literal (word : list Z) (val : Json) (l : list Z) : option (Json * list Z) :=
  match word, l with
  | [], _ => Some (val, l)
  | w :: word, c :: l => if c =? w then literal word val l else None
  | _ :: _, [] => None
  end.

Definition num_char (c : Z) : bool :=
  char_digit c || (c =? 45) || (c =? 43) || (c =? 46) || (c =? 101) || (c =? 69).

Fixpoint take_while (p : Z → bool) (l : list Z) : list Z * list Z :=
  match l with
  | c :: r => if p c then let '(a, b) := take_while p r in (c :: a, b) else ([], l)
  | [] => ([], [])
  end.

Definition number (l : list Z) : option (Json * list Z) :=
  match take_while num_char l with
  | ([], _) => None
  | (s, r) => n ← parse_f64 (of_chars s); Some (JNum n, r)
  end.

(** The character a one-letter escape stands for. *)
Definition unescape (e : Z) : option Z :=
  if e =? 34 then Some 34 else if e =? 92 then Some 92 else if e =? 47 then Some 47
  else if e =? 110 then Some 10 else if e =? 116 then Some 9 else if e =? 114 then Some 13
  else if e =? 98 then Some 8 else if e =? 102 then Some 12 else None.

(** What follows the opening quote, up to the closing one. *)
Fixpoint string_body (l : list Z) : option (list Z * list Z) :=
  match l with
  | [] => None
  | c :: r =>
      if c =? 34 then Some ([], r)
      else if c =? 92 then
        match r with
        | [] => None
        | e :: r =>
            if e =? 117 then
              match r with
              | h1 :: h2 :: h3 :: h4 :: r =>
                  a ← hex_digit h1; b ← hex_digit h2; c ← hex_digit h3; d ← hex_digit h4;
                  '(s, r) ← string_body r;
                  Some (default 0xFFFD (from_u32 (((a * 16 + b) * 16 + c) * 16 + d)) :: s, r)
              | _ => None
              end
            else x ← unescape e; '(s, r) ← string_body r; Some (x :: s, r)
        end
      else '(s, r) ← string_body r; Some (c :: s, r)
  end.

Definition json_string (l : list Z) : option (string * list Z) :=
  match l with
  | c :: r => if c =? 34 then '(s, r) ← string_body r; Some (of_chars s, r) else None
  | [] => None
  end.

Fixpoint value (fuel : nat) (l : list Z) : option (Json * list Z) :=
  match fuel with
  | O => None
  | S fuel =>
      match ws l with
      | [] => None
      | (c :: r) as l =>
          if c =? 123 then
            match ws r with
            | (c' :: r') as m => if c' =? 125 then Some (JObj [], r')
                               else '(o, r) ← members fuel m; Some (JObj o, r)
            | [] => None
            end
          else if c =? 91 then
            match ws r with
            | (c' :: r') as m => if c' =? 93 then Some (JArr [], r')
                               else '(a, r) ← elements fuel m; Some (JArr a, r)
            | [] => None
            end
          else if c =? 34 then '(s, r) ← json_string l; Some (JStr s, r)
          else if c =? 116 then literal (chars "true") (JBool true) l
          else if c =? 102 then literal (chars "false") (JBool false) l
          else if c =? 110 then literal (chars "null") JNull l
          else number l
      end
  end
with elements (fuel : nat) (l : list Z) : option (list Json * list Z) :=
  match fuel with
  | O => None
  | S fuel =>
      '(v, l) ← value fuel l;
      match ws l with
      | c :: r => if c =? 44 then '(vs, r) ← elements fuel r; Some (v :: vs, r)
                  else if c =? 93 then Some ([v], r) else None
      | [] => None
      end
  end
with members (fuel : nat) (l : list Z) : option (list (string * Json) * list Z) :=
  match fuel with
  | O => None
  | S fuel =>
      '(k, l) ← json_string (ws l);
      match ws l with
      | c :: l =>
          if c =? 58 then
            '(v, l) ← value fuel l;
            match ws l with
            | c :: r => if c =? 44 then '(kvs, r) ← members fuel r; Some ((k, v) :: kvs, r)
                        else if c =? 125 then Some ([(k, v)], r) else None
            | [] => None
            end
          else None
      | [] => None
      end
  end.

(** Two turns per character are more than the parser can take. *)
Definition json_fuel (l : list Z) : nat := 2 * length l + 2.

Definition parse (s : string) : option Json :=
  let l := ws (chars s) in
  match value (json_fuel l) l with
  | Some (v, r) => match ws r with [] => Some v | _ => None end
  | None => None
  end.

(** ** Navigation *)

Definition get_key (j : Json) (k : string) : option Json :=
  match j with
  | JObj m => snd <$> List.find (λ kv, String.eqb kv.1 k) m
  | _ => None
  end.

Definition get_index (j : Json) (idx : Z) : option Json :=
  match j with
  | JArr a =>
      let i := if idx <? 0 then zlen a + idx else idx in
      if i <? 0 then None else a !! Z.to_nat i
  | _ => None
  end.

(** One step of a path: a [.key] up to the next [.] or bracket, or an index up to its [\]]. *)
Fixpoint until_bracket (l : list Z) : list Z * list Z :=
  match l with
  | c :: r => if c =? 93 then ([], r) else let '(a, b) := until_bracket r in (c :: a, b)
  | [] => ([], [])
  end.

Fixpoint walk_path (fuel : nat) (p : list Z) (cur : Json) : option Json :=
  match fuel with
  | O => Some cur
  | S fuel =>
      match p with
      | [] => Some cur
      | c :: p =>
          if c =? 46 then
            let '(k, p) := take_while (λ c, negb ((c =? 46) || (c =? 91))) p in
            j ← get_key cur (of_chars k); walk_path fuel p j
          else if c =? 91 then
            let '(n, p) := until_bracket p in
            i ← parse_i64 (trim (of_chars n)); j ← get_index cur i; walk_path fuel p j
          else None
      end
  end.

Definition extract_path (j : Json) (path : string) : option Json :=
  let p := chars (default path (strip_prefix "$" path)) in
  walk_path (S (length p)) p j.

(** * Properties of the JSON parser: it ends, and it reads what the serializer writes *)

(** ** What is left gets shorter *)

Lemma ws_length l : (length (ws l) ≤ length l)%nat.
Proof. induction l as [|c l IH]; cbn; [lia|]. destruct (is_ascii_whitespace c); cbn; lia. Qed.

Lemma take_while_length p l a b : take_while p l = (a, b) → (length a + length b = length l)%nat.
Proof.
  revert a b. induction l as [|c l IH]; intros a b; cbn; [by intros [= <- <-]|].
  destruct (p c); [|by intros [= <- <-]]. destruct (take_while p l) as [a' b'].
  intros [= <- <-]. cbn. rewrite <- (IH a' b'); done.
Qed.

Lemma literal_length w v l v' r : literal w v l = Some (v', r) → (length l = length w + length r)%nat.
Proof.
  revert l. induction w as [|c w IH]; intros [|x l]; cbn; try by intros [= <- <-].
  destruct (x =? c); [|done]. intros H%IH. lia.
Qed.

Lemma json_number_length l v r : number l = Some (v, r) → (length r < length l)%nat.
Proof.
  unfold number. destruct (take_while num_char l) as [[|c s] r'] eqn:E; [done|].
  apply take_while_length in E. cbn in E. destruct (parse_f64 _); [|done]. intros [= <- <-]. lia.
Qed.

Lemma string_body_length l s r : string_body l = Some (s, r) → (length r < length l)%nat.
Proof.
  remember (length l) as n eqn:Hn. revert l s r Hn. induction (lt_wf n) as [n _ IH].
  intros l s r -> H. destruct l as [|c l]; [done|]. cbn [string_body] in H. revert H.
  assert (∀ k x r', (length k < length (c :: l))%nat →
    ('(s, r) ← string_body k; Some (x :: s, r)) = Some (s, r') → (length r' < length (c :: l))%nat) as Hgo.
  { intros k x r' Hk. destruct (string_body k) as [[s' r'']|] eqn:E; [|done]. cbn. intros [= _ <-].
    specialize (IH _ Hk _ _ _ eq_refl E). cbn in *. lia. }
  destruct (c =? 34); [intros [= _ <-]; cbn; lia|].
  destruct (c =? 92); [|apply Hgo; cbn; lia].
  destruct l as [|e l]; [done|]. destruct (e =? 117).
  - destruct l as [|h1 [|h2 [|h3 [|h4 l]]]]; try done. intros H.
    repeat (match type of H with context [hex_digit ?h] => destruct (hex_digit h); [cbn [mbind option_bind] in H|done] end).
    eapply Hgo; [|exact H]. cbn. lia.
  - destruct (unescape e) as [x|]; [|done]. apply Hgo. cbn. lia.
Qed.

Lemma json_string_length l s r : json_string l = Some (s, r) → (length r < length l)%nat.
Proof.
  destruct l as [|c l]; [done|]. cbn. destruct (c =? 34); [|done].
  destruct (string_body l) as [[s' r']|] eqn:E; [|done]. cbn. intros [= _ <-].
  apply string_body_length in E. lia.
Qed.

Lemma parser_shrinks fuel :
  (∀ l v r, value fuel l = Some (v, r) → (length r < length l)%nat) ∧
  (∀ l v r, elements fuel l = Some (v, r) → (length r < length l)%nat) ∧
  (∀ l v r, members fuel l = Some (v, r) → (length r < length l)%nat).
Proof.
  induction fuel as [|fuel (IHv & IHe & IHm)]; [done|]. split_and!; intros l v r.
  - cbn [value]. pose proof (ws_length l) as Hl. destruct (ws l) as [|c l']; [done|]. cbn in Hl.
    pose proof (ws_length l') as Hl'.
    destruct (c =? 123); [|destruct (c =? 91)].
    + destruct (ws l') as [|c' r'] eqn:E; [done|]. cbn in Hl'.
      destruct (c' =? 125); [intros [= _ <-]; lia|].
      destruct (members fuel (c' :: r')) as [[o r'']|] eqn:Em; [|done]. cbn. intros [= _ <-].
      apply IHm in Em. cbn in Em. lia.
    + destruct (ws l') as [|c' r'] eqn:E; [done|]. cbn in Hl'.
      destruct (c' =? 93); [intros [= _ <-]; lia|].
      destruct (elements fuel (c' :: r')) as [[o r'']|] eqn:Em; [|done]. cbn. intros [= _ <-].
      apply IHe in Em. cbn in Em. lia.
    + repeat match goal with |- context [if ?b then _ else _] => destruct b end.
      * destruct (json_string (c :: l')) as [[s r']|] eqn:E; [|done]. intros [= _ <-].
        apply json_string_length in E. cbn in E. lia.
      * intros H%literal_length. change (length (chars "true")) with 4%nat in H. cbn in H. lia.
      * intros H%literal_length. change (length (chars "false")) with 5%nat in H. cbn in H. lia.
      * intros H%literal_length. change (length (chars "null")) with 4%nat in H. cbn in H. lia.
      * intros H%json_number_length. cbn in H. lia.
  - cbn [elements]. destruct (value fuel l) as [[v0 l']|] eqn:E; [|done]. apply IHv in E. cbn.
    pose proof (ws_length l'). destruct (ws l') as [|c r']; [done|]. cbn in *.
    destruct (c =? 44).
    + destruct (elements fuel r') as [[vs r'']|] eqn:Ee; [|done]. apply IHe in Ee. cbn. intros [= _ <-]. lia.
    + destruct (c =? 93); [|done]. intros [= _ <-]. lia.
  - cbn [members]. pose proof (ws_length l). destruct (json_string (ws l)) as [[k l1]|] eqn:Ek; [|done].
    apply json_string_length in Ek. cbn. pose proof (ws_length l1). destruct (ws l1) as [|c l2]; [done|].
    destruct (c =? 58); [|done]. cbn in *. destruct (value fuel l2) as [[v0 l']|] eqn:E; [|done]. apply IHv in E. cbn.
    pose proof (ws_length l'). destruct (ws l') as [|c' r']; [done|]. cbn in *.
    destruct (c' =? 44).
    + destruct (members fuel r') as [[vs r'']|] eqn:Ee; [|done]. apply IHm in Ee. cbn. intros [= _ <-]. lia.
    + destruct (c' =? 125); [|done]. intros [= _ <-]. lia.
Qed.

(** ** Fuel beyond two turns a character changes nothing *)

Lemma parser_fuel n : ∀ f f', (n ≤ f)%nat → (n ≤ f')%nat →
  (∀ l, (2 * length l + 1 ≤ n)%nat → value f l = value f' l) ∧
  (∀ l, (2 * length l + 2 ≤ n)%nat → elements f l = elements f' l) ∧
  (∀ l, (2 * length l + 2 ≤ n)%nat → members f l = members f' l).
Proof.
  induction n as [|n IH]; intros f f' Hf Hf'; [split_and!; intros; lia|].
  destruct f as [|f], f' as [|f']; [lia..|]. destruct (IH f f' ltac:(lia) ltac:(lia)) as (IHv & IHe & IHm).
  destruct (parser_shrinks f) as (Sv & _ & _). split_and!; intros l Hl.
  - cbn [value]. pose proof (ws_length l) as Hw. destruct (ws l) as [|c r]; [done|]. cbn in Hw.
    pose proof (ws_length r). destruct (ws r) as [|c' r'] eqn:E; [done|]. cbn in *.
    rewrite (IHm (c' :: r')), (IHe (c' :: r')) by (cbn; lia). done.
  - cbn [elements]. rewrite <- IHv by lia. destruct (value f l) as [[v l']|] eqn:E; [|done]. apply Sv in E. cbn.
    pose proof (ws_length l'). destruct (ws l') as [|c r]; [done|]. cbn in *. by rewrite IHe by lia.
  - cbn [members]. pose proof (ws_length l). destruct (json_string (ws l)) as [[k l1]|] eqn:Ek; [|done].
    apply json_string_length in Ek. cbn. pose proof (ws_length l1). destruct (ws l1) as [|c l2]; [done|].
    destruct (c =? 58); [|done]. cbn in *. rewrite <- IHv by lia.
    destruct (value f l2) as [[v l']|] eqn:E; [|done]. apply Sv in E. cbn.
    pose proof (ws_length l'). destruct (ws l') as [|c' r]; [done|]. cbn in *. by rewrite IHm by lia.
Qed.

(** ** Reading back *)

(** The characters a document's strings are made of, and numbers whose text reads back. *)
Definition text_ok (s : string) : Prop :=
  ∃ l, Forall (λ c, is_scalar c = true) l ∧ s = of_chars l.

Definition num_ok (n : Z) : Prop :=
  parse_f64 (fmt_num n) = Some n ∧ text_ok (fmt_num n) ∧
  forallb num_char (chars (fmt_num n)) = true.

Fixpoint json_ok (j : Json) : Prop :=
  match j with
  | JNum n => num_ok n
  | JStr s => text_ok s
  | JArr l => foldr (λ j P, json_ok j ∧ P) True l
  | JObj m => foldr (λ kv P, (text_ok kv.1 ∧ json_ok kv.2) ∧ P) True m
  | _ => True
  end.

(** What may follow a value: nothing a number would take in. *)
Definition ends_value (r : list Z) : Prop := match r with c :: _ => num_char c = false | [] => True end.

Lemma text_ok_chars s : text_ok s → of_chars (chars s) = s ∧ Forall (λ c, is_scalar c = true) (chars s).
Proof.
  intros (l & Hl & ->). assert (chars (of_chars l) = l) as ->.
  { apply chars_of_chars. eapply Forall_impl; [exact Hl|]. cbn. unfold is_scalar. intros c Hc. lia. }
  done.
Qed.

Lemma hex_char_digit n : 0 ≤ n < 16 → hex_digit (hex_char n) = Some n.
Proof.
  intros Hn. assert (forallb (λ k, bool_decide (hex_digit (hex_char (Z.of_nat k)) = Some (Z.of_nat k))) (seq 0 16) = true)
    as H by reflexivity.
  rewrite forallb_forall in H. specialize (H (Z.to_nat n)). rewrite Z2Nat.id in H by lia.
  specialize (H ltac:(apply in_seq; lia)). by apply bool_decide_eq_true_1 in H.
Qed.

Lemma string_body_escape c l s r : is_scalar c = true → string_body l = Some (s, r) →
  string_body (escape_char c ++ l) = Some (c :: s, r).
Proof.
  intros Hc Hl. unfold escape_char. destruct (Z.eqb_spec c 34) as [->|]; [cbn; by rewrite Hl|].
  destruct (Z.eqb_spec c 92) as [->|]; [cbn; by rewrite Hl|].
  destruct (Z.eqb_spec c 10) as [->|]; [cbn; by rewrite Hl|].
  destruct (Z.eqb_spec c 13) as [->|]; [cbn; by rewrite Hl|].
  destruct (Z.eqb_spec c 9) as [->|]; [cbn; by rewrite Hl|].
  destruct (Z.ltb_spec c 0x20).
  - assert (0 ≤ c) by (unfold is_scalar in Hc; lia). cbn [app string_body].
    change (92 =? 34) with false. change (92 =? 92) with true. change (117 =? 117) with true. cbv beta iota.
    change (hex_digit 48) with (Some 0). cbn [mbind option_bind].
    rewrite !hex_char_digit by (Z.to_euclidean_division_equations; lia). cbn [mbind option_bind]. rewrite Hl.
    cbn [mbind option_bind]. unfold from_u32.
    replace (((0 * 16 + 0) * 16 + c / 16) * 16 + c mod 16) with c by (Z.to_euclidean_division_equations; lia).
    by rewrite Hc.
  - cbn. destruct (Z.eqb_spec c 34); [done|]. destruct (Z.eqb_spec c 92); [done|]. by rewrite Hl.
Qed.

Lemma string_body_quoted l r : Forall (λ c, is_scalar c = true) l →
  string_body (concat (escape_char <$> l) ++ 34 :: r) = Some (l, r).
Proof.
  intros Hl. induction Hl as [|c l Hc Hl IH]; [done|]. cbn [fmap list_fmap concat].
  rewrite <- app_assoc. by apply string_body_escape.
Qed.

Lemma json_string_quote s r : text_ok s → json_string (quote s ++ r) = Some (s, r).
Proof.
  intros [Hs Hf]%text_ok_chars. unfold quote. cbn [app json_string]. change (34 =? 34) with true. cbv beta iota.
  rewrite <- app_assoc. cbn [app]. rewrite string_body_quoted by done. cbn. by rewrite Hs.
Qed.

Lemma literal_word w v r : literal w v (w ++ r) = Some (v, r).
Proof. induction w as [|c w IH]; cbn; [by destruct r|]. by rewrite Z.eqb_refl. Qed.

Lemma take_while_all p l r : forallb p l = true → match r with c :: _ => p c = false | [] => True end →
  take_while p (l ++ r) = (l, r).
Proof.
  intros Hl Hr. induction l as [|c l IH]; cbn.
  - destruct r as [|c r]; [done|]. cbn. by rewrite Hr.
  - cbn in Hl. apply andb_prop in Hl as [-> Hl]. by rewrite IH.
Qed.

Lemma number_reads n r : num_ok n → ends_value r → number (chars (fmt_num n) ++ r) = Some (JNum n, r).
Proof.
  intros (Hp & Ht & Hc) Hr. unfold number. rewrite take_while_all by done.
  apply text_ok_chars in Ht as [Ht _].
  destruct (chars (fmt_num n)) as [|c l] eqn:E.
  - cbn in Ht. rewrite <- Ht in Hp. done.
  - by rewrite Ht, Hp.
Qed.

Lemma num_char_not_space c : num_char c = true → is_ascii_whitespace c = false.
Proof. unfold num_char, char_digit, is_ascii_whitespace. lia. Qed.

Lemma write_json_head j : json_ok j →
  ∃ c l, write_json j = c :: l ∧ is_ascii_whitespace c = false ∧ c ≠ 93 ∧ c ≠ 125.
Proof.
  destruct j as [|[]|n|s|l|m]; intros Hj; [eexists _, _; split_and!; [reflexivity|done..]..| | | | ].
  - destruct Hj as (Hp & Ht & Hc). apply text_ok_chars in Ht as [Ht _]. cbn [write_json].
    destruct (chars (fmt_num n)) as [|c l]; [cbn in Ht; by rewrite <- Ht in Hp|]. exists c, l. cbn in Hc.
    assert (num_char c = true) as Hn by (by destruct (num_char c)).
    split_and!; [done|by apply num_char_not_space|..]; intros ->; done.
  - eexists _, _. split_and!; [reflexivity|done..].
  - eexists _, _. split_and!; [reflexivity|done..].
  - eexists _, _. split_and!; [reflexivity|done..].
Qed.

Lemma ws_stays c l : is_ascii_whitespace c = false → ws (c :: l) = c :: l.
Proof. intros H. cbn. by rewrite H. Qed.

(** A written value reads back whatever follows it. *)
Definition value_reads (j : Json) : Prop := json_ok j →
  ∀ fuel r, ends_value r → (2 * length (write_json j) + 1 ≤ fuel)%nat →
  value fuel (write_json j ++ r) = Some (j, r).

Lemma elements_read l : Forall value_reads l → json_ok (JArr l) → l ≠ [] → ∀ fuel r,
  (2 * length (commas (write_json <$> l)) + 2 ≤ fuel)%nat →
  elements fuel (commas (write_json <$> l) ++ 93 :: r) = Some (l, r).
Proof.
  induction l as [|j l IH]; [done|]. intros [Hj Hl]%Forall_cons [Hok Hoks] _ [|fuel] r Hf; [lia|].
  destruct l as [|j' l].
  - cbn [commas fmap list_fmap elements app] in *.
    rewrite (Hj Hok) by (done || lia). done.
  - change (commas (write_json <$> (j :: j' :: l)))
      with (write_json j ++ 44 :: commas (write_json <$> (j' :: l))) in *.
    rewrite length_app in Hf. cbn [length] in Hf.
    rewrite <- app_assoc. cbn [app elements]. rewrite (Hj Hok) by (done || lia).
    cbn [mbind option_bind]. rewrite ws_stays by done. change (44 =? 44) with true. cbv beta iota.
    rewrite IH by (done || lia). done.
Qed.

Definition write_member (kv : string * Json) : list Z := quote kv.1 ++ 58 :: write_json kv.2.

Lemma members_read m : Forall (λ kv, value_reads kv.2) m → json_ok (JObj m) → m ≠ [] → ∀ fuel r,
  (2 * length (commas (write_member <$> m)) + 2 ≤ fuel)%nat →
  members fuel (commas (write_member <$> m) ++ 125 :: r) = Some (m, r).
Proof.
  induction m as [|[k j] m IH]; [done|]. intros [Hj Hl]%Forall_cons [[Hk Hok] Hoks] _ [|fuel] r Hf; [lia|].
  cbn [fst snd] in *.
  assert (∀ rest, members (S fuel) ((quote k ++ 58 :: write_json j) ++ rest) =
    '(v, l) ← value fuel (write_json j ++ rest);
     match ws l with
     | c :: r => if c =? 44 then '(kvs, r) ← members fuel r; Some ((k, v) :: kvs, r)
                 else if c =? 125 then Some ([(k, v)], r) else None
     | [] => None
     end) as Hstep.
  { intros rest. cbn [members]. rewrite <- app_assoc.
    assert (ws (quote k ++ (58 :: write_json j) ++ rest) = quote k ++ (58 :: write_json j) ++ rest) as -> by done.
    rewrite json_string_quote by done. cbn [mbind option_bind app]. rewrite ws_stays by done. done. }
  destruct m as [|kv m].
  - change (commas (write_member <$> [(k, j)])) with (quote k ++ 58 :: write_json j) in *.
    rewrite length_app in Hf. cbn [length] in Hf. rewrite Hstep, (Hj Hok) by (done || lia). done.
  - change (commas (write_member <$> ((k, j) :: kv :: m)))
      with ((quote k ++ 58 :: write_json j) ++ 44 :: commas (write_member <$> (kv :: m))) in *.
    rewrite !length_app in Hf. cbn [length] in Hf. rewrite <- app_assoc, Hstep, (Hj Hok) by (done || lia).
    cbn [mbind option_bind app]. rewrite ws_stays by done. change (44 =? 44) with true. cbv beta iota.
    rewrite IH by (done || lia). done.
Qed.

Lemma all_values_read j : value_reads j.
Proof.
  induction j as [|b|n|s|l IH|m IH] using Json_induction; intros Hok [|fuel] r Hr Hf; try lia.
  - done.
  - by destruct b.
  - destruct (write_json_head (JNum n) Hok) as (c & t & Hw & Hs & _). pose proof Hok as (_ & _ & Hc).
    pose proof (number_reads n r Hok Hr) as Hn. change (write_json (JNum n)) with (chars (fmt_num n)) in *.
    rewrite Hw in *. cbn [value app]. rewrite ws_stays by done.
    assert (num_char c = true) as Hnc by (cbn in Hc; by destruct (num_char c)).
    repeat match goal with |- context [c =? ?k] =>
      destruct (Z.eqb_spec c k) as [->|_]; [done|] end. exact Hn.
  - cbn [value write_json]. unfold quote. cbn [app]. rewrite ws_stays by done.
    change (34 =? 123) with false. change (34 =? 91) with false. change (34 =? 34) with true. cbv beta iota.
    change (34 :: (concat (escape_char <$> chars s) ++ [34]) ++ r) with (quote s ++ r).
    by rewrite json_string_quote.
  - cbn [value write_json app]. rewrite ws_stays by done. change (91 =? 123) with false.
    change (91 =? 91) with true. cbv beta iota. rewrite <- app_assoc. cbn [app].
    destruct l as [|j l]; [done|]. cbn [write_json length] in Hf. rewrite length_app in Hf. cbn [length] in Hf.
    destruct (write_json_head j) as (c & t & Hw & Hs & Hne & _); [apply Hok|].
    assert (∃ t', commas (write_json <$> (j :: l)) = c :: t') as [t' Ht'].
    { destruct l; cbn; rewrite Hw; by eexists. }
    pose proof (elements_read (j :: l) IH Hok ltac:(done) fuel r ltac:(lia)) as He. rewrite Ht' in *.
    cbn [app] in *. rewrite ws_stays by done. destruct (Z.eqb_spec c 93); [done|]. by rewrite He.
  - change (write_json (JObj m)) with (123 :: commas (write_member <$> m) ++ [125]) in *.
    cbn [value app]. rewrite ws_stays by done.
    change (123 =? 123) with true. cbv beta iota. rewrite <- app_assoc. cbn [app].
    destruct m as [|kv m]; [done|]. cbn [length] in Hf. rewrite length_app in Hf. cbn [length] in Hf.
    pose proof (members_read (kv :: m) IH Hok ltac:(done) fuel r ltac:(lia)) as He.
    assert (∃ t', commas (write_member <$> (kv :: m)) = 34 :: t') as [t' Ht'].
    { destruct m; cbn; by eexists. }
    rewrite Ht' in *. cbn [app] in *. rewrite ws_stays by done. change (34 =? 125) with false. cbv beta iota.
    by rewrite He.
Qed.

Definition in_unicode (c : Z) : Prop := 0 ≤ c < 0x110000.

Lemma scalar_in_unicode l : Forall (λ c, is_scalar c = true) l → Forall in_unicode l.
Proof. intros H. eapply Forall_impl; [exact H|]. cbn. unfold is_scalar, in_unicode. intros. lia. Qed.

Lemma in_unicode_forallb l : forallb is_scalar l = true → Forall in_unicode l.
Proof.
  intros H. apply scalar_in_unicode, Forall_forall. intros c Hc. rewrite forallb_forall in H.
  apply H. by apply list_elem_of_In.
Qed.

Lemma commas_in_unicode l : Forall (Forall in_unicode) l → Forall in_unicode (commas l).
Proof.
  intros H. induction H as [|x l Hx Hl IH]; [done|]. destruct l as [|y l]; [done|].
  change (commas (x :: y :: l)) with (x ++ 44 :: commas (y :: l)).
  apply Forall_app. split; [done|]. constructor; [by unfold in_unicode|done].
Qed.

Lemma quote_in_unicode s : text_ok s → Forall in_unicode (quote s).
Proof.
  intros [_ Hs]%text_ok_chars. unfold quote. constructor; [by unfold in_unicode|].
  apply Forall_app. split; [|by apply Forall_singleton].
  induction Hs as [|c l Hc Hl IH]; [done|]. cbn. apply Forall_app. split; [|done].
  assert (0 ≤ c < 0x110000) as Hr by (unfold is_scalar in Hc; lia).
  unfold escape_char, hex_char, in_unicode.
  repeat match goal with |- context [if ?b then _ else _] => destruct b eqn:?E end;
    repeat (apply Forall_cons_2); try apply Forall_nil_2; Z.to_euclidean_division_equations; lia.
Qed.

Lemma write_json_in_unicode j : json_ok j → Forall in_unicode (write_json j).
Proof.
  induction j as [|b|n|s|l IH|m IH] using Json_induction; intros Hok.
  - by apply (in_unicode_forallb (chars "null")).
  - destruct b; [by apply (in_unicode_forallb (chars "true"))|by apply (in_unicode_forallb (chars "false"))].
  - destruct Hok as (_ & [_ Ht]%text_ok_chars & _). by apply scalar_in_unicode.
  - by apply quote_in_unicode.
  - cbn [write_json]. constructor; [by unfold in_unicode|].
    apply Forall_app. split; [|by constructor].
    apply commas_in_unicode. cbn [json_ok] in Hok. induction IH as [|j l Hj Hl IHl]; [constructor|].
    destruct Hok as [Hk Hok]. cbn. constructor; auto.
  - change (write_json (JObj m)) with (123 :: commas (write_member <$> m) ++ [125]).
    constructor; [by unfold in_unicode|]. apply Forall_app. split; [|by constructor].
    apply commas_in_unicode. cbn [json_ok] in Hok. induction IH as [|[k j] m Hj Hl IHm]; [constructor|].
    destruct Hok as [[Hk Hv] Hok]. rewrite fmap_cons. constructor; [|auto]. apply Forall_app.
    split; [by apply quote_in_unicode|]. constructor; [by unfold in_unicode|auto].
Qed.

(** ** Properties *)

(** JSON reads back: a document whose strings are text and whose numbers read back from their
    decimals is what [parse] makes of its serialization. *)
Theorem json_roundtrip j : json_ok j → parse (to_json_text j) = Some j.
Proof.
  intros Hok. unfold parse, to_json_text. rewrite chars_of_chars by (by apply write_json_in_unicode).
  destruct (write_json_head j Hok) as (c & l & Hw & Hs & _).
  assert (ws (write_json j) = write_json j) as -> by (rewrite Hw; by apply ws_stays).
  pose proof (all_values_read j Hok (json_fuel (write_json j)) [] I ltac:(unfold json_fuel; lia)) as H.
  rewrite app_nil_r in H. by rewrite H.
Qed.

(** The parser ends within its fuel: more turns than [parse] grants it never change the result,
    on any text, well formed or not. *)
Theorem json_parse_terminates s extra :
  let l := ws (chars s) in value (json_fuel l + extra) l = value (json_fuel l) l.
Proof.
  intros l. destruct (parser_fuel (json_fuel l) (json_fuel l + extra) (json_fuel l)) as (H & _ & _); [lia..|].
  apply H. unfold json_fuel. lia.
Qed.

Definition demo_json : Json :=
  JObj [("a"%string, JArr [JNum (f_of_Z F64 12); JNull; JBool true]); ("b"%string, JStr (of_chars [34; 233; 1]))].

Lemma json_roundtrip_witness : parse (to_json_text demo_json) = Some demo_json.
Proof.
  apply (json_roundtrip demo_json). cbn [demo_json json_ok foldr fst snd].
  assert (∀ l, forallb is_scalar l = true → text_ok (of_chars l)) as Ht.
  { intros l Hl. exists l. split; [|done]. apply Forall_forall. intros c Hc.
    rewrite forallb_forall in Hl. apply Hl. by apply list_elem_of_In. }
  split_and!; try done.
  - exact (Ht [97] eq_refl).
  - split_and!; [by vm_compute| |by vm_compute].
    replace (fmt_num (f_of_Z F64 12)) with (of_chars [49; 50]) by (by vm_compute). by apply Ht.
  - exact (Ht [98] eq_refl).
  - by apply Ht.
Defined.

(** An escaped surrogate pair, JSON's way to write a character beyond U+FFFF, is read as two
    replacement characters. *)
Theorem json_surrogates_lost :
  parse (of_chars ([34] ++ chars "\ud83d\ude00" ++ [34])) = Some (JStr (of_chars [0xFFFD; 0xFFFD])).
Proof. vm_compute. reflexivity. Qed.

(** A key that occurs twice reads as its first value. *)
Theorem json_first_key_wins :
  get_key (JObj [("a"%string, JBool false); ("a"%string, JBool true)]) "a" = Some (JBool false).
Proof. reflexivity. Qed.
