(* ===== verification/Session.v ===== *)
(** * The session principal (crates/engine/src/session.rs)

    The role, claims and bypass flag a connection carries; row-level-security predicates read them
    through [auth.uid()], [auth.role()] and [auth.claim(k)]. *)

From S2P Require Import Prelude Text Numbers Float Chars EngineTypes Values Json.

Definition ANON_ROLE : string := "anon".

Record SessionContext := mkSession {
  s_role : option string;
  s_claims : option string;
  s_bypass : bool
}.

Definition SessionContext_default : SessionContext := mkSession None None false.

Definition role (s : SessionContext) : string := default ANON_ROLE (s_role s).
Definition set_role (r : option string) (s : SessionContext) : SessionContext :=
  mkSession r (s_claims s) (s_bypass s).
Definition set_claims (c : option string) (s : SessionContext) : SessionContext :=
  mkSession (s_role s) c (s_bypass s).
Definition set_bypass (on : bool) (s : SessionContext) : SessionContext :=
  mkSession (s_role s) (s_claims s) on.

Definition claim (s : SessionContext) (k : string) : option string :=
  raw ← s_claims s; j ← parse raw; v ← get_key j k; as_text v.
Definition uid (s : SessionContext) : option string := claim s "sub".
