(* ===== verification/Funcs.v ===== *)
(** * Scalar functions (crates/engine/src/exec.rs, [call_func] and what it calls)

    A function call is a result, an SQL error, or a panic of the engine's thread.  The clock, the
    random generator, the Unicode case tables and the transcendental functions of the platform are
    the record [Host]: [rng_u64 k] is what the [k]th draw of the call gives. *)

From S2P Require Import Prelude Text Numbers Float Chars EngineTypes Values Json Datetime.

#[local] Open Scope i64_scope.

(** ** Outcomes *)

Inductive Fault := Failed (s : EngineStatus) | Panicked.
Abbreviation Res A := (Result Fault A).
Definition sql_error {A} : Res A := Err (Failed ErrSql).
Definition panic {A} : Res A := Err Panicked.

Record Host := mkHost {
  now_epoch : Z;
  rng_u64 : nat → Z;
  str_to_lowercase : string → string;
  str_to_uppercase : string → string;
  f64_exp : Z → Z;
  f64_ln : Z → Z;
  f64_log10 : Z → Z;
  f64_powf : Z → Z → Z;
  f64_powi : Z → Z → Z
}.

(** ** Helpers *)

Definition text_of (v : Value) : string := default ""%string (render v).

Definition arg (args : list Value) (i : nat) : option Value := args !! i.
(** A present argument that is not NULL. *)
Definition some_arg (args : list Value) (i : nat) : option Value :=
  match args !! i with Some Null | None => None | o => o end.

Definition num_arg (args : list Value) (i : nat) : option Z :=
  match args !! i with
  | Some (Int n) => Some (f_of_Z F64 n)
  | Some (Real r) => Some r
  | Some (TextV s) => parse_f64 (trim s)
  | _ => None
  end.

Definition map_text (args : list Value) (f : string → string) : Value :=
  match some_arg args 0 with Some v => TextV (f (text_of v)) | None => Null end.

Definition unary_real (args : list Value) (f : Z → Z) : Res Value :=
  match args !! 0%nat with
  | Some Null | None => Ok Null
  | Some (Int n) => Ok (Real (f (f_of_Z F64 n)))
  | Some (Real r) => Ok (Real (f r))
  | Some _ => sql_error
  end.

(** The first argument that compares as [want] with the ones after it; NULLs are skipped. *)
Definition extreme (args : list Value) (want : comparison) : Value :=
  match List.filter (λ v, negb (is_null v)) args with
  | [] => Null
  | a :: l => foldl (λ a b, match sql_cmp a b, want with
                            | Some Lt, Lt | Some Gt, Gt => a
                            | _, _ => b
                            end) a l
  end.

Definition sat_i32 (n : Z) : Z := Z.max (- 2 ^ 31) (Z.min (2 ^ 31 - 1) n).

Definition round_func (h : Host) (args : list Value) : Res Value :=
  let go x := match num_arg args 1 with
              | Some n => let f := f64_powi h (f_of_Z F64 10) (sat_i32 (f_as_i64 F64 n)) in
                          Real (f_div F64 (f_round F64 (f_mul F64 x f)) f)
              | None => Int (f_as_i64 F64 (f_round F64 x))
              end in
  match args !! 0%nat with
  | Some Null | None => Ok Null
  | Some (Int i) => Ok (if (length args <? 2)%nat then Int i else go (f_of_Z F64 i))
  | Some (Real r) => Ok (go r)
  | Some _ => sql_error
  end.

(** ** Strings *)

Definition clamp (lo hi x : Z) : Z := Z.max lo (Z.min hi x).
Definition sub_chars (l : list Z) (i j : Z) : string :=
  of_chars (take (Z.to_nat (j - i)) (drop (Z.to_nat i) l)).

Definition substr_func (args : list Value) : Value :=
  match some_arg args 0 with
  | None => Null
  | Some v =>
      let l := chars (text_of v) in
      let n := zlen l in
      match num_arg args 1 with
      | None => Null
      | Some f =>
          let start := f_as_i64 F64 f in
          let from1 := if start <? 0 then n +! start +! 1 else start in
          let begin := clamp 0 n (from1 -! 1) in
          match args !! 2%nat with
          | Some Null => Null
          | Some _ =>
              let len := f_as_i64 F64 (default f_zero (num_arg args 2)) in
              TextV (sub_chars l begin (Z.max begin (clamp 0 n (from1 -! 1 +! len))))
          | None => TextV (sub_chars l begin (Z.max begin n))
          end
      end
  end.

Definition instr_func (hay needle : option Value) : Value :=
  match hay, needle with
  | Some h, Some n =>
      if is_null h || is_null n then Null
      else match split_once (text_of n) (text_of h) with
           | Some (before, _) => Int (zlen (chars before) + 1)
           | None => Int 0
           end
  | _, _ => Null
  end.

Definition side_func (args : list Value) (left : bool) : Value :=
  match some_arg args 0 with
  | None => Null
  | Some v =>
      let l := chars (text_of v) in
      let n := zlen l in
      match num_arg args 1 with
      | None => Null
      | Some f =>
          let k := f_as_i64 F64 f in
          let take := if 0 <=? k then Z.min k n else Z.max (n +! k) 0 in
          TextV (if left then sub_chars l 0 take else sub_chars l (n - take) n)
      end
  end.

(** [fill] repeated to [n] characters. *)
Definition cycle (fill : list Z) (n : nat) : list Z :=
  (λ i, default 0 (fill !! (i mod length fill)%nat)) <$> seq 0 n.

Definition pad_func (args : list Value) (left : bool) : Value :=
  match some_arg args 0 with
  | None => Null
  | Some v =>
      match num_arg args 1 with
      | None => Null
      | Some f =>
          let s := text_of v in
          let len := Z.max (f_as_i64 F64 f) 0 in
          let fill := match some_arg args 2 with Some v => text_of v | None => " "%string end in
          let l := chars s in
          if (len <=? zlen l) || String.eqb fill "" then TextV (of_chars (take (Z.to_nat len) l))
          else let pad := of_chars (cycle (chars fill) (Z.to_nat (len - zlen l))) in
               TextV (if left then pad +:+ s else s +:+ pad)
      end
  end.

(** [s.replace(from, to)]: occurrences from the left, without overlap. *)
Fixpoint replace_go (fuel : nat) (from to s : string) : string :=
  match fuel with
  | O => s
  | S fuel => match split_once from s with
              | Some (before, after) => before +:+ to +:+ replace_go fuel from to after
              | None => s
              end
  end.
Definition str_replace (from to s : string) : string :=
  if String.eqb from "" then to +:+ foldr (λ c r, of_char c +:+ to +:+ r) ""%string (chars s)
  else replace_go (S (String.length s)) from to s.

Fixpoint str_repeat (s : string) (n : nat) : string :=
  match n with O => "" | S n => s +:+ str_repeat s n end.
(** [str::repeat] panics when the length passes [isize::MAX]. *)
Definition repeat_func (s : string) (n : Z) : Res Value :=
  if 2 ^ 63 <=? zlen (list_ascii_of_string s) * n then panic else Ok (TextV (str_repeat s (Z.to_nat n))).

Definition hex_upper (n : Z) : Ascii.ascii := of_code (if n <? 10 then 48 + n else 55 + n).
Fixpoint to_hex (b : bytes) : string :=
  match b with
  | [] => EmptyString
  | x :: b => String (hex_upper (bz x / 16)) (String (hex_upper (bz x mod 16)) (to_hex b))
  end.

(** [{}-{}-{}-{}-{}] over the draw's bytes with version and variant set. *)
Definition gen_uuid_v4 (h : Host) : string :=
  let b := u64_le (rng_u64 h 0) ++ u64_le (rng_u64 h 1) in
  let set i f b := alter f i b in
  let b := set 6%nat (λ x, u8_of (Z.lor (Z.land (bz x) 0x0F) 0x40)) b in
  let b := set 8%nat (λ x, u8_of (Z.lor (Z.land (bz x) 0x3F) 0x80)) b in
  let x := to_ascii_lowercase (to_hex b) in
  join_str "-" [String.substring 0 8 x; String.substring 8 4 x; String.substring 12 4 x;
                String.substring 16 4 x; String.substring 20 12 x].

(** ** Dates *)

Definition value_to_epoch (h : Host) (v : option Value) : option Z :=
  match v with
  | Some (Int i) => Some i
  | Some (Real r) => Some (f_as_i64 F64 r)
  | Some (TextV s) =>
      let t := trim s in
      if eq_ignore_ascii_case t "now" then Some (now_epoch h)
      else match parse_epoch_secs t with Some e => Some e | None => parse_i64 t end
  | _ => None
  end.

Definition map_epoch (h : Host) (v : option Value) (f : Z → string) : Value :=
  match value_to_epoch h v with Some e => TextV (f e) | None => Null end.

Definition date_trunc_func (h : Host) (args : list Value) : Res Value :=
  match some_arg args 0 with
  | None => Ok Null
  | Some v =>
      match value_to_epoch h (arg args 1) with
      | None => Ok Null
      | Some e => match date_trunc (text_of v) e with
                  | Some t => Ok (TextV (format_timestamp t))
                  | None => sql_error
                  end
      end
  end.

Definition extract_field (field : string) (e : Z) : option Z :=
  let '(y, m, d, hh, mm, ss) := parts e in
  let isf := String.eqb field in
  if isf "year"%string then Some y else if isf "month"%string then Some m
  else if isf "day"%string then Some d else if isf "hour"%string then Some hh
  else if isf "minute"%string then Some mm else if isf "second"%string then Some ss
  else if isf "dow"%string then Some (day_of_week e) else if isf "doy"%string then Some (day_of_year e)
  else if isf "quarter"%string then Some ((m -! 1) /! 3 +! 1) else if isf "epoch"%string then Some e
  else None.

Definition extract_func (h : Host) (args : list Value) : Value :=
  match some_arg args 0 with
  | None => Null
  | Some v =>
      match value_to_epoch h (arg args 1) with
      | None => Null
      | Some e => match extract_field (to_ascii_lowercase (text_of v)) e with
                  | Some x => Int x
                  | None => Null
                  end
      end
  end.

(** What a conversion letter stands for. *)
Definition strftime_letter (e : Z) (c : Z) : string :=
  let '(y, m, d, hh, mm, ss) := parts e in
  if c =? 89 then fmt_pad 4 y else if c =? 109 then fmt_pad 2 m else if c =? 100 then fmt_pad 2 d
  else if c =? 72 then fmt_pad 2 hh else if c =? 77 then fmt_pad 2 mm else if c =? 83 then fmt_pad 2 ss
  else if c =? 115 then fmt_i64 e else if c =? 106 then fmt_pad 3 (day_of_year e)
  else if c =? 119 then fmt_i64 (day_of_week e)
  else if c =? 37 then "%" else "%" +:+ of_char c.

Fixpoint strftime_go (e : Z) (l : list Z) : string :=
  match l with
  | [] => ""
  | c :: l =>
      if c =? 37 then
        match l with
        | [] => "%"
        | x :: l => strftime_letter e x +:+ strftime_go e l
        end
      else of_char c +:+ strftime_go e l
  end.

Definition strftime_func (h : Host) (args : list Value) : Value :=
  match some_arg args 0 with
  | None => Null
  | Some v => match value_to_epoch h (arg args 1) with
              | None => Null
              | Some e => TextV (strftime_go e (chars (text_of v)))
              end
  end.

(** ** JSON *)

Definition json_quote (s : string) : string := of_chars (quote s).

Definition value_to_json (v : Value) : string :=
  match v with
  | Null => "null"
  | Int i => fmt_i64 i
  | Real r => if f_is_finite F64 r then display F64 r else "null"
  | TextV s => json_quote s
  | Blob b => json_quote (base64_encode b)
  | Vector x => "[" +:+ join_str "," (display F32 <$> x) +:+ "]"
  end.

Definition json_array (args : list Value) : Value :=
  TextV ("[" +:+ join_str "," (value_to_json <$> args) +:+ "]").

Fixpoint json_pairs (args : list Value) : list string :=
  match args with
  | k :: v :: rest => (json_quote (text_of k) +:+ ":" +:+ value_to_json v) :: json_pairs rest
  | _ => []
  end.
Definition json_build_object (args : list Value) : Res Value :=
  if Nat.odd (length args) then sql_error
  else Ok (TextV ("{" +:+ join_str "," (json_pairs args) +:+ "}")).

Definition json_get (doc k : option Value) (as_txt : bool) : Value :=
  match doc, k with
  | Some doc, Some k =>
      if is_null doc || is_null k then Null
      else match parse (text_of doc) with
           | None => Null
           | Some j =>
               match (match k with Int i => get_index j i | v => get_key j (text_of v) end) with
               | None => Null
               | Some j => if as_txt then match as_text j with Some s => TextV s | None => Null end
                           else TextV (to_json_text j)
               end
           end
  | _, _ => Null
  end.

Definition json_extract_func (doc path : option Value) : Value :=
  match doc, path with
  | Some doc, Some path =>
      if is_null doc || is_null path then Null
      else match parse (text_of doc) with
           | None => Null
           | Some j =>
               match extract_path j (text_of path) with
               | None | Some JNull => Null
               | Some (JBool b) => Int (if b then 1 else 0)
               | Some (JNum n) => if small_integral F64 n then Int (f_as_i64 F64 n) else Real n
               | Some (JStr s) => TextV s
               | Some j => TextV (to_json_text j)
               end
           end
  | _, _ => Null
  end.

(** ** Dispatch *)

(** [a % b] on [i64]: panics on a zero divisor and on [i64::MIN % -1]. *)
Definition i64_rem (a b : Z) : Res Z :=
  if (b =? 0) || ((a =? - 2 ^ 63) && (b =? -1)) then panic else Ok (a %! b).
(** [a / b] on [i64]. *)
Definition i64_div (a b : Z) : Res Z :=
  if (b =? 0) || ((a =? - 2 ^ 63) && (b =? -1)) then panic else Ok (a /! b).

Definition mod_func (args : list Value) : Res Value :=
  match num_arg args 0, num_arg args 1 with
  | Some a, Some b =>
      if f_eqb F64 b f_zero then Ok Null
      else r ← i64_rem (f_as_i64 F64 a) (f_as_i64 F64 b); Ok (Int r)
  | _, _ => Ok Null
  end.

Definition wrapping_abs (i : Z) : Z := wrap64 (Z.abs i).

Definition first_or_null (args : list Value) (i : nat) : Value := default Null (args !! i).

(** NULL handling. *)
Definition null_funcs (f : string) (args : list Value) : option (Res Value) :=
  let isf := String.eqb f in
  if isf "coalesce"%string then Some (Ok (default Null (List.find (λ v, negb (is_null v)) args)))
  else if isf "nullif"%string then
    let a := first_or_null args 0 in
    Some (Ok (match sql_eq a (first_or_null args 1) with Some true => Null | _ => a end))
  else if isf "ifnull"%string then
    let a := first_or_null args 0 in Some (Ok (if is_null a then first_or_null args 1 else a))
  else if isf "iif"%string || isf "if"%string then
    Some (match args with
          | [c; a; b] => Ok (match as_bool c with Some true => a | _ => b end)
          | _ => sql_error
          end)
  else if isf "greatest"%string then Some (Ok (extreme args Gt))
  else if isf "least"%string then Some (Ok (extreme args Lt))
  else None.

(** Strings. *)
Definition text_funcs (h : Host) (f : string) (args : list Value) : option (Res Value) :=
  let isf := String.eqb f in
  if isf "lower"%string then Some (Ok (map_text args (str_to_lowercase h)))
  else if isf "upper"%string then Some (Ok (map_text args (str_to_uppercase h)))
  else if isf "trim"%string || isf "btrim"%string then Some (Ok (map_text args trim))
  else if isf "ltrim"%string then Some (Ok (map_text args trim_start))
  else if isf "rtrim"%string then Some (Ok (map_text args trim_end))
  else if isf "length"%string || isf "char_length"%string || isf "character_length"%string then
    Some (Ok (match some_arg args 0 with Some v => Int (zlen (chars (text_of v))) | None => Null end))
  else if isf "concat"%string then
    Some (Ok (TextV (join_str "" (text_of <$> List.filter (λ v, negb (is_null v)) args))))
  else if isf "substr"%string || isf "substring"%string then Some (Ok (substr_func args))
  else if isf "replace"%string then
    Some (Ok (match some_arg args 0, some_arg args 1, some_arg args 2 with
              | Some s, Some f, Some t => TextV (str_replace (text_of f) (text_of t) (text_of s))
              | _, _, _ => Null
              end))
  else if isf "instr"%string || isf "strpos"%string then Some (Ok (instr_func (arg args 0) (arg args 1)))
  else if isf "repeat"%string then
    Some (match some_arg args 0, num_arg args 1 with
          | Some s, Some n => repeat_func (text_of s) (Z.max (f_as_i64 F64 n) 0)
          | _, _ => Ok Null
          end)
  else if isf "reverse"%string then Some (Ok (map_text args (λ s, of_chars (rev (chars s)))))
  else if isf "left"%string then Some (Ok (side_func args true))
  else if isf "right"%string then Some (Ok (side_func args false))
  else if isf "lpad"%string then Some (Ok (pad_func args true))
  else if isf "rpad"%string then Some (Ok (pad_func args false))
  else None.

(** [std::f64::consts::PI]. *)
Definition PI : Z := 0x400921FB54442D18.

(** Numbers. *)
Definition math_funcs (h : Host) (f : string) (args : list Value) : option (Res Value) :=
  let isf := String.eqb f in
  if isf "abs"%string then
    Some (match args !! 0%nat with
          | Some (Int i) => Ok (Int (wrapping_abs i))
          | Some (Real r) => Ok (Real (f_abs F64 r))
          | Some Null | None => Ok Null
          | Some _ => sql_error
          end)
  else if isf "round"%string then Some (round_func h args)
  else if isf "ceil"%string || isf "ceiling"%string then Some (unary_real args (f_ceil F64))
  else if isf "floor"%string then Some (unary_real args (f_floor F64))
  else if isf "sqrt"%string then Some (unary_real args (f_sqrt F64))
  else if isf "exp"%string then Some (unary_real args (f64_exp h))
  else if isf "ln"%string then Some (unary_real args (f64_ln h))
  else if isf "log"%string || isf "log10"%string then Some (unary_real args (f64_log10 h))
  else if isf "sign"%string then
    Some (Ok (match num_arg args 0 with
              | Some n => Int (match f_cmp F64 n f_zero with Some Lt => -1 | Some Gt => 1 | _ => 0 end)
              | None => Null
              end))
  else if isf "trunc"%string then
    Some (Ok (match num_arg args 0 with Some n => Real (f_trunc F64 n) | None => Null end))
  else if isf "power"%string || isf "pow"%string then
    Some (Ok (match num_arg args 0, num_arg args 1 with
              | Some a, Some b => Real (f64_powf h a b)
              | _, _ => Null
              end))
  else if isf "mod"%string then Some (mod_func args)
  else if isf "pi"%string then Some (Ok (Real PI))
  else None.

(** Dates. *)
Definition date_funcs (h : Host) (f : string) (args : list Value) : option (Res Value) :=
  let isf := String.eqb f in
  let one_of := existsb (String.eqb f) in
  if one_of ["now"; "current_timestamp"; "transaction_timestamp"; "statement_timestamp"; "clock_timestamp";
             "localtimestamp"]%string
  then Some (Ok (TextV (format_timestamp (now_epoch h))))
  else if isf "current_date"%string then Some (Ok (TextV (format_date (now_epoch h))))
  else if isf "current_time"%string || isf "localtime"%string then Some (Ok (TextV (format_time (now_epoch h))))
  else if isf "date"%string then Some (Ok (map_epoch h (arg args 0) format_date))
  else if isf "datetime"%string then Some (Ok (map_epoch h (arg args 0) format_timestamp))
  else if isf "time"%string then Some (Ok (map_epoch h (arg args 0) format_time))
  else if isf "unixepoch"%string then
    Some (Ok (match value_to_epoch h (arg args 0) with Some e => Int e | None => Null end))
  else if isf "date_trunc"%string then Some (date_trunc_func h args)
  else if isf "extract"%string then Some (Ok (extract_func h args))
  else if isf "strftime"%string then Some (Ok (strftime_func h args))
  else None.

(** UUIDs, randomness, types, hex, JSON. *)
Definition misc_funcs (h : Host) (f : string) (args : list Value) : option (Res Value) :=
  let isf := String.eqb f in
  if isf "gen_random_uuid"%string || isf "uuid_generate_v4"%string then Some (Ok (TextV (gen_uuid_v4 h)))
  else if isf "random"%string then
    Some (Ok (Real (f_div F64 (f_of_Z F64 (Z.shiftr (rng_u64 h 0) 11)) (f_of_Z F64 (2 ^ 53)))))
  else if isf "typeof"%string then
    Some (Ok (TextV (match arg args 0 with Some v => to_ascii_lowercase (type_name v) | None => "null" end)))
  else if isf "hex"%string then
    Some (Ok (match some_arg args 0 with
              | None => Null
              | Some (Blob b) => TextV (to_hex b)
              | Some v => TextV (to_hex (list_byte_of_string (text_of v)))
              end))
  else if isf "json_get"%string then Some (Ok (json_get (arg args 0) (arg args 1) false))
  else if isf "json_get_text"%string then Some (Ok (json_get (arg args 0) (arg args 1) true))
  else if isf "json_extract"%string then Some (Ok (json_extract_func (arg args 0) (arg args 1)))
  else if isf "json_array"%string || isf "json_build_array"%string || isf "jsonb_build_array"%string then
    Some (Ok (json_array args))
  else if isf "to_json"%string || isf "to_jsonb"%string then
    Some (Ok (TextV (value_to_json (first_or_null args 0))))
  else if isf "json_build_object"%string || isf "jsonb_build_object"%string then Some (json_build_object args)
  else None.

(** The arms of one [match]; no name is in two of them. *)
Definition call_func (h : Host) (name : string) (args : list Value) : Res Value :=
  let f := to_ascii_lowercase name in
  let or_else (a b : option (Res Value)) := match a with Some _ => a | None => b end in
  default sql_error
    (or_else (null_funcs f args) (or_else (text_funcs h f args) (or_else (math_funcs h f args)
       (or_else (date_funcs h f args) (misc_funcs h f args))))).
