(* ===== verification/Like.v ===== *)
(** * LIKE patterns (crates/engine/src/exec.rs, [like_match] and [like_go])

    The compiled pattern, the backtracking matcher, and that it accepts exactly the strings the
    pattern denotes. *)

From S2P Require Import Prelude Text Chars.

Inductive LikeTok := Any | One | Lit (c : Z).

Definition is_any (t : LikeTok) : bool := match t with Any => true | _ => false end.

Fixpoint compile (fold : Z → Z) (escape : option Z) (l : list Z) : list LikeTok :=
  match l with
  | [] => []
  | c :: l =>
      if bool_decide (Some c = escape) then
        match l with
        | x :: l => Lit (fold x) :: compile fold escape l
        | [] => [Lit (fold c)]
        end
      else (if c =? 37 then Any else if c =? 95 then One else Lit (fold c)) :: compile fold escape l
  end.

(** [(0..=s.len()).any(|i| f(&s[i..]))]. *)
Fixpoint any_suffix (f : list Z → bool) (s : list Z) : bool :=
  f s || match s with [] => false | _ :: s => any_suffix f s end.

(** A run of [%]s counts once; what is left after it is tried at every suffix. *)
Fixpoint like_go (p : list LikeTok) (s : list Z) : bool :=
  match p with
  | [] => match s with [] => true | _ => false end
  | Any :: rest =>
      (fix skip (k : list LikeTok) : bool :=
         match k with
         | [] => true
         | Any :: k' => skip k'
         | _ => any_suffix (like_go k) s
         end) rest
  | One :: p => match s with [] => false | _ :: s => like_go p s end
  | Lit c :: p => match s with [] => false | x :: s => (x =? c) && like_go p s end
  end.

Definition like_match (s pattern : string) (escape : option Z) (insensitive : bool) : bool :=
  let fold c := if insensitive then char_lower c else c in
  like_go (compile fold escape (chars pattern)) (fold <$> chars s).

(** ** What a pattern denotes *)

Inductive matches : list LikeTok → list Z → Prop :=
| m_nil : matches [] []
| m_any p u s : matches p s → matches (Any :: p) (u ++ s)
| m_one p x s : matches p s → matches (One :: p) (x :: s)
| m_lit p c s : matches p s → matches (Lit c :: p) (c :: s).

Lemma any_suffix_spec f s : any_suffix f s = true ↔ ∃ u v, s = u ++ v ∧ f v = true.
Proof.
  induction s as [|x s IH]; cbn; rewrite orb_true_iff.
  - split; [intros [H|]; [by exists [], []|done]|]. intros (u & v & E & H).
    symmetry in E. apply app_nil in E as [-> ->]. by left.
  - rewrite IH. split.
    + intros [H|(u & v & -> & H)]; [by exists [], (x :: s)|]. by exists (x :: u), v.
    + intros ([|y u] & v & E & H); cbn in E; [left; by rewrite E|]. injection E as -> ->. right. by eexists _, _.
Qed.

(** The first token that is not a [%], or the empty pattern. *)
Fixpoint after_any (p : list LikeTok) : list LikeTok :=
  match p with Any :: p => after_any p | _ => p end.

Lemma like_go_any p s :
  like_go (Any :: p) s = match after_any p with [] => true | k => any_suffix (like_go k) s end.
Proof. cbn. induction p as [|[| |c] p IH]; cbn; done. Qed.

Lemma matches_after_any p s : matches (Any :: p) s ↔ matches (Any :: after_any p) s.
Proof.
  revert s. induction p as [|[| |c] p IH]; intros s; cbn; try done. rewrite <- IH. split.
  - intros H. inversion_clear H as [|? u ? H'| |]. inversion_clear H' as [|? u' ? H''| |].
    rewrite app_assoc. by constructor.
  - intros H. inversion_clear H as [|? u ? H'| |]. constructor. by apply (m_any p []).
Qed.

Lemma like_go_spec p : ∀ s, like_go p s = true ↔ matches p s.
Proof.
  remember (length p) as n eqn:Hn. revert p Hn. induction (lt_wf n) as [n _ IH]. intros p -> s.
  destruct p as [|[| |c] p].
  - destruct s; cbn; (split; [by try constructor|]); [done|]. by inversion 1.
  - rewrite like_go_any, matches_after_any.
    assert (length (after_any p) ≤ length p)%nat as Hl by (clear; induction p as [|[]]; cbn; lia).
    destruct (after_any p) as [|t k] eqn:E.
    + split; [|done]. intros _. rewrite <- (app_nil_r s). repeat constructor.
    + rewrite any_suffix_spec. split.
      * intros (u & v & -> & H). constructor. eapply IH; [|done|exact H]. cbn in *. lia.
      * intros H. inversion_clear H as [|? u v H'| |]. exists u, v. split; [done|].
        eapply IH; [|done|exact H']. cbn in *. lia.
  - destruct s as [|x s]; cbn; [split; [done|by inversion 1]|]. rewrite (IH (length p)) by (cbn; lia || done).
    split; [by constructor|]. by inversion 1.
  - destruct s as [|x s]; cbn; [split; [done|by inversion 1]|]. rewrite andb_true_iff, Z.eqb_eq.
    rewrite (IH (length p)) by (cbn; lia || done).
    split; [intros [-> H]; by constructor|]. by inversion 1.
Qed.

(** ** Properties *)

(** LIKE matches what its pattern denotes: the backtracking matcher accepts a text exactly when
    it is the pattern with every [_] replaced by one character, every [%] by any run, and the rest
    itself, case folded for ILIKE; a character after the escape stands for itself. *)
Theorem like_equivalence s pattern escape insensitive :
  let fold (c : Z) := if insensitive : bool then char_lower c else c in
  like_match s pattern escape insensitive = true ↔
  matches (compile fold escape (chars pattern)) (fold <$> chars s).
Proof. apply like_go_spec. Qed.

(** A pattern whose every character is escaped matches its own text and nothing else. *)
Theorem like_escaped_literal (l s : list Z) e :
  matches (compile id (Some e) (concat ((λ c, [e; c]) <$> l))) s ↔ s = l.
Proof.
  revert s. induction l as [|c l IH]; intros s; cbn.
  - split; [by inversion 1|intros ->; constructor].
  - rewrite bool_decide_true by done. split.
    + inversion 1; subst. f_equal. by apply IH.
    + intros ->. constructor. by apply IH.
Qed.
