(* ===== verification/Ast.v ===== *)
(** * The syntax of queries and expressions (crates/engine/src/sql.rs)

    Expressions, SELECT statements and the other statements as the parser builds them.  The two refer to each other:
    a subquery is an expression, and every clause of a query holds expressions. *)

From S2P Require Import Prelude Text EngineTypes.

Inductive SetOp := Union | Intersect | Except.
Inductive JoinKind := Inner | LeftJoin | RightJoin | FullJoin | CrossJoin.
Inductive AggFunc := Count | Sum | Min | Max | Avg | JsonAgg | GroupConcat.
Inductive CastTarget := ToInt | ToReal | ToText | ToBool | Passthrough.
Inductive BinOp :=
| OpEq | OpNe | OpLt | OpLe | OpGt | OpGe | OpAnd | OpOr
| OpAdd | OpSub | OpMul | OpDiv | OpMod | OpConcat | VecL2 | VecCosine | VecIp.
Inductive UnOp := Not | Neg.

#[export] Instance SetOp_eq_dec : EqDecision SetOp.
Proof. solve_decision. Defined.
#[export] Instance JoinKind_eq_dec : EqDecision JoinKind.
Proof. solve_decision. Defined.
#[export] Instance CastTarget_eq_dec : EqDecision CastTarget.
Proof. solve_decision. Defined.

(** [CastTarget::from_word]. *)
Definition CastTarget_from_word (w : string) : CastTarget :=
  let w := to_ascii_lowercase w in
  let one_of := existsb (String.eqb w) in
  if one_of ["int"; "integer"; "int2"; "int4"; "int8"; "smallint"; "bigint"; "oid"; "serial"; "bigserial"]%string
  then ToInt
  else if one_of ["real"; "float"; "float4"; "float8"; "double"; "numeric"; "decimal"]%string then ToReal
  else if one_of ["text"; "varchar"; "character"; "char"; "name"; "json"; "jsonb"; "uuid"; "citext";
                  "bytea"; "bpchar"]%string then ToText
  else if one_of ["bool"; "boolean"]%string then ToBool
  else Passthrough.

(** [BinOp::vec_metric]. *)
Definition vec_metric (op : BinOp) : option Metric :=
  match op with VecL2 => Some L2 | VecCosine => Some Cosine | VecIp => Some InnerProduct | _ => None end.

Inductive Expr : Type :=
| ENull
| EInt (i : Z)
| EReal (r : Z)
| EStr (s : string)
| EVector (v : list Z)
| ELit (v : Value)
| EParam (idx : Z)
| EColumn (name : string)
| EBinary (op : BinOp) (l r : Expr)
| EUnary (op : UnOp) (e : Expr)
| EIsNull (e : Expr) (negated : bool)
| ELike (e pattern : Expr) (escape : option Expr) (negated insensitive : bool)
| EInList (e : Expr) (items : list Expr) (negated : bool)
| EBetween (e lo hi : Expr) (negated : bool)
| ECase (operand : option Expr) (whens : list (Expr * Expr)) (els : option Expr)
| EExcluded (name : string)
| EDefault
| ECast (e : Expr) (target : CastTarget)
| EFunc (name : string) (args : list Expr)
| EAggregate (func : AggFunc) (arg : option Expr) (distinct : bool) (sep : option Expr)
| EQualified (tbl name : string)
| EScalarSubquery (query : SelectStmt)
| EExists (query : SelectStmt) (negated : bool)
| EInSubquery (e : Expr) (query : SelectStmt) (negated : bool)
with SelectStmt : Type :=
| mkSelect (ctes : list (string * SelectStmt)) (dist : bool) (items : list SelItem)
    (from : option FromClause) (where_ : option Expr) (group_by : list Expr) (having : option Expr)
    (set_ops : list (SetOp * bool * SelectStmt)) (order_by : list OrderKey) (limit offset : option Expr)
with SelItem : Type :=
| Star (qualifier : option string)
| SelExpr (expr : Expr) (alias : option string)
with FromClause : Type :=
| FTable (name : string) (alias : option string)
| FDerived (query : SelectStmt) (alias : string)
| FJoin (l r : FromClause) (kind : JoinKind) (on : option Expr) (using_ : list string)
with OrderKey : Type :=
| mkOrderKey (key : Expr) (asc nulls_first : bool).

(** [AggArg::Star] is the aggregate without an argument expression. *)

Definition sel_ctes (s : SelectStmt) := let '(mkSelect x _ _ _ _ _ _ _ _ _ _) := s in x.
Definition sel_distinct (s : SelectStmt) := let '(mkSelect _ x _ _ _ _ _ _ _ _ _) := s in x.
Definition sel_items (s : SelectStmt) := let '(mkSelect _ _ x _ _ _ _ _ _ _ _) := s in x.
Definition sel_from (s : SelectStmt) := let '(mkSelect _ _ _ x _ _ _ _ _ _ _) := s in x.
Definition sel_filter (s : SelectStmt) := let '(mkSelect _ _ _ _ x _ _ _ _ _ _) := s in x.
Definition sel_group_by (s : SelectStmt) := let '(mkSelect _ _ _ _ _ x _ _ _ _ _) := s in x.
Definition sel_having (s : SelectStmt) := let '(mkSelect _ _ _ _ _ _ x _ _ _ _) := s in x.
Definition sel_set_ops (s : SelectStmt) := let '(mkSelect _ _ _ _ _ _ _ x _ _ _) := s in x.
Definition sel_order_by (s : SelectStmt) := let '(mkSelect _ _ _ _ _ _ _ _ x _ _) := s in x.
Definition sel_limit (s : SelectStmt) := let '(mkSelect _ _ _ _ _ _ _ _ _ x _) := s in x.
Definition sel_offset (s : SelectStmt) := let '(mkSelect _ _ _ _ _ _ _ _ _ _ x) := s in x.

Definition key_expr (k : OrderKey) := let '(mkOrderKey e _ _) := k in e.
Definition key_asc (k : OrderKey) := let '(mkOrderKey _ a _) := k in a.
Definition key_nulls_first (k : OrderKey) := let '(mkOrderKey _ _ n) := k in n.

(** ** Induction on expressions, with subqueries as leaves *)

Definition is_leaf (e : Expr) : bool :=
  match e with
  | ENull | EInt _ | EReal _ | EStr _ | EVector _ | ELit _ | EParam _ | EColumn _ | EExcluded _ | EDefault
  | EQualified _ _ | EScalarSubquery _ | EExists _ _ => true
  | _ => false
  end.

(** What holds of the expression of an optional clause. *)
Definition opt_holds (P : Expr → Prop) (o : option Expr) : Prop :=
  match o with Some e => P e | None => True end.

Section ExprInd.
Variable P : Expr → Prop.
Abbreviation Po := (opt_holds P).
Hypothesis Hleaf : ∀ e, is_leaf e = true → P e.
Hypothesis Hbin : ∀ op l r, P l → P r → P (EBinary op l r).
Hypothesis Hun : ∀ op e, P e → P (EUnary op e).
Hypothesis Hisnull : ∀ e n, P e → P (EIsNull e n).
Hypothesis Hlike : ∀ e p esc n i, P e → P p → Po esc → P (ELike e p esc n i).
Hypothesis Hin : ∀ e l n, P e → Forall P l → P (EInList e l n).
Hypothesis Hbetween : ∀ e lo hi n, P e → P lo → P hi → P (EBetween e lo hi n).
Hypothesis Hcase : ∀ o ws els, Po o → Forall (λ w, P w.1 ∧ P w.2) ws → Po els → P (ECase o ws els).
Hypothesis Hcast : ∀ e t, P e → P (ECast e t).
Hypothesis Hfunc : ∀ n args, Forall P args → P (EFunc n args).
Hypothesis Hagg : ∀ f a d sep, Po a → Po sep → P (EAggregate f a d sep).
Hypothesis Hinsub : ∀ e q n, P e → P (EInSubquery e q n).

Fixpoint Expr_induction (e : Expr) : P e :=
  let opt (o : option Expr) : Po o := match o with Some e => Expr_induction e | None => I end in
  let all := fix go (l : list Expr) : Forall P l :=
    match l with [] => List.Forall_nil _ | x :: l => List.Forall_cons _ x l (Expr_induction x) (go l) end in
  match e with
  | EBinary op l r => Hbin op l r (Expr_induction l) (Expr_induction r)
  | EUnary op e => Hun op e (Expr_induction e)
  | EIsNull e n => Hisnull e n (Expr_induction e)
  | ELike e p esc n i => Hlike e p esc n i (Expr_induction e) (Expr_induction p) (opt esc)
  | EInList e l n => Hin e l n (Expr_induction e) (all l)
  | EBetween e lo hi n => Hbetween e lo hi n (Expr_induction e) (Expr_induction lo) (Expr_induction hi)
  | ECase o ws els =>
      Hcase o ws els (opt o)
        ((fix go (l : list (Expr * Expr)) : Forall (λ w, P w.1 ∧ P w.2) l :=
            match l with
            | [] => List.Forall_nil _
            | w :: l => List.Forall_cons _ w l (conj (Expr_induction w.1) (Expr_induction w.2)) (go l)
            end) ws)
        (opt els)
  | ECast e t => Hcast e t (Expr_induction e)
  | EFunc n args => Hfunc n args (all args)
  | EAggregate f a d sep => Hagg f a d sep (opt a) (opt sep)
  | EInSubquery e q n => Hinsub e q n (Expr_induction e)
  | ENull => Hleaf ENull eq_refl
  | EInt i => Hleaf (EInt i) eq_refl
  | EReal r => Hleaf (EReal r) eq_refl
  | EStr s => Hleaf (EStr s) eq_refl
  | EVector v => Hleaf (EVector v) eq_refl
  | ELit v => Hleaf (ELit v) eq_refl
  | EParam i => Hleaf (EParam i) eq_refl
  | EColumn n => Hleaf (EColumn n) eq_refl
  | EExcluded n => Hleaf (EExcluded n) eq_refl
  | EDefault => Hleaf EDefault eq_refl
  | EQualified t n => Hleaf (EQualified t n) eq_refl
  | EScalarSubquery q => Hleaf (EScalarSubquery q) eq_refl
  | EExists q n => Hleaf (EExists q n) eq_refl
  end.
End ExprInd.

(** ** Statements *)

Module Statement.
Record ColumnSpec := mkColumnSpec {
  cs_name : string;
  cs_ty : ColumnType;
  cs_primary_key : bool;
  cs_not_null : bool;
  cs_unique : bool;
  cs_autoincrement : bool;
  cs_default_sql : option string;
  cs_check_sql : option string;
  cs_references : option (string * option string)
}.

Record ForeignKeySpec := mkForeignKeySpec {
  fs_name : option string;
  fs_columns : list string;
  fs_foreign_table : string;
  fs_foreign_columns : list string
}.

Inductive AlterAction :=
| AddColumn (spec : ColumnSpec)
| DropColumn (name : string) (if_exists : bool)
| RenameColumn (from to : string)
| RenameTable (to : string)
| SetRls (on : bool).

Inductive InsertSource :=
| IValues (rows : list (list Expr))
| ISelect (query : SelectStmt).

Inductive OnConflict :=
| OnError
| OnNothing
| OnUpdate (sets : list (string * Expr)) (cond : option Expr)
| OnReplace.

Inductive SessionSet :=
| SRole (role : option string)
| SClaims (claims : option string)
| SBypass (on : bool).

Record PolicyDef := mkPolicyDef {
  pd_name : string;
  pd_table : string;
  pd_command : PolicyCommand;
  pd_roles : list string;
  pd_using : option string;
  pd_check : option string
}.

Record CreateTableDef := mkCreateTableDef {
  td_name : string;
  td_columns : list ColumnSpec;
  td_foreign_keys : list ForeignKeySpec;
  td_primary_key : list string;
  td_uniques : list (list string);
  td_checks : list string;
  td_if_not_exists : bool
}.

Inductive Stmt :=
| CreateTable (def : CreateTableDef)
| AlterTable (table : string) (action : AlterAction)
| DropTable (name : string) (if_exists : bool)
| CreateIndex (name table column : string) (params : IndexParams) (if_not_exists : bool)
| DropIndex (name : string) (if_exists : bool)
| Insert (table : string) (columns : option (list string)) (source : InsertSource) (on_conflict : OnConflict)
    (returning : option (list SelItem))
| Select (query : SelectStmt)
| Update (table : string) (sets : list (string * Expr)) (from : option FromClause) (cond : option Expr)
    (returning : option (list SelItem))
| Delete (table : string) (using_ : option FromClause) (cond : option Expr) (returning : option (list SelItem))
| Begin | Commit | Rollback
| Savepoint (name : string)
| ReleaseSavepoint (name : string)
| RollbackTo (name : string)
| Noop
| SetVectorEf (ef : option Z)
| ShowSetting (name : string)
| Explain (stmt : Stmt)
| CreateView (name : string) (query : SelectStmt) (sql : string) (or_replace if_not_exists : bool)
| DropView (name : string) (if_exists : bool)
| SetSession (set : SessionSet)
| CreatePolicy (def : PolicyDef)
| DropPolicy (name table : string) (if_exists : bool).
End Statement.
