(* ===== verification/Lex.v ===== *)
(** * The SQL lexer (crates/engine/src/lex.rs)

    Source text to a flat token stream.  A position in the source's byte slice is modelled by the bytes
    that are left, so a lexing function returns its token and what follows it. *)

From S2P Require Import Prelude Text Numbers EngineTypes Chars Float.

Module Tok.
Inductive Tok :=
| Word (w : string)
| Int (n : Z)
| Real (r : Z)
| Str (s : string)
| Param
| NumParam (n : Z)
| NamedParam (name : string)
| LParen | RParen | LBracket | RBracket | Comma | Semi | DColon | Dot | Star
| Eq | Ne | Lt | Le | Gt | Ge | Plus | Minus | Slash | Percent
| Concat | Arrow | ArrowText | VecL2 | VecCosine | VecIp
| Eof.

#[global] Instance Tok_eq_dec : EqDecision Tok.
Proof. solve_decision. Defined.
End Tok.
Abbreviation Tok := Tok.Tok.

Abbreviation Lexed A := (Result EngineStatus A).
Definition lex_err {A} : Lexed A := Err ErrSql.

(** [u8::is_ascii_whitespace], [is_ascii_digit], [is_ascii_alphabetic]. *)
Definition space_byte (a : Ascii.ascii) : bool := is_ascii_whitespace (code a).
Definition is_alpha (a : Ascii.ascii) : bool :=
  let n := code a in ((65 <=? n) && (n <=? 90)) || ((97 <=? n) && (n <=? 122)).
Definition word_start (a : Ascii.ascii) : bool := Ascii.eqb a "_" || is_alpha a.
Definition word_byte (a : Ascii.ascii) : bool := Ascii.eqb a "_" || is_alpha a || is_digit a.

(** [while i < b.len() && p(b[i]) { i += 1 }]: what was passed over, and what is left. *)
Fixpoint span (p : Ascii.ascii → bool) (s : string) : string * string :=
  match s with
  | EmptyString => (EmptyString, EmptyString)
  | String a r => if p a then let '(w, t) := span p r in (String a w, t) else (EmptyString, s)
  end.

(** [b.get(i) == Some(&c)]. *)
Definition head_is (c : Ascii.ascii) (s : string) : bool :=
  match s with String a _ => Ascii.eqb a c | EmptyString => false end.
Definition tail (s : string) : string := match s with String _ r => r | EmptyString => EmptyString end.

Definition simple_token (c : Ascii.ascii) : option Tok :=
  match c with
  | "("%char => Some Tok.LParen
  | ")"%char => Some Tok.RParen
  | "["%char => Some Tok.LBracket
  | "]"%char => Some Tok.RBracket
  | ","%char => Some Tok.Comma
  | ";"%char => Some Tok.Semi
  | "."%char => Some Tok.Dot
  | "*"%char => Some Tok.Star
  | "+"%char => Some Tok.Plus
  | "-"%char => Some Tok.Minus
  | "/"%char => Some Tok.Slash
  | "%"%char => Some Tok.Percent
  | "?"%char => Some Tok.Param
  | "="%char => Some Tok.Eq
  | _ => None
  end.

(** [s] is what follows the [<]. *)
Definition lex_lt (s : string) : Tok * string :=
  if head_is "-" s && head_is ">" (tail s) then (Tok.VecL2, tail (tail s))
  else if head_is "=" s && head_is ">" (tail s) then (Tok.VecCosine, tail (tail s))
  else if head_is "#" s && head_is ">" (tail s) then (Tok.VecIp, tail (tail s))
  else if head_is "=" s then (Tok.Le, tail s)
  else if head_is ">" s then (Tok.Ne, tail s)
  else (Tok.Lt, s).

(** [c] is the operator's first byte, [s] what follows it; likewise below. *)
Definition lex_operator (c : Ascii.ascii) (s : string) : Lexed (Tok * string) :=
  if Ascii.eqb c "<" then Ok (lex_lt s)
  else if Ascii.eqb c ">" then Ok (if head_is "=" s then (Tok.Ge, tail s) else (Tok.Gt, s))
  else if head_is "=" s then Ok (Tok.Ne, tail s) else lex_err.

Definition lex_pipe (s : string) : Lexed (Tok * string) :=
  if head_is "|" s then Ok (Tok.Concat, tail s) else lex_err.

Definition lex_colon (s : string) : Lexed (Tok * string) :=
  if head_is ":" s then Ok (Tok.DColon, tail s)
  else let '(name, r) := span word_byte s in
       if String.eqb name "" then lex_err else Ok (Tok.NamedParam name, r).

Definition lex_numparam (s : string) : Lexed (Tok * string) :=
  let '(ds, r) := span is_digit s in
  if String.eqb ds "" then lex_err
  else match parse_u64 ds with Some n => Ok (Tok.NumParam n, r) | None => lex_err end.

(** An identifier between quotes [q]. *)
Definition lex_quoted (q : Ascii.ascii) (s : string) : Lexed (Tok * string) :=
  let '(ident, r) := span (λ a, negb (Ascii.eqb a q)) s in
  match r with
  | EmptyString => lex_err
  | String _ r => Ok (Tok.Word ident, r)
  end.
Definition lex_backtick_ident : string → Lexed (Tok * string) := lex_quoted "`".
Definition lex_quoted_ident : string → Lexed (Tok * string) := lex_quoted (Ascii.ascii_of_nat 34).

(** [s.push(ch as char)] takes each byte for the code point of that number. *)
Fixpoint lex_string_go (b : string) (s : string) : Lexed (Tok * string) :=
  match b with
  | EmptyString => lex_err
  | String ch r =>
      if Ascii.eqb ch "'" then
        match r with
        | String ch2 r2 => if Ascii.eqb ch2 "'" then lex_string_go r2 (s +:+ "'") else Ok (Tok.Str s, r)
        | EmptyString => Ok (Tok.Str s, r)
        end
      else lex_string_go r (s +:+ of_char (code ch))
  end.
Definition lex_string (b : string) : Lexed (Tok * string) := lex_string_go b "".

Definition number_byte (a : Ascii.ascii) : bool := is_digit a || Ascii.eqb a ".".
Definition exp_byte (a : Ascii.ascii) : bool := Ascii.eqb a "e" || Ascii.eqb a "E".
Definition sign_byte (a : Ascii.ascii) : bool := Ascii.eqb a "+" || Ascii.eqb a "-".

(** The exponent of a literal, when one is there: its text and what follows. *)
Definition lex_exponent (s : string) : option (string * string) :=
  match s with
  | String a r =>
      if exp_byte a then
        let '(sign, r) := match r with
                          | String b r' => if sign_byte b then (String b EmptyString, r') else (EmptyString, r)
                          | EmptyString => (EmptyString, r)
                          end in
        let '(ds, r) := span is_digit r in
        Some (String a (sign +:+ ds), r)
      else None
  | EmptyString => None
  end.

Definition real_token (text : string) : Lexed Tok :=
  match parse_f64 text with Some x => Ok (Tok.Real x) | None => lex_err end.

(** [s] starts at the first digit. *)
Definition lex_number (s : string) : Lexed (Tok * string) :=
  let '(mant, r) := span number_byte s in
  let '(text, is_real, r) := match lex_exponent r with
                             | Some (ex, r) => (mant +:+ ex, true, r)
                             | None => (mant, has_char "." mant, r)
                             end in
  tok ← (if is_real : bool then real_token text
         else match parse_i64 text with Some n => Ok (Tok.Int n) | None => real_token text end);
  Ok (tok, r).

Definition lex_word (s : string) : Tok * string :=
  let '(w, r) := span word_byte s in (Tok.Word w, r).

Definition just (r : Lexed (Tok * string)) : Lexed (option Tok * string) :=
  '(t, rest) ← r; Ok (Some t, rest).

(** One round of the loop at [c :: s]: a token, or blanks and comments passed over. *)
Definition lex_step (c : Ascii.ascii) (s : string) : Lexed (option Tok * string) :=
  if space_byte c then Ok (None, s)
  else if Ascii.eqb c "-" && head_is "-" s then
    Ok (None, (span (λ a, negb (Ascii.eqb a (Ascii.ascii_of_nat 10))) s).2)
  else if Ascii.eqb c "-" && head_is ">" s then
    if head_is ">" (tail s) then Ok (Some Tok.ArrowText, tail (tail s)) else Ok (Some Tok.Arrow, tail s)
  else match simple_token c with
  | Some t => Ok (Some t, s)
  | None => just (
      if Ascii.eqb c "<" || Ascii.eqb c ">" || Ascii.eqb c "!" then lex_operator c s
      else if Ascii.eqb c "|" then lex_pipe s
      else if Ascii.eqb c ":" then lex_colon s
      else if Ascii.eqb c "$" then lex_numparam s
      else if Ascii.eqb c "'" then lex_string s
      else if Ascii.eqb c (Ascii.ascii_of_nat 34) then lex_quoted_ident s
      else if Ascii.eqb c "`" then lex_backtick_ident s
      else if is_digit c then lex_number (String c s)
      else if word_start c then Ok (lex_word (String c s))
      else lex_err)
  end.

Definition push_opt {A} (o : option A) (l : list A) : list A :=
  match o with Some x => x :: l | None => l end.

(** Every round takes at least one byte, so the length of the text is enough fuel; [ErrInternal] marks the
    end of the fuel, an error the lexer itself never returns. *)
Fixpoint lex_go (fuel : nat) (s : string) : Lexed (list Tok) :=
  match s with
  | EmptyString => Ok [Tok.Eof]
  | String c r =>
      match fuel with
      | O => Err ErrInternal
      | S fuel => '(t, rest) ← lex_step c r; ts ← lex_go fuel rest; Ok (push_opt t ts)
      end
  end.

Definition lex (sql : string) : Lexed (list Tok) := lex_go (String.length sql) sql.

(** ** Re-stringifying tokens (sql.rs) *)

(** [s.replace('\'', "''")]. *)
Fixpoint double_quotes (s : string) : string :=
  match s with
  | EmptyString => EmptyString
  | String a r => if Ascii.eqb a "'" then String a (String a (double_quotes r)) else String a (double_quotes r)
  end.

Definition render_token (t : Tok) : string :=
  match t with
  | Tok.Word w => w
  | Tok.Int n => fmt_i64 n
  | Tok.Real r => display F64 r
  | Tok.Str s => "'" +:+ double_quotes s +:+ "'"
  | Tok.Param => "?"
  | Tok.NumParam n => "$" +:+ fmt_i64 n
  | Tok.NamedParam name => ":" +:+ name
  | Tok.LParen => "(" | Tok.RParen => ")" | Tok.LBracket => "[" | Tok.RBracket => "]"
  | Tok.Comma => "," | Tok.Semi => ";" | Tok.DColon => "::" | Tok.Dot => "." | Tok.Star => "*"
  | Tok.Eq => "=" | Tok.Ne => "<>" | Tok.Lt => "<" | Tok.Le => "<=" | Tok.Gt => ">" | Tok.Ge => ">="
  | Tok.Plus => "+" | Tok.Minus => "-" | Tok.Slash => "/" | Tok.Percent => "%"
  | Tok.Concat => "||" | Tok.Arrow => "->" | Tok.ArrowText => "->>"
  | Tok.VecL2 => "<->" | Tok.VecCosine => "<=>" | Tok.VecIp => "<#>"
  | Tok.Eof => ""
  end%string.

Definition needs_space (prev cur : Tok) : bool :=
  match cur, prev with
  | Tok.LParen, (Tok.Word _ | Tok.RParen) => false
  | (Tok.Comma | Tok.RParen | Tok.DColon | Tok.Dot), _ => false
  | _, (Tok.LParen | Tok.DColon | Tok.Dot) => false
  | _, _ => true
  end.

Fixpoint render_after (prev : Tok) (toks : list Tok) : string :=
  match toks with
  | [] => ""
  | t :: ts => (if needs_space prev t then " " else "") +:+ render_token t +:+ render_after t ts
  end%string.

Definition render_tokens (toks : list Tok) : string :=
  match toks with [] => ""%string | t :: ts => render_token t +:+ render_after t ts end.

(** * What the lexer promises

    Lexing ends on every text, with one [Eof] and only at the end; and the text that [render_tokens] makes of
    plain tokens lexes back to them. *)

#[local] Arguments String.append : simpl nomatch.

Abbreviation slen := String.length.

(** ** Every round takes a byte *)

Lemma span_length p s : (slen (span p s).2 ≤ slen s)%nat.
Proof. induction s as [|a s IH]; cbn; [lia|]. destruct (p a); cbn; [|lia]. destruct (span p s); cbn in *. lia. Qed.

Lemma span_rest p s w r : span p s = (w, r) → (slen r ≤ slen s)%nat.
Proof. intros H. pose proof (span_length p s) as L. by rewrite H in L. Qed.

Lemma tail_length s : (slen (tail s) ≤ slen s)%nat.
Proof. destruct s; cbn; lia. Qed.

(** The rest a lexing function returns is no longer than its input. *)
Definition shrinks (r : Lexed (Tok * string)) (s : string) : Prop :=
  ∀ t rest, r = Ok (t, rest) → (slen rest ≤ slen s)%nat.

Create HintDb lexlen.
#[export] Hint Resolve span_rest tail_length Nat.le_trans : lexlen.

(** Case analysis on what a lexing function tests, then arithmetic on lengths. *)
Ltac lex_cases :=
  repeat match goal with
  | H : context [span ?p ?s] |- _ =>
      let E := fresh "E" in destruct (span p s) eqn:E; apply span_rest in E; cbn in E
  | H : context [if ?b then _ else _] |- _ => destruct b
  | H : context [match ?x with _ => _ end] |- _ => is_var x; destruct x
  | H : context [match parse_u64 ?x with _ => _ end] |- _ => destruct (parse_u64 x)
  | H : Ok _ = Ok _ |- _ => injection H as H
  | H : lex_err = Ok _ |- _ => discriminate H
  | H : (_, _) = (_, _) |- _ => injection H as ? ?
  end; subst; cbn in *; try lia.

(** The branches of a chain of conditions on the head of the goal. *)
Ltac branches :=
  repeat match goal with
  | |- (if ?b then _ else _) = Ok _ → _ => destruct b eqn:?; [intros H1|]
  end; try intros H1.

Lemma lex_lt_shrinks s : (slen (lex_lt s).2 ≤ slen s)%nat.
Proof.
  pose proof (tail_length s). pose proof (tail_length (tail s)).
  unfold lex_lt. repeat case_match; cbn; lia.
Qed.

Lemma lex_operator_shrinks c s : shrinks (lex_operator c s) s.
Proof.
  intros t rest H. pose proof (tail_length s). unfold lex_operator in H. pose proof (lex_lt_shrinks s).
  destruct (Ascii.eqb c "<"); [injection H as H; by rewrite H in *|]. lex_cases.
Qed.

Lemma lex_colon_shrinks s : shrinks (lex_colon s) s.
Proof. intros t rest H. pose proof (tail_length s). unfold lex_colon in H. lex_cases. Qed.

Lemma lex_numparam_shrinks s : shrinks (lex_numparam s) s.
Proof. intros t rest H. unfold lex_numparam in H. lex_cases. Qed.

Lemma lex_quoted_shrinks q s : shrinks (lex_quoted q s) s.
Proof. intros t rest H. unfold lex_quoted in H. lex_cases. Qed.

Lemma lex_string_shrinks b : ∀ s, shrinks (lex_string_go b s) b.
Proof.
  induction b as [b IH] using (induction_ltof1 _ slen). intros s t rest H.
  destruct b as [|ch r]; [done|]. cbn in H. destruct (Ascii.eqb ch "'").
  - destruct r as [|ch2 r2]; [injection H as _ <-; cbn; lia|]. destruct (Ascii.eqb ch2 "'").
    + apply IH in H; [cbn; lia|unfold ltof; cbn; lia].
    + injection H as _ <-. cbn. lia.
  - apply IH in H; [cbn; lia|unfold ltof; cbn; lia].
Qed.

Lemma lex_exponent_rest s ex r : lex_exponent s = Some (ex, r) → (slen r ≤ slen s)%nat.
Proof.
  unfold lex_exponent. destruct s as [|a s]; [done|]. destruct (exp_byte a); [|done].
  destruct s as [|b s]; cbn; [intros [= <- <-]; cbn; lia|].
  destruct (sign_byte b).
  - destruct (span is_digit s) eqn:E. apply span_rest in E. intros [= _ <-]. lia.
  - destruct (span is_digit (String b s)) eqn:E. apply span_rest in E. cbn in E.
    intros H. assert (s1 = r) as -> by (by injection H). cbn. lia.
Qed.

Lemma span_first p c s : p c = true → (slen (span p (String c s)).2 ≤ slen s)%nat.
Proof. intros H. cbn. rewrite H. pose proof (span_length p s). by destruct (span p s). Qed.

Lemma digit_number c : is_digit c = true → number_byte c = true.
Proof. unfold number_byte. by intros ->. Qed.

Lemma start_byte c : word_start c = true → word_byte c = true.
Proof. unfold word_start, word_byte. by intros ->. Qed.

Lemma lex_number_shrinks c s : is_digit c = true → shrinks (lex_number (String c s)) s.
Proof.
  intros Hc t rest H. pose proof (span_first number_byte c s (digit_number c Hc)) as L. unfold lex_number in H.
  destruct (span number_byte (String c s)) as [mant r]. cbn in L.
  destruct (lex_exponent r) as [[ex r']|] eqn:E; [apply lex_exponent_rest in E|];
    apply Result_bind_Ok in H as (tok & _ & H); injection H as _ <-; lia.
Qed.

Lemma lex_step_shrinks c s t rest : lex_step c s = Ok (t, rest) → (slen rest ≤ slen s)%nat.
Proof.
  unfold lex_step. pose proof (tail_length s). pose proof (tail_length (tail s)).
  destruct (space_byte c); [intros [= _ <-]; lia|].
  destruct (_ && head_is "-" s).
  { intros H1. assert (rest = (span (λ a, negb (Ascii.eqb a (Ascii.ascii_of_nat 10))) s).2) as -> by congruence.
    apply span_length. }
  destruct (_ && head_is ">" s); [destruct (head_is ">" (tail s)); intros [= _ <-]; lia|].
  destruct (simple_token c); [intros [= _ <-]; lia|].
  unfold just. intros ((t' & r') & H1 & [= <- <-])%Result_bind_Ok. revert H1.
  branches.
  - by eapply lex_operator_shrinks.
  - unfold lex_pipe in H1. lex_cases.
  - by eapply lex_colon_shrinks.
  - by eapply lex_numparam_shrinks.
  - by eapply lex_string_shrinks.
  - by eapply lex_quoted_shrinks.
  - by eapply lex_quoted_shrinks.
  - by eapply lex_number_shrinks.
  - unfold lex_word in H1. pose proof (span_first word_byte c s (start_byte c ltac:(assumption))).
    destruct (span word_byte (String c s)). injection H1 as _ <-. done.
  - done.
Qed.

(** ** More fuel changes nothing *)

Lemma lex_go_fuel n s : (slen s ≤ n)%nat → lex_go n s = lex s.
Proof.
  revert s. induction n as [n IH] using lt_wf_ind. intros s Hn. unfold lex.
  destruct s as [|c r]; [by destruct n|]. destruct n as [|n]; [cbn in Hn; lia|]. cbn [slen lex_go]. cbn in Hn.
  destruct (lex_step c r) as [[t rest]|e] eqn:E; [|done]. apply lex_step_shrinks in E. cbn.
  rewrite (IH n) by lia. destruct (decide (slen r = n)) as [->|]; [|rewrite (IH (slen r)) by lia; done].
  rewrite (IH n) by lia. done.
Qed.

(** The loop of [lex], without fuel. *)
Lemma lex_cons c s : lex (String c s) = ('(t, rest) ← lex_step c s; ts ← lex rest; Ok (push_opt t ts)).
Proof.
  unfold lex at 1. cbn [slen lex_go]. destruct (lex_step c s) as [[t rest]|e] eqn:E; [|done].
  apply lex_step_shrinks in E. cbn. by rewrite lex_go_fuel.
Qed.

(** ** The shape of the result *)

Definition not_eof (t : Tok) : bool := match t with Tok.Eof => false | _ => true end.

(** No lexing function makes the end token. *)
Lemma simple_token_not_eof c t : simple_token c = Some t → not_eof t = true.
Proof. unfold simple_token. repeat case_match; intros; simplify_eq; done. Qed.

Lemma real_token_not_eof s t : real_token s = Ok t → not_eof t = true.
Proof. unfold real_token. destruct (parse_f64 s); [by intros [= <-]|done]. Qed.

Lemma lex_number_not_eof s t r : lex_number s = Ok (t, r) → not_eof t = true.
Proof.
  unfold lex_number. destruct (span number_byte s) as [m r0]. destruct (lex_exponent r0) as [[ex r']|];
    intros (tok & H & [= -> _])%Result_bind_Ok; [by apply real_token_not_eof in H|].
  destruct (has_char "." m); [by apply real_token_not_eof in H|].
  destruct (parse_i64 m); [by injection H as <-|by apply real_token_not_eof in H].
Qed.

Lemma lex_string_not_eof b : ∀ s t r, lex_string_go b s = Ok (t, r) → not_eof t = true.
Proof.
  induction b as [b IH] using (induction_ltof1 _ slen). intros s t r H.
  destruct b as [|ch b']; [done|]. cbn in H. destruct (Ascii.eqb ch "'").
  - destruct b' as [|ch2 b2]; [by injection H as <- _|]. destruct (Ascii.eqb ch2 "'"); [|by injection H as <- _].
    eapply IH; [|exact H]. unfold ltof. cbn. lia.
  - eapply IH; [|exact H]. unfold ltof. cbn. lia.
Qed.

Lemma lex_step_not_eof c s t rest : lex_step c s = Ok (Some t, rest) → not_eof t = true.
Proof.
  unfold lex_step. destruct (space_byte c); [done|]. destruct (_ && head_is "-" s); [done|].
  destruct (_ && head_is ">" s); [destruct (head_is ">" (tail s)); by intros [= <- _]|].
  destruct (simple_token c) eqn:Es; [intros [= -> _]; by eapply simple_token_not_eof|].
  unfold just. intros ((t' & r') & H1 & [= <- <-])%Result_bind_Ok. revert H1.
  branches.
  - unfold lex_operator, lex_lt in H1. repeat case_match; simplify_eq; done.
  - unfold lex_pipe in H1. repeat case_match; simplify_eq; done.
  - unfold lex_colon in H1. repeat case_match; simplify_eq; done.
  - unfold lex_numparam in H1. repeat case_match; simplify_eq; done.
  - by eapply lex_string_not_eof.
  - unfold lex_quoted_ident, lex_quoted in H1. repeat case_match; simplify_eq; done.
  - unfold lex_backtick_ident, lex_quoted in H1. repeat case_match; simplify_eq; done.
  - by eapply lex_number_not_eof.
  - unfold lex_word in H1. repeat case_match; simplify_eq; done.
  - done.
Qed.

(** The lexer's own errors are SQL errors. *)
Lemma lex_step_err c s e : lex_step c s = Err e → e = ErrSql.
Proof.
  assert (∀ b acc e, lex_string_go b acc = Err e → e = ErrSql) as Hstr.
  { induction b as [b IH] using (induction_ltof1 _ slen). intros acc e' H.
    destruct b as [|ch b']; cbn in H; [by injection H|]. destruct (Ascii.eqb ch "'").
    - destruct b' as [|ch2 b2]; [done|]. destruct (Ascii.eqb ch2 "'"); [|done].
      eapply IH; [|exact H]. unfold ltof. cbn. lia.
    - eapply IH; [|exact H]. unfold ltof. cbn. lia. }
  assert (∀ w e, real_token w = Err e → e = ErrSql) as Hreal.
  { intros w e'. unfold real_token. destruct (parse_f64 w); [done|]. by intros [= <-]. }
  unfold lex_step. destruct (space_byte c); [done|]. destruct (_ && head_is "-" s); [done|].
  destruct (_ && head_is ">" s); [by destruct (head_is ">" (tail s))|]. destruct (simple_token c); [done|].
  unfold just, mbind, Result_bind.
  match goal with |- (match ?x with Ok _ => _ | Err _ => _ end = _) → _ => destruct x as [[]|e'] eqn:E end;
    [done|]. intros [= <-]. revert E.
  repeat match goal with |- (if ?b then _ else _) = Err _ → _ => destruct b end.
  - unfold lex_operator. unfold lex_err; repeat case_match; intros; simplify_eq; done.
  - unfold lex_pipe. unfold lex_err; repeat case_match; intros; simplify_eq; done.
  - unfold lex_colon. unfold lex_err; repeat case_match; intros; simplify_eq; done.
  - unfold lex_numparam. unfold lex_err; repeat case_match; intros; simplify_eq; done.
  - apply Hstr.
  - unfold lex_quoted_ident, lex_quoted. unfold lex_err; repeat case_match; intros; simplify_eq; done.
  - unfold lex_backtick_ident, lex_quoted. unfold lex_err; repeat case_match; intros; simplify_eq; done.
  - unfold lex_number, mbind, Result_bind. unfold lex_err; repeat case_match; intros; simplify_eq; eauto.
  - done.
  - by intros [= <-].
Qed.

Lemma lex_total s :
  match lex s with
  | Ok ts => ∃ l, ts = l ++ [Tok.Eof] ∧ forallb not_eof l = true
  | Err e => e = ErrSql
  end.
Proof.
  induction s as [s IH] using (induction_ltof1 _ slen). destruct s as [|c s]; [by exists []|].
  rewrite lex_cons. destruct (lex_step c s) as [[t rest]|e] eqn:E; cbn; [|by eapply lex_step_err].
  specialize (IH rest). pose proof (lex_step_shrinks _ _ _ _ E).
  assert (ltof string slen rest (String c s)) as Hlt by (unfold ltof; cbn; lia). specialize (IH Hlt).
  destruct (lex rest) as [ts|e]; cbn; [|done]. destruct IH as (l & -> & Hl).
  destruct t as [t|]; [exists (t :: l)|by exists l]. split; [done|]. cbn. by rewrite (lex_step_not_eof _ _ _ _ E).
Qed.

(** ** Plain tokens lex back from their text *)

Definition all_bytes (p : Ascii.ascii → bool) : string → bool := free_of (λ a, negb (p a)).

Definition word_like (w : string) : bool :=
  match w with String a r => word_start a && all_bytes word_byte r | EmptyString => false end.

(** The shortest decimal of a real that is written with a point, and reads back. *)
Definition real_like (r : Z) : bool :=
  let d := display F64 r in
  match d with String a _ => is_digit a | EmptyString => false end &&
  all_bytes number_byte d && has_char "." d && bool_decide (parse_f64 d = Some r).

(** A token whose rendering means the token: identifiers that need no quotes, ASCII literals, reals with a
    fraction. *)
Definition plain (t : Tok) : bool :=
  match t with
  | Tok.Word w => word_like w
  | Tok.Int n => (0 <=? n) && (n <? 2 ^ 63)
  | Tok.Real r => real_like r
  | Tok.Str s => all_bytes (λ a, code a <? 0x80) s
  | Tok.NumParam n => (0 <=? n) && (n <? 2 ^ 64)
  | Tok.NamedParam name => negb (String.eqb name "") && all_bytes word_byte name
  | Tok.Eof => false
  | _ => true
  end.

Definition is_number (t : Tok) : bool := match t with Tok.Int _ | Tok.Real _ => true | _ => false end.
Definition is_dot (t : Tok) : bool := match t with Tok.Dot => true | _ => false end.

(** Plain tokens, none of them a point right after a number. *)
Fixpoint plain_after (prev : Tok) (ts : list Tok) : bool :=
  match ts with
  | [] => true
  | t :: ts => plain t && negb (is_number prev && is_dot t) && plain_after t ts
  end.
Definition plain_toks (ts : list Tok) : bool :=
  match ts with [] => true | t :: ts => plain t && plain_after t ts end.

(** A byte that continues no token. *)
Definition quiet (f : string) : bool :=
  match f with
  | EmptyString => true
  | String a _ => existsb (Ascii.eqb a) [" "; ","; ")"; ":"; "."; "("]%char
  end.

Lemma quiet_cases f : quiet f = true →
  f = EmptyString ∨ ∃ a r, f = String a r ∧ In a [" "; ","; ")"; ":"; "."; "("]%char.
Proof.
  destruct f as [|a r]; [by left|]. unfold quiet. intros (b & Hb & E)%existsb_exists. apply Ascii.eqb_eq in E as <-.
  right. by exists a, r.
Qed.

(** One case for each byte that may follow. *)
Ltac after_cases H :=
  apply quiet_cases in H as [->|(? & ? & -> & H)];
  [|cbn [In] in H; repeat (destruct H as [<-|H]; [|]); [..|destruct H]].

Lemma span_app p w f : all_bytes p w = true → (∀ a r, f = String a r → p a = false) → span p (w +:+ f) = (w, f).
Proof.
  intros Hw Hf. induction w as [|a w IH].
  - change ((""%string +:+ f)) with f. destruct f as [|a r]; [done|]. cbn. by rewrite (Hf a r).
  - unfold all_bytes in Hw. cbn in Hw. apply andb_true_iff in Hw as [Ha Hw]. rewrite negb_involutive in Ha. cbn.
    rewrite Ha. by rewrite IH.
Qed.

Lemma lex_read c s t f : lex_step c s = Ok (Some t, f) → lex (String c s) = (ts ← lex f; Ok (t :: ts)).
Proof. intros H. rewrite lex_cons, H. done. Qed.

Lemma word_step a s : word_start a = true → lex_step a s = just (Ok (lex_word (String a s))).
Proof. destruct a as [[] [] [] [] [] [] [] []]; try discriminate; reflexivity. Qed.

Lemma digit_step a s : is_digit a = true → lex_step a s = just (lex_number (String a s)).
Proof. destruct a as [[] [] [] [] [] [] [] []]; try discriminate; reflexivity. Qed.

Lemma quiet_span p f : quiet f = true →
  forallb (λ a, negb (p a)) [" "; ","; ")"; ":"; "."; "("]%char = true → ∀ a r, f = String a r → p a = false.
Proof.
  intros Hq Hp a r ->. rewrite forallb_forall in Hp. apply negb_true_iff, Hp.
  unfold quiet in Hq. apply existsb_exists in Hq as (b & Hb & E). by apply Ascii.eqb_eq in E as ->.
Qed.

Lemma read_word w f : word_like w = true → quiet f = true → lex (w +:+ f) = (ts ← lex f; Ok (Tok.Word w :: ts)).
Proof.
  destruct w as [|a w]; [done|]. intros [Ha Hw]%andb_true_iff Hq. cbn [String.append]. apply lex_read.
  rewrite word_step by done. unfold lex_word. change (String a (w +:+ f)) with (String a w +:+ f).
  rewrite span_app; [done| |by apply quiet_span].
  unfold all_bytes. cbn. rewrite negb_involutive, start_byte by done. done.
Qed.

Lemma has_char_all c p w : all_bytes p w = true → p c = false → has_char c w = false.
Proof.
  intros Hw Hc. induction w as [|a w IH]; [done|]. unfold all_bytes in Hw. cbn in *.
  apply andb_true_iff in Hw as [Ha Hw]. rewrite negb_involutive in Ha. rewrite IH by done.
  destruct (Ascii.eqb_spec a c) as [->|]; [congruence|done].
Qed.

Lemma fmt_digits n : 0 ≤ n → all_bytes is_digit (fmt_i64 n) = true.
Proof. intros Hn. apply fmt_pad_free; [done|]. by intros a ->. Qed.

Lemma all_bytes_weaken (p q : Ascii.ascii → bool) w :
  (∀ a, p a = true → q a = true) → all_bytes p w = true → all_bytes q w = true.
Proof.
  intros Hpq. unfold all_bytes. induction w as [|a w IH]; [done|]. cbn. rewrite !negb_involutive.
  intros [Ha Hw]%andb_true_iff. by rewrite (Hpq a Ha), IH.
Qed.

(** A literal without an exponent. *)
Lemma read_number w f t a r :
  w = String a r → is_digit a = true → all_bytes number_byte w = true → quiet f = true → head_is "." f = false →
  (if has_char "." w then real_token w
   else match parse_i64 w with Some n => Ok (Tok.Int n) | None => real_token w end) = Ok t →
  lex (w +:+ f) = (ts ← lex f; Ok (t :: ts)).
Proof.
  intros -> Ha Hw Hq Hd Ht. cbn [String.append]. apply lex_read. rewrite digit_step by done.
  unfold lex_number. change (String a (r +:+ f)) with (String a r +:+ f). rewrite span_app; [|done|].
  - assert (lex_exponent f = None) as ->; [|by rewrite Ht].
    after_cases Hq; reflexivity.
  - intros b r' ->. cbn in Hd. unfold quiet in Hq. unfold number_byte. rewrite Hd, orb_false_r.
    apply existsb_exists in Hq as (b' & Hb & ->%Ascii.eqb_eq). cbn [In] in Hb.
    repeat destruct Hb as [<-|Hb]; done.
Qed.

Lemma read_int n f : 0 ≤ n < 2 ^ 63 → quiet f = true → head_is "." f = false →
  lex (fmt_i64 n +:+ f) = (ts ← lex f; Ok (Tok.Int n :: ts)).
Proof.
  intros Hn Hq Hd. destruct (fmt_pad_list 1 n ltac:(lia)) as (a & r & _ & _ & Ha & _ & Da & _).
  pose proof (fmt_digits n ltac:(lia)) as Hall. fold (fmt_i64 n) in Ha.
  destruct (fmt_i64 n) as [|a' r'] eqn:E; [discriminate Ha|]. injection Ha as -> _. rewrite <- E in *.
  eapply read_number; [exact E|done| |done|done|].
  - eapply all_bytes_weaken; [|exact Hall]. apply digit_number.
  - rewrite (has_char_all _ is_digit) by done. unfold fmt_i64. by rewrite parse_fmt_pad.
Qed.

Lemma read_real r f : real_like r = true → quiet f = true → head_is "." f = false →
  lex (display F64 r +:+ f) = (ts ← lex f; Ok (Tok.Real r :: ts)).
Proof.
  unfold real_like. intros H Hq Hd. bool_to_Prop. destruct (display F64 r) as [|a w] eqn:E; [done|].
  eapply read_number; [done..|]. unfold real_token. by rewrite H1, H0.
Qed.

Lemma read_string_go s f acc : all_bytes (λ a, code a <? 0x80) s = true → head_is "'" f = false →
  lex_string_go (double_quotes s +:+ String "'" f) acc = Ok (Tok.Str (acc +:+ s), f).
Proof.
  intros Hs Hf. revert acc. induction s as [|a s IH]; intros acc.
  - cbn. rewrite str_app_nil_r. destruct f as [|b f]; [done|]. cbn in Hf. by rewrite Hf.
  - unfold all_bytes in Hs. cbn in Hs. apply andb_true_iff in Hs as [Ha Hs]. rewrite negb_involutive in Ha.
    apply Z.ltb_lt in Ha. cbn [double_quotes]. destruct (Ascii.eqb_spec a "'") as [->|Hne].
    + cbn. rewrite IH by done. by rewrite str_app_assoc.
    + cbn. destruct (Ascii.eqb_spec a "'"); [done|]. rewrite IH by done.
      assert (of_char (code a) = String a EmptyString) as ->; [|by rewrite str_app_assoc].
      unfold of_char. destruct (Z.ltb_spec (code a) 0x80); [|lia]. by rewrite of_code_code.
Qed.

Lemma read_numparam n f : 0 ≤ n < 2 ^ 64 → quiet f = true →
  lex ("$" +:+ fmt_i64 n +:+ f) = (ts ← lex f; Ok (Tok.NumParam n :: ts)).
Proof.
  intros Hn Hq. apply lex_read. change (lex_step "$" ?s) with (just (lex_numparam s)).
  unfold lex_numparam. rewrite span_app; [|apply fmt_digits; lia|by apply quiet_span].
  destruct (fmt_pad_list 1 n ltac:(lia)) as (a & r & _ & _ & Ha & _). fold (fmt_i64 n) in Ha.
  destruct (String.eqb_spec (fmt_i64 n) "") as [e|]; [by rewrite e in Ha|].
  assert (parse_u64 (fmt_i64 n) = Some n) as ->; [|done].
  unfold parse_u64. pose proof (fmt_pad_no_char "+" 1 n ltac:(lia) eq_refl) as Hp. fold (fmt_i64 n) in Hp.
  assert (match fmt_i64 n with
          | String a0 r0 => if Ascii.eqb a0 "+" then r0 else fmt_i64 n
          | EmptyString => fmt_i64 n end = fmt_i64 n) as ->.
  { destruct (fmt_i64 n); [done|]. cbn in Hp. by apply orb_false_iff in Hp as [-> _]. }
  destruct (String.eqb_spec (fmt_i64 n) ""); [done|]. unfold fmt_i64, fmt_pad.
  destruct (Z.ltb_spec n 0); [lia|]. pose proof (dec_len_pos n). pose proof (dec_len_bound n ltac:(lia)).
  replace (Nat.max 1 (dec_len n)) with (dec_len n) by lia.
  rewrite parse_digits_dec; rewrite ?Z.mod_small by lia; unfold u64_max; try lia; f_equal; lia.
Qed.

Lemma read_named w f : w ≠ ""%string → all_bytes word_byte w = true → quiet f = true →
  lex (":" +:+ w +:+ f) = (ts ← lex f; Ok (Tok.NamedParam w :: ts)).
Proof.
  intros Hne Hw Hq. apply lex_read. change (lex_step ":" ?s) with (just (lex_colon s)).
  unfold lex_colon. assert (head_is ":" (w +:+ f) = false) as ->.
  { destruct w as [|a w]; [done|]. unfold all_bytes in Hw. cbn in Hw. apply andb_true_iff in Hw as [Ha _].
    rewrite negb_involutive in Ha. cbn. destruct (Ascii.eqb_spec a ":") as [->|]; [done|done]. }
  rewrite span_app; [|done|by apply quiet_span]. by destruct (String.eqb_spec w "").
Qed.

(** Tokens after which anything may follow at once. *)
Definition opens (t : Tok) : bool := match t with Tok.LParen | Tok.DColon | Tok.Dot => true | _ => false end.

Lemma read_token t f :
  plain t = true → (opens t = true ∨ quiet f = true) → (is_number t = true → head_is "." f = false) →
  lex (render_token t +:+ f) = (ts ← lex f; Ok (t :: ts)).
Proof.
  intros Hp Hf Hn.
  destruct t; cbn [opens] in Hf; try (destruct Hf as [Hf|Hf]; [discriminate Hf|]); cbn [plain is_number] in *;
    bool_to_Prop; cbn [render_token];
    lazymatch goal with
    | |- context [Tok.Word] => by apply read_word
    | |- context [Tok.Int] => by apply read_int; auto
    | |- context [Tok.Real] => by apply read_real; auto
    | |- context [Tok.NumParam] => rewrite str_app_assoc; by apply read_numparam
    | |- context [Tok.NamedParam] =>
        rewrite str_app_assoc; apply read_named; [|done..]; by destruct (String.eqb_spec name "")
    | |- context [Tok.Str] => idtac
    | |- context [Tok.Eof] => discriminate
    | |- _ => apply lex_read; first [reflexivity | after_cases Hf; reflexivity]
    end.
  rewrite str_app_assoc. cbn [String.append]. apply lex_read.
  change (lex_step "'" ?x) with (just (lex_string x)). unfold lex_string.
  rewrite str_app_assoc. change ("'" +:+ f) with (String "'" f).
  rewrite read_string_go; [done|done|]. after_cases Hf; reflexivity.
Qed.

(** What follows a token in a rendering continues it only where the token lets it. *)
Lemma after_quiet prev ts : opens prev = true ∨ quiet (render_after prev ts) = true.
Proof.
  destruct (opens prev) eqn:Ho; [by left|right]. destruct ts as [|t ts]; [done|]. cbn [render_after].
  destruct (needs_space prev t) eqn:E; [done|].
  destruct t, prev; try discriminate E; try discriminate Ho; done.
Qed.

Lemma after_dot prev ts : plain_after prev ts = true → is_number prev = true → head_is "." (render_after prev ts) = false.
Proof.
  intros H Hn. destruct ts as [|t ts]; [done|]. cbn in H. rewrite Hn in H. bool_to_Prop. cbn in H1.
  cbn [render_after]. destruct (needs_space prev t) eqn:E; [done|].
  destruct t, prev; try discriminate E; try discriminate Hn; try discriminate H1; done.
Qed.

Lemma lex_blank f : lex (" " +:+ f) = lex f.
Proof.
  change (" " +:+ f) with (String " " f). rewrite lex_cons. change (lex_step " " f) with (Ok (E:=EngineStatus) (@None Tok, f)).
  unfold mbind, Result_bind. by destruct (lex f).
Qed.

Lemma lex_after prev ts : plain_after prev ts = true → lex (render_after prev ts) = Ok (ts ++ [Tok.Eof]).
Proof.
  revert prev. induction ts as [|t ts IH]; intros prev H; [done|]. cbn in H. bool_to_Prop. cbn [render_after].
  assert (∀ s, lex ((if needs_space prev t then " " else "") +:+ s) = lex s) as ->.
  { intros s. destruct (needs_space prev t); [apply lex_blank|done]. }
  rewrite read_token; [|done|apply after_quiet|by apply after_dot]. by rewrite IH.
Qed.

Lemma lex_render ts : plain_toks ts = true → lex (render_tokens ts) = Ok (ts ++ [Tok.Eof]).
Proof.
  destruct ts as [|t ts]; [done|]. unfold plain_toks, render_tokens. intros H. bool_to_Prop.
  rewrite read_token; [|done|apply after_quiet|by apply after_dot]. by rewrite lex_after.
Qed.
