(* ===== verification/Parser.v ===== *)
(** * The SQL parser (crates/engine/src/sql.rs)

    Recursive descent over the token stream.  The cursor, the placeholders seen and the source text are the
    state; every error is [ErrSql].

    The grammar is recursive through five methods: [expr], [select], [parse_from], [not_expr] and
    [unary_expr].  A call of one of them from below is a field of [Calls]; [calls] closes the recursion with
    fuel for its depth.  Each such call comes after a token has been consumed, so the number of tokens is
    enough.  A [loop] of the source continues only after it consumed a token, and is given the number of
    tokens left.  [ErrInternal], which the parser never returns, marks the end of the fuel. *)

From Stdlib Require Import SpecFloat.
From S2P Require Import Prelude Text Numbers EngineTypes Chars Float Ast Lex.
Import Statement.

Record PState := mkPState {
  toks : list Tok;
  src : string;
  pos : nat;
  next_param : Z;
  max_param : Z;
  named_params : gmap string Z
}.

(** [Parser::new]. *)
Definition parser_new (ts : list Tok) : PState := mkPState ts "" 0 1 0 ∅.

Definition set_pos (p : nat) (s : PState) : PState :=
  mkPState (toks s) (src s) p (next_param s) (max_param s) (named_params s).

Definition Parse (A : Type) : Type := PState → Result EngineStatus (A * PState).

#[export] Instance Parse_ret : MRet Parse := λ A a s, Ok (a, s).
#[export] Instance Parse_bind : MBind Parse := λ A B f m s,
  match m s with Ok (a, s') => f a s' | Err e => Err e end.

Definition fail {A} : Parse A := λ _, Err ErrSql.
Definition no_fuel {A} : Parse A := λ _, Err ErrInternal.

(** ** The cursor *)

(** [self.toks.get(self.pos + k)], past the end as the end token. *)
Definition tok_at (k : nat) (s : PState) : Tok := default Tok.Eof (toks s !! (pos s + k)%nat).
Definition peek (s : PState) : Tok := tok_at 0 s.
Definition remaining (s : PState) : nat := length (toks s) - pos s.

Definition bump : Parse Tok := λ s,
  Ok (peek s, if (S (pos s) <? length (toks s))%nat then set_pos (S (pos s)) s else s).

(** A test of the state that consumes nothing. *)
Definition look {A} (f : PState → A) : Parse A := λ s, Ok (f s, s).

Definition skip (t : Tok) : Parse bool :=
  b ← look (λ s, bool_decide (peek s = t)); if b : bool then _ ← bump; mret true else mret false.

Definition expect (t : Tok) : Parse unit :=
  b ← look (λ s, bool_decide (peek s = t)); if b : bool then _ ← bump; mret tt else fail.

Definition word_of (t : Tok) : option string := match t with Tok.Word w => Some w | _ => None end.
Definition peek_word (s : PState) : option string := word_of (peek s).
Definition tok_is_kw (kw : string) (t : Tok) : bool :=
  match t with Tok.Word w => eq_ignore_ascii_case w kw | _ => false end.

Definition is_kw (kw : string) (s : PState) : bool := tok_is_kw kw (peek s).
Definition next_is_kw (kw : string) (s : PState) : bool := tok_is_kw kw (tok_at 1 s).

Definition eat_kw (kw : string) : Parse bool :=
  b ← look (is_kw kw); if b : bool then _ ← bump; mret true else mret false.

(** [self.eat_kw(a) || self.eat_kw(b) || …]. *)
Fixpoint eat_any (kws : list string) : Parse bool :=
  match kws with
  | [] => mret false
  | kw :: kws => b ← eat_kw kw; if b : bool then mret true else eat_any kws
  end.

Definition expect_kw (kw : string) : Parse unit :=
  b ← eat_kw kw; if b : bool then mret tt else fail.

Definition ident : Parse string :=
  t ← bump; match t with Tok.Word w => mret w | _ => fail end.

(** ** Loops *)

(** [loop { … }]: [inl] continues with a new value of the loop's variable, [inr] is [break]. *)
Fixpoint loop_go {A B} (fuel : nat) (step : A → Parse (A + B)) (a : A) : Parse B :=
  match fuel with
  | O => no_fuel
  | S fuel => r ← step a; match r with inl a => loop_go fuel step a | inr b => mret b end
  end.
Definition loop {A B} (step : A → Parse (A + B)) (a : A) : Parse B := λ s, loop_go (S (remaining s)) step a s.

(** [loop { out.push(p()?); if self.skip(Tok::Comma) { continue } break }]. *)
Definition comma_list {A} (p : Parse A) : Parse (list A) :=
  loop (λ out, x ← p; c ← skip Tok.Comma; mret (if c : bool then inl (out ++ [x]) else inr (out ++ [x]))) [].

(** [while c(self.peek()) { self.bump() }]: the condition fails on [Eof]. *)
Definition bump_while (c : Tok → bool) : Parse unit :=
  loop (λ _, t ← look peek; if c t then _ ← bump; mret (inl tt) else mret (inr tt)) tt.

(** [if self.eat_kw(kw) { Some(p()?) } else { None }]. *)
Definition opt_clause {A} (kw : string) (p : Parse A) : Parse (option A) :=
  b ← eat_kw kw; if b : bool then x ← p; mret (Some x) else mret None.

Definition at_end (t : Tok) : bool := match t with Tok.Semi | Tok.Eof => true | _ => false end.
Definition skip_to_end : Parse unit := bump_while (λ t, negb (at_end t)).

(** The depth is an [i32]. *)
Definition skip_parens : Parse unit :=
  b ← look (λ s, bool_decide (peek s = Tok.LParen));
  if negb b then mret tt
  else loop (λ depth : Z,
    t ← look peek;
    match t with
    | Tok.LParen => _ ← bump; mret (inl (depth + 1))
    | Tok.RParen => _ ← bump; mret (if depth - 1 =? 0 then inr tt else inl (depth - 1))
    | Tok.Eof => mret (inr tt)
    | _ => _ ← bump; mret (inl depth)
    end) 0.

(** ** Placeholders *)

Definition param_index (tok : Tok) : Parse Z := λ s,
  let fresh := next_param s in
  let '(idx, next, named) :=
    match tok with
    | Tok.NumParam n => (n, next_param s, named_params s)
    | Tok.NamedParam name =>
        match named_params s !! name with
        | Some i => (i, next_param s, named_params s)
        | None => (fresh, fresh + 1, <[name := fresh]> (named_params s))
        end
    | _ => (fresh, fresh + 1, named_params s)
    end in
  Ok (idx, mkPState (toks s) (src s) (pos s) next (Z.max (max_param s) idx) named).

Definition is_param (t : Tok) : bool :=
  match t with Tok.Param | Tok.NumParam _ | Tok.NamedParam _ => true | _ => false end.

(** ** Word lists *)

Definition one_of (kws : list string) (w : string) : bool := existsb (eq_ignore_ascii_case w) kws.

(** [p]* stripped from the front, or the back. *)
Fixpoint strip_all (strip : string → option string) (fuel : nat) (s : string) : string :=
  match fuel with
  | O => s
  | S fuel => match strip s with Some r => strip_all strip fuel r | None => s end
  end.
Definition trim_start_str (p s : string) : string := strip_all (strip_prefix p) (String.length s) s.
Definition trim_end_str (p s : string) : string := strip_all (strip_suffix p) (String.length s) s.

Definition opclass_metric (w : string) : option Metric :=
  let w := to_ascii_lowercase w in
  if negb (starts_with "vector_" w) || negb (ends_with "_ops" w) then None
  else let k := trim_end_str "_ops" (trim_start_str "vector_" w) in
       if String.eqb k "cosine" then Some Cosine
       else if String.eqb k "l2" then Some L2
       else if String.eqb k "ip" then Some InnerProduct
       else None.

Definition agg_func (w : string) : option AggFunc :=
  if eq_ignore_ascii_case w "count" then Some Count
  else if eq_ignore_ascii_case w "sum" then Some Sum
  else if eq_ignore_ascii_case w "min" then Some Min
  else if eq_ignore_ascii_case w "max" then Some Max
  else if eq_ignore_ascii_case w "avg" then Some Avg
  else if eq_ignore_ascii_case w "json_agg" then Some JsonAgg
  else if eq_ignore_ascii_case w "jsonb_agg" then Some JsonAgg
  else if eq_ignore_ascii_case w "group_concat" then Some GroupConcat
  else if eq_ignore_ascii_case w "string_agg" then Some GroupConcat
  else None.

Definition is_constraint_kw : string → bool :=
  one_of ["primary"; "not"; "null"; "unique"; "references"; "default"; "check"; "autoincrement"; "collate";
          "generated"]%string.
Definition is_serial_type : string → bool :=
  one_of ["serial"; "bigserial"; "smallserial"; "serial4"; "serial8"; "serial2"]%string.
Definition is_clause_kw : string → bool :=
  one_of ["from"; "where"; "order"; "limit"; "offset"; "group"; "having"; "as"; "and"; "or"; "is"; "like";
          "ilike"; "asc"; "desc"; "nulls"; "returning"; "on"; "between"; "union"; "intersect"; "except"]%string.
Definition is_from_boundary_kw : string → bool :=
  one_of ["join"; "inner"; "left"; "right"; "full"; "cross"; "on"; "using"; "where"; "group"; "order"; "limit";
          "offset"; "having"; "union"; "intersect"; "except"; "as"]%string.

(** ** Pieces shared by the grammar *)

Definition paren_ident_list : Parse (list string) :=
  _ ← expect Tok.LParen; cols ← comma_list ident; _ ← expect Tok.RParen; mret cols.

Definition is_tok (t : Tok) (s : PState) : bool := bool_decide (peek s = t).
Definition starts_query (s : PState) : bool := is_kw "select" s || is_kw "with" s.

Definition eat_type_modifiers (word : string) : Parse unit :=
  let w := to_ascii_lowercase word in
  if String.eqb w "double" then _ ← eat_kw "precision"; mret tt
  else if String.eqb w "character" || String.eqb w "bit" then _ ← eat_kw "varying"; mret tt
  else if String.eqb w "timestamp" || String.eqb w "time" then
    b ← eat_any ["with"; "without"]%string;
    if b : bool then _ ← eat_kw "time"; _ ← eat_kw "zone"; mret tt else mret tt
  else mret tt.

Definition not_rparen (t : Tok) : bool := match t with Tok.RParen | Tok.Eof => false | _ => true end.

(** The array markers after a type. *)
Definition array_marks : Parse unit :=
  loop (λ _, b ← skip Tok.LBracket; if b : bool then _ ← expect Tok.RBracket; mret (inl tt) else mret (inr tt)) tt.

Definition parse_cast_type : Parse CastTarget :=
  word ← ident;
  dot ← skip Tok.Dot;
  word ← (if dot : bool then ident else mret word);
  let target := CastTarget_from_word word in
  _ ← eat_type_modifiers word;
  paren ← skip Tok.LParen;
  _ ← (if paren : bool then _ ← bump_while not_rparen; expect Tok.RParen else mret tt);
  _ ← array_marks;
  mret target.

(** [r as f32]. *)
Definition f64_to_f32 (a : Z) : Z :=
  encode_f F32 (match decode_f F64 a with
                | S754_finite s m e => binary_normalize 24 128 (cond_Zopp s (Zpos m)) e s
                | x => x
                end).

Definition number_component : Parse Z :=
  neg ← skip Tok.Minus;
  t ← bump;
  v ← match t with
      | Tok.Int n => mret (f_of_Z F32 n)
      | Tok.Real r => mret (f64_to_f32 r)
      | _ => fail
      end;
  mret (if neg : bool then f_neg F32 v else v).

Definition vector_literal : Parse Expr :=
  _ ← expect Tok.LBracket;
  empty ← look (is_tok Tok.RBracket);
  comps ← (if empty : bool then mret [] else comma_list number_component);
  _ ← expect Tok.RBracket;
  mret (EVector comps).

Definition limit_value : Parse Expr :=
  t ← look peek;
  if is_param t then tok ← bump; idx ← param_index tok; mret (EParam idx)
  else
    neg ← skip Tok.Minus;
    t ← bump;
    match t with Tok.Int n => mret (EInt (if neg : bool then - n else n)) | _ => fail end.

Definition opt_ident_unless (stop : string → bool) : Parse (option string) :=
  as_ ← eat_kw "as";
  if as_ : bool then x ← ident; mret (Some x)
  else w ← look peek_word;
       match w with
       | Some w => if stop w then mret None else x ← ident; mret (Some x)
       | None => mret None
       end.
Definition opt_alias : Parse (option string) := opt_ident_unless is_clause_kw.
Definition parse_from_alias : Parse (option string) := opt_ident_unless is_from_boundary_kw.

(** [let _ = self.eat_kw("inner") && self.eat_kw("join")]. *)
Definition inner_join : Parse (option JoinKind) :=
  i ← eat_kw "inner"; _ ← (if i : bool then eat_kw "join" else mret false); mret (Some Inner).

Fixpoint join_sides (l : list (string * JoinKind)) : Parse (option JoinKind) :=
  match l with
  | [] => mret None
  | (kw, kind) :: l =>
      b ← eat_kw kw;
      if b : bool then _ ← eat_kw "outer"; _ ← expect_kw "join"; mret (Some kind) else join_sides l
  end.

Definition parse_join_kind : Parse (option JoinKind) :=
  j ← eat_kw "join";
  if j : bool then inner_join
  else
    inner ← look (λ s, is_kw "inner" s && next_is_kw "join" s);
    if inner : bool then inner_join
    else
      cross ← eat_kw "cross";
      if cross : bool then _ ← expect_kw "join"; mret (Some CrossJoin)
      else join_sides [("left"%string, LeftJoin); ("right"%string, RightJoin); ("full"%string, FullJoin)].

(** * Expressions and queries (crates/engine/src/sql.rs)

    The expression grammar by precedence climbing, and the query grammar. *)

(** The calls back into the grammar. *)
Record Calls := mkCalls {
  c_expr : Parse Expr;
  c_select : Parse SelectStmt;
  c_from : Parse FromClause;
  c_not : Parse Expr;
  c_unary : Parse Expr
}.

(** [let mut left = p()?; while let Some(f) = op(self.peek()) { self.bump(); left = f(left, p()?) }]. *)
Definition left_assoc (op : Tok → option (Expr → Expr → Expr)) (p : Parse Expr) : Parse Expr :=
  left ← p;
  loop (λ left,
    t ← look peek;
    match op t with
    | Some f => _ ← bump; right ← p; mret (inl (f left right))
    | None => mret (inr left)
    end) left.

Definition or_op (t : Tok) : option (Expr → Expr → Expr) :=
  if tok_is_kw "or" t then Some (EBinary OpOr) else None.
Definition and_op (t : Tok) : option (Expr → Expr → Expr) :=
  if tok_is_kw "and" t then Some (EBinary OpAnd) else None.
Definition vecdist_op (t : Tok) : option (Expr → Expr → Expr) :=
  match t with
  | Tok.VecL2 => Some (EBinary VecL2)
  | Tok.VecCosine => Some (EBinary VecCosine)
  | Tok.VecIp => Some (EBinary VecIp)
  | _ => None
  end.
Definition concat_op (t : Tok) : option (Expr → Expr → Expr) :=
  match t with
  | Tok.Concat => Some (EBinary OpConcat)
  | Tok.Arrow => Some (λ l r, EFunc "json_get" [l; r])
  | Tok.ArrowText => Some (λ l r, EFunc "json_get_text" [l; r])
  | _ => None
  end.
Definition add_op (t : Tok) : option (Expr → Expr → Expr) :=
  match t with Tok.Plus => Some (EBinary OpAdd) | Tok.Minus => Some (EBinary OpSub) | _ => None end.
Definition mul_op (t : Tok) : option (Expr → Expr → Expr) :=
  match t with
  | Tok.Star => Some (EBinary OpMul)
  | Tok.Slash => Some (EBinary OpDiv)
  | Tok.Percent => Some (EBinary OpMod)
  | _ => None
  end.
Definition cmp_op (t : Tok) : option BinOp :=
  match t with
  | Tok.Eq => Some OpEq | Tok.Ne => Some OpNe | Tok.Lt => Some OpLt
  | Tok.Le => Some OpLe | Tok.Gt => Some OpGt | Tok.Ge => Some OpGe
  | _ => None
  end.

(** A predicate keyword that takes a [NOT] before it. *)
Definition starts_neg_predicate (t : Tok) : bool :=
  match t with Tok.Word w => one_of ["like"; "ilike"; "in"; "between"]%string w | _ => false end.
Definition next_starts_neg_predicate (s : PState) : bool := starts_neg_predicate (tok_at 1 s).
Definition next_is_lparen (s : PState) : bool := bool_decide (tok_at 1 s = Tok.LParen).

Section Grammar.
Variable c : Calls.

(** [if self.peek() != &close { loop { … } }]: a possibly empty list of expressions. *)
Definition expr_list_until (close : Tok) : Parse (list Expr) :=
  b ← look (is_tok close); if b : bool then mret [] else comma_list (c_expr c).

Definition aggregate_call (func : AggFunc) : Parse Expr :=
  _ ← expect Tok.LParen;
  distinct ← eat_kw "distinct";
  _ ← eat_kw "all";
  star ← skip Tok.Star;
  arg ← (if star : bool then mret None else e ← c_expr c; mret (Some e));
  comma ← skip Tok.Comma;
  sep ← (if comma : bool then e ← c_expr c; mret (Some e) else mret None);
  _ ← expect Tok.RParen;
  mret (EAggregate func arg distinct sep).

Definition func_call (name : string) : Parse Expr :=
  match agg_func name with
  | Some func => aggregate_call func
  | None =>
      _ ← expect Tok.LParen;
      star ← look (is_tok Tok.Star);
      args ← (if star : bool then _ ← bump; mret [] else expr_list_until Tok.RParen);
      _ ← expect Tok.RParen;
      mret (EFunc name args)
  end.

Definition cast_call : Parse Expr :=
  _ ← bump;
  _ ← expect Tok.LParen;
  e ← c_expr c;
  _ ← expect_kw "as";
  target ← parse_cast_type;
  _ ← expect Tok.RParen;
  mret (ECast e target).

Definition exists_expr : Parse Expr :=
  _ ← bump;
  _ ← expect Tok.LParen;
  query ← c_select c;
  _ ← expect Tok.RParen;
  mret (EExists query false).

Definition extract_call : Parse Expr :=
  _ ← bump;
  _ ← expect Tok.LParen;
  field ← ident;
  _ ← expect_kw "from";
  source ← c_expr c;
  _ ← expect Tok.RParen;
  mret (EFunc "extract" [EStr (to_ascii_lowercase field); source]).

Definition when_list : Parse (list (Expr * Expr)) :=
  loop (λ whens,
    b ← eat_kw "when";
    if b : bool then
      cond ← c_expr c; _ ← expect_kw "then"; result ← c_expr c; mret (inl (whens ++ [(cond, result)]))
    else mret (inr whens)) [].

Definition case_expr : Parse Expr :=
  _ ← expect_kw "case";
  searched ← look (is_kw "when");
  operand ← (if searched : bool then mret None else e ← c_expr c; mret (Some e));
  whens ← when_list;
  if bool_decide (whens = []) then fail
  else
    els ← opt_clause "else" (c_expr c);
    _ ← expect_kw "end";
    mret (ECase operand whens els).

(** The part of [primary] for a word that is no keyword: a column, a qualified name or a call. *)
Definition name_expr (w : string) : Parse Expr :=
  _ ← bump;
  call ← look (is_tok Tok.LParen);
  if call : bool then func_call w
  else
    dot ← skip Tok.Dot;
    if dot : bool then
      col ← ident;
      call ← look (is_tok Tok.LParen);
      if call : bool then func_call (w +:+ "." +:+ col)
      else if eq_ignore_ascii_case w "excluded" then mret (EExcluded col)
      else mret (EQualified w col)
    else mret (EColumn w).

(** The expression a word starts; [paren]: a parenthesis follows the word. *)
Definition word_case (w : string) (paren : bool) : Parse Expr :=
  let kw := eq_ignore_ascii_case w in
  if kw "null" then _ ← bump; mret ENull
  else if kw "true" then _ ← bump; mret (EInt 1)
  else if kw "false" then _ ← bump; mret (EInt 0)
  else if kw "default" then _ ← bump; mret EDefault
  else if kw "case" then case_expr
  else if kw "cast" && paren then cast_call
  else if kw "extract" && paren then extract_call
  else if kw "exists" && paren then exists_expr
  else name_expr w.
Definition word_expr (w : string) : Parse Expr := paren ← look next_is_lparen; word_case w paren.

Definition primary : Parse Expr :=
  t ← look peek;
  match t with
  | Tok.Int n => _ ← bump; mret (EInt n)
  | Tok.Real r => _ ← bump; mret (EReal r)
  | Tok.Str s => _ ← bump; mret (EStr s)
  | Tok.Param | Tok.NumParam _ | Tok.NamedParam _ => tok ← bump; idx ← param_index tok; mret (EParam idx)
  | Tok.LParen =>
      _ ← bump;
      q ← look starts_query;
      if q : bool then q ← c_select c; _ ← expect Tok.RParen; mret (EScalarSubquery q)
      else e ← c_expr c; _ ← expect Tok.RParen; mret e
  | Tok.LBracket => vector_literal
  | Tok.Word w => word_expr w
  | _ => fail
  end.

Definition cast_expr : Parse Expr :=
  e ← primary;
  loop (λ e,
    b ← skip Tok.DColon;
    if b : bool then target ← parse_cast_type; mret (inl (ECast e target)) else mret (inr e)) e.

Definition unary_expr : Parse Expr :=
  m ← skip Tok.Minus;
  if m : bool then e ← c_unary c; mret (EUnary Neg e)
  else p ← skip Tok.Plus; if p : bool then c_unary c else cast_expr.

Definition mul_expr : Parse Expr := left_assoc mul_op unary_expr.
Definition add_expr : Parse Expr := left_assoc add_op mul_expr.
Definition concat_expr : Parse Expr := left_assoc concat_op add_expr.
Definition vecdist_expr : Parse Expr := left_assoc vecdist_op concat_expr.

Definition like_tail (left : Expr) (negated : bool) : Parse Expr :=
  insensitive ← look (is_kw "ilike");
  _ ← bump;
  pattern ← vecdist_expr;
  escape ← opt_clause "escape" vecdist_expr;
  mret (ELike left pattern escape negated insensitive).

Definition in_tail (left : Expr) (negated : bool) : Parse Expr :=
  _ ← expect Tok.LParen;
  q ← look starts_query;
  if q : bool then query ← c_select c; _ ← expect Tok.RParen; mret (EInSubquery left query negated)
  else
    l ← expr_list_until Tok.RParen;
    _ ← expect Tok.RParen;
    mret (EInList left l negated).

Definition between_tail (left : Expr) (negated : bool) : Parse Expr :=
  lo ← vecdist_expr; _ ← expect_kw "and"; hi ← vecdist_expr; mret (EBetween left lo hi negated).

(** The predicate after a left operand and the NOT that belongs to it. *)
Definition predicate_tail (left : Expr) (negated : bool) : Parse Expr :=
  like ← look (λ s, is_kw "like" s || is_kw "ilike" s);
  if like : bool then like_tail left negated
  else
    in_ ← eat_kw "in";
    if in_ : bool then in_tail left negated
    else
      between ← eat_kw "between";
      if between : bool then between_tail left negated
      else
        t ← look peek;
        match cmp_op t with
        | Some op => _ ← bump; right ← vecdist_expr; mret (EBinary op left right)
        | None => mret left
        end.

(** What follows the left operand of a comparison. *)
Definition cmp_tail (left : Expr) : Parse Expr :=
  is_ ← eat_kw "is";
  if is_ : bool then negated ← eat_kw "not"; _ ← expect_kw "null"; mret (EIsNull left negated)
  else
    negated ← look (λ s, is_kw "not" s && next_starts_neg_predicate s);
    _ ← (if negated : bool then _ ← bump; mret tt else mret tt);
    predicate_tail left negated.

Definition cmp_expr : Parse Expr := left ← vecdist_expr; cmp_tail left.

Definition not_expr : Parse Expr :=
  b ← eat_kw "not";
  if b : bool then e ← c_not c; mret (EUnary Not e) else cmp_expr.

Definition and_expr : Parse Expr := left_assoc and_op not_expr.
Definition or_expr : Parse Expr := left_assoc or_op and_expr.
Definition expr : Parse Expr := or_expr.

(** ** Queries *)

Definition select_item : Parse SelItem :=
  star ← skip Tok.Star;
  if star : bool then mret (Star None)
  else
    t ← look peek;
    dot_star ← look (λ s, bool_decide (tok_at 1 s = Tok.Dot) && bool_decide (tok_at 2 s = Tok.Star));
    match word_of t, dot_star with
    | Some w, true => _ ← bump; _ ← bump; _ ← bump; mret (Star (Some w))
    | _, _ => e ← c_expr c; alias ← opt_alias; mret (SelExpr e alias)
    end.

Definition parse_with : Parse (list (string * SelectStmt)) :=
  b ← eat_kw "with";
  if negb b then mret []
  else
    _ ← eat_kw "recursive";
    comma_list (
      name ← ident;
      cols ← look (is_tok Tok.LParen);
      _ ← (if cols : bool then _ ← paren_ident_list; mret tt else mret tt);
      _ ← expect_kw "as";
      _ ← expect Tok.LParen;
      query ← c_select c;
      _ ← expect Tok.RParen;
      mret (name, query)).

Definition parse_group_by : Parse (list Expr) :=
  b ← eat_kw "group";
  if b : bool then _ ← expect_kw "by"; comma_list (c_expr c) else mret [].

Definition order_key : Parse OrderKey :=
  e ← c_expr c;
  desc ← eat_kw "desc";
  asc ← (if desc : bool then mret false else _ ← eat_kw "asc"; mret true);
  nulls ← eat_kw "nulls";
  nulls_first ← (if nulls : bool then
                   first_ ← eat_kw "first";
                   if first_ : bool then mret true else _ ← expect_kw "last"; mret false
                 else mret asc);
  mret (mkOrderKey e asc nulls_first).

Definition parse_order_by : Parse (list OrderKey) :=
  b ← eat_kw "order";
  if b : bool then _ ← expect_kw "by"; comma_list order_key else mret [].

(** The loop's variables are the two clauses seen so far. *)
Definition parse_limit_offset : Parse (option Expr * option Expr) :=
  loop (λ '(limit, offset),
    l ← (if bool_decide (limit = None) then eat_kw "limit" else mret false);
    if l : bool then
      all ← eat_kw "all";
      if all : bool then mret (inl (limit, offset))
      else n ← limit_value; mret (inl (Some n, offset))
    else
      o ← (if bool_decide (offset = None) then eat_kw "offset" else mret false);
      if o : bool then n ← limit_value; _ ← eat_any ["row"; "rows"]%string; mret (inl (limit, Some n))
      else mret (inr (limit, offset))) (None, None).

Definition parse_from_item : Parse FromClause :=
  paren ← skip Tok.LParen;
  if paren : bool then
    q ← look starts_query;
    if q : bool then
      query ← c_select c;
      _ ← expect Tok.RParen;
      alias ← parse_from_alias;
      match alias with Some alias => mret (FDerived query alias) | None => fail end
    else inner ← c_from c; _ ← expect Tok.RParen; mret inner
  else name ← ident; alias ← parse_from_alias; mret (FTable name alias).

Definition parse_join_condition : Parse (option Expr * list string) :=
  on ← eat_kw "on";
  if on : bool then e ← c_expr c; mret (Some e, [])
  else
    using_ ← eat_kw "using";
    if using_ : bool then cols ← paren_ident_list; mret (None, cols) else fail.

Definition parse_from : Parse FromClause :=
  left ← parse_from_item;
  loop (λ left,
    kind ← parse_join_kind;
    match kind with
    | Some kind =>
        right ← parse_from_item;
        cond ← (if bool_decide (kind = CrossJoin) then mret (None, []) else parse_join_condition);
        mret (inl (FJoin left right kind cond.1 cond.2))
    | None =>
        comma ← skip Tok.Comma;
        if comma : bool then right ← parse_from_item; mret (inl (FJoin left right CrossJoin None []))
        else mret (inr left)
    end) left.

(** A select core: what [mkSelect] takes between the common table expressions and the set operations. *)
Definition select_core : Parse SelectStmt :=
  _ ← expect_kw "select";
  _ ← eat_kw "all";
  dist ← eat_kw "distinct";
  items ← comma_list select_item;
  from ← opt_clause "from" parse_from;
  filter ← opt_clause "where" (c_expr c);
  group_by ← parse_group_by;
  having ← opt_clause "having" (c_expr c);
  mret (mkSelect [] dist items from filter group_by having [] [] None None).

Definition set_op_word : Parse (option SetOp) :=
  u ← eat_kw "union";
  if u : bool then mret (Some Union)
  else i ← eat_kw "intersect";
       if i : bool then mret (Some Intersect)
       else e ← eat_kw "except"; mret (if e : bool then Some Except else None).

Definition set_op_part : Parse SelectStmt :=
  paren ← skip Tok.LParen;
  if paren : bool then s ← c_select c; _ ← expect Tok.RParen; mret s else select_core.

(** [q.with = …] and the other trailing assignments to the select core. *)
Definition complete (q : SelectStmt) (ctes : list (string * SelectStmt)) (ops : list (SetOp * bool * SelectStmt))
    (order : list OrderKey) (limit offset : option Expr) : SelectStmt :=
  let '(mkSelect _ dist items from filter group having _ _ _ _) := q in
  mkSelect ctes dist items from filter group having ops order limit offset.

Definition set_op_chain : Parse (list (SetOp * bool * SelectStmt)) :=
  loop (λ ops,
    op ← set_op_word;
    match op with
    | None => mret (inr ops)
    | Some op =>
        all ← eat_kw "all";
        _ ← eat_kw "distinct";
        part ← set_op_part;
        mret (inl (ops ++ [(op, all, part)]))
    end) [].

Definition select : Parse SelectStmt :=
  ctes ← parse_with;
  q ← select_core;
  ops ← set_op_chain;
  order ← parse_order_by;
  lo ← parse_limit_offset;
  mret (complete q ctes ops order lo.1 lo.2).
End Grammar.

(** ** The recursion closed *)

Definition calls_step (c : Calls) : Calls :=
  mkCalls (expr c) (select c) (parse_from c) (not_expr c) (unary_expr c).

Fixpoint calls (fuel : nat) : Calls :=
  match fuel with
  | O => mkCalls no_fuel no_fuel no_fuel no_fuel no_fuel
  | S fuel => calls_step (calls fuel)
  end.

(** Fuel for the tokens there are. *)
Definition with_calls {A} (p : Calls → Parse A) : Parse A := λ s, p (calls (length (toks s))) s.

(** [parse_expr]: a standalone expression. *)
Definition parse_expr (sql : string) : Result EngineStatus Expr :=
  ts ← lex sql;
  '(e, s) ← with_calls expr (parser_new ts);
  if bool_decide (peek s = Tok.Eof) then Ok e else Err ErrSql.
