(* ===== verification/Statements.v ===== *)
(** * Statements (crates/engine/src/sql.rs)

    Data definition, data manipulation, session and transaction statements, and [parse]. *)

From S2P Require Import Prelude Text Numbers EngineTypes Chars Float Ast Lex Parser.
Import Statement.

Definition VECTOR_EF_SEARCH_GUC : string := "twill.vector_ef_search".

(** [if self.eat_kw("if") { NOT EXISTS; true } else { false }], and the same for IF EXISTS. *)
Definition if_clause (kws : list string) : Parse bool :=
  b ← eat_kw "if";
  if b : bool then
    _ ← (fix all (l : list string) : Parse unit :=
           match l with [] => mret tt | kw :: l => _ ← expect_kw kw; all l end) kws;
    mret true
  else mret false.
Definition if_not_exists : Parse bool := if_clause ["not"; "exists"]%string.
Definition if_exists : Parse bool := if_clause ["exists"]%string.

(** ** Session statements *)

Inductive SetVal := VStr (s : string) | VWord (w : string) | VDefault | VNone.

Definition truthy (v : SetVal) : bool :=
  match v with
  | VStr s | VWord s => existsb (String.eqb (to_ascii_lowercase s)) ["on"; "true"; "1"; "yes"]%string
  | _ => false
  end.

Definition dotted_tail : list string → Parse (list string) :=
  loop (λ parts,
    dot ← skip Tok.Dot;
    if dot : bool then
      w ← look peek_word;
      match w with
      | Some w => _ ← bump; mret (inl (parts ++ [w]))
      | None => mret (inr parts)
      end
    else mret (inr parts)).

Definition dotted_name : Parse string :=
  w ← look peek_word;
  parts ← match w with Some w => _ ← bump; mret [w] | None => mret [] end;
  parts ← dotted_tail parts;
  mret (String.concat "." parts).

Definition read_set_value : Parse SetVal :=
  eq ← skip Tok.Eq;
  _ ← (if eq : bool then mret true else eat_kw "to");
  t ← look peek;
  match t with
  | Tok.Str s => _ ← bump; mret (VStr s)
  | Tok.Int n => _ ← bump; mret (VWord (fmt_i64 n))
  | Tok.Word w => _ ← bump; mret (if eq_ignore_ascii_case w "default" then VDefault else VWord w)
  | _ => mret VNone
  end.

Definition is_claims_guc (name : string) : bool :=
  String.eqb name "twill.jwt.claims" || String.eqb name "request.jwt.claims".

Definition set_stmt : Parse Stmt :=
  _ ← expect_kw "set";
  _ ← eat_any ["session"; "local"]%string;
  role ← eat_kw "role";
  if role : bool then
    none ← eat_any ["none"; "default"]%string;
    role ← (if none : bool then mret None else r ← ident; mret (Some r));
    _ ← skip_to_end;
    mret (SetSession (SRole role))
  else
    name ← dotted_name;
    let name := to_ascii_lowercase name in
    stmt ← (if is_claims_guc name then
              v ← read_set_value;
              mret (SetSession (SClaims (match v with VStr s | VWord s => Some s | _ => None end)))
            else if String.eqb name "twill.rls.bypass" then
              v ← read_set_value; mret (SetSession (SBypass (truthy v)))
            else if String.eqb name VECTOR_EF_SEARCH_GUC then
              v ← read_set_value;
              mret (SetVectorEf (match v with VWord w => Z.max 1 <$> parse_u64 w | _ => None end))
            else mret Noop);
    _ ← skip_to_end;
    mret stmt.

Definition reset_stmt : Parse Stmt :=
  _ ← expect_kw "reset";
  role ← eat_kw "role";
  if role : bool then _ ← skip_to_end; mret (SetSession (SRole None))
  else
    name ← dotted_name;
    let name := to_ascii_lowercase name in
    let stmt := if is_claims_guc name then SetSession (SClaims None)
                else if String.eqb name "twill.rls.bypass" then SetSession (SBypass false)
                else if String.eqb name VECTOR_EF_SEARCH_GUC then SetVectorEf None
                else Noop in
    _ ← skip_to_end;
    mret stmt.

Definition show_names : Parse (list string) :=
  loop (λ parts,
    w ← look peek_word;
    match w with
    | Some _ => n ← dotted_name; mret (inl (parts ++ [n]))
    | None => mret (inr parts)
    end) [].

Definition show_stmt : Parse Stmt := _ ← bump; parts ← show_names; mret (ShowSetting (String.concat " " parts)).

(** ** Transactions *)

Definition eat_transaction_modes : Parse unit :=
  loop (λ _,
    _ ← skip Tok.Comma;
    isolation ← eat_kw "isolation";
    if isolation : bool then
      _ ← eat_kw "level";
      ser ← eat_kw "serializable";
      if ser : bool then mret (inl tt)
      else
        rep ← eat_kw "repeatable";
        if rep : bool then _ ← eat_kw "read"; mret (inl tt)
        else
          rd ← eat_kw "read";
          _ ← (if rd : bool then eat_any ["committed"; "uncommitted"]%string else mret false);
          mret (inl tt)
    else
      rd ← eat_kw "read";
      if rd : bool then _ ← eat_any ["only"; "write"]%string; mret (inl tt)
      else
        not_ ← eat_kw "not";
        if not_ : bool then _ ← eat_kw "deferrable"; mret (inl tt)
        else d ← eat_kw "deferrable"; mret (if d : bool then inl tt else inr tt)) tt.

Definition transaction_stmt : Parse (option Stmt) :=
  let work := eat_any ["transaction"; "work"]%string in
  begin ← eat_kw "begin";
  if begin : bool then _ ← work; _ ← eat_transaction_modes; mret (Some Begin)
  else
  start ← eat_kw "start";
  if start : bool then _ ← eat_kw "transaction"; _ ← eat_transaction_modes; mret (Some Begin)
  else
  commit ← eat_any ["commit"; "end"]%string;
  if commit : bool then _ ← work; mret (Some Commit)
  else
  save ← eat_kw "savepoint";
  if save : bool then n ← ident; mret (Some (Savepoint n))
  else
  release ← eat_kw "release";
  if release : bool then _ ← eat_kw "savepoint"; n ← ident; mret (Some (ReleaseSavepoint n))
  else
  rollback ← eat_any ["rollback"; "abort"]%string;
  if rollback : bool then
    _ ← work;
    to ← eat_kw "to";
    if to : bool then _ ← eat_kw "savepoint"; n ← ident; mret (Some (RollbackTo n))
    else mret (Some Rollback)
  else mret None.

(** ** Parts of CREATE TABLE *)

(** The first integer up to the closing parenthesis. *)
Definition size_int : Parse (option Z) :=
  loop (λ first_int : option Z,
    t ← look peek;
    if not_rparen t then
      _ ← bump;
      mret (inl (match first_int, t with None, Tok.Int n => Some n | _, _ => first_int end))
    else mret (inr first_int)) None.

Definition parse_type_size (ty : ColumnType) : Parse ColumnType :=
  paren ← skip Tok.LParen;
  if negb paren then mret ty
  else
    first_int ← size_int;
    _ ← expect Tok.RParen;
    if is_vector ty then
      let d := default 0 first_int in
      if d <=? 0 then fail else mret (CVector (d mod 2 ^ 32))
    else mret ty.

Definition references_target : Parse (string * option string) :=
  table ← ident;
  paren ← skip Tok.LParen;
  if paren : bool then col ← ident; _ ← expect Tok.RParen; mret (table, Some col) else mret (table, None).

Definition table_constraint_kw : string → bool :=
  one_of ["constraint"; "primary"; "unique"; "foreign"; "check"]%string.
Definition peek_table_constraint (s : PState) : bool :=
  match peek_word s with Some w => table_constraint_kw w | None => false end.

Section Statements.
Variable c : Calls.

Definition capture_expr_sql : Parse string :=
  start ← look pos;
  _ ← c_expr c;
  look (λ s, render_tokens (take (pos s - start) (drop start (toks s)))).

Definition capture_paren_expr_sql : Parse string :=
  _ ← expect Tok.LParen; text ← capture_expr_sql; _ ← expect Tok.RParen; mret text.

(** One clause of a column definition; [None] when the next token starts none. *)
Definition column_clause (cs : ColumnSpec) : Parse (option ColumnSpec) :=
  let '(mkColumnSpec name ty pk nn un au df ck rf) := cs in
  primary ← eat_kw "primary";
  if primary : bool then
    _ ← expect_kw "key";
    a ← eat_kw "autoincrement";
    mret (Some (mkColumnSpec name ty true true un (au || a) df ck rf))
  else
  not_ ← eat_kw "not";
  if not_ : bool then _ ← expect_kw "null"; mret (Some (mkColumnSpec name ty pk true un au df ck rf))
  else
  null ← eat_kw "null";
  if null : bool then mret (Some cs)
  else
  uniq ← eat_kw "unique";
  if uniq : bool then mret (Some (mkColumnSpec name ty pk nn true au df ck rf))
  else
  auto ← eat_kw "autoincrement";
  if auto : bool then mret (Some (mkColumnSpec name ty pk nn un true df ck rf))
  else
  dflt ← eat_kw "default";
  if dflt : bool then t ← capture_expr_sql; mret (Some (mkColumnSpec name ty pk nn un au (Some t) ck rf))
  else
  check ← eat_kw "check";
  if check : bool then t ← capture_paren_expr_sql; mret (Some (mkColumnSpec name ty pk nn un au df (Some t) rf))
  else
  refs ← eat_kw "references";
  if refs : bool then t ← references_target; mret (Some (mkColumnSpec name ty pk nn un au df ck (Some t)))
  else
  coll ← eat_kw "collate";
  if coll : bool then _ ← ident; mret (Some cs)
  else
  gen ← eat_kw "generated";
  if gen : bool then fail else mret None.

(** The optional type: its affinity, and whether it is of the SERIAL family. *)
Definition column_type : Parse (ColumnType * bool) :=
  w ← look peek_word;
  match w with
  | Some w =>
      if is_constraint_kw w then mret (CText, false)
      else
        tyname ← ident;
        let serial := is_serial_type tyname in
        ty ← parse_type_size (if serial then CInteger else ColumnType_from_sql tyname);
        mret (ty, serial)
  | None => mret (CText, false)
  end.

Definition column_spec : Parse ColumnSpec :=
  name ← ident;
  ts ← column_type;
  loop (λ cs,
    r ← column_clause cs;
    match r with Some cs => mret (inl cs) | None => mret (inr cs) end)
    (mkColumnSpec name ts.1 false false false ts.2 None None None).

(** The definition under construction: the constraint is added to its collection. *)
Definition table_constraint (d : CreateTableDef) : Parse CreateTableDef :=
  let '(mkCreateTableDef tname cols fks pks uniques checks ine) := d in
  named ← eat_kw "constraint";
  name ← (if named : bool then n ← ident; mret (Some n) else mret None);
  foreign ← eat_kw "foreign";
  if foreign : bool then
    _ ← expect_kw "key";
    columns ← paren_ident_list;
    _ ← expect_kw "references";
    ft ← ident;
    paren ← look (is_tok Tok.LParen);
    fcols ← (if paren : bool then paren_ident_list else mret []);
    mret (mkCreateTableDef tname cols (fks ++ [mkForeignKeySpec name columns ft fcols]) pks uniques checks ine)
  else
  primary ← eat_kw "primary";
  if primary : bool then
    _ ← expect_kw "key"; l ← paren_ident_list; mret (mkCreateTableDef tname cols fks (pks ++ l) uniques checks ine)
  else
  uniq ← eat_kw "unique";
  if uniq : bool then
    l ← paren_ident_list; mret (mkCreateTableDef tname cols fks pks (uniques ++ [l]) checks ine)
  else
  check ← eat_kw "check";
  if check : bool then
    t ← capture_paren_expr_sql; mret (mkCreateTableDef tname cols fks pks uniques (checks ++ [t]) ine)
  else mret d.

Definition opt_list {A} (o : option A) : list A := match o with Some x => [x] | None => [] end.

(** A column definition, with the foreign key and the check it declares inline. *)
Definition add_column (d : CreateTableDef) (col : ColumnSpec) : CreateTableDef :=
  let '(mkCreateTableDef tname cols fks pks uniques checks ine) := d in
  let fks := match cs_references col with
             | Some (ft, fc) => fks ++ [mkForeignKeySpec None [cs_name col] ft (opt_list fc)]
             | None => fks
             end in
  mkCreateTableDef tname (cols ++ [col]) fks pks uniques (checks ++ opt_list (cs_check_sql col)) ine.

Definition table_item (d : CreateTableDef) : Parse CreateTableDef :=
  con ← look peek_table_constraint;
  if con : bool then table_constraint d else col ← column_spec; mret (add_column d col).

Definition table_items : CreateTableDef → Parse CreateTableDef :=
  loop (λ d, d ← table_item d; comma ← skip Tok.Comma; mret (if comma : bool then inl d else inr d)).

Definition create_table : Parse Stmt :=
  _ ← expect_kw "create";
  _ ← expect_kw "table";
  ine ← if_not_exists;
  name ← ident;
  _ ← expect Tok.LParen;
  d ← table_items (mkCreateTableDef name [] [] [] [] [] ine);
  _ ← expect Tok.RParen;
  if bool_decide (td_columns d = []) then fail else mret (CreateTable d).

Definition alter_action : Parse AlterAction :=
  add ← eat_kw "add";
  if add : bool then _ ← eat_kw "column"; spec ← column_spec; mret (AddColumn spec)
  else
  drop_ ← eat_kw "drop";
  if drop_ : bool then
    _ ← eat_kw "column";
    i ← eat_kw "if";
    ie ← (if i : bool then eat_kw "exists" else mret false);
    name ← ident;
    mret (DropColumn name ie)
  else
  rename_ ← eat_kw "rename";
  if rename_ : bool then
    to ← eat_kw "to";
    if to : bool then n ← ident; mret (RenameTable n)
    else _ ← eat_kw "column"; from ← ident; _ ← expect_kw "to"; n ← ident; mret (RenameColumn from n)
  else
  rls ← look (λ s, is_kw "enable" s || is_kw "disable" s);
  if rls : bool then
    enable ← eat_kw "enable";
    _ ← (if enable : bool then mret tt else expect_kw "disable");
    _ ← expect_kw "row";
    _ ← expect_kw "level";
    _ ← expect_kw "security";
    mret (SetRls enable)
  else fail.

Definition alter_table : Parse Stmt :=
  _ ← expect_kw "alter";
  _ ← expect_kw "table";
  i ← eat_kw "if";
  _ ← (if i : bool then eat_kw "exists" else mret false);
  table ← ident;
  action ← alter_action;
  mret (AlterTable table action).

(** ** Indexes *)

Definition string_or_ident : Parse string :=
  t ← bump; match t with Tok.Str s | Tok.Word s => mret s | _ => fail end.
Definition int_value : Parse Z := t ← bump; match t with Tok.Int n => mret n | _ => fail end.

Definition apply_index_option (key : string) (p : IndexParams) : Parse IndexParams :=
  if eq_ignore_ascii_case key "metric" then
    name ← string_or_ident;
    match Metric_from_name name with
    | Some m => mret (mkParams (ip_m p) (ef_construction p) (ef_search p) m)
    | None => fail
    end
  else
    n ← int_value;
    let k := to_ascii_lowercase key in
    if String.eqb k "m" then mret (mkParams (Z.max n 2) (ef_construction p) (ef_search p) (ip_metric p))
    else if String.eqb k "ef_construction" then mret (mkParams (ip_m p) (Z.max n 1) (ef_search p) (ip_metric p))
    else if String.eqb k "ef_search" then mret (mkParams (ip_m p) (ef_construction p) (Z.max n 1) (ip_metric p))
    else fail.

Definition index_option_list : IndexParams → Parse IndexParams :=
  loop (λ p,
    key ← ident;
    _ ← expect Tok.Eq;
    p ← apply_index_option key p;
    comma ← skip Tok.Comma;
    mret (if comma : bool then inl p else inr p)).

Definition parse_index_options (p : IndexParams) : Parse IndexParams :=
  _ ← expect Tok.LParen; p ← index_option_list p; _ ← expect Tok.RParen; mret p.

Definition create_index : Parse Stmt :=
  _ ← expect_kw "create";
  _ ← expect_kw "index";
  ine ← if_not_exists;
  name ← ident;
  _ ← expect_kw "on";
  table ← ident;
  _ ← expect_kw "using";
  method ← ident;
  if negb (eq_ignore_ascii_case method "hnsw") then fail
  else
    _ ← expect Tok.LParen;
    column ← ident;
    w ← look peek_word;
    params ← match w ≫= opclass_metric with
             | Some m => _ ← bump; mret (mkParams 16 200 64 m)
             | None => mret IndexParams_default
             end;
    _ ← expect Tok.RParen;
    with_ ← eat_kw "with";
    params ← (if with_ : bool then parse_index_options params else mret params);
    mret (CreateIndex name table column params ine).

(** [DROP <what> [IF EXISTS] name]. *)
Definition drop_stmt (what : string) (mk : string → bool → Stmt) : Parse Stmt :=
  _ ← expect_kw "drop"; _ ← expect_kw what; ie ← if_exists; name ← ident; mret (mk name ie).
Definition drop_index : Parse Stmt := drop_stmt "index" DropIndex.
Definition drop_table : Parse Stmt := drop_stmt "table" DropTable.
Definition drop_view : Parse Stmt := drop_stmt "view" DropView.

(** ** Views and policies *)

Definition create_is_view (s : PState) : bool :=
  let kw i w := tok_is_kw w (tok_at i s) in
  let i := (if kw 1%nat "or" && kw 2%nat "replace" then 3 else 1)%nat in
  let i := if kw i "temp" || kw i "temporary" then S i else i in
  kw i "view".

Definition create_view : Parse Stmt :=
  _ ← expect_kw "create";
  or_ ← eat_kw "or";
  _ ← (if or_ : bool then expect_kw "replace" else mret tt);
  _ ← eat_any ["temp"; "temporary"]%string;
  _ ← expect_kw "view";
  ine ← if_not_exists;
  name ← ident;
  paren ← look (is_tok Tok.LParen);
  _ ← (if paren : bool then _ ← paren_ident_list; mret tt else mret tt);
  _ ← expect_kw "as";
  query ← c_select c;
  sql ← look (λ s, trim (trim_end_matches ";" (trim (src s))));
  mret (CreateView name query sql or_ ine).

Definition policy_command : Parse PolicyCommand :=
  (fix go (l : list (string * PolicyCommand)) : Parse PolicyCommand :=
     match l with
     | [] => fail
     | (kw, cmd) :: l => b ← eat_kw kw; if b : bool then mret cmd else go l
     end) [("all"%string, PAll); ("select"%string, PSelect); ("insert"%string, PInsert);
           ("update"%string, PUpdate); ("delete"%string, PDelete)].

Definition create_policy : Parse Stmt :=
  _ ← expect_kw "create";
  _ ← expect_kw "policy";
  name ← ident;
  _ ← expect_kw "on";
  table ← ident;
  for_ ← eat_kw "for";
  command ← (if for_ : bool then policy_command else mret PAll);
  to ← eat_kw "to";
  roles ← (if to : bool then
             l ← comma_list ident; mret (List.filter (λ r, negb (eq_ignore_ascii_case r "public")) l)
           else mret []);
  using_ ← opt_clause "using" capture_paren_expr_sql;
  with_ ← eat_kw "with";
  check ← (if with_ : bool then _ ← expect_kw "check"; t ← capture_paren_expr_sql; mret (Some t) else mret None);
  mret (CreatePolicy (mkPolicyDef name table command roles using_ check)).

Definition drop_policy : Parse Stmt :=
  _ ← expect_kw "drop";
  _ ← expect_kw "policy";
  ie ← if_exists;
  name ← ident;
  _ ← expect_kw "on";
  table ← ident;
  mret (DropPolicy name table ie).

(** ** Data manipulation *)

Definition assignment : Parse (string * Expr) :=
  col ← ident; _ ← expect Tok.Eq; val ← c_expr c; mret (col, val).
Definition assignment_list : Parse (list (string * Expr)) := comma_list assignment.

Definition opt_returning : Parse (option (list SelItem)) := opt_clause "returning" (comma_list (select_item c)).

Definition values_row : Parse (list Expr) :=
  _ ← expect Tok.LParen; row ← expr_list_until c Tok.RParen; _ ← expect Tok.RParen; mret row.

Definition insert_source : Parse InsertSource :=
  q ← look starts_query;
  if q : bool then query ← c_select c; mret (ISelect query)
  else
    dflt ← eat_kw "default";
    if dflt : bool then _ ← expect_kw "values"; mret (IValues [[]])
    else _ ← expect_kw "values"; rows ← comma_list values_row; mret (IValues rows).

Definition on_conflict_action : Parse OnConflict :=
  paren ← look (is_tok Tok.LParen);
  _ ← (if paren : bool then _ ← paren_ident_list; mret tt
       else on ← eat_kw "on";
            if on : bool then _ ← expect_kw "constraint"; _ ← ident; mret tt else mret tt);
  _ ← expect_kw "do";
  nothing ← eat_kw "nothing";
  if nothing : bool then mret OnNothing
  else
    _ ← expect_kw "update";
    _ ← expect_kw "set";
    sets ← assignment_list;
    filter ← opt_clause "where" (c_expr c);
    mret (OnUpdate sets filter).

Definition insert_or : Parse OnConflict :=
  or_ ← eat_kw "or";
  if or_ : bool then
    rep ← eat_kw "replace";
    if rep : bool then mret OnReplace
    else
      ign ← eat_kw "ignore";
      if ign : bool then mret OnNothing
      else _ ← eat_any ["abort"; "fail"; "rollback"]%string; mret OnError
  else mret OnError.

Definition insert_columns : Parse (option (list string)) :=
  cols ← look (λ s, is_tok Tok.LParen s && negb (next_is_kw "select" s));
  if cols : bool then l ← paren_ident_list; mret (Some l) else mret None.

Definition insert : Parse Stmt :=
  _ ← expect_kw "insert";
  on_conflict ← insert_or;
  _ ← expect_kw "into";
  table ← ident;
  columns ← insert_columns;
  source ← insert_source;
  on ← eat_kw "on";
  on_conflict ← (if on : bool then _ ← expect_kw "conflict"; on_conflict_action else mret on_conflict);
  returning ← opt_returning;
  mret (Insert table columns source on_conflict returning).

Definition update : Parse Stmt :=
  _ ← expect_kw "update";
  table ← ident;
  _ ← expect_kw "set";
  sets ← assignment_list;
  from ← opt_clause "from" (c_from c);
  filter ← opt_clause "where" (c_expr c);
  returning ← opt_returning;
  mret (Update table sets from filter returning).

Definition delete : Parse Stmt :=
  _ ← expect_kw "delete";
  _ ← expect_kw "from";
  table ← ident;
  using_ ← opt_clause "using" (c_from c);
  filter ← opt_clause "where" (c_expr c);
  returning ← opt_returning;
  mret (Delete table using_ filter returning).

(** ** The dispatch *)

(** [rec] is [statement] again, for EXPLAIN. *)
Definition utility_stmt (rec : Parse Stmt) : Parse (option Stmt) :=
  explain ← eat_kw "explain";
  if explain : bool then
    _ ← eat_kw "analyze"; _ ← eat_kw "verbose"; _ ← skip_parens; s ← rec; mret (Some (Explain s))
  else
  show ← look (is_kw "show");
  if show : bool then s ← show_stmt; mret (Some s)
  else
  set_ ← look (is_kw "set");
  if set_ : bool then s ← set_stmt; mret (Some s)
  else
  reset ← look (is_kw "reset");
  if reset : bool then s ← reset_stmt; mret (Some s)
  else
  noop ← look (λ s, is_kw "pragma" s || is_kw "vacuum" s || is_kw "analyze" s || is_kw "discard" s);
  if noop : bool then _ ← skip_to_end; mret (Some Noop) else mret None.

Definition create_stmt : Parse Stmt :=
  index ← look (next_is_kw "index");
  policy ← look (next_is_kw "policy");
  view ← look create_is_view;
  if index : bool then create_index
  else if policy : bool then create_policy
  else if view : bool then create_view
  else create_table.

Definition drop_any : Parse Stmt :=
  index ← look (next_is_kw "index");
  view ← look (next_is_kw "view");
  policy ← look (next_is_kw "policy");
  if index : bool then drop_index
  else if view : bool then drop_view
  else if policy : bool then drop_policy
  else drop_table.

Definition statement_body (rec : Parse Stmt) : Parse Stmt := λ s,
  let kw w := is_kw w s in
  (if kw "create" then create_stmt
   else if kw "drop" then drop_any
   else if kw "alter" then alter_table
   else if kw "insert" then insert
   else if starts_query s then q ← c_select c; mret (Select q)
   else if kw "update" then update
   else if kw "delete" then delete
   else
     u ← utility_stmt rec;
     match u with
     | Some stmt => mret stmt
     | None => t ← transaction_stmt; match t with Some stmt => mret stmt | None => fail end
     end) s.

(** Each EXPLAIN consumes its keyword. *)
Fixpoint statement (fuel : nat) : Parse Stmt :=
  match fuel with O => no_fuel | S fuel => statement_body (statement fuel) end.
End Statements.

Definition set_src (sql : string) (s : PState) : PState :=
  mkPState (toks s) sql (pos s) (next_param s) (max_param s) (named_params s).

(** [parse]: the statement and the number of its parameters. *)
Definition parse (sql : string) : Result EngineStatus (Stmt * Z) :=
  ts ← lex sql;
  '(stmt, s) ← with_calls (λ c, stmt ← statement c (length ts); _ ← skip Tok.Semi; mret stmt)
                 (set_src sql (parser_new ts));
  if bool_decide (peek s = Tok.Eof) then Ok (stmt, max_param s) else Err ErrSql.
