(* ===== verification/ParserSpec.v ===== *)
(** * The parser terminates and fails only with a syntax error

    [safe n p m]: from a state with at most [n] tokens left [p] keeps the tokens and the source text, and
    leaves at most [m a] tokens when it returns [a]; in the total mode it ends within its fuel and fails only
    with [ErrSql]. *)

From S2P Require Import Prelude Text Numbers EngineTypes Chars Float Ast Lex Parser Statements.
Import Statement.

(** The cursor is on a token, and the last one is the end. *)
Definition wf (s : PState) : Prop := (pos s < length (toks s))%nat ∧ last (toks s) = Some Tok.Eof.

(** Total correctness, or only what a success implies. *)
Class Mode := total : Prop.
Definition Total : Mode := True.
Definition Partial : Mode := False.

Definition safe {M : Mode} {A} (n : nat) (p : Parse A) (m : A → nat) : Prop := ∀ s, wf s → (remaining s ≤ n)%nat →
  match p s with
  | Ok (a, s') => wf s' ∧ toks s' = toks s ∧ src s' = src s ∧ (remaining s' ≤ m a)%nat
  | Err e => total → e = ErrSql
  end.

Section Rules.
Context {M : Mode} {A B : Type}.
Implicit Types (n : nat).

Lemma safe_ret n (a : A) (m : A → nat) : (n ≤ m a)%nat → safe n (mret a) m.
Proof. intros H s Hs Hn. cbn. split_and!; [done..|lia]. Qed.

Lemma safe_fail n (m : A → nat) : safe n fail m.
Proof. intros s Hs Hn. done. Qed.

Lemma safe_bind n (p : Parse A) (f : A → Parse B) (m : A → nat) m' :
  safe n p m → (∀ a, safe (m a) (f a) m') → safe n (p ≫= f) m'.
Proof.
  intros Hp Hf s Hs Hn. specialize (Hp s Hs Hn). unfold mbind, Parse_bind.
  destruct (p s) as [[a s1]|e]; [|done]. destruct Hp as (Hs1 & Ht & Hr & Hn1).
  specialize (Hf a s1 Hs1 Hn1). destruct (f a s1) as [[b s']|e]; [|done]. naive_solver congruence.
Qed.

Lemma safe_weaken n n' (p : Parse A) (m m' : A → nat) :
  safe n p m → (n' ≤ n)%nat → (∀ a, m a ≤ m' a)%nat → safe n' p m'.
Proof.
  intros Hp Hn Hm s Hs Hr. specialize (Hp s Hs ltac:(lia)). destruct (p s) as [[a s1]|e]; [|done].
  specialize (Hm a). naive_solver lia.
Qed.

Lemma safe_look n (f : PState → A) : safe n (look f) (λ _, n).
Proof. intros s Hs Hn. done. Qed.
End Rules.

Lemma safe_assoc {M : Mode} {A B C} n (p : Parse A) (f : A → Parse B) (g : B → Parse C) m :
  safe n (p ≫= λ a, f a ≫= g) m → safe n ((p ≫= f) ≫= g) m.
Proof.
  intros H s Hs Hn. specialize (H s Hs Hn). unfold mbind, Parse_bind in *. by destruct (p s) as [[a s1]|e].
Qed.

Lemma safe_ret_bind {M : Mode} {A B} n (a : A) (f : A → Parse B) m : safe n (f a) m → safe n (mret a ≫= f) m.
Proof. done. Qed.

Lemma safe_fail_bind {M : Mode} {A B} n (f : A → Parse B) m : safe n (fail ≫= f) m.
Proof. intros s Hs Hn. done. Qed.

(** ** The cursor *)

Lemma wf_peek s : wf s → peek s ≠ Tok.Eof → (S (pos s) < length (toks s))%nat.
Proof.
  intros [Hp Hl] Hne. destruct (decide (S (pos s) = length (toks s))) as [E|]; [|lia].
  rewrite last_lookup, <- E in Hl. unfold peek, tok_at in Hne. rewrite Nat.add_0_r in Hne.
  cbn in Hl. by rewrite Hl in Hne.
Qed.

Lemma peek_lookup s t : peek s = t → t ≠ Tok.Eof → toks s !! pos s = Some t.
Proof.
  unfold peek, tok_at. rewrite Nat.add_0_r. destruct (toks s !! pos s); cbn; congruence.
Qed.

(** What [bump] does at a token other than the end. *)
Lemma bump_eq s : wf s → peek s ≠ Tok.Eof → bump s = Ok (peek s, set_pos (S (pos s)) s) ∧ wf (set_pos (S (pos s)) s).
Proof.
  intros Hs Hne. pose proof (wf_peek s Hs Hne). unfold bump. destruct (Nat.ltb_spec (S (pos s)) (length (toks s))); [|lia].
  split; [done|]. split; [done|]. apply Hs.
Qed.

Lemma safe_bump {M : Mode} n : safe n bump (λ t, if not_eof t then pred n else n).
Proof.
  intros s Hs Hn. destruct (decide (peek s = Tok.Eof)) as [E|E].
  - unfold bump. rewrite E. cbn [not_eof]. destruct (S (pos s) <? length (toks s))%nat eqn:El; [|done].
    apply Nat.ltb_lt in El. unfold wf, remaining in *. cbn. split_and!; try done; [apply Hs|lia].
  - destruct (bump_eq s Hs E) as [-> Hw]. assert (not_eof (peek s) = true) as -> by (by destruct (peek s)).
    split_and!; [done..|]. unfold remaining in *. cbn. destruct Hs. lia.
Qed.

(** A test followed by [bump]. *)
Lemma safe_test_bump {M : Mode} {B} n (f : PState → bool) (yes no : Parse B) m :
  (∀ s, f s = true → peek s ≠ Tok.Eof) → safe (pred n) yes m → safe n no m →
  safe n (b ← look f; if b : bool then _ ← bump; yes else no) m.
Proof.
  intros Hf Hy Hno s Hs Hn. unfold mbind, Parse_bind, look. destruct (f s) eqn:E; [|by apply Hno].
  apply Hf in E. destruct (bump_eq s Hs E) as [-> Hw]. apply (Hy _ Hw). unfold remaining in *. cbn. destruct Hs. lia.
Qed.

Lemma kw_not_eof kw s : is_kw kw s = true → peek s ≠ Tok.Eof.
Proof. unfold is_kw. by destruct (peek s). Qed.

Lemma tok_not_eof t s : t ≠ Tok.Eof → bool_decide (peek s = t) = true → peek s ≠ Tok.Eof.
Proof. intros Ht ->%bool_decide_eq_true. done. Qed.

Lemma safe_skip {M : Mode} n t : t ≠ Tok.Eof → safe n (skip t) (λ b, if b then pred n else n).
Proof.
  intros Ht. apply safe_test_bump; [|by apply safe_ret..]. intros s. by apply tok_not_eof.
Qed.

Lemma safe_expect {M : Mode} n t : t ≠ Tok.Eof → safe n (expect t) (λ _, pred n).
Proof.
  intros Ht. apply safe_test_bump; [|by apply safe_ret|apply safe_fail]. intros s. by apply tok_not_eof.
Qed.

Lemma safe_eat_kw {M : Mode} n kw : safe n (eat_kw kw) (λ b, if b then pred n else n).
Proof. apply safe_test_bump; [|by apply safe_ret..]. apply kw_not_eof. Qed.

Lemma safe_eat_any {M : Mode} n kws : safe n (eat_any kws) (λ _, n).
Proof.
  revert n. induction kws as [|kw kws IH]; intros n; [by apply safe_ret|]. cbn.
  eapply safe_bind; [apply safe_eat_kw|]. intros []; [apply safe_ret; lia|apply IH].
Qed.

Lemma safe_expect_kw {M : Mode} n kw : safe n (expect_kw kw) (λ _, pred n).
Proof. eapply safe_bind; [apply safe_eat_kw|]. intros []; [by apply safe_ret|apply safe_fail]. Qed.

(** [bump], then a match that refuses the end. *)
Lemma safe_bump_word {M : Mode} {B} n (f : Tok → Parse B) m :
  (∀ t, not_eof t = true → safe (pred n) (f t) m) → safe n (f Tok.Eof) m → safe n (t ← bump; f t) m.
Proof.
  intros H1 H2. eapply safe_bind; [apply safe_bump|]. intros t. cbn. destruct (not_eof t) eqn:E; [by apply H1|].
  destruct t; try discriminate E. done.
Qed.

Lemma safe_ident {M : Mode} n : safe n ident (λ _, pred n).
Proof.
  apply safe_bump_word; [|apply safe_fail]. intros [] _; try apply safe_fail. by apply safe_ret.
Qed.

Lemma safe_param_index {M : Mode} n t : safe n (param_index t) (λ _, n).
Proof.
  intros s Hs Hn. unfold param_index.
  destruct t; try (cbn; split_and!; done); destruct (named_params s !! name); cbn; split_and!; done.
Qed.

(** ** Loops *)

Lemma safe_loop {M : Mode} {A B} n (step : A → Parse (A + B)) a k :
  (∀ a n', (n' ≤ n)%nat → safe n' (step a) (λ r, match r with inl _ => pred n' | inr _ => (n' - k)%nat end)) →
  safe n (loop step a) (λ _, (n - k)%nat).
Proof.
  intros Hstep s Hs Hn. unfold loop.
  assert (∀ fuel a s, wf s → (remaining s ≤ n)%nat → (remaining s < fuel)%nat → match loop_go fuel step a s with
    | Ok (b, s') => wf s' ∧ toks s' = toks s ∧ src s' = src s ∧ (remaining s' ≤ remaining s - k)%nat
    | Err e => total → e = ErrSql end) as H.
  { clear s Hs Hn a. induction fuel as [|fuel IH]; intros a s Hs Hn Hf; [lia|]. cbn. unfold mbind, Parse_bind.
    specialize (Hstep a (remaining s) Hn s Hs (le_n _)). destruct (step a s) as [[[a'|b] s1]|e]; [|done|done].
    destruct Hstep as (Hs1 & Ht & Hr & Hn1). assert (0 < remaining s)%nat by (destruct Hs; unfold remaining; lia).
    specialize (IH a' s1 Hs1 ltac:(lia) ltac:(lia)). destruct (loop_go fuel step a' s1) as [[b s']|e]; [|done].
    destruct IH as (? & ? & ? & ?). split_and!; [done|congruence..|lia]. }
  specialize (H (S (remaining s)) a s Hs Hn ltac:(lia)). destruct (loop_go _ step a s) as [[b s']|e]; [|done].
  naive_solver lia.
Qed.

Lemma safe_loop0 {M : Mode} {A B} n (step : A → Parse (A + B)) a :
  (∀ a n', (n' ≤ n)%nat → safe n' (step a) (λ r, match r with inl _ => pred n' | inr _ => n' end)) →
  safe n (loop step a) (λ _, n).
Proof.
  intros H. eapply safe_weaken; [apply (safe_loop n step a 0)|done|cbn; lia].
  intros a' n' Hn'. eapply safe_weaken; [by apply H|done|]. intros [|]; lia.
Qed.

Lemma safe_comma_list {M : Mode} {A} n (p : Parse A) : (∀ n', (n' ≤ n)%nat → safe n' p (λ _, pred n')) →
  safe n (comma_list p) (λ _, pred n).
Proof.
  intros Hp. eapply safe_weaken; [eapply (safe_loop n _ _ 1)|done|cbn; lia]. intros out n' Hn'.
  eapply safe_bind; [by apply Hp|]. intros x. eapply safe_bind; [by apply safe_skip|].
  intros []; apply safe_ret; lia.
Qed.

Lemma safe_opt_clause {M : Mode} {A} n kw (p : Parse A) : safe (pred n) p (λ _, pred (pred n)) → safe n (opt_clause kw p) (λ _, n).
Proof.
  intros Hp. eapply safe_bind; [apply safe_eat_kw|]. intros []; cbn; [|by apply safe_ret].
  eapply safe_bind; [exact Hp|]. intros x. apply safe_ret. lia.
Qed.

(** ** The token under the cursor known *)

Definition safe_at {M : Mode} {A} (t : Tok) (n : nat) (p : Parse A) (m : A → nat) : Prop := ∀ s, wf s → peek s = t →
  (remaining s ≤ n)%nat →
  match p s with
  | Ok (a, s') => wf s' ∧ toks s' = toks s ∧ src s' = src s ∧ (remaining s' ≤ m a)%nat
  | Err e => total → e = ErrSql
  end.

Lemma safe_at_safe {M : Mode} {A} t n (p : Parse A) m : safe n p m → safe_at t n p m.
Proof. intros H s Hs _ Hn. by apply H. Qed.

Lemma safe_peek {M : Mode} {A} n (k : Tok → Parse A) m : (∀ t, safe_at t n (k t) m) → safe n (t ← look peek; k t) m.
Proof. intros H s Hs Hn. by apply H. Qed.

Lemma safe_peek_word {M : Mode} {A} n (k : option string → Parse A) m :
  (∀ t, safe_at t n (k (word_of t)) m) → safe n (w ← look peek_word; k w) m.
Proof. intros H s Hs Hn. by apply (H (peek s)). Qed.

Lemma safe_at_look {M : Mode} {A B} t n (f : PState → A) (k : A → Parse B) m :
  (∀ a, safe_at t n (k a) m) → safe_at t n (a ← look f; k a) m.
Proof. intros H s Hs Ht Hn. by apply H. Qed.

Lemma safe_at_bump {M : Mode} {A} t n (k : Tok → Parse A) m :
  not_eof t = true → safe (pred n) (k t) m → safe_at t n (t ← bump; k t) m.
Proof.
  intros Ht H s Hs <- Hn. unfold mbind, Parse_bind. assert (peek s ≠ Tok.Eof) as Hne by (by intros E; rewrite E in Ht).
  destruct (bump_eq s Hs Hne) as [-> Hw]. apply (H _ Hw). unfold remaining in *. cbn. destruct Hs. lia.
Qed.

Lemma safe_at_eat_kw {M : Mode} {A} t n kw (k : bool → Parse A) m :
  tok_is_kw kw t = true → safe (pred n) (k true) m → safe_at t n (b ← eat_kw kw; k b) m.
Proof.
  intros Ht H s Hs <- Hn. change (is_kw kw s = true) in Ht. unfold eat_kw, look, mbind, Parse_bind. rewrite Ht.
  destruct (bump_eq s Hs (kw_not_eof _ _ Ht)) as [-> Hw]. apply (H _ Hw). unfold remaining in *. cbn. destruct Hs. lia.
Qed.

Lemma safe_at_eat_kw_false {M : Mode} {A} t n kw (k : bool → Parse A) m :
  tok_is_kw kw t = false → safe_at t n (k false) m → safe_at t n (b ← eat_kw kw; k b) m.
Proof.
  intros Ht H s Hs <- Hn. change (is_kw kw s = false) in Ht. unfold eat_kw, look, mbind, Parse_bind. rewrite Ht.
  by apply H.
Qed.

Lemma safe_at_look_tok {M : Mode} {A B} t n (g : Tok → A) (f : PState → A) (k : A → Parse B) m :
  (∀ s, f s = g (peek s)) → safe_at t n (k (g t)) m → safe_at t n (a ← look f; k a) m.
Proof. intros Hf H s Hs <- Hn. unfold mbind, Parse_bind, look. rewrite Hf. by apply H. Qed.

(** A test that tells something of the token under the cursor. *)
Lemma safe_look_if {M : Mode} {A} n (f : PState → bool) (P : Tok → Prop) (yes no : Parse A) m :
  (∀ s, f s = true → P (peek s)) → (∀ t, P t → safe_at t n yes m) → safe n no m →
  safe n (b ← look f; if b : bool then yes else no) m.
Proof.
  intros HP Hy Hno s Hs Hn. unfold mbind, Parse_bind, look. destruct (f s) eqn:E; [|by apply Hno].
  by apply (Hy (peek s)); [apply HP|..].
Qed.

(** ** Symbolic execution of a parser *)

Create HintDb psafe discriminated.
#[export] Hint Constants Opaque : psafe.
#[export] Hint Resolve safe_comma_list safe_ident safe_opt_clause : psafe.

Ltac safe_prim :=
  lazymatch goal with
  | |- safe _ (look _) _ => apply safe_look
  | |- safe _ (eat_kw _) _ => apply safe_eat_kw
  | |- safe _ (eat_any _) _ => apply safe_eat_any
  | |- safe _ (expect_kw _) _ => apply safe_expect_kw
  | |- safe _ ident _ => apply safe_ident
  | |- safe _ (skip _) _ => apply safe_skip; discriminate
  | |- safe _ (expect _) _ => apply safe_expect; discriminate
  | |- safe _ (param_index _) _ => apply safe_param_index
  | |- safe _ bump _ => apply safe_bump
  | |- _ => solve [eauto with psafe]
  end.

(** The conditions left in a bound. *)
Ltac split_ifs :=
  repeat match goal with
  | |- context [if ?b then _ else _] => is_var b; destruct b
  | |- context [if ?b then inl _ else inr _] => destruct b
  | |- context [if ?b then inr _ else inl _] => destruct b
  end; cbn; repeat case_match.

Ltac safe_step :=
  lazymatch goal with
  | |- safe _ ((_ ≫= _) ≫= _) _ => apply safe_assoc
  | |- safe _ (mret _ ≫= _) _ => apply safe_ret_bind
  | |- safe _ (fail ≫= _) _ => apply safe_fail_bind
  | |- safe _ ((if ?b then _ else _) ≫= _) _ => destruct b eqn:?
  | |- safe _ (match ?x with _ => _ end ≫= _) _ => destruct x eqn:?
  | |- safe _ (if ?b then _ else _) _ => destruct b eqn:?
  | |- safe _ (match ?x with _ => _ end) _ => destruct x eqn:?
  | |- safe _ (mret _) _ => apply safe_ret; split_ifs; lia
  | |- safe _ fail _ => apply safe_fail
  | |- safe _ (look peek ≫= _) _ => apply safe_peek; intros ?
  | |- safe _ (look peek_word ≫= _) _ => apply safe_peek_word; intros ?
  | |- safe _ (_ ≫= _) _ => eapply safe_bind; [safe_prim|intros ?; cbn beta]
  | |- safe ?n _ _ => eapply (safe_weaken n n); [safe_prim|reflexivity|intros; split_ifs; lia]
  | |- safe_at _ _ (if ?b then _ else _) _ => destruct b eqn:?
  | |- safe_at ?t _ (match word_of ?t with _ => _ end) _ => destruct t; cbn [word_of]
  | |- safe_at _ _ (match ?x with _ => _ end) _ => destruct x eqn:?
  | |- safe_at _ _ (look _ ≫= _) _ => apply safe_at_look; intros ?
  | |- safe_at ?t _ (bump ≫= _) _ => apply safe_at_bump; [solve [reflexivity | assumption | destruct t; (reflexivity || discriminate)]|]
  | |- safe_at _ _ _ _ => apply safe_at_safe
  end.
Ltac psafe := repeat safe_step.

(** ** Shared pieces *)

Lemma safe_bump_while {M : Mode} n c : c Tok.Eof = false → safe n (bump_while c) (λ _, n).
Proof.
  intros Hc. apply safe_loop0. intros _ n' _. apply safe_peek. intros t. destruct (c t) eqn:E; [|psafe].
  apply safe_at_bump; [by destruct t; try done; rewrite Hc in E|]. psafe.
Qed.

Lemma safe_skip_to_end {M : Mode} n : safe n skip_to_end (λ _, n).
Proof. by apply safe_bump_while. Qed.

Lemma safe_skip_parens {M : Mode} n : safe n skip_parens (λ _, n).
Proof. unfold skip_parens. psafe. apply safe_loop0. intros d n' _. psafe. Qed.

Lemma safe_paren_ident_list {M : Mode} n : safe n paren_ident_list (λ _, pred n).
Proof. unfold paren_ident_list. psafe. Qed.

Lemma safe_type_modifiers {M : Mode} n w : safe n (eat_type_modifiers w) (λ _, n).
Proof. unfold eat_type_modifiers. psafe. Qed.
#[export] Hint Resolve safe_skip_to_end safe_skip_parens safe_paren_ident_list safe_type_modifiers : psafe.

Lemma safe_array_marks {M : Mode} n : safe n array_marks (λ _, n).
Proof. apply safe_loop0. intros [] n' _. psafe. Qed.

Lemma safe_until_rparen {M : Mode} n : safe n (bump_while not_rparen) (λ _, n).
Proof. by apply safe_bump_while. Qed.
#[export] Hint Resolve safe_array_marks safe_until_rparen : psafe.

Lemma safe_cast_type {M : Mode} n : safe n parse_cast_type (λ _, pred n).
Proof. unfold parse_cast_type. psafe. Qed.

Lemma safe_number_component {M : Mode} n : safe n number_component (λ _, pred n).
Proof. unfold number_component. psafe. Qed.
#[export] Hint Resolve safe_cast_type safe_number_component : psafe.

Lemma safe_vector_literal {M : Mode} n : safe n vector_literal (λ _, pred n).
Proof. unfold vector_literal. psafe. Qed.

Lemma safe_limit_value {M : Mode} n : safe n limit_value (λ _, pred n).
Proof. unfold limit_value. psafe. Qed.

Lemma safe_ident_unless {M : Mode} n f : safe n (opt_ident_unless f) (λ _, n).
Proof. unfold opt_ident_unless. psafe. Qed.

Lemma safe_opt_alias {M : Mode} n : safe n opt_alias (λ _, n).
Proof. apply safe_ident_unless. Qed.

Lemma safe_from_alias {M : Mode} n : safe n parse_from_alias (λ _, n).
Proof. apply safe_ident_unless. Qed.
#[export] Hint Resolve safe_vector_literal safe_limit_value safe_opt_alias safe_from_alias : psafe.

(** A join keyword is consumed. *)
Lemma safe_inner_join {M : Mode} n : safe n inner_join (λ _, n).
Proof. unfold inner_join. psafe. Qed.

Lemma safe_join_sides {M : Mode} n l : safe n (join_sides l) (λ k, match k with Some _ => pred n | None => n end).
Proof. induction l as [|[kw kind] l IH]; cbn; psafe. Qed.
#[export] Hint Resolve safe_inner_join safe_join_sides : psafe.

Lemma safe_join_kind {M : Mode} n : safe n parse_join_kind (λ k, match k with Some _ => pred n | None => n end).
Proof.
  unfold parse_join_kind. eapply safe_bind; [safe_prim|]. intros []; cbn beta iota.
  { eapply safe_weaken; [apply (safe_inner_join (pred n))|done|]. intros []; lia. }
  apply safe_look_if with (P := λ t, tok_is_kw "inner" t = true).
  - intros s. by intros [? _]%andb_true_iff.
  - intros t Ht. apply safe_at_eat_kw; [done|]. psafe.
  - psafe.
Qed.
#[export] Hint Resolve safe_join_kind : psafe.

(** ** The grammar *)

#[export] Hint Extern 1 (_ ≤ _)%nat => (split_ifs; lia) : psafe.

(** The calls answer within [N] tokens. *)
Record calls_safe {M : Mode} (c : Calls) (N : nat) : Prop := {
  cs_expr n : (n ≤ N)%nat → safe n (c_expr c) (λ _, pred n);
  cs_select n : (n ≤ N)%nat → safe n (c_select c) (λ _, pred n);
  cs_from n : (n ≤ N)%nat → safe n (c_from c) (λ _, pred n);
  cs_not n : (n ≤ N)%nat → safe n (c_not c) (λ _, pred n);
  cs_unary n : (n ≤ N)%nat → safe n (c_unary c) (λ _, pred n)
}.
#[export] Hint Resolve cs_expr cs_select cs_from cs_not cs_unary : psafe.

Lemma safe_left_assoc {M : Mode} n op p :
  op Tok.Eof = None → (∀ n', (n' ≤ n)%nat → safe n' p (λ _, pred n')) → safe n (left_assoc op p) (λ _, pred n).
Proof.
  intros Hop Hp. unfold left_assoc. eapply safe_bind; [by apply Hp|]. intros left. cbn beta.
  apply safe_loop0. intros a n' Hn'. apply safe_peek. intros t. destruct (op t) eqn:E; [|psafe].
  apply safe_at_bump; [by destruct t; try done; rewrite Hop in E|].
  eapply safe_bind; [apply Hp; lia|]. intros r. cbn beta. psafe.
Qed.

Section GrammarSafe.
Context {M : Mode} (c : Calls) (N : nat) (Hc : calls_safe c N).
#[local] Hint Resolve Hc : psafe.

Lemma safe_expr_list n t : (n ≤ N)%nat → safe n (expr_list_until c t) (λ _, n).
Proof.
  intros Hn. unfold expr_list_until. psafe.
Qed.
#[local] Hint Resolve safe_expr_list : psafe.

Lemma safe_aggregate_call n f : (n ≤ S N)%nat → safe n (aggregate_call c f) (λ _, pred n).
Proof. intros Hn. unfold aggregate_call. psafe. Qed.
#[local] Hint Resolve safe_aggregate_call : psafe.

Lemma safe_func_call n w : (n ≤ S N)%nat → safe n (func_call c w) (λ _, pred n).
Proof. intros Hn. unfold func_call. psafe. Qed.
#[local] Hint Resolve safe_func_call : psafe.

Lemma safe_when_list n : (n ≤ S N)%nat → safe n (when_list c) (λ _, n).
Proof. intros Hn. apply safe_loop0. intros ws n' Hn'. psafe. Qed.
#[local] Hint Resolve safe_when_list : psafe.

Lemma safe_case_expr n : (n ≤ S N)%nat → safe n (case_expr c) (λ _, pred n).
Proof. intros Hn. unfold case_expr. psafe. Qed.
#[local] Hint Resolve safe_case_expr : psafe.

Lemma safe_word_expr n w : (n ≤ S N)%nat → safe_at (Tok.Word w) n (word_expr c w) (λ _, pred n).
Proof. intros Hn. unfold word_expr, word_case, cast_call, extract_call, exists_expr, name_expr. psafe. Qed.

Lemma safe_primary n : (n ≤ S N)%nat → safe n (primary c) (λ _, pred n).
Proof.
  intros Hn. unfold primary. apply safe_peek. intros t. destruct t; try (by apply safe_word_expr); psafe.
Qed.
#[local] Hint Resolve safe_primary : psafe.

Lemma safe_cast_expr n : (n ≤ S N)%nat → safe n (cast_expr c) (λ _, pred n).
Proof. intros Hn. unfold cast_expr. psafe. apply safe_loop0. intros e n' Hn'. psafe. Qed.
#[local] Hint Resolve safe_cast_expr : psafe.

Lemma safe_unary_expr n : (n ≤ S N)%nat → safe n (unary_expr c) (λ _, pred n).
Proof. intros Hn. unfold unary_expr. psafe. Qed.

Lemma safe_vecdist_expr n : (n ≤ S N)%nat → safe n (vecdist_expr c) (λ _, pred n).
Proof.
  intros Hn. do 4 (apply safe_left_assoc; [done|intros]). apply safe_unary_expr. lia.
Qed.
#[local] Hint Resolve safe_vecdist_expr : psafe.

Lemma safe_in_tail n e b : (n ≤ S N)%nat → safe n (in_tail c e b) (λ _, n).
Proof. intros Hn. unfold in_tail. psafe. Qed.

Lemma safe_between_tail n e b : (n ≤ S N)%nat → safe n (between_tail c e b) (λ _, n).
Proof. intros Hn. unfold between_tail. psafe. Qed.

Lemma safe_like_tail n e b : (n ≤ S N)%nat → safe n (like_tail c e b) (λ _, n).
Proof. intros Hn. unfold like_tail. psafe. Qed.
#[local] Hint Resolve safe_in_tail safe_between_tail safe_like_tail : psafe.

Lemma safe_predicate_tail n e b : (n ≤ S N)%nat → safe n (predicate_tail c e b) (λ _, n).
Proof. intros Hn. unfold predicate_tail. psafe. Qed.
#[local] Hint Resolve safe_predicate_tail : psafe.

Lemma safe_cmp_tail n e : (n ≤ S N)%nat → safe n (cmp_tail c e) (λ _, n).
Proof. intros Hn. unfold cmp_tail. psafe. Qed.
#[local] Hint Resolve safe_cmp_tail : psafe.

Lemma safe_not_expr n : (n ≤ S N)%nat → safe n (not_expr c) (λ _, pred n).
Proof. intros Hn. unfold not_expr, cmp_expr. psafe. Qed.

Lemma safe_expr n : (n ≤ S N)%nat → safe n (expr c) (λ _, pred n).
Proof. intros Hn. do 2 (apply safe_left_assoc; [done|intros]). apply safe_not_expr. lia. Qed.

Lemma safe_select_item n : (n ≤ N)%nat → safe n (select_item c) (λ _, pred n).
Proof.
  intros Hn. unfold select_item. eapply safe_bind; [by apply safe_skip|]. intros []; [psafe|]. cbn beta iota.
  apply safe_peek. intros t. apply safe_at_look. intros b.
  destruct (word_of t) as [w|] eqn:E; [destruct b|]; psafe.
Qed.
#[local] Hint Resolve safe_select_item : psafe.

Lemma safe_parse_with n : (n ≤ S N)%nat → safe n (parse_with c) (λ _, n).
Proof.
  intros Hn. unfold parse_with. eapply safe_bind; [safe_prim|]. intros []; cbn; [|psafe].
  eapply safe_bind; [safe_prim|]. intros r. eapply safe_weaken; [apply safe_comma_list|reflexivity|intros; split_ifs; lia].
  intros n' Hn'. assert (n' ≤ N)%nat by (destruct r; lia). psafe.
Qed.

Lemma safe_group_by n : (n ≤ S N)%nat → safe n (parse_group_by c) (λ _, n).
Proof. intros Hn. unfold parse_group_by. psafe. Qed.

Lemma safe_order_key n : (n ≤ N)%nat → safe n (order_key c) (λ _, pred n).
Proof. intros Hn. unfold order_key. psafe. Qed.
#[local] Hint Resolve safe_order_key : psafe.

Lemma safe_order_by n : (n ≤ S N)%nat → safe n (parse_order_by c) (λ _, n).
Proof. intros Hn. unfold parse_order_by. psafe. Qed.

Lemma safe_limit_offset n : safe n parse_limit_offset (λ _, n).
Proof. apply safe_loop0. intros [l o] n' Hn'. psafe. Qed.

Lemma safe_from_item n : (n ≤ S N)%nat → safe n (parse_from_item c) (λ _, pred n).
Proof. intros Hn. unfold parse_from_item. psafe. Qed.

Lemma safe_join_condition n : (n ≤ S N)%nat → safe n (parse_join_condition c) (λ _, n).
Proof. intros Hn. unfold parse_join_condition. psafe. Qed.
#[local] Hint Resolve safe_parse_with safe_group_by safe_order_by safe_limit_offset safe_from_item
  safe_join_condition : psafe.

Lemma safe_parse_from n : (n ≤ S N)%nat → safe n (parse_from c) (λ _, pred n).
Proof. intros Hn. unfold parse_from. psafe. apply safe_loop0. intros left n' Hn'. psafe. Qed.
#[local] Hint Resolve safe_parse_from : psafe.

Lemma safe_select_core n : (n ≤ S N)%nat → safe n (select_core c) (λ _, pred n).
Proof. intros Hn. unfold select_core. psafe. Qed.

Lemma safe_set_op_word n : safe n set_op_word (λ o, match o with Some _ => pred n | None => n end).
Proof. unfold set_op_word. psafe. Qed.
#[local] Hint Resolve safe_select_core safe_set_op_word : psafe.

Lemma safe_set_op_part n : (n ≤ S N)%nat → safe n (set_op_part c) (λ _, pred n).
Proof. intros Hn. unfold set_op_part. psafe. Qed.
#[local] Hint Resolve safe_set_op_part : psafe.

Lemma safe_set_op_chain n : (n ≤ S N)%nat → safe n (set_op_chain c) (λ _, n).
Proof. intros Hn. apply safe_loop0. intros ops n' Hn'. psafe. Qed.
#[local] Hint Resolve safe_set_op_chain : psafe.

Lemma safe_select n : (n ≤ S N)%nat → safe n (select c) (λ _, pred n).
Proof. intros Hn. unfold select. psafe. Qed.
End GrammarSafe.

(** ** The recursion closed *)

Lemma safe_zero {M : Mode} {A} n (p : Parse A) m : (n ≤ 0)%nat → safe n p m.
Proof. intros Hn s [Hs _] Hr. unfold remaining in Hr. lia. Qed.

(** As many calls as tokens are enough. *)
Lemma calls_safe_fuel {M : Mode} N : calls_safe (calls N) N.
Proof.
  induction N as [|N IH]; [split; intros; by apply safe_zero|].
  split; intros n Hn; cbn [calls calls_step c_expr c_select c_from c_not c_unary].
  - by apply safe_expr with (N := N).
  - by apply safe_select with (N := N).
  - by apply safe_parse_from with (N := N).
  - by apply safe_not_expr with (N := N).
  - by apply safe_unary_expr with (N := N).
Qed.

(** Whatever the fuel, for what a success implies. *)
Lemma calls_partial fuel N : calls_safe (M := Partial) (calls fuel) N.
Proof.
  revert N. induction fuel as [|fuel IH]; intros N; [split; intros n Hn s Hs Hr; cbn; intros []|].
  split; intros n Hn; cbn [calls calls_step c_expr c_select c_from c_not c_unary].
  - apply safe_expr with (N := N); auto.
  - apply safe_select with (N := N); auto.
  - apply safe_parse_from with (N := N); auto.
  - apply safe_not_expr with (N := N); auto.
  - apply safe_unary_expr with (N := N); auto.
Qed.

(** ** Statements *)

Lemma safe_if_clause {M : Mode} n kws : safe n (if_clause kws) (λ _, n).
Proof.
  unfold if_clause. eapply safe_bind; [safe_prim|]. intros []; [|psafe]. cbn beta iota.
  eapply safe_bind with (m := λ _, pred n); [|intros; cbn; psafe].
  induction kws as [|kw kws IH]; cbn; [by apply safe_ret|].
  eapply safe_bind; [apply safe_expect_kw|]. intros ?. cbn. eapply safe_weaken; [exact IH|lia|done].
Qed.

Lemma safe_if_not_exists {M : Mode} n : safe n if_not_exists (λ _, n).
Proof. apply safe_if_clause. Qed.

Lemma safe_if_exists {M : Mode} n : safe n if_exists (λ _, n).
Proof. apply safe_if_clause. Qed.

Lemma safe_dotted_tail {M : Mode} n parts : safe n (dotted_tail parts) (λ _, n).
Proof. apply safe_loop0. intros ps n' Hn'. psafe. Qed.
#[export] Hint Resolve safe_if_not_exists safe_if_exists safe_dotted_tail : psafe.

(** A name that is there is consumed. *)
Lemma safe_at_dotted {M : Mode} n w : safe_at (Tok.Word w) n dotted_name (λ _, pred n).
Proof.
  intros s Hs Ht Hn.
  assert (safe_at (Tok.Word w) n (_ ← bump; parts ← dotted_tail [w]; mret (String.concat "." parts)) (λ _, pred n))
    as H by psafe.
  specialize (H s Hs Ht Hn). unfold dotted_name, look, peek_word. unfold mbind at 1, Parse_bind. by rewrite Ht.
Qed.

Lemma safe_dotted_name {M : Mode} n : safe n dotted_name (λ _, n).
Proof. unfold dotted_name. psafe. Qed.

Lemma safe_read_set_value {M : Mode} n : safe n read_set_value (λ _, n).
Proof. unfold read_set_value. psafe. Qed.
#[export] Hint Resolve safe_dotted_name safe_read_set_value : psafe.

Lemma safe_set_stmt {M : Mode} n : safe n set_stmt (λ _, n).
Proof. unfold set_stmt. psafe. Qed.

Lemma safe_reset_stmt {M : Mode} n : safe n reset_stmt (λ _, n).
Proof. unfold reset_stmt. psafe. Qed.

Lemma safe_show_names {M : Mode} n : safe n show_names (λ _, n).
Proof.
  apply safe_loop0. intros parts n' _. apply safe_peek_word. intros u. destruct u; cbn [word_of]; [|psafe..].
  intros s Hs Hu Hn. pose proof (safe_at_dotted n' w s Hs Hu Hn) as H.
  unfold mbind, Parse_bind. by destruct (dotted_name s) as [[]|].
Qed.
#[export] Hint Resolve safe_show_names : psafe.

Lemma safe_show_stmt {M : Mode} n : safe n show_stmt (λ _, n).
Proof. unfold show_stmt. psafe. Qed.

Lemma safe_modes {M : Mode} n : safe n eat_transaction_modes (λ _, n).
Proof. apply safe_loop0. intros [] n' Hn'. psafe. Qed.
#[export] Hint Resolve safe_set_stmt safe_reset_stmt safe_show_stmt safe_modes : psafe.

Lemma safe_transaction_stmt {M : Mode} n : safe n transaction_stmt (λ _, n).
Proof. unfold transaction_stmt. psafe. Qed.

Lemma safe_size_int {M : Mode} n : safe n size_int (λ _, n).
Proof. apply safe_loop0. intros o n' _. psafe. Qed.
#[export] Hint Resolve safe_size_int : psafe.

Lemma safe_type_size {M : Mode} n ty : safe n (parse_type_size ty) (λ _, n).
Proof. unfold parse_type_size. psafe. Qed.

Lemma safe_references {M : Mode} n : safe n references_target (λ _, pred n).
Proof. unfold references_target. psafe. Qed.
#[export] Hint Resolve safe_transaction_stmt safe_type_size safe_references : psafe.

Section StatementsSafe.
Context {M : Mode} (c : Calls) (N : nat) (Hc : calls_safe c N).
#[local] Hint Resolve Hc : psafe.

Lemma safe_capture n : (n ≤ N)%nat → safe n (capture_expr_sql c) (λ _, pred n).
Proof. intros Hn. unfold capture_expr_sql. psafe. Qed.
#[local] Hint Resolve safe_capture : psafe.

Lemma safe_paren_capture n : (n ≤ N)%nat → safe n (capture_paren_expr_sql c) (λ _, pred n).
Proof. intros Hn. unfold capture_paren_expr_sql. psafe. Qed.
#[local] Hint Resolve safe_paren_capture : psafe.

Lemma safe_column_clause n cs : (n ≤ N)%nat →
  safe n (column_clause c cs) (λ r, match r with Some _ => pred n | None => n end).
Proof. intros Hn. destruct cs. unfold column_clause. psafe. Qed.

Lemma safe_column_type n : safe n column_type (λ _, n).
Proof. unfold column_type. apply safe_peek_word. intros t. destruct t; cbn [word_of]; psafe. Qed.
#[local] Hint Resolve safe_column_clause safe_column_type : psafe.

Lemma safe_column_spec n : (n ≤ N)%nat → safe n (column_spec c) (λ _, pred n).
Proof.
  intros Hn. unfold column_spec. psafe. apply safe_loop0. intros cs n' Hn'.
  eapply safe_bind; [apply safe_column_clause; lia|]. intros []; cbn; psafe.
Qed.

Lemma safe_table_constraint n d : (n ≤ N)%nat → safe n (table_constraint c d) (λ _, n).
Proof. intros Hn. destruct d. unfold table_constraint. psafe. Qed.
#[local] Hint Resolve safe_column_spec safe_table_constraint : psafe.

Lemma safe_table_item n d : (n ≤ N)%nat → safe n (table_item c d) (λ _, n).
Proof. intros Hn. unfold table_item. psafe. Qed.
#[local] Hint Resolve safe_table_item : psafe.

Lemma safe_table_items n d : (n ≤ N)%nat → safe n (table_items c d) (λ _, n).
Proof. intros Hn. apply safe_loop0. intros d' n' Hn'. psafe. Qed.
#[local] Hint Resolve safe_table_items : psafe.

Lemma safe_create_table n : (n ≤ N)%nat → safe n (create_table c) (λ _, n).
Proof. intros Hn. unfold create_table. psafe. Qed.

Lemma safe_alter_action n : (n ≤ N)%nat → safe n (alter_action c) (λ _, n).
Proof. intros Hn. unfold alter_action. psafe. Qed.
#[local] Hint Resolve safe_create_table safe_alter_action : psafe.

Lemma safe_alter_table n : (n ≤ N)%nat → safe n (alter_table c) (λ _, n).
Proof. intros Hn. unfold alter_table. psafe. Qed.

Lemma safe_index_option n k p : safe n (apply_index_option k p) (λ _, n).
Proof. unfold apply_index_option, string_or_ident, int_value. psafe. Qed.
#[local] Hint Resolve safe_alter_table safe_index_option : psafe.

Lemma safe_index_list n p : safe n (index_option_list p) (λ _, n).
Proof. apply safe_loop0. intros p' n' _. psafe. Qed.
#[local] Hint Resolve safe_index_list : psafe.

Lemma safe_index_options n p : safe n (parse_index_options p) (λ _, n).
Proof. unfold parse_index_options. psafe. Qed.
#[local] Hint Resolve safe_index_options : psafe.

Lemma safe_create_index n : safe n create_index (λ _, n).
Proof.
  unfold create_index. do 11 safe_step. psafe.
Qed.

Lemma safe_drop_stmt n w mk : safe n (drop_stmt w mk) (λ _, n).
Proof. unfold drop_stmt. psafe. Qed.

Lemma safe_create_view n : (n ≤ N)%nat → safe n (create_view c) (λ _, n).
Proof. intros Hn. unfold create_view. psafe. Qed.

Lemma safe_policy_command n : safe n policy_command (λ _, n).
Proof. unfold policy_command. psafe. Qed.
#[local] Hint Resolve safe_create_index safe_drop_stmt safe_create_view safe_policy_command : psafe.

Lemma safe_create_policy n : (n ≤ N)%nat → safe n (create_policy c) (λ _, n).
Proof. intros Hn. unfold create_policy. psafe. Qed.

Lemma safe_drop_policy n : safe n drop_policy (λ _, n).
Proof. unfold drop_policy. psafe. Qed.
#[local] Hint Resolve safe_create_policy safe_drop_policy : psafe.

Lemma safe_assignment n : (n ≤ N)%nat → safe n (assignment c) (λ _, pred n).
Proof. intros Hn. unfold assignment. psafe. Qed.
#[local] Hint Resolve safe_assignment safe_select_item safe_expr_list : psafe.

Lemma safe_values_row n : (n ≤ N)%nat → safe n (values_row c) (λ _, pred n).
Proof. intros Hn. unfold values_row. psafe. Qed.
#[local] Hint Resolve safe_values_row : psafe.

Lemma safe_insert_source n : (n ≤ N)%nat → safe n (insert_source c) (λ _, n).
Proof. intros Hn. unfold insert_source. psafe. Qed.

Lemma safe_returning n : (n ≤ N)%nat → safe n (opt_returning c) (λ _, n).
Proof. intros Hn. unfold opt_returning. psafe. Qed.

Lemma safe_on_conflict n : (n ≤ N)%nat → safe n (on_conflict_action c) (λ _, n).
Proof. intros Hn. unfold on_conflict_action, assignment_list. psafe. Qed.
#[local] Hint Resolve safe_insert_source safe_returning safe_on_conflict : psafe.

Lemma safe_insert_or n : safe n insert_or (λ _, n).
Proof. unfold insert_or. psafe. Qed.

Lemma safe_insert_columns n : safe n insert_columns (λ _, n).
Proof. unfold insert_columns. psafe. Qed.
#[local] Hint Resolve safe_insert_or safe_insert_columns : psafe.

Lemma safe_insert n : (n ≤ N)%nat → safe n (insert c) (λ _, n).
Proof. intros Hn. unfold insert. psafe. Qed.

Lemma safe_update n : (n ≤ N)%nat → safe n (update c) (λ _, n).
Proof. intros Hn. unfold update, assignment_list. psafe. Qed.

Lemma safe_delete n : (n ≤ N)%nat → safe n (delete c) (λ _, n).
Proof. intros Hn. unfold delete. psafe. Qed.
#[local] Hint Resolve safe_insert safe_update safe_delete : psafe.

Lemma safe_utility n rec : (n ≤ N)%nat → (∀ n', (n' < n)%nat → safe n' rec (λ _, n')) →
  safe n (utility_stmt rec) (λ _, n).
Proof.
  intros Hn Hrec. unfold utility_stmt. eapply safe_bind; [safe_prim|]. intros []; cbn beta iota; [|psafe].
  destruct n as [|n]; [by apply safe_zero|]. cbn [pred].
  assert (∀ n', (n' ≤ n)%nat → safe n' rec (λ _, n')) by (intros; apply Hrec; lia). psafe.
Qed.

Lemma safe_statement fuel : ∀ n, (n ≤ N)%nat → (n ≤ fuel)%nat → safe n (statement c fuel) (λ _, n).
Proof.
  induction fuel as [|fuel IH]; intros n Hn Hf; [by apply safe_zero|]. cbn. intros s Hs Hr. unfold statement_body.
  revert s Hs Hr. 
  assert (∀ n', (n' < n)%nat → safe n' (statement c fuel) (λ _, n')) as Hrec by (intros; apply IH; lia).
  pose proof (safe_utility n _ Hn Hrec) as Hu. intros s Hs Hr. revert Hr. revert Hs.
  repeat match goal with |- context [if ?b then _ else _] => destruct b end; intros Hs Hr;
    match goal with |- match ?p s with _ => _ end => assert (safe n p (λ _, n)) as H end;
    try (by apply H); unfold create_stmt, drop_any, drop_index, drop_table, drop_view; psafe.
Qed.
End StatementsSafe.

(** ** The whole parser *)

Lemma lexed_wf sql ts : lex sql = Ok ts → wf (set_src sql (parser_new ts)) ∧ wf (parser_new ts).
Proof.
  intros E. pose proof (lex_total sql) as H. rewrite E in H. destruct H as (l & -> & _).
  unfold wf. cbn. rewrite length_app, last_snoc. cbn. split; split; (lia || done).
Qed.

(** C22. Parsing is total: on every text the lexer and the parser come to an end within the fuel they are given
    (the number of bytes, and the number of tokens), and a text they do not accept is answered with a syntax
    error and nothing else.  The depth of the machine's stack, which deep nesting uses up, is not
    modelled. *)
Theorem parse_total sql :
  (∃ r, parse sql = Ok r) ∨ parse sql = Err ErrSql.
Proof.
  unfold parse. pose proof (lex_total sql) as Hl. destruct (lex sql) as [ts|e] eqn:E; cbn; [|right; by subst].
  destruct (lexed_wf _ _ E) as [Hw _]. unfold with_calls. cbn [toks set_src parser_new].
  pose proof (calls_safe_fuel (M := Total) (length ts)) as Hc.
  assert (safe (M := Total) (length ts) (stmt ← statement (calls (length ts)) (length ts); _ ← skip Tok.Semi; mret stmt)
    (λ _, length ts)) as H.
  { eapply safe_bind; [apply (safe_statement _ _ Hc); lia|]. intros a. cbn beta. psafe. }
  specialize (H _ Hw ltac:(unfold remaining; cbn; lia)).
  match type of H with match ?x with _ => _ end => destruct x as [[stmt s]|e] end; cbn in H |- *; [|right; by rewrite (H I)].
  destruct (bool_decide _); eauto.
Qed.

Lemma parse_expr_total sql : (∃ e, parse_expr sql = Ok e) ∨ parse_expr sql = Err ErrSql.
Proof.
  unfold parse_expr. pose proof (lex_total sql) as Hl. destruct (lex sql) as [ts|e] eqn:E; cbn; [|right; by subst].
  destruct (lexed_wf _ _ E) as [_ Hw]. unfold with_calls. cbn [toks parser_new].
  pose proof (safe_expr _ _ (calls_safe_fuel (M := Total) (length ts)) (length ts) ltac:(lia)) as H.
  specialize (H _ Hw ltac:(unfold remaining; cbn; lia)).
  destruct (expr _ _) as [[stmt s]|e]; cbn in H |- *; [|right; by rewrite (H I)]. destruct (bool_decide _); eauto.
Qed.
