(* ===== verification/PrintSpec.v ===== *)
(** * Every expression has a text

    A printer of expressions that puts parentheses only where the grammar needs them, and the proof that the
    parser takes its output back: the precedence and the associativity of every operator are those the levels
    below say, and no two trees share a text.  Subqueries and vector literals are left out. *)

From S2P Require Import Prelude Text Numbers EngineTypes Chars Float Ast Lex Parser Statements ParserSpec.

(** ** The printer *)

(** The binding strength of an operator, from OR to a primary. *)
Definition op_level (op : BinOp) : nat :=
  match op with
  | OpOr => 0 | OpAnd => 1
  | OpEq | OpNe | OpLt | OpLe | OpGt | OpGe => 3
  | VecL2 | VecCosine | VecIp => 4
  | OpConcat => 5
  | OpAdd | OpSub => 6
  | OpMul | OpDiv | OpMod => 7
  end.

Definition level (e : Expr) : nat :=
  match e with
  | EBinary op _ _ => op_level op
  | EUnary Not _ => 2
  | EIsNull _ _ | ELike _ _ _ _ _ | EInList _ _ _ | EBetween _ _ _ _ => 3
  | EUnary Neg _ => 8
  | ECast _ _ => 9
  | _ => 10
  end.

Definition op_tok (op : BinOp) : Tok :=
  match op with
  | OpOr => Tok.Word "or" | OpAnd => Tok.Word "and"
  | OpEq => Tok.Eq | OpNe => Tok.Ne | OpLt => Tok.Lt | OpLe => Tok.Le | OpGt => Tok.Gt | OpGe => Tok.Ge
  | VecL2 => Tok.VecL2 | VecCosine => Tok.VecCosine | VecIp => Tok.VecIp
  | OpConcat => Tok.Concat | OpAdd => Tok.Plus | OpSub => Tok.Minus
  | OpMul => Tok.Star | OpDiv => Tok.Slash | OpMod => Tok.Percent
  end.

(** Comparisons do not associate. *)
Definition left_level (op : BinOp) : nat := if (op_level op =? 3)%nat then 4 else op_level op.
Definition right_level (op : BinOp) : nat := if (op_level op =? 3)%nat then 4 else S (op_level op).

Definition type_word (t : CastTarget) : string :=
  match t with ToInt => "int" | ToReal => "real" | ToText => "text" | ToBool => "bool" | Passthrough => "date" end.
Definition agg_word (f : AggFunc) : string :=
  match f with
  | Count => "count" | Sum => "sum" | Min => "min" | Max => "max" | Avg => "avg"
  | JsonAgg => "json_agg" | GroupConcat => "group_concat"
  end.

(** A function's name, with its schema. *)
Definition name_toks (name : string) : list Tok :=
  match split_once "." name with
  | Some (a, b) => [Tok.Word a; Tok.Dot; Tok.Word b]
  | None => [Tok.Word name]
  end.

Fixpoint commas (ls : list (list Tok)) : list Tok :=
  match ls with
  | [] => []
  | x :: ls => match ls with [] => x | _ => x ++ Tok.Comma :: commas ls end
  end.

Definition wrap (b : bool) (l : list Tok) : list Tok := if b then Tok.LParen :: l ++ [Tok.RParen] else l.
Definition nots (n : bool) : list Tok := if n then [Tok.Word "not"] else [].

Fixpoint body (e : Expr) : list Tok :=
  let at_ k e := wrap (level e <? k)%nat (body e) in
  match e with
  | ENull => [Tok.Word "null"]
  | EInt n => [Tok.Int n]
  | EReal r => [Tok.Real r]
  | EStr s => [Tok.Str s]
  | EParam n => [Tok.NumParam n]
  | EColumn w => [Tok.Word w]
  | EQualified t n => [Tok.Word t; Tok.Dot; Tok.Word n]
  | EExcluded n => [Tok.Word "excluded"; Tok.Dot; Tok.Word n]
  | EDefault => [Tok.Word "default"]
  | EBinary op l r => at_ (left_level op) l ++ op_tok op :: at_ (right_level op) r
  | EUnary Not e => Tok.Word "not" :: at_ 2%nat e
  | EUnary Neg e => Tok.Minus :: at_ 8%nat e
  | EIsNull e n => at_ 4%nat e ++ Tok.Word "is" :: nots n ++ [Tok.Word "null"]
  | ELike e p esc n i =>
      at_ 4%nat e ++ nots n ++ Tok.Word (if i then "ilike" else "like") :: at_ 4%nat p ++
      match esc with Some x => Tok.Word "escape" :: at_ 4%nat x | None => [] end
  | EInList e items n =>
      at_ 4%nat e ++ nots n ++ Tok.Word "in" :: Tok.LParen :: commas (List.map body items) ++ [Tok.RParen]
  | EBetween e lo hi n =>
      at_ 4%nat e ++ nots n ++ Tok.Word "between" :: at_ 4%nat lo ++ Tok.Word "and" :: at_ 4%nat hi
  | ECase o ws els =>
      Tok.Word "case" :: match o with Some e => body e | None => [] end ++
      List.concat (List.map (λ w, Tok.Word "when" :: body w.1 ++ Tok.Word "then" :: body w.2) ws) ++
      match els with Some e => Tok.Word "else" :: body e | None => [] end ++ [Tok.Word "end"]
  | ECast e t => at_ 9%nat e ++ [Tok.DColon; Tok.Word (type_word t)]
  | EFunc name args => name_toks name ++ Tok.LParen :: commas (List.map body args) ++ [Tok.RParen]
  | EAggregate f a d sep =>
      Tok.Word (agg_word f) :: Tok.LParen :: (if d then [Tok.Word "distinct"] else []) ++
      match a with Some e => body e | None => [Tok.Star] end ++
      match sep with Some x => Tok.Comma :: body x | None => [] end ++ [Tok.RParen]
  | _ => [Tok.Eof]
  end.

(** The tokens of an expression where an operator of strength [k] expects it. *)
Definition print (k : nat) (e : Expr) : list Tok := wrap (level e <? k)%nat (body e).

(** Words that mean something else where an expression may start. *)
Definition name_ok (w : string) : bool :=
  negb (one_of ["null"; "true"; "false"; "default"; "case"; "cast"; "extract"; "exists"; "not"; "when"; "distinct";
                "all"; "select"; "with"]%string w).

Definition func_ok (name : string) : bool :=
  match split_once "." name with Some (a, _) => name_ok a | None => name_ok name end &&
  match agg_func name with None => true | Some _ => false end.

Fixpoint printable (e : Expr) : bool :=
  let opt (o : option Expr) := match o with Some e => printable e | None => true end in
  match e with
  | ENull | EInt _ | EReal _ | EStr _ | EParam _ | EExcluded _ | EDefault => true
  | EColumn w => name_ok w
  | EQualified t _ => name_ok t && negb (eq_ignore_ascii_case t "excluded")
  | EBinary _ l r => printable l && printable r
  | EUnary _ e | EIsNull e _ | ECast e _ => printable e
  | ELike e p esc _ _ => printable e && printable p && opt esc
  | EInList e items _ => printable e && forallb printable items
  | EBetween e lo hi _ => printable e && printable lo && printable hi
  | ECase o ws els =>
      opt o && negb (bool_decide (ws = [])) && forallb (λ w, printable w.1 && printable w.2) ws && opt els
  | EFunc name args => func_ok name && forallb printable args
  | EAggregate _ a _ sep => opt a && opt sep
  | _ => false
  end.

(** ** Parsers on token lists *)

(** The tokens from the cursor on. *)
Definition view (s : PState) (l : list Tok) : Prop := drop (pos s) (toks s) = l.

(** [p] takes the tokens before [l'] off [l] and returns [a]. *)
Definition takes {A} (p : Parse A) (l : list Tok) (a : A) (l' : list Tok) : Prop :=
  ∀ s, view s l → ∃ s', p s = Ok (a, s') ∧ view s' l'.

Lemma view_tok s l k : view s l → tok_at k s = default Tok.Eof (l !! k).
Proof. intros <-. unfold tok_at. by rewrite lookup_drop. Qed.

Lemma view_remaining s l : view s l → remaining s = length l.
Proof. intros <-. unfold remaining. by rewrite length_drop. Qed.

Lemma view_bump s t u l : view s (t :: u :: l) → bump s = Ok (t, set_pos (S (pos s)) s) ∧ view (set_pos (S (pos s)) s) (u :: l).
Proof.
  intros H. pose proof (view_tok _ _ 0 H) as Hp. cbn in Hp. pose proof (view_remaining _ _ H) as Hr.
  unfold remaining in Hr. cbn in Hr. unfold bump, peek. rewrite Hp.
  destruct (Nat.ltb_spec (S (pos s)) (length (toks s))); [|lia]. split; [done|]. unfold view in *. cbn.
  replace (S (pos s)) with (pos s + 1)%nat by lia. rewrite <- drop_drop, H. done.
Qed.

Lemma takes_ret {A} (a : A) l : takes (mret a) l a l.
Proof. intros s H. by exists s. Qed.

Lemma takes_bind {A B} (p : Parse A) (f : A → Parse B) l a l1 b l2 :
  takes p l a l1 → takes (f a) l1 b l2 → takes (p ≫= f) l b l2.
Proof.
  intros Hp Hf s Hs. destruct (Hp s Hs) as (s1 & E & H1). destruct (Hf s1 H1) as (s2 & E2 & H2).
  exists s2. unfold mbind, Parse_bind. by rewrite E.
Qed.

Lemma takes_bump t u l : takes bump (t :: u :: l) t (u :: l).
Proof. intros s H. apply view_bump in H as [E H]. eauto. Qed.

Lemma takes_look {A} (f : PState → A) l v : (∀ s, view s l → f s = v) → takes (look f) l v l.
Proof. intros Hf s H. exists s. unfold look. by rewrite (Hf s H). Qed.

Lemma view_peek s t l : view s (t :: l) → peek s = t.
Proof. intros H. exact (view_tok _ _ 0 H). Qed.

Lemma takes_peek t l : takes (look peek) (t :: l) t (t :: l).
Proof. apply takes_look. intros s. apply view_peek. Qed.

Lemma takes_is_tok u t l : takes (look (is_tok u)) (t :: l) (bool_decide (t = u)) (t :: l).
Proof. apply takes_look. intros s H. unfold is_tok. by rewrite (view_peek _ _ _ H). Qed.

Lemma takes_is_kw kw t l : takes (look (is_kw kw)) (t :: l) (tok_is_kw kw t) (t :: l).
Proof. apply takes_look. intros s H. unfold is_kw. by rewrite (view_peek _ _ _ H). Qed.

(** A test and the token it is about. *)
Lemma takes_eat_kw kw t l : match l with [] => False | _ => True end → tok_is_kw kw t = true →
  takes (eat_kw kw) (t :: l) true l.
Proof.
  intros Hl Hk. destruct l as [|u l]; [done|]. eapply takes_bind; [apply takes_is_kw|]. rewrite Hk.
  eapply takes_bind; [apply takes_bump|]. apply takes_ret.
Qed.

Lemma takes_no_kw kw t l : tok_is_kw kw t = false → takes (eat_kw kw) (t :: l) false (t :: l).
Proof. intros Hk. eapply takes_bind; [apply takes_is_kw|]. rewrite Hk. apply takes_ret. Qed.

Lemma takes_skip t u l : takes (skip t) (t :: u :: l) true (u :: l).
Proof.
  eapply takes_bind; [apply (takes_is_tok t)|]. rewrite bool_decide_true by done.
  eapply takes_bind; [apply takes_bump|]. apply takes_ret.
Qed.

Lemma takes_no_skip u t l : t ≠ u → takes (skip u) (t :: l) false (t :: l).
Proof.
  intros Hne. eapply takes_bind; [apply (takes_is_tok u)|]. rewrite bool_decide_false by done. apply takes_ret.
Qed.

Lemma takes_expect t u l : takes (expect t) (t :: u :: l) tt (u :: l).
Proof.
  eapply takes_bind; [apply (takes_is_tok t)|]. rewrite bool_decide_true by done.
  eapply takes_bind; [apply takes_bump|]. apply takes_ret.
Qed.

Lemma takes_expect_kw kw u l : takes (expect_kw kw) (Tok.Word kw :: u :: l) tt (u :: l).
Proof.
  eapply takes_bind; [apply takes_eat_kw; [done|]|apply takes_ret]. cbn. unfold eq_ignore_ascii_case. apply String.eqb_refl.
Qed.

Lemma takes_ident w u l : takes ident (Tok.Word w :: u :: l) w (u :: l).
Proof. eapply takes_bind; [apply takes_bump|]. apply takes_ret. Qed.

(** ** Loops *)

Lemma loop_go_more {A B} (step : A → Parse (A + B)) n m a s r :
  loop_go n step a s = Ok r → (n ≤ m)%nat → loop_go m step a s = Ok r.
Proof.
  revert m a s. induction n as [|n IH]; intros m a s H Hm; [done|]. destruct m as [|m]; [lia|]. cbn in *.
  unfold mbind, Parse_bind in *. destruct (step a s) as [[[a'|b] s1]|e]; [|done|done]. eapply IH; [done|lia].
Qed.

Lemma takes_loop_done {A B} (step : A → Parse (A + B)) a b l l' : takes (step a) l (inr b) l' → takes (loop step a) l b l'.
Proof.
  intros H s Hs. destruct (H s Hs) as (s1 & E & H1). exists s1. split; [|done]. unfold loop. cbn.
  unfold mbind, Parse_bind. by rewrite E.
Qed.

Lemma takes_loop_step {A B} (step : A → Parse (A + B)) a a' b l l1 l' :
  takes (step a) l (inl a') l1 → (length l1 < length l)%nat → takes (loop step a') l1 b l' → takes (loop step a) l b l'.
Proof.
  intros H Hlt H' s Hs. destruct (H s Hs) as (s1 & E & H1). destruct (H' s1 H1) as (s2 & E2 & H2).
  exists s2. split; [|done]. unfold loop in *. rewrite (view_remaining _ _ H1) in E2. rewrite (view_remaining _ _ Hs).
  cbn. unfold mbind, Parse_bind. rewrite E. eapply loop_go_more; [exact E2|lia].
Qed.

(** ** What may follow, and what may come first *)

(** [t] continues no expression of strength [k] or more. *)
Definition stop (k : nat) (t : Tok) : bool :=
  match t with
  | Tok.LParen | Tok.Dot | Tok.LBracket => false
  | Tok.DColon => (9 <? k)%nat
  | Tok.Star | Tok.Slash | Tok.Percent => (7 <? k)%nat
  | Tok.Plus | Tok.Minus => (6 <? k)%nat
  | Tok.Concat | Tok.Arrow | Tok.ArrowText => (5 <? k)%nat
  | Tok.VecL2 | Tok.VecCosine | Tok.VecIp => (4 <? k)%nat
  | Tok.Eq | Tok.Ne | Tok.Lt | Tok.Le | Tok.Gt | Tok.Ge => (3 <? k)%nat
  | Tok.Word w =>
      ((3 <? k)%nat || negb (one_of ["is"; "not"; "like"; "ilike"; "in"; "between"; "escape"]%string w)) &&
      ((1 <? k)%nat || negb (eq_ignore_ascii_case w "and")) && ((0 <? k)%nat || negb (eq_ignore_ascii_case w "or"))
  | _ => true
  end.
Definition stops (k : nat) (rest : list Tok) : bool := match rest with t :: _ => stop k t | [] => false end.

Lemma stops_mono k k' rest : stops k rest = true → (k ≤ k')%nat → stops k' rest = true.
Proof.
  intros H Hk. destruct rest as [|t rest]; [done|]. cbn [stops] in *.
  destruct t; cbn [stop] in *; try done; try (apply Nat.ltb_lt in H; apply Nat.ltb_lt; lia).
  apply andb_true_iff in H as [[H1 H2]%andb_true_iff H3].
  repeat (apply andb_true_iff; split); eapply orb_true_iff.
  - apply orb_true_iff in H1 as [H1|H1]; [left; apply Nat.ltb_lt in H1; apply Nat.ltb_lt; lia|by right].
  - apply orb_true_iff in H2 as [H1'|H1']; [left; apply Nat.ltb_lt in H1'; apply Nat.ltb_lt; lia|by right].
  - apply orb_true_iff in H3 as [H1'|H1']; [left; apply Nat.ltb_lt in H1'; apply Nat.ltb_lt; lia|by right].
Qed.

(** [t] may start an expression of strength [k]. *)
Definition starts (k : nat) (t : Tok) : bool :=
  match t with
  | Tok.Minus => (k <=? 8)%nat
  | Tok.Word w =>
      negb (one_of ["when"; "distinct"; "all"; "select"; "with"]%string w) &&
      ((k <=? 2)%nat || negb (eq_ignore_ascii_case w "not"))
  | Tok.Int _ | Tok.Real _ | Tok.Str _ | Tok.NumParam _ | Tok.LParen => true
  | _ => false
  end.

Lemma starts_mono k k' t : starts k t = true → (k' ≤ k)%nat → starts k' t = true.
Proof.
  intros H Hk. destruct t; cbn [starts] in *; try done.
  - apply andb_true_iff in H as [-> H]. apply orb_true_iff in H as [H|H]; [|by rewrite H, orb_true_r].
    apply Nat.leb_le in H. by rewrite (proj2 (Nat.leb_le k' 2)) by lia.
  - apply Nat.leb_le in H. apply Nat.leb_le. lia.
Qed.

Lemma one_of_sub kws kws' w : (∀ k, In k kws → In k kws') → one_of kws' w = false → one_of kws w = false.
Proof.
  intros Hin H. unfold one_of in *. apply not_true_iff_false. intros (k & Hk & E)%existsb_exists.
  apply not_true_iff_false in H. apply H, existsb_exists. exists k. auto.
Qed.

Lemma one_of_not kws w k : one_of kws w = false → In k kws → eq_ignore_ascii_case w k = false.
Proof.
  intros H Hk. apply not_true_iff_false. intros E. apply not_true_iff_false in H. apply H, existsb_exists. eauto.
Qed.

Lemma name_starts w k : name_ok w = true → starts k (Tok.Word w) = true.
Proof.
  unfold name_ok. intros H%negb_true_iff. cbn [starts]. apply andb_true_iff. split.
  - apply negb_true_iff. eapply one_of_sub; [|exact H]. cbn. naive_solver.
  - rewrite (one_of_not _ _ "not" H) by (cbn; naive_solver). by rewrite orb_true_r.
Qed.

Lemma wrap_head (b : bool) l k t r : l = t :: r → (b = false → starts k t = true) →
  ∃ t' r', wrap b l = t' :: r' ∧ starts k t' = true.
Proof. intros -> H. destruct b; cbn; [by do 2 eexists|]. do 2 eexists. split; [done|auto]. Qed.

Definition headed (e : Expr) : Prop := printable e = true → ∃ t r, body e = t :: r ∧ starts (level e) t = true.

Lemma print_head k e : headed e → printable e = true → ∃ t r, print k e = t :: r ∧ starts k t = true.
Proof.
  intros H Hp. destruct (H Hp) as (t & r & E & Hs). unfold print. eapply wrap_head; [exact E|].
  intros Hl. apply Nat.ltb_ge in Hl. by eapply starts_mono.
Qed.

Lemma app_head (l l' : list Tok) k k' : (∃ t r, l = t :: r ∧ starts k t = true) → (k' ≤ k)%nat →
  ∃ t r, l ++ l' = t :: r ∧ starts k' t = true.
Proof.
  intros (t & r & -> & H) Hk. exists t, (r ++ l'). split; [done|]. by eapply starts_mono.
Qed.

Lemma body_head e : headed e.
Proof.
  induction e using Expr_induction; unfold headed; intros Hp.
  - destruct e; try discriminate; cbn [body level]; do 2 eexists; (split; [reflexivity|]); try done; cbn [printable] in Hp;
      bool_to_Prop; by apply name_starts.
  - cbn [printable] in Hp. bool_to_Prop. cbn [body level]. apply app_head with (k := left_level op);
      [by apply (print_head (left_level op))|]. destruct op; cbn; lia.
  - destruct op; cbn; do 2 eexists; done.
  - apply app_head with (k := 4%nat); [by apply (print_head 4)|cbn; lia].
  - cbn [printable] in Hp. bool_to_Prop. apply app_head with (k := 4%nat); [by apply (print_head 4)|cbn; lia].
  - cbn [printable] in Hp. bool_to_Prop. apply app_head with (k := 4%nat); [by apply (print_head 4)|cbn; lia].
  - cbn [printable] in Hp. bool_to_Prop. apply app_head with (k := 4%nat); [by apply (print_head 4)|cbn; lia].
  - cbn. do 2 eexists. done.
  - apply app_head with (k := 9%nat); [by apply (print_head 9)|cbn; lia].
  - cbn [printable] in Hp. bool_to_Prop. unfold func_ok in *. bool_to_Prop. cbn [body level]. unfold name_toks.
    destruct (split_once "." n) as [[a b]|]; do 2 eexists; (split; [reflexivity|]); by apply name_starts.
  - cbn. do 2 eexists. split; [reflexivity|]. by destruct f.
  - discriminate.
Qed.

(** ** The grammar by levels *)

Definition P (c : Calls) (k : nat) : Parse Expr :=
  match k with
  | 0 => or_expr c | 1 => and_expr c | 2 => not_expr c | 3 => cmp_expr c | 4 => vecdist_expr c | 5 => concat_expr c
  | 6 => add_expr c | 7 => mul_expr c | 8 => unary_expr c | 9 => cast_expr c | _ => primary c
  end%nat.

(** The loop of a left-associative level, after its first operand. *)
Definition assoc_loop (op : Tok → option (Expr → Expr → Expr)) (p : Parse Expr) : Expr → Parse Expr :=
  loop (λ left, t ← look peek;
    match op t with Some f => _ ← bump; right ← p; mret (inl (f left right)) | None => mret (inr left) end).

Definition level_op (k : nat) : Tok → option (Expr → Expr → Expr) :=
  match k with
  | 0 => or_op | 1 => and_op | 4 => vecdist_op | 5 => concat_op | 6 => add_op | 7 => mul_op | _ => λ _, None
  end%nat.
Definition assoc_level (k : nat) : bool := existsb (Nat.eqb k) [0; 1; 4; 5; 6; 7]%nat.

Lemma P_assoc c k : assoc_level k = true → P c k = left_assoc (level_op k) (P c (S k)).
Proof. do 8 (destruct k as [|k]; [done|]). done. Qed.

Lemma level_op_stop k t : assoc_level k = true → stop k t = true → level_op k t = None.
Proof.
  intros Hk Ht. destruct k as [|[|[|[|[|[|[|[|k]]]]]]]]; try discriminate Hk; destruct t; try done; cbn in *.
  - unfold or_op. cbn. apply andb_true_iff in Ht as [_ Ht]. apply negb_true_iff in Ht. by rewrite Ht.
  - unfold and_op. cbn. apply andb_true_iff in Ht as [Ht _]. apply andb_true_iff in Ht as [_ Ht].
    apply negb_true_iff in Ht. by rewrite Ht.
Qed.

Lemma assoc_stop op p e t r : op t = None → takes (assoc_loop op p e) (t :: r) e (t :: r).
Proof.
  intros Hop. apply takes_loop_done. eapply takes_bind; [apply takes_peek|]. rewrite Hop. apply takes_ret.
Qed.

Lemma assoc_step op p e f r t u l l2 b l' : op t = Some f → takes p (u :: l) r l2 → (length l2 ≤ length (u :: l))%nat →
  takes (assoc_loop op p (f e r)) l2 b l' → takes (assoc_loop op p e) (t :: u :: l) b l'.
Proof.
  intros Hop Hp Hlen Hl. eapply takes_loop_step; [|shelve|exact Hl].
  eapply takes_bind; [apply takes_peek|]. rewrite Hop. eapply takes_bind; [apply takes_bump|].
  eapply takes_bind; [exact Hp|]. apply takes_ret.
  Unshelve. cbn in *. lia.
Qed.

(** A word that stops a comparison is none of its keywords. *)
Lemma stop_kw kw t : stop 3 t = true → In kw ["is"; "not"; "like"; "ilike"; "in"; "between"; "escape"]%string →
  tok_is_kw kw t = false.
Proof.
  intros Ht Hk. destruct t; try done. cbn [stop] in Ht. apply andb_true_iff in Ht as [[Ht _]%andb_true_iff _].
  cbn [orb Nat.ltb Nat.leb] in Ht. apply negb_true_iff in Ht. cbn. by eapply one_of_not.
Qed.

Lemma takes_predicate_stop c e b t r : stop 3 t = true → takes (predicate_tail c e b) (t :: r) e (t :: r).
Proof.
  intros Ht. unfold predicate_tail. eapply takes_bind.
  { apply takes_look with (v := false). intros s Hs. unfold is_kw. rewrite (view_peek _ _ _ Hs).
    by rewrite !stop_kw by (done || cbn; naive_solver). }
  eapply takes_bind; [apply takes_no_kw, stop_kw; [done|cbn; naive_solver]|].
  eapply takes_bind; [apply takes_no_kw, stop_kw; [done|cbn; naive_solver]|].
  eapply takes_bind; [apply takes_peek|]. assert (cmp_op t = None) as -> by (by destruct t). apply takes_ret.
Qed.

Lemma cmp_tail_stop c e t r : stop 3 t = true → takes (cmp_tail c e) (t :: r) e (t :: r).
Proof.
  intros Ht. unfold cmp_tail. eapply takes_bind; [apply takes_no_kw, stop_kw; [done|cbn; naive_solver]|].
  eapply takes_bind.
  { apply takes_look with (v := false). intros s Hs. unfold is_kw. rewrite (view_peek _ _ _ Hs).
    by rewrite stop_kw by (done || cbn; naive_solver). }
  eapply takes_bind; [apply takes_ret|]. by apply takes_predicate_stop.
Qed.

(** What a level takes, the level above it takes. *)
Lemma down c k t0 l e rest : (k ≤ 9)%nat → starts (S k) t0 = true → stops k rest = true →
  takes (P c (S k)) (t0 :: l) e rest → takes (P c k) (t0 :: l) e rest.
Proof.
  intros Hk Hs Hr H. destruct rest as [|t rest]; [done|]. cbn [stops] in Hr.
  destruct (assoc_level k) eqn:Ha.
  { rewrite P_assoc by done. eapply takes_bind; [exact H|]. by apply assoc_stop, level_op_stop. }
  destruct k as [|[|[|[|[|[|[|[|[|[|k]]]]]]]]]]; try discriminate Ha; try lia; cbn [P].
  - unfold not_expr. eapply takes_bind; [apply takes_no_kw|exact H]. destruct t0; try done. cbn [starts] in Hs.
    apply andb_true_iff in Hs as [_ Hs]. by apply negb_true_iff in Hs.
  - unfold cmp_expr. eapply takes_bind; [exact H|]. by apply cmp_tail_stop.
  - unfold unary_expr. eapply takes_bind; [apply takes_no_skip; by intros ->|].
    eapply takes_bind; [apply takes_no_skip; by intros ->|exact H].
  - unfold cast_expr. eapply takes_bind; [exact H|]. apply takes_loop_done.
    eapply takes_bind; [apply takes_no_skip; by intros ->|]. apply takes_ret.
Qed.

Lemma down_to c k k' t0 l e rest : (k ≤ k' ≤ 10)%nat → starts k' t0 = true → stops k rest = true →
  takes (P c k') (t0 :: l) e rest → takes (P c k) (t0 :: l) e rest.
Proof.
  intros Hk Hs Hr H. remember (k' - k)%nat as d eqn:Ed. revert k Hk Hr Ed. induction d as [|d IH]; intros k Hk Hr Ed.
  - by replace k with k' by lia.
  - apply down; [lia|eapply starts_mono; [exact Hs|lia]|done|]. apply IH; [lia| |lia].
    eapply stops_mono; [exact Hr|lia].
Qed.

(** ** Levels that extend to the left *)

Definition cast_loop : Expr → Parse Expr :=
  loop (λ e, b ← skip Tok.DColon;
    if b : bool then target ← parse_cast_type; mret (inl (ECast e target)) else mret (inr e)).

Definition lefty (k : nat) : bool := assoc_level k || (k =? 9)%nat.
Definition tail (c : Calls) (k : nat) : Expr → Parse Expr :=
  if (k =? 9)%nat then cast_loop else assoc_loop (level_op k) (P c (S k)).

Lemma P_lefty c k : lefty k = true → P c k = (e ← P c (S k); tail c k e).
Proof. do 10 (destruct k as [|k]; [done|]). done. Qed.

Lemma lefty_le k : lefty k = true → (k ≤ 9)%nat.
Proof. do 10 (destruct k as [|k]; [lia|]). done. Qed.

Lemma tail_stop c k e rest : lefty k = true → stops k rest = true → takes (tail c k e) rest e rest.
Proof.
  intros Hk Hr. destruct rest as [|t rest]; [done|]. unfold tail. destruct (Nat.eqb_spec k 9) as [->|Hn].
  - apply takes_loop_done. eapply takes_bind; [apply takes_no_skip; by intros ->|]. apply takes_ret.
  - apply assoc_stop, level_op_stop; [|done]. unfold lefty in Hk. apply orb_true_iff in Hk as [Hk|Hk]; [done|].
    by apply Nat.eqb_eq in Hk.
Qed.

(** ** The statements proved for every expression *)

(** Where strength [k] is expected. *)
Definition good (e : Expr) : Prop := ∀ f k rest, (k ≤ 10)%nat → stops k rest = true →
  (length (print k e ++ rest) ≤ S f)%nat → takes (P (calls f) k) (print k e ++ rest) e rest.

(** As the left part of a longer expression of strength [k]. *)
Definition good_left (k : nat) (e : Expr) : Prop := ∀ f rest b l', lefty k = true → stops (S k) rest = true →
  (length (print k e ++ rest) ≤ S f)%nat →
  takes (tail (calls f) k e) rest b l' → takes (P (calls f) k) (print k e ++ rest) b l'.

(** At its own level. *)
Definition core (e : Expr) : Prop := ∀ f rest, stops (level e) rest = true →
  (length (body e ++ rest) ≤ S f)%nat → takes (P (calls f) (level e)) (body e ++ rest) e rest.

Definition readable (e : Expr) : Prop := printable e = true → good e ∧ ∀ k, good_left k e.

Lemma level_le e : (level e ≤ 10)%nat.
Proof. destruct e; cbn; try lia; [destruct op; cbn; lia|destruct op; lia]. Qed.

(** A call back into the grammar, after a token. *)
Lemma calls_P (f : nat) : c_expr (calls (S f)) = P (calls f) 0 ∧ c_not (calls (S f)) = P (calls f) 2 ∧
  c_unary (calls (S f)) = P (calls f) 8.
Proof. done. Qed.

Lemma good_call e f k p rest : good e → (k ≤ 10)%nat → stops k rest = true → (length (print k e ++ rest) ≤ f)%nat →
  (∀ f', p (calls (S f')) = P (calls f') k) → takes (p (calls f)) (print k e ++ rest) e rest.
Proof.
  intros Hg Hk Hr Hf Hp. destruct rest as [|t rest]; [done|]. rewrite length_app in Hf. cbn [length] in Hf.
  destruct f as [|f]; [lia|]. rewrite Hp. apply Hg; [done|done|]. rewrite length_app. cbn [length]. lia.
Qed.

Lemma good_expr e f rest : good e → stops 0 rest = true → (length (body e ++ rest) ≤ f)%nat →
  takes (c_expr (calls f)) (body e ++ rest) e rest.
Proof. intros Hg Hr Hf. by apply (good_call e f 0 c_expr); [|lia| | |]. Qed.

Lemma core_low e f k rest : printable e = true → core e → (k ≤ level e)%nat → stops k rest = true →
  (length (body e ++ rest) ≤ S f)%nat → takes (P (calls f) k) (body e ++ rest) e rest.
Proof.
  intros Hp Hc Hk Hr Hf. destruct (body_head e Hp) as (t0 & l0 & Eb & Hst). pose proof (level_le e). rewrite Eb.
  apply (down_to _ k (level e) t0 (l0 ++ rest)); [lia|done|done|].
  change (t0 :: l0 ++ rest) with ((t0 :: l0) ++ rest). rewrite <- Eb.
  apply Hc; [by eapply stops_mono|done].
Qed.

Lemma starts_no_query s t l : view s (t :: l) → starts 0 t = true → starts_query s = false.
Proof.
  intros Hs H. unfold starts_query, is_kw. rewrite (view_peek _ _ _ Hs). destruct t; try done. cbn [starts] in H.
  apply andb_true_iff in H as [H _]. apply negb_true_iff in H. cbn.
  by rewrite !(one_of_not _ _ _ H) by (cbn; naive_solver).
Qed.

Lemma core_good e : printable e = true → core e → good e.
Proof.
  intros Hp Hc f k rest Hk Hr Hf. unfold print in *. destruct (Nat.ltb_spec (level e) k); [|by apply core_low].
  destruct (body_head e Hp) as (t0 & l0 & Eb & Hst). destruct rest as [|t rest]; [done|].
  cbn [wrap] in *. cbn [app] in *. rewrite <- app_assoc in *. cbn [app] in *.
  apply down_to with (k' := 10%nat); [lia|done|done|]. cbn [P]. unfold primary.
  eapply takes_bind; [apply takes_peek|]. cbn beta iota.
  cbn [length] in Hf. rewrite length_app in Hf. cbn [length] in Hf. destruct f as [|f]; [lia|].
  eapply takes_bind; [rewrite Eb; apply (takes_bump _ t0 (l0 ++ Tok.RParen :: t :: rest))|]. eapply takes_bind.
  { apply takes_look with (v := false). intros s Hs. eapply starts_no_query; [exact Hs|].
    eapply starts_mono; [exact Hst|lia]. }
  eapply takes_bind; [|eapply takes_bind; [apply takes_expect|apply takes_ret]].
  change (t0 :: l0 ++ Tok.RParen :: t :: rest) with ((t0 :: l0) ++ Tok.RParen :: t :: rest). rewrite <- Eb.
  change (c_expr (calls (S f))) with (P (calls f) 0). apply core_low; [done|done|lia|done|].
  rewrite length_app. cbn [length] in *. lia.
Qed.

Lemma print_level k e : level e ≠ k → print k e = print (S k) e.
Proof.
  intros H. unfold print. by destruct (Nat.ltb_spec (level e) k), (Nat.ltb_spec (level e) (S k)); try lia.
Qed.

(** Outside its own level an expression is an operand. *)
Lemma good_left_other e k : good e → level e ≠ k → good_left k e.
Proof.
  intros Hg Hk f rest b l' Ha Hr Hf H. rewrite P_lefty by done. rewrite print_level in * by done.
  eapply takes_bind; [apply Hg; [|done|done]|exact H]. apply lefty_le in Ha. lia.
Qed.

Lemma core_readable e : (printable e = true → core e) → lefty (level e) = false → readable e.
Proof.
  intros Hc Hl Hp. assert (good e) as Hg by auto using core_good. split; [done|]. intros k.
  destruct (decide (level e = k)) as [<-|]; [|by apply good_left_other]. intros f rest b l' Hk. congruence.
Qed.

Lemma left_readable e : (printable e = true → good_left (level e) e) → lefty (level e) = true → readable e.
Proof.
  intros Hc Hl Hp. specialize (Hc Hp).
  assert (print (level e) e = body e) as E by (unfold print; by rewrite Nat.ltb_irrefl).
  assert (good e) as Hg.
  { apply core_good; [done|]. intros f rest Hr Hf. rewrite <- E. apply Hc; [done| |by rewrite E|by apply tail_stop].
    eapply stops_mono; [exact Hr|lia]. }
  split; [done|]. intros k. destruct (decide (level e = k)) as [<-|]; [done|by apply good_left_other].
Qed.

(** ** Primaries *)

Ltac read := eapply takes_bind.

Lemma takes_next_lparen t l : takes (look next_is_lparen) (t :: l) (bool_decide (default Tok.Eof (l !! 0%nat) = Tok.LParen)) (t :: l).
Proof. apply takes_look. intros s H. unfold next_is_lparen. by rewrite (view_tok _ _ 1 H). Qed.

Lemma takes_primary_word c w l e l' :
  (∀ paren, takes (word_case c w paren) (Tok.Word w :: l) e l') → takes (primary c) (Tok.Word w :: l) e l'.
Proof. intros H. read; [apply takes_peek|]. read; [apply takes_next_lparen|]. apply H. Qed.

Lemma takes_primary_name c w l e l' : name_ok w = true → takes (name_expr c w) (Tok.Word w :: l) e l' →
  takes (primary c) (Tok.Word w :: l) e l'.
Proof.
  unfold name_ok. intros Hn%negb_true_iff H. apply takes_primary_word. intros paren. unfold word_case.
  by rewrite !(one_of_not _ _ _ Hn) by (cbn; naive_solver).
Qed.

Lemma stop_open k t : stop k t = true → t ≠ Tok.LParen ∧ t ≠ Tok.Dot ∧ t ≠ Tok.LBracket.
Proof. by destruct t. Qed.

Lemma takes_column c w t l : name_ok w = true → stop 10 t = true →
  takes (primary c) (Tok.Word w :: t :: l) (EColumn w) (t :: l).
Proof.
  intros Hn Ht%stop_open. apply takes_primary_name; [done|]. read; [apply takes_bump|]. read; [apply takes_is_tok|].
  rewrite bool_decide_false by naive_solver. read; [apply takes_no_skip; naive_solver|]. apply takes_ret.
Qed.

Lemma takes_dotted c w n t l : name_ok w = true → stop 10 t = true →
  takes (primary c) (Tok.Word w :: Tok.Dot :: Tok.Word n :: t :: l)
    (if eq_ignore_ascii_case w "excluded" then EExcluded n else EQualified w n) (t :: l).
Proof.
  intros Hn Ht%stop_open. apply takes_primary_name; [done|]. read; [apply takes_bump|]. read; [apply takes_is_tok|].
  rewrite bool_decide_false by done. read; [apply takes_skip|]. read; [apply takes_ident|]. read; [apply takes_is_tok|].
  rewrite bool_decide_false by naive_solver. destruct (eq_ignore_ascii_case w "excluded"); apply takes_ret.
Qed.

Lemma split_once_dot pat s a b : split_once pat s = Some (a, b) → s = (a +:+ pat +:+ b)%string.
Proof.
  revert a. induction s as [|c s IH]; intros a; cbn [split_once].
  - destruct (strip_prefix pat "") eqn:E; [|done]. intros [= <- <-]. by apply strip_prefix_Some in E.
  - destruct (strip_prefix pat (String c s)) eqn:E; [intros [= <- <-]; by apply strip_prefix_Some in E|].
    destruct (split_once pat s) as [[l r]|]; [|done]. cbn. intros [= <- <-]. by rewrite (IH l eq_refl).
Qed.

(** A function call, with its schema or without. *)
Lemma takes_call c name l e l' : match split_once "." name with Some (a, _) => name_ok a | None => name_ok name end = true →
  takes (func_call c name) (Tok.LParen :: l) e l' → l ≠ [] → takes (primary c) (name_toks name ++ Tok.LParen :: l) e l'.
Proof.
  intros Hn H Hl. unfold name_toks. destruct (split_once "." name) as [[a b]|] eqn:E; cbn [app].
  - apply takes_primary_name; [done|]. read; [apply takes_bump|]. read; [apply takes_is_tok|].
    rewrite bool_decide_false by done. read; [apply takes_skip|]. read; [apply takes_ident|]. read; [apply takes_is_tok|].
    rewrite bool_decide_true by done. by rewrite <- (split_once_dot _ _ _ _ E).
  - apply takes_primary_name; [done|]. read; [apply takes_bump|]. read; [apply takes_is_tok|].
    by rewrite bool_decide_true by done.
Qed.

(** ** Lists of expressions *)

(** What [c_expr] takes of an expression within the fuel. *)
Definition takes_expr (f : nat) (e : Expr) : Prop := ∀ rest, stops 0 rest = true → (length (body e ++ rest) ≤ f)%nat →
  takes (c_expr (calls f)) (body e ++ rest) e rest.

Lemma takes_comma_loop f x xs rest out : Forall (takes_expr f) (x :: xs) → rest ≠ [] →
  (length (commas (List.map body (x :: xs)) ++ Tok.RParen :: rest) ≤ f)%nat →
  takes (loop (λ out, x ← c_expr (calls f); c ← skip Tok.Comma;
                mret (if c : bool then inl (out ++ [x]) else inr (out ++ [x]))) out)
    (commas (List.map body (x :: xs)) ++ Tok.RParen :: rest) (out ++ x :: xs) (Tok.RParen :: rest).
Proof.
  intros H Hr. revert x out H. induction xs as [|y xs IH]; intros x out H Hf; inversion_clear H as [|?? Hx Hxs].
  - apply takes_loop_done. read; [by apply Hx|]. read; [by apply takes_no_skip|]. apply takes_ret.
  - change (commas (List.map body (x :: y :: xs))) with (body x ++ Tok.Comma :: commas (List.map body (y :: xs))) in *.
    rewrite <- app_assoc in *. cbn [app] in *.
    destruct (commas (List.map body (y :: xs)) ++ Tok.RParen :: rest) as [|u l] eqn:E.
    { by destruct (commas (List.map body (y :: xs))). }
    eapply takes_loop_step; [read; [by apply Hx|]; read; [apply takes_skip|]; apply takes_ret| |].
    + rewrite length_app. cbn [length]. lia.
    + rewrite <- E in *. replace (out ++ x :: y :: xs) with ((out ++ [x]) ++ y :: xs) by (by rewrite <- app_assoc).
      apply IH; [done|]. rewrite length_app in Hf. cbn [length] in Hf. lia.
Qed.

Lemma commas_head x xs l : printable x = true → ∃ t r, commas (List.map body (x :: xs)) ++ l = t :: r ∧ starts 0 t = true.
Proof.
  intros Hp. destruct (body_head x Hp) as (t & r & E & Ht). destruct xs; cbn; rewrite E; do 2 eexists; (split; [done|]);
    (eapply starts_mono; [exact Ht|lia]).
Qed.

Lemma takes_list f items rest : Forall (takes_expr f) items → forallb printable items = true → rest ≠ [] →
  (length (commas (List.map body items) ++ Tok.RParen :: rest) ≤ f)%nat →
  takes (expr_list_until (calls f) Tok.RParen) (commas (List.map body items) ++ Tok.RParen :: rest) items (Tok.RParen :: rest).
Proof.
  intros H Hp Hr Hf. unfold expr_list_until. destruct items as [|x xs].
  - read; [apply takes_is_tok|]. apply takes_ret.
  - destruct (commas_head x xs (Tok.RParen :: rest)) as (t & l & E & Ht); [by cbn in Hp; bool_to_Prop|].
    read; [rewrite E; apply takes_is_tok|]. rewrite bool_decide_false by (by intros ->). rewrite <- E.
    unfold comma_list. by apply (takes_comma_loop f x xs rest []).
Qed.

(** ** The constructors *)

Lemma leaf_readable e : is_leaf e = true → readable e.
Proof.
  intros Hl. apply core_readable; [|by destruct e]. intros Hp f [|t rest] Hr Hf; [by destruct e|].
  destruct e; try discriminate Hp; try discriminate Hl; cbn [body level app P] in *; cbn [printable] in Hp; bool_to_Prop.
  all: try (by apply takes_column).
  all: try (read; [apply takes_peek|]; read; [apply takes_bump|]; apply takes_ret).
  - apply takes_primary_word. intros paren. read; [apply takes_bump|apply takes_ret].
  - read; [apply takes_peek|]. read; [apply takes_bump|].
    read; [intros s Hs; eexists; split; [reflexivity|exact Hs]|]. apply takes_ret.
  - exact (takes_dotted _ "excluded" _ _ _ eq_refl Hr).
  - apply takes_primary_word. intros paren. read; [apply takes_bump|apply takes_ret].
  - pose proof (takes_dotted (calls f) tbl name t rest) as R. rewrite H0 in R. by apply R.
Qed.

Lemma op_left op : lefty (op_level op) = true → level_op (op_level op) (op_tok op) = Some (EBinary op) ∧
  stop (S (op_level op)) (op_tok op) = true ∧ left_level op = op_level op ∧ right_level op = S (op_level op) ∧
  (op_level op =? 9)%nat = false.
Proof. by destruct op. Qed.

Lemma op_compare op : lefty (op_level op) = false → cmp_op (op_tok op) = Some op ∧ stop 4 (op_tok op) = true ∧
  op_level op = 3%nat ∧ left_level op = 4%nat ∧ right_level op = 4%nat ∧ ∀ kw, tok_is_kw kw (op_tok op) = false.
Proof. destruct op; intros H; try discriminate H; repeat split. Qed.

Lemma binary_left op l r : readable l → readable r → lefty (op_level op) = true →
  printable (EBinary op l r) = true → good_left (op_level op) (EBinary op l r).
Proof.
  intros Hl Hr Hop Hp f rest b l' _ Hrest Hf H. cbn [printable] in Hp. bool_to_Prop.
  destruct (op_left op Hop) as (Eop & Hstop & EL & ER & E9). set (k := op_level op) in *.
  assert (print k (EBinary op l r) ++ rest = print k l ++ op_tok op :: print (S k) r ++ rest) as E.
  { unfold print at 1. cbn [level]. fold k. rewrite Nat.ltb_irrefl. cbn [wrap body]. rewrite EL, ER, <- app_assoc. done. }
  rewrite E in *. destruct (print_head (S k) r (body_head r)) as (u & lr & Eu & _); [done|].
  destruct Hl as [_ Hl]; [done|]. destruct Hr as [Hr _]; [done|].
  apply Hl; [done|by cbn [stops]|done|]. unfold tail. rewrite E9, Eu.
  eapply (assoc_step _ _ _ _ r _ u (lr ++ rest) rest); [exact Eop| | |].
  - change (u :: lr ++ rest) with ((u :: lr) ++ rest). rewrite <- Eu. apply Hr; [|done|].
    + pose proof (lefty_le k Hop). lia.
    + rewrite !length_app in *. cbn [length] in Hf. rewrite length_app in Hf. lia.
  - cbn [length]. rewrite length_app. lia.
  - unfold tail in H. by rewrite E9 in H.
Qed.

Lemma good_operand f e k rest : readable e → printable e = true → (k ≤ 10)%nat → stops k rest = true →
  (length (print k e ++ rest) ≤ S f)%nat → takes (P (calls f) k) (print k e ++ rest) e rest.
Proof. intros He Hp Hk Hr Hf. destruct (He Hp) as [Hg _]. by apply Hg. Qed.

(** The left operand of a comparison, then its tail. *)
Lemma takes_cmp f e t l b l' : readable e → printable e = true → stop 4 t = true →
  (length (print 4 e ++ t :: l) ≤ S f)%nat → takes (cmp_tail (calls f) e) (t :: l) b l' →
  takes (P (calls f) 3) (print 4 e ++ t :: l) b l'.
Proof. intros He Hp Ht Hf H. read; [|exact H]. apply (good_operand f e 4); [done|done|lia|done|done]. Qed.

Lemma compare_core op l r : readable l → readable r → lefty (op_level op) = false →
  printable (EBinary op l r) = true → core (EBinary op l r).
Proof.
  intros Hl Hr Hop Hp f rest Hrest Hf. cbn [printable] in Hp. bool_to_Prop.
  destruct (op_compare op Hop) as (Eop & Hstop & E3 & EL & ER & Ekw). cbn [level] in *. rewrite E3 in *.
  assert (body (EBinary op l r) ++ rest = print 4 l ++ op_tok op :: print 4 r ++ rest) as E.
  { cbn [body]. by rewrite EL, ER, <- app_assoc. }
  rewrite E in *. destruct (print_head 4 r (body_head r)) as (u & lr & Eu & _); [done|].
  apply takes_cmp; [done|done|done|done|]. unfold cmp_tail. read; [by apply takes_no_kw|].
  read; [apply takes_look with (v := false); intros s Hs; unfold is_kw; by rewrite (view_peek _ _ _ Hs), Ekw|].
  read; [apply takes_ret|]. unfold predicate_tail.
  read; [apply takes_look with (v := false); intros s Hs; unfold is_kw; by rewrite (view_peek _ _ _ Hs), !Ekw|].
  read; [by apply takes_no_kw|]. read; [by apply takes_no_kw|]. read; [apply takes_peek|]. rewrite Eop, Eu.
  read; [apply (takes_bump _ u (lr ++ rest))|]. change (u :: lr ++ rest) with ((u :: lr) ++ rest). rewrite <- Eu.
  read; [|apply takes_ret]. apply (good_operand f r 4); [done|done|lia| |].
  - eapply stops_mono; [exact Hrest|lia].
  - rewrite !length_app in *. cbn [length] in Hf. rewrite length_app in Hf. lia.
Qed.

Lemma binary_readable op l r : readable l → readable r → readable (EBinary op l r).
Proof.
  intros Hl Hr. destruct (lefty (op_level op)) eqn:E.
  - apply left_readable; [|done]. by apply binary_left.
  - apply core_readable; [|done]. by apply compare_core.
Qed.

Lemma unary_readable op e : readable e → readable (EUnary op e).
Proof.
  intros He. apply core_readable; [|by destruct op]. intros Hp f rest Hrest Hf. cbn [printable] in Hp.
  destruct op; cbn [level body P app] in *.
  - assert (∃ u l, print 2 e ++ rest = u :: l) as (u & l & E).
    { destruct (print_head 2 e (body_head e) Hp) as (u & l & -> & _). by do 2 eexists. }
    change (wrap (level e <? 2)%nat (body e)) with (print 2 e) in *. cbn [length] in Hf. unfold not_expr.
    read; [rewrite E; by apply takes_eat_kw|]. rewrite <- E. read; [|apply takes_ret].
    apply (good_call e f 2 c_not); [by apply He|lia|done|lia|done].
  - assert (∃ u l, print 8 e ++ rest = u :: l) as (u & l & E).
    { destruct (print_head 8 e (body_head e) Hp) as (u & l & -> & _). by do 2 eexists. }
    change (wrap (level e <? 8)%nat (body e)) with (print 8 e) in *. cbn [length] in Hf. unfold unary_expr.
    read; [rewrite E; apply takes_skip|]. rewrite <- E. read; [|apply takes_ret].
    apply (good_call e f 8 c_unary); [by apply He|lia|done|lia|done].
Qed.

Lemma isnull_readable e n : readable e → readable (EIsNull e n).
Proof.
  intros He. apply core_readable; [|done]. intros Hp f [|t rest] Hrest Hf; [done|]. cbn [printable] in Hp.
  cbn [level body P] in *. rewrite <- app_assoc in *. cbn [app] in *.
  change (wrap (level e <? 4)%nat (body e)) with (print 4 e) in *.
  apply takes_cmp; [done|done|done|done|]. unfold cmp_tail.
  destruct n; cbn [nots app].
  - read; [by apply takes_eat_kw|]. read; [by apply takes_eat_kw|]. read; [apply takes_expect_kw|apply takes_ret].
  - read; [by apply takes_eat_kw|]. read; [by apply takes_no_kw|]. read; [apply takes_expect_kw|apply takes_ret].
Qed.

Ltac kw_cases H := repeat (destruct H as [<-|H]); try destruct H.

(** A NOT between the operand and its predicate. *)
Lemma takes_negated c e n kw l b l' : In kw ["like"; "ilike"; "in"; "between"]%string →
  takes (predicate_tail c e n) (Tok.Word kw :: l) b l' → takes (cmp_tail c e) (nots n ++ Tok.Word kw :: l) b l'.
Proof.
  intros Hk H. unfold cmp_tail. destruct n; cbn [nots app].
  - read; [by apply takes_no_kw|]. read.
    { apply takes_look with (v := true). intros s Hs. unfold next_starts_neg_predicate, is_kw.
      rewrite (view_peek _ _ _ Hs), (view_tok _ _ 1 Hs). by kw_cases Hk. }
    read; [read; [apply takes_bump|apply takes_ret]|exact H].
  - read; [apply takes_no_kw; by kw_cases Hk|]. read.
    { apply takes_look with (v := false). intros s Hs. unfold is_kw. rewrite (view_peek _ _ _ Hs).
      by kw_cases Hk. }
    read; [apply takes_ret|exact H].
Qed.

Lemma nots_cmp f e n kw l b l' : readable e → printable e = true → In kw ["like"; "ilike"; "in"; "between"]%string →
  (length (print 4 e ++ nots n ++ Tok.Word kw :: l) ≤ S f)%nat →
  takes (predicate_tail (calls f) e n) (Tok.Word kw :: l) b l' →
  takes (P (calls f) 3) (print 4 e ++ nots n ++ Tok.Word kw :: l) b l'.
Proof.
  intros He Hp Hk Hf H. apply (takes_negated _ _ n kw) in H; [|done].
  destruct n; cbn [nots app] in *; (apply takes_cmp; [done|done| |done|done]); [done|]. by kw_cases Hk.
Qed.

(** An operand of strength 4, whatever follows the comparison. *)
Lemma print_cons k e l : printable e = true → ∃ u l', print k e ++ l = u :: l' ∧ starts k u = true.
Proof. intros Hp. destruct (print_head k e (body_head e) Hp) as (u & l' & -> & Hu). by do 2 eexists. Qed.

Ltac len := rewrite ?length_app in *; cbn [length] in *; repeat (rewrite length_app in *; cbn [length] in *); lia.
Ltac operand f e := apply (good_operand f e 4); [assumption|assumption|lia|try reflexivity; try assumption|len].

Lemma between_readable e lo hi n : readable e → readable lo → readable hi → readable (EBetween e lo hi n).
Proof.
  intros He Hlo Hhi. apply core_readable; [|done]. intros Hp f rest Hrest Hf. cbn [printable] in Hp. bool_to_Prop.
  assert (body (EBetween e lo hi n) ++ rest = print 4 e ++ nots n ++ Tok.Word "between" :: print 4 lo ++
    Tok.Word "and" :: print 4 hi ++ rest) as E by (cbn [body]; by rewrite <- !app_assoc; cbn [app]; rewrite <- app_assoc).
  rewrite E in *. cbn [level] in *. apply nots_cmp; [done|done|cbn; naive_solver|done|].
  destruct (print_cons 4 lo (Tok.Word "and" :: print 4 hi ++ rest)) as (u & l & Elo & _); [done|].
  destruct (print_cons 4 hi rest) as (v & l2 & Ehi & _); [done|].
  unfold predicate_tail. read.
  { apply takes_look with (v := false). intros s Hs. unfold is_kw. by rewrite (view_peek _ _ _ Hs). }
  read; [by apply takes_no_kw|]. read; [rewrite Elo; by apply takes_eat_kw|]. rewrite <- Elo. unfold between_tail.
  read; [operand f lo|]. read; [rewrite Ehi; apply takes_expect_kw|]. rewrite <- Ehi. read; [|apply takes_ret].
  operand f hi. eapply stops_mono; [exact Hrest|lia].
Qed.

Lemma like_readable e p esc n i : readable e → readable p → opt_holds readable esc → readable (ELike e p esc n i).
Proof.
  intros He Hpat Hesc. apply core_readable; [|done]. intros Hp f rest Hrest Hf. cbn [printable] in Hp. bool_to_Prop.
  set (tl := match esc with Some x => Tok.Word "escape" :: print 4 x ++ rest | None => rest end).
  assert (body (ELike e p esc n i) ++ rest = print 4 e ++ nots n ++ Tok.Word (if i then "ilike" else "like")%string ::
    print 4 p ++ tl) as E.
  { cbn [body]. unfold tl. rewrite <- !app_assoc. cbn [app]. rewrite <- app_assoc. by destruct esc. }
  rewrite E in *. cbn [level] in *. apply nots_cmp; [done|done|destruct i; cbn; naive_solver|done|].
  destruct (print_cons 4 p tl) as (u & l & Ep & _); [done|].
  assert (stops 4 tl = true) as Htl.
  { unfold tl. destruct esc; [done|]. eapply stops_mono; [exact Hrest|lia]. }
  unfold predicate_tail. read.
  { apply takes_look with (v := true). intros s Hs. unfold is_kw. rewrite (view_peek _ _ _ Hs). by destruct i. }
  unfold like_tail. read.
  { apply takes_look with (v := i). intros s Hs. unfold is_kw. rewrite (view_peek _ _ _ Hs). by destruct i. }
  read; [rewrite Ep; apply takes_bump|]. rewrite <- Ep. read; [operand f p|].
  read; [|apply takes_ret]. unfold opt_clause, tl. destruct esc as [x|].
  - cbn [opt_holds] in Hesc. destruct (print_cons 4 x rest) as (v & l2 & Ex & _); [done|].
    read; [rewrite Ex; by apply takes_eat_kw|]. rewrite <- Ex. unfold tl in Hf. read; [|apply takes_ret].
    operand f x. eapply stops_mono; [exact Hrest|lia].
  - destruct rest as [|t rest]; [done|]. read; [apply takes_no_kw|apply takes_ret].
    apply stop_kw; [done|cbn; naive_solver].
Qed.

(** Below a token, every subexpression is readable. *)
Lemma takes_expr_of f e : readable e → printable e = true → takes_expr f e.
Proof. intros He Hp rest Hr Hf. apply good_expr; [by apply He|done|done]. Qed.

Lemma takes_expr_all f es : Forall readable es → forallb printable es = true → Forall (takes_expr f) es.
Proof.
  induction 1 as [|e es He _ IH]; [constructor|]. cbn [forallb]. intros [Hp Hps]%andb_true_iff.
  constructor; [by apply takes_expr_of|auto].
Qed.

Lemma commas_cons items rest : forallb printable items = true →
  ∃ u l, commas (List.map body items) ++ Tok.RParen :: rest = u :: l ∧ (starts 0 u = true ∨ u = Tok.RParen).
Proof.
  intros Hp. destruct items as [|x xs]; [by do 2 eexists; split; [reflexivity|right]|].
  cbn [forallb] in Hp. apply andb_true_iff in Hp as [Hx _].
  destruct (commas_head x xs (Tok.RParen :: rest) Hx) as (u & l & -> & Hu). eauto 6.
Qed.

Lemma inlist_readable e items n : readable e → Forall readable items → readable (EInList e items n).
Proof.
  intros He Hi. apply core_readable; [|done]. intros Hp f rest Hrest Hf. cbn [printable] in Hp. bool_to_Prop.
  assert (body (EInList e items n) ++ rest = print 4 e ++ nots n ++ Tok.Word "in" :: Tok.LParen ::
    commas (List.map body items) ++ Tok.RParen :: rest) as E
    by (cbn [body]; by rewrite <- !app_assoc; cbn [app]; rewrite <- app_assoc).
  rewrite E in *. cbn [level] in *. apply nots_cmp; [done|done|cbn; naive_solver|done|].
  destruct (commas_cons items rest) as (u & l & Ei & Hu); [done|]. destruct rest as [|t rest]; [done|].
  unfold predicate_tail. read.
  { apply takes_look with (v := false). intros s Hs. unfold is_kw. by rewrite (view_peek _ _ _ Hs). }
  read; [by apply takes_eat_kw|]. unfold in_tail. read; [rewrite Ei; apply takes_expect|]. read.
  { apply takes_look with (v := false). intros s Hs. destruct Hu as [Hu|Hu]; [by eapply starts_no_query|].
    unfold starts_query, is_kw. by rewrite (view_peek _ _ _ Hs), Hu. }
  rewrite <- Ei. read; [apply takes_list; [by apply takes_expr_all|done|done|len]|].
  read; [apply takes_expect|apply takes_ret].
Qed.

Lemma func_readable name args : Forall readable args → readable (EFunc name args).
Proof.
  intros Ha. apply core_readable; [|done]. intros Hp f [|t rest] Hrest Hf; [done|]. cbn [printable] in Hp.
  apply andb_true_iff in Hp as [Hn Hp]. unfold func_ok in Hn. apply andb_true_iff in Hn as [Hn Hagg].
  cbn [body level P] in *. rewrite <- app_assoc in *. cbn [app] in *. rewrite <- app_assoc in *. cbn [app] in *.
  destruct (commas_cons args (t :: rest)) as (u & l & Ei & Hu); [done|].
  apply takes_call; [done| |by rewrite Ei]. unfold func_call. destruct (agg_func name); [done|].
  read; [rewrite Ei; apply takes_expect|]. read; [apply takes_is_tok|].
  rewrite bool_decide_false by (by destruct Hu; intros ->). rewrite <- Ei.
  read; [apply takes_list; [by apply takes_expr_all|done|done|]|].
  { unfold name_toks in Hf. destruct (split_once "." name) as [[??]|]; len. }
  read; [apply takes_expect|apply takes_ret].
Qed.

Lemma takes_cast_type t u l : stop 10 u = true → takes parse_cast_type (Tok.Word (type_word t) :: u :: l) t (u :: l).
Proof.
  intros Hu%stop_open. unfold parse_cast_type. read; [apply takes_ident|]. read; [apply takes_no_skip; naive_solver|].
  read; [apply takes_ret|]. read; [destruct t; apply takes_ret|]. read; [apply takes_no_skip; naive_solver|].
  read; [apply takes_ret|]. read; [|destruct t; apply takes_ret]. apply takes_loop_done.
  read; [apply takes_no_skip; naive_solver|apply takes_ret].
Qed.

Lemma cast_readable e t : readable e → readable (ECast e t).
Proof.
  intros He. apply left_readable; [|done]. intros Hp f [|u rest] b l' _ Hrest Hf H; [done|]. cbn [printable level] in *.
  assert (print 9 (ECast e t) ++ u :: rest = print 9 e ++ Tok.DColon :: Tok.Word (type_word t) :: u :: rest) as E
    by (unfold print at 1; cbn [level]; rewrite Nat.ltb_irrefl; cbn [wrap body]; by rewrite <- app_assoc).
  rewrite E in *. destruct (He Hp) as [_ Hl]. apply Hl; [done|done|done|]. eapply takes_loop_step; [| |exact H].
  - read; [apply takes_skip|]. read; [by apply takes_cast_type|apply takes_ret].
  - cbn [length]. lia.
Qed.

Lemma body_cons e l : printable e = true → ∃ u l', body e ++ l = u :: l' ∧ starts 0 u = true.
Proof. intros Hp. by apply (print_cons 0 e l). Qed.

Lemma starts_no_kw kw u : starts 0 u = true → In kw ["when"; "distinct"; "all"; "select"; "with"]%string → tok_is_kw kw u = false.
Proof.
  intros Hu Hk. destruct u; try done. cbn [starts] in Hu. apply andb_true_iff in Hu as [Hu _].
  apply negb_true_iff in Hu. cbn. by eapply one_of_not.
Qed.

Definition agg_arg (a : option Expr) : list Tok := match a with Some e => body e | None => [Tok.Star] end.
Definition agg_sep (sep : option Expr) : list Tok := match sep with Some x => Tok.Comma :: body x | None => [] end.

Lemma takes_agg_arg f a l : opt_holds readable a → match a with Some e => printable e | None => true end = true →
  stops 0 l = true → (length (agg_arg a ++ l) ≤ f)%nat →
  takes (star ← skip Tok.Star; if star : bool then mret None else e ← c_expr (calls f); mret (Some e))
    (agg_arg a ++ l) a l.
Proof.
  intros Ha Hp Hl Hf. destruct a as [e|]; cbn [agg_arg] in *.
  - destruct (body_cons e l Hp) as (u & l' & E & Hu). read; [rewrite E; apply takes_no_skip; by intros ->|]. rewrite <- E.
    read; [by apply (takes_expr_of f e)|apply takes_ret].
  - destruct l as [|t l]; [done|]. read; [apply takes_skip|apply takes_ret].
Qed.

Lemma takes_agg_sep f sep l : opt_holds readable sep → match sep with Some e => printable e | None => true end = true →
  stops 0 l = true → default Tok.Eof (l !! 0%nat) ≠ Tok.Comma → (length (agg_sep sep ++ l) ≤ f)%nat →
  takes (comma ← skip Tok.Comma; if comma : bool then e ← c_expr (calls f); mret (Some e) else mret None)
    (agg_sep sep ++ l) sep l.
Proof.
  intros Ha Hp Hl Hc Hf. destruct sep as [e|]; cbn [agg_sep app] in *.
  - destruct (body_cons e l Hp) as (u & l' & E & Hu). read; [rewrite E; apply takes_skip|]. rewrite <- E.
    read; [apply (takes_expr_of f e); [done|done|done|len]|apply takes_ret].
  - destruct l as [|t l]; [done|]. read; [by apply takes_no_skip|apply takes_ret].
Qed.

Lemma takes_assoc {A B C} (p : Parse A) (g : A → Parse B) (h : B → Parse C) l c l' :
  takes ((p ≫= g) ≫= h) l c l' → takes (p ≫= (λ a, g a ≫= h)) l c l'.
Proof.
  intros H s Hs. destruct (H s Hs) as (s' & E & H'). exists s'. split; [|done]. unfold mbind, Parse_bind in *.
  by destruct (p s) as [[a s1]|].
Qed.

Lemma aggregate_readable fn a d sep : opt_holds readable a → opt_holds readable sep → readable (EAggregate fn a d sep).
Proof.
  intros Ha Hs. apply core_readable; [|done]. intros Hp f [|t rest] Hrest Hf; [done|].
  cbn [printable] in Hp. apply andb_true_iff in Hp as [Hpa Hps].
  set (l2 := agg_sep sep ++ Tok.RParen :: t :: rest).
  assert (body (EAggregate fn a d sep) ++ t :: rest = Tok.Word (agg_word fn) :: Tok.LParen ::
    (if d then [Tok.Word "distinct"] else []) ++ agg_arg a ++ l2) as E.
  { cbn [body app]. rewrite <- !app_assoc. done. }
  rewrite E in *. cbn [level P].
  assert (∃ u l, agg_arg a ++ l2 = u :: l ∧ (starts 0 u = true ∨ u = Tok.Star)) as (u & l & Ea & Hu).
  { destruct a as [e|]; [|by do 2 eexists; split; [reflexivity|right]].
    cbn [agg_arg]. destruct (body_cons e l2 Hpa) as (u & l & -> & Hu). eauto 6. }
  assert (∀ kw, In kw ["when"; "distinct"; "all"; "select"; "with"]%string → tok_is_kw kw u = false) as Hkw.
  { intros kw Hk. destruct Hu as [Hu| ->]; [by apply starts_no_kw|done]. }
  assert (stops 0 l2 = true) as Hl2 by (unfold l2; by destruct sep).
  apply takes_primary_name; [by destruct fn|]. read; [apply takes_bump|]. read; [apply takes_is_tok|].
  rewrite bool_decide_true by done. unfold func_call.
  assert (agg_func (agg_word fn) = Some fn) as -> by (by destruct fn). unfold aggregate_call.
  apply takes_bind with (a := tt) (l1 := (if d then [Tok.Word "distinct"] else []) ++ agg_arg a ++ l2).
  { rewrite Ea. destruct d; apply takes_expect. }
  apply takes_bind with (a := d) (l1 := agg_arg a ++ l2).
  { rewrite Ea. destruct d; [by apply takes_eat_kw|apply takes_no_kw, Hkw; cbn; naive_solver]. }
  read; [rewrite Ea; apply takes_no_kw, Hkw; cbn; naive_solver|]. rewrite <- Ea.
  assert (length (agg_arg a ++ l2) ≤ f)%nat as Hf2 by (destruct d; len).
  apply takes_assoc. read; [by apply takes_agg_arg|]. apply takes_assoc. unfold l2 in *.
  read; [apply takes_agg_sep; [done|done|done|done|len]|]. read; [apply takes_expect|apply takes_ret].
Qed.

(** ** CASE *)

Definition arm_toks (w : Expr * Expr) : list Tok := Tok.Word "when" :: body w.1 ++ Tok.Word "then" :: body w.2.
Definition else_toks (els : option Expr) : list Tok := match els with Some e => Tok.Word "else" :: body e | None => [] end.

Lemma takes_whens f ws l out : Forall (λ w, readable w.1 ∧ readable w.2) ws →
  forallb (λ w, printable w.1 && printable w.2) ws = true → stops 0 l = true → tok_is_kw "when" (default Tok.Eof (l !! 0%nat)) = false →
  (length (List.concat (List.map arm_toks ws) ++ l) ≤ f)%nat →
  takes (loop (λ whens, b ← eat_kw "when";
    if b : bool then
      cond ← c_expr (calls f); _ ← expect_kw "then"; result ← c_expr (calls f); mret (inl (whens ++ [(cond, result)]))
    else mret (inr whens)) out) (List.concat (List.map arm_toks ws) ++ l) (out ++ ws) l.
Proof.
  intros H Hp Hl Hk. revert out. induction H as [|[c r] ws [Hc Hr] _ IH]; intros out Hf.
  - rewrite app_nil_r. apply takes_loop_done. destruct l as [|t l]; [done|]. cbn [List.map List.concat app].
    read; [by apply takes_no_kw|apply takes_ret].
  - cbn [forallb fst snd] in *. apply andb_true_iff in Hp as [[Hpc Hpr]%andb_true_iff Hp].
    set (l1 := List.concat (List.map arm_toks ws) ++ l).
    assert (List.concat (List.map arm_toks ((c, r) :: ws)) ++ l =
      Tok.Word "when" :: body c ++ Tok.Word "then" :: body r ++ l1) as E.
    { unfold l1. cbn [List.map List.concat arm_toks fst snd app]. unfold arm_toks. cbn [fst snd app].
      rewrite <- !app_assoc. cbn [app]. by rewrite <- ?app_assoc. }
    rewrite E in *. destruct (body_cons c (Tok.Word "then" :: body r ++ l1) Hpc) as (u & lu & Ec & _).
    destruct (body_cons r l1 Hpr) as (v & lv & Er & _).
    assert (stops 0 l1 = true) as Hl1 by (unfold l1; by destruct ws).
    eapply takes_loop_step with (l1 := l1) (a' := out ++ [(c, r)]); [|len|].
    + read; [rewrite Ec; by apply takes_eat_kw|]. rewrite <- Ec.
      read; [apply (takes_expr_of f c); [done|done|done|len]|]. read; [rewrite Er; apply takes_expect_kw|]. rewrite <- Er.
      read; [apply (takes_expr_of f r); [done|done|done|len]|]. apply takes_ret.
    + replace (out ++ (c, r) :: ws) with ((out ++ [(c, r)]) ++ ws) by (by rewrite <- app_assoc). apply IH; [done|].
      fold l1. len.
Qed.

Lemma takes_else f els l : opt_holds readable els → match els with Some e => printable e | None => true end = true →
  stops 0 l = true → tok_is_kw "else" (default Tok.Eof (l !! 0%nat)) = false → (length (else_toks els ++ l) ≤ f)%nat →
  takes (opt_clause "else" (c_expr (calls f))) (else_toks els ++ l) els l.
Proof.
  intros He Hp Hl Hk Hf. unfold opt_clause. destruct els as [e|]; cbn [else_toks app] in *.
  - destruct (body_cons e l Hp) as (u & l' & E & _). read; [rewrite E; by apply takes_eat_kw|]. rewrite <- E.
    read; [apply (takes_expr_of f e); [done|done|done|len]|apply takes_ret].
  - destruct l as [|t l]; [done|]. read; [by apply takes_no_kw|apply takes_ret].
Qed.

Lemma takes_operand f o l : opt_holds readable o → match o with Some e => printable e | None => true end = true →
  stops 0 l = true → tok_is_kw "when" (default Tok.Eof (l !! 0%nat)) = true →
  (length (match o with Some e => body e | None => [] end ++ l) ≤ f)%nat →
  takes (searched ← look (is_kw "when"); if searched : bool then mret None else e ← c_expr (calls f); mret (Some e))
    (match o with Some e => body e | None => [] end ++ l) o l.
Proof.
  intros He Hp Hl Hk Hf. destruct o as [e|]; cbn [app] in *.
  - destruct (body_cons e l Hp) as (u & l' & E & Hu). read; [rewrite E; apply takes_is_kw|]. rewrite <- E.
    rewrite (starts_no_kw "when" u) by (done || cbn; naive_solver).
    read; [by apply (takes_expr_of f e)|apply takes_ret].
  - destruct l as [|t l]; [done|]. read; [apply takes_is_kw|]. cbn [lookup list_lookup default] in Hk.
    change (tok_is_kw "when" t = true) in Hk. rewrite Hk. apply takes_ret.
Qed.

Lemma case_readable o ws els : opt_holds readable o → Forall (λ w, readable w.1 ∧ readable w.2) ws →
  opt_holds readable els → readable (ECase o ws els).
Proof.
  intros Ho Hws Hels. apply core_readable; [|done]. intros Hp f [|t rest] Hrest Hf; [done|].
  cbn [printable] in Hp. apply andb_true_iff in Hp as [[[Hpo Hne]%andb_true_iff Hpw]%andb_true_iff Hpe].
  apply negb_true_iff, bool_decide_eq_false in Hne.
  set (l2 := else_toks els ++ Tok.Word "end" :: t :: rest). set (l1 := List.concat (List.map arm_toks ws) ++ l2).
  assert (body (ECase o ws els) ++ t :: rest = Tok.Word "case" ::
    match o with Some e => body e | None => [] end ++ l1) as E.
  { unfold l1, l2. cbn [body app]. rewrite <- !app_assoc. done. }
  rewrite E in *. cbn [level P].
  assert (stops 0 l2 = true ∧ tok_is_kw "when" (default Tok.Eof (l2 !! 0%nat)) = false) as [Hl2 Hk2]
    by (unfold l2; by destruct els).
  assert (stops 0 l1 = true ∧ tok_is_kw "when" (default Tok.Eof (l1 !! 0%nat)) = true) as [Hl1 Hk1]
    by (unfold l1; by destruct ws).
  apply takes_primary_word. intros paren. change (word_case (calls f) "case" paren) with (case_expr (calls f)).
  unfold case_expr. cbn [length] in Hf.
  assert (length (match o with Some e => body e | None => [] end ++ l1) ≤ f)%nat as Hf1 by lia.
  destruct (match o with Some e => body e | None => [] end ++ l1) as [|u l0] eqn:E0.
  { destruct o as [e|]; [destruct (body_cons e l1 Hpo) as (? & ? & E' & _); congruence|].
    change (l1 = []) in E0. by rewrite E0 in Hl1. }
  read; [apply takes_expect_kw|]. rewrite <- E0 in *. apply takes_assoc. read; [by apply takes_operand|].
  assert (length l1 ≤ f)%nat as Hf2 by (rewrite length_app in Hf1; lia).
  read; [unfold when_list; by apply (takes_whens f ws l2 [])|]. cbn [app]. rewrite bool_decide_false by done.
  assert (length l2 ≤ f)%nat as Hf3 by (unfold l1 in Hf2; rewrite length_app in Hf2; lia).
  read; [by apply takes_else|]. read; [apply takes_expect_kw|apply takes_ret].
Qed.

(** ** The round trip *)

Lemma all_readable e : readable e.
Proof.
  induction e using Expr_induction;
    auto using leaf_readable, binary_readable, unary_readable, isnull_readable, like_readable, inlist_readable,
      between_readable, case_readable, cast_readable, func_readable, aggregate_readable.
  intros Hp. discriminate.
Qed.

Lemma parse_expr_tokens sql ts e : lex sql = Ok (ts ++ [Tok.Eof]) →
  takes (P (calls (length (ts ++ [Tok.Eof]))) 0) (ts ++ [Tok.Eof]) e [Tok.Eof] → parse_expr sql = Ok e.
Proof.
  intros Hlex H. unfold parse_expr. rewrite Hlex. cbn [mbind Result_bind].
  destruct (H (parser_new (ts ++ [Tok.Eof]))) as (s' & E & Hs'); [done|]. unfold with_calls.
  change (toks (parser_new (ts ++ [Tok.Eof]))) with (ts ++ [Tok.Eof]). change (@expr) with (λ c, P c 0).
  cbn beta. rewrite E. cbn [mbind Result_bind]. by rewrite bool_decide_true by exact (view_peek _ _ _ Hs').
Qed.

(** C23. Every expression without subqueries and vector literals has a text: the printer puts parentheses only
    where an operator of the given strength needs them, and parsing what it prints gives the expression back.
    So OR, AND, NOT, the comparisons, the vector distances, ||, + and -, * / and %, unary minus and :: bind in
    this order, the binary ones group to the left, comparisons do not chain, and the NOT of NOT LIKE, NOT IN and
    NOT BETWEEN belongs to the predicate. *)
Theorem print_parse e : printable e = true → plain_toks (print 0 e) = true →
  parse_expr (render_tokens (print 0 e)) = Ok e.
Proof.
  intros Hp Hpl. eapply parse_expr_tokens; [by apply lex_render|]. 
  destruct (all_readable e Hp) as [Hg _]. apply Hg; [lia|done|]. apply Nat.le_succ_diag_r.
Qed.

(** Every level of the grammar but two. *)
Definition sample_expr : Expr :=
  EBinary OpAnd
    (EInList (EBinary OpSub (EColumn "a")
       (EBinary OpMul (EBinary OpSub (EColumn "b") (EInt 2)) (EUnary Neg (ECast (EColumn "c") ToInt))))
       [EInt 1; EFunc "f" [EQualified "t" "x"; EStr "y"]] true)
    (EUnary Not (EBinary OpOr (EColumn "u") (EBinary OpEq (EColumn "v") (EInt 3)))).

Lemma print_parse_witness :
  render_tokens (print 0 sample_expr) =
    "a - (b - 2) * - c::int not in(1, f(t.x, 'y')) and not(u or v = 3)"%string ∧
  parse_expr (render_tokens (print 0 sample_expr)) = Ok sample_expr.
Proof. split; [vm_compute; reflexivity|]. apply print_parse; vm_compute; reflexivity. Defined.
