(* ===== verification/CaptureSpec.v ===== *)
(** * A captured expression reads back

    [capture_expr_sql] stores the text of the tokens an expression took: the DEFAULT of a column, a CHECK, the
    predicates of a policy.  The text is parsed again when it is used.  This file shows that it then gives the
    expression that was parsed in place.

    Two runs are compared: one over the tokens of the statement, which ends at token [N], and one over the
    captured tokens alone, where the end token stands at [N].  The second does what the first did, because a
    parser that ends at [N] has consumed nothing beyond, and where it looked at the token that follows and
    stopped there, it stops at the end token too. *)

From S2P Require Import Prelude Text Numbers EngineTypes Chars Float Ast Lex Parser Statements ParserSpec.
Import Statement.

(** A placeholder whose index depends on the ones before it. *)
Definition free_param (t : Tok) : bool := match t with Tok.Param | Tok.NamedParam _ => true | _ => false end.

(** [s] is the run over the statement, [t] the run over what lies before token [N] of it. *)
Record rel (N : nat) (s t : PState) : Prop := {
  rel_wf : wf s;
  rel_wf' : wf t;
  rel_pos : (pos s ≤ N)%nat;
  rel_end : (N < length (toks s))%nat;
  rel_tok k : tok_at k t = if (pos s + k <? N)%nat then tok_at k s else Tok.Eof;
  rel_rem : remaining t = S (N - pos s);
  rel_par k : (pos s + k < N)%nat → free_param (tok_at k s) = false
}.

Definition keeps {A} (p : Parse A) : Prop := ∀ n, safe (M := Partial) n p (λ _, n).
Definition eats_at {A} (t : Tok) (p : Parse A) : Prop := ∀ n, safe_at (M := Partial) t n p (λ _, pred n).

Lemma keeps_pos {A} (p : Parse A) s a s' : keeps p → wf s → p s = Ok (a, s') →
  wf s' ∧ toks s' = toks s ∧ (pos s ≤ pos s')%nat.
Proof.
  intros Hk Hs E. specialize (Hk (remaining s) s Hs (le_n _)). rewrite E in Hk. destruct Hk as (Hw & Ht & _ & Hr).
  split_and!; [done..|]. unfold remaining in Hr. rewrite Ht in Hr. destruct Hs, Hw. rewrite Ht in *. lia.
Qed.

Lemma eats_pos {A} (p : Parse A) s a s' : eats_at (peek s) p → wf s → p s = Ok (a, s') → (pos s < pos s')%nat.
Proof.
  intros Hk Hs E. specialize (Hk (remaining s) s Hs eq_refl (le_n _)). rewrite E in Hk. destruct Hk as (Hw & Ht & _ & Hr).
  unfold remaining in Hr. rewrite Ht in Hr. destruct Hs, Hw. rewrite Ht in *. lia.
Qed.

Section Sim.
Variable N : nat.

(** What the first run does within [N], the second does too. *)
Definition sim {A} (n : nat) (p q : Parse A) (m : A → nat) : Prop := keeps p ∧
  ∀ s t a s', rel N s t → (remaining t ≤ n)%nat → p s = Ok (a, s') → (pos s' ≤ N)%nat →
    ∃ t', q t = Ok (a, t') ∧ rel N s' t' ∧ (remaining t' ≤ m a)%nat.

(** The same, with the token under the cursor known and before [N]. *)
Definition sim_at {A} (u : Tok) (n : nat) (p q : Parse A) (m : A → nat) : Prop :=
  ∀ s t a s', rel N s t → peek s = u → (pos s < N)%nat → (remaining t ≤ n)%nat → p s = Ok (a, s') →
    (pos s' ≤ N)%nat → ∃ t', q t = Ok (a, t') ∧ rel N s' t' ∧ (remaining t' ≤ m a)%nat.

(** ** Rules *)

Lemma sim_ret {A} n (a : A) m : (n ≤ m a)%nat → sim n (mret a) (mret a) m.
Proof.
  intros Hn. split; [by intros n'; apply safe_ret|]. intros s t b s' Hr Ht [= <- <-] Hp. exists t. split_and!; [done..|lia].
Qed.

Lemma sim_fail {A} n q (m : A → nat) : sim n fail q m.
Proof. split; [intros n'; apply safe_fail|]. done. Qed.

Lemma sim_bind {A B} n (p q : Parse A) (f g : A → Parse B) m m' :
  sim n p q m → (∀ a, sim (m a) (f a) (g a) m') → sim n (p ≫= f) (q ≫= g) m'.
Proof.
  intros [Hk Hp] Hf. split.
  { intros n'. eapply safe_bind; [apply Hk|]. intros a. apply (proj1 (Hf a)). }
  intros s t b s' Hr Hn E Hpos. unfold mbind, Parse_bind in *. destruct (p s) as [[a s1]|e] eqn:Ep; [|done].
  destruct (keeps_pos p s a s1 Hk (rel_wf _ _ _ Hr) Ep) as (Hw1 & _ & _).
  destruct (keeps_pos (f a) s1 b s' (proj1 (Hf a)) Hw1 E) as (_ & _ & Hle).
  destruct (Hp s t a s1 Hr Hn Ep ltac:(lia)) as (t1 & -> & Hr1 & Hn1).
  destruct (proj2 (Hf a) s1 t1 b s' Hr1 Hn1 E Hpos) as (t' & -> & Hr' & Hn'). eauto.
Qed.

Lemma sim_weaken {A} n n' (p q : Parse A) m m' :
  sim n p q m → (n' ≤ n)%nat → (∀ a, m a ≤ m' a)%nat → sim n' p q m'.
Proof.
  intros [Hk Hp] Hn Hm. split; [done|]. intros s t a s' Hr Hr' E Hpos.
  destruct (Hp s t a s' Hr ltac:(lia) E Hpos) as (t' & -> & ? & ?). specialize (Hm a). exists t'. split_and!; [done..|lia].
Qed.

Lemma sim_assoc {A B C} n (p q : Parse A) (f f' : A → Parse B) (g g' : B → Parse C) m :
  sim n (p ≫= λ a, f a ≫= g) (q ≫= λ a, f' a ≫= g') m → sim n ((p ≫= f) ≫= g) ((q ≫= f') ≫= g') m.
Proof.
  assert (∀ (x : Parse A) (y : A → Parse B) (z : B → Parse C) s, ((x ≫= y) ≫= z) s = (x ≫= λ a, y a ≫= z) s) as E.
  { intros x y z s. unfold mbind, Parse_bind. by destruct (x s) as [[]|]. }
  intros [Hk Hp]. split; [intros n'; apply safe_assoc, Hk|]. intros s t a s' Hr Hn. rewrite !E. by apply Hp.
Qed.

Lemma sim_ret_bind {A B} n (a : A) (f g : A → Parse B) m : sim n (f a) (g a) m → sim n (mret a ≫= f) (mret a ≫= g) m.
Proof. done. Qed.

Lemma sim_fail_bind {A B} n (f : A → Parse B) q m : sim n (fail ≫= f) q m.
Proof. split; [intros n'; apply safe_fail_bind|]. done. Qed.

(** [bump] before [N]. *)
Lemma bump_rel s t : rel N s t → (pos s < N)%nat →
  bump s = Ok (peek s, set_pos (S (pos s)) s) ∧ bump t = Ok (peek s, set_pos (S (pos t)) t) ∧
  rel N (set_pos (S (pos s)) s) (set_pos (S (pos t)) t).
Proof.
  intros [Hw Hw' Hp He Ht Hm Hpar] Hlt. unfold remaining in Hm. destruct Hw as [Hw1 Hw2], Hw' as [Hw1' Hw2'].
  assert (peek t = peek s) as Ek.
  { unfold peek. rewrite (Ht 0%nat). destruct (Nat.ltb_spec (pos s + 0) N); [done|lia]. }
  unfold bump. rewrite Ek. destruct (Nat.ltb_spec (S (pos s)) (length (toks s))); [|lia].
  destruct (Nat.ltb_spec (S (pos t)) (length (toks t))); [|lia]. split_and!; [done..|].
  split; unfold wf, remaining; cbn [pos toks set_pos]; try done; try lia.
  - intros k. pose proof (Ht (S k)) as H1. unfold tok_at in *. cbn [pos toks set_pos].
    replace (S (pos t) + k)%nat with (pos t + S k)%nat by lia. replace (S (pos s) + k)%nat with (pos s + S k)%nat by lia. done.
  - intros k Hk. pose proof (Hpar (S k)) as H1. unfold tok_at in *. cbn [pos toks set_pos].
    replace (S (pos s) + k)%nat with (pos s + S k)%nat by lia. apply H1. cbn in Hk. lia.
Qed.

(** At [N] the second run sees the end. *)
Lemma peek_rel s t : rel N s t → peek t = if (pos s <? N)%nat then peek s else Tok.Eof.
Proof. intros Hr. unfold peek. rewrite (rel_tok _ _ _ Hr 0), Nat.add_0_r. done. Qed.

Lemma sim_bump n : sim n bump bump (λ t, if not_eof t then pred n else n).
Proof.
  split.
  { intros n'. eapply safe_weaken; [apply safe_bump|reflexivity|]. intros t. cbn. destruct (not_eof t); lia. }
  intros s t a s' Hr Hn E Hp. destruct (Nat.ltb_spec (pos s) N) as [Hlt|Hge].
  - destruct (bump_rel s t Hr Hlt) as (E1 & E2 & Hr'). rewrite E1 in E. injection E as <- <-.
    exists (set_pos (S (pos t)) t). split_and!; [done..|]. pose proof (rel_rem _ _ _ Hr). pose proof (rel_rem _ _ _ Hr') as H2.
    rewrite H2. cbn. destruct (not_eof _); lia.
  - pose proof (rel_pos _ _ _ Hr). assert (pos s = N) as HN by lia. unfold bump in E.
    destruct (Nat.ltb_spec (S (pos s)) (length (toks s))); injection E as <- <-; cbn in Hp; [lia|].
    assert (peek s = Tok.Eof) as ->.
    { destruct (decide (peek s = Tok.Eof)) as [|Hne]; [done|]. pose proof (wf_peek s (rel_wf _ _ _ Hr) Hne). lia. }
    exists t. unfold bump. rewrite (peek_rel s t Hr). destruct (Nat.ltb_spec (pos s) N); [lia|].
    pose proof (rel_rem _ _ _ Hr) as Hm. unfold remaining in Hm.
    destruct (Nat.ltb_spec (S (pos t)) (length (toks t))); [lia|]. split_and!; [done..|]. cbn. lia.
Qed.

(** A look at the token under the cursor.  At [N] the first run sees some token and the second sees the end:
    either the first goes on to consume the token, which leads beyond [N], or both do the same. *)
Lemma sim_look {A B} n (g : Tok → A) (f : PState → A) (k k' : A → Parse B) m :
  (∀ s, f s = g (peek s)) → (∀ t, keeps (k (g t))) →
  (∀ t, sim_at t n (k (g t)) (k' (g t)) m) →
  (∀ t, eats_at t (k (g t)) ∨ sim n (k (g t)) (k' (g Tok.Eof)) m) →
  sim n (x ← look f; k x) (x ← look f; k' x) m.
Proof.
  intros Hf Hk Hin Hend. split.
  { intros n' s Hs Hn. unfold mbind, Parse_bind, look. rewrite Hf. by apply Hk. }
  intros s t a s' Hr Hn E Hp. unfold mbind, Parse_bind, look in *. rewrite Hf in *. rewrite (peek_rel s t Hr).
  destruct (Nat.ltb_spec (pos s) N) as [Hlt|Hge]; [by eapply Hin|].
  destruct (Hend (peek s)) as [He|He].
  - pose proof (eats_pos _ s a s' He (rel_wf _ _ _ Hr) E). pose proof (rel_pos _ _ _ Hr). lia.
  - by eapply He.
Qed.

Lemma sim_at_sim {A} u n (p q : Parse A) m : sim n p q m → sim_at u n p q m.
Proof. intros [_ H] s t a s' Hr _ _. by apply H. Qed.

Lemma sim_at_bump {A} u n (k k' : Tok → Parse A) m :
  sim (pred n) (k u) (k' u) m → sim_at u n (t ← bump; k t) (t ← bump; k' t) m.
Proof.
  intros [_ H] s t a s' Hr <- Hlt Hn E Hp. destruct (bump_rel s t Hr Hlt) as (E1 & E2 & Hr').
  unfold mbind, Parse_bind in *. rewrite E1 in E. rewrite E2. eapply H; [exact Hr'| |exact E|done].
  pose proof (rel_rem _ _ _ Hr). pose proof (rel_rem _ _ _ Hr') as H2. rewrite H2. cbn. lia.
Qed.

Lemma sim_at_fail {A} u n q (m : A → nat) : sim_at u n fail q m.
Proof. by intros s t a s' _ _ _ _ E. Qed.

(** No free placeholder lies before [N]. *)
Lemma sim_at_free {A} u n (p q : Parse A) m : free_param u = true → sim_at u n p q m.
Proof.
  intros Hu s t a s' Hr Ht Hlt. pose proof (rel_par _ _ _ Hr 0 ltac:(lia)) as H. unfold peek in Ht. rewrite Ht in H.
  congruence.
Qed.

(** ** Primitives *)

Lemma sim_test_bump {B} n (g : Tok → bool) (f : PState → bool) (yes yes' no no' : Parse B) m :
  (∀ s, f s = g (peek s)) → g Tok.Eof = false → sim (pred n) yes yes' m → sim n no no' m →
  sim n (b ← look f; if b : bool then _ ← bump; yes else no) (b ← look f; if b : bool then _ ← bump; yes' else no') m.
Proof.
  intros Hf He Hy Hno. apply sim_look with (g := g); [done|..].
  - intros t. destruct (g t); [|apply Hno]. intros n'. eapply safe_bind; [apply safe_bump|]. intros u. cbn.
    eapply safe_weaken; [apply (proj1 Hy n')|destruct (not_eof u); lia|done].
  - intros t. destruct (g t); [|by apply sim_at_sim]. by apply sim_at_bump.
  - intros t. rewrite He. destruct (g t) eqn:E; [left|by right]. intros n'. apply safe_at_bump; [|apply (proj1 Hy)].
    by destruct t; try done; rewrite He in E.
Qed.

Lemma sim_eat_kw n kw : sim n (eat_kw kw) (eat_kw kw) (λ b, if b then pred n else n).
Proof. apply sim_test_bump with (g := tok_is_kw kw); [done..|by apply sim_ret|by apply sim_ret]. Qed.

Lemma sim_skip n t : t ≠ Tok.Eof → sim n (skip t) (skip t) (λ b, if b then pred n else n).
Proof.
  intros Ht. apply sim_test_bump with (g := λ u, bool_decide (u = t)); [done| |by apply sim_ret..].
  apply bool_decide_eq_false. congruence.
Qed.

Lemma sim_expect n t : t ≠ Tok.Eof → sim n (expect t) (expect t) (λ _, pred n).
Proof.
  intros Ht. apply sim_test_bump with (g := λ u, bool_decide (u = t)); [done| |by apply sim_ret|apply sim_fail].
  apply bool_decide_eq_false. congruence.
Qed.

Lemma sim_eat_any n kws : sim n (eat_any kws) (eat_any kws) (λ _, n).
Proof.
  revert n. induction kws as [|kw kws IH]; intros n; [by apply sim_ret|]. cbn.
  eapply sim_bind; [apply sim_eat_kw|]. intros []; cbn; [apply sim_ret; lia|apply IH].
Qed.

Lemma sim_expect_kw n kw : sim n (expect_kw kw) (expect_kw kw) (λ _, pred n).
Proof. eapply sim_bind; [apply sim_eat_kw|]. intros []; cbn; [by apply sim_ret|apply sim_fail]. Qed.

Lemma sim_ident n : sim n ident ident (λ _, pred n).
Proof.
  eapply sim_bind; [apply sim_bump|]. intros []; cbn; try apply sim_fail. by apply sim_ret.
Qed.

Lemma sim_num_param n k : sim n (param_index (Tok.NumParam k)) (param_index (Tok.NumParam k)) (λ _, n).
Proof.
  split; [intros n'; apply safe_param_index|]. intros s t a s' [] Hn [= <- <-] Hp. eexists. split; [reflexivity|].
  split; [|done]. by split.
Qed.

(** ** Loops *)

Lemma sim_loop {A B} n (step step' : A → Parse (A + B)) a :
  (∀ a n', (n' ≤ n)%nat → sim n' (step a) (step' a) (λ r, match r with inl _ => pred n' | inr _ => n' end)) →
  (∀ a n', safe (M := Partial) n' (step a) (λ r, match r with inl _ => pred n' | inr _ => n' end)) →
  sim n (loop step a) (loop step' a) (λ _, n).
Proof.
  intros Hstep Hk. split.
  { intros n'. apply safe_loop0. intros a' n'' _. apply Hk. }
  unfold loop. intros s t b s' Hr Hn E Hp.
  assert (∀ f1 f2 a s t, rel N s t → (remaining t ≤ n)%nat → (remaining t < f2)%nat →
    loop_go f1 step a s = Ok (b, s') →
    ∃ t', loop_go f2 step' a t = Ok (b, t') ∧ rel N s' t' ∧ (remaining t' ≤ remaining t)%nat) as H.
  { clear a s t Hr Hn E. induction f1 as [|f1 IH]; intros f2 a s t Hr Hn Hf E; [done|].
    destruct f2 as [|f2]; [lia|]. cbn in *. unfold mbind, Parse_bind in *.
    destruct (step a s) as [[r s1]|e] eqn:Es; [|done].
    pose proof (keeps_pos (step a) s r s1 (proj1 (Hstep a n (le_n _))) (rel_wf _ _ _ Hr) Es) as (Hw1 & _ & _).
    assert (pos s1 ≤ N)%nat as Hp1.
    { destruct r as [a'|b']; [|by injection E as _ <-].
      assert (keeps (loop_go (B:=B) f1 step a')) as Hkeep.
      { clear -Hk. revert a'. induction f1 as [|f1 IH]; intros a' n'; [intros ? ? ?; cbn; intros []|]. cbn.
        eapply safe_bind; [apply Hk|]. intros []; cbn; [|by apply safe_ret].
        eapply safe_weaken; [apply (IH a n')|lia|done]. }
      pose proof (keeps_pos _ s1 b s' Hkeep Hw1 E). lia. }
    destruct (proj2 (Hstep a (remaining t) Hn) s t r s1 Hr (le_n _) Es Hp1) as (t1 & -> & Hr1 & Hn1).
    destruct r as [a'|b']; [|injection E as <- <-; eauto].
    assert (0 < remaining t)%nat by (rewrite (rel_rem _ _ _ Hr); lia).
    destruct (IH f2 a' s1 t1 Hr1 ltac:(lia) ltac:(lia) E) as (t' & -> & Hr' & Hn'). exists t'. split_and!; [done..|lia]. }
  destruct (H (S (remaining s)) (S (remaining t)) a s t Hr Hn ltac:(lia) E) as (t' & -> & Hr' & Hn').
  exists t'. split_and!; [done..|lia].
Qed.
End Sim.

(** ** Symbolic execution of the two runs *)

Lemma sim_opt_clause {A} N n kw (p q : Parse A) :
  sim N (pred n) p q (λ _, pred (pred n)) → sim N n (opt_clause kw p) (opt_clause kw q) (λ _, n).
Proof.
  intros Hp. eapply sim_bind; [apply sim_eat_kw|]. intros []; cbn; [|by apply sim_ret].
  eapply sim_bind; [exact Hp|]. intros x. apply sim_ret. lia.
Qed.

Lemma sim_comma_list {A} N n (p q : Parse A) :
  (∀ n', (n' ≤ n)%nat → sim N n' p q (λ _, pred n')) → (∀ n', safe (M := Partial) n' p (λ _, pred n')) →
  sim N n (comma_list p) (comma_list q) (λ _, n).
Proof.
  intros Hp Hk. apply sim_loop.
  - intros out n' Hn'. eapply sim_bind; [by apply Hp|]. intros x. eapply sim_bind; [by apply sim_skip|].
    intros []; apply sim_ret; cbn; lia.
  - intros out n'. eapply safe_bind; [apply Hk|]. intros x. eapply safe_bind; [by apply safe_skip|].
    intros []; apply safe_ret; cbn; lia.
Qed.

Lemma sim_bump_while N n c : c Tok.Eof = false → sim N n (bump_while c) (bump_while c) (λ _, n).
Proof.
  intros Hc. apply sim_loop.
  - intros [] n' _. apply sim_look with (g := λ t, t); [done|..].
    + intros t n''. destruct (c t); psafe.
    + intros t. destruct (c t); [apply sim_at_bump|apply sim_at_sim]; by apply sim_ret.
    + intros t. rewrite Hc. destruct (c t) eqn:E; [left|right; by apply sim_ret].
      intros n''. apply safe_at_bump; [by destruct t; try done; rewrite Hc in E|]. by apply safe_ret.
  - intros [] n'. apply safe_peek. intros t. destruct (c t) eqn:E; [|by apply safe_at_safe, safe_ret].
    apply safe_at_bump; [by destruct t; try done; rewrite Hc in E|]. by apply safe_ret.
Qed.

Create HintDb psim discriminated.
#[export] Hint Constants Opaque : psim.
#[export] Hint Extern 1 (_ ≤ _)%nat => (split_ifs; lia) : psim.
#[export] Hint Resolve sim_opt_clause sim_comma_list sim_ident : psim.
#[export] Hint Extern 3 (safe _ _ _) => solve [eauto with psafe] : psim.

Ltac sim_prim :=
  lazymatch goal with
  | |- sim _ _ (eat_kw _) _ _ => apply sim_eat_kw
  | |- sim _ _ (eat_any _) _ _ => apply sim_eat_any
  | |- sim _ _ (expect_kw _) _ _ => apply sim_expect_kw
  | |- sim _ _ ident _ _ => apply sim_ident
  | |- sim _ _ (skip _) _ _ => apply sim_skip; discriminate
  | |- sim _ _ (expect _) _ _ => apply sim_expect; discriminate
  | |- sim _ _ (param_index (Tok.NumParam _)) _ _ => apply sim_num_param
  | |- sim _ _ bump _ _ => apply sim_bump
  | |- _ => solve [eauto with psim]
  end.

(** A test of the token under the cursor, with both ends of the boundary. *)
Ltac sim_step :=
  lazymatch goal with
  | |- sim _ _ ((_ ≫= _) ≫= _) _ _ => apply sim_assoc
  | |- sim _ _ (mret _ ≫= _) _ _ => apply sim_ret_bind
  | |- sim _ _ (fail ≫= _) _ _ => apply sim_fail_bind
  | |- sim _ _ ((if ?b then _ else _) ≫= _) _ _ => destruct b eqn:?
  | |- sim _ _ (match ?x with _ => _ end ≫= _) _ _ => destruct x eqn:?
  | |- sim _ _ (if ?b then _ else _) _ _ => destruct b eqn:?
  | |- sim _ _ (match ?x with _ => _ end) _ _ => destruct x eqn:?
  | |- sim _ _ (mret _) _ _ => apply sim_ret; split_ifs; lia
  | |- sim _ _ fail _ _ => apply sim_fail
  | |- sim _ _ (look (is_kw ?kw) ≫= _) _ _ => sim_test (tok_is_kw kw)
  | |- sim _ _ (look (is_tok ?u) ≫= _) _ _ => sim_test (λ t : Tok, bool_decide (t = u))
  | |- sim _ _ (look starts_query ≫= _) _ _ => sim_test (λ t : Tok, tok_is_kw "select" t || tok_is_kw "with" t)
  | |- sim _ _ (_ ≫= _) _ _ => eapply sim_bind; [sim_prim|intros ?; cbn beta]
  | |- sim _ ?n _ _ _ => eapply (sim_weaken _ n n); [sim_prim|reflexivity|intros; split_ifs; lia]
  | |- sim_at _ _ _ (if ?b then _ else _) _ _ => destruct b eqn:?
  | |- sim_at _ _ _ (match ?x with _ => _ end) _ _ => destruct x eqn:?
  | |- sim_at _ _ _ fail _ _ => apply sim_at_fail
  | |- sim_at _ _ _ (bump ≫= _) _ _ => apply sim_at_bump
  | |- sim_at _ _ _ _ _ _ => apply sim_at_sim
  end
with sim_test tst :=
  apply sim_look with (g := tst);
  [ done
  | let t := fresh "t" in let n' := fresh "n'" in intros t n';
    let e := eval cbv beta in (tst t) in cbv beta; destruct e eqn:?; psafe
  | let t := fresh "t" in intros t; let e := eval cbv beta in (tst t) in cbv beta; destruct e eqn:?
  | let t := fresh "t" in intros t; let e := eval cbv beta in (tst t) in cbv beta; destruct e eqn:?;
    [ left; let n' := fresh "n'" in intros n'; psafe
    | right; let e := eval cbv beta in (tst Tok.Eof) in change e with false ] ].
Ltac psim := repeat sim_step.

(** ** Shared pieces *)

Section Pieces.
Variable N : nat.

Lemma sim_paren_ident_list n : sim N n paren_ident_list paren_ident_list (λ _, pred n).
Proof. unfold paren_ident_list. psim. Qed.

Lemma sim_type_modifiers n w : sim N n (eat_type_modifiers w) (eat_type_modifiers w) (λ _, n).
Proof. unfold eat_type_modifiers. psim. Qed.

Lemma sim_array_marks n : sim N n array_marks array_marks (λ _, n).
Proof. apply sim_loop; intros; [psim|psafe]. Qed.

Lemma sim_until_rparen n : sim N n (bump_while not_rparen) (bump_while not_rparen) (λ _, n).
Proof. by apply sim_bump_while. Qed.
#[local] Hint Resolve sim_type_modifiers sim_array_marks sim_until_rparen : psim.

Lemma sim_cast_type n : sim N n parse_cast_type parse_cast_type (λ _, pred n).
Proof. unfold parse_cast_type. psim. Qed.

Lemma sim_number_component n : sim N n number_component number_component (λ _, pred n).
Proof. unfold number_component. psim. Qed.

#[local] Hint Resolve sim_number_component : psim.
Lemma sim_vector_literal n : sim N n vector_literal vector_literal (λ _, pred n).
Proof. unfold vector_literal. psim. Qed.

Lemma sim_limit_value n : sim N n limit_value limit_value (λ _, pred n).
Proof.
  unfold limit_value. apply sim_look with (g := λ t, t); [done|..].
  - intros t n'. psafe.
  - intros t. destruct t; cbn [is_param]; try (by apply sim_at_free); psim.
  - intros t. left. intros n'. destruct (is_param t) eqn:E; psafe.
Qed.

Lemma sim_ident_unless n f : sim N n (opt_ident_unless f) (opt_ident_unless f) (λ _, n).
Proof.
  unfold opt_ident_unless. psim. apply sim_look with (g := word_of); [done|..].
  - intros t n'. destruct (word_of t); psafe.
  - intros t. destruct (word_of t); psim.
  - intros t. cbn [word_of]. destruct (word_of t) eqn:E; [|right; psim]. destruct (f s); [right; psim|left].
    intros n'. psafe.
Qed.

Lemma sim_opt_alias n : sim N n opt_alias opt_alias (λ _, n).
Proof. apply sim_ident_unless. Qed.

Lemma sim_from_alias n : sim N n parse_from_alias parse_from_alias (λ _, n).
Proof. apply sim_ident_unless. Qed.

Lemma sim_inner_join n : sim N n inner_join inner_join (λ _, n).
Proof. unfold inner_join. psim. Qed.

Lemma sim_join_sides n l : sim N n (join_sides l) (join_sides l) (λ k, match k with Some _ => pred n | None => n end).
Proof. induction l as [|[kw kind] l IH]; cbn; psim. Qed.
#[local] Hint Resolve sim_inner_join sim_join_sides : psim.

(** A keyword at the cursor. *)
Lemma eat_kw_eq kw s : wf s → is_kw kw s = true →
  eat_kw kw s = Ok (true, set_pos (S (pos s)) s) ∧ wf (set_pos (S (pos s)) s).
Proof.
  intros Hw H. unfold eat_kw, look, mbind, Parse_bind. rewrite H.
  by destruct (bump_eq s Hw (kw_not_eof _ _ H)) as [-> Hw'].
Qed.

Lemma next_after kw s : next_is_kw kw s = is_kw kw (set_pos (S (pos s)) s).
Proof. unfold next_is_kw, is_kw, peek, tok_at. cbn. by rewrite Nat.add_0_r, Nat.add_1_r. Qed.

Lemma sim_run {A} n (p q : Parse A) m s t a s' :
  sim N n p q m → rel N s t → (remaining t ≤ n)%nat → p s = Ok (a, s') → (pos s' ≤ N)%nat →
  ∃ t', q t = Ok (a, t') ∧ rel N s' t' ∧ (remaining t' ≤ m a)%nat.
Proof. intros [_ H]. apply H. Qed.

(** A look further ahead: one obligation, on related states. *)
Lemma sim_ahead {A B} n (f : PState → A) (k k' : A → Parse B) m :
  (∀ a, keeps (k a)) →
  (∀ s t b s', rel N s t → (remaining t ≤ n)%nat → k (f s) s = Ok (b, s') → (pos s' ≤ N)%nat →
     ∃ t', k' (f t) t = Ok (b, t') ∧ rel N s' t' ∧ (remaining t' ≤ m b)%nat) →
  sim N n (x ← look f; k x) (x ← look f; k' x) m.
Proof. intros Hk H. split; [|done]. intros n'. eapply safe_bind; [apply safe_look|]. intros a. apply Hk. Qed.

Lemma sim_at_ahead {A B} u n (f : PState → A) (k k' : A → Parse B) m :
  (∀ s t b s', rel N s t → peek s = u → (pos s < N)%nat → (remaining t ≤ n)%nat → k (f s) s = Ok (b, s') →
     (pos s' ≤ N)%nat → ∃ t', k' (f t) t = Ok (b, t') ∧ rel N s' t' ∧ (remaining t' ≤ m b)%nat) →
  sim_at N u n (x ← look f; k x) (x ← look f; k' x) m.
Proof. done. Qed.

(** A boolean look at the tokens at 0 and at 1 that the end token fails: the two runs agree, or the first
    sees it hold of a token at or beyond [N]. *)
Lemma ahead_cases (g0 g1 : Tok → bool) (f : PState → bool) s t :
  (∀ s, f s = g0 (tok_at 0 s) && g1 (tok_at 1 s)) → g0 Tok.Eof = false → g1 Tok.Eof = false → rel N s t →
  f t = f s ∨ (f t = false ∧ f s = true ∧ (N ≤ S (pos s))%nat).
Proof.
  intros Hf H0 H1 Hr. rewrite !Hf, (rel_tok _ _ _ Hr 0), (rel_tok _ _ _ Hr 1).
  destruct (Nat.ltb_spec (pos s + 0) N), (Nat.ltb_spec (pos s + 1) N); try lia; [by left|..];
    rewrite ?H0, ?H1, ?andb_false_r; cbn; destruct (g0 _ && g1 _); auto with lia.
Qed.

(** Two keywords in a row are consumed by what expects them. *)
Lemma inner_join_eats s a s' : wf s → is_kw "inner" s && next_is_kw "join" s = true → inner_join s = Ok (a, s') →
  pos s' = S (S (pos s)).
Proof.
  intros Hw [H1 H2]%andb_true_iff. rewrite next_after in H2. unfold inner_join, mbind, Parse_bind.
  destruct (eat_kw_eq _ _ Hw H1) as [-> Hw1]. destruct (eat_kw_eq _ _ Hw1 H2) as [-> _]. by intros [= _ <-].
Qed.

Lemma sim_join_kind n : sim N n parse_join_kind parse_join_kind (λ _, n).
Proof.
  unfold parse_join_kind. eapply sim_bind; [sim_prim|]. intros []; cbn beta iota.
  { eapply sim_weaken; [apply (sim_inner_join (pred n))|done|]. intros []; lia. }
  apply sim_ahead; [intros [] n'; psafe|]. intros s t b s' Hr Hn E Hp. cbn beta in *.
  destruct (ahead_cases (tok_is_kw "inner") (tok_is_kw "join") (λ s, is_kw "inner" s && next_is_kw "join" s)
    s t ltac:(done) eq_refl eq_refl Hr) as [Ef|(Ef & Es & Hb)]; cbn beta in *.
  - rewrite Ef. destruct (is_kw "inner" s && next_is_kw "join" s); (eapply (sim_run n _ _ (λ _, n)); [|exact Hr|exact Hn|exact E|exact Hp]; psim).
  - rewrite Es in E. pose proof (inner_join_eats _ _ _ (rel_wf _ _ _ Hr) Es E). lia.
Qed.
End Pieces.

#[export] Hint Resolve sim_paren_ident_list sim_cast_type sim_vector_literal sim_limit_value sim_opt_alias
  sim_from_alias sim_join_kind : psim.

(** ** The grammar *)

Record calls_sim (N K : nat) (c c' : Calls) : Prop := {
  cm_expr n : (n ≤ K)%nat → sim N n (c_expr c) (c_expr c') (λ _, pred n);
  cm_select n : (n ≤ K)%nat → sim N n (c_select c) (c_select c') (λ _, pred n);
  cm_from n : (n ≤ K)%nat → sim N n (c_from c) (c_from c') (λ _, pred n);
  cm_not n : (n ≤ K)%nat → sim N n (c_not c) (c_not c') (λ _, pred n);
  cm_unary n : (n ≤ K)%nat → sim N n (c_unary c) (c_unary c') (λ _, pred n)
}.
#[export] Hint Resolve cm_expr cm_select cm_from cm_not cm_unary : psim.

Section GrammarSim.
Context (N K : nat) (c c' : Calls) (Hc : calls_sim N K c c') (Hp : ∀ n, calls_safe (M := Partial) c n).
#[local] Hint Resolve Hc : psim.

(** What a success of the first run implies, from [Hp]. *)
Ltac partial lem := eapply lem; [apply Hp|first [apply Nat.le_succ_diag_r|apply le_n]].
#[local] Hint Extern 1 (safe _ (c_expr c) _) => partial @cs_expr : psafe.
#[local] Hint Extern 1 (safe _ (c_select c) _) => partial @cs_select : psafe.
#[local] Hint Extern 1 (safe _ (c_from c) _) => partial @cs_from : psafe.
#[local] Hint Extern 1 (safe _ (c_not c) _) => partial @cs_not : psafe.
#[local] Hint Extern 1 (safe _ (c_unary c) _) => partial @cs_unary : psafe.
#[local] Hint Extern 1 (safe _ (expr_list_until c _) _) => partial @safe_expr_list : psafe.
#[local] Hint Extern 1 (safe _ (aggregate_call c _) _) => partial @safe_aggregate_call : psafe.
#[local] Hint Extern 1 (safe _ (func_call c _) _) => partial @safe_func_call : psafe.
#[local] Hint Extern 1 (safe _ (when_list c) _) => partial @safe_when_list : psafe.
#[local] Hint Extern 1 (safe _ (case_expr c) _) => partial @safe_case_expr : psafe.
#[local] Hint Extern 1 (safe _ (primary c) _) => partial @safe_primary : psafe.
#[local] Hint Extern 1 (safe _ (cast_expr c) _) => partial @safe_cast_expr : psafe.
#[local] Hint Extern 1 (safe _ (unary_expr c) _) => partial @safe_unary_expr : psafe.
#[local] Hint Extern 1 (safe _ (vecdist_expr c) _) => partial @safe_vecdist_expr : psafe.
#[local] Hint Extern 1 (safe _ (in_tail c _ _) _) => partial @safe_in_tail : psafe.
#[local] Hint Extern 1 (safe _ (between_tail c _ _) _) => partial @safe_between_tail : psafe.
#[local] Hint Extern 1 (safe _ (like_tail c _ _) _) => partial @safe_like_tail : psafe.
#[local] Hint Extern 1 (safe _ (predicate_tail c _ _) _) => partial @safe_predicate_tail : psafe.
#[local] Hint Extern 1 (safe _ (not_expr c) _) => partial @safe_not_expr : psafe.
#[local] Hint Extern 1 (safe _ (select_item c) _) => partial @safe_select_item : psafe.
#[local] Hint Extern 1 (safe _ (order_key c) _) => partial @safe_order_key : psafe.
#[local] Hint Extern 1 (safe _ (parse_from_item c) _) => partial @safe_from_item : psafe.
#[local] Hint Extern 1 (safe _ (parse_from c) _) => partial @safe_parse_from : psafe.
#[local] Hint Extern 1 (safe _ (parse_join_condition c) _) => partial @safe_join_condition : psafe.
#[local] Hint Extern 1 (safe _ (select_core c) _) => partial @safe_select_core : psafe.
#[local] Hint Extern 1 (safe _ (set_op_part c) _) => partial @safe_set_op_part : psafe.

Lemma sim_left_assoc n op p q :
  op Tok.Eof = None → (∀ n', (n' ≤ n)%nat → sim N n' p q (λ _, pred n')) →
  (∀ n', safe (M := Partial) n' p (λ _, pred n')) → sim N n (left_assoc op p) (left_assoc op q) (λ _, pred n).
Proof.
  intros Hop Hs Hk. unfold left_assoc. eapply sim_bind; [by apply Hs|]. intros left. cbn beta. apply sim_loop.
  - intros a n' Hn'. apply sim_look with (g := λ t, t); [done|..].
    + intros t n''. destruct (op t); psafe.
    + intros t. destruct (op t); [|psim]. apply sim_at_bump. eapply sim_bind; [apply Hs; lia|]. intros r. cbn beta. psim.
    + intros t. rewrite Hop. destruct (op t) eqn:E; [left|right; psim]. intros n''.
      apply safe_at_bump; [by destruct t; try done; rewrite Hop in E|]. psafe.
  - intros a n'. apply safe_peek. intros t. destruct (op t) eqn:E; [|psafe].
    apply safe_at_bump; [by destruct t; try done; rewrite Hop in E|]. psafe.
Qed.

Lemma sim_aggregate_call n f : (n ≤ S K)%nat → sim N n (aggregate_call c f) (aggregate_call c' f) (λ _, pred n).
Proof. intros Hn. unfold aggregate_call. psim. Qed.
#[local] Hint Resolve sim_aggregate_call : psim.

Lemma sim_func_call n w : (n ≤ S K)%nat → sim N n (func_call c w) (func_call c' w) (λ _, pred n).
Proof. intros Hn. unfold func_call, expr_list_until. psim. Qed.
#[local] Hint Resolve sim_func_call : psim.

Lemma sim_when_list n : (n ≤ S K)%nat → sim N n (when_list c) (when_list c') (λ _, n).
Proof. intros Hn. apply sim_loop; intros; [psim|psafe]. Qed.
#[local] Hint Resolve sim_when_list : psim.

Lemma sim_case_expr n : (n ≤ S K)%nat → sim N n (case_expr c) (case_expr c') (λ _, pred n).
Proof. intros Hn. unfold case_expr. psim. Qed.
#[local] Hint Resolve sim_case_expr : psim.

Lemma sim_name_expr n w : (n ≤ S K)%nat → sim_at N (Tok.Word w) n (name_expr c w) (name_expr c' w) (λ _, pred n).
Proof. intros Hn. unfold name_expr. psim. Qed.

(** Two tokens are consumed. *)
Lemma eats2_pos {A} (p : Parse A) s a s' :
  (∀ n, safe_at (M := Partial) (peek s) n p (λ _, pred (pred n))) → wf s → p s = Ok (a, s') → (S (pos s) < pos s')%nat.
Proof.
  intros Hk Hs E. specialize (Hk (remaining s) s Hs eq_refl (le_n _)). rewrite E in Hk. destruct Hk as (Hw & Ht & _ & Hr).
  unfold remaining in Hr. rewrite Ht in Hr. destruct Hs, Hw. rewrite Ht in *. lia.
Qed.

Lemma sim_cast_call n w : (n ≤ S K)%nat → sim_at N (Tok.Word w) n (cast_call c) (cast_call c') (λ _, pred n).
Proof. intros Hn. unfold cast_call. psim. Qed.

Lemma sim_extract_call n w : (n ≤ S K)%nat → sim_at N (Tok.Word w) n (extract_call c) (extract_call c') (λ _, pred n).
Proof. intros Hn. unfold extract_call. psim. Qed.

Lemma sim_exists_expr n w : (n ≤ S K)%nat → sim_at N (Tok.Word w) n (exists_expr c) (exists_expr c') (λ _, pred n).
Proof. intros Hn. unfold exists_expr. psim. Qed.

Lemma sim_word_case n w b : (n ≤ S K)%nat → sim_at N (Tok.Word w) n (word_case c w b) (word_case c' w b) (λ _, pred n).
Proof.
  intros Hn. unfold word_case.
  repeat match goal with |- sim_at _ _ _ (if ?b then _ else _) _ _ => destruct b eqn:? end;
    auto using sim_cast_call, sim_extract_call, sim_exists_expr, sim_name_expr; psim.
Qed.

(** The parenthesis matters only to a call that consumes it. *)
Lemma word_case_paren w : word_case c' w true = word_case c' w false ∧ word_case c w true = word_case c w false ∨
  ∀ n, safe_at (M := Partial) (Tok.Word w) n (word_case c w true) (λ _, pred (pred n)).
Proof.
  unfold word_case.
  repeat match goal with |- context [eq_ignore_ascii_case w ?k] => destruct (eq_ignore_ascii_case w k) end;
    cbn [andb]; try (by left); right; intros n; unfold cast_call, extract_call, exists_expr; psafe.
Qed.

Lemma sim_word_expr n w : (n ≤ S K)%nat → sim_at N (Tok.Word w) n (word_expr c w) (word_expr c' w) (λ _, pred n).
Proof.
  intros Hn. unfold word_expr. apply sim_at_ahead. intros s t b s' Hr Hu Hlt Hrem E Hpos.
  assert (next_is_lparen t = next_is_lparen s ∨ next_is_lparen s = true ∧ next_is_lparen t = false ∧ N = S (pos s)) as Hnext.
  { unfold next_is_lparen. rewrite (rel_tok _ _ _ Hr 1). destruct (Nat.ltb_spec (pos s + 1) N); [by left|].
    destruct (bool_decide_reflect (tok_at 1 s = Tok.LParen)); [right|by left]. split_and!; [done..|lia]. }
  destruct Hnext as [->|(E1 & -> & HN)]; [by eapply sim_word_case|]. rewrite E1 in E.
  destruct (word_case_paren w) as [[_ Ew]|Hw]; [rewrite Ew in E; by eapply sim_word_case|].
  rewrite <- Hu in Hw. pose proof (eats2_pos _ s b s' Hw (rel_wf _ _ _ Hr) E). lia.
Qed.

Lemma keeps_word_expr w : keeps (word_expr c w).
Proof. intros n. unfold word_expr, word_case, cast_call, extract_call, exists_expr, name_expr. psafe. Qed.

Lemma sim_primary n : (n ≤ S K)%nat → sim N n (primary c) (primary c') (λ _, pred n).
Proof.
  intros Hn. unfold primary. apply sim_look with (g := λ t, t); [done|..].
  - intros t n'. destruct t; try apply keeps_word_expr; psafe.
  - intros t. destruct t; try (by apply sim_word_expr); try (by apply sim_at_free); psim.
  - intros t. left. intros n'. destruct t; try (apply safe_word_expr with (N := n'); [apply Hp|lia]); psafe.
Qed.
#[local] Hint Resolve sim_primary : psim.

Lemma sim_cast_expr n : (n ≤ S K)%nat → sim N n (cast_expr c) (cast_expr c') (λ _, pred n).
Proof.
  intros Hn. unfold cast_expr. eapply sim_bind; [sim_prim|]. intros e. cbn beta. apply sim_loop; intros; [psim|psafe].
Qed.
#[local] Hint Resolve sim_cast_expr : psim.

Lemma sim_unary_expr n : (n ≤ S K)%nat → sim N n (unary_expr c) (unary_expr c') (λ _, pred n).
Proof. intros Hn. unfold unary_expr. psim. Qed.

Lemma sim_vecdist_expr n : (n ≤ S K)%nat → sim N n (vecdist_expr c) (vecdist_expr c') (λ _, pred n).
Proof.
  intros Hn. do 4 (apply sim_left_assoc; [done|intros|intros; repeat (apply safe_left_assoc; [done|intros]); psafe]).
  apply sim_unary_expr. lia.
Qed.
#[local] Hint Resolve sim_vecdist_expr : psim.

Lemma sim_in_tail n e b : (n ≤ S K)%nat → sim N n (in_tail c e b) (in_tail c' e b) (λ _, n).
Proof. intros Hn. unfold in_tail, expr_list_until. psim. Qed.

Lemma sim_between_tail n e b : (n ≤ S K)%nat → sim N n (between_tail c e b) (between_tail c' e b) (λ _, n).
Proof. intros Hn. unfold between_tail. psim. Qed.

Lemma sim_like_tail n e b : (n ≤ S K)%nat → sim N n (like_tail c e b) (like_tail c' e b) (λ _, n).
Proof. intros Hn. unfold like_tail. psim. Qed.
#[local] Hint Resolve sim_in_tail sim_between_tail sim_like_tail : psim.

(** A comparison, or nothing. *)
Lemma sim_cmp_op n e : (n ≤ S K)%nat → sim N n
  (t ← look peek; match cmp_op t with
                  | Some op => _ ← bump; right ← vecdist_expr c; mret (EBinary op e right)
                  | None => mret e end)
  (t ← look peek; match cmp_op t with
                  | Some op => _ ← bump; right ← vecdist_expr c'; mret (EBinary op e right)
                  | None => mret e end) (λ _, n).
Proof.
  intros Hn. apply sim_look with (g := λ t, t); [done|..].
  - intros t n'. destruct (cmp_op t); psafe.
  - intros t. destruct (cmp_op t); psim.
  - intros t. cbn [cmp_op]. destruct (cmp_op t) eqn:E; [left|right; psim]. intros n'. psafe.
Qed.

Lemma sim_predicate_tail n e b : (n ≤ S K)%nat → sim N n (predicate_tail c e b) (predicate_tail c' e b) (λ _, n).
Proof.
  intros Hn. unfold predicate_tail.
  apply sim_look with (g := λ t, tok_is_kw "like" t || tok_is_kw "ilike" t); [done|..].
  - intros t n'. destruct (_ || _); psafe.
  - intros t. destruct (_ || _); psim. apply sim_cmp_op. split_ifs; lia.
  - intros t. destruct (_ || _) eqn:E; [left|right].
    + intros n'. unfold like_tail. psafe.
    + cbn [tok_is_kw orb]. psim. apply sim_cmp_op. split_ifs; lia.
Qed.
#[local] Hint Resolve sim_predicate_tail : psim.

(** The predicate after NOT is consumed. *)
Lemma predicate_eats t e b : starts_neg_predicate t = true → eats_at t (predicate_tail c e b).
Proof.
  intros Hst n. destruct t; try discriminate Hst. unfold starts_neg_predicate, one_of in Hst. cbn [existsb] in Hst.
  unfold predicate_tail. apply safe_at_look_tok with (g := λ t, tok_is_kw "like" t || tok_is_kw "ilike" t); [done|].
  cbn [tok_is_kw]. destruct (_ || eq_ignore_ascii_case w "ilike") eqn:El; [unfold like_tail; psafe|].
  apply orb_false_iff in El as [El1 El2]. rewrite El1, El2 in Hst. cbn [orb] in Hst.
  destruct (eq_ignore_ascii_case w "in") eqn:Ein; [apply safe_at_eat_kw; [done|]; psafe|].
  apply safe_at_eat_kw_false; [done|]. cbn [orb] in Hst. rewrite orb_false_r in Hst.
  apply safe_at_eat_kw; [done|]. psafe.
Qed.

Lemma sim_cmp_tail n e : (n ≤ S K)%nat → sim N n (cmp_tail c e) (cmp_tail c' e) (λ _, n).
Proof.
  intros Hn. unfold cmp_tail. eapply sim_bind; [sim_prim|]. intros []; cbn beta iota; [psim|].
  apply sim_ahead; [intros [] n'; psafe|]. intros s t b s' Hr Hrem E Hpos. cbn beta in *.
  destruct (ahead_cases N (tok_is_kw "not") starts_neg_predicate (λ s, is_kw "not" s && next_starts_neg_predicate s)
    s t ltac:(done) eq_refl eq_refl Hr) as [Ef|(Ef & Es & Hb)]; cbn beta in *.
  - rewrite Ef. destruct (is_kw "not" s && next_starts_neg_predicate s);
      (eapply (sim_run N n _ _ (λ _, n)); [|exact Hr|exact Hrem|exact E|exact Hpos]; psim).
  - rewrite Es in E. apply andb_true_iff in Es as [E1 E2]. exfalso.
    destruct (bump_eq s (rel_wf _ _ _ Hr) (kw_not_eof _ _ E1)) as [Eb Hw1].
    unfold mbind, Parse_bind in E. rewrite Eb in E. cbn in E.
    assert (starts_neg_predicate (peek (set_pos (S (pos s)) s)) = true) as Hst.
    { unfold next_starts_neg_predicate, peek, tok_at in *. cbn. rewrite Nat.add_0_r. by rewrite Nat.add_1_r in E2. }
    pose proof (eats_pos _ _ _ _ (predicate_eats _ e true Hst) Hw1 E) as Hlt. cbn in Hlt. lia.
Qed.
#[local] Hint Resolve sim_cmp_tail : psim.

Lemma sim_not_expr n : (n ≤ S K)%nat → sim N n (not_expr c) (not_expr c') (λ _, pred n).
Proof. intros Hn. unfold not_expr, cmp_expr. psim. Qed.

Lemma sim_expr n : (n ≤ S K)%nat → sim N n (expr c) (expr c') (λ _, pred n).
Proof.
  intros Hn. do 2 (apply sim_left_assoc; [done|intros|intros; repeat (apply safe_left_assoc; [done|intros]); psafe]).
  apply sim_not_expr. lia.
Qed.

(** ** Queries *)

(** The look for [.*] agrees in the two runs, or the first sees it reach [N]. *)
Lemma ahead_star s t : rel N s t → (pos s < N)%nat →
  bool_decide (tok_at 1 t = Tok.Dot) && bool_decide (tok_at 2 t = Tok.Star) =
  bool_decide (tok_at 1 s = Tok.Dot) && bool_decide (tok_at 2 s = Tok.Star) ∨
  tok_at 1 s = Tok.Dot ∧ tok_at 2 s = Tok.Star ∧ (N ≤ pos s + 2)%nat.
Proof.
  intros Hr Hlt. rewrite (rel_tok _ _ _ Hr 1), (rel_tok _ _ _ Hr 2).
  destruct (Nat.ltb_spec (pos s + 2) N); [left; by destruct (Nat.ltb_spec (pos s + 1) N); [|lia]|].
  destruct (decide (tok_at 1 s = Tok.Dot)) as [E1|E1]; [|left; destruct (Nat.ltb_spec (pos s + 1) N);
    [by rewrite bool_decide_false|by rewrite !(bool_decide_false (_ = Tok.Dot))]].
  destruct (decide (tok_at 2 s = Tok.Star)) as [E2|E2]; [by right|left].
  by rewrite (bool_decide_false (tok_at 2 s = _)), !andb_false_r.
Qed.

Lemma tok_at_next k s : tok_at k (set_pos (S (pos s)) s) = tok_at (S k) s.
Proof. unfold tok_at. cbn. f_equal. f_equal. lia. Qed.

(** [alias.*] takes three tokens. *)
Lemma star_eats w s a s' : wf s → peek s = Tok.Word w → tok_at 1 s = Tok.Dot → tok_at 2 s = Tok.Star →
  (_ ← bump; _ ← bump; _ ← bump; mret (Star (Some w)) : Parse SelItem) s = Ok (a, s') → pos s' = (pos s + 3)%nat.
Proof.
  intros Hw H0 H1 H2 E. unfold mbind, Parse_bind in E.
  destruct (bump_eq s Hw ltac:(by rewrite H0)) as [E1 Hw1]. rewrite E1 in E. rewrite <- tok_at_next in H1, H2.
  destruct (bump_eq _ Hw1 ltac:(by unfold peek; rewrite H1)) as [E2 Hw2]. rewrite E2 in E.
  rewrite <- (tok_at_next 0) in H2.
  destruct (bump_eq _ Hw2 ltac:(by unfold peek; rewrite H2)) as [E3 _]. rewrite E3 in E. injection E as _ <-. cbn. lia.
Qed.

Lemma sim_select_item n : (n ≤ K)%nat → sim N n (select_item c) (select_item c') (λ _, pred n).
Proof.
  intros Hn. unfold select_item. eapply sim_bind; [apply sim_skip; discriminate|]. intros []; cbn beta iota; [psim|].
  apply sim_look with (g := λ t, t); [done|..].
  - intros t n'. psafe.
  - intros u. apply sim_at_ahead. intros s t b s' Hr Hu Hlt Hrem E Hpos. cbn beta in *.
    destruct (word_of u) as [w|] eqn:Ew;
      [|eapply (sim_run N n _ _ (λ _, pred n)); [|exact Hr|exact Hrem|exact E|exact Hpos]; psim].
    destruct u; try discriminate Ew. injection Ew as ->.
    assert (∀ b, sim_at N (Tok.Word w) n
      (if b : bool then _ ← bump; _ ← bump; _ ← bump; mret (Star (Some w))
       else e ← c_expr c; alias ← opt_alias; mret (SelExpr e alias))
      (if b : bool then _ ← bump; _ ← bump; _ ← bump; mret (Star (Some w))
       else e ← c_expr c'; alias ← opt_alias; mret (SelExpr e alias)) (λ _, pred n)) as Hsim
      by (intros []; psim).
    destruct (ahead_star s t Hr Hlt) as [Ef|(Es1 & Es2 & HN)]; [rewrite Ef; by eapply Hsim|].
    rewrite Es1, Es2 in E. cbn in E. pose proof (star_eats w s b s' (rel_wf _ _ _ Hr) Hu Es1 Es2 E). lia.
  - intros t. left. intros n'. destruct (word_of t) eqn:E; psafe.
Qed.
#[local] Hint Resolve sim_select_item : psim.

Lemma sim_parse_with n : (n ≤ S K)%nat → sim N n (parse_with c) (parse_with c') (λ _, n).
Proof.
  intros Hn. unfold parse_with. eapply sim_bind; [sim_prim|]. intros []; cbn [negb]; [|psim].
  eapply sim_bind; [sim_prim|]. intros r. cbn beta.
  eapply sim_weaken; [apply sim_comma_list|reflexivity|intros; split_ifs; lia].
  - intros n' Hn'. assert (n' ≤ K)%nat by (destruct r; lia). psim.
  - intros n'. psafe.
Qed.

Lemma sim_group_by n : (n ≤ S K)%nat → sim N n (parse_group_by c) (parse_group_by c') (λ _, n).
Proof. intros Hn. unfold parse_group_by. psim. Qed.

Lemma sim_order_key n : (n ≤ K)%nat → sim N n (order_key c) (order_key c') (λ _, pred n).
Proof. intros Hn. unfold order_key. psim. Qed.
#[local] Hint Resolve sim_order_key : psim.

Lemma sim_order_by n : (n ≤ S K)%nat → sim N n (parse_order_by c) (parse_order_by c') (λ _, n).
Proof. intros Hn. unfold parse_order_by. psim. Qed.

Lemma sim_limit_offset n : sim N n parse_limit_offset parse_limit_offset (λ _, n).
Proof. apply sim_loop; [intros [l o] n' Hn'; psim|intros [l o] n'; psafe]. Qed.

Lemma sim_from_item n : (n ≤ S K)%nat → sim N n (parse_from_item c) (parse_from_item c') (λ _, pred n).
Proof. intros Hn. unfold parse_from_item. psim. Qed.

Lemma sim_join_condition n : (n ≤ S K)%nat → sim N n (parse_join_condition c) (parse_join_condition c') (λ _, n).
Proof. intros Hn. unfold parse_join_condition. psim. Qed.
#[local] Hint Resolve sim_parse_with sim_group_by sim_order_by sim_limit_offset sim_from_item sim_join_condition : psim.

Lemma sim_parse_from n : (n ≤ S K)%nat → sim N n (parse_from c) (parse_from c') (λ _, pred n).
Proof.
  intros Hn. unfold parse_from. eapply sim_bind; [sim_prim|]. intros left. cbn beta.
  apply sim_loop; intros; [psim|psafe].
Qed.
#[local] Hint Resolve sim_parse_from : psim.

Lemma sim_select_core n : (n ≤ S K)%nat → sim N n (select_core c) (select_core c') (λ _, pred n).
Proof. intros Hn. unfold select_core. psim. Qed.

Lemma sim_set_op_word n : sim N n set_op_word set_op_word (λ o, match o with Some _ => pred n | None => n end).
Proof. unfold set_op_word. psim. Qed.
#[local] Hint Resolve sim_select_core sim_set_op_word : psim.

Lemma sim_set_op_part n : (n ≤ S K)%nat → sim N n (set_op_part c) (set_op_part c') (λ _, pred n).
Proof. intros Hn. unfold set_op_part. psim. Qed.
#[local] Hint Resolve sim_set_op_part : psim.

Lemma sim_set_op_chain n : (n ≤ S K)%nat → sim N n (set_op_chain c) (set_op_chain c') (λ _, n).
Proof.
  intros Hn. apply sim_loop; intros; [psim|].
  eapply safe_bind; [apply safe_set_op_word|]. intros []; cbn beta iota; psafe.
Qed.
#[local] Hint Resolve sim_set_op_chain : psim.

Lemma sim_select n : (n ≤ S K)%nat → sim N n (select c) (select c') (λ _, pred n).
Proof. intros Hn. unfold select. psim. Qed.
End GrammarSim.

(** ** The recursion closed *)

Lemma sim_zero {A} N n (p q : Parse A) m : (n ≤ 0)%nat → keeps p → sim N n p q m.
Proof. intros Hn Hk. split; [done|]. intros s t a s' Hr Hrem. rewrite (rel_rem _ _ _ Hr) in Hrem. lia. Qed.

(** The captured run needs no more fuel than it has tokens, whatever the fuel of the first. *)
Lemma calls_sim_fuel N f K : calls_sim N K (calls f) (calls K).
Proof.
  revert K. induction f as [|f IH]; intros K.
  { split; intros n Hn; (split; [intros n' s _ _; cbn; intros []|intros s t a s' _ _ E; discriminate E]). }
  destruct K as [|K].
  { pose proof (λ N, calls_partial (S f) N) as Hp.
    split; intros n Hn; apply sim_zero; try done; intros n';
      (eapply safe_weaken; [first [apply (cs_expr _ _ (Hp n'))|apply (cs_select _ _ (Hp n'))|apply (cs_from _ _ (Hp n'))
                                  |apply (cs_not _ _ (Hp n'))|apply (cs_unary _ _ (Hp n'))]; reflexivity|done|cbn; lia]). }
  pose proof (λ N, calls_partial f N) as Hp.
  split; intros n Hn; cbn [calls calls_step c_expr c_select c_from c_not c_unary].
  - by apply sim_expr with (K := K).
  - by apply sim_select with (K := K).
  - by apply sim_parse_from with (K := K).
  - by apply sim_not_expr with (K := K).
  - by apply sim_unary_expr with (K := K).
Qed.

(** ** The text read back *)

(** The tokens between two positions. *)
Definition taken (s s' : PState) : list Tok := take (pos s' - pos s) (drop (pos s) (toks s)).

Lemma lookup_taken s s' k : toks s' = toks s → (pos s ≤ pos s')%nat → (pos s' < length (toks s))%nat →
  default Tok.Eof ((taken s s' ++ [Tok.Eof]) !! k) =
  if (pos s + k <? pos s')%nat then default Tok.Eof (toks s !! (pos s + k)%nat) else Tok.Eof.
Proof.
  intros Ht Hle Hlt. unfold taken. destruct (Nat.ltb_spec (pos s + k) (pos s')).
  - rewrite lookup_app_l by (rewrite length_take, length_drop; lia). rewrite lookup_take_lt by lia. by rewrite lookup_drop.
  - rewrite lookup_app_r by (rewrite length_take, length_drop; lia). rewrite length_take, length_drop.
    replace (Nat.min _ _) with (pos s' - pos s)%nat by lia. by destruct (k - (pos s' - pos s))%nat.
Qed.

Lemma captured_rel s s' : wf s → wf s' → toks s' = toks s → (pos s ≤ pos s')%nat →
  forallb (λ t, negb (free_param t)) (taken s s') = true →
  rel (pos s') s (parser_new (taken s s' ++ [Tok.Eof])).
Proof.
  intros Hw Hw' Ht Hle Hf. assert (pos s' < length (toks s))%nat as Hlt by (rewrite <- Ht; apply Hw').
  assert (length (taken s s') = (pos s' - pos s)%nat) as Hlen by (unfold taken; rewrite length_take, length_drop; lia).
  split; [done| |done|done|..].
  - split; cbn; [rewrite length_app; cbn; lia|apply last_snoc].
  - intros k. unfold tok_at. cbn [pos toks parser_new]. rewrite Nat.add_0_l. by apply lookup_taken.
  - unfold remaining. cbn. rewrite length_app, Hlen. cbn. lia.
  - intros k Hk. pose proof (lookup_taken s s' k Ht Hle Hlt) as H. destruct (Nat.ltb_spec (pos s + k) (pos s')); [|lia].
    unfold tok_at. rewrite <- H. rewrite lookup_app_l by lia.
    destruct (taken s s' !! k) as [u|] eqn:E; [|done]. cbn. rewrite forallb_forall in Hf.
    apply negb_true_iff, Hf. apply list_elem_of_In. by eapply list_elem_of_lookup_2.
Qed.

(** C24. Where a statement captures the text of an expression (a column's DEFAULT, a CHECK, a policy's USING and
    WITH CHECK), parsing that text again gives the expression that was parsed in place, so what is enforced
    later is what was written.  It holds of plain tokens: identifiers that need no quotes, ASCII strings, reals
    that are written with a fraction, no [?] or [:name] placeholder. *)
Theorem captured_expression_reparses fuel s text s' :
  wf s → capture_expr_sql (calls fuel) s = Ok (text, s') → plain_toks (taken s s') = true →
  forallb (λ t, negb (free_param t)) (taken s s') = true →
  ∃ e, c_expr (calls fuel) s = Ok (e, s') ∧ parse_expr text = Ok e.
Proof.
  intros Hw E Hplain Hfree. unfold capture_expr_sql, mbind, Parse_bind, look in E.
  destruct (c_expr (calls fuel) s) as [[e s1]|err] eqn:Ee; [|done]. injection E as <- ->. exists e. split; [done|].
  assert (keeps (c_expr (calls fuel))) as Hk.
  { intros n. eapply safe_weaken; [apply (cs_expr _ _ (calls_partial fuel n)); reflexivity|done|cbn; lia]. }
  destruct (keeps_pos _ _ _ _ Hk Hw Ee) as (Hw' & Ht & Hle). unfold parse_expr. rewrite Ht.
  change (take _ _) with (taken s s'). rewrite (lex_render _ Hplain). cbn [mbind Result_bind]. unfold with_calls.
  set (t := parser_new _). pose proof (captured_rel s s' Hw Hw' Ht Hle Hfree) as Hr. fold t in Hr.
  pose proof (cm_expr _ _ _ _ (calls_sim_fuel (pos s') fuel (S (length (toks t)))) (S (length (toks t))) (le_n _)) as [_ H].
  destruct (H s t e s' Hr) as (t' & Et & Hr' & _); [unfold remaining; cbn; lia|done|done|].
  change (expr (calls (length (toks t))) t = Ok (e, t')) in Et. rewrite Et. cbn [mbind Result_bind].
  rewrite (peek_rel _ _ _ Hr'). by destruct (Nat.ltb_spec (pos s') (pos s')); [lia|].
Qed.
