(* ===== verification/Expr.v ===== *)
(** * Expression evaluation (crates/engine/src/exec.rs, [eval] and what it calls)

    [eval] runs an expression in a context: a row with the schema or the namespace its columns
    resolve in, the bound parameters, the rows of the current group, and the proposed row of an
    upsert.  A result is a value, an error with its status, or a panic: a row that is shorter than
    its schema, and the two overflows of [i64] division. *)

From S2P Require Import Prelude Text Numbers Float Chars EngineTypes Values Json Session Funcs Like Ast.

#[local] Open Scope i64_scope.

(** A column of a multi-source namespace. *)
Record RelCol := mkRelCol { rc_table : option string; rc_name : string; rc_ty : ColumnType }.

Record EvalCtx := mkCtx {
  cx_row : option (list Value);
  cx_schema : option TableSchema;
  cx_params : list Value;
  cx_group : option (list (list Value));
  cx_excluded : option (list Value);
  cx_cols : option (list RelCol)
}.

Definition ctx_root (params : list Value) : EvalCtx := mkCtx None None params None None None.
Definition ctx_row (row : list Value) (sc : TableSchema) (params : list Value) : EvalCtx :=
  mkCtx (Some row) (Some sc) params None None None.
Definition ctx_rel (row : list Value) (cols : list RelCol) (params : list Value) : EvalCtx :=
  mkCtx (Some row) None params None None (Some cols).

(** [row[idx]]. *)
Definition cell_at (row : list Value) (i : nat) : Res Value :=
  match row !! i with Some v => Ok v | None => panic end.

Definition col_matches (tbl : option string) (name : string) (c : RelCol) : bool :=
  eq_ignore_ascii_case (rc_name c) name &&
  match tbl with
  | None => true
  | Some t => match rc_table c with Some ct => eq_ignore_ascii_case ct t | None => false end
  end.

(** Exactly one column may match. *)
Definition resolve_col (cols : list RelCol) (tbl : option string) (name : string) : Res nat :=
  match position (col_matches tbl name) cols with
  | None => sql_error
  | Some i => if existsb (col_matches tbl name) (drop (S i) cols) then sql_error else Ok i
  end.

Definition resolve_value (cx : EvalCtx) (tbl : option string) (name : string) : Res Value :=
  match cx_row cx with
  | None => sql_error
  | Some row =>
      match cx_cols cx with
      | Some cols => i ← resolve_col cols tbl name; cell_at row i
      | None => match cx_schema cx with
                | None => sql_error
                | Some sc => match column_index sc name with
                             | None => sql_error
                             | Some i => cell_at row i
                             end
                end
      end
  end.

(** ** Operators *)

Definition bool_int (b : bool) : Value := Int (if b then 1 else 0).
Definition truth (o : option bool) : Value := match o with Some b => bool_int b | None => Null end.

Definition three_valued_and (a b : option bool) : Value :=
  match a, b with
  | Some false, _ | _, Some false => Int 0
  | Some true, Some true => Int 1
  | _, _ => Null
  end.

Definition three_valued_or (a b : option bool) : Value :=
  match a, b with
  | Some true, _ | _, Some true => Int 1
  | Some false, Some false => Int 0
  | _, _ => Null
  end.

Definition li (v : Value) : Z := match v with Int i => i | _ => 0 end.
Definition is_int (v : Value) : bool := match v with Int _ => true | _ => false end.

Definition num (v : Value) : Res Z :=
  match v with
  | Int i => Ok (f_of_Z F64 i)
  | Real r => Ok r
  | TextV s => match parse_f64 (trim s) with Some r => Ok r | None => sql_error end
  | _ => sql_error
  end.

Definition in_i64 (z : Z) : bool := (- 2 ^ 63 <=? z) && (z <? 2 ^ 63).
(** [checked_add] and the like, falling back to the float result. *)
Definition int_or_real (exact real : Z) : Value := if in_i64 exact then Int exact else Real real.

Definition arith (op : BinOp) (l r : Value) : Res Value :=
  if is_null l || is_null r then Ok Null
  else
    let both := is_int l && is_int r in
    ln ← num l; rn ← num r;
    match op with
    | OpAdd => Ok (if both then int_or_real (li l + li r) (f_add F64 ln rn) else Real (f_add F64 ln rn))
    | OpSub => Ok (if both then int_or_real (li l - li r) (f_sub F64 ln rn) else Real (f_sub F64 ln rn))
    | OpMul => Ok (if both then int_or_real (li l * li r) (f_mul F64 ln rn) else Real (f_mul F64 ln rn))
    | OpDiv =>
        if both then (if li r =? 0 then Ok Null else q ← i64_div (li l) (li r); Ok (Int q))
        else Ok (if f_eqb F64 rn f_zero then Null else Real (f_div F64 ln rn))
    | OpMod =>
        if both then (if li r =? 0 then Ok Null else q ← i64_rem (li l) (li r); Ok (Int q))
        else Ok (if f_eqb F64 rn f_zero then Null else Real (f_rem F64 ln rn))
    | _ => panic
    end.

Definition concat_values (l r : Value) : Value :=
  if is_null l || is_null r then Null else TextV (text_of l +:+ text_of r).

Definition to_vec_operand (v : Value) : option (list Z) :=
  match v with Vector x => Some x | TextV s => parse_vector s | _ => None end.

(** [distance] of vector.rs, in [f32]; the standard library's sums start from [-0.0]. *)
Definition f32_sum (l : list Z) : Z := foldl (f_add F32) (sign_bit F32) l.
Definition dot (a b : list Z) : Z := f32_sum (zip_with (f_mul F32) a b).
Definition l2 (a b : list Z) : Z :=
  f_sqrt F32 (f32_sum (zip_with (λ x y, let d := f_sub F32 x y in f_mul F32 d d) a b)).
Definition cosine_distance (a b : list Z) : Z :=
  let na := f_sqrt F32 (dot a a) in
  let nb := f_sqrt F32 (dot b b) in
  if f_eqb F32 na f_zero || f_eqb F32 nb f_zero then f_of_Z F32 1
  else f_sub F32 (f_of_Z F32 1) (f_div F32 (dot a b) (f_mul F32 na nb)).
Definition distance (m : Metric) (a b : list Z) : Z :=
  match m with L2 => l2 a b | Cosine => cosine_distance a b | InnerProduct => f_neg F32 (dot a b) end.

Definition vec_distance (m : Metric) (l r : Value) : Res Value :=
  if is_null l || is_null r then Ok Null
  else match to_vec_operand l, to_vec_operand r with
       | Some a, Some b =>
           if (length a =? length b)%nat then Ok (Real (f32_to_f64 (distance m a b))) else sql_error
       | _, _ => sql_error
       end.

Definition eval_binary (op : BinOp) (l r : Value) : Res Value :=
  match op with
  | OpEq => Ok (truth (sql_eq l r))
  | OpNe => Ok (truth (negb <$> sql_eq l r))
  | OpLt => Ok (truth ((λ c, match c with Lt => true | _ => false end) <$> sql_cmp l r))
  | OpLe => Ok (truth ((λ c, match c with Gt => false | _ => true end) <$> sql_cmp l r))
  | OpGt => Ok (truth ((λ c, match c with Gt => true | _ => false end) <$> sql_cmp l r))
  | OpGe => Ok (truth ((λ c, match c with Lt => false | _ => true end) <$> sql_cmp l r))
  | OpAnd => Ok (three_valued_and (as_bool l) (as_bool r))
  | OpOr => Ok (three_valued_or (as_bool l) (as_bool r))
  | OpAdd | OpSub | OpMul | OpDiv | OpMod => arith op l r
  | OpConcat => Ok (concat_values l r)
  | VecL2 => vec_distance L2 l r
  | VecCosine => vec_distance Cosine l r
  | VecIp => vec_distance InnerProduct l r
  end.

Definition eval_unary (op : UnOp) (v : Value) : Res Value :=
  match op with
  | Not => Ok (truth (negb <$> as_bool v))
  | Neg => match v with
           | Null => Ok Null
           | Int i => Ok (Int (wrap64 (- i)))
           | Real r => Ok (Real (f_neg F64 r))
           | _ => sql_error
           end
  end.

Definition parse_int_text (s : string) : Res Value :=
  let t := trim s in
  match parse_i64 t with
  | Some i => Ok (Int i)
  | None => match parse_f64 t with
            | Some r => Ok (Int (f_as_i64 F64 (f_round F64 r)))
            | None => sql_error
            end
  end.

Definition cast_value (v : Value) (t : CastTarget) : Res Value :=
  if is_null v then Ok v
  else match t with
       | Passthrough => Ok v
       | ToInt => match v with
                  | Int i => Ok (Int i)
                  | Real r => Ok (Int (f_as_i64 F64 (f_round F64 r)))
                  | TextV s => parse_int_text s
                  | _ => sql_error
                  end
       | ToReal => match v with
                   | Int i => Ok (Real (f_of_Z F64 i))
                   | Real r => Ok (Real r)
                   | TextV s => match parse_f64 (trim s) with Some r => Ok (Real r) | None => sql_error end
                   | _ => sql_error
                   end
       | ToText => Ok (match render v with Some s => TextV s | None => Null end)
       | ToBool => Ok (truth (as_bool v))
       end.

(** The value and the pattern once evaluated; [esc] is the escape character. *)
Definition like_values (v p : Value) (esc : option Z) (negated insensitive : bool) : Value :=
  match v, p with
  | TextV s, TextV pat => bool_int (xorb (like_match s pat esc insensitive) negated)
  | _, _ => Null
  end.

Definition escape_of (v : Value) : option Z := s ← render v; head (chars s).

(** [v >= lo AND v <= hi]. *)
Definition between (v lo hi : Value) (negated : bool) : Res Value :=
  ge ← eval_binary OpGe v lo;
  le ← eval_binary OpLe v hi;
  let within := three_valued_and (as_bool ge) (as_bool le) in
  Ok (if negated then truth (negb <$> as_bool within) else within).

(** ** Aggregates *)

Definition null_aware_cmp (a b : Value) : comparison :=
  match is_null a, is_null b with
  | true, true => Eq
  | true, false => Lt
  | false, true => Gt
  | false, false => default Eq (sql_cmp a b)
  end.

(** [values.retain(|v| seen.insert(value_key(v)))]. *)
Fixpoint retain_fresh (seen : gset string) (l : list Value) : list Value :=
  match l with
  | [] => []
  | v :: l => if bool_decide (value_key v ∈ seen) then retain_fresh seen l
              else v :: retain_fresh ({[value_key v]} ∪ seen) l
  end.

Definition f64_sum (l : list Z) : Z := foldl (f_add F64) (sign_bit F64) l.
Definition num_or_zero (v : Value) : Z := match num v with Ok r => r | Err _ => f_zero end.

Definition reduce_with (f : Value → Value → Value) (l : list Value) : Value :=
  match l with [] => Null | v :: l => foldl f v l end.

Definition agg_fold (func : AggFunc) (vals : list Value) : Value :=
  match func with
  | Count => Int (zlen vals)
  | Min => reduce_with (λ a b, match null_aware_cmp b a with Lt => b | _ => a end) vals
  | Max => reduce_with (λ a b, match null_aware_cmp b a with Gt => b | _ => a end) vals
  | Sum => match vals with
           | [] => Null
           | _ => if forallb is_int vals then Int (foldl (λ s v, s +! li v) 0 vals)
                  else Real (f64_sum (num_or_zero <$> vals))
           end
  | Avg => match vals with
           | [] => Null
           | _ => Real (f_div F64 (f64_sum (num_or_zero <$> vals)) (f_of_Z F64 (zlen vals)))
           end
  | JsonAgg | GroupConcat => Null
  end.

(** [for x in l { out.push(f(x)?) }]. *)
Fixpoint try_map {A B E} (f : A → Result E B) (l : list A) : Result E (list B) :=
  match l with
  | [] => Ok []
  | x :: l => y ← f x; ys ← try_map f l; Ok (y :: ys)
  end.

(** [eval_arg] evaluates the argument expression on one row of the group. *)
Definition compute_aggregate (func : AggFunc) (eval_arg : option (list Value → Res Value))
    (distinct : bool) (sep : option string) (rows : list (list Value)) : Res Value :=
  match func, eval_arg with
  | Count, None => Ok (Int (zlen rows))
  | _, None => sql_error
  | JsonAgg, Some f =>
      if (length rows =? 0)%nat then Ok Null
      else vs ← try_map f rows; Ok (TextV ("[" +:+ join_str "," (value_to_json <$> vs) +:+ "]"))
  | _, Some f =>
      vs ← try_map f rows;
      let vals := List.filter (λ v, negb (is_null v)) vs in
      let vals := if distinct then retain_fresh ∅ vals else vals in
      Ok (match func with
          | GroupConcat =>
              match vals with
              | [] => Null
              | _ => TextV (join_str (default ","%string sep) (text_of <$> vals))
              end
          | _ => agg_fold func vals
          end)
  end.

(** ** Evaluation *)

Definition strip_auth_prefix (name : string) : option string :=
  strip_prefix "auth." (to_ascii_lowercase name).

Definition opt_text (o : option string) : Value := match o with Some s => TextV s | None => Null end.

Section Eval.
Variable host : Host.
Variable sess : SessionContext.

(** [eval_auth]; [key] is the evaluated first argument of [auth.claim]. *)
Definition eval_auth (fname : string) (key : option (Res Value)) : Res Value :=
  if String.eqb fname "uid" then Ok (opt_text (uid sess))
  else if String.eqb fname "role" then Ok (TextV (role sess))
  else if String.eqb fname "claim" then
    match key with
    | None => sql_error
    | Some k => v ← k; Ok (if is_null v then Null else opt_text (claim sess (text_of v)))
    end
  else sql_error.

Fixpoint eval (e : Expr) (cx : EvalCtx) : Res Value :=
  match e with
  | ENull => Ok Null
  | EInt i => Ok (Int i)
  | EReal r => Ok (Real r)
  | EStr s => Ok (TextV s)
  | EVector v => Ok (Vector v)
  | ELit v => Ok v
  | EParam idx =>
      match (if idx <? 1 then None else cx_params cx !! Z.to_nat (idx - 1)) with
      | Some v => Ok v
      | None => Err (Failed ErrMisuse)
      end
  | EColumn name => resolve_value cx None name
  | EQualified tbl name => resolve_value cx (Some tbl) name
  | EUnary op e => v ← eval e cx; eval_unary op v
  | EIsNull e negated => v ← eval e cx; Ok (bool_int (xorb (is_null v) negated))
  | ELike e pattern escape negated insensitive =>
      v ← eval e cx;
      p ← eval pattern cx;
      match escape with
      | None => Ok (like_values v p None negated insensitive)
      | Some x =>
          esc ← eval x cx;
          Ok (if is_null esc then Null else like_values v p (escape_of esc) negated insensitive)
      end
  | EInList e items negated =>
      v ← eval e cx;
      if is_null v then Ok Null
      else (fix scan (l : list Expr) (saw_null : bool) : Res Value :=
              match l with
              | [] => Ok (if saw_null then Null else bool_int negated)
              | item :: l =>
                  x ← eval item cx;
                  match sql_eq v x with
                  | Some true => Ok (bool_int (negb negated))
                  | Some false => scan l saw_null
                  | None => scan l true
                  end
              end) items false
  | EBetween e lo hi negated =>
      v ← eval e cx; lo ← eval lo cx; hi ← eval hi cx; between v lo hi negated
  | ECase operand whens els =>
      op ← match operand with Some o => v ← eval o cx; Ok (Some v) | None => Ok None end;
      (fix scan (l : list (Expr * Expr)) : Res Value :=
         match l with
         | [] => match els with Some e => eval e cx | None => Ok Null end
         | (cond, result) :: l =>
             c ← eval cond cx;
             if (match op with
                 | Some o => bool_decide (sql_eq c o = Some true)
                 | None => default false (as_bool c)
                 end)
             then eval result cx else scan l
         end) whens
  | EDefault => sql_error
  | EExcluded name =>
      match cx_excluded cx with
      | None => sql_error
      | Some row => match cx_schema cx with
                    | None => sql_error
                    | Some sc => match column_index sc name with
                                 | None => sql_error
                                 | Some i => cell_at row i
                                 end
                    end
      end
  | EBinary op l r => lv ← eval l cx; rv ← eval r cx; eval_binary op lv rv
  | ECast e target => v ← eval e cx; cast_value v target
  | EFunc name args =>
      match strip_auth_prefix name with
      | Some f => eval_auth f (match args with a :: _ => Some (eval a cx) | [] => None end)
      | None =>
          vs ← (fix all (l : list Expr) : Res (list Value) :=
                  match l with [] => Ok [] | a :: l => v ← eval a cx; vs ← all l; Ok (v :: vs) end) args;
          call_func host name vs
      end
  | EAggregate func arg distinct sep =>
      match cx_group cx with
      | None => sql_error
      | Some rows =>
          sep ← match sep with Some e => v ← eval e cx; Ok (render v) | None => Ok None end;
          let row_ctx r := mkCtx (Some r) (cx_schema cx) (cx_params cx) None None (cx_cols cx) in
          compute_aggregate func
            (match arg with Some a => Some (λ r, eval a (row_ctx r)) | None => None end) distinct sep rows
      end
  | EScalarSubquery _ | EExists _ _ | EInSubquery _ _ _ => sql_error
  end.

(** A WHERE clause keeps a row when it is true, not when it is NULL. *)
Definition predicate (filter : option Expr) (cx : EvalCtx) : Res bool :=
  match filter with None => Ok true | Some e => v ← eval e cx; Ok (default false (as_bool v)) end.

End Eval.
