(* ===== verification/ExprSpec.v ===== *)
(** * Properties of expression evaluation *)

From S2P Require Import Prelude Text Numbers Float Chars EngineTypes Values Json Session Funcs Like Ast Expr.

(** ** Absence of panics *)

Definition no_panic {A} (r : Res A) : Prop := r ≠ panic.

Lemma no_panic_Ok {A} (a : A) : no_panic (Ok a).
Proof. done. Qed.
Lemma no_panic_error {A} : no_panic (A := A) sql_error.
Proof. done. Qed.
Lemma no_panic_failed {A} s : no_panic (A := A) (Err (Failed s)).
Proof. done. Qed.
Lemma no_panic_bind {A B} (m : Res A) (f : A → Res B) :
  no_panic m → (∀ a, m = Ok a → no_panic (f a)) → no_panic (m ≫= f).
Proof. intros Hm Hf. destruct m as [a|[s|]]; [by apply Hf|done|by destruct Hm]. Qed.
Lemma no_panic_if {A} (b : bool) (m k : Res A) : no_panic m → no_panic k → no_panic (if b then m else k).
Proof. by destruct b. Qed.

Create HintDb no_panic.
#[export] Hint Resolve no_panic_Ok no_panic_error no_panic_failed no_panic_if : no_panic.
#[export] Hint Extern 5 (no_panic (_ ≫= _)) => apply no_panic_bind; [|intros] : no_panic.

Lemma no_panic_try_map {A B} (f : A → Res B) l : Forall (λ x, no_panic (f x)) l → no_panic (try_map f l).
Proof. intros H. induction H as [|x l Hx Hl IH]; cbn; auto with no_panic. Qed.

Lemma no_panic_num v : no_panic (num v).
Proof. destruct v; cbn; try done. by destruct (parse_f64 _). Qed.
#[export] Hint Resolve no_panic_num : no_panic.

(** Division is where the arithmetic of two integers can panic, and only on one pair of them. *)
Lemma i64_div_panics a b : i64_div a b = panic ↔ b = 0 ∨ a = - 2 ^ 63 ∧ b = -1.
Proof.
  unfold i64_div. destruct ((b =? 0) || ((a =? - 2 ^ 63) && (b =? -1))) eqn:E.
  - split; [intros _; lia|done].
  - split; [done|]. lia.
Qed.

Definition divides (op : BinOp) : bool := match op with OpDiv | OpMod => true | _ => false end.

Lemma no_panic_vec_distance m l r : no_panic (vec_distance m l r).
Proof.
  unfold vec_distance. destruct (is_null l || is_null r); [done|].
  destruct (to_vec_operand l), (to_vec_operand r); try done. by destruct (_ =? _)%nat.
Qed.

Lemma no_panic_arith op l r : op = OpAdd ∨ op = OpSub ∨ op = OpMul → no_panic (arith op l r).
Proof.
  intros Hd. unfold arith. destruct (is_null l || is_null r); [done|].
  apply no_panic_bind; [auto with no_panic|]. intros ln _. apply no_panic_bind; [auto with no_panic|]. intros rn _.
  by destruct Hd as [->|[->| ->]].
Qed.

Lemma no_panic_binary op l r : divides op = false → no_panic (eval_binary op l r).
Proof.
  intros Hd. destruct op; try done; try (apply no_panic_arith; auto); apply no_panic_vec_distance.
Qed.

Lemma no_panic_unary op v : no_panic (eval_unary op v).
Proof. by destruct op, v. Qed.

Lemma no_panic_cast v t : no_panic (cast_value v t).
Proof.
  unfold cast_value. destruct (is_null v); [done|]. destruct t, v; try done.
  - unfold parse_int_text. destruct (parse_i64 _); [done|]. by destruct (parse_f64 _).
  - by destruct (parse_f64 _).
Qed.

Lemma no_panic_between v lo hi n : no_panic (between v lo hi n).
Proof. unfold between. repeat (apply no_panic_bind; [by apply no_panic_binary|intros ? _]). done. Qed.
#[export] Hint Resolve no_panic_unary no_panic_cast no_panic_between : no_panic.

Lemma no_panic_aggregate func f d sep rows :
  (∀ g, f = Some g → Forall (λ r, no_panic (g r)) rows) → no_panic (compute_aggregate func f d sep rows).
Proof.
  intros Hf. destruct f as [g|]; [|by destruct func]. specialize (Hf g eq_refl).
  apply no_panic_try_map in Hf. unfold compute_aggregate.
  destruct func; try (apply no_panic_bind; [done|]; intros; done).
  destruct (_ =? _)%nat; [done|]. apply no_panic_bind; [done|]. intros; done.
Qed.

(** The functions of the library that can panic. *)
Definition panics (name : string) : bool :=
  let f := to_ascii_lowercase name in String.eqb f "mod" || String.eqb f "repeat".

Definition opt_no_panic (o : option (Res Value)) : Prop := match o with Some r => no_panic r | None => True end.

Lemma no_panic_unary_real args f : no_panic (unary_real args f).
Proof. unfold unary_real. by destruct (args !! 0%nat) as [[]|]. Qed.
Lemma no_panic_round h args : no_panic (round_func h args).
Proof. unfold round_func. by destruct (args !! 0%nat) as [[]|]. Qed.
Lemma no_panic_date_trunc h args : no_panic (date_trunc_func h args).
Proof.
  unfold date_trunc_func. destruct (some_arg args 0); [|done]. destruct (value_to_epoch _ _); [|done].
  by destruct (Datetime.date_trunc _ _).
Qed.
Lemma no_panic_build_object args : no_panic (json_build_object args).
Proof. unfold json_build_object. by destruct (Nat.odd _). Qed.
#[export] Hint Resolve no_panic_unary_real no_panic_round no_panic_date_trunc no_panic_build_object : no_panic.

Ltac each_function :=
  repeat match goal with
  | |- opt_no_panic (if ?b then _ else _) => destruct b eqn:?
  end; cbn [opt_no_panic]; try done; auto with no_panic.

Lemma no_panic_null_funcs f args : opt_no_panic (null_funcs f args).
Proof.
  unfold null_funcs. each_function.
  destruct args as [|? [|? [|? [|? ?]]]]; done.
Qed.

Lemma no_panic_text_funcs h f args : String.eqb f "repeat" = false → opt_no_panic (text_funcs h f args).
Proof. intros Hr. unfold text_funcs. rewrite Hr. each_function. Qed.

Lemma no_panic_math_funcs h f args : String.eqb f "mod" = false → opt_no_panic (math_funcs h f args).
Proof. intros Hm. unfold math_funcs. rewrite Hm. each_function. by destruct (args !! 0%nat) as [[]|]. Qed.

Lemma no_panic_date_funcs h f args : opt_no_panic (date_funcs h f args).
Proof. unfold date_funcs. each_function. Qed.

Lemma no_panic_misc_funcs h f args : opt_no_panic (misc_funcs h f args).
Proof. unfold misc_funcs. each_function. Qed.

Lemma no_panic_call h name args : panics name = false → no_panic (call_func h name args).
Proof.
  unfold panics, call_func. set (f := to_ascii_lowercase name). intros [Hm Hr]%orb_false_iff.
  pose proof (no_panic_null_funcs f args) as H1. pose proof (no_panic_text_funcs h f args Hr) as H2.
  pose proof (no_panic_math_funcs h f args Hm) as H3. pose proof (no_panic_date_funcs h f args) as H4.
  pose proof (no_panic_misc_funcs h f args) as H5.
  destruct (null_funcs f args); [done|]. destruct (text_funcs h f args); [done|].
  destruct (math_funcs h f args); [done|]. destruct (date_funcs h f args); [done|].
  destruct (misc_funcs h f args); done.
Qed.

(** An expression without integer division and without the two functions that can panic. *)
Fixpoint overflow_free (e : Expr) : bool :=
  let opt (o : option Expr) := match o with Some e => overflow_free e | None => true end in
  match e with
  | EBinary op l r => negb (divides op) && overflow_free l && overflow_free r
  | EUnary _ e | EIsNull e _ | ECast e _ => overflow_free e
  | ELike e p esc _ _ => overflow_free e && overflow_free p && opt esc
  | EInList e l _ => overflow_free e && forallb overflow_free l
  | EBetween e lo hi _ => overflow_free e && overflow_free lo && overflow_free hi
  | ECase o ws els =>
      opt o && forallb (λ w, overflow_free w.1 && overflow_free w.2) ws && opt els
  | EFunc name args => negb (panics name) && forallb overflow_free args
  | EAggregate _ a _ sep => opt a && opt sep
  | _ => true
  end.

(** A row has a value for every column of the scope. *)
Definition row_fits (sc : option TableSchema) (cols : option (list RelCol)) (row : list Value) : Prop :=
  (∀ s, sc = Some s → (length (columns s) ≤ length row)%nat) ∧
  (∀ c, cols = Some c → (length c ≤ length row)%nat).

Definition ctx_fits (cx : EvalCtx) : Prop :=
  (∀ r, cx_row cx = Some r → row_fits (cx_schema cx) (cx_cols cx) r) ∧
  (∀ r, cx_excluded cx = Some r → row_fits (cx_schema cx) None r) ∧
  (∀ g, cx_group cx = Some g → Forall (row_fits (cx_schema cx) (cx_cols cx)) g).

Lemma position_lt {A} (p : A → bool) l i : position p l = Some i → (i < length l)%nat.
Proof. intros (x & Hx & _)%position_Some. by eapply lookup_lt_Some. Qed.

Lemma cell_at_fits row i : (i < length row)%nat → no_panic (cell_at row i).
Proof. intros Hi. unfold cell_at. by destruct (lookup_lt_is_Some_2 row i Hi) as [v ->]. Qed.

Lemma column_fits sc cols row name i :
  row_fits (Some sc) cols row → column_index sc name = Some i → no_panic (cell_at row i).
Proof. intros [Hs _] Hi%position_lt. apply cell_at_fits. specialize (Hs sc eq_refl). lia. Qed.

Lemma resolve_fits cx tbl name : ctx_fits cx → no_panic (resolve_value cx tbl name).
Proof.
  intros (Hr & _). unfold resolve_value. destruct (cx_row cx) as [row|]; [|done].
  specialize (Hr row eq_refl). destruct (cx_cols cx) as [cols|].
  - unfold resolve_col. destruct (position _ cols) as [i|] eqn:E; [|done].
    destruct (existsb _ _); [done|]. cbn. apply cell_at_fits. apply position_lt in E.
    destruct Hr as [_ Hc]. specialize (Hc cols eq_refl). lia.
  - destruct (cx_schema cx) as [sc|]; [|done]. destruct (column_index sc name) as [i|] eqn:E; [|done].
    by eapply column_fits.
Qed.

Lemma eval_no_panic host sess e : ∀ cx, overflow_free e = true → ctx_fits cx → no_panic (eval host sess e cx).
Proof.
  induction e as [e Hl|op l r IHl IHr|op e IH|e n IH|e p esc n i IH IHp IHesc|e l n IH IHl|e lo hi n IH IHlo IHhi
    |o ws els IHo IHws IHels|e t IH|name args IH|f a d sep IHa IHsep|e q n IH] using Expr_induction; intros cx Ho Hf;
    cbn [overflow_free] in Ho; repeat (apply andb_prop in Ho as [Ho ?]).
  - destruct e; try done; cbn [eval]; try (by apply resolve_fits).
    + destruct (idx <? 1); [done|]. by destruct (cx_params cx !! Z.to_nat (idx - 1)) as [v|].
    + destruct (cx_excluded cx) as [row|] eqn:Ex; [|done]. destruct (cx_schema cx) as [sc|] eqn:Es; [|done].
      destruct (column_index sc name) as [i|] eqn:E; [|done]. destruct Hf as (_ & He & _).
      rewrite Es in He. by eapply column_fits; [apply He|].
  - cbn [eval]. apply no_panic_bind; [by apply IHl|intros]. apply no_panic_bind; [by apply IHr|intros].
    apply no_panic_binary. by destruct (divides op).
  - cbn [eval]. apply no_panic_bind; [by apply IH|auto with no_panic].
  - cbn [eval]. apply no_panic_bind; [by apply IH|auto with no_panic].
  - cbn [eval]. apply no_panic_bind; [by apply IH|intros]. apply no_panic_bind; [by apply IHp|intros].
    destruct esc as [x|]; [|done]. apply no_panic_bind; [by apply IHesc|auto with no_panic].
  - cbn [eval]. apply no_panic_bind; [by apply IH|]. intros v _. destruct (is_null v); [done|].
    generalize false as saw. rename H into Hl. induction IHl as [|x l Hx IHl' IHl]; intros saw; [done|].
    cbn [forallb] in Hl. apply andb_prop in Hl as [Hxo Hl]. apply no_panic_bind; [by apply Hx|].
    intros y _. destruct (sql_eq v y) as [[]|]; auto with no_panic.
  - cbn [eval]. apply no_panic_bind; [by apply IH|intros]. apply no_panic_bind; [by apply IHlo|intros].
    apply no_panic_bind; [by apply IHhi|auto with no_panic].
  - cbn [eval]. apply no_panic_bind; [destruct o; [apply no_panic_bind; [by apply IHo|done]|done]|].
    intros op _. rename H0 into Hws, H into Hels. induction IHws as [|[c r] ws [Hc Hr] IHws' IHws].
    { destruct els as [e|]; [by apply IHels|done]. }
    cbn [forallb fst snd] in Hws. apply andb_prop in Hws as [Hw Hws]. apply andb_prop in Hw as [Hwc Hwr].
    apply no_panic_bind; [by apply Hc|]. intros v _. apply no_panic_if; [by apply Hr|]. by apply IHws.
  - cbn [eval]. apply no_panic_bind; [by apply IH|auto with no_panic].
  - cbn [eval]. destruct (strip_auth_prefix name) as [f|].
    + unfold eval_auth. repeat (apply no_panic_if; [done|]). apply no_panic_if; [|done].
      destruct args as [|a args]; [done|]. apply Forall_cons in IH as [Ha _]. cbn [forallb] in H.
      apply andb_prop in H as [H _]. apply no_panic_bind; [by apply Ha|done].
    + apply no_panic_bind; [|intros; apply no_panic_call; by destruct (panics name)].
      rename H into Hargs. induction IH as [|a args Ha IH' IH]; [done|]. cbn [forallb] in Hargs.
      apply andb_prop in Hargs as [Hao Hargs]. apply no_panic_bind; [by apply Ha|]. intros.
      apply no_panic_bind; [by apply IH|done].
  - cbn [eval]. destruct (cx_group cx) as [rows|] eqn:Eg; [|done].
    apply no_panic_bind; [destruct sep; [apply no_panic_bind; [by apply IHsep|done]|done]|]. intros s _.
    apply no_panic_aggregate. intros g Hg. destruct a as [a|]; [|done]. injection Hg as <-.
    destruct Hf as (_ & _ & Hg). specialize (Hg rows Eg). eapply Forall_impl; [exact Hg|].
    intros r Hr. apply IHa; [done|]. split_and!; cbn; [by intros ? [= <-]|done..].
  - done.
Qed.

(** ** IN and BETWEEN are their expansions *)

(** [e = i1 OR (e = i2 OR …)]. *)
Fixpoint or_chain (e : Expr) (i : Expr) (items : list Expr) : Expr :=
  match items with
  | [] => EBinary OpEq e i
  | j :: items => EBinary OpOr (EBinary OpEq e i) (or_chain e j items)
  end.

(** The truth value of [v IN vs] under three-valued logic: true if some element is equal, else
    unknown if some comparison is, else false. *)
Definition in_values (v : Value) (vs : list Value) : option bool :=
  if existsb (λ x, bool_decide (sql_eq v x = Some true)) vs then Some true
  else if existsb (λ x, bool_decide (sql_eq v x = None)) vs then None else Some false.

Lemma as_bool_truth o : as_bool (truth o) = o.
Proof. by destruct o as [[]|]. Qed.

Lemma three_valued_or_truth a b :
  three_valued_or a b = truth (match a, b with
    | Some true, _ | _, Some true => Some true
    | Some false, Some false => Some false
    | _, _ => None end).
Proof. by destruct a as [[]|], b as [[]|]. Qed.

Section InList.
Variable host : Host.
Variable sess : SessionContext.
Abbreviation eval := (eval host sess).

Lemma eval_or_chain e i items cx v x xs :
  eval e cx = Ok v → eval i cx = Ok x → try_map (λ i, eval i cx) items = Ok xs →
  eval (or_chain e i items) cx = Ok (truth (in_values v (x :: xs))).
Proof.
  intros He. revert i x xs. induction items as [|j items IH]; intros i x xs Hi Hxs.
  - injection Hxs as <-. cbn. rewrite He, Hi. cbn. unfold in_values. cbn.
    destruct (sql_eq v x) as [[]|]; done.
  - cbn [try_map] in Hxs. apply Result_bind_Ok in Hxs as (y & Hy & Hxs).
    apply Result_bind_Ok in Hxs as (ys & Hys & [= <-]). cbn [or_chain Expr.eval]. rewrite He, Hi. cbn [mbind Result_bind].
    rewrite (IH j y ys) by done. cbn [mbind Result_bind eval_binary]. rewrite !as_bool_truth, three_valued_or_truth.
    unfold in_values. cbn [existsb]. do 2 f_equal.
    destruct (sql_eq v x) as [[]|]; cbn; destruct (bool_decide (sql_eq v y = Some true)); cbn; try done;
      destruct (existsb (λ x, bool_decide (sql_eq v x = Some true)) ys); try done;
      destruct (bool_decide (sql_eq v y = None)); try done;
      by destruct (existsb (λ x, bool_decide (sql_eq v x = None)) ys).
Qed.

(** The scan of an IN list, [saw] being whether a comparison was unknown so far. *)
Lemma eval_in_scan v items cx xs saw negated :
  is_null v = false → try_map (λ i, eval i cx) items = Ok xs →
  (fix scan (l : list Expr) (saw_null : bool) : Res Value :=
     match l with
     | [] => Ok (if saw_null then Null else bool_int negated)
     | item :: l =>
         x ← eval item cx;
         match sql_eq v x with
         | Some true => Ok (bool_int (negb negated))
         | Some false => scan l saw_null
         | None => scan l true
         end
     end) items saw
  = Ok (if existsb (λ x, bool_decide (sql_eq v x = Some true)) xs then bool_int (negb negated)
        else if saw || existsb (λ x, bool_decide (sql_eq v x = None)) xs then Null else bool_int negated).
Proof.
  intros Hv. revert xs saw. induction items as [|i items IH]; intros xs saw Hxs.
  - injection Hxs as <-. cbn. by rewrite orb_false_r.
  - cbn [try_map] in Hxs. apply Result_bind_Ok in Hxs as (y & Hy & Hxs).
    apply Result_bind_Ok in Hxs as (ys & Hys & [= <-]). rewrite Hy. cbn [mbind Result_bind existsb].
    destruct (sql_eq v y) as [[]|]; cbn; [done|by apply IH|]. rewrite (IH ys true Hys). cbn. by rewrite orb_true_r.
Qed.

Lemma sql_eq_null v x : is_null v = true → sql_eq v x = None.
Proof. by destruct v. Qed.

Lemma eval_in_list e items cx v xs negated :
  eval e cx = Ok v → try_map (λ i, eval i cx) items = Ok xs → items ≠ [] →
  eval (EInList e items negated) cx
  = Ok (truth ((λ b, xorb b negated) <$> in_values v xs)).
Proof.
  intros He Hxs Hne. cbn [Expr.eval]. rewrite He. cbn [mbind Result_bind]. destruct (is_null v) eqn:Hv.
  - assert (xs ≠ []) as Hx.
    { destruct items; [done|]. cbn in Hxs. by apply Result_bind_Ok in Hxs as (? & _ & (? & _ & [= <-])%Result_bind_Ok). }
    destruct xs as [|x xs]; [done|]. unfold in_values.
    assert (existsb (λ x, bool_decide (sql_eq v x = Some true)) (x :: xs) = false) as ->.
    { apply not_true_is_false. intros (y & _ & Hy)%existsb_exists. apply bool_decide_eq_true_1 in Hy.
      by rewrite sql_eq_null in Hy. }
    cbn [existsb]. rewrite (sql_eq_null v x) by done. done.
  - rewrite (eval_in_scan v items cx xs false negated) by done. unfold in_values. cbn [orb].
    destruct (existsb _ xs); [by destruct negated|]. destruct (existsb _ xs); [done|]. by destruct negated.
Qed.

End InList.

(** ** Sums *)

Lemma wrap64_add a b : wrap64 (wrap64 a + b) = wrap64 (a + b).
Proof.
  unfold wrap64, u64_as_i64. f_equal. destruct (Z.ltb_spec (a mod 2 ^ 64) (2 ^ 63)).
  - by rewrite Zplus_mod_idemp_l.
  - replace (a mod 2 ^ 64 - 2 ^ 64 + b) with (a mod 2 ^ 64 + b + (-1) * 2 ^ 64) by lia.
    by rewrite Z.mod_add, Zplus_mod_idemp_l by lia.
Qed.

Lemma sum_wraps vs acc :
  foldl (λ s v, wrap64 (s + li v)) (wrap64 acc) vs = wrap64 (acc + foldr (λ v n, li v + n) 0 vs).
Proof.
  revert acc. induction vs as [|v vs IH]; intros acc; cbn; [by rewrite Z.add_0_r|].
  rewrite wrap64_add, IH. by rewrite Z.add_assoc.
Qed.

(** ** Properties *)


(** IN is a chain of equalities: where the operand and the elements evaluate, [e IN (…)] is the
    disjunction of the equalities under three-valued logic, NULLs included, and [NOT IN] its
    negation. *)
Theorem in_list_is_or_chain host sess e i items cx v x xs :
  eval host sess e cx = Ok v → eval host sess i cx = Ok x →
  try_map (λ i, eval host sess i cx) items = Ok xs →
  eval host sess (EInList e (i :: items) false) cx = eval host sess (or_chain e i items) cx ∧
  eval host sess (EInList e (i :: items) true) cx = eval host sess (EUnary Not (or_chain e i items)) cx.
Proof.
  intros He Hi Hxs. assert (try_map (λ i, eval host sess i cx) (i :: items) = Ok (x :: xs)) as Hall.
  { cbn. by rewrite Hi, Hxs. }
  rewrite !(eval_in_list host sess e (i :: items) cx v (x :: xs)) by done.
  cbn [eval]. rewrite !(eval_or_chain host sess e i items cx v x xs) by done. cbn [mbind Result_bind eval_unary].
  rewrite as_bool_truth. by destruct (in_values v (x :: xs)) as [[]|].
Qed.

(** BETWEEN is its expansion: [e BETWEEN lo AND hi] is [e >= lo AND e <= hi] and the negated form
    is [e < lo OR e > hi], on every input, errors included. *)
Theorem between_expands host sess e lo hi cx :
  eval host sess (EBetween e lo hi false) cx
    = eval host sess (EBinary OpAnd (EBinary OpGe e lo) (EBinary OpLe e hi)) cx ∧
  eval host sess (EBetween e lo hi true) cx
    = eval host sess (EBinary OpOr (EBinary OpLt e lo) (EBinary OpGt e hi)) cx.
Proof.
  cbn [eval]. destruct (eval host sess e cx) as [v|f]; [|done]. cbn [mbind Result_bind].
  destruct (eval host sess lo cx) as [l|f]; [|done]. cbn [mbind Result_bind].
  destruct (eval host sess hi cx) as [h|f]; [|done]. cbn [mbind Result_bind eval_binary between].
  rewrite !as_bool_truth. by destruct (sql_cmp v l) as [[]|], (sql_cmp v h) as [[]|].
Qed.

(** SUM is exact where it fits: over integers whose sum is in the range of [i64] the aggregate is
    that sum, whatever the partial sums. *)
Theorem sum_exact vals :
  forallb is_int vals = true → vals ≠ [] → is_i64 (foldr (λ v n, li v + n) 0 vals) →
  agg_fold Sum vals = Int (foldr (λ v n, li v + n) 0 vals).
Proof.
  intros Hi Hne Hr. cbn [agg_fold]. destruct vals as [|v vals]; [done|]. rewrite Hi. f_equal.
  change 0 with (wrap64 0) at 1. rewrite sum_wraps. by apply wrap64_id.
Qed.

(** ** Witnesses *)

Module ExprRuns.

Definition demo_host : Host := mkHost 0 (λ _, 7) id id id id id (λ x _, x) (λ x _, x).
Definition demo_sess : SessionContext := mkSession (Some "app"%string) None false.
Definition demo_schema : TableSchema :=
  mkSchema "t" [mkColumn "a" CInteger true true false false None;
                mkColumn "b" CText false false false false None] [] [] [] false [].
Definition demo_row : list Value := [Int 3; TextV "x"].
Definition demo_ctx : EvalCtx := ctx_row demo_row demo_schema [].
Definition demo_expr : Expr :=
  EBinary OpAnd (EBinary OpGt (EColumn "a") (EInt 2)) (ELike (EColumn "b") (EStr "_%") None false true).

Lemma demo_ctx_fits : ctx_fits demo_ctx.
Proof.
  split_and!; try done. intros r [= <-]. split; [|done]. intros s [= <-]. cbn. lia.
Qed.


Lemma in_list_is_or_chain_witness :
  eval demo_host demo_sess (EInList (EColumn "a") [EInt 4; ENull; EInt 3] false) demo_ctx = Ok (Int 1) ∧
  eval demo_host demo_sess (EInList (EColumn "a") [EInt 4; ENull; EInt 3] true) demo_ctx = Ok (Int 0).
Proof.
  pose proof (in_list_is_or_chain demo_host demo_sess (EColumn "a") (EInt 4) [ENull; EInt 3] demo_ctx
                (Int 3) (Int 4) [Null; Int 3] eq_refl eq_refl eq_refl) as [-> ->].
  split; vm_compute; reflexivity.
Defined.

Lemma sum_exact_witness : agg_fold Sum [Int (2 ^ 63 - 1); Int 1; Int (-5)] = Int (2 ^ 63 - 5).
Proof.
  refine (sum_exact [Int (2 ^ 63 - 1); Int 1; Int (-5)] eq_refl _ _); [done|]. unfold is_i64. cbn. lia.
Defined.

(** ** Findings *)

(** The smallest integer divided by minus one stops the engine's thread, and so does its remainder. *)
Theorem division_overflow_panics :
  eval demo_host demo_sess (EBinary OpDiv (EInt (- 2 ^ 63)) (EInt (-1))) (ctx_root []) = panic ∧
  eval demo_host demo_sess (EBinary OpMod (EInt (- 2 ^ 63)) (EInt (-1))) (ctx_root []) = panic.
Proof. split; vm_compute; reflexivity. Qed.

(** [mod] tests its divisor as a float and divides as integers: a divisor between -1 and 1 panics. *)
Theorem mod_function_panics :
  eval demo_host demo_sess (EFunc "mod" [EInt 5; EBinary OpDiv (EInt 1) (ECast (EInt 2) ToReal)]) (ctx_root []) = panic.
Proof. vm_compute. reflexivity. Qed.

(** [repeat] multiplies the length of its text with its count: past what a [Vec] may hold it panics. *)
Theorem repeat_function_panics :
  eval demo_host demo_sess (EFunc "repeat" [EStr "ab"; EInt (2 ^ 62)]) (ctx_root []) = panic.
Proof. vm_compute. reflexivity. Qed.

(** The sum of two integers as an operator turns to a float where it overflows; as an aggregate it
    wraps to a negative integer. *)
Theorem sum_aggregate_wraps :
  agg_fold Sum [Int (2 ^ 63 - 1); Int 1] = Int (- 2 ^ 63) ∧
  arith OpAdd (Int (2 ^ 63 - 1)) (Int 1) = Ok (Real (f_of_Z F64 (2 ^ 63))).
Proof. split; vm_compute; reflexivity. Qed.

End ExprRuns.
