(* ===== verification/ParserDemo.v ===== *)
(** * Witnesses and findings of the lexer and the parser *)

From S2P Require Import Prelude Text Numbers Float Chars EngineTypes Values Json Session Funcs Like Ast Expr ExprSpec.
From S2P Require Import Lex Parser Statements ParserSpec CaptureSpec.
Import Statement.
Import ExprRuns.

Module ParserRuns.

(** [CREATE POLICY own ON notes USING (owner = auth.uid() AND n IN (1, 2.5))], the cursor after [USING (]. *)
Definition policy_sql : string := "create policy own on notes using (owner = auth.uid() and n in (1, 2.5))".
Definition policy_toks : list Tok := match lex policy_sql with Ok ts => ts | Err _ => [] end.
Definition at_using : PState := set_pos 7 (set_src policy_sql (parser_new policy_toks)).
Definition after_using : PState := set_pos 22 at_using.
Definition using_text : string := "owner = auth.uid() and n in(1, 2.5)".

Lemma captured_expression_reparses_witness :
  capture_expr_sql (calls 24) at_using = Ok (using_text, after_using) ∧
  ∃ e, c_expr (calls 24) at_using = Ok (e, after_using) ∧ parse_expr using_text = Ok e.
Proof.
  assert (capture_expr_sql (calls 24) at_using = Ok (using_text, after_using)) as E by (vm_compute; reflexivity).
  split; [exact E|].
  apply (captured_expression_reparses 24 at_using using_text after_using); [|exact E|vm_compute; reflexivity..].
  split; vm_compute; [|reflexivity]. repeat constructor.
Defined.

Example policy_parses : parse policy_sql =
  Ok (CreatePolicy (mkPolicyDef "own" "notes" PAll [] (Some using_text) None), 0).
Proof. vm_compute. reflexivity. Qed.

(** ** Findings *)

(** The check a statement leaves in the catalog. *)
Definition stored_checks (sql : string) : option (list string) :=
  match parse sql with Ok (CreateTable d, _) => Some (td_checks d) | _ => None end.

Definition price_table : TableSchema :=
  mkSchema "t" [mkColumn "p" CInteger false false false false None] [] [] [] false [].
Definition check_value (sql : string) (p : Z) : option Value :=
  match parse_expr sql with
  | Ok e => match eval demo_host demo_sess e (ctx_row [Int p] price_table []) with Ok v => Some v | Err _ => None end
  | Err _ => None
  end.

(** A real without a fraction is rendered as an integer, so the division of a stored CHECK becomes an integer
    division: [p / 2.0 > 1] holds of 3, the stored text does not. *)
Theorem stored_check_loses_real :
  stored_checks "create table t (p int check (p / 2.0 > 1))" = Some ["p / 2 > 1"%string] ∧
  check_value "p / 2.0 > 1" 3 = Some (Int 1) ∧ check_value "p / 2 > 1" 3 = Some (Int 0).
Proof. split_and!; vm_compute; reflexivity. Qed.

(** A quoted identifier is stored without its quotes, and the stored CHECK no longer parses. *)
Theorem stored_check_loses_quotes :
  stored_checks "create table t (`unit price` int check (`unit price` > 0))" = Some ["unit price > 0"%string] ∧
  parse_expr "unit price > 0" = Err ErrSql.
Proof. split; vm_compute; reflexivity. Qed.

(** A string literal is read byte by byte, each byte taken for a code point: two bytes of UTF-8 become two
    characters. *)
Definition e_acute : string := of_chars [0xE9].
Theorem string_literal_not_utf8 :
  lex ("'" +:+ e_acute +:+ "'") = Ok [Tok.Str (of_chars [0xC3; 0xA9]); Tok.Eof] ∧
  of_chars [0xC3; 0xA9] ≠ e_acute.
Proof. split; [vm_compute; reflexivity|]. intros H. vm_compute in H. discriminate H. Qed.

(** RETURNING after USING or FROM is taken for the alias of the last source. *)
Theorem returning_after_using_fails :
  parse "delete from t using u returning id" = Err ErrSql ∧
  parse "insert into t select a from u returning id" = Err ErrSql ∧
  is_ok (parse "delete from t using u where true returning id") = true.
Proof. split_and!; vm_compute; reflexivity. Qed.

(** The dimension of a vector column is cut to 32 bits after the test that it is positive. *)
Theorem vector_dimension_wraps :
  (match parse "create table t (v vector(4294967296))" with
   | Ok (CreateTable d, _) => cs_ty <$> td_columns d
   | _ => []
   end) = [CVector 0].
Proof. vm_compute. reflexivity. Qed.

(** PUBLIC among other roles is dropped, which leaves the policy to the others. *)
Theorem public_role_narrows :
  (match parse "create policy p on t to public, bob using (true)" with
   | Ok (CreatePolicy d, _) => Some (pd_roles d)
   | _ => None
   end) = Some ["bob"%string].
Proof. vm_compute. reflexivity. Qed.

(** A quoted identifier that spells a keyword is the keyword. *)
Theorem quoted_keyword : parse_expr "`null`" = Ok ENull ∧ parse_expr "`order`" = Ok (EColumn "order").
Proof. split; vm_compute; reflexivity. Qed.
End ParserRuns.
