(* ===== verification/Rls.v ===== *)
(** * Row-level security (crates/engine/src/exec.rs, [rls_read], [rls_write] and their uses)

    Which policies of a table govern a command for a role, the decision they give once per
    statement, and its application to rows.  The text of a policy's predicate goes through the SQL
    parser, the argument [parse_expr]. *)

From S2P Require Import Prelude Text Numbers Float Chars EngineTypes Values Json Session Funcs Like Ast Expr.

Definition policy_applies (p : Policy) (cmd : PolicyCommand) (r : string) : bool :=
  (bool_decide (pol_command p = PAll) || bool_decide (pol_command p = cmd)) &&
  ((zlen (pol_roles p) =? 0) || existsb (λ x, eq_ignore_ascii_case x r) (pol_roles p)).

Inductive RlsRead := ReadUnrestricted | ReadFilter (preds : list Expr) | ReadDeny.
Inductive RlsWrite := WriteUnrestricted | WriteCheck (preds : list Expr) | WriteDeny.

Section Rls.
Variable parse_expr : string → Res Expr.
Variable host : Host.
Variable sess : SessionContext.

(** The loop over the policies: [None] once one admits every row, else the predicates of the
    applicable ones; [pred] is the predicate text of a policy. *)
Fixpoint collect_policies (pred : Policy → option string) (cmd : PolicyCommand) (r : string)
    (ps : list Policy) (applicable : bool) (preds : list Expr) : Res (option (bool * list Expr)) :=
  match ps with
  | [] => Ok (Some (applicable, preds))
  | p :: ps =>
      if policy_applies p cmd r then
        match pred p with
        | None => Ok None
        | Some sql => e ← parse_expr sql; collect_policies pred cmd r ps true (preds ++ [e])
        end
      else collect_policies pred cmd r ps applicable preds
  end.

Definition rls_read (sc : TableSchema) (cmd : PolicyCommand) : Res RlsRead :=
  if negb (rls_enabled sc) || s_bypass sess then Ok ReadUnrestricted
  else
    d ← collect_policies pol_using cmd (role sess) (policies sc) false [];
    Ok (match d with
        | None => ReadUnrestricted
        | Some (false, _) => ReadDeny
        | Some (true, []) => ReadUnrestricted
        | Some (true, preds) => ReadFilter preds
        end).

(** WITH CHECK, or USING where a policy has none. *)
Definition check_of (p : Policy) : option string :=
  match pol_check p with Some c => Some c | None => pol_using p end.

Definition rls_write (sc : TableSchema) (cmd : PolicyCommand) : Res RlsWrite :=
  if negb (rls_enabled sc) || s_bypass sess then Ok WriteUnrestricted
  else
    d ← collect_policies check_of cmd (role sess) (policies sc) false [];
    Ok (match d with
        | None => WriteUnrestricted
        | Some (false, _) => WriteDeny
        | Some (true, []) => WriteUnrestricted
        | Some (true, preds) => WriteCheck preds
        end).

(** Whether one of the predicates is true: the first that is ends the scan. *)
Fixpoint any_true (preds : list Expr) (cx : EvalCtx) : Res bool :=
  match preds with
  | [] => Ok false
  | p :: preds =>
      v ← eval host sess p cx;
      if bool_decide (as_bool v = Some true) then Ok true else any_true preds cx
  end.

(** [RlsRead::passes]. *)
Definition passes (d : RlsRead) (cx : EvalCtx) : Res bool :=
  match d with
  | ReadUnrestricted => Ok true
  | ReadDeny => Ok false
  | ReadFilter preds => any_true preds cx
  end.

Definition enforce_rls_write (d : RlsWrite) (sc : TableSchema) (vals : list Value) : Res unit :=
  ok ← match d with
       | WriteUnrestricted => Ok true
       | WriteDeny => Ok false
       | WriteCheck preds => any_true preds (ctx_row vals sc [])
       end;
  if ok : bool then Ok tt else Err (Failed ErrConstraint).

(** [if f(x)? { out.push(x) }]. *)
Fixpoint try_filter {A} (f : A → Res bool) (l : list A) : Res (list A) :=
  match l with
  | [] => Ok []
  | x :: l => b ← f x; ys ← try_filter f l; Ok (if b : bool then x :: ys else ys)
  end.

Definition rls_filter_returning (sc : TableSchema) (rows : list (list Value)) : Res (list (list Value)) :=
  d ← rls_read sc PSelect;
  match d with
  | ReadUnrestricted => Ok rows
  | _ => try_filter (λ r, passes d (ctx_row r sc [])) rows
  end.

(** ** What the policies say *)

(** Policy [p] grants the row of [cx]: its predicate is absent or true there. *)
Definition grants (pred : Policy → option string) (p : Policy) (cx : EvalCtx) : Prop :=
  match pred p with
  | None => True
  | Some sql => ∃ e v, parse_expr sql = Ok e ∧ eval host sess e cx = Ok v ∧ as_bool v = Some true
  end.

(** The row is allowed: security is off for it, or an applicable policy grants it. *)
Definition allowed (pred : Policy → option string) (sc : TableSchema) (cmd : PolicyCommand) (cx : EvalCtx) : Prop :=
  rls_enabled sc = false ∨ s_bypass sess = true ∨
  ∃ p, p ∈ policies sc ∧ policy_applies p cmd (role sess) = true ∧ grants pred p cx.

Lemma any_true_spec preds cx b : any_true preds cx = Ok b →
  b = true ↔ ∃ e v, e ∈ preds ∧ eval host sess e cx = Ok v ∧ as_bool v = Some true.
Proof.
  revert b. induction preds as [|e preds IH]; intros b; cbn.
  - intros [= <-]. split; [done|]. intros (? & ? & H & _). by apply not_elem_of_nil in H.
  - destruct (eval host sess e cx) as [v|] eqn:Ev; [|done]. cbn. case_bool_decide as Hb.
    + intros [= <-]. split; [|done]. intros _. exists e, v. split_and!; [left|done..].
    + intros H. rewrite (IH b H). split.
      * intros (e' & v' & Hin & He). exists e', v'. split; [by right|done].
      * intros (e' & v' & Hin & He & Ht). apply elem_of_cons in Hin as [->|Hin]; [congruence|]. by exists e', v'.
Qed.

Lemma collect_spec pred cmd r ps app preds d : collect_policies pred cmd r ps app preds = Ok d →
  match d with
  | None => ∃ p, p ∈ ps ∧ policy_applies p cmd r = true ∧ pred p = None
  | Some (app', preds') =>
      (app' = true ↔ app = true ∨ ∃ p, p ∈ ps ∧ policy_applies p cmd r = true) ∧
      (∀ p, p ∈ ps → policy_applies p cmd r = true → ∃ sql e, pred p = Some sql ∧ parse_expr sql = Ok e) ∧
      (∀ e, e ∈ preds' ↔ e ∈ preds ∨
        ∃ p sql, p ∈ ps ∧ policy_applies p cmd r = true ∧ pred p = Some sql ∧ parse_expr sql = Ok e)
  end.
Proof.
  revert app preds. induction ps as [|p ps IH]; intros app preds; cbn.
  - intros [= <-]. set_solver.
  - destruct (policy_applies p cmd r) eqn:Ha.
    + destruct (pred p) as [sql|] eqn:Ep; [|intros [= <-]; exists p; split_and!; [left|done..]].
      destruct (parse_expr sql) as [e|] eqn:Eq; [|done]. cbn. intros H%IH. destruct d as [[app' preds']|].
      * destruct H as (H1 & H2 & H3). split_and!.
        -- rewrite H1. split; [|auto]. intros _. right. exists p. split; [left|done].
        -- intros q [->|Hq]%elem_of_cons Hqa; [by exists sql, e|by apply H2].
        -- intros x. rewrite H3, elem_of_app, list_elem_of_singleton. split.
           ++ intros [[?| ->]|(q & s & Hq & ?)]; [by left| |].
              ** right. exists p, sql. split_and!; [left|done..].
              ** right. exists q, s. split; [by right|done].
           ++ intros [?|(q & s & Hq & Hqa & Hs & Hx)]; [auto|]. apply elem_of_cons in Hq as [->|Hq].
              ** left. right. congruence.
              ** right. by exists q, s.
      * destruct H as (q & Hq & ?). exists q. split; [by right|done].
    + intros H%IH. destruct d as [[app' preds']|].
      * destruct H as (H1 & H2 & H3). split_and!.
        -- rewrite H1. split; (intros [?|(q & Hq & Hqa)]; [by left|]).
           ++ right. exists q. split; [by right|done].
           ++ apply elem_of_cons in Hq as [->|Hq]; [congruence|]. right. by exists q.
        -- intros q [->|Hq]%elem_of_cons Hqa; [congruence|by apply H2].
        -- intros x. rewrite H3. split; (intros [?|(q & s & Hq & Hqa & ?)]; [by left|]).
           ++ right. exists q, s. split; [by right|done].
           ++ apply elem_of_cons in Hq as [->|Hq]; [congruence|]. right. by exists q, s.
      * destruct H as (q & Hq & ?). exists q. split; [by right|done].
Qed.

(** The decision a collected set of policies gives on a row. *)
Lemma decision_spec pred sc cmd d cx b :
  rls_enabled sc = true → s_bypass sess = false →
  collect_policies pred cmd (role sess) (policies sc) false [] = Ok d →
  match d with
  | None => Ok true
  | Some (false, _) => Ok false
  | Some (true, []) => Ok true
  | Some (true, preds) => any_true preds cx
  end = Ok b →
  b = true ↔ allowed pred sc cmd cx.
Proof.
  intros Hen Hby Hc%collect_spec Hb. unfold allowed. rewrite Hen, Hby.
  assert (∀ P : Prop, (true = false ∨ false = true ∨ P) ↔ P) as Hor by (intros; naive_solver).
  rewrite Hor. destruct d as [[app preds]|].
  - destruct Hc as (H1 & H2 & H3).
    assert (Hany : (∃ p, p ∈ policies sc ∧ policy_applies p cmd (role sess) = true ∧ grants pred p cx) ↔
      ∃ e v, e ∈ preds ∧ eval host sess e cx = Ok v ∧ as_bool v = Some true).
    { split.
      - intros (p & Hp & Ha & Hg). destruct (H2 p Hp Ha) as (sql & e & Hs & He). unfold grants in Hg.
        rewrite Hs in Hg. destruct Hg as (e' & v & He' & Hv). exists e', v. split; [|done].
        apply H3. right. by exists p, sql.
      - intros (e & v & He & Hv). apply H3 in He as [He|(p & sql & Hp & Ha & Hs & He)].
        { by apply not_elem_of_nil in He. }
        exists p. split_and!; [done..|]. unfold grants. rewrite Hs. by exists e, v. }
    rewrite Hany. destruct app.
    + destruct preds as [|e preds]; [|by apply any_true_spec].
      destruct (proj1 H1 eq_refl) as [|(p & Hp & Ha)]; [done|]. destruct (H2 p Hp Ha) as (sql & e & Hs & He).
      assert (e ∈ []) as Hin by (apply H3; right; by exists p, sql). by apply not_elem_of_nil in Hin.
    + injection Hb as <-. split; [done|]. intros H. apply Hany in H as (p & Hp & Ha & _).
      assert (false = true) by (apply H1; right; by exists p). done.
  - injection Hb as <-. destruct Hc as (p & Hp & Ha & Hn). split; [|done]. intros _. exists p.
    split_and!; [done..|]. unfold grants. by rewrite Hn.
Qed.

End Rls.
