(* ===== verification/SortBy.v ===== *)
(** * [slice::sort_by] with a comparator that can fail

    A stable sort.  The comparator of the executor records the first evaluation error and the
    statement returns it: a comparison is a result, and the sort stops at the first failure.  The
    algorithm is the insertion sort the standard library runs on short slices; on a consistent
    order every stable sort gives the same list, which the lemmas below show to be the sorted
    stable permutation. *)

From S2P Require Import Prelude.

Section Sort.
Context {E A : Type}.
Variable cmp : A → A → Result E comparison.

(** Insert [x] into a sorted prefix, kept last element first: it moves left past what is greater. *)
Fixpoint insert_tail (x : A) (rev_sorted : list A) : Result E (list A) :=
  match rev_sorted with
  | [] => Ok [x]
  | y :: ys => c ← cmp x y;
               match c with Lt => zs ← insert_tail x ys; Ok (y :: zs) | _ => Ok (x :: y :: ys) end
  end.

Fixpoint sort_go (rev_sorted l : list A) : Result E (list A) :=
  match l with
  | [] => Ok (rev rev_sorted)
  | x :: l => s ← insert_tail x rev_sorted; sort_go s l
  end.

Definition sort_by (l : list A) : Result E (list A) := sort_go [] l.

(** ** Sorting along a total preorder *)

(** On the elements of [D] the comparator is [c], a total preorder. *)
Record consistent (D : A → Prop) (c : A → A → comparison) : Prop := {
  cons_ok x y : D x → D y → cmp x y = Ok (c x y);
  cons_flip x y : D x → D y → c y x = CompOpp (c x y);
  cons_trans x y z : D x → D y → D z → c x y ≠ Gt → c y z ≠ Gt → c x z ≠ Gt
}.

Context (D : A → Prop) (c : A → A → comparison) (HC : consistent D c).

Definition le_by (x y : A) : Prop := c x y ≠ Gt.

Lemma insert_tail_spec x l : D x → Forall D l → StronglySorted (flip le_by) l →
  ∃ l', insert_tail x l = Ok l' ∧ l' ≡ₚ x :: l ∧ StronglySorted (flip le_by) l' ∧
    ∀ k, D k → List.filter (λ y, bool_decide (c k y = Eq)) l'
               = List.filter (λ y, bool_decide (c k y = Eq)) (x :: l).
Proof.
  intros Hx Hl Hs. induction Hs as [|y l Hs IH Hy]; cbn [insert_tail].
  { exists [x]. split_and!; try done. by repeat constructor. }
  apply Forall_cons in Hl as [Dy Hl]. rewrite (cons_ok _ _ HC x y) by done. cbn.
  assert (StronglySorted (flip le_by) (y :: l)) as Hyl by (by constructor).
  destruct (c x y) eqn:Exy.
  - exists (x :: y :: l). split_and!; try done. constructor; [done|]. constructor.
    + unfold flip, le_by. rewrite (cons_flip _ _ HC x y) by done. by rewrite Exy.
    + rewrite Forall_forall in Hl, Hy |- *. intros z Hz. specialize (Hy z Hz). unfold flip, le_by in *.
      apply (cons_trans _ _ HC z y x); auto. rewrite (cons_flip _ _ HC x y) by done. by rewrite Exy.
  - destruct (IH Hl) as (l' & -> & Hp & Hs' & Hf). cbn. exists (y :: l'). split_and!; [done| | |].
    + rewrite Hp. apply Permutation_swap.
    + constructor; [done|]. rewrite Hp. constructor; [|done]. unfold flip, le_by. by rewrite Exy.
    + intros k Hk. cbn [List.filter]. rewrite Hf by done. cbn [List.filter].
      case_bool_decide as E1; [|by case_bool_decide]. case_bool_decide as E2; [|done].
      (* both equal to [k] would make them equal to each other *)
      exfalso. assert (c y k ≠ Gt) as H1 by (rewrite (cons_flip _ _ HC k y), E1; done).
      assert (c k x ≠ Gt) as H2 by (by rewrite E2). pose proof (cons_trans _ _ HC y k x Dy Hk Hx H1 H2) as H3.
      rewrite (cons_flip _ _ HC x y), Exy in H3 by done. by destruct H3.
  - exists (x :: y :: l). split_and!; try done. constructor; [done|]. constructor.
    + unfold flip, le_by. rewrite (cons_flip _ _ HC x y) by done. by rewrite Exy.
    + rewrite Forall_forall in Hl, Hy |- *. intros z Hz. specialize (Hy z Hz). unfold flip, le_by in *.
      apply (cons_trans _ _ HC z y x); auto. rewrite (cons_flip _ _ HC x y) by done. by rewrite Exy.
Qed.

Lemma sorted_rev (R : A → A → Prop) l : StronglySorted (flip R) l → StronglySorted R (rev l).
Proof.
  intros H. induction H as [|x l H IH Hx]; cbn; [constructor|].
  apply StronglySorted_app_2; [|done|by repeat constructor].
  intros y z Hy Hz. apply list_elem_of_singleton in Hz as ->. rewrite list_elem_of_In, <- in_rev in Hy.
  rewrite Forall_forall in Hx. apply Hx. by apply list_elem_of_In.
Qed.

Lemma filter_rev' (p : A → bool) l : List.filter p (rev l) = rev (List.filter p l).
Proof.
  induction l as [|x l IH]; cbn; [done|]. rewrite List.filter_app, IH. cbn. destruct (p x); [done|].
  by rewrite app_nil_r.
Qed.

Lemma sort_go_spec acc l : Forall D acc → Forall D l → StronglySorted (flip le_by) acc →
  ∃ l', sort_go acc l = Ok l' ∧ l' ≡ₚ rev acc ++ l ∧ StronglySorted le_by l' ∧
    ∀ k, D k → List.filter (λ y, bool_decide (c k y = Eq)) l'
               = List.filter (λ y, bool_decide (c k y = Eq)) (rev acc ++ l).
Proof.
  revert acc. induction l as [|x l IH]; intros acc Ha Hl Hs; cbn [sort_go].
  - exists (rev acc). rewrite app_nil_r. split_and!; try done. by apply sorted_rev.
  - apply Forall_cons in Hl as [Hx Hl]. destruct (insert_tail_spec x acc Hx Ha Hs) as (acc' & -> & Hp & Hs' & Hf).
    cbn. destruct (IH acc') as (l' & -> & Hp' & Hs'' & Hf'); [rewrite Hp; by constructor|done..|].
    exists l'. split_and!; [done| |done|].
    + rewrite Hp', <- !Permutation_rev, Hp. solve_Permutation.
    + intros k Hk. rewrite Hf' by done. rewrite !List.filter_app. change (x :: l) with ([x] ++ l).
      rewrite List.filter_app, app_assoc. f_equal. rewrite !filter_rev', Hf by done. cbn [List.filter].
      case_bool_decide; cbn; [done|]. by rewrite app_nil_r.
Qed.

(** The sort succeeds with a sorted permutation that keeps the order of equal elements. *)
Lemma sort_by_spec l : Forall D l →
  ∃ l', sort_by l = Ok l' ∧ l' ≡ₚ l ∧ StronglySorted le_by l' ∧
    ∀ k, D k → List.filter (λ y, bool_decide (c k y = Eq)) l' = List.filter (λ y, bool_decide (c k y = Eq)) l.
Proof. intros Hl. by apply (sort_go_spec [] l); [constructor| |constructor]. Qed.

End Sort.

(** Whatever the comparator answers, a result is a permutation. *)
Lemma insert_tail_perm {E A} (cmp : A → A → Result E comparison) x l l' :
  insert_tail cmp x l = Ok l' → l' ≡ₚ x :: l.
Proof.
  revert l'. induction l as [|y l IH]; intros l'; cbn; [by intros [= <-]|].
  destruct (cmp x y) as [[]|]; cbn; try done; [by intros [= <-]| |by intros [= <-]].
  destruct (insert_tail cmp x l) as [zs|]; [|done]. intros [= <-]. rewrite (IH zs) by done. apply Permutation_swap.
Qed.

Lemma sort_by_perm {E A} (cmp : A → A → Result E comparison) l l' : sort_by cmp l = Ok l' → l' ≡ₚ l.
Proof.
  unfold sort_by. assert (∀ acc, sort_go cmp acc l = Ok l' → l' ≡ₚ acc ++ l) as H.
  { induction l as [|x l IH]; intros acc; cbn.
    - intros [= <-]. rewrite app_nil_r. symmetry. apply Permutation_rev.
    - destruct (insert_tail cmp x acc) as [acc'|] eqn:Ei; [|done]. cbn. intros H%IH.
      apply insert_tail_perm in Ei. rewrite H, Ei. solve_Permutation. }
  apply H.
Qed.
