(* ===== verification/Controller.v ===== *)
(** * The scale-to-zero controller (crates/controller/src/lib.rs)

    One instance per database URL moves through [Cold], [Warming], [Active], [Idle] and back; a
    background reaper heartbeats warm instances and tears idle ones down; a semaphore bounds how many
    databases warm at once.  Each definition of the first part is one critical section of the code
    (a locked block, or an atomic update), a function of the controller's state and of the clock.
    The second part is the system they make up: any number of calls of [start] in progress, leases
    held by callers, and the reaper in the middle of a pass, interleaved in any order.

    A critical section also says what it does to the condition variable of the lock it holds:
    [notify_all], [notify_one] or nothing.  Who waits, and who is woken, is the system's business.

    Times are microseconds.  A warm [Database] is the number of the [open] that made it; opening and
    renewing a lease may fail at any time, so their results are inputs of the steps. *)

From S2P Require Import Prelude Text EngineTypes.

Inductive LifecycleState := Cold | Warming | Active | Idle | Stopping.

#[global] Instance LifecycleState_eq_dec : EqDecision LifecycleState.
Proof. solve_decision. Defined.

Record ControllerConfig := mkConfig {
  idle_timeout : Z;
  reap_interval : Z;
  max_concurrent_warms : Z;
  keep_warm : bool
}.

Definition ControllerConfig_default : ControllerConfig := mkConfig 30000000 1000000 16 false.

Record InstState := mkInst {
  phase : LifecycleState;
  handle : option Z;
  active : Z;
  last_activity : Z;
  phase_since : Z
}.

(** The atomic counters of [ControllerInner]. *)
Record Counters := mkCounters {
  warm_count : Z;
  cur_warms : Z;
  peak_warms : Z;
  warm_starts : Z;
  scale_to_zero : Z;
  compute_active_us : Z;
  compute_idle_us : Z;
  admission_wait_us : Z;
  lease_renews : Z
}.
Definition counters_zero : Counters := mkCounters 0 0 0 0 0 0 0 0 0.

Record ControllerInner := mkController {
  cfg : ControllerConfig;
  instances : gmap string InstState;
  permits : Z;
  counters : Counters;
  stop_flag : bool
}.

(** [fetch_add] on an [AtomicU64] wraps. *)
Definition add64 (a b : Z) : Z := (a + b) mod 2 ^ 64.

Definition add_warm (k : Counters) : Counters :=
  mkCounters (add64 (warm_count k) 1) (cur_warms k) (peak_warms k) (warm_starts k) (scale_to_zero k)
    (compute_active_us k) (compute_idle_us k) (admission_wait_us k) (lease_renews k).
Definition set_cur (n : Z) (k : Counters) : Counters :=
  mkCounters (warm_count k) n (peak_warms k) (warm_starts k) (scale_to_zero k)
    (compute_active_us k) (compute_idle_us k) (admission_wait_us k) (lease_renews k).
Definition raise_peak (n : Z) (k : Counters) : Counters :=
  mkCounters (warm_count k) (cur_warms k) (Z.max (peak_warms k) n) (warm_starts k) (scale_to_zero k)
    (compute_active_us k) (compute_idle_us k) (admission_wait_us k) (lease_renews k).
Definition add_warm_start (k : Counters) : Counters :=
  mkCounters (warm_count k) (cur_warms k) (peak_warms k) (add64 (warm_starts k) 1) (scale_to_zero k)
    (compute_active_us k) (compute_idle_us k) (admission_wait_us k) (lease_renews k).
Definition add_scale_to_zero (k : Counters) : Counters :=
  mkCounters (warm_count k) (cur_warms k) (peak_warms k) (warm_starts k) (add64 (scale_to_zero k) 1)
    (compute_active_us k) (compute_idle_us k) (admission_wait_us k) (lease_renews k).
Definition add_active_us (n : Z) (k : Counters) : Counters :=
  mkCounters (warm_count k) (cur_warms k) (peak_warms k) (warm_starts k) (scale_to_zero k)
    (add64 (compute_active_us k) n) (compute_idle_us k) (admission_wait_us k) (lease_renews k).
Definition add_idle_us (n : Z) (k : Counters) : Counters :=
  mkCounters (warm_count k) (cur_warms k) (peak_warms k) (warm_starts k) (scale_to_zero k)
    (compute_active_us k) (add64 (compute_idle_us k) n) (admission_wait_us k) (lease_renews k).
Definition add_wait_us (n : Z) (k : Counters) : Counters :=
  mkCounters (warm_count k) (cur_warms k) (peak_warms k) (warm_starts k) (scale_to_zero k)
    (compute_active_us k) (compute_idle_us k) (add64 (admission_wait_us k) n) (lease_renews k).
Definition add_renew (k : Counters) : Counters :=
  mkCounters (warm_count k) (cur_warms k) (peak_warms k) (warm_starts k) (scale_to_zero k)
    (compute_active_us k) (compute_idle_us k) (admission_wait_us k) (add64 (lease_renews k) 1).

Definition count_with (f : Counters → Counters) (c : ControllerInner) : ControllerInner :=
  mkController (cfg c) (instances c) (permits c) (f (counters c)) (stop_flag c).
Definition set_inst (url : string) (s : InstState) (c : ControllerInner) : ControllerInner :=
  mkController (cfg c) (<[url := s]> (instances c)) (permits c) (counters c) (stop_flag c).
Definition set_permits (n : Z) (c : ControllerInner) : ControllerInner :=
  mkController (cfg c) (instances c) n (counters c) (stop_flag c).

(** What a locked block does to the condition variable of its lock before it unlocks. *)
Inductive Notify := Silent | NotifyOne | NotifyAll.

(** ** Building *)

Definition Controller_new (c : ControllerConfig) : Result EngineStatus ControllerInner :=
  if max_concurrent_warms c =? 0 then Err ErrMisuse
  else if (reap_interval c =? 0) || (idle_timeout c =? 0) then Err ErrMisuse
  else Ok (mkController c ∅ (max_concurrent_warms c) counters_zero false).

Definition get_or_create (now : Z) (url : string) (c : ControllerInner) : ControllerInner :=
  match instances c !! url with
  | Some _ => c
  | None => set_inst url (mkInst Cold None 0 now now) c
  end.

(** ** Phases *)

(** [Instant::elapsed] in microseconds, cut to 64 bits. *)
Definition elapsed_us (now since : Z) : Z := Z.max 0 (now - since) mod 2 ^ 64.

(** [enter_phase]: the new instance state, and what the phase that is left adds to the totals. *)
Definition accrue (now : Z) (s : InstState) (k : Counters) : Counters :=
  match phase s with
  | Active => add_active_us (elapsed_us now (phase_since s)) k
  | Idle => add_idle_us (elapsed_us now (phase_since s)) k
  | _ => k
  end.
Definition in_phase (now : Z) (new : LifecycleState) (s : InstState) : InstState :=
  mkInst new (handle s) (active s) (last_activity s) now.
Definition enter_phase (now : Z) (new : LifecycleState) (sk : InstState * Counters) : InstState * Counters :=
  (in_phase now new sk.1, accrue now sk.1 sk.2).

Definition with_handle (h : option Z) (s : InstState) : InstState :=
  mkInst (phase s) h (active s) (last_activity s) (phase_since s).
Definition with_active (n : Z) (s : InstState) : InstState :=
  mkInst (phase s) (handle s) n (last_activity s) (phase_since s).
Definition touch (now : Z) (s : InstState) : InstState :=
  mkInst (phase s) (handle s) (active s) now (phase_since s).

(** Puts back the state of an instance and the counters after a locked block. *)
Definition put_back (url : string) (sk : InstState * Counters) (c : ControllerInner) : ControllerInner :=
  count_with (λ _, sk.2) (set_inst url sk.1 c).

(** ** [start] *)

Inductive Turn := TurnLease (db : Z) | TurnWarm | TurnWait | TurnPanic.

(** One turn of the loop of [start], up to the unlock; [get_or_create] came before. *)
Definition start_turn (now : Z) (url : string) (c : ControllerInner) : ControllerInner * Turn :=
  match instances c !! url with
  | None => (c, TurnPanic)
  | Some s =>
      match phase s with
      | Active | Idle =>
          let '(s, k) := enter_phase now Active (s, counters c) in
          let s := touch now (with_active (active s + 1) s) in
          match handle s with
          | Some db => (put_back url (s, add_warm_start k) c, TurnLease db)
          | None => (put_back url (s, k) c, TurnPanic)
          end
      | Cold => (put_back url (enter_phase now Warming (s, counters c)) c, TurnWarm)
      | Warming | Stopping => (c, TurnWait)
      end
  end.

(** [warm]: the semaphore, the gauges, the open, and the way back. *)
(** [acquire], once around its loop: [None] is the wait on the semaphore's condition variable. *)
Definition sem_acquire (c : ControllerInner) : option ControllerInner :=
  if permits c =? 0 then None else Some (set_permits (permits c - 1) c).
Definition warm_enter (now wait0 : Z) (c : ControllerInner) : ControllerInner :=
  let k := add_wait_us (elapsed_us now wait0) (counters c) in
  let cur := cur_warms k + 1 in
  count_with (λ _, raise_peak cur (set_cur cur k)) c.
Definition warm_leave (c : ControllerInner) : ControllerInner :=
  count_with (λ k, set_cur (cur_warms k - 1) k) c.
Definition sem_release (res : option Z) (c : ControllerInner) : ControllerInner * Notify :=
  let c := set_permits (permits c + 1) c in
  (match res with Some _ => count_with add_warm c | None => c end, NotifyOne).

(** The locked block after the warm: a lease, or back to [Cold]. *)
Definition start_settle (now : Z) (url : string) (res : option Z) (c : ControllerInner) : ControllerInner * Notify :=
  match instances c !! url with
  | None => (c, Silent)
  | Some s =>
      match res with
      | Some db =>
          let '(s, k) := enter_phase now Active (s, counters c) in
          (put_back url (touch now (with_active (active s + 1) (with_handle (Some db) s)), k) c, NotifyAll)
      | None => (put_back url (enter_phase now Cold (s, counters c)) c, NotifyAll)
      end
  end.

(** ** Leases, [stop], [status] *)

Definition lease_drop (now : Z) (url : string) (c : ControllerInner) : ControllerInner * Notify :=
  match instances c !! url with
  | Some s => (set_inst url (touch now (with_active (saturating_sub (active s) 1) s)) c, NotifyAll)
  | None => (c, Silent)
  end.

Definition stop (now : Z) (url : string) (c : ControllerInner) : ControllerInner * Notify :=
  match instances c !! url with
  | None => (c, Silent)
  | Some s =>
      if active s =? 0 then
        let k := match handle s with Some _ => add_scale_to_zero (counters c) | None => counters c end in
        let '(s, k) := enter_phase now Cold (with_handle None s, k) in
        (put_back url (touch now s, k) c, NotifyAll)
      else (c, Silent)
  end.

Definition status (url : string) (c : ControllerInner) : option LifecycleState := phase <$> instances c !! url.

(** ** The reaper *)

(** The first locked block: what to heartbeat, if anything is open. *)
Definition reap_read (url : string) (c : ControllerInner) : option (LifecycleState * Z) :=
  s ← instances c !! url; db ← handle s; Some (phase s, db).

Definition is_warm (p : LifecycleState) : bool := match p with Active | Idle => true | _ => false end.

(** The heartbeat: [renewed] is the answer of [renew_lease]. *)
Definition reap_heartbeat (p : LifecycleState) (renewed : bool) (c : ControllerInner) : ControllerInner * bool :=
  if is_warm p then if renewed then (count_with add_renew c, false) else (c, true) else (c, false).

(** The second locked block. *)
Definition reap_settle (now : Z) (url : string) (fenced : bool) (c : ControllerInner) : ControllerInner * Notify :=
  match instances c !! url with
  | None => (c, Silent)
  | Some s =>
      if fenced then
        let '(s, k) := enter_phase now Cold (with_handle None s, counters c) in
        (put_back url (touch now s, k) c, NotifyAll)
      else if active s =? 0 then
        let sk := if bool_decide (phase s = Active) then enter_phase now Idle (s, counters c) else (s, counters c) in
        let idle_for := Z.max 0 (now - last_activity sk.1) in
        if bool_decide (phase sk.1 = Idle) && (idle_timeout (cfg c) <=? idle_for) && negb (keep_warm (cfg c)) then
          let '(s, k) := enter_phase now Stopping sk in
          let '(s, k) := enter_phase now Cold (with_handle None s, k) in
          (put_back url (touch now s, add_scale_to_zero k) c, NotifyAll)
        else (put_back url sk c, Silent)
      else if bool_decide (phase s = Idle) then (put_back url (enter_phase now Active (s, counters c)) c, Silent)
      else (c, Silent)
  end.

(** One instance of a pass that nothing interrupts, and the pass over the listed instances. *)
Definition reap_instance (renew : Z → bool) (now : Z) (c : ControllerInner) (url : string) : ControllerInner :=
  match reap_read url c with
  | None => c
  | Some (p, db) => let '(c, fenced) := reap_heartbeat p (renew db) c in (reap_settle now url fenced c).1
  end.

Definition reap_once (renew : Z → bool) (now : Z) (c : ControllerInner) : ControllerInner :=
  foldl (reap_instance renew now) c (map_to_list (instances c)).*1.

(** A turn of [run_reaper] after its timed wait: it ends when the controller is being dropped. *)
Definition reaper_turn (renew : Z → bool) (now : Z) (c : ControllerInner) : option ControllerInner :=
  if stop_flag c then None else Some (reap_once renew now c).

(** [Drop for Controller], around the join of the reaper: the handles go with the instances. *)
Definition controller_drop (c : ControllerInner) : ControllerInner :=
  mkController (cfg c) ∅ (permits c) (counters c) true.

(** ** Observability *)

Record ControllerStats := mkControllerStats {
  cs_cold_starts : Z;
  cs_warm_starts : Z;
  cs_scale_to_zero_events : Z;
  cs_peak_workers : Z;
  cs_warm_instances : Z;
  cs_compute_active_us : Z;
  cs_compute_idle_us : Z;
  cs_admission_wait_us : Z;
  cs_lease_renew_total : Z
}.

Definition stats_add (now : Z) (acc : Z * Z * Z) (s : InstState) : Z * Z * Z :=
  let '(warm, act, idl) := acc in
  let live := elapsed_us now (phase_since s) in
  match phase s with
  | Active => (warm + 1, act + live, idl)
  | Idle => (warm + 1, act, idl + live)
  | _ => (warm, act, idl)
  end.

Definition stats (now : Z) (c : ControllerInner) : ControllerStats :=
  let k := counters c in
  let '(warm, act, idl) :=
    foldl (stats_add now) (0, compute_active_us k, compute_idle_us k) (map_to_list (instances c)).*2 in
  mkControllerStats (warm_count k) (warm_starts k) (scale_to_zero k) (peak_warms k) warm act idl
    (admission_wait_us k) (lease_renews k).
