(* ===== verification/ControllerSys.v ===== *)
(** * The controller as a concurrent system

    Calls of [start] at every point between their critical sections, asleep on an instance's or on
    the semaphore's condition variable included, the leases callers hold, and the reaper in the
    middle of a pass.  A sleeping caller takes no step of its own: a notification of a critical
    section moves it back to its loop, or a wake-up without one, which Rust permits, and which has a
    label of its own.  The invariant says what the phases mean: a warm instance has its database
    open, an instance that warms has a caller warming it, nobody sleeps on an instance that does not
    warm, [active] counts the leases, the permits and the gauge count the callers inside [warm], and
    while callers sleep on the semaphore every free permit has a caller awake to take it. *)

From S2P Require Import Prelude Text EngineTypes Controller.

(** ** Callers *)

(** Where a call of [start] is. *)
Inductive Caller :=
| Looping (url : string)
| Waiting (url : string)
| Admitting (url : string) (wait0 : Z)
| Parked (url : string) (wait0 : Z)
| Permitted (url : string) (wait0 : Z)
| Opening (url : string)
| Closing (url : string) (res : option Z)
| Opened (url : string) (res : option Z).

Definition caller_url (t : Caller) : string :=
  match t with
  | Looping u | Waiting u | Admitting u _ | Parked u _ | Permitted u _ | Opening u | Closing u _ | Opened u _ => u
  end.

(** Between the turn that found the instance cold and the block that settles the warm. *)
Definition warming (t : Caller) : bool := match t with Looping _ | Waiting _ => false | _ => true end.
Definition warms (url : string) (t : Caller) : bool := warming t && bool_decide (caller_url t = url).
(** Inside the semaphore, and inside the gauge. *)
Definition holds_permit (t : Caller) : bool :=
  match t with Permitted _ _ | Opening _ | Closing _ _ => true | _ => false end.
Definition in_gauge (t : Caller) : bool := match t with Opening _ => true | _ => false end.
(** Asleep on an instance's condition variable, asleep on the semaphore's, and about to try it. *)
Definition waiting (t : Caller) : bool := match t with Waiting _ => true | _ => false end.
Definition waits (url : string) (t : Caller) : bool := waiting t && bool_decide (caller_url t = url).
Definition parked (t : Caller) : bool := match t with Parked _ _ => true | _ => false end.
Definition admitting (t : Caller) : bool := match t with Admitting _ _ => true | _ => false end.

(** [notify_all] on the condition variable of [url]. *)
Definition wake (url : string) (t : Caller) : Caller :=
  match t with Waiting u => if bool_decide (u = url) then Looping u else t | _ => t end.
Definition notified (n : Notify) (url : string) (cs : list Caller) : list Caller :=
  match n with NotifyAll => map (wake url) cs | _ => cs end.

(** A notification of the semaphore: [notify_one] wakes any one sleeper, if there is one. *)
Inductive woken : Notify → list Caller → list Caller → Prop :=
| woken_silent cs : woken Silent cs cs
| woken_none cs : Forall (λ t, parked t = false) cs → woken NotifyOne cs cs
| woken_one u w cs cs' : woken NotifyOne (cs ++ Parked u w :: cs') (cs ++ Admitting u w :: cs').

(** Where the reaper is: not in a pass, before the listed instances, or between its two blocks. *)
Inductive Reaper :=
| Asleep
| Passing (rest : list string)
| Renewed (url : string) (fenced : bool) (rest : list string).

Record System := mkSystem {
  ctl : ControllerInner;
  callers : list Caller;
  leases : list (string * Z);
  reaper : Reaper
}.

(** What kind of step: one of a call of [start] in progress ([Failed] when it returns the error of
    its open), one of somebody else, a wake-up that nobody asked for, and the two that reset an
    instance whatever its phase. *)
Inductive Label := Own | Failed | Other | Spurious | Stopped | Fenced.

Definition own (l : Label) : Prop := l = Own ∨ l = Failed.
Definition quiet (l : Label) : Prop := l ≠ Stopped ∧ l ≠ Fenced.

Inductive sstep : Label → System → System → Prop :=
| do_call now url c cs ls r :
    sstep Other (mkSystem c cs ls r) (mkSystem (get_or_create now url c) (Looping url :: cs) ls r)
| do_lease now url c c' cs cs' ls r db :
    start_turn now url c = (c', TurnLease db) →
    sstep Own (mkSystem c (cs ++ Looping url :: cs') ls r) (mkSystem c' (cs ++ cs') ((url, db) :: ls) r)
| do_warm now url c c' cs cs' ls r :
    start_turn now url c = (c', TurnWarm) →
    sstep Own (mkSystem c (cs ++ Looping url :: cs') ls r)
      (mkSystem c' (cs ++ Admitting url now :: cs') ls r)
| do_wait now url c c' cs cs' ls r :
    start_turn now url c = (c', TurnWait) →
    sstep Own (mkSystem c (cs ++ Looping url :: cs') ls r) (mkSystem c' (cs ++ Waiting url :: cs') ls r)
| do_admit url w c c' cs cs' ls r :
    sem_acquire c = Some c' →
    sstep Own (mkSystem c (cs ++ Admitting url w :: cs') ls r) (mkSystem c' (cs ++ Permitted url w :: cs') ls r)
| do_park url w c cs cs' ls r :
    sem_acquire c = None →
    sstep Own (mkSystem c (cs ++ Admitting url w :: cs') ls r) (mkSystem c (cs ++ Parked url w :: cs') ls r)
| do_enter now url w c cs cs' ls r :
    sstep Own (mkSystem c (cs ++ Permitted url w :: cs') ls r)
      (mkSystem (warm_enter now w c) (cs ++ Opening url :: cs') ls r)
| do_leave url res c cs cs' ls r :
    sstep Own (mkSystem c (cs ++ Opening url :: cs') ls r)
      (mkSystem (warm_leave c) (cs ++ Closing url res :: cs') ls r)
| do_release url res c cs cs' cs'' ls r :
    woken (sem_release res c).2 (cs ++ Opened url res :: cs') cs'' →
    sstep Own (mkSystem c (cs ++ Closing url res :: cs') ls r) (mkSystem (sem_release res c).1 cs'' ls r)
| do_settle now url res c cs cs' ls r :
    sstep (match res with Some _ => Own | None => Failed end) (mkSystem c (cs ++ Opened url res :: cs') ls r)
      (mkSystem (start_settle now url res c).1 (notified (start_settle now url res c).2 url (cs ++ cs'))
         (match res with Some db => (url, db) :: ls | None => ls end) r)
| do_wake url c cs cs' ls r :
    sstep Spurious (mkSystem c (cs ++ Waiting url :: cs') ls r) (mkSystem c (cs ++ Looping url :: cs') ls r)
| do_unpark url w c cs cs' ls r :
    sstep Spurious (mkSystem c (cs ++ Parked url w :: cs') ls r) (mkSystem c (cs ++ Admitting url w :: cs') ls r)
| do_drop now url db c cs ls ls' r :
    sstep Other (mkSystem c cs (ls ++ (url, db) :: ls') r)
      (mkSystem (lease_drop now url c).1 (notified (lease_drop now url c).2 url cs) (ls ++ ls') r)
| do_stop now url c cs ls r :
    sstep Stopped (mkSystem c cs ls r) (mkSystem (stop now url c).1 (notified (stop now url c).2 url cs) ls r)
| do_pass c cs ls :
    sstep Other (mkSystem c cs ls Asleep) (mkSystem c cs ls (Passing (map_to_list (instances c)).*1))
| do_pass_done c cs ls :
    sstep Other (mkSystem c cs ls (Passing [])) (mkSystem c cs ls Asleep)
| do_skip url c cs ls rest :
    reap_read url c = None →
    sstep Other (mkSystem c cs ls (Passing (url :: rest))) (mkSystem c cs ls (Passing rest))
| do_heartbeat url p db renewed c c' cs ls rest fenced :
    reap_read url c = Some (p, db) → reap_heartbeat p renewed c = (c', fenced) →
    sstep Other (mkSystem c cs ls (Passing (url :: rest))) (mkSystem c' cs ls (Renewed url fenced rest))
| do_reap now url (fenced : bool) c cs ls rest :
    sstep (if fenced then Fenced else Other) (mkSystem c cs ls (Renewed url fenced rest))
      (mkSystem (reap_settle now url fenced c).1 (notified (reap_settle now url fenced c).2 url cs) ls (Passing rest)).

Definition any_step (σ σ' : System) : Prop := ∃ l, sstep l σ σ'.
Definition quiet_step (σ σ' : System) : Prop := ∃ l, quiet l ∧ sstep l σ σ'.
Definition own_step (σ σ' : System) : Prop := ∃ l, own l ∧ sstep l σ σ'.

Definition system_init (c : ControllerInner) : System := mkSystem c [] [] Asleep.

(** ** Counting *)

Definition count {A} (p : A → bool) (l : list A) : Z := zlen (List.filter p l).

Lemma count_app {A} (p : A → bool) l k : count p (l ++ k) = count p l + count p k.
Proof. unfold count. by rewrite List.filter_app, zlen_app. Qed.

Lemma count_cons {A} (p : A → bool) x l : count p (x :: l) = (if p x then 1 else 0) + count p l.
Proof. unfold count. cbn. destruct (p x); [by rewrite zlen_cons|done]. Qed.

Lemma count_nonneg {A} (p : A → bool) l : 0 ≤ count p l.
Proof. apply zlen_nonneg. Qed.

Lemma count_le {A} (p q : A → bool) l : (∀ x, p x = true → q x = true) → count p l ≤ count q l.
Proof.
  intros H. induction l as [|x l IH]; [done|]. rewrite !count_cons.
  destruct (p x) eqn:E; [rewrite (H _ E); lia|]. destruct (q x); lia.
Qed.

Create HintDb counts.
#[export] Hint Rewrite @count_app @count_cons : counts.

(** ** The invariant *)

Definition holds_lease (url : string) (l : string * Z) : bool := bool_decide (l.1 = url).

(** What the state of one instance means. *)
Record InstOk (cs : list Caller) (ls : list (string * Z)) (url : string) (s : InstState) : Prop := {
  io_warm : is_warm (phase s) = true → is_Some (handle s);
  io_settled : phase s ≠ Stopping;
  io_warming : phase s = Warming → 1 ≤ count (warms url) cs;
  io_waiting : phase s ≠ Warming → count (waits url) cs = 0;
  io_active : active s = count (holds_lease url) ls
}.

Record Inv (σ : System) : Prop := {
  si_inst : map_Forall (InstOk (callers σ) (leases σ)) (instances (ctl σ));
  si_callers : Forall (λ t, is_Some (instances (ctl σ) !! caller_url t)) (callers σ);
  si_leases : Forall (λ l, is_Some (instances (ctl σ) !! l.1)) (leases σ);
  si_permits : permits (ctl σ) + count holds_permit (callers σ) = max_concurrent_warms (cfg (ctl σ));
  si_permits_pos : 0 ≤ permits (ctl σ);
  si_parked : count parked (callers σ) = 0 ∨ permits (ctl σ) ≤ count admitting (callers σ);
  si_cur : cur_warms (counters (ctl σ)) = count in_gauge (callers σ);
  si_peak : peak_warms (counters (ctl σ)) ≤ max_concurrent_warms (cfg (ctl σ))
}.

(** In runs without [stop] and without a lost lease, an instance warms exactly when one caller
    warms it. *)
Definition Herd (σ : System) : Prop :=
  ∀ url, count (warms url) (callers σ) =
    if bool_decide (phase <$> instances (ctl σ) !! url = Some Warming) then 1 else 0.

(** ** What the critical sections leave alone *)

(** Same configuration, permits and gauges. *)
Record same_gauges (c c' : ControllerInner) : Prop := {
  sg_cfg : cfg c' = cfg c;
  sg_permits : permits c' = permits c;
  sg_cur : cur_warms (counters c') = cur_warms (counters c);
  sg_peak : peak_warms (counters c') = peak_warms (counters c)
}.

Lemma same_gauges_refl c : same_gauges c c.
Proof. done. Qed.

Lemma accrue_gauges now s k :
  cur_warms (accrue now s k) = cur_warms k ∧ peak_warms (accrue now s k) = peak_warms k.
Proof. unfold accrue. by destruct (phase s). Qed.

(** A locked block on one instance: the others stay, and so do the gauges. *)
Definition updates (url : string) (s' : InstState) (c c' : ControllerInner) : Prop :=
  instances c' = <[url := s']> (instances c) ∧ same_gauges c c'.

Lemma put_back_updates url sk c :
  cur_warms sk.2 = cur_warms (counters c) → peak_warms sk.2 = peak_warms (counters c) →
  updates url sk.1 c (put_back url sk c).
Proof. intros H1 H2. split; [done|]. by split. Qed.

Lemma enter_updates url now new s c :
  updates url (in_phase now new s) c (put_back url (enter_phase now new (s, counters c)) c).
Proof. apply put_back_updates; apply accrue_gauges. Qed.

(** [start]'s turn, by the phase it finds. *)
Lemma start_turn_spec now url c c' t :
  start_turn now url c = (c', t) →
  match t with
  | TurnLease db => ∃ s, instances c !! url = Some s ∧ is_warm (phase s) = true ∧ handle s = Some db ∧
      updates url (mkInst Active (Some db) (active s + 1) now now) c c'
  | TurnWarm => ∃ s, instances c !! url = Some s ∧ phase s = Cold ∧ updates url (in_phase now Warming s) c c'
  | TurnWait => c' = c ∧ ∃ s, instances c !! url = Some s ∧ (phase s = Warming ∨ phase s = Stopping)
  | TurnPanic => instances c !! url = None ∨
      ∃ s, instances c !! url = Some s ∧ is_warm (phase s) = true ∧ handle s = None
  end.
Proof.
  unfold start_turn. destruct (instances c !! url) as [s|]; [|intros [= <- <-]; by left].
  destruct (phase s) eqn:Ep; cbn; try (intros [= <- <-]; eauto 10 using enter_updates; fail).
  all: destruct (handle s) as [db|] eqn:Eh; intros [= <- <-];
    [|right; exists s; by rewrite Ep]; exists s; rewrite Ep; (split; [done|]; split; [done|]; split; [done|]);
    rewrite <- Eh; apply put_back_updates; apply (accrue_gauges now s (counters c)).
Qed.

Lemma start_settle_spec now url res c s :
  instances c !! url = Some s →
  updates url (match res with Some db => mkInst Active (Some db) (active s + 1) now now
               | None => in_phase now Cold s end) c (start_settle now url res c).1 ∧
  (start_settle now url res c).2 = NotifyAll.
Proof.
  intros Hs. unfold start_settle. rewrite Hs. destruct res as [db|]; (split; [|done]); [|apply enter_updates].
  cbn. apply put_back_updates; apply accrue_gauges.
Qed.

(** The reaper's second block: a reset, a step between [Active] and [Idle], or nothing. *)
Definition reaped (now : Z) (fenced : bool) (cf : ControllerConfig) (s s' : InstState) (n : Notify) : Prop :=
  active s' = active s ∧
  if fenced then phase s' = Cold ∧ handle s' = None ∧ n = NotifyAll
  else
    (phase s' = phase s ∧ handle s' = handle s ∧ n = Silent) ∨
    (is_warm (phase s) = true ∧ is_warm (phase s') = true ∧ handle s' = handle s ∧ n = Silent) ∨
    (is_warm (phase s) = true ∧ active s = 0 ∧ keep_warm cf = false ∧
     idle_timeout cf ≤ Z.max 0 (now - last_activity s) ∧ phase s' = Cold ∧ handle s' = None ∧ n = NotifyAll).

Lemma reap_settle_spec now url fenced c s :
  instances c !! url = Some s →
  ∃ s', reaped now fenced (cfg c) s s' (reap_settle now url fenced c).2 ∧
    updates url s' c (reap_settle now url fenced c).1.
Proof.
  intros Hs. unfold reap_settle. rewrite Hs.
  assert (∀ now s k, cur_warms (accrue now s k) = cur_warms k ∧ peak_warms (accrue now s k) = peak_warms k) as Ha
    by apply accrue_gauges.
  destruct fenced; cbn [enter_phase fst snd].
  { eexists. split; [|apply put_back_updates; apply accrue_gauges]. done. }
  assert (instances c = <[url := s]> (instances c)) as Hid by (by rewrite insert_id).
  destruct (Z.eqb_spec (active s) 0) as [Hz|Hz].
  - set (sk := if bool_decide (phase s = Active) then _ else _).
    assert (is_warm (phase s) = is_warm (phase sk.1) ∧ handle sk.1 = handle s ∧ active sk.1 = active s ∧
      last_activity sk.1 = last_activity s ∧ (phase sk.1 = phase s ∨ is_warm (phase s) = true) ∧
      cur_warms sk.2 = cur_warms (counters c) ∧ peak_warms sk.2 = peak_warms (counters c)) as (H1 & H2 & H3 & H4 & H5 & H6 & H7).
    { unfold sk. case_bool_decide as E; cbn; rewrite ?E; [|by auto 10]. destruct (Ha now s (counters c)). auto 10. }
    destruct (bool_decide (phase sk.1 = Idle) && (idle_timeout (cfg c) <=? Z.max 0 (now - last_activity sk.1))
      && negb (keep_warm (cfg c))) eqn:Hc.
    + apply andb_true_iff in Hc as [[Hp%bool_decide_eq_true Ht%Z.leb_le]%andb_true_iff Hk%negb_true_iff].
      exists (mkInst Cold None (active sk.1) now now). split.
      * split; [done|]. right. right. rewrite H1, Hp, <- H4. destruct sk. done.
      * destruct sk as [s1 k1]. cbn in *. apply put_back_updates; cbn; [rewrite <- H6|rewrite <- H7]; apply Ha.
    + exists sk.1. split; [|by apply put_back_updates]. split; [done|].
      destruct H5 as [H5|H5]; [by left|right; left]. by rewrite <- H1.
  - case_bool_decide as E.
    + eexists. split; [|apply enter_updates]. split; [done|]. right. left. by rewrite E.
    + exists s. split; [|by split]. split; [done|]. by left.
Qed.

Lemma stop_spec now url c s :
  instances c !! url = Some s →
  (active s ≠ 0 ∧ stop now url c = (c, Silent)) ∨
  (active s = 0 ∧ updates url (mkInst Cold None 0 now now) c (stop now url c).1 ∧ (stop now url c).2 = NotifyAll).
Proof.
  intros Hs. unfold stop. rewrite Hs. destruct (Z.eqb_spec (active s) 0) as [Hz|Hz]; [right|by left].
  split; [done|]. split; [|done].
  replace (mkInst Cold None 0 now now) with (touch now (in_phase now Cold (with_handle None s)))
    by (unfold touch, in_phase, with_handle; cbn; by rewrite Hz).
  destruct (accrue_gauges now (with_handle None s) (add_scale_to_zero (counters c))).
  destruct (accrue_gauges now (with_handle None s) (counters c)). by destruct (handle s); apply put_back_updates.
Qed.

(** ** What the notifications do *)

Lemma count_notified p n url cs : (∀ t, p (wake url t) = p t) → count p (notified n url cs) = count p cs.
Proof.
  intros Hp. destruct n; [done|done|]. cbn. induction cs as [|t cs IH]; [done|]. cbn [map].
  by rewrite !count_cons, Hp, IH.
Qed.

Lemma wake_url url t : caller_url (wake url t) = caller_url t.
Proof. destruct t; cbn; try done. by case_bool_decide. Qed.

Lemma wake_warms u url t : warms u (wake url t) = warms u t.
Proof. destruct t; cbn; try done. by case_bool_decide. Qed.

Lemma wake_place p url t : (∀ u, p (Waiting u) = p (Looping u)) → p (wake url t) = (p t : bool).
Proof. intros Hp. destruct t; cbn; try done. by case_bool_decide. Qed.

Lemma notified_urls n url cs : map caller_url (notified n url cs) = map caller_url cs.
Proof. destruct n; [done|done|]. cbn. rewrite List.map_map. apply List.map_ext. apply wake_url. Qed.

Lemma notified_waits url cs : count (waits url) (notified NotifyAll url cs) = 0.
Proof.
  cbn. unfold count. rewrite filter_none; [done|]. rewrite Forall_forall. intros t (x & -> & _)%list_elem_of_fmap.
  unfold waits. destruct x; cbn; try done. case_bool_decide; cbn; [done|]. by case_bool_decide.
Qed.

Lemma notified_waits_le n u url cs : count (waits u) (notified n url cs) ≤ count (waits u) cs.
Proof.
  destruct n; cbn [notified]; try lia. induction cs as [|t cs IH]; [cbn; lia|]. cbn [map]. rewrite !count_cons.
  assert (waits u (wake url t) = true → waits u t = true) as Hw by (destruct t; cbn; try done; by case_bool_decide).
  destruct (waits u (wake url t)) eqn:E; [rewrite Hw by done; lia|]. destruct (waits u t); lia.
Qed.

(** ** Every step keeps the invariant *)

(** From one list of callers to another, the callers of other instances stay where they are, or
    wake up. *)
Record moved (url : string) (a b : list Caller) : Prop := {
  mv_warms : ∀ u, u ≠ url → count (warms u) b = count (warms u) a;
  mv_waits : ∀ u, u ≠ url → count (waits u) b ≤ count (waits u) a;
  mv_urls : ∀ t, t ∈ b → caller_url t = url ∨ caller_url t ∈ map caller_url a
}.

(** The permits, the gauge and the queue of the semaphore are as they were. *)
Definition same_queue (a b : list Caller) : Prop :=
  count holds_permit b = count holds_permit a ∧ count in_gauge b = count in_gauge a ∧
  count parked b = count parked a ∧ count admitting a ≤ count admitting b.

Lemma moved_notified n url a b : moved url a b → moved url a (notified n url b).
Proof.
  intros [H1 H2 H3]. split.
  - intros u Hu. rewrite count_notified by apply wake_warms. by apply H1.
  - intros u Hu. etrans; [apply notified_waits_le|by apply H2].
  - intros t Ht. assert (caller_url t ∈ map caller_url b) as (x & -> & Hx)%list_elem_of_fmap by
      (rewrite <- (notified_urls n url); by apply list_elem_of_fmap_2). by apply H3.
Qed.

Lemma same_queue_notified n url a b : same_queue a b → same_queue a (notified n url b).
Proof. unfold same_queue. by rewrite !count_notified by (intros; by apply wake_place). Qed.

Lemma moved_refl url a : moved url a a.
Proof. split; [done|done|]. intros t Ht. right. by apply list_elem_of_fmap_2. Qed.

Lemma same_queue_refl a : same_queue a a.
Proof. done. Qed.

Lemma moved_at cs t ts cs' :
  Forall (λ x, caller_url x = caller_url t) ts → moved (caller_url t) (cs ++ t :: cs') (cs ++ ts ++ cs').
Proof.
  intros Hts. assert (∀ u x, u ≠ caller_url t → caller_url x = caller_url t → warms u x = false ∧ waits u x = false) as Hz.
  { intros u x Hu Hx. unfold warms, waits. rewrite Hx, bool_decide_false by congruence. by destruct (warming x), (waiting x). }
  assert (∀ u, u ≠ caller_url t → count (warms u) ts = 0 ∧ count (waits u) ts = 0) as Hc.
  { intros u Hu. unfold count. rewrite !filter_none; [done|eapply Forall_impl; [exact Hts|]..]; intros x Hx; by apply Hz. }
  split.
  - intros u Hu. rewrite !count_app, count_cons. destruct (Hz u t Hu eq_refl) as [-> _], (Hc u Hu) as [-> _]. lia.
  - intros u Hu. rewrite !count_app, count_cons. destruct (Hz u t Hu eq_refl) as [_ ->], (Hc u Hu) as [_ ->]. lia.
  - intros x. rewrite Forall_forall in Hts. rewrite !elem_of_app. intros [Hx|[Hx|Hx]]; [right|left; by apply Hts|right];
      apply list_elem_of_fmap_2; set_solver.
Qed.

Lemma InstOk_others cs cs' ls ls' url s :
  count (warms url) cs' = count (warms url) cs → count (waits url) cs' ≤ count (waits url) cs →
  count (holds_lease url) ls = count (holds_lease url) ls' →
  InstOk cs ls url s → InstOk cs' ls' url s.
Proof.
  intros Hc Hw Hl [H1 H2 H3 H4 H5]. split; [done|done|..|lia].
  - intros Hp. specialize (H3 Hp). lia.
  - intros Hp. specialize (H4 Hp). pose proof (count_nonneg (waits url) cs'). lia.
Qed.

(** An instance changes, and the counts of the other instances do not. *)
Lemma inst_updates cs cs' ls ls' url s' (m : gmap string InstState) :
  map_Forall (InstOk cs ls) m → moved url cs cs' →
  (∀ u, u ≠ url → count (holds_lease u) ls = count (holds_lease u) ls') →
  InstOk cs' ls' url s' → map_Forall (InstOk cs' ls') (<[url := s']> m).
Proof.
  intros Hm [Hw Hq _] Hu Hs u s. destruct (decide (u = url)) as [->|Hne].
  - rewrite lookup_insert_eq. by intros [= <-].
  - rewrite lookup_insert_ne by done. intros Hk. eapply InstOk_others; [by apply Hw|by apply Hq|by apply Hu|by apply Hm].
Qed.

Lemma known_insert {A} (f : A → string) l url s' (m : gmap string InstState) :
  Forall (λ x, is_Some (m !! f x)) l → Forall (λ x, is_Some (<[url := s']> m !! f x)) l.
Proof.
  intros H. eapply Forall_impl; [exact H|]. intros x Hx. cbn in *.
  destruct (decide (f x = url)) as [->|Hne]; [rewrite lookup_insert_eq; eauto|by rewrite lookup_insert_ne].
Qed.

Lemma known_moved url a b (m : gmap string InstState) :
  moved url a b → is_Some (m !! url) → Forall (λ t, is_Some (m !! caller_url t)) a →
  Forall (λ t, is_Some (m !! caller_url t)) b.
Proof.
  intros Hm Hu Ha. rewrite Forall_forall in Ha |- *. intros t Ht.
  destruct (mv_urls _ _ _ Hm t Ht) as [->|(x & -> & Hx)%list_elem_of_fmap]; [done|by apply Ha].
Qed.

(** Evaluates the counts of a list with one caller or lease singled out. *)
Ltac counts :=
  autorewrite with counts in *; unfold warms, waits, holds_lease in *;
  cbn [warming waiting holds_permit in_gauge parked admitting caller_url andb fst snd] in *;
  repeat case_bool_decide; try congruence; try lia.
Ltac queue := unfold same_queue; split_and!; counts.

(** A locked block on one instance, whoever runs it. *)
Lemma inv_block c c' a b ls ls' r r' url s s' :
  Inv (mkSystem c a ls r) → instances c !! url = Some s → updates url s' c c' →
  moved url a b → same_queue a b → Forall (λ l, is_Some (instances c !! l.1)) ls' →
  (∀ u, u ≠ url → count (holds_lease u) ls = count (holds_lease u) ls') →
  (InstOk a ls url s → InstOk b ls' url s') →
  Inv (mkSystem c' b ls' r').
Proof.
  intros [H1 H2 H3 H4 H5 H6 H7 H8] Hs [Hi [G1 G2 G3 G4]] Hm (Q1 & Q2 & Q3 & Q4) Hls Hul Hok. cbn in *.
  split; cbn; rewrite ?Hi, ?G1, ?G2, ?G3, ?G4, ?Q1, ?Q2, ?Q3; try done.
  - eapply inst_updates; [done|done|done|by apply Hok, H1].
  - apply (known_insert caller_url). eapply known_moved; [done|by eexists|done].
  - by apply (known_insert fst).
  - destruct H6; [by left|right; lia].
Qed.

(** A block that moves callers through [warm] without touching the instances. *)
Lemma inv_warm c c' a b ls r :
  Inv (mkSystem c a ls r) → instances c' = instances c → cfg c' = cfg c →
  (∀ u, count (warms u) b = count (warms u) a) → (∀ u, count (waits u) b ≤ count (waits u) a) →
  map caller_url b = map caller_url a →
  permits c' + count holds_permit b = permits c + count holds_permit a → 0 ≤ permits c' →
  count parked b = 0 ∨ permits c' ≤ count admitting b →
  cur_warms (counters c') - count in_gauge b = cur_warms (counters c) - count in_gauge a →
  peak_warms (counters c') ≤ max_concurrent_warms (cfg c) →
  Inv (mkSystem c' b ls r).
Proof.
  intros [H1 H2 H3 H4 H5 H6 H7 H8] Hi Hc Hw Hq Hu Hp Hp0 Hk Hg Hm. cbn in *.
  split; cbn; rewrite ?Hi, ?Hc; try done; [| |lia|lia].
  - intros u s Hs. eapply InstOk_others; [apply Hw|apply Hq|done|by apply H1].
  - rewrite Forall_forall in H2 |- *. intros t Ht.
    assert (caller_url t ∈ map caller_url a) as (x & -> & Hx)%list_elem_of_fmap by
      (rewrite <- Hu; by apply list_elem_of_fmap_2). by apply H2.
Qed.

(** Who is woken by the semaphore. *)
Lemma woken_spec n a b :
  woken n a b → n = NotifyOne →
  (∀ u, count (warms u) b = count (warms u) a) ∧ (∀ u, count (waits u) b = count (waits u) a) ∧
  map caller_url b = map caller_url a ∧ count holds_permit b = count holds_permit a ∧
  count in_gauge b = count in_gauge a ∧
  (count parked b = 0 ∧ count admitting b = count admitting a ∧ b = a ∨
   count parked a = count parked b + 1 ∧ count admitting b = count admitting a + 1).
Proof.
  destruct 1 as [|cs Hf|u w cs cs']; intros Hn; [done| |].
  - split_and!; try done. left. split_and!; try done. unfold count. by rewrite filter_none.
  - split_and!; try (intros; counts; fail). by rewrite !List.map_app.
Qed.

Lemma inv_reaper c cs ls r r' : Inv (mkSystem c cs ls r) → Inv (mkSystem c cs ls r').
Proof. intros []. by split. Qed.

Lemma inv_call now url c cs ls r :
  Inv (mkSystem c cs ls r) → Inv (mkSystem (get_or_create now url c) (Looping url :: cs) ls r).
Proof.
  intros HI. unfold get_or_create. destruct HI as [H1 H2 H3 H4 H5 H6 H7 H8]. cbn in *.
  assert (moved url cs (Looping url :: cs)) as Hm.
  { split; [intros; counts..|]. intros t [->|Ht]%elem_of_cons; [by left|right; by apply list_elem_of_fmap_2]. }
  destruct (instances c !! url) as [s|] eqn:E; split; cbn; try done.
  - intros u s' Hs. eapply InstOk_others; [..|by apply H1]; counts.
  - eapply known_moved; [done|by eexists|done].
  - eapply inst_updates; [done|done|done|]. split; cbn; try done.
    + intros _. change (count (waits url) cs = 0). unfold count. rewrite filter_none; [done|].
      eapply Forall_impl; [exact H2|]. intros t [s Hs]. cbn in *. unfold waits.
      rewrite bool_decide_false by congruence. by destruct (waiting t).
    + symmetry. unfold count. rewrite filter_none; [done|].
      eapply Forall_impl; [exact H3|]. intros [u d] [s Hs]. cbn in *. unfold holds_lease. apply bool_decide_eq_false_2.
      cbn. intros ->. congruence.
  - constructor; [|by apply (known_insert caller_url)]. cbn. rewrite lookup_insert_eq. eauto.
  - by apply (known_insert fst).
Qed.

(** A call that leaves its loop, or the loop of its instance's condition variable. *)
Lemma inv_turn now url c c' t cs cs' ls r :
  start_turn now url c = (c', t) → Inv (mkSystem c (cs ++ Looping url :: cs') ls r) →
  match t with
  | TurnLease db => Inv (mkSystem c' (cs ++ cs') ((url, db) :: ls) r)
  | TurnWarm => Inv (mkSystem c' (cs ++ Admitting url now :: cs') ls r)
  | TurnWait => Inv (mkSystem c' (cs ++ Waiting url :: cs') ls r)
  | TurnPanic => True
  end.
Proof.
  intros Ht HI. apply start_turn_spec in Ht. pose proof (count_nonneg (warms url) cs).
  pose proof (count_nonneg (warms url) cs'). destruct t as [db| | |]; [..|done].
  - destruct Ht as (s & Hs & Hw & Hh & Hu). eapply (inv_block _ _ _ _ _ _ _ _ url s _ HI Hs Hu).
    + by apply (moved_at cs (Looping url) [] cs').
    + queue.
    + constructor; [cbn; rewrite Hs; eauto|apply HI].
    + intros u Hne. counts.
    + intros [H1 H2 H3 H4 H5]. split; cbn; try done; [|counts]. intros _. rewrite <- H4; [counts|].
      intros E. by rewrite E in Hw.
  - destruct Ht as (s & Hs & Hw & Hu). eapply (inv_block _ _ _ _ _ _ _ _ url s _ HI Hs Hu).
    + apply (moved_at cs (Looping url) [Admitting url now] cs'). by repeat constructor.
    + queue.
    + apply HI.
    + done.
    + intros [H1 H2 H3 H4 H5]. split; cbn; try done. intros _. counts.
  - destruct Ht as (-> & s & Hs & Hp). eapply (inv_block _ _ _ _ _ _ _ _ url s s HI Hs).
    + split; [by rewrite insert_id|done].
    + apply (moved_at cs (Looping url) [Waiting url] cs'). by repeat constructor.
    + queue.
    + apply HI.
    + done.
    + intros [H1 H2 H3 H4 H5]. destruct Hp as [Hp|Hp]; [|done]. split; try done.
      intros _. specialize (H3 Hp). counts.
Qed.

(** A reset of an instance to [Cold], with the notification. *)
Lemma inv_reset c c' cs ls r r' url s s' :
  Inv (mkSystem c cs ls r) → instances c !! url = Some s → updates url s' c c' →
  phase s' = Cold → active s' = active s → Inv (mkSystem c' (notified NotifyAll url cs) ls r').
Proof.
  intros HI Hs Hu Hp Ha. eapply (inv_block _ _ _ _ _ _ _ _ url s s' HI Hs Hu).
  - apply moved_notified, moved_refl.
  - apply same_queue_notified, same_queue_refl.
  - apply HI.
  - done.
  - intros [H1 H2 H3 H4 H5]. split; rewrite ?Hp; try done; [|lia]. intros _. apply notified_waits.
Qed.

Lemma inv_settle now url res c cs cs' ls r :
  Inv (mkSystem c (cs ++ Opened url res :: cs') ls r) →
  Inv (mkSystem (start_settle now url res c).1 (notified (start_settle now url res c).2 url (cs ++ cs'))
    (match res with Some db => (url, db) :: ls | None => ls end) r).
Proof.
  intros HI. pose proof (si_callers _ HI) as Hc. cbn in Hc. apply Forall_app in Hc as [_ [[s Hs] _]%Forall_cons].
  destruct (start_settle_spec now url res c s Hs) as [Hu ->]. cbn in Hs.
  eapply (inv_block _ _ _ _ _ _ _ _ url s _ HI Hs Hu).
  - apply moved_notified. by apply (moved_at cs (Opened url res) [] cs').
  - apply same_queue_notified. queue.
  - destruct res; [|apply HI]. constructor; [cbn; rewrite Hs; eauto|apply HI].
  - intros u Hne. destruct res; counts.
  - intros [H1 H2 H3 H4 H5]. destruct res; split; cbn [is_warm phase handle active in_phase]; try done.
    all: first [intros _; apply notified_waits|rewrite H5; counts].
Qed.

Lemma inv_drop now url db c cs ls ls' r :
  Inv (mkSystem c cs (ls ++ (url, db) :: ls') r) →
  Inv (mkSystem (lease_drop now url c).1 (notified (lease_drop now url c).2 url cs) (ls ++ ls') r).
Proof.
  intros HI. pose proof (si_leases _ HI) as Hl. cbn in Hl.
  apply Forall_app in Hl as [Hl1 [[s Hs] Hl2]%Forall_cons]. cbn in Hs. unfold lease_drop. rewrite Hs.
  eapply (inv_block _ _ _ _ _ _ _ _ url s _ HI Hs).
  - split; [done|]. by split.
  - apply moved_notified, moved_refl.
  - apply same_queue_notified, same_queue_refl.
  - by apply Forall_app.
  - intros u Hne. counts.
  - intros [H1 H2 H3 H4 H5]. split; cbn [touch with_active phase handle active snd]; try done.
    + rewrite count_notified by apply wake_warms. done.
    + intros _. apply notified_waits.
    + unfold saturating_sub. rewrite H5. pose proof (count_nonneg (holds_lease url) ls).
      pose proof (count_nonneg (holds_lease url) ls'). counts.
Qed.

Lemma inv_reap now url fenced c cs ls r r' :
  Inv (mkSystem c cs ls r) →
  Inv (mkSystem (reap_settle now url fenced c).1 (notified (reap_settle now url fenced c).2 url cs) ls r').
Proof.
  intros HI. destruct (instances c !! url) as [s|] eqn:Hs.
  2:{ unfold reap_settle. rewrite Hs. by eapply inv_reaper. }
  destruct (reap_settle_spec now url fenced c s Hs) as (s' & [Hact Hr] & Hu).
  destruct fenced; [destruct Hr as (Hp & Hh & ->); by eapply inv_reset|].
  destruct Hr as [(Hp & Hh & ->)|[(Hw & Hw' & Hh & ->)|(_ & _ & _ & _ & Hp & Hh & ->)]]; [| |by eapply inv_reset];
    (eapply (inv_block _ _ _ _ _ _ _ _ url s s' HI Hs Hu); [apply moved_refl|apply same_queue_refl|apply HI|done|]);
    intros [H1 H2 H3 H4 H5]; split; rewrite ?Hp, ?Hh, ?Hact; try done.
  - by intros _; apply H1.
  - by intros E; rewrite E in Hw'.
  - by intros E; rewrite E in Hw'.
  - intros _. apply H4. intros E. by rewrite E in Hw.
Qed.

(** The steps of a call between its admission and its release. *)
Lemma inv_release url res c cs cs' cs'' ls r :
  woken (sem_release res c).2 (cs ++ Opened url res :: cs') cs'' →
  Inv (mkSystem c (cs ++ Closing url res :: cs') ls r) → Inv (mkSystem (sem_release res c).1 cs'' ls r).
Proof.
  intros Hw HI. destruct (woken_spec _ _ _ Hw eq_refl) as (W1 & W2 & W3 & W4 & W5 & W6).
  pose proof (si_permits_pos _ HI) as Hp. pose proof (si_parked _ HI) as Hk. cbn in Hp, Hk.
  eapply inv_warm; [exact HI|by destruct res|by destruct res|..].
  - intros u. rewrite W1. counts.
  - intros u. rewrite W2. counts.
  - rewrite W3. by rewrite !List.map_app.
  - rewrite W4. destruct res; cbn; counts.
  - destruct res; cbn; lia.
  - assert (permits (sem_release res c).1 = permits c + 1) as -> by (by destruct res).
    destruct W6 as [[? _]|[H1 H2]]; [by left|right]. pose proof (count_nonneg parked cs''). counts.
  - rewrite W5. destruct res; cbn; counts.
  - destruct res; apply HI.
Qed.

Lemma inv_enter now url w c cs cs' ls r :
  Inv (mkSystem c (cs ++ Permitted url w :: cs') ls r) →
  Inv (mkSystem (warm_enter now w c) (cs ++ Opening url :: cs') ls r).
Proof.
  intros HI. pose proof (si_peak _ HI). pose proof (si_cur _ HI) as Hc. pose proof (si_permits _ HI) as Hp.
  pose proof (si_permits_pos _ HI). pose proof (si_parked _ HI).
  pose proof (count_le in_gauge holds_permit (cs ++ cs') ltac:(by intros [])).
  eapply inv_warm; [exact HI|try done..]; cbn in *; try (intros; counts; fail). by rewrite !List.map_app.
Qed.

Lemma inv_stop now url c cs ls r :
  Inv (mkSystem c cs ls r) → Inv (mkSystem (stop now url c).1 (notified (stop now url c).2 url cs) ls r).
Proof.
  intros HI. destruct (instances c !! url) as [s|] eqn:Hs; [|unfold stop; by rewrite Hs].
  destruct (stop_spec now url c s Hs) as [[_ ->]|(Hz & Hu & ->)]; [done|by eapply inv_reset].
Qed.

(** A caller that changes its place in the queue of the semaphore, or wakes up. *)
Ltac move_caller HI :=
  pose proof (si_permits_pos _ HI); pose proof (si_parked _ HI); cbn in *;
  eapply inv_warm; [exact HI|try done..]; cbn; try (by rewrite !List.map_app); try (apply HI); try (intros; counts; fail).

Lemma sstep_inv l σ σ' : sstep l σ σ' → Inv σ → Inv σ'.
Proof.
  destruct 1 as [now url c cs ls r|now url c c' cs cs' ls r db Ht|now url c c' cs cs' ls r Ht
    |now url c c' cs cs' ls r Ht|url w c c' cs cs' ls r Ha|url w c cs cs' ls r Ha|now url w c cs cs' ls r
    |url res c cs cs' ls r|url res c cs cs' cs'' ls r Hw|now url res c cs cs' ls r|url c cs cs' ls r
    |url w c cs cs' ls r|now url db c cs ls ls' r|now url c cs ls r|c cs ls|c cs ls|url c cs ls rest Hn
    |url p db renewed c c' cs ls rest fenced Hr Hh|now url fenced c cs ls rest]; intros HI.
  - by apply inv_call.
  - by apply (inv_turn _ _ _ _ _ _ _ _ _ Ht).
  - by apply (inv_turn _ _ _ _ _ _ _ _ _ Ht).
  - by apply (inv_turn _ _ _ _ _ _ _ _ _ Ht).
  - unfold sem_acquire in Ha. destruct (Z.eqb_spec (permits c) 0); [done|]. injection Ha as <-. move_caller HI.
  - unfold sem_acquire in Ha. destruct (Z.eqb_spec (permits c) 0) as [E|]; [|done].
    pose proof (count_nonneg admitting (cs ++ cs')). move_caller HI.
  - by apply inv_enter.
  - move_caller HI.
  - by eapply inv_release.
  - by apply inv_settle.
  - move_caller HI.
  - pose proof (count_nonneg parked (cs ++ cs')). move_caller HI.
  - by eapply inv_drop.
  - by apply inv_stop.
  - by eapply inv_reaper.
  - by eapply inv_reaper.
  - by eapply inv_reaper.
  - apply (inv_reaper _ _ _ (Passing (url :: rest))). unfold reap_heartbeat in Hh.
    destruct (is_warm p), renewed; injection Hh as <- <-; try done. destruct HI. by split.
  - by eapply inv_reap.
Qed.

Lemma system_inv c0 c σ :
  Controller_new c0 = Ok c → 0 ≤ max_concurrent_warms c0 → rtc any_step (system_init c) σ → Inv σ.
Proof.
  intros Hn H0 Hr. assert (Inv (system_init c)) as Hi.
  { unfold Controller_new in Hn. destruct (_ =? _); [done|]. destruct (_ || _); [done|].
    injection Hn as <-. split; try done; cbn; unfold count, zlen; cbn; lia. }
  clear Hn H0. induction Hr as [|x y z [l Hs] _ IH]; [done|]. apply IH. by eapply sstep_inv.
Qed.

(** ** One warm per database, in quiet runs *)

Lemma herd_insert cs cs' m url (s' : InstState) :
  (∀ u, count (warms u) cs = if bool_decide (phase <$> (m : gmap string InstState) !! u = Some Warming) then 1 else 0) →
  (∀ u, u ≠ url → count (warms u) cs = count (warms u) cs') →
  count (warms url) cs' = (if bool_decide (phase s' = Warming) then 1 else 0) →
  ∀ u, count (warms u) cs' = if bool_decide (phase <$> <[url := s']> m !! u = Some Warming) then 1 else 0.
Proof.
  intros Hm Ho Hu u. destruct (decide (u = url)) as [->|Hne].
  - rewrite lookup_insert_eq, Hu. cbn. repeat case_bool_decide; try done; congruence.
  - rewrite lookup_insert_ne by done. rewrite <- Ho by done. apply Hm.
Qed.

Lemma herd_same c c' cs cs' :
  (∀ u, count (warms u) cs' = count (warms u) cs) → instances c' = instances c →
  (∀ u, count (warms u) cs = if bool_decide (phase <$> instances c !! u = Some Warming) then 1 else 0) →
  ∀ u, count (warms u) cs' = if bool_decide (phase <$> instances c' !! u = Some Warming) then 1 else 0.
Proof. intros Hw -> Hh u. by rewrite Hw. Qed.

Lemma herd_step σ σ' : quiet_step σ σ' → Inv σ → Herd σ → Herd σ'.
Proof.
  intros (l & Hl & H) HI Hh. unfold Herd in *.
  destruct H as [now url c cs ls r|now url c c' cs cs' ls r db Ht|now url c c' cs cs' ls r Ht
    |now url c c' cs cs' ls r Ht|url w c c' cs cs' ls r Ha|url w c cs cs' ls r Ha|now url w c cs cs' ls r
    |url res c cs cs' ls r|url res c cs cs' cs'' ls r Hw|now url res c cs cs' ls r|url c cs cs' ls r
    |url w c cs cs' ls r|now url db c cs ls ls' r|now url c cs ls r|c cs ls|c cs ls|url c cs ls rest Hn
    |url p db renewed c c' cs ls rest fenced Hr Hb|now url fenced c cs ls rest]; cbn in *; try done;
    try (eapply herd_same; [|done|exact Hh]; intros; counts; fail).
  - unfold get_or_create. destruct (instances c !! url) as [s|] eqn:E.
    + intros u. rewrite count_cons. apply Hh.
    + eapply herd_insert; [exact Hh| |].
      * intros u _. by rewrite count_cons.
      * rewrite count_cons. cbn. specialize (Hh url). by rewrite E in Hh.
  - apply start_turn_spec in Ht as (s & Hs & Hw & _ & [-> _]). eapply herd_insert; [exact Hh| |].
    + intros u _. counts.
    + specialize (Hh url). rewrite Hs in Hh. cbn in *. rewrite bool_decide_false in Hh; [counts|].
      intros [= E]. by rewrite E in Hw.
  - apply start_turn_spec in Ht as (s & Hs & Hw & [-> _]). eapply herd_insert; [exact Hh| |].
    + intros u Hne. counts.
    + specialize (Hh url). rewrite Hs in Hh. cbn in *. rewrite Hw in Hh. counts.
  - apply start_turn_spec in Ht as [-> _]. eapply herd_same; [|done|exact Hh]; intros; counts.
  - unfold sem_acquire in Ha. destruct (_ =? _); [done|]. injection Ha as <-. eapply herd_same; [|done|exact Hh]; intros; counts.
  - destruct (woken_spec _ _ _ Hw eq_refl) as (W1 & _). eapply herd_same; [|by destruct res|exact Hh].
    intros u. rewrite W1. counts.
  - pose proof (si_callers _ HI) as Hc. cbn in Hc. apply Forall_app in Hc as [_ [[s Hs] _]%Forall_cons]. cbn in Hs.
    destruct (start_settle_spec now url res c s Hs) as [[-> _] _]. eapply herd_insert; [exact Hh|..].
    + intros u Hne. rewrite count_notified by apply wake_warms. counts.
    + rewrite count_notified by apply wake_warms. specialize (Hh url).
      pose proof (count_nonneg (warms url) cs). pose proof (count_nonneg (warms url) cs').
      rewrite bool_decide_false by (by destruct res). counts.
  - unfold lease_drop. destruct (instances c !! url) as [s|] eqn:E; [|exact Hh].
    eapply herd_insert; [exact Hh|intros; by rewrite count_notified by apply wake_warms|].
    rewrite count_notified by apply wake_warms. cbn. specialize (Hh url). rewrite E in Hh. cbn in Hh. rewrite Hh.
    repeat case_bool_decide; try done; congruence.
  - by destruct Hl.
  - unfold reap_heartbeat in Hb. destruct (is_warm p), renewed; injection Hb as <- <-; exact Hh.
  - destruct fenced; [by destruct Hl|]. destruct (instances c !! url) as [s|] eqn:Hs.
    2:{ unfold reap_settle. by rewrite Hs. }
    destruct (reap_settle_spec now url false c s Hs) as (s' & [_ Hr] & [-> _]).
    eapply herd_insert; [exact Hh|intros; by rewrite count_notified by apply wake_warms|].
    rewrite count_notified by apply wake_warms. specialize (Hh url). rewrite Hs in Hh. cbn in Hh. rewrite Hh.
    assert (phase s = Warming ↔ phase s' = Warming) as Hiff.
    { destruct Hr as [(-> & _)|[(Hw & Hw' & _)|(Hw & _ & _ & _ & Hp & _)]]; [done| |].
      - split; intros E; [by rewrite E in Hw|by rewrite E in Hw'].
      - split; intros E; [by rewrite E in Hw|congruence]. }
    rewrite (bool_decide_ext (Some (phase s) = Some Warming) (phase s' = Warming)); [done|]. rewrite <- Hiff. split; [by intros [=]|by intros ->].
Qed.
