(* ===== verification/ControllerSpec.v ===== *)
(** * What the controller guarantees

    No panic, bounded warm-ups, one warm-up per cold database, calls of [start] that return under
    every schedule (no lost wake-up), and scale to zero; and what [stop] and a lost lease break. *)

From S2P Require Import Prelude Text EngineTypes Controller ControllerSys.

(** ** Progress *)

(** How far a call of [start] is from its return, and how many steps the calls in progress can still
    take: a call that returns may wake all the others, which costs each of them a turn. *)
Definition rank (t : Caller) : nat :=
  match t with
  | Looping _ => 9 | Waiting _ => 8 | Admitting _ _ => 7 | Parked _ _ => 6 | Permitted _ _ => 5
  | Opening _ => 4 | Closing _ _ => 3 | Opened _ _ => 1
  end.
Definition ranks (cs : list Caller) : nat := sum_list_with rank cs.
Definition work (cs : list Caller) : nat := length cs * length cs + ranks cs.

Lemma ranks_app a b : ranks (a ++ b) = (ranks a + ranks b)%nat.
Proof. apply sum_list_with_app. Qed.

Lemma ranks_cons t b : ranks (t :: b) = (rank t + ranks b)%nat.
Proof. done. Qed.

Lemma ranks_notified n url cs :
  (ranks (notified n url cs) ≤ ranks cs + length cs)%nat ∧ length (notified n url cs) = length cs.
Proof.
  destruct n; cbn [notified]; [split; [lia|done]..|]. split; [|apply length_map].
  induction cs as [|t cs IH]; [done|]. cbn [map length]. rewrite !ranks_cons.
  assert (rank (wake url t) ≤ rank t + 1)%nat by (destruct t; cbn; try lia; case_bool_decide; cbn; lia). lia.
Qed.

(** The work left when one caller moves, and when it returns. *)
Lemma work_move cs t t' cs' : (rank t' < rank t)%nat → (work (cs ++ t' :: cs') < work (cs ++ t :: cs'))%nat.
Proof. intros H. unfold work. rewrite !ranks_app, !ranks_cons, !length_app. cbn [length]. lia. Qed.

Lemma work_return n url cs t cs' : (work (notified n url (cs ++ cs')) < work (cs ++ t :: cs'))%nat.
Proof.
  destruct (ranks_notified n url (cs ++ cs')) as [H1 H2]. unfold work. rewrite H2. rewrite ranks_app in *.
  rewrite ranks_cons, !length_app in *. cbn [length]. destruct t; cbn [rank]; nia.
Qed.

Lemma work_woken n a b : woken n a b → (work b ≤ work a + 1)%nat.
Proof. unfold work. destruct 1; [lia|lia|]. rewrite !ranks_app, !ranks_cons, !length_app. cbn [rank length]. lia. Qed.

(** Every step of a call in progress uses up some of the work. *)
Lemma own_decreases l σ σ' : own l → sstep l σ σ' → (work (callers σ') < work (callers σ))%nat.
Proof.
  intros Ho. destruct 1 as [now url c cs ls r|now url c c' cs cs' ls r db Ht|now url c c' cs cs' ls r Ht
    |now url c c' cs cs' ls r Ht|url w c c' cs cs' ls r Ha|url w c cs cs' ls r Ha|now url w c cs cs' ls r
    |url res c cs cs' ls r|url res c cs cs' cs'' ls r Hw|now url res c cs cs' ls r|url c cs cs' ls r
    |url w c cs cs' ls r|now url db c cs ls ls' r|now url c cs ls r|c cs ls|c cs ls|url c cs ls rest Hn
    |url p db renewed c c' cs ls rest fenced Hr Hb|now url fenced c cs ls rest];
    cbn [callers]; try (by destruct Ho); try (apply work_move; cbn; lia).
  - apply (work_return Silent url).
  - apply work_woken in Hw. unfold work in *. rewrite !ranks_app, !ranks_cons, !length_app in *.
    cbn [rank length] in *. lia.
  - apply work_return.
  - destruct fenced; by destruct Ho.
Qed.

Lemma own_now : own Own.
Proof. by left. Qed.

(** A caller past the admission can take its next step. *)
Lemma inside_steps c cs t cs' ls r :
  (rank t ≤ 5)%nat → ∃ σ', own_step (mkSystem c (cs ++ t :: cs') ls r) σ'.
Proof.
  intros Ht. destruct t as [u|u|u w|u w|u w|u|u res|u res]; cbn in Ht; try lia.
  - eexists _, _. split; [apply own_now|apply (do_enter 0)].
  - eexists _, _. split; [apply own_now|apply (do_leave u None)].
  - assert (∃ b, woken NotifyOne (cs ++ Opened u res :: cs') b) as [b Hb].
    { destruct (decide (Exists (λ t, parked t = true) (cs ++ Opened u res :: cs'))) as [(t & Hin & Hp)%Exists_exists|Hno].
      - apply list_elem_of_split in Hin as (x & y & E). destruct t; try done. rewrite E. eexists. apply woken_one.
      - eexists. apply woken_none. apply not_Exists_Forall in Hno; [|apply _]. eapply Forall_impl; [exact Hno|].
        cbn. intros t. by destruct (parked t). }
    eexists _, _. split; [apply own_now|by apply (do_release u res c cs cs' b)].
  - eexists _, _. split; [|apply (do_settle 0)]. destruct res; [by left|by right].
Qed.

Lemma no_inside cs p : Forall (λ t, (6 ≤ rank t)%nat) cs → (∀ t, p t = true → (rank t ≤ 5)%nat) → count p cs = 0.
Proof.
  intros Hf Hp. unfold count. rewrite filter_none; [done|]. eapply Forall_impl; [exact Hf|]. cbn. intros t Ht.
  destruct (p t) eqn:E; [|done]. apply Hp in E. lia.
Qed.

(** A caller at the head of its loop takes a turn. *)
Lemma looping_steps c cs u cs' ls r :
  Inv (mkSystem c (cs ++ Looping u :: cs') ls r) → ∃ σ', own_step (mkSystem c (cs ++ Looping u :: cs') ls r) σ'.
Proof.
  intros HI. pose proof (si_callers _ HI) as Hk. cbn in Hk. apply Forall_app in Hk as [_ [[s Hs] _]%Forall_cons].
  destruct (si_inst _ HI u s Hs) as [H1 H2 _ _ _]. cbn in Hs.
  destruct (start_turn 0 u c) as [c' t] eqn:Et. destruct t as [db| | |].
  - eexists _, _. split; [apply own_now|by apply (do_lease 0 u c c')].
  - eexists _, _. split; [apply own_now|by apply (do_warm 0 u c c')].
  - eexists _, _. split; [apply own_now|by apply (do_wait 0 u c c')].
  - apply start_turn_spec in Et as [?|(s' & Hs' & Hwm & Hh)]; simplify_eq. destruct (H1 Hwm). congruence.
Qed.

Lemma admitting_steps c cs u w cs' ls r : ∃ σ', own_step (mkSystem c (cs ++ Admitting u w :: cs') ls r) σ'.
Proof.
  destruct (sem_acquire c) as [c'|] eqn:E; eexists _, _; (split; [apply own_now|]);
    [by apply do_admit|by apply do_park].
Qed.

Lemma count_pos {A} (p : A → bool) l : count p l ≠ 0 → ∃ x, x ∈ l ∧ p x = true.
Proof.
  induction l as [|y l IH]; [done|]. rewrite count_cons. destruct (p y) eqn:E; intros H.
  - exists y. split; [apply list_elem_of_here|done].
  - destruct IH as (x & Hx & Hp); [lia|]. exists x. split; [by apply list_elem_of_further|done].
Qed.

Lemma in_count {A} (p : A → bool) l x : x ∈ l → p x = true → 1 ≤ count p l.
Proof.
  intros (a & b & ->)%list_elem_of_split Hp. rewrite count_app, count_cons, Hp.
  pose proof (count_nonneg p a). pose proof (count_nonneg p b). lia.
Qed.

(** While there are calls, one of them is awake: nobody is left asleep. *)
Lemma callers_progress σ :
  Inv σ → 1 ≤ max_concurrent_warms (cfg (ctl σ)) → callers σ ≠ [] → ∃ σ', own_step σ σ'.
Proof.
  intros HI Hmax Hne. destruct σ as [c cs ls r]. cbn in *.
  destruct (decide (Exists (λ t, (rank t ≤ 5)%nat) cs)) as [(t & Hin & Ht)%Exists_exists|Hno].
  { apply list_elem_of_split in Hin as (a & b & ->). by apply inside_steps. }
  apply not_Exists_Forall in Hno; [|apply _].
  assert (count holds_permit cs = 0) as Hp.
  { eapply no_inside; [eapply Forall_impl; [exact Hno|]; cbn; lia|]. by intros []; cbn; lia || done. }
  pose proof (si_permits _ HI) as Hs. cbn in Hs.
  assert (∀ t, t ∈ cs → warming t = true → ∃ σ', own_step (mkSystem c cs ls r) σ') as Hwarm.
  { intros t Hin Hw. rewrite Forall_forall in Hno. pose proof (Hno _ Hin) as Hr.
    assert (1 ≤ count admitting cs) as Ha.
    { destruct t; cbn in Hr, Hw; try done; try lia; [by apply (in_count _ _ _ Hin)|].
      destruct (si_parked _ HI) as [H0|H0]; cbn in H0; [|lia]. pose proof (in_count parked _ _ Hin eq_refl). lia. }
    destruct (count_pos admitting cs) as (x & Hx & Hax); [lia|]. destruct x; try done.
    apply list_elem_of_split in Hx as (a & b & ->). apply admitting_steps. }
  destruct cs as [|t cs]; [done|]. destruct (warming t) eqn:Ew; [by apply (Hwarm t); [apply list_elem_of_here|]|].
  destruct t as [u|u| | | | | |]; try done; [by apply (looping_steps c [] u cs)|].
  pose proof (si_callers _ HI) as Hk. apply Forall_inv in Hk as [s Hi]. cbn in Hi.
  destruct (si_inst _ HI u s Hi) as [_ _ H3 H4 _]. cbn in H3, H4.
  assert (count (waits u) (Waiting u :: cs) ≠ 0) as Hz.
  { pose proof (in_count (waits u) (Waiting u :: cs) (Waiting u) ltac:(apply list_elem_of_here)) as H.
    unfold waits at 1 in H. cbn in H. rewrite bool_decide_true in H by done. specialize (H eq_refl). lia. }
  destruct (decide (phase s = Warming)) as [E|E]; [|by rewrite H4 in Hz].
  specialize (H3 E). destruct (count_pos (warms u) (Waiting u :: cs)) as (x & Hx & Hxw); [lia|].
  apply (Hwarm x Hx). unfold warms in Hxw. by destruct (warming x).
Qed.

Lemma step_cfg l σ σ' : sstep l σ σ' → cfg (ctl σ') = cfg (ctl σ).
Proof.
  destruct 1 as [now url c|now url c c' cs cs' ls r db Ht|now url c c' cs cs' ls r Ht
    |now url c c' cs cs' ls r Ht|url w c c' cs cs' ls r Ha|url w c cs cs' ls r Ha|now url w c cs cs' ls r
    |url res c cs cs' ls r|url res c cs cs' cs'' ls r Hw|now url res c cs cs' ls r|url c cs cs' ls r
    |url w c cs cs' ls r|now url db c cs ls ls' r|now url c cs ls r|c cs ls|c cs ls|url c cs ls rest Hn
    |url p db renewed c c' cs ls rest fenced Hr Hb|now url fenced c cs ls rest]; cbn; try done.
  - unfold get_or_create. by destruct (_ !! _).
  - apply start_turn_spec in Ht as (? & _ & _ & _ & _ & []). done.
  - apply start_turn_spec in Ht as (? & _ & _ & _ & []). done.
  - by apply start_turn_spec in Ht as [-> _].
  - unfold sem_acquire in Ha. destruct (_ =? _); [done|]. by injection Ha as <-.
  - by destruct res.
  - destruct (instances c !! url) as [s|] eqn:Hs; [|unfold start_settle; by rewrite Hs].
    apply (start_settle_spec now url res c s Hs).
  - unfold lease_drop. by destruct (_ !! _).
  - destruct (instances c !! url) as [s|] eqn:Hs; [|unfold stop; by rewrite Hs].
    by destruct (stop_spec now url c s Hs) as [[_ ->]|[_ [[_ []] _]]].
  - unfold reap_heartbeat in Hb. destruct (is_warm p), renewed; by injection Hb as <- <-.
  - destruct (instances c !! url) as [s|] eqn:Hs; [|unfold reap_settle; by rewrite Hs].
    by destruct (reap_settle_spec now url fenced c s Hs) as (? & _ & _ & []).
Qed.

Lemma reachable_cfg c σ : rtc any_step (system_init c) σ → cfg (ctl σ) = cfg c.
Proof.
  intros Hr. change (cfg c) with (cfg (ctl (system_init c))).
  induction Hr as [|x y z [l Hs] _ IH]; [done|]. by rewrite IH, (step_cfg _ _ _ Hs).
Qed.

(** Runs of the calls in progress, in any order, with the labels of their steps. *)
Inductive own_run : list Label → System → System → Prop :=
| own_nil σ : own_run [] σ σ
| own_cons l ls σ σ1 σ2 : own l → sstep l σ σ1 → own_run ls σ1 σ2 → own_run (l :: ls) σ σ2.

Lemma own_run_any ls σ σ' : own_run ls σ σ' → rtc any_step σ σ'.
Proof. induction 1 as [|l ls σ σ1 σ2 _ Hs _ IH]; [done|]. eapply rtc_l; [by exists l|done]. Qed.

Lemma own_run_work ls σ σ' : own_run ls σ σ' → (length ls + work (callers σ') ≤ work (callers σ))%nat.
Proof.
  induction 1 as [|l ls σ σ1 σ2 Ho Hs _ IH]; [done|]. pose proof (own_decreases _ _ _ Ho Hs). cbn. lia.
Qed.

(** Calls that returned the error of their open. *)
Definition failed (l : Label) : bool := match l with Failed => true | _ => false end.

Lemma zlen_insert {A} (a b : list A) x : zlen (a ++ x :: b) = zlen (a ++ b) + 1.
Proof. rewrite !zlen_app, zlen_cons. lia. Qed.

Lemma own_leases l σ σ' : own l → sstep l σ σ' →
  zlen (leases σ') + zlen (callers σ') + (if failed l then 1 else 0) = zlen (leases σ) + zlen (callers σ).
Proof.
  intros Ho. destruct 1 as [now url c cs ls r|now url c c' cs cs' ls r db Ht|now url c c' cs cs' ls r Ht
    |now url c c' cs cs' ls r Ht|url w c c' cs cs' ls r Ha|url w c cs cs' ls r Ha|now url w c cs cs' ls r
    |url res c cs cs' ls r|url res c cs cs' cs'' ls r Hw|now url res c cs cs' ls r|url c cs cs' ls r
    |url w c cs cs' ls r|now url db c cs ls ls' r|now url c cs ls r|c cs ls|c cs ls|url c cs ls rest Hn
    |url p db renewed c c' cs ls rest fenced Hr Hb|now url fenced c cs ls rest];
    cbn [callers leases failed]; try (by destruct Ho); rewrite ?zlen_insert, ?zlen_cons; try lia.
  - assert (zlen cs'' = zlen (cs ++ Opened url res :: cs')) as ->.
    { destruct Hw; try done. by rewrite !zlen_insert. }
    rewrite zlen_insert. lia.
  - assert (∀ n, zlen (notified n url (cs ++ cs')) = zlen (cs ++ cs')) as ->.
    { intros n. unfold zlen. by rewrite (proj2 (ranks_notified n url (cs ++ cs'))). }
    destruct res; cbn [failed]; rewrite ?zlen_cons; lia.
  - destruct fenced; by destruct Ho.
Qed.

Lemma own_run_leases ls σ σ' : own_run ls σ σ' →
  zlen (leases σ') + zlen (callers σ') + count failed ls = zlen (leases σ) + zlen (callers σ).
Proof.
  induction 1 as [|l ls σ σ1 σ2 Ho Hs _ IH]; [unfold count, zlen; cbn; lia|].
  pose proof (own_leases _ _ _ Ho Hs). rewrite count_cons. lia.
Qed.

(** ** One pass of the reaper *)

Lemma reap_instance_other renew now c url u :
  u ≠ url → instances (reap_instance renew now c url) !! u = instances c !! u ∧
  cfg (reap_instance renew now c url) = cfg c.
Proof.
  intros Hne. unfold reap_instance. destruct (reap_read url c) as [[p db]|]; [|done].
  destruct (reap_heartbeat p (renew db) c) as [c' f] eqn:Eh.
  assert (instances c' = instances c ∧ cfg c' = cfg c) as [Ei Ec].
  { unfold reap_heartbeat in Eh. destruct (is_warm p), (renew db); by injection Eh as <- <-. }
  destruct (instances c' !! url) as [s|] eqn:Es; [|unfold reap_settle; rewrite Es; cbn; by rewrite Ei].
  destruct (reap_settle_spec now url f c' s Es) as (s' & _ & [Hi []]).
  rewrite Hi, lookup_insert_ne by done. by rewrite Ei, <- Ec.
Qed.

Lemma reap_foldl_other renew now urls c u :
  u ∉ urls → instances (foldl (reap_instance renew now) c urls) !! u = instances c !! u ∧
  cfg (foldl (reap_instance renew now) c urls) = cfg c.
Proof.
  revert c. induction urls as [|url urls IH]; intros c Hu; [done|]. apply not_elem_of_cons in Hu as [Hne Hu]. cbn.
  destruct (IH (reap_instance renew now c url) Hu) as [-> ->]. by apply reap_instance_other.
Qed.

(** What a pass does to an instance is what it does when it gets to it. *)
Lemma reap_once_at renew now c url s :
  instances c !! url = Some s → ∃ c', instances c' !! url = Some s ∧ cfg c' = cfg c ∧
    instances (reap_once renew now c) !! url = instances (reap_instance renew now c' url) !! url.
Proof.
  intros Hs. unfold reap_once. pose proof (NoDup_fst_map_to_list (instances c)) as Hnd.
  assert (url ∈ (map_to_list (instances c)).*1) as Hin.
  { apply list_elem_of_fmap. exists (url, s). split; [done|]. by apply elem_of_map_to_list. }
  apply list_elem_of_split in Hin as (a & b & E). rewrite E in Hnd |- *.
  apply NoDup_app in Hnd as (_ & Hab & Hb). apply NoDup_cons in Hb as [Hb _].
  rewrite foldl_app. cbn. set (c' := foldl (reap_instance renew now) c a).
  assert (url ∉ a) as Ha by (intros Ha; apply (Hab url Ha); set_solver).
  destruct (reap_foldl_other renew now a c url Ha) as [H1 H2]. exists c'. split_and!; [by rewrite <- Hs|done|].
  by apply reap_foldl_other.
Qed.

(** ** Properties *)

Section Properties.
Context (c0 : ControllerConfig) (c : ControllerInner).
Context (Hnew : Controller_new c0 = Ok c) (Hcap : 0 ≤ max_concurrent_warms c0).

(** [start] never panics: in every state that calls, leases, [stop] and the reaper can bring
    about in any interleaving, a caller that finds an instance [Active] or [Idle] finds its database
    open (the [expect] holds), and no instance is ever left in [Stopping]. *)
Theorem controller_never_panics σ url now :
  rtc any_step (system_init c) σ → Looping url ∈ callers σ →
  (start_turn now url (ctl σ)).2 ≠ TurnPanic ∧ status url (ctl σ) ≠ Some Stopping.
Proof.
  intros Hr Hin. pose proof (system_inv _ _ _ Hnew Hcap Hr) as HI.
  pose proof (si_callers _ HI) as Hk. rewrite Forall_forall in Hk. destruct (Hk _ Hin) as [s Hs]. cbn in Hs.
  destruct (si_inst _ HI url s Hs) as [H1 H2 _ _]. split.
  - destruct (start_turn now url (ctl σ)) as [c' t] eqn:Et. cbn. intros ->.
    apply start_turn_spec in Et as [?|(s' & Hs' & Hw & Hh)]; simplify_eq. destruct (H1 Hw). congruence.
  - unfold status. rewrite Hs. by intros [= ?].
Qed.

(** C36. Admission control: never more than [max_concurrent_warms] databases are being opened, the
    peak that the statistics report respects the bound, and no permit is lost or made up. *)
Theorem controller_warms_bounded σ :
  rtc any_step (system_init c) σ →
  count in_gauge (callers σ) ≤ max_concurrent_warms (cfg (ctl σ)) ∧
  (∀ now, cs_peak_workers (stats now (ctl σ)) ≤ max_concurrent_warms (cfg (ctl σ))) ∧
  permits (ctl σ) = max_concurrent_warms (cfg (ctl σ)) - count holds_permit (callers σ) ∧ 0 ≤ permits (ctl σ).
Proof.
  intros Hr. pose proof (system_inv _ _ _ Hnew Hcap Hr) as HI.
  pose proof (si_permits _ HI). pose proof (si_permits_pos _ HI).
  pose proof (count_le in_gauge holds_permit (callers σ) ltac:(by intros [])). split_and!; [lia| |lia|done].
  intros now. unfold stats. destruct (foldl _ _ _) as [[? ?] ?]. apply (si_peak _ HI).
Qed.

(** Thundering herd: in a run without [stop] and without a lost lease, whatever the number of
    calls of [start], an instance is [Warming] exactly when one call is opening it, and no instance
    is being opened twice. *)
Theorem controller_one_warm σ url :
  rtc quiet_step (system_init c) σ →
  count (warms url) (callers σ) = (if bool_decide (status url (ctl σ) = Some Warming) then 1 else 0).
Proof.
  intros Hr. enough (Inv σ ∧ Herd σ) as [_ H] by apply H.
  assert (Inv (system_init c) ∧ Herd (system_init c)) as Hi.
  { split; [by apply (system_inv _ _ _ Hnew Hcap), rtc_refl|]. unfold Controller_new in Hnew.
    destruct (_ =? _); [done|]. destruct (_ || _); [done|]. injection Hnew as <-. done. }
  clear Hnew Hcap. induction Hr as [|x y z Hs _ IH]; [done|]. destruct Hi as [HI HH].
  apply IH. split; [destruct Hs as (l & _ & Hs); by eapply sstep_inv|by eapply herd_step].
Qed.

(** C37. Every call returns, and no wake-up is lost: from every state that the controller can reach,
    however the calls in progress are scheduled and whatever their opens answer, their own steps
    come to an end after at most [work] steps (quadratic in the number of calls, without counting on
    spurious wake-ups, on new calls, on [stop], on leases being dropped or on the reaper); and a
    run of theirs that cannot go on has no call left: none is asleep on the condition variable of
    its instance or of the semaphore, and every call ended with a lease of its own, but for those
    whose open failed. *)
Theorem controller_starts_return σ ls σ' :
  rtc any_step (system_init c) σ → own_run ls σ σ' →
  (length ls ≤ work (callers σ))%nat ∧
  ((¬ ∃ σ'', own_step σ' σ'') → callers σ' = [] ∧
     zlen (leases σ') = zlen (leases σ) + zlen (callers σ) - count failed ls).
Proof.
  intros Hr Ho. split; [pose proof (own_run_work _ _ _ Ho); lia|]. intros Hstuck.
  assert (rtc any_step (system_init c) σ') as Hr' by (etrans; [exact Hr|by eapply own_run_any]).
  assert (callers σ' = []) as E.
  { destruct (decide (callers σ' = [])) as [|Hne]; [done|]. destruct Hstuck.
    apply callers_progress; [by apply (system_inv _ _ _ Hnew Hcap)| |done]. rewrite (reachable_cfg _ _ Hr').
    unfold Controller_new in Hnew. destruct (Z.eqb_spec (max_concurrent_warms c0) 0); [done|].
    destruct (_ || _); [done|]. injection Hnew as <-. cbn. lia. }
  split; [done|]. pose proof (own_run_leases _ _ _ Ho) as Hl. rewrite E in Hl. unfold zlen at 2 in Hl. cbn in Hl. lia.
Qed.

End Properties.

(** Scale to zero: a pass of the reaper tears down exactly the warm instances that hold no lease
    and have been idle for the timeout, unless they are to be kept warm; every other instance whose
    heartbeat succeeds stays warm with its database and its leases. *)
Theorem controller_scales_to_zero renew now c url s db :
  instances c !! url = Some s → is_warm (phase s) = true → handle s = Some db → renew db = true →
  ∃ s', instances (reap_once renew now c) !! url = Some s' ∧ active s' = active s ∧
    if (active s =? 0) && (idle_timeout (cfg c) <=? Z.max 0 (now - last_activity s)) && negb (keep_warm (cfg c))
    then phase s' = Cold ∧ handle s' = None
    else is_warm (phase s') = true ∧ handle s' = Some db.
Proof.
  intros Hs Hw Hh Hr. destruct (reap_once_at renew now c url s Hs) as (c' & Hs' & Hcfg & ->).
  unfold reap_instance, reap_read. rewrite Hs'. cbn. rewrite Hh. cbn. unfold reap_heartbeat. rewrite Hw, Hr.
  unfold reap_settle. change (instances (count_with add_renew c')) with (instances c'). rewrite Hs'.
  change (cfg (count_with add_renew c')) with (cfg c'). rewrite Hcfg.
  destruct (Z.eqb_spec (active s) 0) as [Hz|Hz]; cbn [andb].
  - assert (∃ s1 k1, (if bool_decide (phase s = Active) then enter_phase now Idle (s, counters (count_with add_renew c'))
      else (s, counters (count_with add_renew c'))) = (s1, k1) ∧ phase s1 = Idle ∧ handle s1 = handle s ∧
      active s1 = active s ∧ last_activity s1 = last_activity s) as (s1 & k1 & -> & Hp & H1 & H2 & H3).
    { case_bool_decide as E; [by eexists _, _|]. eexists _, _. split; [done|]. by destruct (phase s). }
    cbn [fst snd]. rewrite bool_decide_true, H3 by done. cbn [andb].
    destruct ((idle_timeout (cfg c) <=? Z.max 0 (now - last_activity s)) && negb (keep_warm (cfg c)));
      (eexists; split; [apply lookup_insert_eq|]); cbn; [done|]. by rewrite H1, H2, Hp.
  - case_bool_decide as E.
    + eexists. split; [apply lookup_insert_eq|]. done.
    + exists s. done.
Qed.

(** ** Runs *)

Module Runs.

Definition ctl0 : ControllerInner :=
  mkController ControllerConfig_default ∅ 16 counters_zero false.

Lemma new_ok : Controller_new ControllerConfig_default = Ok ctl0.
Proof. reflexivity. Qed.

Lemma get_or_create_known now url c : is_Some (instances c !! url) → get_or_create now url c = c.
Proof. intros [s Hs]. unfold get_or_create. by rewrite Hs. Qed.

(** The states of a call of [start "db"] up to its lease. *)
Definition called : ControllerInner := get_or_create 0 "db" ctl0.
Definition turned (c : ControllerInner) : ControllerInner := (start_turn 1 "db" c).1.
Definition admitted (c : ControllerInner) : ControllerInner := default c (sem_acquire (turned c)).
Definition opening (c : ControllerInner) : ControllerInner := warm_enter 1 1 (admitted c).
Definition settled (db : Z) (c : ControllerInner) : ControllerInner :=
  (start_settle 2 "db" (Some db) (sem_release (Some db) (warm_leave c)).1).1.

Lemma quietly_own σ σ' : sstep Own σ σ' → quiet_step σ σ'.
Proof. by exists Own. Qed.

Lemma quietly_other σ σ' : sstep Other σ σ' → quiet_step σ σ'.
Proof. by exists Other. Qed.

(** Nobody sleeps: the notifications change nothing. *)
Definition awake (cs : list Caller) : Prop := Forall (λ t, waiting t = false ∧ parked t = false) cs.

Lemma awake_notified n url cs : awake cs → notified n url cs = cs.
Proof.
  destruct n; try done. cbn. induction 1 as [|t cs [Ht _] _ IH]; [done|]. cbn. rewrite IH. by destruct t.
Qed.

(** A call goes all the way into the open. *)
Lemma into_open c cs cs' ls r :
  (start_turn 1 "db" c).2 = TurnWarm → permits (turned c) ≠ 0 →
  rtc quiet_step (mkSystem c (cs ++ Looping "db" :: cs') ls r) (mkSystem (opening c) (cs ++ Opening "db" :: cs') ls r).
Proof.
  intros H1 H2. assert (sem_acquire (turned c) = Some (admitted c)) as H3.
  { unfold admitted, sem_acquire. by destruct (Z.eqb_spec (permits (turned c)) 0). }
  eapply rtc_l; [apply quietly_own, (do_warm 1 "db" c (turned c)); unfold turned; rewrite <- H1; by destruct (start_turn 1 "db" c)|].
  eapply rtc_l; [by apply quietly_own, (do_admit "db" 1 (turned c) (admitted c))|].
  eapply rtc_l; [apply quietly_own, (do_enter 1)|apply rtc_refl].
Qed.

(** And out of it, with a database. *)
Lemma out_of_open db c cs cs' ls r :
  awake (cs ++ cs') →
  rtc quiet_step (mkSystem c (cs ++ Opening "db" :: cs') ls r)
    (mkSystem (settled db c) (cs ++ cs') (("db"%string, db) :: ls) r).
Proof.
  intros Ha. eapply rtc_l; [apply quietly_own, (do_leave "db" (Some db))|].
  eapply rtc_l; [apply quietly_own, (do_release "db" (Some db) _ cs cs' (cs ++ Opened "db" (Some db) :: cs')), woken_none|].
  { unfold awake in Ha. rewrite Forall_app, ?Forall_cons in *. destruct Ha as [H1 H2].
    split_and!; [eapply Forall_impl; [exact H1|by intros t []]|done|eapply Forall_impl; [exact H2|by intros t []]]. }
  eapply rtc_l; [apply quietly_own, (do_settle 2 "db" (Some db))|]. by rewrite awake_notified.
Qed.

Lemma quiet_any σ σ' : rtc quiet_step σ σ' → rtc any_step σ σ'.
Proof. apply rtc_subrel. intros x y (l & _ & H). by exists l. Qed.

Lemma run_opening : rtc quiet_step (system_init ctl0) (mkSystem (opening called) [Opening "db"] [] Asleep).
Proof.
  eapply rtc_l; [apply quietly_other, (do_call 0 "db")|]. apply (into_open called [] []); by vm_compute.
Qed.

Lemma run_leased : rtc quiet_step (system_init ctl0) (mkSystem (settled 1 (opening called)) [] [("db", 1)]%string Asleep).
Proof. etrans; [exact run_opening|]. apply (out_of_open 1 _ [] []); by constructor. Qed.

(** A second caller waits while the first opens. *)
Lemma run_waiting : rtc quiet_step (system_init ctl0)
  (mkSystem (opening called) [Looping "db"; Opening "db"] [] Asleep).
Proof.
  etrans; [exact run_opening|]. eapply rtc_l; [apply quietly_other, (do_call 1 "db")|].
  rewrite get_or_create_known by (eexists; vm_compute; reflexivity). apply rtc_refl.
Qed.

Lemma controller_never_panics_witness :
  (start_turn 5 "db" (opening called)).2 ≠ TurnPanic ∧ status "db" (opening called) ≠ Some Stopping.
Proof.
  apply (controller_never_panics ControllerConfig_default ctl0 new_ok ltac:(vm_compute; discriminate)
    _ "db" 5 (quiet_any _ _ run_waiting)). apply list_elem_of_here.
Defined.

Lemma controller_warms_bounded_witness :
  count in_gauge [Looping "db"; Opening "db"] ≤ 16 ∧ permits (opening called) = 16 - 1.
Proof.
  destruct (controller_warms_bounded ControllerConfig_default ctl0 new_ok ltac:(vm_compute; discriminate)
    _ (quiet_any _ _ run_waiting)) as (H1 & _ & H2 & _). split; [exact H1|exact H2].
Defined.

Lemma controller_one_warm_witness : count (warms "db") [Looping "db"; Opening "db"] = 1.
Proof.
  exact (controller_one_warm ControllerConfig_default ctl0 new_ok ltac:(vm_compute; discriminate) _ "db" run_waiting).
Defined.

Lemma no_callers_stuck σ : callers σ = [] → ¬ ∃ σ', own_step σ σ'.
Proof.
  intros E (σ' & l & Ho & Hs). destruct Hs; cbn in E; try (by apply app_eq_nil in E as [_ ?]); try (by destruct Ho).
  by destruct fenced, Ho.
Qed.

(** The second caller falls asleep, the open fails, and the sleeper, woken, opens the database
    itself. *)
Definition woke : ControllerInner := (start_settle 2 "db" None (sem_release None (warm_leave (opening called))).1).1.

Lemma run_returns :
  own_run [Own; Own; Own; Failed; Own; Own; Own; Own; Own; Own]
    (mkSystem (opening called) [Looping "db"; Opening "db"] [] Asleep)
    (mkSystem (settled 1 (opening woke)) [] [("db", 1)]%string Asleep).
Proof.
  eapply own_cons; [by left|by apply (do_wait 2 "db" (opening called) (opening called) [] [Opening "db"])|].
  eapply own_cons; [by left|apply (do_leave "db" None _ [Waiting "db"] [])|].
  eapply own_cons; [by left|apply (do_release "db" None _ [Waiting "db"] []), woken_none; by repeat constructor|].
  eapply own_cons; [by right|apply (do_settle 2 "db" None _ [Waiting "db"] [])|].
  eapply own_cons; [by left|by apply (do_warm 1 "db" woke (turned woke) [] [])|].
  eapply own_cons; [by left|by apply (do_admit "db" 1 (turned woke) (admitted woke) [] [])|].
  eapply own_cons; [by left|apply (do_enter 1 "db" 1 _ [] [])|].
  eapply own_cons; [by left|apply (do_leave "db" (Some 1) _ [] [])|].
  eapply own_cons; [by left|apply (do_release "db" (Some 1) _ [] []), woken_none; by repeat constructor|].
  eapply own_cons; [by left|apply (do_settle 2 "db" (Some 1) _ [] [])|].
  rewrite awake_notified by constructor. unfold settled, opening. apply own_nil.
Qed.

Lemma controller_starts_return_witness :
  (10 ≤ work [Looping "db"; Opening "db"])%nat ∧ zlen [("db"%string, 1)] = 0 + 2 - 1.
Proof.
  destruct (controller_starts_return ControllerConfig_default ctl0 new_ok ltac:(vm_compute; discriminate)
    _ _ _ (quiet_any _ _ run_waiting) run_returns) as [H1 H2]. split; [exact H1|].
  destruct H2 as [_ H2]; [by apply no_callers_stuck|exact H2].
Defined.

(** The instance of a returned lease that was dropped at time 3, at time 3 + 30 s. *)
Definition dropped : ControllerInner := (lease_drop 3 "db" (settled 1 (opening called))).1.

Lemma controller_scales_to_zero_witness :
  ∃ s', instances (reap_once (λ _, true) 30000003 dropped) !! "db"%string = Some s' ∧ active s' = 0 ∧
    phase s' = Cold ∧ handle s' = None.
Proof.
  exact (controller_scales_to_zero (λ _, true) 30000003 dropped "db" (mkInst Active (Some 1) 0 3 2) 1
    eq_refl eq_refl eq_refl eq_refl).
Defined.

(** ** [stop] and a lost lease *)

Definition stopped : ControllerInner := (stop 1 "db" (opening called)).1.

(** [stop] during a warm-up resets the instance to [Cold] and lets a second call open the same
    database at the same time; both get leases, on two different open databases. *)
Theorem controller_stop_breaks_herd :
  rtc any_step (system_init ctl0)
    (mkSystem (opening stopped) [Opening "db"; Opening "db"] [] Asleep) ∧
  rtc any_step (system_init ctl0)
    (mkSystem (settled 1 (settled 2 (opening stopped))) [] [("db", 1); ("db", 2)]%string Asleep).
Proof.
  assert (rtc any_step (system_init ctl0) (mkSystem (opening stopped) [Opening "db"; Opening "db"] [] Asleep)) as H1.
  { etrans; [apply quiet_any, run_waiting|]. eapply rtc_l; [exists Stopped; apply (do_stop 1 "db")|].
    rewrite awake_notified by (by repeat constructor).
    apply quiet_any, (into_open stopped [] [Opening "db"]); by vm_compute. }
  split; [done|]. etrans; [exact H1|]. apply quiet_any.
  etrans; [apply (out_of_open 2 _ [] [Opening "db"]); by repeat constructor|]. apply (out_of_open 1 _ [] []); by constructor.
Qed.

(** The reaper judges an instance by the database it read before the heartbeat: while the renewal
    of that one fails, the instance may have been stopped and started again, and its new, healthy
    database is dropped under its lease. *)
Abbreviation restarted := (settled 2 (opening (stop 4 "db" dropped).1)).

Theorem controller_reaps_wrong_database :
  reap_read "db" dropped = Some (Active, 1) ∧ reap_heartbeat Active false dropped = (dropped, true) ∧
  rtc any_step (system_init ctl0)
    (mkSystem (reap_settle 5 "db" true restarted).1 [] [("db", 2)]%string (Passing [])) ∧
  status "db" (reap_settle 5 "db" true restarted).1 = Some Cold.
Proof.
  split_and!; [done|done| |done]. etrans; [apply quiet_any, run_leased|].
  eapply rtc_l; [exists Other; apply (do_drop 3 "db" 1 _ [] [] [])|].
  rewrite awake_notified by constructor. cbn [app].
  eapply rtc_l; [exists Other; apply do_pass|].
  replace (map_to_list (instances (lease_drop 3 "db" (settled 1 (opening called))).1)).*1 with ["db"%string]
    by (vm_compute; reflexivity).
  eapply rtc_l; [exists Other; by apply (do_heartbeat "db" Active 1 false dropped dropped [] [] [] true)|].
  eapply rtc_l; [exists Stopped; apply (do_stop 4 "db")|]. rewrite awake_notified by constructor. eapply rtc_l; [exists Other; apply (do_call 4 "db")|].
  rewrite get_or_create_known by (eexists; vm_compute; reflexivity).
  etrans; [apply quiet_any, (into_open (stop 4 "db" dropped).1 [] []); by vm_compute|].
  etrans; [apply quiet_any, (out_of_open 2 _ [] []); by constructor|].
  eapply rtc_l; [exists Fenced; apply (do_reap 5 "db" true restarted [] [("db", 2)]%string [])|].
  rewrite awake_notified by constructor. apply rtc_refl.
Qed.

End Runs.
