(* ===== verification/Wal.v ===== *)
(** * The engine's log records (crates/engine/src/wal.rs)

    [WalOp] and its byte encoding: what a transaction writes to storage and what recovery reads
    back.  A string is its length as a [u32] and its UTF-8 bytes; a list is its length as a [u32]
    and its elements; lengths are truncated by [as u32] exactly as [u32_le] truncates.  Decoding
    is a parser over the bytes that are left (the [Cursor]); every failure is [ErrInternal]. *)

From S2P Require Import Prelude Text StorageTypes EngineTypes.

(** ** UTF-8 *)

Definition in_range (lo hi : Z) (b : Init.Byte.byte) : bool := (lo <=? bz b) && (bz b <=? hi).
Definition utf8_cont : Init.Byte.byte → bool := in_range 0x80 0xBF.

(** The second byte a three-byte or four-byte lead admits. *)
Definition utf8_second3 (b0 b1 : Init.Byte.byte) : bool :=
  if bz b0 =? 0xE0 then in_range 0xA0 0xBF b1
  else if bz b0 =? 0xED then in_range 0x80 0x9F b1
  else in_range 0xE1 0xEF b0 && utf8_cont b1.
Definition utf8_second4 (b0 b1 : Init.Byte.byte) : bool :=
  if bz b0 =? 0xF0 then in_range 0x90 0xBF b1
  else if bz b0 =? 0xF4 then in_range 0x80 0x8F b1
  else in_range 0xF1 0xF3 b0 && utf8_cont b1.

(** [String::from_utf8] accepts exactly the well-formed byte sequences of the Unicode
    standard: no overlong form, no surrogate, nothing above U+10FFFF. *)
Fixpoint utf8_valid (bs : bytes) : bool :=
  match bs with
  | [] => true
  | b0 :: r0 =>
      if bz b0 <? 0x80 then utf8_valid r0
      else match r0 with
      | [] => false
      | b1 :: r1 =>
          if in_range 0xC2 0xDF b0 then utf8_cont b1 && utf8_valid r1
          else match r1 with
          | [] => false
          | b2 :: r2 =>
              if in_range 0xE0 0xEF b0
              then utf8_second3 b0 b1 && utf8_cont b2 && utf8_valid r2
              else match r2 with
              | [] => false
              | b3 :: r3 =>
                  in_range 0xF0 0xF4 b0 && utf8_second4 b0 b1 && utf8_cont b2 && utf8_cont b3
                  && utf8_valid r3
              end
          end
      end
  end.

Definition str_bytes (s : string) : bytes := list_byte_of_string s.
Definition str_utf8 (s : string) : bool := utf8_valid (str_bytes s).

(** ** Log operations *)

Inductive WalOp :=
| CreateTable (schema : TableSchema)
| DropTable (name : string)
| Insert (table : string) (vid : Z) (values : list Value)
| Delete (table : string) (vid : Z)
| CreateIndex (def : IndexDef)
| DropIndex (name : string)
| AlterAddColumn (table : string) (column : Column)
| AlterDropColumn (table column : string)
| AlterRenameColumn (table from to : string)
| AlterRenameTable (table to : string)
| CreateView (name sql : string)
| DropView (name : string)
| CreatePolicy (table : string) (policy : Policy)
| DropPolicy (table name : string)
| SetRls (table : string) (enabled : bool)
| Commit.

#[export] Instance WalOp_eq_dec : EqDecision WalOp.
Proof. solve_decision. Defined.

Definition OP_CREATE := Init.Byte.x01.
Definition OP_DROP := Init.Byte.x02.
Definition OP_INSERT := Init.Byte.x03.
Definition OP_DELETE := Init.Byte.x04.
Definition OP_COMMIT := Init.Byte.x05.
Definition OP_CREATE_INDEX := Init.Byte.x06.
Definition OP_DROP_INDEX := Init.Byte.x07.
Definition OP_ALTER_ADD := Init.Byte.x08.
Definition OP_ALTER_DROP := Init.Byte.x09.
Definition OP_ALTER_RENAME_COL := Init.Byte.x0a.
Definition OP_ALTER_RENAME_TABLE := Init.Byte.x0b.
Definition OP_CREATE_VIEW := Init.Byte.x0c.
Definition OP_DROP_VIEW := Init.Byte.x0d.
Definition OP_CREATE_POLICY := Init.Byte.x0e.
Definition OP_DROP_POLICY := Init.Byte.x0f.
Definition OP_SET_RLS := Init.Byte.x10.

(** ** Encoding *)

Definition put_u32 (v : Z) : bytes := u32_le v.
Definition put_u64 (v : Z) : bytes := u64_le v.
Definition put_str (s : string) : bytes := put_u32 (zlen (str_bytes s)) ++ str_bytes s.
Definition put_opt_str (s : option string) : bytes :=
  match s with
  | Some s => Init.Byte.x01 :: put_str s
  | None => [Init.Byte.x00]
  end.

(** [put_u32(len); for x in l { put(x) }]. *)
Definition put_list {A} (put : A → bytes) (l : list A) : bytes :=
  put_u32 (zlen l) ++ concat (put <$> l).

Definition put_coltype (ty : ColumnType) : bytes :=
  ColumnType_tag ty :: match ty with CVector d => put_u32 d | _ => [] end.

Definition put_value (v : Value) : bytes :=
  match v with
  | Null => [Init.Byte.x00]
  | Int i => Init.Byte.x01 :: put_u64 (i64_as_u64 i)
  | Real r => Init.Byte.x02 :: u64_le r
  | TextV s => Init.Byte.x03 :: put_str s
  | Blob b => Init.Byte.x04 :: put_u32 (zlen b) ++ b
  | Vector v => Init.Byte.x05 :: put_list u32_le v
  end.

Definition column_flags (c : Column) : Z :=
  Z.lor (Z.lor (Z.lor (if primary_key c then 1 else 0) (if not_null c then 2 else 0))
               (if unique c then 4 else 0))
        (if autoincrement c then 8 else 0).

Definition put_column (c : Column) : bytes :=
  put_str (col_name c) ++ put_coltype (col_ty c) ++ [byte.of_Z (column_flags c)].

Definition put_foreign_key (fk : ForeignKey) : bytes :=
  put_str (fk_name fk) ++ put_str (foreign_table fk)
  ++ put_list put_str (fk_columns fk) ++ put_list put_str (foreign_columns fk).

(** The section of defaults, checks and composite uniques that follows the foreign keys. *)
Definition put_table_extras (cols : list Column) (chks : list string) (unqs : list (list string))
    : bytes :=
  put_list (λ c, put_opt_str (default_sql c)) cols
  ++ put_list put_str chks ++ put_list (put_list put_str) unqs.

Definition put_create (s : TableSchema) : bytes :=
  put_str (schema_name s) ++ put_list put_column (columns s)
  ++ put_list put_foreign_key (foreign_keys s)
  ++ put_table_extras (columns s) (checks s) (uniques s).

Definition put_index (d : IndexDef) : bytes :=
  put_str (ix_name d) ++ put_str (ix_table d) ++ put_str (ix_column d)
  ++ put_u32 (ip_m (ix_params d)) ++ put_u32 (ef_construction (ix_params d))
  ++ put_u32 (ef_search (ix_params d)) ++ [Metric_tag (ip_metric (ix_params d))].

Definition put_policy (p : Policy) : bytes :=
  put_str (pol_name p) ++ [PolicyCommand_tag (pol_command p)] ++ put_list put_str (pol_roles p)
  ++ put_opt_str (pol_using p) ++ put_opt_str (pol_check p).

Definition bool_byte (b : bool) : Init.Byte.byte := if b then Init.Byte.x01 else Init.Byte.x00.

(** [WalOp::encode]. *)
Definition encode_bytes (op : WalOp) : bytes :=
  match op with
  | CreateTable schema => OP_CREATE :: put_create schema
  | DropTable name => OP_DROP :: put_str name
  | CreateIndex def => OP_CREATE_INDEX :: put_index def
  | DropIndex name => OP_DROP_INDEX :: put_str name
  | Insert table vid values =>
      OP_INSERT :: put_str table ++ put_u64 vid ++ put_list put_value values
  | Delete table vid => OP_DELETE :: put_str table ++ put_u64 vid
  | AlterAddColumn table column =>
      OP_ALTER_ADD :: put_str table ++ put_list put_column [column]
      ++ put_table_extras [column] [] []
  | AlterDropColumn table column => OP_ALTER_DROP :: put_str table ++ put_str column
  | AlterRenameColumn table from to =>
      OP_ALTER_RENAME_COL :: put_str table ++ put_str from ++ put_str to
  | AlterRenameTable table to => OP_ALTER_RENAME_TABLE :: put_str table ++ put_str to
  | CreateView name sql => OP_CREATE_VIEW :: put_str name ++ put_str sql
  | DropView name => OP_DROP_VIEW :: put_str name
  | CreatePolicy table policy => OP_CREATE_POLICY :: put_str table ++ put_policy policy
  | DropPolicy table name => OP_DROP_POLICY :: put_str table ++ put_str name
  | SetRls table enabled => OP_SET_RLS :: put_str table ++ [bool_byte enabled]
  | Commit => [OP_COMMIT]
  end.

Definition encode (op : WalOp) : WalRecord := mkWal (encode_bytes op).

(** ** Decoding *)

Abbreviation Dec := (Parser EngineStatus).

(** [Cursor]. *)
Definition at_end : Dec bool := λ bs, Ok (bool_decide (bs = []), bs).
Definition c_take (n : Z) : Dec bytes := p_take ErrInternal n.
Definition c_u8 : Dec Init.Byte.byte := p_u8 ErrInternal.
Definition c_u32 : Dec Z := p_u32 ErrInternal.
Definition c_u64 : Dec Z := p_u64 ErrInternal.

Definition c_str : Dec string :=
  n ← c_u32; s ← c_take n;
  if utf8_valid s then mret (string_of_list_byte s) else p_fail ErrInternal.

Definition c_opt_str : Dec (option string) :=
  b ← c_u8;
  if Byte.eqb b Init.Byte.x01 then s ← c_str; mret (Some s) else mret None.

(** [let n = c.u32()?; for _ in 0..n { v.push(p(c)?) }]. *)
Definition c_list {A} (p : Dec A) : Dec (list A) := n ← c_u32; p_rep (Z.to_nat n) p.

Definition c_value : Dec Value :=
  tag ← c_u8;
  match tag with
  | Init.Byte.x00 => mret Null
  | Init.Byte.x01 => v ← c_u64; mret (Int (u64_as_i64 v))
  | Init.Byte.x02 => b ← c_take 8; mret (Real (from_le b))
  | Init.Byte.x03 => s ← c_str; mret (TextV s)
  | Init.Byte.x04 => n ← c_u32; b ← c_take n; mret (Blob b)
  | Init.Byte.x05 => v ← c_list (b ← c_take 4; mret (from_le b)); mret (Vector v)
  | _ => p_fail ErrInternal
  end.

Definition c_coltype : Dec ColumnType :=
  tag ← c_u8;
  if Byte.eqb tag Init.Byte.x04 then d ← c_u32; mret (CVector d)
  else mret (ColumnType_from_tag tag).

Definition decode_str_list : Dec (list string) := c_list c_str.

Definition flag_set (flags : Init.Byte.byte) (bit : Z) : bool := negb (Z.land (bz flags) bit =? 0).

Definition decode_column : Dec Column :=
  name ← c_str; ty ← c_coltype; flags ← c_u8;
  mret {| col_name := name; col_ty := ty;
          primary_key := flag_set flags 1; not_null := flag_set flags 2;
          unique := flag_set flags 4; autoincrement := flag_set flags 8;
          default_sql := None |}.

Definition decode_columns : Dec (list Column) := c_list decode_column.

Definition set_default (s : string) (c : Column) : Column :=
  {| col_name := col_name c; col_ty := col_ty c; primary_key := primary_key c;
     not_null := not_null c; unique := unique c; autoincrement := autoincrement c;
     default_sql := Some s |}.

(** [for i in 0..ncols { if c.u8()? == 1 { columns.get_mut(i).default_sql = Some(c.str()?) } }]:
    a default past the last column is read and dropped. *)
Fixpoint decode_defaults (n i : nat) (cols : list Column) : Dec (list Column) :=
  match n with
  | O => mret cols
  | S n =>
      b ← c_u8;
      if Byte.eqb b Init.Byte.x01
      then s ← c_str; decode_defaults n (S i) (alter (set_default s) i cols)
      else decode_defaults n (S i) cols
  end.

Definition decode_table_extras (cols : list Column)
    : Dec (list Column * (list string * list (list string))) :=
  e ← at_end;
  if (e : bool) then mret (cols, ([], []))
  else
    ncols ← c_u32;
    cols ← decode_defaults (Z.to_nat ncols) 0 cols;
    chks ← decode_str_list;
    unqs ← c_list decode_str_list;
    mret (cols, (chks, unqs)).

Definition decode_foreign_key : Dec ForeignKey :=
  name ← c_str; ftable ← c_str; cols ← decode_str_list; fcols ← decode_str_list;
  mret {| fk_name := name; fk_columns := cols; foreign_table := ftable; foreign_columns := fcols |}.

Definition decode_foreign_keys : Dec (list ForeignKey) :=
  e ← at_end;
  if (e : bool) then mret [] else c_list decode_foreign_key.

Definition decode_create : Dec WalOp :=
  name ← c_str;
  cols ← decode_columns;
  fks ← decode_foreign_keys;
  ext ← decode_table_extras cols;
  mret (CreateTable {| schema_name := name; columns := ext.1; foreign_keys := fks;
                       checks := ext.2.1; uniques := ext.2.2;
                       rls_enabled := false; policies := [] |}).

Definition decode_alter_add : Dec WalOp :=
  table ← c_str;
  cols ← decode_columns;
  ext ← decode_table_extras cols;
  match last ext.1 with
  | Some c => mret (AlterAddColumn table c)
  | None => p_fail ErrInternal
  end.

Definition decode_create_policy : Dec WalOp :=
  table ← c_str; name ← c_str; cmd ← c_u8; roles ← decode_str_list;
  usg ← c_opt_str; chk ← c_opt_str;
  mret (CreatePolicy table
          {| pol_name := name; pol_command := PolicyCommand_from_tag cmd; pol_roles := roles;
             pol_using := usg; pol_check := chk |}).

Definition decode_create_index : Dec WalOp :=
  name ← c_str; table ← c_str; column ← c_str;
  m ← c_u32; efc ← c_u32; efs ← c_u32; metric ← c_u8;
  mret (CreateIndex {| ix_name := name; ix_table := table; ix_column := column;
                       ix_params := mkParams m efc efs (Metric_from_tag metric) |}).

Definition decode_insert : Dec WalOp :=
  table ← c_str; vid ← c_u64; values ← c_list c_value; mret (Insert table vid values).

Definition decode_catalog_op (tag : Init.Byte.byte) : Dec WalOp :=
  if Byte.eqb tag OP_ALTER_DROP then
    table ← c_str; column ← c_str; mret (AlterDropColumn table column)
  else if Byte.eqb tag OP_ALTER_RENAME_COL then
    table ← c_str; from ← c_str; to ← c_str; mret (AlterRenameColumn table from to)
  else if Byte.eqb tag OP_ALTER_RENAME_TABLE then
    table ← c_str; to ← c_str; mret (AlterRenameTable table to)
  else if Byte.eqb tag OP_CREATE_VIEW then
    name ← c_str; sql ← c_str; mret (CreateView name sql)
  else if Byte.eqb tag OP_DROP_VIEW then name ← c_str; mret (DropView name)
  else if Byte.eqb tag OP_CREATE_POLICY then decode_create_policy
  else if Byte.eqb tag OP_DROP_POLICY then
    table ← c_str; name ← c_str; mret (DropPolicy table name)
  else if Byte.eqb tag OP_SET_RLS then
    table ← c_str; b ← c_u8; mret (SetRls table (negb (Byte.eqb b Init.Byte.x00)))
  else p_fail ErrInternal.

Definition decode_op : Dec WalOp :=
  tag ← c_u8;
  if Byte.eqb tag OP_CREATE then decode_create
  else if Byte.eqb tag OP_ALTER_ADD then decode_alter_add
  else if Byte.eqb tag OP_DROP then name ← c_str; mret (DropTable name)
  else if Byte.eqb tag OP_CREATE_INDEX then decode_create_index
  else if Byte.eqb tag OP_DROP_INDEX then name ← c_str; mret (DropIndex name)
  else if Byte.eqb tag OP_INSERT then decode_insert
  else if Byte.eqb tag OP_DELETE then table ← c_str; vid ← c_u64; mret (Delete table vid)
  else if Byte.eqb tag OP_COMMIT then mret Commit
  else decode_catalog_op tag.

(** [WalOp::decode]: bytes after the operation are ignored. *)
Definition decode (bs : bytes) : Result EngineStatus WalOp :=
  match decode_op bs with
  | Ok (op, _) => Ok op
  | Err e => Err e
  end.
