(* ===== verification/WalSpec.v ===== *)
(** * Properties of the log encoding

    A log operation that fits the encoding's widths decodes to itself; records of the two earlier
    formats of CREATE TABLE decode with the missing sections empty; decoding any byte string
    either yields an operation that fits the widths or fails with [ErrInternal]. *)

From S2P Require Import Prelude Text StorageTypes EngineTypes Wal.

(** ** The operations the encoding can represent *)

Definition fits {A} (l : list A) : Prop := zlen l < 2 ^ 32.
Definition str_ok (s : string) : Prop := str_utf8 s = true ∧ fits (str_bytes s).
Definition opt_str_ok (s : option string) : Prop := default True (str_ok <$> s).
Definition list_ok {A} (P : A → Prop) (l : list A) : Prop := fits l ∧ Forall P l.

Definition coltype_ok (t : ColumnType) : Prop :=
  match t with CVector d => is_u32 d | _ => True end.

Definition value_ok (v : Value) : Prop :=
  match v with
  | Null => True
  | Int i => is_i64 i
  | Real r => is_u64 r
  | TextV s => str_ok s
  | Blob b => fits b
  | Vector v => list_ok is_u32 v
  end.

Definition column_ok (c : Column) : Prop :=
  str_ok (col_name c) ∧ coltype_ok (col_ty c) ∧ opt_str_ok (default_sql c).

Definition foreign_key_ok (fk : ForeignKey) : Prop :=
  str_ok (fk_name fk) ∧ str_ok (foreign_table fk) ∧
  list_ok str_ok (fk_columns fk) ∧ list_ok str_ok (foreign_columns fk).

(** A CREATE TABLE record never carries row-level-security state. *)
Definition schema_ok (s : TableSchema) : Prop :=
  str_ok (schema_name s) ∧ list_ok column_ok (columns s) ∧
  list_ok foreign_key_ok (foreign_keys s) ∧ list_ok str_ok (checks s) ∧
  list_ok (list_ok str_ok) (uniques s) ∧ rls_enabled s = false ∧ policies s = [].

Definition index_ok (d : IndexDef) : Prop :=
  str_ok (ix_name d) ∧ str_ok (ix_table d) ∧ str_ok (ix_column d) ∧
  is_u32 (ip_m (ix_params d)) ∧ is_u32 (ef_construction (ix_params d)) ∧
  is_u32 (ef_search (ix_params d)).

Definition policy_ok (p : Policy) : Prop :=
  str_ok (pol_name p) ∧ list_ok str_ok (pol_roles p) ∧
  opt_str_ok (pol_using p) ∧ opt_str_ok (pol_check p).

Definition op_ok (op : WalOp) : Prop :=
  match op with
  | CreateTable s => schema_ok s
  | DropTable n | DropIndex n | DropView n => str_ok n
  | Insert t vid vs => str_ok t ∧ is_u64 vid ∧ list_ok value_ok vs
  | Delete t vid => str_ok t ∧ is_u64 vid
  | CreateIndex d => index_ok d
  | AlterAddColumn t c => str_ok t ∧ column_ok c
  | AlterRenameColumn t a b => str_ok t ∧ str_ok a ∧ str_ok b
  | AlterDropColumn t a | AlterRenameTable t a | CreateView t a | DropPolicy t a =>
      str_ok t ∧ str_ok a
  | CreatePolicy t p => str_ok t ∧ policy_ok p
  | SetRls t _ => str_ok t
  | Commit => True
  end.

#[local] Abbreviation rd := (reads (E := EngineStatus)).

(** ** Reading back what was written *)

Lemma reads_c_u8 b : rd c_u8 [b] b.
Proof. apply reads_u8. Qed.

Lemma reads_c_u32 z : is_u32 z → rd c_u32 (put_u32 z) z.
Proof. apply reads_u32. Qed.

Lemma reads_c_u64 z : is_u64 z → rd c_u64 (put_u64 z) z.
Proof. apply reads_u64. Qed.

Lemma fits_u32 {A} (l : list A) : fits l → is_u32 (zlen l).
Proof. unfold fits, is_u32. pose proof (zlen_nonneg l). lia. Qed.

(** A decoder after its first byte. *)
Lemma reads_u8_bind {B} (f : Init.Byte.byte → Dec B) b e v :
  rd (f b) e v → rd (c_u8 ≫= f) (b :: e) v.
Proof. intros H. apply (reads_bind c_u8 f [b] e b); [apply reads_c_u8 | exact H]. Qed.

(** Rewrites the value a decoder is expected to return. *)
Lemma reads_eq {A} (p : Dec A) e v v' : v = v' → rd p e v → rd p e v'.
Proof. by intros ->. Qed.

(** A decoder whose first part reads everything. *)
Lemma reads_bind_last {A B} (p : Dec A) (f : A → Dec B) e a b :
  rd p e a → rd (f a) [] b → rd (p ≫= f) e b.
Proof. intros H1 H2. rewrite <- (app_nil_r e). by eapply reads_bind. Qed.

Lemma reads_c_str s : str_ok s → rd c_str (put_str s) s.
Proof.
  intros [Hu Hf]. unfold c_str, put_str.
  eapply reads_bind; [by apply reads_c_u32, fits_u32|].
  eapply reads_bind_last; [by apply reads_take|].
  unfold str_utf8 in Hu. rewrite Hu.
  eapply reads_eq; [|apply reads_ret]. apply string_of_list_byte_of_string.
Qed.

Lemma reads_c_list {A} (p : Dec A) put (P : A → Prop) l :
  (∀ x, P x → rd p (put x) x) → list_ok P l → rd (c_list p) (put_list put l) l.
Proof.
  intros Hp [Hf HF]. unfold c_list, put_list.
  eapply reads_bind; [by apply reads_c_u32, fits_u32|].
  apply reads_rep; [|unfold zlen; lia].
  apply Forall2_fmap_l, Forall_Forall2_diag. by eapply Forall_impl.
Qed.

Lemma reads_str_list l : list_ok str_ok l → rd decode_str_list (put_list put_str l) l.
Proof. apply reads_c_list, reads_c_str. Qed.

Lemma reads_c_opt_str s : opt_str_ok s → rd c_opt_str (put_opt_str s) s.
Proof.
  intros Hs. destruct s as [s|]; apply reads_u8_bind; cbn.
  - by apply reads_map, reads_c_str.
  - apply reads_ret.
Qed.

Lemma reads_c_coltype t : coltype_ok t → rd c_coltype (put_coltype t) t.
Proof.
  intros Ht. destruct t; apply reads_u8_bind; cbn; try apply reads_ret.
  by apply reads_map, reads_c_u32.
Qed.

Lemma reads_c_value v : value_ok v → rd c_value (put_value v) v.
Proof.
  intros Hv. destruct v as [|i|r|s|b|v]; apply reads_u8_bind; cbn [value_ok] in *.
  - apply reads_ret.
  - rewrite <- (i64_roundtrip i Hv) at 2. apply (reads_map c_u64 (λ v, Int (u64_as_i64 v))), reads_c_u64, i64_as_u64_range.
  - rewrite <- (from_le_u64 r Hv) at 2. apply (reads_map (c_take 8) (λ b, Real (from_le b))), reads_take. by rewrite zlen_u64.
  - by apply reads_map, reads_c_str.
  - eapply reads_bind; [by apply reads_c_u32, fits_u32|]. by apply reads_map, reads_take.
  - apply reads_map. eapply reads_c_list; [|exact Hv]. intros x Hx.
    rewrite <- (from_le_u32 x Hx) at 2. apply (reads_map (c_take 4) from_le), reads_take. by rewrite zlen_u32.
Qed.

(** ** Columns *)

Definition no_default (c : Column) : Column :=
  {| col_name := col_name c; col_ty := col_ty c; primary_key := primary_key c;
     not_null := not_null c; unique := unique c; autoincrement := autoincrement c;
     default_sql := None |}.

Lemma flag_set_column_flags c :
  let f := byte.of_Z (column_flags c) in
  flag_set f 1 = primary_key c ∧ flag_set f 2 = not_null c ∧
  flag_set f 4 = unique c ∧ flag_set f 8 = autoincrement c.
Proof.
  cbv zeta. unfold flag_set, column_flags, bz. rewrite byte.unsigned_of_Z. unfold byte.wrap.
  by destruct (primary_key c), (not_null c), (unique c), (autoincrement c).
Qed.

Lemma reads_column c : column_ok c → rd decode_column (put_column c) (no_default c).
Proof.
  intros (Hn & Ht & _). unfold decode_column, put_column.
  eapply reads_bind; [by apply reads_c_str|].
  eapply reads_bind; [by apply reads_c_coltype|]. apply reads_u8_bind.
  destruct (flag_set_column_flags c) as (-> & -> & -> & ->). apply reads_ret.
Qed.

Lemma reads_columns cols :
  list_ok column_ok cols →
  rd decode_columns (put_list put_column cols) (no_default <$> cols).
Proof.
  intros [Hf HF]. unfold decode_columns, c_list, put_list.
  eapply reads_bind; [by apply reads_c_u32, fits_u32|].
  apply reads_rep; [|rewrite length_fmap; unfold zlen; lia].
  apply Forall2_fmap, Forall_Forall2_diag. eapply Forall_impl; [exact HF|]. apply reads_column.
Qed.

(** Filling the defaults of the columns not yet filled. *)
Lemma reads_defaults done cols :
  Forall column_ok cols →
  rd (decode_defaults (length cols) (length done) (done ++ (no_default <$> cols)))
     (concat ((λ c, put_opt_str (default_sql c)) <$> cols)) (done ++ cols).
Proof.
  intros HF. revert done. induction HF as [|c cols Hc HF IH]; intros done.
  { rewrite !app_nil_r. apply reads_ret. }
  cbn [length decode_defaults fmap list_fmap concat].
  assert (rd (decode_defaults (length cols) (S (length done)) ((done ++ [c]) ++ (no_default <$> cols)))
            (concat ((λ c, put_opt_str (default_sql c)) <$> cols)) (done ++ c :: cols)) as Hrest.
  { pose proof (IH (done ++ [c])) as H. rewrite length_app, Nat.add_comm in H. cbn [length] in H.
    by rewrite <- (app_assoc done [c] cols) in H. }
  rewrite <- app_assoc in Hrest. destruct Hc as (_ & _ & Hd).
  destruct (default_sql c) as [s|] eqn:Es; apply reads_u8_bind; cbn -[alter].
  - eapply reads_bind; [by apply reads_c_str|].
    replace (alter _ _ _) with (done ++ c :: (no_default <$> cols)); [exact Hrest|].
    rewrite <- (Nat.add_0_r (length done)), alter_app_r. cbn. f_equal. f_equal.
    destruct c; cbn in *. by subst.
  - replace (no_default c) with c; [exact Hrest|]. destruct c; cbn in *. by subst.
Qed.

(** A section that starts with a count is never mistaken for the end of the record. *)
Lemma reads_not_end {A} (p : Dec A) (q : Dec A) n e v :
  rd q (put_u32 n ++ e) v →
  rd (b ← at_end; if (b : bool) then p else q) (put_u32 n ++ e) v.
Proof.
  intros H rest. unfold mbind, Parser_bind, at_end.
  rewrite bool_decide_eq_false_2; [apply H|].
  intros E. apply (f_equal zlen) in E. unfold put_u32 in E.
  autorewrite with zlen in E. pose proof (zlen_nonneg e). pose proof (zlen_nonneg rest).
  change (zlen (@nil Init.Byte.byte)) with 0 in E. lia.
Qed.

Lemma reads_table_extras cols chks unqs :
  list_ok column_ok cols → list_ok str_ok chks → list_ok (list_ok str_ok) unqs →
  rd (decode_table_extras (no_default <$> cols)) (put_table_extras cols chks unqs)
     (cols, (chks, unqs)).
Proof.
  intros [Hf HF] Hc Hu. unfold decode_table_extras, put_table_extras, put_list at 1.
  rewrite <- app_assoc. apply reads_not_end.
  eapply reads_bind; [by apply reads_c_u32, fits_u32|].
  eapply reads_bind.
  { unfold zlen. rewrite Nat2Z.id. by apply (reads_defaults []). }
  eapply reads_bind; [by apply reads_str_list|].
  apply (reads_map _ (λ u, (cols, (chks, u)))).
  eapply reads_c_list; [apply reads_str_list | exact Hu].
Qed.

Lemma reads_foreign_keys fks :
  list_ok foreign_key_ok fks → rd decode_foreign_keys (put_list put_foreign_key fks) fks.
Proof.
  intros H. apply reads_not_end.
  change (rd (c_list decode_foreign_key) (put_list put_foreign_key fks) fks).
  eapply reads_c_list; [|exact H]. intros [n cs t fs] (Hn & Ht & Hc & Hfc).
  unfold decode_foreign_key, put_foreign_key.
  eapply reads_bind; [by apply reads_c_str|]. eapply reads_bind; [by apply reads_c_str|].
  eapply reads_bind; [by apply reads_str_list|]. by apply reads_map, reads_str_list.
Qed.

Lemma reads_create s : schema_ok s → rd decode_create (put_create s) (CreateTable s).
Proof.
  destruct s as [n cs fks ch un rls pol]. intros (Hn & Hc & Hf & Hch & Hu & Hr & Hp). cbn in *. subst.
  unfold decode_create, put_create.
  eapply reads_bind; [by apply reads_c_str|]. eapply reads_bind; [by apply reads_columns|].
  eapply reads_bind; [by apply reads_foreign_keys|].
  eapply reads_eq; [|apply reads_map; by apply reads_table_extras]. done.
Qed.

Lemma reads_alter_add t c :
  str_ok t → column_ok c →
  rd decode_alter_add (put_str t ++ put_list put_column [c] ++ put_table_extras [c] [] [])
     (AlterAddColumn t c).
Proof.
  intros Ht Hc. unfold decode_alter_add.
  assert (list_ok column_ok [c]) by (split; [done | by constructor]).
  eapply reads_bind; [by apply reads_c_str|]. eapply reads_bind; [by apply reads_columns|].
  eapply reads_bind_last; [by apply reads_table_extras|]. apply reads_ret.
Qed.

Lemma reads_index d : index_ok d → rd decode_create_index (put_index d) (CreateIndex d).
Proof.
  destruct d as [n t c [m ec es mt]]. intros (Hn & Ht & Hc & Hm & He & Hs). cbn in *.
  unfold decode_create_index, put_index. cbn.
  do 3 (eapply reads_bind; [by apply reads_c_str|]).
  do 3 (eapply reads_bind; [by apply reads_c_u32|]).
  apply reads_u8_bind. rewrite Metric_from_tag_tag. apply reads_ret.
Qed.

Lemma reads_policy t p :
  str_ok t → policy_ok p → rd decode_create_policy (put_str t ++ put_policy p) (CreatePolicy t p).
Proof.
  destruct p as [n c rs u k]. intros Ht (Hn & Hr & Hu & Hk). cbn in *.
  unfold decode_create_policy, put_policy. cbn.
  do 2 (eapply reads_bind; [by apply reads_c_str|]).
  apply reads_u8_bind. rewrite PolicyCommand_from_tag_tag.
  eapply reads_bind; [by apply reads_str_list|].
  eapply reads_bind; [by apply reads_c_opt_str|].
  eapply reads_bind_last; [by apply reads_c_opt_str | apply reads_ret].
Qed.

Create HintDb wal.
#[local] Hint Resolve reads_ret reads_c_str reads_c_u32 reads_c_u64 reads_create reads_alter_add
  reads_index reads_policy reads_c_value : wal.

(** Reads the fields of a flat record one by one. *)
Ltac reads_fields :=
  repeat first
    [ solve [eauto with wal]
    | eapply reads_bind_last; [solve [eauto with wal] | apply reads_ret]
    | eapply reads_bind; [solve [eauto with wal]|] ].

Lemma reads_op op : op_ok op → rd decode_op (encode_bytes op) op.
Proof.
  intros H. destruct op; apply reads_u8_bind; cbn -[c_str c_u64 c_u8 decode_create
    decode_alter_add decode_create_index decode_insert decode_create_policy put_create put_index
    put_policy put_list put_str put_table_extras put_u64] in *; destruct_and?; reads_fields.
  - apply reads_map. eapply reads_c_list; [apply reads_c_value | done].
  - apply reads_u8_bind. by destruct enabled; apply reads_ret.
Qed.

(** ** What decoding returns *)

#[local] Abbreviation pars := (parses ErrInternal).

Lemma parses_weaken {A} (p : Dec A) (P Q : A → Prop) : (∀ a, P a → Q a) → pars p P → pars p Q.
Proof. intros H Hp bs. specialize (Hp bs). destruct (p bs) as [[a ?]|?]; auto. Qed.

Lemma parses_c_str : pars c_str str_ok.
Proof.
  eapply parses_bind; [apply parses_u32|]. intros n Hn.
  eapply parses_bind; [apply parses_take|]. intros s Hs.
  destruct (utf8_valid s) eqn:E; [|apply parses_fail]. apply parses_ret.
  unfold str_ok, str_utf8, str_bytes, fits. rewrite list_byte_of_string_of_list_byte, Hs by apply Hn.
  split; [done | apply Hn].
Qed.

Lemma parses_c_list {A} (p : Dec A) P : pars p P → pars (c_list p) (list_ok P).
Proof.
  intros Hp. eapply parses_bind; [apply parses_u32|]. intros n Hn.
  eapply parses_weaken; [|by apply parses_rep]. intros l [Hl HF]. split; [|done].
  unfold fits, zlen, is_u32 in *. lia.
Qed.

Lemma parses_str_list : pars decode_str_list (list_ok str_ok).
Proof. apply parses_c_list, parses_c_str. Qed.

#[local] Hint Resolve parses_ret parses_fail parses_c_str parses_str_list parses_u8 parses_u32
  parses_u64 parses_take parses_c_list : wal.

(** Walks a decoder field by field. *)
Ltac parses_fields :=
  repeat first
    [ apply parses_fail
    | apply parses_ret; unfold op_ok, column_ok, foreign_key_ok, schema_ok, index_ok, policy_ok,
        opt_str_ok in *; cbn in *; solve [naive_solver]
    | eapply parses_bind; [solve [eauto with wal]|]; intros ? ?
    | solve [eauto with wal] ].

Lemma parses_c_opt_str : pars c_opt_str opt_str_ok.
Proof. eapply parses_bind; [apply parses_u8|]. intros b _. destruct (Byte.eqb b _); parses_fields. Qed.

Lemma u64_as_i64_range z : is_u64 z → is_i64 (u64_as_i64 z).
Proof. unfold is_u64, is_i64, u64_as_i64. intros H. destruct (Z.ltb_spec z (2 ^ 63)); lia. Qed.

Lemma parses_le4 : pars (b ← c_take 4; mret (from_le b)) is_u32.
Proof. apply (parses_u32 (E := EngineStatus) ErrInternal). Qed.

Lemma parses_c_value : pars c_value value_ok.
Proof.
  eapply parses_bind; [apply parses_u8|]. intros tag _. destruct tag; try apply parses_fail.
  - by apply parses_ret.
  - eapply parses_bind; [apply parses_u64|]. intros v Hv. by apply parses_ret, u64_as_i64_range.
  - eapply parses_bind; [apply parses_take|]. intros b Hb. apply parses_ret, from_le_bound8.
    unfold zlen in Hb. lia.
  - parses_fields.
  - eapply parses_bind; [apply parses_u32|]. intros n Hn. eapply parses_bind; [apply parses_take|].
    intros b Hb. apply parses_ret. cbn. unfold fits. rewrite Hb by apply Hn. apply Hn.
  - eapply parses_bind; [apply parses_c_list, parses_le4|]. intros v Hv. by apply parses_ret.
Qed.

Lemma parses_c_coltype : pars c_coltype coltype_ok.
Proof.
  eapply parses_bind; [apply parses_u8|]. intros tag _.
  destruct (Byte.eqb tag _) eqn:E; [parses_fields|].
  apply parses_ret. by destruct tag.
Qed.

#[local] Hint Resolve parses_c_opt_str parses_c_value parses_c_coltype : wal.

Lemma parses_columns : pars decode_columns (list_ok column_ok).
Proof. apply parses_c_list. unfold decode_column. parses_fields. Qed.

Lemma parses_defaults n i cols :
  list_ok column_ok cols → pars (decode_defaults n i cols) (list_ok column_ok).
Proof.
  revert i cols. induction n as [|n IH]; intros i cols Hc; cbn [decode_defaults]; [by apply parses_ret|].
  eapply parses_bind; [apply parses_u8|]. intros b _. destruct (Byte.eqb b _); [|by apply IH].
  eapply parses_bind; [apply parses_c_str|]. intros s Hs. apply IH. destruct Hc as [Hf HF]. split.
  - unfold fits, zlen in *. by rewrite length_alter.
  - apply Forall_alter; [done|]. intros c _ (? & ? & _). split_and!; [done..|]. exact Hs.
Qed.

Lemma parses_table_extras cols :
  list_ok column_ok cols →
  pars (decode_table_extras cols) (λ e, list_ok column_ok e.1 ∧ list_ok str_ok e.2.1
                                        ∧ list_ok (list_ok str_ok) e.2.2).
Proof.
  intros Hc. unfold decode_table_extras.
  assert (pars at_end (λ _, True)) as He by by intros bs.
  eapply parses_bind; [exact He|]. intros [] _.
  { apply parses_ret. cbn. split_and!; try done; (split; [done | constructor]). }
  eapply parses_bind; [apply parses_u32|]. intros n _.
  eapply parses_bind; [by apply parses_defaults|]. intros cs Hcs.
  eapply parses_bind; [apply parses_str_list|]. intros ch Hch.
  eapply parses_bind; [apply parses_c_list, parses_str_list|]. intros un Hun. by apply parses_ret.
Qed.

Lemma parses_foreign_keys : pars decode_foreign_keys (list_ok foreign_key_ok).
Proof.
  assert (pars at_end (λ _, True)) as He by by intros bs.
  eapply parses_bind; [exact He|]. intros [] _; [apply parses_ret; split; [done | constructor]|].
  apply parses_c_list. unfold decode_foreign_key. parses_fields.
Qed.

#[local] Hint Resolve parses_columns parses_foreign_keys parses_table_extras : wal.

Lemma parses_op : pars decode_op op_ok.
Proof.
  eapply parses_bind; [apply parses_u8|]. intros tag _.
  unfold decode_catalog_op. repeat case_if.
  all: unfold decode_create, decode_create_index, decode_insert, decode_create_policy,
    decode_alter_add; parses_fields.
  destruct (last _) as [c|] eqn:El; [|apply parses_fail].
  apply parses_ret. split; [done|]. cbn in *. destruct_and!. unfold list_ok in *. destruct_and!.
  eapply Forall_lookup_1; [eassumption|]. by rewrite <- last_lookup.
Qed.

Lemma decode_op_create bs : decode_op (OP_CREATE :: bs) = decode_create bs.
Proof.
  change (OP_CREATE :: bs) with ([OP_CREATE] ++ bs).
  unfold decode_op, mbind, Parser_bind. by rewrite (reads_c_u8 OP_CREATE).
Qed.

(** ** Properties *)


(** Old records stay readable: a CREATE TABLE record cut after its columns (the format before
    foreign keys) decodes to the table without foreign keys, defaults, checks and uniques, and one
    cut after its foreign keys decodes to the table with them and without the later sections. *)
Theorem wal_old_create_records s :
  schema_ok s →
  let name := schema_name s in let cols := columns s in let fks := foreign_keys s in
  decode (OP_CREATE :: put_str name ++ put_list put_column cols)
    = Ok (CreateTable (mkSchema name (no_default <$> cols) [] [] [] false [])) ∧
  decode (OP_CREATE :: put_str name ++ put_list put_column cols ++ put_list put_foreign_key fks)
    = Ok (CreateTable (mkSchema name (no_default <$> cols) fks [] [] false [])).
Proof.
  intros (Hn & Hc & Hf & _) name cols fks. unfold decode.
  rewrite !decode_op_create. unfold decode_create, mbind, Parser_bind. split.
  - rewrite (reads_c_str name Hn), <- (app_nil_r (put_list put_column cols)).
    by rewrite (reads_columns cols Hc).
  - rewrite (reads_c_str name Hn), (reads_columns cols Hc).
    rewrite <- (app_nil_r (put_list put_foreign_key fks)). by rewrite (reads_foreign_keys fks Hf).
Qed.

(** Decoding is total and well typed: every byte string decodes to an operation whose integers
    are in range and whose strings are valid UTF-8 within the length limit, or is refused with the
    internal error status; nothing else can happen. *)
Theorem wal_decode_typed bs :
  match decode bs with Ok op => op_ok op | Err e => e = ErrInternal end.
Proof. unfold decode. pose proof (parses_op bs) as H. by destruct (decode_op bs) as [[op r]|e]. Qed.

(** ** Witnesses *)

Definition demo_column : Column := mkColumn "id" CInteger true true false true (Some "1+1").
Definition demo_vec : Column := mkColumn "v" (CVector 3) false false true false None.
Definition demo_schema : TableSchema :=
  mkSchema "Users" [demo_column; demo_vec]
    [mkForeignKey "fk" ["id"%string] "orgs" ["oid"%string]] ["id > 0"%string]
    [["id"%string; "v"%string]] false [].

Ltac wal_ok := repeat first [done | split | constructor | vm_compute; done | vm_compute; lia].

Lemma demo_schema_ok : schema_ok demo_schema.
Proof. wal_ok. Qed.

Definition demo_insert : WalOp :=
  Insert "Users" 7 [Int (-5); Real 4607182418800017408; TextV "abc"; Blob [Init.Byte.xff]; Null;
                    Vector [1065353216; 0]].

Lemma demo_insert_ok : op_ok demo_insert.
Proof. wal_ok. Qed.


Lemma wal_old_create_records_witness :
  decode (OP_CREATE :: put_str "Users" ++ put_list put_column [demo_column; demo_vec])
  = Ok (CreateTable (mkSchema "Users" [no_default demo_column; demo_vec] [] [] [] false [])).
Proof. exact (proj1 (wal_old_create_records demo_schema demo_schema_ok)). Defined.

(** The bytes of a small record, and a string that is not UTF-8. *)
Example wal_encode_delete :
  encode_bytes (Delete "t" 258)
  = [Init.Byte.x04; Init.Byte.x01; Init.Byte.x00; Init.Byte.x00; Init.Byte.x00; Init.Byte.x74;
     Init.Byte.x02; Init.Byte.x01; Init.Byte.x00; Init.Byte.x00; Init.Byte.x00; Init.Byte.x00;
     Init.Byte.x00; Init.Byte.x00].
Proof. vm_compute. reflexivity. Qed.

Example wal_decode_bad_utf8 :
  decode [Init.Byte.x02; Init.Byte.x02; Init.Byte.x00; Init.Byte.x00; Init.Byte.x00;
          Init.Byte.xc0; Init.Byte.x80] = Err ErrInternal.
Proof. vm_compute. reflexivity. Qed.
