(* ===== verification/MvccStore.v ===== *)
(** * The MVCC table store (crates/engine/src/store.rs)

    Tables of row versions, each stamped with the commit LSN that created it and the one that
    deleted it, and tagged with the in-flight writer that owns its pending stamps; the catalog of
    tables, views and vector indexes; the operations of schema changes, of recovery, and of
    commit, rollback and savepoints.

    A [HashMap] is a [gmap]; a loop over its values in unspecified order is a map over it, or a
    fold over [map_to_list].  A vector index is the interface [VectorIndexOps] (vector.rs), a view
    body an abstract statement.  Version ids and LSNs count events from one and are not bounded
    here; the auto-increment counter, which a client can set, is an [i64]. *)

From S2P Require Import Prelude Text StorageTypes EngineTypes.

(** ** The interface of a vector index *)

Class VectorIndexOps (VI : Type) := {
  vi_new : IndexDef → VI;
  vi_def : VI → IndexDef;
  vi_insert : VI → Z → list Z → VI;
  vi_mark_dead : VI → Z → VI;
  vi_remove : VI → Z → VI;
  vi_needs_maintenance : VI → bool;
  vi_rebuild_floor : VI → Z;
  vi_set_rebuild_floor : VI → Z → VI;
  vi_to_page_frames : VI → Z → option (list bytes)
}.

(** ** Row versions *)

Definition PENDING : Z := u64_max.

Record RowVersion := mkRow {
  vid : Z;
  values : list Value;
  create_lsn : Z;
  delete_lsn : Z;
  owner : Z
}.

#[export] Instance RowVersion_eq_dec : EqDecision RowVersion.
Proof. solve_decision. Defined.

Definition visible_to_reader (r : RowVersion) (s : Z) : bool :=
  (create_lsn r <=? s) && ((delete_lsn r =? 0) || (s <? delete_lsn r)).

Definition visible_to_writer (r : RowVersion) (s me : Z) : bool :=
  let created := if create_lsn r =? PENDING then owner r =? me else create_lsn r <=? s in
  let deleted := if delete_lsn r =? PENDING then owner r =? me
                 else negb (delete_lsn r =? 0) && (delete_lsn r <=? s) in
  created && negb deleted.

Definition is_dead_at_head (r : RowVersion) : bool :=
  negb (delete_lsn r =? 0) && negb (delete_lsn r =? PENDING).

(** Field updates. *)
Definition set_values (v : list Value) (r : RowVersion) : RowVersion :=
  mkRow (vid r) v (create_lsn r) (delete_lsn r) (owner r).
Definition set_create (l : Z) (r : RowVersion) : RowVersion :=
  mkRow (vid r) (values r) l (delete_lsn r) (owner r).
Definition set_delete (l : Z) (r : RowVersion) : RowVersion :=
  mkRow (vid r) (values r) (create_lsn r) l (owner r).
Definition set_owner (o : Z) (r : RowVersion) : RowVersion :=
  mkRow (vid r) (values r) (create_lsn r) (delete_lsn r) o.

(** ** Tables *)

Record Table := mkTable {
  schema : TableSchema;
  rows : list RowVersion;
  next_vid : Z;
  next_autoinc : Z
}.

Definition Table_new (s : TableSchema) : Table := mkTable s [] 1 1.

Definition set_schema (s : TableSchema) (t : Table) : Table :=
  mkTable s (rows t) (next_vid t) (next_autoinc t).
Definition set_rows (rs : list RowVersion) (t : Table) : Table :=
  mkTable (schema t) rs (next_vid t) (next_autoinc t).

Definition alloc_vid (t : Table) : Z * Table :=
  (next_vid t, mkTable (schema t) (rows t) (next_vid t + 1) (next_autoinc t)).

(** [iter_mut().find(p)] followed by a mutation of the element found. *)
Fixpoint update_first {A} (p : A → bool) (f : A → A) (l : list A) : list A :=
  match l with
  | [] => []
  | x :: l => if p x then f x :: l else x :: update_first p f l
  end.

Definition version_mut (f : RowVersion → RowVersion) (v : Z) (t : Table) : Table :=
  set_rows (update_first (λ r, vid r =? v) f (rows t)) t.

Definition version (v : Z) (t : Table) : option RowVersion :=
  List.find (λ r, vid r =? v) (rows t).

(** ** The store *)

Section Store.
Context {VI : Type} `{!VectorIndexOps VI} {SelectStmt : Type}.

Record Store := mkStore {
  tables : gmap string Table;
  indexes : gmap string VI;
  views : gmap string SelectStmt;
  committed_lsn : Z
}.

Definition Store_default : Store := mkStore ∅ ∅ ∅ 0.

Definition with_tables (ts : gmap string Table) (s : Store) : Store :=
  mkStore ts (indexes s) (views s) (committed_lsn s).
Definition with_indexes (ixs : gmap string VI) (s : Store) : Store :=
  mkStore (tables s) ixs (views s) (committed_lsn s).
Definition with_views (vs : gmap string SelectStmt) (s : Store) : Store :=
  mkStore (tables s) (indexes s) vs (committed_lsn s).
Definition with_committed (l : Z) (s : Store) : Store :=
  mkStore (tables s) (indexes s) (views s) l.

Definition key (name : string) : string := to_ascii_lowercase name.

Definition table (s : Store) (name : string) : option Table := tables s !! key name.
Definition table_mut (f : Table → Table) (name : string) (s : Store) : Store :=
  with_tables (alter f (key name) (tables s)) s.
Definition has_table (s : Store) (name : string) : bool := bool_decide (is_Some (table s name)).

Definition schema_name_le (a b : TableSchema) : Prop :=
  String.le (schema_name a) (schema_name b).
#[local] Instance schema_name_le_dec : RelDecision schema_name_le.
Proof. intros a b. unfold schema_name_le. apply _. Defined.

Definition table_schemas (s : Store) : list TableSchema :=
  merge_sort schema_name_le ((schema ∘ snd) <$> map_to_list (tables s)).

Definition insert_table (sc : TableSchema) (s : Store) : Store :=
  with_tables (<[key (schema_name sc) := Table_new sc]> (tables s)) s.

(** [ix.def.table.eq_ignore_ascii_case(name)]. *)
Definition index_on (name : string) (ix : VI) : bool :=
  eq_ignore_ascii_case (ix_table (vi_def ix)) name.

Definition drop_table (name : string) (s : Store) : bool * Store :=
  let existed := has_table s name in
  let s := with_tables (delete (key name) (tables s)) s in
  (existed, with_indexes (filter (λ kx, index_on name kx.2 = false) (indexes s)) s).

(** *** Views *)

Definition has_view (s : Store) (name : string) : bool := bool_decide (is_Some (views s !! key name)).
Definition view (s : Store) (name : string) : option SelectStmt := views s !! key name.
Definition insert_view (name : string) (q : SelectStmt) (s : Store) : Store :=
  with_views (<[key name := q]> (views s)) s.
Definition drop_view (name : string) (s : Store) : bool * Store :=
  (has_view s name, with_views (delete (key name) (views s)) s).

(** *** Vector indexes *)

Definition has_index (s : Store) (name : string) : bool :=
  bool_decide (is_Some (indexes s !! key name)).

Definition table_has_index (s : Store) (name : string) : bool :=
  existsb (λ kx, index_on name kx.2) (map_to_list (indexes s)).

Definition register_index (d : IndexDef) (s : Store) : Store :=
  with_indexes (<[key (ix_name d) := vi_new d]> (indexes s)) s.

Definition drop_index (name : string) (s : Store) : bool * Store :=
  (has_index s name, with_indexes (delete (key name) (indexes s)) s).

Definition index_def (s : Store) (name : string) : option IndexDef :=
  vi_def <$> indexes s !! key name.

(** Which of several indexes on one column is found is left open by the [HashMap]. *)
Definition index_for (s : Store) (tname col : string) : option VI :=
  List.find (λ ix, index_on tname ix && eq_ignore_ascii_case (ix_column (vi_def ix)) col)
    (map_to_list (indexes s)).*2.

Definition adopt_index (ix : VI) (s : Store) : Store :=
  with_indexes (<[key (ix_name (vi_def ix)) := ix]> (indexes s)) s.

Definition index_names (s : Store) : list string := (map_to_list (indexes s)).*1.

Definition index_page_frames (s : Store) (name : string) (reflected : Z) : option (list bytes) :=
  ix ← indexes s !! key name; vi_to_page_frames ix reflected.

(** The vector a row holds in a column. *)
Definition row_vector (col : nat) (vals : list Value) : option (list Z) :=
  v ← vals !! col; as_vector v.

Definition populate_index (name : string) (s : Store) : Store :=
  match indexes s !! key name with
  | None => s
  | Some ix =>
      match tables s !! key (ix_table (vi_def ix)) with
      | None => s
      | Some t =>
          match column_index (schema t) (ix_column (vi_def ix)) with
          | None => s
          | Some col =>
              let add ix r :=
                match row_vector col (values r) with
                | None => ix
                | Some v =>
                    let ix := vi_insert ix (vid r) v in
                    if is_dead_at_head r then vi_mark_dead ix (vid r) else ix
                end in
              with_indexes (<[key name := foldl add ix (rows t)]> (indexes s)) s
          end
      end
  end.

Definition create_index (d : IndexDef) (s : Store) : Store :=
  populate_index (ix_name d) (register_index d s).

Definition compact_index (name : string) (floor : Z) (s : Store) : Store :=
  match indexes s !! key name with
  | None => s
  | Some ix =>
      match tables s !! key (ix_table (vi_def ix)) with
      | None => s
      | Some t =>
          match column_index (schema t) (ix_column (vi_def ix)) with
          | None => s
          | Some col =>
              let add fresh r :=
                if is_dead_at_head r then fresh
                else match row_vector col (values r) with
                     | None => fresh
                     | Some v => vi_insert fresh (vid r) v
                     end in
              let fresh := foldl add (vi_new (vi_def ix)) (rows t) in
              let fresh := vi_set_rebuild_floor fresh (Z.max floor (vi_rebuild_floor ix)) in
              with_indexes (<[key name := fresh]> (indexes s)) s
          end
      end
  end.

Definition needs_maintenance (s : Store) (k : string) : bool :=
  match indexes s !! k with Some ix => vi_needs_maintenance ix | None => false end.

Definition rebuild_one_index (name : string) (s : Store) : Store :=
  let k := key name in
  let s := with_indexes (alter (λ ix, vi_new (vi_def ix)) k (indexes s)) s in
  let s := populate_index k s in
  if needs_maintenance s k then compact_index k (committed_lsn s) s else s.

Definition index_delete_one (vids : list Z) (commit_lsn : Z) (s : Store) (name : string) : Store :=
  let s := with_indexes (alter (λ ix, foldl vi_mark_dead ix vids) name (indexes s)) s in
  if needs_maintenance s name then compact_index name commit_lsn s else s.

Definition apply_index_deletes (tname : string) (vids : list Z) (commit_lsn : Z) (s : Store)
    : Store :=
  let names := (filter (λ kx, index_on tname kx.2 = true) (map_to_list (indexes s))).*1 in
  foldl (index_delete_one vids commit_lsn) s names.

Definition index_row_inserted (tname : string) (v : Z) (vals : list Value) (s : Store) : Store :=
  match tables s !! key tname with
  | None => s
  | Some t =>
      let add ix :=
        if index_on tname ix then
          match column_index (schema t) (ix_column (vi_def ix)) ≫= λ col, row_vector col vals with
          | Some vec => vi_insert ix v vec
          | None => ix
          end
        else ix in
      with_indexes (add <$> indexes s) s
  end.

(** *** Row-level security *)

Definition schema_with_rls (b : bool) (sc : TableSchema) : TableSchema :=
  mkSchema (schema_name sc) (columns sc) (foreign_keys sc) (checks sc) (uniques sc) b (policies sc).
Definition schema_with_policies (ps : list Policy) (sc : TableSchema) : TableSchema :=
  mkSchema (schema_name sc) (columns sc) (foreign_keys sc) (checks sc) (uniques sc)
    (rls_enabled sc) ps.
Definition schema_with_columns (cs : list Column) (sc : TableSchema) : TableSchema :=
  mkSchema (schema_name sc) cs (foreign_keys sc) (checks sc) (uniques sc) (rls_enabled sc)
    (policies sc).
Definition schema_with_name (n : string) (sc : TableSchema) : TableSchema :=
  mkSchema n (columns sc) (foreign_keys sc) (checks sc) (uniques sc) (rls_enabled sc) (policies sc).

Definition set_rls (tname : string) (enabled : bool) (s : Store) : Store :=
  table_mut (λ t, set_schema (schema_with_rls enabled (schema t)) t) tname s.

Definition without_policy (name : string) (ps : list Policy) : list Policy :=
  filter (λ p, eq_ignore_ascii_case (pol_name p) name = false) ps.

Definition add_policy (tname : string) (p : Policy) (s : Store) : Store :=
  table_mut (λ t, set_schema (schema_with_policies
    (without_policy (pol_name p) (policies (schema t)) ++ [p]) (schema t)) t) tname s.

Definition drop_policy (tname name : string) (s : Store) : bool * Store :=
  let removed :=
    match table s tname with
    | Some t => negb (length (without_policy name (policies (schema t)))
                      =? length (policies (schema t)))%nat
    | None => false
    end in
  (removed, table_mut (λ t, set_schema (schema_with_policies
     (without_policy name (policies (schema t))) (schema t)) t) tname s).

(** *** Recovery *)

Definition replay_insert (tname : string) (v : Z) (vals : list Value) (commit_lsn : Z) (s : Store)
    : Store :=
  table_mut (λ t, mkTable (schema t) (rows t ++ [mkRow v vals commit_lsn 0 0])
                    (Z.max (next_vid t) (v + 1)) (next_autoinc t)) tname s.

Definition replay_delete (tname : string) (v : Z) (commit_lsn : Z) (s : Store) : Store :=
  table_mut (version_mut (set_delete commit_lsn) v) tname s.

(** *** Schema evolution *)

Definition add_column (tname : string) (c : Column) (fill : Value) (s : Store) : Store :=
  table_mut (λ t, set_rows ((λ r, set_values (values r ++ [fill]) r) <$> rows t)
                    (set_schema (schema_with_columns (columns (schema t) ++ [c]) (schema t)) t))
            tname s.

(** [Vec::remove(i)] for an [i] in range. *)
Definition remove_at {A} (i : nat) (l : list A) : list A := take i l ++ drop (S i) l.

Definition drop_column (tname name : string) (s : Store) : Store :=
  table_mut (λ t,
    match column_index (schema t) name with
    | None => t
    | Some idx =>
        set_rows ((λ r, if (idx <? length (values r))%nat
                        then set_values (remove_at idx (values r)) r else r) <$> rows t)
          (set_schema (schema_with_columns (remove_at idx (columns (schema t))) (schema t)) t)
    end) tname s.

Definition rename_col (to : string) (c : Column) : Column :=
  mkColumn to (col_ty c) (primary_key c) (not_null c) (unique c) (autoincrement c) (default_sql c).

Definition rename_column (tname from to : string) (s : Store) : Store :=
  table_mut (λ t,
    match column_index (schema t) from with
    | None => t
    | Some idx =>
        set_schema (schema_with_columns (alter (rename_col to) idx (columns (schema t))) (schema t)) t
    end) tname s.

Definition rename_table (from to : string) (s : Store) : Store :=
  match tables s !! key from with
  | None => s
  | Some t =>
      let t := set_schema (schema_with_name to (schema t)) t in
      with_tables (<[key to := t]> (delete (key from) (tables s))) s
  end.

(** [max + 1] on an [i64]: the release profile wraps. *)
Definition i64_succ (z : Z) : Z := u64_as_i64 (i64_as_u64 (z + 1)).

Definition rebuild_autoinc_table (t : Table) : Table :=
  match position autoincrement (columns (schema t)) with
  | None => t
  | Some col =>
      let m := foldl (λ m r, match values r !! col with Some (Int i) => Z.max m i | _ => m end)
                     0 (rows t) in
      mkTable (schema t) (rows t) (next_vid t) (i64_succ m)
  end.

Definition rebuild_autoinc (s : Store) : Store :=
  with_tables (rebuild_autoinc_table <$> tables s) s.

(** *** Commit, rollback, savepoints *)

Definition finalize_row (o commit_lsn : Z) (r : RowVersion) : RowVersion :=
  if owner r =? o then
    let r := if create_lsn r =? PENDING then set_create commit_lsn r else r in
    let r := if delete_lsn r =? PENDING then set_delete commit_lsn r else r in
    set_owner 0 r
  else r.

(** The vids of a table that committing [o] deletes. *)
Definition deleted_by (o : Z) (t : Table) : list Z :=
  vid <$> filter (λ r, owner r = o ∧ delete_lsn r = PENDING) (rows t).

Definition finalize_table (o commit_lsn : Z) (t : Table) : Table :=
  set_rows (finalize_row o commit_lsn <$> rows t) t.

Definition finalize_owner (o commit_lsn : Z) (s : Store) : Store :=
  let dels := filter (λ kd, kd.2 ≠ []) ((λ kt, (kt.1, deleted_by o kt.2)) <$> map_to_list (tables s)) in
  let s := with_tables (finalize_table o commit_lsn <$> tables s) s in
  foldl (λ s kd, apply_index_deletes kd.1 kd.2 commit_lsn s) s dels.

Definition pending_insert (o : Z) (r : RowVersion) : bool :=
  (owner r =? o) && (create_lsn r =? PENDING).
Definition pending_delete (o : Z) (r : RowVersion) : bool :=
  (owner r =? o) && (delete_lsn r =? PENDING).

(** Every row version of every table. *)
Definition all_rows (s : Store) : list RowVersion := concat ((rows ∘ snd) <$> map_to_list (tables s)).

Definition pending_snapshot (s : Store) (o : Z) : gset Z * gset Z :=
  (list_to_set (vid <$> filter (λ r, pending_insert o r = true) (all_rows s)),
   list_to_set (vid <$> filter (λ r, pending_delete o r = true) (all_rows s))).

(** [ix.remove(vid)] for every discarded vid, on every index. *)
Definition remove_from_indexes (vids : list Z) (s : Store) : Store :=
  with_indexes ((λ ix, foldl vi_remove ix vids) <$> indexes s) s.

(** An insert made since the savepoint. *)
Definition since_savepoint (o : Z) (inserted : gset Z) (r : RowVersion) : bool :=
  pending_insert o r && negb (bool_decide (vid r ∈ inserted)).

Definition undo_delete_since (o : Z) (deleted : gset Z) (r : RowVersion) : RowVersion :=
  if pending_delete o r && negb (bool_decide (vid r ∈ deleted)) then
    let r := set_delete 0 r in
    if create_lsn r =? PENDING then r else set_owner 0 r
  else r.

Definition rollback_to_savepoint (o : Z) (inserted deleted : gset Z) (s : Store) : Store :=
  let discarded := vid <$> filter (λ r, since_savepoint o inserted r = true) (all_rows s) in
  let undo t := set_rows (undo_delete_since o deleted <$>
                  filter (λ r, since_savepoint o inserted r = false) (rows t)) t in
  remove_from_indexes discarded (with_tables (undo <$> tables s) s).

Definition undo_delete (o : Z) (r : RowVersion) : RowVersion :=
  if pending_delete o r then set_owner 0 (set_delete 0 r) else r.

Definition rollback_table (o : Z) (t : Table) : Table :=
  set_rows (undo_delete o <$> filter (λ r, pending_insert o r = false) (rows t)) t.

Definition rollback_owner (o : Z) (s : Store) : Store :=
  let discarded := vid <$> filter (λ r, pending_insert o r = true) (all_rows s) in
  let s := with_tables (rollback_table o <$> tables s) s in
  if bool_decide (discarded = []) then s else remove_from_indexes discarded s.

End Store.
Arguments Store VI SelectStmt : clear implicits.
