(* ===== verification/Select.v ===== *)
(** * SELECT over one table (crates/engine/src/exec.rs)

    The scan with visibility, row-level security and WHERE, the nearest-neighbour access path,
    grouping, ordering, OFFSET and LIMIT, and the projection with its column names and types. *)

From S2P Require Import Prelude Text StorageTypes Numbers Float Chars EngineTypes Values Json Session Funcs Like Ast Expr.
From S2P Require Import Rls SortBy Wal MvccStore.

#[local] Open Scope i64_scope.

(** ** Shapes of queries *)

Fixpoint expr_has_subquery (e : Expr) : bool :=
  let opt (o : option Expr) := match o with Some e => expr_has_subquery e | None => false end in
  match e with
  | EScalarSubquery _ | EExists _ _ | EInSubquery _ _ _ => true
  | ECast e _ | EUnary _ e | EIsNull e _ => expr_has_subquery e
  | EBinary _ l r => expr_has_subquery l || expr_has_subquery r
  | ELike e p esc _ _ => expr_has_subquery e || expr_has_subquery p || opt esc
  | EInList e l _ => expr_has_subquery e || existsb expr_has_subquery l
  | EBetween e lo hi _ => expr_has_subquery e || expr_has_subquery lo || expr_has_subquery hi
  | ECase o ws els =>
      opt o || existsb (λ w, expr_has_subquery w.1 || expr_has_subquery w.2) ws || opt els
  | EFunc _ args => existsb expr_has_subquery args
  | EAggregate _ a _ sep => opt a || opt sep
  | _ => false
  end.

Fixpoint expr_has_aggregate (e : Expr) : bool :=
  let opt (o : option Expr) := match o with Some e => expr_has_aggregate e | None => false end in
  match e with
  | EAggregate _ _ _ _ => true
  | ECast e _ | EUnary _ e | EIsNull e _ => expr_has_aggregate e
  | EBinary _ l r => expr_has_aggregate l || expr_has_aggregate r
  | ELike e p _ _ _ => expr_has_aggregate e || expr_has_aggregate p
  | EFunc _ args => existsb expr_has_aggregate args
  | EInList e l _ => expr_has_aggregate e || existsb expr_has_aggregate l
  | EBetween e lo hi _ => expr_has_aggregate e || expr_has_aggregate lo || expr_has_aggregate hi
  | ECase o ws els =>
      opt o || existsb (λ w, expr_has_aggregate w.1 || expr_has_aggregate w.2) ws || opt els
  | _ => false
  end.

Definition opt_has (p : Expr → bool) (o : option Expr) : bool :=
  match o with Some e => p e | None => false end.
Definition item_has (p : Expr → bool) (i : SelItem) : bool :=
  match i with SelExpr e _ => p e | Star _ => false end.

Definition select_has_subquery (sel : SelectStmt) : bool :=
  existsb (item_has expr_has_subquery) (sel_items sel)
  || opt_has expr_has_subquery (sel_filter sel)
  || existsb expr_has_subquery (sel_group_by sel)
  || opt_has expr_has_subquery (sel_having sel)
  || existsb (λ k, expr_has_subquery (key_expr k)) (sel_order_by sel).

Definition needs_relational (sel : SelectStmt) : bool :=
  negb (zlen (sel_ctes sel) =? 0)
  || sel_distinct sel
  || negb (zlen (sel_set_ops sel) =? 0)
  || match sel_from sel with Some (FJoin _ _ _ _ _) | Some (FDerived _ _) => true | _ => false end
  || select_has_subquery sel.

Definition is_aggregated (sel : SelectStmt) : bool :=
  negb (zlen (sel_group_by sel) =? 0)
  || match sel_having sel with Some _ => true | None => false end
  || existsb (item_has expr_has_aggregate) (sel_items sel).

(** ** Column names and types *)

Definition agg_name (f : AggFunc) : string :=
  match f with
  | Count => "count" | Sum => "sum" | Min => "min" | Max => "max" | Avg => "avg"
  | JsonAgg => "json_agg" | GroupConcat => "group_concat"
  end%string.

(** The name of an item without alias, [idx] being its position. *)
Fixpoint default_name (e : Expr) (idx : nat) : string :=
  match e with
  | EColumn c | EQualified _ c => c
  | EAggregate f _ _ _ => agg_name f
  | EFunc name _ => to_ascii_lowercase name
  | ECast e _ => default_name e idx
  | _ => "col" +:+ fmt_i64 (Z.of_nat idx + 1)
  end.
Definition column_name (e : Expr) (alias : option string) (idx : nat) : string :=
  match alias with Some a => a | None => default_name e idx end.

Definition lit_type (v : Value) : ColumnType :=
  match v with
  | Int _ => CInteger
  | Real _ => CReal
  | Blob _ => CBlob
  | Vector x => CVector (zlen x mod 2 ^ 32)
  | _ => CText
  end.

Definition func_type (name : string) : ColumnType :=
  let one_of := existsb (String.eqb (to_ascii_lowercase name)) in
  if one_of ["length"; "char_length"; "character_length"; "abs"; "instr"; "strpos"; "sign"; "extract";
             "unixepoch"]%string then CInteger
  else if one_of ["sqrt"; "exp"; "ln"; "log"; "log10"; "power"; "pow"; "pi"; "random"; "ceil"; "ceiling";
                  "floor"; "trunc"; "round"]%string then CReal
  else CText.

Definition cast_column_type (t : CastTarget) : ColumnType :=
  match t with ToInt | ToBool => CInteger | ToReal => CReal | ToText | Passthrough => CText end.

Definition column_type (sc : option TableSchema) (name : string) : ColumnType :=
  default CText (s ← sc; i ← column_index s name; col_ty <$> columns s !! i).

(** [expr_type], with [agg_type] for aggregates. *)
Fixpoint expr_type (e : Expr) (sc : option TableSchema) : ColumnType :=
  match e with
  | EInt _ => CInteger
  | EReal _ => CReal
  | EStr _ => CText
  | EVector v => CVector (zlen v mod 2 ^ 32)
  | ELit v => lit_type v
  | EBinary op _ _ => match vec_metric op with Some _ => CReal | None => CText end
  | EColumn name | EQualified _ name => column_type sc name
  | ECast e t => match t with Passthrough => expr_type e sc | t => cast_column_type t end
  | EAggregate f a _ _ =>
      match sc with
      | None => CText
      | Some _ =>
          match f with
          | Count => CInteger
          | Avg => CReal
          | JsonAgg | GroupConcat => CText
          | Sum => match a with
                   | Some e => match expr_type e sc with CReal => CReal | _ => CInteger end
                   | None => CInteger
                   end
          | Min | Max => match a with Some e => expr_type e sc | None => CText end
          end
      end
  | EFunc name _ => func_type name
  | _ => CText
  end.

(** The columns an item list gives over a table: [*] expands, an expression has a name and a type. *)
Fixpoint output_header (items : list SelItem) (sc : TableSchema) (idx : nat)
    : list string * list ColumnType :=
  match items with
  | [] => ([], [])
  | Star _ :: items =>
      let '(ns, ts) := output_header items sc (idx + length (columns sc)) in
      ((col_name <$> columns sc) ++ ns, (col_ty <$> columns sc) ++ ts)
  | SelExpr e alias :: items =>
      let '(ns, ts) := output_header items sc (S idx) in
      (column_name e alias idx :: ns, expr_type e (Some sc) :: ts)
  end.

(** ** Ordering *)

Definition order_cmp (a b : Value) (asc nulls_first : bool) : comparison :=
  match is_null a, is_null b with
  | true, true => Eq
  | true, false => if nulls_first then Lt else Gt
  | false, true => if nulls_first then Gt else Lt
  | false, false => let ord := default Eq (sql_cmp a b) in if asc then ord else CompOpp ord
  end.

Definition resolve_alias (items : list SelItem) (e : Expr) : Expr :=
  match e with
  | EColumn name =>
      default e (first_some (λ i, match i with
                                  | SelExpr x (Some a) => if eq_ignore_ascii_case a name then Some x else None
                                  | _ => None
                                  end) items)
  | _ => e
  end.

Definition resolved_order_keys (sel : SelectStmt) : list OrderKey :=
  (λ k, mkOrderKey (resolve_alias (sel_items sel) (key_expr k)) (key_asc k) (key_nulls_first k))
    <$> sel_order_by sel.

(** Both sides are evaluated before either error is looked at. *)
Definition both {A B} (a : Res A) (b : Res B) : Res (A * B) :=
  match a, b with
  | Ok x, Ok y => Ok (x, y)
  | Err Panicked, _ | _, Err Panicked => panic
  | Err e, _ | _, Err e => Err e
  end.

(** Compare by a list of keys; [ev] evaluates a key expression on an element. *)
Fixpoint keys_cmp {A} (ev : Expr → A → Res Value) (keys : list OrderKey) (a b : A) : Res comparison :=
  match keys with
  | [] => Ok Eq
  | k :: keys =>
      '(va, vb) ← both (ev (key_expr k) a) (ev (key_expr k) b);
      match order_cmp va vb (key_asc k) (key_nulls_first k) with
      | Eq => keys_cmp ev keys a b
      | c => Ok c
      end
  end.

(** ** OFFSET and LIMIT *)

Definition apply_offset_limit {A} (l : list A) (limit offset : option Z) : list A :=
  let l := match offset with Some off => drop (Z.to_nat (Z.max off 0)) l | None => l end in
  match limit with Some n => take (Z.to_nat (Z.max n 0)) l | None => l end.

(** What the executor asks of an index besides maintaining it. *)
Class VectorSearch (VI : Type) := {
  vi_len : VI → Z;
  vi_live_len : VI → Z;
  (** [index.search(query, k, ef_search)]: row ids with their distances, nearest first. *)
  vi_search : VI → list Z → Z → option Z → list (Z * Z)
}.

Section Select.
Variable parse_expr : string → Res Expr.
Variable host : Host.
Variable sess : SessionContext.
Abbreviation eval := (eval host sess).
Abbreviation predicate := (predicate host sess).

Definition eval_count (opt : option Expr) (params : list Value) : Res (option Z) :=
  match opt with
  | None => Ok None
  | Some e =>
      v ← eval e (ctx_root params);
      match v with
      | Null => Ok None
      | Int n => Ok (Some n)
      | Real r => Ok (Some (f_as_i64 F64 r))
      | TextV s => match parse_i64 (trim s) with Some n => Ok (Some n) | None => sql_error end
      | _ => sql_error
      end
  end.

Definition order_key_cmp (keys : list OrderKey) (sc : TableSchema) (params : list Value)
    : list Value → list Value → Res comparison :=
  keys_cmp (λ e r, eval e (ctx_row r sc params)) keys.

Definition order_matched (sel : SelectStmt) (sc : TableSchema) (matched : list (list Value))
    (params : list Value) : Res (list (list Value)) :=
  match sel_order_by sel with
  | [] => Ok matched
  | _ => sort_by (order_key_cmp (resolved_order_keys sel) sc params) matched
  end.

(** ** Projection *)

Definition project_star (sc : TableSchema) (vals : list Value) : Res (list Value) :=
  try_map (λ c, match column_index sc (col_name c) with Some i => cell_at vals i | None => panic end)
    (columns sc).

Fixpoint project_items (items : list SelItem) (sc : TableSchema) (vals params : list Value)
    : Res (list Value) :=
  match items with
  | [] => Ok []
  | Star _ :: items =>
      a ← project_star sc vals; b ← project_items items sc vals params; Ok (a ++ b)
  | SelExpr e _ :: items =>
      v ← eval e (ctx_row vals sc params); b ← project_items items sc vals params; Ok (v :: b)
  end.

Definition project_rows (items : list SelItem) (sc : TableSchema) (rows : list (list Value))
    (params : list Value) : Res ResultSet :=
  let '(ns, ts) := output_header items sc 0 in
  out ← try_map (λ vals, project_items items sc vals params) rows;
  Ok (mkResultSet ns ts out).

Definition project (sel : SelectStmt) (sc : TableSchema) (matched : list (list Value))
    (params : list Value) : Res ResultSet :=
  project_rows (sel_items sel) sc matched params.

(** A RETURNING list projects the affected rows the same way. *)
Definition project_returning (items : list SelItem) (sc : TableSchema) (rows : list (list Value))
    (params : list Value) : Res ResultSet :=
  project_rows items sc rows params.

Fixpoint constant_items (items : list SelItem) (params : list Value) (idx : nat)
    : Res (list string * list ColumnType * list Value) :=
  match items with
  | SelExpr e alias :: items =>
      v ← eval e (ctx_root params);
      '(ns, ts, vs) ← constant_items items params (S idx);
      Ok (column_name e alias idx :: ns, expr_type e None :: ts, v :: vs)
  | Star _ :: items => constant_items items params idx
  | [] => Ok ([], [], [])
  end.

Definition constant_select (sel : SelectStmt) (params : list Value) : Res ResultSet :=
  if existsb (λ i, match i with Star _ => true | SelExpr e _ => expr_has_aggregate e end) (sel_items sel)
  then sql_error
  else '(ns, ts, vs) ← constant_items (sel_items sel) params 0; Ok (mkResultSet ns ts [vs]).

(** ** Grouping *)

Definition group_key (group_by : list Expr) (sc : TableSchema) (row params : list Value) : Res string :=
  vs ← try_map (λ e, eval e (ctx_row row sc params)) group_by;
  Ok (foldr (λ v k, value_key v +:+ String (of_code 1) k) ""%string vs).

(** Groups in first-seen order. *)
Definition Groups := list (string * list (list Value)).
Fixpoint add_to_group (k : string) (row : list Value) (gs : Groups) : Groups :=
  match gs with
  | [] => [(k, [row])]
  | (k', rs) :: gs => if String.eqb k k' then (k', rs ++ [row]) :: gs else (k', rs) :: add_to_group k row gs
  end.

Fixpoint partition_rows (key_of : list Value → Res string) (matched : list (list Value)) (gs : Groups)
    : Res Groups :=
  match matched with
  | [] => Ok gs
  | r :: matched => k ← key_of r; partition_rows key_of matched (add_to_group k r gs)
  end.

Definition group_ctx (sc : TableSchema) (params : list Value) (rows : list (list Value)) : EvalCtx :=
  mkCtx (head rows) (Some sc) params (Some rows) None None.

Fixpoint group_items (items : list SelItem) (cx : EvalCtx) : Res (list Value) :=
  match items with
  | [] => Ok []
  | Star _ :: items =>
      match cx_row cx with
      | None => sql_error
      | Some r => b ← group_items items cx; Ok (r ++ b)
      end
  | SelExpr e _ :: items => v ← eval e cx; b ← group_items items cx; Ok (v :: b)
  end.

(** HAVING, then the output row of each group that stays. *)
Fixpoint group_rows (sel : SelectStmt) (sc : TableSchema) (params : list Value) (gs : Groups)
    : Res (list (list Value * list (list Value))) :=
  match gs with
  | [] => Ok []
  | (_, rows) :: gs =>
      let cx := group_ctx sc params rows in
      keep ← predicate (sel_having sel) cx;
      if keep : bool then
        out ← group_items (sel_items sel) cx;
        rest ← group_rows sel sc params gs;
        Ok ((out, rows) :: rest)
      else group_rows sel sc params gs
  end.

Definition order_groups (sel : SelectStmt) (sc : TableSchema) (params : list Value)
    (out : list (list Value * list (list Value))) : Res (list (list Value * list (list Value))) :=
  match sel_order_by sel with
  | [] => Ok out
  | _ => sort_by (keys_cmp (λ e o, eval e (group_ctx sc params o.2)) (resolved_order_keys sel)) out
  end.

Definition grouped_select (sel : SelectStmt) (sc : TableSchema) (matched : list (list Value))
    (params : list Value) : Res ResultSet :=
  gs ← partition_rows (λ r, group_key (sel_group_by sel) sc r params) matched [];
  let gs := match sel_group_by sel, gs with [], [] => [(""%string, [])] | _, _ => gs end in
  let '(ns, ts) := output_header (sel_items sel) sc 0 in
  out ← group_rows sel sc params gs;
  out ← order_groups sel sc params out;
  offset ← eval_count (sel_offset sel) params;
  limit ← eval_count (sel_limit sel) params;
  Ok (mkResultSet ns ts (apply_offset_limit out.*1 limit offset)).

(** ** The scan *)

Context {VI : Type} `{!VectorIndexOps VI}.
Abbreviation Store := (Store VI SelectStmt).

Definition row_visible (v : RowVersion) (snapshot : Z) (writer : option Z) : bool :=
  match writer with Some me => visible_to_writer v snapshot me | None => visible_to_reader v snapshot end.

(** Visible rows passing row-level security and WHERE, in table order. *)
Fixpoint scan_rows (d : RlsRead) (filter : option Expr) (sc : TableSchema) (snapshot : Z) (writer : option Z)
    (params : list Value) (rs : list RowVersion) : Res (list (list Value)) :=
  match rs with
  | [] => Ok []
  | v :: rs =>
      if row_visible v snapshot writer then
        let cx := ctx_row (values v) sc params in
        ok ← passes host sess d cx;
        keep ← (if ok : bool then predicate filter cx else Ok false);
        rest ← scan_rows d filter sc snapshot writer params rs;
        Ok (if keep : bool then values v :: rest else rest)
      else scan_rows d filter sc snapshot writer params rs
  end.

(** ** The nearest-neighbour access path *)

Context `{!VectorSearch VI}.

Definition KNN_OVERFETCH : Z := 4.

Record KnnPlan := mkKnnPlan { kp_column : string; kp_metric : Metric; kp_query : Expr; kp_limit : Z }.

Definition knn_plan (sel : SelectStmt) (limit : option Z) : option KnnPlan :=
  match limit, sel_order_by sel with
  | Some n, [mkOrderKey (EBinary op (EColumn col) q) asc _] =>
      if (n <? 0) || negb asc || match sel_offset sel with Some _ => true | None => false end
         || is_aggregated sel then None
      else m ← vec_metric op; Some (mkKnnPlan col m q n)
  | _, _ => None
  end.

Definition saturating_mul (a b : Z) : Z := Z.min u64_max (a * b).

Definition knn_fetch (ix : VI) (limit : Z) (ef : option Z) : Z :=
  let live := Z.max (vi_live_len ix) 1 in
  let total := vi_len ix in
  let base := Z.max (saturating_mul limit KNN_OVERFETCH) (default (ef_search (ix_params (vi_def ix))) ef) in
  let want := saturating_mul base total in
  Z.min ((want + live - 1) / live) total.

(** Hits in order of distance, kept while visible and selected, until the limit is reached. *)
Fixpoint take_hits (t : Table) (filter : option Expr) (snapshot : Z) (writer : option Z) (params : list Value)
    (n : nat) (hits : list (Z * Z)) : Res (list (list Value)) :=
  match n, hits with
  | O, _ | _, [] => Ok []
  | S n', (v, _) :: hits =>
      match version v t with
      | Some r =>
          if row_visible r snapshot writer then
            keep ← predicate filter (ctx_row (values r) (schema t) params);
            if keep : bool
            then rest ← take_hits t filter snapshot writer params n' hits; Ok (values r :: rest)
            else take_hits t filter snapshot writer params n hits
          else take_hits t filter snapshot writer params n hits
      | None => take_hits t filter snapshot writer params n hits
      end
  end.

Definition knn_select (st : Store) (sel : SelectStmt) (tname : string) (snapshot : Z) (writer : option Z)
    (params : list Value) (ef : option Z) : Res (option ResultSet) :=
  limit ← eval_count (sel_limit sel) params;
  match knn_plan sel limit with
  | None => Ok None
  | Some plan =>
      if kp_limit plan =? 0 then Ok None
      else match index_for st tname (kp_column plan) with
      | None => Ok None
      | Some ix =>
          if negb (bool_decide (ip_metric (ix_params (vi_def ix)) = kp_metric plan)) || (vi_len ix =? 0)
             || (snapshot <? vi_rebuild_floor ix) then Ok None
          else
            q ← eval (kp_query plan) (ctx_root params);
            match to_vec_operand q, table st tname with
            | Some query, Some t =>
                matched ← take_hits t (sel_filter sel) snapshot writer params (Z.to_nat (kp_limit plan))
                            (vi_search ix query (knn_fetch ix (kp_limit plan) ef) ef);
                rs ← project sel (schema t) matched params;
                Ok (Some rs)
            | _, _ => Ok None
            end
      end
  end.

Definition single_table_select (st : Store) (sel : SelectStmt) (tname : string) (snapshot : Z)
    (writer : option Z) (params : list Value) (ef : option Z) : Res ResultSet :=
  match table st tname with
  | None => sql_error
  | Some t =>
      d ← rls_read parse_expr sess (schema t) PSelect;
      knn ← match d with
            | ReadUnrestricted => knn_select st sel tname snapshot writer params ef
            | _ => Ok None
            end;
      match knn with
      | Some rs => Ok rs
      | None =>
          matched ← scan_rows d (sel_filter sel) (schema t) snapshot writer params (rows t);
          if is_aggregated sel then grouped_select sel (schema t) matched params
          else
            matched ← order_matched sel (schema t) matched params;
            limit ← eval_count (sel_limit sel) params;
            offset ← eval_count (sel_offset sel) params;
            project sel (schema t) (apply_offset_limit matched limit offset) params
      end
  end.

End Select.
