(* ===== verification/SelectSpec.v ===== *)
(** * The order of values and rows

    On values of one kind, NULLs aside, the comparison behind ORDER BY is a total preorder in either
    direction; lists of keys compare lexicographically; so ORDER BY sorts. *)

From Stdlib Require Import SpecFloat.
From S2P Require Import Prelude Text Numbers Float Chars EngineTypes Values Json Session Funcs Like Ast Expr Rls SortBy.
From S2P Require Import Wal MvccStore Select StorageTypes ExprSpec.

(** ** Three-level comparison *)

Definition lex (a b : comparison) : comparison := match a with Eq => b | c => c end.

Definition cmp3 (x y : Z * Z * Z) : comparison :=
  lex (x.1.1 ?= y.1.1) (lex (x.1.2 ?= y.1.2) (x.2 ?= y.2)).

Lemma cmp3_flip x y : cmp3 y x = CompOpp (cmp3 x y).
Proof.
  unfold cmp3. rewrite (Z.compare_antisym x.1.1), (Z.compare_antisym x.1.2), (Z.compare_antisym x.2).
  by destruct (x.1.1 ?= y.1.1), (x.1.2 ?= y.1.2), (x.2 ?= y.2).
Qed.

Lemma cmp3_trans x y z : cmp3 x y ≠ Gt → cmp3 y z ≠ Gt → cmp3 x z ≠ Gt.
Proof.
  unfold cmp3, lex. destruct x as [[a b] c], y as [[a' b'] c'], z as [[a'' b''] c'']; cbn.
  destruct (Z.compare_spec a a'), (Z.compare_spec a' a''), (Z.compare_spec a a''); try (done || lia); subst.
  destruct (Z.compare_spec b b'), (Z.compare_spec b' b''), (Z.compare_spec b b''); try (done || lia); subst.
  destruct (Z.compare_spec c c'), (Z.compare_spec c' c''), (Z.compare_spec c c''); done || lia.
Qed.

(** A float's place: by sign and class, then exponent, then mantissa. *)
Definition f_rank (x : spec_float) : option (Z * Z * Z) :=
  match x with
  | S754_nan => None
  | S754_infinity true => Some (-2, 0, 0)
  | S754_finite true m e => Some (-1, - e, - Zpos m)
  | S754_zero _ => Some (0, 0, 0)
  | S754_finite false m e => Some (1, e, Zpos m)
  | S754_infinity false => Some (2, 0, 0)
  end.

Lemma SFcompare_rank x y a b : f_rank x = Some a → f_rank y = Some b → SFcompare x y = Some (cmp3 a b).
Proof.
  destruct x as [sx|[]| |[] mx ex], y as [sy|[]| |[] my ey]; cbn; intros [= <-] [= <-]; try done;
    cbn [SFcompare]; f_equal; unfold cmp3, lex; cbn.
  - rewrite (Z.compare_opp ex ey), (Z.compare_antisym ex ey). by destruct (ex ?= ey).
  - by destruct (ex ?= ey).
Qed.

Inductive Kind := KNum | KText | KBlob.
#[export] Instance Kind_eq_dec : EqDecision Kind.
Proof. solve_decision. Defined.

(** The kind a value sorts in: a NaN and a vector have none. *)
Definition kind_of (v : Value) : option Kind :=
  match numeric v with
  | Some x => match decode_f F64 x with S754_nan => None | _ => Some KNum end
  | None => match v with TextV _ => Some KText | Blob _ => Some KBlob | _ => None end
  end.

Definition sortable (k : Kind) (v : Value) : Prop := v = Null ∨ kind_of v = Some k.


(** ** Values *)

Lemma bytes_compare_flip a b : bytes_compare b a = CompOpp (bytes_compare a b).
Proof.
  revert b. induction a as [|x a IH]; intros [|y b]; cbn; try done.
  rewrite (Z.compare_antisym (bz x) (bz y)). destruct (bz x ?= bz y); cbn; done.
Qed.

Lemma bytes_compare_trans a b c : bytes_compare a b ≠ Gt → bytes_compare b c ≠ Gt → bytes_compare a c ≠ Gt.
Proof.
  revert b c. induction a as [|x a IH]; intros [|y b] [|z c]; cbn; try done.
  destruct (Z.compare_spec (bz x) (bz y)), (Z.compare_spec (bz y) (bz z)), (Z.compare_spec (bz x) (bz z));
    try (done || lia). apply IH.
Qed.

Lemma str_compare_trans a b c : String.compare a b ≠ Gt → String.compare b c ≠ Gt → String.compare a c ≠ Gt.
Proof.
  assert (∀ x y, String.compare x y ≠ Gt ↔ String.le x y) as Hle.
  { intros x y. unfold String.le, String.leb. destruct (String.compare x y); cbn; split; done. }
  rewrite !Hle. intros H1 H2. by transitivity b.
Qed.

(** The comparison of two values that are not NULL. *)
Definition val_cmp (a b : Value) : comparison := default Eq (sql_cmp a b).

Lemma kind_not_null v k : kind_of v = Some k → is_null v = false.
Proof. by destruct v. Qed.

Lemma kind_cases v k : kind_of v = Some k →
  match k with
  | KNum => ∃ x r, numeric v = Some x ∧ f_rank (decode_f F64 x) = Some r
  | KText => ∃ s, v = TextV s
  | KBlob => ∃ b, v = Blob b
  end.
Proof.
  unfold kind_of. destruct (numeric v) as [x|] eqn:En.
  - intros H. destruct (decode_f F64 x) as [s|s| |s m e] eqn:Ex; [..|done|]; injection H as <-; exists x;
      rewrite Ex; try (by eexists); destruct s; by eexists.
  - destruct v; try done; intros [= <-]; by eexists.
Qed.

Lemma num_cmp v w x y a b : numeric v = Some x → numeric w = Some y →
  f_rank (decode_f F64 x) = Some a → f_rank (decode_f F64 y) = Some b → val_cmp v w = cmp3 a b.
Proof.
  intros Hv Hw Ha Hb. unfold val_cmp, sql_cmp. rewrite Hv, Hw.
  assert (is_null v = false) as -> by (by destruct v). assert (is_null w = false) as -> by (by destruct w).
  cbn. unfold f_cmp. by rewrite (SFcompare_rank _ _ a b).
Qed.

Lemma val_cmp_flip k v w : kind_of v = Some k → kind_of w = Some k → val_cmp w v = CompOpp (val_cmp v w).
Proof.
  intros Hv%kind_cases Hw%kind_cases. destruct k.
  - destruct Hv as (x & a & Hx & Ha), Hw as (y & b & Hy & Hb).
    rewrite (num_cmp v w x y a b), (num_cmp w v y x b a) by done. apply cmp3_flip.
  - destruct Hv as (s & ->), Hw as (t & ->). unfold val_cmp. cbn. apply String.compare_antisym.
  - destruct Hv as (s & ->), Hw as (t & ->). unfold val_cmp. cbn. apply bytes_compare_flip.
Qed.

Lemma val_cmp_trans k u v w : kind_of u = Some k → kind_of v = Some k → kind_of w = Some k →
  val_cmp u v ≠ Gt → val_cmp v w ≠ Gt → val_cmp u w ≠ Gt.
Proof.
  intros Hu%kind_cases Hv%kind_cases Hw%kind_cases. destruct k.
  - destruct Hu as (x & a & Hx & Ha), Hv as (y & b & Hy & Hb), Hw as (z & c & Hz & Hc).
    rewrite (num_cmp u v x y a b), (num_cmp v w y z b c), (num_cmp u w x z a c) by done. apply cmp3_trans.
  - destruct Hu as (r & ->), Hv as (s & ->), Hw as (t & ->). unfold val_cmp. cbn. apply str_compare_trans.
  - destruct Hu as (r & ->), Hv as (s & ->), Hw as (t & ->). unfold val_cmp. cbn. apply bytes_compare_trans.
Qed.

(** ** ORDER BY keys *)

Lemma order_cmp_flip k v w asc nf : sortable k v → sortable k w →
  order_cmp w v asc nf = CompOpp (order_cmp v w asc nf).
Proof.
  unfold order_cmp. fold (val_cmp v w). fold (val_cmp w v).
  intros [->|Hv] [->|Hw]; cbn; [done|..].
  - rewrite (kind_not_null w k Hw). by destruct nf.
  - rewrite (kind_not_null v k Hv). by destruct nf.
  - rewrite (kind_not_null v k Hv), (kind_not_null w k Hw), (val_cmp_flip k v w Hv Hw).
    destruct asc; [done|]. by destruct (val_cmp v w).
Qed.

Lemma order_cmp_trans k u v w asc nf : sortable k u → sortable k v → sortable k w →
  order_cmp u v asc nf ≠ Gt → order_cmp v w asc nf ≠ Gt → order_cmp u w asc nf ≠ Gt.
Proof.
  unfold order_cmp. fold (val_cmp u v). fold (val_cmp v w). fold (val_cmp u w).
  intros [->|Hu] [->|Hv] [->|Hw]; cbn; rewrite ?(kind_not_null u k), ?(kind_not_null v k), ?(kind_not_null w k) by done;
    try (destruct nf; done).
  destruct asc; [by apply (val_cmp_trans k)|]. intros H1 H2.
  rewrite <- (val_cmp_flip k u w) by done. rewrite <- (val_cmp_flip k u v) in H1 by done.
  rewrite <- (val_cmp_flip k v w) in H2 by done. by apply (val_cmp_trans k w v u).
Qed.

Section Keys.
Context {A : Type} (ev : Expr → A → Res Value).

(** Every key evaluates on [x], to a value of the kind that is sorted in that position. *)
Definition key_values (keys : list OrderKey) (kinds : list Kind) (x : A) : Prop :=
  Forall2 (λ k kd, ∃ v, ev (key_expr k) x = Ok v ∧ sortable kd v) keys kinds.

Definition pure_cmp (keys : list OrderKey) (a b : A) : comparison :=
  match keys_cmp ev keys a b with Ok c => c | Err _ => Eq end.

Lemma keys_cmp_cons k keys a b va vb : ev (key_expr k) a = Ok va → ev (key_expr k) b = Ok vb →
  keys_cmp ev (k :: keys) a b =
  match order_cmp va vb (key_asc k) (key_nulls_first k) with Eq => keys_cmp ev keys a b | c => Ok c end.
Proof. intros Ha Hb. cbn [keys_cmp]. by rewrite Ha, Hb. Qed.

Lemma keys_consistent keys kinds : consistent (keys_cmp ev keys) (key_values keys kinds) (pure_cmp keys).
Proof.
  revert kinds. induction keys as [|k keys IH]; intros kinds; [by split|].
  assert (∀ x, key_values (k :: keys) kinds x → ∃ kd kinds' v, kinds = kd :: kinds' ∧
    ev (key_expr k) x = Ok v ∧ sortable kd v ∧ key_values keys kinds' x) as Hinv.
  { intros x H. inversion H as [|? kd ? kinds' (v & Hv & Hs) Hr]; subst. by exists kd, kinds', v. }
  split.
  - intros x y (kd & ks & vx & -> & Hx & Hsx & Hrx)%Hinv (? & ? & vy & [= <- <-] & Hy & Hsy & Hry)%Hinv.
    unfold pure_cmp. rewrite (keys_cmp_cons k keys x y vx vy) by done.
    destruct (order_cmp _ _ _ _); [|done..]. rewrite (cons_ok _ _ _ (IH ks) x y) by done. done.
  - intros x y (kd & ks & vx & -> & Hx & Hsx & Hrx)%Hinv (? & ? & vy & [= <- <-] & Hy & Hsy & Hry)%Hinv.
    unfold pure_cmp. rewrite (keys_cmp_cons k keys x y vx vy), (keys_cmp_cons k keys y x vy vx) by done.
    rewrite (order_cmp_flip kd vx vy) by done. destruct (order_cmp vx vy _ _); cbn; [|done..].
    apply (cons_flip _ _ _ (IH ks) x y Hrx Hry).
  - intros x y z (kd & ks & vx & -> & Hx & Hsx & Hrx)%Hinv (? & ? & vy & [= <- <-] & Hy & Hsy & Hry)%Hinv
      (? & ? & vz & [= <- <-] & Hz & Hsz & Hrz)%Hinv.
    unfold pure_cmp. rewrite (keys_cmp_cons k keys x y vx vy), (keys_cmp_cons k keys y z vy vz),
      (keys_cmp_cons k keys x z vx vz) by done.
    pose proof (order_cmp_trans kd vx vy vz (key_asc k) (key_nulls_first k) Hsx Hsy Hsz) as Ht.
    pose proof (order_cmp_trans kd vy vz vx (key_asc k) (key_nulls_first k) Hsy Hsz Hsx) as Ht2.
    pose proof (order_cmp_trans kd vz vx vy (key_asc k) (key_nulls_first k) Hsz Hsx Hsy) as Ht3.
    rewrite (order_cmp_flip kd vx vz), (order_cmp_flip kd vx vy) in Ht2 by done.
    rewrite (order_cmp_flip kd vx vz), (order_cmp_flip kd vy vz) in Ht3 by done.
    destruct (order_cmp vx vy _ _), (order_cmp vy vz _ _), (order_cmp vx vz _ _); cbn in *; try done;
      try (by destruct Ht); try (by destruct Ht2); try (by destruct Ht3).
    apply (cons_trans _ _ _ (IH ks) x y z Hrx Hry Hrz).
Qed.

(** A comparison that ended in a tie. *)
Definition ties (r : Res comparison) : bool := match r with Ok Eq => true | _ => false end.

(** Sorting by keys gives the sorted stable permutation. *)
Lemma sort_by_keys keys kinds l : Forall (key_values keys kinds) l →
  ∃ l', sort_by (keys_cmp ev keys) l = Ok l' ∧ l' ≡ₚ l ∧
    StronglySorted (λ a b, keys_cmp ev keys a b ≠ Ok Gt) l' ∧
    ∀ x, x ∈ l → List.filter (λ y, ties (keys_cmp ev keys x y)) l'
                 = List.filter (λ y, ties (keys_cmp ev keys x y)) l.
Proof.
  intros Hl. pose proof (keys_consistent keys kinds) as HC.
  destruct (sort_by_spec _ _ _ HC l Hl) as (l' & Hs & Hp & Hsort & Hf). exists l'.
  assert (Forall (key_values keys kinds) l') as Hl' by (by rewrite Hp).
  assert (∀ x y, key_values keys kinds x → key_values keys kinds y →
    keys_cmp ev keys x y = Ok (pure_cmp keys x y)) as Hok by apply HC.
  split_and!; [done..| |].
  - clear Hf Hp Hs Hl. induction Hsort as [|x l' Hs IH Hx]; [constructor|].
    apply Forall_cons in Hl' as [Dx Hl']. constructor; [auto|]. rewrite Forall_forall in Hx, Hl' |- *.
    intros y Hy. rewrite Hok by auto. specialize (Hx y Hy). unfold le_by in Hx. by intros [= ?].
  - intros x Hx. rewrite Forall_forall in Hl, Hl'. specialize (Hf x (Hl x Hx)).
    assert (∀ k, (∀ y, y ∈ k → key_values keys kinds y) →
      List.filter (λ y, ties (keys_cmp ev keys x y)) k
      = List.filter (λ y, bool_decide (pure_cmp keys x y = Eq)) k) as Heq.
    { intros k Hk. apply filter_ext_in. intros y Hy%list_elem_of_In. rewrite Hok by auto.
      cbn. by destruct (pure_cmp keys x y). }
    by rewrite !Heq by auto.
Qed.

End Keys.

(** * Properties of SELECT over one table *)

Section SelectSpec.
Variable parse_expr : string → Res Expr.
Variable host : Host.
Variable sess : SessionContext.
Context {VI : Type} `{!VectorIndexOps VI, !VectorSearch VI}.

Abbreviation allowed := (allowed parse_expr host sess).
Abbreviation predicate := (predicate host sess).

(** ** Row-level security *)

Lemma rls_read_spec sc cmd d cx b :
  rls_read parse_expr sess sc cmd = Ok d → passes host sess d cx = Ok b →
  b = true ↔ allowed pol_using sc cmd cx.
Proof.
  unfold rls_read. destruct (rls_enabled sc) eqn:Hen; [|intros [= <-] [= <-]; split; [by left|done]].
  destruct (s_bypass sess) eqn:Hby; [intros [= <-] [= <-]; split; [by right; left|done]|]. cbn [negb orb].
  destruct (collect_policies _ _ _ _ _ _ _) as [d'|] eqn:Hc; [|done]. intros [= <-] Hp.
  eapply decision_spec; [done..|]. destruct d' as [[[] [|e preds]]|]; exact Hp.
Qed.

(** ** The scan *)

(** A version the scan keeps. *)
Definition kept (d : RlsRead) (filter : option Expr) (sc : TableSchema) (snapshot : Z) (writer : option Z)
    (params : list Value) (v : RowVersion) : bool :=
  let cx := ctx_row (values v) sc params in
  row_visible v snapshot writer
  && match passes host sess d cx, predicate filter cx with Ok true, Ok true => true | _, _ => false end.

Lemma scan_rows_spec d filter sc snapshot writer params rs out :
  scan_rows host sess d filter sc snapshot writer params rs = Ok out →
  out = values <$> List.filter (kept d filter sc snapshot writer params) rs.
Proof.
  revert out. induction rs as [|v rs IH]; intros out; cbn [scan_rows List.filter]; [by intros [= <-]|].
  unfold kept at 1. destruct (row_visible v snapshot writer); [cbn [andb]|by apply IH].
  destruct (passes host sess d _) as [[]|]; [..|done]; cbn [mbind Result_bind].
  - destruct (predicate filter _) as [[]|]; [..|done]; cbn [mbind Result_bind];
      (destruct (scan_rows _ _ _ _ _ _ _ _ rs) as [rest|]; [|done]); intros [= <-]; cbn; by rewrite (IH rest).
  - destruct (scan_rows _ _ _ _ _ _ _ _ rs) as [rest|]; [|done]. intros [= <-]. by rewrite (IH rest).
Qed.

(** What a query may look at: a version visible to it, allowed by the policies, selected by WHERE. *)
Definition readable (t : Table) (filter : option Expr) (snapshot : Z) (writer : option Z) (params row : list Value)
    : Prop :=
  ∃ v, v ∈ rows t ∧ row = values v ∧ row_visible v snapshot writer = true ∧
    allowed pol_using (schema t) PSelect (ctx_row row (schema t) params) ∧
    predicate filter (ctx_row row (schema t) params) = Ok true.

Lemma scan_readable d filter t snapshot writer params out row :
  rls_read parse_expr sess (schema t) PSelect = Ok d →
  scan_rows host sess d filter (schema t) snapshot writer params (rows t) = Ok out →
  row ∈ out → readable t filter snapshot writer params row.
Proof.
  intros Hd ->%scan_rows_spec Hr. apply list_elem_of_fmap in Hr as (v & -> & Hv).
  apply list_elem_of_In, filter_In in Hv as [Hv%list_elem_of_In Hk]. unfold kept in Hk.
  apply andb_prop in Hk as [Hvis Hk]. destruct (passes _ _ d _) as [[]|] eqn:Hp; [|done..].
  destruct (predicate filter _) as [[]|] eqn:Hf; [|done..]. exists v. split_and!; try done.
  by apply (rls_read_spec _ _ _ _ _ Hd Hp).
Qed.

Lemma take_hits_readable t filter snapshot writer params n hits out row :
  rls_read parse_expr sess (schema t) PSelect = Ok ReadUnrestricted →
  take_hits host sess t filter snapshot writer params n hits = Ok out →
  row ∈ out → readable t filter snapshot writer params row.
Proof.
  intros Hd. revert n out. induction hits as [|[v x] hits IH]; intros n out.
  { destruct n; intros [= <-] []%not_elem_of_nil. }
  destruct n as [|n]; [intros [= <-] []%not_elem_of_nil|]. cbn [take_hits].
  destruct (version v t) as [r|] eqn:Ev; [|by apply IH]. destruct (row_visible r snapshot writer) eqn:Hvis; [|by apply IH].
  destruct (predicate filter _) as [[]|] eqn:Hf; [|by apply IH|done]. cbn.
  destruct (take_hits _ _ _ _ _ _ _ n hits) as [rest|] eqn:Et; [|done]. intros [= <-] [->|Hr]%elem_of_cons.
  - exists r. split_and!; try done.
    + unfold version in Ev. apply find_some in Ev as [Hin _]. by apply list_elem_of_In.
    + by apply (rls_read_spec _ _ _ (ctx_row (values r) (schema t) params) true Hd).
  - by apply (IH n rest).
Qed.

Lemma knn_readable (st : Store VI SelectStmt) sel tname t snapshot writer params ef rs :
  table st tname = Some t → rls_read parse_expr sess (schema t) PSelect = Ok ReadUnrestricted →
  knn_select host sess st sel tname snapshot writer params ef = Ok (Some rs) →
  ∃ matched, project host sess sel (schema t) matched params = Ok rs ∧ is_aggregated sel = false ∧
    ∀ row, row ∈ matched → readable t (sel_filter sel) snapshot writer params row.
Proof.
  intros Ht Hd. unfold knn_select. destruct (eval_count host sess (sel_limit sel) params) as [limit|]; [|done]. cbn.
  destruct (knn_plan sel limit) as [plan|] eqn:Hplan; [|done].
  assert (is_aggregated sel = false) as Hagg.
  { unfold knn_plan in Hplan. destruct limit as [n|]; [|done].
    destruct (sel_order_by sel) as [|[e asc nf] [|]]; try done; destruct e; try done.
    all: match type of Hplan with context [match ?x with EColumn _ => _ | _ => _ end] => destruct x; try done end.
    destruct (is_aggregated sel); [|done]. by rewrite orb_true_r in Hplan. }
  destruct (kp_limit plan =? 0); [done|]. destruct (index_for st tname _) as [ix|]; [|done].
  destruct (_ || _); [done|]. destruct (eval host sess _ _) as [q|]; [|done]. cbn.
  destruct (to_vec_operand q) as [query|]; [|done]. rewrite Ht.
  destruct (take_hits _ _ _ _ _ _ _ _ _) as [matched|] eqn:Em; [|done]. cbn.
  destruct (project _ _ _ _ _ _) as [rs'|] eqn:Ep; [|done]. intros [= <-]. exists matched. split_and!; [done..|].
  intros row. by eapply take_hits_readable.
Qed.

Lemma apply_offset_limit_elem {A} (l : list A) limit offset x : x ∈ apply_offset_limit l limit offset → x ∈ l.
Proof.
  assert (∀ n (k : list A), x ∈ take n k → x ∈ k) as Ht.
  { intros n k H. rewrite <- (take_drop n k). apply elem_of_app. by left. }
  assert (∀ n (k : list A), x ∈ drop n k → x ∈ k) as Hd.
  { intros n k H. rewrite <- (take_drop n k). apply elem_of_app. by right. }
  unfold apply_offset_limit. destruct limit, offset; eauto.
Qed.

Lemma order_matched_perm sel sc matched params out :
  order_matched host sess sel sc matched params = Ok out → out ≡ₚ matched.
Proof. unfold order_matched. destruct (sel_order_by sel); [by intros [= <-]|apply sort_by_perm]. Qed.

(** ** Grouping *)

(** The groups hold the rows so far: keys are distinct, each group is the rows with its key in
    order, and no row is missing. *)
Definition groups_of (key_of : list Value → Res string) (seen : list (list Value)) (gs : Groups) : Prop :=
  NoDup gs.*1 ∧
  (∀ k rs, (k, rs) ∈ gs →
     rs ≠ [] ∧ rs = List.filter (λ r, match key_of r with Ok k' => String.eqb k' k | Err _ => false end) seen) ∧
  (∀ r, r ∈ seen → ∃ k rs, key_of r = Ok k ∧ (k, rs) ∈ gs).

Lemma add_to_group_keys k r gs : (add_to_group k r gs).*1 = if existsb (String.eqb k) gs.*1 then gs.*1 else gs.*1 ++ [k].
Proof.
  induction gs as [|[k' rs] gs IH]; cbn; [done|]. destruct (String.eqb_spec k k') as [->|Hne]; cbn; [done|].
  rewrite IH. by destruct (existsb _ _).
Qed.

Lemma add_to_group_elem k r gs k' rs : NoDup gs.*1 → (k', rs) ∈ add_to_group k r gs ↔
  (k' ≠ k ∧ (k', rs) ∈ gs) ∨
  (k' = k ∧ ((∃ rs0, (k, rs0) ∈ gs ∧ rs = rs0 ++ [r]) ∨ (k ∉ gs.*1 ∧ rs = [r]))).
Proof.
  induction gs as [|[k0 rs0] gs IH]; intros Hnd; cbn [add_to_group].
  - rewrite list_elem_of_singleton. split.
    + intros [= -> ->]. right. split; [done|]. right. split; [apply not_elem_of_nil|done].
    + intros [[_ []%not_elem_of_nil]|[-> [(? & []%not_elem_of_nil & _)|[_ ->]]]]. done.
  - cbn in Hnd. apply NoDup_cons in Hnd as [Hk0 Hnd].
    assert (∀ k rs, (k, rs) ∈ gs → k ∈ gs.*1) as Hin.
    { intros k1 rs1 H. apply list_elem_of_fmap. by exists (k1, rs1). }
    destruct (String.eqb_spec k k0) as [->|Hne].
    + etrans; [apply elem_of_cons|]. split.
      * intros [[= -> ->]|H].
        -- right. split; [done|]. left. exists rs0. split; [left|done].
        -- left. split; [|by right]. intros ->. by apply Hk0, (Hin k0 rs).
      * intros [[Hk H]|[-> [(rs1 & H & ->)|[H _]]]].
        -- apply elem_of_cons in H as [[= -> ->]|H]; [done|by right].
        -- apply elem_of_cons in H as [[= ->]|H]; [by left|]. by destruct Hk0; apply (Hin k0 rs1).
        -- destruct H. left.
    + etrans; [apply elem_of_cons|]. rewrite (IH Hnd). split.
      * intros [[= -> ->]|[[Hk H]|[-> [(rs1 & H & ->)|[H ->]]]]].
        -- left. split; [done|left].
        -- left. split; [done|by right].
        -- right. split; [done|]. left. exists rs1. split; [by right|done].
        -- right. split; [done|]. right. split; [|done]. cbn. intros [?|?]%elem_of_cons; done.
      * intros [[Hk H]|[-> [(rs1 & H & ->)|[H ->]]]].
        -- apply elem_of_cons in H as [[= -> ->]|H]; [by left|]. right. by left.
        -- apply elem_of_cons in H as [[= -> ->]|H]; [done|]. right. right. split; [done|]. left. by exists rs1.
        -- right. right. split; [done|]. right. split; [|done]. cbn in H. intros ?. apply H. by right.
Qed.

Lemma groups_of_add key_of seen gs r k :
  groups_of key_of seen gs → key_of r = Ok k → groups_of key_of (seen ++ [r]) (add_to_group k r gs).
Proof.
  intros (Hnd & Hg & Hall) Hk. split_and!.
  - rewrite add_to_group_keys. destruct (existsb _ _) eqn:E; [done|]. apply NoDup_app. split_and!; [done| |].
    + intros x Hx Hxk. apply list_elem_of_singleton in Hxk as ->.
      assert (existsb (String.eqb k) gs.*1 = true) as E2; [|by rewrite E in E2].
      apply existsb_exists. exists k. split; [by apply list_elem_of_In|apply String.eqb_refl].
    + apply NoDup_singleton.
  - intros k' rs. rewrite add_to_group_elem by done. rewrite List.filter_app. cbn [List.filter]. rewrite Hk.
    intros [[Hne H]|[-> [(rs0 & H & ->)|[Hnew ->]]]].
    + destruct (Hg k' rs H) as [Hn Hrs]. split; [done|]. rewrite <- Hrs.
      destruct (String.eqb_spec k k'); [congruence|]. by rewrite app_nil_r.
    + destruct (Hg k rs0 H) as [Hn Hrs]. rewrite <- Hrs, String.eqb_refl. split; [by destruct rs0|done].
    + split; [done|]. rewrite String.eqb_refl.
      assert (List.filter (λ r, match key_of r with Ok k' => String.eqb k' k | Err _ => false end) seen = []) as ->; [|done].
      destruct (List.filter _ seen) as [|x l] eqn:E; [done|]. exfalso.
      assert (In x (x :: l)) as Hx by (by left). rewrite <- E in Hx. apply filter_In in Hx as [Hx Hkx].
      destruct (Hall x) as (k1 & rs1 & Hk1 & Hin1); [by apply list_elem_of_In|]. rewrite Hk1 in Hkx.
      apply String.eqb_eq in Hkx as ->. apply Hnew. apply list_elem_of_fmap. by exists (k, rs1).
  - intros x [Hx| ->%list_elem_of_singleton]%elem_of_app.
    + destruct (Hall x Hx) as (k1 & rs1 & Hk1 & Hin1). destruct (decide (k1 = k)) as [->|Hne].
      * exists k, (rs1 ++ [r]). split; [done|]. apply add_to_group_elem; [done|]. right. split; [done|]. left. by exists rs1.
      * exists k1, rs1. split; [done|]. apply add_to_group_elem; [done|]. by left.
    + destruct (decide (k ∈ gs.*1)) as [Hin|Hnin].
      * apply list_elem_of_fmap in Hin as ([k' rs'] & -> & Hin). exists k', (rs' ++ [r]). split; [done|].
        apply add_to_group_elem; [done|]. right. split; [done|]. left. by exists rs'.
      * exists k, [r]. split; [done|]. apply add_to_group_elem; [done|]. right. split; [done|]. by right.
Qed.

Lemma partition_spec key_of matched seen gs gs' :
  groups_of key_of seen gs → partition_rows key_of matched gs = Ok gs' → groups_of key_of (seen ++ matched) gs'.
Proof.
  revert seen gs. induction matched as [|r matched IH]; intros seen gs Hg; cbn [partition_rows].
  - intros [= <-]. by rewrite app_nil_r.
  - destruct (key_of r) as [k|] eqn:Ek; [|done]. cbn. intros H. change (r :: matched) with ([r] ++ matched).
    rewrite app_assoc. eapply IH; [|exact H]. by apply groups_of_add.
Qed.

(** ** Properties *)

(** C15. Row-level security is exact and fails closed: where the decision and its predicates evaluate,
    a row may be read exactly when security is off for the session or some applicable policy grants
    it, and a write passes exactly when some applicable policy's check does; otherwise the write is
    a constraint error. *)
Theorem rls_exact sc cmd :
  (∀ d cx b, rls_read parse_expr sess sc cmd = Ok d → passes host sess d cx = Ok b →
     b = true ↔ allowed pol_using sc cmd cx) ∧
  (∀ d vals, rls_write parse_expr sess sc cmd = Ok d →
     let cx := ctx_row vals sc [] in
     (enforce_rls_write host sess d sc vals = Ok tt ∧ allowed check_of sc cmd cx) ∨
     (enforce_rls_write host sess d sc vals = Err (Failed ErrConstraint) ∧ ¬ allowed check_of sc cmd cx) ∨
     (∃ preds f, d = WriteCheck preds ∧ any_true host sess preds cx = Err f ∧
        enforce_rls_write host sess d sc vals = Err f)).
Proof.
  split; [intros; by eapply rls_read_spec|]. intros d vals Hd cx. unfold rls_write in Hd.
  assert (∀ b, match d with WriteUnrestricted => Ok true | WriteDeny => Ok false
                          | WriteCheck preds => any_true host sess preds cx end = Ok b →
    b = true ↔ allowed check_of sc cmd cx) as Hdec.
  { intros b Hb. destruct (rls_enabled sc) eqn:Hen.
    - destruct (s_bypass sess) eqn:Hby.
      + injection Hd as <-. injection Hb as <-. split; [by right; left|done].
      + cbn [negb orb] in Hd. destruct (collect_policies _ _ _ _ _ _ _) as [d'|] eqn:Hc; [|done].
        injection Hd as <-. eapply decision_spec; [done..|]. destruct d' as [[[] [|e preds]]|]; exact Hb.
    - injection Hd as <-. injection Hb as <-. split; [by left|done]. }
  unfold enforce_rls_write. fold cx.
  destruct d as [|preds|]; cbn [mbind Result_bind].
  - left. split; [done|]. by apply (Hdec true).
  - destruct (any_true host sess preds cx) as [[]|f] eqn:Ha; cbn.
    + left. split; [done|]. by apply (Hdec true).
    + right. left. split; [done|]. intros H%(Hdec false eq_refl). done.
    + right. right. by exists preds, f.
  - right. left. split; [done|]. intros H%(Hdec false eq_refl). done.
Qed.

(** A query reads only what it may: the rows a SELECT over a table projects or aggregates, by the
    scan or through a vector index, are versions visible to its snapshot that the table's policies
    allow the session and its WHERE clause selects. *)
Theorem select_reads_only_allowed (st : Store VI SelectStmt) sel tname t snapshot writer params ef rs :
  table st tname = Some t →
  single_table_select parse_expr host sess st sel tname snapshot writer params ef = Ok rs →
  ∃ matched,
    (if is_aggregated sel then grouped_select host sess sel (schema t) matched params
     else project host sess sel (schema t) matched params) = Ok rs ∧
    ∀ row, row ∈ matched → readable t (sel_filter sel) snapshot writer params row.
Proof.
  intros Ht. unfold single_table_select. rewrite Ht.
  destruct (rls_read parse_expr sess (schema t) PSelect) as [d|] eqn:Hd; [|done]. cbn [mbind Result_bind].
  destruct (match d with ReadUnrestricted => _ | _ => Ok None end) as [knn|] eqn:Hk; [|done]. cbn [mbind Result_bind].
  destruct knn as [rs'|].
  { intros [= <-]. destruct d; [|done..]. destruct (knn_readable _ _ _ _ _ _ _ _ _ Ht Hd Hk) as (m & Hm & -> & Hr). by exists m. }
  destruct (scan_rows _ _ _ _ _ _ _ _ _) as [matched|] eqn:Hs; [|done]. cbn [mbind Result_bind].
  assert (∀ row, row ∈ matched → readable t (sel_filter sel) snapshot writer params row) as Hr.
  { intros row. by eapply scan_readable. }
  destruct (is_aggregated sel); [intros H; by exists matched|].
  destruct (order_matched _ _ _ _ _ _) as [ordered|] eqn:Ho; [|done]. cbn [mbind Result_bind].
  destruct (eval_count _ _ (sel_limit sel) _) as [limit|]; [|done]. cbn [mbind Result_bind].
  destruct (eval_count _ _ (sel_offset sel) _) as [offset|]; [|done]. cbn [mbind Result_bind].
  intros H. exists (apply_offset_limit ordered limit offset). split; [done|].
  intros row Hrow%apply_offset_limit_elem. apply Hr. apply order_matched_perm in Ho. by rewrite <- Ho.
Qed.

(** ORDER BY sorts: where every key evaluates on every row, to values of one kind or NULL per key,
    the result is the rows in the order of the keys, with their directions and NULL placements, and
    rows that tie keep the order they had. *)
Theorem order_by_sorts sel sc matched params kinds :
  sel_order_by sel ≠ [] →
  Forall (key_values (λ e r, eval host sess e (ctx_row r sc params)) (resolved_order_keys sel) kinds) matched →
  let cmp := order_key_cmp host sess (resolved_order_keys sel) sc params in
  ∃ out, order_matched host sess sel sc matched params = Ok out ∧ out ≡ₚ matched ∧
    StronglySorted (λ a b, cmp a b ≠ Ok Gt) out ∧
    ∀ r, r ∈ matched → List.filter (λ y, ties (cmp r y)) out = List.filter (λ y, ties (cmp r y)) matched.
Proof.
  intros Hne Hk cmp. unfold order_matched. destruct (sel_order_by sel) eqn:E; [done|].
  by apply (sort_by_keys (λ e r, eval host sess e (ctx_row r sc params)) (resolved_order_keys sel) kinds matched).
Qed.

(** GROUP BY partitions: the groups have distinct keys, each is nonempty and is exactly the rows
    with its key in their order, and every row is in the group of its key. *)
Theorem groups_partition key_of matched gs :
  partition_rows key_of matched [] = Ok gs → groups_of key_of matched gs.
Proof.
  intros H. refine (partition_spec key_of matched [] [] gs _ H). split_and!.
  - constructor.
  - intros ? ? []%not_elem_of_nil.
  - intros ? []%not_elem_of_nil.
Qed.

End SelectSpec.
