(* ===== verification/Joins.v ===== *)
(** * Relations: joins, projection, DISTINCT and set operations (crates/engine/src/exec.rs, [relational])

    The steps of the multi-source executor that run no query themselves: nested-loop joins over the
    combined namespace, the select list over a namespace, grouping, ordering, duplicate removal by
    row key, and the set operations.  Where the source keeps indices into the rows of the relation
    the model keeps the rows. *)

From S2P Require Import Prelude Text StorageTypes Numbers Float Chars EngineTypes Values Json Session Funcs Like Ast Expr.
From S2P Require Import Rls SortBy Wal MvccStore Select.

#[local] Open Scope i64_scope.

Record Relation := mkRelation { rel_cols : list RelCol; rel_rows : list (list Value) }.

Definition relation_from_result (alias : string) (rs : ResultSet) : Relation :=
  mkRelation (zip_with (λ n t, mkRelCol (Some alias) n t) (rs_columns rs) (rs_types rs)) (rs_rows rs).

Definition retag (cols : list RelCol) (src : string) : list RelCol :=
  (λ c, mkRelCol (Some src) (rc_name c) (rc_ty c)) <$> cols.

(** [xs.iter().map(f)] of rows, appended. *)
Definition try_concat {A B} (f : A → Res (list B)) (l : list A) : Res (list B) :=
  xs ← try_map f l; Ok (concat xs).

Definition nulls (n : nat) : list Value := replicate n Null.

Section Joins.
Variable host : Host.
Variable sess : SessionContext.
Variable params : list Value.
Abbreviation eval := (eval host sess).
Abbreviation predicate := (predicate host sess).

(** ** Joins *)

Record JoinCtx := mkJoinCtx {
  jc_cols : list RelCol;
  jc_on : option Expr;
  jc_pairs : list (nat * nat);
  jc_swapped : bool
}.

Definition swapped (jc : JoinCtx) : JoinCtx := mkJoinCtx (jc_cols jc) (jc_on jc) (jc_pairs jc) true.
Definition combine (jc : JoinCtx) (outer inner : list Value) : list Value :=
  if jc_swapped jc then inner ++ outer else outer ++ inner.

(** The USING equalities, left to right; the first that does not hold decides. *)
Fixpoint pairs_match (combined : list Value) (pairs : list (nat * nat)) : Res bool :=
  match pairs with
  | [] => Ok true
  | (i, j) :: pairs =>
      a ← cell_at combined i;
      b ← cell_at combined j;
      if bool_decide (sql_eq a b = Some true) then pairs_match combined pairs else Ok false
  end.

Definition row_matches (jc : JoinCtx) (combined : list Value) : Res bool :=
  ok ← pairs_match combined (jc_pairs jc);
  if ok : bool then
    match jc_on jc with
    | Some e => v ← eval e (ctx_rel combined (jc_cols jc) params); Ok (default false (as_bool v))
    | None => Ok true
    end
  else Ok false.

Definition join_inner (l r : list (list Value)) (jc : JoinCtx) : Res (list (list Value)) :=
  try_concat (λ lr, try_filter (row_matches jc) ((λ rr, lr ++ rr) <$> r)) l.

(** A row of the outer side with no match is kept once, padded. *)
Definition join_outer (outer inner : list (list Value)) (jc : JoinCtx) (null_inner : list Value)
    : Res (list (list Value)) :=
  try_concat (λ orow,
    ms ← try_filter (row_matches jc) (combine jc orow <$> inner);
    Ok (match ms with [] => [combine jc orow null_inner] | _ => ms end)) outer.

(** Which rows of the right side one left row matches. *)
Definition hits_of (jc : JoinCtx) (r : list (list Value)) (lr : list Value) : Res (list bool) :=
  try_map (λ rr, row_matches jc (lr ++ rr)) r.

Definition pick {A} (hits : list bool) (l : list A) : list A := (zip hits l ≫= λ '(h, x), if h : bool then [x] else []).

Definition full_part (r : list (list Value)) (null_r : list Value) (lr : list Value) (hits : list bool)
    : list (list Value) :=
  match pick hits r with [] => [lr ++ null_r] | ms => (λ rr, lr ++ rr) <$> ms end.

(** [r_hit] accumulates over the left rows. *)
Fixpoint join_full_left (l r : list (list Value)) (jc : JoinCtx) (null_r : list Value) (r_hit : list bool)
    : Res (list (list Value) * list bool) :=
  match l with
  | [] => Ok ([], r_hit)
  | lr :: l =>
      hits ← hits_of jc r lr;
      '(out, r_hit) ← join_full_left l r jc null_r (zip_with orb r_hit hits);
      Ok (full_part r null_r lr hits ++ out, r_hit)
  end.

Definition join_full (l r : list (list Value)) (jc : JoinCtx) (null_l null_r : list Value)
    : Res (list (list Value)) :=
  '(out, r_hit) ← join_full_left l r jc null_r (replicate (length r) false);
  Ok (out ++ ((λ rr, null_l ++ rr) <$> pick (negb <$> r_hit) r)).

Definition using_pair (l r : list RelCol) (u : string) : Res (nat * nat) :=
  i ← resolve_col l None u;
  j ← resolve_col r None u;
  Ok (i, (length l + j)%nat).

Definition join (l r : Relation) (kind : JoinKind) (on : option Expr) (using_ : list string) : Res Relation :=
  let cols := rel_cols l ++ rel_cols r in
  pairs ← try_map (using_pair (rel_cols l) (rel_cols r)) using_;
  let null_l := nulls (length (rel_cols l)) in
  let null_r := nulls (length (rel_cols r)) in
  let jc := mkJoinCtx cols on pairs false in
  out ← match kind with
        | Inner | CrossJoin => join_inner (rel_rows l) (rel_rows r) jc
        | LeftJoin => join_outer (rel_rows l) (rel_rows r) jc null_r
        | RightJoin => join_outer (rel_rows r) (rel_rows l) (swapped jc) null_l
        | FullJoin => join_full (rel_rows l) (rel_rows r) jc null_l null_r
        end;
  Ok (mkRelation cols out).

(** ** The select list over a namespace *)

Definition star_includes (qualifier : option string) (c : RelCol) : bool :=
  match qualifier with
  | None => true
  | Some q => match rc_table c with Some t => eq_ignore_ascii_case t q | None => false end
  end.

Definition rel_type (cols : list RelCol) (tbl : option string) (name : string) : option ColumnType :=
  match resolve_col cols tbl name with Ok i => rc_ty <$> cols !! i | Err _ => None end.

Fixpoint expr_type_rel (e : Expr) (cols : list RelCol) : ColumnType :=
  match e with
  | EColumn n => default CText (rel_type cols None n)
  | EQualified t n => default CText (rel_type cols (Some t) n)
  | ECast e Passthrough => expr_type_rel e cols
  | ECast _ t => cast_column_type t
  | EAggregate f a _ _ =>
      match f with
      | Count => CInteger
      | Avg => CReal
      | JsonAgg | GroupConcat => CText
      | Sum | Min | Max => match a with Some e => expr_type_rel e cols | None => CInteger end
      end
  | e => expr_type e None
  end.

Definition star_cols (qualifier : option string) (cols : list RelCol) : list RelCol :=
  List.filter (star_includes qualifier) cols.

Fixpoint output_columns (items : list SelItem) (cols : list RelCol) (idx : nat)
    : list string * list ColumnType :=
  match items with
  | [] => ([], [])
  | Star q :: items =>
      let sc := star_cols q cols in
      let '(ns, ts) := output_columns items cols (idx + length sc) in
      ((rc_name <$> sc) ++ ns, (rc_ty <$> sc) ++ ts)
  | SelExpr e alias :: items =>
      let '(ns, ts) := output_columns items cols (S idx) in
      (column_name e alias idx :: ns, expr_type_rel e cols :: ts)
  end.

(** The cells a star takes of a row, [row[i]] for the included columns. *)
Fixpoint star_cells (q : option string) (cols : list RelCol) (row : list Value) (i : nat) : Res (list Value) :=
  match cols with
  | [] => Ok []
  | c :: cols =>
      if star_includes q c then
        v ← cell_at row i;
        vs ← star_cells q cols row (S i);
        Ok (v :: vs)
      else star_cells q cols row (S i)
  end.

(** [project_item]: the values one item adds to the output row. *)
Definition project_item (item : SelItem) (cx : EvalCtx) (cols : list RelCol) (row : list Value)
    : Res (list Value) :=
  match item with
  | Star q => star_cells q cols row 0
  | SelExpr e _ => v ← eval e cx; Ok [v]
  end.

(** ** Grouping and ordering *)

Definition rel_group_ctx (cols : list RelCol) (members : list (list Value)) : EvalCtx :=
  mkCtx (head members) None params (Some members) None (Some cols).

Definition rel_group_key (group_by : list Expr) (cols : list RelCol) (row : list Value) : Res string :=
  vs ← try_map (λ e, eval e (ctx_rel row cols params)) group_by;
  Ok (foldr (λ v k, value_key v +:+ String (of_code 1) k) ""%string vs).

Definition group_item (item : SelItem) (cols : list RelCol) (cx : EvalCtx) : Res (list Value) :=
  match item with
  | Star q => match cx_row cx with None => sql_error | Some r => star_cells q cols r 0 end
  | SelExpr e _ => v ← eval e cx; Ok [v]
  end.

(** An entry is an output row with the rows it stands for. *)
Definition Entry : Type := list Value * list (list Value).

Fixpoint group_entries (items : list SelItem) (having : option Expr) (cols : list RelCol) (gs : Groups)
    : Res (list Entry) :=
  match gs with
  | [] => Ok []
  | (_, members) :: gs =>
      let cx := rel_group_ctx cols members in
      keep ← predicate having cx;
      if keep : bool then
        out ← try_concat (λ i, group_item i cols cx) items;
        rest ← group_entries items having cols gs;
        Ok ((out, members) :: rest)
      else group_entries items having cols gs
  end.

Definition grouped_entries (items : list SelItem) (group_by : list Expr) (having : option Expr)
    (cols : list RelCol) (kept : list (list Value)) : Res (list Entry) :=
  gs ← partition_rows (rel_group_key group_by cols) kept [];
  group_entries items having cols (match group_by, gs with [], [] => [(""%string, [])] | _, _ => gs end).

Definition eval_in_group (cols : list RelCol) (e : Expr) (entry : Entry) : Res Value :=
  eval e (rel_group_ctx cols entry.2).

Definition order_and_collect (entries : list Entry) (keys : list OrderKey) (cols : list RelCol)
    : Res (list (list Value)) :=
  entries ← match keys with [] => Ok entries | _ => sort_by (keys_cmp (eval_in_group cols) keys) entries end;
  Ok entries.*1.

Definition agg_query (items : list SelItem) (group_by : list Expr) (having : option Expr) : bool :=
  negb (zlen group_by =? 0)
  || match having with Some _ => true | None => false end
  || existsb (item_has expr_has_aggregate) items.

Definition resolve_alias_rel (items : list SelItem) (e : Expr) : Expr := resolve_alias items e.

Definition order_keys_for (sel : SelectStmt) (items : list SelItem) (apply_tail : bool) : list OrderKey :=
  if apply_tail then
    (λ k, mkOrderKey (resolve_alias_rel items (key_expr k)) (key_asc k) (key_nulls_first k)) <$> sel_order_by sel
  else [].

(** ** DISTINCT and set operations *)

Definition row_key (row : list Value) : string :=
  foldr (λ v k, value_key v +:+ String (of_code 1) k) ""%string row.

(** [retain(|r| seen.insert(row_key(r)))]. *)
Fixpoint retain_new (seen : gset string) (rows : list (list Value)) : list (list Value) :=
  match rows with
  | [] => []
  | r :: rows =>
      if bool_decide (row_key r ∈ seen) then retain_new seen rows
      else r :: retain_new ({[row_key r]} ∪ seen) rows
  end.
Definition dedup_rows (rows : list (list Value)) : list (list Value) := retain_new ∅ rows.

Definition apply_offset_limit_owned (rows : list (list Value)) (limit offset : option Z) : list (list Value) :=
  apply_offset_limit rows limit offset.

(** How often each key occurs. *)
Definition key_counts (rows : list (list Value)) : gmap string nat :=
  foldl (λ m r, <[row_key r := S (default 0%nat (m !! row_key r))]> m) ∅ rows.

Fixpoint intersect_all (counts : gmap string nat) (l : list (list Value)) : list (list Value) :=
  match l with
  | [] => []
  | row :: l =>
      match counts !! row_key row with
      | Some (S c) => row :: intersect_all (<[row_key row := c]> counts) l
      | _ => intersect_all counts l
      end
  end.

Fixpoint except_all (counts : gmap string nat) (l : list (list Value)) : list (list Value) :=
  match l with
  | [] => []
  | row :: l =>
      match counts !! row_key row with
      | Some (S c) => except_all (<[row_key row := c]> counts) l
      | _ => row :: except_all counts l
      end
  end.

Definition key_set (rows : list (list Value)) : gset string := list_to_set (row_key <$> rows).

(** Rows whose membership in [rset] is [want], the first of each key. *)
Fixpoint keep_first (want : bool) (rset seen : gset string) (l : list (list Value)) : list (list Value) :=
  match l with
  | [] => []
  | row :: l =>
      let k := row_key row in
      if Bool.eqb (bool_decide (k ∈ rset)) want then
        if bool_decide (k ∈ seen) then keep_first want rset seen l
        else row :: keep_first want rset ({[k]} ∪ seen) l
      else keep_first want rset seen l
  end.

Definition set_op_rows (op : SetOp) (all : bool) (l r : list (list Value)) : list (list Value) :=
  match op, all with
  | Union, true => l ++ r
  | Union, false => dedup_rows (l ++ r)
  | Intersect, true => intersect_all (key_counts r) l
  | Intersect, false => keep_first true (key_set r) ∅ l
  | Except, true => except_all (key_counts r) l
  | Except, false => keep_first false (key_set r) ∅ l
  end.

Definition combine_set_op (lhs rhs : ResultSet) (op : SetOp) (all : bool) : Res ResultSet :=
  if (zlen (rs_columns lhs) =? zlen (rs_columns rhs))%Z
  then Ok (mkResultSet (rs_columns lhs) (rs_types lhs) (set_op_rows op all (rs_rows lhs) (rs_rows rhs)))
  else sql_error.

(** ** ORDER BY of a set operation: output columns by name or position *)

Definition output_key (columns : list string) (k : OrderKey) : Res (nat * bool * bool) :=
  i ← match key_expr k with
      | EInt n =>
          let n := (n mod 2 ^ 64)%Z in
          if ((n =? 0) || (zlen columns <? n))%Z then sql_error else Ok (Z.to_nat (n - 1))
      | EColumn name | EQualified _ name =>
          match position (λ c, eq_ignore_ascii_case c name) columns with Some i => Ok i | None => sql_error end
      | _ => sql_error
      end;
  Ok (i, key_asc k, key_nulls_first k).

Fixpoint output_cmp (keys : list (nat * bool * bool)) (a b : list Value) : Res comparison :=
  match keys with
  | [] => Ok Eq
  | (i, asc, nf) :: keys =>
      x ← cell_at a i;
      y ← cell_at b i;
      match order_cmp x y asc nf with Eq => output_cmp keys a b | c => Ok c end
  end.

Definition apply_output_order_limit (rs : ResultSet) (sel : SelectStmt) : Res ResultSet :=
  rows ← match sel_order_by sel with
         | [] => Ok (rs_rows rs)
         | order => keys ← try_map (output_key (rs_columns rs)) order; sort_by (output_cmp keys) (rs_rows rs)
         end;
  off ← eval_count host sess (sel_offset sel) params;
  lim ← eval_count host sess (sel_limit sel) params;
  Ok (mkResultSet (rs_columns rs) (rs_types rs) (apply_offset_limit_owned rows lim off)).

End Joins.
