(* ===== verification/JoinsSpec.v ===== *)
(** * Joins and set operations are what SQL says

    The nested loops compute the join of their kind for the relation the condition defines, and the
    set operations act on multisets of rows identified by their keys. *)

From S2P Require Import Prelude Text StorageTypes Numbers Float Chars EngineTypes Values Json Session Funcs Like Ast Expr.
From S2P Require Import Rls SortBy Wal MvccStore Select Joins.

(** ** Loops whose body succeeds *)

Lemma try_map_Ok {A B} (f : A → Res B) (g : A → B) l :
  (∀ x, x ∈ l → f x = Ok (g x)) → try_map f l = Ok (g <$> l).
Proof.
  induction l as [|x l IH]; intros H; [done|]. cbn [try_map]. rewrite (H x) by (by left). cbn.
  rewrite IH; [done|]. intros y Hy. apply H. by right.
Qed.

Lemma try_concat_Ok {A B} (f : A → Res (list B)) (g : A → list B) l :
  (∀ x, x ∈ l → f x = Ok (g x)) → try_concat f l = Ok (l ≫= g).
Proof.
  intros H. unfold try_concat. rewrite (try_map_Ok f g l H). cbn. f_equal.
  clear H. induction l as [|x l IH]; cbn; [done|]. by rewrite IH.
Qed.

Lemma try_filter_Ok {A} (f : A → Res bool) (p : A → bool) l :
  (∀ x, x ∈ l → f x = Ok (p x)) → try_filter f l = Ok (List.filter p l).
Proof.
  induction l as [|x l IH]; intros H; [done|]. cbn [try_filter]. rewrite (H x) by (by left). cbn.
  rewrite IH; [done|]. intros y Hy. apply H. by right.
Qed.

Lemma filter_fmap {A B} (p : B → bool) (f : A → B) l :
  List.filter p (f <$> l) = f <$> List.filter (λ x, p (f x)) l.
Proof. induction l as [|x l IH]; cbn; [done|]. rewrite IH. by destruct (p (f x)). Qed.

Lemma pick_map {A} (p : A → bool) l : pick (p <$> l) l = List.filter p l.
Proof. induction l as [|x l IH]; [done|]. cbn. unfold pick in IH. rewrite IH. by destruct (p x). Qed.

(** ** Joins *)

Section Spec.
Context (host : Host) (sess : SessionContext) (params : list Value).
Context (m : list Value → list Value → bool).

(** Rows of one side beside the rows they match on the other, or padded once. *)
Definition matches_or {A} (pad : A) (ms : list A) : list A := match ms with [] => [pad] | _ => ms end.

Definition inner_rows (l r : list (list Value)) : list (list Value) :=
  l ≫= λ a, app a <$> List.filter (m a) r.
Definition left_rows (l r : list (list Value)) (null_r : list Value) : list (list Value) :=
  l ≫= λ a, matches_or (a ++ null_r) (app a <$> List.filter (m a) r).
Definition right_rows (l r : list (list Value)) (null_l : list Value) : list (list Value) :=
  r ≫= λ b, matches_or (null_l ++ b) ((λ a, a ++ b) <$> List.filter (λ a, m a b) l).

(** The rows a join of [kind] has. *)
Definition join_spec (kind : JoinKind) (l r : list (list Value)) (null_l null_r : list Value)
    : list (list Value) :=
  match kind with
  | Inner | CrossJoin => inner_rows l r
  | LeftJoin => left_rows l r null_r
  | RightJoin => right_rows l r null_l
  | FullJoin => left_rows l r null_r ++
      (app null_l <$> List.filter (λ b, negb (existsb (λ a, m a b) l)) r)
  end.

Context (jc : JoinCtx) (l r : list (list Value)).
Hypothesis Hjc : jc_swapped jc = false.
Hypothesis Hm : ∀ a b, a ∈ l → b ∈ r → row_matches host sess params jc (a ++ b) = Ok (m a b).

Lemma join_inner_spec : join_inner host sess params l r jc = Ok (inner_rows l r).
Proof using Hm.
  apply try_concat_Ok. intros a Ha.
  transitivity (Ok (E := Fault) (List.filter (λ c, match row_matches host sess params jc c with Ok b => b | Err _ => false end)
                      ((λ b, a ++ b) <$> r))).
  - apply try_filter_Ok. intros c Hc. apply list_elem_of_fmap in Hc as (b & -> & Hb). by rewrite Hm.
  - rewrite filter_fmap. do 2 f_equal. apply filter_ext_in. intros b Hb%list_elem_of_In. by rewrite Hm.
Qed.

(** The rows of [inner] that one row of the outer side matches. *)
Lemma outer_matches jc' (f : list Value → list Value) (p : list Value → bool) (inner : list (list Value)) :
  (∀ b, b ∈ inner → row_matches host sess params jc' (f b) = Ok (p b)) →
  try_filter (row_matches host sess params jc') (f <$> inner) = Ok (f <$> List.filter p inner).
Proof.
  induction inner as [|b inner IH]; intros H; [done|]. cbn. rewrite (H b) by (by left). cbn.
  rewrite IH by (intros c Hc; apply H; by right). cbn. by destruct (p b).
Qed.

Lemma join_left_spec null_r : join_outer host sess params l r jc null_r = Ok (left_rows l r null_r).
Proof using Hjc Hm.
  apply try_concat_Ok. intros a Ha. unfold combine. rewrite Hjc.
  change (λ inner, a ++ inner) with (app a).
  rewrite (outer_matches jc (app a) (m a) r) by (intros; by apply Hm). cbn.
  by destruct (app a <$> List.filter (m a) r).
Qed.

Lemma join_right_spec null_l : join_outer host sess params r l (swapped jc) null_l = Ok (right_rows l r null_l).
Proof using Hm.
  apply try_concat_Ok. intros b Hb. unfold combine. cbn [jc_swapped swapped].
  rewrite (outer_matches (swapped jc) (λ a, a ++ b) (λ a, m a b) l); [cbn; by destruct (_ <$> _)|].
  intros a Ha. by apply (Hm a b).
Qed.

Lemma hits_spec a : a ∈ l → hits_of host sess params jc r a = Ok (m a <$> r).
Proof using Hm. intros Ha. apply try_map_Ok. intros b Hb. by apply Hm. Qed.

Lemma join_full_left_spec l' null_r hit : (∀ a, a ∈ l' → a ∈ l) →
  join_full_left host sess params l' r jc null_r (hit <$> r)
  = Ok (left_rows l' r null_r, (λ b, hit b || existsb (λ a, m a b) l') <$> r).
Proof using Hm.
  revert hit. induction l' as [|a l' IH]; intros hit Hl.
  { cbn. do 2 f_equal. apply list_fmap_ext. intros ? b _. by rewrite orb_false_r. }
  cbn [join_full_left]. rewrite hits_spec by (apply Hl; by left). cbn [mbind Result_bind].
  assert (zip_with orb (hit <$> r) (m a <$> r) = (λ b, hit b || m a b) <$> r) as ->.
  { clear. induction r as [|b r' IH]; cbn; [done|]. by rewrite IH. }
  rewrite IH by (intros; apply Hl; by right). cbn [mbind Result_bind]. do 2 f_equal.
  - cbn [left_rows mbind list_bind]. f_equal. unfold full_part, matches_or. rewrite pick_map.
    by destruct (List.filter (m a) r).
  - apply list_fmap_ext. intros ? b _. cbn [existsb]. by rewrite orb_assoc.
Qed.

Lemma join_full_spec null_l null_r :
  join_full host sess params l r jc null_l null_r = Ok (join_spec FullJoin l r null_l null_r).
Proof using Hm.
  unfold join_full.
  assert (replicate (length r) false = (λ _, false) <$> r) as ->.
  { clear. induction r as [|b r' IH]; cbn; [done|]. by rewrite IH. }
  rewrite join_full_left_spec by done. cbn [mbind Result_bind]. cbn [join_spec]. f_equal. f_equal. f_equal.
  rewrite <- list_fmap_compose. rewrite <- pick_map. f_equal. 
Qed.

End Spec.

(** C19. Joins are exact: where the join condition evaluates on every pair of rows, to [m], a join has
    the rows of its kind for [m], in the order of the nested loops: matching pairs, and for the outer
    kinds each row without a match once, padded with NULLs in the other side's columns. *)
Theorem joins_exact host sess params l r kind on using_ pairs m :
  try_map (using_pair (rel_cols l) (rel_cols r)) using_ = Ok pairs →
  (∀ a b, a ∈ rel_rows l → b ∈ rel_rows r →
     row_matches host sess params (mkJoinCtx (rel_cols l ++ rel_cols r) on pairs false) (a ++ b) = Ok (m a b)) →
  join host sess params l r kind on using_
  = Ok (mkRelation (rel_cols l ++ rel_cols r)
          (join_spec m kind (rel_rows l) (rel_rows r)
             (nulls (length (rel_cols l))) (nulls (length (rel_cols r))))).
Proof.
  intros Hp Hm. unfold join. rewrite Hp. cbn [mbind Result_bind]. destruct kind.
  - by rewrite (join_inner_spec host sess params m _ (rel_rows l) (rel_rows r)).
  - by rewrite (join_left_spec host sess params m _ (rel_rows l) (rel_rows r)).
  - by rewrite (join_right_spec host sess params m _ (rel_rows l) (rel_rows r)).
  - by rewrite (join_full_spec host sess params m _ (rel_rows l) (rel_rows r)).
  - by rewrite (join_inner_spec host sess params m _ (rel_rows l) (rel_rows r)).
Qed.

(** ** Set operations *)

(** How often a key occurs among rows. *)
Definition mult (k : string) (rows : list (list Value)) : nat :=
  length (List.filter (λ r, String.eqb (row_key r) k) rows).

Lemma mult_cons k r rows : mult k (r :: rows) = ((if String.eqb (row_key r) k then 1 else 0) + mult k rows)%nat.
Proof. unfold mult. cbn. by destruct (String.eqb _ _). Qed.

Lemma mult_app k l r : mult k (l ++ r) = (mult k l + mult k r)%nat.
Proof. unfold mult. by rewrite List.filter_app, length_app. Qed.

Lemma mult_pos k rows : (0 < mult k rows)%nat ↔ k ∈ row_key <$> rows.
Proof.
  induction rows as [|r rows IH]; [split; [cbn; lia|intros []%not_elem_of_nil]|].
  rewrite mult_cons. etrans; [|symmetry; apply elem_of_cons].
  destruct (String.eqb_spec (row_key r) k) as [->|Hne].
  - split; [by left|lia].
  - cbn [Nat.add]. rewrite IH. split; [by right|]. intros [->|?]; done.
Qed.

Lemma mult_key_set k rows : k ∈ key_set rows ↔ (0 < mult k rows)%nat.
Proof. unfold key_set. rewrite elem_of_list_to_set. by rewrite mult_pos. Qed.

Lemma retain_new_mult k seen rows :
  mult k (retain_new seen rows) = if bool_decide (k ∈ seen) then 0%nat else Nat.min 1 (mult k rows).
Proof.
  revert seen. induction rows as [|r rows IH]; intros seen; cbn [retain_new].
  { destruct (bool_decide _); done. }
  rewrite mult_cons. case_bool_decide as Hr.
  - rewrite IH. case_bool_decide; [done|]. destruct (String.eqb_spec (row_key r) k) as [<-|]; done.
  - rewrite mult_cons, IH. destruct (String.eqb_spec (row_key r) k) as [<-|Hne].
    + rewrite (bool_decide_false (row_key r ∈ seen)) by done. rewrite bool_decide_true by set_solver. cbn. lia.
    + rewrite (bool_decide_ext (k ∈ {[row_key r]} ∪ seen) (k ∈ seen)) by set_solver. done.
Qed.

Lemma retain_new_sublist seen rows : retain_new seen rows `sublist_of` rows.
Proof.
  revert seen. induction rows as [|r rows IH]; intros seen; cbn [retain_new]; [done|].
  case_bool_decide; [by apply sublist_cons|by apply sublist_skip].
Qed.

Lemma key_counts_mult k rows : default 0%nat (key_counts rows !! k) = mult k rows.
Proof.
  unfold key_counts. 
  assert (∀ acc, default 0%nat (foldl (λ (m : gmap string nat) r, <[row_key r := S (default 0%nat (m !! row_key r))]> m) acc rows !! k)
    = (default 0%nat (acc !! k) + mult k rows)%nat) as H.
  { induction rows as [|r rows IH]; intros acc; [cbn; lia|]. cbn [foldl]. rewrite IH, mult_cons.
    destruct (String.eqb_spec (row_key r) k) as [->|Hne].
    - rewrite lookup_insert_eq. cbn. lia.
    - rewrite lookup_insert_ne by done. lia. }
  by rewrite H, lookup_empty.
Qed.

(** One row of the left side against the counts that are left. *)
Lemma counts_cases (counts : gmap string nat) k :
  (∃ c, counts !! k = Some (S c)) ∨ ((counts !! k = None ∨ counts !! k = Some 0%nat) ∧ default 0%nat (counts !! k) = 0%nat).
Proof. destruct (counts !! k) as [[|c]|]; [right|left|right]; eauto. Qed.

Lemma intersect_all_mult k counts l :
  mult k (intersect_all counts l) = Nat.min (mult k l) (default 0%nat (counts !! k)).
Proof.
  revert counts. induction l as [|r l IH]; intros counts; [done|]. cbn [intersect_all]. rewrite mult_cons.
  destruct (counts_cases counts (row_key r)) as [[c Hc]|[Hc Hd]].
  - rewrite Hc, mult_cons, IH. destruct (String.eqb_spec (row_key r) k) as [<-|Hne].
    + rewrite lookup_insert_eq, Hc. cbn. lia.
    + rewrite lookup_insert_ne by done. done.
  - assert (mult k (intersect_all counts l)
      = Nat.min ((if String.eqb (row_key r) k then 1 else 0) + mult k l) (default 0%nat (counts !! k))) as H.
    { rewrite IH. destruct (String.eqb_spec (row_key r) k) as [<-|Hne]; [|done]. rewrite Hd. lia. }
    destruct Hc as [-> | ->]; exact H.
Qed.

Lemma except_all_mult k counts l :
  mult k (except_all counts l) = (mult k l - default 0%nat (counts !! k))%nat.
Proof.
  revert counts. induction l as [|r l IH]; intros counts; [done|]. cbn [except_all]. rewrite mult_cons.
  destruct (counts_cases counts (row_key r)) as [[c Hc]|[Hc Hd]].
  - rewrite Hc, IH. destruct (String.eqb_spec (row_key r) k) as [<-|Hne].
    + rewrite lookup_insert_eq, Hc. cbn. lia.
    + rewrite lookup_insert_ne by done. done.
  - assert (mult k (r :: except_all counts l)
      = ((if String.eqb (row_key r) k then 1 else 0) + mult k l - default 0%nat (counts !! k))%nat) as H.
    { rewrite mult_cons, IH. destruct (String.eqb_spec (row_key r) k) as [<-|Hne]; [rewrite Hd|]; lia. }
    destruct Hc as [-> | ->]; exact H.
Qed.

Lemma keep_first_mult k want rset seen l :
  mult k (keep_first want rset seen l)
  = if Bool.eqb (bool_decide (k ∈ rset)) want && negb (bool_decide (k ∈ seen)) then Nat.min 1 (mult k l) else 0%nat.
Proof.
  revert seen. induction l as [|r l IH]; intros seen; cbn [keep_first]; [by destruct (_ && _)|].
  rewrite mult_cons. destruct (String.eqb_spec (row_key r) k) as [<-|Hne].
  - destruct (Bool.eqb (bool_decide (row_key r ∈ rset)) want) ; [|by rewrite IH].
    destruct (bool_decide (row_key r ∈ seen)) eqn:Es; [by rewrite IH, Es|].
    rewrite mult_cons, String.eqb_refl, IH, (bool_decide_true (row_key r ∈ {[row_key r]} ∪ seen)) by set_solver.
    cbn. lia.
  - destruct (Bool.eqb (bool_decide (row_key r ∈ rset)) want); [|apply IH].
    destruct (bool_decide (row_key r ∈ seen)); [apply IH|]. rewrite mult_cons, IH.
    destruct (String.eqb_spec (row_key r) k); [done|]. cbn [Nat.add].
    by rewrite (bool_decide_ext (k ∈ {[row_key r]} ∪ seen) (k ∈ seen)) by set_solver.
Qed.

Lemma intersect_all_sublist counts l : intersect_all counts l `sublist_of` l.
Proof.
  revert counts. induction l as [|r l IH]; intros counts; cbn [intersect_all]; [done|].
  destruct (counts !! row_key r) as [[|c]|]; [by apply sublist_cons|by apply sublist_skip|by apply sublist_cons].
Qed.

Lemma except_all_sublist counts l : except_all counts l `sublist_of` l.
Proof.
  revert counts. induction l as [|r l IH]; intros counts; cbn [except_all]; [done|].
  destruct (counts !! row_key r) as [[|c]|]; [by apply sublist_skip|by apply sublist_cons|by apply sublist_skip].
Qed.

Lemma keep_first_sublist want rset seen l : keep_first want rset seen l `sublist_of` l.
Proof.
  revert seen. induction l as [|r l IH]; intros seen; cbn [keep_first]; [done|].
  destruct (Bool.eqb _ _); [|by apply sublist_cons]. case_bool_decide; [by apply sublist_cons|by apply sublist_skip].
Qed.

Lemma set_op_rows_sublist op all l r :
  set_op_rows op all l r `sublist_of` match op with Union => l ++ r | _ => l end.
Proof.
  destruct op, all; cbn [set_op_rows];
    eauto using retain_new_sublist, intersect_all_sublist, except_all_sublist, keep_first_sublist.
Qed.

