(* ===== verification/Relational.v ===== *)
(** * Multi-source queries (crates/engine/src/exec.rs, [relational])

    Subquery folding, correlated subqueries, FROM materialisation, the select core and [run_query].
    A query runs other queries: its common table expressions, derived tables, views and subqueries.
    These calls are the section variable [run]; [run_query] closes the recursion with fuel for the
    depth of the nesting, and [deep] is what a call past the fuel would answer. *)

From S2P Require Import Prelude Text StorageTypes Numbers Float Chars EngineTypes Values Json Session Funcs Like Ast Expr.
From S2P Require Import Rls SortBy Wal MvccStore Select Joins.

#[local] Open Scope i64_scope.

(** ** Children of an expression *)

Definition map_opt (f : Expr → Res Expr) (x : option Expr) : Res (option Expr) :=
  match x with Some e => e ← f e; Ok (Some e) | None => Ok None end.

(** [map_children] with [map_children_compound]. *)
Definition map_children (f : Expr → Res Expr) (e : Expr) : Res Expr :=
  let all := fix all (l : list Expr) : Res (list Expr) :=
    match l with [] => Ok [] | x :: l => y ← f x; ys ← all l; Ok (y :: ys) end in
  match e with
  | EBinary op l r => l ← f l; r ← f r; Ok (EBinary op l r)
  | EUnary op e => e ← f e; Ok (EUnary op e)
  | EIsNull e n => e ← f e; Ok (EIsNull e n)
  | EInList e l n => e ← f e; l ← all l; Ok (EInList e l n)
  | ECast e t => e ← f e; Ok (ECast e t)
  | EFunc name args => args ← all args; Ok (EFunc name args)
  | ELike e p esc n i => e ← f e; p ← f p; esc ← map_opt f esc; Ok (ELike e p esc n i)
  | EBetween e lo hi n => e ← f e; lo ← f lo; hi ← f hi; Ok (EBetween e lo hi n)
  | ECase o ws els =>
      o ← map_opt f o;
      ws ← (fix whens (l : list (Expr * Expr)) : Res (list (Expr * Expr)) :=
              match l with
              | [] => Ok []
              | (c, r) :: l => c ← f c; r ← f r; ws ← whens l; Ok ((c, r) :: ws)
              end) ws;
      els ← map_opt f els;
      Ok (ECase o ws els)
  | EAggregate func a d sep => a ← map_opt f a; sep ← map_opt f sep; Ok (EAggregate func a d sep)
  | e => Ok e
  end.

(** [each_child] with the state its closure updates. *)
Definition each_child {A} (f : A → Expr → A) (e : Expr) (acc : A) : A :=
  let opt (acc : A) (o : option Expr) := match o with Some e => f acc e | None => acc end in
  match e with
  | EBinary _ l r => f (f acc l) r
  | EUnary _ e | EIsNull e _ | ECast e _ => f acc e
  | ELike e p esc _ _ => opt (f (f acc e) p) esc
  | EInList e l _ => fold_left f l (f acc e)
  | EBetween e lo hi _ => f (f (f acc e) lo) hi
  | ECase o ws els => opt (fold_left (λ acc w, f (f acc w.1) w.2) ws (opt acc o)) els
  | EFunc _ args => fold_left f args acc
  | EAggregate _ a _ sep => opt (opt acc a) sep
  | _ => acc
  end.

(** A column reference: its qualifier and its name. *)
Definition ColRef : Type := option string * string.

Fixpoint shallow_refs (e : Expr) (out : list ColRef) : list ColRef :=
  match e with
  | EColumn n => out ++ [(None, n)]
  | EQualified t n => out ++ [(Some t, n)]
  | EScalarSubquery _ | EExists _ _ | EInSubquery _ _ _ => out
  | _ => each_child (λ out c, shallow_refs c out) e out
  end.

Definition opt_refs (o : option Expr) (out : list ColRef) : list ColRef :=
  match o with Some e => shallow_refs e out | None => out end.

Definition select_shallow_refs (sel : SelectStmt) : list ColRef :=
  let out := opt_refs (sel_filter sel) [] in
  let out := foldl (λ out i, match i with SelExpr e _ => shallow_refs e out | Star _ => out end) out (sel_items sel) in
  let out := foldl (λ out e, shallow_refs e out) out (sel_group_by sel) in
  let out := opt_refs (sel_having sel) out in
  foldl (λ out k, shallow_refs (key_expr k) out) out (sel_order_by sel).

Definition namespace_has (cols : list RelCol) (r : ColRef) : bool := existsb (col_matches r.1 r.2) cols.

(** ** Binding outer references *)

Definition bind_ref (inner outer : list RelCol) (row : list Value) (r : ColRef) (orig : Expr) : Res Expr :=
  if namespace_has inner r then Ok orig
  else match resolve_col outer r.1 r.2 with
       | Ok idx => v ← cell_at row idx; Ok (ELit v)
       | Err _ => Ok orig
       end.

Fixpoint bind_expr (inner outer : list RelCol) (row : list Value) (e : Expr) : Res Expr :=
  match e with
  | EColumn n => bind_ref inner outer row (None, n) e
  | EQualified t n => bind_ref inner outer row (Some t, n) e
  | EScalarSubquery _ | EExists _ _ | EInSubquery _ _ _ => Ok e
  | _ => map_children (bind_expr inner outer row) e
  end.

Definition map_item (f : Expr → Res Expr) (i : SelItem) : Res SelItem :=
  match i with SelExpr e alias => e ← f e; Ok (SelExpr e alias) | Star q => Ok (Star q) end.

Definition bind_select (inner outer : list RelCol) (row : list Value) (s : SelectStmt) : Res SelectStmt :=
  let bind := bind_expr inner outer row in
  let '(mkSelect ctes dist items from filter group_by having set_ops order_by limit offset) := s in
  filter ← map_opt bind filter;
  items ← try_map (map_item bind) items;
  group_by ← try_map bind group_by;
  having ← map_opt bind having;
  order_by ← try_map (λ k, e ← bind (key_expr k); Ok (mkOrderKey e (key_asc k) (key_nulls_first k))) order_by;
  Ok (mkSelect ctes dist items from filter group_by having set_ops order_by limit offset).

Section Relational.
Variable host : Host.
Variable sess : SessionContext.
Variable params : list Value.
(** The stored query of a view, and the rows a base table shows as a source named [src]. *)
Variable view_of : string → option SelectStmt.
Variable read_table : string → string → Res Relation.
Variable run : SelectStmt → Res ResultSet.
Abbreviation eval := (eval host sess).
Abbreviation predicate := (predicate host sess).

(** ** FROM *)

Fixpoint build_from (ctes : gmap string Relation) (from : FromClause) : Res Relation :=
  match from with
  | FTable name alias =>
      let src := default name alias in
      match ctes !! to_ascii_lowercase name with
      | Some cte => Ok (mkRelation (retag (rel_cols cte) src) (rel_rows cte))
      | None =>
          match view_of name with
          | Some q => rs ← run q; Ok (relation_from_result src rs)
          | None => read_table name src
          end
      end
  | FDerived q alias => rs ← run q; Ok (relation_from_result alias rs)
  | FJoin l r kind on using_ =>
      l ← build_from ctes l; r ← build_from ctes r; join host sess params l r kind on using_
  end.

(** Without FROM there is one empty row. *)
Definition build_from_opt (ctes : gmap string Relation) (from : option FromClause) : Res Relation :=
  match from with None => Ok (mkRelation [] [[]]) | Some f => build_from ctes f end.

(** What UPDATE ... FROM and DELETE ... USING join with. *)
Definition materialize (from : FromClause) : Res (list RelCol * list (list Value)) :=
  rel ← build_from ∅ from; Ok (rel_cols rel, rel_rows rel).

(** ** Subqueries without outer references *)

Definition pop (row : list Value) : Res Value := match last row with Some v => Ok v | None => panic end.

Definition one_column (rs : ResultSet) : bool := (zlen (rs_columns rs) =? 1)%Z.

Definition fold_scalar (q : SelectStmt) : Res Expr :=
  rs ← run q;
  if one_column rs then
    match rs_rows rs with
    | [] => Ok (ELit Null)
    | [row] => v ← pop row; Ok (ELit v)
    | _ => sql_error
    end
  else sql_error.

Definition fold_exists (q : SelectStmt) (negated : bool) : Res Expr :=
  rs ← run q;
  let present := match rs_rows rs with [] => false | _ => true end in
  Ok (ELit (bool_int (xorb present negated))).

(** [IN (query)] becomes [IN] over the list of its values; [lhs] is the left side, folded after the query. *)
Definition fold_in (lhs : unit → Res Expr) (q : SelectStmt) (negated : bool) : Res Expr :=
  rs ← run q;
  if one_column rs then
    items ← try_map (λ row, v ← pop row; Ok (ELit v)) (rs_rows rs);
    e ← lhs tt;
    Ok (EInList e items negated)
  else sql_error.

Fixpoint resolve_sub (e : Expr) : Res Expr :=
  match e with
  | EScalarSubquery q => fold_scalar q
  | EExists q negated => fold_exists q negated
  | EInSubquery e q negated => fold_in (λ _, resolve_sub e) q negated
  | _ => map_children resolve_sub e
  end.

Definition resolve_opt (e : option Expr) : Res (option Expr) := map_opt resolve_sub e.
Definition resolve_list (l : list Expr) : Res (list Expr) := try_map resolve_sub l.
Definition resolve_items (items : list SelItem) : Res (list SelItem) := try_map (map_item resolve_sub) items.

(** ** Correlated subqueries *)

Definition from_namespace (from : option FromClause) : Res (list RelCol) :=
  match from with None => Ok [] | Some f => rel ← build_from ∅ f; Ok (rel_cols rel) end.

Definition subquery_correlated (sub : SelectStmt) (outer : list RelCol) : Res bool :=
  inner ← from_namespace (sel_from sub);
  Ok (existsb (λ r, negb (namespace_has inner r) && namespace_has outer r) (select_shallow_refs sub)).

Fixpoint expr_has_correlated (e : Expr) (outer : list RelCol) : Res bool :=
  match e with
  | EScalarSubquery q | EExists q _ => subquery_correlated q outer
  | EInSubquery e q _ =>
      b ← expr_has_correlated e outer;
      if b : bool then Ok true else subquery_correlated q outer
  | _ => each_child (λ acc c, match acc with Ok false => expr_has_correlated c outer | _ => acc end) e (Ok false)
  end.

Fixpoint any_correlated (es : list Expr) (outer : list RelCol) : Res bool :=
  match es with
  | [] => Ok false
  | e :: es => b ← expr_has_correlated e outer; if b : bool then Ok true else any_correlated es outer
  end.

Definition item_exprs (items : list SelItem) : list Expr :=
  omap (λ i, match i with SelExpr e _ => Some e | Star _ => None end) items.

Definition select_has_correlated (sel : SelectStmt) (outer : list RelCol) : Res bool :=
  any_correlated (match sel_filter sel with Some f => [f] | None => [] end ++ item_exprs (sel_items sel)) outer.

Definition bind (outer : list RelCol) (row : list Value) (sub : SelectStmt) : Res SelectStmt :=
  inner ← from_namespace (sel_from sub);
  bind_select inner outer row sub.

Fixpoint fold_corr (outer : list RelCol) (row : list Value) (e : Expr) : Res Expr :=
  match e with
  | EScalarSubquery q => q ← bind outer row q; fold_scalar q
  | EExists q negated => q ← bind outer row q; fold_exists q negated
  | EInSubquery e q negated =>
      lhs ← fold_corr outer row e;
      q ← bind outer row q;
      fold_in (λ _, resolve_sub lhs) q negated
  | EColumn _ | EQualified _ _ => Ok e
  | _ => map_children (fold_corr outer row) e
  end.

Definition fold_corr_opt (outer : list RelCol) (row : list Value) (e : option Expr) : Res (option Expr) :=
  map_opt (fold_corr outer row) e.
Definition fold_corr_item (outer : list RelCol) (row : list Value) (i : SelItem) : Res SelItem :=
  map_item (fold_corr outer row) i.

(** ** The select core *)

Record CorePlan := mkPlan {
  cp_aggregated : bool;
  cp_correlated : bool;
  cp_items : list SelItem;
  cp_group_by : list Expr;
  cp_having : option Expr
}.

Definition resolve_clauses (sel : SelectStmt) (correlated : bool)
    : Res (option Expr * list SelItem * list Expr * option Expr) :=
  if correlated then Ok (sel_filter sel, sel_items sel, sel_group_by sel, sel_having sel)
  else
    f ← resolve_opt (sel_filter sel);
    i ← resolve_items (sel_items sel);
    g ← resolve_list (sel_group_by sel);
    h ← resolve_opt (sel_having sel);
    Ok (f, i, g, h).

Definition row_kept (cols : list RelCol) (filter : option Expr) (correlated : bool) (row : list Value) : Res bool :=
  f ← (if correlated then fold_corr_opt cols row filter else Ok filter);
  predicate f (ctx_rel row cols params).

Definition collect_kept (rows : list (list Value)) (cols : list RelCol) (filter : option Expr)
    (correlated : bool) : Res (list (list Value)) :=
  try_filter (row_kept cols filter correlated) rows.

Definition entry_item (cols : list RelCol) (correlated : bool) (row : list Value) (i : SelItem)
    : Res (list Value) :=
  i ← (if correlated then fold_corr_item cols row i else Ok i);
  project_item host sess i (ctx_rel row cols params) cols row.

Definition build_entries (plan : CorePlan) (cols : list RelCol) (kept : list (list Value)) : Res (list Entry) :=
  if cp_aggregated plan
  then grouped_entries host sess params (cp_items plan) (cp_group_by plan) (cp_having plan) cols kept
  else try_map (λ row, out ← try_concat (entry_item cols (cp_correlated plan) row) (cp_items plan);
                       Ok (out, [row])) kept.

Definition eval_core (sel : SelectStmt) (ctes : gmap string Relation) (apply_tail : bool) : Res ResultSet :=
  rel ← build_from_opt ctes (sel_from sel);
  let cols := rel_cols rel in
  let aggregated := agg_query (sel_items sel) (sel_group_by sel) (sel_having sel) in
  correlated ← (if aggregated then Ok false else select_has_correlated sel cols);
  '(filter, items, group_by, having) ← resolve_clauses sel correlated;
  kept ← collect_kept (rel_rows rel) cols filter correlated;
  let '(columns, types) := output_columns items cols 0 in
  entries ← build_entries (mkPlan aggregated correlated items group_by having) cols kept;
  rows ← order_and_collect host sess params entries (order_keys_for sel items apply_tail) cols;
  let rows := if sel_distinct sel then dedup_rows rows else rows in
  if apply_tail then
    off ← eval_count host sess (sel_offset sel) params;
    lim ← eval_count host sess (sel_limit sel) params;
    Ok (mkResultSet columns types (apply_offset_limit_owned rows lim off))
  else Ok (mkResultSet columns types rows).

Fixpoint run_ctes (withs : list (string * SelectStmt)) (ctes : gmap string Relation)
    : Res (gmap string Relation) :=
  match withs with
  | [] => Ok ctes
  | (name, q) :: withs =>
      rs ← run q;
      run_ctes withs (<[to_ascii_lowercase name := relation_from_result name rs]> ctes)
  end.

Fixpoint run_set_ops (parts : list (SetOp * bool * SelectStmt)) (ctes : gmap string Relation) (acc : ResultSet)
    : Res ResultSet :=
  match parts with
  | [] => Ok acc
  | (op, all, q) :: parts =>
      rhs ← eval_core q ctes true;
      acc ← combine_set_op acc rhs op all;
      run_set_ops parts ctes acc
  end.

Definition query_step (sel : SelectStmt) : Res ResultSet :=
  ctes ← run_ctes (sel_ctes sel) ∅;
  match sel_set_ops sel with
  | [] => eval_core sel ctes true
  | parts =>
      acc ← eval_core sel ctes false;
      acc ← run_set_ops parts ctes acc;
      apply_output_order_limit host sess params acc sel
  end.

End Relational.

(** ** Running a query on a store *)

Section Query.
Variable parse_expr : string → Res Expr.
Variable host : Host.
Variable sess : SessionContext.
Context {VI : Type} `{!VectorIndexOps VI} `{!VectorSearch VI}.
Abbreviation Store := (Store VI SelectStmt).

(** A base table as a source: its visible rows that row-level security passes. *)
Definition read_table (st : Store) (snapshot : Z) (writer : option Z) (params : list Value)
    (name src : string) : Res Relation :=
  match table st name with
  | None => sql_error
  | Some t =>
      let cols := (λ c, mkRelCol (Some src) (col_name c) (col_ty c)) <$> columns (schema t) in
      d ← rls_read parse_expr sess (schema t) PSelect;
      rows ← scan_rows host sess d None (schema t) snapshot writer params (rows t);
      Ok (mkRelation cols rows)
  end.

Fixpoint query_fuel (view_of : string → option SelectStmt) (read : string → string → Res Relation)
    (params : list Value) (deep : Res ResultSet) (fuel : nat) (sel : SelectStmt) : Res ResultSet :=
  match fuel with
  | O => deep
  | S fuel => query_step host sess params view_of read (query_fuel view_of read params deep fuel) sel
  end.

(** [run_query], with the stack as fuel: past it the thread aborts. *)
Definition run_query (stack : nat) (st : Store) (sel : SelectStmt) (snapshot : Z) (writer : option Z)
    (params : list Value) : Res ResultSet :=
  query_fuel (view st) (read_table st snapshot writer params) params panic stack sel.

Definition run_select_tuned (stack : nat) (st : Store) (sel : SelectStmt) (snapshot : Z) (writer : option Z)
    (params : list Value) (ef : option Z) : Res ResultSet :=
  match sel_from sel with
  | Some (FTable name _) =>
      if negb (needs_relational sel) && match table st name with Some _ => true | None => false end
      then single_table_select parse_expr host sess st sel name snapshot writer params ef
      else run_query stack st sel snapshot writer params
  | None =>
      if needs_relational sel then run_query stack st sel snapshot writer params
      else constant_select host sess sel params
  | Some _ => run_query stack st sel snapshot writer params
  end.

Definition run_select (stack : nat) (st : Store) (sel : SelectStmt) (snapshot : Z) (writer : option Z)
    (params : list Value) : Res ResultSet :=
  run_select_tuned stack st sel snapshot writer params None.

End Query.
