(* ===== verification/RelationalSpec.v ===== *)
(** * The nesting depth of queries

    How deep the calls of [run_query] nest: subqueries, derived tables, common table expressions and
    views.  The depth of a view is a parameter; it exists when the views refer to each other without a
    cycle.  The names a query refers to are collected as sql.rs does for the check at CREATE VIEW. *)

From Stdlib Require Import FunctionalExtensionality.
From S2P Require Import Prelude Text StorageTypes Numbers Float Chars EngineTypes Values Json Session Funcs Like Ast.
From S2P Require Import Expr Rls SortBy Wal MvccStore Select Joins Relational SelectSpec JoinsSpec.

(** ** Names a query refers to (sql.rs, [referenced_relations]) *)

Fixpoint collect_expr_refs (e : Expr) (out : list string) : list string :=
  match e with
  | EScalarSubquery q | EExists q _ => collect_select_refs q out
  | EInSubquery e q _ => collect_select_refs q (collect_expr_refs e out)
  | _ => each_child (λ out c, collect_expr_refs c out) e out
  end
with collect_select_refs (sel : SelectStmt) (out : list string) : list string :=
  let opt (o : option Expr) (out : list string) := match o with Some e => collect_expr_refs e out | None => out end in
  match sel with
  | mkSelect ctes _ items from filter group_by having set_ops order_by _ _ =>
      let out := fold_left (λ out c, collect_select_refs c.2 out) ctes out in
      let out := match from with Some f => collect_from_refs f out | None => out end in
      let out := fold_left (λ out i, match i with SelExpr e _ => collect_expr_refs e out | Star _ => out end) items out in
      let out := opt filter out in
      let out := fold_left (λ out e, collect_expr_refs e out) group_by out in
      let out := opt having out in
      let out := fold_left (λ out k, match k with mkOrderKey e _ _ => collect_expr_refs e out end) order_by out in
      fold_left (λ out p, collect_select_refs p.2 out) set_ops out
  end
with collect_from_refs (f : FromClause) (out : list string) : list string :=
  match f with
  | FTable name _ => out ++ [name]
  | FDerived q _ => collect_select_refs q out
  | FJoin l r _ on _ =>
      let out := collect_from_refs r (collect_from_refs l out) in
      match on with Some e => collect_expr_refs e out | None => out end
  end.

Definition referenced_relations (sel : SelectStmt) : list string :=
  let local := (λ c, to_ascii_lowercase c.1) <$> sel_ctes sel in
  List.filter (λ n, negb (existsb (String.eqb (to_ascii_lowercase n)) local)) (collect_select_refs sel []).

(** ** Children *)

Definition children (e : Expr) : list Expr := each_child (λ l c, l ++ [c]) e [].

Definition is_query (e : Expr) : bool :=
  match e with EScalarSubquery _ | EExists _ _ | EInSubquery _ _ _ => true | _ => false end.

Lemma fold_left_snoc {A} (l acc : list A) : fold_left (λ l c, l ++ [c]) l acc = acc ++ l.
Proof.
  revert acc. induction l as [|x l IH]; intros acc; cbn; [by rewrite app_nil_r|].
  by rewrite IH, <- app_assoc.
Qed.

Definition when_exprs (ws : list (Expr * Expr)) : list Expr := ws ≫= λ w, [w.1; w.2].
Definition opt_list (o : option Expr) : list Expr := match o with Some e => [e] | None => [] end.

Lemma fold_left_whens {A} (f : A → Expr → A) ws acc :
  fold_left (λ acc w, f (f acc w.1) w.2) ws acc = fold_left f (when_exprs ws) acc.
Proof. revert acc. induction ws as [|w ws IH]; intros acc; cbn; [done|]. by rewrite IH. Qed.

(** The children, listed. *)
Lemma children_eq e : children e =
  match e with
  | EBinary _ l r => [l; r]
  | EUnary _ e | EIsNull e _ | ECast e _ => [e]
  | ELike e p esc _ _ => e :: p :: opt_list esc
  | EInList e l _ => e :: l
  | EBetween e lo hi _ => [e; lo; hi]
  | ECase o ws els => opt_list o ++ when_exprs ws ++ opt_list els
  | EFunc _ args => args
  | EAggregate _ a _ sep => opt_list a ++ opt_list sep
  | _ => []
  end.
Proof.
  destruct e; unfold children; cbn [each_child]; rewrite ?fold_left_snoc; try done.
  - by destruct escape.
  - pose proof (fold_left_whens (λ l c, l ++ [c]) whens) as Hw. cbn beta in Hw. rewrite Hw, fold_left_snoc.
    destruct operand, els; cbn [opt_list app]; rewrite ?app_nil_r; done.
  - by destruct arg, sep.
Qed.

Lemma each_child_foldl {A} (f : A → Expr → A) e acc : each_child f e acc = fold_left f (children e) acc.
Proof.
  rewrite children_eq. destruct e; cbn; try done.
  - by destruct escape.
  - rewrite fold_left_whens, !fold_left_app. by destruct operand, els.
  - by destruct arg, sep.
Qed.

(** Induction on the children, subqueries as leaves. *)
Lemma children_ind (P : Expr → Prop) :
  (∀ e, is_query e = false → Forall P (children e) → P e) →
  (∀ q, P (EScalarSubquery q)) → (∀ q n, P (EExists q n)) → (∀ e q n, P e → P (EInSubquery e q n)) →
  ∀ e, P e.
Proof.
  intros H Hs Hx Hi. apply Expr_induction; intros; try (apply H; [done|rewrite children_eq; eauto]).
  - destruct e; try done; try (apply H; [done|by rewrite children_eq]).
  - repeat constructor; try done. by destruct esc; repeat constructor.
  - rewrite !Forall_app. split_and!; [by destruct o; repeat constructor| |by destruct els; repeat constructor].
    unfold when_exprs. induction H1 as [|w ws [? ?] _ IH]; [constructor|]. cbn. by repeat constructor.
  - rewrite Forall_app. split; [by destruct a; repeat constructor|by destruct sep; repeat constructor].
  - by apply Hi.
Qed.

Definition item_holds (P : Expr → Prop) (i : SelItem) : Prop :=
  match i with SelExpr e _ => P e | Star _ => True end.

(** ** Induction on queries *)

Section QueryInd.
Variables (PE : Expr → Prop) (PS : SelectStmt → Prop) (PF : FromClause → Prop).
Abbreviation Po := (opt_holds PE).
Hypothesis Hexpr : ∀ e, is_query e = false → Forall PE (children e) → PE e.
Hypothesis Hscalar : ∀ q, PS q → PE (EScalarSubquery q).
Hypothesis Hexists : ∀ q n, PS q → PE (EExists q n).
Hypothesis Hin : ∀ e q n, PE e → PS q → PE (EInSubquery e q n).
Hypothesis Hsel : ∀ s, Forall (λ c, PS c.2) (sel_ctes s) → Forall (item_holds PE) (sel_items s) →
  (match sel_from s with Some f => PF f | None => True end) → Po (sel_filter s) → Forall PE (sel_group_by s) →
  Po (sel_having s) → Forall (λ p, PS p.2) (sel_set_ops s) → Forall (λ k, PE (key_expr k)) (sel_order_by s) → PS s.
Hypothesis Htable : ∀ n a, PF (FTable n a).
Hypothesis Hderived : ∀ q a, PS q → PF (FDerived q a).
Hypothesis Hjoin : ∀ l r k on u, PF l → PF r → Po on → PF (FJoin l r k on u).

(** By size: every part of a query is smaller. *)
Fixpoint esize (e : Expr) : nat :=
  match e with
  | EScalarSubquery q | EExists q _ => S (ssize q)
  | EInSubquery e q _ => S (esize e + ssize q)
  | _ => S (each_child (λ m c, m + esize c) e 0)
  end%nat
with ssize (s : SelectStmt) : nat :=
  match s with
  | mkSelect ctes _ items from filter group_by having set_ops order_by _ _ =>
      let opt (o : option Expr) := match o with Some e => esize e | None => 0 end in
      S (fold_left (λ m c, m + ssize c.2) ctes 0
         + match from with Some f => fsize f | None => 0 end
         + fold_left (λ m i, m + match i with SelExpr e _ => esize e | Star _ => 0 end) items 0
         + opt filter + fold_left (λ m e, m + esize e) group_by 0 + opt having
         + fold_left (λ m k, m + match k with mkOrderKey e _ _ => esize e end) order_by 0
         + fold_left (λ m p, m + ssize p.2) set_ops 0)
  end%nat
with fsize (f : FromClause) : nat :=
  match f with
  | FTable _ _ => 1
  | FDerived q _ => S (ssize q)
  | FJoin l r _ on _ => S (fsize l + fsize r + match on with Some e => esize e | None => 0 end)
  end%nat.

Lemma fold_sum_le {A} (g : A → nat) l m x : x ∈ l → (g x ≤ fold_left (λ m y, m + g y) l m)%nat.
Proof.
  revert m. induction l as [|y l IH]; intros m; [intros []%not_elem_of_nil|]. cbn.
  assert (∀ l m, (m ≤ fold_left (λ m y, m + g y) l m)%nat) as Hm.
  { clear. induction l as [|y l IH]; intros m; cbn; [done|]. specialize (IH (m + g y)%nat). lia. }
  intros [->|Hx]%elem_of_cons; [|by apply IH]. specialize (Hm l (m + g y)%nat). lia.
Qed.

Lemma child_size e c : is_query e = false → c ∈ children e → (esize c < esize e)%nat.
Proof using Type.
  intros Hq Hc. assert (esize e = S (fold_left (λ m c, m + esize c) (children e) 0)%nat) as ->.
  { rewrite <- each_child_foldl. by destruct e. }
  pose proof (fold_sum_le esize (children e) 0 c Hc). lia.
Qed.

Lemma query_ind : (∀ e, PE e) ∧ (∀ s, PS s) ∧ (∀ f, PF f).
Proof using Type*.
  assert (∀ n, (∀ e, esize e < n → PE e)%nat ∧ (∀ s, ssize s < n → PS s)%nat ∧ (∀ f, fsize f < n → PF f)%nat) as H.
  { induction n as [|n (IHe & IHs & IHf)]; [split_and!; intros; lia|]. split_and!.
    - intros e He. destruct (is_query e) eqn:Eq.
      + destruct e; try done; cbn in He; [apply Hscalar, IHs|apply Hexists, IHs|apply Hin; [apply IHe|apply IHs]]; lia.
      + apply Hexpr; [done|]. apply Forall_forall. intros c Hc. apply IHe. pose proof (child_size e c Eq Hc). lia.
    - intros [ctes d items from filter group_by having set_ops order_by lim off] Hs. cbn in Hs.
      apply Hsel; cbn.
      + apply Forall_forall. intros c Hc. apply IHs. pose proof (fold_sum_le (λ c, ssize c.2) ctes 0 c Hc). cbn in *. lia.
      + apply Forall_forall. intros [|e a] Hi; [done|]. cbn. apply IHe.
        pose proof (fold_sum_le (λ i, match i with SelExpr e _ => esize e | Star _ => 0%nat end) items 0 _ Hi). cbn in *. lia.
      + destruct from; [|done]. apply IHf. lia.
      + destruct filter; [|done]. apply IHe. lia.
      + apply Forall_forall. intros e He. apply IHe. pose proof (fold_sum_le esize group_by 0 e He). lia.
      + destruct having; [|done]. apply IHe. lia.
      + apply Forall_forall. intros c Hc. apply IHs. pose proof (fold_sum_le (λ c, ssize c.2) set_ops 0 c Hc). cbn in *. lia.
      + apply Forall_forall. intros [e a nf] Hk. cbn. apply IHe.
        pose proof (fold_sum_le (λ k, match k with mkOrderKey e _ _ => esize e end) order_by 0 _ Hk). cbn in *. lia.
    - intros [n0 a|q a|l r k on u] Hf; cbn in Hf; [apply Htable|apply Hderived, IHs; lia|].
      apply Hjoin; [apply IHf; lia..|]. destruct on; [|done]. apply IHe. lia. }
  split_and!; intros x; [eapply (H (S (esize x)))|eapply (H (S (ssize x)))|eapply (H (S (fsize x)))]; lia.
Qed.
End QueryInd.

(** ** Depth *)

Section Depth.
Variable view_of : string → option SelectStmt.
Variable vd : string → nat.

Fixpoint edepth (e : Expr) : nat :=
  match e with
  | EScalarSubquery q | EExists q _ => S (sdepth q)
  | EInSubquery e q _ => Nat.max (edepth e) (S (sdepth q))
  | _ => each_child (λ m c, Nat.max m (edepth c)) e 0%nat
  end
with sdepth (s : SelectStmt) : nat :=
  match s with
  | mkSelect ctes _ items from filter group_by having set_ops order_by _ _ =>
      let m := fold_left (λ m c, Nat.max m (S (sdepth c.2))) ctes 0%nat in
      let m := match from with Some f => Nat.max m (fdepth f) | None => m end in
      let m := fold_left (λ m i, Nat.max m (match i with SelExpr e _ => edepth e | Star _ => 0%nat end)) items m in
      let m := match filter with Some e => Nat.max m (edepth e) | None => m end in
      let m := fold_left (λ m e, Nat.max m (edepth e)) group_by m in
      let m := match having with Some e => Nat.max m (edepth e) | None => m end in
      fold_left (λ m p, Nat.max m (sdepth p.2)) set_ops m
  end
with fdepth (f : FromClause) : nat :=
  match f with
  | FTable name _ => match view_of name with Some _ => S (vd name) | None => 0%nat end
  | FDerived q _ => S (sdepth q)
  | FJoin l r _ _ _ => Nat.max (fdepth l) (fdepth r)
  end.

Lemma fold_max_le {A} (g : A → nat) l m n :
  (fold_left (λ m x, Nat.max m (g x)) l m ≤ n ↔ m ≤ n ∧ Forall (λ x, g x ≤ n) l)%nat.
Proof.
  revert m. induction l as [|x l IH]; intros m; cbn; [split; [by split; [|constructor]|by intros []]|].
  rewrite IH, Forall_cons. split; [intros [??]; split_and!; [lia..|done]|intros (? & ? & ?); split; [lia|done]].
Qed.

Lemma edepth_le e n : is_query e = false → (edepth e ≤ n ↔ Forall (λ c, edepth c ≤ n) (children e))%nat.
Proof using Type.
  intros Hq. assert (edepth e = fold_left (λ m c, Nat.max m (edepth c)) (children e) 0%nat) as ->.
  { rewrite <- each_child_foldl. by destruct e. }
  rewrite fold_max_le. split; [by intros []|]. split; [lia|done].
Qed.

Definition from_le (n : nat) (o : option FromClause) : Prop := match o with Some f => (fdepth f ≤ n)%nat | None => True end.

Lemma sdepth_le s n : (sdepth s ≤ n)%nat ↔
  Forall (λ c, S (sdepth c.2) ≤ n)%nat (sel_ctes s) ∧ from_le n (sel_from s) ∧
  Forall (item_holds (λ e, edepth e ≤ n)%nat) (sel_items s) ∧
  opt_holds (λ e, edepth e ≤ n)%nat (sel_filter s) ∧ Forall (λ e, edepth e ≤ n)%nat (sel_group_by s) ∧
  opt_holds (λ e, edepth e ≤ n)%nat (sel_having s) ∧ Forall (λ p, sdepth p.2 ≤ n)%nat (sel_set_ops s).
Proof using Type.
  destruct s as [ctes d items from filter group_by having set_ops order_by lim off]. cbn -[Nat.max Nat.le].
  assert (Forall (item_holds (λ e, edepth e ≤ n)%nat) items
    ↔ Forall (λ i, match i with SelExpr e _ => edepth e | Star _ => 0 end ≤ n)%nat items) as ->.
  { apply Forall_iff. intros [|e a]; cbn; [|done]. split; [lia|done]. }
  rewrite (fold_max_le (λ p, sdepth p.2)).
  assert (∀ o m, ((match o with Some e => Nat.max m (edepth e) | None => m end ≤ n) ↔ m ≤ n ∧ opt_holds (λ e, edepth e ≤ n) o)%nat) as Ho.
  { intros [e|] m; cbn; [lia|]. split; [by split|by intros []]. }
  rewrite Ho, (fold_max_le edepth), Ho, (fold_max_le (λ i, match i with SelExpr e _ => edepth e | Star _ => 0%nat end)).
  assert (∀ m, (match from with Some f => Nat.max m (fdepth f) | None => m end ≤ n ↔ m ≤ n ∧ from_le n from)%nat) as ->.
  { intros m. destruct from; cbn; [lia|]. split; [by split|by intros []]. }
  rewrite (fold_max_le (λ c, S (sdepth c.2))). split.
  - intros [[[[[[[_ ?] ?] ?] ?] ?] ?] ?]. by split_and!.
  - intros (? & ? & ? & ? & ? & ? & ?). split_and!; try done. lia.
Qed.

End Depth.

(** ** Depth and references *)

Section Mono.
Variable view_of : string → option SelectStmt.
Variables vd1 vd2 : string → nat.

Definition view_le (r : string) : Prop := is_Some (view_of r) → (vd1 r ≤ vd2 r)%nat.
Abbreviation R := (Forall view_le).

(** Going back over a loop that collects names. *)
Lemma fold_back {A} (g : A → list string → list string) (Q : A → Prop) l :
  Forall (λ x, ∀ out, R (g x out) → R out ∧ Q x) l →
  ∀ out, R (fold_left (λ out x, g x out) l out) → R out ∧ Forall Q l.
Proof using Type.
  induction 1 as [|x l Hx _ IH]; intros out; cbn; [by split|]. intros [[HR Hq]%Hx Hl]%IH. split; [done|].
  by constructor.
Qed.

Lemma depth_mono :
  (∀ e out, R (collect_expr_refs e out) → R out ∧ edepth view_of vd1 e ≤ edepth view_of vd2 e)%nat ∧
  (∀ s out, R (collect_select_refs s out) → R out ∧ sdepth view_of vd1 s ≤ sdepth view_of vd2 s)%nat ∧
  (∀ f out, R (collect_from_refs f out) → R out ∧ fdepth view_of vd1 f ≤ fdepth view_of vd2 f)%nat.
Proof using Type.
  apply query_ind.
  - intros e Hq IH out HR. assert (R (fold_left (λ out c, collect_expr_refs c out) (children e) out)) as HR'.
    { rewrite <- each_child_foldl. by destruct e. }
    destruct (fold_back collect_expr_refs (λ c, edepth view_of vd1 c ≤ edepth view_of vd2 c)%nat _ IH out HR')
      as [Ho Hc]. split; [done|]. apply edepth_le; [done|].
    pose proof (proj1 (edepth_le view_of vd2 e _ Hq) (Nat.le_refl _)) as H2.
    rewrite Forall_forall in Hc, H2 |- *. intros c ?. etrans; [by apply Hc|by apply H2].
  - intros q IH out HR. destruct (IH out HR). split; [done|]. by apply le_n_S.
  - intros q n IH out HR. destruct (IH out HR). split; [done|]. by apply le_n_S.
  - intros e q n IHe IHq out HR. destruct (IHq _ HR) as [HR' ?]. destruct (IHe _ HR'). split; [done|]. by apply Nat.max_le_compat, le_n_S.
  - intros [ctes d items from filter group_by having set_ops order_by lim off]; cbn [sel_ctes sel_items sel_from
      sel_filter sel_group_by sel_having sel_set_ops sel_order_by].
    intros Hctes Hitems Hfrom Hfilter Hgroup Hhaving Hset Horder out. cbn [collect_select_refs]. intros HR.
    destruct (fold_back (λ p, collect_select_refs p.2) (λ p, sdepth view_of vd1 p.2 ≤ sdepth view_of vd2 p.2)%nat set_ops
      Hset _ HR) as [HR1 Dset].
    assert (Forall (λ k, ∀ out, R (match k with mkOrderKey e _ _ => collect_expr_refs e out end) → R out ∧ True) order_by) as Ho.
    { eapply Forall_impl; [exact Horder|]. intros [e a nf] H out' H'. split; [|done]. by apply H. }
    destruct (fold_back (λ k out, match k with mkOrderKey e _ _ => collect_expr_refs e out end) (λ _, True) order_by Ho _ HR1)
      as [HR2 _].
    assert (∀ o out', opt_holds (λ e, ∀ out, R (collect_expr_refs e out) → R out ∧ edepth view_of vd1 e ≤ edepth view_of vd2 e)%nat o →
      R (match o with Some e => collect_expr_refs e out' | None => out' end) →
      R out' ∧ opt_holds (λ e, edepth view_of vd1 e ≤ edepth view_of vd2 e)%nat o) as Hopt.
    { intros [e|] out'; cbn; [auto|by split]. }
    destruct (Hopt having _ Hhaving HR2) as [HR3 Dhaving].
    destruct (fold_back collect_expr_refs _ group_by Hgroup _ HR3) as [HR4 Dgroup].
    destruct (Hopt filter _ Hfilter HR4) as [HR5 Dfilter].
    assert (Forall (λ i, ∀ out, R (match i with SelExpr e _ => collect_expr_refs e out | Star _ => out end) →
      R out ∧ item_holds (λ e, edepth view_of vd1 e ≤ edepth view_of vd2 e)%nat i) items) as Hi.
    { eapply Forall_impl; [exact Hitems|]. intros [q|e a] H out' H'; [by split|]. by apply H. }
    destruct (fold_back _ _ items Hi _ HR5) as [HR6 Ditems].
    assert (R (fold_left (λ out c, collect_select_refs c.2 out) ctes out) ∧
      match from with Some f => fdepth view_of vd1 f ≤ fdepth view_of vd2 f | None => True end)%nat as [HR7 Dfrom].
    { destruct from; [by apply Hfrom|done]. }
    destruct (fold_back (λ p, collect_select_refs p.2) (λ p, sdepth view_of vd1 p.2 ≤ sdepth view_of vd2 p.2)%nat ctes
      Hctes _ HR7) as [HR8 Dctes]. split; [done|]. clear - Dset Dhaving Dgroup Dfilter Ditems Dfrom Dctes.
    set (s := mkSelect _ _ _ _ _ _ _ _ _ _ _).
    destruct (proj1 (sdepth_le view_of vd2 s _) (Nat.le_refl _)) as (B1 & B2 & B3 & B4 & B5 & B6 & B7).
    apply sdepth_le. split_and!; cbn [s sel_ctes sel_items sel_from sel_filter sel_group_by sel_having sel_set_ops] in *.
    + rewrite Forall_forall in Dctes, B1 |- *. intros c Hc. specialize (Dctes c Hc). specialize (B1 c Hc). lia.
    + destruct from; [|done]. cbn in *. lia.
    + rewrite Forall_forall in Ditems, B3 |- *. intros [q|e a] Hi; [done|]. specialize (Ditems _ Hi). specialize (B3 _ Hi). cbn in *. lia.
    + destruct filter; [|done]. cbn in *. lia.
    + rewrite Forall_forall in Dgroup, B5 |- *. intros e He. specialize (Dgroup e He). specialize (B5 e He). cbn in *. lia.
    + destruct having; [|done]. cbn in *. lia.
    + rewrite Forall_forall in Dset, B7 |- *. intros c Hc. specialize (Dset c Hc). specialize (B7 c Hc). lia.
  - intros n a out HR. cbn in HR. apply Forall_app in HR as [HR Hn]. split; [done|]. cbn.
    rewrite Forall_singleton in Hn. unfold view_le in Hn. destruct (view_of n); [|lia]. apply le_n_S, Hn. by eexists.
  - intros q a IH out HR. destruct (IH out HR). split; [done|]. by apply le_n_S.
  - intros l r k on u IHl IHr IHo out HR. cbn in HR.
    assert (R (collect_from_refs r (collect_from_refs l out))) as HR1 by (destruct on; [by apply IHo|done]).
    destruct (IHr _ HR1) as [HR2 ?]. destruct (IHl _ HR2). split; [done|]. by apply Nat.max_le_compat.
Qed.

End Mono.

(** Views refer to views of lower rank only. *)
Definition acyclic (view_of : string → option SelectStmt) (rank : string → nat) : Prop :=
  ∀ name q, view_of name = Some q →
    Forall (λ r, is_Some (view_of r) → (rank r < rank name)%nat) (collect_select_refs q []).

(** The depth of views to a number of levels. *)
Fixpoint view_depth (view_of : string → option SelectStmt) (levels : nat) (name : string) : nat :=
  match levels with
  | O => 0%nat
  | S k => match view_of name with Some q => sdepth view_of (view_depth view_of k) q | None => 0%nat end
  end.

Lemma view_depth_mono view_of k k' name : (k ≤ k' → view_depth view_of k name ≤ view_depth view_of k' name)%nat.
Proof.
  revert k' name. induction k as [|k IH]; intros k' name Hk; cbn; [lia|]. destruct k' as [|k']; [lia|]. cbn.
  destruct (view_of name) as [q|]; [|lia]. apply (depth_mono view_of _ _) with (out := []).
  apply Forall_forall. intros r _ _. apply IH. lia.
Qed.

(** Without a cycle the views have a depth. *)
Lemma acyclic_depth view_of rank : acyclic view_of rank →
  ∃ vd, ∀ name q, view_of name = Some q → (sdepth view_of vd q ≤ vd name)%nat.
Proof.
  intros Ha. exists (λ n, view_depth view_of (S (rank n)) n). intros name q Hq. cbn [view_depth]. rewrite Hq.
  apply (depth_mono view_of _ _) with (out := []). eapply Forall_impl; [by apply Ha|]. intros r Hr Hs.
  apply (view_depth_mono view_of (S (rank r)) (rank name) r), Hr, Hs.
Qed.

(** * Queries end, and read only what they may

    [run_query] calls itself on the parts of a query and on the queries of views.  Where the views
    refer to each other without a cycle, enough stack answers every query, and more stack gives the
    same answer.  A result is rectangular, and it depends on a base table only through the rows the
    session may read. *)

(** ** Loops with equal bodies *)

Lemma try_map_ext {A B} (f g : A → Res B) l : Forall (λ x, f x = g x) l → try_map f l = try_map g l.
Proof. induction 1 as [|x l Hx _ IH]; [done|]. cbn [try_map]. by rewrite Hx, IH. Qed.

Lemma try_concat_ext {A B} (f g : A → Res (list B)) l : Forall (λ x, f x = g x) l → try_concat f l = try_concat g l.
Proof. intros H. unfold try_concat. by rewrite (try_map_ext f g l H). Qed.

Lemma try_filter_ext {A} (f g : A → Res bool) l : (∀ x, f x = g x) → try_filter f l = try_filter g l.
Proof. intros H. induction l as [|x l IH]; [done|]. cbn [try_filter]. by rewrite H, IH. Qed.

Lemma bind_ext {A B} (m : Res A) (f g : A → Res B) : (∀ x, m = Ok x → f x = g x) → (m ≫= f) = (m ≫= g).
Proof. destruct m; cbn; auto. Qed.

Lemma bind_Ok {A B} (m : Res A) (f : A → Res B) y : (m ≫= f) = Ok y → ∃ x, m = Ok x ∧ f x = Ok y.
Proof. destruct m; cbn; [eauto|done]. Qed.

(** Take apart what a chain of binds returned. *)
Ltac unbind H := repeat match type of H with
  | (_ ≫= _) = Ok _ => let x := fresh "x" in let Hx := fresh "Hx" in apply bind_Ok in H as (x & Hx & H)
  end.

Lemma map_opt_ext (f g : Expr → Res Expr) o : Forall (λ e, f e = g e) (opt_list o) → map_opt f o = map_opt g o.
Proof. destruct o; cbn; [|done]. intros H. apply Forall_cons in H as [-> _]. done. Qed.

Lemma map_children_ext f g e : Forall (λ c, f c = g c) (children e) → map_children f e = map_children g e.
Proof.
  assert (∀ l, Forall (λ c, f c = g c) l →
    (fix all (l : list Expr) : Res (list Expr) :=
       match l with [] => Ok [] | x :: l => y ← f x; ys ← all l; Ok (y :: ys) end) l
    = (fix all (l : list Expr) : Res (list Expr) :=
       match l with [] => Ok [] | x :: l => y ← g x; ys ← all l; Ok (y :: ys) end) l) as Hall.
  { induction 1 as [|x l Hx _ IH]; [done|]. by rewrite Hx, IH. }
  rewrite children_eq. destruct e; cbn [map_children]; intros H; try done;
    repeat (match goal with H : Forall _ (_ :: _) |- _ => apply Forall_cons in H as [-> H] end);
    rewrite ?Forall_app in H; rewrite ?(Hall _ H); try done.
  - by rewrite (map_opt_ext f g escape).
  - destruct H as (Ho & Hw & He). rewrite (map_opt_ext f g operand Ho), (map_opt_ext f g els He).
    apply bind_ext. intros o _. f_equal.
    induction whens as [|[c r] whens IH]; [done|]. cbn in Hw.
    apply Forall_cons in Hw as [Hc Hw]. apply Forall_cons in Hw as [Hr Hw]. cbn in Hc, Hr. by rewrite Hc, Hr, IH.
  - destruct H as [Ha Hs]. by rewrite (map_opt_ext f g arg Ha), (map_opt_ext f g sep Hs).
Qed.

(** What a rewriting of the children returns has the rewritten children. *)
Lemma map_opt_Ok f o o' : map_opt f o = Ok o' → Forall2 (λ c c', f c = Ok c') (opt_list o) (opt_list o').
Proof. destruct o as [e|]; cbn; intros H; unbind H; simplify_eq; cbn; by repeat constructor. Qed.

Lemma map_children_Ok f e e' : map_children f e = Ok e' → is_query e = false →
  is_query e' = false ∧ Forall2 (λ c c', f c = Ok c') (children e) (children e').
Proof.
  assert (∀ l l', (fix all (l : list Expr) : Res (list Expr) :=
       match l with [] => Ok [] | x :: l => y ← f x; ys ← all l; Ok (y :: ys) end) l = Ok l' →
    Forall2 (λ c c', f c = Ok c') l l') as Hall.
  { induction l as [|x l IH]; intros l' H; [injection H as <-; constructor|]. unbind H. simplify_eq.
    constructor; auto. }
  rewrite !children_eq. destruct e; cbn [map_children]; intros H Hq; try done; unbind H; simplify_eq; cbn [is_query];
    (split; [done|]); repeat (constructor; [done|]); try (by constructor); auto using map_opt_Ok.
  - apply Forall2_app; [by apply map_opt_Ok|]. apply Forall2_app; [|by apply map_opt_Ok].
    revert x0 Hx0. induction whens as [|[c r] whens IH]; intros ws H; [injection H as <-; constructor|].
    unbind H. simplify_eq. cbn. repeat (constructor; [done|]). by apply IH.
  - apply Forall2_app; by apply map_opt_Ok.
Qed.

(** ** Rewriting does not deepen a query *)

Section Rewriting.
Context (view_of : string → option SelectStmt) (vd : string → nat).
Abbreviation edepth := (edepth view_of vd).
Abbreviation sdepth := (sdepth view_of vd).
Abbreviation fdepth := (fdepth view_of vd).

Lemma rewritten_depth f e e' n : map_children f e = Ok e' → is_query e = false →
  Forall (λ c, ∀ c', f c = Ok c' → edepth c' ≤ n)%nat (children e) → (edepth e' ≤ n)%nat.
Proof.
  intros Hm He H. destruct (map_children_Ok f e e' Hm He) as [Hq Hc]. apply edepth_le; [done|].
  revert H. induction Hc; [constructor|]. rewrite Forall_cons. intros [Hx Hl]. constructor; auto.
Qed.

Lemma bind_expr_depth inner outer row n e e' :
  bind_expr inner outer row e = Ok e' → (edepth e ≤ n → edepth e' ≤ n)%nat.
Proof.
  revert e'. induction e as [e Hq IH| | |] using children_ind; intros e'; cbn [bind_expr]; try (by intros [= <-]).
  intros H Hn. assert (map_children (bind_expr inner outer row) e = Ok e' ∨ (edepth e' ≤ n)%nat) as [Hm|]; [| |done].
  { assert (∀ r, bind_ref inner outer row r e = Ok e' → edepth e' ≤ n)%nat as Href.
    { intros r Hr. unfold bind_ref in Hr. destruct (namespace_has _ _); [by injection Hr as <-|].
      destruct (resolve_col _ _ _); [|by injection Hr as <-]. unbind Hr. simplify_eq. cbn. lia. }
    destruct e; try done; try (by left); right; eapply Href; exact H. }
  eapply rewritten_depth; [done..|]. apply (edepth_le view_of vd e n Hq) in Hn.
  rewrite Forall_forall in IH, Hn |- *. intros c Hc c' Hc'. by eapply IH; [| |apply Hn].
Qed.

Lemma map_opt_depth (P : Expr → Prop) f o o' : (∀ e e', f e = Ok e' → P e → P e') →
  map_opt f o = Ok o' → opt_holds P o → opt_holds P o'.
Proof. intros Hf H Ho. destruct o as [e|]; cbn in H; unbind H; simplify_eq; cbn in *; eauto. Qed.

Lemma try_map_Forall {A B} (P : A → Prop) (Q : B → Prop) (f : A → Res B) l l' :
  (∀ x y, f x = Ok y → P x → Q y) → try_map f l = Ok l' → Forall P l → Forall Q l'.
Proof.
  intros Hf. revert l'. induction l as [|x l IH]; intros l' H; [injection H as <-; constructor|].
  cbn [try_map] in H. unbind H. simplify_eq. rewrite !Forall_cons. intros [??]. split; eauto.
Qed.

Lemma bind_select_depth inner outer row s s' : bind_select inner outer row s = Ok s' → (sdepth s' ≤ sdepth s)%nat.
Proof.
  destruct (proj1 (sdepth_le view_of vd s _) (Nat.le_refl _)) as (B1 & B2 & B3 & B4 & B5 & B6 & B7).
  revert B1 B2 B3 B4 B5 B6 B7. generalize (sdepth s) as n. intros n.
  destruct s as [ctes d items from filter group_by having set_ops order_by lim off].
  cbn [sel_ctes sel_items sel_from sel_filter sel_group_by sel_having sel_set_ops bind_select].
  intros B1 B2 B3 B4 B5 B6 B7 H. unbind H. simplify_eq.
  pose proof (λ e e', bind_expr_depth inner outer row n e e') as Hb.
  apply sdepth_le. cbn [sel_ctes sel_items sel_from sel_filter sel_group_by sel_having sel_set_ops].
  split_and!; try done.
  - eapply try_map_Forall; [|exact Hx0|exact B3]. intros [q|e a] i' Hi Hn; cbn in Hi; unbind Hi; simplify_eq; [done|].
    cbn in *. by eapply Hb.
  - eapply map_opt_depth; [exact Hb|exact Hx|exact B4].
  - eapply try_map_Forall; [exact Hb|exact Hx1|exact B5].
  - eapply map_opt_depth; [exact Hb|exact Hx2|exact B6].
Qed.

End Rewriting.

(** ** Steps that call alike behave alike *)

Section Agree.
Context (host : Host) (sess : SessionContext) (params : list Value).
Context (view_of : string → option SelectStmt) (read : string → string → Res Relation).
Context (vd : string → nat) (Hvd : ∀ name q, view_of name = Some q → (sdepth view_of vd q ≤ vd name)%nat).
Abbreviation edepth := (edepth view_of vd).
Abbreviation sdepth := (sdepth view_of vd).
Abbreviation fdepth := (fdepth view_of vd).
Context (run1 run2 : SelectStmt → Res ResultSet) (n : nat).
Hypothesis Hrun : ∀ q, (sdepth q < n)%nat → run1 q = run2 q.
Abbreviation build1 := (build_from host sess params view_of read run1).
Abbreviation build2 := (build_from host sess params view_of read run2).

Lemma build_from_agree f ctes : (fdepth f ≤ n)%nat → build1 ctes f = build2 ctes f.
Proof using Hvd Hrun.
  induction f as [name alias|q alias|l IHl r IHr kind on u]; intros Hd; cbn [build_from].
  - destruct (ctes !! _); [done|]. cbn in Hd. destruct (view_of name) as [q|] eqn:Ev; [|done].
    rewrite Hrun; [done|]. specialize (Hvd name q Ev). lia.
  - rewrite Hrun; [done|exact Hd].
  - change (Nat.max (fdepth l) (fdepth r) ≤ n)%nat in Hd. by rewrite IHl, IHr by lia.
Qed.

Lemma build_from_opt_agree ctes o : from_le view_of vd n o →
  build_from_opt host sess params view_of read run1 ctes o = build_from_opt host sess params view_of read run2 ctes o.
Proof using Hvd Hrun. destruct o; [apply build_from_agree|done]. Qed.

Lemma from_namespace_agree o : from_le view_of vd n o →
  from_namespace host sess params view_of read run1 o = from_namespace host sess params view_of read run2 o.
Proof using Hvd Hrun. destruct o; [|done]. intros H. cbn. by rewrite build_from_agree. Qed.

Lemma from_le_sub q m : (sdepth q ≤ m)%nat → from_le view_of vd m (sel_from q).
Proof using Type. by intros (_ & H & _)%sdepth_le. Qed.

Lemma fold_in_agree lhs1 lhs2 q neg : (sdepth q < n)%nat → lhs1 tt = lhs2 tt →
  fold_in run1 lhs1 q neg = fold_in run2 lhs2 q neg.
Proof using Hrun. intros Hq Hl. unfold fold_in. by rewrite Hrun, Hl. Qed.

Lemma fold_scalar_agree q : (sdepth q < n)%nat → fold_scalar run1 q = fold_scalar run2 q.
Proof using Hrun. intros H. unfold fold_scalar. by rewrite Hrun. Qed.

Lemma fold_exists_agree q neg : (sdepth q < n)%nat → fold_exists run1 q neg = fold_exists run2 q neg.
Proof using Hrun. intros H. unfold fold_exists. by rewrite Hrun. Qed.

(** A composite expression takes the general case. *)
Lemma resolve_sub_composite run e : is_query e = false → resolve_sub run e = map_children (resolve_sub run) e.
Proof using Type. by destruct e. Qed.

Lemma resolve_sub_agree e : (edepth e ≤ n)%nat → resolve_sub run1 e = resolve_sub run2 e.
Proof using Hrun.
  induction e as [e Hq IH|q|q neg|e q neg IH] using children_ind; intros Hd.
  - rewrite !resolve_sub_composite by done. apply map_children_ext. apply edepth_le in Hd; [|done].
    rewrite Forall_forall in IH, Hd |- *. auto.
  - by apply fold_scalar_agree.
  - by apply fold_exists_agree.
  - change (Nat.max (edepth e) (S (sdepth q)) ≤ n)%nat in Hd. cbn [resolve_sub]. apply fold_in_agree; [lia|]. apply IH. lia.
Qed.

(** Folding leaves no subquery. *)
Lemma resolved_depth run e e' : resolve_sub run e = Ok e' → edepth e' = 0%nat.
Proof using Type.
  assert (∀ items, Forall (λ c, edepth c ≤ 0)%nat items → ∀ e neg, edepth e = 0%nat → edepth (EInList e items neg) = 0%nat) as Hl.
  { intros items Hi e0 neg He. apply Nat.le_0_r, edepth_le; [done|]. rewrite children_eq. constructor; [lia|done]. }
  revert e'. induction e as [e Hq IH|q|q neg|e q neg IH] using children_ind; intros e' H.
  - rewrite resolve_sub_composite in H by done. apply Nat.le_0_r. eapply rewritten_depth; [done..|].
    eapply Forall_impl; [exact IH|]. intros c Hc c' Hc'. by rewrite (Hc c').
  - cbn in H. unfold fold_scalar in H. unbind H. destruct (one_column x); [|done].
    destruct (rs_rows x) as [|r [|]]; [by injection H as <-| |done]. unbind H. by injection H as <-.
  - cbn in H. unfold fold_exists in H. unbind H. by injection H as <-.
  - cbn in H. unfold fold_in in H. unbind H. destruct (one_column x); [|done]. unbind H. injection H as <-.
    apply Hl; [|by eapply IH]. eapply (try_map_Forall (λ _, True)); [|exact Hx0|by apply Forall_true].
    intros row c Hc _. cbn beta in Hc. unbind Hc. injection Hc as <-. done.
Qed.

Lemma subquery_correlated_agree q outer : (sdepth q ≤ n)%nat →
  subquery_correlated host sess params view_of read run1 q outer
  = subquery_correlated host sess params view_of read run2 q outer.
Proof using Hvd Hrun.
  intros H. unfold subquery_correlated. rewrite from_namespace_agree; [done|]. by apply from_le_sub.
Qed.

Lemma fold_left_ext {A B} (f g : A → B → A) l acc : Forall (λ x, ∀ a, f a x = g a x) l →
  fold_left f l acc = fold_left g l acc.
Proof using Type. intros H. revert acc. induction H as [|x l Hx _ IH]; intros acc; cbn; [done|]. by rewrite Hx. Qed.

Lemma expr_has_correlated_agree e outer : (edepth e ≤ n)%nat →
  expr_has_correlated host sess params view_of read run1 e outer
  = expr_has_correlated host sess params view_of read run2 e outer.
Proof using Hvd Hrun.
  induction e as [e Hq IH|q|q neg|e q neg IH] using children_ind; intros Hd.
  - assert (∀ run, expr_has_correlated host sess params view_of read run e outer
      = each_child (λ acc c, match acc with Ok false => expr_has_correlated host sess params view_of read run c outer
                                          | _ => acc end) e (Ok false)) as He.
    { intros run. by destruct e. }
    rewrite !He, !each_child_foldl. apply fold_left_ext. apply edepth_le in Hd; [|done].
    rewrite Forall_forall in IH, Hd |- *. intros c Hc [[]|]; try done. auto.
  - apply subquery_correlated_agree. by apply Nat.lt_le_incl.
  - apply subquery_correlated_agree. by apply Nat.lt_le_incl.
  - change (Nat.max (edepth e) (S (sdepth q)) ≤ n)%nat in Hd. cbn [expr_has_correlated]. rewrite IH by lia.
    by rewrite subquery_correlated_agree by lia.
Qed.

Lemma bind_agree outer row q : (sdepth q ≤ n)%nat →
  bind host sess params view_of read run1 outer row q = bind host sess params view_of read run2 outer row q.
Proof using Hvd Hrun. intros H. unfold bind. rewrite from_namespace_agree; [done|]. by apply from_le_sub. Qed.

Lemma bind_depth run outer row q q' : bind host sess params view_of read run outer row q = Ok q' → (sdepth q' ≤ sdepth q)%nat.
Proof using Type. unfold bind. intros H. unbind H. by eapply bind_select_depth. Qed.

Abbreviation corr1 := (fold_corr host sess params view_of read run1).
Abbreviation corr2 := (fold_corr host sess params view_of read run2).

Lemma folded_depth run outer row e e' : fold_corr host sess params view_of read run outer row e = Ok e' → edepth e' = 0%nat.
Proof using Type.
  assert (∀ lhs q neg e', fold_in run lhs q neg = Ok e' → (∀ l, lhs tt = Ok l → edepth l = 0%nat) → edepth e' = 0%nat) as Hin.
  { intros lhs q neg e0 H Hl. unfold fold_in in H. unbind H. destruct (one_column x); [|done]. unbind H.
    injection H as <-. apply Nat.le_0_r, edepth_le; [done|]. rewrite children_eq. constructor; [by rewrite (Hl _ Hx1)|].
    eapply (try_map_Forall (λ _, True)); [|exact Hx0|by apply Forall_true]. intros r c Hc _. cbn beta in Hc. unbind Hc. by injection Hc as <-. }
  revert e'. induction e as [e Hq IH|q|q neg|e q neg IH] using children_ind; intros e' H.
  - assert (map_children (fold_corr host sess params view_of read run outer row) e = Ok e' ∨ edepth e' = 0%nat) as [Hm|]; [| |done].
    { destruct e; try done; try (by left); right; by injection H as <-. }
    apply Nat.le_0_r. eapply rewritten_depth; [done..|]. eapply Forall_impl; [exact IH|]. intros c Hc c' Hc'. by rewrite (Hc c').
  - cbn in H. unbind H. by apply (resolved_depth run (EScalarSubquery x)).
  - cbn in H. unbind H. by apply (resolved_depth run (EExists x neg)).
  - cbn in H. unbind H. eapply Hin; [exact H|]. intros l Hl. exact (resolved_depth run _ _ Hl).
Qed.

Lemma fold_corr_agree outer row e : (edepth e ≤ n)%nat → corr1 outer row e = corr2 outer row e.
Proof using Hvd Hrun.
  induction e as [e Hq IH|q|q neg|e q neg IH] using children_ind; intros Hd.
  - assert (∀ run, fold_corr host sess params view_of read run outer row e =
      match e with EColumn _ | EQualified _ _ => Ok e
                 | _ => map_children (fold_corr host sess params view_of read run outer row) e end) as He.
    { intros run. by destruct e. }
    rewrite !He. assert (map_children (corr1 outer row) e = map_children (corr2 outer row) e) as Hm.
    { apply map_children_ext. apply edepth_le in Hd; [|done]. rewrite Forall_forall in IH, Hd |- *. auto. }
    by destruct e.
  - change (S (sdepth q) ≤ n)%nat in Hd. cbn [fold_corr]. rewrite bind_agree by lia. apply bind_ext. intros q' Hq'%bind_depth.
    apply fold_scalar_agree. lia.
  - change (S (sdepth q) ≤ n)%nat in Hd. cbn [fold_corr]. rewrite bind_agree by lia. apply bind_ext. intros q' Hq'%bind_depth.
    apply fold_exists_agree. lia.
  - change (Nat.max (edepth e) (S (sdepth q)) ≤ n)%nat in Hd. cbn [fold_corr]. rewrite IH by lia. apply bind_ext. intros lhs Hl%folded_depth.
    rewrite bind_agree by lia. apply bind_ext. intros q' Hq'%bind_depth. apply fold_in_agree; [lia|].
    apply resolve_sub_agree. lia.
Qed.

Lemma map_item_ext (f g : Expr → Res Expr) i : item_holds (λ e, f e = g e) i → map_item f i = map_item g i.
Proof using Type. destruct i; cbn; [done|]. by intros ->. Qed.

Lemma opt_holds_list (P : Expr → Prop) o : opt_holds P o → Forall P (opt_list o).
Proof using Type. destruct o; cbn; [by constructor|constructor]. Qed.

Lemma any_correlated_agree es outer : Forall (λ e, edepth e ≤ n)%nat es →
  any_correlated host sess params view_of read run1 es outer = any_correlated host sess params view_of read run2 es outer.
Proof using Hvd Hrun.
  induction 1 as [|e es He _ IH]; [done|]. cbn [any_correlated]. by rewrite expr_has_correlated_agree, IH.
Qed.

Lemma item_exprs_Forall (P : Expr → Prop) items : Forall (item_holds P) items → Forall P (item_exprs items).
Proof using Type. induction 1 as [|[q|e a] items Hi _ IH]; cbn; [constructor|done|by constructor]. Qed.

Lemma select_has_correlated_agree sel outer : (sdepth sel ≤ n)%nat →
  select_has_correlated host sess params view_of read run1 sel outer
  = select_has_correlated host sess params view_of read run2 sel outer.
Proof using Hvd Hrun.
  intros (_ & _ & Hi & Hf & _)%sdepth_le. apply any_correlated_agree, Forall_app. split.
  - by destruct (sel_filter sel); cbn in *; [constructor|].
  - by apply item_exprs_Forall.
Qed.

Lemma resolve_clauses_agree sel c : (sdepth sel ≤ n)%nat → resolve_clauses run1 sel c = resolve_clauses run2 sel c.
Proof using Hrun.
  intros (_ & _ & Hi & Hf & Hg & Hh & _)%sdepth_le. unfold resolve_clauses. destruct c; [done|].
  assert (∀ o, opt_holds (λ e, edepth e ≤ n)%nat o → resolve_opt run1 o = resolve_opt run2 o) as Ho.
  { intros o H. apply map_opt_ext, opt_holds_list. destruct o; [|done]. by apply resolve_sub_agree. }
  rewrite (Ho _ Hf), (Ho _ Hh). unfold resolve_items, resolve_list.
  rewrite (try_map_ext (map_item (resolve_sub run1)) (map_item (resolve_sub run2)) (sel_items sel)).
  2:{ eapply Forall_impl; [exact Hi|]. intros i H. apply map_item_ext. destruct i; [done|]. by apply resolve_sub_agree. }
  rewrite (try_map_ext (resolve_sub run1) (resolve_sub run2) (sel_group_by sel)); [done|].
  eapply Forall_impl; [exact Hg|]. intros e H. by apply resolve_sub_agree.
Qed.

(** The clauses a core works with are those of the query, or folded ones. *)
Lemma resolve_clauses_depth sel c f i g h : (sdepth sel ≤ n)%nat →
  resolve_clauses run2 sel c = Ok (f, i, g, h) → c = true →
  opt_holds (λ e, edepth e ≤ n)%nat f ∧ Forall (item_holds (λ e, edepth e ≤ n)%nat) i.
Proof using Type. intros (_ & _ & Hi & Hf & _)%sdepth_le H ->. injection H as <- <- _ _. done. Qed.

Lemma collect_kept_agree rows cols f c : (c = true → opt_holds (λ e, edepth e ≤ n)%nat f) →
  collect_kept host sess params view_of read run1 rows cols f c
  = collect_kept host sess params view_of read run2 rows cols f c.
Proof using Hvd Hrun.
  intros H. apply try_filter_ext. intros row. unfold row_kept. destruct c; [|done].
  unfold fold_corr_opt. rewrite (map_opt_ext (corr1 cols row) (corr2 cols row)); [done|].
  apply opt_holds_list. specialize (H eq_refl). destruct f; [|done]. by apply fold_corr_agree.
Qed.

Lemma build_entries_agree plan cols kept :
  (cp_correlated plan = true → Forall (item_holds (λ e, edepth e ≤ n)%nat) (cp_items plan)) →
  build_entries host sess params view_of read run1 plan cols kept
  = build_entries host sess params view_of read run2 plan cols kept.
Proof using Hvd Hrun.
  intros H. unfold build_entries. destruct (cp_aggregated plan); [done|]. apply try_map_ext, Forall_true. intros row.
  assert (try_concat (entry_item host sess params view_of read run1 cols (cp_correlated plan) row) (cp_items plan)
    = try_concat (entry_item host sess params view_of read run2 cols (cp_correlated plan) row) (cp_items plan)) as ->; [|done].
  apply try_concat_ext. destruct (cp_correlated plan); [|by apply Forall_true].
  eapply Forall_impl; [by apply H|]. intros i Hi. unfold entry_item, fold_corr_item.
  rewrite (map_item_ext (corr1 cols row) (corr2 cols row)); [done|]. destruct i; [done|]. by apply fold_corr_agree.
Qed.

Lemma eval_core_agree sel ctes tail : (sdepth sel ≤ n)%nat →
  eval_core host sess params view_of read run1 sel ctes tail = eval_core host sess params view_of read run2 sel ctes tail.
Proof using Hvd Hrun.
  intros Hd. unfold eval_core. pose proof Hd as (_ & Hf & _)%sdepth_le. rewrite build_from_opt_agree by done.
  apply bind_ext. intros rel _. rewrite select_has_correlated_agree by done. apply bind_ext. intros corr _.
  rewrite resolve_clauses_agree by done. apply bind_ext. intros [[[f i] g] h] Hc.
  rewrite collect_kept_agree by (intros ->; by eapply resolve_clauses_depth). apply bind_ext. intros kept _.
  destruct (output_columns i (rel_cols rel) 0). rewrite build_entries_agree; [done|].
  cbn. intros ->. by eapply resolve_clauses_depth.
Qed.

Lemma run_ctes_agree withs ctes : Forall (λ c, S (sdepth c.2) ≤ n)%nat withs → run_ctes run1 withs ctes = run_ctes run2 withs ctes.
Proof using Hrun.
  intros H. revert ctes. induction H as [|[name q] withs Hq _ IH]; intros ctes; [done|]. cbn [run_ctes].
  rewrite Hrun by exact Hq. apply bind_ext. intros rs _. apply IH.
Qed.

Lemma run_set_ops_agree parts ctes acc : Forall (λ p, sdepth p.2 ≤ n)%nat parts →
  run_set_ops host sess params view_of read run1 parts ctes acc = run_set_ops host sess params view_of read run2 parts ctes acc.
Proof using Hvd Hrun.
  intros H. revert acc. induction H as [|[[op all] q] parts Hq _ IH]; intros acc; [done|]. cbn [run_set_ops].
  rewrite eval_core_agree by exact Hq. apply bind_ext. intros rhs _. apply bind_ext. intros acc' _. apply IH.
Qed.

Lemma query_step_agree sel : (sdepth sel ≤ n)%nat →
  query_step host sess params view_of read run1 sel = query_step host sess params view_of read run2 sel.
Proof using Hvd Hrun.
  intros Hd. unfold query_step. pose proof Hd as (Hc & _ & _ & _ & _ & _ & Hs)%sdepth_le.
  rewrite run_ctes_agree by done. apply bind_ext. intros ctes _. rewrite !eval_core_agree by done.
  destruct (sel_set_ops sel) eqn:E; [done|]. apply bind_ext. intros acc _. by rewrite run_set_ops_agree.
Qed.

End Agree.

Lemma query_fuel_agree host sess view_of read params vd :
  (∀ name q, view_of name = Some q → sdepth view_of vd q ≤ vd name)%nat →
  ∀ k1 k2 deep1 deep2 sel, (sdepth view_of vd sel < k1 → sdepth view_of vd sel < k2 →
    query_fuel host sess view_of read params deep1 k1 sel = query_fuel host sess view_of read params deep2 k2 sel)%nat.
Proof.
  intros Hvd. induction k1 as [|k1 IH]; intros [|k2] deep1 deep2 sel H1 H2; try lia. cbn [query_fuel].
  apply (query_step_agree host sess params view_of read vd Hvd _ _ (sdepth view_of vd sel)); [|done].
  intros q Hq. apply IH; lia.
Qed.

(** ** Results are rectangular *)

Definition rectangular (rs : ResultSet) : Prop :=
  length (rs_types rs) = length (rs_columns rs) ∧
  Forall (λ row, length row = length (rs_columns rs)) (rs_rows rs).

(** The columns an item list gives, and the values of a row for it. *)
Definition item_width (cols : list RelCol) (i : SelItem) : nat :=
  match i with Star q => length (star_cols q cols) | SelExpr _ _ => 1%nat end.
Definition items_width (cols : list RelCol) (items : list SelItem) : nat := sum_list (item_width cols <$> items).

Lemma output_columns_width items cols idx :
  length (output_columns items cols idx).1 = items_width cols items ∧
  length (output_columns items cols idx).2 = items_width cols items.
Proof.
  revert idx. induction items as [|[q|e a] items IH]; intros idx; [done|..]; cbn [output_columns].
  - destruct (IH (idx + length (star_cols q cols))%nat) as [H1 H2]. destruct (output_columns items cols _) as [ns ts].
    cbn in *. rewrite !length_app, !length_fmap, H1, H2. done.
  - destruct (IH (S idx)) as [H1 H2]. destruct (output_columns items cols _) as [ns ts]. cbn in *. by rewrite H1, H2.
Qed.

Lemma star_cells_width q cols row i vs : star_cells q cols row i = Ok vs → length vs = length (star_cols q cols).
Proof.
  revert i vs. induction cols as [|c cols IH]; intros i vs H; [by injection H as <-|]. cbn [star_cells] in H.
  unfold star_cols in *. cbn [List.filter]. destruct (star_includes q c); [|by eapply IH].
  unbind H. injection H as <-. cbn. f_equal. by eapply IH.
Qed.

Lemma try_concat_width {A B} (f : A → Res (list B)) (w : A → nat) l out :
  (∀ x y, x ∈ l → f x = Ok y → length y = w x) → try_concat f l = Ok out → length out = sum_list (w <$> l).
Proof.
  unfold try_concat. intros Hf H. unbind H. injection H as <-. revert x Hx.
  induction l as [|a l IH]; intros x Hx; [by injection Hx as <-|]. cbn [try_map] in Hx. unbind Hx. injection Hx as <-.
  cbn. rewrite length_app. rewrite (Hf a) by (done || by left). f_equal. apply IH; [|done]. intros y z Hy. apply Hf. by right.
Qed.

Lemma sublist_Forall {A} (P : A → Prop) l k : l `sublist_of` k → Forall P k → Forall P l.
Proof. induction 1; rewrite ?Forall_cons; intuition. Qed.

Section Width.
Context (host : Host) (sess : SessionContext) (params : list Value).
Context (view_of : string → option SelectStmt) (read : string → string → Res Relation).
Context (run : SelectStmt → Res ResultSet).

Lemma project_item_width i cx cols row vs : project_item host sess i cx cols row = Ok vs → length vs = item_width cols i.
Proof. destruct i as [q|e a]; cbn; [apply star_cells_width|]. intros H. unbind H. by injection H as <-. Qed.

Lemma group_item_width i cols cx vs : group_item host sess i cols cx = Ok vs → length vs = item_width cols i.
Proof.
  destruct i as [q|e a]; cbn; [destruct (cx_row cx); [apply star_cells_width|done]|].
  intros H. unbind H. by injection H as <-.
Qed.

Lemma map_item_width f i i' cols : map_item f i = Ok i' → item_width cols i' = item_width cols i.
Proof. destruct i as [q|e a]; cbn; intros H; unbind H; by injection H as <-. Qed.

Lemma entry_width cols corr row items out :
  try_concat (entry_item host sess params view_of read run cols corr row) items = Ok out → length out = items_width cols items.
Proof.
  apply try_concat_width. intros i vs _ H. unfold entry_item in H. unbind H. rewrite (project_item_width _ _ _ _ _ H).
  destruct corr; [by eapply map_item_width|by injection Hx as ->].
Qed.

Lemma group_entries_width items having cols gs es :
  group_entries host sess params items having cols gs = Ok es → Forall (λ e, length e.1 = items_width cols items) es.
Proof.
  revert es. induction gs as [|[k ms] gs IH]; intros es H; [injection H as <-; constructor|]. cbn [group_entries] in H.
  unbind H. destruct x; [|by apply IH]. unbind H. injection H as <-. constructor; [|by apply IH]. cbn.
  eapply (try_concat_width _ (item_width cols)); [|eassumption]. intros i vs _ Hi. exact (group_item_width i cols _ vs Hi).
Qed.

Lemma build_entries_width plan cols kept es :
  build_entries host sess params view_of read run plan cols kept = Ok es →
  Forall (λ e, length e.1 = items_width cols (cp_items plan)) es.
Proof.
  unfold build_entries. destruct (cp_aggregated plan).
  - unfold grouped_entries. intros H. unbind H. by eapply group_entries_width.
  - intros H. eapply (try_map_Forall (λ _, True)); [|exact H|by apply Forall_true].
    intros row e He _. cbn beta in He. unbind He. injection He as <-. by eapply entry_width.
Qed.

Lemma order_and_collect_Forall (P : list Value → Prop) es keys cols rows :
  order_and_collect host sess params es keys cols = Ok rows → Forall (λ e, P e.1) es → Forall P rows.
Proof.
  unfold order_and_collect. intros H He. unbind H. injection H as <-. apply Forall_fmap.
  assert (x ≡ₚ es) as ->; [|done]. destruct keys; [by injection Hx as <-|]. by apply sort_by_perm in Hx.
Qed.

Lemma retain_new_Forall (P : list Value → Prop) rows : Forall P rows → Forall P (dedup_rows rows).
Proof. intros H. eapply sublist_Forall; [apply retain_new_sublist|done]. Qed.

Lemma offset_limit_Forall {A} (P : A → Prop) l limit offset : Forall P l → Forall P (apply_offset_limit l limit offset).
Proof. rewrite !Forall_forall. intros H x Hx%apply_offset_limit_elem. auto. Qed.

Lemma eval_core_rectangular sel ctes tail rs :
  eval_core host sess params view_of read run sel ctes tail = Ok rs → rectangular rs.
Proof.
  unfold eval_core. intros H. unbind H. destruct x1 as [[[f i] g] h]. unbind H.
  pose proof (output_columns_width i (rel_cols x) 0) as [W1 W2]. destruct (output_columns i (rel_cols x) 0) as [ns ts].
  unbind H. apply build_entries_width in Hx3. cbn in Hx3, W1, W2.
  apply (order_and_collect_Forall (λ r, length r = length ns)) in Hx4; [|by rewrite W1].
  assert (Forall (λ r, length r = length ns) (if sel_distinct sel then dedup_rows x3 else x3)) as Hd.
  { destruct (sel_distinct sel); [by apply retain_new_Forall|done]. }
  destruct tail; unbind H; injection H as <-; (split; cbn; [by rewrite W1, W2|]); [by apply offset_limit_Forall|done].
Qed.

Lemma combine_rectangular acc rhs op all rs : rectangular acc → rectangular rhs →
  combine_set_op acc rhs op all = Ok rs → rectangular rs.
Proof.
  intros [A1 A2] [B1 B2]. unfold combine_set_op. destruct (_ =? _)%Z eqn:E; [|done]. intros [= <-].
  split; [done|]. cbn. apply Z.eqb_eq in E. unfold zlen in E. assert (length (rs_columns acc) = length (rs_columns rhs)) as E' by lia.
  eapply sublist_Forall; [apply set_op_rows_sublist|]. destruct op; [|done..]. apply Forall_app. split; [done|]. by rewrite E'.
Qed.

Lemma run_set_ops_rectangular parts ctes acc rs : rectangular acc →
  run_set_ops host sess params view_of read run parts ctes acc = Ok rs → rectangular rs.
Proof.
  revert acc. induction parts as [|[[op all] q] parts IH]; intros acc Ha H; [by injection H as <-|].
  cbn [run_set_ops] in H. unbind H. eapply IH; [|exact H].
  eapply combine_rectangular; [exact Ha| |exact Hx0]. by eapply eval_core_rectangular.
Qed.

Lemma query_step_rectangular sel rs : query_step host sess params view_of read run sel = Ok rs → rectangular rs.
Proof.
  unfold query_step. intros H. unbind H. destruct (sel_set_ops sel); [by eapply eval_core_rectangular|].
  unbind H. pose proof (run_set_ops_rectangular _ _ _ _ (eval_core_rectangular _ _ _ _ Hx0) Hx1) as [R1 R2].
  unfold apply_output_order_limit in H. unbind H. injection H as <-. split; [done|]. cbn. apply offset_limit_Forall.
  assert (x2 ≡ₚ rs_rows x1) as ->; [|done].
  destruct (sel_order_by sel); [by injection Hx2 as ->|]. unbind Hx2. by apply sort_by_perm in Hx2.
Qed.

End Width.

(** The single-table path: the header and the rows of an item list, and constant queries. *)
Definition header_width (sc : TableSchema) (i : SelItem) : nat :=
  match i with Star _ => length (columns sc) | SelExpr _ _ => 1%nat end.

Lemma output_header_width items sc idx :
  length (output_header items sc idx).1 = sum_list (header_width sc <$> items) ∧
  length (output_header items sc idx).2 = sum_list (header_width sc <$> items).
Proof.
  revert idx. induction items as [|[q|e a] items IH]; intros idx; [done|..]; cbn [output_header].
  - destruct (IH (idx + length (columns sc))%nat) as [H1 H2]. destruct (output_header items sc _) as [ns ts].
    cbn in *. rewrite !length_app, !length_fmap, H1, H2. done.
  - destruct (IH (S idx)) as [H1 H2]. destruct (output_header items sc _) as [ns ts]. cbn in *. by rewrite H1, H2.
Qed.

Lemma try_map_length {A B} (f : A → Res B) l out : try_map f l = Ok out → length out = length l.
Proof.
  revert out. induction l as [|a l IH]; intros out H; [by injection H as <-|]. cbn [try_map] in H. unbind H.
  injection H as <-. cbn. f_equal. by apply IH.
Qed.

Section Single.
Context (parse_expr : string → Res Expr) (host : Host) (sess : SessionContext).
Context {VI : Type} `{!VectorIndexOps VI, !VectorSearch VI}.

Lemma project_items_width items sc vals params out :
  project_items host sess items sc vals params = Ok out → length out = sum_list (header_width sc <$> items).
Proof.
  revert out. induction items as [|[q|e a] items IH]; intros out H; [by injection H as <-|..]; cbn [project_items] in H;
    unbind H; injection H as <-; cbn; [|by rewrite (IH _ Hx0)].
  rewrite length_app, (IH _ Hx0). f_equal. unfold project_star in Hx. by apply try_map_length in Hx.
Qed.

Lemma project_rows_rectangular items sc rows params rs :
  project_rows host sess items sc rows params = Ok rs → rectangular rs.
Proof.
  unfold project_rows. destruct (output_header_width items sc 0) as [W1 W2].
  destruct (output_header items sc 0) as [ns ts]. intros H. unbind H. injection H as <-. cbn in *.
  split; cbn; [by rewrite W1, W2|]. eapply (try_map_Forall (λ _, True)); [|exact Hx|by apply Forall_true].
  intros vals out Ho _. rewrite W1. exact (project_items_width _ _ _ _ _ Ho).
Qed.

Lemma constant_items_width items params idx ns ts vs :
  constant_items host sess items params idx = Ok (ns, ts, vs) → length ts = length ns ∧ length vs = length ns.
Proof.
  revert idx ns ts vs. induction items as [|[q|e a] items IH]; intros idx ns ts vs H; cbn [constant_items] in H.
  - by injection H as <- <- <-.
  - by eapply IH.
  - unbind H. destruct x0 as [[ns' ts'] vs']. injection H as <- <- <-. destruct (IH _ _ _ _ Hx0). cbn. split; congruence.
Qed.

(** A star under grouping gives the stored row of a group as it is. *)
Definition is_star (i : SelItem) : bool := match i with Star _ => true | _ => false end.
Definition grouped_star (sel : SelectStmt) : bool := is_aggregated sel && existsb is_star (sel_items sel).

Lemma group_items_width items sc cx out :
  existsb is_star items = false → group_items host sess items cx = Ok out →
  length out = sum_list (header_width sc <$> items).
Proof.
  revert out. induction items as [|[q|e a] items IH]; intros out Hs H; [by injection H as <-|done|].
  cbn [group_items] in H. unbind H. injection H as <-. cbn. by rewrite (IH x0).
Qed.

Lemma group_rows_width sel sc params gs out :
  existsb is_star (sel_items sel) = false → group_rows host sess sel sc params gs = Ok out →
  Forall (λ o, length o.1 = sum_list (header_width sc <$> sel_items sel)) out.
Proof.
  intros Hs. revert out. induction gs as [|[k ms] gs IH]; intros out H; [injection H as <-; constructor|].
  cbn [group_rows] in H. unbind H. destruct x; [|by apply IH]. unbind H. injection H as <-.
  constructor; [|by apply IH]. by eapply group_items_width.
Qed.

Lemma grouped_select_rectangular sel sc matched params rs :
  existsb is_star (sel_items sel) = false → grouped_select host sess sel sc matched params = Ok rs → rectangular rs.
Proof.
  intros Hs. unfold grouped_select. destruct (output_header_width (sel_items sel) sc 0) as [W1 W2]. intros H. unbind H.
  destruct (output_header (sel_items sel) sc 0) as [ns ts]. unbind H. injection H as <-. cbn in *.
  split; cbn; [by rewrite W1, W2|]. rewrite W1. apply offset_limit_Forall, Forall_fmap.
  apply (group_rows_width _ _ _ _ _ Hs) in Hx0. assert (x1 ≡ₚ x0) as ->; [|done].
  unfold order_groups in Hx1. destruct (sel_order_by sel); [by injection Hx1 as <-|by apply sort_by_perm in Hx1].
Qed.

Lemma single_table_rectangular st sel name snapshot writer params ef rs :
  grouped_star sel = false →
  single_table_select parse_expr host sess st sel name snapshot writer params ef = Ok rs → rectangular rs.
Proof.
  intros Hg. unfold single_table_select. destruct (table st name) as [t|]; [|done]. intros H. unbind H.
  destruct x0 as [rs'|].
  - injection H as <-. destruct x; try done. unfold knn_select in Hx0. unbind Hx0.
    destruct (knn_plan sel x); [|done]. destruct (_ =? _); [done|]. destruct (index_for _ _ _); [|done].
    destruct (_ || _); [done|]. unbind Hx0. destruct (to_vec_operand x0); [|done]. destruct (table st name); [|done].
    unbind Hx0. injection Hx0 as <-. by eapply project_rows_rectangular.
  - unbind H. unfold grouped_star in Hg. destruct (is_aggregated sel).
    + by eapply grouped_select_rectangular.
    + unbind H. by eapply project_rows_rectangular.
Qed.

(** Every SELECT gives a rectangular result, but for a star under grouping on a single table. *)
Lemma run_select_tuned_rectangular stack st sel snapshot writer params ef rs :
  grouped_star sel = false →
  run_select_tuned parse_expr host sess stack st sel snapshot writer params ef = Ok rs → rectangular rs.
Proof.
  intros Hg. unfold run_select_tuned.
  assert (∀ rs, run_query parse_expr host sess stack st sel snapshot writer params = Ok rs → rectangular rs) as Hq.
  { unfold run_query. destruct stack as [|stack]; [done|]. intros r. apply query_step_rectangular. }
  destruct (sel_from sel) as [[]|]; try apply Hq.
  - destruct (_ && _); [by apply single_table_rectangular|apply Hq].
  - destruct (needs_relational sel); [apply Hq|]. unfold constant_select. destruct (existsb _ _); [done|].
    intros H. unbind H. destruct x as [[ns ts] vs]. injection H as <-. apply constant_items_width in Hx as [H1 H2].
    split; [done|]. by repeat constructor.
Qed.

End Single.

(** ** Properties *)

Section QuerySpec.
Context (parse_expr : string → Res Expr) (host : Host) (sess : SessionContext).
Context {VI : Type} `{!VectorIndexOps VI}.
Abbreviation Store := (Store VI SelectStmt).

(** The rows a session may read of a table, in order: visible, and allowed by the policies. *)
Inductive Shows (sc : TableSchema) (snapshot : Z) (writer : option Z) (params : list Value)
    : list RowVersion → list (list Value) → Prop :=
| shows_nil : Shows sc snapshot writer params [] []
| shows_hidden v rs l :
    ¬ (row_visible v snapshot writer = true
       ∧ allowed parse_expr host sess pol_using sc PSelect (ctx_row (values v) sc params)) →
    Shows sc snapshot writer params rs l → Shows sc snapshot writer params (v :: rs) l
| shows_row v rs l :
    row_visible v snapshot writer = true →
    allowed parse_expr host sess pol_using sc PSelect (ctx_row (values v) sc params) →
    Shows sc snapshot writer params rs l → Shows sc snapshot writer params (v :: rs) (values v :: l).

(** The policies evaluate on every visible row: an error is seen by the session. *)
Definition policies_decide (t : Table) (snapshot : Z) (writer : option Z) (params : list Value) : Prop :=
  ∀ d v, rls_read parse_expr sess (schema t) PSelect = Ok d → v ∈ rows t → row_visible v snapshot writer = true →
    ∃ b, passes host sess d (ctx_row (values v) (schema t) params) = Ok b.

Lemma scan_shows sc d snapshot writer params rs l :
  rls_read parse_expr sess sc PSelect = Ok d →
  (∀ v, v ∈ rs → row_visible v snapshot writer = true → ∃ b, passes host sess d (ctx_row (values v) sc params) = Ok b) →
  Shows sc snapshot writer params rs l → scan_rows host sess d None sc snapshot writer params rs = Ok l.
Proof.
  intros Hd Hp H. induction H as [|v rs l Hv _ IH|v rs l Hv Ha _ IH]; [done|..]; cbn [scan_rows].
  - assert (scan_rows host sess d None sc snapshot writer params rs = Ok l) as IH'.
    { apply IH. intros w Hw. apply Hp. by right. }
    destruct (row_visible v snapshot writer) eqn:Ev; [|done]. destruct (Hp v) as [b Hb]; [by left|done|].
    rewrite Hb. assert (b = false) as ->; [|cbn; by rewrite IH'].
    destruct b; [|done]. destruct Hv. split; [done|]. by apply (rls_read_spec parse_expr host sess _ _ _ _ _ Hd Hb).
  - rewrite Hv. destruct (Hp v) as [b Hb]; [by left|done|]. rewrite Hb.
    assert (b = true) as -> by (by apply (rls_read_spec parse_expr host sess _ _ _ _ _ Hd Hb)). cbn.
    rewrite IH; [done|]. intros w Hw. apply Hp. by right.
Qed.

(** Two tables that show a session the same rows. *)
Definition shows_alike (snapshot : Z) (writer : option Z) (params : list Value) (t1 t2 : Table) : Prop :=
  schema t1 = schema t2 ∧
  ∃ l, Shows (schema t1) snapshot writer params (rows t1) l ∧ Shows (schema t2) snapshot writer params (rows t2) l.

Lemma read_table_alike (st1 st2 : Store) snapshot writer params name src :
  option_Forall2 (shows_alike snapshot writer params) (table st1 name) (table st2 name) →
  (∀ t, table st1 name = Some t ∨ table st2 name = Some t → policies_decide t snapshot writer params) →
  read_table parse_expr host sess st1 snapshot writer params name src
  = read_table parse_expr host sess st2 snapshot writer params name src.
Proof.
  unfold read_table. destruct 1 as [t1 t2 (Hs & l & L1 & L2)|]; [|done]. intros Hpd. rewrite Hs. rewrite Hs in L1.
  pose proof (Hpd t1 (or_introl eq_refl)) as P1. pose proof (Hpd t2 (or_intror eq_refl)) as P2.
  destruct (rls_read parse_expr sess (schema t2) PSelect) as [d|] eqn:Hd; [|done]. cbn [mbind Result_bind].
  rewrite (scan_shows (schema t2) d snapshot writer params (rows t1) l), (scan_shows (schema t2) d snapshot writer params (rows t2) l);
    try done.
  - intros v. by apply P2.
  - intros v Hv Hv'. rewrite <- Hs. apply P1; [by rewrite Hs|done..].
Qed.


(** C18. Every query ends: where the views refer to each other without a cycle, there is a depth of stack
    that answers the query, and any deeper stack gives the same answer, whatever a call past the stack
    would return. *)
Theorem query_terminates (st : Store) rank snapshot writer params sel :
  acyclic (view st) rank →
  ∃ depth, ∀ stack deep, (depth ≤ stack)%nat →
    query_fuel host sess (view st) (read_table parse_expr host sess st snapshot writer params) params deep stack sel
    = run_query parse_expr host sess depth st sel snapshot writer params.
Proof.
  intros [vd Hvd]%acyclic_depth. exists (S (sdepth (view st) vd sel)). intros stack deep Hs. unfold run_query.
  apply (query_fuel_agree host sess _ _ params vd Hvd); lia.
Qed.

(** C21. Results are rectangular: a query that returns gives as many types as columns and rows of that
    many values, whatever the stored rows look like. *)
Theorem query_result_rectangular (st : Store) stack sel snapshot writer params rs :
  run_query parse_expr host sess stack st sel snapshot writer params = Ok rs → rectangular rs.
Proof. unfold run_query. destruct stack as [|stack]; [done|]. apply query_step_rectangular. Qed.

End QuerySpec.
