(* ===== verification/Dml.v ===== *)
(** * Row mutations of INSERT, UPDATE and DELETE (crates/engine/src/exec.rs)

    The write half of the executor: the keys of the unique constraints, the conflict checks
    against other in-flight writers, the two primitives that stamp a row version and emit its log
    operation, and the statements built from them.

    Expressions are their evaluation functions: a filter is a function from a row to a result, a
    SET clause a function from the existing and the proposed row.  What the statements need of the
    expression language itself is the class [SqlOps].  A statement runs on the store in place:
    what it wrote before an error stays written, as in the code. *)

From S2P Require Import Prelude Text StorageTypes EngineTypes Values Funcs Wal MvccStore.

#[local] Open Scope comp_scope.

(** ** The expression language, as far as the write path uses it *)

Class SqlOps (SelectStmt : Type) := {
  (** [sql::parse] of a view's statement text, giving the view's query. *)
  parse_view : string → option SelectStmt;
  (** [exec::eval_const_sql]. *)
  eval_const_sql : string → Res Value;
  (** [sql::parse_expr]; the parsed expression is its evaluation on a row of a table. *)
  parse_expr : string → Result EngineStatus (TableSchema → list Value → Res Value)
}.

Section Dml.
Context {VI : Type} `{!VectorIndexOps VI} {SelectStmt : Type} `{!SqlOps SelectStmt}.
Abbreviation Store := (Store VI SelectStmt).

(** ** Unique keys *)

(** [vals[c]] panics out of range; a row has one value per column. *)
Definition cell (vals : list Value) (c : nat) : Value := default Null (vals !! c).

Definition KEY_SEP : Ascii.ascii := Ascii.ascii_of_nat 1.

Definition composite_key (vals : list Value) (cols : list nat) : string :=
  foldr (λ c k, value_key (cell vals c) +:+ String KEY_SEP k) EmptyString cols.

(** A live insert of a concurrent in-flight writer. *)
Definition foreign_insert (me : Z) (v : RowVersion) : bool :=
  (create_lsn v =? PENDING) && negb (owner v =? me) && (delete_lsn v =? 0).

Definition table_rows (s : Store) (tname : string) : list RowVersion :=
  match table s tname with Some t => rows t | None => [] end.

Definition pk_index (s : Store) (tname : string) (pk : list nat) (me : Z)
    : gmap string Z * gset string :=
  foldl (λ '(committed, pending) v,
           let k := composite_key (values v) pk in
           if visible_to_writer v (committed_lsn s) me then (<[k := vid v]> committed, pending)
           else if foreign_insert me v then (committed, {[k]} ∪ pending)
           else (committed, pending))
        (∅, ∅) (table_rows s tname).

Definition pk_keys (s : Store) (tname : string) (pk : list nat) (me : Z) (exclude : list Z)
    : gset string * gset string :=
  foldl (λ '(committed, pending) v,
           let k := composite_key (values v) pk in
           if bool_decide (vid v ∈ exclude) then (committed, pending)
           else if visible_to_writer v (committed_lsn s) me then ({[k]} ∪ committed, pending)
           else if foreign_insert me v then (committed, {[k]} ∪ pending)
           else (committed, pending))
        (∅, ∅) (table_rows s tname).

Definition any_null (set : list nat) (vals : list Value) : bool :=
  existsb (λ i, is_null (cell vals i)) set.

(** The keys of one unique set the visible rows hold, NULLs exempt. *)
Definition seen_keys (s : Store) (tname : string) (set : list nat) (exclude : list Z) (me : Z)
    : gset string :=
  list_to_set ((λ v, composite_key (values v) set) <$>
    filter (λ v, negb (bool_decide (vid v ∈ exclude))
                 && visible_to_writer v (committed_lsn s) me
                 && negb (any_null set (values v)) = true)
      (table_rows s tname)).

Fixpoint insert_fresh (set : list nat) (seen : gset string) (new : list (list Value)) : Res unit :=
  match new with
  | [] => Ok tt
  | row :: new =>
      if any_null set row then insert_fresh set seen new
      else let k := composite_key row set in
           if bool_decide (k ∈ seen) then Err (Failed ErrConstraint)
           else insert_fresh set ({[k]} ∪ seen) new
  end.

Fixpoint check_unique_sets (s : Store) (tname : string) (sets : list (list nat)) (pk : list nat)
    (new : list (list Value)) (exclude : list Z) (me : Z) : Res unit :=
  match sets with
  | [] => Ok tt
  | set :: sets =>
      _ ← (if bool_decide (set = pk) then Ok tt
           else insert_fresh set (seen_keys s tname set exclude me) new);
      check_unique_sets s tname sets pk new exclude me
  end.

Definition check_secondary_uniques (s : Store) (tname : string) (sc : TableSchema)
    (new : list (list Value)) (exclude : list Z) (me : Z) : Res unit :=
  check_unique_sets s tname (unique_sets sc) (primary_key_indices sc) new exclude me.

(** ** Row checks *)

Definition check_not_null (sc : TableSchema) (vals : list Value) : Res unit :=
  if existsb (λ '(i, c), not_null c && is_null (cell vals i)) (zip (seq 0 (length (columns sc))) (columns sc))
  then Err (Failed ErrConstraint) else Ok tt.

Definition vector_dim_ok (ty : ColumnType) (v : Value) : bool :=
  match ty, v with
  | CVector dim, Null => true
  | CVector dim, Vector x => zlen x =? dim
  | CVector dim, _ => false
  | _, _ => true
  end.

Definition check_vector_dims (sc : TableSchema) (vals : list Value) : Res unit :=
  if forallb (λ '(i, c), vector_dim_ok (col_ty c) (cell vals i))
       (zip (seq 0 (length (columns sc))) (columns sc))
  then Ok tt else Err (Failed ErrConstraint).

(** A parsed expression over one row. *)
Abbreviation TableExpr := (TableSchema → list Value → Res Value).

(** A CHECK fails only when it is false; unknown passes. *)
Fixpoint check_row_constraints (chks : list TableExpr) (sc : TableSchema) (vals : list Value)
    : Res unit :=
  match chks with
  | [] => Ok tt
  | c :: chks =>
      v ← c sc vals;
      if bool_decide (as_bool v = Some false) then Err (Failed ErrConstraint)
      else check_row_constraints chks sc vals
  end.

Fixpoint parse_exprs (texts : list string) : Res (list TableExpr) :=
  match texts with
  | [] => Ok []
  | t :: texts => e ← map_err Failed (parse_expr t); es ← parse_exprs texts; Ok (e :: es)
  end.

(** ** Stamping versions *)

Definition check_no_conflict (v : RowVersion) (snapshot me : Z) : Res unit :=
  let committed := negb (delete_lsn v =? 0) && negb (delete_lsn v =? PENDING)
                   && (snapshot <? delete_lsn v) in
  let pending := (delete_lsn v =? PENDING) && negb (owner v =? me) in
  if committed || pending then Err (Failed ErrConflict) else Ok tt.

Definition mark_deleted (o : Z) (r : RowVersion) : RowVersion :=
  set_owner o (set_delete PENDING r).

Definition supersede (tname : string) (old_vid o : Z) (s : Store) : Store * list WalOp :=
  (table_mut (version_mut (mark_deleted o) old_vid) tname s, [Delete tname old_vid]).

Definition push_row (o : Z) (vals : list Value) (t : Table) : Table :=
  mkTable (schema t) (rows t ++ [mkRow (next_vid t) vals PENDING 0 o]) (next_vid t + 1)
    (next_autoinc t).

Definition append_version (tname : string) (vals : list Value) (o : Z) (s : Store)
    : Store * list WalOp * Z :=
  let v := match table s tname with Some t => next_vid t | None => 0 end in
  (table_mut (push_row o vals) tname s, [Insert tname v vals], v).

(** ** INSERT *)

Record WriteCtx := mkWriteCtx { wc_snapshot : Z; wc_owner : Z }.

(** A SET clause sees the existing row and [excluded], the proposed one. *)
Abbreviation RowExpr A := (list Value → list Value → Res A).

Inductive OnConflict :=
| OCError
| OCNothing
| OCReplace
| OCUpdate (sets : list (string * RowExpr Value)) (cond : option (RowExpr Value)).

Record Mutation := mkMutation {
  mut_wal : list WalOp;
  mut_changes : Z;
  mut_result : option ResultSet
}.

Fixpoint apply_sets (sc : TableSchema) (existing excluded nv : list Value)
    (sets : list (string * RowExpr Value)) : Res (list Value) :=
  match sets with
  | [] => Ok nv
  | (col, e) :: sets =>
      idx ← ok_or (column_index sc col) (Failed ErrSql);
      v ← e existing excluded;
      let ty := match columns sc !! idx with Some c => col_ty c | None => CText end in
      apply_sets sc existing excluded (<[idx := coerce ty v]> nv) sets
  end.

(** The new row of ON CONFLICT DO UPDATE; [None] when its WHERE does not hold. *)
Definition upsert_values (sc : TableSchema) (existing excluded : list Value)
    (sets : list (string * RowExpr Value)) (cond : option (RowExpr Value)) : Res (option (list Value)) :=
  go ← match cond with
       | None => Ok true
       | Some f => v ← f existing excluded; Ok (default false (as_bool v))
       end;
  if (go : bool) then
    nv ← apply_sets sc existing excluded existing sets;
    _ ← check_not_null sc nv;
    _ ← check_vector_dims sc nv;
    Ok (Some nv)
  else Ok None.

(** Statements thread the store and the log operations emitted so far. *)
Abbreviation Stmt A := (Comp (Store * list WalOp) Fault A).

Definition stm_supersede (tname : string) (v o : Z) : Stmt unit := λ '(s, wal),
  let '(s, ops) := supersede tname v o s in ((s, wal ++ ops), Ok tt).

Definition stm_append (tname : string) (vals : list Value) (o : Z) : Stmt Z := λ '(s, wal),
  let '(s, ops, v) := append_version tname vals o s in ((s, wal ++ ops), Ok v).

Definition lift {A} (r : Res A) : Stmt A := λ st, (st, r).

Definition upsert_update (sc : TableSchema) (tname : string) (wc : WriteCtx) (old_vid : Z)
    (excluded : list Value) (sets : list (string * RowExpr Value)) (cond : option (RowExpr Value))
    : Stmt (option (list Value)) := λ st,
  (let! existing := lift (ok_or (values <$> (table st.1 tname ≫= version old_vid)) (Failed ErrSql)) in
   let! nv := lift (upsert_values sc existing excluded sets cond) in
   match nv with
   | None => comp_ret None
   | Some nv =>
       do! stm_supersede tname old_vid (wc_owner wc) in
       do! stm_append tname nv (wc_owner wc) in
       comp_ret (Some nv)
   end) st.

Definition apply_insert_row (sc : TableSchema) (tname : string) (wc : WriteCtx) (vals : list Value)
    (clash : option Z) (oc : OnConflict) : Stmt (option (list Value)) :=
  match clash with
  | None => do! stm_append tname vals (wc_owner wc) in comp_ret (Some vals)
  | Some old_vid =>
      match oc with
      | OCError => comp_err (Failed ErrConstraint)
      | OCNothing => comp_ret None
      | OCReplace =>
          do! stm_supersede tname old_vid (wc_owner wc) in
          do! stm_append tname vals (wc_owner wc) in
          comp_ret (Some vals)
      | OCUpdate sets cond => upsert_update sc tname wc old_vid vals sets cond
      end
  end.

(** The vid of the last row of the table. *)
Definition last_vid (s : Store) (tname : string) : Z :=
  match last (table_rows s tname) with Some r => vid r | None => 0 end.

(** Straight inserts of a table without primary key; the rows to add to the indexes. *)
Fixpoint insert_plain (tname : string) (wc : WriteCtx) (staged : list (list Value))
    : Stmt (list (Z * list Value)) :=
  match staged with
  | [] => comp_ret []
  | vals :: staged =>
      let! v := stm_append tname vals (wc_owner wc) in
      let! rest := insert_plain tname wc staged in
      comp_ret ((v, vals) :: rest)
  end.

Fixpoint insert_keyed (sc : TableSchema) (tname : string) (wc : WriteCtx) (oc : OnConflict)
    (pk : list nat) (live : gmap string Z) (pending : gset string) (staged : list (list Value))
    : Stmt (list (Z * list Value)) :=
  match staged with
  | [] => comp_ret []
  | vals :: staged =>
      let k := composite_key vals pk in
      if bool_decide (k ∈ pending) then comp_err (Failed ErrConflict)
      else
        let! produced := apply_insert_row sc tname wc vals (live !! k) oc in
        match produced with
        | None => insert_keyed sc tname wc oc pk live pending staged
        | Some row => λ st,
            let v := last_vid st.1 tname in
            (let! rest := insert_keyed sc tname wc oc pk (<[k := v]> live) pending staged in
             comp_ret ((v, row) :: rest)) st
        end
  end.

(** RETURNING: row-level security and the projection of the affected rows, which can fail. *)
Abbreviation Returning := (option (list (list Value) → Res ResultSet)).

Definition run_returning (ret : Returning) (affected : list (list Value))
    : Res (option ResultSet) :=
  match ret with Some f => r ← f affected; Ok (Some r) | None => Ok None end.

Definition index_rows (tname : string) (new : list (Z * list Value)) : Stmt unit := λ '(s, wal),
  ((foldl (λ s '(v, vals), index_row_inserted tname v vals s) s new, wal), Ok tt).

(** Runs a statement body from an empty list of log operations. *)
Definition stmt_body (body : Stmt (Z * list (list Value))) (ret : Returning)
    : Comp Store Fault Mutation := λ s,
  match body (s, []) with
  | ((s, wal), Ok (changes, affected)) =>
      (s, r ← run_returning ret affected; Ok (mkMutation wal changes r))
  | ((s, _), Err e) => (s, Err e)
  end.

Definition apply_insert (sc : TableSchema) (tname : string) (staged : list (list Value))
    (oc : OnConflict) (ret : Returning) (wc : WriteCtx) : Comp Store Fault Mutation := λ s,
  let maintain := table_has_index s tname in
  let pk := primary_key_indices sc in
  stmt_body
    (let! new := (if bool_decide (pk = []) then insert_plain tname wc staged
                  else let '(live, pending) := pk_index s tname pk (wc_owner wc) in
                       insert_keyed sc tname wc oc pk live pending staged) in
     do! (if maintain then index_rows tname new else comp_ret tt) in
     comp_ret (zlen new, new.*2)) ret s.

Definition finalize_cell (c : Column) (slot : option Value) (autoinc : Z) : Res (Value * Z) :=
  match slot with
  | Some v =>
      let v := coerce (col_ty c) v in
      Ok (v, match autoincrement c, v with
             | true, Int n => Z.max autoinc (i64_succ n)
             | _, _ => autoinc
             end)
  | None =>
      if autoincrement c then Ok (Int autoinc, i64_succ autoinc)
      else match default_sql c with
           | Some d => v ← eval_const_sql d; Ok (coerce (col_ty c) v, autoinc)
           | None => Ok (Null, autoinc)
           end
  end.

Fixpoint finalize_cells (cols : list Column) (slot : list (option Value)) (autoinc : Z)
    : Res (list Value * Z) :=
  match cols with
  | [] => Ok ([], autoinc)
  | c :: cols =>
      '(v, autoinc) ← finalize_cell c (default None (head slot)) autoinc;
      '(vs, autoinc) ← finalize_cells cols (tail slot) autoinc;
      Ok (v :: vs, autoinc)
  end.

Fixpoint finalize_slots (sc : TableSchema) (chks : list TableExpr) (slots : list (list (option Value))) (autoinc : Z)
    : Res (list (list Value) * Z) :=
  match slots with
  | [] => Ok ([], autoinc)
  | slot :: slots =>
      '(vals, autoinc) ← finalize_cells (columns sc) slot autoinc;
      _ ← check_not_null sc vals;
      _ ← check_vector_dims sc vals;
      _ ← check_row_constraints chks sc vals;
      '(rest, autoinc) ← finalize_slots sc chks slots autoinc;
      Ok (vals :: rest, autoinc)
  end.

Definition set_autoinc (a : Z) (t : Table) : Table := mkTable (schema t) (rows t) (next_vid t) a.

Definition finalize_insert_rows (sc : TableSchema) (tname : string) (slots : list (list (option Value)))
    : Comp Store Fault (list (list Value)) := λ s,
  let autoinc := match table s tname with Some t => next_autoinc t | None => 1 end in
  match (chks ← parse_exprs (checks sc); finalize_slots sc chks slots autoinc) with
  | Ok (staged, a) => (table_mut (set_autoinc a) tname s, Ok staged)
  | Err e => (s, Err e)
  end.

(** The columns the source values go to. *)
Fixpoint column_indices (sc : TableSchema) (cols : list string) : Res (list nat) :=
  match cols with
  | [] => Ok []
  | c :: cols => i ← ok_or (column_index sc c) (Failed ErrSql); rest ← column_indices sc cols; Ok (i :: rest)
  end.

Definition insert_targets (sc : TableSchema) (cols : option (list string)) : Res (list nat) :=
  match cols with
  | Some cols => column_indices sc cols
  | None => Ok (seq 0 (length (columns sc)))
  end.

(** [Values]: an expression is its value, [None] the keyword DEFAULT.  [Select]: the query's rows
    at a snapshot for a writer. *)
Inductive InsertSource :=
| SrcValues (rows : list (list (option (Res Value))))
| SrcSelect (query : Store → WriteCtx → Res (list (list Value))).

Fixpoint fill_slot (targets : list nat) (exprs : list (option (Res Value))) (slot : list (option Value))
    : Res (list (option Value)) :=
  match targets, exprs with
  | idx :: targets, e :: exprs =>
      v ← match e with None => Ok None | Some r => v ← r; Ok (Some v) end;
      fill_slot targets exprs (<[idx := v]> slot)
  | _, _ => Ok slot
  end.

(** One row of the source; an empty row without a column list is DEFAULT VALUES. *)
Definition insert_slot (sc : TableSchema) (no_columns : bool) (targets : list nat)
    (exprs : list (option (Res Value))) : Res (list (option Value)) :=
  let slot := replicate (length (columns sc)) None in
  if bool_decide (exprs = []) && no_columns then Ok slot
  else if negb (length exprs =? length targets)%nat then Err (Failed ErrSql)
  else fill_slot targets exprs slot.

Fixpoint insert_slots (sc : TableSchema) (no_columns : bool) (targets : list nat)
    (rs : list (list (option (Res Value)))) : Res (list (list (option Value))) :=
  match rs with
  | [] => Ok []
  | r :: rs =>
      slot ← insert_slot sc no_columns targets r;
      rest ← insert_slots sc no_columns targets rs;
      Ok (slot :: rest)
  end.

(** The values of a queried row. *)
Definition provided (r : list Value) : list (option (Res Value)) := (λ v, Some (Ok v)) <$> r.

Definition build_insert_slots (s : Store) (sc : TableSchema) (cols : option (list string))
    (src : InsertSource) (wc : WriteCtx) : Res (list (list (option Value))) :=
  targets ← insert_targets sc cols;
  match src return Res (list (list (option Value))) with
  | SrcValues rs => insert_slots sc (bool_decide (cols = None)) targets rs
  | SrcSelect q => rs ← q s wc; insert_slots sc false targets (provided <$> rs)
  end.

(** An INSERT; row-level security's WITH CHECK is given as a function of the row. *)
Record InsertStmt := mkInsert {
  ins_table : string;
  ins_columns : option (list string);
  ins_source : InsertSource;
  ins_rls : TableSchema → Res (list Value → Res unit);
  ins_conflict : OnConflict;
  ins_returning : Returning
}.

Fixpoint all_pass {A} (f : A → Res unit) (l : list A) : Res unit :=
  match l with [] => Ok tt | x :: l => _ ← f x; all_pass f l end.

Definition run_insert (st : InsertStmt) (wc : WriteCtx) : Comp Store Fault Mutation := λ s,
  match table s (ins_table st) with
  | None => (s, Err (Failed ErrSql))
  | Some t =>
      let sc := schema t in
      (let! slots := (λ s, (s, build_insert_slots s sc (ins_columns st) (ins_source st) wc)) in
       let! staged := finalize_insert_rows sc (ins_table st) slots in
       do! (λ s, (s, chk ← ins_rls st sc; all_pass chk staged)) in
       do! (λ s, (s, match ins_conflict st with
                     | OCError => check_secondary_uniques s (ins_table st) sc staged [] (wc_owner wc)
                     | _ => Ok tt
                     end)) in
       apply_insert sc (ins_table st) staged (ins_conflict st) (ins_returning st) wc) s
  end.

(** ** DELETE and UPDATE *)

(** The vids and values of the rows a DELETE removes; [keep] is the row-level-security USING
    predicate followed by the filter. *)
Fixpoint collect_delete_victims (keep : list Value → Res bool) (wc : WriteCtx) (rs : list RowVersion)
    : Res (list (Z * list Value)) :=
  match rs with
  | [] => Ok []
  | v :: rs =>
      if negb (visible_to_writer v (wc_snapshot wc) (wc_owner wc))
      then collect_delete_victims keep wc rs
      else
        b ← keep (values v);
        if (b : bool) then
          _ ← check_no_conflict v (wc_snapshot wc) (wc_owner wc);
          rest ← collect_delete_victims keep wc rs;
          Ok ((vid v, values v) :: rest)
        else collect_delete_victims keep wc rs
  end.

Fixpoint supersede_all (tname : string) (wc : WriteCtx) (vids : list Z) : Stmt unit :=
  match vids with
  | [] => comp_ret tt
  | v :: vids => do! stm_supersede tname v (wc_owner wc) in supersede_all tname wc vids
  end.

(** A DELETE of one table: its row filter is row-level security's USING followed by WHERE, where a
    joined DELETE tries the combinations with the rows of its sources. *)
Record DeleteStmt := mkDelete {
  del_table : string;
  del_keep : Store → WriteCtx → TableSchema → Res (list Value → Res bool);
  del_returning : Returning
}.

Definition run_delete (st : DeleteStmt) (wc : WriteCtx) : Comp Store Fault Mutation := λ s,
  match table s (del_table st) with
  | None => (s, Err (Failed ErrSql))
  | Some t =>
      match (keep ← del_keep st s wc (schema t); collect_delete_victims keep wc (rows t)) with
      | Err e => (s, Err e)
      | Ok victims =>
          stmt_body (do! supersede_all (del_table st) wc victims.*1 in
                     comp_ret (zlen victims, victims.*2)) (del_returning st) s
      end
  end.

Fixpoint insert_pk_keys (pk : list nat) (committed pending : gset string) (new : list (list Value))
    : Res unit :=
  match new with
  | [] => Ok tt
  | nv :: new =>
      let k := composite_key nv pk in
      if bool_decide (k ∈ pending) then Err (Failed ErrConflict)
      else if bool_decide (k ∈ committed) then Err (Failed ErrConstraint)
      else insert_pk_keys pk ({[k]} ∪ committed) pending new
  end.

Definition check_update_uniques (s : Store) (sc : TableSchema) (tname : string)
    (updates : list (Z * list Value)) (me : Z) : Res unit :=
  let pk := primary_key_indices sc in
  _ ← (if bool_decide (pk = []) then Ok tt
       else let '(committed, pending) := pk_keys s tname pk me updates.*1 in
            insert_pk_keys pk committed pending updates.*2);
  check_secondary_uniques s tname sc updates.*2 updates.*1 me.

Fixpoint update_rows (tname : string) (wc : WriteCtx) (updates : list (Z * list Value))
    : Stmt (list (Z * list Value)) :=
  match updates with
  | [] => comp_ret []
  | (old_vid, nv) :: updates =>
      do! stm_supersede tname old_vid (wc_owner wc) in
      let! v := stm_append tname nv (wc_owner wc) in
      let! rest := update_rows tname wc updates in
      comp_ret ((v, nv) :: rest)
  end.

Definition apply_updates (tname : string) (updates : list (Z * list Value)) (ret : Returning)
    (wc : WriteCtx) : Comp Store Fault Mutation := λ s,
  let maintain := table_has_index s tname in
  stmt_body
    (let! new := update_rows tname wc updates in
     do! (if maintain then index_rows tname new else comp_ret tt) in
     comp_ret (zlen updates, new.*2)) ret s.

(** An UPDATE of one table: its assignments, its row filter and row-level security's check of the
    new row.  The filter (USING, then WHERE) gives the row the assignments are evaluated on: the row
    itself or, in a joined UPDATE, its first combination with the sources' rows that matches. *)
Record UpdateStmt := mkUpdate {
  upd_table : string;
  upd_sets : list (string * (list Value → Res Value));
  upd_keep : Store → WriteCtx → TableSchema → Res (list Value → Res (option (list Value)));
  upd_rls : TableSchema → Res (list Value → Res unit);
  upd_returning : Returning
}.

Fixpoint resolve_targets (sc : TableSchema) (sets : list (string * (list Value → Res Value)))
    : Res (list (nat * (list Value → Res Value))) :=
  match sets with
  | [] => Ok []
  | (col, e) :: sets =>
      idx ← ok_or (column_index sc col) (Failed ErrSql);
      rest ← resolve_targets sc sets;
      Ok ((idx, e) :: rest)
  end.

Fixpoint assign_targets (sc : TableSchema) (ctx nv : list Value)
    (targets : list (nat * (list Value → Res Value))) : Res (list Value) :=
  match targets with
  | [] => Ok nv
  | (idx, e) :: targets =>
      v ← e ctx;
      let ty := match columns sc !! idx with Some c => col_ty c | None => CText end in
      assign_targets sc ctx (<[idx := coerce ty v]> nv) targets
  end.

Definition new_row (sc : TableSchema) (targets : list (nat * (list Value → Res Value)))
    (chks : list TableExpr) (rls : list Value → Res unit) (ctx old : list Value)
    : Res (list Value) :=
  nv ← assign_targets sc ctx old targets;
  _ ← check_not_null sc nv;
  _ ← check_vector_dims sc nv;
  _ ← check_row_constraints chks sc nv;
  _ ← rls nv;
  Ok nv.

Fixpoint collect_updates (keep : list Value → Res (option (list Value)))
    (mk : list Value → list Value → Res (list Value)) (wc : WriteCtx) (rs : list RowVersion) : Res (list (Z * list Value)) :=
  match rs with
  | [] => Ok []
  | v :: rs =>
      if negb (visible_to_writer v (wc_snapshot wc) (wc_owner wc))
      then collect_updates keep mk wc rs
      else
        c ← keep (values v);
        match c with
        | Some ctx =>
            _ ← check_no_conflict v (wc_snapshot wc) (wc_owner wc);
            nv ← mk ctx (values v);
            rest ← collect_updates keep mk wc rs;
            Ok ((vid v, nv) :: rest)
        | None => collect_updates keep mk wc rs
        end
  end.

Definition compute_updates (st : UpdateStmt) (s : Store) (sc : TableSchema) (wc : WriteCtx)
    (rs : list RowVersion) : Res (list (Z * list Value)) :=
  targets ← resolve_targets sc (upd_sets st);
  chks ← parse_exprs (checks sc);
  keep ← upd_keep st s wc sc;
  rls ← upd_rls st sc;
  collect_updates keep (new_row sc targets chks rls) wc rs.

Definition run_update (st : UpdateStmt) (wc : WriteCtx) : Comp Store Fault Mutation := λ s,
  match table s (upd_table st) with
  | None => (s, Err (Failed ErrSql))
  | Some t =>
      match (us ← compute_updates st s (schema t) wc (rows t);
             _ ← check_update_uniques s (schema t) (upd_table st) us (wc_owner wc);
             Ok us) with
      | Err e => (s, Err e)
      | Ok us => apply_updates (upd_table st) us (upd_returning st) wc s
      end
  end.

End Dml.
