(* ===== verification/Recovery.v ===== *)
(** * Recovery: rebuilding the store from the log (crates/engine/src/db.rs)

    Opening a database replays the durable log into an empty store: the operations of each
    transaction up to its [Commit] marker are applied at the marker's LSN, a trailing group
    without a marker is dropped, then the auto-increment counters are rebuilt and the vector
    indexes warmed.  The log is what [Storage::scan_wal] returned. *)

From S2P Require Import Prelude Text StorageTypes EngineTypes Wal MvccStore Dml.

Section Recovery.
Context {VI : Type} `{!VectorIndexOps VI} {SelectStmt : Type} `{!SqlOps SelectStmt}.
Abbreviation Store := (Store VI SelectStmt).

(** [db::apply_alter], shared by live DDL and replay. *)
Definition apply_alter (op : WalOp) (s : Store) : Store :=
  match op with
  | AlterAddColumn t column =>
      let fill := match default_sql column with
                  | Some d => match eval_const_sql d with Ok v => v | Err _ => Null end
                  | None => Null
                  end in
      add_column t column fill s
  | AlterDropColumn t column => drop_column t column s
  | AlterRenameColumn t from to => rename_column t from to s
  | AlterRenameTable t to => rename_table t to s
  | SetRls t enabled => set_rls t enabled s
  | _ => s
  end.

Definition apply_replay (commit_lsn : Z) (s : Store) (op : WalOp) : Store :=
  match op with
  | CreateTable sc => insert_table sc s
  | DropTable name => (drop_table name s).2
  | Insert t v vals => replay_insert t v vals commit_lsn s
  | Delete t v => replay_delete t v commit_lsn s
  | CreateIndex d => register_index d s
  | DropIndex name => (drop_index name s).2
  | AlterAddColumn _ _ | AlterDropColumn _ _ | AlterRenameColumn _ _ _ | AlterRenameTable _ _ =>
      apply_alter op s
  | CreateView name sql =>
      match parse_view sql with Some q => insert_view name q s | None => s end
  | DropView name => (drop_view name s).2
  | CreatePolicy t p => add_policy t p s
  | DropPolicy t name => (drop_policy t name s).2
  | SetRls t enabled => set_rls t enabled s
  | Commit => s
  end.

(** [for entry in entries]: the group collected so far is an accumulator. *)
Fixpoint replay_entries (entries : list LogEntry) (group : list WalOp) (s : Store)
    : Result EngineStatus Store :=
  match entries with
  | [] => Ok s
  | e :: entries =>
      op ← decode (wal_bytes (entry_record e));
      match op with
      | Commit =>
          let s := foldl (apply_replay (entry_lsn e)) s group in
          replay_entries entries [] (with_committed (Z.max (committed_lsn s) (entry_lsn e)) s)
      | op => replay_entries entries (group ++ [op]) s
      end
  end.

Definition replay (scan : Result StorageError (list LogEntry)) (s : Store) : Result EngineStatus Store :=
  entries ← map_err engine_error_from scan;
  s ← replay_entries entries [] s;
  Ok (rebuild_autoinc s).

(** [index_page_region]: FNV-1a of the lowercased name in a reserved band of page ids. *)
Definition index_page_region (name : string) : Z :=
  let h := foldl (λ h b, (Z.lxor h (bz b) * 0x100000001b3) mod 2 ^ 64) 0xcbf29ce484222325
             (str_bytes (to_ascii_lowercase name)) in
  Z.lor (2 ^ 63) (Z.shiftl (Z.land h 0xFFFFFFFFFF) 23).

(** [warm_vector_indexes]: [load] is the attempt to read a checkpoint from pages. *)
Definition warm_vector_indexes (load : IndexDef → Z → option VI) (s : Store) : Store * Z :=
  foldl (λ '(s, n) name,
           match index_def s name with
           | None => (s, n)
           | Some d =>
               match load d (committed_lsn s) with
               | Some ix => (adopt_index ix s, n + 1)
               | None => (rebuild_one_index name s, n)
               end
           end)
        (s, 0) (index_names s).

(** The store [Database::open] publishes, from the results of its storage calls. *)
Definition open_store (scan : Result StorageError (list LogEntry)) (commit : Result StorageError Z)
    (load : IndexDef → Z → option VI) : Result EngineStatus (Store * Z) :=
  s ← replay scan Store_default;
  c ← map_err engine_error_from commit;
  Ok (warm_vector_indexes load (with_committed (Z.max (committed_lsn s) c) s)).

End Recovery.
