(* ===== verification/Hnsw.v ===== *)
(** * The vector index (crates/engine/src/vector.rs)

    The layered graph with its insertion, search and tombstones, its layout in pages, and the attempt of an
    open to load it from them (db.rs).  A node is its ordinal; [None] is a panic, an ordinal out of range, or
    a search out of fuel: the number of nodes is enough, since a node becomes a candidate at most once.  A
    [BinaryHeap] is a list sorted along its order, which is total on the elements that meet in one heap.  The
    natural logarithm, which only chooses layers, is a parameter. *)

From S2P Require Import Prelude Text StorageTypes Float EngineTypes Funcs Ast Expr Wal MvccStore Recovery Select.

Record Node := mkNode {
  n_vid : Z;
  n_vector : list Z;
  n_neighbors : list (list nat);
  n_removed : bool;
  n_dead : bool
}.

Record VectorIndex := mkIndex {
  vx_def : IndexDef;
  vx_nodes : list Node;
  by_vid : gmap Z nat;
  vx_entry : option nat;
  max_level : nat;
  rng : Z;
  dead_count : Z;
  rebuild_floor : Z
}.

#[export] Instance Node_eq_dec : EqDecision Node.
Proof. solve_decision. Defined.
#[export] Instance VectorIndex_eq_dec : EqDecision VectorIndex.
Proof. solve_decision. Defined.

Definition MAINT_MIN_NODES : Z := 64.
Definition MAINT_DEAD_RATIO_PCT : Z := 20.
Definition SEED : Z := 0x243F6A8885A308D3.

Definition VectorIndex_new (def : IndexDef) : VectorIndex := mkIndex def [] ∅ None 0 SEED 0 0.

Definition with_nodes (nodes : list Node) (ix : VectorIndex) : VectorIndex :=
  mkIndex (vx_def ix) nodes (by_vid ix) (vx_entry ix) (max_level ix) (rng ix) (dead_count ix) (rebuild_floor ix).
Definition with_top (entry : option nat) (level : nat) (ix : VectorIndex) : VectorIndex :=
  mkIndex (vx_def ix) (vx_nodes ix) (by_vid ix) entry level (rng ix) (dead_count ix) (rebuild_floor ix).
Definition set_rebuild_floor (ix : VectorIndex) (lsn : Z) : VectorIndex :=
  mkIndex (vx_def ix) (vx_nodes ix) (by_vid ix) (vx_entry ix) (max_level ix) (rng ix) (dead_count ix) lsn.

Definition with_neighbors (l : list (list nat)) (n : Node) : Node :=
  mkNode (n_vid n) (n_vector n) l (n_removed n) (n_dead n).
Definition set_dead (n : Node) : Node := mkNode (n_vid n) (n_vector n) (n_neighbors n) (n_removed n) true.
Definition set_removed (n : Node) : Node := mkNode (n_vid n) (n_vector n) (n_neighbors n) true (n_dead n).

(** ** Statistics *)

Definition index_len (ix : VectorIndex) : Z := Z.of_nat (size (by_vid ix)).
Definition live_len (ix : VectorIndex) : Z := saturating_sub (index_len ix) (dead_count ix).
Definition needs_maintenance (ix : VectorIndex) : bool :=
  (MAINT_MIN_NODES <=? index_len ix) && (index_len ix * MAINT_DEAD_RATIO_PCT <=? dead_count ix * 100).

Definition mark_dead (ix : VectorIndex) (vid : Z) : option VectorIndex :=
  match by_vid ix !! vid with
  | None => Some ix
  | Some idx =>
      n ← vx_nodes ix !! idx;
      Some (if n_dead n then ix
            else mkIndex (vx_def ix) (<[idx := set_dead n]> (vx_nodes ix)) (by_vid ix) (vx_entry ix)
                   (max_level ix) (rng ix) (dead_count ix + 1) (rebuild_floor ix))
  end.

Definition remove (ix : VectorIndex) (vid : Z) : option VectorIndex :=
  match by_vid ix !! vid with
  | None => Some ix
  | Some idx =>
      n ← vx_nodes ix !! idx;
      Some (mkIndex (vx_def ix) (<[idx := set_removed n]> (vx_nodes ix)) (delete vid (by_vid ix)) (vx_entry ix)
              (max_level ix) (rng ix) (if n_dead n then saturating_sub (dead_count ix) 1 else dead_count ix)
              (rebuild_floor ix))
  end.

(** ** Scored candidates *)

Record Scored := mkScored { s_dist : Z; s_idx : nat }.

(** [f32::total_cmp]: the bit patterns as sign and magnitude. *)
Definition total_key (a : Z) : Z := if sign_bit F32 <=? a then sign_bit F32 - 1 - a else a.
Definition scored_cmp (a b : Scored) : comparison :=
  match total_key (s_dist a) ?= total_key (s_dist b) with
  | Eq => (s_idx a ?= s_idx b)%nat
  | c => c
  end.
Definition nearer (a b : Scored) : bool := match scored_cmp a b with Gt => false | _ => true end.

(** [push] on a heap that pops its nearest element first, or its farthest. *)
Fixpoint push_by (before : Scored → Scored → bool) (x : Scored) (l : list Scored) : list Scored :=
  match l with
  | [] => [x]
  | y :: l => if before x y then x :: y :: l else y :: push_by before x l
  end.
Definition push_near : Scored → list Scored → list Scored := push_by nearer.
Definition push_far : Scored → list Scored → list Scored := push_by (λ a b, nearer b a).
Definition sort_scored (l : list Scored) : list Scored := foldr push_near [] l.

(** ** Search of one layer *)

Definition dist (ix : VectorIndex) (q : list Z) (idx : nat) : option Z :=
  n ← vx_nodes ix !! idx; Some (distance (ip_metric (ix_params (vx_def ix))) q (n_vector n)).

Definition level_list (n : Node) (level : nat) : list nat := default [] (n_neighbors n !! level).
Definition neighbors (ix : VectorIndex) (idx level : nat) : option (list nat) :=
  n ← vx_nodes ix !! idx; Some (level_list n level).

(** The loop's variables. *)
Record Search := mkSearch { visited : gset nat; candidates : list Scored; found : list Scored }.

Definition f32_inf : Z := encode_f F32 (SpecFloat.S754_infinity false).
Definition farthest (r : list Scored) : Z := match r with s :: _ => s_dist s | [] => f32_inf end.

Section Layer.
Variable ix : VectorIndex.
Variable q : list Z.
Variable ef : Z.

Definition visit (s : Search) (nb : nat) : option Search :=
  if bool_decide (nb ∈ visited s) then Some s
  else
    d ← dist ix q nb;
    let seen := {[nb]} ∪ visited s in
    if f_ltb F32 d (farthest (found s)) || (zlen (found s) <? ef) then
      let scored := mkScored d nb in
      let r := push_far scored (found s) in
      Some (mkSearch seen (push_near scored (candidates s)) (if ef <? zlen r then List.tl r else r))
    else Some (mkSearch seen (candidates s) (found s)).

Fixpoint visit_all (s : Search) (nbs : list nat) : option Search :=
  match nbs with [] => Some s | nb :: nbs => s ← visit s nb; visit_all s nbs end.

Fixpoint search_go (fuel level : nat) (s : Search) : option (list Scored) :=
  match fuel with
  | O => None
  | S fuel =>
      match candidates s with
      | [] => Some (found s)
      | c :: cs =>
          if f_ltb F32 (farthest (found s)) (s_dist c) && (ef <=? zlen (found s)) then Some (found s)
          else nbs ← neighbors ix (s_idx c) level;
               s ← visit_all (mkSearch (visited s) cs (found s)) nbs;
               search_go fuel level s
      end
  end.

Definition search_layer (entry level : nat) : option (list Scored) :=
  d ← dist ix q entry;
  let start := mkScored d entry in
  r ← search_go (S (length (vx_nodes ix))) level (mkSearch {[entry]} [start] [start]);
  Some (sort_scored r).
End Layer.

(** [if let Some(best) = found.first() { ep = best.idx }]. *)
Definition step_to (ep : nat) (found : list Scored) : nat := match found with s :: _ => s_idx s | [] => ep end.

(** [while l > stop { … ep = …; l -= 1 }]. *)
Fixpoint descend (ix : VectorIndex) (q : list Z) (stop l ep : nat) : option nat :=
  match l with
  | O => Some ep
  | S l' => if (stop <? l)%nat
            then found ← search_layer ix q 1 ep l; descend ix q stop l' (step_to ep found)
            else Some ep
  end.

(** ** Search *)

Fixpoint collect (ix : VectorIndex) (k : nat) (l : list Scored) : option (list (Z * Z)) :=
  match k, l with
  | O, _ | _, [] => Some []
  | S k', s :: l =>
      n ← vx_nodes ix !! s_idx s;
      if n_removed n then collect ix k l
      else out ← collect ix k' l; Some ((n_vid n, s_dist s) :: out)
  end.

Definition search_width (ix : VectorIndex) (k : Z) (ef : option Z) : Z :=
  Z.max (default (ef_search (ix_params (vx_def ix))) ef) k.

Definition search (ix : VectorIndex) (query : list Z) (k : Z) (ef : option Z) : option (list (Z * Z)) :=
  match vx_entry ix with
  | None => Some []
  | Some entry =>
      if k =? 0 then Some []
      else ep ← descend ix query 0 (max_level ix) entry;
           found ← search_layer ix query (search_width ix k ef) ep 0;
           collect ix (Z.to_nat k) found
  end.

(** ** Linking *)

(** The list of layer [lvl] of node [a] replaced, its layers extended as far. *)
Fixpoint set_layer (lvl : nat) (l : list nat) (layers : list (list nat)) : list (list nat) :=
  match lvl, layers with
  | O, [] => [l]
  | O, _ :: ls => l :: ls
  | S lvl, [] => [] :: set_layer lvl l []
  | S lvl, x :: ls => x :: set_layer lvl l ls
  end.

Definition connect (ix : VectorIndex) (a b lvl : nat) : option VectorIndex :=
  if (a =? b)%nat then Some ix
  else
    n ← vx_nodes ix !! a;
    let l := level_list n lvl in
    let l := if bool_decide (b ∈ l) then l else l ++ [b] in
    Some (with_nodes (<[a := with_neighbors (set_layer lvl l (n_neighbors n)) n]> (vx_nodes ix)) ix).

Definition score_all (ix : VectorIndex) (av : list Z) (l : list nat) : option (list Scored) :=
  mapM (λ nb, d ← dist ix av nb; Some (mkScored d nb)) l.

Definition prune (ix : VectorIndex) (a lvl : nat) (m : Z) : option VectorIndex :=
  n ← vx_nodes ix !! a;
  let l := level_list n lvl in
  if zlen l <=? m then Some ix
  else
    scored ← score_all ix (n_vector n) l;
    let kept := s_idx <$> take (Z.to_nat m) (sort_scored scored) in
    Some (with_nodes (<[a := with_neighbors (set_layer lvl kept (n_neighbors n)) n]> (vx_nodes ix)) ix).

(** [m * 2] wraps at the width of [usize]. *)
Definition degree_cap (ix : VectorIndex) (lvl : nat) : Z :=
  let m := ip_m (ix_params (vx_def ix)) in
  match lvl with O => (m * 2) mod 2 ^ 64 | _ => m end.

Fixpoint link_found (idx lvl : nat) (m : Z) (l : list Scored) (ix : VectorIndex) : option VectorIndex :=
  match l with
  | [] => Some ix
  | s :: l =>
      ix ← connect ix idx (s_idx s) lvl;
      ix ← connect ix (s_idx s) idx lvl;
      ix ← prune ix (s_idx s) lvl m;
      link_found idx lvl m l ix
  end.

(** The layers from [lvl] down. *)
Fixpoint link_layers (q : list Z) (idx lvl ep : nat) (ix : VectorIndex) : option VectorIndex :=
  found ← search_layer ix q (ef_construction (ix_params (vx_def ix))) ep lvl;
  let m := degree_cap ix lvl in
  ix ← link_found idx lvl m (take (Z.to_nat m) found) ix;
  match lvl with O => Some ix | S lvl => link_layers q idx lvl (step_to ep found) ix end.

Definition link_new_node (ix : VectorIndex) (idx entry level : nat) : option VectorIndex :=
  n ← vx_nodes ix !! idx;
  let q := n_vector n in
  ep ← descend ix q level (max_level ix) entry;
  link_layers q idx (Nat.min level (max_level ix)) ep ix.

(** ** Insertion *)

Section Insert.
Variable ln : Z → Z.

Definition wrapping_mul (a b : Z) : Z := (a * b) mod 2 ^ 64.
Definition wrapping_add (a b : Z) : Z := (a + b) mod 2 ^ 64.

(** [next_u64]: the new state of the generator and its output. *)
Definition next_u64 (r : Z) : Z * Z :=
  let r := wrapping_add r 0x9E3779B97F4A7C15 in
  let z := wrapping_mul (Z.lxor r (Z.shiftr r 30)) 0xBF58476D1CE4E5B9 in
  let z := wrapping_mul (Z.lxor z (Z.shiftr z 27)) 0x94D049BB133111EB in
  (r, Z.lxor z (Z.shiftr z 31)).

(** [1e-12]. *)
Definition EPSILON : Z := 0x3D719799812DEA11.

(** [x as usize]: toward zero, saturating, NaN to 0. *)
Definition f64_as_usize (a : Z) : Z :=
  match decode_f F64 a with
  | SpecFloat.S754_finite s m e =>
      Z.max 0 (Z.min (2 ^ 64 - 1) (SpecFloat.cond_Zopp s (round_mag ToZero s m e)))
  | SpecFloat.S754_infinity false => 2 ^ 64 - 1
  | _ => 0
  end.

Definition random_level (ix : VectorIndex) : Z * nat :=
  let '(r, x) := next_u64 (rng ix) in
  let u := f_div F64 (f_of_Z F64 (Z.shiftr x 11)) (f_of_Z F64 (2 ^ 53)) in
  let u := if f_ltb F64 u EPSILON then EPSILON else u in
  let ml := f_div F64 (f_of_Z F64 1) (ln (f_of_Z F64 (Z.max (ip_m (ix_params (vx_def ix))) 2))) in
  (r, Z.to_nat (Z.min 16 (f64_as_usize (f_floor F64 (f_mul F64 (f_neg F64 (ln u)) ml))))).

Definition insert (ix : VectorIndex) (vid : Z) (vector : list Z) : option VectorIndex :=
  match by_vid ix !! vid with
  | Some _ => Some ix
  | None =>
      let '(r, level) := random_level ix in
      let idx := length (vx_nodes ix) in
      let node := mkNode vid vector (replicate (S level) []) false false in
      let ix := mkIndex (vx_def ix) (vx_nodes ix ++ [node]) (<[vid := idx]> (by_vid ix)) (vx_entry ix)
                  (max_level ix) r (dead_count ix) (rebuild_floor ix) in
      match vx_entry ix with
      | None => Some (with_top (Some idx) level ix)
      | Some entry =>
          ix ← link_new_node ix idx entry level;
          Some (if (max_level ix <? level)%nat then with_top (Some idx) level ix else ix)
      end
  end.
End Insert.

(** ** Pages *)

Definition PAGE_CAP : Z := 4096.
Definition PAGE_MAGIC : bytes := list_byte_of_string "TWIVIDX1".

Record VectorPageHeader := mkHeader {
  h_metric : Metric;
  h_dim : Z;
  h_node_count : Z;
  h_entry : option Z;
  h_max_level : Z;
  h_reflected_lsn : Z;
  h_dead_count : Z;
  h_rebuild_floor : Z;
  h_num_body_pages : Z;
  h_name : string
}.

(** A read past the end is [None] whatever was read before. *)
Definition Read : Type → Type := Parser unit.
Definition r_u32 : Read Z := p_u32 tt.
Definition r_u64 : Read Z := p_u64 tt.

Definition header_fields : Read VectorPageHeader :=
  tag ← p_u8 tt;
  dim ← r_u32; node_count ← r_u64; entry_raw ← r_u64; max_level ← r_u32; reflected_lsn ← r_u64;
  dead_count ← r_u64; rebuild_floor ← r_u64; num_body_pages ← r_u32; name_len ← r_u32;
  name ← p_take tt name_len;
  if utf8_valid name then
    mret (mkHeader (Metric_from_tag tag) dim node_count
            (if entry_raw =? u64_max then None else Some entry_raw) max_level reflected_lsn dead_count
            rebuild_floor num_body_pages (string_of_list_byte name))
  else p_fail tt.

Definition parsed {A} (p : Read A) (bs : bytes) : option A := match p bs with Ok (a, _) => Some a | Err _ => None end.

Definition parse_page_header (frame : bytes) : option VectorPageHeader :=
  if bool_decide (take 8 frame = PAGE_MAGIC) then parsed header_fields (drop 8 frame) else None.

(** [u32::to_le_bytes] of a length cast to [u32] keeps its low half. *)
Definition node_flags (n : Node) : Z := Z.lor (Z.b2z (n_removed n)) (Z.shiftl (Z.b2z (n_dead n)) 1).
Definition layer_bytes (l : list nat) : bytes :=
  u32_le (zlen l) ++ List.concat ((λ nb, u32_le (Z.of_nat nb)) <$> l).
Definition node_bytes (n : Node) : bytes :=
  u64_le (n_vid n) ++ [byte.of_Z (node_flags n)] ++ u32_le (zlen (n_neighbors n)) ++
  List.concat (u32_le <$> n_vector n) ++ List.concat (layer_bytes <$> n_neighbors n).

(** The page being filled and its records. *)
Definition flush (page : bytes) (count : Z) : list bytes := if count =? 0 then [] else [u32_le count ++ page].

Fixpoint pack (dim : nat) (nodes : list Node) (page : bytes) (count : Z) : option (list bytes) :=
  match nodes with
  | [] => Some (flush page count)
  | n :: nodes =>
      if negb (length (n_vector n) =? dim)%nat then None
      else
        let rec := node_bytes n in
        if PAGE_CAP <? zlen rec + 4 then None
        else if PAGE_CAP <? 4 + zlen page + zlen rec
             then rest ← pack dim nodes rec 1; Some (flush page count ++ rest)
             else pack dim nodes (page ++ rec) (count + 1)
  end.

Definition header_bytes (ix : VectorIndex) (dim : nat) (reflected_lsn pages : Z) : bytes :=
  PAGE_MAGIC ++ [Metric_tag (ip_metric (ix_params (vx_def ix)))] ++ u32_le (Z.of_nat dim) ++
  u64_le (zlen (vx_nodes ix)) ++
  u64_le (match vx_entry ix with Some e => Z.of_nat e | None => u64_max end) ++
  u32_le (Z.of_nat (max_level ix)) ++ u64_le reflected_lsn ++ u64_le (dead_count ix) ++ u64_le (rebuild_floor ix) ++
  u32_le pages ++ u32_le (zlen (str_bytes (ix_name (vx_def ix)))) ++ str_bytes (ix_name (vx_def ix)).

Definition to_page_frames (ix : VectorIndex) (reflected_lsn : Z) : option (list bytes) :=
  match vx_nodes ix with
  | [] => None
  | n :: _ =>
      let dim := length (n_vector n) in
      body ← pack dim (vx_nodes ix) [] 0;
      let header := header_bytes ix dim reflected_lsn (zlen body) in
      if PAGE_CAP <? zlen header then None else Some (header :: body)
  end.

(** [for _ in 0..n { … }]. *)
Definition r_layer : Read (list nat) := deg ← r_u32; l ← p_rep (Z.to_nat deg) r_u32; mret (Z.to_nat <$> l).
Definition r_node (dim : nat) : Read Node :=
  vid ← r_u64;
  flags ← p_u8 tt;
  nlevels ← r_u32;
  vector ← p_rep dim r_u32;
  neighbors ← p_rep (Z.to_nat nlevels) r_layer;
  mret (mkNode vid vector neighbors (Z.testbit (bz flags) 0) (Z.testbit (bz flags) 1)).
Definition r_page (dim : nat) : Read (list Node) := count ← r_u32; p_rep (Z.to_nat count) (r_node dim).

(** The map from row versions to nodes and the number of head-deleted ones, over [nodes] from ordinal [i]. *)
Fixpoint index_nodes (i : nat) (nodes : list Node) (m : gmap Z nat) (dead : Z) : gmap Z nat * Z :=
  match nodes with
  | [] => (m, dead)
  | n :: nodes =>
      if n_removed n then index_nodes (S i) nodes m dead
      else index_nodes (S i) nodes (<[n_vid n := i]> m) (if n_dead n then dead + 1 else dead)
  end.

Definition from_page_frames (def : IndexDef) (frames : list bytes) : option VectorIndex :=
  match frames with
  | [] => None
  | first :: body =>
      header ← parse_page_header first;
      if negb (h_num_body_pages header + 1 =? zlen frames) then None
      else if negb (bool_decide (h_metric header = ip_metric (ix_params def))) then None
      else
        pages ← mapM (parsed (r_page (Z.to_nat (h_dim header)))) body;
        let nodes := List.concat pages in
        if negb (zlen nodes =? h_node_count header) then None
        else
          let '(m, dead) := index_nodes 0 nodes ∅ 0 in
          if negb (dead =? h_dead_count header) then None
          else Some (mkIndex def nodes m (Z.to_nat <$> h_entry header) (Z.to_nat (h_max_level header)) SEED dead
                       (h_rebuild_floor header))
  end.

(** [load_index_pages] (db.rs): [get] reads the newest version of a page. *)
Definition load_index_pages (get : Z → option bytes) (def : IndexDef) (committed : Z) : option VectorIndex :=
  let region := index_page_region (ix_name def) in
  header ← get region;
  hdr ← parse_page_header header;
  if negb (eq_ignore_ascii_case (h_name hdr) (ix_name def)) || negb (h_reflected_lsn hdr =? committed) then None
  else
    body ← mapM (λ i, get (region + 1 + Z.of_nat i)) (seq 0 (Z.to_nat (h_num_body_pages hdr)));
    from_page_frames def (header :: body).

(** ** The index behind the interfaces of the store and the executor *)

(** The calls that reach an index in the engine find its nodes ([HnswSpec]); a panic would leave it as it was. *)
#[export] Instance Hnsw_ops (h : Host) : VectorIndexOps VectorIndex := {
  vi_new := VectorIndex_new;
  vi_def := vx_def;
  vi_insert ix vid v := default ix (insert (f64_ln h) ix vid v);
  vi_mark_dead ix vid := default ix (mark_dead ix vid);
  vi_remove ix vid := default ix (remove ix vid);
  vi_needs_maintenance := needs_maintenance;
  vi_rebuild_floor := rebuild_floor;
  vi_set_rebuild_floor := set_rebuild_floor;
  vi_to_page_frames := to_page_frames
}.

#[export] Instance Hnsw_search : VectorSearch VectorIndex := {
  vi_len := index_len;
  vi_live_len := live_len;
  vi_search ix q k ef := default [] (search ix q k ef)
}.
