(* ===== verification/HnswSpec.v ===== *)
(** * What the vector index promises

    The graph is an implementation of a finite map from row versions to vectors: every sequence of insertions,
    tombstones and delete marks keeps it well formed, without a panic.  A node is present until it is removed; a
    present node whose row version is deleted at the head is dead, and live otherwise.  A search returns distinct
    present entries of the map, dead ones included, with their distances, nearest first; one as wide as the graph
    returns the nearest of all that are reachable in the bottom layer from where the descent ends. *)

From S2P Require Import Prelude Text EngineTypes Float Expr Funcs Wal MvccStore Hnsw.

(** ** The order of candidates *)

Definition before (a b : Scored) : Prop :=
  total_key (s_dist a) < total_key (s_dist b) ∨
  (total_key (s_dist a) = total_key (s_dist b) ∧ (s_idx a ≤ s_idx b)%nat).

Lemma nearer_before a b : nearer a b = true ↔ before a b.
Proof.
  unfold nearer, scored_cmp, before. destruct (Z.compare_spec (total_key (s_dist a)) (total_key (s_dist b))).
  - destruct (Nat.compare_spec (s_idx a) (s_idx b)); split; try done; lia.
  - split; [by left|done].
  - split; [done|lia].
Qed.

Lemma push_perm (le : Scored → Scored → bool) x l : push_by le x l ≡ₚ x :: l.
Proof.
  induction l as [|y l IH]; cbn; [done|]. destruct (le x y); [done|]. rewrite IH. apply Permutation_swap.
Qed.

Lemma push_sorted (le : Scored → Scored → bool) (R : Scored → Scored → Prop) x l :
  (∀ a b, le a b = true ↔ R a b) → (∀ a b, R a b ∨ R b a) → (∀ a b c, R a b → R b c → R a c) →
  StronglySorted R l → StronglySorted R (push_by le x l).
Proof.
  intros HR Ht Htr. induction 1 as [|y l Hs IH Hy]; cbn; [by repeat constructor|].
  destruct (le x y) eqn:E.
  - apply HR in E. constructor; [by constructor|]. constructor; [done|]. eapply Forall_impl; [exact Hy|]. eauto.
  - constructor; [done|]. rewrite push_perm. constructor; [|done]. destruct (Ht x y) as [H|H]; [|done].
    apply HR in H. congruence.
Qed.

Lemma push_near_sorted x l : StronglySorted before l → StronglySorted before (push_near x l).
Proof.
  apply push_sorted; [apply nearer_before| |]; unfold before; intros; lia.
Qed.

Lemma push_far_sorted x l : StronglySorted (flip before) l → StronglySorted (flip before) (push_far x l).
Proof.
  apply push_sorted; [intros a b; apply nearer_before| |]; unfold flip, before; intros; lia.
Qed.

Lemma sort_scored_perm l : sort_scored l ≡ₚ l.
Proof. induction l as [|x l IH]; cbn; [done|]. unfold push_near. by rewrite push_perm, IH. Qed.

Lemma sort_scored_sorted l : StronglySorted before (sort_scored l).
Proof. induction l as [|x l IH]; cbn; [constructor|]. by apply push_near_sorted. Qed.

(** ** Search of a layer *)

Definition in_range (ix : VectorIndex) (i : nat) : Prop := (i < length (vx_nodes ix))%nat.

(** Every edge leads to a node. *)
Definition edges_ok (ix : VectorIndex) : Prop :=
  ∀ i n lvl, vx_nodes ix !! i = Some n → Forall (in_range ix) (level_list n lvl).

(** [j] is a neighbour of [i] in the layer. *)
Definition edge (ix : VectorIndex) (lvl i j : nat) : Prop :=
  ∃ n, vx_nodes ix !! i = Some n ∧ j ∈ level_list n lvl.

Lemma dist_in_range ix q i : in_range ix i → ∃ d, dist ix q i = Some d.
Proof. intros [n Hn]%lookup_lt_is_Some. unfold dist. rewrite Hn. eauto. Qed.

Section Layer.
Variable ix : VectorIndex.
Variable q : list Z.
Variable ef : Z.
Hypothesis Hedges : edges_ok ix.

Definition scored_ok (s : Scored) : Prop := in_range ix (s_idx s) ∧ dist ix q (s_idx s) = Some (s_dist s).

Record search_inv (s : Search) : Prop := {
  si_seen i : i ∈ visited s → in_range ix i;
  si_candidates : Forall (λ c, scored_ok c ∧ s_idx c ∈ visited s) (candidates s);
  si_found : Forall (λ c, scored_ok c ∧ s_idx c ∈ visited s) (found s);
  si_nodup : NoDup (s_idx <$> found s);
  si_sorted : StronglySorted (flip before) (found s);
  si_width : zlen (found s) ≤ Z.max 1 ef
}.

(** Candidates left and nodes not seen: what bounds the loop. *)
Definition measure (s : Search) : nat := length (vx_nodes ix) - size (visited s) + length (candidates s).

Lemma size_seen (X : gset nat) : (∀ i, i ∈ X → in_range ix i) → (size X ≤ length (vx_nodes ix))%nat.
Proof.
  intros H. etrans; [apply (subseteq_size X (list_to_set (seq 0 (length (vx_nodes ix)))))|].
  - intros i Hi. apply elem_of_list_to_set, elem_of_seq. specialize (H i Hi). unfold in_range in H. lia.
  - rewrite size_list_to_set by apply NoDup_seq. by rewrite length_seq.
Qed.

Lemma seen_more (l : list Scored) (X Y : gset nat) : X ⊆ Y →
  Forall (λ c, scored_ok c ∧ s_idx c ∈ X) l → Forall (λ c, scored_ok c ∧ s_idx c ∈ Y) l.
Proof. intros HX H. eapply Forall_impl; [exact H|]. intros c [H1 H2]. split; [done|]. set_solver. Qed.

Lemma visit_inv s nb : search_inv s → in_range ix nb →
  ∃ s', visit ix q ef s nb = Some s' ∧ search_inv s' ∧ (measure s' ≤ measure s)%nat ∧
    visited s' = {[nb]} ∪ visited s ∧
    (length (candidates s') = length (candidates s) ∨ (length (candidates s') = S (length (candidates s)))%nat).
Proof.
  intros [H1 H2 H3 H4 H5 H6] Hnb. unfold visit. case_bool_decide as Hin.
  { exists s. split; [done|]. split; [done|]. split; [done|]. split; [set_solver|by left]. }
  destruct (dist_in_range ix q nb Hnb) as [d Hd]. rewrite Hd. cbn [mbind option_bind].
  set (seen := {[nb]} ∪ visited s). set (x := mkScored d nb).
  assert (visited s ⊆ seen) as Hsub by set_solver. assert (nb ∈ seen) as Hx by set_solver.
  assert (∀ i, i ∈ seen → in_range ix i) as Hseen by set_solver.
  assert (size seen = S (size (visited s))) as Hsize.
  { unfold seen. rewrite size_union by set_solver. by rewrite size_singleton. }
  pose proof (size_seen _ Hseen) as Hle. assert (scored_ok x) as Hsx by done.
  destruct (f_ltb _ _ _ || _).
  - eexists. split; [reflexivity|]. split; [|split; [|split; [done|right]]].
    + assert (Forall (λ c, scored_ok c ∧ s_idx c ∈ seen) (push_far x (found s))) as Hfar.
      { unfold push_far. rewrite push_perm. constructor; [done|]. by apply (seen_more _ (visited s)). }
      assert (NoDup (s_idx <$> push_far x (found s))) as Hnd.
      { unfold push_far. rewrite push_perm. cbn. constructor; [|done]. intros (c & E & Hc)%list_elem_of_fmap.
        rewrite Forall_forall in H3. apply H3 in Hc as [_ Hc]. by rewrite <- E in Hc. }
      assert (zlen (push_far x (found s)) = zlen (found s) + 1) as Hz.
      { unfold zlen, push_far. rewrite push_perm. cbn. lia. }
      pose proof (push_far_sorted x _ H5) as Hs.
      constructor; cbn [visited candidates found]; [done| | | | |].
      * unfold push_near. rewrite push_perm. constructor; [done|]. by apply (seen_more _ (visited s)).
      * destruct (Z.ltb_spec ef (zlen (push_far x (found s)))); [|done].
        destruct (push_far x (found s)); [constructor|by inversion Hfar].
      * destruct (Z.ltb_spec ef (zlen (push_far x (found s)))); [|done].
        destruct (push_far x (found s)); [constructor|by inversion Hnd].
      * destruct (Z.ltb_spec ef (zlen (push_far x (found s)))); [|done].
        destruct (push_far x (found s)); [constructor|by inversion Hs].
      * destruct (Z.ltb_spec ef (zlen (push_far x (found s)))); [|lia].
        destruct (push_far x (found s)) eqn:E; cbn [List.tl]; [rewrite zlen_nil; lia|]. rewrite zlen_cons in Hz. lia.
    + unfold measure. cbn [visited candidates]. rewrite Hsize. unfold push_near. rewrite push_perm. cbn [length]. lia.
    + cbn. unfold push_near. by rewrite push_perm.
  - eexists. split; [reflexivity|]. split; [|split; [|split; [done|by left]]].
    + constructor; cbn [visited candidates found]; try done; by apply (seen_more _ (visited s)).
    + unfold measure. cbn [visited candidates]. lia.
Qed.

Lemma visit_all_inv nbs s : search_inv s → Forall (in_range ix) nbs →
  ∃ s', visit_all ix q ef s nbs = Some s' ∧ search_inv s' ∧ (measure s' ≤ measure s)%nat ∧
    (∀ i, i ∈ visited s' ↔ i ∈ nbs ∨ i ∈ visited s).
Proof.
  intros Hs Hn. revert s Hs. induction Hn as [|nb nbs Hnb _ IH]; intros s Hs; cbn [visit_all].
  - exists s. split_and!; try done. set_solver.
  - destruct (visit_inv s nb Hs Hnb) as (s1 & -> & Hs1 & Hm1 & Hv1 & _). cbn [mbind option_bind].
    destruct (IH s1 Hs1) as (s2 & -> & Hs2 & Hm2 & Hv2). exists s2. split_and!; [done|done|lia|]. set_solver.
Qed.

Lemma search_go_total fuel lvl s : search_inv s → (measure s < fuel)%nat →
  ∃ r, search_go ix q ef fuel lvl s = Some r ∧ Forall scored_ok r ∧ NoDup (s_idx <$> r) ∧ zlen r ≤ Z.max 1 ef.
Proof.
  revert s. induction fuel as [|fuel IH]; intros s Hs Hm; [lia|]. cbn [search_go].
  assert (∃ r, Some (found s) = Some r ∧ Forall scored_ok r ∧ NoDup (s_idx <$> r) ∧ zlen r ≤ Z.max 1 ef) as Hdone.
  { destruct Hs. exists (found s). split_and!; try done. eapply Forall_impl; [eassumption|]. by intros ? []. }
  destruct (candidates s) as [|c cs] eqn:Ec; [done|]. destruct (_ && _); [done|].
  pose proof (si_candidates _ Hs) as Hc. rewrite Ec in Hc. inversion Hc as [|?? [[Hr _] Hv] Hcs]; subst.
  destruct (lookup_lt_is_Some_2 _ _ Hr) as [n Hn]. unfold neighbors. rewrite Hn. cbn [mbind option_bind].
  destruct (visit_all_inv (level_list n lvl) (mkSearch (visited s) cs (found s))) as (s2 & -> & Hs2 & Hm2 & _).
  - destruct Hs. by constructor.
  - by apply Hedges with (i := s_idx c).
  - cbn [mbind option_bind]. apply IH; [done|]. unfold measure in *. cbn [visited candidates] in Hm2.
    rewrite Ec in Hm. cbn [length] in Hm. lia.
Qed.

Lemma start_inv ep d : in_range ix ep → dist ix q ep = Some d →
  search_inv (mkSearch {[ep]} [mkScored d ep] [mkScored d ep]).
Proof.
  intros Hep Hd. constructor; cbn.
  - set_solver.
  - constructor; [|constructor]. split; [done|set_solver].
  - constructor; [|constructor]. split; [done|set_solver].
  - apply NoDup_singleton.
  - by repeat constructor.
  - unfold zlen. cbn. lia.
Qed.

Lemma search_layer_total ep lvl : in_range ix ep →
  ∃ r, search_layer ix q ef ep lvl = Some r ∧ Forall scored_ok r ∧ NoDup (s_idx <$> r) ∧ StronglySorted before r ∧
    zlen r ≤ Z.max 1 ef.
Proof.
  intros Hep. destruct (dist_in_range ix q ep Hep) as [d Hd]. unfold search_layer. rewrite Hd. cbn [mbind option_bind].
  destruct (search_go_total (S (length (vx_nodes ix))) lvl (mkSearch {[ep]} [mkScored d ep] [mkScored d ep]))
    as (r & -> & H1 & H2 & H3).
  - by apply start_inv.
  - unfold measure. cbn. rewrite size_singleton. unfold in_range in Hep. lia.
  - cbn [mbind option_bind]. exists (sort_scored r). split; [done|]. pose proof (sort_scored_sorted r). unfold zlen in *.
    split_and!; [by rewrite sort_scored_perm..|done|by rewrite sort_scored_perm].
Qed.

End Layer.

(** ** A search as wide as the graph *)

Section Wide.
Variable ix : VectorIndex.
Variable q : list Z.
Variable ef : Z.
Hypothesis Hedges : edges_ok ix.
Hypothesis Hwide : zlen (vx_nodes ix) ≤ ef.

(** Every node seen was kept, and was expanded unless it is a candidate or [extra]. *)
Definition expanded (lvl : nat) (extra : list nat) (s : Search) : Prop :=
  (∀ i, i ∈ visited s → i ∈ s_idx <$> found s) ∧
  ∀ i j, i ∈ visited s → edge ix lvl i j → j ∈ visited s ∨ i ∈ s_idx <$> candidates s ∨ i ∈ extra.

Lemma found_le s : search_inv ix q ef s → (length (found s) ≤ size (visited s))%nat.
Proof.
  intros Hs. rewrite <- (length_fmap s_idx (found s)), <- (size_list_to_set (C := gset nat)) by apply (si_nodup _ _ _ _ Hs).
  apply subseteq_size. intros i (c & -> & Hc)%elem_of_list_to_set%list_elem_of_fmap.
  pose proof (si_found _ _ _ _ Hs) as H. rewrite Forall_forall in H. by apply H.
Qed.

Lemma visit_expanded s s' nb lvl extra : search_inv ix q ef s → in_range ix nb → expanded lvl extra s →
  visit ix q ef s nb = Some s' → expanded lvl extra s'.
Proof.
  intros Hs Hnb [Hk He]. unfold visit. case_bool_decide as Hin; [by intros [= <-]|].
  destruct (dist_in_range ix q nb Hnb) as [d ->]. cbn [mbind option_bind].
  assert (S (size (visited s)) ≤ length (vx_nodes ix))%nat as Hroom.
  { pose proof (size_seen ix ({[nb]} ∪ visited s)) as H. rewrite size_union, size_singleton in H by set_solver. apply H.
    intros i [->%elem_of_singleton|Hi]%elem_of_union; [done|by apply (si_seen _ _ _ _ Hs)]. }
  pose proof (found_le s Hs) as Hf. unfold zlen in *.
  rewrite (proj2 (Z.ltb_lt (Z.of_nat (length (found s))) ef)) by lia. rewrite orb_true_r. unfold push_far.
  rewrite (proj2 (Z.ltb_ge ef (Z.of_nat (length (push_by _ _ _))))) by (rewrite push_perm; cbn; lia).
  intros [= <-]. split; cbn [visited candidates found].
  - intros i [->%elem_of_singleton|Hi]%elem_of_union; rewrite push_perm; cbn; set_solver.
  - intros i j [->%elem_of_singleton|Hi]%elem_of_union Hj; unfold push_near; rewrite push_perm; cbn [fmap list_fmap s_idx].
    + right. left. set_solver.
    + destruct (He i j Hi Hj) as [H|[H|H]]; set_solver.
Qed.

Lemma visit_all_expanded nbs s s' lvl extra : search_inv ix q ef s → Forall (in_range ix) nbs → expanded lvl extra s →
  visit_all ix q ef s nbs = Some s' → expanded lvl extra s'.
Proof.
  intros Hs Hn. revert s Hs. induction Hn as [|nb nbs Hnb _ IH]; intros s Hs He; cbn [visit_all]; [by intros [= <-]|].
  destruct (visit_inv ix q ef Hedges s nb Hs Hnb) as (s1 & E & Hs1 & _). rewrite E. cbn [mbind option_bind].
  apply IH; [done|]. exact (visit_expanded _ _ _ _ _ Hs Hnb He E).
Qed.

Lemma wide_complete ep lvl (r : list Scored) : NoDup (s_idx <$> r) → Forall (scored_ok ix q) r → ef ≤ zlen r →
  ∀ i, rtc (edge ix lvl) ep i → in_range ix ep → i ∈ s_idx <$> r.
Proof.
  intros Hnd Hr Hlen i Hi Hep.
  assert (in_range ix i) as Hri.
  { induction Hi as [|i j k (n & Hn & Hj) _ IH]; [done|]. apply IH. specialize (Hedges i n lvl Hn).
    rewrite Forall_forall in Hedges. by apply Hedges. }
  destruct (decide (i ∈ s_idx <$> r)) as [|Hno]; [done|]. exfalso.
  assert (NoDup (i :: (s_idx <$> r))) as Hnd2 by (by constructor).
  pose proof (size_seen ix (list_to_set (i :: (s_idx <$> r)))) as H. rewrite size_list_to_set in H by done.
  cbn [length] in H. rewrite length_fmap in H. unfold zlen in *.
  assert (S (length r) ≤ length (vx_nodes ix))%nat; [|lia]. apply H.
  intros x [->|(c & -> & Hc)%list_elem_of_fmap]%elem_of_list_to_set%elem_of_cons; [done|].
  rewrite Forall_forall in Hr. by apply Hr.
Qed.

Lemma search_go_wide fuel lvl s r ep : search_inv ix q ef s → expanded lvl [] s → ep ∈ visited s → in_range ix ep →
  search_go ix q ef fuel lvl s = Some r → ∀ i, rtc (edge ix lvl) ep i → i ∈ s_idx <$> r.
Proof.
  revert s. induction fuel as [|fuel IH]; intros s Hs He Hep Hrep; [done|]. cbn [search_go].
  destruct (candidates s) as [|c cs] eqn:Ec.
  { intros [= <-] i Hi. destruct He as [Hk He]. apply Hk. clear IH. induction Hi as [|i j k Hj _ IHi]; [done|]. apply IHi.
    - destruct (He i j Hep Hj) as [H|[H|H]]; [done|by rewrite Ec in H; apply elem_of_nil in H|by apply elem_of_nil in H].
    - destruct Hj as (n & Hn & Hj). specialize (Hedges i n lvl Hn). rewrite Forall_forall in Hedges. by apply Hedges. }
  destruct (_ && _) eqn:Eb.
  { intros [= <-] i Hi. apply andb_true_iff in Eb as [_ Eb%Z.leb_le]. destruct Hs.
    eapply wide_complete; [done| |done|done|done]. eapply Forall_impl; [eassumption|]. by intros ? []. }
  pose proof (si_candidates _ _ _ _ Hs) as Hc. rewrite Ec in Hc. inversion Hc as [|?? [[Hr _] Hv] Hcs]; subst.
  destruct (lookup_lt_is_Some_2 _ _ Hr) as [n Hn]. unfold neighbors. rewrite Hn. cbn [mbind option_bind].
  set (s1 := mkSearch (visited s) cs (found s)). assert (search_inv ix q ef s1) as Hs1 by (destruct Hs; by constructor).
  assert (Forall (in_range ix) (level_list n lvl)) as Hnb by (by apply Hedges with (i := s_idx c)).
  destruct (visit_all_inv ix q ef Hedges (level_list n lvl) s1 Hs1 Hnb) as (s2 & E & Hs2 & _ & Hv2). rewrite E.
  cbn [mbind option_bind]. apply IH; [done| |by apply Hv2; right|done].
  assert (expanded lvl [s_idx c] s1) as He1.
  { destruct He as [Hk He]. split; [done|]. intros i j Hi Hj. destruct (He i j Hi Hj) as [H|[H|H]]; [by left| |set_solver].
    rewrite Ec in H. cbn in H. set_solver. }
  destruct (visit_all_expanded _ _ _ _ _ Hs1 Hnb He1 E) as [Hk2 He2]. split; [done|].
  intros i j Hi Hj. destruct (He2 i j Hi Hj) as [H|[H|H]]; [by left|by right; left|]. left.
  apply list_elem_of_singleton in H as ->. destruct Hj as (n' & Hn' & Hj). rewrite Hn in Hn'. injection Hn' as <-.
  apply Hv2. by left.
Qed.
End Wide.

(** What a search finds is reachable. *)
Lemma search_go_reach ix q ef fuel lvl s r ep : edges_ok ix → search_inv ix q ef s →
  (∀ i, i ∈ visited s → rtc (edge ix lvl) ep i) → search_go ix q ef fuel lvl s = Some r →
  ∀ i, i ∈ s_idx <$> r → rtc (edge ix lvl) ep i.
Proof.
  intros Hedges. revert s. induction fuel as [|fuel IH]; intros s Hs Hr; [done|]. cbn [search_go].
  assert (∀ i, i ∈ s_idx <$> found s → rtc (edge ix lvl) ep i) as Hdone.
  { intros i (c & -> & Hc)%list_elem_of_fmap. apply Hr. pose proof (si_found _ _ _ _ Hs) as H.
    rewrite Forall_forall in H. by apply H. }
  destruct (candidates s) as [|c cs] eqn:Ec; [by intros [= <-]|]. destruct (_ && _); [by intros [= <-]|].
  pose proof (si_candidates _ _ _ _ Hs) as Hc. rewrite Ec in Hc. inversion Hc as [|?? [[Hrange _] Hv] Hcs]; subst.
  destruct (lookup_lt_is_Some_2 _ _ Hrange) as [n Hn]. unfold neighbors. rewrite Hn. cbn [mbind option_bind].
  destruct (visit_all_inv ix q ef Hedges (level_list n lvl) (mkSearch (visited s) cs (found s)))
    as (s2 & -> & Hs2 & _ & Hv2); [destruct Hs; by constructor|by apply Hedges with (i := s_idx c)|].
  cbn [mbind option_bind]. apply IH; [done|]. intros i [Hi|Hi]%Hv2; [|by apply Hr].
  eapply rtc_r; [by apply Hr|]. by exists n.
Qed.

Lemma search_layer_wide ix q ef ep lvl r : edges_ok ix → in_range ix ep → zlen (vx_nodes ix) ≤ ef →
  search_layer ix q ef ep lvl = Some r → ∀ i, i ∈ s_idx <$> r ↔ rtc (edge ix lvl) ep i.
Proof.
  intros Hedges Hep Hw. unfold search_layer. destruct (dist_in_range ix q ep Hep) as [d Hd]. rewrite Hd.
  cbn [mbind option_bind]. destruct (search_go _ _ _ _ _ _) as [r'|] eqn:E; [|done]. cbn [mbind option_bind].
  intros [= <-] i. rewrite sort_scored_perm. pose proof (start_inv ix q ef Hedges ep d Hep Hd) as Hs. split.
  - revert i. apply (search_go_reach _ _ _ _ _ _ _ _ Hedges Hs) with (2 := E). cbn. intros i ->%elem_of_singleton. done.
  - intros Hi. eapply (search_go_wide ix q ef Hedges Hw); [exact Hs| | |exact Hep|exact E|exact Hi]; [|set_solver].
    split; cbn; [set_solver|]. intros j k Hj _. right. left. set_solver.
Qed.

(** ** Well-formed indexes *)

Definition counts_dead (n : Node) : bool := negb (n_removed n) && n_dead n.

Record wf (ix : VectorIndex) : Prop := {
  wf_entry : match vx_entry ix with None => vx_nodes ix = [] | Some e => in_range ix e end;
  wf_edges : edges_ok ix;
  wf_degree i n lvl : vx_nodes ix !! i = Some n →
    NoDup (level_list n lvl) ∧ i ∉ level_list n lvl ∧ zlen (level_list n lvl) ≤ degree_cap ix lvl;
  wf_vids v i : by_vid ix !! v = Some i ↔ ∃ n, vx_nodes ix !! i = Some n ∧ n_vid n = v ∧ n_removed n = false;
  wf_dead : dead_count ix = zlen (List.filter counts_dead (vx_nodes ix))
}.

(** The finite map the index implements: row versions and their vectors. *)
Definition contents (ix : VectorIndex) : gmap Z (list Z) := omap (λ i, n_vector <$> vx_nodes ix !! i) (by_vid ix).

Lemma map_lookup ix v x : wf ix → contents ix !! v = Some x ↔
  ∃ i n, vx_nodes ix !! i = Some n ∧ n_vid n = v ∧ n_removed n = false ∧ n_vector n = x.
Proof.
  intros Hwf. unfold contents. rewrite lookup_omap. destruct (by_vid ix !! v) as [i|] eqn:E; cbn.
  - pose proof (proj1 (wf_vids _ Hwf v i) E) as (n & Hn & Hv & Hr). rewrite Hn. cbn. split.
    + intros [= <-]. eauto 6.
    + intros (j & n' & Hn' & Hv' & Hr' & <-). assert (by_vid ix !! v = Some j) as E' by (apply (wf_vids _ Hwf); eauto).
      congruence.
  - split; [done|]. intros (j & n' & Hn' & Hv' & Hr' & <-).
    assert (by_vid ix !! v = Some j) as E' by (apply (wf_vids _ Hwf); eauto). congruence.
Qed.

(** Row versions of present nodes marked as deleted: the dead ones. *)
Definition dead_vids (ix : VectorIndex) : gset Z := list_to_set (n_vid <$> List.filter counts_dead (vx_nodes ix)).

(** ** Search *)

Lemma descend_total ix q stop l ep : edges_ok ix → in_range ix ep →
  ∃ ep', descend ix q stop l ep = Some ep' ∧ in_range ix ep'.
Proof.
  intros Hedges. revert ep. induction l as [|l IH]; intros ep Hep; cbn [descend]; [eauto|].
  destruct (stop <? S l)%nat; [|eauto].
  destruct (search_layer_total ix q 1 Hedges ep (S l) Hep) as (r & -> & Hr & _). cbn [mbind option_bind]. apply IH.
  destruct Hr as [|s r [Hs _] _]; done.
Qed.

(** What a search keeps of a candidate: its row version unless the node was removed; dead nodes are kept. *)
Definition present_of (ix : VectorIndex) (s : Scored) : option (Z * Z) :=
  n ← vx_nodes ix !! s_idx s; if n_removed n then None else Some (n_vid n, s_dist s).

Lemma collect_take ix k l : Forall (λ s, in_range ix (s_idx s)) l → collect ix k l = Some (take k (omap (present_of ix) l)).
Proof.
  intros H. revert k. induction H as [|s l Hs _ IH]; intros k; [by destruct k|].
  destruct k as [|k]; [done|]. destruct (lookup_lt_is_Some_2 _ _ Hs) as [n Hn]. cbn [collect omap list_omap].
  unfold present_of at 1. rewrite Hn. cbn [mbind option_bind]. destruct (n_removed n); [apply IH|].
  rewrite IH. done.
Qed.

(** From layer [l] down to the bottom, a search for the one nearest node of each layer: it moves along the layer's
    edges and never away from the query. *)
Definition not_farther (ix : VectorIndex) (q : list Z) (i j : nat) : Prop :=
  ∃ d e, dist ix q i = Some d ∧ dist ix q j = Some e ∧ total_key d ≤ total_key e.
Inductive descends (ix : VectorIndex) (q : list Z) : nat → nat → nat → Prop :=
| descends_bottom ep : descends ix q 0 ep ep
| descends_layer l ep ep1 ep2 :
    rtc (edge ix (S l)) ep ep1 → not_farther ix q ep1 ep → descends ix q l ep1 ep2 → descends ix q (S l) ep ep2.

(** With room for one, what is found is one node, and never farther than before. *)
Definition one_within (key : Z) (s : Search) : Prop := ∃ x, found s = [x] ∧ total_key (s_dist x) ≤ key.

Lemma visit_one ix q s s' nb key : one_within key s → visit ix q 1 s nb = Some s' → one_within key s'.
Proof.
  intros (x & Hx & Hk). unfold visit. case_bool_decide; [intros [= <-]; by exists x|].
  destruct (dist ix q nb) as [d|]; [|done]. cbn [mbind option_bind]. rewrite Hx. destruct (_ || _).
  - unfold push_far. cbn [push_by]. intros [= <-]. unfold one_within. cbn [found].
    destruct (nearer x (mkScored d nb)) eqn:E; cbn; [by exists x|]. eexists. split; [done|]. cbn.
    assert (¬ before x (mkScored d nb)) as Hb by (rewrite <- nearer_before, E; done). unfold before in Hb. cbn in Hb. lia.
  - intros [= <-]. by exists x.
Qed.

Lemma visit_all_one ix q nbs s s' key : one_within key s → visit_all ix q 1 s nbs = Some s' → one_within key s'.
Proof.
  revert s. induction nbs as [|nb nbs IH]; intros s Hs; cbn [visit_all]; [by intros [= <-]|].
  destruct (visit ix q 1 s nb) as [s1|] eqn:E; [|done]. cbn [mbind option_bind]. apply IH. by eapply visit_one.
Qed.

Lemma search_go_one ix q fuel lvl s r key : one_within key s → search_go ix q 1 fuel lvl s = Some r →
  ∃ x, r = [x] ∧ total_key (s_dist x) ≤ key.
Proof.
  revert s. induction fuel as [|fuel IH]; intros s Hs; [done|]. cbn [search_go]. destruct (candidates s) as [|c cs].
  { intros [= <-]. exact Hs. }
  destruct (_ && _); [intros [= <-]; exact Hs|]. destruct (neighbors ix (s_idx c) lvl) as [nbs|]; [|done]. cbn [mbind option_bind].
  destruct (visit_all ix q 1 _ nbs) as [s1|] eqn:E; [|done]. cbn [mbind option_bind]. apply IH.
  by eapply (visit_all_one _ _ _ (mkSearch (visited s) cs (found s))).
Qed.

Lemma search_layer_one ix q ep lvl r : edges_ok ix → in_range ix ep → search_layer ix q 1 ep lvl = Some r →
  ∃ x, r = [x] ∧ rtc (edge ix lvl) ep (s_idx x) ∧ not_farther ix q (s_idx x) ep.
Proof.
  intros He Hep E. destruct (search_layer_total ix q 1 He ep lvl Hep) as (r' & E' & Hok & _). rewrite E in E'. injection E' as <-.
  revert E. unfold search_layer. destruct (dist_in_range ix q ep Hep) as [d Hd]. rewrite Hd. cbn [mbind option_bind].
  destruct (search_go _ _ _ _ _ _) as [r'|] eqn:E; [|done]. cbn [mbind option_bind]. intros [= <-].
  assert (one_within (total_key d) (mkSearch {[ep]} [mkScored d ep] [mkScored d ep])) as Hone by (by eexists).
  pose proof (search_go_reach _ _ _ _ _ _ _ ep He (start_inv ix q 1 He ep d Hep Hd) ltac:(cbn; intros i ->%elem_of_singleton; done) E) as Hr.
  destruct (search_go_one _ _ _ _ _ _ _ Hone E) as (x & -> & Hk). exists x. split_and!; [done|apply Hr; set_solver|].
  cbn in Hok. apply Forall_inv in Hok as [_ Hx]. by eexists _, _.
Qed.

Lemma descend_descends ix q l ep ep' : edges_ok ix → in_range ix ep → descend ix q 0 l ep = Some ep' → descends ix q l ep ep'.
Proof.
  intros He. revert ep. induction l as [|l IH]; intros ep Hep; cbn [descend]; [intros [= <-]; constructor|].
  rewrite (proj2 (Nat.ltb_lt 0 (S l))) by lia.
  destruct (search_layer_total ix q 1 He ep (S l) Hep) as (r & E & Hok & _). rewrite E. cbn [mbind option_bind].
  destruct (search_layer_one _ _ _ _ _ He Hep E) as (x & -> & Hr & Hn). cbn [step_to]. intros Hd.
  econstructor; [exact Hr|exact Hn|]. apply IH; [|done]. by apply Forall_inv in Hok as [? _].
Qed.

Lemma search_unfold ix q k ef entry : edges_ok ix → vx_entry ix = Some entry → in_range ix entry → 0 < k →
  ∃ ep r, (descend ix q 0 (max_level ix) entry = Some ep ∧ in_range ix ep) ∧
    search_layer ix q (search_width ix k ef) ep 0 = Some r ∧
    Forall (scored_ok ix q) r ∧ NoDup (s_idx <$> r) ∧ StronglySorted before r ∧
    search ix q k ef = Some (take (Z.to_nat k) (omap (present_of ix) r)).
Proof.
  intros He Hen Hin Hk. unfold search. rewrite Hen, (proj2 (Z.eqb_neq k 0)) by lia.
  destruct (descend_total ix q 0 (max_level ix) entry He Hin) as (ep & Ed & Hep). rewrite Ed. cbn [mbind option_bind].
  destruct (search_layer_total ix q (search_width ix k ef) He ep 0 Hep) as (r & E & H1 & H2 & H3 & _).
  rewrite E. cbn [mbind option_bind]. exists ep, r. split_and!; try done. apply collect_take.
  eapply Forall_impl; [exact H1|]. by intros ? [].
Qed.

(** ** Linking *)

Lemma set_layer_lookup lvl l ls k :
  default [] (set_layer lvl l ls !! k) = if decide (k = lvl) then l else default [] (ls !! k).
Proof.
  revert ls k. induction lvl as [|lvl IH]; intros [|x ls] [|k]; try done.
  - change (default [] (set_layer lvl l [] !! k) = if decide (S k = S lvl) then l else []). rewrite IH.
    by repeat case_decide; try lia.
  - change (default [] (set_layer lvl l ls !! k) = if decide (S k = S lvl) then l else default [] (ls !! k)). rewrite IH.
    by repeat case_decide; try lia.
Qed.

(** Only edges differ. *)
Definition same_point (a b : Node) : Prop :=
  n_vid a = n_vid b ∧ n_vector a = n_vector b ∧ n_removed a = n_removed b ∧ n_dead a = n_dead b.
Definition relinked (ix0 ix : VectorIndex) : Prop :=
  ix = with_nodes (vx_nodes ix) ix0 ∧ Forall2 same_point (vx_nodes ix0) (vx_nodes ix).

#[export] Instance relinked_preorder : PreOrder relinked.
Proof.
  split.
  - intros ix. split; [by destruct ix|]. by apply Forall_Forall2_diag, Forall_true.
  - intros a b c [H1 H2] [H3 H4]. split; [rewrite H3, H1; by destruct a|].
    revert H2 H4. generalize (vx_nodes a), (vx_nodes b), (vx_nodes c). clear. intros la lb lc H. revert lc.
    induction H as [|x y la lb Hxy _ IH]; intros lc H; inversion H as [|? z ? lz Hyz Hl]; subst; constructor; [|auto].
    unfold same_point in *. intuition congruence.
Qed.

Lemma relinked_length ix0 ix : relinked ix0 ix → length (vx_nodes ix) = length (vx_nodes ix0).
Proof. intros [_ H]. symmetry. by eapply Forall2_length. Qed.

Lemma relinked_set ix a n ls : vx_nodes ix !! a = Some n →
  relinked ix (with_nodes (<[a := with_neighbors ls n]> (vx_nodes ix)) ix).
Proof.
  intros Hn. split; [done|]. cbn. rewrite <- (list_insert_id (vx_nodes ix) a n Hn) at 1.
  apply Forall2_insert; [|done]. by apply Forall_Forall2_diag, Forall_true.
Qed.

(** The graph with the degree of node [i] in layer [l] bounded by [B i l]. *)
Record graph_ok (B : nat → nat → Z) (ix : VectorIndex) : Prop := {
  go_edges : edges_ok ix;
  go_degree i n l : vx_nodes ix !! i = Some n →
    NoDup (level_list n l) ∧ i ∉ level_list n l ∧ zlen (level_list n l) ≤ B i l
}.

Definition upd (B : nat → nat → Z) (a lvl : nat) (c : Z) : nat → nat → Z :=
  λ i l, if decide (i = a ∧ l = lvl) then c else B i l.

Lemma graph_mono B B' ix : graph_ok B ix → (∀ i l, B i l ≤ B' i l) → graph_ok B' ix.
Proof.
  intros [H1 H2] H. split; [done|]. intros i n l Hn. destruct (H2 i n l Hn) as (? & ? & ?). specialize (H i l).
  split_and!; [done|done|lia].
Qed.

Lemma set_list_ok B ix a n lvl l c : graph_ok B ix → vx_nodes ix !! a = Some n →
  Forall (in_range ix) l → NoDup l → a ∉ l → zlen l ≤ c →
  graph_ok (upd B a lvl c) (with_nodes (<[a := with_neighbors (set_layer lvl l (n_neighbors n)) n]> (vx_nodes ix)) ix).
Proof.
  intros [He Hd] Hn Hl Hnd Ha Hc. set (ix' := with_nodes _ _).
  assert (∀ i, in_range ix' i ↔ in_range ix i) as Hr by (intros i; unfold in_range, ix'; cbn; by rewrite length_insert).
  assert (∀ i n' k, vx_nodes ix' !! i = Some n' → (i = a ∧ k = lvl ∧ level_list n' k = l) ∨
    ¬ (i = a ∧ k = lvl) ∧ ∃ m, vx_nodes ix !! i = Some m ∧ level_list n' k = level_list m k) as Hcase.
  { intros i n' k. unfold ix'. cbn. intros [(<- & <- & _)|[Hne Hi]]%list_lookup_insert_Some.
    - unfold level_list. cbn. rewrite set_layer_lookup. case_decide; [by left|]. right. split; [naive_solver|eauto].
    - right. split; [naive_solver|eauto]. }
  split.
  - intros i n' k Hi. destruct (Hcase i n' k Hi) as [(_ & _ & ->)|(_ & m & Hm & ->)].
    + eapply Forall_impl; [exact Hl|]. intros j. by apply Hr.
    + eapply Forall_impl; [by eapply He|]. intros j. by apply Hr.
  - intros i n' k Hi. unfold upd. destruct (Hcase i n' k Hi) as [(-> & -> & ->)|(Hne & m & Hm & ->)].
    + rewrite decide_True by done. done.
    + rewrite decide_False by done. by apply Hd.
Qed.

Lemma connect_ok B ix a b lvl : graph_ok B ix → in_range ix a → in_range ix b →
  ∃ ix', connect ix a b lvl = Some ix' ∧ relinked ix ix' ∧
    graph_ok (if (a =? b)%nat then B else upd B a lvl (B a lvl + 1)) ix'.
Proof.
  intros HB Ha Hb. unfold connect. destruct (Nat.eqb_spec a b) as [->|Hab]; [by eexists|].
  destruct (lookup_lt_is_Some_2 _ _ Ha) as [n Hn]. rewrite Hn. cbn [mbind option_bind]. eexists. split; [reflexivity|].
  split; [by apply relinked_set|]. pose proof (go_edges _ _ HB a n lvl Hn) as Hed.
  destruct (go_degree _ _ HB a n lvl Hn) as (Hnd & Hself & Hdeg). case_bool_decide as Hin; apply set_list_ok; try done.
  - lia.
  - apply Forall_app. split; [done|by constructor].
  - apply NoDup_app. split; [done|]. split; [|apply NoDup_singleton]. by intros x Hx ->%list_elem_of_singleton.
  - intros [H| ->%list_elem_of_singleton]%elem_of_app; done.
  - rewrite zlen_app, zlen_cons, zlen_nil. lia.
Qed.

Lemma score_all_total ix av l : Forall (in_range ix) l →
  ∃ r, score_all ix av l = Some r ∧ s_idx <$> r = l.
Proof.
  induction 1 as [|i l Hi _ (r & E & IH)]; [by eexists|]. destruct (dist_in_range ix av i Hi) as [d Hd].
  unfold score_all in *. cbn [mapM]. rewrite Hd. cbn [mbind option_bind]. rewrite E. cbn [mbind option_bind].
  eexists. split; [reflexivity|]. cbn. by rewrite IH.
Qed.

Lemma prune_ok B ix a lvl m : graph_ok B ix → in_range ix a → 0 ≤ m →
  ∃ ix', prune ix a lvl m = Some ix' ∧ relinked ix ix' ∧ graph_ok (upd B a lvl (Z.min m (B a lvl))) ix'.
Proof.
  intros HB Ha Hm. unfold prune. destruct (lookup_lt_is_Some_2 _ _ Ha) as [n Hn]. rewrite Hn. cbn [mbind option_bind].
  pose proof (go_edges _ _ HB a n lvl Hn) as Hed. destruct (go_degree _ _ HB a n lvl Hn) as (Hnd & Hself & Hdeg).
  destruct (Z.leb_spec (zlen (level_list n lvl)) m) as [Hle|Hgt].
  - eexists. split; [reflexivity|]. split; [done|]. destruct HB as [H1 H2]. split; [done|]. intros i n' l Hi.
    unfold upd. case_decide as E; [|by apply H2]. destruct E as [-> ->]. rewrite Hn in Hi. injection Hi as <-.
    split_and!; [done|done|lia].
  - destruct (score_all_total ix (n_vector n) _ Hed) as (r & -> & Er). cbn [mbind option_bind].
    eexists. split; [reflexivity|]. split; [by apply relinked_set|].
    assert (s_idx <$> sort_scored r ≡ₚ level_list n lvl) as Hperm by (by rewrite sort_scored_perm, Er).
    assert (s_idx <$> take (Z.to_nat m) (sort_scored r) ⊆ level_list n lvl) as Hsub.
    { rewrite <- Hperm, fmap_take. intros i Hi. apply elem_of_take in Hi as (j & Hj & _). by eapply list_elem_of_lookup_2. }
    apply set_list_ok; try done.
    + rewrite Forall_forall in Hed |- *. intros i Hi. by apply Hed, Hsub.
    + assert (NoDup (s_idx <$> sort_scored r)) as H by (by rewrite Hperm).
      rewrite fmap_take. rewrite <- (take_drop (Z.to_nat m)) in H. by apply NoDup_app in H as [H _].
    + intros Hi. by apply Hself, Hsub.
    + unfold zlen in *. rewrite length_fmap, length_take.
      pose proof (Permutation_length Hperm) as Hl. rewrite length_fmap in Hl. lia.
Qed.

Lemma relinked_range ix0 ix i : relinked ix0 ix → in_range ix i ↔ in_range ix0 i.
Proof. intros H. unfold in_range. by rewrite (relinked_length _ _ H). Qed.

Lemma relinked_cap ix0 ix lvl : relinked ix0 ix → degree_cap ix lvl = degree_cap ix0 lvl.
Proof. intros [-> _]. done. Qed.

Lemma link_found_ok idx lvl m l B ix : graph_ok B ix → in_range ix idx → 0 ≤ m →
  Forall (λ s, in_range ix (s_idx s)) l → (∀ s, s ≠ idx → B s lvl = m) → 0 ≤ B idx lvl →
  ∃ ix', link_found idx lvl m l ix = Some ix' ∧ relinked ix ix' ∧ graph_ok (upd B idx lvl (B idx lvl + zlen l)) ix'.
Proof.
  intros HB Hidx Hm Hl. revert B ix HB Hidx Hl. induction l as [|s l IH]; intros B ix HB Hidx Hl HBm HB0.
  { eexists. split; [reflexivity|]. split; [done|]. eapply graph_mono; [exact HB|]. intros i k. unfold upd.
    case_decide as E; [|done]. destruct E as [-> ->]. rewrite zlen_nil. lia. }
  inversion Hl as [|?? Hs Hl']; subst. cbn [link_found].
  destruct (connect_ok B ix idx (s_idx s) lvl HB Hidx Hs) as (ix1 & -> & R1 & H1). cbn [mbind option_bind].
  destruct (connect_ok _ ix1 (s_idx s) idx lvl H1) as (ix2 & -> & R2 & H2); [by apply (relinked_range ix)..|].
  cbn [mbind option_bind]. assert (relinked ix ix2) as R02 by (by trans ix1).
  destruct (prune_ok _ ix2 (s_idx s) lvl m H2) as (ix3 & -> & R3 & H3); [by apply (relinked_range ix)|done|].
  cbn [mbind option_bind]. assert (relinked ix ix3) as R03 by (by trans ix2).
  destruct (IH (upd B idx lvl (B idx lvl + 1)) ix3) as (ix4 & -> & R4 & H4).
  - eapply graph_mono; [exact H3|]. intros i k. specialize (HBm (s_idx s)).
    destruct (Nat.eqb_spec idx (s_idx s)) as [E|Hne], (Nat.eqb_spec (s_idx s) idx) as [E'|Hne']; try lia.
    + unfold upd. repeat case_decide; destruct_and?; subst; lia.
    + unfold upd. repeat case_decide; destruct_and?; subst; try lia; try naive_solver lia.
  - by apply (relinked_range ix).
  - eapply Forall_impl; [exact Hl'|]. intros x. by apply (relinked_range ix).
  - intros i Hi. unfold upd. rewrite decide_False by naive_solver. by apply HBm.
  - unfold upd. rewrite decide_True by done. lia.
  - exists ix4. split; [done|]. split; [by trans ix3|]. eapply graph_mono; [exact H4|]. intros i k. unfold upd.
    repeat case_decide; destruct_and?; subst; try lia; try naive_solver. rewrite zlen_cons. lia.
Qed.

(** The degrees while the new node is linked into the layers from [lvl] down. *)
Definition pending (ix : VectorIndex) (idx lvl i l : nat) : Z :=
  if decide (i = idx ∧ (l ≤ lvl)%nat) then 0 else degree_cap ix l.

Lemma degree_cap_nonneg ix lvl : 0 ≤ ip_m (ix_params (vx_def ix)) → 0 ≤ degree_cap ix lvl.
Proof. intros H. unfold degree_cap. destruct lvl; [apply Z.mod_pos_bound|]; lia. Qed.

Lemma link_layer_ok q idx lvl ep ix ef : 0 ≤ ip_m (ix_params (vx_def ix)) → in_range ix idx → in_range ix ep →
  graph_ok (pending ix idx lvl) ix →
  ∃ found ix', search_layer ix q ef ep lvl = Some found ∧ in_range ix (step_to ep found) ∧
    link_found idx lvl (degree_cap ix lvl) (take (Z.to_nat (degree_cap ix lvl)) found) ix = Some ix' ∧ relinked ix ix' ∧
    graph_ok (upd (pending ix idx lvl) idx lvl (degree_cap ix lvl)) ix'.
Proof.
  intros Hm Hidx Hep HB. pose proof (degree_cap_nonneg ix lvl Hm) as Hcap.
  destruct (search_layer_total ix q ef (go_edges _ _ HB) ep lvl Hep) as (r & E & Hr & _).
  set (m := degree_cap ix lvl) in *. set (kept := take (Z.to_nat m) r).
  assert (zlen kept ≤ m) as Hkept by (unfold kept, zlen; rewrite length_take; lia).
  destruct (link_found_ok idx lvl m kept (pending ix idx lvl) ix HB Hidx Hcap) as (ix1 & E1 & R1 & H1).
  - apply Forall_take. eapply Forall_impl; [exact Hr|]. by intros ? [].
  - intros s Hs. unfold pending. by rewrite decide_False by naive_solver.
  - unfold pending. by rewrite decide_True by done.
  - exists r, ix1. split; [done|]. split; [by destruct Hr as [|s r [Hs _] _]|]. split_and!; [done|done|].
    eapply graph_mono; [exact H1|]. intros i l. unfold upd. case_decide as D; [|done].
    unfold pending. rewrite decide_True by done. lia.
Qed.

Lemma link_layers_ok q idx lvl ep ix : 0 ≤ ip_m (ix_params (vx_def ix)) → in_range ix idx → in_range ix ep →
  graph_ok (pending ix idx lvl) ix →
  ∃ ix', link_layers q idx lvl ep ix = Some ix' ∧ relinked ix ix' ∧ graph_ok (λ _, degree_cap ix) ix'.
Proof.
  revert ep ix. induction lvl as [|lvl IH]; intros ep ix Hm Hidx Hep HB; cbn [link_layers].
  - destruct (link_layer_ok q idx 0 ep ix (ef_construction (ix_params (vx_def ix))) Hm Hidx Hep HB)
      as (r & ix1 & -> & _ & H & R1 & H1). cbn [mbind option_bind]. rewrite H. cbn [mbind option_bind].
    eexists. split; [reflexivity|]. split; [done|]. eapply graph_mono; [exact H1|].
    intros i l. unfold upd, pending. case_decide as D; [by destruct D as [_ ->]|]. case_decide; [|done].
    by apply degree_cap_nonneg.
  - destruct (link_layer_ok q idx (S lvl) ep ix (ef_construction (ix_params (vx_def ix))) Hm Hidx Hep HB)
      as (r & ix1 & -> & Hstep & H & R1 & H1). cbn [mbind option_bind]. rewrite H. cbn [mbind option_bind].
    destruct (IH (step_to ep r) ix1) as (ix2 & -> & R2 & H2).
    + by destruct R1 as [-> _].
    + by apply (relinked_range ix).
    + by apply (relinked_range ix).
    + eapply graph_mono; [exact H1|]. intros i l. unfold upd, pending. rewrite !(relinked_cap ix ix1) by done.
      case_decide as D1; case_decide as D2; try case_decide as D3; destruct_and?; subst; try lia; try done.
    + exists ix2. split; [done|]. split; [by trans ix1|]. eapply graph_mono; [exact H2|]. intros i l.
      cbn beta. by rewrite (relinked_cap ix ix1).
Qed.

Lemma link_new_node_ok ix idx entry level : 0 ≤ ip_m (ix_params (vx_def ix)) → in_range ix idx → in_range ix entry →
  graph_ok (pending ix idx (Nat.min level (max_level ix))) ix →
  ∃ ix', link_new_node ix idx entry level = Some ix' ∧ relinked ix ix' ∧ graph_ok (λ _, degree_cap ix) ix'.
Proof.
  intros Hm Hidx Hen HB. unfold link_new_node. destruct (lookup_lt_is_Some_2 _ _ Hidx) as [n Hn]. rewrite Hn.
  cbn [mbind option_bind].
  destruct (descend_total ix (n_vector n) level (max_level ix) entry (go_edges _ _ HB) Hen) as (ep & -> & Hep).
  cbn [mbind option_bind]. by apply link_layers_ok.
Qed.

(** ** The operations keep the index well formed *)

(** What linking leaves alone. *)
Lemma relinked_wf ix0 ix : relinked ix0 ix → graph_ok (λ _, degree_cap ix0) ix →
  match vx_entry ix0 with None => vx_nodes ix0 = [] | Some e => in_range ix0 e end →
  (∀ v i, by_vid ix0 !! v = Some i ↔ ∃ n, vx_nodes ix0 !! i = Some n ∧ n_vid n = v ∧ n_removed n = false) →
  dead_count ix0 = zlen (List.filter counts_dead (vx_nodes ix0)) →
  wf ix ∧ contents ix = contents ix0 ∧ dead_vids ix = dead_vids ix0.
Proof.
  intros R [Ge Gd] He Hv Hdead. pose proof (relinked_length _ _ R) as Hlen. destruct R as [E H2].
  assert (by_vid ix = by_vid ix0) as Eb by (rewrite E; done).
  split; [constructor|split].
  - assert (vx_entry ix = vx_entry ix0) as -> by (by rewrite E). destruct (vx_entry ix0); [unfold in_range in *; by rewrite Hlen|].
    apply nil_length_inv. by rewrite Hlen, He.
  - done.
  - intros i n lvl Hn. rewrite (relinked_cap ix0 ix lvl) by done. by apply Gd.
  - intros v i. rewrite Eb, Hv. split; intros (n & Hn & Hvid & Hrem).
    + destruct (Forall2_lookup_l _ _ _ _ _ H2 Hn) as (n' & Hn' & S1 & S2 & S3 & S4). exists n'. intuition congruence.
    + destruct (Forall2_lookup_r _ _ _ _ _ H2 Hn) as (n' & Hn' & S1 & S2 & S3 & S4). exists n'. intuition congruence.
  - assert (dead_count ix = dead_count ix0) as -> by (by rewrite E). rewrite Hdead. clear -H2. unfold zlen. f_equal.
    induction H2 as [|a b la lb (S1 & S2 & S3 & S4) _ IH]; [done|]. cbn.
    assert (counts_dead a = counts_dead b) as -> by (unfold counts_dead; by rewrite S3, S4).
    destruct (counts_dead b); cbn; by rewrite IH.
  - unfold contents. rewrite Eb. apply map_eq. intros v. rewrite !lookup_omap. destruct (by_vid ix0 !! v) as [i|]; [|done].
    cbn. destruct (vx_nodes ix0 !! i) as [n|] eqn:Hn.
    + destruct (Forall2_lookup_l _ _ _ _ _ H2 Hn) as (n' & -> & S1 & S2 & _). cbn. by rewrite S2.
    + rewrite lookup_ge_None_2; [done|]. apply lookup_ge_None_1 in Hn. by rewrite Hlen.
  - unfold dead_vids. f_equal. clear -H2. induction H2 as [|a b la lb (S1 & S2 & S3 & S4) _ IH]; [done|]. cbn.
    assert (counts_dead a = counts_dead b) as -> by (unfold counts_dead; by rewrite S3, S4).
    destruct (counts_dead b); cbn; [by rewrite IH, S1|done].
Qed.

Lemma level_list_replicate k vid v r d lvl : level_list (mkNode vid v (replicate k []) r d) lvl = [].
Proof.
  unfold level_list. cbn. destruct (replicate k [] !! lvl) as [x|] eqn:E; [|done]. by apply lookup_replicate in E as [-> _].
Qed.

(** The new node before it is linked. *)
Lemma appended_ok ix vid v level r : wf ix → 0 ≤ ip_m (ix_params (vx_def ix)) → by_vid ix !! vid = None →
  let idx := length (vx_nodes ix) in
  let node := mkNode vid v (replicate (S level) []) false false in
  let ix' := mkIndex (vx_def ix) (vx_nodes ix ++ [node]) (<[vid := idx]> (by_vid ix)) (vx_entry ix) (max_level ix) r
               (dead_count ix) (rebuild_floor ix) in
  (∀ lvl, graph_ok (pending ix' idx lvl) ix') ∧ in_range ix' idx ∧ contents ix' = <[vid := v]> (contents ix) ∧
  (∀ w i, by_vid ix' !! w = Some i ↔ ∃ n, vx_nodes ix' !! i = Some n ∧ n_vid n = w ∧ n_removed n = false) ∧
  dead_count ix' = zlen (List.filter counts_dead (vx_nodes ix')) ∧ dead_vids ix' = dead_vids ix.
Proof.
  intros Hwf Hm Hv idx node ix'.
  assert (∀ i, in_range ix i → in_range ix' i) as Hr by (unfold in_range; cbn; intros i; rewrite length_app; cbn; lia).
  assert (∀ i n, vx_nodes ix' !! i = Some n → vx_nodes ix !! i = Some n ∧ i ≠ idx ∨ i = idx ∧ n = node) as Hc.
  { intros i n [Hi|[Hi Hn]]%lookup_app_Some; [left|right].
    - split; [done|]. apply lookup_lt_Some in Hi. unfold idx. lia.
    - apply list_lookup_singleton_Some in Hn as [Hz <-]. unfold idx. split; [lia|done]. }
  assert (vx_nodes ix' !! idx = Some node) as Hidx by (apply list_lookup_middle; done).
  split; [|split; [|split; [|split; [|split]]]].
  - intros lvl. constructor.
    + intros i n l [[Hi _]|[-> ->]]%Hc.
      * eapply Forall_impl; [by eapply (wf_edges _ Hwf)|done].
      * unfold node. rewrite level_list_replicate. constructor.
    + intros i n l [[Hi Hne]|[-> ->]]%Hc.
      * unfold pending. rewrite decide_False by naive_solver. by apply (wf_degree _ Hwf).
      * unfold node. rewrite level_list_replicate. split_and!; [constructor|set_solver|]. rewrite zlen_nil. unfold pending.
        case_decide; [done|]. by apply (degree_cap_nonneg ix').
  - unfold in_range. cbn. rewrite length_app. cbn. unfold idx. lia.
  - unfold contents. cbn. apply map_eq. intros w. rewrite lookup_omap. destruct (decide (w = vid)) as [->|Hne].
    + rewrite !lookup_insert_eq. cbn. change (vx_nodes ix ++ [node]) with (vx_nodes ix'). by rewrite Hidx.
    + rewrite !lookup_insert_ne by done. rewrite lookup_omap. destruct (by_vid ix !! w) as [i|] eqn:E; [|done]. cbn.
      apply (wf_vids _ Hwf) in E as (n & Hn & _). rewrite Hn. by rewrite lookup_app_l_Some with (x := n).
  - intros w i. cbn [by_vid ix']. destruct (decide (w = vid)) as [->|Hne].
    + rewrite lookup_insert_eq. split; [intros [= <-]; exists node; done|]. intros (n & [[Hn _]|[-> ->]]%Hc & Hvid & Hrem).
      * assert (by_vid ix !! vid = Some i) as E by (apply (wf_vids _ Hwf); eauto). congruence.
      * done.
    + rewrite lookup_insert_ne by done. rewrite (wf_vids _ Hwf). split.
      * intros (n & Hn & Hvid & Hrem). exists n. split; [by apply lookup_app_l_Some|done].
      * intros (n & [[Hn _]|[-> ->]]%Hc & Hvid & Hrem); [eauto|]. cbn in Hvid. congruence.
  - cbn. rewrite List.filter_app, (wf_dead _ Hwf). cbn. by rewrite app_nil_r.
  - unfold dead_vids. cbn. rewrite List.filter_app. cbn. by rewrite app_nil_r.
Qed.

Lemma insert_wf ln ix vid v : wf ix → 0 ≤ ip_m (ix_params (vx_def ix)) →
  ∃ ix', insert ln ix vid v = Some ix' ∧ wf ix' ∧ vx_def ix' = vx_def ix ∧ dead_vids ix' = dead_vids ix ∧
    contents ix' = match contents ix !! vid with Some _ => contents ix | None => <[vid := v]> (contents ix) end.
Proof.
  intros Hwf Hm. unfold insert. destruct (by_vid ix !! vid) as [i|] eqn:Hv.
  { eexists. split; [reflexivity|]. split; [done|]. split; [done|]. split; [done|]. unfold contents at 2. rewrite lookup_omap, Hv. cbn.
    apply (wf_vids _ Hwf) in Hv as (n & -> & _). done. }
  assert (contents ix !! vid = None) as Hc by (unfold contents; by rewrite lookup_omap, Hv). rewrite Hc.
  destruct (random_level ln ix) as [r level]. destruct (appended_ok ix vid v level r Hwf Hm Hv) as (HG & HR & HC & HV & HD & HE).
  cbn zeta in *. set (ix1 := mkIndex _ _ _ _ _ _ _ _) in *. set (idx := length (vx_nodes ix)) in *.
  destruct (vx_entry ix1) as [e|] eqn:He.
  - assert (in_range ix1 e) as Hre.
    { pose proof (wf_entry _ Hwf) as H. change (vx_entry ix = Some e) in He. rewrite He in H. unfold in_range in *. cbn.
      rewrite length_app. lia. }
    destruct (link_new_node_ok ix1 idx e level Hm HR Hre (HG _)) as (ix2 & -> & R & G). cbn [mbind option_bind].
    destruct (relinked_wf ix1 ix2 R G) as (Hwf2 & HC2 & HE2); [by rewrite He|done|done|].
    assert (vx_def ix2 = vx_def ix) as Hdef by (by destruct R as [-> _]). rewrite <- HC, <- HC2, <- HE, <- HE2.
    eexists. split; [reflexivity|]. destruct (max_level ix2 <? level)%nat; [|done]. split; [|done].
    pose proof (proj2 (relinked_range ix1 ix2 idx R) HR) as Hr2. destruct Hwf2. by constructor.
  - eexists. split; [reflexivity|]. split; [|done]. pose proof (HG 0%nat) as G.
    constructor; try done; [apply G|]. intros i n lvl Hn. destruct (go_degree _ _ G i n lvl Hn) as (? & ? & Hb).
    split_and!; [done|done|]. etrans; [exact Hb|]. unfold pending. case_decide; [|done].
    by apply (degree_cap_nonneg ix1).
Qed.

Lemma filter_insert_count {A} (p : A → bool) (l : list A) i x y : l !! i = Some x →
  zlen (List.filter p (<[i := y]> l)) = zlen (List.filter p l) - Z.b2z (p x) + Z.b2z (p y).
Proof.
  unfold zlen. revert i. induction l as [|z l IH]; intros [|i] Hi; [done|done|injection Hi as ->|].
  - change (<[0%nat := y]> (x :: l)) with (y :: l). cbn [List.filter]. destruct (p x), (p y); cbn [length Z.b2z]; lia.
  - change (<[S i := y]> (z :: l)) with (z :: <[i := y]> l). specialize (IH i Hi). cbn [List.filter].
    destruct (p z); cbn [length]; lia.
Qed.

(** A node replaced by one with the same edges. *)
Lemma touch_ok ix i n n' m d : wf ix → vx_nodes ix !! i = Some n → n_neighbors n' = n_neighbors n →
  (∀ w j, m !! w = Some j ↔ ∃ k, <[i := n']> (vx_nodes ix) !! j = Some k ∧ n_vid k = w ∧ n_removed k = false) →
  d = dead_count ix - Z.b2z (counts_dead n) + Z.b2z (counts_dead n') →
  wf (mkIndex (vx_def ix) (<[i := n']> (vx_nodes ix)) m (vx_entry ix) (max_level ix) (rng ix) d (rebuild_floor ix)).
Proof.
  intros Hwf Hn He Hm Hd. set (ix' := mkIndex _ _ _ _ _ _ _ _).
  assert (∀ j, in_range ix' j ↔ in_range ix j) as Hr by (intros j; unfold in_range; cbn; by rewrite length_insert).
  assert (∀ j k, vx_nodes ix' !! j = Some k → ∃ k', vx_nodes ix !! j = Some k' ∧ n_neighbors k' = n_neighbors k) as Hc.
  { intros j k. cbn. intros [(<- & <- & _)|[Hne Hi]]%list_lookup_insert_Some; eauto. }
  assert (∀ (k k' : Node) lvl, n_neighbors k' = n_neighbors k → level_list k lvl = level_list k' lvl) as Hl
    by (intros k k' lvl E; unfold level_list; by rewrite E).
  constructor.
  - cbn. pose proof (wf_entry _ Hwf) as H. destruct (vx_entry ix) as [e|]; [by apply Hr|]. by rewrite H.
  - intros j k lvl (k' & Hk' & E)%Hc. rewrite (Hl _ _ lvl E). eapply Forall_impl; [by eapply (wf_edges _ Hwf)|].
    intros x. by apply Hr.
  - intros j k lvl (k' & Hk' & E)%Hc. rewrite (Hl _ _ lvl E). by apply (wf_degree _ Hwf).
  - done.
  - cbn. rewrite (filter_insert_count _ _ _ n) by done. by rewrite <- (wf_dead _ Hwf).
Qed.

Lemma elem_of_dead ix v : v ∈ dead_vids ix ↔ ∃ i n, vx_nodes ix !! i = Some n ∧ n_vid n = v ∧ counts_dead n = true.
Proof.
  unfold dead_vids. rewrite elem_of_list_to_set, list_elem_of_fmap. split.
  - intros (n & -> & [Hn Hd]%list_elem_of_In%filter_In). apply list_elem_of_In, list_elem_of_lookup in Hn as [i Hi]. eauto.
  - intros (i & n & Hi & <- & Hd). exists n. split; [done|]. apply list_elem_of_In, filter_In. split; [|done].
    by apply list_elem_of_In, list_elem_of_lookup_2 with i.
Qed.

Lemma present_unique ix i j n k : wf ix → vx_nodes ix !! i = Some n → vx_nodes ix !! j = Some k → n_vid n = n_vid k →
  n_removed n = false → n_removed k = false → i = j.
Proof.
  intros Hwf Hn Hk E Rn Rk. assert (by_vid ix !! n_vid n = Some i) as E1 by (apply (wf_vids _ Hwf); eauto).
  assert (by_vid ix !! n_vid n = Some j) as E2 by (apply (wf_vids _ Hwf); eauto). congruence.
Qed.

Lemma counts_dead_live n : counts_dead n = true → n_removed n = false.
Proof. unfold counts_dead. by destruct (n_removed n). Qed.

Lemma filter_vids_NoDup (l : list Node) :
  (∀ i j n k, l !! i = Some n → l !! j = Some k → n_vid n = n_vid k → counts_dead n = true → counts_dead k = true → i = j) →
  NoDup (n_vid <$> List.filter counts_dead l).
Proof.
  induction l as [|x l IH]; intros H; [constructor|]. assert (NoDup (n_vid <$> List.filter counts_dead l)) as Hnd.
  { apply IH. intros i j n k Hi Hj E Hn Hk. specialize (H (S i) (S j) n k Hi Hj E Hn Hk). lia. }
  cbn. destruct (counts_dead x) eqn:Ex; [|done]. cbn. constructor; [|done].
  intros (k & E & [Hk Hd]%list_elem_of_In%filter_In)%list_elem_of_fmap.
  apply list_elem_of_In, list_elem_of_lookup in Hk as [j Hj]. by specialize (H 0%nat (S j) x k eq_refl Hj E Ex Hd).
Qed.

Lemma dead_count_size ix : wf ix → dead_count ix = Z.of_nat (size (dead_vids ix)).
Proof.
  intros Hwf. rewrite (wf_dead _ Hwf). unfold dead_vids, zlen. rewrite size_list_to_set; [by rewrite length_fmap|].
  apply filter_vids_NoDup. intros i j n k Hi Hj E Hn Hk. eapply present_unique; eauto using counts_dead_live.
Qed.

Lemma index_len_size ix : wf ix → index_len ix = Z.of_nat (size (contents ix)).
Proof.
  intros Hwf. unfold index_len. f_equal. rewrite <- !size_dom. f_equal. apply set_eq. intros v.
  rewrite !elem_of_dom. unfold contents. rewrite lookup_omap. destruct (by_vid ix !! v) as [i|] eqn:E; [|cbn; naive_solver].
  apply (wf_vids _ Hwf) in E as (n & Hn & _). cbn. rewrite Hn. cbn. naive_solver.
Qed.

Lemma mark_dead_wf ix v : wf ix → ∃ ix', mark_dead ix v = Some ix' ∧ wf ix' ∧ vx_def ix' = vx_def ix ∧
  contents ix' = contents ix ∧
  dead_vids ix' = if decide (is_Some (contents ix !! v)) then {[v]} ∪ dead_vids ix else dead_vids ix.
Proof.
  intros Hwf. unfold mark_dead. destruct (by_vid ix !! v) as [i|] eqn:Hv.
  - pose proof (proj1 (wf_vids _ Hwf v i) Hv) as (n & Hn & Hvid & Hrem). rewrite Hn. cbn [mbind option_bind].
    assert (contents ix !! v = Some (n_vector n)) as Hc by (apply map_lookup; eauto 6).
    rewrite decide_True by eauto. eexists. split; [reflexivity|]. destruct (n_dead n) eqn:Hd.
    { split_and!; try done. apply set_eq. intros w. rewrite elem_of_union, elem_of_singleton, !elem_of_dead.
      split; [by right|]. intros [->|]; [|done]. exists i, n. split_and!; [done|done|]. unfold counts_dead. by rewrite Hrem, Hd. }
    assert (∀ j k, <[i := set_dead n]> (vx_nodes ix) !! j = Some k ↔
      (j = i ∧ k = set_dead n) ∨ (j ≠ i ∧ vx_nodes ix !! j = Some k)) as Hl.
    { intros j k. rewrite list_lookup_insert_Some. pose proof (lookup_lt_Some _ _ _ Hn). naive_solver. }
    split; [|split; [done|split]].
    + apply touch_ok with (n := n); [done|done|done| |].
      * intros w j. rewrite (wf_vids _ Hwf). setoid_rewrite Hl. split.
        -- intros (k & Hk & Hw & Hr). destruct (decide (j = i)) as [->|]; [|eauto 6]. rewrite Hn in Hk. injection Hk as <-.
           exists (set_dead n). auto.
        -- intros (k & [[-> ->]|[Hne Hk]] & Hw & Hr); eauto.
      * unfold counts_dead. cbn. rewrite Hrem, Hd. cbn. lia.
    + unfold contents. cbn. apply map_eq. intros w. rewrite !lookup_omap. destruct (by_vid ix !! w) as [j|]; [|done]. cbn.
      destruct (decide (j = i)) as [->|]; [|by rewrite list_lookup_insert_ne].
      rewrite list_lookup_insert_eq by (by eapply lookup_lt_Some). by rewrite Hn.
    + apply set_eq. intros w. rewrite elem_of_union, elem_of_singleton, !elem_of_dead. cbn. setoid_rewrite Hl. split.
      * intros (j & k & [[-> ->]|[Hne Hk]] & Hw & Hcd); [left; by rewrite <- Hw|right; eauto].
      * intros [->|(j & k & Hk & Hw & Hcd)].
        -- exists i, (set_dead n). split_and!; [auto|done|]. unfold counts_dead. cbn. by rewrite Hrem.
        -- destruct (decide (j = i)) as [->|]; [|eauto 8]. rewrite Hn in Hk. injection Hk as <-. exfalso.
           unfold counts_dead in Hcd. by rewrite Hd, andb_false_r in Hcd.
  - eexists. split; [reflexivity|]. split_and!; try done. rewrite decide_False; [done|]. unfold contents.
    rewrite lookup_omap, Hv. by intros [? ?].
Qed.

Lemma remove_wf ix v : wf ix → ∃ ix', remove ix v = Some ix' ∧ wf ix' ∧ vx_def ix' = vx_def ix ∧
  contents ix' = delete v (contents ix) ∧ dead_vids ix' = dead_vids ix ∖ {[v]}.
Proof.
  intros Hwf. unfold remove. destruct (by_vid ix !! v) as [i|] eqn:Hv.
  - pose proof (proj1 (wf_vids _ Hwf v i) Hv) as (n & Hn & Hvid & Hrem). rewrite Hn. cbn [mbind option_bind].
    eexists. split; [reflexivity|].
    assert (∀ j k, <[i := set_removed n]> (vx_nodes ix) !! j = Some k ↔
      (j = i ∧ k = set_removed n) ∨ (j ≠ i ∧ vx_nodes ix !! j = Some k)) as Hl.
    { intros j k. rewrite list_lookup_insert_Some. pose proof (lookup_lt_Some _ _ _ Hn). naive_solver. }
    assert (∀ w j k, vx_nodes ix !! j = Some k → n_vid k = w → n_removed k = false → w = v ↔ j = i) as Huniq.
    { intros w j k Hk Hw Hr. split; [|intros ->; congruence]. intros ->. eapply present_unique; eauto; congruence. }
    split; [|split; [done|split]].
    + apply touch_ok with (n := n); [done|done|done| |].
      * intros w j. rewrite lookup_delete_Some, (wf_vids _ Hwf). setoid_rewrite Hl. split.
        -- intros (Hne & k & Hk & Hw & Hr). exists k. split; [|done]. right. split; [|done]. intros ->.
           apply Hne. symmetry. by eapply Huniq.
        -- intros (k & [[-> ->]|[Hne Hk]] & Hw & Hr); [done|]. split; [|eauto]. intros <-. by apply Hne; eapply Huniq.
      * unfold counts_dead at 1 2. cbn. rewrite Hrem. cbn. destruct (n_dead n) eqn:Hd; cbn; [|lia].
        assert (0 < dead_count ix) as Hpos; [|unfold saturating_sub; lia]. rewrite (wf_dead _ Hwf).
        assert (n ∈ List.filter counts_dead (vx_nodes ix)) as Hin.
        { apply list_elem_of_In, filter_In. split; [by apply list_elem_of_In, list_elem_of_lookup_2 with i|].
          unfold counts_dead. by rewrite Hrem, Hd. }
        destruct (List.filter counts_dead (vx_nodes ix)); [by apply elem_of_nil in Hin|]. rewrite zlen_cons.
        pose proof (zlen_nonneg l). lia.
    + unfold contents. cbn. apply map_eq. intros w. destruct (decide (w = v)) as [->|Hne].
      { by rewrite lookup_omap, !lookup_delete_eq. }
      rewrite lookup_omap, !lookup_delete_ne by done. rewrite lookup_omap. destruct (by_vid ix !! w) as [j|] eqn:Hw; [|done].
      cbn. rewrite list_lookup_insert_ne; [done|]. intros ->. apply (wf_vids _ Hwf) in Hw as (k & Hk & Hk1 & Hk2). congruence.
    + apply set_eq. intros w. rewrite elem_of_difference, elem_of_singleton, !elem_of_dead. cbn. setoid_rewrite Hl. split.
      * intros (j & k & [[-> ->]|[Hne Hk]] & Hw & Hcd); [done|]. split; [eauto|]. intros ->. apply Hne.
        eapply Huniq; [exact Hk|done|by apply counts_dead_live|done].
      * intros [(j & k & Hk & Hw & Hcd) Hne]. exists j, k. split; [|done]. right. split; [|done]. intros ->. apply Hne.
        eapply Huniq; [exact Hk|done|by apply counts_dead_live|done].
  - eexists. split; [reflexivity|]. assert (contents ix !! v = None) as Hc by (unfold contents; by rewrite lookup_omap, Hv).
    split_and!; try done; [by rewrite delete_id|]. apply set_eq. intros w. rewrite elem_of_difference, elem_of_singleton.
    split; [|naive_solver]. intros Hw. split; [done|]. intros ->. apply elem_of_dead in Hw as (j & k & Hk & Hw & Hcd).
    assert (by_vid ix !! v = Some j) as E; [|congruence]. apply (wf_vids _ Hwf). eauto using counts_dead_live.
Qed.

(** ** The refinement *)

Inductive IndexOp :=
| OpInsert (vid : Z) (vector : list Z)
| OpRemove (vid : Z)
| OpMarkDead (vid : Z).

Definition run_op (ln : Z → Z) (ix : VectorIndex) (op : IndexOp) : option VectorIndex :=
  match op with
  | OpInsert vid v => insert ln ix vid v
  | OpRemove vid => remove ix vid
  | OpMarkDead vid => mark_dead ix vid
  end.
Fixpoint run_ops (ln : Z → Z) (ix : VectorIndex) (ops : list IndexOp) : option VectorIndex :=
  match ops with [] => Some ix | op :: ops => ix ← run_op ln ix op; run_ops ln ix ops end.

(** The finite map and the versions marked as deleted. *)
Definition spec_op (s : gmap Z (list Z) * gset Z) (op : IndexOp) : gmap Z (list Z) * gset Z :=
  match op with
  | OpInsert vid v => (match s.1 !! vid with Some _ => s.1 | None => <[vid := v]> s.1 end, s.2)
  | OpRemove vid => (delete vid s.1, s.2 ∖ {[vid]})
  | OpMarkDead vid => (s.1, if decide (is_Some (s.1 !! vid)) then {[vid]} ∪ s.2 else s.2)
  end.
Definition spec_ops (ops : list IndexOp) : gmap Z (list Z) * gset Z := foldl spec_op (∅, ∅) ops.

Definition abstraction (ix : VectorIndex) : gmap Z (list Z) * gset Z := (contents ix, dead_vids ix).

Lemma new_wf def : wf (VectorIndex_new def).
Proof.
  constructor; try done. intros v i. cbn. rewrite lookup_empty. split; [done|]. by intros (n & Hn & _).
Qed.

Lemma run_op_simulates ln ix op : wf ix → 0 ≤ ip_m (ix_params (vx_def ix)) →
  ∃ ix', run_op ln ix op = Some ix' ∧ wf ix' ∧ vx_def ix' = vx_def ix ∧ abstraction ix' = spec_op (abstraction ix) op.
Proof.
  intros Hwf Hm. unfold abstraction. destruct op; cbn [run_op spec_op fst snd].
  - destruct (insert_wf ln ix vid vector Hwf Hm) as (ix' & -> & H1 & H2 & H3 & H4). eexists. rewrite H3, H4. done.
  - destruct (remove_wf ix vid Hwf) as (ix' & -> & H1 & H2 & H3 & H4). eexists. rewrite H3, H4. done.
  - destruct (mark_dead_wf ix vid Hwf) as (ix' & -> & H1 & H2 & H3 & H4). eexists. rewrite H3, H4. done.
Qed.

Lemma run_ops_simulates ln ops ix : wf ix → 0 ≤ ip_m (ix_params (vx_def ix)) →
  ∃ ix', run_ops ln ix ops = Some ix' ∧ wf ix' ∧ abstraction ix' = foldl spec_op (abstraction ix) ops.
Proof.
  revert ix. induction ops as [|op ops IH]; intros ix Hwf Hm; cbn [run_ops foldl]; [by eexists|].
  destruct (run_op_simulates ln ix op Hwf Hm) as (ix1 & -> & Hwf1 & Hd & <-). cbn [mbind option_bind].
  apply IH; [done|]. by rewrite Hd.
Qed.

Lemma run_wf ln def ops ix : run_ops ln (VectorIndex_new def) ops = Some ix → 0 ≤ ip_m (ix_params def) → wf ix.
Proof.
  intros E Hm. destruct (run_ops_simulates ln ops (VectorIndex_new def) (new_wf def) Hm) as (ix' & E' & Hwf & _).
  rewrite E in E'. by injection E' as <-.
Qed.

Lemma live_len_size ix : wf ix → live_len ix = Z.of_nat (size (contents ix)) - Z.of_nat (size (dead_vids ix)).
Proof.
  intros Hwf. unfold live_len, saturating_sub. rewrite (index_len_size _ Hwf), (dead_count_size _ Hwf).
  assert (size (dead_vids ix) ≤ size (contents ix))%nat; [|lia]. rewrite <- size_dom. apply subseteq_size.
  intros v (i & n & Hn & Hv & Hd)%elem_of_dead. apply elem_of_dom. exists (n_vector n). apply map_lookup; [done|].
  exists i, n. split_and!; try done. by apply counts_dead_live.
Qed.

(** C25. The index is a finite map.  Every sequence of insertions, removals and delete marks on a new index runs
    without a panic and leaves a well-formed graph: the entry point and all edges are nodes, no list has a
    repetition, its own node or more than the configured number of neighbours, the row versions found are exactly
    the nodes not removed; the map it holds, its size and the number of live entries are those of the sequence
    applied to a finite map. *)
Theorem hnsw_refines_map ln def ops : 0 ≤ ip_m (ix_params def) →
  ∃ ix, run_ops ln (VectorIndex_new def) ops = Some ix ∧ wf ix ∧ contents ix = (spec_ops ops).1 ∧
    index_len ix = Z.of_nat (size (spec_ops ops).1) ∧
    live_len ix = Z.of_nat (size (spec_ops ops).1) - Z.of_nat (size (spec_ops ops).2).
Proof.
  intros Hm. destruct (run_ops_simulates ln ops (VectorIndex_new def) (new_wf def) Hm) as (ix & E & Hwf & Ha).
  exists ix. split; [done|]. split; [done|]. change (spec_ops ops) with (foldl spec_op (abstraction (VectorIndex_new def)) ops).
  rewrite <- Ha. cbn [fst snd abstraction]. split; [done|]. split; [by apply index_len_size|by apply live_len_size].
Qed.

(** ** Search *)

(** The distance of the query from a vector under the index's metric. *)
Definition query_dist (ix : VectorIndex) (q x : list Z) : Z := distance (ip_metric (ix_params (vx_def ix))) q x.

Lemma present_of_Some ix q s v d : scored_ok ix q s → present_of ix s = Some (v, d) →
  ∃ n, vx_nodes ix !! s_idx s = Some n ∧ n_vid n = v ∧ n_removed n = false ∧ d = s_dist s ∧
    d = query_dist ix q (n_vector n).
Proof.
  intros [_ Hd]. unfold present_of, dist in *. destruct (vx_nodes ix !! s_idx s) as [n|]; [|done]. cbn in *.
  injection Hd as Hd. destruct (n_removed n) eqn:Hr; [done|]. intros [= <- <-]. exists n. split_and!; done.
Qed.

Definition nearer_hit (a b : Z * Z) : Prop := total_key a.2 ≤ total_key b.2.

Lemma present_sorted ix q l : Forall (scored_ok ix q) l → StronglySorted before l →
  StronglySorted nearer_hit (omap (present_of ix) l).
Proof.
  intros Hl Hs. induction Hs as [|s l Hs IH Hb]; [constructor|]. apply Forall_cons in Hl as [Hok Hl]. cbn [omap list_omap].
  destruct (present_of ix s) as [[v d]|] eqn:E; [|auto]. constructor; [auto|]. apply Forall_forall.
  intros [w e] (s' & Hs' & E')%list_elem_of_omap. rewrite Forall_forall in Hb, Hl.
  destruct (present_of_Some _ _ _ _ _ Hok E) as (_ & _ & _ & _ & -> & _).
  destruct (present_of_Some _ _ _ _ _ (Hl s' Hs') E') as (_ & _ & _ & _ & -> & _).
  specialize (Hb s' Hs'). unfold before, nearer_hit in *. cbn. lia.
Qed.

Lemma present_nodup ix q l : wf ix → Forall (scored_ok ix q) l → NoDup (s_idx <$> l) →
  NoDup ((omap (present_of ix) l).*1).
Proof.
  intros Hwf Hl. induction Hl as [|s l Hok Hl IH]; intros Hnd; [constructor|]. cbn in Hnd. inversion Hnd as [|?? Hni Hnd']; subst.
  cbn [omap list_omap]. destruct (present_of ix s) as [[v d]|] eqn:E; [|auto]. cbn. constructor; [|auto].
  intros ([w e] & Hw & (s' & Hs' & E')%list_elem_of_omap)%list_elem_of_fmap. cbn in Hw. subst w.
  rewrite Forall_forall in Hl. destruct (present_of_Some _ _ _ _ _ Hok E) as (n & Hn & Hv & Hr & _).
  destruct (present_of_Some _ _ _ _ _ (Hl s' Hs') E') as (n' & Hn' & Hv' & Hr' & _).
  apply Hni. rewrite (present_unique ix (s_idx s) (s_idx s') n n') by (done || congruence). by apply list_elem_of_fmap_2.
Qed.

Lemma sorted_take {A} (R : A → A → Prop) k l : StronglySorted R l → StronglySorted R (take k l).
Proof.
  intros H. revert k. induction H as [|x l _ IH Hx]; intros [|k]; cbn; try constructor; [done|]. by apply Forall_take.
Qed.


Lemma take_or_full {A} (R : A → A → Prop) k (l : list A) x : StronglySorted R l → x ∈ l →
  x ∈ take k l ∨ length (take k l) = k ∧ Forall (λ y, R y x) (take k l).
Proof.
  intros Hs Hx. rewrite <- (take_drop k l) in Hx. apply elem_of_app in Hx as [Hx|Hx]; [by left|right]. split.
  - rewrite length_take. destruct (decide (k ≤ length l)%nat); [lia|]. rewrite drop_ge in Hx by lia. by apply elem_of_nil in Hx.
  - rewrite <- (take_drop k l) in Hs. apply Forall_forall. intros y Hy. by eapply StronglySorted_app_1_elem_of.
Qed.

