(* ===== verification/HnswPages.v ===== *)
(** * The page image of a vector index

    What a checkpoint writes fits the pages, and an open that finds it takes the same index back, whatever
    follows an image in its page. *)

From S2P Require Import Prelude Text StorageTypes EngineTypes Float Expr Funcs Wal MvccStore Recovery Hnsw HnswSpec.

(** ** Packing *)

Definition group_bytes (g : list Node) : bytes := u32_le (zlen g) ++ List.concat (node_bytes <$> g).

Lemma concat_zlen_ge {A B} (f : A → list B) (c : Z) l : (∀ x, c ≤ zlen (f x)) → c * zlen l ≤ zlen (List.concat (f <$> l)).
Proof.
  intros H. induction l as [|x l IH]; cbn [fmap list_fmap List.concat]; [unfold zlen; cbn; lia|].
  rewrite zlen_app, zlen_cons. specialize (H x). lia.
Qed.

Lemma node_bytes_ge n : 13 ≤ zlen (node_bytes n).
Proof.
  unfold node_bytes. rewrite !zlen_app, zlen_u64, zlen_u32, zlen_cons, zlen_nil.
  pose proof (zlen_nonneg (List.concat (u32_le <$> n_vector n))).
  pose proof (zlen_nonneg (List.concat (layer_bytes <$> n_neighbors n))). lia.
Qed.

Lemma zlen_group g : zlen (group_bytes g) = 4 + zlen (List.concat (node_bytes <$> g)).
Proof. unfold group_bytes. by rewrite zlen_app, zlen_u32. Qed.

(** The pages are the images of groups of nodes in order. *)
Lemma pack_groups dim nodes ns body : pack dim nodes (List.concat (node_bytes <$> ns)) (zlen ns) = Some body →
  zlen (group_bytes ns) ≤ PAGE_CAP →
  ∃ gs, body = group_bytes <$> gs ∧ List.concat gs = ns ++ nodes ∧ Forall (λ g, zlen (group_bytes g) ≤ PAGE_CAP) gs ∧
    Forall (λ n, length (n_vector n) = dim ∧ zlen (node_bytes n) + 4 ≤ PAGE_CAP) nodes ∧
    (length gs ≤ length (ns ++ nodes))%nat.
Proof.
  revert ns body. induction nodes as [|n nodes IH]; intros ns body; cbn [pack].
  - intros [= <-] Hp. rewrite app_nil_r. destruct ns as [|x ns].
    + exists []. split_and!; try done; constructor.
    + exists [x :: ns]. unfold flush. rewrite (proj2 (Z.eqb_neq _ _)) by (rewrite zlen_cons; pose proof (zlen_nonneg ns); lia).
      split_and!; [done|cbn; by rewrite app_nil_r|by constructor|constructor|cbn; lia].
  - destruct (Nat.eqb_spec (length (n_vector n)) dim) as [Hdim|]; [|done]. cbn [negb].
    destruct (Z.ltb_spec PAGE_CAP (zlen (node_bytes n) + 4)) as [|Hrec]; [done|].
    destruct (Z.ltb_spec PAGE_CAP (4 + zlen (List.concat (node_bytes <$> ns)) + zlen (node_bytes n))) as [Hbig|Hfit].
    + intros H Hp. destruct (pack dim nodes (node_bytes n) 1) as [rest|] eqn:Er; [|done]. cbn in H. injection H as <-.
      destruct (IH [n] rest) as (gs & -> & Hgs & Hcap & Hns & Hlen); [by cbn; rewrite app_nil_r|rewrite zlen_group; cbn; rewrite app_nil_r; lia|].
      destruct ns as [|x ns]; [cbn in Hbig; rewrite zlen_nil in Hbig; lia|].
      exists ((x :: ns) :: gs). unfold flush. rewrite (proj2 (Z.eqb_neq _ _)) by (rewrite zlen_cons; pose proof (zlen_nonneg ns); lia).
      split_and!; [done|cbn [List.concat]; by rewrite Hgs|by constructor|by constructor|].
      cbn [length] in *. rewrite length_app in *. cbn [length] in *. lia.
    + intros H Hp. destruct (IH (ns ++ [n]) body) as (gs & -> & Hgs & Hcap & Hns & Hlen).
      * rewrite fmap_app, concat_app, zlen_app, zlen_cons, zlen_nil. cbn. by rewrite app_nil_r.
      * rewrite zlen_group, fmap_app, concat_app, zlen_app. cbn. rewrite app_nil_r. lia.
      * exists gs. rewrite <- app_assoc in Hgs. split_and!; try done; [by constructor|]. rewrite !length_app in *. cbn in *. lia.
Qed.

(** ** Reading back *)

(** Values that fit their fields. *)
Definition node_ok (bound : Z) (n : Node) : Prop :=
  is_u64 (n_vid n) ∧ Forall is_u32 (n_vector n) ∧ Forall (Forall (λ nb, Z.of_nat nb < bound)) (n_neighbors n).

Lemma flags_bits r d : Z.testbit (bz (byte.of_Z (Z.lor (Z.b2z r) (Z.shiftl (Z.b2z d) 1)))) 0 = r ∧
  Z.testbit (bz (byte.of_Z (Z.lor (Z.b2z r) (Z.shiftl (Z.b2z d) 1)))) 1 = d.
Proof. by destruct r, d. Qed.

Lemma reads_layer l : Forall (λ nb, Z.of_nat nb < 2 ^ 32) l → zlen l < 2 ^ 32 → reads r_layer (layer_bytes l) l.
Proof.
  intros Hl Hn. unfold r_layer, layer_bytes. eapply reads_bind.
  { apply reads_u32. split; [apply zlen_nonneg|done]. }
  rewrite <- (app_nil_r (List.concat _)). eapply reads_bind.
  - apply reads_rep with (vs := Z.of_nat <$> l); [|unfold zlen; rewrite length_fmap; lia].
    induction Hl as [|x l Hx _ IH]; cbn; constructor; [|apply IH; rewrite zlen_cons in Hn; lia]. apply reads_u32. split; lia.
  - rewrite <- list_fmap_compose. erewrite (list_fmap_ext _ id); [rewrite list_fmap_id; apply reads_ret|].
    intros i x _. cbn. lia.
Qed.

Lemma small_node n : zlen (node_bytes n) + 4 ≤ PAGE_CAP → zlen (n_neighbors n) < 2 ^ 32 ∧
  Forall (λ l, zlen l < 2 ^ 32) (n_neighbors n) ∧ zlen (n_vector n) < 2 ^ 32.
Proof.
  unfold PAGE_CAP. intros H.
  pose proof (zlen_nonneg (List.concat (u32_le <$> n_vector n))) as H1.
  pose proof (zlen_nonneg (List.concat (layer_bytes <$> n_neighbors n))) as H2.
  unfold node_bytes in H. rewrite !zlen_app, zlen_u64, zlen_u32, zlen_cons, zlen_nil in H.
  pose proof (concat_zlen_ge u32_le 4 (n_vector n)) as Hv. pose proof (concat_zlen_ge layer_bytes 4 (n_neighbors n)) as Hn.
  assert (∀ x, 4 ≤ zlen (u32_le x)) as Hu by (intros x; rewrite zlen_u32; lia). specialize (Hv Hu).
  assert (∀ l, 4 + 4 * zlen l ≤ zlen (layer_bytes l)) as Hll.
  { intros l. unfold layer_bytes. rewrite zlen_app, zlen_u32.
    pose proof (concat_zlen_ge (λ nb, u32_le (Z.of_nat nb)) 4 l (λ x, Hu (Z.of_nat x))). lia. }
  assert (∀ l, 4 ≤ zlen (layer_bytes l)) as H4 by (intros l; specialize (Hll l); pose proof (zlen_nonneg l); lia).
  specialize (Hn H4). split; [lia|]. split; [|lia].
  assert (∀ ls : list (list nat), zlen (List.concat (layer_bytes <$> ls)) ≤ 4096 → Forall (λ l, zlen l < 2 ^ 32) ls) as Hall.
  { induction ls as [|l ls IH]; cbn; [constructor|]. rewrite zlen_app. intros Hb. specialize (Hll l).
    pose proof (zlen_nonneg (List.concat (layer_bytes <$> ls))). pose proof (zlen_nonneg (layer_bytes l)).
    constructor; [lia|]. apply IH. lia. }
  apply Hall. lia.
Qed.

Lemma reads_node dim n : node_ok (2 ^ 32) n → length (n_vector n) = dim → zlen (node_bytes n) + 4 ≤ PAGE_CAP →
  reads (r_node dim) (node_bytes n) n.
Proof.
  intros (Hvid & Hvec & Hnb) Hdim (Hn1 & Hn2 & Hn3)%small_node. unfold r_node, node_bytes.
  eapply reads_bind; [by apply reads_u64|]. eapply reads_bind; [apply reads_u8|].
  eapply reads_bind; [apply reads_u32; split; [apply zlen_nonneg|done]|].
  eapply reads_bind; [apply reads_rep with (vs := n_vector n); [|done]|].
  { clear -Hvec. induction Hvec; cbn; constructor; [by apply reads_u32|done]. }
  rewrite <- (app_nil_r (List.concat _)). eapply reads_bind.
  { apply reads_rep with (vs := n_neighbors n); [|unfold zlen; lia]. clear -Hnb Hn2.
    induction Hnb as [|l ls Hl _ IH]; inversion Hn2; subst; cbn; constructor; [by apply reads_layer|auto]. }
  destruct (flags_bits (n_removed n) (n_dead n)) as [E1 E2]. unfold node_flags. rewrite E1, E2. destruct n. apply reads_ret.
Qed.

Lemma reads_page dim g : Forall (λ n, length (n_vector n) = dim ∧ zlen (node_bytes n) + 4 ≤ PAGE_CAP) g →
  Forall (node_ok (2 ^ 32)) g → zlen (group_bytes g) ≤ PAGE_CAP → reads (r_page dim) (group_bytes g) g.
Proof.
  intros Hd Hok Hcap. unfold r_page, group_bytes. rewrite zlen_group in Hcap. unfold PAGE_CAP in Hcap.
  pose proof (concat_zlen_ge node_bytes 13 g node_bytes_ge). eapply reads_bind.
  { apply reads_u32. split; [apply zlen_nonneg|lia]. }
  apply reads_rep with (vs := g); [|unfold zlen; lia]. clear H Hcap.
  induction Hok as [|n g Hn _ IH]; inversion Hd as [|?? [??]]; subst; cbn; constructor; [by apply reads_node|auto].
Qed.

(** ** The map from row versions *)

Definition present_at (l : list Node) (v : Z) (k : nat) : Prop :=
  ∃ n, l !! k = Some n ∧ n_vid n = v ∧ n_removed n = false.

Lemma present_at_cons n l v k : present_at (n :: l) v k ↔
  (k = 0%nat ∧ n_vid n = v ∧ n_removed n = false) ∨ ∃ k', k = S k' ∧ present_at l v k'.
Proof.
  unfold present_at. destruct k as [|k]; cbn; naive_solver.
Qed.

Lemma index_nodes_spec i l m d :
  (∀ v j k, present_at l v j → present_at l v k → j = k) →
  (index_nodes i l m d).2 = d + zlen (List.filter counts_dead l) ∧
  ∀ v j, (index_nodes i l m d).1 !! v = Some j ↔
    (∃ k, present_at l v k ∧ j = (i + k)%nat) ∨ (m !! v = Some j ∧ ∀ k, ¬ present_at l v k).
Proof.
  revert i m d. induction l as [|n l IH]; intros i m d Hu; cbn [index_nodes].
  { cbn. unfold zlen. cbn. split; [lia|]. intros v j. unfold present_at. cbn. naive_solver. }
  assert (∀ v j k, present_at l v j → present_at l v k → j = k) as Hu'.
  { intros v j k Hj Hk. assert (S j = S k); [|lia]. apply (Hu v); apply present_at_cons; eauto. }
  destruct (n_removed n) eqn:Hr.
  - destruct (IH (S i) m d Hu') as [E1 E2]. split.
    + rewrite E1. cbn [List.filter]. unfold counts_dead at 2. by rewrite Hr.
    + intros v j. rewrite E2. setoid_rewrite present_at_cons. split.
      * intros [(k & Hk & ->)|[Hm Hno]]; [left; exists (S k); split; [eauto|lia]|right; split; [done|]].
        intros k [(-> & _ & Hr')|(k' & -> & Hk)]; [congruence|by apply (Hno k')].
      * intros [(k & [(-> & _ & Hr')|(k' & -> & Hk)] & ->)|[Hm Hno]]; [congruence| |].
        -- left. exists k'. split; [done|lia].
        -- right. split; [done|]. intros k Hk. apply (Hno (S k)). eauto.
  - destruct (IH (S i) (<[n_vid n := i]> m) (if n_dead n then d + 1 else d) Hu') as [E1 E2]. split.
    + rewrite E1. cbn [List.filter]. unfold counts_dead at 2. rewrite Hr. cbn [negb andb].
      destruct (n_dead n); [rewrite zlen_cons|]; lia.
    + intros v j. rewrite E2. setoid_rewrite present_at_cons. split.
      * intros [(k & Hk & ->)|[Hm Hno]]; [left; exists (S k); split; [eauto|lia]|].
        apply lookup_insert_Some in Hm as [[<- <-]|[Hne Hm]]; [left; exists 0%nat; split; [auto|lia]|].
        right. split; [done|]. intros k [(-> & Hv & _)|(k' & -> & Hk)]; [done|by apply (Hno k')].
      * intros [(k & [(-> & <- & _)|(k' & -> & Hk)] & ->)|[Hm Hno]].
        -- right. rewrite lookup_insert_eq. split; [f_equal; lia|]. intros k Hk.
           assert (0%nat = S k); [|lia]. apply (Hu (n_vid n)); apply present_at_cons; eauto.
        -- left. exists k'. split; [done|lia].
        -- right. rewrite lookup_insert_ne by (intros <-; apply (Hno 0%nat); auto). split; [done|].
           intros k Hk. apply (Hno (S k)). eauto.
Qed.

Lemma index_nodes_wf ix : wf ix → index_nodes 0 (vx_nodes ix) ∅ 0 = (by_vid ix, dead_count ix).
Proof.
  intros Hwf. destruct (index_nodes_spec 0 (vx_nodes ix) ∅ 0) as [E1 E2].
  { intros v j k (n & Hn & Hv & Hr) (n' & Hn' & Hv' & Hr'). eapply present_unique; eauto. congruence. }
  destruct (index_nodes 0 (vx_nodes ix) ∅ 0) as [m d]. cbn [fst snd] in *. f_equal.
  - apply map_eq. intros v. apply option_eq. intros j. rewrite E2, (wf_vids _ Hwf), lookup_empty. unfold present_at. naive_solver.
  - by rewrite E1, (wf_dead _ Hwf).
Qed.

(** ** The round trip *)

(** What the fields of the format can hold. *)
Record storable (ix : VectorIndex) (lsn : Z) : Prop := {
  st_count : zlen (vx_nodes ix) < 2 ^ 32;
  st_nodes : Forall (λ n, is_u64 (n_vid n) ∧ Forall is_u32 (n_vector n)) (vx_nodes ix);
  st_level : Z.of_nat (max_level ix) < 2 ^ 32;
  st_lsn : is_u64 lsn;
  st_floor : is_u64 (rebuild_floor ix);
  st_name : str_utf8 (ix_name (vx_def ix)) = true
}.

Lemma metric_tag_roundtrip m : Metric_from_tag (Metric_tag m) = m.
Proof. by destruct m. Qed.

Definition header_of (ix : VectorIndex) (dim : nat) (lsn pages : Z) : VectorPageHeader :=
  mkHeader (ip_metric (ix_params (vx_def ix))) (Z.of_nat dim) (zlen (vx_nodes ix)) (Z.of_nat <$> vx_entry ix)
    (Z.of_nat (max_level ix)) lsn (dead_count ix) (rebuild_floor ix) pages (ix_name (vx_def ix)).

Lemma header_roundtrip ix dim lsn pages pad : wf ix → storable ix lsn → Z.of_nat dim < 2 ^ 32 → is_u32 pages →
  zlen (header_bytes ix dim lsn pages) ≤ PAGE_CAP →
  parse_page_header (header_bytes ix dim lsn pages ++ pad) = Some (header_of ix dim lsn pages).
Proof.
  intros Hwf [Hc Hn Hl Hlsn Hf Hname] Hdim Hp Hcap. unfold parse_page_header, header_bytes in *.
  set (name := str_bytes (ix_name (vx_def ix))) in *.
  assert (is_u32 (zlen name)) as Hnl.
  { split; [apply zlen_nonneg|]. rewrite !zlen_app, !zlen_u32, !zlen_u64 in Hcap. unfold PAGE_CAP in Hcap.
    pose proof (zlen_nonneg PAGE_MAGIC). rewrite zlen_cons, zlen_nil in Hcap. lia. }
  assert (is_u64 (dead_count ix)) as Hd.
  { rewrite (wf_dead _ Hwf). split; [apply zlen_nonneg|]. unfold zlen in *.
    pose proof (filter_length_le counts_dead (vx_nodes ix)). lia. }
  set (e := match vx_entry ix with Some e => Z.of_nat e | None => u64_max end).
  assert (is_u64 e ∧ (if e =? u64_max then None else Some e) = Z.of_nat <$> vx_entry ix) as [He Heq].
  { unfold e. pose proof (wf_entry _ Hwf) as Hen. destruct (vx_entry ix) as [i|]; [|done]. unfold in_range, zlen, is_u64, u64_max in *.
    rewrite (proj2 (Z.eqb_neq _ _)) by lia. split; [lia|done]. }
  rewrite <- app_assoc. rewrite (take_app_length' PAGE_MAGIC) by done. rewrite bool_decide_true by done.
  rewrite (drop_app_length' PAGE_MAGIC) by done. unfold parsed.
  match goal with |- match header_fields (?enc ++ pad) with _ => _ end = _ =>
    assert (reads header_fields enc (header_of ix dim lsn pages)) as Hr; [|by rewrite Hr] end.
  unfold header_fields. eapply reads_bind; [apply reads_u8|]. eapply reads_bind; [apply reads_u32; split; lia|].
  eapply reads_bind; [apply reads_u64; split; [apply zlen_nonneg|unfold zlen in *; lia]|].
  eapply reads_bind; [by apply reads_u64|]. eapply reads_bind; [apply reads_u32; split; lia|].
  do 3 (eapply reads_bind; [by apply reads_u64|]). do 2 (eapply reads_bind; [by apply reads_u32|]).
  rewrite <- (app_nil_r name). eapply reads_bind; [apply reads_take; by rewrite app_nil_r|].
  unfold str_utf8 in Hname. fold name in Hname. rewrite Hname, Heq, metric_tag_roundtrip.
  unfold name, str_bytes. rewrite string_of_list_byte_of_string. apply reads_ret.
Qed.

Definition reseeded (ix : VectorIndex) : VectorIndex :=
  mkIndex (vx_def ix) (vx_nodes ix) (by_vid ix) (vx_entry ix) (max_level ix) SEED (dead_count ix) (rebuild_floor ix).

(** The frames of an index, and what reads them. *)
Lemma frames_read ix lsn frames : wf ix → storable ix lsn → to_page_frames ix lsn = Some frames →
  Forall (λ f, zlen f ≤ PAGE_CAP) frames ∧
  ∃ dim gs, frames = header_bytes ix dim lsn (zlen gs) :: (group_bytes <$> gs) ∧ Z.of_nat dim < 2 ^ 32 ∧
    is_u32 (zlen gs) ∧ List.concat gs = vx_nodes ix ∧ Forall (λ g, reads (r_page dim) (group_bytes g) g) gs.
Proof.
  intros Hwf Hst. unfold to_page_frames. destruct (vx_nodes ix) as [|n0 ns] eqn:En; [done|]. rewrite <- En in *.
  set (dim := length (n_vector n0)). destruct (pack dim (vx_nodes ix) [] 0) as [body|] eqn:Ep; [|done]. cbn [mbind option_bind].
  destruct (Z.ltb_spec PAGE_CAP (zlen (header_bytes ix dim lsn (zlen body)))) as [|Hcap]; [done|]. intros [= <-].
  destruct (pack_groups dim (vx_nodes ix) [] body Ep) as (gs & -> & Hgs & Hcaps & Hns & Hlen); [by vm_compute|].
  cbn [app] in *. assert (zlen (group_bytes <$> gs) = zlen gs) as Ez by (unfold zlen; by rewrite length_fmap). rewrite Ez in *.
  split; [constructor; [done|by apply Forall_fmap]|]. exists dim, gs. split; [done|].
  assert (Forall (node_ok (2 ^ 32)) (vx_nodes ix)) as Hok.
  { apply Forall_lookup. intros i n Hn. destruct (Forall_lookup_1 _ _ _ _ (st_nodes _ _ Hst) Hn) as [H1 H2].
    split_and!; [done|done|]. apply Forall_lookup. intros lvl l Hl.
    pose proof (wf_edges _ Hwf i n lvl Hn) as He. unfold level_list in He. rewrite Hl in He. cbn in He.
    eapply Forall_impl; [exact He|]. intros j Hj. pose proof (st_count _ _ Hst). unfold in_range, zlen in *. cbn. lia. }
  split; [|split; [|split; [done|]]].
  - rewrite En in Hns. inversion Hns as [|?? [Hdim Hsz] _]; subst. apply small_node in Hsz as (_ & _ & Hv).
    unfold zlen in Hv. fold dim in Hv. done.
  - pose proof (st_count _ _ Hst). split; [apply zlen_nonneg|]. unfold zlen in *. lia.
  - rewrite <- Hgs in Hns, Hok. clear -Hns Hok Hcaps. induction gs as [|g gs IH]; [constructor|]. cbn [List.concat] in *.
    apply Forall_app in Hns as [Hn1 Hn2]. apply Forall_app in Hok as [Ho1 Ho2]. inversion Hcaps; subst.
    constructor; [by apply reads_page|auto].
Qed.

(** Frames with what fills their pages up. *)
Lemma pages_decode ix lsn frames pads : wf ix → storable ix lsn → to_page_frames ix lsn = Some frames →
  length pads = length frames → from_page_frames (vx_def ix) (zip_with app frames pads) = Some (reseeded ix).
Proof.
  intros Hwf Hst Hf Hpads. destruct (frames_read ix lsn frames Hwf Hst Hf) as [Hcap (dim & gs & -> & Hdim & Hgs & Hc & Hr)].
  destruct pads as [|pad pads]; [done|]. cbn in Hpads. injection Hpads as Hpads. rewrite length_fmap in Hpads.
  assert (∃ body, zip_with app (group_bytes <$> gs) pads = body ∧ zlen body = zlen gs ∧
    mapM (parsed (r_page dim)) body = Some gs) as (body & Eb & Hlen & Hbody).
  { eexists. split; [reflexivity|]. clear -Hr Hpads. revert pads Hpads.
    induction Hr as [|g gs Hg _ IH]; intros [|p pads] Hp; try done. destruct (IH pads) as [H1 H2]; [cbn in Hp; lia|].
    assert (parsed (r_page dim) (group_bytes g ++ p) = Some g) as Hp1 by (unfold parsed; by rewrite Hg).
    cbn [fmap list_fmap zip_with mapM]. rewrite !zlen_cons, H1, Hp1. cbn [mbind option_bind].
    change (list_fmap _ _ group_bytes gs) with (group_bytes <$> gs). by rewrite H2. }
  cbn [zip_with]. rewrite Eb. clear Eb. unfold from_page_frames. inversion Hcap as [|?? Hhead _].
  rewrite header_roundtrip by done. cbn [mbind option_bind header_of h_num_body_pages h_metric h_dim h_node_count h_entry
    h_max_level h_dead_count h_rebuild_floor].
  rewrite zlen_cons, Hlen, (proj2 (Z.eqb_eq (zlen gs + 1) (1 + zlen gs))) by lia. cbn [negb].
  rewrite bool_decide_true by done. cbn [negb]. rewrite (Nat2Z.id dim), Hbody.
  cbn [mbind option_bind]. rewrite Hc, Z.eqb_refl. cbn [negb]. rewrite (index_nodes_wf _ Hwf), Z.eqb_refl. cbn [negb].
  unfold reseeded. do 2 f_equal; [|lia]. by destruct (vx_entry ix); cbn; rewrite ?Nat2Z.id.
Qed.

(** ** A checkpoint and the next open *)

Lemma page_image_pad f : zlen f ≤ PAGE_CAP → ∃ pad, page_image f = f ++ pad.
Proof.
  intros H. exists (drop (length f) (page_image f)). rewrite <- (page_image_prefix f H) at 2. by rewrite take_drop.
Qed.

Lemma pages_pad frames : Forall (λ f, zlen f ≤ PAGE_CAP) frames →
  ∃ pads, length pads = length frames ∧ page_image <$> frames = zip_with app frames pads.
Proof.
  induction 1 as [|f frames Hf _ (pads & Hl & IH)]; [by exists []|]. destruct (page_image_pad f Hf) as [pad E].
  exists (pad :: pads). cbn. by rewrite Hl, IH, E.
Qed.

Lemma mapM_pages (get : Z → option bytes) base (pages : list bytes) :
  (∀ i p, pages !! i = Some p → get (base + Z.of_nat i) = Some p) →
  mapM (λ i, get (base + Z.of_nat i)) (seq 0 (length pages)) = Some pages.
Proof.
  intros H. apply mapM_Some_2. apply Forall2_same_length_lookup_2; [by rewrite length_seq|].
  intros i k p Hk Hp. apply lookup_seq in Hk as [-> _]. by apply H.
Qed.

(** C28. A checkpoint is read back.  The frames of a well-formed index whose values fit the fields of the format each
    fit a page, and an open that finds them in the pages of the index's region, padded to the page size and
    stamped with the LSN it recovered, takes the index back: the same nodes, edges, entry point, map, marks and
    floor, with the level generator at its seed. *)
Theorem hnsw_checkpoint_loads ix lsn frames get : wf ix → storable ix lsn → to_page_frames ix lsn = Some frames →
  (∀ i f, frames !! i = Some f → get (index_page_region (ix_name (vx_def ix)) + Z.of_nat i) = Some (page_image f)) →
  Forall (λ f, zlen f ≤ PAGE_CAP) frames ∧ load_index_pages get (vx_def ix) lsn = Some (reseeded ix).
Proof.
  intros Hwf Hst Hf Hget. destruct (frames_read ix lsn frames Hwf Hst Hf) as [Hcap (dim & gs & E & Hdim & Hgs & _)].
  split; [done|]. destruct (pages_pad frames Hcap) as (pads & Hlen & Epads).
  pose proof (pages_decode ix lsn frames pads Hwf Hst Hf Hlen) as Hdec. rewrite <- Epads in Hdec.
  unfold load_index_pages. pose proof (Hget 0%nat) as H0. rewrite Z.add_0_r in H0. rewrite E in H0, Hdec, Hcap.
  rewrite (H0 _ eq_refl). cbn [mbind option_bind]. inversion Hcap as [|?? Hhead _]; subst.
  destruct (page_image_pad _ Hhead) as [pad Epad]. rewrite Epad, header_roundtrip, <- Epad by done.
  cbn [mbind option_bind header_of h_name h_reflected_lsn h_num_body_pages].
  assert (eq_ignore_ascii_case (ix_name (vx_def ix)) (ix_name (vx_def ix)) = true) as -> by (by apply eq_ignore_ascii_case_true).
  rewrite Z.eqb_refl. cbn [negb orb].
  assert (Z.to_nat (zlen gs) = length (page_image <$> (group_bytes <$> gs))) as -> by (rewrite !length_fmap; unfold zlen; lia).
  rewrite mapM_pages; [exact Hdec|]. intros i p (f & -> & Hp)%list_lookup_fmap_Some.
  rewrite <- (Hget (S i) f) by done. f_equal. lia.
Qed.

(** ** Runs *)

Module HnswRuns.
(** A stand-in for the logarithm that spreads the nodes over two layers. *)
Definition ln_demo (x : Z) : Z := if f_ltb F64 x (f_of_Z F64 2) then f_neg F64 (f_of_Z F64 1) else f_of_Z F64 1.
Definition ln_flat (x : Z) : Z := f_of_Z F64 1.

Definition demo_def (m : Z) : IndexDef := mkIndexDef "idx" "t" "e" (mkParams m 8 4 L2).
Definition vec (x y : Z) : list Z := [f_of_Z F32 x; f_of_Z F32 y].

Definition demo_ops : list IndexOp :=
  [OpInsert 1 (vec 0 0); OpInsert 2 (vec 3 4); OpInsert 3 (vec 1 1); OpMarkDead 2; OpInsert 4 (vec 6 8); OpRemove 3].

Definition demo_index : VectorIndex := default (VectorIndex_new (demo_def 2)) (run_ops ln_demo (VectorIndex_new (demo_def 2)) demo_ops).

Lemma demo_run : run_ops ln_demo (VectorIndex_new (demo_def 2)) demo_ops = Some demo_index.
Proof. vm_compute. reflexivity. Qed.

Lemma demo_wf : wf demo_index.
Proof. by apply (run_wf _ _ _ _ demo_run). Qed.

Lemma hnsw_refines_map_witness : 0 ≤ ip_m (ix_params (demo_def 2)) ∧
  ∃ ix, run_ops ln_demo (VectorIndex_new (demo_def 2)) demo_ops = Some ix ∧ contents ix = (spec_ops demo_ops).1.
Proof.
  split; [done|]. destruct (hnsw_refines_map ln_demo (demo_def 2) demo_ops ltac:(done)) as (ix & E & _ & Hc & _).
  exists ix. split; [exact E|exact Hc].
Defined.



(** The pages a checkpoint at LSN 9 wrote. *)
Definition demo_frames : list bytes := default [] (to_page_frames demo_index 9).
Definition pages_at (name : string) (frames : list bytes) (id : Z) : option bytes :=
  let i := id - index_page_region name in
  if i <? 0 then None else page_image <$> frames !! Z.to_nat i.

Lemma pages_at_frame name frames i f : frames !! i = Some f →
  pages_at name frames (index_page_region name + Z.of_nat i) = Some (page_image f).
Proof.
  intros H. unfold pages_at. replace (index_page_region name + Z.of_nat i - index_page_region name) with (Z.of_nat i) by lia.
  rewrite (proj2 (Z.ltb_ge _ _)) by lia. by rewrite Nat2Z.id, H.
Qed.

Lemma demo_storable : storable demo_index 9.
Proof. constructor; unfold is_u64, is_u32; apply (bool_decide_unpack _); vm_compute; exact I. Qed.

Lemma hnsw_checkpoint_loads_witness :
  load_index_pages (pages_at "idx" demo_frames) (demo_def 2) 9 = Some (reseeded demo_index).
Proof.
  apply (hnsw_checkpoint_loads demo_index 9 demo_frames (pages_at "idx" demo_frames) demo_wf demo_storable).
  - vm_compute. reflexivity.
  - intros i f. apply pages_at_frame.
Defined.

(** ** Findings *)

(** Row 2 is far from the others: each of its neighbours drops it for nearer ones. *)
Definition outlier_ops : list IndexOp :=
  [OpInsert 1 (vec 0 0); OpInsert 2 (vec 100 100); OpInsert 3 (vec 1 0); OpInsert 4 (vec 0 1); OpInsert 5 (vec 1 1);
   OpInsert 6 (vec 0 2); OpInsert 7 (vec 2 0)].
Definition answers (m : Z) (ops : list IndexOp) (k : Z) : option (list Z) :=
  ix ← run_ops ln_flat (VectorIndex_new (demo_def m)) ops; out ← search ix (vec 0 1) k (Some 100); Some out.*1.

(** A search for as many rows as the index holds, wider than the graph, leaves a live row out. *)
Theorem pruned_row_is_lost : (spec_ops outlier_ops).1 !! 2 = Some (vec 100 100) ∧ size (spec_ops outlier_ops).1 = 7%nat ∧
  answers 2 outlier_ops 7 = Some [4; 1; 5; 6; 3; 7].
Proof. split_and!; vm_compute; reflexivity. Qed.

(** The log keeps the low 32 bits of the number of neighbours: 2^32 is zero when the index is rebuilt from the log,
    no node is linked, and a search finds one row. *)
Theorem huge_m_unlinks_after_restart :
  decode (wal_bytes (encode (CreateIndex (demo_def (2 ^ 32))))) = Ok (CreateIndex (demo_def 0)) ∧
  size (spec_ops demo_ops).1 = 3%nat ∧ answers 0 demo_ops 4 = Some [1].
Proof. split_and!; vm_compute; reflexivity. Qed.

(** An image whose entry point is no node is accepted, and the next search panics. *)
Definition bad_entry : VectorIndex := with_top (Some 99%nat) 0 demo_index.
Theorem bad_entry_accepted :
  (frames ← to_page_frames bad_entry 9; from_page_frames (demo_def 2) frames) = Some (reseeded bad_entry) ∧
  search (reseeded bad_entry) (vec 0 1) 1 None = None.
Proof. split; vm_compute; reflexivity. Qed.

(** The header goes to its page first: with the new header over the old body, an open takes the old vectors for the
    new ones. *)
Definition old_index : VectorIndex := default demo_index (run_ops ln_flat (VectorIndex_new (demo_def 2)) [OpInsert 1 (vec 0 0)]).
Definition new_index : VectorIndex := default demo_index (run_ops ln_flat (VectorIndex_new (demo_def 2)) [OpInsert 5 (vec 7 7)]).
Definition torn_frames : list bytes :=
  match to_page_frames new_index 9, to_page_frames old_index 4 with
  | Some (header :: _), Some (_ :: body) => header :: body
  | _, _ => []
  end.
Theorem torn_checkpoint_accepted :
  (contents <$> load_index_pages (pages_at "idx" torn_frames) (demo_def 2) 9) = Some (contents old_index) ∧
  contents old_index ≠ contents new_index.
Proof. split; [vm_compute; reflexivity|]. vm_compute. discriminate. Qed.
End HnswRuns.
