(* ===== verification/GroupCommit.v ===== *)
(** * Group commit (crates/engine/src/group_commit.rs)

    A committing connection enqueues its encoded log records; the leader drains a bounded prefix
    of the queue, appends it to storage as one batch, publishes each member's pending versions at
    that member's commit LSN (or rolls all of them back), and hands out the results.  Each
    definition is one critical section of the code: the coordinator's mutex, the storage call and
    the store's write lock are taken separately, so other connections run between them. *)

From S2P Require Import Prelude Text StorageTypes EngineTypes Wal MvccStore.

Definition MAX_BATCH_RECORDS : Z := 1024.

Record Member := mkMember {
  m_owner : Z;
  m_records : list WalRecord;
  m_result : option (Result EngineStatus Z);
  m_done : bool
}.

(** [Inner] with the two counters of [GroupCommit]. *)
Record GroupCommit := mkGC {
  queue : list Z;
  members : gmap Z Member;
  leader_active : bool;
  next_id : Z;
  batches : Z;
  commits : Z
}.

Definition GroupCommit_new : GroupCommit := mkGC [] ∅ false 1 0 0.

Definition metrics (g : GroupCommit) : Z * Z := (batches g, commits g).

(** The first critical section of [commit]: enqueue, and lead when nobody does. *)
Definition enqueue (o : Z) (records : list WalRecord) (g : GroupCommit) : GroupCommit * (Z * bool) :=
  let id := next_id g in
  let am_leader := negb (leader_active g) in
  (mkGC (queue g ++ [id]) (<[id := mkMember o records None false]> (members g)) true (id + 1)
     (batches g) (commits g), (id, am_leader)).

(** [members[&id].records.len()]: the queue holds ids of members only. *)
Definition member_len (g : GroupCommit) (id : Z) : Z :=
  match members g !! id with Some m => zlen (m_records m) | None => 0 end.

(** The prefix of the queue to flush together: at least one member, then up to the cap. *)
Fixpoint take_batch (g : GroupCommit) (q : list Z) (nrec : Z) (first : bool) : list Z :=
  match q with
  | [] => []
  | id :: q =>
      let len := member_len g id in
      if negb first && (MAX_BATCH_RECORDS <? nrec + len) then []
      else id :: take_batch g q (nrec + len) false
  end.

Definition with_queue (q : list Z) (g : GroupCommit) : GroupCommit :=
  mkGC q (members g) (leader_active g) (next_id g) (batches g) (commits g).

Definition drain_batch (g : GroupCommit) : GroupCommit * list Z :=
  let batch := take_batch g (queue g) 0 true in
  (with_queue (drop (length batch) (queue g)) g, batch).

(** What [flush_batch] gathers: the records and, per member, its id, owner and length. *)
Definition gather (g : GroupCommit) (batch : list Z) : list WalRecord * list (Z * Z * Z) :=
  let ms := omap (λ id, (λ m, (id, m)) <$> members g !! id) batch in
  (concat ((λ im, m_records im.2) <$> ms),
   (λ im, (im.1, m_owner im.2, zlen (m_records im.2))) <$> ms).

Definition count_batch (g : GroupCommit) : GroupCommit :=
  mkGC (queue g) (members g) (leader_active g) (next_id g) (batches g + 1) (commits g).
Definition count_commits (n : Z) (g : GroupCommit) : GroupCommit :=
  mkGC (queue g) (members g) (leader_active g) (next_id g) (batches g) (commits g + n).

(** [resolve]: fills in the results of members that are still waiting. *)
Definition resolve (results : list (Z * Result EngineStatus Z)) (g : GroupCommit) : GroupCommit :=
  mkGC (queue g)
    (foldl (λ ms '(id, r),
              alter (λ m, mkMember (m_owner m) (m_records m) (Some r) true) id ms)
           (members g) results)
    (leader_active g) (next_id g) (batches g) (commits g).

(** The end of the leader's round: give up the lead when the queue is empty. *)
Definition relinquish (g : GroupCommit) : GroupCommit * bool :=
  if bool_decide (queue g = [])
  then (mkGC (queue g) (members g) false (next_id g) (batches g) (commits g), true)
  else (g, false).

(** The last critical section of [commit]: take one's own result once it is there. *)
Definition collect (id : Z) (g : GroupCommit) : GroupCommit * option (Result EngineStatus Z) :=
  match members g !! id with
  | Some m =>
      if m_done m
      then (mkGC (queue g) (delete id (members g)) (leader_active g) (next_id g) (batches g)
              (commits g), m_result m)
      else (g, None)
  | None => (g, None)
  end.

(** [quiesce] returns in such a state. *)
Definition quiesced (g : GroupCommit) : bool :=
  negb (leader_active g) && bool_decide (queue g = []).

Section Publish.
Context {VI : Type} `{!VectorIndexOps VI} {SelectStmt : Type}.
Abbreviation Store := (Store VI SelectStmt).

(** The commit LSN of each member: the last record of its slice of [first ..]. *)
Fixpoint commit_lsns (first acc : Z) (ms : list (Z * Z * Z)) : list (Z * Z * Z) :=
  match ms with
  | [] => []
  | (id, o, n) :: ms => (id, o, first + (acc + n) - 1) :: commit_lsns first (acc + n) ms
  end.

(** The store's critical section after a durable append whose last LSN is [last_lsn]. *)
Definition publish (last_lsn : Z) (ms : list (Z * Z * Z)) (s : Store)
    : Store * list (Z * Result EngineStatus Z) :=
  let total := foldr (λ m n, m.2 + n) 0 ms in
  let first := last_lsn - total + 1 in
  let stamped := commit_lsns first 0 ms in
  let s := foldl (λ s '(_, o, l), finalize_owner o l s) s stamped in
  let max_lsn := match last stamped with Some (_, _, l) => l | None => 0 end in
  let s := if committed_lsn s <? max_lsn then with_committed max_lsn s else s in
  (s, (λ m, (m.1.1, Ok m.2)) <$> stamped).

(** The store's critical section after a failed append. *)
Definition abort_batch (e : StorageError) (ms : list (Z * Z * Z)) (s : Store)
    : Store * list (Z * Result EngineStatus Z) :=
  (foldl (λ s '(_, o, _), rollback_owner o s) s ms,
   (λ m, (m.1.1, Err (commit_error e))) <$> ms).

(** [flush_batch] without interruption, over a backend's [append_wal]. *)
Definition flush_batch {B} (append_wal : list WalRecord → Comp B StorageError Z) (batch : list Z)
    (b : B) (s : Store) (g : GroupCommit) : B * Store * GroupCommit :=
  let '(all, ms) := gather g batch in
  let g := count_batch g in
  match append_wal all b with
  | (b, Ok last_lsn) =>
      let g := count_commits (zlen ms) g in
      let '(s, results) := publish last_lsn ms s in (b, s, resolve results g)
  | (b, Err e) =>
      let '(s, results) := abort_batch e ms s in (b, s, resolve results g)
  end.

End Publish.
