(* ===== verification/Conn.v ===== *)
(** * Connections, transactions and DDL (crates/engine/src/conn.rs, db.rs)

    A connection's transaction state machine (begin, statements, savepoints, commit, rollback), the
    write lane that lets one writer at a time mutate the store, and the autocommit DDL path, which
    appends its own record and applies it.  The shared [Database] is explicit state.

    [WriteLane::acquire] blocks while another writer holds the lane; here it is the state after it
    returned, and a caller is only run when the lane is free or its own.  [finish_commit] is the
    uncontended path: the connection leads, and no other commit is queued. *)

From S2P Require Import Prelude Text StorageTypes EngineTypes Funcs Wal MvccStore Dml Recovery.
From S2P Require Import GroupCommit.

#[local] Open Scope comp_scope.

(** What the engine uses of its backend, with its fence token fixed. *)
Class EngineStorage (B : Type) := {
  es_append : list WalRecord → Comp B StorageError Z;
  es_put_page : Z → bytes → Comp B StorageError Z
}.

Record Savepoint := mkSavepoint {
  sp_name : string;
  sp_inserted : gset Z;
  sp_deleted : gset Z;
  sp_wal_len : nat
}.

Record Txn := mkTxn {
  snapshot : Z;
  writer : bool;
  wal_ops : list WalOp;
  txn_owner : Z;
  savepoints : list Savepoint
}.

Record Connection := mkConn {
  txn : option Txn;
  last_changes : Z;
  last_lsn : Z
}.

(** [iter().rposition(p)]. *)
Definition rposition {A} (p : A → bool) (l : list A) : option nat :=
  (λ i, (length l - 1 - i)%nat) <$> position p (rev l).

Section Conn.
Context {VI : Type} `{!VectorIndexOps VI} {SelectStmt : Type} `{!SqlOps SelectStmt}.
Context {B : Type} `{!EngineStorage B}.
(** [sql::referenced_relations]: the names a query reads from. *)
Context (referenced_relations : SelectStmt → list string).
Abbreviation Store := (Store VI SelectStmt).

Record Database := mkDb {
  db_storage : B;
  db_store : Store;
  db_lane : bool;
  db_group : GroupCommit;
  db_next_owner : Z
}.

Abbreviation M A := (Comp (Database * Connection) EngineStatus A).

Definition set_store (f : Store → Store) (d : Database) : Database :=
  mkDb (db_storage d) (f (db_store d)) (db_lane d) (db_group d) (db_next_owner d).
Definition set_lane (b : bool) (d : Database) : Database :=
  mkDb (db_storage d) (db_store d) b (db_group d) (db_next_owner d).
Definition set_txn (t : option Txn) (c : Connection) : Connection :=
  mkConn t (last_changes c) (last_lsn c).
Definition set_changes (n : Z) (c : Connection) : Connection := mkConn (txn c) n (last_lsn c).
Definition set_last_lsn (l : Z) (c : Connection) : Connection :=
  mkConn (txn c) (last_changes c) (u64_as_i64 l).

(** [db::next_owner]: ids start at one. *)
Definition next_owner (d : Database) : Z * Database :=
  (db_next_owner d,
   mkDb (db_storage d) (db_store d) (db_lane d) (db_group d) (db_next_owner d + 1)).

Definition read_snapshot (d : Database) (c : Connection) : Z * option Z :=
  match txn c with
  | Some t => (snapshot t, if writer t then Some (txn_owner t) else None)
  | None => (committed_lsn (db_store d), None)
  end.

(** ** Transaction control *)

Definition new_txn (d : Database) : Txn * Database :=
  let '(o, d') := next_owner d in (mkTxn (committed_lsn (db_store d)) false [] o [], d').

Definition begin : M unit := λ '(d, c),
  match txn c with
  | Some _ => ((d, c), Err ErrTxn)
  | None => let '(t, d) := new_txn d in ((d, set_txn (Some t) c), Ok tt)
  end.

(** [lead]: flush batches until the queue is empty; alone, each round shortens the queue. *)
Fixpoint lead (fuel : nat) (d : Database) : Database :=
  match fuel with
  | O => d
  | S fuel =>
      let '(g, batch) := drain_batch (db_group d) in
      let '(b, s, g) :=
        if bool_decide (batch = []) then (db_storage d, db_store d, g)
        else flush_batch es_append batch (db_storage d) (db_store d) g in
      let '(g, stop) := relinquish g in
      let d := mkDb b s (db_lane d) g (db_next_owner d) in
      if (stop : bool) then d else lead fuel d
  end.

(** [GroupCommit::commit] with nobody else in the queue. *)
Definition group_commit (o : Z) (records : list WalRecord) (d : Database)
    : Database * Result EngineStatus Z :=
  let '(g, (id, am_leader)) := enqueue o records (db_group d) in
  let d := mkDb (db_storage d) (db_store d) false g (db_next_owner d) in
  let d := if (am_leader : bool) then lead (S (length (queue g))) d else d in
  let '(g, r) := collect id (db_group d) in
  (mkDb (db_storage d) (db_store d) (db_lane d) g (db_next_owner d), default (Err ErrInternal) r).

Definition finish_commit (t : Txn) : M unit := λ '(d, c),
  if writer t then
    if bool_decide (wal_ops t = []) then ((set_lane false d, c), Ok tt)
    else
      let records := (encode <$> wal_ops t) ++ [encode Commit] in
      match group_commit (txn_owner t) records d with
      | (d, Ok l) => ((d, set_last_lsn l c), Ok tt)
      | (d, Err e) => ((d, c), Err e)
      end
  else ((d, c), Ok tt).

Definition commit : M unit := λ '(d, c),
  match txn c with
  | None => ((d, c), Err ErrTxn)
  | Some t => finish_commit t (d, set_txn None c)
  end.

(** Rolls back and releases the lane, for a transaction that holds it. *)
Definition abandon (t : Txn) (d : Database) : Database :=
  if writer t then set_lane false (set_store (rollback_owner (txn_owner t)) d) else d.

Definition rollback : M unit := λ '(d, c),
  match txn c with
  | None => ((d, c), Err ErrTxn)
  | Some t => ((abandon t d, set_txn None c), Ok tt)
  end.

(** [Drop for Connection]. *)
Definition drop_connection (d : Database) (c : Connection) : Database :=
  match txn c with Some t => abandon t d | None => d end.

Definition savepoint (name : string) : M unit := λ '(d, c),
  match txn c with
  | None => ((d, c), Err ErrTxn)
  | Some t =>
      let '(ins, del) := pending_snapshot (db_store d) (txn_owner t) in
      let sp := mkSavepoint name ins del (length (wal_ops t)) in
      ((d, set_txn (Some (mkTxn (snapshot t) (writer t) (wal_ops t) (txn_owner t)
                            (savepoints t ++ [sp]))) c), Ok tt)
  end.

Definition find_savepoint (name : string) (sps : list Savepoint) : option nat :=
  rposition (λ s, eq_ignore_ascii_case (sp_name s) name) sps.

Definition release_savepoint (name : string) : M unit := λ '(d, c),
  match txn c with
  | None => ((d, c), Err ErrTxn)
  | Some t =>
      match find_savepoint name (savepoints t) with
      | None => ((d, c), Err ErrTxn)
      | Some i =>
          ((d, set_txn (Some (mkTxn (snapshot t) (writer t) (wal_ops t) (txn_owner t)
                                (take i (savepoints t)))) c), Ok tt)
      end
  end.

Definition rollback_to (name : string) : M unit := λ '(d, c),
  match txn c with
  | None => ((d, c), Err ErrTxn)
  | Some t =>
      match (i ← find_savepoint name (savepoints t); (λ sp, (i, sp)) <$> savepoints t !! i) with
      | None => ((d, c), Err ErrTxn)
      | Some (i, sp) =>
          let d := if writer t
                   then set_store (rollback_to_savepoint (txn_owner t) (sp_inserted sp)
                                     (sp_deleted sp)) d
                   else d in
          ((d, set_txn (Some (mkTxn (snapshot t) (writer t) (take (sp_wal_len sp) (wal_ops t))
                                (txn_owner t) (take (S i) (savepoints t)))) c), Ok tt)
      end
  end.

(** ** DML *)

Definition with_writer (t : Txn) : Txn :=
  mkTxn (snapshot t) true (wal_ops t) (txn_owner t) (savepoints t).
Definition push_ops (ops : list WalOp) (t : Txn) : Txn :=
  mkTxn (snapshot t) (writer t) (wal_ops t ++ ops) (txn_owner t) (savepoints t).

(** The transaction a write statement runs in, the open one or a new one, once it holds the lane. *)
Definition open_writer (d : Database) (c : Connection) : Txn * Database :=
  let '(t, d) := match txn c with Some t => (t, d) | None => new_txn d end in
  if writer t then (t, d) else (with_writer t, set_lane true d).

(** [run] is [run_insert], [run_update] or [run_delete] of the statement.  A panic unwinds past the
    handling of errors: the transaction stays open and the lane taken. *)
Definition exec_dml (run : WriteCtx → Comp Store Fault Mutation)
    : Comp (Database * Connection) Fault ResultSet := λ '(d, c),
  let implicit := bool_decide (txn c = None) in
  let '(t, d) := open_writer d c in
  match run (mkWriteCtx (snapshot t) (txn_owner t)) (db_store d) with
  | (s, Ok m) =>
      let d := set_store (λ _, s) d in
      let t := push_ops (mut_wal m) t in
      let c := set_changes (mut_changes m) c in
      let rs := default ResultSet_default (mut_result m) in
      if implicit then
        let '(x, r) := (do! finish_commit t in comp_ret rs) (d, set_txn None c) in (x, map_err Failed r)
      else ((d, set_txn (Some t) c), Ok rs)
  | (s, Err (Failed e)) =>
      let d := set_store (λ _, s) d in
      if implicit then ((abandon t d, set_txn None c), Err (Failed e))
      else ((d, set_txn (Some t) c), Err (Failed e))
  | (s, Err Panicked) => ((set_store (λ _, s) d, set_txn (Some t) c), Err Panicked)
  end.

(** ** DDL *)

(** Appends one catalog operation with its commit marker, then applies it in memory. *)
Definition log_ddl (op : WalOp) (apply : Store → Store) (d : Database)
    : Database * Result EngineStatus (option Z) :=
  match es_append [encode op; encode Commit] (db_storage d) with
  | (b, Ok l) =>
      let s := apply (db_store d) in
      let s := with_committed (Z.max (committed_lsn s) l) s in
      (mkDb b s (db_lane d) (db_group d) (db_next_owner d), Ok (Some l))
  | (b, Err e) =>
      (mkDb b (db_store d) (db_lane d) (db_group d) (db_next_owner d), Err (commit_error e))
  end.

Record ForeignKeySpec := mkFkSpec {
  fks_name : option string;
  fks_columns : list string;
  fks_table : string;
  fks_foreign : list string
}.

Definition pk_of (cols : list Column) : list string := col_name <$> filter primary_key cols.

(** [referenced_pk]: the key of another table, or of the one being created. *)
Definition referenced_pk (s : Store) (tname : string) (local : list Column) (ft : string)
    : option (list string) :=
  pk ← (if eq_ignore_ascii_case ft tname then Some (pk_of local)
        else (λ t, pk_of (columns (schema t))) <$> table s ft);
  if bool_decide (pk = []) then None else Some pk.

Definition join_underscore (l : list string) : string := String.concat "_" l.

Fixpoint resolve_foreign_keys (s : Store) (tname : string) (local : list Column)
    (specs : list ForeignKeySpec) : Result EngineStatus (list ForeignKey) :=
  match specs with
  | [] => Ok []
  | fk :: specs =>
      fcols ← (if bool_decide (fks_foreign fk = [])
               then ok_or (referenced_pk s tname local (fks_table fk)) ErrSql
               else Ok (fks_foreign fk));
      if negb (length fcols =? length (fks_columns fk))%nat then Err ErrSql
      else
        let name := default (tname +:+ "_" +:+ join_underscore (fks_columns fk) +:+ "_fkey")%string
                      (fks_name fk) in
        rest ← resolve_foreign_keys s tname local specs;
        Ok (mkForeignKey name (fks_columns fk) (fks_table fk) fcols :: rest)
  end.

Definition as_primary_key (c : Column) : Column :=
  mkColumn (col_name c) (col_ty c) true true (unique c) (autoincrement c) (default_sql c).

(** Folds a table-level PRIMARY KEY into the columns. *)
Fixpoint fold_primary_key (pk : list string) (cols : list Column)
    : Result EngineStatus (list Column) :=
  match pk with
  | [] => Ok cols
  | k :: pk =>
      idx ← ok_or (position (λ c, eq_ignore_ascii_case (col_name c) k) cols) ErrSql;
      fold_primary_key pk (alter as_primary_key idx cols)
  end.

Record CreateTableStmt := mkCreateTable {
  ct_name : string;
  ct_columns : list Column;
  ct_foreign_keys : list ForeignKeySpec;
  ct_primary_key : list string;
  ct_uniques : list (list string);
  ct_checks : list string;
  ct_if_not_exists : bool
}.

Definition do_create_table (st : CreateTableStmt) (d : Database)
    : Database * Result EngineStatus (option Z) :=
  if has_table (db_store d) (ct_name st)
  then (d, if ct_if_not_exists st then Ok None else Err ErrSql)
  else
    match (cols ← fold_primary_key (ct_primary_key st) (ct_columns st);
           fks ← resolve_foreign_keys (db_store d) (ct_name st) cols (ct_foreign_keys st);
           Ok (mkSchema (ct_name st) cols fks (ct_checks st) (ct_uniques st) false [])) with
    | Err e => (d, Err e)
    | Ok sc => log_ddl (CreateTable sc) (insert_table sc) d
    end.

Definition do_drop_table (name : string) (if_exists : bool) (d : Database)
    : Database * Result EngineStatus (option Z) :=
  if has_table (db_store d) name
  then log_ddl (DropTable name) (λ s, (drop_table name s).2) d
  else (d, if if_exists then Ok None else Err ErrSql).

Inductive AlterAction :=
| AAddColumn (spec : Column)
| ADropColumn (name : string) (if_exists : bool)
| ARenameColumn (from to : string)
| ARenameTable (to : string)
| ASetRls (enabled : bool).

Definition has_column (s : Store) (tname name : string) : bool :=
  match table s tname with
  | Some t => bool_decide (is_Some (column_index (schema t) name))
  | None => false
  end.

(** A freshly added column cannot be the primary key. *)
Definition added_column (c : Column) : Column :=
  mkColumn (col_name c) (col_ty c) false (not_null c) (unique c) (autoincrement c) (default_sql c).

(** The operation an ALTER logs; [Ok None] when there is nothing to do. *)
Definition alter_op (s : Store) (tname : string) (a : AlterAction)
    : Result EngineStatus (option WalOp) :=
  match a with
  | AAddColumn spec =>
      if has_column s tname (col_name spec) then Err ErrSql
      else Ok (Some (AlterAddColumn tname (added_column spec)))
  | ADropColumn name if_exists =>
      if has_column s tname name then Ok (Some (AlterDropColumn tname name))
      else if if_exists then Ok None else Err ErrSql
  | ARenameColumn from to => Ok (Some (AlterRenameColumn tname from to))
  | ARenameTable to => Ok (Some (AlterRenameTable tname to))
  | ASetRls enabled => Ok (Some (SetRls tname enabled))
  end.

Definition do_alter (tname : string) (a : AlterAction) (d : Database)
    : Database * Result EngineStatus (option Z) :=
  if negb (has_table (db_store d) tname) then (d, Err ErrSql)
  else match alter_op (db_store d) tname a with
       | Err e => (d, Err e)
       | Ok None => (d, Ok None)
       | Ok (Some op) => log_ddl op (apply_alter op) d
       end.

Definition has_policy (name : string) (t : Table) : bool :=
  existsb (λ p, eq_ignore_ascii_case (pol_name p) name) (policies (schema t)).

Definition parses_or_absent (text : option string) : Result EngineStatus unit :=
  match text with None => Ok tt | Some e => _ ← parse_expr e; Ok tt end.

Definition do_create_policy (tname : string) (p : Policy) (d : Database)
    : Database * Result EngineStatus (option Z) :=
  match table (db_store d) tname with
  | None => (d, Err ErrSql)
  | Some t =>
      if has_policy (pol_name p) t then (d, Err ErrSql)
      else match (_ ← parses_or_absent (pol_using p); parses_or_absent (pol_check p)) with
           | Err e => (d, Err e)
           | Ok _ => log_ddl (CreatePolicy tname p) (add_policy tname p) d
           end
  end.

Definition do_drop_policy (name tname : string) (if_exists : bool) (d : Database)
    : Database * Result EngineStatus (option Z) :=
  if match table (db_store d) tname with Some t => has_policy name t | None => false end
  then log_ddl (DropPolicy tname name) (λ s, (drop_policy tname name s).2) d
  else (d, if if_exists then Ok None else Err ErrSql).

(** [view_would_cycle]: a depth-first walk of the views a query reads. *)
Fixpoint view_walk (fuel : nat) (s : Store) (new_name : string) (stack : list string)
    (seen : gset string) : bool :=
  match fuel, stack with
  | O, _ | _, [] => false
  | S fuel, n :: stack =>
      if eq_ignore_ascii_case n new_name then true
      else if bool_decide (to_ascii_lowercase n ∈ seen) then view_walk fuel s new_name stack seen
      else
        let seen := {[to_ascii_lowercase n]} ∪ seen in
        match view s n with
        | Some q => view_walk fuel s new_name (rev (referenced_relations q) ++ stack) seen
        | None => view_walk fuel s new_name stack seen
        end
  end.

(** Every name on the stack comes from the query or, once per view, from a view's body. *)
Definition view_fuel (s : Store) (q : SelectStmt) : nat :=
  (length (referenced_relations q)
   + sum_list (length ∘ referenced_relations <$> (map_to_list (views s)).*2) + 1)%nat.

Definition view_would_cycle (s : Store) (new_name : string) (q : SelectStmt) : bool :=
  view_walk (view_fuel s q) s new_name (rev (referenced_relations q)) ∅.

Definition do_create_view (name : string) (q : SelectStmt) (sql : string)
    (or_replace if_not_exists : bool) (d : Database) : Database * Result EngineStatus (option Z) :=
  let s := db_store d in
  if has_table s name then (d, Err ErrSql)
  else if has_view s name && negb or_replace
  then (d, if if_not_exists then Ok None else Err ErrSql)
  else if view_would_cycle s name q then (d, Err ErrSql)
  else log_ddl (CreateView name sql) (insert_view name q) d.

Definition do_drop_view (name : string) (if_exists : bool) (d : Database)
    : Database * Result EngineStatus (option Z) :=
  if has_view (db_store d) name
  then log_ddl (DropView name) (λ s, (drop_view name s).2) d
  else (d, if if_exists then Ok None else Err ErrSql).

(** [checkpoint_vector_index]: best effort, stops at the first frame it cannot write. *)
Fixpoint put_frames (region : Z) (frames : list bytes) (b : B) : B :=
  match frames with
  | [] => b
  | f :: frames =>
      if PAGE_SIZE <? zlen f then b
      else match es_put_page region f b with
           | (b, Ok _) => put_frames (region + 1) frames b
           | (b, Err _) => b
           end
  end.

Definition checkpoint_vector_index (name : string) (reflected : Z) (d : Database) : Database :=
  match index_page_frames (db_store d) name reflected with
  | None => d
  | Some frames =>
      mkDb (put_frames (index_page_region name) frames (db_storage d)) (db_store d) (db_lane d)
        (db_group d) (db_next_owner d)
  end.

Definition do_create_index (def : IndexDef) (if_not_exists : bool) (d : Database)
    : Database * Result EngineStatus (option Z) :=
  let s := db_store d in
  if has_index s (ix_name def) then (d, if if_not_exists then Ok None else Err ErrSql)
  else
    match (t ← table s (ix_table def);
           col ← column_index (schema t) (ix_column def);
           c ← columns (schema t) !! col;
           if is_vector (col_ty c) then Some tt else None) with
    | None => (d, Err ErrSql)
    | Some _ =>
        match log_ddl (CreateIndex def) (create_index def) d with
        | (d, Ok (Some l)) => (checkpoint_vector_index (ix_name def) l d, Ok (Some l))
        | r => r
        end
    end.

Definition do_drop_index (name : string) (if_exists : bool) (d : Database)
    : Database * Result EngineStatus (option Z) :=
  if has_index (db_store d) name
  then log_ddl (DropIndex name) (λ s, (drop_index name s).2) d
  else (d, if if_exists then Ok None else Err ErrSql).

Inductive Ddl :=
| DCreateTable (st : CreateTableStmt)
| DDropTable (name : string) (if_exists : bool)
| DAlterTable (tname : string) (a : AlterAction)
| DCreateIndex (def : IndexDef) (if_not_exists : bool)
| DDropIndex (name : string) (if_exists : bool)
| DCreateView (name : string) (q : SelectStmt) (sql : string) (or_replace if_not_exists : bool)
| DDropView (name : string) (if_exists : bool)
| DCreatePolicy (tname : string) (p : Policy)
| DDropPolicy (name tname : string) (if_exists : bool).

Definition do_ddl (st : Ddl) (d : Database) : Database * Result EngineStatus (option Z) :=
  match st with
  | DCreateTable st => do_create_table st d
  | DDropTable name ie => do_drop_table name ie d
  | DAlterTable t a => do_alter t a d
  | DCreateIndex def ine => do_create_index def ine d
  | DDropIndex name ie => do_drop_index name ie d
  | DCreateView name q sql rep ine => do_create_view name q sql rep ine d
  | DDropView name ie => do_drop_view name ie d
  | DCreatePolicy t p => do_create_policy t p d
  | DDropPolicy name t ie => do_drop_policy name t ie d
  end.

(** [exec_ddl], run when the pipeline is quiesced; the lane is taken and given back. *)
Definition exec_ddl (st : Ddl) : M unit := λ '(d, c),
  match txn c with
  | Some _ => ((d, c), Err ErrTxn)
  | None =>
      let '(d, r) := do_ddl st d in
      let c := set_changes 0 c in
      match r with
      | Ok (Some l) => ((d, set_last_lsn l c), Ok tt)
      | Ok None => ((d, c), Ok tt)
      | Err e => ((d, c), Err e)
      end
  end.

End Conn.
Arguments Database VI SelectStmt B : clear implicits.
Arguments Ddl SelectStmt : clear implicits.
