(* ===== verification/ViewSpec.v ===== *)
(** * Views: the cycle check of CREATE VIEW (crates/engine/src/conn.rs, sql.rs)

    The depth-first walk of [view_would_cycle] refuses a view that would make the views refer to each
    other in a cycle, so that queries keep ending; for a view whose WITH clause hides names it does
    not, and such a view recurses without end. *)

From S2P Require Import Prelude Text StorageTypes Numbers Float Chars EngineTypes Values Json Session Funcs Like Ast Expr.
From S2P Require Import Rls SortBy Wal MvccStore Select SelectSpec Joins JoinsSpec Relational RelationalSpec.
From S2P Require Import Dml Recovery GroupCommit Conn ExprSpec.

(** Lower-case names identify views. *)
Lemma view_key {VI} (s : Store VI SelectStmt) n : view s n = views s !! key n.
Proof. done. Qed.

Lemma key_idem n : key (key n) = key n.
Proof. apply to_ascii_lowercase_idem. Qed.

Lemma key_eq_ignore a b : eq_ignore_ascii_case a b = true ↔ key a = key b.
Proof. apply eq_ignore_ascii_case_true. Qed.

(** No name a query refers to is hidden by its WITH clause. *)
Definition hides_nothing (q : SelectStmt) : Prop :=
  Forall (λ n, n ∈ referenced_relations q) (collect_select_refs q []).

Section Walk.
Context {VI : Type} (s : Store VI SelectStmt) (new_name : string).
Abbreviation refs := referenced_relations.
Abbreviation walk := (view_walk referenced_relations).

(** A set of names with the views they stand for leads to names of the set only. *)
Definition closed (S : gset string) : Prop :=
  ∀ n q, n ∈ S → views s !! n = Some q → Forall (λ r, key r ∈ S) (refs q).

(** What the views not seen yet can still push. *)
Definition unseen (seen : gset string) (kq : string * SelectStmt) : nat :=
  if bool_decide (kq.1 ∈ seen) then 0%nat else length (refs kq.2).
Definition pushes (seen : gset string) : nat := sum_list_with (unseen seen) (map_to_list (views s)).

Lemma pushes_see k q seen : views s !! k = Some q → k ∉ seen →
  pushes seen = (length (refs q) + pushes ({[k]} ∪ seen))%nat.
Proof.
  intros Hq Hk. unfold pushes. rewrite <- (insert_delete_id _ _ _ Hq), map_to_list_insert by apply lookup_delete_eq.
  cbn. unfold unseen at 1 3. cbn. rewrite bool_decide_false, bool_decide_true by set_solver.
  assert (∀ x, x ∈ map_to_list (delete k (views s)) → unseen seen x = unseen ({[k]} ∪ seen) x) as Hx.
  { intros [k' q'] H%elem_of_map_to_list. unfold unseen. cbn.
    assert (k' ≠ k) by (intros ->; by rewrite lookup_delete_eq in H).
    by rewrite (bool_decide_ext (k' ∈ {[k]} ∪ seen) (k' ∈ seen)) by set_solver. }
  cbn. f_equal. induction (map_to_list (delete k (views s))) as [|x l IH]; [done|]. cbn.
  rewrite (Hx x) by (by left). f_equal. apply IH. intros y Hy. apply Hx. by right.
Qed.

Lemma walk_closes fuel stack seen :
  walk fuel s new_name stack seen = false →
  (length stack + pushes seen < fuel)%nat → key new_name ∉ seen →
  (∀ n q, n ∈ seen → views s !! n = Some q → Forall (λ r, key r ∈ seen ∨ r ∈ stack) (refs q)) →
  ∃ S, closed S ∧ key new_name ∉ S ∧ seen ⊆ S ∧ Forall (λ r, key r ∈ S) stack.
Proof.
  revert stack seen. induction fuel as [|fuel IH]; intros stack seen Hw Hf Hn Hc; [lia|].
  destruct stack as [|n stack].
  { exists seen. split_and!; [|done..|constructor]. intros m q Hm Hq. eapply Forall_impl; [by apply (Hc m q)|].
    intros r [?|[]%not_elem_of_nil]; done. }
  cbn [view_walk] in Hw. destruct (eq_ignore_ascii_case n new_name) eqn:En; [done|].
  assert (key n ≠ key new_name) as Hne by (rewrite <- key_eq_ignore, En; done).
  assert (∀ (stack' : list string) (seen' : gset string), seen ⊆ seen' → key n ∈ seen' → (∀ r, r ∈ stack → r ∈ stack') →
    (∀ q, key n ∉ seen → views s !! key n = Some q → Forall (λ r, r ∈ stack') (refs q)) →
    (∀ m, m ∈ seen' → m ∈ seen ∨ m = key n) →
    ∀ m q, m ∈ seen' → views s !! m = Some q → Forall (λ r, key r ∈ seen' ∨ r ∈ stack') (refs q)) as Hstep.
  { intros stack' seen' Hsub Hin Hst Hnew Honly m q Hm Hq. destruct (decide (m ∈ seen)) as [Hms|Hms].
    - eapply Forall_impl; [by apply (Hc m q)|]. intros r [Hr|Hr]; [left; set_solver|].
      apply elem_of_cons in Hr as [->|Hr]; [by left|right; auto].
    - destruct (Honly m Hm) as [?| ->]; [done|]. eapply Forall_impl; [by apply Hnew|]. intros r Hr. by right. }
  case_bool_decide as Hseen; fold (key n) in *.
  - destruct (IH stack seen Hw) as (S & ? & ? & ? & ?); [cbn in Hf; lia|done| |].
    { apply Hstep; try done. intros m Hm. by left. }
    exists S. split_and!; try done. constructor; [set_solver|done].
  - rewrite view_key in Hw. destruct (views s !! key n) as [q|] eqn:Eq.
    + rewrite (pushes_see (key n) q seen Eq Hseen) in Hf. cbn in Hf.
      destruct (IH _ _ Hw) as (S & Hcl & ? & Hss & Hst).
      * rewrite length_app, length_rev. lia.
      * set_solver.
      * apply Hstep; [set_solver..| |]; [|set_solver].
        intros q' _ [= <-]. apply Forall_forall. intros r Hr. apply elem_of_app. left.
        by rewrite list_elem_of_In, <- in_rev, <- list_elem_of_In.
      * apply Forall_app in Hst as [_ Hst]. exists S. split_and!; try done; [set_solver|]. constructor; [set_solver|done].
    + assert (pushes ({[key n]} ∪ seen) ≤ pushes seen)%nat as Hp.
      { unfold pushes. clear. induction (map_to_list (views s)) as [|x l IH]; [done|]. cbn.
        assert (unseen ({[key n]} ∪ seen) x ≤ unseen seen x)%nat; [|lia]. unfold unseen.
        repeat case_bool_decide; try lia. set_solver. }
      destruct (IH _ _ Hw) as (S & Hcl & ? & Hss & Hst); [cbn in Hf; lia|set_solver| |].
      { apply Hstep; [set_solver..| |]; [done|set_solver]. }
      exists S. split_and!; try done; [set_solver|]. constructor; [set_solver|done].
Qed.

End Walk.

(** The views are ranked by name, and their WITH clauses hide nothing. *)
Definition views_ok {VI} (s : Store VI SelectStmt) : Prop :=
  (∃ rank, acyclic (view s) (λ n, rank (key n))) ∧
  ∀ name q, view s name = Some q → hides_nothing q.

Lemma cycle_check_sound {VI} (s : Store VI SelectStmt) name q :
  views_ok s → hides_nothing q → view_would_cycle referenced_relations s name q = false →
  views_ok (insert_view name q s).
Proof.
  intros [[rank Hrank] Hplain] Hq Hw. destruct (walk_closes s name _ _ _ Hw) as (cl & Hcl & Hn & _ & Hst).
  { unfold view_fuel, pushes. rewrite length_rev.
    assert (sum_list_with (unseen ∅) (map_to_list (views s))
      = sum_list (length ∘ referenced_relations <$> (map_to_list (views s)).*2)) as ->; [|lia].
    induction (map_to_list (views s)) as [|x l IH]; [done|]. cbn. rewrite IH. unfold unseen.
    by rewrite bool_decide_false by set_solver. }
  { set_solver. }
  { set_solver. }
  assert (∀ n q', view (insert_view name q s) n = Some q' → (key n = key name ∧ q' = q) ∨ (key n ≠ key name ∧ view s n = Some q')) as Hview.
  { intros n q'. unfold view, insert_view. cbn. destruct (decide (key n = key name)) as [->|Hne].
    - rewrite lookup_insert_eq. intros [= <-]. by left.
    - rewrite lookup_insert_ne by done. by right. }
  split; [|intros n q' [[_ ->]|[_ ?]]%Hview; [done|by eapply Hplain]].
  set (M := S (sum_list_with (λ kq, rank kq.1) (map_to_list (views s)))).
  assert (∀ r q', view s r = Some q' → rank (key r) < M)%nat as HM.
  { intros r q' Hr. apply le_n_S. apply (sum_list_with_in (key r, q') (λ kq, rank kq.1)). by apply elem_of_map_to_list. }
  exists (λ k, if bool_decide (k ∈ cl) then rank k else if bool_decide (k = key name) then M else (M + 1 + rank k)%nat).
  intros n q' Hn'. apply Hview in Hn' as [[-> ->]|[Hne Hv]].
  - eapply Forall_impl; [exact Hq|]. intros r Hr [q'' Hr'].
    assert (key r ∈ cl) as HrS.
    { rewrite Forall_forall in Hst. apply Hst. by rewrite list_elem_of_In, <- in_rev, <- list_elem_of_In. }
    apply Hview in Hr' as [[Ek _]|[_ Hr']]; [by rewrite Ek in HrS|].
    rewrite (bool_decide_true (key r ∈ cl)), (bool_decide_false (key name ∈ cl)), (bool_decide_true (key name = key name)) by done.
    by eapply HM.
  - pose proof (Hrank n q' Hv) as Hr0. pose proof (Hplain n q' Hv) as Hp. unfold hides_nothing in Hp. rewrite Forall_forall in Hr0, Hp.
    apply Forall_forall. intros r Hr [q'' Hr'].
    destruct (decide (key n ∈ cl)) as [HnS|HnS].
    + pose proof (Hcl (key n) q' HnS Hv) as Hc. rewrite Forall_forall in Hc. specialize (Hc r (Hp r Hr)).
      rewrite !bool_decide_true by done. apply Hr0; [done|].
      apply Hview in Hr' as [[Ek _]|[_ Hr']]; [by rewrite Ek in Hc|by eexists].
    + rewrite (bool_decide_false (key n ∈ cl)), (bool_decide_false (key n = key name)) by done.
      apply Hview in Hr' as [[Ek _]|[Hrn Hr']].
      * rewrite Ek, (bool_decide_false (key name ∈ cl)), bool_decide_true by done. lia.
      * pose proof (HM r q'' Hr'). case_bool_decide; [lia|]. rewrite bool_decide_false by done.
        specialize (Hr0 r Hr). cbn in Hr0. assert (rank (key r) < rank (key n))%nat by (apply Hr0; by eexists). lia.
Qed.

Section CreateView.
Context {VI : Type} {B : Type} `{!EngineStorage B}.

Lemma log_ddl_views op f (d d' : Database VI SelectStmt B) r :
  log_ddl op f d = (d', r) →
  views (db_store d') = views (db_store d) ∨ views (db_store d') = views (f (db_store d)).
Proof. unfold log_ddl. destruct (es_append _ _) as [b []]; intros [= <- _]; [by right|by left]. Qed.

Lemma views_ok_views (s s' : Store VI SelectStmt) : views s' = views s → views_ok s → views_ok s'.
Proof. intros E. unfold views_ok, view. by rewrite E. Qed.

(** CREATE VIEW keeps queries ending: where the views refer to each other without a cycle and no WITH
    clause hides a name, CREATE VIEW with a query that hides none leaves views without a cycle, whether it
    succeeds, replaces a view, is refused or fails. *)
Theorem create_view_keeps_acyclic name q sql orr ine (d d' : Database VI SelectStmt B) r :
  views_ok (db_store d) → hides_nothing q →
  do_create_view referenced_relations name q sql orr ine d = (d', r) → views_ok (db_store d').
Proof.
  intros Hok Hq. unfold do_create_view. destruct (has_table _ _); [by intros [= <- _]|].
  destruct (has_view _ _ && _); [by intros [= <- _]|].
  destruct (view_would_cycle _ _ _ _) eqn:Ew; [by intros [= <- _]|].
  intros [E|E]%log_ddl_views; eapply views_ok_views; try exact E; [done|]. by apply cycle_check_sound.
Qed.

End CreateView.
