(* ===== verification/Wire.v ===== *)
(** * The wire protocol (crates/server/src/protocol.rs, types.rs)

    The frames a client sends and the frames the server answers with, and the text and binary forms
    of values.  A stream is the list of bytes that are left to read; the buffer of answers is kept as
    the messages appended to it, which [flush_to] writes as frames. *)

From S2P Require Import Prelude Text StorageTypes Numbers Float Chars EngineTypes Values Wal.

(** ** Big-endian integers *)

Definition i16_be (z : Z) : bytes := rev (le_split 2 z).
Definition i32_be (z : Z) : bytes := rev (le_split 4 z).
Definition i64_be (z : Z) : bytes := rev (le_split 8 z).

Definition to_signed (w z : Z) : Z := if z <? 2 ^ (w - 1) then z else z - 2 ^ w.
Definition i16_of (bs : bytes) : Z := to_signed 16 (from_le (rev bs)).
Definition i32_of (bs : bytes) : Z := to_signed 32 (from_le (rev bs)).
Definition i64_of (bs : bytes) : Z := to_signed 64 (from_le (rev bs)).

(** [b'c']. *)
Definition chr (a : Ascii.ascii) : Init.Byte.byte := Ascii.byte_of_ascii a.

(** ** [String::from_utf8_lossy] *)

Definition REPLACEMENT : bytes := byte.of_Z <$> [0xEF; 0xBF; 0xBD].

(** A sequence that is not well formed gives one replacement character for the part of it that could
    have begun one. *)
Fixpoint lossy (bs : bytes) : bytes :=
  match bs with
  | [] => []
  | b0 :: r0 =>
      if bz b0 <? 0x80 then b0 :: lossy r0
      else match r0 with
      | [] => REPLACEMENT
      | b1 :: r1 =>
          if in_range 0xC2 0xDF b0 then
            if utf8_cont b1 then b0 :: b1 :: lossy r1 else REPLACEMENT ++ lossy r0
          else if in_range 0xE0 0xEF b0 then
            if utf8_second3 b0 b1 then
              match r1 with
              | [] => REPLACEMENT
              | b2 :: r2 => if utf8_cont b2 then b0 :: b1 :: b2 :: lossy r2 else REPLACEMENT ++ lossy r1
              end
            else REPLACEMENT ++ lossy r0
          else if in_range 0xF0 0xF4 b0 then
            if utf8_second4 b0 b1 then
              match r1 with
              | [] => REPLACEMENT
              | b2 :: r2 =>
                  if utf8_cont b2 then
                    match r2 with
                    | [] => REPLACEMENT
                    | b3 :: r3 =>
                        if utf8_cont b3 then b0 :: b1 :: b2 :: b3 :: lossy r3 else REPLACEMENT ++ lossy r2
                    end
                  else REPLACEMENT ++ lossy r1
              end
            else REPLACEMENT ++ lossy r0
          else REPLACEMENT ++ lossy r0
      end
  end.

Definition from_utf8_lossy (bs : bytes) : string := string_of_list_byte (lossy bs).

(** ** Frontend messages *)

Module Protocol.

(** [InvalidData], [UnexpectedEof], and a panic, which ends the connection's thread. *)
Inductive WireError := Malformed | Eof | WirePanic.

Inductive Startup :=
| SslRequest
| GssRequest
| Params (kv : list (string * string))
| Cancel.

Inductive Frontend :=
| Query (sql : string)
| Parse (name sql : string) (param_oids : list Z)
| Bind (portal stmt : string) (param_formats : list Z) (params : list (option bytes)) (result_formats : list Z)
| Describe (kind : Init.Byte.byte) (name : string)
| Execute (portal : string) (max_rows : Z)
| Sync
| Flush
| Close (kind : Init.Byte.byte) (name : string)
| Terminate
| Unsupported (tag : Init.Byte.byte).

Abbreviation Reader := (Parser WireError).

Definition read_exact (n : Z) : Reader bytes := p_take Eof n.
Definition read_i32 : Reader Z := b ← read_exact 4; mret (i32_of b).

(** [split(|b| *b == 0)]. *)
Fixpoint split_nul (bs : bytes) : list bytes :=
  match bs with
  | [] => [[]]
  | b :: bs =>
      if bool_decide (b = Init.Byte.x00) then [] :: split_nul bs
      else match split_nul bs with [] => [[b]] | x :: xs => (b :: x) :: xs end
  end.

Fixpoint startup_params (parts : list bytes) : list (string * string) :=
  match parts with
  | k :: v :: parts =>
      if bool_decide (k = []) then [] else (from_utf8_lossy k, from_utf8_lossy v) :: startup_params parts
  | _ => []
  end.

Definition read_startup : Reader Startup :=
  len ← read_i32;
  if (len <? 8) || (2 ^ 20 <? len) then p_fail Malformed
  else
    body ← read_exact (len - 4);
    let code := i32_of (take 4 body) in
    if code =? 80877103 then mret SslRequest
    else if code =? 80877104 then mret Cancel
    else if code =? 80877105 then mret GssRequest
    else if code =? 196608 then mret (Params (startup_params (split_nul (drop 4 body))))
    else p_fail Malformed.

(** The cursor over a message body. *)
Definition c_take (n : Z) : Reader bytes := p_take Malformed n.
Definition c_u8 : Reader Init.Byte.byte := p_u8 Malformed.
Definition c_i16 : Reader Z := b ← c_take 2; mret (i16_of b).
Definition c_i32 : Reader Z := b ← c_take 4; mret (i32_of b).

Fixpoint until_nul (bs : bytes) : option (bytes * bytes) :=
  match bs with
  | [] => None
  | b :: bs =>
      if bool_decide (b = Init.Byte.x00) then Some ([], bs)
      else '(s, rest) ← until_nul bs; Some (b :: s, rest)
  end.

Definition c_cstr : Reader string := λ bs,
  match until_nul bs with Some (s, rest) => Ok (from_utf8_lossy s, rest) | None => Err Malformed end.

(** [let n = c.i16()? as usize; Vec::with_capacity(n)]: a negative count is a capacity that overflows. *)
Definition c_count : Reader nat := n ← c_i16; if n <? 0 then p_fail WirePanic else mret (Z.to_nat n).

Definition c_many {A} (p : Reader A) : Reader (list A) := n ← c_count; p_rep n p.

Definition c_param : Reader (option bytes) :=
  plen ← c_i32; if plen <? 0 then mret None else v ← c_take plen; mret (Some v).

(** The [match tag[0]]. *)
Definition read_body (tag : Init.Byte.byte) : Reader Frontend :=
  if bool_decide (tag = chr "Q") then sql ← c_cstr; mret (Query sql)
  else if bool_decide (tag = chr "P") then
    name ← c_cstr; sql ← c_cstr; oids ← c_many c_i32; mret (Parse name sql oids)
  else if bool_decide (tag = chr "B") then
    portal ← c_cstr; stmt ← c_cstr; fmts ← c_many c_i16; params ← c_many c_param; res ← c_many c_i16;
    mret (Bind portal stmt fmts params res)
  else if bool_decide (tag = chr "D") then kind ← c_u8; name ← c_cstr; mret (Describe kind name)
  else if bool_decide (tag = chr "E") then portal ← c_cstr; max_rows ← c_i32; mret (Execute portal max_rows)
  else if bool_decide (tag = chr "S") then mret Sync
  else if bool_decide (tag = chr "H") then mret Flush
  else if bool_decide (tag = chr "C") then kind ← c_u8; name ← c_cstr; mret (Close kind name)
  else if bool_decide (tag = chr "X") then mret Terminate
  else mret (Unsupported tag).

(** The message of a body; the cursor over the body is dropped. *)
Definition read_whole (tag : Init.Byte.byte) (body : bytes) : Reader (option Frontend) := λ rest,
  match read_body tag body with Ok (m, _) => Ok (Some m, rest) | Err e => Err e end.

Definition read_framed (tag : Init.Byte.byte) : Reader (option Frontend) :=
  len ← read_i32;
  if (len <? 4) || (2 ^ 30 <? len) then p_fail Malformed
  else body ← read_exact (len - 4); read_whole tag body.

(** [None] at the end of the stream. *)
Definition read_message : Reader (option Frontend) := λ s,
  match s with [] => Ok (None, []) | tag :: s => read_framed tag s end.

(** ** Backend messages *)

Definition Out : Type := list (Init.Byte.byte * bytes).

Definition frame (m : Init.Byte.byte * bytes) : bytes := m.1 :: i32_be (zlen m.2 + 4) ++ m.2.

Definition msg (tag : Ascii.ascii) (payload : bytes) (out : Out) : Out := out ++ [(chr tag, payload)].

Definition push_cstr (s : string) : bytes := str_bytes s ++ [Init.Byte.x00].

Definition auth_ok : Out → Out := msg "R" (i32_be 0).
Definition parameter_status (name value : string) : Out → Out := msg "S" (push_cstr name ++ push_cstr value).
Definition backend_key_data (pid key : Z) : Out → Out := msg "K" (i32_be pid ++ i32_be key).
Definition ready_for_query (status : Ascii.ascii) : Out → Out := msg "Z" [chr status].

(** A field: name, type, length of the type, format. *)
Definition Field : Type := string * Z * Z * Z.

Definition field_bytes (f : Field) : bytes :=
  let '(name, oid, len, fmt) := f in
  push_cstr name ++ i32_be 0 ++ i16_be 0 ++ i32_be oid ++ i16_be len ++ i32_be (-1) ++ i16_be fmt.

Definition row_description (fields : list Field) : Out → Out :=
  msg "T" (i16_be (zlen fields) ++ concat (field_bytes <$> fields)).

Definition cell_bytes (col : option bytes) : bytes :=
  match col with None => i32_be (-1) | Some b => i32_be (zlen b) ++ b end.

Definition data_row (cols : list (option bytes)) : Out → Out :=
  msg "D" (i16_be (zlen cols) ++ concat (cell_bytes <$> cols)).

Definition command_complete (tag : string) : Out → Out := msg "C" (push_cstr tag).
Definition empty_query_response : Out → Out := msg "I" [].
Definition parse_complete : Out → Out := msg "1" [].
Definition bind_complete : Out → Out := msg "2" [].
Definition close_complete : Out → Out := msg "3" [].
Definition no_data : Out → Out := msg "n" [].

Definition parameter_description (oids : list Z) : Out → Out :=
  msg "t" (i16_be (zlen oids) ++ concat (i32_be <$> oids)).

Definition error (severity code message : string) : Out → Out :=
  msg "E" (chr "S" :: push_cstr severity ++ chr "V" :: push_cstr severity ++ chr "C" :: push_cstr code
           ++ chr "M" :: push_cstr message ++ [Init.Byte.x00]).

(** What the socket gets. *)
Definition flush_to (out : Out) : bytes := concat (frame <$> out).

End Protocol.

(** ** Value forms *)

Module Types.

Definition OID_BOOL : Z := 16.
Definition OID_BYTEA : Z := 17.
Definition OID_INT8 : Z := 20.
Definition OID_INT4 : Z := 23.
Definition OID_TEXT : Z := 25.
Definition OID_FLOAT8 : Z := 701.

Definition column_type_oid (ct : ColumnType) : Z :=
  match ct with
  | CInteger => OID_INT8 | CReal => OID_FLOAT8 | CText => OID_TEXT | CBlob => OID_BYTEA | CVector _ => OID_TEXT
  end.

Definition type_len (oid : Z) : Z :=
  if oid =? OID_BOOL then 1
  else if oid =? OID_INT4 then 4
  else if (oid =? OID_INT8) || (oid =? OID_FLOAT8) then 8
  else -1.

(** [(seen, all_int, all_real, all_blob)] after a cell. *)
Definition seen_cell (st : bool * bool * bool * bool) (v : option Value) : bool * bool * bool * bool :=
  let '(seen, i, r, b) := st in
  match v with
  | None | Some Null => st
  | Some (Int _) => (true, i, false, false)
  | Some (Real _) => (true, false, r, false)
  | Some (Blob _) => (true, false, false, b)
  | Some (TextV _) | Some (Vector _) => (true, false, false, false)
  end.

Definition infer_column_oid (rows : list (list Value)) (col : nat) : Z :=
  let '(seen, i, r, b) := foldl (λ st row, seen_cell st (row !! col)) (false, true, true, true) rows in
  if negb seen then OID_TEXT
  else if i then OID_INT8
  else if r then OID_FLOAT8
  else if b then OID_BYTEA
  else OID_TEXT.

Definition hex_digits (b : Init.Byte.byte) : list Ascii.ascii :=
  let d n := of_code (if n <? 10 then 48 + n else 87 + n) in [d (bz b / 16); d (bz b mod 16)].

Definition hex_bytea (b : bytes) : string := "\x" +:+ string_of_list_ascii (concat (hex_digits <$> b)).

Definition format_float (r : Z) : string :=
  if small_integral F64 r then display_integral F64 r +:+ ".0" else display F64 r.

Definition encode_text (v : Value) : bytes :=
  match v with
  | Null => []
  | Int i => str_bytes (fmt_i64 i)
  | Real r => str_bytes (format_float r)
  | TextV s => str_bytes s
  | Blob b => str_bytes (hex_bytea b)
  | Vector _ => str_bytes (default ""%string (render v))
  end.

Definition encode_binary (v : Value) : bytes :=
  match v with
  | Null => []
  | Int i => i64_be i
  | Real r => i64_be r
  | TextV s => str_bytes s
  | Blob b => b
  | Vector _ => str_bytes (default ""%string (render v))
  end.

Definition encode_value (v : Value) (format : Z) : option bytes :=
  match v with
  | Null => None
  | _ => Some (if format =? 1 then encode_binary v else encode_text v)
  end.

Definition decode_param (raw : option bytes) (format : Z) : Value :=
  match raw with
  | None => Null
  | Some bs =>
      if format =? 1 then
        if zlen bs =? 4 then Int (i32_of bs)
        else if zlen bs =? 8 then Int (i64_of bs)
        else TextV (from_utf8_lossy bs)
      else
        let s := from_utf8_lossy bs in
        match parse_i64 s with
        | Some i => Int i
        | None => match parse_f64 s with Some r => Real r | None => TextV s end
        end
  end.

End Types.
