(* ===== verification/Engine.v ===== *)
(** * Statements on a connection (crates/engine/src/conn.rs, exec.rs)

    From SQL text to the store and back: the expression language the write path needs, the
    translation of a parsed statement into the operations of [Dml] and [Conn], [Connection::run] and
    its entry points, and prepared statements.

    The clock and the random numbers a statement sees are its [Host], the recursion its thread's
    stack allows is [stack].  A panic of a write statement poisons the lock of the store: the runs of
    the model end there. *)

From S2P Require Import Prelude Text StorageTypes Numbers Float Chars EngineTypes Values Json Session Funcs Like Ast Lex.
From S2P Require Import Parser Statements Expr Rls SortBy Wal MvccStore Select Joins Relational RelationalSpec Dml Recovery.
From S2P Require Import GroupCommit Conn.

(** ** The expression language of the write path *)

(** [sql::parse_expr], as the read path takes it. *)
Definition parsed_expr (sql : string) : Res Expr := map_err Failed (Parser.parse_expr sql).

(** The query of a stored view: [sql::parse] of its statement text. *)
Definition parsed_view (sql : string) : option SelectStmt :=
  match parse sql with Ok (Statement.CreateView _ q _ _ _, _) => Some q | _ => None end.

Definition sql_ops (host : Host) (sess : SessionContext) : SqlOps SelectStmt := {|
  Dml.parse_view := parsed_view;
  Dml.eval_const_sql sql := e ← parsed_expr sql; eval host sess e (ctx_root []);
  Dml.parse_expr sql := e ← Parser.parse_expr sql; Ok (λ sc vals, eval host sess e (ctx_row vals sc []))
|}.

Section Statements.
Context {VI : Type} `{!VectorIndexOps VI, !VectorSearch VI}.
Variable stack : nat.
Variable host : Host.
Variable sess : SessionContext.
Variable params : list Value.
Abbreviation Store := (Store VI SelectStmt).
Abbreviation InsertSource := (InsertSource (VI := VI) (SelectStmt := SelectStmt)).
Abbreviation InsertStmt := (InsertStmt (VI := VI) (SelectStmt := SelectStmt)).
Abbreviation UpdateStmt := (UpdateStmt (VI := VI) (SelectStmt := SelectStmt)).
Abbreviation DeleteStmt := (DeleteStmt (VI := VI) (SelectStmt := SelectStmt)).
Abbreviation eval := (eval host sess).
Abbreviation predicate := (predicate host sess).
Abbreviation rls_read := (rls_read parsed_expr sess).
Abbreviation rls_write := (rls_write parsed_expr sess).
#[local] Instance ops : SqlOps SelectStmt := sql_ops host sess.

(** RETURNING: the rows the session may read, projected. *)
Definition returning (items : option (list SelItem)) (sc : TableSchema)
    : option (list (list Value) → Res ResultSet) :=
  (λ items affected,
     visible ← rls_filter_returning parsed_expr host sess sc affected;
     project_returning host sess items sc visible params) <$> items.

(** WITH CHECK of a new row. *)
Definition with_check (cmd : PolicyCommand) (sc : TableSchema) : Res (list Value → Res unit) :=
  d ← rls_write sc cmd; Ok (enforce_rls_write host sess d sc).

(** ** INSERT *)

Definition value_slot (e : Expr) : option (Res Value) :=
  match e with EDefault => None | _ => Some (eval e (ctx_root params)) end.

Definition insert_source (src : Statement.InsertSource) : InsertSource :=
  match src return InsertSource with
  | Statement.IValues rs => SrcValues (map (map value_slot) rs)
  | Statement.ISelect q => SrcSelect (λ s wc,
      rs ← run_select parsed_expr host sess stack s q (wc_snapshot wc) (Some (wc_owner wc)) params;
      Ok (rs_rows rs))
  end.

(** An expression of ON CONFLICT DO UPDATE sees the existing row and, as [excluded], the proposed one. *)
Definition upsert_expr (sc : TableSchema) (e : Expr) (existing excluded : list Value) : Res Value :=
  eval e (mkCtx (Some existing) (Some sc) params None (Some excluded) None).

Definition conflict_action (sc : TableSchema) (oc : Statement.OnConflict) : OnConflict :=
  match oc return OnConflict with
  | Statement.OnError => OCError
  | Statement.OnNothing => OCNothing
  | Statement.OnReplace => OCReplace
  | Statement.OnUpdate sets cond =>
      OCUpdate (prod_map id (upsert_expr sc) <$> sets) (upsert_expr sc <$> cond)
  end.

(** ** DELETE and UPDATE *)

(** The namespace of the target in a joined statement. *)
Definition target_rel_cols (sc : TableSchema) (tname : string) : list RelCol :=
  (λ c, mkRelCol (Some tname) (col_name c) (col_ty c)) <$> columns sc.

(** The sources of a joined statement, as the writer sees them. *)
Definition join_source (s : Store) (wc : WriteCtx) (from : FromClause) : Res (list RelCol * list (list Value)) :=
  materialize host sess params (view s) (read_table parsed_expr host sess s (wc_snapshot wc) (Some (wc_owner wc)) params)
    (λ q, run_query parsed_expr host sess stack s q (wc_snapshot wc) (Some (wc_owner wc)) params) from.

(** The first combination of a target row with a source row that the filter accepts. *)
Fixpoint first_match (cond : option Expr) (cols : list RelCol) (vals : list Value) (frows : list (list Value))
    : Res (option (list Value)) :=
  match frows with
  | [] => Ok None
  | f :: frows =>
      b ← predicate cond (ctx_rel (vals ++ f) cols params);
      if b : bool then Ok (Some (vals ++ f)) else first_match cond cols vals frows
  end.

(** Which rows of the target a statement takes, with the row its expressions are evaluated on. *)
Definition matched_row (cmd : PolicyCommand) (tname : string) (from : option FromClause) (cond : option Expr)
    (s : Store) (wc : WriteCtx) (sc : TableSchema) : Res (list Value → Res (option (list Value))) :=
  match from with
  | None =>
      d ← rls_read sc cmd;
      Ok (λ vals,
        let cx := ctx_row vals sc params in
        b ← passes host sess d cx;
        if b : bool then b ← predicate cond cx; Ok (if b : bool then Some vals else None)
        else Ok None)
  | Some from =>
      '(fcols, frows) ← join_source s wc from;
      let cols := target_rel_cols sc tname ++ fcols in
      d ← rls_read sc cmd;
      Ok (λ vals,
        b ← passes host sess d (ctx_row vals sc params);
        if b : bool then first_match cond cols vals frows else Ok None)
  end.

Definition deleted_row (tname : string) (from : option FromClause) (cond : option Expr)
    (s : Store) (wc : WriteCtx) (sc : TableSchema) : Res (list Value → Res bool) :=
  m ← matched_row PDelete tname from cond s wc sc;
  Ok (λ vals, c ← m vals; Ok (bool_decide (is_Some c))).

(** An assignment on the row that matched. *)
Definition set_expr (s : Store) (wc : WriteCtx) (sc : TableSchema) (tname : string) (from : option FromClause)
    (e : Expr) (row : list Value) : Res Value :=
  match from with
  | None => eval e (ctx_row row sc params)
  | Some from =>
      '(fcols, _) ← join_source s wc from;
      eval e (ctx_rel row (target_rel_cols sc tname ++ fcols) params)
  end.

(** ** The write statements *)

Definition schema_of (s : Store) (tname : string) : TableSchema :=
  match table s tname with Some t => schema t | None => mkSchema tname [] [] [] [] false [] end.

Definition insert_stmt (s : Store) (tname : string) (cols : option (list string)) (src : Statement.InsertSource)
    (oc : Statement.OnConflict) (ret : option (list SelItem)) : InsertStmt :=
  let sc := schema_of s tname in
  mkInsert tname cols (insert_source src) (with_check PInsert) (conflict_action sc oc) (returning ret sc).

Definition update_stmt (s : Store) (wc : WriteCtx) (tname : string) (sets : list (string * Expr))
    (from : option FromClause) (cond : option Expr) (ret : option (list SelItem)) : UpdateStmt :=
  let sc := schema_of s tname in
  mkUpdate tname (prod_map id (set_expr s wc sc tname from) <$> sets) (matched_row PUpdate tname from cond)
    (with_check PUpdate) (returning ret sc).

Definition delete_stmt (s : Store) (tname : string) (from : option FromClause) (cond : option Expr)
    (ret : option (list SelItem)) : DeleteStmt :=
  mkDelete tname (deleted_row tname from cond) (returning ret (schema_of s tname)).

(** The dispatch of [exec_dml]; other statements do not reach it. *)
Definition dml_run (st : Statement.Stmt) (wc : WriteCtx) : Comp Store Fault Mutation := λ s,
  match st with
  | Statement.Insert tname cols src oc ret => run_insert (insert_stmt s tname cols src oc ret) wc s
  | Statement.Update tname sets from cond ret => run_update (update_stmt s wc tname sets from cond ret) wc s
  | Statement.Delete tname from cond ret => run_delete (delete_stmt s tname from cond ret) wc s
  | _ => (s, panic)
  end.

End Statements.

(** ** DDL *)

Definition column_of (c : Statement.ColumnSpec) : Column :=
  mkColumn (Statement.cs_name c) (Statement.cs_ty c) (Statement.cs_primary_key c) (Statement.cs_not_null c)
    (Statement.cs_unique c) (Statement.cs_autoincrement c) (Statement.cs_default_sql c).

Definition fk_spec_of (f : Statement.ForeignKeySpec) : ForeignKeySpec :=
  mkFkSpec (Statement.fs_name f) (Statement.fs_columns f) (Statement.fs_foreign_table f)
    (Statement.fs_foreign_columns f).

Definition create_table_of (d : Statement.CreateTableDef) : CreateTableStmt :=
  mkCreateTable (Statement.td_name d) (column_of <$> Statement.td_columns d)
    (fk_spec_of <$> Statement.td_foreign_keys d) (Statement.td_primary_key d) (Statement.td_uniques d)
    (Statement.td_checks d) (Statement.td_if_not_exists d).

Definition alter_of (a : Statement.AlterAction) : AlterAction :=
  match a with
  | Statement.AddColumn spec => AAddColumn (column_of spec)
  | Statement.DropColumn name ie => ADropColumn name ie
  | Statement.RenameColumn from to => ARenameColumn from to
  | Statement.RenameTable to => ARenameTable to
  | Statement.SetRls on => ASetRls on
  end.

Definition policy_of (p : Statement.PolicyDef) : Policy :=
  mkPolicy (Statement.pd_name p) (Statement.pd_command p) (Statement.pd_roles p) (Statement.pd_using p)
    (Statement.pd_check p).

(** The statements [exec_ddl] takes. *)
Definition ddl_of (st : Statement.Stmt) : option (Ddl SelectStmt) :=
  match st with
  | Statement.CreateTable def => Some (DCreateTable (create_table_of def))
  | Statement.AlterTable t a => Some (DAlterTable t (alter_of a))
  | Statement.DropTable name ie => Some (DDropTable name ie)
  | Statement.CreateIndex name t c ps ine => Some (DCreateIndex (mkIndexDef name t c ps) ine)
  | Statement.DropIndex name ie => Some (DDropIndex name ie)
  | Statement.CreateView name q sql rep ine => Some (DCreateView name q sql rep ine)
  | Statement.DropView name ie => Some (DDropView name ie)
  | Statement.CreatePolicy p => Some (DCreatePolicy (Statement.pd_table p) (policy_of p))
  | Statement.DropPolicy name t ie => Some (DDropPolicy name t ie)
  | _ => None
  end.

Definition is_dml (st : Statement.Stmt) : bool :=
  match st with Statement.Insert _ _ _ _ _ | Statement.Update _ _ _ _ _ | Statement.Delete _ _ _ _ => true | _ => false end.

(** ** Results of utility statements *)

Definition show_value (k : string) : string :=
  if bool_decide (k = "transaction_isolation") || bool_decide (k = "default_transaction_isolation")
     || bool_decide (k = "transaction isolation level")
  then "repeatable read" else "".

Definition show_result (name : string) : ResultSet :=
  let k := to_ascii_lowercase name in
  mkResultSet [if bool_decide (k = ""%string) then "setting"%string else name] [CText] [[TextV (show_value k)]].

Definition explain_plan (st : Statement.Stmt) : string :=
  match st with
  | Statement.Select _ => "Query plan: scan / nested-loop join over the MVCC snapshot"
  | Statement.Insert _ _ _ _ _ => "Insert"
  | Statement.Update _ _ _ _ _ => "Update (scan + supersede)"
  | Statement.Delete _ _ _ _ => "Delete (scan + supersede)"
  | _ => "Utility statement"
  end.

Definition explain_result (st : Statement.Stmt) : ResultSet :=
  mkResultSet ["QUERY PLAN"%string] [CText] [[TextV (explain_plan st)]].

(** ** Reflection *)

Definition pg_type_name (ty : ColumnType) : string :=
  match ty with
  | CInteger => "bigint" | CReal => "double precision" | CText => "text" | CBlob => "bytea" | CVector _ => "text"
  end.

Record CatalogColumn := mkCatalogColumn {
  cc_name : string;
  cc_pg_type : string;
  cc_ty : ColumnType;
  cc_not_null : bool;
  cc_primary_key : bool;
  cc_unique : bool;
  cc_default_sql : option string;
  cc_position : Z
}.

(** The foreign keys are those of the schema. *)
Record CatalogTable := mkCatalogTable {
  ctb_name : string;
  ctb_columns : list CatalogColumn;
  ctb_foreign_keys : list ForeignKey
}.

Definition catalog_column (i : nat) (c : Column) : CatalogColumn :=
  mkCatalogColumn (col_name c) (pg_type_name (col_ty c)) (col_ty c) (not_null c) (primary_key c)
    (unique c && negb (primary_key c)) (default_sql c) (Z.of_nat (S i)).

Definition catalog_table (sc : TableSchema) : CatalogTable :=
  mkCatalogTable (schema_name sc) (imap catalog_column (columns sc)) (foreign_keys sc).

Record CatalogPolicy := mkCatalogPolicy {
  cpo_table : string;
  cpo_name : string;
  cpo_command : string;
  cpo_roles : list string;
  cpo_using : option string;
  cpo_check : option string
}.

Definition catalog_policies (sc : TableSchema) : list CatalogPolicy :=
  (λ p, mkCatalogPolicy (schema_name sc) (pol_name p) (PolicyCommand_as_str (pol_command p)) (pol_roles p)
          (pol_using p) (pol_check p)) <$> policies sc.

(** By table, then by policy. *)
Definition policy_le (a b : CatalogPolicy) : Prop :=
  if decide (cpo_table a = cpo_table b) then String.le (cpo_name a) (cpo_name b)
  else String.le (cpo_table a) (cpo_table b).
#[local] Instance policy_le_dec : RelDecision policy_le.
Proof. intros a b. unfold policy_le. destruct (decide _); apply _. Defined.

(** ** The connection *)

Module Db.

(** [Connection] with its principal and its recall setting. *)
Record Handle := mkHandle {
  h_conn : Connection;
  h_ef : option Z;
  h_session : SessionContext
}.

Definition Connection_default : Connection := mkConn None 0 0.
Definition Handle_new : Handle := mkHandle Connection_default None SessionContext_default.

Definition in_transaction (h : Handle) : bool := bool_decide (is_Some (txn (h_conn h))).

Definition apply_session_set (set : Statement.SessionSet) (s : SessionContext) : SessionContext :=
  match set with
  | Statement.SRole r => set_role r s
  | Statement.SClaims c => set_claims c s
  | Statement.SBypass on => set_bypass on s
  end.

Section Run.
Context {VI : Type} `{!VectorIndexOps VI, !VectorSearch VI}.
Context {B : Type} `{!EngineStorage B}.
Variable stack : nat.
Variable host : Host.
Abbreviation Database := (Database VI SelectStmt B).
Abbreviation R A := (Comp (Database * Handle) Fault A).

Definition catalog (d : Database) : list CatalogTable := catalog_table <$> table_schemas (db_store d).

Definition policies (d : Database) : list CatalogPolicy :=
  merge_sort policy_le (table_schemas (db_store d) ≫= catalog_policies).

(** Whether the first table of that name has row-level security. *)
Definition rls_enabled (d : Database) (name : string) : bool :=
  match List.find (λ sc, eq_ignore_ascii_case (schema_name sc) name) (table_schemas (db_store d)) with
  | Some sc => EngineTypes.rls_enabled sc
  | None => false
  end.

(** A step of the connection's transaction, with an empty result. *)
Definition on_conn {E} (e : E → Fault) (m : Comp (Database * Connection) E unit) : R ResultSet := λ '(d, h),
  let '((d, c), r) := m (d, h_conn h) in
  ((d, mkHandle c (h_ef h) (h_session h)), map_err e (_ ← r; Ok ResultSet_default)).

Definition on_dml (m : Comp (Database * Connection) Fault ResultSet) : R ResultSet := λ '(d, h),
  let '((d, c), r) := m (d, h_conn h) in ((d, mkHandle c (h_ef h) (h_session h)), r).

Definition done_with (rs : ResultSet) : R ResultSet := λ x, (x, Ok rs).

Definition run_select_stmt (sel : SelectStmt) (params : list Value) : R ResultSet := λ '(d, h),
  let '(snap, w) := read_snapshot d (h_conn h) in
  match run_select_tuned parsed_expr host (h_session h) stack (db_store d) sel snap w params (h_ef h) with
  | Ok rs => ((d, mkHandle (set_changes 0 (h_conn h)) (h_ef h) (h_session h)), Ok rs)
  | Err e => ((d, h), Err e)
  end.

(** [SHOW twill.vector_ef_search] gives the session's setting. *)
Definition show_stmt (h : Handle) (name : string) : ResultSet :=
  if eq_ignore_ascii_case name VECTOR_EF_SEARCH_GUC
  then mkResultSet [VECTOR_EF_SEARCH_GUC] [CText] [[TextV (match h_ef h with Some n => fmt_i64 n | None => "" end)]]
  else show_result name.

(** [Connection::run]. *)
Definition run (st : Statement.Stmt) (params : list Value) : R ResultSet := λ '(d, h),
  match st with
  | Statement.SetSession set =>
      ((d, mkHandle (h_conn h) (h_ef h) (apply_session_set set (h_session h))), Ok ResultSet_default)
  | Statement.Begin => on_conn Failed begin (d, h)
  | Statement.Commit => on_conn Failed commit (d, h)
  | Statement.Rollback => on_conn Failed rollback (d, h)
  | Statement.Savepoint name => on_conn Failed (savepoint name) (d, h)
  | Statement.ReleaseSavepoint name => on_conn Failed (release_savepoint name) (d, h)
  | Statement.RollbackTo name => on_conn Failed (rollback_to name) (d, h)
  | Statement.Select sel => run_select_stmt sel params (d, h)
  | Statement.Insert _ _ _ _ _ | Statement.Update _ _ _ _ _ | Statement.Delete _ _ _ _ =>
      on_dml (exec_dml (dml_run stack host (h_session h) params st)) (d, h)
  | Statement.Noop => done_with ResultSet_default (d, h)
  | Statement.SetVectorEf v =>
      ((d, mkHandle (set_changes 0 (h_conn h)) v (h_session h)), Ok ResultSet_default)
  | Statement.ShowSetting name => done_with (show_stmt h name) (d, h)
  | Statement.Explain st => done_with (explain_result st) (d, h)
  | Statement.CreateTable _ | Statement.AlterTable _ _ | Statement.DropTable _ _
  | Statement.CreateIndex _ _ _ _ _ | Statement.DropIndex _ _ | Statement.CreateView _ _ _ _ _
  | Statement.DropView _ _ | Statement.CreatePolicy _ | Statement.DropPolicy _ _ _ =>
      match ddl_of st with
      | Some ddl => on_conn Failed (exec_ddl (SqlOps0 := sql_ops host (h_session h)) referenced_relations ddl) (d, h)
      | None => ((d, h), panic)
      end
  end.

(** [query]; [exec] drops the result. *)
Definition query (sql : string) : R ResultSet := λ x,
  match parse sql with
  | Ok (st, _) => run st [] x
  | Err e => (x, Err (Failed e))
  end.

Definition exec (sql : string) : R unit := λ x,
  let '(x, r) := query sql x in (x, _ ← r; Ok tt).

(** [Drop]. *)
Definition close (d : Database) (h : Handle) : Database := drop_connection d (h_conn h).

(** ** Prepared statements *)

Record Prepared := mkPrepared {
  ps_stmt : Statement.Stmt;
  ps_params : list Value;
  ps_result : option ResultSet;
  ps_row_idx : nat;
  ps_cur : option nat;
  ps_executed : bool
}.

(** [nparams] is the length of the parameters. *)
Definition param_count (p : Prepared) : Z := zlen (ps_params p).

Definition prepare (sql : string) : Result EngineStatus Prepared :=
  '(st, n) ← parse sql;
  Ok (mkPrepared st (replicate (Z.to_nat n) Null) None 0 None false).

Definition bind (idx : Z) (v : Value) (p : Prepared) : Result EngineStatus Prepared :=
  if (idx <? 1) || (param_count p <? idx) then Err ErrMisuse
  else Ok (mkPrepared (ps_stmt p) (<[Z.to_nat (idx - 1) := v]> (ps_params p)) (ps_result p) (ps_row_idx p)
             (ps_cur p) (ps_executed p)).

Abbreviation P A := (Comp (Database * Handle * Prepared) Fault A).

(** Runs the statement unless it has run since the last reset; [execute] is this. *)
Definition ensure_executed : P unit := λ '(x, p),
  if ps_executed p then ((x, p), Ok tt)
  else match run (ps_stmt p) (ps_params p) x with
       | (x, Ok rs) => ((x, mkPrepared (ps_stmt p) (ps_params p) (Some rs) 0 None true), Ok tt)
       | (x, Err e) => ((x, p), Err e)
       end.

(** [result.as_ref().unwrap()]. *)
Definition step : P bool := λ x,
  match ensure_executed x with
  | ((x, p), Ok _) =>
      match ps_result p with
      | None => ((x, p), panic)
      | Some rs =>
          if (ps_row_idx p <? length (rs_rows rs))%nat
          then ((x, mkPrepared (ps_stmt p) (ps_params p) (ps_result p) (S (ps_row_idx p))
                      (Some (ps_row_idx p)) (ps_executed p)), Ok true)
          else ((x, mkPrepared (ps_stmt p) (ps_params p) (ps_result p) (ps_row_idx p) None (ps_executed p)),
                Ok false)
      end
  | (x, Err e) => (x, Err e)
  end.

Definition reset (p : Prepared) : Prepared := mkPrepared (ps_stmt p) (ps_params p) None 0 None false.

Definition column_count (p : Prepared) : nat :=
  match ps_result p with Some rs => length (rs_columns rs) | None => 0 end.
Definition column_name (p : Prepared) (col : nat) : option string := rs ← ps_result p; rs_columns rs !! col.
Definition column_type (p : Prepared) (col : nat) : option ColumnType := rs ← ps_result p; rs_types rs !! col.
Definition column_value (p : Prepared) (col : nat) : option Value :=
  rs ← ps_result p; cur ← ps_cur p; row ← rs_rows rs !! cur; row !! col.

(** The affected rows, as the connection has them now. *)
Definition changes (h : Handle) : Z := last_changes (h_conn h).

End Run.

End Db.
