(* ===== verification/Introspect.v ===== *)
(** * Answers of the server itself (crates/server/src/introspect.rs, capability.rs, reflect.rs)

    Statements that never reach the engine: the classifier of connect-time queries with its canned
    answers, the refusal of other system-catalog queries, and the catalog reflected as the rows a
    schema cache decodes.  The process id and the counters of the engine are arguments. *)

From S2P Require Import Prelude Text StorageTypes Numbers Float Chars EngineTypes Values Wal MvccStore Dml Conn Engine Wire.

(** The double quote. *)
Definition dquote : string := String (of_code 34) EmptyString.

(** [s.trim_start_matches(c)]. *)
Fixpoint trim_start_matches (c : Ascii.ascii) (s : string) : string :=
  match s with
  | EmptyString => EmptyString
  | String a r => if Ascii.eqb a c then trim_start_matches c r else s
  end.

(** [s.find(pat)]: the bytes before the first occurrence. *)
Fixpoint find_str (pat s : string) : option nat :=
  if starts_with pat s then Some 0%nat
  else match s with EmptyString => None | String _ s => S <$> find_str pat s end.

(** [&s[..n]] and [&s[n..]], at the bounds of characters. *)
Definition str_take (n : nat) (s : string) : string := String.substring 0 n s.
Definition str_drop (n : nat) (s : string) : string := String.substring n (String.length s - n) s.

(** [char::is_whitespace]. *)
Definition char_whitespace (c : Z) : bool := existsb (String.eqb (of_char c)) whitespace.

(** [s.matches(pat).count()], for a pattern that is not empty. *)
Fixpoint count_matches (fuel : nat) (pat s : string) : Z :=
  match fuel with
  | O => 0
  | S fuel => match split_once pat s with Some (_, r) => 1 + count_matches fuel pat r | None => 0 end
  end.

(** [text[..]] of a list of strings. *)
Definition text_rows (l : list string) : list Value := TextV <$> l.

(** ** Canned answers *)

Module Introspect.

Definition SERVER_VERSION : string := "15.0".
Definition SERVER_VERSION_NUM : string := "150000".

Inductive CatalogKind := KColumns | KRelationships.
Inductive ReflectKind := RTables | RRelationships.

Inductive Canned :=
| Rows (columns : list string) (oids : list Z) (rows : list (list Value)) (tag : string)
| Tag (tag : string)
| Reflect (kind : ReflectKind)
| Stats
| Catalog (kind : CatalogKind)
| Pass.

(** [engine::EngineStats]. *)
Record EngineStats := mkEngineStats {
  es_commits : Z;
  es_durable_appends : Z;
  es_committed_lsn : Z;
  es_write_acquires : Z;
  es_write_handoffs : Z;
  es_write_wait_us_total : Z;
  es_storage : StorageStats
}.

Definition is_one_of (s : string) (l : list string) : bool := existsb (String.eqb s) l.

Definition setting_value (name : string) : string :=
  if String.eqb name "server_version" then SERVER_VERSION
  else if String.eqb name "server_version_num" then SERVER_VERSION_NUM
  else if is_one_of name ["transaction isolation level"; "default_transaction_isolation"; "transaction_isolation"]
  then "read committed"
  else if String.eqb name "transaction_read_only" then "off"
  else if is_one_of name ["server_encoding"; "client_encoding"] then "UTF8"
  else if String.eqb name "standard_conforming_strings" then "on"
  else if String.eqb name "search_path" then dquote +:+ "$user" +:+ dquote +:+ ", public"
  else if String.eqb name "max_index_keys" then "32"
  else if String.eqb name "integer_datetimes" then "on"
  else if String.eqb name "datestyle" then "ISO, MDY"
  else if String.eqb name "timezone" then "UTC"
  else "".

Definition one_row (col value : string) : Canned := Rows [col] [] [[TextV value]] "SELECT 1".
Definition empty_rows (cols : list string) : Canned := Rows cols [] [] "SELECT 0".

(** [format!("SELECT {n}")]. *)
Definition select_tag (n : Z) : string := "SELECT " +:+ fmt_i64 n.

Definition or_else {A} (a b : option A) : option A := match a with Some x => Some x | None => b end.

Definition is_rls_session_stmt (s : string) : bool :=
  match or_else (strip_prefix "set " s) (strip_prefix "reset " s) with
  | None => false
  | Some b =>
      let body := trim_start b in
      let body := match or_else (strip_prefix "local " body) (strip_prefix "session " body) with
                  | Some r => trim_start r
                  | None => body
                  end in
      let body := trim_start_matches (of_code 34) body in
      existsb (λ name,
        match strip_prefix name body with
        | None => false
        | Some EmptyString => true
        | Some (String a _) => existsb (λ c, code a =? c) [34; 32; 9; 61; 59]
        end) ["role"; "twill.jwt.claims"; "request.jwt.claims"; "twill.rls.bypass"]
  end.

Definition session_noop_tag (s : string) : option string :=
  if starts_with "set " s || String.eqb s "begin read only" then Some "SET"%string
  else if starts_with "discard " s then Some "DISCARD ALL"%string
  else if starts_with "listen " s then Some "LISTEN"%string
  else if starts_with "unlisten " s then Some "UNLISTEN"%string
  else None.

Definition is_twill_stats_query (s : string) : bool :=
  is_one_of s ["show twill.stats"; "show twill_stats"; "select * from twill.stats"; "select * from twill_stats";
               "table twill.stats"; "table twill_stats"].

Definition names_view (s name : string) : bool :=
  existsb (λ p, bool_decide (trim <$> strip_prefix p s = Some name)) ["show "; "table "; "select * from "].

Definition twill_catalog_query (s : string) : option CatalogKind :=
  if names_view s "twill.catalog" || names_view s "twill_catalog" then Some KColumns
  else if names_view s "twill.relationships" || names_view s "twill_relationships" then Some KRelationships
  else None.

(** [Value::Int(v as i64)]. *)
Definition metric_row (m : string * Z) : list Value := [TextV m.1; Int (u64_as_i64 m.2)].

Definition metrics_of (st : EngineStats) : list (string * Z) :=
  let so := es_storage st in
  [("twill_commit_total", es_commits st); ("twill_durable_append_total", es_durable_appends st);
   ("twill_committed_lsn", es_committed_lsn st); ("twill_write_lane_acquire_total", es_write_acquires st);
   ("twill_write_handoff_total", es_write_handoffs st); ("twill_write_wait_us_total", es_write_wait_us_total st);
   ("twill_storage_wal_appends_total", wal_appends so); ("twill_storage_wal_bytes_total", wal_bytes_total so);
   ("twill_storage_page_reads_total", page_reads so); ("twill_storage_page_read_bytes_total", page_read_bytes so);
   ("twill_storage_cache_hits_total", cache_hits so); ("twill_storage_cache_misses_total", cache_misses so);
   ("twill_storage_fetch_latency_us_total", fetch_latency_us_total so); ("twill_storage_fsync_total", fsyncs so)]%string.

Definition stats_rows (st : EngineStats) : Canned :=
  let rows := metric_row <$> metrics_of st in Rows ["metric"; "value"]%string [] rows (select_tag (zlen rows)).

Definition sql_type_name (ty : ColumnType) : string :=
  match ty with
  | CInteger => "integer" | CReal => "real" | CText => "text" | CBlob => "blob"
  | CVector n => "vector(" +:+ fmt_i64 n +:+ ")"
  end.

Definition flag (b : bool) : Value := Int (if b then 1 else 0).

Definition catalog_columns_rows (catalog : list CatalogTable) : Canned :=
  let rows := catalog ≫= λ t, (λ c,
    [TextV (ctb_name t); TextV (cc_name c); TextV (sql_type_name (cc_ty c)); flag (cc_not_null c);
     flag (cc_primary_key c); flag (cc_unique c); TextV (default ""%string (cc_default_sql c))]) <$> ctb_columns t in
  Rows ["tbl"; "col"; "typ"; "notnull"; "pk"; "uniq"; "dflt"]%string [] rows (select_tag (zlen rows)).

Definition catalog_relationships_rows (catalog : list CatalogTable) : Canned :=
  let rows := catalog ≫= λ t, (λ fk,
    text_rows [ctb_name t; fk_name fk; join_str "," (fk_columns fk); foreign_table fk; join_str "," (foreign_columns fk)])
      <$> ctb_foreign_keys t in
  Rows ["tbl"; "name"; "cols"; "ftable"; "fcols"]%string [] rows (select_tag (zlen rows)).

Definition catalog_reflect (kind : CatalogKind) (catalog : list CatalogTable) : Canned :=
  match kind with KColumns => catalog_columns_rows catalog | KRelationships => catalog_relationships_rows catalog end.

Definition version_text : string := "PostgreSQL " +:+ SERVER_VERSION +:+ " (twill-db engine-server)".

(** The queries of a schema cache that have no rows here: their markers and columns, in order. *)
Definition empty_queries_a : list (list string * list string) :=
  [(["pg_timezone_names"], ["name"]);
   (["pg_cast"; "castsource"], ["castsource"; "casttarget"; "castfunc"]);
   (["computed_rels"; "all_relations"],
    ["name"; "rel_table_schema"; "rel_table_name"; "rel_ftable_schema"; "rel_ftable_name"; "single_row"; "is_self"]);
   (["rettype_is_setof"; "proargmodes"],
    ["proc_schema"; "proc_name"; "proc_description"; "args"; "schema"; "name"; "rettype_is_setof"; "rettype_is_composite";
     "rettype_is_composite_alias"; "provolatile"; "hasvariadic"; "transaction_isolation_level"; "kvs"])]%string.
Definition empty_queries_b : list (list string * list string) :=
  [(["pks_fks"; "column_dependencies"],
    ["table_schema"; "table_name"; "view_schema"; "view_name"; "constraint_name"; "constraint_type"; "column_dependencies"]);
   (["pg_db_role_setting"], ["key"; "value"]);
   (["pg_auth_members"], ["rolname"; "iso_lvl"; "role_settings"])]%string.

Definition mentions (s : string) (q : list string * list string) : bool := existsb (λ m, str_contains m s) q.1.
Definition empty_query (qs : list (list string * list string)) (s : string) : option Canned :=
  (λ q, empty_rows q.2) <$> List.find (mentions s) qs.

(** The first answer that applies. *)
Fixpoint first_answer (l : list (option Canned)) : Canned :=
  match l with [] => Pass | Some c :: _ => c | None :: l => first_answer l end.

Definition set_config_rows (s : string) : Canned :=
  let n := Z.to_nat (Z.max 1 (count_matches (String.length s) "set_config(" s)) in
  Rows (replicate n "set_config"%string) [] [replicate n (TextV "")] "SELECT 1".

Definition when (b : bool) (c : Canned) : option Canned := if b then Some c else None.

(** The probes that take the text without its whitespace. *)
Definition version_probe : string :=
  "selectcurrent_setting('server_version_num')::integer,current_setting('server_version'),version()".
Definition version_rows : Canned :=
  Rows ["server_version_num"; "server_version"; "version"]%string []
    [[Int (default 150000 (parse_i64 SERVER_VERSION_NUM)); TextV SERVER_VERSION; TextV version_text]] "SELECT 1".
Definition current_setting_probe (compact : string) : option Canned :=
  rest ← strip_prefix "selectcurrent_setting('" compact;
  '(name, _) ← split_once "'" rest;
  Some (one_row "current_setting" (setting_value name)).

Definition compact_of (s : string) : string := of_chars (List.filter (λ c, negb (char_whitespace c)) (chars s)).

(** [sql.trim().trim_end_matches(';').trim().to_ascii_lowercase()]. *)
Definition statement_key (sql : string) : string := to_ascii_lowercase (trim (trim_end_matches ";" (trim sql))).

Definition intercept (pid : Z) (sql user database : string) : Canned :=
  let s := statement_key sql in
  if is_rls_session_stmt s then Pass
  else
    first_answer
      [Tag <$> session_noop_tag s;
       when (is_twill_stats_query s) Stats;
       Catalog <$> twill_catalog_query s;
       (λ rest, one_row (trim rest) (setting_value (trim rest))) <$> strip_prefix "show " s;
       when (starts_with "select set_config(" s) (set_config_rows s);
       when (str_contains "pg_relation_is_updatable" s) (Reflect RTables);
       empty_query empty_queries_a s;
       when (str_contains "pks_uniques_cols" s) (Reflect RRelationships);
       empty_query empty_queries_b s;
       when (starts_with version_probe (compact_of s)) version_rows;
       current_setting_probe (compact_of s);
       when (String.eqb s "select version()") (one_row "version" version_text);
       when (is_one_of s ["select current_schema()"; "select current_schema"]) (one_row "current_schema" "public");
       when (is_one_of s ["select current_database()"; "select current_database"]) (one_row "current_database" database);
       when (is_one_of s ["select current_user"; "select user"; "select current_user()"]) (one_row "current_user" user);
       when (String.eqb s "select pg_backend_pid()") (Rows ["pg_backend_pid"%string] [] [[Int pid]] "SELECT 1")].

End Introspect.

(** ** Refused catalog queries *)

Module Capability.

Definition UNSUPPORTED_CATALOG_MARKERS : list string :=
  ["pg_catalog."; "information_schema."; " from pg_"; " join pg_"; "::regclass"; "::regproc"; "::regtype"; "pg_get_"].

(** Runs of ASCII whitespace become one space. *)
Fixpoint collapse (prev_space : bool) (s : string) : string :=
  match s with
  | EmptyString => EmptyString
  | String a s =>
      if is_ascii_whitespace (code a) then
        if prev_space then collapse true s else String " " (collapse true s)
      else String a (collapse false s)
  end.

Definition normalize (sql : string) : string := collapse false (to_ascii_lowercase sql).

Definition reason_for (marker : string) : string :=
  "unsupported catalog query: this engine-server answers only the pgwire introspection subset frozen in the capability matrix (spec 07 addendum); '"
  +:+ trim marker +:+ "' is not implemented".

Definition unsupported_catalog_reason (sql : string) : option string :=
  reason_for <$> List.find (λ m, str_contains m (normalize sql)) UNSUPPORTED_CATALOG_MARKERS.

(** ** The documented subset *)

Inductive Support := Answered | Reflected | Stubbed | Errored.

Record MessageCap := mkMessageCap { mc_tag : Ascii.ascii; mc_name : string; mc_support : Support; mc_note : string }.

Definition PROTOCOL_MESSAGES : list MessageCap :=
  [mkMessageCap (of_code 0) "StartupMessage" Answered "protocol 3.0; trust auth, cleartext";
   mkMessageCap (of_code 0) "SSLRequest" Stubbed "declined with 'N'; client proceeds cleartext";
   mkMessageCap (of_code 0) "GSSENCRequest" Stubbed "declined with 'N'";
   mkMessageCap (of_code 0) "CancelRequest" Stubbed "accepted and ignored (no out-of-band cancel)";
   mkMessageCap "Q"%char "Query (simple)" Answered "multi-statement, intercepts + engine";
   mkMessageCap "P"%char "Parse" Answered "$n placeholders rewritten to engine '?'";
   mkMessageCap "B"%char "Bind" Answered "text + binary parameter formats";
   mkMessageCap "D"%char "Describe" Answered "statement + portal; ParameterDescription/RowDescription";
   mkMessageCap "E"%char "Execute" Answered "text + binary result formats";
   mkMessageCap "C"%char "Close" Answered "statement + portal";
   mkMessageCap "S"%char "Sync" Answered "ReadyForQuery; ends skip-until-Sync";
   mkMessageCap "H"%char "Flush" Answered "accepted (buffered writes already flushed)";
   mkMessageCap "X"%char "Terminate" Answered "closes the connection";
   mkMessageCap "p"%char "PasswordMessage (SCRAM/MD5)" Errored "non-goal: only trust auth this phase";
   mkMessageCap "F"%char "FunctionCall" Errored "non-goal: legacy fast-path";
   mkMessageCap "d"%char "CopyData" Errored "non-goal: COPY protocol"].

Record CatalogCap := mkCatalogCap { ca_marker : string; ca_purpose : string; ca_support : Support; ca_clients : string }.

Definition CATALOG_QUERIES : list CatalogCap :=
  [mkCatalogCap "server_version_num" "version probe (numeric) — the make-or-break startup gate" Answered "PostgREST, Bun.sql";
   mkCatalogCap "version()" "version string" Answered "PostgREST, psql, Bun.sql";
   mkCatalogCap "current_setting" "GUC accessor (server_version_num, encodings, …)" Answered "PostgREST, Bun.sql";
   mkCatalogCap "show " "SHOW <guc>" Answered "psql, Bun.sql";
   mkCatalogCap "set " "session SET (search_path, role, …)" Stubbed "PostgREST, psql";
   mkCatalogCap "set_config(" "PostgREST per-request preamble" Stubbed "PostgREST";
   mkCatalogCap "discard " "DISCARD ALL on pool checkin" Stubbed "poolers";
   mkCatalogCap "listen " "LISTEN/UNLISTEN (no engine pub/sub)" Stubbed "PostgREST";
   mkCatalogCap "current_schema" "current schema()" Answered "Bun.sql, ORMs";
   mkCatalogCap "current_database" "current database()" Answered "Bun.sql, ORMs";
   mkCatalogCap "current_user" "current_user / user" Answered "Bun.sql, ORMs";
   mkCatalogCap "pg_backend_pid()" "backend pid" Answered "psql, Bun.sql";
   mkCatalogCap "pg_relation_is_updatable" "schema cache: tables/columns/PKs" Reflected "PostgREST";
   mkCatalogCap "pks_uniques_cols" "schema cache: FK relationships (embedding)" Reflected "PostgREST";
   mkCatalogCap "pg_timezone_names" "timezone list (Prefer: timezone=)" Stubbed "PostgREST";
   mkCatalogCap "pg_cast" "cast introspection" Stubbed "PostgREST";
   mkCatalogCap "computed_rels" "computed relationships" Stubbed "PostgREST";
   mkCatalogCap "rettype_is_setof" "functions/RPC introspection" Stubbed "PostgREST";
   mkCatalogCap "pks_fks" "view-relationship dependencies" Stubbed "PostgREST";
   mkCatalogCap "pg_db_role_setting" "per-role config settings" Stubbed "PostgREST";
   mkCatalogCap "pg_auth_members" "per-role GUCs" Stubbed "PostgREST";
   mkCatalogCap "twill.stats" "the in-band observability surface (#53/EX-4)" Answered "operators";
   mkCatalogCap "twill.catalog" "catalog reflection (columns) for the management CLI (spec 19 M3)" Reflected "twilldb";
   mkCatalogCap "twill.relationships" "catalog reflection (foreign keys) for the management CLI (spec 19 M3)" Reflected "twilldb"].

End Capability.

(** ** Reflection *)

Module Reflect.
Import Introspect.

Definition OID_BOOL : Z := 16.
Definition OID_INT4 : Z := 23.
Definition OID_TEXT : Z := 25.
Definition OID_RECORD : Z := 2249.
Definition OID_TEXT_ARR : Z := 1009.
Definition OID_RECORD_ARR : Z := 2287.
Definition SCHEMA : string := "public".

Definition bin_bool (b : bool) : bytes := [byte.of_Z (if b then 1 else 0)].

Definition composite_field (f : Z * option bytes) : bytes :=
  i32_be f.1 ++ match f.2 with None => i32_be (-1) | Some b => i32_be (zlen b) ++ b end.

Definition composite (fields : list (Z * option bytes)) : bytes :=
  i32_be (zlen fields) ++ concat (composite_field <$> fields).

Definition array (elem_oid : Z) (elems : list bytes) : bytes :=
  i32_be (if bool_decide (elems = []) then 0 else 1) ++ i32_be 0 ++ i32_be elem_oid ++
  if bool_decide (elems = []) then []
  else i32_be (zlen elems) ++ i32_be 1 ++ concat ((λ e, i32_be (zlen e) ++ e) <$> elems).

Definition text_array (items : list string) : bytes := array OID_TEXT (str_bytes <$> items).
Definition record_array (records : list bytes) : bytes := array OID_RECORD records.

Definition column_composite (c : CatalogColumn) : bytes :=
  composite [(OID_TEXT, Some (str_bytes (cc_name c))); (OID_TEXT, None); (OID_BOOL, Some (bin_bool (negb (cc_not_null c))));
             (OID_TEXT, Some (str_bytes (cc_pg_type c))); (OID_TEXT, Some (str_bytes (cc_pg_type c)));
             (OID_INT4, None); (OID_TEXT, None); (OID_TEXT_ARR, Some (text_array []))].

Definition pk_names (t : CatalogTable) : list string := cc_name <$> List.filter cc_primary_key (ctb_columns t).

Definition table_row (t : CatalogTable) : list Value :=
  [TextV SCHEMA; TextV (ctb_name t); Null; Blob (bin_bool false); Blob (bin_bool true); Blob (bin_bool true);
   Blob (bin_bool true); Blob (text_array (pk_names t)); Blob (record_array (column_composite <$> ctb_columns t))].

Definition tables (catalog : list CatalogTable) : Canned :=
  Rows ["table_schema"; "table_name"; "table_description"; "is_view"; "insertable"; "updatable"; "deletable"; "pk_cols";
        "columns"]%string
    [OID_TEXT; OID_TEXT; OID_TEXT; OID_BOOL; OID_BOOL; OID_BOOL; OID_BOOL; OID_TEXT_ARR; OID_RECORD_ARR]
    (table_row <$> catalog) (select_tag (zlen catalog)).

Definition key_pair (p : string * string) : bytes :=
  composite [(OID_TEXT, Some (str_bytes p.1)); (OID_TEXT, Some (str_bytes p.2))].

(** The sets of names are compared. *)
Definition one_to_one (t : CatalogTable) (fk : ForeignKey) : bool :=
  negb (bool_decide (pk_names t = [])) &&
  bool_decide (list_to_set (fk_columns fk) =@{gset string} list_to_set (pk_names t)).

Definition relationship_row (t : CatalogTable) (fk : ForeignKey) : list Value :=
  [TextV SCHEMA; TextV (ctb_name t); TextV SCHEMA; TextV (foreign_table fk);
   Blob (bin_bool (eq_ignore_ascii_case (foreign_table fk) (ctb_name t))); TextV (fk_name fk);
   Blob (record_array (key_pair <$> zip (fk_columns fk) (foreign_columns fk))); Blob (bin_bool (one_to_one t fk))].

Definition relationships (catalog : list CatalogTable) : Canned :=
  let rows := catalog ≫= λ t, relationship_row t <$> ctb_foreign_keys t in
  Rows ["table_schema"; "table_name"; "foreign_table_schema"; "foreign_table_name"; "is_self"; "constraint_name";
        "cols_and_fcols"; "one_to_one"]%string
    [OID_TEXT; OID_TEXT; OID_TEXT; OID_TEXT; OID_BOOL; OID_TEXT; OID_RECORD_ARR; OID_BOOL]
    rows (select_tag (zlen rows)).

Definition reflect (kind : ReflectKind) (catalog : list CatalogTable) : Canned :=
  match kind with RTables => tables catalog | RRelationships => relationships catalog end.

End Reflect.
