(* ===== verification/Datapath.v ===== *)
(** * The PostgREST data path (crates/server/src/datapath.rs)

    PostgREST wraps its reads and writes in templates the engine does not run: these functions take
    the templates apart, as text, and build the rows of the answers.  Positions are byte offsets.  A
    slice of a string that would cut a character is a panic.  Whether a character is alphanumeric is
    an argument (the tables of Unicode). *)

From S2P Require Import Prelude Text StorageTypes Numbers Float Chars EngineTypes Values Json Session Funcs Wal Wire Introspect.

Module Datapath.

Definition BODY_COLUMNS : list string :=
  ["total_result_set"; "page_total"; "body"; "response_headers"; "response_status"; "response_inserted"].
Definition BODY_OIDS : list Z := [20; 20; 114; 25; 25; 25].
Definition WRITE_COLUMNS : list string :=
  ["total_result_set"; "page_total"; "header"; "body"; "response_headers"; "response_status"; "response_inserted"].
Definition WRITE_OIDS : list Z := [25; 20; 1009; 25; 25; 25; 25].

Record InsertPlan := mkInsertPlan { ip_table : string; ip_columns : list string }.
Record UpdatePlan := mkUpdatePlan { up_table : string; up_set_columns : list string; up_where : string }.
Record DeletePlan := mkDeletePlan { dp_table : string; dp_where : string }.
Inductive Write := WInsert (p : InsertPlan) | WUpdate (p : UpdatePlan) | WDelete (p : DeletePlan).

Record Embed := mkEmbed {
  em_key : string;
  em_rel_table : string;
  em_rel_columns : list string;
  em_rel_col : string;
  em_base_col : string;
  em_to_many : bool
}.

Inductive EmbedItem := EColumn (key column : string) | ERelation (e : Embed).

Record EmbedRead := mkEmbedRead { er_base_table : string; er_items : list EmbedItem; er_base_tail : string }.

Definition is_read (sql : string) : bool :=
  let s := to_ascii_lowercase sql in str_contains "pgrst_source" s && str_contains "json_agg(_postgrest_t)" s.

(** ** Text helpers *)

(** Quotes are stripped from both ends. *)
Definition trim_quotes (s : string) : string := trim_end_matches (of_code 34) (trim_start_matches (of_code 34) s).
Definition unquote (s : string) : string := trim_quotes (trim s).
(** [s.rsplit('.').next()], always there. *)
Definition last_ident (s : string) : string := unquote (trim (if has_char "." s then after_last "." s else s)).

(** The offset of the parenthesis that closes [depth] open ones. *)
Fixpoint paren_end (depth : Z) (s : string) : option nat :=
  match s with
  | EmptyString => None
  | String a s =>
      if Ascii.eqb a "(" then S <$> paren_end (depth + 1) s
      else if Ascii.eqb a ")" then if depth =? 1 then Some 0%nat else S <$> paren_end (depth - 1) s
      else S <$> paren_end depth s
  end.
Definition matching_paren (s : string) (open : nat) : option nat :=
  (λ n, (n + open)%nat) <$> paren_end 1 (str_drop open s).

Definition CTE : string := "pgrst_source as (".

Definition inner_cte (sql : string) : option string :=
  pos ← find_str CTE (to_ascii_lowercase sql);
  let start := (pos + String.length CTE)%nat in
  n ← paren_end 1 (str_drop start sql); Some (str_take n (str_drop start sql)).

(** [s.find(char::is_whitespace)]: what precedes it. *)
Definition word_of (s : string) : string := of_chars (take_while (λ c, negb (char_whitespace c)) (chars s)).1.

(** [&text[from..]] searched from an offset, as an offset of the whole. *)
Definition find_from (pat text : string) (from : nat) : option nat :=
  (λ n, (n + from)%nat) <$> find_str pat (str_drop from text).

(** [s.rfind(pat)]. *)
Fixpoint rfind_str (pat s : string) : option nat :=
  match s with
  | EmptyString => if starts_with pat s then Some 0%nat else None
  | String _ r => match rfind_str pat r with Some n => Some (S n) | None => if starts_with pat s then Some 0%nat else None end
  end.

(** [&text[a..b]]. *)
Definition str_slice (text : string) (a b : nat) : string := str_take (b - a) (str_drop a text).

(** The byte a slice may begin with. *)
Definition starts_char (a : Ascii.ascii) : bool := negb ((0x80 <=? code a) && (code a <? 0xC0)).

(** [find_kw_depth0] from the beginning of a text; [lower[i..]] panics inside a character. *)
Fixpoint kw_depth0 (kw : string) (depth : Z) (s : string) : Res (option nat) :=
  match s with
  | EmptyString => Ok None
  | String a r =>
      let next d : Res (option nat) := o ← kw_depth0 kw d r; Ok (option_map S o) in
      if Ascii.eqb a "(" then next (depth + 1)
      else if Ascii.eqb a ")" then next (depth - 1)
      else if depth =? 0 then
        if starts_char a then if starts_with kw s then Ok (Some 0%nat) else next depth
        else panic
      else next depth
  end.
Definition find_kw_depth0 (lower kw : string) (start : nat) : Res (option nat) :=
  o ← kw_depth0 kw 0 (str_drop start lower); Ok (option_map (λ n, (n + start)%nat) o).

Fixpoint depth0_commas (depth : Z) (s : string) : list string :=
  match s with
  | EmptyString => [EmptyString]
  | String a r =>
      let push d := match depth0_commas d r with [] => [String a EmptyString] | x :: xs => String a x :: xs end in
      if Ascii.eqb a "(" then push (depth + 1)
      else if Ascii.eqb a ")" then push (depth - 1)
      else if Ascii.eqb a "," && (depth =? 0) then EmptyString :: depth0_commas depth r
      else push depth
  end.
Definition split_depth0_commas (s : string) : list string := depth0_commas 0 s.

Definition first_quoted (s : string) : option string :=
  '(_, r) ← split_once dquote s; '(q, _) ← split_once dquote r; Some q.

Definition item_expr (item : string) : Res string :=
  o ← find_kw_depth0 (to_ascii_lowercase item) " as " 0;
  Ok (match o with Some p => str_take p item | None => item end).

Definition item_alias (item : string) : Res (option string) :=
  o ← find_kw_depth0 (to_ascii_lowercase item) " as " 0;
  Ok (option_map (λ p, unquote (trim (str_drop (p + 4) item))) o).

(** Identifiers without their qualifiers and quotes; other bytes go through as characters. *)
Definition ident_start (a : Ascii.ascii) : bool :=
  Ascii.eqb a "_" || (let c := code a in ((65 <=? c) && (c <=? 90)) || ((97 <=? c) && (c <=? 122))).
Definition ident_part (a : Ascii.ascii) : bool := ident_start a || is_digit a.

Fixpoint remove_char (c : Ascii.ascii) (s : string) : string :=
  match s with EmptyString => EmptyString | String a s => if Ascii.eqb a c then remove_char c s else String a (remove_char c s) end.

(** [seg] is the identifier being read, if one is. *)
Fixpoint strip_go (seg : option string) (s : string) : string :=
  match s with
  | EmptyString => default EmptyString seg
  | String a s =>
      match seg with
      | Some w =>
          if ident_part a then strip_go (Some (w +:+ String a EmptyString)) s
          else if Ascii.eqb a "." then strip_go None s
          else w +:+ of_char (code a) +:+ strip_go None s
      | None =>
          if ident_start a then strip_go (Some (String a EmptyString)) s
          else of_char (code a) +:+ strip_go None s
      end
  end.
Definition strip_qualifiers (inner : string) : string := strip_go None (remove_char (of_code 34) inner).

(** [usize] arithmetic of a release build. *)
Definition wrap_usize (n : Z) : Z := n mod 2 ^ 64.

(** [num] is the number being read, if one is. *)
Fixpoint max_param_go (num : option Z) (best : Z) (s : string) : Z :=
  let best' := Z.max best (default 0 num) in
  match s with
  | EmptyString => best'
  | String a r =>
      match num, digit_val a with
      | Some n, Some d => max_param_go (Some (wrap_usize (n * 10 + d))) best r
      | _, _ =>
          if Ascii.eqb a "$" && match r with String b _ => is_digit b | EmptyString => false end
          then max_param_go (Some 0) best' r
          else max_param_go None best' r
      end
  end.
Definition max_param (sql : string) : Z := max_param_go None 0 sql.

(** ** Reads and writes *)

Definition extract_where (inner lower : string) (from : nat) : option string :=
  p ← find_from " where " lower from;
  let wpos := (p + 7)%nat in
  let fin := default (String.length inner) (find_from " returning" lower wpos) in
  Some (strip_qualifiers (trim (str_slice inner wpos fin))).

Definition parse_insert (sql : string) : option InsertPlan :=
  inner ← inner_cte sql;
  pos ← find_str "insert into" (to_ascii_lowercase inner);
  let after := trim_start (str_drop (pos + 11) inner) in
  '(name, rest) ← split_once "(" after;
  '(cols, _) ← split_once ")" rest;
  let table := last_ident (trim name) in
  let columns := List.filter (λ c, negb (String.eqb c "")) ((λ c, unquote (trim c)) <$> split_on (is_char ",") cols) in
  if String.eqb table "" || bool_decide (columns = []) then None else Some (mkInsertPlan table columns).

Definition parse_update (sql : string) : option UpdatePlan :=
  inner ← inner_cte sql;
  let lower := to_ascii_lowercase inner in
  if negb (starts_with "update " (trim_start lower)) then None
  else
    pos ← find_str "update " lower;
    let upd := (pos + 7)%nat in
    set_kw ← find_from " set " lower upd;
    let table := last_ident (trim (str_slice inner upd set_kw)) in
    let set_start := (set_kw + 5)%nat in
    from_rel ← Introspect.or_else (find_from " from (select" lower set_start) (find_from " from (" lower set_start);
    let set_columns := List.filter (λ c, negb (String.eqb c ""))
      ((λ a, last_ident (trim (before_char "=" a))) <$> split_on (is_char ",") (str_slice inner set_start from_rel)) in
    if String.eqb table "" || bool_decide (set_columns = []) then None
    else Some (mkUpdatePlan table set_columns (default ""%string (extract_where inner lower set_start))).

Definition parse_delete (sql : string) : option DeletePlan :=
  inner ← inner_cte sql;
  let lower := to_ascii_lowercase inner in
  if negb (starts_with "delete from" (trim_start lower)) then None
  else
    pos ← find_str "delete from" lower;
    let df := (pos + 11)%nat in
    let table_end := default (String.length inner)
      (Introspect.or_else (find_from " where " lower df) (find_from " returning" lower df)) in
    let table := last_ident (trim (str_slice inner df table_end)) in
    if String.eqb table "" then None
    else Some (mkDeletePlan table (default ""%string (extract_where inner lower df))).

Definition parse_write (sql : string) : option Write :=
  if negb (str_contains CTE (to_ascii_lowercase sql)) then None
  else Introspect.or_else (WInsert <$> parse_insert sql)
         (Introspect.or_else (WUpdate <$> parse_update sql) (WDelete <$> parse_delete sql)).

(** [&trimmed[..trimmed.len().min(6)]]. *)
Definition first_six (s : string) : Res string :=
  match str_drop 6 s with
  | String a _ => if starts_char a then Ok (str_take 6 s) else panic
  | EmptyString => Ok s
  end.

Definition rewrite_read (sql : string) : Res (option string) :=
  match inner_cte sql with
  | None => Ok None
  | Some inner =>
      head ← first_six (trim_start inner);
      if negb (eq_ignore_ascii_case head "select") then Ok None
      else if str_contains "left join lateral" (to_ascii_lowercase inner) then Ok None
      else Ok (Some (strip_qualifiers inner))
  end.

(** ** Embedding reads *)

Section Embedding.
Variable is_alphanumeric : Z → bool.

Definition read_ident_chain (s : string) : string :=
  of_chars (take_while (λ c, is_alphanumeric c || (c =? 95) || (c =? 34) || (c =? 46)) (chars s)).1.

Definition nonempty (s : string) : bool := negb (String.eqb s "").

Definition FROM_PUBLIC : string := "from " +:+ dquote +:+ "public" +:+ dquote +:+ ".".

Definition parse_lateral_body (block : string) : option Embed :=
  let lower := to_ascii_lowercase block in
  from_pub ← find_str FROM_PUBLIC lower;
  let rel_table := last_ident (trim (word_of (str_drop (from_pub + 5) block))) in
  sel0 ← rfind_str "select " (str_take from_pub lower);
  let cols_text := str_slice block (sel0 + 7) from_pub in
  let rel_columns := List.filter nonempty ((λ c, last_ident (trim c)) <$> split_depth0_commas cols_text) in
  if negb (nonempty rel_table) || bool_decide (rel_columns = []) then None
  else
    wpos ← find_str " where " lower;
    '(lhs, rhs) ← split_once "=" (str_drop (wpos + 7) block);
    let rel_col := last_ident (read_ident_chain (trim lhs)) in
    let base_col := last_ident (read_ident_chain (trim rhs)) in
    if negb (nonempty rel_col) || negb (nonempty base_col) then None
    else Some (mkEmbed "" rel_table rel_columns rel_col base_col (str_contains "json_agg(" lower)).

(** The blocks from an offset on; each turn moves past a closing parenthesis. *)
Fixpoint lateral_blocks (fuel : nat) (region : string) : list (string * Embed) :=
  match fuel with
  | O => []
  | S fuel =>
      match find_str "left join lateral (" (to_ascii_lowercase region) with
      | None => []
      | Some rel =>
          let open := (rel + 19)%nat in
          match matching_paren region open with
          | None => []
          | Some close =>
              let after := str_drop (close + 1) region in
              let alias := default ""%string (first_quoted after) in
              match parse_lateral_body (str_slice region open close) with
              | Some e => (alias, e) :: lateral_blocks fuel after
              | None => lateral_blocks fuel after
              end
          end
      end
  end.
Definition parse_lateral_blocks (region : string) : list (string * Embed) :=
  lateral_blocks (String.length region) region.

(** An item of the select list; [None] gives the template up. *)
Definition embed_item (embeds : list (string * Embed)) (item : string) : Res (option EmbedItem) :=
  match first_quoted item with
  | None => Ok None
  | Some alias =>
      if String.eqb alias "public" then
        e ← item_expr item;
        let column := last_ident (trim e) in
        k ← item_alias item;
        Ok (if nonempty column then Some (EColumn (default column k) column) else None)
      else
        match List.find (λ ae, String.eqb ae.1 alias) embeds with
        | None => Ok None
        | Some (_, e) =>
            k ← item_alias item;
            Ok (option_map (λ key, ERelation (mkEmbed key (em_rel_table e) (em_rel_columns e) (em_rel_col e)
                                                (em_base_col e) (em_to_many e))) k)
        end
  end.

Fixpoint embed_items (embeds : list (string * Embed)) (l : list string) : Res (option (list EmbedItem)) :=
  match l with
  | [] => Ok (Some [])
  | raw :: l =>
      let item := trim raw in
      if negb (nonempty item) then embed_items embeds l
      else
        i ← embed_item embeds item;
        match i with
        | None => Ok None
        | Some i => rest ← embed_items embeds l; Ok (option_map (cons i) rest)
        end
  end.

(** Once the select list is known to end at [from]. *)
Definition embed_read (inner : string) (sel from : nat) : Res (option EmbedRead) :=
  let after := str_drop (from + 6) inner in
  let tok := word_of (trim_start after) in
  let lead := (String.length after - String.length (trim_start after))%nat in
  let base_table := last_ident (trim tok) in
  let region := str_drop (lead + String.length tok) after in
  let embeds := parse_lateral_blocks region in
  if negb (nonempty base_table) || bool_decide (embeds.*1 = []) then Ok None
  else
    items ← embed_items embeds (split_depth0_commas (str_slice inner sel from));
    Ok (match items with
        | None | Some [] => None
        | Some items =>
            let tail := match rfind_str " on true" (to_ascii_lowercase region) with
                        | Some p => strip_qualifiers (trim (str_drop (p + 8) region))
                        | None => ""%string
                        end in
            Some (mkEmbedRead base_table items tail)
        end).

Definition parse_embed (sql : string) : Res (option EmbedRead) :=
  match inner_cte sql with
  | None => Ok None
  | Some inner =>
      let lower := to_ascii_lowercase inner in
      if negb (str_contains "left join lateral" lower) then Ok None
      else
        match find_str "select" lower with
        | None => Ok None
        | Some p =>
            let sel := (p + 6)%nat in
            from ← find_kw_depth0 lower " from " sel;
            match from with None => Ok None | Some from => embed_read inner sel from end
        end
  end.

End Embedding.

(** ** JSON request bodies *)

(** [u32::from_str_radix(hex, 16)] of four characters: a sign is accepted. *)
Definition hex4 (a b c d : Z) : option Z :=
  let digits := λ l, foldl (λ acc h, n ← acc; x ← hex_digit h; Some (n * 16 + x)) (Some 0) l in
  if a =? 43 then digits [b; c; d] else digits [a; b; c; d].

Fixpoint body_string (l : list Z) : option (list Z * list Z) :=
  match l with
  | [] => None
  | c :: r =>
      if c =? 34 then Some ([], r)
      else if c =? 92 then
        match r with
        | [] => None
        | e :: r =>
            if e =? 117 then
              match r with
              | h1 :: h2 :: h3 :: h4 :: r =>
                  n ← hex4 h1 h2 h3 h4;
                  '(s, r) ← body_string r;
                  Some (default 0xFFFD (from_u32 n) :: s, r)
              | _ => None
              end
            else x ← unescape e; '(s, r) ← body_string r; Some (x :: s, r)
        end
      else '(s, r) ← body_string r; Some (c :: s, r)
  end.

Definition body_quoted (l : list Z) : option (string * list Z) :=
  match l with
  | c :: r => if c =? 34 then '(s, r) ← body_string r; Some (of_chars s, r) else None
  | [] => None
  end.

Fixpoint body_value (fuel : nat) (l : list Z) : option (Json * list Z) :=
  match fuel with
  | O => None
  | S fuel =>
      match ws l with
      | [] => None
      | (c :: r) as l =>
          if c =? 123 then
            match ws r with
            | (c' :: r') as m => if c' =? 125 then Some (JObj [], r')
                                 else '(o, r) ← body_members fuel m; Some (JObj o, r)
            | [] => None
            end
          else if c =? 91 then
            match ws r with
            | (c' :: r') as m => if c' =? 93 then Some (JArr [], r')
                                 else '(a, r) ← body_elements fuel m; Some (JArr a, r)
            | [] => None
            end
          else if c =? 34 then '(s, r) ← body_quoted l; Some (JStr s, r)
          else if c =? 116 then literal (chars "true") (JBool true) l
          else if c =? 102 then literal (chars "false") (JBool false) l
          else if c =? 110 then literal (chars "null") JNull l
          else number l
      end
  end
with body_elements (fuel : nat) (l : list Z) : option (list Json * list Z) :=
  match fuel with
  | O => None
  | S fuel =>
      '(v, l) ← body_value fuel l;
      match ws l with
      | c :: r => if c =? 44 then '(vs, r) ← body_elements fuel r; Some (v :: vs, r)
                  else if c =? 93 then Some ([v], r) else None
      | [] => None
      end
  end
with body_members (fuel : nat) (l : list Z) : option (list (string * Json) * list Z) :=
  match fuel with
  | O => None
  | S fuel =>
      '(k, l) ← body_quoted (ws l);
      match ws l with
      | c :: l =>
          if c =? 58 then
            '(v, l) ← body_value fuel l;
            match ws l with
            | c :: r => if c =? 44 then '(kvs, r) ← body_members fuel r; Some ((k, v) :: kvs, r)
                        else if c =? 125 then Some ([(k, v)], r) else None
            | [] => None
            end
          else None
      | [] => None
      end
  end.

Definition parse_body (s : string) : option Json :=
  let l := ws (chars s) in
  match body_value (json_fuel l) l with
  | Some (v, r) => match ws r with [] => Some v | _ => None end
  | None => None
  end.

(** [n.fract() == 0.0 && n.abs() < 9e18]. *)
Definition whole_number (n : Z) : bool :=
  f_eqb F64 (f_fract F64 n) f_zero && f_ltb F64 (f_abs F64 n) (f_of_Z F64 (9 * 10 ^ 18)).

Definition to_value (j : Json) : Value :=
  match j with
  | JNull => Null
  | JBool b => Int (if b then 1 else 0)
  | JNum n => if whole_number n then Int (f_as_i64 F64 n) else Real n
  | JStr s => TextV s
  | JArr _ | JObj _ => TextV ""
  end.

Definition object_row (columns : list string) (fields : list (string * Json)) : list Value :=
  (λ col, match List.find (λ kv, String.eqb kv.1 col) fields with Some (_, v) => to_value v | None => Null end) <$> columns.

(** The error texts are of one kind: [None]. *)
Definition json_rows (body : string) (columns : list string) : option (list (list Value)) :=
  json ← parse_body body;
  objects ← match json with JArr items => Some items | JObj m => Some [JObj m] | _ => None end;
  collect_opt (λ o, match o with JObj fields => Some (object_row columns fields) | _ => None end) objects.

(** ** Response rows *)

Definition json_string (s : string) : string := of_chars (quote s).

Definition value_json (v : Value) : string :=
  match v with
  | Null => "null"
  | Int i => fmt_i64 i
  | Real r => if f_is_finite F64 r then display F64 r else "null"
  | TextV s => json_string s
  | Blob b => json_string (base64_encode b)
  | Vector _ => "null"
  end.

Definition json_object (columns : list string) (row : list Value) : string :=
  "{" +:+ join_str "," (imap (λ c name, json_string name +:+ ":" +:+ value_json (default Null (row !! c))) columns) +:+ "}".

Definition rows_to_json (columns : list string) (rows : list (list Value)) : string :=
  "[" +:+ join_str "," (json_object columns <$> rows) +:+ "]".

Definition body_row_json (body : string) (count : Z) : list Value := [Null; Int count; TextV body; Null; Null; TextV ""].
Definition body_row (columns : list string) (rows : list (list Value)) : list Value :=
  body_row_json (rows_to_json columns rows) (zlen rows).

Definition empty_text_array_binary : bytes := i32_be 0 ++ i32_be 0 ++ i32_be 25.
Definition write_body_row (count : Z) : list Value :=
  [TextV ""; Int count; Blob empty_text_array_binary; TextV ""; Null; Null; TextV ""].

End Datapath.
