(* ===== verification/Server.v ===== *)
(** * Sessions of the wire server (crates/server/src/session.rs)

    The protocol state machine of one client: named statements and portals, the simple and the
    extended query protocol on a connection of the engine, and the loop over the client's stream.

    Of an engine error the session uses the text; the model's errors carry none, so the text of the
    error a message may meet is part of the message's environment [Env], with its [Host] and the
    engine's counters.  Process-wide metrics and the SQL log are left out.  [usize] arithmetic is that
    of a release build. *)

From S2P Require Import Prelude Text StorageTypes Numbers Float Chars EngineTypes Values Json Session Funcs Ast Wal.
From S2P Require Import MvccStore Select Relational Dml GroupCommit Conn Engine Wire Introspect Datapath.

Module Server.
Import Protocol Types Introspect Datapath.

(** ** State *)

Inductive Postprocess :=
| PNone
| PgrstRead
| PgrstInsert (p : InsertPlan)
| PgrstUpdate (p : UpdatePlan)
| PgrstDelete (p : DeletePlan)
| PgrstEmbed (p : EmbedRead).

Record Prepared := mkPrepared {
  pr_sql : string;
  pr_order : list Z;
  pr_nparams : Z;
  pr_param_oids : list Z;
  pr_postprocess : Postprocess
}.

Record Mat := mkMat {
  mt_columns : list string;
  mt_oids : list Z;
  mt_rows : list (list Value);
  mt_tag : string;
  mt_has_rows : bool
}.

Record Portal := mkPortal {
  po_stmt : string;
  po_params : list Value;
  po_result_formats : list Z;
  po_materialized : option Mat
}.

(** What a message meets from outside. *)
Record Env := mkEnv {
  env_host : Host;
  env_text : EngineStatus → string;
  env_json_text : string;
  env_stats : EngineStats
}.

(** ** Helpers *)

Definition param (params : list (string * string)) (key : string) : option string :=
  snd <$> List.find (λ kv, String.eqb kv.1 key) params.

Definition fmt_at (formats : list Z) (i : nat) : Z :=
  match formats with [] => 0 | [f] => f | _ => default 0 (formats !! i) end.

Definition param_oids_for (p : Prepared) : list Z :=
  if zlen (pr_param_oids p) =? pr_nparams p then pr_param_oids p else replicate (Z.to_nat (pr_nparams p)) OID_TEXT.

Fixpoint leading_letters (s : string) : string :=
  match s with
  | String a r =>
      let c := code a in
      if ((65 <=? c) && (c <=? 90)) || ((97 <=? c) && (c <=? 122)) then String a (leading_letters r) else EmptyString
  | EmptyString => EmptyString
  end.

Definition classify (sql : string) : string := to_ascii_uppercase (leading_letters (trim_start sql)).

Definition is_row_returning (sql : string) : bool := is_one_of (classify sql) ["SELECT"; "VALUES"; "WITH"; "SHOW"].

Definition command_tag (class : string) (rows changes : Z) : string :=
  if is_one_of class ["SELECT"; "VALUES"; "SHOW"] then select_tag rows
  else if String.eqb class "INSERT" then "INSERT 0 " +:+ fmt_i64 changes
  else if String.eqb class "UPDATE" then "UPDATE " +:+ fmt_i64 changes
  else if String.eqb class "DELETE" then "DELETE " +:+ fmt_i64 changes
  else if String.eqb class "CREATE" then "CREATE TABLE"
  else if String.eqb class "DROP" then "DROP TABLE"
  else if is_one_of class ["BEGIN"; "START"] then "BEGIN"
  else if is_one_of class ["COMMIT"; "END"] then "COMMIT"
  else if is_one_of class ["ROLLBACK"; "ABORT"] then "ROLLBACK"
  else if String.eqb class "" then "SELECT 0"
  else class.

Definition fields (columns : list string) (oids formats : list Z) : list Field :=
  imap (λ c name, let oid := default OID_TEXT (oids !! c) in (name, oid, type_len oid, fmt_at formats c)) columns.

Definition engine_oids (rs : ResultSet) : list Z :=
  imap (λ c _, match rs_types rs !! c with Some t => column_type_oid t | None => OID_TEXT end) (rs_columns rs).

Definition infer_oids (columns : list string) (rows : list (list Value)) : list Z :=
  imap (λ c _, infer_column_oid rows c) columns.

Definition resolve_oids (explicit : list Z) (columns : list string) (rows : list (list Value)) : list Z :=
  match explicit with [] => infer_oids columns rows | _ => explicit end.

Definition encode_row (formats : list Z) (row : list Value) : list (option bytes) :=
  imap (λ c v, encode_value v (fmt_at formats c)) row.

Definition send_rows (columns : list string) (oids : list Z) (rows : list (list Value)) (formats : list Z) (out : Out) : Out :=
  foldl (λ out row, data_row (encode_row formats row) out) (row_description (fields columns oids formats) out) rows.

Definition describe_error (text : string) : string * string :=
  let lower := to_ascii_lowercase text in
  let code := if str_contains "conflict" lower || str_contains "fenced" lower || str_contains "durability" lower
              then "40001"
              else if str_contains "transaction" lower then "25000" else "42601" in
  (code%string, text).

Definition body_text (params : list Value) : option string :=
  match head params with
  | Some (TextV s) => Some s
  | Some (Blob b) => Some (from_utf8_lossy b)
  | _ => None
  end.

(** [params.get(num - 1)]: 0 wraps past the end. *)
Definition wire_param (params : list Value) (num : Z) : Value :=
  if (num <? 1) || (zlen params <? num) then Null else default Null (params !! Z.to_nat (num - 1)).

(** [num] is the placeholder being read, if one is; the question mark is written when it ends. *)
Fixpoint placeholders_go (sq dq : bool) (num : option Z) (s : string) : string * list Z :=
  let done (rest : string * list Z) :=
    match num with Some n => (String "?" rest.1, n :: rest.2) | None => rest end in
  match s with
  | EmptyString => done (EmptyString, [])
  | String a r =>
      let push (rest : string * list Z) := (of_char (code a) +:+ rest.1, rest.2) in
      match num, digit_val a with
      | Some n, Some d => placeholders_go sq dq (Some (wrap_usize (n * 10 + d))) r
      | _, _ =>
          done (if Ascii.eqb a "'" && negb dq then push (placeholders_go (negb sq) dq None r)
                else if Ascii.eqb a (of_code 34) && negb sq then push (placeholders_go sq (negb dq) None r)
                else if Ascii.eqb a "$" && negb sq && negb dq
                        && match r with String b _ => is_digit b | EmptyString => false end
                then placeholders_go sq dq (Some 0) r
                else push (placeholders_go sq dq None r))
      end
  end.
Definition rewrite_placeholders (sql : string) : string * list Z := placeholders_go false false None sql.

(** The fragment read so far, if it is not blank. *)
Definition fragment (cur : string) : list string := let t := trim cur in if String.eqb t "" then [] else [t].

Fixpoint split_go (sq dq : bool) (cur s : string) : list string :=
  match s with
  | EmptyString => fragment cur
  | String a r =>
      let cur' := cur +:+ String a EmptyString in
      if Ascii.eqb a "'" && negb dq then split_go (negb sq) dq cur' r
      else if Ascii.eqb a (of_code 34) && negb sq then split_go sq (negb dq) cur' r
      else if Ascii.eqb a ";" && negb sq && negb dq then fragment cur ++ split_go sq dq EmptyString r
      else split_go sq dq cur' r
  end.
Definition split_statements (sql : string) : list string := split_go false false EmptyString sql.

(** ** Sessions *)

Section Sessions.
Context {VI : Type} `{!VectorIndexOps VI, !VectorSearch VI}.
Context {B : Type} `{!EngineStorage B}.
Variable stack : nat.
Variable is_alphanumeric : Z → bool.
Variable pid : Z.
Abbreviation Database := (Database VI SelectStmt B).

Record Session := mkSession {
  se_db : Database;
  se_conn : Db.Handle;
  se_user : string;
  se_database : string;
  se_stmts : gmap string Prepared;
  se_portals : gmap string Portal;
  se_skip_until_sync : bool;
  se_failed_txn : bool
}.

Definition set_engine (x : Database * Db.Handle) (s : Session) : Session :=
  mkSession x.1 x.2 (se_user s) (se_database s) (se_stmts s) (se_portals s) (se_skip_until_sync s) (se_failed_txn s).
Definition set_stmts (m : gmap string Prepared) (s : Session) : Session :=
  mkSession (se_db s) (se_conn s) (se_user s) (se_database s) m (se_portals s) (se_skip_until_sync s) (se_failed_txn s).
Definition set_portals (m : gmap string Portal) (s : Session) : Session :=
  mkSession (se_db s) (se_conn s) (se_user s) (se_database s) (se_stmts s) m (se_skip_until_sync s) (se_failed_txn s).
Definition set_skip (b : bool) (s : Session) : Session :=
  mkSession (se_db s) (se_conn s) (se_user s) (se_database s) (se_stmts s) (se_portals s) b (se_failed_txn s).
Definition set_failed (b : bool) (s : Session) : Session :=
  mkSession (se_db s) (se_conn s) (se_user s) (se_database s) (se_stmts s) (se_portals s) (se_skip_until_sync s) b.

Definition in_txn (s : Session) : bool := Db.in_transaction (se_conn s).

(** A message's answer; [None] when a panic ends the thread before the buffer is flushed. *)
Abbreviation Answer := (Session * option Out)%type.

Definition status (s : Session) : Ascii.ascii :=
  if negb (in_txn s) then "I" else if se_failed_txn s then "E" else "T".

(** The transaction, if one is open, has failed. *)
Definition note_failure (s : Session) : Session := if in_txn s then set_failed true s else s.
(** A transaction that is over has not. *)
Definition clear_failure (s : Session) : Session := if in_txn s then s else set_failed false s.

Definition fail (code message : string) (s : Session) (out : Out) : Answer :=
  (set_skip true (note_failure s), Some (error "ERROR" code message out)).

(** What ends a statement early: an error for the client, or a panic. *)
Inductive Trouble := SqlState (code message : string) | Crash.

Abbreviation Act A := (Comp Session Trouble A).

Section Message.
Variable e : Env.

(** [map_err(split_err)]. *)
Definition trouble (f : Fault) : Trouble :=
  match f with
  | Failed st => let '(code, text) := describe_error (env_text e st) in SqlState code text
  | Panicked => Crash
  end.

(** An error of a step is answered and reported. *)
Definition fail_with (t : Trouble) (s : Session) (out : Out) : Answer :=
  match t with SqlState code text => fail code text s out | Crash => (s, None) end.

(** [inspect]. *)
Definition inspect (sql : string) (s : Session) : Canned :=
  match intercept pid sql (se_user s) (se_database s) with
  | Introspect.Reflect kind => Reflect.reflect kind (Db.catalog (se_db s))
  | Stats => stats_rows (env_stats e)
  | Catalog kind => catalog_reflect kind (Db.catalog (se_db s))
  | c => c
  end.

(** ** The simple query protocol *)

(** Whether the batch goes on is returned beside the answer. *)
Definition run_simple_one (sql : string) (s : Session) (out : Out) : Session * option (Out * bool) :=
  match inspect sql s with
  | Rows columns oids rows tag =>
      (s, Some (command_complete tag (send_rows columns (resolve_oids oids columns rows) rows [] out), true))
  | Tag tag => (s, Some (command_complete tag out, true))
  | Introspect.Reflect _ | Stats | Catalog _ => (s, None)
  | Pass =>
      match Capability.unsupported_catalog_reason sql with
      | Some reason => (note_failure s, Some (error "ERROR" "0A000" reason out, false))
      | None =>
          let '(x, r) := Db.query stack (env_host e) sql (se_db s, se_conn s) in
          let s := set_engine x s in
          match r with
          | Ok rs =>
              if bool_decide (rs_columns rs = [])
              then (s, Some (command_complete (command_tag (classify sql) 0 (Db.changes (se_conn s))) out, true))
              else (s, Some (command_complete (select_tag (zlen (rs_rows rs)))
                               (send_rows (rs_columns rs) (engine_oids rs) (rs_rows rs) [] out), true))
          | Err f =>
              match trouble f with
              | SqlState code text => (note_failure s, Some (error "ERROR" code text out, false))
              | Crash => (s, None)
              end
          end
      end
  end.

Fixpoint run_batch (stmts : list string) (s : Session) (out : Out) : Answer :=
  match stmts with
  | [] => (s, Some out)
  | sql :: stmts =>
      match run_simple_one sql s out with
      | (s, Some (out, true)) => run_batch stmts (clear_failure s) out
      | (s, Some (out, false)) => (s, Some out)
      | (s, None) => (s, None)
      end
  end.

Definition simple_query (sql : string) (s : Session) (out : Out) : Answer :=
  match split_statements sql with
  | [] => (s, Some (empty_query_response out))
  | stmts => run_batch stmts s out
  end.

(** ** Statements on the engine *)

Definition lift_engine {A} (m : Comp (Database * Db.Handle) Fault A) : Act A := λ s,
  let '(x, r) := m (se_db s, se_conn s) in (set_engine x s, map_err trouble r).

Definition lift_res {A} (r : Result EngineStatus A) : Act A := λ s, (s, map_err (λ st, trouble (Failed st)) r).

(** [st.bind(pos, v)] for positions from [pos] on. *)
Fixpoint bind_all (pos : Z) (vs : list Value) (p : Db.Prepared) : Result EngineStatus Db.Prepared :=
  match vs with [] => Ok p | v :: vs => p ← Db.bind pos v p; bind_all (pos + 1) vs p end.

(** [prepare], the binds, [execute]. *)
Definition executed (sql : string) (vs : list Value) : Act Db.Prepared :=
  (let! p := lift_res (Db.prepare sql) in
   let! p := lift_res (bind_all 1 vs p) in
   λ s, let '((x, p), r) := Db.ensure_executed stack (env_host e) ((se_db s, se_conn s), p) in
        (set_engine x s, _ ← map_err trouble r; Ok p))%comp.

(** [(0..nc).map(|c| st.column_value(c).cloned().unwrap_or(Null))]. *)
Definition current_row (nc : nat) (p : Db.Prepared) : list Value :=
  (λ c, default Null (Db.column_value p c)) <$> seq 0 nc.

(** [while st.step()?]; one turn more than there are rows. *)
Fixpoint fetch_rows (fuel nc : nat) (y : Database * Db.Handle * Db.Prepared)
    : (Database * Db.Handle * Db.Prepared) * Res (list (list Value)) :=
  match fuel with
  | O => (y, panic)
  | S fuel =>
      match Db.step stack (env_host e) y with
      | (y, Ok true) =>
          let row := current_row nc y.2 in
          let '(y, r) := fetch_rows fuel nc y in (y, rows ← r; Ok (row :: rows))
      | (y, Ok false) => (y, Ok [])
      | (y, Err f) => (y, Err f)
      end
  end.

Definition result_rows (p : Db.Prepared) : nat := match Db.ps_result p with Some rs => length (rs_rows rs) | None => 0 end.

Definition all_rows (p : Db.Prepared) : Act (list (list Value)) := λ s,
  let '((x, _), r) := fetch_rows (S (result_rows p)) (Db.column_count p) ((se_db s, se_conn s), p) in
  (set_engine x s, map_err trouble r).

Definition column_names (p : Db.Prepared) : list string :=
  (λ c, default ""%string (Db.column_name p c)) <$> seq 0 (Db.column_count p).
Definition column_oids (p : Db.Prepared) : list Z :=
  (λ c, match Db.column_type p c with Some t => column_type_oid t | None => OID_TEXT end) <$> seq 0 (Db.column_count p).

Definition run_engine (sql : string) (params : list Value) (order : list Z) : Act Mat :=
  (let! p := executed sql (wire_param params <$> order) in
   if (0 <? Db.column_count p)%nat then
     let! rows := all_rows p in
     comp_ret (mkMat (column_names p) (column_oids p) rows (select_tag (zlen rows)) true)
   else λ s, (s, Ok (mkMat [] [] [] (command_tag (classify sql) 0 (Db.changes (se_conn s))) false)))%comp.

Definition dummy_columns (sql : string) (order_len : nat) : Act (option (list string * list Z)) :=
  (let! p := executed sql (replicate order_len Null) in
   comp_ret (if (0 <? Db.column_count p)%nat then Some (column_names p, column_oids p) else None))%comp.

(** ** PostgREST statements *)

Definition bad_body : Trouble := SqlState "22023" "missing JSON request body".

(** The text of a JSON error is the environment's too. *)
Definition bad_json : Trouble := SqlState "22023" (env_json_text e).

Definition need {A} (t : Trouble) (o : option A) : Act A := λ s, (s, match o with Some a => Ok a | None => Err t end).

Definition where_sql (where_clause : string) : string :=
  if String.eqb where_clause "" then "" else " WHERE " +:+ where_clause.

Definition run_pgrst_update (p : UpdatePlan) (params : list Value) : Act Z :=
  (let! body := need bad_body (body_text params) in
   let! rows := need bad_json (json_rows body (up_set_columns p)) in
   let row := default [] (head rows) in
   let assignments := join_str ", " ((λ c, c +:+ " = ?") <$> up_set_columns p) in
   let sql := "UPDATE " +:+ up_table p +:+ " SET " +:+ assignments +:+ where_sql (up_where p) in
   let '(rewritten, order) := rewrite_placeholders sql in
   do! executed rewritten (row ++ (wire_param params <$> order)) in
   λ s, (s, Ok (Db.changes (se_conn s))))%comp.

Definition run_pgrst_delete (p : DeletePlan) (params : list Value) : Act Z :=
  (let '(rewritten, order) := rewrite_placeholders ("DELETE FROM " +:+ dp_table p +:+ where_sql (dp_where p)) in
   do! executed rewritten (wire_param params <$> order) in
   λ s, (s, Ok (Db.changes (se_conn s))))%comp.

Fixpoint insert_rows (sql : string) (rows : list (list Value)) (count : Z) : Act Z :=
  match rows with
  | [] => comp_ret count
  | row :: rows => (do! executed sql row in insert_rows sql rows (count + 1))%comp
  end.

Definition run_pgrst_insert (p : InsertPlan) (params : list Value) : Act Z :=
  (let! body := need bad_body (body_text params) in
   let! rows := need bad_json (json_rows body (ip_columns p)) in
   let sql := "INSERT INTO " +:+ ip_table p +:+ " (" +:+ join_str ", " (ip_columns p) +:+ ") VALUES ("
              +:+ join_str ", " ((λ _, "?"%string) <$> ip_columns p) +:+ ")" in
   insert_rows sql rows 0)%comp.

Definition run_embed_relation (em : Embed) (key : Value) : Act (list string * list (list Value)) :=
  (let! p := executed ("SELECT " +:+ join_str ", " (em_rel_columns em) +:+ " FROM " +:+ em_rel_table em
                       +:+ " WHERE " +:+ em_rel_col em +:+ " = ?") [key] in
   let! rows := all_rows p in
   comp_ret (column_names p, rows))%comp.

(** The base columns to fetch, each once. *)
Definition fetch_columns (items : list EmbedItem) : list string :=
  foldl (λ cols i, let c := match i with EColumn _ column => column | ERelation em => em_base_col em end in
                   if existsb (String.eqb c) cols then cols else cols ++ [c]) [] items.

Definition base_value (columns : list string) (row : list Value) (name : string) : Value :=
  match list_find (λ c, c = name) columns with Some (ix, _) => default Null (row !! ix) | None => Null end.

Definition embed_member (columns : list string) (row : list Value) (i : EmbedItem) : Act string :=
  match i with
  | EColumn key column => comp_ret (json_string key +:+ ":" +:+ value_json (base_value columns row column))
  | ERelation em =>
      (let! found := run_embed_relation em (base_value columns row (em_base_col em)) in
       let '(rcols, rrows) := found in
       comp_ret (json_string (em_key em) +:+ ":" +:+
         if em_to_many em then rows_to_json rcols rrows
         else match rrows with first :: _ => json_object rcols first | [] => "null" end))%comp
  end.

Fixpoint embed_members (columns : list string) (row : list Value) (items : list EmbedItem) : Act (list string) :=
  match items with
  | [] => comp_ret []
  | i :: items =>
      (let! m := embed_member columns row i in
       let! ms := embed_members columns row items in
       comp_ret (m :: ms))%comp
  end.

Fixpoint embed_objects (columns : list string) (items : list EmbedItem) (rows : list (list Value)) : Act (list string) :=
  match rows with
  | [] => comp_ret []
  | row :: rows =>
      (let! ms := embed_members columns row items in
       let! objs := embed_objects columns items rows in
       comp_ret (("{" +:+ join_str "," ms +:+ "}") :: objs))%comp
  end.

Definition run_pgrst_embed (plan : EmbedRead) (params : list Value) : Act (string * Z) :=
  (let sql := "SELECT " +:+ join_str ", " (fetch_columns (er_items plan)) +:+ " FROM " +:+ er_base_table plan
              +:+ (if String.eqb (er_base_tail plan) "" then "" else " " +:+ er_base_tail plan) in
   let '(rewritten, order) := rewrite_placeholders sql in
   let! base := run_engine rewritten params order in
   let! objs := embed_objects (mt_columns base) (er_items plan) (mt_rows base) in
   comp_ret ("[" +:+ join_str "," objs +:+ "]", zlen objs))%comp.

(** ** Portals *)

Definition body_mat (row : list Value) : Mat := mkMat BODY_COLUMNS BODY_OIDS [row] "SELECT 1" true.
Definition write_mat (count : Z) : Mat := mkMat WRITE_COLUMNS WRITE_OIDS [write_body_row count] "SELECT 1" true.

(** The result of a prepared statement. *)
Definition run_prepared (prep : Prepared) (params : list Value) : Act Mat :=
  match pr_postprocess prep with
  | PgrstRead =>
      (let! inner := run_engine (pr_sql prep) params (pr_order prep) in
       comp_ret (body_mat (body_row (mt_columns inner) (mt_rows inner))))%comp
  | PgrstEmbed plan =>
      (let! r := run_pgrst_embed plan params in let '(body, count) := r in comp_ret (body_mat (body_row_json body count)))%comp
  | PgrstInsert plan => (let! count := run_pgrst_insert plan params in comp_ret (write_mat count))%comp
  | PgrstUpdate plan => (let! count := run_pgrst_update plan params in comp_ret (write_mat count))%comp
  | PgrstDelete plan => (let! count := run_pgrst_delete plan params in comp_ret (write_mat count))%comp
  | PNone => λ s,
      match inspect (pr_sql prep) s with
      | Rows columns oids rows tag => (s, Ok (mkMat columns (resolve_oids oids columns rows) rows tag true))
      | Tag tag => (s, Ok (mkMat [] [] [] tag false))
      | Introspect.Reflect _ | Stats | Catalog _ => (s, Err Crash)
      | Pass => run_engine (pr_sql prep) params (pr_order prep) s
      end
  end.

Definition set_materialized (m : option Mat) (p : Portal) : Portal :=
  mkPortal (po_stmt p) (po_params p) (po_result_formats p) m.

(** [portals.get_mut(name)]. *)
Definition cache (name : string) (m : option Mat) (s : Session) : Session :=
  set_portals (alter (set_materialized m) name (se_portals s)) s.

(** A portal's statement runs once; its result stays on the portal. *)
Definition materialize (name : string) : Act unit := λ s,
  match se_portals s !! name with
  | None => (s, Err (SqlState "34000" ("unknown portal '" +:+ name +:+ "'")))
  | Some p =>
      match po_materialized p with
      | Some _ => (s, Ok tt)
      | None =>
          match se_stmts s !! po_stmt p with
          | None => (s, Err (SqlState "26000" ("unknown statement '" +:+ po_stmt p +:+ "'")))
          | Some prep =>
              match run_prepared prep (po_params p) s with
              | (s, Ok m) => (cache name (Some m) s, Ok tt)
              | (s, Err t) => (s, Err t)
              end
          end
      end
  end.

(** ** The extended query protocol *)

Definition add_stmt (name : string) (p : Prepared) (s : Session) (out : Out) : Answer :=
  (set_stmts (<[name := p]> (se_stmts s)) s, Some (parse_complete out)).

Definition postprocess_of (w : Write) : Postprocess :=
  match w with WInsert p => PgrstInsert p | WUpdate p => PgrstUpdate p | WDelete p => PgrstDelete p end.

(** A statement that is neither a write nor an embedding read of PostgREST. *)
Definition parse_plain (name sql : string) (param_oids : list Z) (inner : option string) (s : Session) (out : Out) : Answer :=
  let '(engine_sql, post) :=
    match is_read sql, inner with true, Some q => (q, PgrstRead) | _, _ => (sql, PNone) end in
  let read := match post with PgrstRead => true | _ => false end in
  let to_engine := read || match intercept pid sql (se_user s) (se_database s) with Pass => true | _ => false end in
  match (if read then None else Capability.unsupported_catalog_reason sql) with
  | Some reason => fail "0A000" reason s out
  | None =>
      if to_engine then
        let '(rewritten, order) := rewrite_placeholders engine_sql in
        match Db.prepare rewritten with
        | Err st => fail_with (trouble (Failed st)) s out
        | Ok _ => add_stmt name (mkPrepared rewritten order (foldr Z.max 0 order) param_oids post) s out
        end
      else add_stmt name (mkPrepared sql [] 0 param_oids PNone) s out
  end.

Definition parse (name sql : string) (param_oids : list Z) (s : Session) (out : Out) : Answer :=
  if se_skip_until_sync s then (s, Some out)
  else
    match parse_write sql with
    | Some w => add_stmt name (mkPrepared sql [] (Z.max 1 (max_param sql)) param_oids (postprocess_of w)) s out
    | None =>
        match parse_embed is_alphanumeric sql with
        | Err _ => (s, None)
        | Ok (Some em) => add_stmt name (mkPrepared sql [] (max_param sql) param_oids (PgrstEmbed em)) s out
        | Ok None =>
            match rewrite_read sql with
            | Err _ => (s, None)
            | Ok inner => parse_plain name sql param_oids inner s out
            end
        end
    end.

Definition bind (portal stmt : string) (param_formats : list Z) (params : list (option bytes)) (result_formats : list Z)
    (s : Session) (out : Out) : Answer :=
  if se_skip_until_sync s then (s, Some out)
  else
    match se_stmts s !! stmt with
    | None => fail "26000" ("unknown prepared statement '" +:+ stmt +:+ "'") s out
    | Some _ =>
        let values := imap (λ i raw, decode_param raw (fmt_at param_formats i)) params in
        (set_portals (<[portal := mkPortal stmt values result_formats None]> (se_portals s)) s, Some (bind_complete out))
    end.

(** The row description of a statement that runs on the engine or is answered by the server. *)
Definition describe_plain (prep : Prepared) (s : Session) (out : Out) : Answer :=
  match inspect (pr_sql prep) s with
  | Rows columns oids rows _ => (s, Some (row_description (fields columns (resolve_oids oids columns rows) []) out))
  | Tag _ => (s, Some (no_data out))
  | Introspect.Reflect _ | Stats | Catalog _ => (s, None)
  | Pass =>
      if is_row_returning (pr_sql prep) then
        match dummy_columns (pr_sql prep) (length (pr_order prep)) s with
        | (s, Ok (Some (columns, oids))) => (s, Some (row_description (fields columns oids []) out))
        | (s, Ok None) => (s, Some (no_data out))
        | (s, Err t) => fail_with t s out
        end
      else (s, Some (no_data out))
  end.

Definition describe_stmt (name : string) (s : Session) (out : Out) : Answer :=
  match se_stmts s !! name with
  | None => fail "26000" ("unknown statement '" +:+ name +:+ "'") s out
  | Some prep =>
      let out := parameter_description (param_oids_for prep) out in
      match pr_postprocess prep with
      | PgrstRead | PgrstEmbed _ => (s, Some (row_description (fields BODY_COLUMNS BODY_OIDS []) out))
      | PgrstInsert _ | PgrstUpdate _ | PgrstDelete _ => (s, Some (row_description (fields WRITE_COLUMNS WRITE_OIDS []) out))
      | PNone => describe_plain prep s out
      end
  end.

(** The portal and its result; [unwrap] of what is missing panics. *)
Definition materialized (name : string) (s : Session) : option (Portal * Mat) :=
  p ← se_portals s !! name; m ← po_materialized p; Some (p, m).

Definition describe_portal (name : string) (s : Session) (out : Out) : Answer :=
  match materialize name s with
  | (s, Err t) => fail_with t s out
  | (s, Ok _) =>
      match materialized name s with
      | None => (s, None)
      | Some (p, m) =>
          (s, Some (if mt_has_rows m then row_description (fields (mt_columns m) (mt_oids m) (po_result_formats p)) out
                    else no_data out))
      end
  end.

Definition describe (kind : Init.Byte.byte) (name : string) (s : Session) (out : Out) : Answer :=
  if se_skip_until_sync s then (s, Some out)
  else if bool_decide (kind = chr "S") then describe_stmt name s out
  else describe_portal name s out.

Definition execute (portal : string) (s : Session) (out : Out) : Answer :=
  if se_skip_until_sync s then (s, Some out)
  else
    match materialize portal s with
    | (s, Err t) => fail_with t s out
    | (s, Ok _) =>
        match materialized portal s with
        | None => (s, None)
        | Some (p, m) =>
            let out := if mt_has_rows m
                       then foldl (λ out row, data_row (encode_row (po_result_formats p) row) out) out (mt_rows m)
                       else out in
            (cache portal None (clear_failure s), Some (command_complete (mt_tag m) out))
        end
    end.

Definition close (kind : Init.Byte.byte) (name : string) (s : Session) (out : Out) : Answer :=
  (if bool_decide (kind = chr "S") then set_stmts (delete name (se_stmts s)) s
   else set_portals (delete name (se_portals s)) s, Some (close_complete out)).

(** ** The command loop *)

(** [ready_for_query] after a simple query. *)
Definition then_ready (a : Answer) : Answer :=
  let '(s, out) := a in (s, ready_for_query (status s) <$> out).

(** One turn of the loop, with an empty buffer; [Terminate] ends it before. *)
Definition handle (m : Frontend) (s : Session) : Answer :=
  match m with
  | Query sql => then_ready (simple_query sql s [])
  | Parse name sql oids => parse name sql oids s []
  | Bind portal stmt fmts params res => bind portal stmt fmts params res s []
  | Describe kind name => describe kind name s []
  | Execute portal _ => execute portal s []
  | Close kind name => close kind name s []
  | Sync => let s := set_skip false s in (s, Some (ready_for_query (status s) []))
  | Flush | Terminate => (s, Some [])
  | Unsupported tag =>
      fail "0A000" ("unsupported protocol message '" +:+ of_char (bz tag) +:+ "'") s []
  end.

End Message.

(** The answers to a stream, in order, and how the connection ended. *)
Inductive Ended := Closed | Failed_ (err : WireError).

(** Each turn takes at least one byte. *)
Fixpoint command_loop (fuel : nat) (env : nat → Env) (n : nat) (s : Session) (stream : bytes) : Session * bytes * Ended :=
  match fuel with
  | O => (s, [], Closed)
  | S fuel =>
      match read_message stream with
      | Err err => (s, [], Failed_ err)
      | Ok (None, _) | Ok (Some Terminate, _) => (s, [], Closed)
      | Ok (Some m, rest) =>
          match handle (env n) m s with
          | (s, None) => (s, [], Failed_ WirePanic)
          | (s, Some out) =>
              let '(s, bs, ended) := command_loop fuel env (S n) s rest in (s, flush_to out ++ bs, ended)
          end
      end
  end.

(** Probes are declined with one byte; [None] is a cancel request. *)
Fixpoint startup (fuel : nat) (stream : bytes) : Result WireError (option (list (string * string) * bytes) * bytes) :=
  match fuel with
  | O => Err Eof
  | S fuel =>
      match read_startup stream with
      | Err err => Err err
      | Ok (SslRequest, rest) | Ok (GssRequest, rest) =>
          '(r, sent) ← startup fuel rest; Ok (r, chr "N" :: sent)
      | Ok (Cancel, _) => Ok (None, [])
      | Ok (Params kv, rest) => Ok (Some (kv, rest), [])
      end
  end.

Definition greeting (kv : list (string * string)) (s : Session) : Out :=
  ready_for_query (status s)
    (backend_key_data pid 0
      (parameter_status "application_name" (default ""%string (param kv "application_name"))
        (parameter_status "standard_conforming_strings" "on"
          (parameter_status "DateStyle" "ISO, MDY"
            (parameter_status "client_encoding" "UTF8"
              (parameter_status "server_encoding" "UTF8"
                (parameter_status "server_version" SERVER_VERSION (auth_ok [])))))))).

Definition new_session (d : Database) (kv : list (string * string)) : Session :=
  let user := default "postgres"%string (param kv "user") in
  mkSession d Db.Handle_new user (default user (param kv "database")) ∅ ∅ false false.

(** A client served on an open database: the bytes sent, and the database once the connection is
    dropped. *)
Definition serve (env : nat → Env) (d : Database) (stream : bytes) : Database * bytes * Ended :=
  match startup (length stream) stream with
  | Err err => (d, [], Failed_ err)
  | Ok (None, sent) => (d, sent, Closed)
  | Ok (Some (kv, rest), sent) =>
      let s0 := new_session d kv in
      let '(s, bs, ended) := command_loop (S (length rest)) env 0 s0 rest in
      (Db.close (se_db s) (se_conn s), sent ++ flush_to (greeting kv s0) ++ bs, ended)
  end.

End Sessions.

End Server.
