(* ===== verification/WireSpec.v ===== *)
(** * The wire server's theorems

    Reading back what a client encodes, the answers of the protocol state machine, and what a session
    does to the engine. *)

From S2P Require Import Prelude Text StorageTypes Numbers Float Chars EngineTypes Values Json Session Funcs Ast Wal WalSpec.
From S2P Require Import MvccStore Select Relational RelationalSpec Dml GroupCommit Conn Engine Wire Introspect Datapath Server.

(** ** Integers and strings *)

Definition is_i16 (z : Z) : Prop := - 2 ^ 15 ≤ z < 2 ^ 15.
Definition is_i32 (z : Z) : Prop := - 2 ^ 31 ≤ z < 2 ^ 31.

Lemma to_signed_mod w z : 0 < w → - 2 ^ (w - 1) ≤ z < 2 ^ (w - 1) → to_signed w (z mod 2 ^ w) = z.
Proof.
  intros Hw Hz. assert (2 ^ w = 2 * 2 ^ (w - 1)) as E by (rewrite <- Z.pow_succ_r by lia; f_equal; lia).
  unfold to_signed. rewrite E. set (h := 2 ^ (w - 1)) in *. destruct (Z.ltb_spec z 0).
  - assert (z mod (2 * h) = z + 2 * h) as -> by (symmetry; apply Z.mod_unique_pos with (q := -1); lia).
    destruct (Z.ltb_spec (z + 2 * h) h); lia.
  - rewrite Z.mod_small by lia. destruct (Z.ltb_spec z h); lia.
Qed.

Lemma i16_of_be z : is_i16 z → i16_of (i16_be z) = z.
Proof. intros H. unfold i16_of, i16_be. rewrite rev_involutive, le_combine_split. by apply (to_signed_mod 16). Qed.
Lemma i32_of_be z : is_i32 z → i32_of (i32_be z) = z.
Proof. intros H. unfold i32_of, i32_be. rewrite rev_involutive, le_combine_split. by apply (to_signed_mod 32). Qed.
Lemma i64_of_be z : is_i64 z → i64_of (i64_be z) = z.
Proof. intros H. unfold i64_of, i64_be. rewrite rev_involutive, le_combine_split. by apply (to_signed_mod 64). Qed.

Lemma zlen_i16 z : zlen (i16_be z) = 2.
Proof. unfold i16_be, zlen. by rewrite length_rev, length_le_split. Qed.
Lemma zlen_i32 z : zlen (i32_be z) = 4.
Proof. unfold i32_be, zlen. by rewrite length_rev, length_le_split. Qed.

(** Text that is well formed goes through unchanged. *)
Lemma lossy_valid bs : utf8_valid bs = true → lossy bs = bs.
Proof.
  remember (length bs) as n eqn:En. revert bs En. induction n as [n IH] using lt_wf_ind. intros bs ->.
  assert (∀ r, (length r < length bs)%nat → utf8_valid r = true → lossy r = r) as Hr by (intros r Hr; by eapply IH).
  clear IH. destruct bs as [|b0 r0]; [done|]. cbn [utf8_valid lossy]. destruct (bz b0 <? 0x80).
  { intros H. f_equal. apply Hr; [cbn; lia|done]. }
  destruct r0 as [|b1 r1]; [done|]. destruct (in_range 0xC2 0xDF b0).
  { intros [H1 H]%andb_true_iff. rewrite H1. do 2 f_equal. apply Hr; [cbn; lia|done]. }
  destruct r1 as [|b2 r2]; [done|]. destruct (in_range 0xE0 0xEF b0).
  { intros [[H1 H2]%andb_true_iff H]%andb_true_iff. rewrite H1, H2. do 3 f_equal. apply Hr; [cbn; lia|done]. }
  destruct r2 as [|b3 r3]; [done|].
  intros [[[[H0 H1]%andb_true_iff H2]%andb_true_iff H3]%andb_true_iff H]%andb_true_iff.
  rewrite H0, H1, H2, H3. do 4 f_equal. apply Hr; [cbn; lia|done].
Qed.

(** ** Messages of a client *)

Import Protocol.

(** A string a client can send: well-formed text without the terminator. *)
Definition sendable (s : string) : Prop := str_utf8 s = true ∧ Init.Byte.x00 ∉ str_bytes s.

(** The frame of a message, as the protocol writes it. *)
Definition i16_list (l : list Z) : bytes := i16_be (zlen l) ++ concat (i16_be <$> l).
Definition i32_list (l : list Z) : bytes := i16_be (zlen l) ++ concat (i32_be <$> l).
Definition param_bytes (p : option bytes) : bytes := cell_bytes p.

Definition frontend_tag (m : Frontend) : Init.Byte.byte :=
  match m with
  | Query _ => chr "Q" | Parse _ _ _ => chr "P" | Bind _ _ _ _ _ => chr "B" | Describe _ _ => chr "D"
  | Execute _ _ => chr "E" | Sync => chr "S" | Flush => chr "H" | Close _ _ => chr "C" | Terminate => chr "X"
  | Unsupported tag => tag
  end.

Definition frontend_body (m : Frontend) : bytes :=
  match m with
  | Query sql => push_cstr sql
  | Parse name sql oids => push_cstr name ++ push_cstr sql ++ i32_list oids
  | Bind portal stmt fmts params res =>
      push_cstr portal ++ push_cstr stmt ++ i16_list fmts ++ (i16_be (zlen params) ++ concat (cell_bytes <$> params))
      ++ i16_list res
  | Describe kind name | Close kind name => [kind] ++ push_cstr name
  | Execute portal n => push_cstr portal ++ i32_be n
  | Sync | Flush | Terminate | Unsupported _ => []
  end.

Definition short {A} (l : list A) : Prop := zlen l < 2 ^ 15.

Definition known_tags : list Init.Byte.byte := chr <$> ["Q"; "P"; "B"; "D"; "E"; "S"; "H"; "C"; "X"]%char.

(** What fits the message's fields. *)
Definition frontend_ok (m : Frontend) : Prop :=
  zlen (frontend_body m) + 4 ≤ 2 ^ 30 ∧
  match m with
  | Query sql => sendable sql
  | Parse name sql oids => sendable name ∧ sendable sql ∧ short oids ∧ Forall is_i32 oids
  | Bind portal stmt fmts params res =>
      sendable portal ∧ sendable stmt ∧ short fmts ∧ Forall is_i16 fmts ∧ short params ∧
      short res ∧ Forall is_i16 res
  | Describe _ name | Close _ name => sendable name
  | Execute portal n => sendable portal ∧ is_i32 n
  | Sync | Flush | Terminate => True
  | Unsupported tag => tag ∉ known_tags
  end.

Definition encode_frontend (m : Frontend) : bytes := frame (frontend_tag m, frontend_body m).

(** ** Fields read back *)

Lemma reads_i16 z : is_i16 z → reads c_i16 (i16_be z) z.
Proof.
  intros H. unfold c_i16, c_take. rewrite <- (i16_of_be z H) at 2. apply reads_map, reads_take. by rewrite zlen_i16.
Qed.
Lemma reads_i32 z : is_i32 z → reads c_i32 (i32_be z) z.
Proof.
  intros H. unfold c_i32, c_take. rewrite <- (i32_of_be z H) at 2. apply reads_map, reads_take. by rewrite zlen_i32.
Qed.

Lemma until_nul_app bs rest : Init.Byte.x00 ∉ bs → until_nul (bs ++ Init.Byte.x00 :: rest) = Some (bs, rest).
Proof.
  induction bs as [|b bs IH]; intros Hn; cbn; [done|]. apply not_elem_of_cons in Hn as [Hb Hn].
  rewrite bool_decide_false by congruence. by rewrite (IH Hn).
Qed.

Lemma reads_cstr s : sendable s → reads c_cstr (push_cstr s) s.
Proof.
  intros [Hu Hn] rest. unfold c_cstr, push_cstr. rewrite <- app_assoc. cbn [app]. rewrite until_nul_app by done.
  unfold from_utf8_lossy. rewrite lossy_valid by done. unfold str_bytes. by rewrite string_of_list_byte_of_string.
Qed.

Lemma reads_many {A} (p : Reader A) (enc : A → bytes) (l : list A) :
  short l → Forall (λ x, reads p (enc x) x) l → reads (c_many p) (i16_be (zlen l) ++ concat (enc <$> l)) l.
Proof.
  intros Hs Hl. unfold c_many, c_count. pose proof (zlen_nonneg l).
  eapply reads_bind.
  - rewrite <- (app_nil_r (i16_be _)). eapply reads_bind; [by apply reads_i16; unfold short, is_i16 in *; lia|].
    destruct (Z.ltb_spec (zlen l) 0); [lia|]. apply reads_ret.
  - apply reads_rep; [|unfold zlen; by rewrite Nat2Z.id]. apply Forall2_fmap_l, Forall_Forall2_diag. exact Hl.
Qed.

Lemma reads_param p : match p with Some b => zlen b < 2 ^ 31 | None => True end → reads c_param (cell_bytes p) p.
Proof.
  intros Hp. unfold c_param, cell_bytes. destruct p as [b|].
  - pose proof (zlen_nonneg b). eapply reads_bind; [by apply reads_i32; unfold is_i32; lia|].
    destruct (Z.ltb_spec (zlen b) 0); [lia|]. by apply reads_map, reads_take.
  - rewrite <- (app_nil_r (i32_be (-1))). eapply reads_bind; [by apply reads_i32|]. apply reads_ret.
Qed.

(** ** Whole messages *)

Lemma cell_bound (b : bytes) params : Some b ∈ params → zlen b ≤ zlen (concat (cell_bytes <$> params)).
Proof.
  induction params as [|p params IH]; intros Hin; [by apply not_elem_of_nil in Hin|]. cbn. rewrite zlen_app.
  apply elem_of_cons in Hin as [<-|Hin].
  - cbn. rewrite zlen_app. pose proof (zlen_nonneg (i32_be (zlen b))). pose proof (zlen_nonneg (concat (cell_bytes <$> params))). lia.
  - specialize (IH Hin). pose proof (zlen_nonneg (cell_bytes p)). lia.
Qed.

Lemma reads_i16_list l : short l → Forall is_i16 l → reads (c_many c_i16) (i16_list l) l.
Proof. intros Hs Hl. exact (reads_many c_i16 i16_be l Hs (Forall_impl _ _ l Hl reads_i16)). Qed.
Lemma reads_i32_list l : short l → Forall is_i32 l → reads (c_many c_i32) (i32_list l) l.
Proof. intros Hs Hl. exact (reads_many c_i32 i32_be l Hs (Forall_impl _ _ l Hl reads_i32)). Qed.

Lemma known_tag (c : Ascii.ascii) tag : tag ∉ known_tags → c ∈ ["Q"; "P"; "B"; "D"; "E"; "S"; "H"; "C"; "X"]%char → tag ≠ chr c.
Proof. intros Ht Hc ->. apply Ht. by apply list_elem_of_fmap_2. Qed.

Lemma reads_body m : frontend_ok m → reads (read_body (frontend_tag m)) (frontend_body m) m.
Proof.
  intros [Hlen Hm]. destruct m; cbn [frontend_tag frontend_body]; cbn [frontend_body] in Hlen;
    try (unfold read_body; repeat (rewrite bool_decide_false by done || rewrite bool_decide_true by done)).
  - by apply reads_map, reads_cstr.
  - destruct Hm as (H1 & H2 & H3 & H4). eapply reads_bind; [by apply reads_cstr|].
    eapply reads_bind; [by apply reads_cstr|]. by apply reads_map, reads_i32_list.
  - destruct Hm as (H1 & H2 & H3 & H4 & H5 & H6 & H7). eapply reads_bind; [by apply reads_cstr|].
    eapply reads_bind; [by apply reads_cstr|]. eapply reads_bind; [by apply reads_i16_list|].
    eapply reads_bind; [|by apply reads_map, reads_i16_list]. apply reads_many; [done|].
    apply Forall_forall. intros [b|] Hin; apply reads_param; [|done].
    pose proof (cell_bound b params Hin). rewrite !zlen_app in Hlen.
    pose proof (zlen_nonneg (push_cstr portal)). pose proof (zlen_nonneg (push_cstr stmt)).
    pose proof (zlen_nonneg (i16_list param_formats)). pose proof (zlen_nonneg (i16_list result_formats)).
    pose proof (zlen_nonneg (i16_be (zlen params))). lia.
  - eapply reads_bind; [apply reads_u8|]. by apply reads_map, reads_cstr.
  - destruct Hm. eapply reads_bind; [by apply reads_cstr|]. by apply reads_map, reads_i32.
  - apply reads_ret.
  - apply reads_ret.
  - eapply reads_bind; [apply reads_u8|]. by apply reads_map, reads_cstr.
  - apply reads_ret.
  - unfold read_body. repeat (rewrite bool_decide_false by (apply known_tag; [done|]; set_solver)). apply reads_ret.
Qed.

Lemma reads_frontend m : frontend_ok m → reads read_message (encode_frontend m) (Some m).
Proof.
  intros Hm rest. pose proof (reads_body m Hm) as Hb. destruct Hm as [Hlen _].
  unfold encode_frontend, frame. cbn [fst snd app read_message]. rewrite <- app_assoc. unfold read_framed.
  pose proof (zlen_nonneg (frontend_body m)).
  assert (reads read_i32 (i32_be (zlen (frontend_body m) + 4)) (zlen (frontend_body m) + 4)) as Hi.
  { unfold read_i32, read_exact. rewrite <- (i32_of_be (zlen (frontend_body m) + 4)) at 2 by (unfold is_i32; lia).
    apply reads_map, reads_take. by rewrite zlen_i32. }
  unfold mbind, Parser_bind. rewrite Hi. destruct (Z.ltb_spec (zlen (frontend_body m) + 4) 4); [lia|].
  destruct (Z.ltb_spec (2 ^ 30) (zlen (frontend_body m) + 4)); [lia|]. cbn [orb].
  unfold read_exact. rewrite reads_take by lia. unfold read_whole. specialize (Hb []). rewrite app_nil_r in Hb.
  by rewrite Hb.
Qed.

(** Frontend round trip: whatever messages a client encodes, one after the other, are read back
    one by one with nothing left, each with the fields it was given. *)
Theorem frontend_roundtrip (ms : list Frontend) :
  Forall frontend_ok ms →
  p_rep (length ms) read_message (concat (encode_frontend <$> ms)) = Ok (Some <$> ms, []).
Proof.
  intros Hms. rewrite <- (app_nil_r (concat _)).
  refine (reads_rep read_message (encode_frontend <$> ms) (Some <$> ms) (length ms) _ _ []).
  - apply Forall2_fmap, Forall_Forall2_diag. eapply Forall_impl; [exact Hms|]. exact reads_frontend.
  - by rewrite length_fmap.
Qed.

(** ** The documented subset is the codec's *)

(** The message types the capability matrix calls answered; the startup packet has none. *)
Definition answered (c : Capability.MessageCap) : bool :=
  match Capability.mc_support c with Capability.Answered => negb (Ascii.eqb (Capability.mc_tag c) (of_code 0)) | _ => false end.
Definition answered_tags : list Init.Byte.byte :=
  (λ c, chr (Capability.mc_tag c)) <$> List.filter answered Capability.PROTOCOL_MESSAGES.

Lemma answered_known tag : tag ∈ answered_tags ↔ tag ∈ known_tags.
Proof.
  assert (answered_tags ≡ₚ known_tags) as E by (apply (bool_decide_unpack _); by vm_compute). by rewrite E.
Qed.

(** A message is refused as unsupported exactly when the matrix does not call its type answered. *)
Lemma matrix_matches_codec tag body m rest :
  read_body tag body = Ok (m, rest) → (m = Unsupported tag ↔ tag ∉ answered_tags).
Proof.
  rewrite answered_known. intros H. split.
  - intros -> Hk. unfold known_tags in Hk. cbn [fmap list_fmap] in Hk. unfold read_body in H.
    do 9 (apply elem_of_cons in Hk as [->|Hk]; [repeat first [rewrite bool_decide_true in H by done | rewrite bool_decide_false in H by done];
      unfold mbind, Parser_bind, mret, Parser_ret in H; repeat case_match; discriminate|]). by apply not_elem_of_nil in Hk.
  - intros Hk. unfold read_body in H.
    repeat (rewrite bool_decide_false in H by (apply known_tag; [done|]; set_solver)). by injection H as <- _.
Qed.

(** The rows of the catalog matrix that are recognised anywhere in a statement. *)
Definition anywhere : list string :=
  ["pg_relation_is_updatable"; "pks_uniques_cols"; "pg_timezone_names"; "pg_cast"; "computed_rels"; "rettype_is_setof";
   "pks_fks"; "pg_db_role_setting"; "pg_auth_members"].

Lemma anywhere_documented m : m ∈ anywhere → m ∈ Capability.ca_marker <$> Capability.CATALOG_QUERIES.
Proof.
  assert (anywhere ⊆ Capability.ca_marker <$> Capability.CATALOG_QUERIES) as H by (apply (bool_decide_unpack _); by vm_compute).
  apply H.
Qed.

Lemma first_answer_some (l : list (option Introspect.Canned)) c :
  Some c ∈ l → Forall (λ o, o ≠ Some Introspect.Pass) l → Introspect.first_answer l ≠ Introspect.Pass.
Proof.
  intros Hin Hp. induction Hp as [|o l Ho Hp IH]; [by apply not_elem_of_nil in Hin|].
  destruct o as [d|]; cbn; [congruence|]. apply elem_of_cons in Hin as [?|Hin]; [done|by apply IH].
Qed.

Lemma when_some b (c : Introspect.Canned) : b = true → Introspect.when b c = Some c.
Proof. by intros ->. Qed.

Lemma empty_query_some qs s m :
  str_contains m s = true → existsb (λ q, existsb (String.eqb m) q.1) qs = true →
  ∃ c, Introspect.empty_query qs s = Some c.
Proof.
  intros Hs (q & Hq & Hm)%existsb_exists. apply existsb_exists in Hm as (m' & Hm & <-%String.eqb_eq).
  unfold Introspect.empty_query. destruct (List.find (Introspect.mentions s) qs) as [q'|] eqn:E; [by eexists|].
  pose proof (List.find_none _ _ E q Hq) as Hn. unfold Introspect.mentions in Hn.
  assert (existsb (λ m, str_contains m s) q.1 = true) as Hx by (apply existsb_exists; by exists m). congruence.
Qed.

Lemma when_not_pass b c : c ≠ Introspect.Pass → Introspect.when b c ≠ Some Introspect.Pass.
Proof. destruct b; [|done]. cbn. congruence. Qed.

Lemma fmap_not_pass {A} (f : A → Introspect.Canned) o : (∀ a, f a ≠ Introspect.Pass) → f <$> o ≠ Some Introspect.Pass.
Proof. intros Hf. destruct o as [a|]; [|done]. cbn. specialize (Hf a). congruence. Qed.

Lemma current_setting_not_pass s : Introspect.current_setting_probe s ≠ Some Introspect.Pass.
Proof.
  unfold Introspect.current_setting_probe. destruct (strip_prefix _ s) as [rest|]; [|done]. cbn [mbind option_bind].
  by destruct (split_once _ rest) as [[name r]|].
Qed.

(** A statement with such a marker never reaches the engine, unless it sets the principal. *)
Lemma marker_is_answered pid sql user database m :
  m ∈ anywhere → str_contains m (Introspect.statement_key sql) = true →
  Introspect.is_rls_session_stmt (Introspect.statement_key sql) = false →
  Introspect.intercept pid sql user database ≠ Introspect.Pass.
Proof.
  intros Hm Hs Hr. unfold Introspect.intercept. rewrite Hr. set (s := Introspect.statement_key sql) in *.
  assert (∃ c, Some c ∈ [Introspect.when (str_contains "pg_relation_is_updatable" s) (Introspect.Reflect Introspect.RTables);
      Introspect.empty_query Introspect.empty_queries_a s;
      Introspect.when (str_contains "pks_uniques_cols" s) (Introspect.Reflect Introspect.RRelationships);
      Introspect.empty_query Introspect.empty_queries_b s]) as [c Hc].
  { unfold anywhere in Hm.
    do 9 (apply elem_of_cons in Hm as [->|Hm];
      [ first [ rewrite (when_some _ _ Hs); eexists; by apply (list_elem_of_lookup_2 _ 0)
              | rewrite (when_some _ _ Hs); eexists; by apply (list_elem_of_lookup_2 _ 2)
              | destruct (empty_query_some Introspect.empty_queries_a s _ Hs eq_refl) as [c Hc]; rewrite Hc; exists c;
                by apply (list_elem_of_lookup_2 _ 1)
              | destruct (empty_query_some Introspect.empty_queries_b s _ Hs eq_refl) as [c Hc]; rewrite Hc; exists c;
                by apply (list_elem_of_lookup_2 _ 3) ] | ]).
    by apply not_elem_of_nil in Hm. }
  apply (first_answer_some _ c).
  - do 5 apply list_elem_of_further. match goal with |- _ ∈ ?a :: ?b :: ?x :: ?y :: ?r => change (Some c ∈ [a; b; x; y] ++ r) end.
    apply elem_of_app. by left.
  - repeat (apply Forall_cons_2; [first [by apply when_not_pass|by apply current_setting_not_pass|by apply fmap_not_pass]|]).
    apply Forall_nil_2.
Qed.

(** ** The startup packet *)

Definition param_cstrs (kv : string * string) : bytes := push_cstr kv.1 ++ push_cstr kv.2.
Definition startup_body (code : Z) (kvs : list (string * string)) : bytes :=
  i32_be code ++ concat (param_cstrs <$> kvs) ++ [Init.Byte.x00].
Definition startup_packet (kvs : list (string * string)) : bytes :=
  i32_be (zlen (startup_body 196608 kvs) + 4) ++ startup_body 196608 kvs.

(** An encryption probe has no parameters. *)
Definition probe_packet (gss : bool) : bytes := i32_be 8 ++ i32_be (if gss then 80877105 else 80877103).

Definition startup_ok (kvs : list (string * string)) : Prop :=
  zlen (startup_body 196608 kvs) + 4 ≤ 2 ^ 20 ∧
  Forall (λ kv, sendable kv.1 ∧ kv.1 ≠ ""%string ∧ sendable kv.2) kvs.

Lemma split_nul_app bs rest : Init.Byte.x00 ∉ bs → split_nul (bs ++ Init.Byte.x00 :: rest) = bs :: split_nul rest.
Proof.
  induction bs as [|b bs IH]; intros Hn; [done|]. apply not_elem_of_cons in Hn as [Hb Hn]. cbn.
  rewrite bool_decide_false by congruence. by rewrite (IH Hn).
Qed.

Lemma lossy_string s : str_utf8 s = true → from_utf8_lossy (str_bytes s) = s.
Proof. intros H. unfold from_utf8_lossy. rewrite lossy_valid by done. apply string_of_list_byte_of_string. Qed.

Lemma str_bytes_nil s : str_bytes s = [] → s = ""%string.
Proof. by destruct s. Qed.

Lemma startup_params_split kvs :
  Forall (λ kv, sendable kv.1 ∧ kv.1 ≠ ""%string ∧ sendable kv.2) kvs →
  startup_params (split_nul (concat (param_cstrs <$> kvs) ++ [Init.Byte.x00])) = kvs.
Proof.
  induction 1 as [|[k v] kvs [[Hu Hn] [Hk [Hv Hm]]] _ IH]; [done|]. cbn [fst snd] in *.
  cbn [fmap list_fmap concat]. unfold param_cstrs at 1, push_cstr. cbn [fst snd]. rewrite <- !app_assoc. cbn [app].
  rewrite split_nul_app by done. rewrite split_nul_app by done. cbn [startup_params].
  rewrite bool_decide_false by (intros E; by apply Hk, str_bytes_nil). by rewrite !lossy_string, IH.
Qed.

Lemma reads_i32_exact z : is_i32 z → reads read_i32 (i32_be z) z.
Proof.
  intros H. unfold read_i32, read_exact. rewrite <- (i32_of_be z H) at 2. apply reads_map, reads_take. by rewrite zlen_i32.
Qed.

Lemma take_i32 z rest : take 4 (i32_be z ++ rest) = i32_be z.
Proof.
  assert (length (i32_be z) = 4%nat) as Hl by (unfold i32_be; by rewrite length_rev, length_le_split).
  by rewrite <- Hl, take_app_length.
Qed.
Lemma drop_i32 z rest : drop 4 (i32_be z ++ rest) = rest.
Proof.
  assert (length (i32_be z) = 4%nat) as Hl by (unfold i32_be; by rewrite length_rev, length_le_split).
  by rewrite <- Hl, drop_app_length.
Qed.

Lemma reads_startup kvs : startup_ok kvs → reads read_startup (startup_packet kvs) (Params kvs).
Proof.
  intros [Hl Hk]. unfold read_startup, startup_packet. pose proof (zlen_nonneg (concat (param_cstrs <$> kvs))).
  assert (zlen (startup_body 196608 kvs) = 5 + zlen (concat (param_cstrs <$> kvs))) as Hb.
  { unfold startup_body. rewrite !zlen_app, zlen_i32. change (zlen [Init.Byte.x00]) with 1. lia. }
  eapply reads_bind; [apply reads_i32_exact; unfold is_i32; lia|].
  destruct (Z.ltb_spec (zlen (startup_body 196608 kvs) + 4) 8); [lia|].
  destruct (Z.ltb_spec (2 ^ 20) (zlen (startup_body 196608 kvs) + 4)); [lia|]. cbn [orb].
  rewrite <- (app_nil_r (startup_body _ _)) at 2. eapply reads_bind; [apply reads_take; lia|].
  unfold startup_body. rewrite take_i32, drop_i32, i32_of_be by done. cbn [Z.eqb Pos.eqb].
  rewrite startup_params_split by done. apply reads_ret.
Qed.

Lemma reads_probe gss : reads read_startup (probe_packet gss) (if gss then GssRequest else SslRequest).
Proof.
  eapply reads_bind; [by apply reads_i32_exact|]. cbn [Z.ltb Z.compare Pos.compare Pos.compare_cont orb].
  rewrite <- (app_nil_r (i32_be _)). eapply reads_bind; [apply reads_take; by rewrite zlen_i32|].
  destruct gss; exact (reads_ret _).
Qed.

(** ** The stream *)

Section Stream.
Context {VI : Type} `{!VectorIndexOps VI, !VectorSearch VI}.
Context {B : Type} `{!EngineStorage B}.
Variable stack : nat.
Variable is_alphanumeric : Z → bool.
Variable pid : Z.
Import Server.
Abbreviation Session := (Server.Session (VI := VI) (B := B)).
Abbreviation handle := (Server.handle (VI := VI) (B := B) stack is_alphanumeric pid).
Abbreviation command_loop := (Server.command_loop (VI := VI) (B := B) stack is_alphanumeric pid).
Abbreviation serve := (Server.serve (VI := VI) (B := B) stack is_alphanumeric pid).

(** The messages answered in order, to the first [Terminate] or panic. *)
Fixpoint converse (env : nat → Env) (n : nat) (s : Session) (ms : list Frontend) : Session * bytes * Ended :=
  match ms with
  | [] => (s, [], Closed)
  | Terminate :: _ => (s, [], Closed)
  | m :: ms =>
      match handle (env n) m s with
      | (s, None) => (s, [], Failed_ WirePanic)
      | (s, Some out) => let '(s, bs, ended) := converse env (S n) s ms in (s, flush_to out ++ bs, ended)
      end
  end.

Lemma encode_nonempty m : (0 < length (encode_frontend m))%nat.
Proof. unfold encode_frontend, frame. cbn. lia. Qed.

Lemma command_loop_messages env ms fuel n s :
  Forall frontend_ok ms → (length (concat (encode_frontend <$> ms)) < fuel)%nat →
  command_loop fuel env n s (concat (encode_frontend <$> ms)) = converse env n s ms.
Proof.
  intros Hms. revert fuel n s. induction Hms as [|m ms Hm _ IH]; intros fuel n s Hf; (destruct fuel as [|fuel]; [lia|]).
  - done.
  - cbn [fmap list_fmap concat] in *. cbn [Server.command_loop]. rewrite (reads_frontend m Hm). cbn [converse].
    rewrite length_app in Hf. pose proof (encode_nonempty m).
    assert (∀ s', command_loop fuel env (S n) s' (concat (encode_frontend <$> ms)) = converse env (S n) s' ms) as IH'
      by (intros s'; apply IH; lia).
    destruct m; try done; (destruct (handle _ _ s) as [s' [out|]]; [by rewrite IH'|done]).
Qed.

Lemma startup_probes probes fuel kvs rest :
  startup_ok kvs → (length probes < fuel)%nat →
  startup fuel (concat (probe_packet <$> probes) ++ startup_packet kvs ++ rest)
  = Ok (Some (kvs, rest), replicate (length probes) (chr "N")).
Proof.
  intros Hk. revert fuel. induction probes as [|gss probes IH]; intros fuel Hf; (destruct fuel as [|fuel]; [cbn in Hf; lia|]).
  - cbn [fmap list_fmap concat app startup]. by rewrite (reads_startup _ Hk).
  - cbn [fmap list_fmap concat startup]. rewrite <- app_assoc, (reads_probe gss). cbn in Hf.
    destruct gss; by rewrite IH by lia.
Qed.

Lemma length_concat_ge {X Y} (f : X → list Y) k l :
  (∀ x, k ≤ length (f x))%nat → (k * length l ≤ length (concat (f <$> l)))%nat.
Proof. intros Hf. induction l as [|x l IH]; cbn; [lia|]. rewrite length_app. specialize (Hf x). lia. Qed.

(** What a client that connects, sends the messages and leaves should see. *)
Definition dialogue (env : nat → Env) (d : Database VI SelectStmt B) (probes : nat) (kvs : list (string * string))
    (ms : list Frontend) : Database VI SelectStmt B * bytes * Ended :=
  let s0 := new_session d kvs in
  let '(s, bs, ended) := converse env 0 s0 ms in
  (Db.close (se_db s) (se_conn s), replicate probes (chr "N") ++ flush_to (greeting pid kvs s0) ++ bs, ended).

(** C33. Whole connections: a client that probes for encryption any number of times, sends its
    parameters and then any messages gets one refusal per probe, the greeting of a session of its user,
    and the frames of the answer to each message, in order, up to [Terminate] or a panic; then the
    session's transaction is rolled back. *)
Theorem serves_client (env : nat → Env) (d : Database VI SelectStmt B) probes kvs (ms : list Frontend) :
  startup_ok kvs → Forall frontend_ok ms →
  serve env d (concat (probe_packet <$> probes) ++ startup_packet kvs ++ concat (encode_frontend <$> ms))
  = dialogue env d (length probes) kvs ms.
Proof.
  intros Hk Hms. unfold serve, dialogue.
  rewrite startup_probes; [|done|].
  - rewrite command_loop_messages by (done || lia). by destruct (converse _ _ _ _) as [[s bs] ended].
  - rewrite !length_app. pose proof (length_concat_ge probe_packet 1 probes) as Hp.
    assert (0 < length (startup_packet kvs))%nat by (unfold startup_packet, startup_body, i32_be; rewrite !length_app, !length_rev, !length_le_split; lia).
    assert (∀ g, 1 ≤ length (probe_packet g))%nat as Hg by (intros []; apply Nat.leb_le; vm_compute; reflexivity). specialize (Hp Hg). lia.
Qed.

(** ** The loop ends *)

Lemma p_take_consumes {E} (e : E) n bs x rest : p_take e n bs = Ok (x, rest) → (length rest ≤ length bs)%nat.
Proof. unfold p_take. destruct (_ : bool); intros [=]; subst; rewrite ?length_drop; lia. Qed.

Lemma read_message_consumes bs m rest : read_message bs = Ok (Some m, rest) → (length rest < length bs)%nat.
Proof.
  destruct bs as [|tag bs]; [done|]. cbn [read_message]. unfold read_framed, read_i32, read_exact, mbind, Parser_bind, mret, Parser_ret.
  destruct (p_take Eof 4 bs) as [[b r1]|] eqn:E1; [|done]. apply p_take_consumes in E1.
  destruct (_ || _); [done|]. destruct (p_take Eof (i32_of b - 4) r1) as [[body r2]|] eqn:E2; [|done].
  apply p_take_consumes in E2. unfold read_whole. destruct (read_body tag body) as [[m' ?]|]; [|done].
  intros [= <- <-]. cbn. lia.
Qed.

(** More fuel than the stream has bytes changes nothing. *)
Lemma command_loop_fuel env fuel n s stream :
  (length stream < fuel)%nat → command_loop fuel env n s stream = command_loop (S (length stream)) env n s stream.
Proof.
  revert n s stream. induction fuel as [fuel IH] using lt_wf_ind. intros n s stream Hf.
  destruct fuel as [|fuel]; [lia|]. cbn [Server.command_loop].
  destruct (read_message stream) as [[[m|] rest]|] eqn:E; [|done..]. apply read_message_consumes in E.
  assert (∀ s', command_loop fuel env (S n) s' rest = command_loop (length stream) env (S n) s' rest) as IH'.
  { intros s'. rewrite (IH fuel) by lia. destruct (length stream) as [|k] eqn:Ek; [lia|].
    destruct (decide (length rest = k)) as [->|Hk]; [done|]. symmetry. apply IH; lia. }
  destruct m; try done; (destruct (handle _ _ s) as [s' [out|]]; [by rewrite IH'|done]).
Qed.

(** ** What a session does to the engine *)

Abbreviation Engine := (Database VI SelectStmt B * Db.Handle)%type.
Abbreviation Act A := (Comp Session Trouble A).

Definition engine (s : Session) : Engine := (se_db s, se_conn s).

(** Statements of the engine with their parameters, run on the connection one after the other. *)
Abbreviation Call := (Statement.Stmt * list Value)%type.

Inductive performs (host : Host) : list Call → Engine → Engine → Prop :=
| performs_nil x : performs host [] x x
| performs_cons st params r l x y z :
    Db.run stack host st params x = (y, r) → performs host l y z → performs host ((st, params) :: l) x z.

Lemma performs_app host l k x y z : performs host l x y → performs host k y z → performs host (l ++ k) x z.
Proof. induction 1; [done|]. intros. econstructor; eauto. Qed.

Lemma performs_one host st params x : performs host [(st, params)] x (Db.run stack host st params x).1.
Proof. destruct (Db.run stack host st params x) as [y r] eqn:E. by econstructor; [exact E|constructor]. Qed.

(** The call a prepared statement makes once its parameters are bound; none when the text does not
    parse or a parameter has no place. *)
Definition call (sql : string) (vs : list Value) : list Call :=
  match p ← Db.prepare sql; bind_all 1 vs p with
  | Ok p => [(Db.ps_stmt p, Db.ps_params p)]
  | Err _ => []
  end.

Section Marshal.
Variable e : Env.

(** The calls were made, and nothing else of the session moved. *)
Record marshals (l : list Call) (s s' : Session) : Prop := mkMarshals {
  marshals_engine : performs (env_host e) l (engine s) (engine s');
  marshals_rest : s' = set_engine (engine s') s
}.

(** Whatever the session, the action makes calls, and they and the outcome satisfy [P]. *)
Definition acts {A} (m : Act A) (P : list Call → Result Trouble A → Prop) : Prop :=
  ∀ s, ∃ l, P l (m s).2 ∧ marshals l s (m s).1.

Lemma set_engine_same s : set_engine (engine s) s = s.
Proof. by destruct s. Qed.

Lemma marshals_refl s : marshals [] s s.
Proof. split; [constructor|]. by rewrite set_engine_same. Qed.

Lemma marshals_trans l k s1 s2 s3 : marshals l s1 s2 → marshals k s2 s3 → marshals (l ++ k) s1 s3.
Proof. intros [H1 E1] [H2 E2]. split; [by eapply performs_app|]. rewrite E2 at 1. rewrite E1. done. Qed.

Lemma marshals_ran l s y : performs (env_host e) l (engine s) y → marshals l s (set_engine y s).
Proof. intros H. split; cbn; [by destruct y|]. by destruct y. Qed.

Lemma acts_pure {A} (f : Session → Result Trouble A) (P : list Call → Result Trouble A → Prop) :
  (∀ s, P [] (f s)) → acts (λ s, (s, f s)) P.
Proof. intros HP s. exists []. split; [apply HP|apply marshals_refl]. Qed.

Lemma acts_ret {A} (a : A) (P : list Call → Result Trouble A → Prop) : P [] (Ok a) → acts (comp_ret a) P.
Proof. intros HP. by apply (acts_pure (λ _, Ok a)). Qed.

Lemma acts_weaken {A} (m : Act A) (P Q : list Call → Result Trouble A → Prop) :
  acts m P → (∀ l r, P l r → Q l r) → acts m Q.
Proof. intros Hm HPQ s. destruct (Hm s) as (l & HP & HM). exists l. split; [by apply HPQ|done]. Qed.

Lemma acts_bind {A C} (m : Act A) (f : A → Act C) (P : list Call → Result Trouble A → Prop)
    (Q : list Call → Result Trouble C → Prop) :
  acts m P → (∀ l t, P l (Err t) → Q l (Err t)) → (∀ l a, P l (Ok a) → acts (f a) (λ k r, Q (l ++ k) r)) →
  acts (comp_bind m f) Q.
Proof.
  intros Hm He Hf s. unfold comp_bind. destruct (Hm s) as (l & HP & HM). destruct (m s) as [s' [a|t]]; cbn in HP, HM.
  - destruct (Hf l a HP s') as (k & HQ & HK). exists (l ++ k). split; [done|by eapply marshals_trans].
  - exists l. split; [by apply He|done].
Qed.

(** A step that makes no call. *)
Lemma acts_then {A C} (m : Act A) (f : A → Act C) (Q : list Call → Result Trouble C → Prop) :
  acts m (λ l r, l = [] ∧ ∀ t, r = Err t → Q [] (Err t)) → (∀ a, acts (f a) Q) → acts (comp_bind m f) Q.
Proof.
  intros Hm Hf. eapply acts_bind; [exact Hm| |].
  - intros l t [-> H]. by apply H.
  - intros l a [-> _]. apply Hf.
Qed.

(** A statement is parsed, bound and run: one call, or none and an error. *)
Lemma acts_executed sql vs :
  acts (executed stack e sql vs) (λ l r, l = call sql vs ∧ ∀ p, r = Ok p → Db.ps_executed p = true).
Proof.
  intros s. unfold executed, comp_bind, lift_res, call. destruct (Db.prepare sql) as [p|st] eqn:Ep; cbn -[Db.run Db.ensure_executed].
  2:{ exists []. split; [done|apply marshals_refl]. }
  assert (∀ pos vs p p', bind_all pos vs p = Ok p' → Db.ps_executed p' = Db.ps_executed p) as Hb.
  { clear. intros pos vs. revert pos. induction vs as [|v vs IH]; intros pos p p'; cbn; [by intros [= ->]|].
    unfold Db.bind. destruct (_ || _); [done|]. intros H. by rewrite (IH _ _ _ H). }
  destruct (bind_all 1 vs p) as [p'|st] eqn:Eb; cbn -[Db.run Db.ensure_executed].
  2:{ exists []. split; [done|apply marshals_refl]. }
  assert (Db.ps_executed p' = false) as Hx.
  { rewrite (Hb _ _ _ _ Eb). unfold Db.prepare in Ep. destruct (Statements.parse sql) as [[st n]|]; [|done]. by injection Ep as <-. }
  exists [(Db.ps_stmt p', Db.ps_params p')]. unfold Db.ensure_executed. rewrite Hx.
  pose proof (performs_one (env_host e) (Db.ps_stmt p') (Db.ps_params p') (engine s)) as Hp. unfold engine in Hp.
  destruct (Db.run _ _ _ _ _) as [x [rs|f]]; cbn -[Db.run] in *; (split; [split; [done|]|by apply marshals_ran]); [by intros q [= <-]|done].
Qed.

(** Reading the rows of a statement that has run makes no call. *)
Lemma fetch_rows_quiet fuel nc (y : Engine * Db.Prepared) :
  Db.ps_executed y.2 = true → (fetch_rows stack e fuel nc y).1.1 = y.1.
Proof.
  revert y. induction fuel as [|fuel IH]; intros [x p] Hp; [done|]. cbn [fetch_rows snd fst] in *.
  unfold Db.step, Db.ensure_executed. rewrite Hp. destruct (Db.ps_result p) as [rs|]; [|done].
  destruct (_ <? _)%nat; [|done].
  set (y' := (x, Db.mkPrepared _ _ _ _ _ _)). assert ((fetch_rows stack e fuel nc y').1.1 = x) as E by (by apply (IH y')).
  destruct (fetch_rows _ _ _ _ y') as [y2 r]. done.
Qed.

Lemma acts_all_rows p : Db.ps_executed p = true → acts (all_rows stack e p) (λ l _, l = []).
Proof.
  intros Hp s. exists []. split; [done|]. unfold all_rows.
  pose proof (fetch_rows_quiet (S (result_rows p)) (Db.column_count p) (engine s, p) Hp) as H. unfold engine in H.
  destruct (fetch_rows _ _ _ _ _) as [[x q] r]. cbn in *. subst x. apply marshals_ran. constructor.
Qed.

End Marshal.

(** The calls of a text with placeholders, and the texts PostgREST's plans are run as. *)
Definition placed (sql : string) (params : list Value) (order : list Z) : list Call := call sql (wire_param params <$> order).
Definition rewritten_call (sql : string) (params : list Value) : list Call :=
  placed (rewrite_placeholders sql).1 params (rewrite_placeholders sql).2.

Definition update_text (p : Datapath.UpdatePlan) : string :=
  "UPDATE " +:+ Datapath.up_table p +:+ " SET " +:+ join_str ", " ((λ c, c +:+ " = ?") <$> Datapath.up_set_columns p)
  +:+ where_sql (Datapath.up_where p).
Definition update_calls (p : Datapath.UpdatePlan) (params : list Value) : list Call :=
  match body ← body_text params; Datapath.json_rows body (Datapath.up_set_columns p) with
  | Some rows =>
      call (rewrite_placeholders (update_text p)).1
        (default [] (head rows) ++ (wire_param params <$> (rewrite_placeholders (update_text p)).2))
  | None => []
  end.

Definition delete_text (p : Datapath.DeletePlan) : string :=
  "DELETE FROM " +:+ Datapath.dp_table p +:+ where_sql (Datapath.dp_where p).

Definition insert_text (p : Datapath.InsertPlan) : string :=
  "INSERT INTO " +:+ Datapath.ip_table p +:+ " (" +:+ join_str ", " (Datapath.ip_columns p) +:+ ") VALUES ("
  +:+ join_str ", " ((λ _, "?"%string) <$> Datapath.ip_columns p) +:+ ")".
Definition insert_body (p : Datapath.InsertPlan) (params : list Value) : list (list Value) :=
  default [] (body ← body_text params; Datapath.json_rows body (Datapath.ip_columns p)).

Definition base_text (plan : Datapath.EmbedRead) : string :=
  "SELECT " +:+ join_str ", " (fetch_columns (Datapath.er_items plan)) +:+ " FROM " +:+ Datapath.er_base_table plan
  +:+ (if String.eqb (Datapath.er_base_tail plan) "" then "" else " " +:+ Datapath.er_base_tail plan).
Definition relation_text (em : Datapath.Embed) : string :=
  "SELECT " +:+ join_str ", " (Datapath.em_rel_columns em) +:+ " FROM " +:+ Datapath.em_rel_table em
  +:+ " WHERE " +:+ Datapath.em_rel_col em +:+ " = ?".
(** Reads of the relations an embedding names, one key at a time. *)
Definition relation_calls (items : list Datapath.EmbedItem) (l : list Call) : Prop :=
  ∃ reads : list (Datapath.Embed * Value),
    Forall (λ r, Datapath.ERelation r.1 ∈ items) reads ∧ l = concat ((λ r, call (relation_text r.1) [r.2]) <$> reads).

(** A statement that the server does not answer itself. *)
Definition passes (sql : string) (s : Session) : bool :=
  match Introspect.intercept pid sql (se_user s) (se_database s) with Introspect.Pass => true | _ => false end.

(** The calls a prepared statement may make with the parameters of a portal. *)
Definition prepared_calls (prep : Prepared) (params : list Value) (s : Session) (l : list Call) : Prop :=
  match pr_postprocess prep with
  | PNone => l = if passes (pr_sql prep) s then placed (pr_sql prep) params (pr_order prep) else []
  | PgrstRead => l = placed (pr_sql prep) params (pr_order prep)
  | PgrstUpdate plan => l = update_calls plan params
  | PgrstDelete plan => l = rewritten_call (delete_text plan) params
  | PgrstInsert plan => ∃ k, l = concat (call (insert_text plan) <$> take k (insert_body plan params))
  | PgrstEmbed plan =>
      ∃ l', relation_calls (Datapath.er_items plan) l' ∧ l = rewritten_call (base_text plan) params ++ l'
  end.

Section Programs.
Variable e : Env.

Lemma acts_run_engine sql params order :
  acts e (run_engine stack e sql params order) (λ l _, l = placed sql params order).
Proof.
  unfold run_engine, placed. eapply acts_bind; [apply acts_executed|by intros l t [-> _]|].
  intros l p [-> Hp]. specialize (Hp p eq_refl). destruct (_ <? _)%nat.
  - eapply acts_bind; [by apply acts_all_rows|by intros ? ? ->; rewrite app_nil_r|]. intros k rows ->.
    apply acts_ret. by rewrite !app_nil_r.
  - apply acts_pure. intros _. by rewrite app_nil_r.
Qed.

Lemma acts_dummy_columns sql n :
  acts e (dummy_columns stack e sql n) (λ l _, l = call sql (replicate n Null)).
Proof.
  unfold dummy_columns. eapply acts_bind; [apply acts_executed|by intros l t [-> _]|].
  intros l p [-> _]. apply acts_ret. by rewrite app_nil_r.
Qed.

Lemma acts_insert_rows sql rows n :
  acts e (insert_rows stack e sql rows n) (λ l _, ∃ k, l = concat (call sql <$> take k rows)).
Proof.
  revert n. induction rows as [|row rows IH]; intros n; cbn [insert_rows].
  - apply acts_ret. by exists O.
  - eapply acts_bind; [apply acts_executed| |].
    + intros l t [-> _]. exists 1%nat. cbn. by rewrite take_0, app_nil_r.
    + intros l p [-> _]. eapply acts_weaken; [apply IH|]. intros k r [j ->]. by exists (S j).
Qed.

Lemma acts_need {A C} t (o : option A) (f : A → Act C) (Q : list Call → Result Trouble C → Prop) :
  (o = None → Q [] (Err t)) → (∀ a, o = Some a → acts e (f a) Q) → acts e (comp_bind (need t o) f) Q.
Proof.
  intros Hn Hs s. unfold comp_bind, need. destruct o as [a|]; [by apply Hs|].
  exists []. split; [by apply Hn|apply marshals_refl].
Qed.

Lemma acts_pgrst_insert p params :
  acts e (run_pgrst_insert stack e p params)
    (λ l _, ∃ k, l = concat (call (insert_text p) <$> take k (insert_body p params))).
Proof.
  unfold run_pgrst_insert, insert_body. apply acts_need; [by exists O|]. intros body ->.
  apply acts_need; [by exists O|]. intros rows Er. cbn [mbind option_bind]. rewrite Er. apply acts_insert_rows.
Qed.

(** The call, then its row count. *)
Lemma acts_counted sql vs :
  acts e (do! executed stack e sql vs in λ s, (s, Ok (Db.changes (se_conn s))))%comp (λ l _, l = call sql vs).
Proof.
  eapply acts_bind; [apply acts_executed|by intros l t [-> _]|]. intros l p [-> _].
  apply acts_pure. intros _. by rewrite app_nil_r.
Qed.

Lemma acts_pgrst_update p params : acts e (run_pgrst_update stack e p params) (λ l _, l = update_calls p params).
Proof.
  unfold run_pgrst_update, update_calls, update_text. apply acts_need; [by intros ->|]. intros body ->.
  apply acts_need; cbn [mbind option_bind]; [by intros ->|]. intros rows ->.
  cbv zeta. destruct (rewrite_placeholders _) as [rewritten order]. cbn [fst snd]. apply acts_counted.
Qed.

Lemma acts_pgrst_delete p params :
  acts e (run_pgrst_delete stack e p params) (λ l _, l = rewritten_call (delete_text p) params).
Proof.
  unfold run_pgrst_delete, rewritten_call, placed, delete_text.
  destruct (rewrite_placeholders _) as [rewritten order]. cbn [fst snd]. apply acts_counted.
Qed.

Lemma relation_calls_app items l k : relation_calls items l → relation_calls items k → relation_calls items (l ++ k).
Proof.
  intros (r1 & H1 & ->) (r2 & H2 & ->). exists (r1 ++ r2). split; [by apply Forall_app|].
  by rewrite fmap_app, concat_app.
Qed.

Lemma relation_calls_nil items : relation_calls items [].
Proof. by exists []. Qed.

Lemma acts_embed_member columns row i items :
  i ∈ items → acts e (embed_member stack e columns row i) (λ l _, relation_calls items l).
Proof.
  intros Hi. destruct i as [key column|em]; cbn [embed_member]; [apply acts_ret, relation_calls_nil|].
  assert (∀ v, relation_calls items (call (relation_text em) [v])) as Hc.
  { intros v. exists [(em, v)]. split; [by repeat constructor|]. cbn. by rewrite app_nil_r. }
  set (v := base_value columns row (Datapath.em_base_col em)).
  apply acts_bind with (λ l _, l = call (relation_text em) [v]).
  - unfold run_embed_relation, relation_text. eapply acts_bind; [apply acts_executed|by intros l t [-> _]|].
    intros l p [-> Hp]. eapply acts_bind; [by apply acts_all_rows, Hp|by intros ? ? ->; rewrite app_nil_r|].
    intros k rows ->. apply acts_ret. by rewrite !app_nil_r.
  - by intros l t ->.
  - intros l [rcols rrows] ->. apply acts_ret. rewrite app_nil_r. apply Hc.
Qed.

Lemma acts_embed_members columns row items items' :
  items ⊆ items' → acts e (embed_members stack e columns row items) (λ l _, relation_calls items' l).
Proof.
  induction items as [|i items IH]; intros Hi; cbn [embed_members]; [apply acts_ret, relation_calls_nil|].
  eapply acts_bind; [apply (acts_embed_member _ _ _ items'); set_solver|done|]. intros l m Hl.
  eapply acts_bind; [apply IH; set_solver|intros; by apply relation_calls_app|]. intros k ms Hk.
  apply acts_ret. rewrite app_nil_r. by apply relation_calls_app.
Qed.

Lemma acts_embed_objects columns items rows :
  acts e (embed_objects stack e columns items rows) (λ l _, relation_calls items l).
Proof.
  induction rows as [|row rows IH]; cbn [embed_objects]; [apply acts_ret, relation_calls_nil|].
  eapply acts_bind; [by apply acts_embed_members|done|]. intros l m Hl.
  eapply acts_bind; [apply IH|intros; by apply relation_calls_app|]. intros k ms Hk.
  apply acts_ret. rewrite app_nil_r. by apply relation_calls_app.
Qed.

Lemma acts_pgrst_embed plan params :
  acts e (run_pgrst_embed stack e plan params)
    (λ l _, ∃ l', relation_calls (Datapath.er_items plan) l' ∧ l = rewritten_call (base_text plan) params ++ l').
Proof.
  unfold run_pgrst_embed, rewritten_call, base_text. cbv zeta.
  destruct (rewrite_placeholders _) as [rewritten order]. cbn [fst snd].
  eapply acts_bind; [apply acts_run_engine| |].
  - intros l t ->. exists []. split; [apply relation_calls_nil|by rewrite app_nil_r].
  - intros l base ->. eapply acts_bind; [apply acts_embed_objects|intros k t Hk; by exists k|].
    intros k objs Hk. apply acts_ret. exists k. by rewrite app_nil_r.
Qed.

Lemma acts_answer {A C} (m : Act A) (f : A → C) (P : list Call → Prop) :
  acts e m (λ l _, P l) → acts e (comp_bind m (λ a, comp_ret (f a))) (λ l _, P l).
Proof. intros Hm. eapply acts_bind; [exact Hm|done|]. intros l a Hl. apply acts_ret. by rewrite app_nil_r. Qed.

Lemma inspect_pass sql s : inspect pid e sql s = Introspect.Pass ↔ passes sql s = true.
Proof.
  unfold inspect, passes. destruct (Introspect.intercept pid sql (se_user s) (se_database s)); try done.
  all: by destruct kind.
Qed.

Lemma run_prepared_calls prep params s :
  ∃ l, prepared_calls prep params s l ∧ marshals e l s (run_prepared stack pid e prep params s).1.
Proof.
  unfold run_prepared, prepared_calls. destruct (pr_postprocess prep) as [| |p|p|p|p].
  - destruct (passes (pr_sql prep) s) eqn:Hp.
    + rewrite (proj2 (inspect_pass _ _) Hp).
      destruct (acts_run_engine (pr_sql prep) params (pr_order prep) s) as (l & -> & Hm). by eexists.
    + exists []. split; [done|]. pose proof (inspect_pass (pr_sql prep) s) as Hi.
      destruct (inspect pid e (pr_sql prep) s); try apply marshals_refl. rewrite Hp in Hi. by pose proof (proj1 Hi eq_refl).
  - destruct (acts_answer _ (λ inner, body_mat (Datapath.body_row (mt_columns inner) (mt_rows inner))) _
      (acts_run_engine (pr_sql prep) params (pr_order prep)) s) as (l & -> & Hm). by eexists.
  - destruct (acts_answer _ write_mat _ (acts_pgrst_insert p params) s) as (l & Hl & Hm). by eexists.
  - destruct (acts_answer _ write_mat _ (acts_pgrst_update p params) s) as (l & Hl & Hm). by eexists.
  - destruct (acts_answer _ write_mat _ (acts_pgrst_delete p params) s) as (l & Hl & Hm). by eexists.
  - assert (acts e (let! r := run_pgrst_embed stack e p params in
                    let '(body, count) := r in comp_ret (body_mat (Datapath.body_row_json body count)))%comp
      (λ l _, ∃ l', relation_calls (Datapath.er_items p) l' ∧ l = rewritten_call (base_text p) params ++ l')) as Ha.
    { eapply acts_bind; [apply acts_pgrst_embed|done|]. intros l [body count] Hl. apply acts_ret. by rewrite app_nil_r. }
    destruct (Ha s) as (l & Hl & Hm). by eexists.
Qed.

End Programs.

(** ** What the messages run *)

(** The call of one statement of a simple query: none when the server answers it, refuses it or
    cannot parse it. *)
Definition forwarded (s : Session) (sql : string) : list Call :=
  if passes sql s then
    match Capability.unsupported_catalog_reason sql, Statements.parse sql with
    | None, Ok (st, _) => [(st, [])]
    | _, _ => []
    end
  else [].

(** A portal runs its prepared statement with its parameters, if it has not done so already. *)
Definition portal_calls (name : string) (s : Session) (l : list Call) : Prop :=
  match se_portals s !! name with
  | Some (mkPortal stmt params _ None) =>
      match se_stmts s !! stmt with Some prep => prepared_calls prep params s l | None => l = [] end
  | _ => l = []
  end.

(** To describe a statement that returns rows, the server runs it with null parameters. *)
Definition probe_calls (name : string) (s : Session) : list Call :=
  match se_stmts s !! name with
  | Some prep =>
      match pr_postprocess prep with
      | PNone => if passes (pr_sql prep) s && is_row_returning (pr_sql prep)
                 then call (pr_sql prep) (replicate (length (pr_order prep)) Null) else []
      | _ => []
      end
  | None => []
  end.

(** The messages the code ignores after an error. *)
Definition guarded (m : Frontend) : bool :=
  match m with Parse _ _ _ | Bind _ _ _ _ _ | Describe _ _ | Execute _ _ => true | _ => false end.

(** The calls a message makes, given the answer [ts] if there is one: the statements of a simple query
    in order, all of them unless one failed; what a portal or the description of a statement runs. *)
Definition issues (m : Frontend) (s : Session) (ts : option (list Init.Byte.byte)) (l : list Call) : Prop :=
  if guarded m && se_skip_until_sync s then l = []
  else match m with
  | Query sql => ∃ k, l = concat (forwarded s <$> take k (split_statements sql)) ∧
      ∀ t, ts = Some t → chr "E" ∉ t → (length (split_statements sql) ≤ k)%nat
  | Execute name _ => portal_calls name s l
  | Describe kind name => if bool_decide (kind = chr "S") then l = probe_calls name s else portal_calls name s l
  | _ => l = []
  end.

(** ** The protocol *)

Definition tags (out : Out) : list Init.Byte.byte := fst <$> out.

(** A statement of a simple query that succeeds gives its rows and the command's tag, or the tag alone. *)
Inductive stmt_reply : list Init.Byte.byte → Prop :=
| reply_rows n : stmt_reply (chr "T" :: replicate n (chr "D") ++ [chr "C"])
| reply_done : stmt_reply [chr "C"].

(** The messages of the extended protocol that run or prepare something. *)
Definition extended (m : Frontend) : bool :=
  match m with Parse _ _ _ | Bind _ _ _ _ _ | Describe _ _ | Execute _ _ | Close _ _ => true | _ => false end.

(** The protocol's machine: the frames a message is answered with, and whether the messages up to the
    next [Sync] are being ignored, before and after.  An error in the extended protocol has every
    message up to the next [Sync] ignored. *)
Inductive reply : Frontend → bool → list Init.Byte.byte → bool → Prop :=
| query_empty sql : reply (Query sql) false [chr "I"; chr "Z"] false
| query_done sql rs : rs ≠ [] → Forall stmt_reply rs → reply (Query sql) false (concat rs ++ [chr "Z"]) false
| query_failed sql rs : Forall stmt_reply rs → reply (Query sql) false (concat rs ++ [chr "E"; chr "Z"]) false
| refused m : extended m = true → reply m false [chr "E"] true
| parsed name sql oids : reply (Parse name sql oids) false [chr "1"] false
| bound portal stmt fmts params res : reply (Bind portal stmt fmts params res) false [chr "2"] false
| stmt_described name t : t = chr "T" ∨ t = chr "n" → reply (Describe (chr "S") name) false [chr "t"; t] false
| stmt_undescribed name : reply (Describe (chr "S") name) false [chr "t"; chr "E"] true
| portal_described kind name t :
    kind ≠ chr "S" → t = chr "T" ∨ t = chr "n" → reply (Describe kind name) false [t] false
| portal_executed portal n rows : reply (Execute portal n) false (replicate rows (chr "D") ++ [chr "C"]) false
| closed kind name : reply (Close kind name) false [chr "3"] false
| flushed : reply Flush false [] false
| left : reply Terminate false [] false
| unsupported tag : reply (Unsupported tag) false [chr "E"] true
| ignored m : m ≠ Sync → reply m true [] true
| synced k : reply Sync k [chr "Z"] false.

(** The messages the code answers although they should be ignored. *)
Definition answered_anyway (m : Frontend) : bool :=
  match m with Query _ | Close _ _ | Unsupported _ => true | _ => false end.

(** What the code does: the protocol's transition, but for those messages after an error, which get the
    answer they would have got without it and leave the rest ignored. *)
Definition conforms (m : Frontend) (k : bool) (ts : list Init.Byte.byte) (k' : bool) : Prop :=
  if k && answered_anyway m then k' = true ∧ ∃ k'', reply m false ts k'' else reply m k ts k'.

Lemma tags_msg t p out : tags (msg t p out) = tags out ++ [chr t].
Proof. unfold tags, msg. by rewrite fmap_app. Qed.

Lemma tags_rows fmt rows out :
  tags (foldl (λ out row, data_row (encode_row fmt row) out) out rows) = tags out ++ replicate (length rows) (chr "D").
Proof.
  revert out. induction rows as [|row rows IH]; intros out; cbn [foldl length replicate]; [by rewrite app_nil_r|].
  rewrite IH. unfold data_row. by rewrite tags_msg, <- app_assoc.
Qed.

Lemma tags_send columns oids rows fmt out :
  tags (send_rows columns oids rows fmt out) = tags out ++ chr "T" :: replicate (length rows) (chr "D").
Proof. unfold send_rows, row_description. by rewrite tags_rows, tags_msg, <- app_assoc. Qed.

Section Conform.
Variable e : Env.

(** The calls were made; the client stays who it was. *)
Record kept (l : list Call) (s s' : Session) : Prop := mkKept {
  kept_engine : performs (env_host e) l (engine s) (engine s');
  kept_user : se_user s' = se_user s;
  kept_database : se_database s' = se_database s
}.

Lemma kept_marshals l s s' : marshals e l s s' → kept l s s'.
Proof. intros [H E]. split; [done|by rewrite E..]. Qed.

Lemma kept_refl s : kept [] s s.
Proof. split; [constructor|done..]. Qed.

Lemma kept_trans l k s1 s2 s3 : kept l s1 s2 → kept k s2 s3 → kept (l ++ k) s1 s3.
Proof. intros [? ? ?] [? ? ?]. split; [by eapply performs_app|congruence..]. Qed.

(** Bookkeeping. *)
Definition books (s s' : Session) : Prop :=
  engine s' = engine s ∧ se_user s' = se_user s ∧ se_database s' = se_database s.

Lemma kept_books l s s' s'' : kept l s s' → books s' s'' → kept l s s''.
Proof. intros [? ? ?] (E & ? & ?). split; [by rewrite E|congruence..]. Qed.

Lemma books_kept s s' : books s s' → kept [] s s'.
Proof. apply kept_books, kept_refl. Qed.

Lemma note_failure_skip (s : Session) : se_skip_until_sync (note_failure s) = se_skip_until_sync s.
Proof. unfold note_failure. by destruct (in_txn s). Qed.
Lemma clear_failure_skip (s : Session) : se_skip_until_sync (clear_failure s) = se_skip_until_sync s.
Proof. unfold clear_failure. by destruct (in_txn s). Qed.
Lemma note_failure_books (s : Session) : books s (note_failure s).
Proof. unfold note_failure. by destruct (in_txn s). Qed.
Lemma clear_failure_books (s : Session) : books s (clear_failure s).
Proof. unfold clear_failure. by destruct (in_txn s). Qed.
Lemma fail_with_books t (s : Session) out : books s (fail_with t s out).1.
Proof. destruct t; [|done]. apply note_failure_books. Qed.

(** The outcome of a step: the calls it made, the frames it added and the flag it left. *)
Definition gives (l : list Call) (s : Session) (out : Out) (a : Session * option Out)
    (P : list Init.Byte.byte → bool → Prop) : Prop :=
  kept l s a.1 ∧ ∀ out', a.2 = Some out' → ∃ ts, tags out' = tags out ++ ts ∧ P ts (se_skip_until_sync a.1).

Lemma gives_panic l s out s' P : kept l s s' → gives l s out (s', None) P.
Proof. intros H. by split. Qed.

Lemma gives_tags l s out s' out' ts (P : list Init.Byte.byte → bool → Prop) :
  kept l s s' → tags out' = tags out ++ ts → P ts (se_skip_until_sync s') → gives l s out (s', Some out') P.
Proof. intros H E HP. split; [done|]. intros o [= <-]. by exists ts. Qed.

Lemma gives_fail_with l t s0 s out (P : list Init.Byte.byte → bool → Prop) :
  kept l s0 s → P [chr "E"] true → gives l s0 out (fail_with t s out) P.
Proof.
  intros Hk HP. destruct t as [c t|]; [|by apply gives_panic]. unfold fail_with, fail, error.
  apply gives_tags with [chr "E"]; [|by rewrite tags_msg|done]. eapply kept_books; [exact Hk|]. apply note_failure_books.
Qed.

Lemma gives_fail l c t s0 s out (P : list Init.Byte.byte → bool → Prop) :
  kept l s0 s → P [chr "E"] true → gives l s0 out (fail c t s out) P.
Proof. apply (gives_fail_with l (SqlState c t)). Qed.

Lemma gives_msg l s0 s out t p (P : list Init.Byte.byte → bool → Prop) :
  kept l s0 s → P [chr t] (se_skip_until_sync s) → gives l s0 out (s, Some (msg t p out)) P.
Proof. intros Hk HP. apply gives_tags with [chr t]; [done|by rewrite tags_msg|done]. Qed.

Lemma run_simple_one_gives sql s out :
  let '(s', o) := run_simple_one stack pid e sql s out in
  kept (forwarded s sql) s s' ∧ se_skip_until_sync s' = se_skip_until_sync s ∧
  ∀ out' go, o = Some (out', go) →
    ∃ ts, tags out' = tags out ++ ts ∧ if go then stmt_reply ts else ts = [chr "E"].
Proof.
  assert (∀ c t, ∃ ts, tags (error "ERROR" c t out) = tags out ++ ts ∧ ts = [chr "E"]) as He.
  { intros c t. exists [chr "E"]. unfold error. by rewrite tags_msg. }
  assert (∀ t, ∃ ts, tags (command_complete t out) = tags out ++ ts ∧ stmt_reply ts) as Hc.
  { intros t. exists [chr "C"]. unfold command_complete. rewrite tags_msg. split; [done|constructor]. }
  assert (∀ cols oids rows fmt t,
    ∃ ts, tags (command_complete t (send_rows cols oids rows fmt out)) = tags out ++ ts ∧ stmt_reply ts) as Hr.
  { intros. eexists. unfold command_complete. rewrite tags_msg, tags_send, <- app_assoc. split; [done|constructor]. }
  unfold run_simple_one, forwarded. pose proof (inspect_pass e sql s) as Hi. destruct (passes sql s).
  2:{ destruct (inspect pid e sql s); try (split_and!; [apply kept_refl|done|by intros ? ? [= <- <-]]).
      by pose proof (proj1 Hi eq_refl). }
  rewrite (proj2 Hi eq_refl). destruct (Capability.unsupported_catalog_reason sql) as [reason|].
  { split_and!; [apply books_kept, note_failure_books|apply note_failure_skip|by intros ? ? [= <- <-]]. }
  unfold Db.query. destruct (Statements.parse sql) as [[st n]|err].
  - pose proof (performs_one (env_host e) st [] (engine s)) as Hp. unfold engine in Hp.
    destruct (Db.run stack (env_host e) st [] (se_db s, se_conn s)) as [x r].
    assert (kept [(st, [])] s (set_engine x s)) as Hk by (by apply kept_marshals, marshals_ran).
    destruct r as [rs|f]; [destruct (bool_decide _); (split_and!; [done|done|by intros ? ? [= <- <-]])|].
    destruct (trouble e f); [|split_and!; [done|done|by intros]].
    split_and!; [|by rewrite note_failure_skip|by intros ? ? [= <- <-]].
    eapply kept_books; [exact Hk|apply note_failure_books].
  - assert (kept [] s (set_engine (se_db s, se_conn s) s)) as Hk by (apply books_kept; done).
    destruct (trouble e (Failed err)); [|split_and!; [done|done|by intros]].
    split_and!; [|by rewrite note_failure_skip|by intros ? ? [= <- <-]].
    eapply kept_books; [exact Hk|apply note_failure_books].
Qed.

(** What the statements of a simple query add: the answers of the first [k], and an error unless these
    are all of them. *)
Definition batch_reply (n k : nat) (ts : list Init.Byte.byte) : Prop :=
  ∃ rs, Forall stmt_reply rs ∧ (ts = concat rs ∧ length rs = n ∧ k = n ∨ ts = concat rs ++ [chr "E"]).

Lemma forwarded_kept l s s' sql : kept l s s' → forwarded s' sql = forwarded s sql.
Proof. intros [_ Hu Hd]. unfold forwarded, passes. by rewrite Hu, Hd. Qed.

Lemma run_batch_gives stmts s out :
  ∃ k, gives (concat (forwarded s <$> take k stmts)) s out (run_batch stack pid e stmts s out)
    (λ ts b, batch_reply (length stmts) k ts ∧ b = se_skip_until_sync s).
Proof.
  revert s out. induction stmts as [|sql stmts IH]; intros s out; cbn [run_batch length].
  - exists O. apply gives_tags with []; [apply kept_refl|by rewrite app_nil_r|]. split; [|done]. exists []. split; [done|]. by left.
  - pose proof (run_simple_one_gives sql s out) as H.
    assert (forwarded s sql ++ [] = forwarded s sql) as E0 by apply app_nil_r.
    destruct (run_simple_one stack pid e sql s out) as [s' [[out' []]|]]; destruct H as (Hk & Hs & Ho).
    + destruct (Ho _ _ eq_refl) as (ts & Et & Hr). destruct (IH (clear_failure s') out') as [k [Hk' Ho']].
      exists (S k). assert (kept (forwarded s sql) s (clear_failure s')) as Hc
        by (eapply kept_books; [exact Hk|apply clear_failure_books]). split.
      * cbn [take fmap list_fmap concat]. eapply kept_trans; [exact Hc|].
        replace (forwarded s <$> take k stmts) with (forwarded (clear_failure s') <$> take k stmts); [done|].
        apply list_fmap_ext. intros _ q _. by eapply forwarded_kept.
      * intros o Eo. destruct (Ho' o Eo) as (ts' & Et' & (rs & Hrs & Hts) & Hsk). exists (ts ++ ts').
        rewrite Et', Et, <- app_assoc. split_and!; [done| |by rewrite Hsk, clear_failure_skip].
        exists (ts :: rs). split; [by constructor|]. destruct Hts as [(-> & <- & ->)| ->]; [by left|right]. by rewrite app_assoc.
    + destruct (Ho _ _ eq_refl) as (ts & Et & ->). exists 1%nat. cbn [take fmap list_fmap concat]. rewrite take_0. cbn.
      rewrite E0. apply gives_tags with [chr "E"]; [done..|]. split; [|done]. exists []. split; [done|]. by right.
    + exists 1%nat. cbn [take fmap list_fmap concat]. rewrite take_0. cbn. rewrite E0. by apply gives_panic.
Qed.

Lemma materialize_kept name s :
  ∃ l, portal_calls name s l ∧ kept l s (materialize stack pid e name s).1 ∧
    se_skip_until_sync (materialize stack pid e name s).1 = se_skip_until_sync s.
Proof.
  assert (∃ l, l = [] ∧ kept l s s ∧ se_skip_until_sync s = se_skip_until_sync s) as H0
    by (exists []; split_and!; [done|apply kept_refl|done]).
  unfold materialize, portal_calls. destruct (se_portals s !! name) as [[stmt params fmts [m|]]|]; cbn; try done.
  destruct (se_stmts s !! stmt) as [prep|]; [|done].
  destruct (run_prepared_calls e prep params s) as (l & Hl & Hm). exists l. split; [done|].
  apply kept_marshals in Hm as Hk. pose proof (marshals_rest _ _ _ _ Hm) as Hs.
  destruct (run_prepared _ _ _ _ _ s) as [s' [m|t]]; cbn [fst] in *; (split; [|cbn; by rewrite Hs]); [|done].
  by eapply kept_books.
Qed.

Lemma parse_gives name sql oids s out :
  se_skip_until_sync s = false →
  gives [] s out (parse is_alphanumeric pid e name sql oids s out) (reply (Parse name sql oids) false).
Proof.
  intros Hs. assert (∀ p, gives [] s out (add_stmt name p s out) (reply (Parse name sql oids) false)) as Ha.
  { intros p. apply gives_msg; [by apply books_kept|]. cbn. rewrite Hs. constructor. }
  assert (reply (Parse name sql oids) false [chr "E"] true) as Hf by (by constructor).
  unfold parse. rewrite Hs. destruct (Datapath.parse_write sql); [apply Ha|].
  destruct (Datapath.parse_embed _ sql) as [[em|]|]; [apply Ha| |apply gives_panic, kept_refl].
  destruct (Datapath.rewrite_read sql) as [inner|]; [|apply gives_panic, kept_refl]. unfold parse_plain.
  match goal with |- context [let '(_, _) := ?plan in _] => destruct plan as [q post] end.
  match goal with |- context [match ?o with Some _ => _ | None => _ end] => destruct o as [reason|] end;
    [apply gives_fail; [apply kept_refl|done]|].
  destruct (_ || _); [|apply Ha]. destruct (rewrite_placeholders q) as [r order].
  destruct (Db.prepare r) as [?|err]; [apply Ha|apply gives_fail_with; [apply kept_refl|done]].
Qed.

Lemma bind_gives portal stmt fmts params res s out :
  se_skip_until_sync s = false →
  gives [] s out (bind portal stmt fmts params res s out) (reply (Bind portal stmt fmts params res) false).
Proof.
  intros Hs. unfold bind. rewrite Hs. destruct (se_stmts s !! stmt).
  - apply gives_msg; [by apply books_kept|]. cbn. rewrite Hs. constructor.
  - apply gives_fail; [apply kept_refl|by constructor].
Qed.

(** What follows the parameters of a statement. *)
Definition shape_reply (ts : list Init.Byte.byte) (k : bool) : Prop :=
  (ts = [chr "T"] ∨ ts = [chr "n"]) ∧ k = false ∨ ts = [chr "E"] ∧ k = true.

Lemma describe_plain_gives prep s out :
  se_skip_until_sync s = false →
  gives (if passes (pr_sql prep) s && is_row_returning (pr_sql prep)
         then call (pr_sql prep) (replicate (length (pr_order prep)) Null) else []) s out
    (describe_plain stack pid e prep s out) shape_reply.
Proof.
  intros Hs. unfold describe_plain. assert (∀ l s', se_skip_until_sync s' = false → kept l s s' → ∀ t p, t = "T"%char ∨ t = "n"%char →
    gives l s out (s', Some (msg t p out)) shape_reply) as Ht.
  { intros l s' Hs' Hk t p H. apply gives_msg; [done|]. left. split; [destruct H as [->| ->]; first [by left|by right]|done]. }
  pose proof (inspect_pass e (pr_sql prep) s) as Hi. destruct (passes (pr_sql prep) s); cbn [andb].
  2:{ destruct (inspect pid e (pr_sql prep) s);
        try (apply gives_panic, kept_refl); try (apply Ht; [done|apply kept_refl|first [by left|by right]]).
      by pose proof (proj1 Hi eq_refl). }
  rewrite (proj2 Hi eq_refl). destruct (is_row_returning _); [|apply Ht; [done|apply kept_refl|by right]].
  destruct (acts_dummy_columns e (pr_sql prep) (length (pr_order prep)) s) as (l & -> & Hm).
  destruct (dummy_columns _ _ _ _ s) as [s' r]. cbn [fst] in Hm. apply kept_marshals in Hm as Hk.
  assert (se_skip_until_sync s' = false) as Hs' by (rewrite (marshals_rest _ _ _ _ Hm); done).
  destruct r as [[[columns oids]|]|t]; [apply Ht; [done..|by left]|apply Ht; [done..|by right]|].
  apply gives_fail_with; [done|]. by right.
Qed.

Lemma describe_stmt_gives name s out :
  se_skip_until_sync s = false →
  gives (probe_calls name s) s out (describe_stmt stack pid e name s out) (reply (Describe (chr "S") name) false).
Proof.
  intros Hs. unfold describe_stmt, probe_calls. destruct (se_stmts s !! name) as [prep|];
    [|apply gives_fail; [apply kept_refl|by constructor]].
  set (out0 := parameter_description (param_oids_for prep) out).
  assert (tags out0 = tags out ++ [chr "t"]) as E0 by apply tags_msg.
  assert (∀ l a, gives l s out0 a shape_reply → gives l s out a (reply (Describe (chr "S") name) false)) as Hg.
  { intros l a [Hk Ho]. split; [done|]. intros o Eo. destruct (Ho o Eo) as (ts & Et & Hsh).
    exists (chr "t" :: ts). rewrite Et, E0, <- app_assoc. split; [done|].
    destruct Hsh as [[[-> | ->] ->]|[-> ->]]; [apply stmt_described; first [by left|by right]..|apply stmt_undescribed]. }
  assert (∀ p, gives [] s out0 (s, Some (msg "T" p out0)) shape_reply) as Ht.
  { intros p. apply gives_msg; [apply kept_refl|]. left. split; [by left|done]. }
  destruct (pr_postprocess prep); apply Hg; [|apply Ht..]. by apply describe_plain_gives.
Qed.

Lemma describe_portal_gives kind name s out :
  kind ≠ chr "S" → se_skip_until_sync s = false →
  ∃ l, portal_calls name s l ∧
    gives l s out (describe_portal stack pid e name s out) (reply (Describe kind name) false).
Proof.
  intros Hkd Hs. unfold describe_portal. destruct (materialize_kept name s) as (l & Hl & Hk & Hsk). exists l. split; [done|].
  destruct (materialize _ _ _ name s) as [s' [[]|t]]; cbn [fst] in *;
    [|apply gives_fail_with; [done|by constructor]].
  destruct (materialized name s') as [[p m]|]; [|by apply gives_panic].
  destruct (mt_has_rows m); (apply gives_msg; [done|]; rewrite Hsk, Hs; constructor; [done|]); first [by left|by right].
Qed.

Lemma execute_gives portal n s out :
  se_skip_until_sync s = false →
  ∃ l, portal_calls portal s l ∧ gives l s out (execute stack pid e portal s out) (reply (Execute portal n) false).
Proof.
  intros Hs. unfold execute. rewrite Hs. destruct (materialize_kept portal s) as (l & Hl & Hk & Hsk). exists l. split; [done|].
  destruct (materialize _ _ _ portal s) as [s' [[]|t]]; cbn [fst] in *;
    [|apply gives_fail_with; [done|by constructor]].
  destruct (materialized portal s') as [[p m]|]; [|by apply gives_panic].
  assert (kept l s (cache portal None (clear_failure s'))) as Hk'.
  { eapply kept_books; [exact Hk|]. unfold clear_failure. by destruct (in_txn s'). }
  apply gives_tags with (replicate (if mt_has_rows m then length (mt_rows m) else 0) (chr "D") ++ [chr "C"]); [done| |].
  - unfold command_complete. rewrite tags_msg. destruct (mt_has_rows m); [by rewrite tags_rows, <- app_assoc|done].
  - cbn. rewrite clear_failure_skip, Hsk, Hs. constructor.
Qed.

Lemma stmt_replies_ok rs : Forall stmt_reply rs → chr "E" ∉ concat rs ∧ chr "Z" ∉ concat rs.
Proof.
  induction 1 as [|ts rs Ht _ IH]; [set_solver|]. cbn. rewrite !not_elem_of_app. destruct IH.
  assert (chr "E" ∉ ts ∧ chr "Z" ∉ ts) as []; [|done]. destruct Ht as [n|]; [|set_solver].
  split; (apply not_elem_of_cons; split; [done|]; apply not_elem_of_app;
    split; [intros [? _]%elem_of_replicate; done|set_solver]).
Qed.

Lemma query_gives sql s :
  ∃ k, gives (concat (forwarded s <$> take k (split_statements sql))) s [] (then_ready (simple_query stack pid e sql s []))
    (λ ts b, b = se_skip_until_sync s ∧ reply (Query sql) false ts false ∧
       (chr "E" ∉ ts → (length (split_statements sql) ≤ k)%nat)).
Proof.
  unfold simple_query. destruct (split_statements sql) as [|sql1 stmts] eqn:E.
  - exists O. apply gives_tags with [chr "I"; chr "Z"]; [apply kept_refl|done|]. split_and!; [done|apply query_empty|cbn; lia].
  - destruct (run_batch_gives (sql1 :: stmts) s []) as [k [Hk Ho]]. exists k. unfold then_ready.
    destruct (run_batch _ _ _ (sql1 :: stmts) s []) as [s' [o|]]; [|by apply gives_panic]. cbn [fst snd] in *.
    destruct (Ho o eq_refl) as (ts & Et & (rs & Hrs & Hts) & Hsk).
    apply gives_tags with (ts ++ [chr "Z"]); [done|unfold ready_for_query; by rewrite tags_msg, Et|].
    split; [exact Hsk|]. destruct Hts as [(-> & Hn & ->)| ->].
    + split; [apply query_done; [by intros ->|done]|lia].
    + rewrite <- app_assoc. split; [by apply query_failed|]. set_solver.
Qed.

(** Every message: its calls, its frames and the flag. *)
Lemma handle_gives m s :
  ∃ l, issues m s (tags <$> (handle e m s).2) l ∧ gives l s [] (handle e m s) (conforms m (se_skip_until_sync s)).
Proof.
  unfold issues, conforms. destruct (guarded m && se_skip_until_sync s) eqn:Hg.
  { apply andb_true_iff in Hg as [Hm Hs]. exists []. split; [done|]. rewrite Hs.
    destruct m; try done; cbn [Server.handle answered_anyway andb]; unfold parse, bind, describe, execute; rewrite Hs;
      (apply gives_tags with []; [apply kept_refl|done|rewrite Hs; by apply ignored]). }
  destruct m; cbn [Server.handle answered_anyway guarded] in *; rewrite ?andb_false_r, ?andb_true_r.
  - destruct (query_gives sql s) as [k [Hk Ho]]. eexists. split.
    + exists k. split; [done|]. intros t Et HE. destruct (then_ready _) as [s' [o|]]; [|done]. injection Et as <-.
      destruct (Ho o eq_refl) as (ts & Ets & _ & _ & H). cbn in Ets. subst ts. by apply H.
    + split; [done|]. intros o Eo. destruct (Ho o Eo) as (ts & Et & -> & Hr & _). exists ts. split; [done|].
      destruct (se_skip_until_sync s); [split; [done|by exists false]|done].
  - cbn in Hg. rewrite Hg. exists []. split; [done|by apply parse_gives].
  - cbn in Hg. rewrite Hg. exists []. split; [done|by apply bind_gives].
  - cbn in Hg. unfold describe. rewrite Hg. case_bool_decide as Hk.
    + subst. eexists. split; [done|by apply describe_stmt_gives].
    + by apply describe_portal_gives.
  - cbn in Hg. rewrite Hg. by apply execute_gives.
  - exists []. split; [done|]. apply gives_msg; [by apply books_kept|constructor].
  - exists []. split; [done|]. apply gives_tags with []; [apply kept_refl|done|].
    destruct (se_skip_until_sync s); [by apply ignored|constructor].
  - exists []. split; [done|]. unfold close. destruct (bool_decide _); (apply gives_msg; [by apply books_kept|]);
      cbn [se_skip_until_sync set_stmts set_portals];
      (destruct (se_skip_until_sync s); [split; [done|exists false]|]); constructor.
  - exists []. split; [done|]. apply gives_tags with []; [apply kept_refl|done|].
    destruct (se_skip_until_sync s); [by apply ignored|constructor].
  - exists []. split; [done|]. apply gives_fail; [apply kept_refl|].
    destruct (se_skip_until_sync s); [split; [done|exists true]|]; apply unsupported.
Qed.

End Conform.

(** ** Properties of a message *)

Lemma query_ready_last sql k ts k' : reply (Query sql) k (ts ++ [chr "Z"]) k' → chr "Z" ∉ ts.
Proof.
  remember (Query sql) as m eqn:Em. remember (ts ++ [chr "Z"]) as l eqn:E.
  destruct 1 as [|? rs Hn Hr|? rs Hr| | | | | | | | | | | | |]; subst; try done.
  - change [chr "I"; chr "Z"] with ([chr "I"] ++ [chr "Z"]) in E. apply app_inj_tail in E as [<- _]. set_solver.
  - apply app_inj_tail in E as [<- _]. by apply stmt_replies_ok.
  - change [chr "E"; chr "Z"] with ([chr "E"] ++ [chr "Z"]) in E. rewrite app_assoc in E.
    apply app_inj_tail in E as [<- _]. apply not_elem_of_app. split; [by apply stmt_replies_ok|set_solver].
  - by destruct ts.
Qed.

Lemma other_not_ready m k ts k' :
  reply m k ts k' → match m with Query _ | Sync => False | _ => True end → chr "Z" ∉ ts.
Proof.
  destruct 1 as [| | | | | |? ? Ht| |? ? ? _ Ht| | | | | | |]; try done; intros _;
    try (destruct Ht as [-> | ->]); try set_solver.
  apply not_elem_of_app. split; [intros [? _]%elem_of_replicate; done|set_solver].
Qed.

Lemma conforms_reply m k ts k' : conforms m k ts k' → ∃ k1 k2, reply m k1 ts k2.
Proof. unfold conforms. destruct (k && _); [intros [_ [k'' H]]|intros H]; eauto. Qed.



(** A portal runs once: after a portal has been described, executing it gives the answer and the
    session that executing it at once would have given, whatever the environment is by then. *)
Theorem describe_then_execute (e e' : Env) kind name n (s s1 : Session) (out1 : Out) :
  kind ≠ chr "S" → se_skip_until_sync s = false →
  handle e (Describe kind name) s = (s1, Some out1) → se_skip_until_sync s1 = false →
  handle e' (Execute name n) s1 = handle e (Execute name n) s.
Proof.
  intros Hk Hs Hd Hs1. cbn [Server.handle] in *. unfold describe in Hd. rewrite Hs, bool_decide_false in Hd by done.
  unfold describe_portal in Hd. unfold execute. rewrite Hs, Hs1.
  destruct (materialize stack pid e name s) as [s2 [[]|[c t|]]] eqn:Em; [| |done].
  - destruct (materialized name s2) as [[p m]|] eqn:E2; [|done]. injection Hd as -> _. unfold materialized in E2.
    unfold materialize. destruct (se_portals s1 !! name) as [p'|] eqn:Ep; [|done]. cbn in E2.
    destruct (po_materialized p') as [m'|] eqn:Epm; [|done]. injection E2 as <- <-. unfold materialized. rewrite Ep. cbn. by rewrite Epm.
  - injection Hd as <- _. done.
Qed.

(** ** Portals and simple queries *)

Section Agree.
Variable e : Env.

(** A statement that has run, at a row. *)
Definition at_row (st : Statement.Stmt) params (rs : ResultSet) (i : nat) cur : Db.Prepared :=
  Db.mkPrepared st params (Some rs) i cur true.

(** A row cut, or filled up with nulls, to the number of columns. *)
Definition fitted (nc : nat) (row : list Value) : list Value := (λ c, default Null (row !! c)) <$> seq 0 nc.

Lemma fitted_id row : fitted (length row) row = row.
Proof.
  apply list_eq. intros i. unfold fitted. rewrite list_lookup_fmap. destruct (decide (i < length row)%nat) as [Hi|Hi].
  - rewrite lookup_seq_lt by done. cbn. destruct (lookup_lt_is_Some_2 row i Hi) as [v ->]. done.
  - rewrite lookup_seq_ge by lia. symmetry. apply lookup_ge_None_2. lia.
Qed.

(** Stepping a statement that has run gives the rows that are left. *)
Lemma fetch_rows_rest (x : Engine) st params rs i cur fuel nc :
  (length (rs_rows rs) - i < fuel)%nat →
  ∃ i' cur', fetch_rows stack e fuel nc (x, at_row st params rs i cur)
             = ((x, at_row st params rs i' cur'), Ok (fitted nc <$> drop i (rs_rows rs))).
Proof.
  revert i cur. induction fuel as [|fuel IH]; intros i cur Hf; [lia|]. cbn [fetch_rows].
  unfold Db.step, at_row, Db.ensure_executed. cbn [Db.ps_executed Db.ps_result Db.ps_row_idx Db.ps_stmt Db.ps_params].
  destruct (Nat.ltb_spec i (length (rs_rows rs))) as [Hi|Hi].
  - destruct (lookup_lt_is_Some_2 _ _ Hi) as [row Hrow].
    destruct (IH (S i) (Some i)) as (i' & cur' & E); [lia|]. unfold at_row in E. rewrite E. exists i', cur'.
    rewrite (drop_S _ _ _ Hrow). cbn [snd fmap list_fmap]. do 3 f_equal. unfold current_row, fitted, Db.column_value.
    cbn. by rewrite Hrow.
  - exists i, None. by rewrite drop_ge by lia.
Qed.

Lemma seq_names (A : Type) (f : nat → option A) (d : A) l :
  (∀ i, f i = l !! i) → (λ c, default d (f c)) <$> seq 0 (length l) = l.
Proof.
  intros Hf. apply list_eq. intros i. rewrite list_lookup_fmap. destruct (decide (i < length l)%nat) as [Hi|Hi].
  - rewrite lookup_seq_lt by done. cbn. rewrite Hf. destruct (lookup_lt_is_Some_2 l i Hi) as [v ->]. done.
  - rewrite lookup_seq_ge by lia. symmetry. apply lookup_ge_None_2. lia.
Qed.

Lemma seq_imap {A} (f : nat → A → Z) (g : nat → Z) (l : list A) :
  (∀ i x, f i x = g i) → imap f l = g <$> seq 0 (length l).
Proof.
  intros H. revert f g H. induction l as [|x l IH]; intros f g H; [done|]. cbn. rewrite H. f_equal.
  rewrite (IH (f ∘ S) (g ∘ S)) by (intros; apply H). rewrite <- fmap_S_seq, <- list_fmap_compose. done.
Qed.

(** The result of a statement as the server keeps it, and its rows in their places. *)
Definition mat_of (sql : string) (h : Db.Handle) (rs : ResultSet) : Mat :=
  if bool_decide (rs_columns rs = []) then mkMat [] [] [] (command_tag (classify sql) 0 (Db.changes h)) false
  else mkMat (rs_columns rs) (engine_oids rs) (rs_rows rs) (Introspect.select_tag (zlen (rs_rows rs))) true.
Definition fit_rows (m : Mat) : Mat :=
  mkMat (mt_columns m) (mt_oids m) (fitted (length (mt_columns m)) <$> mt_rows m) (mt_tag m) (mt_has_rows m).

Lemma fit_rows_rectangular sql h rs : rectangular rs → fit_rows (mat_of sql h rs) = mat_of sql h rs.
Proof.
  intros [_ Hw]. unfold mat_of. case_bool_decide; [done|]. unfold fit_rows. cbn. f_equal.
  induction Hw as [|row rows Hr _ IH]; [done|]. cbn. rewrite IH, <- Hr. by rewrite fitted_id.
Qed.

Lemma column_names_at st params rs i cur : column_names (at_row st params rs i cur) = rs_columns rs.
Proof. by apply seq_names. Qed.

Lemma column_oids_at st params rs i cur : column_oids (at_row st params rs i cur) = engine_oids rs.
Proof. symmetry. by apply seq_imap. Qed.

Lemma run_engine_result sql st (s : Session) x r :
  Statements.parse sql = Ok (st, 0) → Db.run stack (env_host e) st [] (engine s) = (x, r) →
  run_engine stack e sql [] [] s
  = (set_engine x s, match r with Ok rs => Ok (fit_rows (mat_of sql x.2 rs)) | Err f => Err (trouble e f) end).
Proof.
  intros Hp Hr. unfold run_engine, executed, comp_bind, lift_res, Db.prepare. rewrite Hp. cbn -[Db.ensure_executed all_rows].
  unfold Db.ensure_executed. cbn [Db.ps_executed Db.ps_stmt Db.ps_params].
  change (replicate (Z.to_nat 0) Null) with (@nil Value). change (se_db s, se_conn s) with (engine s). rewrite Hr.
  destruct r as [rs|f]; [|done]. cbn -[all_rows column_names column_oids engine_oids fit_rows mat_of].
  change (Db.mkPrepared st [] (Some rs) 0 None true) with (at_row st [] rs 0 None).
  unfold mat_of. destruct (bool_decide_reflect (rs_columns rs = [])) as [->|Hc]; [by destruct x|].
  destruct (rs_columns rs) as [|c cols] eqn:Ec; [done|]. cbn [length]. rewrite <- Ec in *. unfold all_rows.
  destruct (fetch_rows_rest x st [] rs 0 None (S (length (rs_rows rs))) (length (rs_columns rs))) as (i' & cur' & E);
    [lia|]. unfold result_rows, Db.column_count. cbn [at_row Db.ps_result se_db se_conn set_engine].
  rewrite <- surjective_pairing. unfold at_row at 1. unfold at_row in E. rewrite E. cbn [map_err]. unfold comp_ret.
  change (Db.mkPrepared st [] (Some rs) 0 None true) with (at_row st [] rs 0 None).
  rewrite column_names_at, column_oids_at, drop_0. unfold fit_rows. cbn. unfold zlen. by rewrite length_fmap.
Qed.

(** The frames of an answer but for the row description. *)
Definition undescribed (out : list (Init.Byte.byte * bytes)) : list (Init.Byte.byte * bytes) := filter (λ f, f.1 ≠ chr "T") out.

Lemma rows_frames fmt rows out :
  foldl (λ out row, data_row (encode_row fmt row) out) out rows
  = out ++ foldl (λ out row, data_row (encode_row fmt row) out) [] rows.
Proof.
  revert out. induction rows as [|row rows IH]; intros out; cbn [foldl]; [by rewrite app_nil_r|].
  rewrite IH, (IH (data_row (encode_row fmt row) [])). unfold data_row, msg. by rewrite <- app_assoc.
Qed.

Lemma undescribed_tags (out : list (Init.Byte.byte * bytes)) : chr "T" ∉ tags out → undescribed out = out.
Proof.
  unfold tags, undescribed. induction out as [|f out IH]; intros H; [done|]. cbn in H. apply not_elem_of_cons in H as [Hf H].
  rewrite filter_cons_True by exact (not_eq_sym Hf). by rewrite IH.
Qed.

Lemma undescribed_rows columns oids rows t :
  undescribed (command_complete t (send_rows columns oids rows [] []))
  = command_complete t (foldl (λ out row, data_row (encode_row [] row) out) [] rows).
Proof.
  unfold send_rows. rewrite rows_frames. unfold command_complete, row_description, msg, undescribed.
  rewrite <- app_assoc, filter_app. cbn [app]. rewrite filter_cons_False, filter_nil by (cbn; congruence). cbn [app].
  apply undescribed_tags. unfold tags. rewrite fmap_app. change (fst <$> ?o) with (tags o). rewrite tags_rows.
  intros [[? _]%elem_of_replicate|Hc]%elem_of_app; [done|set_solver].
Qed.

(** A portal on a prepared statement without parameters, not yet run, with the formats of its columns. *)
Record plain_portal (s : Session) (name sql : string) (fmts : list Z) (st : Statement.Stmt) : Prop := mkPlainPortal {
  pp_skip : se_skip_until_sync s = false;
  pp_portal : ∃ stmt prep, se_portals s !! name = Some (mkPortal stmt [] fmts None) ∧ se_stmts s !! stmt = Some prep ∧
              pr_sql prep = sql ∧ pr_order prep = [] ∧ pr_postprocess prep = PNone;
  pp_parse : Statements.parse sql = Ok (st, 0);
  pp_supported : Capability.unsupported_catalog_reason sql = None
}.

(** What a statement comes to: a result, an error for the client, or a panic. *)
Inductive Outcome := Gives (m : Mat) | Refuses (code text : string) | Panics.

(** The answers of the simple protocol, in text and described, and of a portal, in its formats. *)
Definition simple_frames (r : Outcome) : option (Out * bool) :=
  match r with
  | Gives m => Some (command_complete (mt_tag m)
      (if mt_has_rows m then send_rows (mt_columns m) (mt_oids m) (mt_rows m) [] [] else []), true)
  | Refuses code text => Some (error "ERROR" code text [], false)
  | Panics => None
  end.
Definition portal_frames (fmts : list Z) (r : Outcome) : option Out :=
  match r with
  | Gives m => Some (command_complete (mt_tag m)
      (if mt_has_rows m then foldl (λ out row, data_row (encode_row fmts row) out) [] (mt_rows m) else []))
  | Refuses code text => Some (error "ERROR" code text [])
  | Panics => None
  end.

Lemma portal_frames_text r : portal_frames [] r = undescribed ∘ fst <$> simple_frames r.
Proof.
  destruct r as [m|c t|]; cbn [portal_frames simple_frames fmap option_fmap option_map compose fst]; [|..|done].
  - destruct (mt_has_rows m); [by rewrite undescribed_rows|]. by rewrite undescribed_tags by set_solver.
  - by rewrite undescribed_tags by set_solver.
Qed.

(** The rows of a portal's result have the width of its columns. *)
Definition fit_outcome (r : Outcome) : Outcome := match r with Gives m => Gives (fit_rows m) | r => r end.

(** A statement whose rows have it already: all but a star under grouping on one table. *)
Definition no_grouped_star (st : Statement.Stmt) : bool :=
  match st with Statement.Select sel => negb (grouped_star sel) | _ => true end.

Lemma stmt_body_result (body : Comp (Store VI SelectStmt * list WalOp) Fault (Z * list (list Value))) ret w m w' :
  stmt_body body ret w = (w', Ok m) → ∃ l, run_returning ret l = Ok (mut_result m).
Proof.
  unfold stmt_body. destruct (body (w, [])) as [[s1 wal] [[changes affected]|]]; [|done]. intros [= _ H].
  exists affected. destruct (run_returning ret affected) as [r|]; [|done]. by injection H as <-.
Qed.

Lemma returning_rectangular sess ret sc params l o rs :
  run_returning (returning (env_host e) sess params ret sc) l = Ok o → o = Some rs → rectangular rs.
Proof.
  unfold run_returning, returning. destruct ret as [items|]; cbn [fmap option_fmap option_map]; [|by intros [= <-]].
  intros H ->. unbind H. injection H as ->. unbind Hx. by eapply project_rows_rectangular.
Qed.

Lemma dml_run_result sess params st wc (w w' : Store VI SelectStmt) m :
  dml_run stack (env_host e) sess params st wc w = (w', Ok m) →
  ∃ ret sc l, run_returning (returning (env_host e) sess params ret sc) l = Ok (mut_result m).
Proof.
  unfold dml_run. destruct st; try done.
  - unfold run_insert. destruct (MvccStore.table w _) as [t|]; [|done]. unfold comp_bind.
    destruct (build_insert_slots _ _ _ _ _) as [slots|]; [|done]. destruct (finalize_insert_rows _ _ _ _) as [w1 [staged|]]; [|done].
    match goal with |- match ?r with _ => _ end = _ → _ => destruct r as [[]|]; [|done] end.
    match goal with |- match ?r with _ => _ end = _ → _ => destruct r as [[]|]; [|done] end.
    intros H. apply stmt_body_result in H as [l Hl]. eexists _, _, l. exact Hl.
  - unfold run_update. destruct (MvccStore.table w _) as [t|]; [|done].
    match goal with |- match ?r with _ => _ end = _ → _ => destruct r as [us|]; [|done] end.
    intros H. apply stmt_body_result in H as [l Hl]. eexists _, _, l. exact Hl.
  - unfold run_delete. destruct (MvccStore.table w _) as [t|]; [|done].
    match goal with |- match ?r with _ => _ end = _ → _ => destruct r as [vs|]; [|done] end.
    intros H. apply stmt_body_result in H as [l Hl]. eexists _, _, l. exact Hl.
Qed.

Lemma default_rectangular : rectangular ResultSet_default.
Proof. by split. Qed.

Lemma exec_dml_rectangular sess params st d c y rs :
  exec_dml (dml_run stack (env_host e) sess params st) (d, c) = (y, Ok rs) → rectangular rs.
Proof.
  unfold exec_dml. destruct (open_writer d c) as [t d1].
  destruct (dml_run _ _ _ _ _ _ _) as [w [m|[]]] eqn:E; [|by case_match|done].
  apply dml_run_result in E as (ret & sc & l & Hl).
  assert (rectangular (default ResultSet_default (mut_result m))) as Hd.
  { destruct (mut_result m) as [r|] eqn:Em; [|apply default_rectangular]. by eapply returning_rectangular. }
  case_match; [|by intros [= _ <-]]. unfold comp_bind. destruct (finish_commit _ _) as [x [[]|]]; cbn; [|done].
  by intros [= _ <-].
Qed.

(** Every result of the engine is rectangular, but for a star under grouping. *)
Lemma run_rectangular st params x y rs :
  no_grouped_star st = true → Db.run stack (env_host e) st params x = (y, Ok rs) → rectangular rs.
Proof.
  intros Hst. destruct x as [d h].
  assert (∀ (m : Comp (Database VI SelectStmt B * Connection) EngineStatus unit) y,
    Db.on_conn Failed m (d, h) = (y, Ok rs) → rectangular rs) as Hc.
  { intros m z. unfold Db.on_conn. destruct (m _) as [[d1 c1] [[]|]]; [|done]. intros [= _ <-]. apply default_rectangular. }
  unfold Db.run. destruct st; try (apply Hc); try (destruct (ddl_of _); [apply Hc|done]);
    try (unfold Db.done_with; intros [= _ <-]; apply default_rectangular).
  all: try (unfold Db.on_dml; intros H; destruct (exec_dml _ _) as [[d1 c1] r] eqn:E; injection H as _ ->;
    by eapply exec_dml_rectangular).
  - unfold Db.run_select_stmt. destruct (read_snapshot _ _) as [snap w].
    destruct (run_select_tuned _ _ _ _ _ _ _ _ _ _) as [r|] eqn:E; [|done]. intros [= _ <-].
    eapply run_select_tuned_rectangular; [|exact E]. by apply negb_true_iff.
  - intros [= _ <-]. unfold Db.show_stmt. destruct (eq_ignore_ascii_case _ _); (split; [done|by repeat constructor]).
  - intros [= _ <-]. split; [done|by repeat constructor].
Qed.

(** What a portal's statement gives on the server. *)
Lemma materialize_plain s name sql fmts st :
  plain_portal s name sql fmts st → materialize stack pid e name s =
  match inspect pid e sql s with
  | Introspect.Rows columns oids rows tag =>
      (cache name (Some (mkMat columns (resolve_oids oids columns rows) rows tag true)) s, Ok tt)
  | Introspect.Tag tag => (cache name (Some (mkMat [] [] [] tag false)) s, Ok tt)
  | Introspect.Pass =>
      match run_engine stack e sql [] [] s with
      | (s, Ok m) => (cache name (Some m) s, Ok tt)
      | (s, Err t) => (s, Err t)
      end
  | _ => (s, Err Crash)
  end.
Proof.
  intros [_ (stmt & prep & Hp & Hs & Hsql & Ho & Hpp) _ _]. unfold materialize. rewrite Hp. cbn [po_materialized po_stmt po_params].
  rewrite Hs. unfold run_prepared. rewrite Hpp, Hsql, Ho. by destruct (inspect pid e sql s).
Qed.

Lemma materialized_cache name m (s : Session) p :
  se_portals s !! name = Some p → materialized name (cache name (Some m) s) = Some (set_materialized (Some m) p, m).
Proof. intros H. unfold materialized, cache. cbn. by rewrite lookup_alter_eq, H. Qed.


End Agree.

End Stream.
