(* ===== verification/DmlProofs.v ===== *)
(** * Row versions: pending, committed and rolled back

    The effect of a log operation on the rows of a table in its two forms: pending under an
    in-flight writer, as a live statement leaves it, and stamped with a commit LSN, as recovery
    applies it.  Publishing a writer turns the first into the second, rolling it back erases it,
    and both leave the pending operations of other writers alone. *)

From S2P Require Import Prelude Text StorageTypes EngineTypes Funcs Wal MvccStore Dml Recovery.

(** ** The two forms of an operation *)

Definition pend_rows (o : Z) (op : WalOp) (rs : list RowVersion) : list RowVersion :=
  match op with
  | Insert _ v vals => rs ++ [mkRow v vals PENDING 0 o]
  | Delete _ v => update_first (λ r, vid r =? v) (mark_deleted o) rs
  | _ => rs
  end.

Definition commit_rows (l : Z) (op : WalOp) (rs : list RowVersion) : list RowVersion :=
  match op with
  | Insert _ v vals => rs ++ [mkRow v vals l 0 0]
  | Delete _ v => update_first (λ r, vid r =? v) (set_delete l) rs
  | _ => rs
  end.

Definition finalize_rows (o l : Z) : list RowVersion → list RowVersion := fmap (finalize_row o l).

Definition rollback_rows (o : Z) (rs : list RowVersion) : list RowVersion :=
  undo_delete o <$> filter (λ r, pending_insert o r = false) rs.

(** A row a writer may delete: live, and its own or committed. *)
Definition deletable (o : Z) (r : RowVersion) : Prop :=
  delete_lsn r = 0 ∧ (owner r = o ∨ (owner r = 0 ∧ create_lsn r ≠ PENDING)).

Definition find_row (v : Z) (rs : list RowVersion) : option RowVersion :=
  List.find (λ r, vid r =? v) rs.

(** The conditions under which a writer adds an operation to the rows of a table. *)
Definition ok_rows (o : Z) (op : WalOp) (rs : list RowVersion) : Prop :=
  match op with
  | Insert _ v _ => Forall (λ r, vid r < v) rs
  | Delete _ v => ∃ r, find_row v rs = Some r ∧ deletable o r
  | _ => False
  end.

(** Rows that carry no pending stamp of [o]. *)
Definition unowned (o : Z) (rs : list RowVersion) : Prop := Forall (λ r, owner r ≠ o) rs.

(** Vids are allocated in increasing order and never reused. *)
Definition increasing (rs : list RowVersion) : Prop := StronglySorted Z.lt (vid <$> rs).

(** The two operations of a statement; the others are not row operations. *)
Ltac case_dml op :=
  destruct op as [|?|?t ?v ?vals|?t ?v| | | | | | | | | | | |]; try done.

(** ** Updating the first match *)

Lemma update_first_fmap {A} (p : A → bool) (f g g' : A → A) l :
  (∀ x, p (f x) = p x) →
  (∀ x, List.find p l = Some x → f (g x) = g' (f x)) →
  f <$> update_first p g l = update_first p g' (f <$> l).
Proof.
  intros Hp. induction l as [|x l IH]; intros Hx; [done|]. cbn in *. rewrite Hp.
  destruct (p x); cbn; f_equal; auto.
Qed.

Lemma update_first_ext {A} (p : A → bool) (g g' : A → A) l :
  (∀ x, List.find p l = Some x → g x = g' x) → update_first p g l = update_first p g' l.
Proof.
  intros Hx. induction l as [|x l IH]; [done|]. cbn in *. destruct (p x); f_equal; auto.
Qed.

Lemma update_first_id {A} (p : A → bool) l : update_first p id l = l.
Proof. induction l as [|x l IH]; [done|]. cbn. destruct (p x); by rewrite ?IH. Qed.

Lemma find_fmap {A} (p : A → bool) (f : A → A) l :
  (∀ x, p (f x) = p x) → List.find p (f <$> l) = f <$> List.find p l.
Proof. intros Hp. induction l as [|x l IH]; [done|]. cbn. rewrite Hp. by destruct (p x). Qed.

Lemma Forall_update_first {A} (P : A → Prop) (p : A → bool) g l :
  Forall P l → (∀ x, P x → P (g x)) → Forall P (update_first p g l).
Proof.
  intros HF Hg. induction HF as [|x l Hx Hl IH]; cbn; [constructor|].
  destruct (p x); constructor; auto.
Qed.

Lemma update_first_vids v g rs :
  (∀ r, vid (g r) = vid r) → vid <$> update_first (λ r, vid r =? v) g rs = vid <$> rs.
Proof.
  intros Hg. induction rs as [|r rs IH]; [done|]. cbn.
  destruct (vid r =? v); cbn; by rewrite ?Hg, ?IH.
Qed.

Lemma find_row_Some v rs r : find_row v rs = Some r → r ∈ rs ∧ vid r = v.
Proof.
  intros H. apply List.find_some in H as [Hin Hv]. split; [by apply list_elem_of_In|].
  by apply Z.eqb_eq.
Qed.

(** ** Row operations keep the version id *)

Lemma vid_finalize o l r : vid (finalize_row o l r) = vid r.
Proof.
  unfold finalize_row. destruct (owner r =? o); [|done].
  destruct (create_lsn r =? PENDING); cbn; by destruct (delete_lsn r =? PENDING).
Qed.

Lemma vid_undo o r : vid (undo_delete o r) = vid r.
Proof. unfold undo_delete. by destruct (pending_delete o r). Qed.

Lemma finalize_row_other o l r : owner r ≠ o → finalize_row o l r = r.
Proof. intros H. unfold finalize_row. by rewrite (proj2 (Z.eqb_neq _ _) H). Qed.

(** ** Publishing *)

Lemma finalize_own_delete o l r :
  o ≠ 0 → deletable o r → finalize_row o l (mark_deleted o r) = set_delete l (finalize_row o l r).
Proof.
  intros Ho [Hd Hw]. unfold finalize_row. cbn. rewrite Z.eqb_refl.
  destruct Hw as [Hw|[Hw Hc]].
  - rewrite Hw, Z.eqb_refl. destruct (create_lsn r =? PENDING); cbn; rewrite Hd; done.
  - rewrite Hw, (proj2 (Z.eqb_neq 0 o)), (proj2 (Z.eqb_neq _ _) Hc) by congruence. cbn.
    unfold set_delete. cbn. by rewrite Hw.
Qed.

Lemma finalize_foreign_delete o l p r :
  p ≠ o → o ≠ 0 → deletable p r →
  finalize_row o l (mark_deleted p r) = mark_deleted p (finalize_row o l r).
Proof.
  intros Hp Ho [_ Hw]. rewrite !finalize_row_other; [done| |done].
  destruct Hw as [->|[-> _]]; [done | congruence].
Qed.

(** Publishing turns the operations of a writer into committed ones. *)
Lemma finalize_pend_own o l op rs :
  o ≠ 0 → ok_rows o op rs →
  finalize_rows o l (pend_rows o op rs) = commit_rows l op (finalize_rows o l rs).
Proof.
  intros Ho Hok. case_dml op; cbn [pend_rows commit_rows ok_rows] in *.
  - unfold finalize_rows. rewrite fmap_app. f_equal. cbn. unfold finalize_row. cbn.
    by rewrite Z.eqb_refl.
  - destruct Hok as (r & Hr & Hd). apply update_first_fmap; [intros; by rewrite vid_finalize|].
    intros x Hx. unfold find_row in Hr. rewrite Hr in Hx. injection Hx as <-.
    by apply finalize_own_delete.
Qed.

(** Publishing one writer leaves the operations of another pending. *)
Lemma finalize_pend_foreign o l p op rs :
  p ≠ o → o ≠ 0 → ok_rows p op rs →
  finalize_rows o l (pend_rows p op rs) = pend_rows p op (finalize_rows o l rs).
Proof.
  intros Hp Ho Hok. case_dml op; cbn [pend_rows commit_rows ok_rows] in *.
  - unfold finalize_rows. rewrite fmap_app. f_equal. cbn. by rewrite finalize_row_other.
  - destruct Hok as (r & Hr & Hd). apply update_first_fmap; [intros; by rewrite vid_finalize|].
    intros x Hx. unfold find_row in Hr. rewrite Hr in Hx. injection Hx as <-.
    by apply finalize_foreign_delete.
Qed.

Lemma finalize_unowned o l rs : unowned o rs → finalize_rows o l rs = rs.
Proof.
  intros H. unfold finalize_rows. induction H as [|r rs Hr _ IH]; [done|]. cbn.
  by rewrite finalize_row_other, IH.
Qed.

Lemma ok_rows_finalize o l p op rs :
  p ≠ o → o ≠ 0 → ok_rows p op rs → ok_rows p op (finalize_rows o l rs).
Proof.
  intros Hp Ho Hok. case_dml op; cbn [pend_rows commit_rows ok_rows] in *.
  - apply Forall_fmap. eapply Forall_impl; [exact Hok|]. intros r. cbn. by rewrite vid_finalize.
  - destruct Hok as (r & Hr & Hd). exists r. split; [|done]. unfold find_row, finalize_rows in *.
    rewrite find_fmap by (intros; by rewrite vid_finalize). rewrite Hr. cbn. f_equal.
    apply finalize_row_other. destruct Hd as [_ [->|[-> _]]]; [done|congruence].
Qed.

(** ** Rolling back *)

(** What rollback does to one row: nothing, a cleared delete, or removal. *)
Definition rollback_row (o : Z) (r : RowVersion) : option RowVersion :=
  if pending_insert o r then None else Some (undo_delete o r).

Lemma rollback_rows_omap o rs : rollback_rows o rs = omap (rollback_row o) rs.
Proof.
  unfold rollback_rows, rollback_row. induction rs as [|r rs IH]; [done|].
  rewrite filter_cons. cbn [omap list_omap].
  destruct (pending_insert o r); cbn [decide]; rewrite <- IH; done.
Qed.

Lemma rollback_rows_app o rs rs' :
  rollback_rows o (rs ++ rs') = rollback_rows o rs ++ rollback_rows o rs'.
Proof. unfold rollback_rows. by rewrite filter_app, fmap_app. Qed.

Lemma rollback_row_other o r : owner r ≠ o → rollback_row o r = Some r.
Proof.
  intros H. unfold rollback_row, pending_insert, undo_delete, pending_delete.
  by rewrite (proj2 (Z.eqb_neq _ _) H).
Qed.

Lemma rollback_unowned o rs : unowned o rs → rollback_rows o rs = rs.
Proof.
  rewrite rollback_rows_omap. intros H. induction H as [|r rs Hr _ IH]; [done|]. cbn.
  rewrite rollback_row_other by done. cbn. by rewrite IH.
Qed.

Lemma rollback_row_own_delete o r :
  o ≠ 0 → deletable o r → owner r = o → create_lsn r = PENDING →
  rollback_row o (mark_deleted o r) = rollback_row o r.
Proof.
  intros Ho _ Hw Hc. unfold rollback_row, pending_insert. cbn.
  by rewrite Hw, Hc, !Z.eqb_refl.
Qed.

Lemma rollback_row_mark o r :
  o ≠ 0 → deletable o r → (owner r = o → create_lsn r = PENDING) →
  rollback_row o (mark_deleted o r) = rollback_row o r.
Proof.
  intros Ho Hd Hc. destruct (decide (owner r = o)) as [E|E].
  - apply rollback_row_own_delete; auto.
  - destruct Hd as [Hd [?|[Hw Hcr]]]; [done|].
    rewrite (rollback_row_other o r) by done.
    unfold rollback_row, pending_insert, undo_delete, pending_delete. cbn.
    rewrite Z.eqb_refl, (proj2 (Z.eqb_neq _ _) Hcr). cbn. f_equal.
    destruct r; cbn in *. by subst.
Qed.

(** A pending owner without a pending delete marks a pending insert. *)
Definition row_wf (r : RowVersion) : Prop :=
  owner r ≠ 0 → create_lsn r = PENDING ∨ delete_lsn r = PENDING.

Lemma rollback_pend_own o op rs :
  o ≠ 0 → Forall row_wf rs → ok_rows o op rs → rollback_rows o (pend_rows o op rs) = rollback_rows o rs.
Proof.
  intros Ho Hwf Hok. case_dml op; cbn [pend_rows commit_rows ok_rows] in *.
  - rewrite rollback_rows_app. rewrite (rollback_rows_omap o [_]). cbn. unfold rollback_row, pending_insert. cbn.
    rewrite Z.eqb_refl. cbn. by rewrite app_nil_r.
  - destruct Hok as (r & Hr & Hd). rewrite !rollback_rows_omap.
    assert (owner r = o → create_lsn r = PENDING) as Hc.
    { intros Hw. apply find_row_Some in Hr as [Hin _]. rewrite Forall_forall in Hwf.
      destruct (Hwf r Hin) as [?|Hp]; [congruence|done|]. destruct Hd as [Hd _].
      rewrite Hd in Hp. discriminate Hp. }
    unfold find_row in Hr. clear Hwf. induction rs as [|x rs IH]; [done|]. cbn in *.
    destruct (vid x =? v); cbn.
    + injection Hr as ->. by rewrite rollback_row_mark.
    + destruct (rollback_row o x); by rewrite IH.
Qed.

Lemma vid_rollback_row o r r' : rollback_row o r = Some r' → vid r' = vid r.
Proof. unfold rollback_row. destruct (pending_insert o r); [done|]. intros [= <-]. apply vid_undo. Qed.

Lemma rollback_row_deletable o p r : p ≠ o → o ≠ 0 → deletable p r → rollback_row o r = Some r.
Proof. intros Hp Ho [_ Hw]. apply rollback_row_other. destruct Hw as [->|[-> _]]; congruence. Qed.

Lemma rollback_pend_foreign o p op rs :
  p ≠ o → o ≠ 0 → ok_rows p op rs →
  rollback_rows o (pend_rows p op rs) = pend_rows p op (rollback_rows o rs).
Proof.
  intros Hp Ho Hok. case_dml op; cbn [pend_rows ok_rows] in *.
  - rewrite rollback_rows_app. f_equal. rewrite rollback_rows_omap. cbn.
    by rewrite rollback_row_other.
  - destruct Hok as (r & Hr & Hd). rewrite !rollback_rows_omap.
    unfold find_row in Hr. induction rs as [|x rs IH]; [done|]. cbn in *.
    destruct (Z.eqb_spec (vid x) v) as [Ev|Ev]; cbn.
    + injection Hr as ->. rewrite (rollback_row_deletable o p r), rollback_row_other by done.
      cbn. by rewrite (proj2 (Z.eqb_eq _ _) Ev).
    + destruct (rollback_row o x) as [y|] eqn:Ey; cbn; [|by apply IH].
      rewrite (vid_rollback_row _ _ _ Ey), (proj2 (Z.eqb_neq _ _) Ev). f_equal. by apply IH.
Qed.

Lemma ok_rows_rollback o p op rs :
  p ≠ o → o ≠ 0 → ok_rows p op rs → ok_rows p op (rollback_rows o rs).
Proof.
  intros Hp Ho Hok. rewrite rollback_rows_omap. case_dml op; cbn [ok_rows] in *.
  - induction Hok as [|r rs Hr HF IH]; cbn; [constructor|].
    destruct (rollback_row o r) as [y|] eqn:Ey; [|exact IH].
    constructor; [by rewrite (vid_rollback_row _ _ _ Ey) | exact IH].
  - destruct Hok as (r & Hr & Hd). exists r. split; [|done]. unfold find_row in *.
    induction rs as [|x rs IH]; [done|]. cbn in *. destruct (Z.eqb_spec (vid x) v) as [Ev|Ev].
    + injection Hr as ->. rewrite (rollback_row_deletable o p r) by done. cbn.
      by rewrite (proj2 (Z.eqb_eq _ _) Ev).
    + destruct (rollback_row o x) as [y|] eqn:Ey; cbn; [|by apply IH].
      rewrite (vid_rollback_row _ _ _ Ey), (proj2 (Z.eqb_neq _ _) Ev). by apply IH.
Qed.

(** ** Preservation of the row invariants *)

Lemma increasing_app_last rs r :
  increasing rs → Forall (λ x, vid x < vid r) rs → increasing (rs ++ [r]).
Proof.
  unfold increasing. rewrite fmap_app. intros Hs HF.
  induction HF as [|x rs Hx HF IH]; cbn; [repeat constructor|].
  cbn in Hs. apply StronglySorted_inv in Hs as [Hs Hlt]. constructor; [by apply IH|].
  apply Forall_app. split; [done|]. by constructor.
Qed.

Lemma increasing_pend o op rs : increasing rs → ok_rows o op rs → increasing (pend_rows o op rs).
Proof.
  intros Hs Hok. case_dml op; cbn [pend_rows commit_rows ok_rows] in *.
  - by apply increasing_app_last.
  - unfold increasing. by rewrite update_first_vids.
Qed.

Lemma row_wf_pend o op rs : Forall row_wf rs → Forall row_wf (pend_rows o op rs).
Proof.
  intros HF. case_dml op; cbn [pend_rows].
  - apply Forall_app. split; [done|]. constructor; [|done]. by left.
  - apply Forall_update_first; [done|]. intros r _ _. by right.
Qed.

Lemma unowned_pend o p op rs : p ≠ o → unowned o rs → unowned o (pend_rows p op rs).
Proof.
  intros Hp HF. case_dml op; cbn [pend_rows].
  - apply Forall_app. split; [done|]. by constructor.
  - apply Forall_update_first; [done|]. done.
Qed.

(** ** What readers see *)

Definition row_view (r : RowVersion) : Z * list Value := (vid r, values r).

Definition reader_view (s : Z) (rs : list RowVersion) : list (Z * list Value) :=
  row_view <$> filter (λ r, visible_to_reader r s = true) rs.

Definition writer_view (s me : Z) (rs : list RowVersion) : list (Z * list Value) :=
  row_view <$> filter (λ r, visible_to_writer r s me = true) rs.

Lemma reader_view_app s rs rs' : reader_view s (rs ++ rs') = reader_view s rs ++ reader_view s rs'.
Proof. unfold reader_view. by rewrite filter_app, fmap_app. Qed.

(** A row created after the snapshot adds nothing. *)
Lemma reader_view_later s r rs : s < create_lsn r → reader_view s (rs ++ [r]) = reader_view s rs.
Proof.
  intros H. rewrite reader_view_app. unfold reader_view at 2. rewrite filter_cons_False.
  - by rewrite filter_nil, app_nil_r.
  - unfold visible_to_reader. rewrite (proj2 (Z.leb_gt _ _) H). done.
Qed.

(** A change of rows that keeps their visible part. *)
Lemma reader_view_ext s (f : RowVersion → RowVersion) rs :
  Forall (λ r, visible_to_reader (f r) s = visible_to_reader r s ∧ row_view (f r) = row_view r) rs →
  reader_view s (f <$> rs) = reader_view s rs.
Proof.
  unfold reader_view. induction 1 as [|r rs [Hv Hw] _ IH]; [done|].
  rewrite fmap_cons, !filter_cons, Hv. case_decide; cbn; by rewrite ?Hw, IH.
Qed.

Lemma reader_view_update_first s v f rs :
  (∀ r, find_row v rs = Some r →
     visible_to_reader (f r) s = visible_to_reader r s ∧ row_view (f r) = row_view r) →
  reader_view s (update_first (λ r, vid r =? v) f rs) = reader_view s rs.
Proof.
  unfold reader_view, find_row. induction rs as [|r rs IH]; intros H; [done|].
  cbn [update_first]. cbn in H. destruct (vid r =? v).
  - destruct (H r eq_refl) as [Hv Hw]. rewrite !filter_cons, Hv. case_decide; cbn; by rewrite ?Hw.
  - rewrite !filter_cons. case_decide; cbn; by rewrite IH.
Qed.

(** Pending operations are invisible to every reader. *)
Lemma reader_view_pend s o op rs :
  s < PENDING → ok_rows o op rs → reader_view s (pend_rows o op rs) = reader_view s rs.
Proof.
  intros Hs Hok. case_dml op; cbn [pend_rows commit_rows ok_rows] in *.
  - by apply reader_view_later.
  - destruct Hok as (r & Hr & Hd). apply reader_view_update_first. intros x Hx.
    rewrite Hr in Hx. injection Hx as <-. split; [|done]. unfold visible_to_reader. cbn.
    destruct Hd as [-> _]. cbn. f_equal. by apply Z.ltb_lt.
Qed.

(** Publishing after a snapshot is invisible to it. *)
Lemma reader_view_finalize s o l rs :
  s < l → s < PENDING → reader_view s (finalize_rows o l rs) = reader_view s rs.
Proof.
  intros Hl Hs. apply reader_view_ext, Forall_forall. intros r _. unfold finalize_row.
  destruct (owner r =? o); [|done]. unfold visible_to_reader, row_view.
  assert (∀ z, s < z → (z =? 0) || (s <? z) = true) as Hgt.
  { intros z Hz. rewrite (proj2 (Z.ltb_lt _ _) Hz). apply orb_true_r. }
  destruct (Z.eqb_spec (create_lsn r) PENDING) as [Hc|Hc]; cbn [delete_lsn set_create];
    destruct (Z.eqb_spec (delete_lsn r) PENDING) as [Hd|Hd];
    cbn [create_lsn delete_lsn vid values set_create set_delete set_owner];
    (split; [|done]); rewrite ?Hc, ?Hd.
  - by rewrite (proj2 (Z.leb_gt l s) Hl), (proj2 (Z.leb_gt PENDING s) Hs).
  - by rewrite (proj2 (Z.leb_gt l s) Hl), (proj2 (Z.leb_gt PENDING s) Hs).
  - by rewrite !Hgt.
  - done.
Qed.

(** After a commit at [l], a reader at [l] sees a row exactly when its writer saw it at the
    mark [c] just before. *)
Lemma visible_after_commit o l c r :
  c < l → l < PENDING → 0 ≤ c →
  (create_lsn r ≤ c ∨ create_lsn r = PENDING) → (delete_lsn r ≤ c ∨ delete_lsn r = PENDING) →
  visible_to_reader (finalize_row o l r) l = visible_to_writer r c o.
Proof.
  intros Hl Hp H0 Hc Hd. unfold visible_to_reader, visible_to_writer, finalize_row.
  destruct (Z.eqb_spec (owner r) o) as [Ho|Ho];
  destruct (Z.eqb_spec (create_lsn r) PENDING) as [Ec|Ec]; cbn [delete_lsn set_create];
  destruct (Z.eqb_spec (delete_lsn r) PENDING) as [Ed|Ed];
  cbn [create_lsn delete_lsn set_create set_delete set_owner];
  destruct (Z.leb_spec (create_lsn r) l), (Z.leb_spec (create_lsn r) c);
  destruct (Z.ltb_spec l (delete_lsn r)), (Z.leb_spec (delete_lsn r) c);
  destruct (Z.eqb_spec (delete_lsn r) 0); rewrite ?Z.leb_refl, ?Z.ltb_irrefl; cbn; try lia; try done.
  all: destruct (Z.eqb_spec l 0); try lia; done.
Qed.

(** * The contents of a store under in-flight transactions

    The schema and rows of every table, and on them: the operations of a transaction pending or
    committed, the publication and rollback of a writer, and their laws lifted from the rows of
    one table to transactions in a queue. *)

Abbreviation Contents := (gmap string (TableSchema * list RowVersion)).

Definition on_rows (f : list RowVersion → list RowVersion) (k : string) (C : Contents) : Contents :=
  alter (prod_map id f) k C.
Definition all_tables (f : list RowVersion → list RowVersion) (C : Contents) : Contents :=
  prod_map id f <$> C.

(** The table a row operation is about. *)
Definition op_key (op : WalOp) : string :=
  match op with Insert t _ _ | Delete t _ => key t | _ => EmptyString end.

Definition pend_op (o : Z) (C : Contents) (op : WalOp) : Contents :=
  on_rows (pend_rows o op) (op_key op) C.
Definition commit_op (l : Z) (C : Contents) (op : WalOp) : Contents :=
  on_rows (commit_rows l op) (op_key op) C.

Definition pend_ops (o : Z) (C : Contents) (ops : list WalOp) : Contents := foldl (pend_op o) C ops.
Definition commit_ops (l : Z) (C : Contents) (ops : list WalOp) : Contents := foldl (commit_op l) C ops.

(** Each operation is admissible where it is applied. *)
Definition ok_op (o : Z) (C : Contents) (op : WalOp) : Prop :=
  ∃ sc rs, C !! op_key op = Some (sc, rs) ∧ ok_rows o op rs.

Fixpoint ok_ops (o : Z) (C : Contents) (ops : list WalOp) : Prop :=
  match ops with
  | [] => True
  | op :: ops => ok_op o C op ∧ ok_ops o (pend_op o C op) ops
  end.

(** In-flight transactions in the order they ran: their writer and their operations. *)
Abbreviation Txns := (list (Z * list WalOp)).

Definition pend_txns (C : Contents) (P : Txns) : Contents :=
  foldl (λ C t, pend_ops t.1 C t.2) C P.

Fixpoint ok_txns (C : Contents) (P : Txns) : Prop :=
  match P with
  | [] => True
  | t :: P => ok_ops t.1 C t.2 ∧ ok_txns (pend_ops t.1 C t.2) P
  end.

(** A property of the rows of every table. *)
Definition each_table (Q : list RowVersion → Prop) (C : Contents) : Prop :=
  map_Forall (λ _ sr, Q sr.2) C.

(** ** Generalities *)

Lemma fmap_alter_comm {A} (f g g' : A → A) k (m : gmap string A) :
  (∀ x, m !! k = Some x → f (g x) = g' (f x)) → f <$> alter g k m = alter g' k (f <$> m).
Proof.
  intros H. apply map_eq. intros i. rewrite lookup_fmap.
  destruct (decide (i = k)) as [->|Hne].
  - rewrite !lookup_alter_eq, lookup_fmap. destruct (m !! k) as [x|] eqn:E; cbn; [|done].
    by rewrite H.
  - by rewrite !lookup_alter_ne, lookup_fmap by done.
Qed.

Lemma all_tables_on_rows (f g g' : list RowVersion → list RowVersion) k C :
  (∀ sc rs, C !! k = Some (sc, rs) → f (g rs) = g' (f rs)) →
  all_tables f (on_rows g k C) = on_rows g' k (all_tables f C).
Proof.
  intros H. apply fmap_alter_comm. intros [sc rs] Hk. unfold prod_map. cbn. by rewrite (H _ _ Hk).
Qed.

Lemma all_tables_id (f : list RowVersion → list RowVersion) C :
  each_table (λ rs, f rs = rs) C → all_tables f C = C.
Proof.
  intros H. apply map_eq. intros i. unfold all_tables. rewrite lookup_fmap.
  destruct (C !! i) as [[sc rs]|] eqn:E; [|done]. cbn. unfold prod_map. cbn.
  pose proof (H _ _ E) as He. cbn in He. by rewrite He.
Qed.

Lemma each_table_on_rows Q f k C :
  each_table Q C → (∀ sc rs, C !! k = Some (sc, rs) → Q rs → Q (f rs)) →
  each_table Q (on_rows f k C).
Proof.
  intros HC Hf i [sc rs] Hi. unfold on_rows in Hi. destruct (decide (i = k)) as [->|Hne].
  - rewrite lookup_alter_eq in Hi. destruct (C !! k) as [[sc' rs']|] eqn:E; [|done].
    injection Hi as <- <-. cbn. eapply Hf; [done|]. apply (HC _ _ E).
  - rewrite lookup_alter_ne in Hi by done. apply (HC _ _ Hi).
Qed.

Lemma each_table_all Q f C :
  each_table Q C → (∀ rs, Q rs → Q (f rs)) → each_table Q (all_tables f C).
Proof.
  intros HC Hf i [sc rs] Hi. unfold all_tables in Hi. rewrite lookup_fmap in Hi.
  destruct (C !! i) as [[sc' rs']|] eqn:E; [|done]. injection Hi as <- <-. cbn.
  apply Hf, (HC _ _ E).
Qed.

Lemma each_table_impl (Q Q' : list RowVersion → Prop) C :
  each_table Q C → (∀ rs, Q rs → Q' rs) → each_table Q' C.
Proof. intros HC HQ i [sc rs] Hi. apply HQ, (HC _ _ Hi). Qed.

Lemma pend_ops_app o C ops ops' : pend_ops o C (ops ++ ops') = pend_ops o (pend_ops o C ops) ops'.
Proof. apply foldl_app. Qed.

Lemma ok_ops_app o C ops ops' :
  ok_ops o C (ops ++ ops') ↔ ok_ops o C ops ∧ ok_ops o (pend_ops o C ops) ops'.
Proof.
  revert C. induction ops as [|op ops IH]; intros C; cbn; [naive_solver|]. rewrite IH. naive_solver.
Qed.

Lemma pend_txns_app C P P' : pend_txns C (P ++ P') = pend_txns (pend_txns C P) P'.
Proof. apply foldl_app. Qed.

Lemma ok_txns_app C P P' : ok_txns C (P ++ P') ↔ ok_txns C P ∧ ok_txns (pend_txns C P) P'.
Proof.
  revert C. induction P as [|t P IH]; intros C; cbn; [naive_solver|]. rewrite IH. naive_solver.
Qed.

(** ** Invariants of the rows *)

(** Increasing vids, and every owned row carries a pending stamp. *)
Definition rows_inv (rs : list RowVersion) : Prop := increasing rs ∧ Forall row_wf rs.

Lemma rows_inv_pend_op o C op : each_table rows_inv C → ok_op o C op → each_table rows_inv (pend_op o C op).
Proof.
  intros HC (sc & rs & Hk & Hok). apply each_table_on_rows; [done|].
  intros sc' rs' Hk' [Hi Hw]. rewrite Hk in Hk'. injection Hk' as <- <-.
  split; [by apply increasing_pend | by apply row_wf_pend].
Qed.

Lemma rows_inv_pend_ops o C ops :
  each_table rows_inv C → ok_ops o C ops → each_table rows_inv (pend_ops o C ops).
Proof.
  revert C. induction ops as [|op ops IH]; intros C HC Hok; [done|]. destruct Hok as [Hop Hok].
  apply IH; [by apply rows_inv_pend_op | done].
Qed.

Lemma rows_inv_pend_txns C P : each_table rows_inv C → ok_txns C P → each_table rows_inv (pend_txns C P).
Proof.
  revert C. induction P as [|t P IH]; intros C HC Hok; [done|]. destruct Hok as [Ht Hok].
  apply IH; [by apply rows_inv_pend_ops | done].
Qed.

Lemma unowned_pend_ops o p C ops :
  p ≠ o → each_table (unowned o) C → each_table (unowned o) (pend_ops p C ops).
Proof.
  intros Hp. revert C. induction ops as [|op ops IH]; intros C HC; [done|]. apply IH.
  apply each_table_on_rows; [done|]. intros _ rs _. by apply unowned_pend.
Qed.

Lemma unowned_pend_txns o C P :
  o ∉ P.*1 → each_table (unowned o) C → each_table (unowned o) (pend_txns C P).
Proof.
  revert C. induction P as [|t P IH]; intros C Hn HC; [done|]. cbn in Hn.
  rewrite not_elem_of_cons in Hn. destruct Hn as [Hne Hn]. apply IH; [done|].
  apply unowned_pend_ops; [congruence | done].
Qed.

(** ** Changes of the rows that leave another writer's operations alone *)

Definition respects (f : list RowVersion → list RowVersion) (p : Z) : Prop :=
  ∀ op rs, ok_rows p op rs → f (pend_rows p op rs) = pend_rows p op (f rs) ∧ ok_rows p op (f rs).

Lemma finalize_respects o l p : p ≠ o → o ≠ 0 → respects (finalize_rows o l) p.
Proof.
  intros Hp Ho op rs Hok. split; [by apply finalize_pend_foreign | by apply ok_rows_finalize].
Qed.

Lemma rollback_respects o p : p ≠ o → o ≠ 0 → respects (rollback_rows o) p.
Proof.
  intros Hp Ho op rs Hok. split; [by apply rollback_pend_foreign | by apply ok_rows_rollback].
Qed.

Lemma respects_pend_op f p C op :
  respects f p → ok_op p C op →
  all_tables f (pend_op p C op) = pend_op p (all_tables f C) op ∧ ok_op p (all_tables f C) op.
Proof.
  intros Hf (sc & rs & Hk & Hok). split.
  - apply all_tables_on_rows. intros sc' rs' Hk'. rewrite Hk in Hk'. injection Hk' as <- <-.
    by apply Hf.
  - exists sc, (f rs). split; [|by apply Hf]. unfold all_tables. by rewrite lookup_fmap, Hk.
Qed.

Lemma respects_pend_ops f p C ops :
  respects f p → ok_ops p C ops →
  all_tables f (pend_ops p C ops) = pend_ops p (all_tables f C) ops ∧ ok_ops p (all_tables f C) ops.
Proof.
  intros Hf. revert C. induction ops as [|op ops IH]; intros C Hok; [done|].
  destruct Hok as [Hop Hok]. destruct (respects_pend_op f p C op Hf Hop) as [He Hop'].
  destruct (IH _ Hok) as [He' Hok']. rewrite He in He', Hok'. done.
Qed.

Lemma respects_pend_txns f C P :
  (∀ p, p ∈ P.*1 → respects f p) → ok_txns C P →
  all_tables f (pend_txns C P) = pend_txns (all_tables f C) P ∧ ok_txns (all_tables f C) P.
Proof.
  revert C. induction P as [|t P IH]; intros C Hf Hok; [done|]. destruct Hok as [Ht Hok].
  destruct (respects_pend_ops f t.1 C t.2) as [He Ht']; [apply Hf; left | done |].
  destruct (IH (pend_ops t.1 C t.2)) as [He' Hok']; [intros p Hp; apply Hf; by right | done |].
  cbn. rewrite He in He', Hok'. done.
Qed.

(** ** Publishing and rolling back a transaction *)

Lemma finalize_pend_ops o l C ops :
  o ≠ 0 → ok_ops o C ops →
  all_tables (finalize_rows o l) (pend_ops o C ops) = commit_ops l (all_tables (finalize_rows o l) C) ops.
Proof.
  intros Ho. revert C. induction ops as [|op ops IH]; intros C Hok; [done|].
  destruct Hok as [Hop Hok]. change (pend_ops o C (op :: ops)) with (pend_ops o (pend_op o C op) ops).
  rewrite (IH _ Hok).
  change (commit_ops l ?c (op :: ops)) with (commit_ops l (commit_op l c op) ops). f_equal.
  destruct Hop as (sc & rs & Hk & Hop). apply all_tables_on_rows.
  intros sc' rs' Hk'. rewrite Hk in Hk'. injection Hk' as <- <-. by apply finalize_pend_own.
Qed.

Lemma finalize_unowned_all o l C :
  each_table (unowned o) C → all_tables (finalize_rows o l) C = C.
Proof.
  intros HC. apply all_tables_id. eapply each_table_impl; [exact HC|]. intros rs.
  apply finalize_unowned.
Qed.

(** Publishing the oldest transaction commits it and keeps the rest pending. *)
Lemma finalize_txn o l C ops P :
  o ≠ 0 → o ∉ P.*1 → each_table (unowned o) C → ok_txns C ((o, ops) :: P) →
  all_tables (finalize_rows o l) (pend_txns C ((o, ops) :: P)) = pend_txns (commit_ops l C ops) P
  ∧ ok_txns (commit_ops l C ops) P.
Proof.
  intros Ho Hn HC [Hops Hok]. cbn in Hops, Hok.
  assert (all_tables (finalize_rows o l) (pend_ops o C ops) = commit_ops l C ops) as He.
  { rewrite finalize_pend_ops, finalize_unowned_all by done. done. }
  rewrite <- He.
  change (pend_txns C ((o, ops) :: P)) with (pend_txns (pend_ops o C ops) P).
  apply respects_pend_txns; [|done].
  intros p Hp. apply finalize_respects; [|done]. intros ->. done.
Qed.

Lemma rollback_pend_ops o C ops :
  o ≠ 0 → each_table rows_inv C → ok_ops o C ops →
  all_tables (rollback_rows o) (pend_ops o C ops) = all_tables (rollback_rows o) C.
Proof.
  intros Ho. revert C. induction ops as [|op ops IH]; intros C HC Hok; [done|].
  destruct Hok as [Hop Hok]. change (pend_ops o C (op :: ops)) with (pend_ops o (pend_op o C op) ops).
  rewrite IH; [|by apply rows_inv_pend_op | done].
  destruct Hop as (sc & rs & Hk & Hop). apply map_eq. intros i.
  unfold all_tables, pend_op, on_rows. rewrite !lookup_fmap.
  destruct (decide (i = op_key op)) as [->|Hne]; [|by rewrite lookup_alter_ne].
  rewrite lookup_alter_eq, Hk. cbn [fmap option_fmap option_map prod_map fst snd id].
  unfold prod_map. cbn [fst snd id]. rewrite rollback_pend_own; [done..| |done]. apply (HC _ _ Hk).
Qed.

(** Rolling back any in-flight transaction erases it and keeps the others pending. *)
Lemma rollback_txn o C A ops P :
  o ≠ 0 → o ∉ A.*1 → o ∉ P.*1 → each_table (unowned o) C → each_table rows_inv C →
  ok_txns C (A ++ (o, ops) :: P) →
  all_tables (rollback_rows o) (pend_txns C (A ++ (o, ops) :: P)) = pend_txns C (A ++ P)
  ∧ ok_txns C (A ++ P).
Proof.
  intros Ho HA HP Hu HC. rewrite !ok_txns_app, !pend_txns_app. intros (HokA & Hops & Hok).
  set (D := pend_txns C A) in *.
  assert (all_tables (rollback_rows o) (pend_ops o D ops) = D) as He.
  { rewrite rollback_pend_ops; [|done| by apply rows_inv_pend_txns | done].
    apply all_tables_id. eapply each_table_impl; [by apply unowned_pend_txns|].
    intros rs. apply rollback_unowned. }
  destruct (respects_pend_txns (rollback_rows o) (pend_ops o D ops) P) as [He' Hok'].
  - intros p Hp. apply rollback_respects; [|done]. intros ->. done.
  - done.
  - rewrite He in He', Hok'.
    change (pend_txns D ((o, ops) :: P)) with (pend_txns (pend_ops o D ops) P). done.
Qed.

(** ** Reader views *)

Definition table_view (s : Z) (C : Contents) (k : string) : option (list (Z * list Value)) :=
  (λ sr, reader_view s sr.2) <$> C !! k.

Lemma table_view_on_rows s f k C i :
  (∀ sc rs, C !! k = Some (sc, rs) → reader_view s (f rs) = reader_view s rs) →
  table_view s (on_rows f k C) i = table_view s C i.
Proof.
  intros H. unfold table_view, on_rows. destruct (decide (i = k)) as [->|Hne].
  - rewrite lookup_alter_eq. destruct (C !! k) as [[sc rs]|] eqn:E; [|done].
    simpl. f_equal. by apply (H sc).
  - by rewrite lookup_alter_ne.
Qed.

Lemma table_view_pend_ops s o C ops i :
  s < PENDING → ok_ops o C ops → table_view s (pend_ops o C ops) i = table_view s C i.
Proof.
  intros Hs. revert C. induction ops as [|op ops IH]; intros C Hok; [done|].
  destruct Hok as [(sc & rs & Hk & Hop) Hok]. 
  change (pend_ops o C (op :: ops)) with (pend_ops o (pend_op o C op) ops). rewrite (IH _ Hok).
  apply table_view_on_rows. intros sc' rs' Hk'. rewrite Hk in Hk'. injection Hk' as <- <-.
  by apply (reader_view_pend s o).
Qed.

(** No reader sees anything of the transactions in flight. *)
Lemma table_view_pend_txns s C P i :
  s < PENDING → ok_txns C P → table_view s (pend_txns C P) i = table_view s C i.
Proof.
  intros Hs. revert C. induction P as [|t P IH]; intros C Hok; [done|]. destruct Hok as [Ht Hok].
  change (pend_txns C (t :: P)) with (pend_txns (pend_ops t.1 C t.2) P). rewrite (IH _ Hok).
  by apply table_view_pend_ops.
Qed.

(** A commit after a snapshot is invisible to it. *)
Lemma table_view_finalize s o l C i :
  s < l → s < PENDING → table_view s (all_tables (finalize_rows o l) C) i = table_view s C i.
Proof.
  intros Hl Hs. unfold table_view, all_tables. rewrite lookup_fmap.
  destruct (C !! i) as [[sc rs]|]; [|done]. cbn. f_equal. by apply reader_view_finalize.
Qed.

(** ** The committed form of a transaction *)

Lemma commit_is_finalize o l C ops :
  o ≠ 0 → each_table (unowned o) C → ok_ops o C ops →
  commit_ops l C ops = all_tables (finalize_rows o l) (pend_ops o C ops).
Proof. intros Ho HC Hok. by rewrite finalize_pend_ops, finalize_unowned_all. Qed.

(** Rows of the committed state: no writer owns them. *)
Definition committed (rs : list RowVersion) : Prop := Forall (λ r, owner r = 0) rs.

Lemma committed_commit_ops l C ops : each_table committed C → each_table committed (commit_ops l C ops).
Proof.
  revert C. induction ops as [|op ops IH]; intros C HC; [done|]. apply IH.
  apply each_table_on_rows; [done|]. intros _ rs _ Hr. destruct op; try done; cbn.
  - apply Forall_app. split; [done|]. by constructor.
  - apply Forall_update_first; [done|]. by intros r.
Qed.

Lemma committed_unowned o C : o ≠ 0 → each_table committed C → each_table (unowned o) C.
Proof.
  intros Ho HC. eapply each_table_impl; [exact HC|]. intros rs Hr.
  eapply Forall_impl; [exact Hr|]. cbn. congruence.
Qed.

Lemma increasing_commit_ops o l C ops :
  o ≠ 0 → each_table (unowned o) C → each_table increasing C → ok_ops o C ops →
  each_table increasing (commit_ops l C ops).
Proof.
  intros Ho Hu HC Hok. rewrite (commit_is_finalize o) by done. apply each_table_all.
  - clear Hu. revert C HC Hok. induction ops as [|op ops IH]; intros C HC Hok; [done|].
    destruct Hok as [(sc & rs & Hk & Hop) Hok]. apply IH; [|done].
    apply each_table_on_rows; [done|]. intros sc' rs' Hk' Hi. rewrite Hk in Hk'.
    injection Hk' as <- <-. by apply increasing_pend.
  - intros rs. unfold increasing, finalize_rows. rewrite <- list_fmap_compose.
    rewrite (list_fmap_ext (vid ∘ finalize_row o l) vid); [done|]. intros. cbn. apply vid_finalize.
Qed.

(** * What a statement does to the contents of the store

    Publishing, rolling back and replaying as functions on the contents; a DELETE, an UPDATE and
    an INSERT that succeed have exactly the effect of the log operations they emit, pending under
    their writer, and every operation is admissible where it is applied. *)

#[local] Open Scope comp_scope.

Section Proofs.
Context {VI : Type} `{!VectorIndexOps VI} {SelectStmt : Type} `{!SqlOps SelectStmt}.
Abbreviation Store := (Store VI SelectStmt).

Definition content (t : Table) : TableSchema * list RowVersion := (schema t, rows t).
Definition contents (s : Store) : Contents := content <$> tables s.

(** Every vid in use is below the table's counter. *)
Definition vids_below (s : Store) : Prop :=
  map_Forall (λ _ t, Forall (λ r, vid r < next_vid t) (rows t)) (tables s).

(** ** Index maintenance does not touch the tables *)

Definition same_tables (s s' : Store) : Prop :=
  tables s' = tables s ∧ committed_lsn s' = committed_lsn s.

#[global] Instance same_tables_preorder : PreOrder same_tables.
Proof. split; [done|]. intros a b c [] []. split; congruence. Qed.

Lemma same_foldl {A} (f : Store → A → Store) l s :
  (∀ s x, same_tables s (f s x)) → same_tables s (foldl f s l).
Proof.
  intros Hf. revert s. induction l as [|x l IH]; intros s; cbn; [done|].
  etrans; [apply Hf | apply IH].
Qed.

Lemma same_compact_index name floor (s : Store) : same_tables s (compact_index name floor s).
Proof. unfold compact_index. repeat case_match; done. Qed.

Lemma same_index_delete_one vids l (s : Store) name : same_tables s (index_delete_one vids l s name).
Proof. unfold index_delete_one. case_match; [|done]. etrans; [|apply same_compact_index]. done. Qed.

Lemma same_apply_index_deletes t vids l (s : Store) : same_tables s (apply_index_deletes t vids l s).
Proof. apply same_foldl. intros. apply same_index_delete_one. Qed.

Lemma same_index_row_inserted t v vals (s : Store) : same_tables s (index_row_inserted t v vals s).
Proof. unfold index_row_inserted. case_match; done. Qed.

Lemma same_populate_index name (s : Store) : same_tables s (populate_index name s).
Proof. unfold populate_index. repeat case_match; done. Qed.

(** ** Publishing, rolling back, replaying *)

Lemma contents_same s s' : same_tables s s' → contents s' = contents s.
Proof. intros [H _]. unfold contents. by rewrite H. Qed.

Lemma contents_map_tables (f : Table → Table) g s :
  (∀ t, schema (f t) = schema t ∧ rows (f t) = g (rows t)) →
  contents (with_tables (f <$> tables s) s) = all_tables g (contents s).
Proof.
  intros Hf. unfold contents, all_tables. cbn. rewrite <- !map_fmap_compose.
  apply map_fmap_ext. intros k t _. cbn. unfold content, prod_map. destruct (Hf t) as [-> ->]. done.
Qed.

Lemma finalize_owner_tables o l (s : Store) :
  tables (finalize_owner o l s) = finalize_table o l <$> tables s
  ∧ committed_lsn (finalize_owner o l s) = committed_lsn s.
Proof.
  unfold finalize_owner.
  destruct (same_foldl (λ s (kd : string * list Z), apply_index_deletes kd.1 kd.2 l s)
    (filter (λ kd, kd.2 ≠ []) ((λ kt, (kt.1, deleted_by o kt.2)) <$> map_to_list (tables s)))
    (with_tables (finalize_table o l <$> tables s) s)) as [Ht Hc].
  - intros. apply same_apply_index_deletes.
  - rewrite Ht, Hc. done.
Qed.

Lemma contents_finalize o l (s : Store) :
  contents (finalize_owner o l s) = all_tables (finalize_rows o l) (contents s).
Proof.
  rewrite <- (contents_map_tables (finalize_table o l)) by done.
  apply contents_same. exact (finalize_owner_tables o l s).
Qed.

Lemma rollback_owner_tables o (s : Store) :
  tables (rollback_owner o s) = rollback_table o <$> tables s
  ∧ committed_lsn (rollback_owner o s) = committed_lsn s.
Proof. unfold rollback_owner. case_match; done. Qed.

Lemma contents_rollback o (s : Store) :
  contents (rollback_owner o s) = all_tables (rollback_rows o) (contents s).
Proof.
  rewrite <- (contents_map_tables (rollback_table o)) by done.
  apply contents_same. exact (rollback_owner_tables o s).
Qed.

Lemma contents_table_mut (f : Table → Table) g tname (s : Store) :
  (∀ t, table s tname = Some t → schema (f t) = schema t ∧ rows (f t) = g (rows t)) →
  contents (table_mut f tname s) = on_rows g (key tname) (contents s).
Proof.
  intros Hf. unfold contents, on_rows, table_mut. cbn. apply map_eq. intros i.
  rewrite lookup_fmap. destruct (decide (i = key tname)) as [->|Hne].
  - rewrite !lookup_alter_eq, lookup_fmap. unfold table in Hf.
    destruct (tables s !! key tname) as [t|]; [|done]. cbn. unfold content, prod_map. cbn.
    by destruct (Hf t eq_refl) as [-> ->].
  - by rewrite !lookup_alter_ne, lookup_fmap.
Qed.

Lemma contents_replay_dml l (s : Store) op :
  (∃ t v vals, op = Insert t v vals) ∨ (∃ t v, op = Delete t v) →
  contents (apply_replay l s op) = commit_op l (contents s) op.
Proof.
  intros [(t & v & vals & ->)|(t & v & ->)]; cbn; unfold replay_insert, replay_delete;
    by apply contents_table_mut.
Qed.

Lemma contents_lookup (s : Store) tname t :
  table s tname = Some t → contents s !! key tname = Some (schema t, rows t).
Proof. intros H. unfold contents. rewrite lookup_fmap. unfold table in H. by rewrite H. Qed.

(** ** The two primitives *)

Lemma contents_supersede tname v o (s : Store) :
  contents (supersede tname v o s).1 = pend_op o (contents s) (Delete tname v).
Proof. by apply contents_table_mut. Qed.

Lemma contents_append tname vals o (s : Store) t :
  table s tname = Some t →
  contents (append_version tname vals o s).1.1 = pend_op o (contents s) (Insert tname (next_vid t) vals)
  ∧ (append_version tname vals o s).1.2 = [Insert tname (next_vid t) vals]
  ∧ (append_version tname vals o s).2 = next_vid t.
Proof.
  intros Ht. unfold append_version. rewrite Ht. split; [|done].
  apply contents_table_mut. intros t' Ht'. rewrite Ht in Ht'. by injection Ht' as <-.
Qed.

Lemma vids_below_alter f tname (s : Store) :
  vids_below s →
  (∀ t, table s tname = Some t → Forall (λ r, vid r < next_vid t) (rows t) →
        Forall (λ r, vid r < next_vid (f t)) (rows (f t))) →
  vids_below (table_mut f tname s).
Proof.
  intros Hs Hf k t Hk. cbn in Hk. destruct (decide (k = key tname)) as [->|Hne].
  - rewrite lookup_alter_eq in Hk. destruct (tables s !! key tname) as [t0|] eqn:E; [|done].
    injection Hk as <-. apply Hf; [exact E|]. apply (Hs _ _ E).
  - rewrite lookup_alter_ne in Hk by done. apply (Hs _ _ Hk).
Qed.

Lemma vids_below_supersede tname v o (s : Store) : vids_below s → vids_below (supersede tname v o s).1.
Proof.
  intros Hs. apply vids_below_alter; [done|]. intros t _ HF. cbn. apply Forall_update_first; [done|].
  by intros r.
Qed.

Lemma vids_below_append tname vals o (s : Store) :
  vids_below s → vids_below (append_version tname vals o s).1.1.
Proof.
  intros Hs. apply vids_below_alter; [done|]. intros t _ HF. cbn.
  apply Forall_app. split; [|constructor; [cbn; lia|constructor]].
  eapply Forall_impl; [exact HF|]. cbn. lia.
Qed.

(** ** Statements as sequences of admissible operations *)

(** [st] ran from [(s, wal)] and emitted admissible operations whose effect it has. *)
Definition emitted (o : Z) (st st' : Store * list WalOp) : Prop :=
  ∃ ops, st'.2 = st.2 ++ ops ∧ ok_ops o (contents st.1) ops ∧
    contents st'.1 = pend_ops o (contents st.1) ops ∧
    committed_lsn st'.1 = committed_lsn st.1 ∧ (vids_below st.1 → vids_below st'.1).

#[local] Instance emitted_preorder o : PreOrder (emitted o).
Proof.
  split.
  - intros st. exists []. rewrite app_nil_r. done.
  - intros a b c (ops & Hw & Hok & Hc & Hl & Hv) (ops' & Hw' & Hok' & Hc' & Hl' & Hv').
    exists (ops ++ ops'). split_and!.
    + by rewrite Hw', Hw, <- app_assoc.
    + apply ok_ops_app. by rewrite <- Hc.
    + by rewrite pend_ops_app, <- Hc.
    + congruence.
    + auto.
Qed.

Lemma emitted_append o tname vals st st' v t :
  table st.1 tname = Some t → vids_below st.1 →
  stm_append tname vals o st = (st', Ok v) →
  emitted o st st' ∧ v = next_vid t ∧ st' = ((append_version tname vals o st.1).1.1,
                                           st.2 ++ [Insert tname v vals]).
Proof.
  destruct st as [s wal]. cbn. intros Ht Hv. rewrite Ht. intros [= <- <-]. split_and!; [|done..].
  exists [Insert tname (next_vid t) vals]. split_and!; try done; cbn.
  - split; [|done]. exists (schema t), (rows t). split; [by apply contents_lookup|].
    apply (Hv (key tname) t Ht).
  - apply contents_table_mut. intros t' Ht'. rewrite Ht in Ht'. by injection Ht' as <-.
  - intros _. apply (vids_below_append tname vals o s Hv).
Qed.

Lemma emitted_supersede o tname v st t r :
  table st.1 tname = Some t → find_row v (rows t) = Some r → deletable o r →
  emitted o st (stm_supersede tname v o st).1.
Proof.
  destruct st as [s wal]. cbn. intros Ht Hr Hd. exists [Delete tname v]. cbn. split_and!; try done.
  - exists (schema t), (rows t). split; [by apply contents_lookup|]. by exists r.
  - by apply contents_table_mut.
  - apply vids_below_supersede.
Qed.

Lemma stm_supersede_ok o tname v (st : Store * list WalOp) :
  stm_supersede tname v o st = ((stm_supersede tname v o st).1, Ok tt).
Proof. by destruct st. Qed.

(** What the next operations of a statement still find: the table with its schema, and the row
    of every vid but [v]. *)
Lemma table_supersede tname v o (s : Store) t :
  table s tname = Some t →
  ∃ t', table (supersede tname v o s).1 tname = Some t' ∧ schema t' = schema t ∧
    next_vid t' = next_vid t ∧
    ∀ w, w ≠ v → find_row w (rows t') = find_row w (rows t).
Proof.
  intros Ht. eexists. split; [unfold table; cbn; rewrite lookup_alter_eq; unfold table in Ht;
    rewrite Ht; reflexivity|]. split_and!; [done..|].
  intros w Hw. cbn. unfold find_row. induction (rows t) as [|r rs IH]; [done|]. cbn.
  destruct (Z.eqb_spec (vid r) v) as [E|E]; cbn.
  - rewrite E, (proj2 (Z.eqb_neq v w)) by congruence. done.
  - by rewrite IH.
Qed.

Lemma table_append tname vals o (s : Store) t :
  table s tname = Some t →
  ∃ t', table (append_version tname vals o s).1.1 tname = Some t' ∧ schema t' = schema t ∧
    rows t' = rows t ++ [mkRow (next_vid t) vals PENDING 0 o] ∧
    ∀ w r, find_row w (rows t) = Some r → find_row w (rows t') = Some r.
Proof.
  intros Ht. eexists. split; [unfold table; cbn; rewrite lookup_alter_eq; unfold table in Ht;
    rewrite Ht; reflexivity|]. split_and!; [done..|].
  intros w r. cbn. unfold find_row. induction (rows t) as [|x rs IH]; [done|]. cbn.
  destruct (vid x =? w); [done|]. apply IH.
Qed.

(** ** The rows a statement selects *)

(** A visible row without conflict is live, and committed or the writer's own. *)
Lemma selected_deletable r snap me :
  row_wf r → visible_to_writer r snap me = true → check_no_conflict r snap me = Ok tt →
  deletable me r.
Proof.
  intros Hwf Hv Hc. unfold visible_to_writer, check_no_conflict in *.
  destruct (Z.eqb_spec (delete_lsn r) PENDING) as [Hp|Hp].
  { destruct (owner r =? me); cbn in *; [by rewrite andb_false_r in Hv|].
    rewrite orb_true_r in Hc. done. }
  apply andb_true_iff in Hv as [Hcr Hnd]. apply negb_true_iff in Hnd.
  destruct (Z.eqb_spec (delete_lsn r) 0) as [Hd|Hd]; cbn in *.
  - split; [done|]. destruct (Z.eqb_spec (create_lsn r) PENDING) as [E|E].
    + left. by apply Z.eqb_eq.
    + right. split; [|done]. destruct (decide (owner r = 0)) as [|Hn]; [done|].
      by destruct (Hwf Hn).
  - destruct (Z.leb_spec (delete_lsn r) snap); [done|].
    rewrite (proj2 (Z.ltb_lt _ _)) in Hc by lia. done.
Qed.

(** Each vid of the list names a row the writer may delete. *)
Definition targets (o : Z) (rs : list RowVersion) (vids : list Z) : Prop :=
  NoDup vids ∧ ∀ v, v ∈ vids → ∃ r, find_row v rs = Some r ∧ deletable o r.

Lemma targets_nil o rs : targets o rs [].
Proof. split; [constructor|]. intros v Hv. by apply elem_of_nil in Hv. Qed.

(** Targets among the later rows are targets among all of them. *)
Lemma targets_cons o r rs vids :
  increasing (r :: rs) → targets o rs vids → targets o (r :: rs) vids.
Proof.
  intros Hs [Hn Ht]. split; [done|]. intros v Hv. destruct (Ht v Hv) as (x & Hx & Hd).
  exists x. split; [|done]. unfold increasing in Hs. cbn in Hs. apply StronglySorted_inv in Hs as [_ Hlt].
  unfold find_row. cbn. destruct (Z.eqb_spec (vid r) v) as [E|]; [|done].
  apply find_row_Some in Hx as [Hin Hvx]. rewrite Forall_fmap, Forall_forall in Hlt.
  specialize (Hlt x Hin). cbn in Hlt. lia.
Qed.

Lemma targets_add o r rs vids :
  increasing (r :: rs) → deletable o r → targets o rs vids → targets o (r :: rs) (vid r :: vids).
Proof.
  intros Hs Hd Ht. destruct (targets_cons o r rs vids Hs Ht) as [_ Ht']. destruct Ht as [Hn Ht]. split.
  - constructor; [|done]. intros Hv. destruct (Ht _ Hv) as (x & Hx & _).
    apply find_row_Some in Hx as [Hin Hvx]. unfold increasing in Hs. cbn in Hs.
    apply StronglySorted_inv in Hs as [_ Hlt]. rewrite Forall_fmap, Forall_forall in Hlt.
    specialize (Hlt x Hin). cbn in Hlt. lia.
  - intros v Hv. apply elem_of_cons in Hv as [->|Hv]; [|auto].
    exists r. split; [|done]. unfold find_row. cbn. by rewrite Z.eqb_refl.
Qed.

Lemma rows_inv_tail r rs : rows_inv (r :: rs) → row_wf r ∧ rows_inv rs.
Proof.
  intros [Hi Hw]. apply Forall_cons in Hw as [Hr Hw]. split; [done|]. split; [|done].
  unfold increasing in *. cbn in Hi. by apply StronglySorted_inv in Hi as [? _].
Qed.

Lemma collect_delete_targets keep wc rs vs :
  rows_inv rs → collect_delete_victims keep wc rs = Ok vs → targets (wc_owner wc) rs vs.*1.
Proof.
  revert vs. induction rs as [|r rs IH]; intros vs Hinv; cbn; [intros [= <-]; apply targets_nil|].
  destruct (rows_inv_tail _ _ Hinv) as [Hw Hinv']. destruct Hinv as [Hs _].
  destruct (visible_to_writer r _ _) eqn:Ev; cbn; [|by intros H; apply targets_cons, IH].
  intros H. apply Result_bind_Ok in H as ([] & _ & H); [|by apply targets_cons, IH].
  apply Result_bind_Ok in H as ([] & Hc & H). apply Result_bind_Ok in H as (rest & Hr & H).
  injection H as <-. apply targets_add; [done| |by apply IH]. by eapply selected_deletable.
Qed.

Lemma collect_updates_targets keep mk wc rs us :
  rows_inv rs → collect_updates keep mk wc rs = Ok us → targets (wc_owner wc) rs us.*1.
Proof.
  revert us. induction rs as [|r rs IH]; intros us Hinv; cbn; [intros [= <-]; apply targets_nil|].
  destruct (rows_inv_tail _ _ Hinv) as [Hw Hinv']. destruct Hinv as [Hs _].
  destruct (visible_to_writer r _ _) eqn:Ev; cbn; [|by intros H; apply targets_cons, IH].
  intros H. apply Result_bind_Ok in H as ([ctx|] & _ & H); [|by apply targets_cons, IH].
  apply Result_bind_Ok in H as ([] & Hc & H). apply Result_bind_Ok in H as (nv & _ & H).
  apply Result_bind_Ok in H as (rest & Hr & H).
  injection H as <-. apply targets_add; [done| |by apply IH]. by eapply selected_deletable.
Qed.

(** ** DELETE and UPDATE *)

(** Superseding one target leaves the others targets. *)
Lemma targets_supersede o tname v vids (s : Store) t :
  table s tname = Some t → targets o (rows t) (v :: vids) →
  ∃ t', table (supersede tname v o s).1 tname = Some t' ∧ schema t' = schema t ∧
        targets o (rows t') vids.
Proof.
  intros Ht [Hn Hall]. apply NoDup_cons in Hn as [Hv Hn].
  destruct (table_supersede tname v o s t Ht) as (t' & Ht' & Hsc & _ & Hf). exists t'.
  split_and!; [done..|]. split; [done|]. intros w Hw. rewrite Hf by congruence.
  apply Hall. by right.
Qed.

Lemma emitted_supersede_all tname wc vids st t :
  table st.1 tname = Some t → targets (wc_owner wc) (rows t) vids →
  ∃ st', supersede_all tname wc vids st = (st', Ok tt) ∧ emitted (wc_owner wc) st st'.
Proof.
  revert st t. induction vids as [|v vids IH]; intros st t Ht Hall; [by exists st|].
  destruct (targets_supersede _ _ _ _ _ _ Ht Hall) as (t' & Ht' & _ & Hall').
  destruct Hall as [_ Hall]. destruct (Hall v) as (r & Hr & Hd); [left|].
  pose proof (emitted_supersede _ tname v st t r Ht Hr Hd) as He. cbn [supersede_all].
  unfold comp_bind. rewrite stm_supersede_ok.
  destruct st as [s wal]. destruct (IH (stm_supersede tname v (wc_owner wc) (s, wal)).1 t') as (st' & Hr' & He').
  - exact Ht'.
  - exact Hall'.
  - exists st'. split; [exact Hr'|]. by etrans.
Qed.

Lemma stm_append_ok tname vals o (st : Store * list WalOp) :
  ∃ v, stm_append tname vals o st = ((stm_append tname vals o st).1, Ok v).
Proof. destruct st as [s wal]. cbn. eauto. Qed.

Lemma emitted_below o st st' : emitted o st st' → vids_below st.1 → vids_below st'.1.
Proof. intros (? & _ & _ & _ & _ & H). exact H. Qed.

Lemma emitted_update_rows tname wc us st st' r t :
  table st.1 tname = Some t → vids_below st.1 → targets (wc_owner wc) (rows t) us.*1 →
  update_rows tname wc us st = (st', r) → emitted (wc_owner wc) st st'.
Proof.
  revert st r t. induction us as [|[v nv] us IH]; intros st r t Ht Hv Hall; cbn [update_rows].
  { by intros [= <- <-]. }
  cbn in Hall. destruct (targets_supersede _ _ _ _ _ _ Ht Hall) as (t1 & Ht1 & _ & Hall1).
  destruct Hall as [_ Hall]. destruct (Hall v) as (x & Hr & Hd); [left|].
  pose proof (emitted_supersede _ tname v st t x Ht Hr Hd) as He.
  unfold comp_bind. rewrite stm_supersede_ok. set (st1 := (stm_supersede tname v _ st).1) in *.
  assert (table st1.1 tname = Some t1) as Ht1' by by destruct st.
  pose proof (emitted_below _ _ _ He Hv) as Hv1.
  destruct (stm_append_ok tname nv (wc_owner wc) st1) as [w Ea]. rewrite Ea.
  destruct (emitted_append _ _ _ _ _ _ _ Ht1' Hv1 Ea) as (He2 & -> & Est).
  set (st2 := (stm_append tname nv _ st1).1) in *.
  destruct (table_append tname nv (wc_owner wc) st1.1 t1 Ht1') as (t2 & Ht2 & _ & _ & Hf2).
  destruct (update_rows tname wc us st2) as [st3 q] eqn:Eu. intros Hq.
  assert (st3 = st') as -> by (destruct q; by injection Hq). etrans; [exact He|]. etrans; [exact He2|].
  eapply (IH st2 q t2); [|exact (emitted_below _ _ _ He2 Hv1)| |exact Eu].
  - rewrite Est. exact Ht2.
  - destruct Hall1 as [Hn1 Hall1]. split; [done|]. intros w Hw.
    destruct (Hall1 w Hw) as (y & Hx & Hdx). exists y. auto.
Qed.

(** What a statement left behind: the operations it emitted, which a success reports. *)
Definition left_by (o : Z) (s s' : Store) (r : Res Mutation) : Prop :=
  ∃ wal, emitted o (s, []) (s', wal) ∧ ∀ m, r = Ok m → mut_wal m = wal.

Lemma left_nothing o s r : (∀ m, r ≠ Ok m) → left_by o s s r.
Proof. intros Hr. exists []. split; [done|]. intros m Hm. by destruct (Hr m). Qed.

Lemma left_after o s s1 s' r : emitted o (s, []) (s1, []) → left_by o s1 s' r → left_by o s s' r.
Proof. intros He (wal & Hw & Hm). exists wal. split; [by etrans|done]. Qed.

Lemma stmt_body_left o body ret (s s' : Store) r :
  stmt_body body ret s = (s', r) →
  (∀ st' q, body (s, []) = (st', q) → emitted o (s, []) st') → left_by o s s' r.
Proof.
  unfold stmt_body. destruct (body (s, [])) as [[s1 wal] [[n aff]|e]] eqn:E; intros [= <- <-] Hb;
    specialize (Hb _ _ eq_refl); exists wal; split; try done.
  intros m H. apply Result_bind_Ok in H as (x & _ & [= <-]). done.
Qed.

Lemma emitted_same o (s s' : Store) wal : same_tables s s' → emitted o (s, wal) (s', wal).
Proof.
  intros Hs. exists []. rewrite app_nil_r. split_and!; [done..| | |]; cbn.
  - by apply contents_same.
  - apply Hs.
  - destruct Hs as [H _]. unfold vids_below. by rewrite H.
Qed.

Lemma emitted_index_rows o tname new st : emitted o st (index_rows tname new st).1.
Proof.
  destruct st as [s wal]. apply emitted_same. apply same_foldl. intros s1 [v vals].
  apply same_index_row_inserted.
Qed.

(** The bookkeeping of the indexes after the rows are written. *)
Lemma emitted_maintain {A} o tname (b : bool) new (r : A) st st' r' :
  (do! (if b then index_rows tname new else comp_ret tt) in comp_ret r) st = (st', r') →
  emitted o st st'.
Proof.
  unfold comp_bind. destruct b; cbn; [|by intros [= <- _]].
  intros H. pose proof (emitted_index_rows o tname new st) as He. destruct st as [s wal].
  cbn in *. by injection H as <- _.
Qed.

Definition table_inv (s : Store) : Prop := each_table rows_inv (contents s) ∧ vids_below s.

Lemma table_inv_rows (s : Store) tname t : table_inv s → table s tname = Some t → rows_inv (rows t).
Proof. intros [H _] Ht. apply (H (key tname) (schema t, rows t)). by apply contents_lookup. Qed.

Lemma run_delete_left st wc (s s' : Store) r :
  table_inv s → run_delete st wc s = (s', r) → left_by (wc_owner wc) s s' r.
Proof.
  intros Hinv. unfold run_delete. destruct (table s (del_table st)) as [t|] eqn:Et;
    [|intros [= <- <-]; by apply left_nothing].
  destruct (del_keep st s wc (schema t) ≫= _) as [vs|e] eqn:Ev; [|intros [= <- <-]; by apply left_nothing].
  apply Result_bind_Ok in Ev as (keep & _ & Ev).
  pose proof (collect_delete_targets _ _ _ _ (table_inv_rows _ _ _ Hinv Et) Ev) as Htg.
  intros H. eapply stmt_body_left; [exact H|]. intros st' q.
  destruct (emitted_supersede_all (del_table st) wc vs.*1 (s, []) t Et Htg) as (st1 & Hst & He).
  unfold comp_bind. rewrite Hst. by intros [= <- _].
Qed.

Lemma run_update_left st wc (s s' : Store) r :
  table_inv s → run_update st wc s = (s', r) → left_by (wc_owner wc) s s' r.
Proof.
  intros Hinv. unfold run_update. destruct (table s (upd_table st)) as [t|] eqn:Et;
    [|intros [= <- <-]; by apply left_nothing].
  destruct (compute_updates st s (schema t) wc (rows t) ≫= _) as [us|e] eqn:Ev;
    [|intros [= <- <-]; by apply left_nothing].
  apply Result_bind_Ok in Ev as (us' & Ev & Ev'). apply Result_bind_Ok in Ev' as ([] & _ & [= ->]).
  unfold compute_updates in Ev. do 4 (apply Result_bind_Ok in Ev as (? & _ & Ev)).
  pose proof (collect_updates_targets _ _ _ _ _ (table_inv_rows _ _ _ Hinv Et) Ev) as Htg.
  intros H. unfold apply_updates in H. eapply stmt_body_left; [exact H|]. intros st' q.
  unfold comp_bind at 1. destruct (update_rows _ wc us (s, [])) as [st1 [new|e]] eqn:Eu; intros Hm.
  - etrans; [eapply emitted_update_rows; [exact Et| apply Hinv | exact Htg | exact Eu]|].
    eapply emitted_maintain; exact Hm.
  - injection Hm as <- _. eapply emitted_update_rows; [exact Et| apply Hinv | exact Htg | exact Eu].
Qed.

(** ** INSERT *)

Lemma emitted_insert_plain tname wc staged st st' r t :
  table st.1 tname = Some t → vids_below st.1 →
  insert_plain tname wc staged st = (st', r) → emitted (wc_owner wc) st st'.
Proof.
  revert st r t. induction staged as [|vals staged IH]; intros st r t Ht Hv; cbn [insert_plain].
  { by intros [= <- <-]. }
  unfold comp_bind. destruct (stm_append_ok tname vals (wc_owner wc) st) as [w Ea]. rewrite Ea.
  destruct (emitted_append _ _ _ _ _ _ _ Ht Hv Ea) as (He & -> & Est). set (st1 := (stm_append _ _ _ st).1) in *.
  destruct (table_append tname vals (wc_owner wc) st.1 t Ht) as (t1 & Ht1 & _).
  destruct (insert_plain tname wc staged st1) as [st2 q] eqn:Eu. intros Hq.
  assert (st2 = st') as -> by (destruct q; by injection Hq). etrans; [exact He|].
  eapply (IH st1 q t1); [|exact (emitted_below _ _ _ He Hv)|exact Eu]. rewrite Est. exact Ht1.
Qed.

(** Conflict actions that never touch the row they clash with. *)
Definition keeps_clash (oc : OnConflict) : Prop :=
  match oc with OCError | OCNothing => True | _ => False end.

(** The row of a vid, if the writer may delete it. *)
Definition may_delete (o : Z) (rs : list RowVersion) (v : Z) : Prop :=
  ∃ r, find_row v rs = Some r ∧ deletable o r.

(** A conflict action on the rows an upsert may replace: they are the writer's to delete. *)
Definition clash_ok (oc : OnConflict) (o : Z) (rs : list RowVersion) (clash : option Z) : Prop :=
  keeps_clash oc ∨ ∀ v, clash = Some v → may_delete o rs v.

(** Every row but [gone] is still found. *)
Definition keeps_rows (gone : option Z) (t t' : Table) : Prop :=
  ∀ w r, Some w ≠ gone → find_row w (rows t) = Some r → find_row w (rows t') = Some r.

(** A new last row, which the writer may delete, at a vid no row had. *)
Definition grown (o : Z) (t t' : Table) : Prop :=
  ∃ y, last (rows t') = Some y ∧ deletable o y ∧ find_row (vid y) (rows t') = Some y ∧
    Forall (λ r, vid r < vid y) (rows t).

Lemma find_row_vid v rs r : find_row v rs = Some r → r ∈ rs ∧ vid r = v.
Proof. apply find_row_Some. Qed.

Lemma find_row_fresh rs r : Forall (λ x, vid x < vid r) rs → find_row (vid r) (rs ++ [r]) = Some r.
Proof.
  unfold find_row. induction 1 as [|x rs Hx _ IH]; cbn; [by rewrite Z.eqb_refl|].
  destruct (Z.eqb_spec (vid x) (vid r)); [lia|done].
Qed.

Lemma append_grown tname vals o (st st' : Store * list WalOp) v t :
  table st.1 tname = Some t → vids_below st.1 → stm_append tname vals o st = (st', Ok v) →
  emitted o st st' ∧ ∃ t', table st'.1 tname = Some t' ∧ keeps_rows None t t' ∧ grown o t t'.
Proof.
  intros Ht Hv Ea. destruct (emitted_append _ _ _ _ _ _ _ Ht Hv Ea) as (He & -> & Est). split; [done|].
  destruct (table_append tname vals o st.1 t Ht) as (t1 & Ht1 & _ & Hr & Hf). exists t1.
  split_and!; [by rewrite Est|by intros w r _; apply Hf|].
  exists (mkRow (next_vid t) vals PENDING 0 o). rewrite Hr. unfold table in Ht.
  pose proof (Hv _ _ Ht) as Hb. cbn in Hb. split_and!; [by rewrite last_snoc|split; [done|by left]| |done].
  by apply find_row_fresh.
Qed.

Lemma replace_grown tname vals wc old_vid (st st' : Store * list WalOp) r (f : Z → option (list Value)) t :
  table st.1 tname = Some t → vids_below st.1 → may_delete (wc_owner wc) (rows t) old_vid →
  (do! stm_supersede tname old_vid (wc_owner wc) in
   let! v := stm_append tname vals (wc_owner wc) in comp_ret (f v)) st = (st', r) →
  emitted (wc_owner wc) st st' ∧
  ∃ t', table st'.1 tname = Some t' ∧ keeps_rows (Some old_vid) t t' ∧ grown (wc_owner wc) t t'.
Proof.
  intros Ht Hv (x & Hx & Hd) H. pose proof (emitted_supersede _ tname old_vid st t x Ht Hx Hd) as He.
  unfold comp_bind in H. rewrite stm_supersede_ok in H. set (st1 := (stm_supersede tname old_vid _ st).1) in *.
  destruct (table_supersede tname old_vid (wc_owner wc) st.1 t Ht) as (t1 & Ht1 & _ & Hnv & Hf1).
  assert (table st1.1 tname = Some t1) as Ht1' by by destruct st.
  destruct (stm_append_ok tname vals (wc_owner wc) st1) as [w Ea]. rewrite Ea in H. injection H as <- <-.
  destruct (append_grown _ _ _ _ _ _ _ Ht1' (emitted_below _ _ _ He Hv) Ea) as (He2 & t2 & Ht2 & Hk2 & y & Hy1 & Hy2 & Hy3 & Hy4).
  split; [by etrans|]. exists t2. split_and!; [done| |].
  - intros w' r' Hw Hr'. apply Hk2; [done|]. rewrite Hf1 by congruence. done.
  - exists y. split_and!; try done. unfold table in Ht. pose proof (Hv _ _ Ht) as Hb. cbn in Hb.
    destruct (emitted_append _ _ _ _ _ _ _ Ht1' (emitted_below _ _ _ He Hv) Ea) as (_ & -> & Est).
    destruct (table_append tname vals (wc_owner wc) st1.1 t1 Ht1') as (t2' & Ht2' & _ & Hr2 & _).
    rewrite Est in Ht2. cbn [fst] in Ht2. rewrite Ht2' in Ht2. injection Ht2 as <-.
    rewrite Hr2, last_snoc in Hy1. injection Hy1 as <-. cbn. by rewrite Hnv.
Qed.

(** What inserting one row leaves: its clash may be gone, and a row it reports is the new last one. *)
Definition row_applied (o : Z) (clash : option Z) (t t' : Table) (r : Res (option (list Value))) : Prop :=
  match r with Ok (Some _) => keeps_rows clash t t' ∧ grown o t t' | _ => t' = t end.

Lemma emitted_insert_row sc tname wc vals clash oc st st' r t :
  clash_ok oc (wc_owner wc) (rows t) clash → table st.1 tname = Some t → vids_below st.1 →
  apply_insert_row sc tname wc vals clash oc st = (st', r) →
  emitted (wc_owner wc) st st' ∧ ∃ t', table st'.1 tname = Some t' ∧ row_applied (wc_owner wc) clash t t' r.
Proof.
  intros Hoc Ht Hv. unfold apply_insert_row.
  assert (∀ q, st' = st → r = q → row_applied (wc_owner wc) clash t t q → emitted (wc_owner wc) st st' ∧
    ∃ t', table st'.1 tname = Some t' ∧ row_applied (wc_owner wc) clash t t' r) as Hid
    by (intros q -> -> Hq; split; [done|eauto]).
  destruct clash as [v|].
  - destruct oc as [| | |sets cond]; cbn; [intros [= <- <-]; by eapply Hid..| |].
    + destruct Hoc as [[]|Hoc]. intros H. specialize (Hoc v eq_refl).
      destruct (replace_grown _ _ _ _ _ _ _ (λ _, Some vals) _ Ht Hv Hoc H) as (He & t' & Ht' & Hk & Hg).
      split; [done|]. exists t'. split; [done|]. unfold comp_bind in H. rewrite stm_supersede_ok in H.
      destruct (stm_append_ok tname vals (wc_owner wc) (stm_supersede tname v (wc_owner wc) st).1) as [w Ea].
      rewrite Ea in H. by injection H as _ <-.
    + destruct Hoc as [[]|Hoc]. specialize (Hoc v eq_refl). unfold upsert_update, comp_bind, lift.
      destruct (ok_or _ _) as [existing|e]; [|intros [= <- <-]; by eapply Hid].
      destruct (upsert_values _ _ _ _ _) as [[nv|]|e]; [|intros [= <- <-]; by eapply Hid..].
      intros H. destruct (replace_grown tname nv wc v st st' r (λ _, Some nv) t Ht Hv Hoc H) as (He & t' & Ht' & Hk & Hg).
      split; [done|]. exists t'. split; [done|]. rewrite stm_supersede_ok in H.
      destruct (stm_append_ok tname nv (wc_owner wc) (stm_supersede tname v (wc_owner wc) st).1) as [w Ea].
      rewrite Ea in H. by injection H as _ <-.
  - unfold comp_bind. destruct (stm_append_ok tname vals (wc_owner wc) st) as [w Ea]. rewrite Ea. intros [= <- <-].
    destruct (append_grown _ _ _ _ _ _ _ Ht Hv Ea) as (He & t' & Ht' & Hk & Hg). split; [done|]. by exists t'.
Qed.

(** The live keys name different rows, each the writer's to delete. *)
Definition live_ok (o : Z) (rs : list RowVersion) (live : gmap string Z) : Prop :=
  (∀ k v, live !! k = Some v → may_delete o rs v) ∧
  ∀ k k' v, live !! k = Some v → live !! k' = Some v → k = k'.

Lemma live_ok_grown o t t' live k y :
  live_ok o (rows t) live → keeps_rows (live !! k) t t' → last (rows t') = Some y → grown o t t' →
  live_ok o (rows t') (<[k := vid y]> live).
Proof.
  intros [Hl Hi] Hk Hy (y' & Hy' & Hd & Hf & Hlt). rewrite Hy in Hy'. injection Hy' as <-.
  assert (∀ k' v, live !! k' = Some v → v < vid y) as Hb.
  { intros k' v Hv. destruct (Hl _ _ Hv) as (r & Hr & _). apply find_row_vid in Hr as [Hin <-].
    rewrite Forall_forall in Hlt. by apply Hlt. }
  split.
  - intros k' v. rewrite lookup_insert_Some. intros [[<- <-]|[Hne Hv]]; [by exists y|].
    destruct (Hl _ _ Hv) as (r & Hr & Hdr). exists r. split; [|done]. apply Hk; [|done].
    intros E. symmetry in E. by pose proof (Hi _ _ _ Hv E).
  - intros k1 k2 v. rewrite !lookup_insert_Some.
    intros [[<- <-]|[Hn1 H1]] [[<- E]|[Hn2 H2]]; [done| | |by eapply Hi].
    + specialize (Hb _ _ H2). lia.
    + specialize (Hb _ _ H1). lia.
Qed.

Lemma emitted_insert_keyed sc tname wc oc pk live pending staged st st' r t :
  keeps_clash oc ∨ live_ok (wc_owner wc) (rows t) live → table st.1 tname = Some t → vids_below st.1 →
  insert_keyed sc tname wc oc pk live pending staged st = (st', r) →
  emitted (wc_owner wc) st st'.
Proof.
  revert st live r t. induction staged as [|vals staged IH];
    intros st live r t Hoc Ht Hv; cbn [insert_keyed].
  { by intros [= <- <-]. }
  case_bool_decide; [by intros [= <- <-]|]. unfold comp_bind at 1.
  destruct (apply_insert_row _ _ _ _ _ _ st) as [st1 q] eqn:Ea.
  destruct (emitted_insert_row _ _ _ _ (live !! composite_key vals pk) _ _ _ _ _
    ltac:(destruct Hoc as [?|[Hl _]]; [by left|right; intros v; apply Hl]) Ht Hv Ea) as (He & t1 & Ht1 & Hap).
  pose proof (emitted_below _ _ _ He Hv) as Hv1.
  destruct q as [[row|]|e]; [| |by intros [= <- <-]].
  - destruct Hap as [Hk Hg]. unfold comp_bind.
    destruct (insert_keyed _ _ _ _ _ _ _ _ st1) as [st2 q] eqn:Eu. intros Hq.
    assert (st2 = st') as -> by (destruct q; by injection Hq). etrans; [exact He|].
    refine (IH _ _ _ t1 _ Ht1 Hv1 Eu). destruct Hoc as [?|Hl]; [by left|right].
    unfold last_vid, table_rows. rewrite Ht1. destruct Hg as (y & Hy & Hg). rewrite Hy.
    apply (live_ok_grown _ t); [done|done|done|]. by exists y.
  - cbn in Hap. subst t1. intros Hq. etrans; [exact He|]. exact (IH _ _ _ t Hoc Ht1 Hv1 Hq).
Qed.

(** The live keys of a table are those of the rows its writer sees at the published mark. *)
Lemma pk_index_live (s : Store) tname pk me k v :
  (pk_index s tname pk me).1 !! k = Some v →
  ∃ r, r ∈ table_rows s tname ∧ vid r = v ∧ composite_key (values r) pk = k ∧
    visible_to_writer r (committed_lsn s) me = true.
Proof.
  unfold pk_index. set (f := λ '(committed, pending) r, _).
  assert (∀ rs acc, (foldl f acc rs).1 !! k = Some v → acc.1 !! k = Some v ∨
    ∃ r, r ∈ rs ∧ vid r = v ∧ composite_key (values r) pk = k ∧ visible_to_writer r (committed_lsn s) me = true) as Hgo.
  { induction rs as [|r rs IH]; intros [c p]; [by left|]. cbn [foldl]. intros H. apply IH in H as [H|(x & Hx & H)].
    - unfold f in H. destruct (visible_to_writer r _ me) eqn:Ev; [|left; by destruct (foreign_insert me r)].
      cbn in H. apply lookup_insert_Some in H as [[<- <-]|[_ H]]; [|by left].
      right. exists r. split_and!; [left|done..].
    - right. exists x. split; [by right|done]. }
  intros H. apply Hgo in H as [H|H]; [cbn in H; by rewrite lookup_empty in H|done].
Qed.

(** Every row of the table its writer sees at the published mark is the writer's to delete. *)
Definition upsertable (o : Z) (s : Store) (tname : string) : Prop :=
  ∀ t r, table s tname = Some t → r ∈ rows t → visible_to_writer r (committed_lsn s) o = true → deletable o r.

Lemma increasing_unique rs r r' : increasing rs → r ∈ rs → r' ∈ rs → vid r = vid r' → r = r'.
Proof.
  unfold increasing. induction rs as [|x rs IH]; cbn; [by intros _ H%elem_of_nil|].
  intros [Hs Hlt]%StronglySorted_inv. rewrite Forall_fmap, Forall_forall in Hlt. cbn in Hlt.
  intros [->|Hr]%elem_of_cons [->|Hr']%elem_of_cons E; [done| | |by apply IH].
  - specialize (Hlt _ Hr'). lia.
  - specialize (Hlt _ Hr). lia.
Qed.

Lemma find_row_elem rs r : increasing rs → r ∈ rs → find_row (vid r) rs = Some r.
Proof.
  intros Hi Hr. destruct (find_row (vid r) rs) as [x|] eqn:E.
  - apply find_row_vid in E as [Hx Ex]. f_equal. by eapply increasing_unique.
  - exfalso. apply list_elem_of_In in Hr. pose proof (find_none _ _ E _ Hr) as H. cbn in H. by rewrite Z.eqb_refl in H.
Qed.

Lemma pk_index_ok (s : Store) tname pk o t :
  table s tname = Some t → increasing (rows t) → upsertable o s tname →
  live_ok o (rows t) (pk_index s tname pk o).1.
Proof.
  intros Ht Hi Hu. split.
  - intros k v H. apply pk_index_live in H as (r & Hr & <- & _ & Hv). unfold table_rows in Hr. rewrite Ht in Hr.
    exists r. split; [by apply find_row_elem|]. by eapply Hu.
  - intros k k' v H H'. apply pk_index_live in H as (r & Hr & Ev & <- & _).
    apply pk_index_live in H' as (r' & Hr' & Ev' & <- & _). unfold table_rows in *. rewrite Ht in *.
    assert (r = r') as ->; [|done]. eapply increasing_unique; [done..|congruence].
Qed.

Lemma emitted_autoinc o a tname (s : Store) wal : emitted o (s, wal) (table_mut (set_autoinc a) tname s, wal).
Proof.
  exists []. rewrite app_nil_r. split_and!; [done..| |done|]; cbn [fst snd].
  - rewrite (contents_table_mut _ id) by done. unfold on_rows. apply map_eq. intros i.
    destruct (decide (i = key tname)) as [->|Hne]; [|by rewrite lookup_alter_ne by congruence].
    rewrite lookup_alter_eq. change (pend_ops o (contents s) []) with (contents s).
    by destruct (contents s !! key tname) as [[sc rs]|].
  - intros Hv. by apply vids_below_alter.
Qed.

Lemma run_insert_left st wc (s s' : Store) r :
  keeps_clash (ins_conflict st) ∨ upsertable (wc_owner wc) s (ins_table st) → table_inv s →
  run_insert st wc s = (s', r) → left_by (wc_owner wc) s s' r.
Proof.
  intros Hoc Hinv. pose proof (proj2 Hinv) as Hv. unfold run_insert.
  destruct (table s (ins_table st)) as [t|] eqn:Et; [|intros [= <- <-]; by apply left_nothing].
  unfold comp_bind. destruct (build_insert_slots s (schema t) _ _ wc) as [slots|e];
    [|intros [= <- <-]; by apply left_nothing].
  unfold finalize_insert_rows.
  destruct (parse_exprs _ ≫= _) as [[staged a]|e]; [|intros [= <- <-]; by apply left_nothing].
  set (s1 := table_mut _ _ s). pose proof (emitted_autoinc (wc_owner wc) a (ins_table st) s []) as He1.
  assert (∀ q : Fault, (s1, Err q) = (s', r) → left_by (wc_owner wc) s s' r) as Hfail.
  { intros q [= <- <-]. eapply left_after; [exact He1|]. by apply left_nothing. }
  destruct (ins_rls st (schema t) ≫= _) as [[]|e]; [|apply Hfail].
  assert (table s1 (ins_table st) = Some (set_autoinc a t)) as Et1.
  { unfold table, s1. cbn. rewrite lookup_alter_eq. unfold table in Et. by rewrite Et. }
  pose proof (emitted_below _ _ _ He1 Hv) as Hv1. cbn [fst] in Hv1.
  destruct (match ins_conflict st with OCError => _ | _ => _ end) as [[]|e]; [|apply Hfail].
  unfold apply_insert. intros H. eapply left_after; [exact He1|]. eapply stmt_body_left; [exact H|].
  intros st' q. unfold comp_bind at 1.
  match goal with |- match ?b with _ => _ end = _ → _ => destruct b as [st1 q1] eqn:Eb end.
  intros Hm. assert (emitted (wc_owner wc) (s1, []) st1) as Hst1.
  { revert Eb. case_bool_decide; [exact (emitted_insert_plain _ _ _ (s1, []) _ _ _ Et1 Hv1)|].
    destruct (pk_index s1 _ _ _) as [live pending] eqn:Ep.
    eapply (emitted_insert_keyed _ _ _ _ _ _ _ _ _ _ _ (set_autoinc a t)); [|done|done].
    destruct Hoc as [?|Hu]; [by left|right]. replace live with (pk_index s1 (ins_table st) (primary_key_indices (schema t)) (wc_owner wc)).1 by by rewrite Ep.
    apply pk_index_ok; [done|apply (table_inv_rows _ _ _ Hinv Et)|].
    intros t' x Ht' Hx Hvis. rewrite Et1 in Ht'. injection Ht' as <-. by apply (Hu t). }
  destruct q1 as [new|e]; [|by injection Hm as <- _].
  etrans; [exact Hst1|]. eapply emitted_maintain; exact Hm.
Qed.

End Proofs.
