(* ===== verification/EngineInv.v ===== *)
(** * The engine as a transition system

    The steps connections take on a shared database: a writer takes the lane, runs statements that
    succeed or fail, goes back to savepoints, rolls back or queues its log records; the group-commit
    leader appends a prefix of the queue to storage and later publishes it, or rolls it back when the
    append failed; DDL runs alone.  Every step is built from the code's own operations, and steps of
    different connections interleave in any order the lane and the leader allow.

    Four things the code can do are left out, each of which breaks the agreement of rows and log the
    steps keep ([EngineDemo] and [ObjSpec] evaluate them): a writer that commits after a statement of
    it failed and left rows, which are in no log record; a ROLLBACK TO after operations on vids the
    savepoint recorded for rows of other tables; an upsert that takes over a row another writer in
    flight is deleting; an append that fails although its records became durable. *)

From S2P Require Import Prelude Text StorageTypes EngineTypes Funcs Wal WalSpec MvccStore Dml DmlProofs Recovery.
From S2P Require Import GroupCommit Conn.

Section Engine.
Context {VI : Type} `{!VectorIndexOps VI} {SelectStmt : Type} `{!SqlOps SelectStmt}.
Abbreviation Store := (Store VI SelectStmt).

(** ** Committed transactions *)

(** A transaction in the log: its operations and the LSN of its commit marker. *)
Abbreviation LogTxn := (list WalOp * Z)%type.

Definition replay_txn (s : Store) (tx : LogTxn) : Store :=
  let s := foldl (apply_replay tx.2) s tx.1 in
  with_committed (Z.max (committed_lsn s) tx.2) s.

Definition replay_txns (s : Store) (log : list LogTxn) : Store := foldl replay_txn s log.

(** Consecutive LSNs ending in the commit marker's. *)
Fixpoint number (first : Z) (records : list WalRecord) : list LogEntry :=
  match records with
  | [] => []
  | r :: records => mkEntry first r :: number (first + 1) records
  end.

Definition txn_entries (tx : LogTxn) : list LogEntry :=
  number (tx.2 - zlen tx.1) ((encode <$> tx.1) ++ [encode Commit]).

Definition log_entries (log : list LogTxn) : list LogEntry := concat (txn_entries <$> log).

(** ** The world *)

(** A batch that is durable but not yet published: its last LSN, its members as the leader
    gathered them, and their transactions. *)
Record Batch := mkBatch {
  b_last : Z;
  b_members : list (Z * Z * Z);
  b_txns : Txns
}.

Record World := mkWorld {
  w_store : Store;
  w_log : list LogTxn;
  w_batch : option Batch;
  w_queue : Txns;
  w_active : option (Z * Z * list WalOp);
  w_last : Z
}.

Definition init : World := mkWorld Store_default [] None [] None 0.

Definition batch_txns (b : option Batch) : Txns := match b with Some b => b_txns b | None => [] end.
Definition active_txns (a : option (Z * Z * list WalOp)) : Txns :=
  match a with Some (o, _, ops) => [(o, ops)] | None => [] end.

(** Every transaction with pending versions, in the order they ran. *)
Definition in_flight (w : World) : Txns :=
  batch_txns (w_batch w) ++ w_queue w ++ active_txns (w_active w).

(** The members the leader gathers for transactions: owner, and the records with the marker. *)
Definition gathered (ms : list (Z * Z * Z)) (B : Txns) : Prop :=
  Forall2 (λ m t, m.1.2 = t.1 ∧ m.2 = zlen t.2 + 1) ms B.

Definition total (ms : list (Z * Z * Z)) : Z := foldr (λ m n, m.2 + n) 0 ms.

(** The transactions of a batch at their commit LSNs. *)
Definition stamped (b : Batch) : list LogTxn :=
  zip_with (λ t m, (t.2, m.2)) (b_txns b)
    (commit_lsns (b_last b - total (b_members b) + 1) 0 (b_members b)).

(** A statement and its outcome.  Each runs with its own expression language, that of its session and
    its time; an upsert runs where the rows it may replace are not another writer's to delete. *)
Inductive statement (wc : WriteCtx) (s s' : Store) (r : Res Mutation) : Prop :=
| stmt_delete st (H : run_delete st wc s = (s', r))
| stmt_update (so : SqlOps SelectStmt) st (H : run_update (SqlOps0 := so) st wc s = (s', r))
| stmt_insert (so : SqlOps SelectStmt) st
    (Hc : keeps_clash (ins_conflict st) ∨ upsertable (wc_owner wc) s (ins_table st))
    (H : run_insert (SqlOps0 := so) st wc s = (s', r)).

Definition is_ddl (op : WalOp) : Prop :=
  match op with Insert _ _ _ | Delete _ _ | Commit => False | _ => True end.

(** What DDL does in memory: as recovery does, but it builds the index at once and has the
    view's query at hand. *)
Inductive live_ddl (l : Z) (s : Store) : WalOp → Store → Prop :=
| live_same op : is_ddl op → live_ddl l s op (apply_replay l s op)
| live_index d : live_ddl l s (CreateIndex d) (create_index d s)
| live_view name sql q : live_ddl l s (CreateView name sql) (insert_view name q s).

(** The vids a savepoint recorded name every row a writer had pending. *)
Definition covers (ins del : gset Z) (ops : list WalOp) : Prop :=
  Forall (λ op, match op with
                | Insert _ v _ => v ∈ ins
                | Delete _ v => v ∈ del
                | _ => True
                end) ops.

(** The operations of a writer since a savepoint name no vid of the savepoint's own sets. *)
Definition fresh_vids (ins del : gset Z) (ops : list WalOp) : Prop :=
  Forall (λ op, match op with
                | Insert _ v _ => v ∉ ins
                | Delete _ v => v ∉ del
                | _ => True
                end) ops.

(** In [step_stmt_failed], [wal] names what the failed statement left in the rows ([statement_left]: there
    is always such a list); the operations of the active writer are those it did, and [step_commit] queues
    the records of all of them. *)
Inductive step : World → World → Prop :=
| step_begin w o snap :
    w_active w = None → o ≠ 0 → o ∉ (in_flight w).*1 → snap ≤ committed_lsn (w_store w) →
    step w (mkWorld (w_store w) (w_log w) (w_batch w) (w_queue w) (Some (o, snap, [])) (w_last w))
| step_stmt w o snap ops s m :
    w_active w = Some (o, snap, ops) → statement (mkWriteCtx snap o) (w_store w) s (Ok m) →
    step w (mkWorld s (w_log w) (w_batch w) (w_queue w) (Some (o, snap, ops ++ mut_wal m)) (w_last w))
| step_stmt_failed w o snap ops s e wal :
    w_active w = Some (o, snap, ops) → statement (mkWriteCtx snap o) (w_store w) s (Err e) →
    emitted o (w_store w, []) (s, wal) →
    step w (mkWorld s (w_log w) (w_batch w) (w_queue w) (Some (o, snap, ops ++ wal)) (w_last w))
| step_abort w o snap ops s e :
    w_active w = Some (o, snap, ops) → statement (mkWriteCtx snap o) (w_store w) s (Err e) →
    step w (mkWorld (rollback_owner o s) (w_log w) (w_batch w) (w_queue w) None (w_last w))
| step_rollback w o snap ops :
    w_active w = Some (o, snap, ops) →
    step w (mkWorld (rollback_owner o (w_store w)) (w_log w) (w_batch w) (w_queue w) None (w_last w))
| step_rollback_to w o snap ops ops' ins del :
    w_active w = Some (o, snap, ops ++ ops') → covers ins del ops → fresh_vids ins del ops' →
    step w (mkWorld (rollback_to_savepoint o ins del (w_store w)) (w_log w) (w_batch w) (w_queue w)
              (Some (o, snap, ops)) (w_last w))
| step_commit w o snap ops :
    w_active w = Some (o, snap, ops) → ops ≠ [] →
    step w (mkWorld (w_store w) (w_log w) (w_batch w) (w_queue w ++ [(o, ops)]) None (w_last w))
| step_commit_empty w o snap :
    w_active w = Some (o, snap, []) →
    step w (mkWorld (w_store w) (w_log w) (w_batch w) (w_queue w) None (w_last w))
| step_append w B Q ms last :
    w_queue w = B ++ Q → B ≠ [] → w_batch w = None → gathered ms B →
    w_last w < last - total ms + 1 → last < PENDING →
    step w (mkWorld (w_store w) (w_log w) (Some (mkBatch last ms B)) Q (w_active w) last)
| step_publish w b :
    w_batch w = Some b →
    step w (mkWorld (publish (b_last b) (b_members b) (w_store w)).1 (w_log w ++ stamped b) None
              (w_queue w) (w_active w) (w_last w))
| step_append_failed w B Q ms e :
    w_queue w = B ++ Q → w_batch w = None → gathered ms B →
    step w (mkWorld (abort_batch e ms (w_store w)).1 (w_log w) None Q (w_active w) (w_last w))
| step_ddl w op l s :
    w_batch w = None → w_queue w = [] → w_active w = None → w_last w < l → l < PENDING →
    is_ddl op → live_ddl l (w_store w) op s →
    step w (mkWorld (with_committed (Z.max (committed_lsn s) l) s) (w_log w ++ [([op], l)]) None []
              None l)
| step_page w l :
    w_last w ≤ l → l < PENDING →
    step w (mkWorld (w_store w) (w_log w) (w_batch w) (w_queue w) (w_active w) l).

(** ** DDL reshapes rows but keeps their versions *)

Definition same_version (r r' : RowVersion) : Prop :=
  vid r' = vid r ∧ create_lsn r' = create_lsn r ∧ delete_lsn r' = delete_lsn r ∧ owner r' = owner r.

Definition reshaped (t t' : Table) : Prop :=
  next_vid t' = next_vid t ∧ Forall2 same_version (rows t) (rows t').

Lemma same_version_refl rs : Forall2 same_version rs rs.
Proof. by apply Forall_Forall2_diag, Forall_true. Qed.

Lemma reshaped_map g t t' :
  next_vid t' = next_vid t → rows t' = g <$> rows t → (∀ r, same_version r (g r)) → reshaped t t'.
Proof.
  intros Hn Hr Hg. split; [done|]. rewrite Hr.
  apply Forall2_fmap_r, Forall_Forall2_diag, Forall_true, Hg.
Qed.

Lemma reshaped_refl t t' : next_vid t' = next_vid t → rows t' = rows t → reshaped t t'.
Proof. intros Hn Hr. split; [done|]. rewrite Hr. apply same_version_refl. Qed.

Lemma map_Forall_table_mut (Q : Table → Prop) f n (s : Store) :
  map_Forall (λ _, Q) (tables s) → (∀ t, Q t → Q (f t)) → map_Forall (λ _, Q) (tables (table_mut f n s)).
Proof.
  intros Hs Hf k t Hk. cbn in Hk. destruct (decide (k = key n)) as [->|Hne].
  - rewrite lookup_alter_eq in Hk. destruct (tables s !! key n) as [t0|] eqn:E; [|done].
    injection Hk as <-. apply Hf, (Hs _ _ E).
  - rewrite lookup_alter_ne in Hk by done. apply (Hs _ _ Hk).
Qed.

(** A property of tables that holds of new ones and survives reshaping survives DDL. *)
Lemma ddl_preserves (Q : Table → Prop) l (s : Store) op :
  is_ddl op → (∀ sc, Q (Table_new sc)) → (∀ t t', reshaped t t' → Q t → Q t') →
  map_Forall (λ _, Q) (tables s) → map_Forall (λ _, Q) (tables (apply_replay l s op)).
Proof.
  intros Hd Hnew Hre Hs. assert (∀ f n, (∀ t, reshaped t (f t)) →
    map_Forall (λ _, Q) (tables (table_mut f n s))) as Hmut.
  { intros f n Hf. apply map_Forall_table_mut; [done|]. intros t. by apply Hre. }
  destruct op; try done; cbn [apply_replay apply_alter].
  - cbn. by apply map_Forall_insert_2.
  - cbn. by apply map_Forall_delete.
  - apply Hmut. intros t. by eapply (reshaped_map (λ r, set_values _ r)).
  - apply Hmut. intros t. destruct (column_index (schema t) column) as [i|]; [|by apply reshaped_refl].
    eapply (reshaped_map (λ r, if (i <? _)%nat then _ else _)); [done..|].
    intros r. by destruct (_ <? _)%nat.
  - apply Hmut. intros t. by destruct (column_index (schema t) from); apply reshaped_refl.
  - unfold rename_table. destruct (tables s !! key table) as [t|] eqn:E; [|done]. cbn.
    apply map_Forall_insert_2; [|by apply map_Forall_delete].
    eapply Hre; [by apply (reshaped_refl t) | apply (Hs _ _ E)].
  - destruct (parse_view sql); done.
  - apply Hmut. intros t. by apply reshaped_refl.
  - apply Hmut. intros t. by apply reshaped_refl.
  - apply Hmut. intros t. by apply reshaped_refl.
Qed.

(** ** DDL depends on the contents only *)

Lemma contents_mut_ext (f : Table → Table) n (s s' : Store) :
  (∀ t t', content t = content t' → content (f t) = content (f t')) →
  contents s = contents s' → contents (table_mut f n s) = contents (table_mut f n s').
Proof.
  intros Hf He. unfold contents in *. cbn. apply map_eq. intros i.
  apply (f_equal (lookup i)) in He. rewrite !lookup_fmap in *.
  destruct (decide (i = key n)) as [->|Hne]; [|by rewrite !lookup_alter_ne by congruence].
  rewrite !lookup_alter_eq. destruct (tables s !! key n) as [t|], (tables s' !! key n) as [t'|];
    cbn in He |- *; try done. f_equal. apply Hf. by apply (inj Some).
Qed.

Lemma content_inj t t' : content t = content t' → schema t = schema t' ∧ rows t = rows t'.
Proof. intros H. by injection H. Qed.

Lemma ddl_contents_ext l (s s' : Store) op :
  is_ddl op → contents s = contents s' →
  contents (apply_replay l s op) = contents (apply_replay l s' op).
Proof.
  intros Hd He. destruct op; try done; cbn [apply_replay apply_alter].
  3,4,5,8,9,10: try (apply contents_mut_ext; [|done]; intros t t' [Hs Hr]%content_inj;
    unfold content; cbn; rewrite ?Hs, ?Hr; try done).
  - unfold contents, insert_table in *. cbn. by rewrite !fmap_insert, He.
  - unfold contents, drop_table in *. cbn. by rewrite !fmap_delete, He.
  - by destruct (column_index _ _); cbn; rewrite ?Hs, ?Hr.
  - by destruct (column_index _ _); cbn; rewrite ?Hs, ?Hr.
  - unfold rename_table, contents in *. pose proof (f_equal (lookup (key table)) He) as Hk.
    rewrite !lookup_fmap in Hk.
    destruct (tables s !! key table) as [t|], (tables s' !! key table) as [t'|]; cbn in Hk; try done.
    injection Hk as Hs Hr. cbn. rewrite !fmap_insert, !fmap_delete, He. unfold content. cbn.
    by rewrite Hs, Hr.
  - by destruct (parse_view sql).
Qed.

Lemma live_ddl_contents l (s s' : Store) op :
  live_ddl l s op s' → contents s' = contents (apply_replay l s op)
    ∧ (∀ Q, map_Forall Q (tables (apply_replay l s op)) → map_Forall Q (tables s'))
    ∧ committed_lsn s' = committed_lsn s.
Proof.
  intros H. assert (∀ s op, committed_lsn (apply_replay l s op) = committed_lsn s) as Hc.
  { intros s1 op1. destruct op1; try done; cbn.
    - unfold rename_table. by case_match.
    - by case_match. }
  destruct H as [op Hd|d|name sql q].
  - split_and!; [done| |done]. done.
  - destruct (same_populate_index (ix_name d) (register_index d s)) as [Ht Hl]. split_and!.
    + unfold contents, create_index. rewrite Ht. done.
    + intros Q HQ. unfold create_index. by rewrite Ht.
    + unfold create_index. by rewrite Hl.
  - split_and!; [|intros Q|done]; cbn; destruct (parse_view sql); done.
Qed.

End Engine.

(** * The invariant of the engine's steps

    The contents of the store are those of the replayed log with the operations of the
    transactions in flight pending on top, in the order they ran. *)

Section Invariant.
Context {VI : Type} `{!VectorIndexOps VI} {SelectStmt : Type} `{!SqlOps SelectStmt}.
Abbreviation Store := (Store VI SelectStmt).
Abbreviation World := (@World VI SelectStmt).

(** The store a recovery from the published log yields. *)
Definition recovered (w : World) : Store := replay_txns Store_default (w_log w).

(** The published log of operations that are all real, not markers. *)
Definition no_marker (log : list (list WalOp * Z)) : Prop := Forall (λ tx, Commit ∉ tx.1) log.

Definition batch_ok (w : World) : Prop :=
  match w_batch w with
  | None => True
  | Some b => gathered (b_members b) (b_txns b) ∧ b_txns b ≠ [] ∧
              committed_lsn (w_store w) < b_last b - total (b_members b) + 1 ∧ b_last b ≤ w_last w
  end.

(** The committed state: nobody owns a row, and vids increase. *)
Definition settled (C : Contents) : Prop := each_table committed C ∧ each_table increasing C.

(** Stamps are at most [L], or pending. *)
Definition bounded (L : Z) (rs : list RowVersion) : Prop :=
  Forall (λ r, (create_lsn r ≤ L ∨ create_lsn r = PENDING) ∧
               (delete_lsn r ≤ L ∨ delete_lsn r = PENDING)) rs.

(** Stamps are at most [L]. *)
Definition stamped_to (L : Z) (rs : list RowVersion) : Prop :=
  Forall (λ r, create_lsn r ≤ L ∧ delete_lsn r ≤ L) rs.

Record Inv (w : World) : Prop := mkInv {
  inv_contents : contents (w_store w) = pend_txns (contents (recovered w)) (in_flight w);
  inv_ok : ok_txns (contents (recovered w)) (in_flight w);
  inv_nodup : NoDup (in_flight w).*1;
  inv_nonzero : 0 ∉ (in_flight w).*1;
  inv_settled : settled (contents (recovered w));
  inv_below : vids_below (w_store w);
  inv_lsn : 0 ≤ committed_lsn (w_store w) ≤ w_last w ∧ w_last w < PENDING;
  inv_committed : committed_lsn (recovered w) = committed_lsn (w_store w);
  inv_bounded : each_table (stamped_to (committed_lsn (recovered w))) (contents (recovered w));
  inv_batch : batch_ok w;
  inv_marker : no_marker (w_log w)
}.

Lemma settled_rows_inv C : settled C → each_table rows_inv C.
Proof.
  intros [Hc Hi] k [sc rs] Hk. split; [apply (Hi _ _ Hk)|].
  eapply Forall_impl; [apply (Hc _ _ Hk)|]. intros r Hr Hn. done.
Qed.

Lemma inv_table_inv (w : World) : Inv w → table_inv (w_store w).
Proof.
  intros H. split; [|apply H]. rewrite (inv_contents w H).
  apply rows_inv_pend_txns; [apply settled_rows_inv, H | apply H].
Qed.

Lemma settled_unowned o C : o ≠ 0 → settled C → each_table (unowned o) C.
Proof. intros Ho [Hc _]. by apply committed_unowned. Qed.

(** ** Stamps *)

Lemma stamped_mono L L' rs : L ≤ L' → stamped_to L rs → stamped_to L' rs.
Proof. intros HL H. eapply Forall_impl; [exact H|]. cbn. lia. Qed.

Lemma stamped_commit_ops L l C ops :
  0 ≤ l → L ≤ l → each_table (stamped_to L) C → each_table (stamped_to l) (commit_ops l C ops).
Proof.
  intros H0 HL HC. assert (each_table (stamped_to l) C) as HC'.
  { eapply each_table_impl; [exact HC|]. intros rs. by apply stamped_mono. }
  clear HC. revert C HC'. induction ops as [|op ops IH]; intros C HC; [done|]. apply IH.
  apply each_table_on_rows; [done|]. intros _ rs _ Hr. destruct op; try done; cbn.
  - apply Forall_app. split; [done|]. constructor; [|done]. cbn. lia.
  - apply Forall_update_first; [done|]. cbn. intros r [? _]. split; [done|]. cbn. lia.
Qed.

Lemma stamped_bounded L rs : stamped_to L rs → bounded L rs.
Proof. unfold stamped_to, bounded. intros H. eapply Forall_impl; [exact H|]. cbn. intros r []. auto. Qed.

Lemma bounded_pend_ops L o C ops :
  0 ≤ L → each_table (bounded L) C → each_table (bounded L) (pend_ops o C ops).
Proof.
  intros H0. revert C. induction ops as [|op ops IH]; intros C HC; [done|]. apply IH.
  apply each_table_on_rows; [done|]. intros _ rs _ Hr. destruct op; try done; cbn.
  - apply Forall_app. split; [done|]. constructor; [|done]. cbn. split; [by right | left; lia].
  - apply Forall_update_first; [done|]. cbn. intros r [? _]. split; [done|]. by right.
Qed.

Lemma bounded_pend_txns L C P :
  0 ≤ L → each_table (bounded L) C → each_table (bounded L) (pend_txns C P).
Proof.
  intros H0. revert C. induction P as [|t P IH]; intros C HC; [done|]. apply IH.
  by apply bounded_pend_ops.
Qed.

(** ** Vids stay below their counters *)

Lemma vids_below_map (f : Table → Table) (s s' : Store) :
  tables s' = f <$> tables s →
  (∀ t, next_vid (f t) = next_vid t ∧ (vid <$> rows (f t)) `sublist_of` (vid <$> rows t)) →
  vids_below s → vids_below s'.
Proof.
  intros Ht Hf Hs k t Hk. rewrite Ht, lookup_fmap in Hk.
  destruct (tables s !! k) as [t0|] eqn:E; [|done]. injection Hk as <-.
  destruct (Hf t0) as [-> Hsub]. specialize (Hs _ _ E). cbn in Hs.
  assert (Forall (λ v, v < next_vid t0) (vid <$> rows t0)) as Hs' by by apply Forall_fmap.
  assert (Forall (λ v, v < next_vid t0) (vid <$> rows (f t0))) as Hf'.
  { apply Forall_forall. intros v Hv. rewrite Forall_forall in Hs'. apply Hs'.
    by eapply elem_of_submseteq, sublist_submseteq. }
  by apply Forall_fmap in Hf'.
Qed.

Lemma vids_finalize o l (rs : list RowVersion) : vid <$> (finalize_row o l <$> rs) = vid <$> rs.
Proof. rewrite <- list_fmap_compose. apply list_fmap_ext. intros. cbn. apply vid_finalize. Qed.

Lemma vids_below_finalize o l (s : Store) : vids_below s → vids_below (finalize_owner o l s).
Proof.
  apply (vids_below_map (finalize_table o l)); [apply finalize_owner_tables|]. intros t.
  split; [done|]. cbn. by rewrite vids_finalize.
Qed.

Lemma vids_below_rollback o (s : Store) : vids_below s → vids_below (rollback_owner o s).
Proof.
  apply (vids_below_map (rollback_table o)); [apply rollback_owner_tables|]. intros t.
  split; [done|]. cbn. change (undo_delete o <$> _) with (rollback_rows o (rows t)).
  rewrite rollback_rows_omap. induction (rows t) as [|r rs IH]; [done|]. cbn.
  destruct (rollback_row o r) as [r'|] eqn:E; cbn.
  - rewrite (vid_rollback_row _ _ _ E). by apply sublist_skip.
  - by apply sublist_cons.
Qed.

(** ** Savepoints *)

Definition restore_rows (o : Z) (ins del : gset Z) (rs : list RowVersion) : list RowVersion :=
  undo_delete_since o del <$> filter (λ r, since_savepoint o ins r = false) rs.

Lemma contents_restore o ins del (s : Store) :
  contents (rollback_to_savepoint o ins del s) = all_tables (restore_rows o ins del) (contents s).
Proof. by apply (contents_map_tables (λ t, set_rows _ t)). Qed.

Definition restore_row (o : Z) (ins del : gset Z) (r : RowVersion) : option RowVersion :=
  if since_savepoint o ins r then None else Some (undo_delete_since o del r).

Lemma restore_rows_omap o ins del rs : restore_rows o ins del rs = omap (restore_row o ins del) rs.
Proof.
  unfold restore_rows, restore_row. induction rs as [|r rs IH]; [done|].
  rewrite filter_cons. cbn [omap list_omap].
  destruct (since_savepoint o ins r); cbn [decide]; rewrite <- IH; done.
Qed.

Lemma restore_marked o ins del r :
  o ≠ 0 → row_wf r → deletable o r → vid r ∉ del →
  restore_row o ins del (mark_deleted o r) = restore_row o ins del r.
Proof.
  intros Ho Hwf [Hd Hw] Hv. unfold restore_row, since_savepoint, undo_delete_since, pending_insert,
    pending_delete. cbn. rewrite Z.eqb_refl, Hd. cbn.
  rewrite (bool_decide_eq_false_2 _ Hv). cbn.
  destruct Hw as [Hw|[Hw Hc]].
  - destruct (Hwf ltac:(congruence)) as [Hc|Hc]; [|rewrite Hd in Hc; discriminate Hc].
    rewrite Hw, Hc, Z.eqb_refl. cbn. rewrite Z.eqb_refl. cbn. destruct (negb _); [done|].
    f_equal. destruct r; cbn in *. by subst.
  - rewrite (proj2 (Z.eqb_neq _ _) Hc), Hw. destruct r; cbn in *. subst. by destruct o.
Qed.

Lemma restore_pend_rows o ins del op rs :
  o ≠ 0 → Forall row_wf rs → ok_rows o op rs → fresh_vids ins del [op] →
  restore_rows o ins del (pend_rows o op rs) = restore_rows o ins del rs.
Proof.
  intros Ho Hwf Hok Hf. unfold fresh_vids in Hf. rewrite Forall_singleton in Hf.
  rewrite !restore_rows_omap.
  case_dml op; cbn [pend_rows ok_rows] in *.
  - rewrite omap_app. cbn. unfold restore_row at 2. unfold since_savepoint, pending_insert. cbn.
    rewrite Z.eqb_refl, (bool_decide_eq_false_2 _ Hf). cbn. by rewrite app_nil_r.
  - destruct Hok as (r & Hr & Hd). unfold find_row in Hr. induction Hwf as [|x rs Hx Hwf IH]; [done|].
    cbn in *. destruct (Z.eqb_spec (vid x) v) as [Ev|Ev]; cbn.
    + injection Hr as ->. rewrite restore_marked by (done || by rewrite Ev). done.
    + destruct (restore_row o ins del x); by rewrite IH.
Qed.

Lemma restore_pend_ops o ins del C ops :
  o ≠ 0 → each_table rows_inv C → ok_ops o C ops → fresh_vids ins del ops →
  all_tables (restore_rows o ins del) (pend_ops o C ops) = all_tables (restore_rows o ins del) C.
Proof.
  intros Ho. revert C. induction ops as [|op ops IH]; intros C HC Hok Hf; [done|].
  destruct Hok as [Hop Hok]. apply Forall_cons in Hf as [Hf1 Hf].
  change (pend_ops o C (op :: ops)) with (pend_ops o (pend_op o C op) ops).
  rewrite IH; [|by apply rows_inv_pend_op | done..].
  destruct Hop as (sc & rs & Hk & Hop). apply map_eq. intros i.
  unfold all_tables, pend_op, on_rows. rewrite !lookup_fmap.
  destruct (decide (i = op_key op)) as [->|Hne]; [|by rewrite lookup_alter_ne].
  rewrite lookup_alter_eq, Hk. cbn [fmap option_fmap option_map]. unfold prod_map. cbn [fst snd id].
  rewrite restore_pend_rows; [done..| |done|by apply Forall_singleton]. apply (HC _ _ Hk).
Qed.

(** At the savepoint there is nothing to undo: its vids name what is pending. *)
Definition kept (o : Z) (ins del : gset Z) (rs : list RowVersion) : Prop :=
  Forall (λ r, restore_row o ins del r = Some r) rs.

Lemma kept_restore o ins del rs : kept o ins del rs → restore_rows o ins del rs = rs.
Proof. rewrite restore_rows_omap. induction 1 as [|r rs Hr _ IH]; [done|]. cbn. by rewrite Hr, IH. Qed.

Lemma kept_unowned o ins del rs : unowned o rs → kept o ins del rs.
Proof.
  intros H. eapply Forall_impl; [exact H|]. intros r Hr.
  unfold restore_row, since_savepoint, undo_delete_since, pending_insert, pending_delete.
  by rewrite (proj2 (Z.eqb_neq _ _) Hr).
Qed.

Lemma kept_marked o ins del r :
  restore_row o ins del r = Some r → deletable o r → vid r ∈ del →
  restore_row o ins del (mark_deleted o r) = Some (mark_deleted o r).
Proof.
  unfold restore_row, since_savepoint, undo_delete_since, pending_insert, pending_delete.
  intros Hr [Hd Hw] Hv. cbn. rewrite !Z.eqb_refl, (bool_decide_eq_true_2 _ Hv). cbn.
  destruct Hw as [Hw|[Hw Hc]].
  - rewrite Hw, Z.eqb_refl in Hr. cbn in Hr. by destruct (_ && _) in Hr |- *.
  - by rewrite (proj2 (Z.eqb_neq _ _) Hc).
Qed.

Lemma kept_pend_rows o ins del op rs :
  kept o ins del rs → ok_rows o op rs → covers ins del [op] → kept o ins del (pend_rows o op rs).
Proof.
  intros Hk Hok Hc. unfold covers in Hc. rewrite Forall_singleton in Hc.
  case_dml op; cbn [pend_rows ok_rows] in *.
  - apply Forall_app. split; [done|]. constructor; [|done].
    unfold restore_row, since_savepoint, undo_delete_since, pending_insert, pending_delete. cbn.
    by rewrite Z.eqb_refl, (bool_decide_eq_true_2 _ Hc).
  - destruct Hok as (r & Hr & Hd). unfold find_row in Hr. induction Hk as [|x rs Hx Hk IH]; [done|].
    cbn in *. destruct (Z.eqb_spec (vid x) v) as [Ev|Ev]; cbn.
    + injection Hr as ->. constructor; [|done]. apply kept_marked; [done..|by rewrite Ev].
    + constructor; [done|]. by apply IH.
Qed.

Lemma kept_pend_ops o ins del C ops :
  each_table (kept o ins del) C → ok_ops o C ops → covers ins del ops →
  each_table (kept o ins del) (pend_ops o C ops).
Proof.
  revert C. induction ops as [|op ops IH]; intros C HC Hok Hc; [done|].
  destruct Hok as [(sc & rs & Hk & Hop) Hok]. apply Forall_cons in Hc as [Hc1 Hc].
  apply IH; [|done..]. apply each_table_on_rows; [done|]. intros sc' rs' Hk' Hr. rewrite Hk in Hk'.
  injection Hk' as <- <-. apply kept_pend_rows; [done..|by apply Forall_singleton].
Qed.

(** ROLLBACK TO leaves the operations up to the savepoint. *)
Lemma restore_since o ins del C ops ops' :
  o ≠ 0 → each_table (unowned o) C → each_table rows_inv C → ok_ops o C (ops ++ ops') →
  covers ins del ops → fresh_vids ins del ops' →
  all_tables (restore_rows o ins del) (pend_ops o C (ops ++ ops')) = pend_ops o C ops.
Proof.
  intros Ho HC Hi Hok Hc Hf. apply ok_ops_app in Hok as [Hok Hok']. rewrite pend_ops_app, restore_pend_ops;
    [|done|by apply rows_inv_pend_ops|done..].
  apply all_tables_id. eapply each_table_impl; [|apply kept_restore]. apply kept_pend_ops; [|done..].
  eapply each_table_impl; [exact HC|]. intros rs. apply kept_unowned.
Qed.

Lemma vids_below_restore o ins del (s : Store) : vids_below s → vids_below (rollback_to_savepoint o ins del s).
Proof.
  apply (vids_below_map (λ t, set_rows (restore_rows o ins del (rows t)) t)); [done|]. intros t.
  split; [done|]. cbn. rewrite restore_rows_omap. induction (rows t) as [|r rs IH]; [done|]. cbn.
  unfold restore_row at 1. destruct (since_savepoint o ins r); cbn; [by apply sublist_cons|].
  replace (vid (undo_delete_since o del r)) with (vid r); [by apply sublist_skip|].
  unfold undo_delete_since. destruct (_ && _); [|done]. cbn. by destruct (_ =? _).
Qed.

(** ** Publishing a batch *)

(** The log operations of statements, as recovery applies them. *)
Lemma contents_replay_ops l (s : Store) o ops C :
  contents s = C → ok_ops o C ops → contents (foldl (apply_replay l) s ops) = commit_ops l C ops.
Proof.
  revert s C. intros s C <- Hok.
  assert (Forall (λ op, (∃ t v vals, op = Insert t v vals) ∨ (∃ t v, op = Delete t v)) ops) as HF.
  { clear -Hok. revert Hok. generalize (contents s). induction ops as [|op ops IH]; intros C Hok; [done|].
    destruct Hok as [(sc & rs & _ & Hop) Hok]. constructor; [|by eapply IH].
    case_dml op; naive_solver. }
  clear Hok. revert s. induction HF as [|op ops Hop _ IH]; intros s; [done|].
  cbn [foldl]. rewrite IH, contents_replay_dml by done. done.
Qed.

Lemma contents_with_committed l (s : Store) : contents (with_committed l s) = contents s.
Proof. done. Qed.

Lemma foldl_replay_committed l (s : Store) o C ops :
  ok_ops o C ops → committed_lsn (foldl (apply_replay l) s ops) = committed_lsn s.
Proof.
  revert s C. induction ops as [|op ops IH]; intros s C Hok; [done|].
  destruct Hok as [(sc & rs & _ & Hop) Hok]. cbn [foldl]. rewrite (IH _ _ Hok). by case_dml op.
Qed.

Lemma settled_commit_ops o l C ops :
  o ≠ 0 → settled C → ok_ops o C ops → settled (commit_ops l C ops).
Proof.
  intros Ho HC Hok. split; [apply committed_commit_ops, HC|].
  eapply increasing_commit_ops; [done| by apply settled_unowned | apply HC | done].
Qed.

Lemma ok_ops_no_marker o C ops : ok_ops o C ops → Commit ∉ ops.
Proof.
  revert C. induction ops as [|op ops IH]; intros C Hok; [by apply not_elem_of_nil|].
  destruct Hok as [(sc & rs & _ & Hop) Hok]. apply not_elem_of_cons. split; [|by eapply IH].
  intros <-. done.
Qed.

Lemma total_nonneg ms B : gathered ms B → 0 ≤ total ms.
Proof.
  unfold total. induction 1 as [|m t ms B [_ Hm] _ IH]; cbn; [lia|].
  rewrite Hm. pose proof (zlen_nonneg t.2). lia.
Qed.

(** Publishing the transactions of a batch one by one keeps the rest of the queue pending on the
    store that recovery rebuilds from the longer log. *)
Lemma publish_fold (s R : Store) first acc ms B Q :
  gathered ms B → NoDup (B ++ Q).*1 → 0 ∉ (B ++ Q).*1 →
  settled (contents R) → ok_txns (contents R) (B ++ Q) →
  contents s = pend_txns (contents R) (B ++ Q) → vids_below s →
  0 ≤ committed_lsn R < first + acc → each_table (stamped_to (committed_lsn R)) (contents R) →
  let st := commit_lsns first acc ms in
  let s' := foldl (λ s '(_, o, l), finalize_owner o l s) s st in
  let R' := replay_txns R (zip_with (λ t m, (t.2, m.2)) B st) in
  contents s' = pend_txns (contents R') Q ∧ ok_txns (contents R') Q ∧ settled (contents R') ∧
  vids_below s' ∧ committed_lsn s' = committed_lsn s ∧
  (B ≠ [] → committed_lsn R' = first + acc + total ms - 1) ∧
  each_table (stamped_to (committed_lsn R')) (contents R') ∧
  no_marker (zip_with (λ t m, (t.2, m.2)) B st).
Proof.
  intros Hg. revert s R acc. induction Hg as [|[[id o] n] [p ops] ms B [Ho Hn] Hg IH];
    intros s R acc Hnd Hz HC Hok Hs Hv Hlt Hbd; [cbn; split_and!; try done; constructor|].
  cbn in Ho, Hn. subst p n. cbn [app fmap list_fmap fst] in *.
  apply NoDup_cons in Hnd as [Hin Hnd]. rewrite not_elem_of_cons in Hz. destruct Hz as [Hz0 Hz].
  set (l := first + (acc + (zlen ops + 1)) - 1). assert (o ≠ 0) as Ho by congruence.
  pose proof Hok as [Hops Hok']. cbn [fst snd] in Hops, Hok'.
  destruct (finalize_txn o l (contents R) ops (B ++ Q)) as [He Hok1];
    [done| done | by apply settled_unowned | done |].
  assert (contents (replay_txn R (ops, l)) = commit_ops l (contents R) ops) as HR.
  { unfold replay_txn. rewrite contents_with_committed. by apply (contents_replay_ops _ _ o). }
  pose proof (zlen_nonneg ops).
  assert (committed_lsn (replay_txn R (ops, l)) = l) as Hl.
  { unfold replay_txn. cbn. rewrite (foldl_replay_committed _ _ o _ _ Hops). lia. }
  cbn zeta in *. cbn [commit_lsns foldl zip_with]. fold l.
  change (replay_txns R ((ops, l) :: ?k)) with (replay_txns (replay_txn R (ops, l)) k).
  destruct (IH (finalize_owner o l s) (replay_txn R (ops, l)) (acc + (zlen ops + 1)))
    as (H1 & H2 & H3 & H4 & H5 & H6 & H7 & H8).
  - done.
  - done.
  - rewrite HR. by apply (settled_commit_ops o).
  - by rewrite HR.
  - by rewrite contents_finalize, Hs, He, HR.
  - by apply vids_below_finalize.
  - rewrite Hl. lia.
  - rewrite Hl, HR. apply (stamped_commit_ops (committed_lsn R)); [lia..|done].
  - split_and!; [done..| | |done|].
    + rewrite H5. apply finalize_owner_tables.
    + intros _. destruct B as [|b B].
      * inversion Hg. subst ms. transitivity l; [exact Hl|]. unfold l, total. cbn [foldr snd]. lia.
      * etrans; [by apply H6|]. unfold total. cbn [foldr snd]. lia.
    + constructor; [|done]. by apply (ok_ops_no_marker o (contents R)).
Qed.

(** ** Rolling back a batch *)

Lemma abort_fold (s : Store) C ms B Q :
  gathered ms B → NoDup (B ++ Q).*1 → 0 ∉ (B ++ Q).*1 → settled C → ok_txns C (B ++ Q) →
  contents s = pend_txns C (B ++ Q) → vids_below s →
  let s' := foldl (λ s '(_, o, _), rollback_owner o s) s ms in
  contents s' = pend_txns C Q ∧ ok_txns C Q ∧ vids_below s' ∧ committed_lsn s' = committed_lsn s.
Proof.
  intros Hg. revert s. induction Hg as [|[[id o] n] [p ops] ms B [Ho Hn] Hg IH];
    intros s Hnd Hz HC Hok Hs Hv; [done|].
  cbn in Ho. subst p. cbn [app fmap list_fmap fst] in *.
  apply NoDup_cons in Hnd as [Hin Hnd]. rewrite not_elem_of_cons in Hz. destruct Hz as [Hz0 Hz].
  assert (o ≠ 0) as Ho by congruence.
  destruct (rollback_txn o C [] ops (B ++ Q)) as [He Hok'];
    [done | by apply not_elem_of_nil | done | by apply settled_unowned | by apply settled_rows_inv | done |].
  cbn zeta in *. cbn [foldl].
  destruct (IH (rollback_owner o s)) as (H1 & H2 & H3 & H4); [done..| | |].
  - rewrite contents_rollback, Hs. exact He.
  - by apply vids_below_rollback.
  - split_and!; [done..|]. rewrite H4. apply rollback_owner_tables.
Qed.

(** ** Every step keeps the invariant *)

Lemma inv_init : Inv (init : World).
Proof.
  split; cbn; try done.
  - constructor.
  - by apply not_elem_of_nil.
  - constructor.
Qed.

(** Replacing the active transaction of the world by another one at the end of the order. *)
Lemma in_flight_active (w : World) a :
  w_active w = a → in_flight w = (batch_txns (w_batch w) ++ w_queue w) ++ active_txns a.
Proof. intros <-. unfold in_flight. by rewrite app_assoc. Qed.

Lemma statement_left wc (s s' : Store) r :
  table_inv s → statement wc s s' r → left_by (wc_owner wc) s s' r.
Proof.
  intros Hinv [st H|so st H|so st Hc H];
    [by eapply run_delete_left | by eapply run_update_left | by eapply run_insert_left].
Qed.

Lemma statement_emitted wc (s s' : Store) m :
  table_inv s → statement wc s s' (Ok m) → emitted (wc_owner wc) (s, []) (s', mut_wal m).
Proof. intros Hinv Hst. destruct (statement_left _ _ _ _ Hinv Hst) as (wal & He & Hm). by rewrite (Hm m eq_refl). Qed.

(** The active writer's statements so far, with more operations emitted. *)
Lemma inv_emitted (w : World) o snap ops s wal :
  Inv w → w_active w = Some (o, snap, ops) → emitted o (w_store w, []) (s, wal) →
  Inv (mkWorld s (w_log w) (w_batch w) (w_queue w) (Some (o, snap, ops ++ wal)) (w_last w)).
Proof.
  intros H Ha (new & Hw & Hok & Hc & Hl & Hv). cbn in *. subst new.
  destruct H as [H1 H2 H3 H4 H5 H6 H7 H8 HB9 H9 H10]. rewrite (in_flight_active w _ Ha) in H1, H2, H3, H4.
  cbn in H1, H2. rewrite pend_txns_app in H1. apply ok_txns_app in H2 as [H2 [H2' _]]. cbn in H1, H2'.
  split; cbn [w_store w_log w_batch w_queue w_active w_last]; try done.
  - unfold in_flight. cbn. rewrite app_assoc, pend_txns_app, Hc, H1. cbn.
    change (foldl (pend_op o) ?c (ops ++ wal)) with (pend_ops o c (ops ++ wal)).
    by rewrite pend_ops_app.
  - unfold in_flight. cbn. rewrite app_assoc. apply ok_txns_app. split; [done|]. cbn. split; [|done].
    apply ok_ops_app. split; [done|]. by rewrite H1 in Hok.
  - unfold in_flight. cbn. rewrite app_assoc, fmap_app. by rewrite fmap_app in H3.
  - unfold in_flight. cbn. rewrite app_assoc, fmap_app. by rewrite fmap_app in H4.
  - auto.
  - by rewrite Hl.
  - by rewrite Hl.
  - unfold batch_ok in *. cbn in *. by rewrite Hl.
Qed.

Lemma inv_stmt (w : World) o snap ops s m :
  Inv w → w_active w = Some (o, snap, ops) → statement (mkWriteCtx snap o) (w_store w) s (Ok m) →
  Inv (mkWorld s (w_log w) (w_batch w) (w_queue w) (Some (o, snap, ops ++ mut_wal m)) (w_last w)).
Proof.
  intros H Ha Hst. apply (inv_emitted w o snap ops s (mut_wal m) H Ha).
  exact (statement_emitted _ _ _ _ (inv_table_inv w H) Hst).
Qed.

Lemma inv_begin (w : World) o snap :
  Inv w → w_active w = None → o ≠ 0 → o ∉ (in_flight w).*1 →
  Inv (mkWorld (w_store w) (w_log w) (w_batch w) (w_queue w) (Some (o, snap, [])) (w_last w)).
Proof.
  intros H Ha Ho Hn. destruct H as [H1 H2 H3 H4 H5 H6 H7 H8 HB9 H9 H10].
  rewrite (in_flight_active w _ Ha) in *. cbn in *. rewrite app_nil_r in *.
  split; cbn [w_store w_log w_batch w_queue w_active w_last]; try done;
    unfold in_flight; cbn; rewrite app_assoc.
  - by rewrite pend_txns_app.
  - by apply ok_txns_app.
  - rewrite fmap_app. apply NoDup_app. split_and!; [done| |apply NoDup_singleton].
    intros x Hx ->%list_elem_of_singleton. done.
  - rewrite fmap_app, not_elem_of_app. split; [done|]. cbn. rewrite list_elem_of_singleton. congruence.
Qed.

Lemma inv_rollback (w : World) o snap ops :
  Inv w → w_active w = Some (o, snap, ops) →
  Inv (mkWorld (rollback_owner o (w_store w)) (w_log w) (w_batch w) (w_queue w) None (w_last w)).
Proof.
  intros H Ha. destruct H as [H1 H2 H3 H4 H5 H6 H7 H8 HB9 H9 H10].
  rewrite (in_flight_active w _ Ha) in *. cbn [active_txns] in *. rewrite fmap_app in H3, H4. cbn in H3, H4.
  apply NoDup_app in H3 as (H3 & Hd & _). apply not_elem_of_app in H4 as [H4 H4'].
  assert (o ≠ 0) as Ho. { intros ->. apply H4'. left. }
  assert (o ∉ (batch_txns (w_batch w) ++ w_queue w).*1) as Hn.
  { intros Hx. apply (Hd _ Hx). left. }
  destruct (rollback_txn o (contents (recovered w)) (batch_txns (w_batch w) ++ w_queue w) ops []) as [He Hok'];
    [done | exact Hn | by apply not_elem_of_nil | by apply settled_unowned
    | by apply settled_rows_inv | exact H2 |].
  destruct (rollback_owner_tables o (w_store w)) as [_ Hl].
  rewrite app_nil_r in He, Hok'.
  split; cbn [w_store w_log w_batch w_queue w_active w_last]; unfold in_flight; cbn; rewrite ?app_nil_r; try done.
  - by rewrite contents_rollback, H1.
  - by apply vids_below_rollback.
  - by rewrite Hl.
  - by rewrite Hl.
  - unfold batch_ok in *. cbn in *. by rewrite Hl.
Qed.

(** The active writer goes back to a savepoint. *)
Lemma inv_rollback_to (w : World) o snap ops ops' ins del :
  Inv w → w_active w = Some (o, snap, ops ++ ops') → covers ins del ops → fresh_vids ins del ops' →
  Inv (mkWorld (rollback_to_savepoint o ins del (w_store w)) (w_log w) (w_batch w) (w_queue w)
         (Some (o, snap, ops)) (w_last w)).
Proof.
  intros H Ha Hc Hf. destruct H as [H1 H2 H3 H4 H5 H6 H7 H8 HB9 H9 H10].
  rewrite (in_flight_active w _ Ha) in *. cbn [active_txns] in *. rewrite fmap_app in H3, H4. cbn in H3, H4.
  apply NoDup_app in H3 as (H3 & Hd & Hn). apply not_elem_of_app in H4 as [H4 H4'].
  assert (o ≠ 0) as Ho. { intros ->. apply H4'. left. }
  assert (o ∉ (batch_txns (w_batch w) ++ w_queue w).*1) as Hno. { intros Hx. apply (Hd _ Hx). left. }
  rewrite pend_txns_app in H1. apply ok_txns_app in H2 as [H2 [H2' _]]. cbn in H1, H2'.
  assert (contents (rollback_to_savepoint o ins del (w_store w))
    = pend_ops o (pend_txns (contents (recovered w)) (batch_txns (w_batch w) ++ w_queue w)) ops) as Hr.
  { rewrite contents_restore, H1. apply restore_since; [done| | |done..].
    - by apply unowned_pend_txns, settled_unowned.
    - apply rows_inv_pend_txns; [by apply settled_rows_inv|done]. }
  apply ok_ops_app in H2' as [H2' _].
  split; cbn [w_store w_log w_batch w_queue w_active w_last]; try done;
    unfold in_flight; cbn [w_batch w_queue w_active active_txns]; rewrite ?app_assoc.
  - rewrite pend_txns_app. exact Hr.
  - by apply ok_txns_app.
  - rewrite fmap_app. by apply NoDup_app.
  - rewrite fmap_app. by apply not_elem_of_app.
  - by apply vids_below_restore.
Qed.

(** A failed statement that is rolled back with its transaction. *)
Lemma inv_abort (w : World) o snap ops s e :
  Inv w → w_active w = Some (o, snap, ops) → statement (mkWriteCtx snap o) (w_store w) s (Err e) →
  Inv (mkWorld (rollback_owner o s) (w_log w) (w_batch w) (w_queue w) None (w_last w)).
Proof.
  intros H Ha Hst. destruct (statement_left _ _ _ _ (inv_table_inv w H) Hst) as (wal & He & _).
  exact (inv_rollback _ o snap (ops ++ wal) (inv_emitted w o snap ops s wal H Ha He) eq_refl).
Qed.

Lemma in_flight_batch_queue (w : World) B Q :
  w_batch w = None → w_queue w = B ++ Q → in_flight w = B ++ (Q ++ active_txns (w_active w)).
Proof. intros Hb Hq. unfold in_flight. rewrite Hb, Hq. cbn. by rewrite app_assoc. Qed.

Lemma inv_append (w : World) B Q ms last :
  Inv w → w_queue w = B ++ Q → B ≠ [] → w_batch w = None → gathered ms B →
  w_last w < last - total ms + 1 → last < PENDING →
  Inv (mkWorld (w_store w) (w_log w) (Some (mkBatch last ms B)) Q (w_active w) last).
Proof.
  intros H Hq HB Hb Hg Hl Hp. pose proof (in_flight_batch_queue w B Q Hb Hq) as Hf.
  pose proof (total_nonneg _ _ Hg). destruct H as [H1 H2 H3 H4 H5 H6 H7 H8 HB9 H9 H10]. rewrite Hf in *.
  constructor; cbn [w_store w_log w_batch w_queue w_active w_last]; try done; [lia|].
  unfold batch_ok. cbn [w_batch b_members b_txns b_last w_store w_last]. split_and!; try done. lia.
Qed.

Lemma last_commit_lsns first acc ms B :
  gathered ms B → B ≠ [] →
  match last (commit_lsns first acc ms) with Some (_, _, l) => l | None => 0 end
  = first + acc + total ms - 1.
Proof.
  intros Hg. revert acc. induction Hg as [|[[id o] n] t ms B [Ho Hn] Hg IH]; intros acc HB; [done|].
  cbn [commit_lsns]. destruct Hg as [|m t' ms B Hm Hg].
  - cbn. unfold total. cbn. lia.
  - rewrite last_cons. destruct (last (commit_lsns first (acc + n) (m :: ms))) as [[[x y] z]|] eqn:E.
    + specialize (IH (acc + n)). rewrite E in IH. cbn in IH. rewrite IH by done.
      unfold total. cbn [foldr snd]. lia.
    + apply last_None in E. destruct m as [[? ?] ?]. done.
Qed.

Lemma inv_publish (w : World) b :
  Inv w → w_batch w = Some b →
  Inv (mkWorld (publish (b_last b) (b_members b) (w_store w)).1 (w_log w ++ stamped b) None
         (w_queue w) (w_active w) (w_last w)).
Proof.
  intros H Hb. destruct H as [H1 H2 H3 H4 H5 H6 H7 H8 HB9 H9 H10].
  unfold batch_ok in H9. rewrite Hb in H9. destruct H9 as (Hg & HB & Hlo & Hhi).
  assert (in_flight w = b_txns b ++ (w_queue w ++ active_txns (w_active w))) as Hf.
  { unfold in_flight. by rewrite Hb. }
  rewrite Hf in *.
  destruct (publish_fold (w_store w) (recovered w) (b_last b - total (b_members b) + 1) 0
    (b_members b) (b_txns b) (w_queue w ++ active_txns (w_active w)))
    as (E1 & E2 & E3 & E4 & E5 & E6 & E7 & E8); [done..| rewrite H8; lia | done |].
  rewrite fmap_app in H3, H4. apply NoDup_app in H3 as (_ & _ & H3). apply not_elem_of_app in H4 as [_ H4].
  assert (recovered (mkWorld (publish (b_last b) (b_members b) (w_store w)).1 (w_log w ++ stamped b)
    None (w_queue w) (w_active w) (w_last w)) = replay_txns (recovered w) (stamped b)) as HR.
  { unfold recovered. cbn. unfold replay_txns. by rewrite foldl_app. }
  assert (contents (publish (b_last b) (b_members b) (w_store w)).1 = contents (foldl
    (λ s '(_, o, l), finalize_owner o l s) (w_store w)
    (commit_lsns (b_last b - total (b_members b) + 1) 0 (b_members b)))) as Hc.
  { unfold publish. cbn. by destruct (_ <? _). }
  assert (committed_lsn (publish (b_last b) (b_members b) (w_store w)).1 = b_last b) as Hl.
  { unfold publish. cbn [fst]. fold (total (b_members b)). rewrite (last_commit_lsns _ _ _ _ Hg HB).
    destruct (Z.ltb_spec (committed_lsn (foldl (λ s '(_, o, l), finalize_owner o l s) (w_store w)
      (commit_lsns (b_last b - total (b_members b) + 1) 0 (b_members b))))
      (b_last b - total (b_members b) + 1 + 0 + total (b_members b) - 1)) as [Hlt|Hge];
      cbn [committed_lsn with_committed]; [lia|].
    rewrite E5 in *. pose proof (total_nonneg _ _ Hg). lia. }
  split; cbn [w_store w_log w_batch w_queue w_active w_last]; rewrite ?HR; unfold in_flight;
    cbn [w_batch w_queue w_active batch_txns app]; try done.
  - by rewrite Hc.
  - unfold vids_below in *. unfold publish. cbn [fst]. by destruct (_ <? _).
  - rewrite Hl. pose proof (total_nonneg _ _ Hg). lia.
  - rewrite Hl. etrans; [by apply E6 | lia].
  - by apply Forall_app.
Qed.

Lemma inv_append_failed (w : World) B Q ms e :
  Inv w → w_queue w = B ++ Q → w_batch w = None → gathered ms B →
  Inv (mkWorld (abort_batch e ms (w_store w)).1 (w_log w) None Q (w_active w) (w_last w)).
Proof.
  intros H Hq Hb Hg. pose proof (in_flight_batch_queue w B Q Hb Hq) as Hf.
  destruct H as [H1 H2 H3 H4 H5 H6 H7 H8 HB9 H9 H10]. rewrite Hf in *.
  destruct (abort_fold (w_store w) (contents (recovered w)) ms B (Q ++ active_txns (w_active w)))
    as (E1 & E2 & E3 & E4); [done..|].
  rewrite fmap_app in H3, H4. apply NoDup_app in H3 as (_ & _ & H3). apply not_elem_of_app in H4 as [_ H4].
  split; cbn [w_store w_log w_batch w_queue w_active w_last abort_batch fst]; try done.
  - by rewrite E4.
  - by rewrite E4.
Qed.

Lemma settled_tables (s : Store) :
  settled (contents s) ↔ map_Forall (λ _ t, committed (rows t) ∧ increasing (rows t)) (tables s).
Proof.
  unfold settled, each_table, contents. split.
  - intros [Hc Hi] k t Hk. split; [apply (Hc k (content t)) | apply (Hi k (content t))];
      by rewrite lookup_fmap, Hk.
  - intros H. split; intros k sr Hk; rewrite lookup_fmap in Hk;
      destruct (tables s !! k) as [t|] eqn:E; try done; injection Hk as <-; apply (H _ _ E).
Qed.

Lemma reshaped_settled t t' :
  reshaped t t' → committed (rows t) ∧ increasing (rows t) → committed (rows t') ∧ increasing (rows t').
Proof.
  intros [_ HF] [Hc Hi]. assert (vid <$> rows t' = vid <$> rows t) as Hv.
  { clear -HF. induction HF as [|r r' rs rs' (Hv & _) _ IH]; [done|]. cbn. by rewrite Hv, IH. }
  split; [|unfold increasing in *; by rewrite Hv]. clear -HF Hc. unfold committed in *.
  induction HF as [|r r' rs rs' (_ & _ & _ & Ho) _ IH]; [done|].
  apply Forall_cons in Hc as [H1 H2]. constructor; [congruence | auto].
Qed.

Lemma stamped_tables L (s : Store) :
  each_table (stamped_to L) (contents s) ↔ map_Forall (λ _ t, stamped_to L (rows t)) (tables s).
Proof.
  unfold each_table, contents. split.
  - intros H k t Hk. apply (H k (content t)). by rewrite lookup_fmap, Hk.
  - intros H k sr Hk. rewrite lookup_fmap in Hk. destruct (tables s !! k) as [t|] eqn:E; [|done].
    injection Hk as <-. apply (H _ _ E).
Qed.

Lemma reshaped_stamped L t t' : reshaped t t' → stamped_to L (rows t) → stamped_to L (rows t').
Proof.
  intros [_ HF] Hb. unfold stamped_to in *. induction HF as [|r r' rs rs' (_ & Hc & Hd & _) _ IH]; [done|].
  apply Forall_cons in Hb as [H1 H2]. constructor; [by rewrite Hc, Hd | auto].
Qed.

Lemma inv_ddl (w : World) op l s :
  Inv w → w_batch w = None → w_queue w = [] → w_active w = None → w_last w < l → l < PENDING →
  is_ddl op → live_ddl l (w_store w) op s →
  Inv (mkWorld (with_committed (Z.max (committed_lsn s) l) s) (w_log w ++ [([op], l)]) None [] None l).
Proof.
  intros H Hb Hq Ha Hlt Hp Hd Hlive. destruct H as [H1 H2 H3 H4 H5 H6 H7 H8 HB9 H9 H10].
  assert (in_flight w = []) as Hf by (unfold in_flight; by rewrite Hb, Hq, Ha).
  rewrite Hf in *. cbn in H1. destruct (live_ddl_contents _ _ _ _ Hlive) as (Hc & Hall & Hl).
  assert (recovered (mkWorld (with_committed (Z.max (committed_lsn s) l) s) (w_log w ++ [([op], l)])
    None [] None l) = replay_txn (recovered w) ([op], l)) as HR.
  { unfold recovered. cbn. unfold replay_txns. by rewrite foldl_app. }
  assert (committed_lsn (apply_replay l (recovered w) op) = committed_lsn (recovered w)) as HL.
  { destruct (live_ddl_contents l (recovered w) _ op (live_same _ _ _ Hd)) as (_ & _ & ->). done. }
  split; cbn [w_store w_log w_batch w_queue w_active w_last]; rewrite ?HR; try done.
  - change (contents s = contents (apply_replay l (recovered w) op)). rewrite Hc.
    by apply ddl_contents_ext.
  - change (settled (contents (apply_replay l (recovered w) op))). apply settled_tables.
    apply (ddl_preserves (λ t, committed (rows t) ∧ increasing (rows t))); [done| | |by apply settled_tables].
    + intros sc. split; constructor.
    + apply reshaped_settled.
  - apply (Hall (λ _ t, Forall (λ r, vid r < next_vid t) (rows t))).
    apply (ddl_preserves (λ t, Forall (λ r, vid r < next_vid t) (rows t))); [done| | |done].
    + intros sc. constructor.
    + intros t t' [Hn HF] Ht. rewrite Hn. clear -HF Ht.
      induction HF as [|r r' rs rs' (Hv & _) _ IH]; [done|]. apply Forall_cons in Ht as [? ?].
      constructor; [by rewrite Hv | auto].
  - cbn. rewrite Hl. lia.
  - unfold replay_txn. cbn. rewrite HL, Hl, H8. done.
  - unfold replay_txn. change (each_table (stamped_to (Z.max (committed_lsn (apply_replay l (recovered w) op)) l))
      (contents (apply_replay l (recovered w) op))).
    eapply each_table_impl; [|intros rs; apply (stamped_mono (committed_lsn (recovered w))); lia].
    apply stamped_tables. apply (ddl_preserves (λ t, stamped_to _ (rows t))); [done| | |].
    + intros sc. constructor.
    + apply reshaped_stamped.
    + by apply stamped_tables.
  - apply Forall_app. split; [done|]. constructor; [|constructor]. cbn.
    apply not_elem_of_cons. split; [|by apply not_elem_of_nil]. intros <-. done.
Qed.

Lemma step_inv (w w' : World) : Inv w → step w w' → Inv w'.
Proof.
  intros I Hs. destruct Hs.
  - by apply inv_begin.
  - by eapply inv_stmt.
  - by eapply inv_emitted.
  - by eapply inv_abort.
  - by eapply inv_rollback.
  - by eapply inv_rollback_to.
  - destruct I as [I1 I2 I3 I4 I5 I6 I7 I8 IB I9 I10]. rewrite (in_flight_active w _ H) in *.
    cbn [active_txns] in *.
    split; cbn [w_store w_log w_batch w_queue w_active w_last]; try done;
      unfold in_flight; cbn; rewrite app_nil_r, app_assoc; done.
  - destruct I as [I1 I2 I3 I4 I5 I6 I7 I8 IB I9 I10]. rewrite (in_flight_active w _ H) in *.
    cbn [active_txns] in *. rewrite pend_txns_app in I1. apply ok_txns_app in I2 as [I2 _].
    rewrite fmap_app in I3, I4. apply NoDup_app in I3 as (I3 & _). apply not_elem_of_app in I4 as [I4 _].
    split; cbn [w_store w_log w_batch w_queue w_active w_last]; try done;
      unfold in_flight; cbn; rewrite app_nil_r; done.
  - by eapply inv_append.
  - by apply inv_publish.
  - by eapply inv_append_failed.
  - by eapply inv_ddl.
  - destruct I as [I1 I2 I3 I4 I5 I6 I7 I8 IB I9 I10]. split; try done; cbn [w_store w_last]; [lia|].
    unfold batch_ok in *. cbn. destruct (w_batch w); [|done]. destruct I9 as (? & ? & ? & ?).
    split_and!; try done; lia.
Qed.

Lemma reachable_inv (w : World) : rtc step init w → Inv w.
Proof.
  apply (rtc_ind_r Inv); [apply inv_init|]. intros w1 w2 _ Hs Hi. by eapply step_inv.
Qed.

End Invariant.
