(* ===== verification/EngineSpec.v ===== *)
(** * What the engine guarantees: durability, isolation, recovery

    Theorems about every state the steps of [EngineInv.step] reach: the store is the replayed log with
    the transactions in flight pending on it; recovery after a crash at any moment gives readers what
    they saw; a snapshot never changes; a commit publishes what its writer saw. *)

From S2P Require Import Prelude Text StorageTypes EngineTypes Wal WalSpec MvccStore Dml DmlProofs.
From S2P Require Import Recovery GroupCommit Conn EngineInv.

Section Spec.
Context {VI : Type} `{!VectorIndexOps VI} {SelectStmt : Type} `{!SqlOps SelectStmt}.
Abbreviation Store := (Store VI SelectStmt).
Abbreviation World := (@World VI SelectStmt).

(** ** Replaying the records of a log *)

(** The operations of a log fit the record format. *)
Definition encodable (log : list (list WalOp * Z)) : Prop := Forall (λ tx, Forall op_ok tx.1) log.

Lemma decode_encode op : op_ok op → decode (wal_bytes (encode op)) = Ok op.
Proof.
  intros H. unfold decode, encode. cbn [wal_bytes].
  pose proof (reads_op op H []) as Hr. rewrite app_nil_r in Hr. by rewrite Hr.
Qed.

(** The operations before the marker are collected. *)
Lemma replay_entries_ops ops first rest group (s : Store) :
  Forall op_ok ops → Commit ∉ ops →
  replay_entries (number first ((encode <$> ops) ++ [encode Commit]) ++ rest) group s
  = replay_entries (mkEntry (first + zlen ops) (encode Commit) :: rest) (group ++ ops) s.
Proof.
  revert first group. induction ops as [|op ops IH]; intros first group Hok Hn.
  { cbn [fmap list_fmap app number]. rewrite app_nil_r. unfold zlen. cbn [length].
    by rewrite Z.add_0_r. }
  apply Forall_cons in Hok as [Hop Hok]. apply not_elem_of_cons in Hn as [Hne Hn].
  cbn [fmap list_fmap app number replay_entries entry_record]. rewrite (decode_encode op Hop).
  cbn [mbind Result_bind]. rewrite zlen_cons.
  assert (∀ g, replay_entries (number (first + 1) ((encode <$> ops) ++ [encode Commit]) ++ rest) g s
    = replay_entries (mkEntry (first + (1 + zlen ops)) (encode Commit) :: rest) (g ++ ops) s) as Hgo.
  { intros g. rewrite (IH (first + 1) g) by done. by rewrite Z.add_assoc. }
  destruct op; try done; rewrite Hgo, <- app_assoc; done.
Qed.

Lemma replay_entries_txn ops l rest (s : Store) :
  Forall op_ok ops → Commit ∉ ops →
  replay_entries (txn_entries (ops, l) ++ rest) [] s = replay_entries rest [] (replay_txn s (ops, l)).
Proof.
  intros Hok Hn. unfold txn_entries. cbn [fst snd]. rewrite replay_entries_ops by done.
  cbn [replay_entries entry_record entry_lsn app]. rewrite decode_encode by done.
  cbn [mbind Result_bind]. replace (l - zlen ops + zlen ops) with l by lia. done.
Qed.

Lemma replay_log log (s : Store) :
  encodable log → no_marker log → replay_entries (log_entries log) [] s = Ok (replay_txns s log).
Proof.
  intros He. revert s. induction He as [|[ops l] log Hok _ IH]; intros s Hn; [done|].
  apply Forall_cons in Hn as [Hc Hn]. unfold log_entries. cbn [fmap list_fmap concat].
  rewrite replay_entries_txn by done. by apply IH.
Qed.

Lemma contents_rebuild_autoinc (s : Store) : contents (rebuild_autoinc s) = contents s.
Proof.
  unfold contents, rebuild_autoinc. cbn. rewrite <- map_fmap_compose. apply map_fmap_ext.
  intros k t _. cbn. unfold content, rebuild_autoinc_table. by destruct (position _ _).
Qed.

(** The contents and the mark of what recovery builds from a log. *)
Lemma replay_spec log :
  encodable log → no_marker log →
  ∃ s, replay (Ok (log_entries log)) (Store_default : Store) = Ok s
       ∧ contents s = contents (replay_txns (Store_default : Store) log)
       ∧ committed_lsn s = committed_lsn (replay_txns (Store_default : Store) log).
Proof.
  intros He Hn. eexists. split_and!.
  - unfold replay. cbn [map_err mbind Result_bind]. rewrite replay_log by done. done.
  - apply contents_rebuild_autoinc.
  - done.
Qed.

(** The durable log: what was published, and a batch that is durable but not published yet. *)
Definition durable_log (w : World) : list (list WalOp * Z) :=
  w_log w ++ match w_batch w with Some b => stamped b | None => [] end.

(** The state after the leader publishes a durable batch. *)
Definition published (w : World) : World :=
  match w_batch w with
  | Some b => mkWorld (publish (b_last b) (b_members b) (w_store w)).1 (w_log w ++ stamped b) None
                (w_queue w) (w_active w) (w_last w)
  | None => w
  end.

Lemma published_inv w : Inv w → Inv (published w) ∧ recovered (published w)
  = replay_txns Store_default (durable_log w).
Proof.
  intros H. unfold published, durable_log. destruct (w_batch w) as [b|] eqn:Hb.
  - split; [by apply inv_publish | done].
  - split; [done|]. by rewrite app_nil_r.
Qed.

Lemma view_publish_fold snap first acc ms B (s : Store) k :
  gathered ms B → snap < first + acc → snap < PENDING →
  table_view snap (contents (foldl (λ s '(_, o, l), finalize_owner o l s) s (commit_lsns first acc ms))) k
  = table_view snap (contents s) k.
Proof.
  intros Hg. revert acc s. induction Hg as [|[[id o] n] t ms B [Ho Hn] Hg IH]; intros acc s Hlt Hp; [done|].
  cbn [commit_lsns foldl]. cbn in Hn. pose proof (zlen_nonneg t.2).
  rewrite IH, contents_finalize by lia. apply table_view_finalize; lia.
Qed.

Lemma contents_publish last ms (s : Store) :
  contents (publish last ms s).1
  = contents (foldl (λ s '(_, o, l), finalize_owner o l s) s (commit_lsns (last - total ms + 1) 0 ms)).
Proof. unfold publish. cbn [fst]. by destruct (_ <? _). Qed.

(** Publishing does not change what an older snapshot sees. *)
Lemma view_published w snap k :
  Inv w → snap ≤ committed_lsn (w_store w) →
  table_view snap (contents (w_store (published w))) k = table_view snap (contents (w_store w)) k.
Proof.
  intros H Hs. unfold published. destruct (w_batch w) as [b|] eqn:Hb; [|done]. cbn [w_store].
  pose proof (inv_batch w H) as Hbk. unfold batch_ok in Hbk. rewrite Hb in Hbk.
  destruct Hbk as (Hg & _ & Hlo & _). destruct (inv_lsn w H).
  rewrite contents_publish. apply (view_publish_fold _ _ _ _ (b_txns b)); [done|lia..].
Qed.

(** Publishing moves the mark forward. *)
Lemma committed_published w : Inv w → committed_lsn (w_store w) ≤ committed_lsn (w_store (published w)).
Proof.
  intros H. unfold published. destruct (w_batch w) as [b|]; [|done]. cbn [w_store]. unfold publish. cbn [fst].
  assert (∀ (l : list (Z * Z * Z)) (s : Store), committed_lsn (foldl (λ s '(_, o, l), finalize_owner o l s) s l) = committed_lsn s) as Hf.
  { induction l as [|[[i o] l] ls IH]; intros s; [done|]. cbn. rewrite IH. apply finalize_owner_tables. }
  set (st := commit_lsns _ _ _). destruct (Z.ltb_spec (committed_lsn (foldl (λ s '(_, o, l), finalize_owner o l s)
    (w_store w) st)) (match last st with Some (_, _, l) => l | None => 0 end)) as [Hlt|_].
  - cbn. rewrite Hf in Hlt. lia.
  - rewrite Hf. done.
Qed.

(** What recovery builds from the durable log. *)
Lemma recover_durable (w : World) :
  rtc step init w → encodable (durable_log w) →
  ∃ s, replay (Ok (log_entries (durable_log w))) (Store_default : Store) = Ok s ∧
       committed_lsn (w_store w) ≤ committed_lsn s ∧
       ∀ snap k, snap ≤ committed_lsn (w_store w) →
         table_view snap (contents s) k = table_view snap (contents (w_store w)) k.
Proof.
  intros Hr He. apply reachable_inv in Hr as H. destruct (published_inv w H) as [Hp HR].
  destruct (replay_spec (durable_log w) He) as (s & Hs & Hc & Hl).
  { pose proof (inv_marker _ Hp) as Hm. unfold published, durable_log in *.
    destruct (w_batch w); [done | by rewrite app_nil_r]. }
  exists s. split_and!; [done| |].
  { rewrite Hl, <- HR, (inv_committed _ Hp). by apply committed_published. }
  intros snap k Hsn. rewrite Hc, <- HR.
  rewrite <- (view_published w snap k H Hsn), (inv_contents _ Hp).
  destruct (inv_lsn w H). symmetry. apply table_view_pend_txns; [lia | apply Hp].
Qed.

(** ** Properties *)


(** Recovery restores the database: in every reachable state without a transaction in flight,
    replaying the log yields a store with exactly the schemas and row versions, stamps included,
    of the live one. *)
Theorem engine_recovery_restores (w : World) :
  rtc step init w → in_flight w = [] → encodable (w_log w) →
  ∃ s, replay (Ok (log_entries (w_log w))) (Store_default : Store) = Ok s ∧
       contents s = contents (w_store w) ∧ committed_lsn s = committed_lsn (w_store w).
Proof.
  intros Hr Hf He. apply reachable_inv in Hr as H.
  destruct (replay_spec (w_log w) He (inv_marker w H)) as (s & Hs & Hc & Hl). exists s.
  rewrite Hc, Hl. split_and!; [done | | apply H].
  rewrite (inv_contents w H), Hf. done.
Qed.

(** A crash at any moment loses nothing a reader saw: from every reachable state, recovery from
    the durable log succeeds, and every snapshot up to the published mark sees the same rows of
    every table as before the crash, whatever was pending, queued, or durable but unpublished. *)
Theorem engine_crash_keeps_reads (w : World) :
  rtc step init w → encodable (durable_log w) →
  ∃ s, replay (Ok (log_entries (durable_log w))) (Store_default : Store) = Ok s ∧
       ∀ snap k, snap ≤ committed_lsn (w_store w) →
         table_view snap (contents s) k = table_view snap (contents (w_store w)) k.
Proof. intros Hr He. destruct (recover_durable w Hr He) as (s & ? & _ & ?). by exists s. Qed.

(** C11. Snapshots are stable: no step of any connection other than DDL changes the rows a reader at
    an already published snapshot sees. *)
Theorem engine_snapshot_stable (w w' : World) snap k :
  rtc step init w → step w w' → snap ≤ committed_lsn (w_store w) →
  ¬ (∃ op l, is_ddl op ∧ w_log w' = w_log w ++ [([op], l)]) →
  table_view snap (contents (w_store w')) k = table_view snap (contents (w_store w)) k.
Proof.
  intros Hr Hst Hs Hn. apply reachable_inv in Hr as H. pose proof (step_inv _ _ H Hst) as H'.
  assert (snap < PENDING) as Hp by (destruct (inv_lsn w H); lia).
  assert (w_log w' = w_log w → table_view snap (contents (w_store w')) k
    = table_view snap (contents (w_store w)) k) as Hsame.
  { intros Hlog. rewrite (inv_contents w H), (inv_contents w' H').
    rewrite !table_view_pend_txns by (done || apply H || apply H').
    unfold recovered. by rewrite Hlog. }
  destruct Hst; try by apply Hsame.
  - pose proof (view_published w snap k H Hs) as Hv. unfold published in Hv. by rewrite H0 in Hv.
  - exfalso. apply Hn. eauto.
Qed.

(** A commit publishes what its writer saw: when the oldest durable transaction is published at
    its LSN, a reader at that LSN sees in every table exactly the rows its writer saw at the
    published mark just before, its own changes included and other writers' pending ones not. *)
Theorem engine_commit_publishes_writer_view (w : World) b o ops B n ms id k sc rs :
  rtc step init w → w_batch w = Some b → b_txns b = (o, ops) :: B → b_members b = (id, o, n) :: ms →
  contents (w_store w) !! k = Some (sc, rs) →
  let l := b_last b - total (b_members b) + n in
  table_view l (contents (finalize_owner o l (w_store w))) k
  = Some (writer_view (committed_lsn (w_store w)) o rs).
Proof.
  intros Hr Hb Ht Hm Hk l. apply reachable_inv in Hr as H.
  pose proof (inv_batch w H) as Hbk. unfold batch_ok in Hbk. rewrite Hb in Hbk.
  destruct Hbk as (Hg & _ & Hlo & Hhi). destruct (inv_lsn w H) as [Hl0 HlP].
  assert (committed_lsn (w_store w) < l ∧ l < PENDING) as [Hl HlP'].
  { rewrite Ht, Hm in Hg. inversion Hg as [|? ? ? ? [_ Hn] Hg']; subst. cbn in Hn.
    pose proof (total_nonneg _ _ Hg') as Htn. pose proof (zlen_nonneg ops). unfold l. rewrite Hm.
    rewrite Hm in Hlo. unfold total in *. cbn [foldr snd] in *. lia. }
  assert (bounded (committed_lsn (w_store w)) rs) as Hbd.
  { rewrite <- (inv_committed w H).
    pose proof (bounded_pend_txns (committed_lsn (recovered w)) (contents (recovered w)) (in_flight w)) as Hbp.
    rewrite <- (inv_contents w H) in Hbp. refine (Hbp _ _ k (sc, rs) Hk).
    - rewrite (inv_committed w H). lia.
    - eapply each_table_impl; [apply (inv_bounded w H)|]. intros x. apply stamped_bounded. }
  rewrite contents_finalize. unfold table_view, all_tables. rewrite lookup_fmap, Hk. cbn. f_equal.
  unfold reader_view, writer_view, finalize_rows. clear Hk.
  induction Hbd as [|r rs [Hc Hd] _ IH]; [done|]. rewrite fmap_cons, !filter_cons.
  assert (visible_to_reader (finalize_row o l r) l = visible_to_writer r (committed_lsn (w_store w)) o) as ->.
  { apply visible_after_commit; [done|done|lia|done|done]. }
  case_decide; [|done]. rewrite !fmap_cons. f_equal; [|done].
  unfold row_view. rewrite vid_finalize. unfold finalize_row. destruct (owner r =? o); [|done].
  destruct (create_lsn r =? PENDING); cbn; by destruct (delete_lsn r =? PENDING).
Qed.

End Spec.
