(* ===== verification/SystemSpec.v ===== *)
(** * The engine over a storage backend

    The steps of the engine with the storage calls they make, over any backend that keeps the laws
    of the seam.  The log the engine believes durable is the one the backend holds, so opening the
    database from the backend's own scan gives readers what they saw: for the embedded backend, for
    the disaggregated one, and for a branch of either. *)

From S2P Require Import Prelude Text StorageTypes ObjCodec ObjStorage ObjVersions Seam SeamBranch EngineTypes Wal WalSpec.
From S2P Require Import MvccStore Dml DmlProofs Recovery GroupCommit Conn EngineInv.
From S2P Require Import EngineSpec.
Import Codec.

Section System.
Context {VI : Type} `{!VectorIndexOps VI} {SelectStmt : Type} `{!SqlOps SelectStmt}.
Context {S : Type} `{!Storage S, !StorageLaws S}.
Abbreviation Store := (Store VI SelectStmt).
Abbreviation World := (@World VI SelectStmt).

(** The records of transactions as connections enqueue them. *)
Definition txn_records (ops : list WalOp) : list WalRecord := (encode <$> ops) ++ [encode Commit].
Definition batch_records (B : Txns) : list WalRecord := concat ((λ t, txn_records t.2) <$> B).

Inductive sys_step (tok : FenceToken) : World * S → World * S → Prop :=
| sys_memory w w' s : step w w' → w_last w' = w_last w → sys_step tok (w, s) (w', s)
| sys_append w s s' B Q ms l :
    w_queue w = B ++ Q → B ≠ [] → w_batch w = None → gathered ms B →
    admits s (wal_items (batch_records B)) →
    st_append_wal tok (batch_records B) s = (s', Ok l) → l < PENDING →
    sys_step tok (w, s) (mkWorld (w_store w) (w_log w) (Some (mkBatch l ms B)) Q (w_active w) l, s')
| sys_append_refused w s s' B Q ms e :
    w_queue w = B ++ Q → w_batch w = None → gathered ms B →
    st_append_wal tok (batch_records B) s = (s', Err e) → (∀ h, holds s h → holds s' h) →
    sys_step tok (w, s)
      (mkWorld (abort_batch e ms (w_store w)).1 (w_log w) None Q (w_active w) (w_last w), s')
| sys_ddl w s s' op l st :
    w_batch w = None → w_queue w = [] → w_active w = None → is_ddl op →
    admits s (wal_items (txn_records [op])) →
    st_append_wal tok (txn_records [op]) s = (s', Ok l) → l < PENDING →
    live_ddl l (w_store w) op st →
    sys_step tok (w, s)
      (mkWorld (with_committed (Z.max (committed_lsn st) l) st) (w_log w ++ [([op], l)]) None [] None l, s')
| sys_page w s s' id img l :
    admits s [PageItem id img] → st_put_page tok id img s = (s', Ok l) → l < PENDING →
    sys_step tok (w, s) (mkWorld (w_store w) (w_log w) (w_batch w) (w_queue w) (w_active w) l, s')
| sys_refused w s s' rs e :
    st_append_wal tok rs s = (s', Err e) → (∀ h, holds s h → holds s' h) → sys_step tok (w, s) (w, s')
| sys_page_refused w s s' id img e :
    st_put_page tok id img s = (s', Err e) → (∀ h, holds s h → holds s' h) → sys_step tok (w, s) (w, s')
| sys_read w s s' id q r : st_get_page id q s = (s', r) → sys_step tok (w, s) (w, s')
| sys_scan w s s' after r : st_scan_wal after s = (s', r) → sys_step tok (w, s) (w, s').

(** The backend holds the engine's durable log; page images may lie between its records. *)
Definition logged_in (w : World) (s : S) : Prop :=
  ∃ h, holds s h ∧ entries_from 1 h = log_entries (durable_log w) ∧ zlen h = w_last w.

(** ** The records of a batch, at the LSNs storage gives them *)

Lemma number_entries_app n a b : number n (a ++ b) = number n a ++ number (n + zlen a) b.
Proof.
  revert n. induction a as [|r a IH]; intros n; cbn [app number].
  - by rewrite zlen_nil, Z.add_0_r.
  - by rewrite IH, zlen_cons, Z.add_assoc.
Qed.

Lemma entries_wal_items n rs : entries_from n (wal_items rs) = number n rs.
Proof. revert n. induction rs as [|[b] rs IH]; intros n; cbn; [done|]. f_equal. apply IH. Qed.

Lemma zlen_txn_records ops : zlen (txn_records ops) = zlen ops + 1.
Proof. unfold txn_records, zlen. rewrite length_app, length_fmap. cbn. lia. Qed.

Lemma batch_records_stamped first acc ms B :
  gathered ms B →
  number (first + acc) (batch_records B) =
  log_entries (zip_with (λ t m, (t.2, m.2)) B (commit_lsns first acc ms)) ∧
  zlen (batch_records B) = total ms.
Proof.
  intros Hg. revert acc. induction Hg as [|[[id o] n] t ms B [_ Hn] Hg IH]; intros acc; [done|].
  cbn in Hn. unfold batch_records, log_entries, total in *. cbn [fmap list_fmap concat commit_lsns zip_with foldr snd].
  destruct (IH (acc + n)) as [IH1 IH2]. rewrite number_entries_app, zlen_app, zlen_txn_records, IH2, <- Hn.
  split; [|done]. rewrite <- Z.add_assoc, IH1. f_equal. unfold txn_entries, txn_records. cbn. f_equal. lia.
Qed.

Lemma log_entries_app a b : log_entries (a ++ b) = log_entries a ++ log_entries b.
Proof. unfold log_entries. by rewrite fmap_app, concat_app. Qed.

(** ** Engine steps without a storage call leave the durable log alone *)

Lemma memory_durable_log w w' :
  Inv w → step w w' → w_last w' = w_last w → log_entries (durable_log w') = log_entries (durable_log w).
Proof.
  intros H Hst. destruct Hst as [| | | | | | | |w B Q ms last HQ HB Hb Hg Hl|w b Hb|w B Q ms e HQ Hb|w op l s ? ? ? Hl|];
    unfold durable_log; cbn; intros Heq; try done.
  - exfalso. destruct Hg as [|[[i o] n] t ms B [_ Hn] Hg]; [done|]. cbn in Hn, Hl.
    pose proof (total_nonneg _ _ Hg) as Ht. pose proof (zlen_nonneg t.2). unfold total in Ht, Hl. cbn in Ht, Hl. lia.
  - rewrite Hb. by rewrite app_nil_r.
  - by rewrite Hb.
  - lia.
Qed.

Lemma sys_step_logged tok w s w' s' :
  rtc step init w → logged_in w s → sys_step tok (w, s) (w', s') → rtc step init w' ∧ logged_in w' s'.
Proof.
  intros Hr (h & Hh & He & Hz) Hst. assert (∀ w', step w w' → rtc step init w') as Hgo
    by (intros; by eapply rtc_r). pose proof (reachable_inv w Hr) as HI.
  inversion Hst as [? ? ? Hs Hl|? ? ? B Q ms l HQ HB Hb Hg Ha Hap Hl|? ? ? B Q ms e HQ Hb Hg Hap Hk
    |? ? ? op l st Hb HQ Hac Hd Ha Hap Hl Hlive|? ? ? id img l Ha Hp Hl|? ? ? rs e _ Hk|? ? ? id img e _ Hk
    |? ? ? id q r Hg|? ? ? a r Hg]; subst.
  - split; [by apply Hgo|]. exists h. by rewrite (memory_durable_log _ _ HI Hs Hl), Hl.
  - destruct (law_append_wal _ _ _ _ _ _ Hh Ha Hap) as (Hh' & -> & _).
    destruct (batch_records_stamped (zlen h + 1) 0 ms B Hg) as [Hn Ht]. split.
    + apply Hgo. econstructor; [done..| |done]. lia.
    + exists (h ++ wal_items (batch_records B)). split_and!; [done| |].
      * rewrite entries_from_app, He, entries_wal_items. unfold durable_log. rewrite Hb. cbn [w_log w_batch].
        rewrite app_nil_r, log_entries_app. f_equal. unfold stamped. cbn [b_last b_members b_txns]. rewrite <- Ht.
        replace (zlen h + zlen (batch_records B) - zlen (batch_records B) + 1) with (zlen h + 1) by lia.
        rewrite <- Hn. f_equal. lia.
      * cbn. unfold wal_items, zlen. rewrite length_app, length_fmap. lia.
  - split; [apply Hgo, (step_append_failed w B Q ms e); done|]. exists h. split_and!; [by apply Hk| |done].
    rewrite He. unfold durable_log. cbn. by rewrite Hb.
  - destruct (law_append_wal _ _ _ _ _ _ Hh Ha Hap) as (Hh' & -> & _). rewrite zlen_txn_records in *. assert (zlen [op] = 1) as H1 by done. split.
    + apply Hgo. econstructor; try done. lia.
    + exists (h ++ wal_items (txn_records [op])). split_and!; [done| |].
      * rewrite entries_from_app, He, entries_wal_items. unfold durable_log. rewrite Hb. cbn [w_log w_batch].
        rewrite !app_nil_r, log_entries_app. f_equal. unfold log_entries, txn_entries. cbn. unfold zlen. cbn.
        repeat f_equal; lia.
      * unfold zlen in *. rewrite length_app. cbn. lia.
  - destruct (law_put_page _ _ _ _ _ _ _ Hh Ha Hp) as (Hh' & -> & _). split.
    + apply Hgo. econstructor; [lia|done].
    + exists (h ++ [PageItem id img]). split_and!; [done| |].
      * rewrite entries_from_app. cbn. by rewrite app_nil_r.
      * cbn. unfold zlen. rewrite length_app. cbn. lia.
  - split; [done|]. exists h. split_and!; [by apply Hk|done..].
  - split; [done|]. exists h. split_and!; [by apply Hk|done..].
  - split; [done|]. exists h. split_and!; [|done..]. apply (law_get_page _ _ _ _ _ _ Hh Hg).
  - split; [done|]. exists h. split_and!; [|done..]. apply (law_scan_wal _ _ _ _ _ Hh Hg).
Qed.

Lemma sys_reachable_logged tok s0 w s :
  holds s0 [] → rtc (sys_step tok) (init, s0) (w, s) → rtc step init w ∧ logged_in w s.
Proof.
  intros H0 Hr. remember (init, s0) as a eqn:Ea. remember (w, s) as b eqn:Eb.
  enough (rtc step init a.1 ∧ logged_in a.1 a.2 → rtc step init b.1 ∧ logged_in b.1 b.2) as Hgo.
  { subst. apply Hgo. split; [done|]. by exists []. }
  clear Ea Eb. induction Hr as [|[w1 s1] [w2 s2] z Hs _ IH]; [done|].
  intros [Hr Hl]. apply IH. by eapply sys_step_logged.
Qed.

(** Opening touches the indexes only, on top of what the log says. *)
Lemma warm_same load (st : Store) : same_tables st (warm_vector_indexes load st).1.
Proof.
  unfold warm_vector_indexes. set (f := λ '(s, n) name, _). generalize (index_names st), 0.
  intros names. assert (∀ n (s : Store), same_tables st s → same_tables st (foldl f (s, n) names).1) as Hgo; [|intros; by apply Hgo].
  induction names as [|name names IH]; intros n s Hs; [done|]. cbn [foldl]. unfold f at 2.
  destruct (index_def s name) as [d|]; [|by apply IH].
  destruct (load d (committed_lsn s)) as [ix|]; apply IH.
  - destruct Hs. by split.
  - transitivity s; [done|]. unfold rebuild_one_index. set (s1 := with_indexes _ s).
    transitivity s1; [done|]. transitivity (populate_index (key name) s1); [apply same_populate_index|].
    destruct (needs_maintenance _ _); [apply same_compact_index|done].
Qed.

(** What a backend that holds the log of a world gives back. *)
Lemma reopened tok (s0 s s1 s2 : S) (w : World) entries c load :
  holds s0 [] → rtc (sys_step tok) (init, s0) (w, s) →
  st_scan_wal 0 s = (s1, Ok entries) → st_get_commit_lsn s1 = (s2, Ok c) →
  entries = log_entries (durable_log w) ∧
  (encodable (durable_log w) →
   ∃ st n, open_store (Ok entries) (Ok c) load = Ok (st, n) ∧ committed_lsn (w_store w) ≤ committed_lsn st ∧
     ∀ snap k, snap ≤ committed_lsn (w_store w) →
       table_view snap (contents st) k = table_view snap (contents (w_store w)) k).
Proof.
  intros H0 Hr Hs Hc. destruct (sys_reachable_logged _ _ _ _ H0 Hr) as (Hrw & h & Hh & Hent & Hz).
  destruct (law_scan_wal _ _ _ _ _ Hh Hs) as (_ & _ & [[= ->]|(e & [=] & _)]).
  assert (entries_after 0 h = log_entries (durable_log w)) as ->.
  { rewrite <- Hent. apply filter_all. eapply Forall_impl; [apply entries_from_range|]. cbn.
    intros e He'. apply Z.ltb_lt. lia. }
  split; [done|]. intros He. destruct (recover_durable w Hrw He) as (st & Hst & Hcm & Hv).
  set (st' := with_committed (Z.max (committed_lsn st) c) st).
  destruct (warm_vector_indexes load st') as [st2 n] eqn:Hw. exists st2, n.
  pose proof (warm_same load st') as Hsame. rewrite Hw in Hsame. cbn [fst] in Hsame. split_and!.
  - unfold open_store. rewrite Hst. cbn. fold st'. by rewrite Hw.
  - rewrite (proj2 Hsame). cbn. lia.
  - intros snap k Hsn. rewrite (contents_same _ _ Hsame). by apply Hv.
Qed.


(** ** Properties *)


End System.
