(* ===== verification/EngineDemo.v ===== *)
(** * A small database to evaluate the theorems on

    Concrete instances of what the engine takes from elsewhere (an index that lists its entries, an
    expression language of constants, a log in memory), and a run of the engine with two writers. *)

From Stdlib Require Import SpecFloat.
From S2P Require Import Prelude Text StorageTypes EngineTypes Wal WalSpec MvccStore Dml DmlProofs Recovery GroupCommit.
From S2P Require Import Conn EngineInv EngineSpec Numbers Float Chars Values Json Session Funcs Like Ast Expr ExprSpec.
From S2P Require Import Rls SortBy Select SelectSpec.

Module Demo.

(** An index that keeps its entries in a list: vid, vector, head-deleted. *)
Record ListIndex := mkListIndex {
  li_def : IndexDef;
  li_nodes : list (Z * list Z * bool);
  li_floor : Z
}.

#[global] Instance list_index : VectorIndexOps ListIndex := {|
  vi_new d := mkListIndex d [] 0;
  vi_def := li_def;
  vi_insert ix v vec := mkListIndex (li_def ix) (li_nodes ix ++ [(v, vec, false)]) (li_floor ix);
  vi_mark_dead ix v :=
    mkListIndex (li_def ix) ((λ n, if n.1.1 =? v then (n.1, true) else n) <$> li_nodes ix) (li_floor ix);
  vi_remove ix v :=
    mkListIndex (li_def ix) (filter (λ n, n.1.1 ≠ v) (li_nodes ix)) (li_floor ix);
  vi_needs_maintenance _ := false;
  vi_rebuild_floor := li_floor;
  vi_set_rebuild_floor ix l := mkListIndex (li_def ix) (li_nodes ix) l;
  vi_to_page_frames _ _ := None
|}.

(** A view is its text; every expression is the constant one. *)
#[global] Instance constant_sql : SqlOps string := {|
  parse_view s := Some s;
  eval_const_sql _ := Ok (Int 1);
  parse_expr _ := Ok (λ _ _, Ok (Int 1))
|}.

Abbreviation DStore := (Store ListIndex string).
Abbreviation DWorld := (World (VI := ListIndex) (SelectStmt := string)).

Definition col (name : string) (ty : ColumnType) (pk uniq auto : bool) : Column :=
  mkColumn name ty pk pk uniq auto None.

(** [create table T (id integer primary key, name text unique)], and a second table like it. *)
Definition t_schema (name : string) : TableSchema :=
  mkSchema name [col "id" CInteger true false false; col "name" CText false true false] [] [] [] false [].

Definition values_stmt (tname : string) (oc : OnConflict) (rows : list (list Value))
    : InsertStmt (VI := ListIndex) (SelectStmt := string) :=
  mkInsert tname None (SrcValues (provided <$> rows)) (λ _, Ok (λ _, Ok tt)) oc None.

(** [delete from T where id = i]. *)
Definition delete_stmt (tname : string) (i : Z) : DeleteStmt (VI := ListIndex) (SelectStmt := string) :=
  mkDelete tname (λ _ _ _, Ok (λ vals, Ok (bool_decide (cell vals 0 = Int i)))) None.

Definition stmt_result (r : DStore * Result Fault Mutation) : DStore * list WalOp :=
  (r.1, match r.2 with Ok m => mut_wal m | Err _ => [] end).

(** ** A run with two writers *)

Definition wopen (o : Z) (w : DWorld) : DWorld :=
  mkWorld (w_store w) (w_log w) (w_batch w) (w_queue w) (Some (o, 2, [])) (w_last w).

Definition w1 : DWorld :=
  mkWorld (with_committed 2 (insert_table (t_schema "T") Store_default)) [([CreateTable (t_schema "T")], 2)]
    None [] None 2.
Definition w2 := wopen 1 w1.
Definition ins1 := run_insert (values_stmt "T" OCError [[Int 7; TextV "a"]]) (mkWriteCtx 2 1) (w_store w2).
Definition w3 : DWorld := mkWorld (stmt_result ins1).1 (w_log w2) None [] (Some (1, 2, (stmt_result ins1).2)) 2.
Definition w4 : DWorld := mkWorld (w_store w3) (w_log w3) None [(1, (stmt_result ins1).2)] None 2.
Definition w5 := wopen 2 w4.
Definition ins2 := run_insert (values_stmt "t" OCNothing [[Int 8; TextV "b"]]) (mkWriteCtx 2 2) (w_store w5).
Definition w6 : DWorld :=
  mkWorld (stmt_result ins2).1 (w_log w5) None (w_queue w5) (Some (2, 2, (stmt_result ins2).2)) 2.
Definition demo_batch : Batch := mkBatch 4 [(1, 1, 2)] [(1, (stmt_result ins1).2)].
Definition w7 : DWorld := mkWorld (w_store w6) (w_log w6) (Some demo_batch) [] (w_active w6) 4.
Definition w8 : DWorld :=
  mkWorld (publish 4 [(1, 1, 2)] (w_store w7)).1 (w_log w7 ++ stamped demo_batch) None [] (w_active w7) 4.
Definition w9 : DWorld := mkWorld (rollback_owner 2 (w_store w8)) (w_log w8) None [] None 4.

Lemma step01 : step init w1.
Proof. apply (step_ddl init (CreateTable (t_schema "T")) 2); try done.
  by apply (live_same 2 (w_store init) (CreateTable (t_schema "T"))).
Qed.

Lemma step12 : step w1 w2.
Proof. apply step_begin; try done. by apply not_elem_of_nil. Qed.

Lemma step23 : step w2 w3.
Proof.
  destruct (ins1) as [s [m|e]] eqn:E; [|by vm_compute in E].
  pose proof (step_stmt w2 1 2 [] s m eq_refl) as H.
  unfold w3, stmt_result. rewrite E. apply H. by eapply stmt_insert; [left|exact E].
Qed.

Lemma step34 : step w3 w4.
Proof. by apply (step_commit w3 1 2). Qed.

Lemma step45 : step w4 w5.
Proof. apply step_begin; try done. by apply not_elem_of_cons; split; [|apply not_elem_of_nil]. Qed.

Lemma step56 : step w5 w6.
Proof.
  destruct (ins2) as [s [m|e]] eqn:E; [|by vm_compute in E].
  pose proof (step_stmt w5 2 2 [] s m eq_refl) as H.
  unfold w6, stmt_result. rewrite E. apply H. by eapply stmt_insert; [left|exact E].
Qed.

Lemma step67 : step w6 w7.
Proof.
  apply (step_append w6 [(1, (stmt_result ins1).2)] [] [(1, 1, 2)] 4); try done.
  constructor; [|constructor]. vm_compute. done.
Qed.

Lemma step78 : step w7 w8.
Proof. apply (step_publish w7 demo_batch). done. Qed.

Lemma step89 : step w8 w9.
Proof. by eapply (step_rollback w8 2 2). Qed.

Lemma reach7 : rtc step init w7.
Proof.
  do 7 (eapply rtc_l; [first [exact step01 | exact step12 | exact step23 | exact step34
    | exact step45 | exact step56 | exact step67]|]). apply rtc_refl.
Qed.

Lemma reach9 : rtc step init w9.
Proof. eapply rtc_r; [eapply rtc_r; [exact reach7 | exact step78] | exact step89]. Qed.

(** The log of the run. *)
Definition demo_log : list (list WalOp * Z) :=
  [([CreateTable (t_schema "T")], 2); ([Insert "T" 1 [Int 7; TextV "a"]], 4)].

Lemma demo_log_encodable : encodable demo_log.
Proof. repeat first [done | split | constructor | vm_compute; done | vm_compute; lia]. Qed.

Lemma encodable9 : encodable (w_log w9).
Proof. assert (w_log w9 = demo_log) as -> by (vm_compute; reflexivity). exact demo_log_encodable. Qed.

Lemma encodable7 : encodable (durable_log w7).
Proof. assert (durable_log w7 = demo_log) as -> by (vm_compute; reflexivity). exact demo_log_encodable. Qed.

Lemma encodable6 : encodable (w_log w7).
Proof.
  assert (w_log w7 = take 1 demo_log) as -> by (vm_compute; reflexivity).
  apply Forall_take, demo_log_encodable.
Qed.

End Demo.

(** * Witnesses and findings of SELECT: a small table with a policy *)

Import ExprRuns Demo.

Module SelectRuns.

(** An index of the list kind answers with its first entries. *)
#[global] Instance list_search : VectorSearch ListIndex := {|
  vi_len ix := zlen (li_nodes ix);
  vi_live_len ix := zlen (li_nodes ix);
  vi_search ix _ k _ := take (Z.to_nat k) ((λ n, (n.1.1, 0)) <$> li_nodes ix)
|}.

(** The one predicate text of the policy, and what the parser makes of it. *)
Definition owner_is_role : Expr := EBinary OpEq (EColumn "owner") (EFunc "auth.role" []).
Definition demo_parse (s : string) : Res Expr :=
  if String.eqb s "owner = auth.role()" then Ok owner_is_role else sql_error.

Definition notes : TableSchema :=
  mkSchema "notes" [mkColumn "id" CInteger true true false false None;
                    mkColumn "owner" CText false false false false None] [] [] [] true
    [mkPolicy "own" PSelect ["app"%string] (Some "owner = auth.role()"%string) None].

Definition note (v : Z) (id : Z) (who : string) : RowVersion := mkRow v [Int id; TextV who] 1 0 0.
Definition notes_table : Table := mkTable notes [note 1 3 "app"; note 2 1 "eve"; note 3 2 "app"] 4 1.
Definition notes_store : Store ListIndex SelectStmt := mkStore {["notes"%string := notes_table]} ∅ ∅ 5.

Definition select_all (order : list OrderKey) : SelectStmt :=
  mkSelect [] false [Star None] (Some (FTable "notes" None)) None [] None [] order None None.
Definition by_id : SelectStmt := select_all [mkOrderKey (EColumn "id") true true].

Definition run_by_id : Res ResultSet :=
  single_table_select demo_parse demo_host demo_sess notes_store by_id "notes" 5 None [] None.

Example run_by_id_rows : rs_rows <$> (match run_by_id with Ok r => Some r | Err _ => None end)
  = Some [[Int 2; TextV "app"]; [Int 3; TextV "app"]].
Proof. vm_compute. reflexivity. Qed.

(** The rows of [notes] another role wrote are not there for this one; the policy's own expression
    reads the session. *)
Lemma select_reads_only_allowed_witness :
  ∃ rs matched, run_by_id = Ok rs ∧ matched ≠ [] ∧
    project demo_host demo_sess by_id notes matched [] = Ok rs ∧
    ∀ row, row ∈ matched → readable demo_parse demo_host demo_sess notes_table None 5 None [] row.
Proof.
  destruct run_by_id as [rs|] eqn:E; [|by vm_compute in E].
  destruct (select_reads_only_allowed demo_parse demo_host demo_sess notes_store by_id "notes" notes_table
              5 None [] None rs eq_refl E) as (matched & Hm & Hr).
  exists rs, matched. split_and!; [done| |exact Hm|exact Hr]. intros ->. vm_compute in E. injection E as <-.
  by vm_compute in Hm.
Defined.

Lemma rls_exact_witness :
  (∀ d cx b, rls_read demo_parse demo_sess notes PSelect = Ok d → passes demo_host demo_sess d cx = Ok b →
     b = true ↔ allowed demo_parse demo_host demo_sess pol_using notes PSelect cx) ∧
  ∃ d, rls_read demo_parse demo_sess notes PSelect = Ok d ∧
    passes demo_host demo_sess d (ctx_row [Int 3; TextV "app"] notes []) = Ok true ∧
    passes demo_host demo_sess d (ctx_row [Int 3; TextV "eve"] notes []) = Ok false.
Proof.
  split; [exact (proj1 (rls_exact demo_parse demo_host demo_sess notes PSelect))|].
  eexists. split; [reflexivity|]. split; vm_compute; reflexivity.
Defined.

Lemma order_by_sorts_witness :
  ∃ out, order_matched demo_host demo_sess by_id notes [[Int 3; TextV "app"]; [Int 1; Null]] [] = Ok out ∧
    out ≡ₚ [[Int 3; TextV "app"]; [Int 1; Null]].
Proof.
  destruct (order_by_sorts demo_host demo_sess by_id notes [[Int 3; TextV "app"]; [Int 1; Null]] [] [KNum])
    as (out & H1 & H2 & _); [done| |by exists out].
  repeat constructor; eexists; (split; [reflexivity|right; vm_compute; reflexivity]).
Defined.

Lemma groups_partition_witness :
  ∃ gs, partition_rows (λ r, group_key demo_host demo_sess [EColumn "owner"] notes r [])
          [[Int 1; TextV "a"]; [Int 2; TextV "b"]; [Int 3; TextV "a"]] [] = Ok gs ∧ length gs = 2%nat ∧
    groups_of (λ r, group_key demo_host demo_sess [EColumn "owner"] notes r [])
      [[Int 1; TextV "a"]; [Int 2; TextV "b"]; [Int 3; TextV "a"]] gs.
Proof.
  eexists. split; [|split]; [vm_compute; reflexivity|reflexivity|].
  apply (groups_partition (λ r, group_key demo_host demo_sess [EColumn "owner"] notes r [])).
  vm_compute. reflexivity.
Defined.

(** ** Findings *)

Definition mixed_rows : list (list Value) := [[TextV "b"]; [Int 5]; [TextV "a"]].
Definition mixed_schema : TableSchema := mkSchema "m" [mkColumn "x" CText false false false false None] [] [] [] false [].
Definition mixed_cmp := order_key_cmp demo_host demo_sess [mkOrderKey (EColumn "x") true true] mixed_schema [].

(** The comparator calls incomparable values equal, so over mixed values it is no order: "b" ties with
    5 and 5 with "a", and the sort leaves "b" before "a". *)
Theorem order_by_mixed_unsorted :
  mixed_cmp [TextV "b"] [Int 5] = Ok Eq ∧ mixed_cmp [Int 5] [TextV "a"] = Ok Eq ∧
  mixed_cmp [TextV "b"] [TextV "a"] = Ok Gt ∧ sort_by mixed_cmp mixed_rows = Ok mixed_rows.
Proof. split_and!; vm_compute; reflexivity. Qed.

(** Values the comparison operator calls equal get two groups, since the key carries the type. *)
Theorem group_by_splits_equal :
  sql_eq (Int 1) (Real (f_of_Z F64 1)) = Some true ∧ value_key (Int 1) ≠ value_key (Real (f_of_Z F64 1)).
Proof. split; [vm_compute; reflexivity|]. vm_compute. done. Qed.

Definition sep_char : string := String (of_code 1) "".
Definition two_text : TableSchema :=
  mkSchema "p" [mkColumn "a" CText false false false false None; mkColumn "b" CText false false false false None]
    [] [] [] false [].
Definition two_key (a b : string) : Res string :=
  group_key demo_host demo_sess [EColumn "a"; EColumn "b"] two_text [TextV a; TextV b] [].

(** The separator of a group key is not escaped: two different rows of texts share one group. *)
Theorem group_key_collides :
  two_key ("x" +:+ sep_char +:+ "ty") "z" = two_key "x" ("y" +:+ sep_char +:+ "tz").
Proof. vm_compute. reflexivity. Qed.

End SelectRuns.

(** * Runs of the engine that break a promise

    Concrete histories, evaluated on the definitions, in which the engine does what a comment, a
    constraint or the log contradicts.  They delimit the hypotheses of the theorems on reachable
    states: a failed statement in an open transaction, savepoint vids across tables, upserts
    against a concurrent writer. *)

Import Demo EngineInv.

Module Findings.

(** A backend that keeps its log in memory and never fails. *)
#[global] Instance mem_log : EngineStorage (list LogEntry) := {|
  es_append rs log := (log ++ number (zlen log + 1) rs, Ok (zlen log + zlen rs));
  es_put_page _ _ log := (log, Ok (zlen log))
|}.

Abbreviation Db := (Database ListIndex string (list LogEntry)).

Definition fresh_db : Db := mkDb [] Store_default false GroupCommit_new 1.
Definition fresh_conn : Connection := mkConn None 0 0.

(** A session: a connection to a database. *)
Definition Session : Type := Db * Connection.
Definition exec {E A} (m : Comp (Db * Connection) E A) (x : Session) : Session := (m x).1.
Definition run_all (ops : list (Session → Session)) : Session := foldl (λ x f, f x) (fresh_db, fresh_conn) ops.

Definition table_stmt (sc : TableSchema) : CreateTableStmt :=
  mkCreateTable (schema_name sc) (columns sc) [] [] [] [] false.
Definition ddl (st : Ddl string) : Comp (Db * Connection) EngineStatus unit := exec_ddl (λ _, []) st.
Definition create (n : string) := ddl (DCreateTable (table_stmt (t_schema n))).
Definition ins (n : string) (oc : OnConflict) (rs : list (list Value)) :=
  exec_dml (B := list LogEntry) (run_insert (values_stmt n oc rs)).

(** What a reader at the published mark sees of a table. *)
Definition rows_seen (s : DStore) (n : string) : list (list Value) :=
  values <$> filter (λ r, visible_to_reader r (committed_lsn s) = true) (table_rows s n).
(** The same after a restart. *)
Definition rows_after_restart (d : Db) (n : string) : Result EngineStatus (list (list Value)) :=
  s ← replay (Ok (db_storage d)) (Store_default : DStore); Ok (rows_seen s n).

(** An INSERT of two rows whose second row violates the primary key fails, but its first row stays
    pending in the open transaction and is not in its log: COMMIT shows the row to every reader, and a
    restart loses it. *)
Theorem failed_statement_committed_unlogged :
  let x := run_all [exec (create "t"); exec (ins "t" OCError [[Int 1; TextV "a"]]); exec begin;
                    exec (ins "t" OCError [[Int 2; TextV "b"]; [Int 1; TextV "c"]]);
                    exec (ins "t" OCError [[Int 3; TextV "d"]]); exec commit] in
  rows_seen (db_store x.1) "t" = [[Int 1; TextV "a"]; [Int 2; TextV "b"]; [Int 3; TextV "d"]] ∧
  rows_after_restart x.1 "t" = Ok [[Int 1; TextV "a"]; [Int 3; TextV "d"]].
Proof. vm_compute. done. Qed.

(** A savepoint records vids without their tables: a row inserted after it into another table,
    with a vid that was recorded, survives ROLLBACK TO while its log operation is dropped. *)
Theorem savepoint_mixes_tables :
  let x := run_all [exec (create "a"); exec (create "b"); exec begin;
                    exec (ins "a" OCError [[Int 1; TextV "x"]]); exec (savepoint "s");
                    exec (ins "b" OCError [[Int 2; TextV "y"]]); exec (rollback_to "s");
                    exec commit] in
  rows_seen (db_store x.1) "b" = [[Int 2; TextV "y"]] ∧ rows_after_restart x.1 "b" = Ok [].
Proof. vm_compute. done. Qed.

(** Two writers in flight may insert the same value of a UNIQUE column: the check does not look at
    pending inserts of others, and both commit. *)
Definition two_writers (m1 m2 : WriteCtx → Comp DStore Fault Mutation) (s : DStore) : DStore :=
  let s := (m1 (mkWriteCtx (committed_lsn s) 1) s).1 in
  let s := (m2 (mkWriteCtx (committed_lsn s) 2) s).1 in
  finalize_owner 2 12 (finalize_owner 1 11 s).

Definition base : DStore :=
  with_committed 10 (replay_insert "t" 1 [Int 1; TextV "a"] 10 (insert_table (t_schema "t") Store_default)).

Theorem unique_not_enforced_across_writers :
  rows_seen (with_committed 12
    (two_writers (run_insert (values_stmt "t" OCError [[Int 2; TextV "z"]]))
                 (run_insert (values_stmt "t" OCError [[Int 3; TextV "z"]])) base)) "t"
  = [[Int 1; TextV "a"]; [Int 2; TextV "z"]; [Int 3; TextV "z"]].
Proof. vm_compute. done. Qed.

(** An upsert takes over a row that another in-flight writer is deleting, without the conflict
    check: when the upsert rolls back, the other writer's delete is undone in memory although it is
    committed. *)
Theorem upsert_steals_pending_delete :
  let s := (run_delete (delete_stmt "t" 1) (mkWriteCtx 10 1) base).1 in
  let '(s, r) := run_insert (values_stmt "t" OCReplace [[Int 1; TextV "b"]]) (mkWriteCtx 10 2) s in
  match r with Ok m => mut_wal m | Err _ => [] end = [Delete "t" 1; Insert "t" 2 [Int 1; TextV "b"]] ∧
  rows_seen (with_committed 11 (finalize_owner 1 11 (rollback_owner 2 s))) "t" = [[Int 1; TextV "a"]].
Proof. vm_compute. done. Qed.

(** The key of a unique set is not injective: a text value may contain the separator, and two
    different rows have one key. *)
Theorem composite_key_collides :
  let sep := String KEY_SEP "tb" in
  composite_key [TextV ("a" +:+ sep); TextV "c"] [0; 1]%nat
  = composite_key [TextV "a"; TextV ("b" +:+ String KEY_SEP "tc")] [0; 1]%nat.
Proof. vm_compute. done. Qed.

(** ALTER TABLE … RENAME TO an existing table's name replaces that table and its rows. *)
Theorem rename_destroys_target :
  let x := run_all [exec (create "a"); exec (create "b"); exec (ins "b" OCError [[Int 2; TextV "y"]]);
                    exec (ddl (DAlterTable "a" (ARenameTable "b")))] in
  rows_seen (db_store x.1) "b" = [] ∧ table (db_store x.1) "a" = None.
Proof. vm_compute. done. Qed.

(** A rollback removes the vids it discards from the indexes of every table: another table's row
    with the same vid loses its entry. *)
Definition vec_schema (n : string) : TableSchema :=
  mkSchema n [col "id" CInteger true false false; col "v" (CVector 1) false false false] [] [] [] false [].
Definition vec_stmt (n : string) (i : Z) := values_stmt n OCError [[Int i; Vector [i]]].

Theorem rollback_unindexes_other_tables :
  let run st o s := (run_insert (VI := ListIndex) (SelectStmt := string) st (mkWriteCtx 0 o) s).1 in
  let s := insert_table (vec_schema "b") (insert_table (vec_schema "a") Store_default) in
  let s := create_index (mkIndexDef "ia" "a" "v" IndexParams_default) s in
  let s := finalize_owner 1 5 (run (vec_stmt "a" 7) 1 s) in
  let s' := rollback_owner 2 (run (vec_stmt "b" 8) 2 s) in
  (li_nodes <$> index_for s "a" "v") = Some [(1, [7], false)] ∧
  (li_nodes <$> index_for s' "a" "v") = Some [] ∧
  rows_seen (with_committed 5 s') "a" = [[Int 7; Vector [7]]].
Proof. vm_compute. done. Qed.

(** After the largest integer was stored, a restart sets the auto-increment counter to the
    smallest one. *)
Theorem autoinc_wraps_at_restart :
  let sc := mkSchema "t" [col "id" CInteger true false true] [] [] [] false [] in
  let s : DStore := replay_insert "t" 1 [Int (2 ^ 63 - 1)] 4 (insert_table sc Store_default) in
  (next_autoinc <$> table (rebuild_autoinc s) "t") = Some (- 2 ^ 63).
Proof. vm_compute. done. Qed.

End Findings.
