(* ===== verification/QueryDemo.v ===== *)
(** * Witnesses and findings of multi-source queries *)

From Stdlib Require Import SpecFloat.
From S2P Require Import Prelude Text StorageTypes Numbers Float Chars EngineTypes Values Json Session Funcs Like Ast Expr.
From S2P Require Import ExprSpec Rls SortBy Wal MvccStore Select SelectSpec Joins JoinsSpec Relational RelationalSpec.
From S2P Require Import Dml Recovery GroupCommit Conn ViewSpec EngineDemo.
Import ExprRuns Demo SelectRuns Findings.

Module QueryRuns.

(** A row of another role, in two versions the session cannot tell apart. *)
Definition other_notes (who : string) : Store ListIndex SelectStmt :=
  mkStore {["notes"%string := mkTable notes [note 1 3 "app"; note 2 1 who; note 3 2 "app"] 4 1]} ∅ ∅ 5.

(** [select a.id from notes a left join notes b on a.id = b.id where exists (select 1 from notes)]. *)
Definition table_src (n a : string) : FromClause := FTable n (Some a).
Definition star_of (n : string) : SelectStmt :=
  mkSelect [] false [Star None] (Some (FTable n None)) None [] None [] [] None None.
Definition self_join : SelectStmt :=
  mkSelect [] false [SelExpr (EQualified "a" "id") None]
    (Some (FJoin (table_src "notes" "a") (table_src "notes" "b") LeftJoin
       (Some (EBinary OpEq (EQualified "a" "id") (EQualified "b" "id"))) []))
    (Some (EExists (star_of "notes") false)) [] None [] [] None None.

Definition run_notes (who : string) (sel : SelectStmt) : Res ResultSet :=
  run_query demo_parse demo_host demo_sess 3 (other_notes who) sel 5 None [].

Example self_join_rows : rs_rows <$> (match run_notes "eve" self_join with Ok r => Some r | Err _ => None end)
  = Some [[Int 3]; [Int 2]].
Proof. vm_compute. reflexivity. Qed.

(** ** Witnesses *)

Lemma notes_visible who : Forall (λ v, row_visible v 5 None = true) [note 1 3 "app"; note 2 1 who; note 3 2 "app"].
Proof. repeat constructor. Qed.

Lemma notes_policy i who :
  passes demo_host demo_sess (ReadFilter [owner_is_role]) (ctx_row [Int i; TextV who] notes []) = Ok (String.eqb who "app").
Proof.
  cbn [passes any_true]. change (eval demo_host demo_sess owner_is_role ?cx) with
    (lv ← eval demo_host demo_sess (EColumn "owner") cx; rv ← eval demo_host demo_sess (EFunc "auth.role" []) cx;
     eval_binary OpEq lv rv).
  assert (eval demo_host demo_sess (EColumn "owner") (ctx_row [Int i; TextV who] notes []) = Ok (TextV who)) as -> by reflexivity.
  assert (eval demo_host demo_sess (EFunc "auth.role" []) (ctx_row [Int i; TextV who] notes []) = Ok (TextV "app")) as ->
    by reflexivity.
  cbn. destruct (String.eqb_spec who "app") as [->|Hne]; [reflexivity|].
  destruct (String.compare who "app") eqn:E; [by apply String.compare_eq_iff in E|done..].
Qed.

(** The policy grants exactly the rows whose owner is the role. *)
Lemma notes_allowed i who : allowed demo_parse demo_host demo_sess pol_using notes PSelect (ctx_row [Int i; TextV who] notes [])
  ↔ who = "app"%string.
Proof.
  assert (∀ b, passes demo_host demo_sess (ReadFilter [owner_is_role]) (ctx_row [Int i; TextV who] notes []) = Ok b →
    b = true ↔ allowed demo_parse demo_host demo_sess pol_using notes PSelect (ctx_row [Int i; TextV who] notes [])) as H.
  { intros b. by apply (rls_read_spec demo_parse demo_host demo_sess notes PSelect). }
  rewrite <- (H _ (notes_policy i who)). apply String.eqb_eq.
Qed.

Lemma notes_shown who : who ≠ "app"%string →
  Shows demo_parse demo_host demo_sess notes 5 None [] [note 1 3 "app"; note 2 1 who; note 3 2 "app"]
    [[Int 3; TextV "app"]; [Int 2; TextV "app"]].
Proof.
  intros Hw. apply shows_row; [done|by apply notes_allowed|]. apply shows_hidden; [|].
  - intros [_ H%notes_allowed]. done.
  - apply shows_row; [done|by apply notes_allowed|constructor].
Qed.

Lemma notes_decide who : policies_decide demo_parse demo_host demo_sess
  (mkTable notes [note 1 3 "app"; note 2 1 who; note 3 2 "app"] 4 1) 5 None [].
Proof.
  intros d v Hd Hv _. cbn in Hd. injection Hd as <-.
  assert (∃ i w, values v = [Int i; TextV w]) as (i & w & Hvals).
  { cbn in Hv. repeat (apply elem_of_cons in Hv as [->|Hv]; [by do 2 eexists|]). by apply not_elem_of_nil in Hv. }
  rewrite Hvals. eexists. apply notes_policy.
Qed.


(** The policy [owner::int = 3] fails on a text that is no number. *)
Definition cast_parse (s : string) : Res Expr :=
  if String.eqb s "owner::int = 3" then Ok (EBinary OpEq (ECast (EColumn "owner") ToInt) (EInt 3)) else sql_error.
Definition cast_notes : TableSchema :=
  mkSchema "notes" (columns notes) [] [] [] true
    [mkPolicy "own" PSelect ["app"%string] (Some "owner::int = 3"%string) None].
Definition cast_store (who : string) : Store ListIndex SelectStmt :=
  mkStore {["notes"%string := mkTable cast_notes [note 1 3 "3"; note 2 1 who] 3 1]} ∅ ∅ 5.

(** A hidden row on which the policy fails makes the query fail: two databases that differ in a row the
    session may not see answer differently. *)
Theorem policy_error_leaks :
  let q who := run_query cast_parse demo_host demo_sess 3 (cast_store who) (star_of "notes") 5 None [] in
  match q "4"%string with Ok rs => rs_rows rs = [[Int 3; TextV "3"]] | Err _ => False end ∧ is_ok (q "eve"%string) = false.
Proof. split; vm_compute; reflexivity. Qed.

(** A view over [notes], and one over it. *)
Definition with_views2 : Store ListIndex SelectStmt :=
  mkStore {["notes"%string := notes_table]} ∅ {["v1"%string := star_of "notes"; "v2"%string := star_of "V1"]} 5.
Definition v_rank (n : string) : nat := if String.eqb n "v2" then 1%nat else 0%nat.

Lemma with_views2_acyclic : acyclic (view with_views2) (λ n, v_rank (key n)).
Proof.
  intros name q. rewrite view_key. unfold with_views2. cbn [views].
  destruct (decide ("v1"%string = key name)) as [<-|H1]; [rewrite lookup_insert_eq; intros [= <-]|
    rewrite lookup_insert_ne by done; destruct (decide ("v2"%string = key name)) as [<-|H2];
      [rewrite lookup_singleton_eq; intros [= <-]|by rewrite lookup_singleton_ne]].
  - apply Forall_cons. split; [|constructor]. intros [q Hq]. by vm_compute in Hq.
  - apply Forall_cons. split; [|constructor]. intros _. apply Nat.ltb_lt. vm_compute. reflexivity.
Qed.

Lemma query_terminates_witness :
  ∃ depth, ∀ stack deep, (depth ≤ stack)%nat →
    query_fuel demo_host demo_sess (view with_views2)
      (read_table demo_parse demo_host demo_sess with_views2 5 None []) [] deep stack (star_of "v2")
    = run_query demo_parse demo_host demo_sess depth with_views2 (star_of "v2") 5 None [].
Proof. exact (query_terminates demo_parse demo_host demo_sess with_views2 _ 5 None [] (star_of "v2") with_views2_acyclic). Defined.

Lemma query_result_rectangular_witness :
  ∃ rs, run_notes "eve" self_join = Ok rs ∧ rs_rows rs ≠ [] ∧ rectangular rs.
Proof.
  destruct (run_notes "eve" self_join) as [rs|] eqn:E; [|by vm_compute in E]. exists rs. split_and!; [done| |].
  - intros H. vm_compute in E. injection E as <-. done.
  - exact (query_result_rectangular demo_parse demo_host demo_sess (other_notes "eve") 3 self_join 5 None [] rs E).
Defined.

(** Two tables with one column each, joined on equality. *)
Definition one_col (t c : string) : list RelCol := [mkRelCol (Some t) c CInteger].
Definition rel_a : Relation := mkRelation (one_col "a" "x") [[Int 1]; [Int 2]].
Definition rel_b : Relation := mkRelation (one_col "b" "x") [[Int 2]; [Int 3]].
Definition same_cell (a b : list Value) : bool := bool_decide (a = b).

Lemma joins_exact_witness :
  join demo_host demo_sess [] rel_a rel_b FullJoin None ["x"%string]
  = Ok (mkRelation (one_col "a" "x" ++ one_col "b" "x")
          [[Int 1; Null]; [Int 2; Int 2]; [Null; Int 3]]).
Proof.
  rewrite (joins_exact demo_host demo_sess [] rel_a rel_b FullJoin None ["x"%string] [(0, 1)%nat] same_cell).
  - vm_compute. reflexivity.
  - vm_compute. reflexivity.
  - intros a b Ha Hb. cbn in Ha, Hb.
    repeat (apply elem_of_cons in Ha as [->|Ha]; [|]); try (by apply not_elem_of_nil in Ha);
      repeat (apply elem_of_cons in Hb as [->|Hb]; [vm_compute; reflexivity|]); by apply not_elem_of_nil in Hb.
Defined.

(** ** Findings *)

(** [with v as (select * from v) select * from v]. *)
Definition hidden_self : SelectStmt :=
  mkSelect [("v"%string, star_of "v")] false [Star None] (Some (FTable "v" None)) None [] None [] [] None None.

Abbreviation QDb := (Database ListIndex SelectStmt (list LogEntry)).
Definition empty_db : QDb := mkDb [] Store_default false GroupCommit_new 1.
Definition after_create : QDb * Result EngineStatus (option Z) :=
  do_create_view referenced_relations "v" hidden_self "" false false empty_db.

(** The cycle check leaves out every name the WITH clause binds, but the body of a WITH binding does not
    see it: the view refers to itself, CREATE VIEW accepts it, and a query of it overflows any stack. *)
Theorem recursive_view_accepted :
  after_create.2 = Ok (Some 2) ∧
  ∀ stack, run_query demo_parse demo_host demo_sess stack (db_store after_create.1) (star_of "v") 5 None [] = panic.
Proof.
  split; [vm_compute; reflexivity|].
  assert (∀ n q, n = "v"%string → view (db_store after_create.1) n = Some q → q = hidden_self) as Hv.
  { intros n q ->. vm_compute. by intros [= <-]. }
  assert (view (db_store after_create.1) "v" = Some hidden_self) as Hview by (vm_compute; reflexivity).
  intros stack. unfold run_query. generalize (read_table demo_parse demo_host demo_sess (db_store after_create.1) 5 None []) as rd.
  generalize dependent (view (db_store after_create.1)). intros vw _ Hview rd.
  assert (query_fuel demo_host demo_sess vw rd [] panic stack (star_of "v") = panic ∧
          query_fuel demo_host demo_sess vw rd [] panic stack hidden_self = panic) as [H _]; [|done].
  induction stack as [|stack [IH1 IH2]]; [done|]. cbn [query_fuel]. split.
  - unfold query_step, eval_core. cbn -[query_fuel]. rewrite lookup_empty, Hview, IH2. done.
  - unfold query_step. cbn -[query_fuel]. by rewrite IH1.
Qed.

(** The separator of a row key is not escaped either: UNION takes two different rows of texts for one. *)
Theorem row_key_collides :
  let a := [TextV ("x" +:+ sep_char +:+ "ty"); TextV "z"] in
  let b := [TextV "x"; TextV ("y" +:+ sep_char +:+ "tz")] in
  a ≠ b ∧ set_op_rows Union false [a] [b] = [a].
Proof. split; [discriminate|vm_compute; reflexivity]. Qed.

Definition const_query (i : Z) : SelectStmt :=
  mkSelect [] false [SelExpr (EInt i) (Some "a"%string)] None None [] None [] [] None None.
Definition run_empty (sel : SelectStmt) : Res ResultSet :=
  run_query (VI := ListIndex) demo_parse demo_host demo_sess 9 Store_default sel 5 None [].

(** [select (with x as (select 1 as a) select a from x)]: the test for outer references looks the
    subquery's FROM up without its WITH clause, and the query fails. *)
Theorem subquery_with_fails :
  let inner := mkSelect [("x"%string, const_query 1)] false [SelExpr (EColumn "a") None] (Some (FTable "x" None))
                 None [] None [] [] None None in
  match run_empty inner with Ok rs => rs_rows rs = [[Int 1]] | Err _ => False end ∧
  run_empty (mkSelect [] false [SelExpr (EScalarSubquery inner) None] None None [] None [] [] None None) = sql_error.
Proof. split; vm_compute; reflexivity. Qed.

(** [select 0 as a union all (select 1 as a union all select 2 as a)]: the set operations inside an arm
    are dropped, and the row 2 is missing. *)
Theorem nested_set_op_dropped :
  let arm := mkSelect [] false [SelExpr (EInt 1) (Some "a"%string)] None None [] None [(Union, true, const_query 2)] [] None None in
  match run_empty (mkSelect [] false [SelExpr (EInt 0) (Some "a"%string)] None None [] None [(Union, true, arm)] [] None None) with
  | Ok rs => rs_rows rs = [[Int 0]; [Int 1]]
  | Err _ => False
  end.
Proof. vm_compute. reflexivity. Qed.

(** ** CREATE VIEW on a database without views *)

Lemma create_view_keeps_acyclic_witness :
  ∃ d' r, do_create_view referenced_relations "w" (star_of "t") "" false false empty_db = (d', r) ∧
    is_Some (view (db_store d') "w") ∧ views_ok (db_store d').
Proof.
  eexists _, _. split; [vm_compute; reflexivity|]. split; [vm_compute; by eexists|].
  apply (create_view_keeps_acyclic "w" (star_of "t") "" false false empty_db _ (Ok (Some 2))); [split| |].
  - exists (λ _, 0%nat). intros name q. unfold view. cbn. by rewrite lookup_empty.
  - intros name q. unfold view. cbn. by rewrite lookup_empty.
  - repeat constructor.
  - vm_compute. reflexivity.
Defined.

End QueryRuns.
