(* ===== verification/TxnSpec.v ===== *)
(** * Statements, savepoints and commits

    What DELETE and UPDATE select and refuse, what ROLLBACK TO restores, how group commit forms
    its batches, and what a commit that nobody contends for returns. *)

From S2P Require Import Prelude Text StorageTypes EngineTypes Funcs Wal MvccStore Dml DmlProofs.
From S2P Require Import Recovery GroupCommit Conn EngineInv.

#[local] Open Scope comp_scope.

Section Statements.
Context {VI : Type} `{!VectorIndexOps VI} {SelectStmt : Type} `{!SqlOps SelectStmt}.
Abbreviation Store := (Store VI SelectStmt).

(** The rows a filter selects for a writer. *)
Definition selected (keep : list Value → Result Fault bool) (wc : WriteCtx) (r : RowVersion) : Prop :=
  visible_to_writer r (wc_snapshot wc) (wc_owner wc) = true ∧ keep (values r) = Ok true.

#[global] Instance selected_dec keep wc r : Decision (selected keep wc r).
Proof.
  unfold selected. apply and_dec; [apply _|]. destruct (keep (values r)) as [[]|];
    [left; done | right; by intros [=] | right; by intros [=]].
Defined.

Lemma collect_delete_exact keep wc rs vs :
  collect_delete_victims keep wc rs = Ok vs →
  vs = (λ r, (vid r, values r)) <$> filter (selected keep wc) rs ∧
  Forall (λ r, check_no_conflict r (wc_snapshot wc) (wc_owner wc) = Ok tt) (filter (selected keep wc) rs).
Proof.
  revert vs. induction rs as [|r rs IH]; intros vs; cbn [collect_delete_victims]; [by intros [= <-]|].
  rewrite filter_cons. destruct (visible_to_writer r _ _) eqn:Ev; cbn [negb].
  - intros H. apply Result_bind_Ok in H as (b & Hk & H). destruct b.
    + apply Result_bind_Ok in H as ([] & Hc & H). apply Result_bind_Ok in H as (rest & Hr & [= <-]).
      destruct (IH _ Hr) as [-> HF]. rewrite decide_True by (split; done). split; [done|]. by constructor.
    + rewrite decide_False; [by apply IH|]. intros [_ Hk']. congruence.
  - rewrite decide_False; [by apply IH|]. intros [Hv _]. congruence.
Qed.

(** Whether the filter of an UPDATE selects a row. *)
Definition matches (keep : list Value → Result Fault (option (list Value))) (vals : list Value)
    : Result Fault bool :=
  c ← keep vals; Ok (bool_decide (is_Some c)).

Lemma collect_updates_checked keep mk wc rs us :
  collect_updates keep mk wc rs = Ok us →
  us.*1 = vid <$> filter (selected (matches keep) wc) rs ∧
  Forall (λ r, check_no_conflict r (wc_snapshot wc) (wc_owner wc) = Ok tt) (filter (selected (matches keep) wc) rs).
Proof.
  revert us. induction rs as [|r rs IH]; intros us; cbn [collect_updates]; [by intros [= <-]|].
  rewrite filter_cons. destruct (visible_to_writer r _ _) eqn:Ev; cbn [negb].
  - intros H. apply Result_bind_Ok in H as (c & Hk & H). assert (matches keep (values r) = Ok (bool_decide (is_Some c))) as Hm.
    { unfold matches. by rewrite Hk. }
    destruct c as [ctx|].
    + apply Result_bind_Ok in H as ([] & Hc & H). apply Result_bind_Ok in H as (nv & _ & H).
      apply Result_bind_Ok in H as (rest & Hr & [= <-]).
      destruct (IH _ Hr) as [Hv HF]. rewrite decide_True by done. cbn. rewrite Hv.
      split; [done|]. by constructor.
    + rewrite decide_False; [by apply IH|]. intros [_ Hk']. rewrite Hm in Hk'. discriminate Hk'.
  - rewrite decide_False; [by apply IH|]. intros [Hv _]. congruence.
Qed.

Lemma supersede_all_wal tname wc vids (st : Store * list WalOp) :
  (supersede_all tname wc vids st).1.2 = st.2 ++ (Delete tname <$> vids).
Proof.
  revert st. induction vids as [|v vids IH]; intros [s wal]; cbn [supersede_all].
  { by rewrite app_nil_r. }
  unfold comp_bind. rewrite stm_supersede_ok, IH. cbn. by rewrite <- app_assoc.
Qed.

(** A DELETE that succeeds logs the removal of exactly the rows its writer sees and its filter
    selects, in row order, counts them, and none of them was changed by another writer after the
    snapshot or is being changed by one in flight. *)
Theorem delete_exact st wc (s s' : Store) m t keep :
  table s (del_table st) = Some t → del_keep st s wc (schema t) = Ok keep →
  run_delete st wc s = (s', Ok m) →
  let sel := filter (selected keep wc) (rows t) in
  mut_wal m = (λ r, Delete (del_table st) (vid r)) <$> sel ∧ mut_changes m = zlen sel ∧
  Forall (λ r, check_no_conflict r (wc_snapshot wc) (wc_owner wc) = Ok tt) sel.
Proof.
  intros Ht Hk. unfold run_delete. rewrite Ht, Hk. cbn [mbind Result_bind].
  destruct (collect_delete_victims keep wc (rows t)) as [vs|e] eqn:Ev; [|done].
  destruct (collect_delete_exact _ _ _ _ Ev) as [-> HF]. set (sel := filter _ (rows t)) in *.
  unfold stmt_body, comp_bind. destruct (supersede_all _ wc _ (s, [])) as [[s1 wal] [[]|e]] eqn:Es; [|done].
  cbn. intros H. injection H as -> H. apply Result_bind_Ok in H as (r & _ & [= <-]). cbn.
  split_and!; [|by unfold zlen; rewrite length_fmap|done].
  apply (f_equal (λ x, x.1.2)) in Es. rewrite supersede_all_wal in Es. cbn in Es. rewrite <- Es.
  rewrite <- !list_fmap_compose. done.
Qed.

(** C39. No update is lost: an UPDATE or DELETE whose filter selects a row that another transaction
    changed after the snapshot, or that another in-flight writer is changing, does not succeed. *)
Theorem conflicting_writes_refused wc (s : Store) tname t r :
  table s tname = Some t → r ∈ rows t →
  visible_to_writer r (wc_snapshot wc) (wc_owner wc) = true →
  (wc_snapshot wc < delete_lsn r < PENDING ∧ 0 ≤ wc_snapshot wc ∨ delete_lsn r = PENDING ∧ owner r ≠ wc_owner wc) →
  (∀ st keep s' m, del_table st = tname → del_keep st s wc (schema t) = Ok keep →
     keep (values r) = Ok true → run_delete st wc s ≠ (s', Ok m)) ∧
  (∀ st keep s' m, upd_table st = tname → upd_keep st s wc (schema t) = Ok keep →
     matches keep (values r) = Ok true → run_update st wc s ≠ (s', Ok m)).
Proof.
  intros Ht Hr Hv Hc.
  assert (check_no_conflict r (wc_snapshot wc) (wc_owner wc) ≠ Ok tt) as Hconf.
  { unfold check_no_conflict. destruct Hc as [[[H1 H2] H3]|[H1 H2]].
    - rewrite (proj2 (Z.eqb_neq (delete_lsn r) 0)), (proj2 (Z.eqb_neq (delete_lsn r) PENDING)),
        (proj2 (Z.ltb_lt _ _)) by lia. done.
    - rewrite H1, Z.eqb_refl, (proj2 (Z.eqb_neq _ _) H2). cbn. done. }
  assert (∀ keep, keep (values r) = Ok true → r ∈ filter (selected keep wc) (rows t)) as Hsel.
  { intros keep Hkeep. by apply list_elem_of_filter. }
  split; intros st keep s' m <- Hk Hkeep H.
  - unfold run_delete in H. rewrite Ht, Hk in H. cbn [mbind Result_bind] in H.
    destruct (collect_delete_victims keep wc (rows t)) as [vs|e] eqn:Ev; [|done].
    destruct (collect_delete_exact _ _ _ _ Ev) as [_ HF].
    rewrite Forall_forall in HF. by apply Hconf, HF, Hsel.
  - unfold run_update in H. rewrite Ht in H.
    destruct (compute_updates st s (schema t) wc (rows t) ≫= _) as [us|e] eqn:Ev; [|done].
    apply Result_bind_Ok in Ev as (us' & Ev & _). unfold compute_updates in Ev. rewrite Hk in Ev.
    apply Result_bind_Ok in Ev as (tg & _ & Ev). apply Result_bind_Ok in Ev as (ch & _ & Ev).
    cbn [mbind Result_bind] in Ev. apply Result_bind_Ok in Ev as (rls & _ & Ev).
    destruct (collect_updates_checked _ _ _ _ _ Ev) as [_ HF].
    rewrite Forall_forall in HF. by apply Hconf, HF, Hsel.
Qed.

(** ** Savepoints *)

Lemma elem_of_all_rows (s : Store) k t r : tables s !! k = Some t → r ∈ rows t → r ∈ all_rows s.
Proof.
  intros Hk Hr. unfold all_rows. apply list_elem_of_In, in_concat. exists (rows t). split.
  - apply list_elem_of_In, list_elem_of_fmap. exists (k, t). split; [done|]. by apply elem_of_map_to_list.
  - by apply list_elem_of_In.
Qed.

(** At the savepoint itself there is nothing to undo. *)
Lemma restore_snapshot o (s : Store) :
  all_tables (restore_rows o (pending_snapshot s o).1 (pending_snapshot s o).2) (contents s) = contents s.
Proof.
  apply all_tables_id. intros k [sc rs] Hk. unfold contents in Hk. rewrite lookup_fmap in Hk.
  destruct (tables s !! k) as [t|] eqn:E; [|done]. injection Hk as <- <-. cbn [snd].
  assert (∀ r, r ∈ rows t → restore_row o (pending_snapshot s o).1 (pending_snapshot s o).2 r = Some r) as Hid.
  { intros r Hr. pose proof (elem_of_all_rows s k t r E Hr) as Hall.
    unfold restore_row, since_savepoint, undo_delete_since, pending_snapshot. cbn [fst snd].
    destruct (pending_insert o r) eqn:Ei; cbn [andb].
    - rewrite (bool_decide_eq_true_2 (vid r ∈ _)); cbn [negb].
      + destruct (pending_delete o r) eqn:Ed; cbn [andb]; [|done].
        rewrite (bool_decide_eq_true_2 (vid r ∈ _)); [done|].
        apply elem_of_list_to_set, list_elem_of_fmap. exists r. split; [done|]. by apply list_elem_of_filter.
      + apply elem_of_list_to_set, list_elem_of_fmap. exists r. split; [done|]. by apply list_elem_of_filter.
    - destruct (pending_delete o r) eqn:Ed; cbn [andb]; [|done].
      rewrite (bool_decide_eq_true_2 (vid r ∈ _)); [done|].
      apply elem_of_list_to_set, list_elem_of_fmap. exists r. split; [done|]. by apply list_elem_of_filter. }
  rewrite restore_rows_omap. clear E. induction (rows t) as [|r rs IH]; [done|]. cbn.
  rewrite Hid by left. f_equal. apply IH. intros x Hx. apply Hid. by right.
Qed.

(** ** What a writer has pending *)

(** A row of a table with a vid, pending for its writer. *)
Definition has_row (p : RowVersion → bool) (C : Contents) (k : string) (v : Z) : Prop :=
  ∃ sc rs r, C !! k = Some (sc, rs) ∧ r ∈ rs ∧ vid r = v ∧ p r = true.

Definition inserts (k : string) (v : Z) (op : WalOp) : Prop :=
  match op with Insert t v' _ => key t = k ∧ v' = v | _ => False end.
Definition deletes (k : string) (v : Z) (op : WalOp) : Prop :=
  match op with Delete t v' => key t = k ∧ v' = v | _ => False end.

(** The vids operations insert and delete. *)
Definition inserted_vids (ops : list WalOp) : gset Z :=
  list_to_set (omap (λ op, match op with Insert _ v _ => Some v | _ => None end) ops).
Definition deleted_vids (ops : list WalOp) : gset Z :=
  list_to_set (omap (λ op, match op with Delete _ v => Some v | _ => None end) ops).

Lemma elem_of_inserted v ops : v ∈ inserted_vids ops ↔ ∃ k, Exists (inserts k v) ops.
Proof.
  unfold inserted_vids. rewrite elem_of_list_to_set, list_elem_of_omap. split.
  - intros (op & Ho & Hv). case_dml op. injection Hv as <-. eexists. apply Exists_exists. eexists. split; [exact Ho|]. by split.
  - intros (k & (op & Ho & Hv)%Exists_exists). exists op. case_dml op. by destruct Hv as [_ ->].
Qed.

Lemma elem_of_deleted v ops : v ∈ deleted_vids ops ↔ ∃ k, Exists (deletes k v) ops.
Proof.
  unfold deleted_vids. rewrite elem_of_list_to_set, list_elem_of_omap. split.
  - intros (op & Ho & Hv). case_dml op. injection Hv as <-. eexists. apply Exists_exists. eexists. split; [exact Ho|]. by split.
  - intros (k & (op & Ho & Hv)%Exists_exists). exists op. case_dml op. by destruct Hv as [_ ->].
Qed.

Lemma has_row_on_rows p f k0 C k v sc0 rs0 :
  C !! k0 = Some (sc0, rs0) →
  has_row p (on_rows f k0 C) k v ↔
  if decide (k = k0) then ∃ r, r ∈ f rs0 ∧ vid r = v ∧ p r = true else has_row p C k v.
Proof.
  intros H0. unfold has_row, on_rows. destruct (decide (k = k0)) as [->|Hne].
  - rewrite lookup_alter_eq, H0. cbn. split; [by intros (? & ? & r & [= <- <-] & ?); exists r|].
    intros (r & ?). by exists sc0, (f rs0), r.
  - by rewrite lookup_alter_ne.
Qed.

(** A delete moves no insert and marks its row. *)
Lemma marked_rows p o v rs r v' :
  find_row v rs = Some r → p r = false ∨ p (mark_deleted o r) = true →
  (∃ x, x ∈ update_first (λ r, vid r =? v) (mark_deleted o) rs ∧ vid x = v' ∧ p x = true) ↔
  (∃ x, x ∈ rs ∧ vid x = v' ∧ p x = true) ∨ v' = v ∧ p (mark_deleted o r) = true.
Proof.
  unfold find_row. intros Hf Hp. induction rs as [|x rs IH]; [done|]. cbn in *.
  destruct (Z.eqb_spec (vid x) v) as [Ev|Ev].
  - injection Hf as ->. setoid_rewrite elem_of_cons. split.
    + intros (y & [->|Hy] & <- & Hpy); [by right|]. left. exists y. auto.
    + intros [(y & [->|Hy] & <- & Hpy)|[-> Hpm]].
      * destruct Hp as [Hp|Hp]; [congruence|]. exists (mark_deleted o r). auto.
      * exists y. auto.
      * exists (mark_deleted o r). auto.
  - setoid_rewrite elem_of_cons. destruct (IH Hf) as [IH1 IH2]. split.
    + intros (y & [->|Hy] & Hv & Hpy); [left; exists x; auto|].
      destruct IH1 as [(z & ? & ? & ?)|H1]; [by exists y|left; exists z; auto|by right].
    + intros [(y & [->|Hy] & Hv & Hpy)|H]; [exists x; auto|..].
      * destruct IH2 as (z & ? & ? & ?); [left; by exists y|]. exists z. auto.
      * destruct IH2 as (z & ? & ? & ?); [by right|]. exists z. auto.
Qed.

Lemma has_insert_pend_op o C op k v :
  ok_op o C op → has_row (pending_insert o) (pend_op o C op) k v ↔ has_row (pending_insert o) C k v ∨ inserts k v op.
Proof.
  intros (sc & rs & Hk & Hok). unfold pend_op. rewrite (has_row_on_rows _ _ _ _ _ _ _ _ Hk).
  case_dml op; cbn [op_key pend_rows ok_rows inserts] in *; destruct (decide (k = key t)) as [->|Hne].
  - unfold has_row. setoid_rewrite elem_of_app. setoid_rewrite list_elem_of_singleton. split.
    + intros (r & [Hr| ->] & Hv & Hp); [left; by exists sc, rs, r|by right].
    + intros [(sc' & rs' & r & Hk' & Hr & Hv & Hp)|[_ <-]].
      * rewrite Hk in Hk'. injection Hk' as <- <-. exists r. auto.
      * eexists. split; [by right|]. split; [done|]. unfold pending_insert. cbn. by rewrite Z.eqb_refl.
  - split; [by left|]. intros [H|[H _]]; congruence.
  - destruct Hok as (r & Hf & Hd & Hw).
    assert (pending_insert o (mark_deleted o r) = pending_insert o r) as Em.
    { unfold pending_insert. cbn. rewrite Z.eqb_refl. destruct Hw as [->|[-> Hc]]; [by rewrite Z.eqb_refl|].
      by rewrite (proj2 (Z.eqb_neq _ _) Hc), !andb_false_r. }
    rewrite (marked_rows _ o v0 rs r v Hf); [|rewrite Em; destruct (pending_insert o r); auto].
    unfold has_row. split.
    + intros [(x & ? & ? & ?)|[-> Hp]]; left; [by exists sc, rs, x|]. rewrite Em in Hp.
      destruct (find_row_Some _ _ _ Hf). by exists sc, rs, r.
    + intros [(sc' & rs' & x & Hk' & ?)|[]]. rewrite Hk in Hk'. injection Hk' as <- <-. left. by exists x.
  - split; [by left|]. by intros [H|[]].
Qed.

Lemma has_delete_pend_op o C op k v :
  ok_op o C op → has_row (pending_delete o) (pend_op o C op) k v ↔ has_row (pending_delete o) C k v ∨ deletes k v op.
Proof.
  intros (sc & rs & Hk & Hok). unfold pend_op. rewrite (has_row_on_rows _ _ _ _ _ _ _ _ Hk).
  case_dml op; cbn [op_key pend_rows ok_rows deletes] in *; destruct (decide (k = key t)) as [->|Hne].
  - unfold has_row. setoid_rewrite elem_of_app. setoid_rewrite list_elem_of_singleton. split.
    + intros (r & [Hr| ->] & Hv & Hp); [left; by exists sc, rs, r|].
      unfold pending_delete in Hp. cbn in Hp. by rewrite andb_false_r in Hp.
    + intros [(sc' & rs' & r & Hk' & Hr & Hv & Hp)|[]]. rewrite Hk in Hk'. injection Hk' as <- <-. exists r. auto.
  - split; [by left|]. by intros [H|[]].
  - destruct Hok as (r & Hf & Hd & Hw).
    assert (pending_delete o (mark_deleted o r) = true) as Em by (unfold pending_delete; cbn; by rewrite !Z.eqb_refl).
    rewrite (marked_rows _ o v0 rs r v Hf); [|by right]. unfold has_row. split.
    + intros [(x & ? & ? & ?)|[-> _]]; [left; by exists sc, rs, x|by right].
    + intros [(sc' & rs' & x & Hk' & ?)|[_ <-]]; [|by right]. rewrite Hk in Hk'. injection Hk' as <- <-. left. by exists x.
  - split; [by left|]. intros [H|[H _]]; congruence.
Qed.

(** The rows a writer has pending are those its operations made. *)
Lemma has_pend_ops o C ops k v :
  each_table (unowned o) C → ok_ops o C ops →
  (has_row (pending_insert o) (pend_ops o C ops) k v ↔ Exists (inserts k v) ops) ∧
  (has_row (pending_delete o) (pend_ops o C ops) k v ↔ Exists (deletes k v) ops).
Proof.
  intros HC Hok.
  assert ((has_row (pending_insert o) (pend_ops o C ops) k v ↔ has_row (pending_insert o) C k v ∨ Exists (inserts k v) ops) ∧
    (has_row (pending_delete o) (pend_ops o C ops) k v ↔ has_row (pending_delete o) C k v ∨ Exists (deletes k v) ops)) as [-> ->].
  { clear HC. revert C Hok. induction ops as [|op ops IH]; intros C Hok; [rewrite !Exists_nil; tauto|].
    destruct Hok as [Hop Hok]. destruct (IH _ Hok) as [H1 H2].
    change (pend_ops o C (op :: ops)) with (pend_ops o (pend_op o C op) ops).
    rewrite H1, H2, has_insert_pend_op, has_delete_pend_op, !Exists_cons by done. tauto. }
  assert (∀ p, (∀ r, p r = true → owner r = o) → ¬ has_row p C k v) as Hn.
  { intros p Hp (sc & rs & r & Hk & Hr & _ & H). specialize (HC _ _ Hk). unfold unowned in HC. cbn in HC.
    rewrite Forall_forall in HC. exact (HC r Hr (Hp r H)). }
  assert (¬ has_row (pending_insert o) C k v ∧ ¬ has_row (pending_delete o) C k v) as [H1 H2]; [|tauto].
  split; apply Hn; intros r [H _]%andb_true_iff; lia.
Qed.

Lemma elem_of_all_rows_inv (s : Store) r : r ∈ all_rows s → ∃ k t, tables s !! k = Some t ∧ r ∈ rows t.
Proof.
  unfold all_rows. rewrite list_elem_of_In, in_concat. intros (rs & Hrs & Hr).
  apply list_elem_of_In, list_elem_of_fmap in Hrs as ([k t] & -> & Hk). exists k, t. split.
  - by apply elem_of_map_to_list.
  - by apply list_elem_of_In.
Qed.

Lemma has_row_contents p (s : Store) k v :
  has_row p (contents s) k v ↔ ∃ t r, tables s !! k = Some t ∧ r ∈ rows t ∧ vid r = v ∧ p r = true.
Proof.
  unfold has_row, contents. rewrite lookup_fmap. split.
  - intros (sc & rs & r & Hk & ?). destruct (tables s !! k) as [t|]; [|done]. injection Hk as <- <-. by exists t, r.
  - intros (t & r & -> & ?). by exists (schema t), (rows t), r.
Qed.

Lemma elem_of_pending p (s : Store) v :
  v ∈ vid <$> filter (λ r, p r = true) (all_rows s) ↔ ∃ k, has_row p (contents s) k v.
Proof.
  rewrite list_elem_of_fmap. setoid_rewrite has_row_contents. setoid_rewrite list_elem_of_filter. split.
  - intros (r & -> & Hp & Hr). destruct (elem_of_all_rows_inv _ _ Hr) as (k & t & Hk & Ht). by exists k, t, r.
  - intros (k & t & r & Hk & Hr & <- & Hp). exists r. split_and!; [done..|]. by eapply elem_of_all_rows.
Qed.

(** What a savepoint records are the vids of the operations so far. *)
Lemma pending_snapshot_ops o (s : Store) C ops :
  each_table (unowned o) C → ok_ops o C ops → contents s = pend_ops o C ops →
  pending_snapshot s o = (inserted_vids ops, deleted_vids ops).
Proof.
  intros HC Hok Hs. unfold pending_snapshot. f_equal; apply set_eq; intros v;
    rewrite elem_of_list_to_set, elem_of_pending, ?elem_of_inserted, ?elem_of_deleted, Hs;
    by setoid_rewrite (λ k, proj1 (has_pend_ops o C ops k v HC Hok)) || setoid_rewrite (λ k, proj2 (has_pend_ops o C ops k v HC Hok)).
Qed.

(** No two rows a writer has inserted carry the same vid, and no two it deleted. *)
Definition distinct_vids (o : Z) (s : Store) : bool :=
  bool_decide (NoDup (vid <$> filter (λ r, pending_insert o r = true) (all_rows s))) &&
  bool_decide (NoDup (vid <$> filter (λ r, pending_delete o r = true) (all_rows s))).

Lemma distinct_table p (s : Store) k k' v :
  NoDup (vid <$> filter (λ r, p r = true) (all_rows s)) →
  has_row p (contents s) k v → has_row p (contents s) k' v → k = k'.
Proof.
  rewrite !has_row_contents. intros Hnd (t & r & Hk & Hr & Hv & Hp) (t' & r' & Hk' & Hr' & Hv' & Hp').
  destruct (decide (k = k')) as [|Hne]; [done|]. exfalso.
  assert (all_rows s ≡ₚ rows t ++ rows t' ++ flat_map (rows ∘ snd) (map_to_list (delete k' (delete k (tables s))))) as He.
  { unfold all_rows. rewrite <- flat_map_concat_map, <- (map_to_list_delete (tables s) k t Hk).
    rewrite <- (map_to_list_delete (delete k (tables s)) k' t') by (by rewrite lookup_delete_ne). done. }
  rewrite He in Hnd. rewrite !filter_app, !fmap_app in Hnd. apply NoDup_app in Hnd as (_ & Hd & _).
  apply (Hd v).
  - apply list_elem_of_fmap. exists r. split; [done|]. by apply list_elem_of_filter.
  - apply elem_of_app. left. apply list_elem_of_fmap. exists r'. split; [done|]. by apply list_elem_of_filter.
Qed.

(** No row is inserted or deleted twice. *)
Lemma inserted_once o C ops op k v :
  each_table (unowned o) C → ok_ops o C (ops ++ [op]) → Exists (inserts k v) ops → inserts k v op → False.
Proof.
  intros HC Hok He Hi. apply ok_ops_app in Hok as [Hok [(sc & rs & Hk & Hop) _]].
  apply (has_pend_ops o C ops k v HC Hok) in He as (sc' & rs' & r & Hk' & Hr & Hv & _).
  case_dml op. destruct Hi as [<- ->]. cbn in Hk, Hop. rewrite Hk in Hk'. injection Hk' as <- <-.
  rewrite Forall_forall in Hop. specialize (Hop r Hr). lia.
Qed.

Lemma deleted_once o C ops op k v :
  each_table (unowned o) C → each_table rows_inv C → ok_ops o C (ops ++ [op]) →
  Exists (deletes k v) ops → deletes k v op → False.
Proof.
  intros HC Hi Hok He Hd. apply ok_ops_app in Hok as [Hok [(sc & rs & Hk & Hop) _]].
  apply (has_pend_ops o C ops k v HC Hok) in He as (sc' & rs' & r & Hk' & Hr & Hv & Hp).
  case_dml op. destruct Hd as [<- ->]. cbn in Hk, Hop. rewrite Hk in Hk'. injection Hk' as <- <-.
  destruct Hop as (r' & Hf & Hd & _). apply find_row_Some in Hf as [Hr' Hv'].
  destruct (rows_inv_pend_ops o C ops Hi Hok _ _ Hk) as [Hinc _].
  rewrite (increasing_unique _ _ _ Hinc Hr Hr') in Hp by congruence.
  apply andb_true_iff in Hp as [_ Hp]. rewrite Hd in Hp. done.
Qed.

(** Where vids are distinct, the operations since a savepoint name none it recorded. *)
Lemma distinct_fresh o (s : Store) C ops ops' :
  each_table (unowned o) C → each_table rows_inv C → ok_ops o C (ops ++ ops') →
  contents s = pend_ops o C (ops ++ ops') → distinct_vids o s = true →
  fresh_vids (inserted_vids ops) (deleted_vids ops) ops'.
Proof.
  intros HC Hi Hok Hs [Hn1%bool_decide_eq_true Hn2%bool_decide_eq_true]%andb_true_iff.
  apply Forall_forall. intros op Hin. apply list_elem_of_split in Hin as (a & b & ->).
  assert (ok_ops o C ((ops ++ a) ++ [op])) as Hok1.
  { rewrite cons_middle, !app_assoc in Hok. by apply ok_ops_app in Hok as [Hok _]. }
  case_dml op; rewrite ?elem_of_inserted, ?elem_of_deleted; intros (k & He).
  - assert (key t = k) as E.
    { eapply distinct_table; [exact Hn1|..]; rewrite Hs; apply (has_pend_ops o C _ _ v HC Hok).
      - apply Exists_app. right. apply Exists_app. right. apply Exists_cons. by left.
      - apply Exists_app. by left. }
    eapply (inserted_once o C (ops ++ a) _ k v HC Hok1); [apply Exists_app; by left|by split].
  - assert (key t = k) as E.
    { eapply distinct_table; [exact Hn2|..]; rewrite Hs; apply (has_pend_ops o C _ _ v HC Hok).
      - apply Exists_app. right. apply Exists_app. right. apply Exists_cons. by left.
      - apply Exists_app. by left. }
    eapply (deleted_once o C (ops ++ a) _ k v HC Hi Hok1); [apply Exists_app; by left|by split].
Qed.

Lemma covers_vids ops : covers (inserted_vids ops) (deleted_vids ops) ops.
Proof.
  apply Forall_forall. intros op Hin. case_dml op.
  - apply elem_of_inserted. exists (key t). apply Exists_exists. by exists (Insert t v vals).
  - apply elem_of_deleted. exists (key t). apply Exists_exists. by exists (Delete t v).
Qed.

(** ** What a writer logged *)

(** Row versions, those with a pending delete counted twice. *)
Definition weight (rs : list RowVersion) : nat :=
  foldr (λ r n, if delete_lsn r =? PENDING then S (S n) else S n) 0%nat rs.
Definition weight_at (k : string) (C : Contents) : nat :=
  match C !! k with Some (_, rs) => weight rs | None => 0%nat end.
Definition ops_at (k : string) (ops : list WalOp) : list WalOp := filter (λ op, op_key op = k) ops.

Lemma weight_app a b : weight (a ++ b) = (weight a + weight b)%nat.
Proof. unfold weight. induction a as [|r a IH]; [done|]. cbn. rewrite IH. by destruct (_ =? _). Qed.

Lemma weight_pend o op rs :
  (weight (pend_rows o op rs) ≤ S (weight rs))%nat ∧ (ok_rows o op rs → weight (pend_rows o op rs) = S (weight rs)).
Proof.
  case_dml op; cbn [pend_rows ok_rows]; try (split; [lia|done]).
  - rewrite weight_app. match goal with |- context [weight [?r]] => assert (weight [r] = 1%nat) as -> by done end. split; lia.
  - induction rs as [|r rs [IH1 IH2]]; cbn [update_first weight foldr]; [split; [lia|by intros (? & ? & _)]|].
    unfold find_row in *. cbn [List.find]. destruct (vid r =? v); cbn [weight foldr].
    + cbn [delete_lsn mark_deleted set_owner set_delete]. rewrite Z.eqb_refl. split; [destruct (_ =? _); cbn; lia|].
      intros (x & [= <-] & Hd & _). by rewrite Hd.
    + fold (weight rs). destruct (_ =? _); (split; [|intros H; specialize (IH2 H)]); unfold weight in *; lia.
Qed.

Lemma weight_pend_op o C op k :
  (weight_at k (pend_op o C op) ≤ weight_at k C + length (ops_at k [op]))%nat ∧
  (ok_op o C op → weight_at k (pend_op o C op) = weight_at k C + length (ops_at k [op]))%nat.
Proof.
  unfold weight_at, pend_op, on_rows, ops_at. rewrite filter_cons, filter_nil. case_decide as Hk.
  - subst k. rewrite lookup_alter_eq. destruct (C !! op_key op) as [[sc rs]|] eqn:E; cbn -[weight].
    + destruct (weight_pend o op rs) as [H1 H2]. split; [lia|]. intros (sc' & rs' & Hk & Hop).
      rewrite E in Hk. injection Hk as <- <-. rewrite (H2 Hop). lia.
    + split; [lia|]. intros (? & ? & Hk & _). congruence.
  - rewrite lookup_alter_ne by done. cbn. split; lia.
Qed.

Lemma weight_pend_ops o C ops k :
  (weight_at k (pend_ops o C ops) ≤ weight_at k C + length (ops_at k ops))%nat ∧
  (ok_ops o C ops → weight_at k (pend_ops o C ops) = weight_at k C + length (ops_at k ops))%nat.
Proof.
  revert C. induction ops as [|op ops IH]; intros C; [cbn; split; lia|].
  change (pend_ops o C (op :: ops)) with (pend_ops o (pend_op o C op) ops).
  destruct (IH (pend_op o C op)) as [H1 H2], (weight_pend_op o C op k) as [H3 H4].
  change (op :: ops) with ([op] ++ ops). unfold ops_at in *. rewrite filter_app, length_app.
  split; [lia|]. intros [Ho Hops]. rewrite (H2 Hops), (H4 Ho). lia.
Qed.

Lemma sublist_complete (wal ops : list WalOp) :
  wal `sublist_of` ops → (∀ k, (length (ops_at k ops) ≤ length (ops_at k wal))%nat) → wal = ops.
Proof.
  assert (∀ a b : list WalOp, a `sublist_of` b → ∀ k, (length (ops_at k a) ≤ length (ops_at k b))%nat) as Hle.
  { intros a b Hs k. apply sublist_length. unfold ops_at. induction Hs as [|x a b _ IH|x a b _ IH]; [done|..];
      rewrite ?filter_cons; case_decide; [by apply sublist_skip|done|by apply sublist_cons|done]. }
  induction 1 as [|x wal ops Hs IH|x wal ops Hs IH]; intros Hk; [done|..].
  - f_equal. apply IH. intros k. specialize (Hk k). unfold ops_at in *. rewrite !filter_cons in Hk.
    case_decide; cbn in Hk; lia.
  - specialize (Hk (op_key x)). specialize (Hle _ _ Hs (op_key x)). unfold ops_at in *. rewrite filter_cons in Hk.
    rewrite decide_True in Hk by done. cbn in Hk. lia.
Qed.

(** Operations that make the rows a longer run made are all of it. *)
Lemma logged_complete o C wal ops :
  wal `sublist_of` ops → ok_ops o C ops → pend_ops o C ops = pend_ops o C wal → wal = ops.
Proof.
  intros Hs Hok He. apply sublist_complete; [done|]. intros k.
  pose proof (proj2 (weight_pend_ops o C ops k) Hok) as H1. pose proof (proj1 (weight_pend_ops o C wal k)) as H2.
  rewrite He in H1. lia.
Qed.

(** A writer runs statements one after the other; all of them succeed. *)
Inductive statements (wc : WriteCtx) (s : Store) : Store → list WalOp → Prop :=
| stmts_nil : statements wc s s []
| stmts_snoc s1 ops s2 m :
    statements wc s s1 ops → statement wc s1 s2 (Ok m) → statements wc s s2 (ops ++ mut_wal m).

Lemma statements_emitted wc (s s' : Store) ops :
  table_inv s → statements wc s s' ops →
  ok_ops (wc_owner wc) (contents s) ops ∧ contents s' = pend_ops (wc_owner wc) (contents s) ops ∧ table_inv s'.
Proof.
  intros Hinv. induction 1 as [|s1 ops s2 m _ (Hok & Hc & Hi) Hst]; [done|].
  destruct (statement_emitted _ _ _ _ Hi Hst) as (new & Hw & Hok2 & Hc2 & _ & Hv). cbn in *. subst new.
  rewrite Hc in Hok2, Hc2. split_and!.
  - by apply ok_ops_app.
  - by rewrite Hc2, pend_ops_app.
  - split; [|apply Hv, Hi]. rewrite Hc2. apply rows_inv_pend_ops; [|done]. rewrite <- Hc. apply Hi.
Qed.

(** ROLLBACK TO undoes exactly the statements since the savepoint: in every reachable state with
    an open writer, after any further statements of it the schemas and row versions become those at
    the savepoint again, provided no vid the statements touched, in any table, is among the vids the
    savepoint recorded. *)
Theorem savepoint_restores (w : World (VI := VI) (SelectStmt := SelectStmt)) o snap ops0 (s' : Store) ops :
  rtc step init w → w_active w = Some (o, snap, ops0) →
  statements (mkWriteCtx snap o) (w_store w) s' ops →
  let '(ins, del) := pending_snapshot (w_store w) o in
  fresh_vids ins del ops →
  contents (rollback_to_savepoint o ins del s') = contents (w_store w).
Proof.
  intros Hr Ha Hst. apply reachable_inv in Hr as H.
  destruct (pending_snapshot (w_store w) o) as [ins del] eqn:Ep. intros Hf.
  destruct (statements_emitted _ _ _ _ (inv_table_inv w H) Hst) as (Hok & Hc & _). cbn in Hok, Hc.
  pose proof (restore_snapshot o (w_store w)) as Hs. rewrite Ep in Hs. cbn [fst snd] in Hs.
  rewrite contents_restore, Hc, restore_pend_ops; [done| |apply (inv_table_inv w H)|done..].
  intros ->. apply (inv_nonzero w H). unfold in_flight. rewrite Ha, !fmap_app, !elem_of_app. right. right. by left.
Qed.

End Statements.

(** ** Group commit *)

Lemma take_batch_prefix g q nrec first : ∃ rest, q = take_batch g q nrec first ++ rest.
Proof.
  revert nrec first. induction q as [|id q IH]; intros nrec first; [by exists []|]. cbn [take_batch].
  destruct (negb first && _); [by exists (id :: q)|].
  destruct (IH (nrec + member_len g id) false) as [rest Hr]. exists rest. cbn. by rewrite <- Hr.
Qed.

Definition batch_records (g : GroupCommit) (batch : list Z) : Z :=
  foldr (λ id n, member_len g id + n) 0 batch.

Lemma take_batch_bound g q nrec :
  take_batch g q nrec false = [] ∨ nrec + batch_records g (take_batch g q nrec false) ≤ MAX_BATCH_RECORDS.
Proof.
  revert nrec. induction q as [|id q IH]; intros nrec; cbn [take_batch]; [by left|].
  cbn [negb andb]. destruct (Z.ltb_spec MAX_BATCH_RECORDS (nrec + member_len g id)); [by left|].
  right. cbn [batch_records foldr]. fold (batch_records g).
  destruct (IH (nrec + member_len g id)) as [->|Hb]; cbn; [lia|].
  unfold batch_records in Hb. lia.
Qed.

(** A batch is a bounded prefix of the queue: draining takes members in submission order, at
    least one when there is any, leaves the rest queued, and takes more than one only while their
    records stay within the cap. *)
Theorem drain_batch_bounded g g' batch :
  drain_batch g = (g', batch) →
  queue g = batch ++ queue g' ∧ (queue g ≠ [] → batch ≠ []) ∧
  (zlen batch ≤ 1 ∨ batch_records g batch ≤ MAX_BATCH_RECORDS).
Proof.
  unfold drain_batch. intros [= <- <-]. cbn [queue with_queue]. split_and!.
  - destruct (take_batch_prefix g (queue g) 0 true) as [rest Hr].
    rewrite Hr at 1. f_equal. rewrite Hr at 2. by rewrite drop_app_length.
  - destruct (queue g); [done|]. done.
  - destruct (queue g) as [|id q]; [left; done|]. cbn [take_batch negb andb].
    destruct (take_batch_bound g q (0 + member_len g id)) as [->|Hb]; [left; done|].
    right. cbn. unfold batch_records in Hb. lia.
Qed.

Section Commit.
Context {VI : Type} `{!VectorIndexOps VI} {SelectStmt : Type}.
Context {B : Type} `{!EngineStorage B}.
Abbreviation Store := (Store VI SelectStmt).
Abbreviation Database := (Database VI SelectStmt B).

(** A commit is acknowledged exactly when its records are durable: alone in the queue, a commit
    returns the LSN of its marker, the last record of its append, with its versions published at
    that LSN; when the append fails it returns the mapped error with its versions rolled back.
    Either way the lane is released and the coordinator is idle again. *)
Theorem commit_acknowledged_when_durable o records (d : Database) :
  quiesced (db_group d) = true →
  let '(d', r) := group_commit o records d in
  let id := next_id (db_group d) in
  db_lane d' = false ∧ quiesced (db_group d') = true ∧ members (db_group d') = delete id (members (db_group d)) ∧
  match es_append records (db_storage d) with
  | (b, Ok l) => r = Ok l ∧ db_storage d' = b ∧
                 db_store d' = (publish l [(id, o, zlen records)] (db_store d)).1
  | (b, Err e) => r = Err (commit_error e) ∧ db_storage d' = b ∧
                  db_store d' = rollback_owner o (db_store d)
  end.
Proof.
  intros Hq. unfold quiesced in Hq. apply andb_true_iff in Hq as [Hl Hq].
  apply negb_true_iff in Hl. apply bool_decide_eq_true in Hq.
  destruct d as [b s lane g no]. cbn [db_group db_storage db_store] in *.
  destruct g as [q ms la ni bs cs]. cbn in Hl, Hq. subst q la.
  unfold group_commit, enqueue. cbn -[publish zlen]. unfold member_len. cbn -[publish zlen].
  rewrite lookup_insert_eq. cbn -[publish zlen].
  rewrite app_nil_r. destruct (es_append records b) as [b' [l|e]].
  - destruct (publish l [(ni, o, zlen records)] s) as [s' res] eqn:Ep.
    assert (res = [(ni, Ok l)]) as ->.
    { apply (f_equal snd) in Ep. cbn in Ep. rewrite <- Ep. do 3 f_equal. lia. }
    cbn -[zlen]. rewrite alter_insert_eq. unfold collect. cbn. rewrite lookup_insert_eq. cbn.
    rewrite delete_insert_eq. done.
  - cbn -[zlen]. rewrite alter_insert_eq. unfold collect. cbn. rewrite lookup_insert_eq. cbn.
    rewrite delete_insert_eq. done.
Qed.

End Commit.

(** ** DDL *)

Section DdlLive.
Context {VI : Type} `{!VectorIndexOps VI} {SelectStmt : Type} `{!SqlOps SelectStmt}.
Context {B : Type} `{!EngineStorage B}.
Context (referenced_relations : SelectStmt → list string).
Abbreviation Store := (Store VI SelectStmt).
Abbreviation Database := (Database VI SelectStmt B).

(** One catalog operation was logged with its marker and applied at the marker's LSN. *)
Definition logged (d d' : Database) (l : Z) : Prop :=
  ∃ op b s, is_ddl op ∧ es_append [encode op; encode Commit] (db_storage d) = (b, Ok l) ∧
    live_ddl l (db_store d) op s ∧ db_store d' = with_committed (Z.max (committed_lsn s) l) s.

Lemma log_ddl_logged op f (d d' : Database) l :
  is_ddl op → live_ddl l (db_store d) op (f (db_store d)) →
  log_ddl op f d = (d', Ok (Some l)) → logged d d' l.
Proof.
  intros Hd Hl. unfold log_ddl. destruct (es_append _ _) as [b [l'|e]] eqn:E; [|done].
  intros [= <- ->]. by exists op, b, (f (db_store d)).
Qed.

(** [log_ddl] of what recovery applies too. *)
Lemma log_ddl_same op f (d d' : Database) l :
  is_ddl op → (∀ s, f s = apply_replay l s op) → log_ddl op f d = (d', Ok (Some l)) → logged d d' l.
Proof.
  intros Hd Hf. apply log_ddl_logged; [done|]. rewrite Hf. by constructor.
Qed.

Lemma do_create_index_logged def ine (d d' : Database) l :
  do_create_index def ine d = (d', Ok (Some l)) → logged d d' l.
Proof.
  unfold do_create_index. destruct (has_index _ _); [by destruct ine|].
  destruct (_ ≫= _) as [[]|]; [|done].
  destruct (log_ddl _ _ d) as [d1 [[l1|]|e]] eqn:E; try done. intros [= <- ->].
  assert (logged d d1 l) as (op & b & s & H1 & H2 & H3 & H4).
  { eapply log_ddl_logged; [..|exact E]; [done|]. apply live_index. }
  exists op, b, s. split_and!; try done. rewrite <- H4. unfold checkpoint_vector_index. by case_match.
Qed.

(** DDL logs what it applies: a DDL statement that reports a commit LSN appended exactly one
    catalog operation with its commit marker, the append returned that LSN, and the store in memory
    is the old one with that same operation applied (its index built, its view parsed) and the
    reader mark raised to the LSN. *)
Theorem ddl_logs_what_it_applies st (d d' : Database) l :
  do_ddl referenced_relations st d = (d', Ok (Some l)) → logged d d' l.
Proof.
  destruct st as [st|name ie|t a|def ine|name ie|name q sql rep ine|name ie|t p|name t ie]; cbn [do_ddl].
  - unfold do_create_table. destruct (has_table _ _); [by destruct (ct_if_not_exists st)|].
    destruct (_ ≫= _) as [sc|e]; [|done]. by apply log_ddl_same.
  - unfold do_drop_table. destruct (has_table _ _); [by apply log_ddl_same | by destruct ie].
  - unfold do_alter. destruct (has_table _ _); cbn [negb]; [|done].
    destruct (alter_op _ _ _) as [[op|]|e] eqn:E; try done. destruct a; cbn in E.
    + destruct (has_column _ _ _); [done|]. injection E as <-. by apply log_ddl_same.
    + destruct (has_column _ _ _); [|by destruct if_exists]. injection E as <-. by apply log_ddl_same.
    + injection E as <-. by apply log_ddl_same.
    + injection E as <-. by apply log_ddl_same.
    + injection E as <-. by apply log_ddl_same.
  - apply do_create_index_logged.
  - unfold do_drop_index. destruct (has_index _ _); [by apply log_ddl_same | by destruct ie].
  - unfold do_create_view. destruct (has_table _ _); [done|].
    destruct (_ && _); [by destruct ine|]. destruct (view_would_cycle _ _ _ _); [done|].
    apply log_ddl_logged; [done|]. apply live_view.
  - unfold do_drop_view. destruct (has_view _ _); [by apply log_ddl_same | by destruct ie].
  - unfold do_create_policy. destruct (table _ _); [|done]. destruct (has_policy _ _); [done|].
    destruct (_ ≫= _); [|done]. by apply log_ddl_same.
  - unfold do_drop_policy. destruct (match table _ _ with Some _ => _ | None => _ end);
      [by apply log_ddl_same | by destruct ie].
Qed.

End DdlLive.
