(* ===== verification/SqlSystem.v ===== *)
(** * SQL statements over a storage backend

    Any number of connections run SQL statements, one at a time and in any order the write lane
    allows, on a database over a backend that keeps the laws of the seam.  Each statement goes through
    [Db.run], the model of [Connection::run]: planning, execution, transaction control, the log and the
    storage calls are those of the code.  [sql_step] is every such run, whatever the statement returns;
    [clean_step] the runs that meet none of the defects under which the log does not tell the rows.  A
    clean run is a run of the engine's transition system, so a database opened from what the backend
    holds shows every published snapshot the rows it saw.

    The calls that reach the backend are recorded beside it, to say which of them behaved. *)

From S2P Require Import Prelude Text StorageTypes ObjCodec ObjStorage ObjVersions Seam SeamBranch Numbers EngineTypes.
From S2P Require Import Values Session Funcs Ast Wal WalSpec MvccStore Relational RelationalSpec Select Dml DmlProofs.
From S2P Require Import Recovery GroupCommit Conn Engine EngineInv EngineSpec TxnSpec SystemSpec.
Import Codec Db EngineInv.

Section SqlSystem.
Context {VI : Type} `{!VectorIndexOps VI, !VectorSearch VI}.
Context {S : Type} `{!Storage S, !StorageLaws S}.
Variable tok : FenceToken.
Variable stack : nat.

(** ** Storage calls *)

Inductive Call := CallAppend (rs : list WalRecord) | CallPut (id : PageId) (img : bytes).

(** A backend with the calls it received, each with the state that received it. *)
Definition Traced : Type := S * list (S * Call).

#[local] Instance traced : EngineStorage Traced := {|
  es_append rs x := let '(s, r) := st_append_wal tok rs x.1 in ((s, x.2 ++ [(x.1, CallAppend rs)]), r);
  es_put_page id img x := let '(s, r) := st_put_page tok id img x.1 in ((s, x.2 ++ [(x.1, CallPut id img)]), r)
|}.

(** The backend admits what the call adds and gives it an LSN below the pending mark, or refuses it
    and still holds what it held. *)
Definition behaves (x : S * Call) : Prop :=
  match x.2 with
  | CallAppend rs =>
      match st_append_wal tok rs x.1 with
      | (_, Ok l) => admits x.1 (wal_items rs) ∧ l < PENDING
      | (s', Err _) => ∀ h, holds x.1 h → holds s' h
      end
  | CallPut id img =>
      match st_put_page tok id img x.1 with
      | (_, Ok l) => admits x.1 [PageItem id img] ∧ l < PENDING
      | (s', Err _) => ∀ h, holds x.1 h → holds s' h
      end
  end.

(** ** Runs of SQL statements *)

(** What recovery evaluates a column default with. *)
Variable host0 : Host.
Variable sess0 : SessionContext.
#[local] Instance replay_ops : SqlOps SelectStmt := sql_ops host0 sess0.

Abbreviation Database := (Database VI SelectStmt Traced).
Abbreviation Store := (Store VI SelectStmt).
Abbreviation World := (World (VI := VI) (SelectStmt := SelectStmt)).
Abbreviation sys := (sys_step (VI := VI) (SelectStmt := SelectStmt) (S := S) tok).

Definition backend (d : Database) : S := (db_storage d).1.
Definition calls_of (d : Database) : list (S * Call) := (db_storage d).2.

(** A new database on a backend. *)
Definition new_db (s : S) : Database := mkDb (s, []) Store_default false GroupCommit_new 1.

Definition holds_lane (h : Handle) : bool :=
  match txn (h_conn h) with Some t => writer t | None => false end.

(** A write waits for the lane while another connection holds it. *)
Definition blocked (d : Database) (h : Handle) (st : Statement.Stmt) : bool :=
  (is_dml st || bool_decide (is_Some (ddl_of st))) && db_lane d && negb (holds_lane h).

(** A column is added with the default recovery would give it. *)
Definition stable_default (host : Host) (h : Handle) (st : Statement.Stmt) : Prop :=
  match st with
  | Statement.AlterTable _ (Statement.AddColumn spec) =>
      ∀ sql, Statement.cs_default_sql spec = Some sql →
        eval_const_sql (SqlOps := sql_ops host (h_session h)) sql = eval_const_sql (SqlOps := replay_ops) sql
  | _ => True
  end.

Inductive sql_step : Database * list Handle → Database * list Handle → Prop :=
| sql_connect d hs : sql_step (d, hs) (d, hs ++ [Handle_new])
| sql_close d hs h ks : sql_step (d, hs ++ h :: ks) (close d h, hs ++ ks)
| sql_run d hs h ks st params host d' h' r :
    blocked d h st = false → run stack host st params (d, h) = ((d', h'), r) →
    sql_step (d, hs ++ h :: ks) (d', hs ++ h' :: ks).

(** The rows a transaction has pending are those its log records make. *)
Definition all_logged (d : Database) (t : Txn) : Prop :=
  contents (db_store d)
  = pend_ops (txn_owner t) (contents (rollback_owner (txn_owner t) (db_store d))) (wal_ops t).

(** A writer commits when nothing it did is missing from its log, as a statement that failed half way
    would be, and goes back to a savepoint when the vids it has pending tell its rows apart. *)
Definition sound_control (d : Database) (h : Handle) (st : Statement.Stmt) : Prop :=
  ∀ t, txn (h_conn h) = Some t → writer t = true →
    match st with
    | Statement.Commit => all_logged d t
    | Statement.RollbackTo _ => distinct_vids (txn_owner t) (db_store d) = true
    | _ => True
    end.

(** A statement that ran without meeting one of the engine's defects: it did not panic either, and the
    calls that reached the backend behaved. *)
Record clean (host : Host) (d : Database) (h : Handle) (st : Statement.Stmt) (d' : Database) (r : Res ResultSet)
    : Prop := mkClean {
  clean_default : stable_default host h st;
  clean_control : sound_control d h st;
  clean_panic : r ≠ Err Panicked;
  clean_calls : Forall behaves (calls_of d')
}.

Inductive clean_step : Database * list Handle → Database * list Handle → Prop :=
| clean_connect d hs : clean_step (d, hs) (d, hs ++ [Handle_new])
| clean_close d hs h ks : clean_step (d, hs ++ h :: ks) (close d h, hs ++ ks)
| clean_run d hs h ks st params host d' h' r :
    blocked d h st = false → run stack host st params (d, h) = ((d', h'), r) → clean host d h st d' r →
    clean_step (d, hs ++ h :: ks) (d', hs ++ h' :: ks).

Lemma clean_step_sql a b : clean_step a b → sql_step a b.
Proof. destruct 1; [apply sql_connect|apply sql_close|by eapply sql_run]. Qed.

(** ** What a transaction did *)

(** The operations a transaction did to the rows, beside those it logged and its savepoints.  A
    statement that fails logs none of what it did. *)
Inductive accounts : list WalOp → list Savepoint → list WalOp → Prop :=
| acc_start : accounts [] [] []
| acc_run wal sps ops a b : accounts wal sps ops → a `sublist_of` b → accounts (wal ++ a) sps (ops ++ b)
| acc_save wal sps ops name :
    accounts wal sps ops →
    accounts wal (sps ++ [mkSavepoint name (inserted_vids ops) (deleted_vids ops) (length wal)]) ops.

Lemma accounts_logged wal sps ops : accounts wal sps ops → wal `sublist_of` ops.
Proof. induction 1; [done|by apply sublist_app|done]. Qed.

Lemma accounts_release wal sps ops i : accounts wal sps ops → accounts wal (take i sps) ops.
Proof.
  induction 1 as [|wal sps ops a b _ IH Hs|wal sps ops name H IH].
  - rewrite take_nil. constructor.
  - by constructor.
  - destruct (decide (i ≤ length sps)%nat) as [Hi|Hi]; [by rewrite take_app_le|].
    rewrite take_ge by (rewrite length_app; cbn; lia). by constructor.
Qed.

Lemma accounts_restore wal sps ops i sp :
  accounts wal sps ops → sps !! i = Some sp →
  (sp_wal_len sp ≤ length wal)%nat ∧
  ∃ ops0 ops1, ops = ops0 ++ ops1 ∧ sp_inserted sp = inserted_vids ops0 ∧ sp_deleted sp = deleted_vids ops0 ∧
    accounts (take (sp_wal_len sp) wal) (take (Datatypes.S i) sps) ops0.
Proof.
  intros H. revert i sp. induction H as [|wal sps ops a b _ IH Hs|wal sps ops name H IH]; intros i sp Hi; [done|..].
  - destruct (IH _ _ Hi) as (Hl & ops0 & ops1 & -> & ? & ? & ?). rewrite length_app, take_app_le by done.
    split; [lia|]. exists ops0, (ops1 ++ b). by rewrite app_assoc.
  - destruct (decide (i < length sps)%nat) as [Hlt|Hge].
    + rewrite lookup_app_l in Hi by done. destruct (IH _ _ Hi) as (Hl & ops0 & ops1 & -> & ? & ? & ?).
      split; [done|]. exists ops0, ops1. rewrite take_app_le by lia. done.
    + assert (i = length sps) as ->.
      { apply lookup_lt_Some in Hi. rewrite length_app in Hi. cbn in Hi. lia. }
      rewrite list_lookup_middle in Hi by done. injection Hi as <-. cbn. split; [done|].
      exists ops, []. rewrite app_nil_r, firstn_all, take_ge by (rewrite length_app; cbn; lia).
      split_and!; [done..|]. by constructor.
Qed.

(** ** The simulation *)

Definition writer_of (h : Handle) : option Txn :=
  match txn (h_conn h) with Some t => if writer t then Some t else None | None => None end.
Definition owner_of (h : Handle) : option Z := txn_owner <$> txn (h_conn h).

Definition writers (hs : list Handle) : list Txn := omap writer_of hs.
Definition owners (hs : list Handle) : list Z := omap owner_of hs.

Definition txn_ok (d : Database) (h : Handle) : Prop :=
  ∀ t, txn (h_conn h) = Some t →
    0 < txn_owner t < db_next_owner d ∧ snapshot t ≤ committed_lsn (db_store d) ∧
    (writer t = false → accounts (wal_ops t) (savepoints t) []).

(** The active transaction of the engine is that of a connection. *)
Definition active_as (t : Txn) (a : Z * Z * list WalOp) : Prop :=
  a.1 = (txn_owner t, snapshot t) ∧ accounts (wal_ops t) (savepoints t) a.2.

(** The shared part: nothing is queued, and the world has the database's store. *)
Record quiet (d : Database) (w : World) : Prop := mkQuiet {
  q_store : w_store w = db_store d;
  q_batch : w_batch w = None;
  q_queue : w_queue w = [];
  q_group : quiesced (db_group d) = true;
  q_owner : 0 < db_next_owner d;
  q_lane : db_lane d = bool_decide (is_Some (w_active w))
}.

Record sim (d : Database) (hs : list Handle) (w : World) : Prop := mkSim {
  sim_quiet : quiet d w;
  sim_txns : Forall (txn_ok d) hs;
  sim_owners : NoDup (owners hs);
  sim_writers : Forall2 active_as (writers hs) (option_list (w_active w))
}.

(** What a step of the database must give: it only adds calls and, when they behave, it is a run of
    the engine. *)
Definition simulated (d : Database) (w : World) (d' : Database) (P : World → Prop) : Prop :=
  calls_of d `prefix_of` calls_of d' ∧
  (Forall behaves (calls_of d') → ∃ w', rtc sys (w, backend d) (w', backend d') ∧ P w').

Lemma simulated_stay d w d' (P : World → Prop) :
  db_storage d' = db_storage d → P w → simulated d w d' P.
Proof. unfold simulated, calls_of, backend. intros -> HP. split; [done|]. intros _. exists w. split; [apply rtc_refl|done]. Qed.

Lemma simulated_memory d w d' w' (P : World → Prop) :
  db_storage d' = db_storage d → step w w' → w_last w' = w_last w → P w' → simulated d w d' P.
Proof.
  unfold simulated, calls_of, backend. intros -> Hs Hl HP. split; [done|]. intros _. exists w'.
  split; [|done]. apply rtc_once. by apply sys_memory.
Qed.

Lemma simulated_trans d w d1 d' (P1 P : World → Prop) :
  simulated d w d1 P1 → (∀ w1, P1 w1 → rtc sys (w, backend d) (w1, backend d1) → simulated d1 w1 d' P) →
  calls_of d1 `prefix_of` calls_of d' → simulated d w d' P.
Proof.
  intros [Hp H1] H2 Hp'. split; [by etrans|]. intros Hb.
  destruct H1 as (w2 & Hr & HP1); [destruct Hp' as [k Hk]; rewrite Hk in Hb; by apply Forall_app in Hb as []|].
  destruct (H2 w2 HP1 Hr) as [_ H]. destruct (H Hb) as (w3 & Hr' & HP). exists w3. split; [by etrans|done].
Qed.

Lemma simulated_impl d w d' (P P' : World → Prop) :
  (∀ w', P w' → P' w') → simulated d w d' P → simulated d w d' P'.
Proof. intros H [Hp HP]. split; [done|]. intros Hb. destruct (HP Hb) as (w' & Hr & H'). eauto. Qed.

(** ** Handles *)

Lemma writers_app hs ks : writers (hs ++ ks) = writers hs ++ writers ks.
Proof. apply omap_app. Qed.

Lemma writers_cons h ks : writers (h :: ks) = option_list (writer_of h) ++ writers ks.
Proof. unfold writers. cbn. by destruct (writer_of h). Qed.

Lemma owners_app hs ks : owners (hs ++ ks) = owners hs ++ owners ks.
Proof. apply omap_app. Qed.

Lemma owners_cons h ks : owners (h :: ks) = option_list (owner_of h) ++ owners ks.
Proof. unfold owners. cbn. by destruct (owner_of h). Qed.

Lemma writer_of_lane h : holds_lane h = bool_decide (is_Some (writer_of h)).
Proof. unfold holds_lane, writer_of. destruct (txn (h_conn h)) as [t|]; [|done]. by destruct (writer t). Qed.

(** What a connection makes of the engine's active transaction when no other holds the lane. *)
Definition tied (h : Handle) (a : option (Z * Z * list WalOp)) : Prop :=
  Forall2 active_as (option_list (writer_of h)) (option_list a).

Lemma tied_None h a : tied h a → writer_of h = None → a = None.
Proof. unfold tied. intros H E. rewrite E in H. by destruct a; inversion H. Qed.

Lemma tied_Some h a t :
  tied h a → writer_of h = Some t →
  ∃ ops, a = Some (txn_owner t, snapshot t, ops) ∧ accounts (wal_ops t) (savepoints t) ops.
Proof.
  unfold tied. intros H E. rewrite E in H. destruct a as [[oa ops]|]; inversion H as [|? ? ? ? [Ha Hc]]; subst.
  cbn in Ha, Hc. subst oa. by exists ops.
Qed.

(** The lane is free or the connection's own: it decides what is active. *)
Lemma sim_exclusive d hs h ks w :
  sim d (hs ++ h :: ks) w → db_lane d = false ∨ holds_lane h = true →
  tied h (w_active w) ∧ writers hs = [] ∧ writers ks = [].
Proof.
  intros [Hq _ _ Hw] Hx. rewrite writers_app, writers_cons in Hw. pose proof (q_lane d w Hq) as Hl.
  rewrite writer_of_lane in Hx. unfold tied. pose proof (Forall2_length _ _ _ Hw) as Hn. rewrite !length_app in Hn.
  assert (writers hs = [] ∧ writers ks = []) as [E1 E2].
  { rewrite <- !length_zero_iff_nil. destruct (writer_of h) as [t|], (w_active w) as [a|]; cbn in *;
      try (destruct Hx; congruence); lia. }
  by rewrite E1, E2, app_nil_r in Hw.
Qed.

Lemma sim_txn d hs h ks w : sim d (hs ++ h :: ks) w → txn_ok d h.
Proof. intros [_ H _ _]. apply Forall_app in H as [_ H]. by apply Forall_cons in H as [H _]. Qed.

(** The database moved on, its transactions are still in range. *)
Definition grew (d d' : Database) : Prop :=
  committed_lsn (db_store d) ≤ committed_lsn (db_store d') ∧ db_next_owner d ≤ db_next_owner d'.

Lemma grew_refl d : grew d d.
Proof. split; lia. Qed.

Lemma txn_ok_grew d d' h : grew d d' → txn_ok d h → txn_ok d' h.
Proof. intros [H1 H2] H t Ht. destruct (H t Ht) as (? & ? & ?). split_and!; [lia..|done]. Qed.

Lemma txns_moved d d' hs h h' ks :
  Forall (txn_ok d) (hs ++ h :: ks) → grew d d' → txn_ok d' h' → Forall (txn_ok d') (hs ++ h' :: ks).
Proof.
  intros Ht Hg Hh. apply Forall_app in Ht as [Ht1 Ht2]. apply Forall_cons in Ht2 as [_ Ht2].
  apply Forall_app. split; [|constructor; [done|]]; (eapply Forall_impl; [done|]; intros x; by apply txn_ok_grew).
Qed.

(** The connection keeps its owner id, gives it up, or has a new one. *)
Definition follows (d : Database) (h h' : Handle) : Prop :=
  ∀ o, owner_of h' = Some o → owner_of h = Some o ∨ db_next_owner d ≤ o.

Lemma owners_below d hs o : Forall (txn_ok d) hs → o ∈ owners hs → o < db_next_owner d.
Proof.
  intros Hf Ho. unfold owners in Ho. apply list_elem_of_omap in Ho as (h & Hh & Hoh). rewrite Forall_forall in Hf.
  unfold owner_of in Hoh. destruct (txn (h_conn h)) as [t|] eqn:Et; [|done]. injection Hoh as <-.
  destruct (Hf h Hh t Et) as ([_ ?] & _). done.
Qed.

Lemma owners_moved d hs h h' ks :
  Forall (txn_ok d) (hs ++ h :: ks) → NoDup (owners (hs ++ h :: ks)) → follows d h h' →
  NoDup (owners (hs ++ h' :: ks)).
Proof.
  intros Ht Hn Hf. rewrite owners_app, owners_cons in *. apply Forall_app in Ht as [Ht1 Ht2]. apply Forall_cons in Ht2 as [_ Ht2].
  rewrite (Permutation_app_swap_app (owners hs)) in Hn |- *. apply NoDup_app in Hn as (_ & Hd & Hn).
  apply NoDup_app. split_and!; [by destruct (owner_of h'); cbn; [apply NoDup_singleton|constructor]| |done].
  intros o Ho Hin. destruct (owner_of h') as [o'|] eqn:E; cbn in Ho; [|by apply not_elem_of_nil in Ho].
  apply list_elem_of_singleton in Ho as ->. destruct (Hf _ E) as [H|H].
  - apply (Hd o'); [|done]. rewrite H. by left.
  - apply elem_of_app in Hin as [Hin|Hin]; [apply (owners_below d hs) in Hin|apply (owners_below d ks) in Hin]; (done || lia).
Qed.

(** A connection moved, without taking or giving back the lane. *)
Lemma sim_same d d' hs h h' ks w :
  sim d (hs ++ h :: ks) w → quiet d' w → grew d d' → txn_ok d' h' → follows d h h' → writer_of h' = writer_of h →
  sim d' (hs ++ h' :: ks) w.
Proof.
  intros [Hq Ht Ho Hw] Hq' Hg Hh Hf Ha. split; [done|by eapply txns_moved|by eapply owners_moved|].
  by rewrite writers_app, writers_cons, Ha, <- writers_cons, <- writers_app.
Qed.

(** A connection for which the lane is free or its own moved. *)
Lemma sim_moved d d' hs h h' ks w w' :
  sim d (hs ++ h :: ks) w → db_lane d = false ∨ holds_lane h = true → quiet d' w' → grew d d' →
  txn_ok d' h' → follows d h h' → tied h' (w_active w') → sim d' (hs ++ h' :: ks) w'.
Proof.
  intros Hs Hx Hq' Hg Hh Hf Ha. destruct (sim_exclusive _ _ _ _ _ Hs Hx) as (_ & H1 & H2).
  destruct Hs as [Hq Ht Ho Hw]. split; [done|by eapply txns_moved|by eapply owners_moved|].
  by rewrite writers_app, writers_cons, H1, H2, app_nil_r.
Qed.

(** What the writer at work has done to the rows. *)
Lemma active_contents (w : World) o snap ops :
  Inv w → w_batch w = None → w_queue w = [] → w_active w = Some (o, snap, ops) →
  o ≠ 0 ∧ each_table (unowned o) (contents (recovered w)) ∧ each_table rows_inv (contents (recovered w)) ∧
  ok_ops o (contents (recovered w)) ops ∧ contents (w_store w) = pend_ops o (contents (recovered w)) ops.
Proof.
  intros H Hb Hq Ha. pose proof (inv_contents w H) as H1. pose proof (inv_ok w H) as H2. pose proof (inv_nonzero w H) as H3.
  unfold in_flight in *. rewrite Hb, Hq, Ha in *. cbn in *.
  assert (o ≠ 0) as Ho by (intros ->; apply H3; left).
  split_and!; [done|by apply settled_unowned, H|apply settled_rows_inv, H|apply H2|done].
Qed.

(** The rows of a connection that has not written are not its own. *)
Lemma idle_unowned d hs h ks w t :
  Inv w → sim d (hs ++ h :: ks) w → txn (h_conn h) = Some t → writer t = false →
  each_table (unowned (txn_owner t)) (contents (db_store d)).
Proof.
  intros HI Hs Et Ew. destruct (sim_txn _ _ _ _ _ Hs t Et) as ([Ho _] & _). destruct Hs as [Hq _ Hn Hw].
  rewrite <- (q_store _ _ Hq), (inv_contents w HI). apply unowned_pend_txns; [|apply settled_unowned; [lia|apply HI]].
  unfold in_flight. rewrite (q_batch _ _ Hq), (q_queue _ _ Hq). cbn.
  assert (writer_of h = None) as E by (unfold writer_of; by rewrite Et, Ew).
  rewrite writers_app, writers_cons, E in Hw. cbn in Hw. rewrite <- writers_app in Hw.
  destruct (w_active w) as [[[o snap] ops]|]; cbn in *; [|by apply not_elem_of_nil].
  rewrite list_elem_of_singleton. intros Eo. inversion Hw as [|t' ? ? ? [Ha _] Hw' Ew']; subst. inversion Hw'; subst.
  cbn in Ha. injection Ha as Ha _. rewrite owners_app, owners_cons in Hn. unfold owner_of in Hn. rewrite Et in Hn. cbn in Hn.
  rewrite <- Permutation_middle in Hn. apply NoDup_cons in Hn as [Hn _]. apply Hn. rewrite <- owners_app.
  assert (t' ∈ writers (hs ++ ks)) as Hin by (rewrite <- Ew'; left).
  unfold writers in Hin. apply list_elem_of_omap in Hin as (h' & Hh' & Hwh'). unfold owners. apply list_elem_of_omap.
  exists h'. split; [done|]. unfold owner_of. unfold writer_of in Hwh'. destruct (txn (h_conn h')) as [t2|]; [|done].
  destruct (writer t2); [|done]. injection Hwh' as ->. cbn. by f_equal.
Qed.

(** ** Statements *)

(** Rows of the committed state, or the writer's own. *)
Definition own_or_settled (o : Z) (rs : list RowVersion) : Prop :=
  Forall (λ r, owner r = o ∨ owner r = 0 ∧ delete_lsn r ≠ PENDING) rs.

Lemma own_or_settled_pend o C ops :
  each_table (own_or_settled o) C → each_table (own_or_settled o) (pend_ops o C ops).
Proof.
  revert C. induction ops as [|op ops IH]; intros C HC; [done|]. apply IH.
  apply each_table_on_rows; [done|]. intros _ rs _ Hr. destruct op; try done; cbn.
  - apply Forall_app. split; [done|]. constructor; [by left|done].
  - apply Forall_update_first; [done|]. intros r _. by left.
Qed.

(** A writer that is alone may delete every row it sees at the published mark. *)
Lemma sole_upsertable (w : World) o snap ops tname :
  Inv w → w_batch w = None → w_queue w = [] → w_active w = Some (o, snap, ops) →
  upsertable o (w_store w) tname.
Proof.
  intros H Hb Hq Ha t r Ht Hr Hv. apply contents_lookup in Ht as Hc.
  pose proof (inv_contents w H) as Hcs. unfold in_flight in Hcs. rewrite Hb, Hq, Ha in Hcs. cbn in Hcs.
  pose proof (inv_nonzero w H) as Hz. unfold in_flight in Hz. rewrite Hb, Hq, Ha in Hz. cbn in Hz.
  assert (o ≠ 0) as Ho by (intros ->; apply Hz; left). rewrite Hcs in Hc.
  destruct (inv_lsn w H) as [Hl HP]. rewrite <- (inv_committed w H) in Hv, Hl.
  assert (own_or_settled o (rows t)) as Hos.
  { refine (own_or_settled_pend o _ _ _ _ _ Hc). intros k [sc rs] Hk. cbn.
    pose proof (proj1 (inv_settled w H) k _ Hk) as H0. pose proof (inv_bounded w H k _ Hk) as H1. cbn in H0, H1.
    apply Forall_forall. intros x Hx. right. unfold committed, stamped_to in *. rewrite Forall_forall in H0, H1.
    split; [by apply H0|]. specialize (H1 x Hx). cbn in H1. lia. }
  assert (bounded (committed_lsn (recovered w)) (rows t)) as Hbd.
  { refine (bounded_pend_txns _ _ [(o, ops)] _ _ _ _ Hc); [lia|]. eapply each_table_impl; [apply (inv_bounded w H)|].
    intros x. apply stamped_bounded. }
  unfold own_or_settled, bounded in *. rewrite Forall_forall in Hos, Hbd. specialize (Hos r Hr). specialize (Hbd r Hr).
  cbn in Hos, Hbd. unfold visible_to_writer in Hv. apply andb_true_iff in Hv as [Hcr Hd]. apply negb_true_iff in Hd.
  split.
  - destruct (Z.eqb_spec (delete_lsn r) PENDING) as [E|E].
    + apply Z.eqb_neq in Hd. destruct Hos as [?|[? ?]]; congruence.
    + destruct (Z.eqb_spec (delete_lsn r) 0); [done|]. cbn in Hd. apply Z.leb_gt in Hd. lia.
  - destruct Hos as [?|[E0 _]]; [by left|right]. split; [done|]. intros Ep. rewrite Ep, Z.eqb_refl, E0 in Hcr.
    apply Z.eqb_eq in Hcr. congruence.
Qed.

Lemma dml_statement host sess params st wc (s s' : Store) r :
  is_dml st = true → (∀ tname, upsertable (wc_owner wc) s tname) →
  dml_run stack host sess params st wc s = (s', r) → statement wc s s' r.
Proof.
  intros Hd Hu. destruct st; try done; cbn [dml_run]; intros H.
  - eapply (stmt_insert _ _ _ _ (sql_ops host sess)); [right; apply Hu|exact H].
  - eapply (stmt_update _ _ _ _ (sql_ops host sess)); exact H.
  - by eapply stmt_delete.
Qed.

(** ** Transaction control *)

Lemma publish_committed l ms (s : Store) : committed_lsn s ≤ committed_lsn (publish l ms s).1.
Proof.
  unfold publish. set (st := commit_lsns _ _ _). cbn.
  assert (committed_lsn (foldl (λ s '(_, o, l), finalize_owner o l s) s st) = committed_lsn s) as Hf.
  { generalize s. induction st as [|[[id o] k] st IH]; intros s1; [done|]. cbn. rewrite IH. apply finalize_owner_tables. }
  destruct (Z.ltb_spec (committed_lsn (foldl (λ s '(_, o, l), finalize_owner o l s) s st))
    (match last st with Some (_, _, l0) => l0 | None => 0 end)); cbn; lia.
Qed.

(** The lane is given back and the transaction is over. *)
Definition ended (d d' : Database) (w' : World) : Prop :=
  quiet d' w' ∧ w_active w' = None ∧ grew d d'.

Lemma batch_records_single o ops : batch_records [(o, ops)] = txn_records ops.
Proof. unfold batch_records. cbn. by rewrite app_nil_r. Qed.

Lemma lead_next_owner fuel (d : Database) : db_next_owner (lead fuel d) = db_next_owner d.
Proof.
  revert d. induction fuel as [|fuel IH]; intros d; [done|]. cbn [lead]. destruct (drain_batch _) as [g b].
  destruct (if bool_decide _ then _ else _) as [[b' s'] g']. destruct (relinquish g') as [g2 []]; [done|].
  by rewrite IH.
Qed.

Lemma group_commit_next_owner o rs (d : Database) : db_next_owner (group_commit o rs d).1 = db_next_owner d.
Proof.
  unfold group_commit. destruct (enqueue _ _ _) as [g [id am]]. destruct (collect _ _) as [g' q]. cbn [fst db_next_owner].
  by destruct am; [rewrite lead_next_owner|].
Qed.

Lemma group_commit_sim (d : Database) w o snap ops d' r :
  quiet d w → w_active w = Some (o, snap, ops) → ops ≠ [] → group_commit o (txn_records ops) d = (d', r) →
  simulated d w d' (ended d d').
Proof.
  intros [Qs Qb Qq Qg Qo Ql] Ha Hn Hg.
  pose proof (commit_acknowledged_when_durable o (txn_records ops) d Qg) as H. rewrite Hg in H.
  set (id := next_id (db_group d)) in H. set (n := zlen (txn_records ops)) in H.
  assert (db_next_owner d' = db_next_owner d) as Hno.
  { apply (f_equal fst) in Hg. cbn in Hg. rewrite <- Hg. apply group_commit_next_owner. }
  destruct H as (Hl & Hq' & _ & H). cbn [es_append traced] in H.
  destruct (st_append_wal tok (txn_records ops) (db_storage d).1) as [s' [l|e]] eqn:Eap.
  all: destruct H as (_ & Hst & Hsto); unfold simulated, calls_of, backend; rewrite Hst; cbn [fst snd].
  all: split; [by eexists|]; intros Hb; apply Forall_app in Hb as [_ Hb]; rewrite Forall_singleton in Hb.
  all: unfold behaves in Hb; cbn [fst snd] in Hb; rewrite Eap in Hb.
  all: set (w1 := mkWorld (w_store w) (w_log w) (w_batch w) (w_queue w ++ [(o, ops)]) None (w_last w)).
  all: assert (sys (w, (db_storage d).1) (w1, (db_storage d).1)) as Hs1
    by (apply sys_memory; [by eapply step_commit|done]).
  all: assert (gathered [(id, o, n)] [(o, ops)]) as Hga
    by (constructor; [split; [done|apply zlen_txn_records]|constructor]).
  all: assert (w_queue w1 = [(o, ops)] ++ []) as Hwq by (cbn; by rewrite Qq).
  - destruct Hb as [Had HlP]. set (b := mkBatch l [(id, o, n)] [(o, ops)]).
    set (w2 := mkWorld (w_store w1) (w_log w1) (Some b) [] (w_active w1) l).
    set (w3 := mkWorld (publish (b_last b) (b_members b) (w_store w2)).1 (w_log w2 ++ stamped b) None
                 (w_queue w2) (w_active w2) (w_last w2)).
    exists w3. split.
    + eapply rtc_l; [exact Hs1|]. eapply rtc_l; [|apply rtc_once; apply (sys_memory tok w2 w3); [by apply step_publish|done]].
      apply (sys_append tok w1 _ s' [(o, ops)] [] [(id, o, n)] l);
        [done|done|done|done|by rewrite batch_records_single|by rewrite batch_records_single|done].
    + split_and!; [|done|].
      * split; try done; cbn -[publish]; [by rewrite Hsto, Qs|by rewrite Hno].
      * split; [|lia]. rewrite Hsto. apply publish_committed.
  - exists (mkWorld (abort_batch e [(id, o, n)] (w_store w1)).1 (w_log w1) None [] (w_active w1) (w_last w1)). split.
    + eapply rtc_l; [exact Hs1|]. apply rtc_once.
      apply (sys_append_refused tok w1 _ s' [(o, ops)] [] [(id, o, n)] e);
        [done|done|done|by rewrite batch_records_single|done].
    + split_and!; [|done|].
      * split; try done; cbn; [by rewrite Hsto, Qs|by rewrite Hno].
      * split; [|lia]. rewrite Hsto. by rewrite (proj2 (rollback_owner_tables o (db_store d))).
Qed.

Lemma finish_commit_sim (d : Database) w t c d' c' r :
  quiet d w → writer t = true → w_active w = Some (txn_owner t, snapshot t, wal_ops t) →
  finish_commit t (d, c) = ((d', c'), r) → simulated d w d' (ended d d') ∧ txn c' = txn c.
Proof.
  intros Hq Hw Ha. unfold finish_commit. rewrite Hw. case_bool_decide as Hn.
  - intros [= <- <- <-]. split; [|done]. rewrite Hn in Ha.
    eapply simulated_memory; [done|by eapply step_commit_empty|done|]. destruct Hq. split_and!; [|done|split; cbn; lia].
    by split.
  - destruct (group_commit (txn_owner t) _ d) as [d1 [l|e]] eqn:E; intros [= <- <- <-];
      (split; [by eapply group_commit_sim|done]).
Qed.

(** A step in memory comes first. *)
Lemma simulated_after d d1 w w1 d' P :
  db_storage d1 = db_storage d → w1 = w ∨ step w w1 ∧ w_last w1 = w_last w →
  simulated d1 w1 d' P → simulated d w d' P.
Proof.
  unfold simulated, calls_of, backend. intros -> Hs [Hp H]. split; [done|]. intros Hb.
  destruct (H Hb) as (w' & Hr & HP). exists w'. split; [|done]. destruct Hs as [->|[Hs Hl]]; [done|].
  eapply rtc_l; [by apply sys_memory|done].
Qed.

Lemma grew_trans d1 d2 d3 : grew d1 d2 → grew d2 d3 → grew d1 d3.
Proof. intros [] []. split; lia. Qed.

Definition on_handle (h : Handle) (c : Connection) : Handle := mkHandle c (h_ef h) (h_session h).

(** ** DML *)

(** The transaction a write runs in is the active one, with what it did. *)
Definition opened (h : Handle) (d d1 : Database) (w w1 : World) (t : Txn) (ops : list WalOp) : Prop :=
  (w1 = w ∨ step w w1 ∧ w_last w1 = w_last w) ∧ quiet d1 w1 ∧ grew d d1 ∧
  db_store d1 = db_store d ∧ db_storage d1 = db_storage d ∧
  writer t = true ∧ 0 < txn_owner t < db_next_owner d1 ∧ snapshot t ≤ committed_lsn (db_store d1) ∧
  w_active w1 = Some (txn_owner t, snapshot t, ops) ∧ accounts (wal_ops t) (savepoints t) ops ∧
  (owner_of h = Some (txn_owner t) ∨ txn (h_conn h) = None ∧ wal_ops t = [] ∧ ops = []).

Lemma begin_quiet d d1 w o snap :
  quiet d w → w_active w = None → 0 < o → snap ≤ committed_lsn (db_store d) →
  db_store d1 = db_store d → db_group d1 = db_group d → db_lane d1 = true → 0 < db_next_owner d1 →
  let w1 := mkWorld (w_store w) (w_log w) (w_batch w) (w_queue w) (Some (o, snap, [])) (w_last w) in
  step w w1 ∧ quiet d1 w1.
Proof.
  intros [Qs Qb Qq Qg Qo Ql] Ha Ho Hs Hst Hgr Hl Hn w1. split.
  - apply step_begin; [done|lia| |by rewrite Qs]. unfold in_flight. rewrite Qb, Qq, Ha. by apply not_elem_of_nil.
  - split; try done; cbn; congruence.
Qed.

Lemma open_writer_sim d hs h ks w t d1 :
  sim d (hs ++ h :: ks) w → db_lane d = false ∨ holds_lane h = true → open_writer d (h_conn h) = (t, d1) →
  ∃ w1 ops, opened h d d1 w w1 t ops.
Proof.
  intros Hs Hx. destruct (sim_exclusive _ _ _ _ _ Hs Hx) as (Ha & _). pose proof (sim_txn _ _ _ _ _ Hs) as Ht.
  destruct Hs as [Hq _ _ _]. unfold holds_lane, txn_ok, open_writer in *.
  destruct (txn (h_conn h)) as [t0|] eqn:Et.
  - assert (owner_of h = Some (txn_owner t0)) as Eo by (unfold owner_of; by rewrite Et).
    destruct (Ht t0 eq_refl) as (Ho & Hsn & Hw). destruct (writer t0) eqn:Ew; intros [= <- <-].
    + destruct (tied_Some h _ t0 Ha) as (ops & Ea & Hac); [unfold writer_of; by rewrite Et, Ew|].
      exists w, ops. unfold opened. split_and!; first [done|lia|by left|split; lia].
    + assert (w_active w = None) as En by (apply (tied_None h); [done|]; unfold writer_of; by rewrite Et, Ew).
      destruct (begin_quiet d (set_lane true d) w (txn_owner t0) (snapshot t0)) as [Hst Hq1]; try done; [lia|apply Hq|].
      eexists _, []. unfold opened. split_and!; [by right|exact Hq1|..]; first [done|cbn; lia|split; cbn; lia|by left|by apply Hw].
  - assert (w_active w = None) as En by (apply (tied_None h); [done|]; unfold writer_of; by rewrite Et).
    unfold new_txn, next_owner. cbn. intros [= <- <-]. pose proof (q_owner d w Hq) as Hno.
    match goal with |- ∃ _ _, opened _ _ ?d1 _ _ _ _ => set (dn := d1) end.
    destruct (begin_quiet d dn w (db_next_owner d) (committed_lsn (db_store d))) as [Hst Hq1]; try done; cbn; [lia|].
    eexists _, []. unfold opened. split_and!; [by right|exact Hq1|..]; first [done|cbn; lia|split; cbn; lia|by right|constructor].
Qed.

Lemma follows_none d h h' : txn (h_conn h') = None → follows d h h'.
Proof. intros E o. unfold owner_of. by rewrite E. Qed.

Lemma exec_dml_sim d hs h ks w host params st d' c' r :
  rtc step init w → sim d (hs ++ h :: ks) w → is_dml st = true → db_lane d = false ∨ holds_lane h = true →
  exec_dml (dml_run stack host (h_session h) params st) (d, h_conn h) = ((d', c'), r) → r ≠ Err Panicked →
  simulated d w d' (λ w', sim d' (hs ++ on_handle h c' :: ks) w').
Proof.
  intros Hr Hs Hd Hx. unfold exec_dml. destruct (open_writer d (h_conn h)) as [t d1] eqn:Eo.
  destruct (open_writer_sim _ _ _ _ _ _ _ Hs Hx Eo) as (w1 & ops & Hst & Hq1 & Hg1 & Es1 & Esg & Hwt & Hot & Hsn & Ha1 & Hac & Hown).
  assert (Inv w1) as HI by (apply reachable_inv; destruct Hst as [->|[? _]]; [done|by eapply rtc_r]).
  destruct (dml_run stack host (h_session h) params st _ (db_store d1)) as [s q] eqn:Er.
  assert (statement (mkWriteCtx (snapshot t) (txn_owner t)) (w_store w1) s q) as Hstm.
  { rewrite (q_store _ _ Hq1). eapply dml_statement; [done| |exact Er]. intros tname. cbn.
    rewrite <- (q_store _ _ Hq1). eapply sole_upsertable; [done|apply Hq1..|exact Ha1]. }
  destruct (statement_left _ _ _ _ (inv_table_inv w1 HI) Hstm) as (wal & Hem & Hmw).
  assert (committed_lsn s = committed_lsn (db_store d1)) as Hcs.
  { destruct Hem as (new & _ & _ & _ & Hc & _). cbn in Hc. by rewrite Hc, (q_store _ _ Hq1). }
  set (d2 := set_store (λ _, s) d1).
  assert (grew d d2) as Hg2 by (eapply grew_trans; [exact Hg1|split; cbn; lia]).
  assert (∀ t' ops' c w', txn_owner t' = txn_owner t → snapshot t' = snapshot t → writer t' = true → txn c = Some t' →
    txn (h_conn h) ≠ None → quiet d2 w' → w_active w' = Some (txn_owner t, snapshot t, ops') →
    accounts (wal_ops t') (savepoints t') ops' → sim d2 (hs ++ on_handle h c :: ks) w') as Hgo.
  { intros t' ops' c w' E1 E2 E3 Hc Hn Hq' Ha' Hac'. eapply (sim_moved d d2); [exact Hs|done|done|done|..].
    - intros t2 H2. cbn in H2. rewrite Hc in H2. injection H2 as <-. rewrite E1, E2, E3. cbn. rewrite Hcs. split_and!; [lia..|done].
    - intros o. unfold owner_of at 1. cbn. rewrite Hc. intros [= <-]. rewrite E1. destruct Hown as [?|[? _]]; [by left|done].
    - unfold tied, writer_of. cbn. rewrite Hc, E3, Ha'. constructor; [|constructor]. split; [cbn; by rewrite E1, E2|done]. }
  intros Hrun Hnp. eapply simulated_after; [exact Esg|exact Hst|].
  destruct q as [m|[e|]].
  - specialize (Hmw m eq_refl). subst wal.
    set (w2 := mkWorld s (w_log w1) (w_batch w1) (w_queue w1) (Some (txn_owner t, snapshot t, ops ++ mut_wal m)) (w_last w1)).
    assert (step w1 w2) as Hs2 by (by eapply step_stmt).
    assert (quiet d2 w2) as Hq2 by (destruct Hq1; split; try done; cbn; by rewrite q_lane0, Ha1).
    case_bool_decide as Himp.
    + destruct (comp_bind _ _ _) as [[d3 c3] q3] eqn:Ef. injection Hrun as <- <- <-. unfold comp_bind in Ef.
      destruct (finish_commit _ _) as [[d4 c4] q4] eqn:Ef'.
      assert (d4 = d3 ∧ c4 = c3) as [-> ->] by (destruct q4; by injection Ef as <- <- _).
      assert (w_active w2 = Some (txn_owner t, snapshot t, wal_ops (push_ops (mut_wal m) t))) as Ha2.
      { destruct Hown as [Ho|(_ & Ew & Eop)]; [unfold owner_of in Ho; by rewrite Himp in Ho|]. cbn. by rewrite Ew, Eop. }
      destruct (finish_commit_sim d2 w2 (push_ops (mut_wal m) t) _ _ _ _ Hq2 Hwt Ha2 Ef') as [Hsim Htx].
      eapply (simulated_after d1 d2); [done|right; split; [exact Hs2|done]|].
      eapply simulated_impl; [|exact Hsim]. intros w' (Hq' & Ha' & Hg').
      eapply (sim_moved d d3); [exact Hs|done|done|by eapply grew_trans|..].
      * intros t'. cbn. by rewrite Htx.
      * by apply follows_none.
      * unfold tied, writer_of. cbn. rewrite Htx, Ha'. constructor.
    + injection Hrun as <- <- <-. eapply simulated_memory; [done|exact Hs2|done|].
      eapply (Hgo (push_ops (mut_wal m) t)); try done. by constructor.
  - case_bool_decide as Himp.
    + injection Hrun as <- <- <-. eapply simulated_memory; [by unfold abandon; rewrite Hwt|by eapply step_abort|done|].
      eapply (sim_moved d); [exact Hs|done| | |by intros t'|by apply follows_none|by constructor].
      * unfold abandon. rewrite Hwt. destruct Hq1. by split.
      * eapply grew_trans; [exact Hg2|]. unfold abandon. rewrite Hwt. split; cbn; [|lia].
        by rewrite (proj2 (rollback_owner_tables _ _)).
    + injection Hrun as <- <- <-. eapply simulated_memory; [done|by eapply step_stmt_failed|done|].
      eapply (Hgo t (ops ++ wal)); try done; [destruct Hq1; split; try done; cbn; by rewrite q_lane0, Ha1|].
      rewrite <- (app_nil_r (wal_ops t)). constructor; [done|apply sublist_nil_l].
  - injection Hrun as <- <- <-. done.
Qed.

(** ** DDL *)

(** Nothing but the LSN of the last record moved. *)
Definition only_last (w w' : World) : Prop :=
  w_store w' = w_store w ∧ w_batch w' = w_batch w ∧ w_queue w' = w_queue w ∧ w_active w' = w_active w.

Lemma quiet_only_last d w w' : only_last w w' → quiet d w → quiet d w'.
Proof. intros (Es & Eb & Eq & Ea) [Qs Qb Qq Qg Qo Ql]. split; [by rewrite Es|by rewrite Eb|by rewrite Eq|done|done|by rewrite Ea]. Qed.

Lemma put_frames_sim region frames (b : Traced) w :
  b.2 `prefix_of` (put_frames region frames b).2 ∧
  (Forall behaves (put_frames region frames b).2 →
   ∃ w', rtc sys (w, b.1) (w', (put_frames region frames b).1) ∧ only_last w w').
Proof.
  revert region b w. induction frames as [|f frames IH]; intros region b w; cbn [put_frames].
  { split; [done|]. intros _. exists w. split; [apply rtc_refl|done]. }
  destruct (PAGE_SIZE <? zlen f). { split; [done|]. intros _. exists w. split; [apply rtc_refl|done]. }
  cbn [es_put_page traced]. destruct (st_put_page tok region f b.1) as [s [l|e]] eqn:Ep.
  - set (b1 := (s, b.2 ++ [(b.1, CallPut region f)])).
    set (w1 := mkWorld (w_store w) (w_log w) (w_batch w) (w_queue w) (w_active w) l).
    destruct (IH (region + 1) b1 w1) as [Hp H]. split; [etrans; [|exact Hp]; by eexists|]. intros Hb.
    destruct (H Hb) as (w' & Hr & Ho). exists w'. split; [|done].
    assert (behaves (b.1, CallPut region f)) as Hf.
    { destruct Hp as [k Hk]. rewrite Hk in Hb. apply Forall_app in Hb as [Hb _]. cbn in Hb.
      apply Forall_app in Hb as [_ Hb]. by rewrite Forall_singleton in Hb. }
    unfold behaves in Hf. cbn [fst snd] in Hf. rewrite Ep in Hf. destruct Hf as [Had Hl].
    eapply rtc_l; [|exact Hr]. by eapply sys_page.
  - split; [by eexists|]. intros Hb. apply Forall_app in Hb as [_ Hb]. rewrite Forall_singleton in Hb.
    unfold behaves in Hb. cbn [fst snd] in Hb. rewrite Ep in Hb. exists w. split; [|done].
    apply rtc_once. by eapply sys_page_refused.
Qed.

Lemma log_ddl_sim op f d w d' r :
  quiet d w → w_active w = None → is_ddl op → (∀ l, live_ddl l (db_store d) op (f (db_store d))) →
  log_ddl op f d = (d', r) → simulated d w d' (ended d d').
Proof.
  intros Hq Ha Hd Hlive. unfold log_ddl. change [encode op; encode Commit] with (txn_records [op]).
  cbn [es_append traced]. destruct (st_append_wal tok (txn_records [op]) (db_storage d).1) as [s [l|e]] eqn:Eap;
    intros [= <- <-]; unfold simulated, calls_of, backend; cbn [db_storage fst snd]; (split; [by eexists|]);
    intros Hb; apply Forall_app in Hb as [_ Hb]; rewrite Forall_singleton in Hb;
    unfold behaves in Hb; cbn [fst snd] in Hb; rewrite Eap in Hb.
  - destruct Hb as [Had HlP]. pose proof (Hlive l) as Hl. pose proof Hl as Hl'.
    destruct (live_ddl_contents _ _ _ _ Hl) as (_ & _ & Hc). rewrite <- (q_store _ _ Hq) in Hl.
    eexists. split.
    + apply rtc_once. eapply sys_ddl; [apply Hq|apply Hq|exact Ha|exact Hd|exact Had|exact Eap|done|exact Hl].
    + unfold ended. split_and!; [|done|split; cbn; lia]. destruct Hq as [Qs Qb Qq Qg Qo Ql]. split; try done; cbn; [by rewrite Qs|by rewrite Ql, Ha].
  - exists w. split; [apply rtc_once; by eapply sys_refused|]. unfold ended. split_and!; [|done|split; cbn; lia].
    destruct Hq. by split.
Qed.

Lemma ended_refl d w : quiet d w → w_active w = None → ended d d w.
Proof. intros. split_and!; [done..|apply grew_refl]. Qed.

(** A checkpoint only writes pages. *)
Lemma checkpoint_sim d w name l :
  quiet d w → w_active w = None →
  simulated d w (checkpoint_vector_index name l d) (ended d (checkpoint_vector_index name l d)).
Proof.
  intros Hq Ha. unfold checkpoint_vector_index. destruct (index_page_frames _ _ _) as [frames|];
    [|apply simulated_stay; [done|by apply ended_refl]].
  destruct (put_frames_sim (index_page_region name) frames (db_storage d) w) as [Hp H].
  split; [done|]. intros Hb. destruct (H Hb) as (w' & Hr & Ho). exists w'. split; [done|].
  pose proof (quiet_only_last _ _ _ Ho Hq) as Hq'. destruct Ho as (_ & _ & _ & Ea).
  unfold ended. split_and!; [by destruct Hq'|congruence|split; cbn; lia].
Qed.

(** Recovery applies a catalog operation the way the statement did. *)
Lemma replay_same host sess l (s : Store) op :
  (∀ t c sql, op = AlterAddColumn t c → default_sql c = Some sql →
     eval_const_sql (SqlOps := sql_ops host sess) sql = eval_const_sql (SqlOps := replay_ops) sql) →
  apply_replay (SqlOps0 := sql_ops host sess) l s op = apply_replay (SqlOps0 := replay_ops) l s op.
Proof.
  intros H. destruct op; try done. cbn -[eval_const_sql]. destruct (default_sql column) as [sql|] eqn:E; [|done].
  by rewrite (H _ _ sql eq_refl E).
Qed.

Definition default_of (a : Ddl SelectStmt) : option string :=
  match a with DAlterTable _ (AAddColumn c) => default_sql c | _ => None end.

Lemma do_alter_sim host sess t a d w d' r :
  (∀ sql, default_of (DAlterTable t a) = Some sql →
     eval_const_sql (SqlOps := sql_ops host sess) sql = eval_const_sql (SqlOps := replay_ops) sql) →
  quiet d w → w_active w = None → do_alter (SqlOps0 := sql_ops host sess) t a d = (d', r) →
  simulated d w d' (ended d d').
Proof.
  intros Hst Hq Ha. assert (simulated d w d (ended d d)) as Hid by (apply simulated_stay; [done|by apply ended_refl]).
  unfold do_alter. destruct (has_table _ _); cbn [negb]; [|by intros [= <- <-]].
  destruct (alter_op _ _ _) as [[op|]|e] eqn:E; [|by intros [= <- <-]..].
  assert (is_ddl op ∧ (∀ t' c sql, op = AlterAddColumn t' c → default_sql c = Some sql → default_of (DAlterTable t a) = Some sql) ∧
    ∀ l s, apply_alter (SqlOps0 := sql_ops host sess) op s = apply_replay (SqlOps0 := sql_ops host sess) l s op) as (Hd & Hc & Hsame).
  { destruct a; cbn in E; repeat case_match; simplify_eq; (split_and!; [done| |done]); intros ? ? ? [=]; by subst. }
  apply log_ddl_sim; [done..|]. intros l. rewrite (Hsame l), replay_same; [by constructor|].
  intros t' c sql Eo Ed. apply Hst. by eapply Hc.
Qed.

Lemma do_create_index_sim def ine d w d' r :
  quiet d w → w_active w = None → do_create_index def ine d = (d', r) → simulated d w d' (ended d d').
Proof.
  intros Hq Ha. assert (simulated d w d (ended d d)) as Hid by (apply simulated_stay; [done|by apply ended_refl]).
  unfold do_create_index. destruct (has_index _ _); [by intros [= <- <-]|].
  destruct (_ ≫= _) as [[]|]; [|by intros [= <- <-]].
  destruct (log_ddl _ _ d) as [d1 q] eqn:E.
  assert (simulated d w d1 (ended d d1)) as H1 by (eapply (log_ddl_sim (CreateIndex def)); [done..| |exact E]; intros l; apply live_index).
  destruct q as [[l|]|e]; [|by intros [= <- <-]..]. intros [= <- <-].
  eapply simulated_trans; [exact H1| |].
  - intros w1 (Hq1 & Ha1 & Hg1) _. eapply simulated_impl; [|by apply checkpoint_sim].
    intros w' (Hq' & Ha' & Hg'). split_and!; [done..|by eapply grew_trans].
  - unfold checkpoint_vector_index. destruct (index_page_frames _ _ _) as [frames|]; [|done].
    exact (proj1 (put_frames_sim (index_page_region (ix_name def)) frames (db_storage d1) w)).
Qed.

Lemma do_ddl_sim host sess st d w d' r :
  (∀ sql, default_of st = Some sql →
     eval_const_sql (SqlOps := sql_ops host sess) sql = eval_const_sql (SqlOps := replay_ops) sql) →
  quiet d w → w_active w = None → do_ddl (SqlOps0 := sql_ops host sess) referenced_relations st d = (d', r) →
  simulated d w d' (ended d d').
Proof.
  intros Hst Hq Ha. assert (simulated d w d (ended d d)) as Hid by (apply simulated_stay; [done|by apply ended_refl]).
  assert (∀ op f q, is_ddl op → (∀ l s, f s = apply_replay (SqlOps0 := replay_ops) l s op) →
    log_ddl op f d = (d', q) → simulated d w d' (ended d d')) as Hlog.
  { intros op f q Hd Hf. apply log_ddl_sim; [done..|]. intros l. rewrite (Hf l). by constructor. }
  destruct st as [st|name ie|t a|def ine|name ie|name q sql rep ine|name ie|t p|name t ie]; cbn [do_ddl].
  - unfold do_create_table. destruct (has_table _ _); [by intros [= <- <-]|].
    destruct (_ ≫= _) as [sc|e]; [|by intros [= <- <-]]. by apply Hlog.
  - unfold do_drop_table. destruct (has_table _ _); [by apply Hlog|by intros [= <- <-]].
  - by apply do_alter_sim.
  - by apply do_create_index_sim.
  - unfold do_drop_index. destruct (has_index _ _); [by apply Hlog|by intros [= <- <-]].
  - unfold do_create_view. destruct (has_table _ _); [by intros [= <- <-]|].
    destruct (_ && _); [by intros [= <- <-]|]. destruct (view_would_cycle _ _ _ _); [by intros [= <- <-]|].
    apply log_ddl_sim; [done..|]. intros l. apply live_view.
  - unfold do_drop_view. destruct (has_view _ _); [by apply Hlog|by intros [= <- <-]].
  - unfold do_create_policy. destruct (table _ _); [|by intros [= <- <-]]. destruct (has_policy _ _); [by intros [= <- <-]|].
    destruct (_ ≫= _); [|by intros [= <- <-]]. by apply Hlog.
  - unfold do_drop_policy. destruct (match table _ _ with Some _ => _ | None => _ end);
      [by apply Hlog|by intros [= <- <-]].
Qed.

(** ** One statement *)

Lemma sim_stay d hs h h' ks w :
  sim d (hs ++ h :: ks) w → txn_ok d h' → follows d h h' → writer_of h' = writer_of h →
  simulated d w d (λ w', sim d (hs ++ h' :: ks) w').
Proof.
  intros Hs Ht Hf Ha. apply simulated_stay; [done|]. eapply sim_same; [done|apply Hs|apply grew_refl|done..].
Qed.

(** The same transaction, up to what is not a write. *)
Lemma sim_keep d hs h h' ks w :
  sim d (hs ++ h :: ks) w → txn (h_conn h') = txn (h_conn h) → simulated d w d (λ w', sim d (hs ++ h' :: ks) w').
Proof.
  intros Hs Ht. eapply sim_stay; [done|..]; unfold txn_ok, follows, owner_of, writer_of; rewrite Ht; [|by left|done].
  by eapply sim_txn.
Qed.

Lemma begin_sim d hs h ks w d' c' r :
  sim d (hs ++ h :: ks) w → begin (d, h_conn h) = ((d', c'), r) →
  simulated d w d' (λ w', sim d' (hs ++ on_handle h c' :: ks) w').
Proof.
  intros Hs. unfold begin. destruct (txn (h_conn h)) as [t|] eqn:Et; [intros [= <- <- <-]; by apply (sim_keep _ _ h)|].
  unfold new_txn, next_owner. cbn. intros [= <- <- <-]. apply simulated_stay; [done|].
  pose proof (sim_quiet _ _ _ Hs) as Hq. eapply sim_same; [exact Hs| |split; cbn; lia|..].
  - destruct Hq. split; try done. cbn. lia.
  - intros t. cbn. intros [= <-]. cbn. pose proof (q_owner _ _ Hq). split_and!; [lia..|constructor].
  - intros o. unfold owner_of at 1. cbn. intros [= <-]. by right.
  - unfold writer_of. cbn. by rewrite Et.
Qed.

(** What ends a transaction gives its lane back. *)
Lemma ended_sim d d' hs h h' ks w w' :
  sim d (hs ++ h :: ks) w → db_lane d = false ∨ holds_lane h = true → ended d d' w' → txn (h_conn h') = None →
  sim d' (hs ++ h' :: ks) w'.
Proof.
  intros Hs Hx (Hq & Ha & Hg) Ht. eapply (sim_moved d d'); [done..| |by apply follows_none|].
  - intros t H. congruence.
  - unfold tied, writer_of. rewrite Ht, Ha. constructor.
Qed.

(** A connection that gives up a transaction without having written. *)
Lemma idle_end d hs h h' ks w t :
  sim d (hs ++ h :: ks) w → txn (h_conn h) = Some t → writer t = false → txn (h_conn h') = None →
  simulated d w d (λ w', sim d (hs ++ h' :: ks) w').
Proof.
  intros Hs Et Ew En. apply (sim_stay _ _ h); [done| |by apply follows_none|].
  - intros t' H. congruence.
  - unfold writer_of. by rewrite En, Et, Ew.
Qed.

Lemma writer_holds h t : txn (h_conn h) = Some t → writer t = true → writer_of h = Some t ∧ holds_lane h = true.
Proof. intros Et Ew. unfold writer_of, holds_lane. by rewrite Et, Ew. Qed.

(** The active transaction is that of the connection that writes. *)
Lemma writer_active d hs h ks w t :
  sim d (hs ++ h :: ks) w → txn (h_conn h) = Some t → writer t = true →
  ∃ ops, w_active w = Some (txn_owner t, snapshot t, ops) ∧ accounts (wal_ops t) (savepoints t) ops.
Proof.
  intros Hs Et Ew. destruct (writer_holds h t Et Ew) as [Ewo Hh].
  destruct (sim_exclusive _ _ _ _ _ Hs (or_intror Hh)) as (Ha & _). by apply (tied_Some h).
Qed.

(** A transaction whose log makes its rows did what it logged. *)
Lemma logged_active d hs h ks w t :
  Inv w → sim d (hs ++ h :: ks) w → txn (h_conn h) = Some t → writer t = true → all_logged d t →
  w_active w = Some (txn_owner t, snapshot t, wal_ops t).
Proof.
  intros HI Hs Et Ew Hl. destruct (writer_active _ _ _ _ _ _ Hs Et Ew) as (ops & Ha & Hac).
  destruct Hs as [[Qs Qb Qq Qg Qo Ql] _ _ _].
  destruct (active_contents w _ _ _ HI Qb Qq Ha) as (Ho & Hu & Hri & Hok & Hc).
  rewrite Ha. do 2 f_equal. symmetry. eapply logged_complete; [by eapply accounts_logged|exact Hok|].
  unfold all_logged in Hl. rewrite <- Qs, contents_rollback, Hc, rollback_pend_ops in Hl by done.
  rewrite Hl. f_equal. apply all_tables_id. eapply each_table_impl; [exact Hu|]. intros rs. apply rollback_unowned.
Qed.

Lemma commit_sim d hs h ks w d' c' r :
  Inv w → sim d (hs ++ h :: ks) w → sound_control d h Statement.Commit → commit (d, h_conn h) = ((d', c'), r) →
  simulated d w d' (λ w', sim d' (hs ++ on_handle h c' :: ks) w').
Proof.
  intros HI Hs Hl. unfold commit. destruct (txn (h_conn h)) as [t|] eqn:Et; [|intros [= <- <- <-]; by apply (sim_keep _ _ h)].
  intros Hf. destruct (writer t) eqn:Ew.
  - destruct (writer_holds h t Et Ew) as [Ewo Hh]. pose proof (logged_active _ _ _ _ _ _ HI Hs Et Ew (Hl t Et Ew)) as Ha.
    destruct (finish_commit_sim _ _ _ _ _ _ _ (sim_quiet _ _ _ Hs) Ew Ha Hf) as [H1 H2].
    eapply simulated_impl; [|exact H1]. intros w' He. eapply ended_sim; [exact Hs|by right|exact He|exact H2].
  - unfold finish_commit in Hf. rewrite Ew in Hf. injection Hf as <- <- <-. by eapply idle_end.
Qed.

Lemma abandon_sim d hs h ks w t :
  sim d (hs ++ h :: ks) w → txn (h_conn h) = Some t → writer t = true →
  simulated d w (abandon t d) (ended d (abandon t d)).
Proof.
  intros Hs Et Ew. destruct (writer_active _ _ _ _ _ _ Hs Et Ew) as (ops & Ha & _).
  unfold abandon. rewrite Ew. eapply simulated_memory; [done|by eapply step_rollback|done|].
  pose proof (sim_quiet _ _ _ Hs) as [Qs Qb Qq Qg Qo Ql]. unfold ended. split_and!; [|done|].
  - split; try done. cbn. by rewrite Qs.
  - split; cbn; [|lia]. by rewrite (proj2 (rollback_owner_tables _ _)).
Qed.

Lemma rollback_sim d hs h ks w d' c' r :
  sim d (hs ++ h :: ks) w → rollback (d, h_conn h) = ((d', c'), r) →
  simulated d w d' (λ w', sim d' (hs ++ on_handle h c' :: ks) w').
Proof.
  intros Hs. unfold rollback. destruct (txn (h_conn h)) as [t|] eqn:Et; [|intros [= <- <- <-]; by apply (sim_keep _ _ h)].
  intros [= <- <- <-]. destruct (writer t) eqn:Ew.
  - eapply simulated_impl; [|by eapply abandon_sim]. intros w' He. eapply ended_sim; [exact Hs| |exact He|done].
    right. by apply (writer_holds h t).
  - unfold abandon. rewrite Ew. by eapply idle_end.
Qed.

(** *** Savepoints *)

(** The transaction with other savepoints, and a shorter log. *)
Definition retxn (t : Txn) (wal : list WalOp) (sps : list Savepoint) (h : Handle) : Handle :=
  on_handle h (set_txn (Some (mkTxn (snapshot t) (writer t) wal (txn_owner t) sps)) (h_conn h)).

Lemma retxn_follows d h t wal sps : txn (h_conn h) = Some t → follows d h (retxn t wal sps h).
Proof. intros Et o. unfold owner_of. rewrite Et. cbn. intros [= <-]. by left. Qed.

(** The connection that writes changes its savepoints or its log; the engine follows. *)
Lemma writer_retxn d hs h ks w t wal sps ops d' w' :
  sim d (hs ++ h :: ks) w → txn (h_conn h) = Some t → writer t = true → quiet d' w' → grew d d' →
  w_active w' = Some (txn_owner t, snapshot t, ops) → accounts wal sps ops →
  sim d' (hs ++ retxn t wal sps h :: ks) w'.
Proof.
  intros Hs Et Ew Hq Hg Ha Hac. destruct (writer_holds h t Et Ew) as [_ Hh].
  eapply sim_moved; [exact Hs|by right|done|done| |by apply retxn_follows|].
  - intros t' [= <-]. cbn. destruct (sim_txn _ _ _ _ _ Hs t Et) as (Ho & Hsn & _). destruct Hg.
    split_and!; [lia..|]. congruence.
  - unfold tied, writer_of. cbn. rewrite Ew, Ha. constructor; [|constructor]. by split.
Qed.

(** The connection only changes its savepoints. *)
Lemma savepoints_sim d hs h ks w t sps :
  sim d (hs ++ h :: ks) w → txn (h_conn h) = Some t →
  (∀ ops, accounts (wal_ops t) (savepoints t) ops →
     (if writer t then ∃ snap, w_active w = Some (txn_owner t, snap, ops) else ops = []) → accounts (wal_ops t) sps ops) →
  simulated d w d (λ w', sim d (hs ++ retxn t (wal_ops t) sps h :: ks) w').
Proof.
  intros Hs Et Hac. apply simulated_stay; [done|]. destruct (writer t) eqn:Ew.
  - destruct (writer_active _ _ _ _ _ _ Hs Et Ew) as (ops & Ha & Hacc).
    eapply writer_retxn; [exact Hs|done|done|apply Hs|apply grew_refl|exact Ha|]. apply Hac; [done|by eexists].
  - destruct (sim_txn _ _ _ _ _ Hs t Et) as (Ho & Hsn & Hw).
    eapply sim_same; [exact Hs|apply Hs|apply grew_refl| |by apply retxn_follows|].
    + intros t' [= <-]. cbn. split_and!; [lia..|]. intros _. apply Hac; [by apply Hw|done].
    + unfold writer_of. cbn. by rewrite Et, Ew.
Qed.

Lemma savepoint_sim d hs h ks w name d' c' r :
  Inv w → sim d (hs ++ h :: ks) w → savepoint name (d, h_conn h) = ((d', c'), r) →
  simulated d w d' (λ w', sim d' (hs ++ on_handle h c' :: ks) w').
Proof.
  intros HI Hs. unfold savepoint.
  destruct (txn (h_conn h)) as [t|] eqn:Et; [|intros [= <- <- <-]; by apply (sim_keep _ _ h)].
  destruct (pending_snapshot _ _) as [ins del] eqn:Ep. intros [= <- <- <-]. apply savepoints_sim; [done..|].
  intros ops Hac Hw. pose proof (sim_quiet _ _ _ Hs) as Hq.
  assert (pending_snapshot (db_store d) (txn_owner t) = (inserted_vids ops, deleted_vids ops)) as E.
  { destruct (writer t) eqn:Ew.
    - destruct Hw as [snap Ha]. destruct (active_contents w _ _ _ HI (q_batch _ _ Hq) (q_queue _ _ Hq) Ha) as (_ & Hu & _ & Hok & Hc).
      rewrite (q_store _ _ Hq) in Hc. by eapply pending_snapshot_ops.
    - subst ops. eapply (pending_snapshot_ops _ _ (contents (db_store d))); [by eapply idle_unowned|done|done]. }
  rewrite Ep in E. injection E as -> ->. by constructor.
Qed.

Lemma release_sim d hs h ks w name d' c' r :
  sim d (hs ++ h :: ks) w → release_savepoint name (d, h_conn h) = ((d', c'), r) →
  simulated d w d' (λ w', sim d' (hs ++ on_handle h c' :: ks) w').
Proof.
  intros Hs. unfold release_savepoint.
  destruct (txn (h_conn h)) as [t|] eqn:Et; [|intros [= <- <- <-]; by apply (sim_keep _ _ h)].
  destruct (find_savepoint _ _) as [i|]; intros [= <- <- <-]; [|by apply (sim_keep _ _ h)].
  apply savepoints_sim; [done..|]. intros ops Hac _. by apply accounts_release.
Qed.

Lemma rollback_to_sim d hs h ks w name d' c' r :
  Inv w → sim d (hs ++ h :: ks) w → sound_control d h (Statement.RollbackTo name) →
  rollback_to name (d, h_conn h) = ((d', c'), r) →
  simulated d w d' (λ w', sim d' (hs ++ on_handle h c' :: ks) w').
Proof.
  intros HI Hs Hv. unfold rollback_to. destruct (txn (h_conn h)) as [t|] eqn:Et;
    [|intros [= <- <- <-]; by apply (sim_keep _ _ h)].
  destruct (find_savepoint name (savepoints t)) as [i|]; cbn; [|intros [= <- <- <-]; by apply (sim_keep _ _ h)].
  destruct (savepoints t !! i) as [sp|] eqn:Ei; cbn; intros [= <- <- <-]; [|by apply (sim_keep _ _ h)].
  destruct (writer t) eqn:Ew.
  - destruct (writer_active _ _ _ _ _ _ Hs Et Ew) as (ops & Ha & Hac).
    destruct (accounts_restore _ _ _ _ _ Hac Ei) as (_ & ops0 & ops1 & -> & Ei0 & Ed0 & Hac0).
    pose proof (sim_quiet _ _ _ Hs) as [Qs Qb Qq Qg Qo Ql].
    destruct (active_contents w _ _ _ HI Qb Qq Ha) as (Ho & Hu & Hri & Hok & Hc).
    rewrite Ei0, Ed0. assert (fresh_vids (inserted_vids ops0) (deleted_vids ops0) ops1) as Hf.
    { rewrite Qs in Hc. eapply distinct_fresh; [exact Hu|exact Hri|exact Hok|exact Hc|]. exact (Hv t Et Ew). }
    eapply simulated_memory; [done|eapply step_rollback_to; [exact Ha|apply covers_vids|exact Hf]|done|].
    cbn beta. rewrite <- Ew. eapply writer_retxn; [exact Hs|done|done| | |done|exact Hac0].
    + split; try done; cbn; [by rewrite Qs|by rewrite Ql, Ha].
    + split; cbn; lia.
  - rewrite <- Ew. destruct (sim_txn _ _ _ _ _ Hs t Et) as (Ho & Hsn & Hw).
    destruct (accounts_restore _ _ _ _ _ (Hw Ew) Ei) as (_ & ops0 & ops1 & E & _ & _ & Hac0).
    symmetry in E. apply app_eq_nil in E as [-> _].
    apply (sim_stay _ _ h); [done| |by apply (retxn_follows _ _ t)|unfold writer_of; cbn; by rewrite Et, Ew].
    intros t' [= <-]. cbn. by split_and!; [lia..|].
Qed.

Lemma exec_ddl_sim d hs h ks w host ddl d' c' r :
  sim d (hs ++ h :: ks) w → db_lane d = false ∨ holds_lane h = true →
  (∀ sql, default_of ddl = Some sql →
     eval_const_sql (SqlOps := sql_ops host (h_session h)) sql = eval_const_sql (SqlOps := replay_ops) sql) →
  exec_ddl (SqlOps0 := sql_ops host (h_session h)) referenced_relations ddl (d, h_conn h) = ((d', c'), r) →
  simulated d w d' (λ w', sim d' (hs ++ on_handle h c' :: ks) w').
Proof.
  intros Hs Hx Hst. unfold exec_ddl. destruct (txn (h_conn h)) as [t|] eqn:Et;
    [intros [= <- <- <-]; apply (sim_keep _ _ h); [done|by cbn]|].
  destruct (do_ddl _ ddl d) as [d1 q] eqn:Ed.
  destruct (sim_exclusive _ _ _ _ _ Hs Hx) as (Hti & _).
  assert (w_active w = None) as Ha by (apply (tied_None h); [done|]; unfold writer_of; by rewrite Et).
  pose proof (do_ddl_sim _ _ _ _ _ _ _ Hst (sim_quiet _ _ _ Hs) Ha Ed) as H1.
  destruct q as [[l|]|e]; intros [= <- <- <-]; (eapply simulated_impl; [|exact H1]);
    intros w' He; (eapply ended_sim; [exact Hs|exact Hx|exact He|done]).
Qed.

Lemma run_sim d hs h ks w host st params d' h' r :
  rtc step init w → sim d (hs ++ h :: ks) w → blocked d h st = false →
  run stack host st params (d, h) = ((d', h'), r) → clean host d h st d' r →
  simulated d w d' (λ w', sim d' (hs ++ h' :: ks) w').
Proof.
  intros Hr Hs Hb Hrun [Hst Hctl Hnp _]. pose proof (reachable_inv w Hr) as HI.
  assert (is_dml st || bool_decide (is_Some (ddl_of st)) = true → db_lane d = false ∨ holds_lane h = true) as Hx.
  { unfold blocked in Hb. intros Hw. rewrite Hw in Hb. cbn in Hb. destruct (db_lane d); [right|by left].
    cbn in Hb. by apply negb_false_iff in Hb. }
  assert (∀ ddl, ddl_of st = Some ddl → ∀ sql, default_of ddl = Some sql →
    eval_const_sql (SqlOps := sql_ops host (h_session h)) sql = eval_const_sql (SqlOps := replay_ops) sql) as Hdef.
  { intros ddl Hd sql Hsql. destruct st; try done; injection Hd as <-; try done. destruct action; try done. by apply Hst. }
  destruct st; cbn [run] in Hrun; unfold on_conn, on_dml, run_select_stmt, done_with in Hrun; cbn [ddl_of] in Hrun.
  all: try (destruct (exec_ddl _ _ (d, h_conn h)) as [[d1 c1] q] eqn:E; injection Hrun as <- <- _;
            eapply exec_ddl_sim; [exact Hs|by apply Hx|by apply Hdef|exact E]).
  all: try (destruct (exec_dml _ (d, h_conn h)) as [[d1 c1] q] eqn:E; injection Hrun as <- <- <-;
            by eapply (exec_dml_sim d hs h ks w host); [| | |apply Hx|exact E|]).
  all: try (injection Hrun as <- <- _; by apply (sim_keep _ _ h)).
  - destruct (read_snapshot d (h_conn h)) as [snap wr].
    destruct (run_select_tuned _ _ _ _ _ _ _ _ _ _) as [rs|e]; injection Hrun as <- <- _; by apply (sim_keep _ _ h).
  - destruct (begin _) as [[d1 c1] q] eqn:E. injection Hrun as <- <- _. by eapply begin_sim.
  - destruct (commit _) as [[d1 c1] q] eqn:E. injection Hrun as <- <- _. by eapply commit_sim.
  - destruct (rollback _) as [[d1 c1] q] eqn:E. injection Hrun as <- <- _. by eapply rollback_sim.
  - destruct (savepoint _ _) as [[d1 c1] q] eqn:E. injection Hrun as <- <- _. by eapply savepoint_sim.
  - destruct (release_savepoint _ _) as [[d1 c1] q] eqn:E. injection Hrun as <- <- _. by eapply release_sim.
  - destruct (rollback_to _ _) as [[d1 c1] q] eqn:E. injection Hrun as <- <- _. by eapply rollback_to_sim.
Qed.

(** ** Every run *)

Lemma drop_idle d hs h ks w : writer_of h = None → sim d (hs ++ h :: ks) w → sim d (hs ++ ks) w.
Proof.
  intros Ha [Hq Ht Ho Hw]. split; [done|..].
  - apply Forall_app in Ht as [Ht1 Ht2]. apply Forall_cons in Ht2 as [_ Ht2]. by apply Forall_app.
  - rewrite owners_app, owners_cons in Ho. rewrite owners_app. eapply sublist_NoDup; [exact Ho|].
    apply sublist_app; [done|]. by apply sublist_inserts_l.
  - by rewrite writers_app, writers_cons, Ha in Hw; rewrite writers_app.
Qed.

Lemma close_storage (d : Database) h : db_storage (close d h) = db_storage d.
Proof.
  unfold close, drop_connection. destruct (txn (h_conn h)) as [t|]; [|done]. unfold abandon. by destruct (writer t).
Qed.

Lemma close_sim d hs h ks w :
  sim d (hs ++ h :: ks) w → simulated d w (close d h) (λ w', sim (close d h) (hs ++ ks) w').
Proof.
  intros Hs. unfold close, drop_connection. destruct (txn (h_conn h)) as [t|] eqn:Et.
  - destruct (writer t) eqn:Ew.
    + eapply simulated_impl; [|by eapply abandon_sim]. intros w' He.
      apply (drop_idle _ _ Handle_new); [done|]. eapply ended_sim; [exact Hs| |exact He|done].
      right. by apply (writer_holds h t).
    + unfold abandon. rewrite Ew. apply simulated_stay; [done|]. apply (drop_idle _ _ h); [|done].
      unfold writer_of. by rewrite Et, Ew.
  - apply simulated_stay; [done|]. apply (drop_idle _ _ h); [|done]. unfold writer_of. by rewrite Et.
Qed.

Lemma clean_step_sim a b w :
  rtc step init w → sim a.1 a.2 w → Forall behaves (calls_of a.1) → clean_step a b →
  Forall behaves (calls_of b.1) ∧ ∃ w', rtc sys (w, backend a.1) (w', backend b.1) ∧ sim b.1 b.2 w'.
Proof.
  intros Hr Hs Hb Hst. destruct Hst as [d hs|d hs h ks|d hs h ks st params host d' h' r Hbl Hrun Hcl]; cbn [fst snd] in *.
  - split; [done|]. exists w. split; [apply rtc_refl|]. destruct Hs as [Hq Ht Ho Hw]. split; [done|..].
    + apply Forall_app. split; [done|]. constructor; [by intros t|done].
    + by rewrite owners_app, app_nil_r.
    + by rewrite writers_app, app_nil_r.
  - assert (calls_of (close d h) = calls_of d) as Hc by (unfold calls_of; by rewrite close_storage).
    rewrite Hc. split; [done|]. destruct (close_sim _ _ _ _ _ Hs) as [_ H]. apply H. by rewrite Hc.
  - pose proof (clean_calls _ _ _ _ _ _ Hcl) as Hca. split; [done|]. by eapply run_sim.
Qed.

Lemma clean_runs s0 d hs :
  holds s0 [] → rtc clean_step (new_db s0, []) (d, hs) →
  Forall behaves (calls_of d) ∧ ∃ w, rtc sys (init, s0) (w, backend d) ∧ sim d hs w.
Proof.
  intros H0 Hr. set (Q := λ a : Database * list Handle,
    Forall behaves (calls_of a.1) ∧ ∃ w, rtc sys (init, s0) (w, backend a.1) ∧ sim a.1 a.2 w).
  change (Q (d, hs)). revert Hr. generalize (d, hs). apply rtc_ind_r; unfold Q.
  - split; [constructor|]. exists init. split; [apply rtc_refl|]. split; [by split|constructor..].
  - intros a b _ Hst (Hb & w & Hw & Hs). destruct (sys_reachable_logged _ _ _ _ H0 Hw) as [Hrw _].
    destruct (clean_step_sim _ _ _ Hrw Hs Hb Hst) as (Hb' & w' & Hw' & Hs').
    split; [done|]. exists w'. split; [by etrans|done].
Qed.

(** The tables stay well formed. *)
Lemma clean_table_inv s0 d hs :
  holds s0 [] → rtc clean_step (new_db s0, []) (d, hs) → table_inv (db_store d).
Proof.
  intros H0 Hr. destruct (clean_runs _ _ _ H0 Hr) as (_ & w & Hw & Hsim).
  destruct (sys_reachable_logged _ _ _ _ H0 Hw) as [Hrw _]. rewrite <- (q_store _ _ (sim_quiet _ _ _ Hsim)).
  by apply inv_table_inv, reachable_inv.
Qed.

(** ** The lane *)

(** A statement leaves the lane as it is, or it is the connection's to take and give back. *)
Definition lane_moves (d d' : Database) (h h' : Handle) : Prop :=
  db_lane d' = db_lane d ∧ holds_lane h' = holds_lane h ∨
  (db_lane d = false ∨ holds_lane h = true) ∧ db_lane d' = holds_lane h'.

Lemma lead_lane fuel (d : Database) : db_lane (lead fuel d) = db_lane d.
Proof.
  revert d. induction fuel as [|fuel IH]; intros d; [done|]. cbn [lead]. destruct (drain_batch _) as [g b].
  destruct (if bool_decide _ then _ else _) as [[b' s'] g']. destruct (relinquish g') as [g2 []]; [done|].
  by rewrite IH.
Qed.

Lemma group_commit_lane o rs (d : Database) : db_lane (group_commit o rs d).1 = false.
Proof.
  unfold group_commit. destruct (enqueue _ _ _) as [g [id am]]. destruct (collect _ _) as [g' q]. cbn [fst db_lane].
  by destruct am; [rewrite lead_lane|].
Qed.

Lemma finish_commit_lane t (d d' : Database) c c' r :
  writer t = true → finish_commit t (d, c) = ((d', c'), r) → db_lane d' = false ∧ txn c' = txn c.
Proof.
  intros Hw. unfold finish_commit. rewrite Hw. case_bool_decide; [by intros [= <- <- _]|].
  pose proof (group_commit_lane (txn_owner t) ((encode <$> wal_ops t) ++ [encode Commit]) d) as Hl.
  destruct (group_commit _ _ d) as [d1 [l|e]]; intros [= <- <- _]; done.
Qed.

Lemma log_ddl_lane op f (d : Database) : db_lane (log_ddl op f d).1 = db_lane d.
Proof. unfold log_ddl. by destruct (es_append _ _) as [b []]. Qed.

Lemma do_create_index_lane def ine (d : Database) : db_lane (do_create_index def ine d).1 = db_lane d.
Proof.
  unfold do_create_index. destruct (has_index _ _); [done|]. destruct (_ ≫= _); [|done].
  pose proof (log_ddl_lane (CreateIndex def) (create_index def) d) as Hl.
  destruct (log_ddl _ _ d) as [d1 [[l|]|e]]; [|done..]. cbn in *. rewrite <- Hl.
  unfold checkpoint_vector_index. by destruct (index_page_frames _ _ _).
Qed.

Lemma do_ddl_lane (so : SqlOps SelectStmt) st (d : Database) :
  db_lane (do_ddl (SqlOps0 := so) referenced_relations st d).1 = db_lane d.
Proof.
  destruct st; cbn [do_ddl]; [| | |apply do_create_index_lane|..];
    unfold do_create_table, do_drop_table, do_alter, do_drop_index, do_create_view, do_drop_view, do_create_policy, do_drop_policy;
    repeat case_match; (apply log_ddl_lane || done).
Qed.

Lemma exec_ddl_lane (so : SqlOps SelectStmt) ddl (d d' : Database) c c' r :
  exec_ddl (SqlOps0 := so) referenced_relations ddl (d, c) = ((d', c'), r) →
  db_lane d' = db_lane d ∧ txn c' = txn c.
Proof.
  unfold exec_ddl. destruct (txn c) as [t|] eqn:Et; [by intros [= <- <- _]|].
  pose proof (do_ddl_lane so ddl d) as Hd. destruct (do_ddl _ ddl d) as [d2 [[l|]|e]]; intros [= <- <- _]; by rewrite <- Et.
Qed.

Lemma exec_dml_lane run (d d' : Database) c c' r h :
  h_conn h = c → (db_lane d = false ∨ holds_lane h = true) → (holds_lane h = true → db_lane d = true) →
  exec_dml run (d, c) = ((d', c'), r) → db_lane d' = holds_lane (on_handle h c').
Proof.
  intros <- Hx Hl. unfold exec_dml. destruct (open_writer d (h_conn h)) as [t d1] eqn:Eo.
  assert (writer t = true ∧ db_lane d1 = true) as [Hw Hl1].
  { unfold open_writer, holds_lane in *. destruct (txn (h_conn h)) as [t0|]; [destruct (writer t0) eqn:Ew|]; injection Eo as <- <-; auto. }
  destruct (run _ (db_store d1)) as [s [m|[e|]]].
  - case_bool_decide.
    + destruct (comp_bind _ _ _) as [[d3 c3] q3] eqn:Ef. intros [= <- <- _]. unfold comp_bind in Ef.
      destruct (finish_commit _ _) as [[d4 c4] q4] eqn:Ef'.
      assert (d4 = d3 ∧ c4 = c3) as [-> ->] by (destruct q4; by injection Ef as <- <- _).
      destruct (finish_commit_lane (push_ops (mut_wal m) t) _ _ _ _ _ Hw Ef') as [-> Ht]. unfold holds_lane. cbn. by rewrite Ht.
    + intros [= <- <- _]. unfold holds_lane. cbn. by rewrite Hl1, Hw.
  - case_bool_decide; intros [= <- <- _]; unfold holds_lane, abandon; rewrite ?Hw; cbn; [done|by rewrite Hl1, Hw].
  - intros [= <- <- _]. unfold holds_lane. cbn. by rewrite Hl1, Hw.
Qed.

Lemma run_lane host st params (d d' : Database) h h' r :
  blocked d h st = false → (holds_lane h = true → db_lane d = true) →
  run stack host st params (d, h) = ((d', h'), r) → lane_moves d d' h h'.
Proof.
  intros Hb Hl Hrun.
  assert (is_dml st || bool_decide (is_Some (ddl_of st)) = true → db_lane d = false ∨ holds_lane h = true) as Hx.
  { unfold blocked in Hb. intros Hw. rewrite Hw in Hb. cbn in Hb. destruct (db_lane d); [right|by left].
    cbn in Hb. by apply negb_false_iff in Hb. }
  destruct st; cbn [run] in Hrun; unfold on_conn, on_dml, run_select_stmt, done_with in Hrun; cbn [ddl_of] in Hrun.
  all: try (destruct (exec_dml _ (d, h_conn h)) as [[d1 c1] q] eqn:E; injection Hrun as <- <- _; right;
            split; [by apply Hx|]; eapply exec_dml_lane; [done|by apply Hx|done|exact E]).
  all: try (injection Hrun as <- <- _; by left).
  all: try (destruct (exec_ddl _ _ (d, h_conn h)) as [[d1 c1] q] eqn:E; injection Hrun as <- <- _;
            apply exec_ddl_lane in E as [El Et]; left; (split; [done|]); unfold holds_lane; cbn; by rewrite Et).
  - destruct (read_snapshot d (h_conn h)) as [snap wr].
    destruct (run_select_tuned _ _ _ _ _ _ _ _ _ _) as [rs|e]; injection Hrun as <- <- _; by left.
  - destruct (begin _) as [[d1 c1] q] eqn:E. injection Hrun as <- <- _. unfold begin in E. left. unfold holds_lane.
    destruct (txn (h_conn h)) as [t|] eqn:Et; injection E as <- <- _; cbn; [by rewrite Et|done].
  - destruct (commit _) as [[d1 c1] q] eqn:E. injection Hrun as <- <- _. unfold commit in E.
    destruct (txn (h_conn h)) as [t|] eqn:Et; [|injection E as <- <- _; by left].
    destruct (writer t) eqn:Ew.
    + destruct (finish_commit_lane _ _ _ _ _ _ Ew E) as [Hd Ht]. right. rewrite Hd. unfold holds_lane. rewrite Et, Ew. cbn. rewrite Ht. auto.
    + unfold finish_commit in E. rewrite Ew in E. injection E as <- <- _. left. unfold holds_lane. cbn. by rewrite Et.
  - destruct (rollback _) as [[d1 c1] q] eqn:E. injection Hrun as <- <- _. unfold rollback in E.
    destruct (txn (h_conn h)) as [t|] eqn:Et; [|injection E as <- <- _; by left].
    injection E as <- <- _. unfold abandon, lane_moves, holds_lane. rewrite Et. cbn. destruct (writer t); [right|left]; auto.
  - destruct (savepoint _ _) as [[d1 c1] q] eqn:E. injection Hrun as <- <- _. unfold savepoint in E. left. unfold holds_lane.
    destruct (txn (h_conn h)) as [t|] eqn:Et; [|injection E as <- <- _; cbn; by rewrite ?Et].
    destruct (pending_snapshot _ _) as [ins del]. by injection E as <- <- _.
  - destruct (release_savepoint _ _) as [[d1 c1] q] eqn:E. injection Hrun as <- <- _. unfold release_savepoint in E. left.
    unfold holds_lane. destruct (txn (h_conn h)) as [t|] eqn:Et; [|injection E as <- <- _; cbn; by rewrite ?Et].
    destruct (find_savepoint _ _) as [i|]; injection E as <- <- _; [done|cbn; by rewrite ?Et].
  - destruct (rollback_to _ _) as [[d1 c1] q] eqn:E. injection Hrun as <- <- _. unfold rollback_to in E. left.
    unfold holds_lane. destruct (txn (h_conn h)) as [t|] eqn:Et; [|injection E as <- <- _; cbn; by rewrite ?Et].
    destruct (_ ≫= _) as [[i sp]|]; injection E as <- <- _; [|cbn; by rewrite ?Et]. split; [by destruct (writer t)|done].
Qed.

Definition holders (hs : list Handle) : nat := length (filter (λ h, holds_lane h = true) hs).

Lemma holders_middle hs h ks : holders (hs ++ h :: ks) = ((if holds_lane h then 1 else 0) + holders (hs ++ ks))%nat.
Proof.
  unfold holders. rewrite !filter_app, filter_cons, !length_app. destruct (holds_lane h);
    [rewrite decide_True by done|rewrite decide_False by done]; cbn; lia.
Qed.

Lemma sql_step_lane a b :
  sql_step a b → holders a.2 = (if db_lane a.1 then 1 else 0)%nat → holders b.2 = (if db_lane b.1 then 1 else 0)%nat.
Proof.
  intros Hst. destruct Hst as [d hs|d hs h ks|d hs h ks st params host d' h' r Hbl Hrun]; cbn [fst snd]; intros Hn.
  - rewrite holders_middle, app_nil_r. exact Hn.
  - rewrite holders_middle in Hn. unfold close, drop_connection, abandon. unfold holds_lane in Hn.
    destruct (txn (h_conn h)) as [t|]; [|exact Hn]. destruct (writer t); cbn; [destruct (db_lane d)|]; cbn in Hn; lia.
  - rewrite holders_middle in *. assert (holds_lane h = true → db_lane d = true) as Hh.
    { intros Hh. rewrite Hh in Hn. destruct (db_lane d); [done|lia]. }
    destruct (run_lane _ _ _ _ _ _ _ _ Hbl Hh Hrun) as [[-> ->]|[Hx ->]]; [done|].
    destruct Hx as [E|E]; rewrite E in Hn; destruct (db_lane d), (holds_lane h), (holds_lane h'); lia.
Qed.

(** ** Properties *)


(** C29. One writer: whatever statements connections run and however they end, the lane is taken exactly
    when a connection holds it, and no two connections hold it. *)
Theorem sql_one_writer (s0 : S) (d : Database) hs :
  rtc sql_step (new_db s0, []) (d, hs) →
  (length (filter (λ h, holds_lane h = true) hs) = if db_lane d then 1 else 0)%nat.
Proof.
  set (Q := λ a : Database * list Handle, holders a.2 = (if db_lane a.1 then 1 else 0)%nat).
  change (rtc sql_step (new_db s0, []) (d, hs) → Q (d, hs)). generalize (d, hs). apply rtc_ind_r; [done|].
  intros a b _ Hst. by apply sql_step_lane.
Qed.

End SqlSystem.
