(* ===== verification/WriteSpec.v ===== *)
(** * What write statements may touch

    The write statements of [Engine] under row-level security: the log operations of a statement
    that succeeds, which are what it does to the table, touch only rows the policies of the command
    allow, and add only rows they admit; what RETURNING shows is allowed to the reader. *)

From S2P Require Import Prelude Text StorageTypes Numbers EngineTypes Values Session Funcs Ast Expr Rls Wal WalSpec.
From S2P Require Import MvccStore Select SelectSpec Joins Relational RelationalSpec Dml DmlProofs Recovery GroupCommit Conn Engine.

Section Writes.
Context {VI : Type} `{!VectorIndexOps VI, !VectorSearch VI}.
Variable stack : nat.
Variable host : Host.
Variable sess : SessionContext.
Variable params : list Value.
Abbreviation Store := (Store VI SelectStmt).
Abbreviation allowed := (allowed parsed_expr host sess).
#[local] Instance write_ops : SqlOps SelectStmt := sql_ops host sess.

(** ** The decision of the policies *)

Lemma passes_allowed sc cmd d cx :
  rls_read parsed_expr sess sc cmd = Ok d → passes host sess d cx = Ok true → allowed pol_using sc cmd cx.
Proof.
  unfold rls_read. destruct (rls_enabled sc) eqn:En; cbn; [|intros _ _; by left].
  destruct (s_bypass sess) eqn:Eb; cbn; [intros _ _; right; by left|].
  intros H Hp. apply Result_bind_Ok in H as (c & Hc & [= <-]).
  apply (decision_spec parsed_expr host sess pol_using sc cmd c cx true En Eb Hc); [|done].
  rewrite <- Hp. by destruct c as [[[] [|]]|].
Qed.

Lemma checked_allowed sc cmd chk vals :
  with_check host sess cmd sc = Ok chk → chk vals = Ok tt → allowed check_of sc cmd (ctx_row vals sc []).
Proof.
  unfold with_check. intros H Hv. apply Result_bind_Ok in H as (d & Hd & [= <-]). revert Hd Hv.
  unfold rls_write, enforce_rls_write. destruct (rls_enabled sc) eqn:En; cbn; [|intros _ _; by left].
  destruct (s_bypass sess) eqn:Eb; cbn; [intros _ _; right; by left|].
  intros H Hp. apply Result_bind_Ok in H as (c & Hc & [= <-]). apply Result_bind_Ok in Hp as ([] & Hb & Hp); [|done].
  apply (decision_spec parsed_expr host sess check_of sc cmd c (ctx_row vals sc []) true En Eb Hc); [|done].
  rewrite <- Hb. by destruct c as [[[] [|]]|].
Qed.

(** ** The operations of a statement *)

(** The operations a part of a statement adds satisfy [Q]. *)
Definition wrote (Q : WalOp → Prop) (st st' : Store * list WalOp) : Prop :=
  ∃ ops, st'.2 = st.2 ++ ops ∧ Forall Q ops.

#[local] Instance wrote_preorder Q : PreOrder (wrote Q).
Proof.
  split.
  - intros st. exists []. by rewrite app_nil_r.
  - intros a b c (ops & H1 & H2) (ops' & H1' & H2'). exists (ops ++ ops').
    rewrite H1', H1, <- app_assoc. split; [done|]. by apply Forall_app.
Qed.

Lemma wrote_supersede Q tname v o (st st' : Store * list WalOp) r :
  Q (Delete tname v) → stm_supersede tname v o st = (st', r) → wrote Q st st'.
Proof. destruct st as [s wal]. cbn. intros HQ [= <- _]. exists [Delete tname v]. split; [done|]. by constructor. Qed.

Lemma wrote_append Q tname vals o (st st' : Store * list WalOp) r :
  (∀ v, Q (Insert tname v vals)) → stm_append tname vals o st = (st', r) → wrote Q st st'.
Proof.
  destruct st as [s wal]. unfold stm_append, append_version. intros HQ [= <- _].
  exists [Insert tname (match table s tname with Some t => next_vid t | None => 0 end) vals].
  split; [done|]. by constructor.
Qed.

Lemma wrote_supersede_all Q tname wc vids (st st' : Store * list WalOp) r :
  Forall (λ v, Q (Delete tname v)) vids → supersede_all tname wc vids st = (st', r) → wrote Q st st'.
Proof.
  revert st. induction vids as [|v vids IH]; intros st HQ; cbn [supersede_all]; [by intros [= <- _]|].
  apply Forall_cons in HQ as [Hv HQ]. unfold comp_bind. destruct (stm_supersede _ _ _ st) as [st1 r1] eqn:E1.
  pose proof (wrote_supersede Q _ _ _ _ _ _ Hv E1). destruct r1 as [[]|e]; [|by intros [= <- _]].
  intros H2. etrans; [done|]. by eapply IH.
Qed.

Lemma wrote_update_rows Q tname wc us (st st' : Store * list WalOp) r :
  Forall (λ u, Q (Delete tname u.1) ∧ ∀ v, Q (Insert tname v u.2)) us →
  update_rows tname wc us st = (st', r) → wrote Q st st'.
Proof.
  revert st st' r. induction us as [|[o nv] us IH]; intros st st' r HQ; cbn [update_rows]; [by intros [= <- _]|].
  apply Forall_cons in HQ as [[Hd Hi] HQ]. unfold comp_bind. destruct (stm_supersede _ _ _ st) as [st1 r1] eqn:E1.
  pose proof (wrote_supersede Q _ _ _ _ _ _ Hd E1). destruct r1 as [[]|e]; [|by intros [= <- _]].
  destruct (stm_append _ _ _ st1) as [st2 r2] eqn:E2. pose proof (wrote_append Q _ _ _ _ _ _ Hi E2).
  destruct r2 as [v|e]; [|intros [= <- _]; by etrans].
  destruct (update_rows _ _ us st2) as [st3 r3] eqn:E3. pose proof (IH _ _ _ HQ E3).
  destruct r3; intros [= <- _]; by do 2 (etrans; [done|]).
Qed.

Lemma wrote_insert_plain Q tname wc staged (st st' : Store * list WalOp) r :
  Forall (λ vals, ∀ v, Q (Insert tname v vals)) staged → insert_plain tname wc staged st = (st', r) → wrote Q st st'.
Proof.
  revert st st' r. induction staged as [|vals staged IH]; intros st st' r HQ; cbn [insert_plain]; [by intros [= <- _]|].
  apply Forall_cons in HQ as [Hi HQ]. unfold comp_bind. destruct (stm_append _ _ _ st) as [st1 r1] eqn:E1.
  pose proof (wrote_append Q _ _ _ _ _ _ Hi E1). destruct r1 as [v|e]; [|by intros [= <- _]].
  destruct (insert_plain _ _ staged st1) as [st2 r2] eqn:E2. pose proof (IH _ _ _ HQ E2).
  destruct r2; intros [= <- _]; by etrans.
Qed.

Lemma wrote_insert_keyed Q sc tname wc oc pk live pending staged (st st' : Store * list WalOp) r :
  keeps_clash oc → Forall (λ vals, ∀ v, Q (Insert tname v vals)) staged →
  insert_keyed sc tname wc oc pk live pending staged st = (st', r) → wrote Q st st'.
Proof.
  intros Hoc. revert live st st' r. induction staged as [|vals staged IH]; intros live st st' r HQ; cbn [insert_keyed];
    [by intros [= <- _]|].
  apply Forall_cons in HQ as [Hi HQ]. case_bool_decide; [by intros [= <- _]|]. unfold comp_bind at 1.
  destruct (apply_insert_row _ _ _ _ _ _ st) as [st1 r1] eqn:E1.
  assert (wrote Q st st1) as H1.
  { revert E1. unfold apply_insert_row. destruct (live !! _); [destruct oc; try done; by intros [= <- _]|].
    unfold comp_bind. destruct (stm_append _ _ _ st) as [st2 r2] eqn:E2. pose proof (wrote_append Q _ _ _ _ _ _ Hi E2).
    destruct r2; by intros [= <- _]. }
  destruct r1 as [[row|]|e]; [| |by intros [= <- _]].
  - unfold comp_bind. destruct (insert_keyed _ _ _ _ _ _ _ staged st1) as [st2 r2] eqn:E2.
    pose proof (IH _ _ _ _ HQ E2). destruct r2; intros [= <- _]; by etrans.
  - intros H2. etrans; [done|]. by eapply IH.
Qed.

Lemma wrote_maintain {A} Q tname (b : bool) new (x : A) (st st' : Store * list WalOp) r :
  (do! (if b then index_rows tname new else comp_ret tt) in comp_ret x)%comp st = (st', r) → wrote Q st st'.
Proof. unfold comp_bind. destruct b, st as [s wal]; cbn; intros [= <- _]; exists []; by rewrite app_nil_r. Qed.

Lemma stmt_body_wrote Q body ret (s s' : Store) m :
  (∀ st' q, body (s, []) = (st', q) → wrote Q (s, []) st') → stmt_body body ret s = (s', Ok m) →
  Forall Q (mut_wal m).
Proof.
  intros Hb. unfold stmt_body. destruct (body (s, [])) as [[s1 wal] [[n aff]|e]]; [|done].
  intros [= _ H]. apply Result_bind_Ok in H as (x & _ & [= <-]).
  destruct (Hb _ _ eq_refl) as (ops & Hw & HQ). cbn in *. by subst.
Qed.

(** ** What a statement touches *)

(** The table a statement writes and the command its policies are for; upserts apart. *)
Definition writes (st : Statement.Stmt) : option (string * PolicyCommand) :=
  match st with
  | Statement.Insert tname _ _ Statement.OnError _ | Statement.Insert tname _ _ Statement.OnNothing _ => Some (tname, PInsert)
  | Statement.Update tname _ _ _ _ => Some (tname, PUpdate)
  | Statement.Delete tname _ _ _ => Some (tname, PDelete)
  | _ => None
  end.

(** A row version the command may replace or remove. *)
Definition may_take (cmd : PolicyCommand) (t : Table) (wc : WriteCtx) (v : Z) : Prop :=
  ∃ r, r ∈ rows t ∧ vid r = v ∧ visible_to_writer r (wc_snapshot wc) (wc_owner wc) = true ∧
    allowed pol_using (schema t) cmd (ctx_row (values r) (schema t) params).

Definition permitted (tname : string) (cmd : PolicyCommand) (t : Table) (wc : WriteCtx) (op : WalOp) : Prop :=
  match op with
  | Delete tn v => cmd ≠ PInsert ∧ tn = tname ∧ may_take cmd t wc v
  | Insert tn _ vals => cmd ≠ PDelete ∧ tn = tname ∧ allowed check_of (schema t) cmd (ctx_row vals (schema t) [])
  | _ => False
  end.

Lemma matched_allowed cmd tname from cond (s : Store) wc sc keep vals row :
  matched_row stack host sess params cmd tname from cond s wc sc = Ok keep → keep vals = Ok (Some row) →
  allowed pol_using sc cmd (ctx_row vals sc params).
Proof.
  unfold matched_row. destruct from as [from|]; intros H Hk.
  - apply Result_bind_Ok in H as ([fcols frows] & _ & H). apply Result_bind_Ok in H as (d & Hd & [= <-]).
    apply Result_bind_Ok in Hk as ([] & Hp & Hk); [|done]. by apply (rls_read_spec parsed_expr host sess _ _ _ _ _ Hd Hp).
  - apply Result_bind_Ok in H as (d & Hd & [= <-]).
    apply Result_bind_Ok in Hk as ([] & Hp & Hk); [|done]. by apply (rls_read_spec parsed_expr host sess _ _ _ _ _ Hd Hp).
Qed.

Lemma victims_allowed tname from cond (s : Store) wc t keep vs :
  deleted_row stack host sess params tname from cond s wc (schema t) = Ok keep →
  collect_delete_victims keep wc (rows t) = Ok vs → Forall (may_take PDelete t wc) vs.*1.
Proof.
  intros Hk. apply Result_bind_Ok in Hk as (m & Hm & [= <-]).
  assert (Forall (λ r, r ∈ rows t) (rows t)) as Hin by (by apply Forall_forall).
  revert Hin vs. generalize (rows t) at 2 3. intros rs. induction rs as [|r rs IH]; intros Hin vs;
    cbn [collect_delete_victims]; [intros [= <-]; constructor|]. apply Forall_cons in Hin as [Hr Hin].
  destruct (visible_to_writer r _ _) eqn:Ev; cbn [negb]; [|by apply IH].
  intros H. apply Result_bind_Ok in H as (b & Hb & H). apply Result_bind_Ok in Hb as (c & Hc & [= <-]).
  case_bool_decide as Hs; [|by apply IH]. destruct Hs as [row ->].
  apply Result_bind_Ok in H as (_ & _ & H). apply Result_bind_Ok in H as (rest & H & [= <-]).
  constructor; [|by apply IH]. exists r. split_and!; [done..|]. by eapply matched_allowed.
Qed.

Lemma updates_allowed tname sets from cond ret (s : Store) wc t us :
  compute_updates (update_stmt stack host sess params s wc tname sets from cond ret) s (schema t) wc (rows t) = Ok us →
  Forall (λ u, may_take PUpdate t wc u.1 ∧ allowed check_of (schema t) PUpdate (ctx_row u.2 (schema t) [])) us.
Proof.
  unfold compute_updates. intros H. apply Result_bind_Ok in H as (targets & _ & H).
  apply Result_bind_Ok in H as (chks & _ & H). apply Result_bind_Ok in H as (keep & Hk & H).
  apply Result_bind_Ok in H as (rls & Hrls & H). cbn [upd_keep upd_rls update_stmt] in Hk, Hrls.
  assert (Forall (λ r, r ∈ rows t) (rows t)) as Hin by (by apply Forall_forall).
  revert Hin us H. generalize (rows t) at 2 3. intros rs. induction rs as [|r rs IH]; intros Hin us;
    cbn [collect_updates]; [intros [= <-]; constructor|]. apply Forall_cons in Hin as [Hr Hin].
  destruct (visible_to_writer r _ _) eqn:Ev; cbn [negb]; [|by apply IH].
  intros H. apply Result_bind_Ok in H as ([row|] & Hrow & H); [|by apply IH].
  apply Result_bind_Ok in H as (_ & _ & H). apply Result_bind_Ok in H as (nv & Hnv & H).
  apply Result_bind_Ok in H as (rest & H & [= <-]). constructor; [|by apply IH]. split.
  - exists r. split_and!; [done..|]. by eapply matched_allowed.
  - unfold new_row in Hnv. do 4 (apply Result_bind_Ok in Hnv as (? & _ & Hnv)).
    apply Result_bind_Ok in Hnv as ([] & Hok & [= ->]). by eapply checked_allowed.
Qed.

Lemma all_pass_Forall {A} (f : A → Res unit) l : all_pass f l = Ok tt → Forall (λ x, f x = Ok tt) l.
Proof.
  induction l as [|x l IH]; cbn; [constructor|]. intros H. apply Result_bind_Ok in H as ([] & Hx & H).
  constructor; auto.
Qed.

(** ** RETURNING *)

Definition shown (t : Table) (rs : ResultSet) : Prop :=
  ∃ items vis, project_returning host sess items (schema t) vis params = Ok rs ∧
    Forall (λ r, allowed pol_using (schema t) PSelect (ctx_row r (schema t) [])) vis.

Lemma try_filter_spec {A} (f : A → Res bool) l out : try_filter f l = Ok out → Forall (λ x, f x = Ok true) out.
Proof.
  revert out. induction l as [|x l IH]; intros out; cbn; [intros [= <-]; constructor|].
  intros H. apply Result_bind_Ok in H as (b & Hb & H). apply Result_bind_Ok in H as (ys & Hy & [= <-]).
  destruct b; [constructor; auto|auto].
Qed.

Lemma returned_shown ret t (body : Comp (Store * list WalOp) Fault (Z * list (list Value))) s s' m rs :
  stmt_body body (returning host sess params ret (schema t)) s = (s', Ok m) → mut_result m = Some rs → shown t rs.
Proof.
  unfold stmt_body. destruct (body (s, [])) as [[s1 wal] [[n aff]|e]]; [|done]. intros [= _ H] Hrs.
  apply Result_bind_Ok in H as (r & H & [= <-]). cbn in Hrs. subst r. unfold returning, run_returning in H.
  destruct ret as [items|]; [|done]. cbn in H. apply Result_bind_Ok in H as (rs' & H & [= <-]).
  apply Result_bind_Ok in H as (vis & Hv & H). exists items, vis. split; [exact H|]. revert Hv.
  unfold rls_filter_returning. intros Hv. apply Result_bind_Ok in Hv as (d & Hd & Hv).
  assert (d = ReadUnrestricted → Forall (λ r, allowed pol_using (schema t) PSelect (ctx_row r (schema t) [])) vis) as Hun.
  { intros ->. apply Forall_forall. intros r _. by apply (rls_read_spec parsed_expr host sess _ _ _ _ true Hd). }
  destruct d as [|preds|]; [by apply Hun|..]; clear Hun; apply try_filter_spec in Hv;
    (eapply Forall_impl; [exact Hv|]); intros r Hr; by apply (rls_read_spec parsed_expr host sess _ _ _ _ true Hd).
Qed.

(** ** Statements *)

Lemma insert_permitted tname cols src oc ret wc (s s' : Store) m t :
  table s tname = Some t → keeps_clash (conflict_action host sess params (schema_of s tname) oc) →
  run_insert (insert_stmt stack host sess params s tname cols src oc ret) wc s = (s', Ok m) →
  Forall (permitted tname PInsert t wc) (mut_wal m) ∧ ∀ rs, mut_result m = Some rs → shown t rs.
Proof.
  intros Ht Hoc. unfold run_insert. cbn [ins_table insert_stmt]. rewrite Ht. unfold comp_bind.
  destruct (build_insert_slots _ _ _ _ _) as [slots|]; [|done].
  destruct (finalize_insert_rows _ _ _ _) as [s1 [staged|]]; [|done].
  cbn [ins_rls ins_conflict ins_returning].
  match goal with |- match ?b with _ => _ end = _ → _ => destruct b as [[]|] eqn:Ec end; [|done].
  apply Result_bind_Ok in Ec as (chk & Hchk & Hall). apply all_pass_Forall in Hall.
  match goal with |- match ?b with _ => _ end = _ → _ => destruct b as [[]|] end; [|done].
  unfold apply_insert. cbn [ins_returning insert_stmt]. assert (schema_of s tname = schema t) as Hsc
    by (unfold schema_of; by rewrite Ht). rewrite Hsc in *.
  intros H. split; [|intros rs; by eapply returned_shown]. eapply stmt_body_wrote; [|exact H]. intros st' q. unfold comp_bind at 1.
  match goal with |- match ?b with _ => _ end = _ → _ => destruct b as [st1 q1] eqn:Eb end.
  assert (Forall (λ vals, ∀ v, permitted tname PInsert t wc (Insert tname v vals)) staged) as HQ.
  { eapply Forall_impl; [exact Hall|]. intros vals Hv v. split_and!; [done..|]. by eapply checked_allowed. }
  assert (wrote (permitted tname PInsert t wc) (s1, []) st1) as H1.
  { revert Eb. case_bool_decide; [by apply wrote_insert_plain|]. destruct (pk_index _ _ _ _) as [live pending].
    eapply wrote_insert_keyed; [|exact HQ]. cbn. by rewrite Hsc. }
  destruct q1 as [new|e]; [|by intros [= <- _]]. intros Hm. etrans; [exact H1|]. by eapply wrote_maintain.
Qed.

Lemma update_permitted tname sets from cond ret wc (s s' : Store) m t :
  table s tname = Some t →
  run_update (update_stmt stack host sess params s wc tname sets from cond ret) wc s = (s', Ok m) →
  Forall (permitted tname PUpdate t wc) (mut_wal m) ∧ ∀ rs, mut_result m = Some rs → shown t rs.
Proof.
  intros Ht. unfold run_update. cbn [upd_table update_stmt]. rewrite Ht.
  destruct (compute_updates _ _ _ _ _ ≫= _) as [us|] eqn:Eu; [|done].
  apply Result_bind_Ok in Eu as (us' & Hu & Eu). apply Result_bind_Ok in Eu as ([] & _ & [= ->]).
  apply updates_allowed in Hu. cbn [upd_returning update_stmt]. unfold apply_updates, schema_of. rewrite Ht.
  intros H. split; [|intros rs; by eapply returned_shown]. eapply stmt_body_wrote; [|exact H]. intros st' q.
  unfold comp_bind at 1. destruct (update_rows _ _ us (s, [])) as [st1 [new|e]] eqn:E1.
  all: assert (wrote (permitted tname PUpdate t wc) (s, []) st1) as H1
    by (eapply wrote_update_rows; [|exact E1]; eapply Forall_impl; [exact Hu|]; intros u [Hd Hi]; by split).
  - intros Hm. etrans; [exact H1|]. by eapply wrote_maintain.
  - by intros [= <- _].
Qed.

Lemma delete_permitted tname from cond ret wc (s s' : Store) m t :
  table s tname = Some t →
  run_delete (delete_stmt stack host sess params s tname from cond ret) wc s = (s', Ok m) →
  Forall (permitted tname PDelete t wc) (mut_wal m) ∧ ∀ rs, mut_result m = Some rs → shown t rs.
Proof.
  intros Ht. unfold run_delete. cbn [del_table delete_stmt]. rewrite Ht.
  destruct (del_keep _ s wc (schema t) ≫= _) as [vs|] eqn:Ev; [|done].
  apply Result_bind_Ok in Ev as (keep & Hk & Hv). pose proof (victims_allowed _ _ _ _ _ _ _ _ Hk Hv) as Ha.
  cbn [del_returning delete_stmt]. unfold schema_of. rewrite Ht.
  intros H. split; [|intros rs; by eapply returned_shown]. eapply stmt_body_wrote; [|exact H]. intros st' q.
  unfold comp_bind. destruct (supersede_all _ _ vs.*1 (s, [])) as [st1 [[]|e]] eqn:E1; intros [= <- _].
  all: eapply wrote_supersede_all; [|exact E1]; eapply Forall_impl; [exact Ha|]; intros v Hv'; by split.
Qed.

(** ** Properties *)

(** C16. Writes respect row-level security: an UPDATE, DELETE or plain INSERT that succeeds, joined or
    not, changes the rows by the operations it logs; each row it replaces or removes is visible to the
    writer and allowed by a USING policy of the command, each row it adds is admitted by a WITH CHECK
    policy of the command, and what RETURNING shows is projected from rows a SELECT may read. *)
Theorem writes_respect_rls st tname cmd wc (s s' : Store) m t :
  table_inv s → writes st = Some (tname, cmd) → table s tname = Some t →
  dml_run stack host sess params st wc s = (s', Ok m) →
  contents s' = pend_ops (wc_owner wc) (contents s) (mut_wal m) ∧
  Forall (permitted tname cmd t wc) (mut_wal m) ∧ ∀ rs, mut_result m = Some rs → shown t rs.
Proof.
  intros Hinv Hw Ht Hrun.
  assert (left_by (wc_owner wc) s s' (Ok m)) as (wal & He & Hm).
  { destruct st as [| | | | |tn cols src [] ret|q|tn sets from cond ret|tn from cond ret| | | | | | | | | | | | | | |]; try done.
    1,2: by eapply run_insert_left; [left|exact Hinv|exact Hrun].
    - by eapply run_update_left.
    - by eapply run_delete_left. }
  rewrite (Hm m eq_refl). destruct He as (ops & Hops & _ & Hc & _). cbn in Hops, Hc. subst ops.
  rewrite <- (Hm m eq_refl) in *. split; [exact Hc|].
  destruct st as [| | | | |tn cols src [] ret|q|tn sets from cond ret|tn from cond ret| | | | | | | | | | | | | | |];
    try done; injection Hw as -> <-.
  1,2: by eapply insert_permitted; [exact Ht| |exact Hrun].
  - eapply update_permitted; [exact Ht|exact Hrun].
  - eapply delete_permitted; [exact Ht|exact Hrun].
Qed.

End Writes.

(** ** Prepared statements *)

Section Cursor.
Import Db.
Context {VI : Type} `{!VectorIndexOps VI, !VectorSearch VI}.
Context {B : Type} `{!EngineStorage B}.
Variable stack : nat.
Variable host : Host.
Abbreviation State := (Database VI SelectStmt B * Handle * Prepared)%type.

(** [n] calls of [step], with what each returned. *)
Fixpoint steps (n : nat) (y : State) : State * list (Res bool) :=
  match n with
  | 0%nat => (y, [])
  | S n => let '(y, r) := step stack host y in let '(y, l) := steps n y in (y, r :: l)
  end.

(** The statement after it ran, with [i] rows fetched. *)
Definition cursor (p : Prepared) (rs : ResultSet) (i : nat) (cur : option nat) : Prepared :=
  mkPrepared (ps_stmt p) (ps_params p) (Some rs) i cur true.

(** What [n] calls of [step] return on a result of [len] rows. *)
Definition answers (len n : nat) : list (Res bool) :=
  replicate (n `min` len) (Ok true) ++ replicate (n - len) (Ok false).

(** The row that is current after [n] calls. *)
Definition current (len n : nat) : option nat := if bool_decide (0 < n ≤ len)%nat then Some (n - 1)%nat else None.

Lemma steps_app n m (y : State) :
  steps (n + m) y = let '(y, l) := steps n y in let '(y, l') := steps m y in (y, l ++ l').
Proof.
  revert y. induction n as [|n IH]; intros y; cbn [steps Nat.add app]; [by destruct (steps m y)|].
  destruct (step stack host y) as [y1 r]. rewrite IH. destruct (steps n y1) as [y2 l]. by destruct (steps m y2).
Qed.

Lemma step_fetch x p rs i cur :
  (i < length (rs_rows rs))%nat →
  step stack host (x, cursor p rs i cur) = ((x, cursor p rs (S i) (Some i)), Ok true).
Proof. intros Hi%Nat.ltb_lt. unfold step, ensure_executed. cbn -[Nat.ltb]. by rewrite Hi. Qed.

Lemma step_end x p rs i cur :
  (length (rs_rows rs) ≤ i)%nat → step stack host (x, cursor p rs i cur) = ((x, cursor p rs i None), Ok false).
Proof. intros Hi%Nat.ltb_ge. unfold step, ensure_executed. cbn -[Nat.ltb]. by rewrite Hi. Qed.

(** The first call runs the statement. *)
Lemma step_first x p x' rs :
  ps_executed p = false → run stack host (ps_stmt p) (ps_params p) x = (x', Ok rs) →
  step stack host (x, p) = step stack host (x', cursor p rs 0 None).
Proof. intros He Hr. unfold step, ensure_executed at 1. by rewrite He, Hr. Qed.

Lemma answers_fetch len n : (n < len)%nat → answers len n ++ [Ok true] = answers len (S n).
Proof.
  intros H. unfold answers. replace (n - len)%nat with 0%nat by lia. replace (S n - len)%nat with 0%nat by lia.
  rewrite !Nat.min_l by lia. rewrite !app_nil_r. by rewrite <- replicate_S_end.
Qed.

Lemma answers_end len n : (len ≤ n)%nat → answers len n ++ [Ok false] = answers len (S n).
Proof.
  intros H. unfold answers. rewrite !Nat.min_r by lia. replace (S n - len)%nat with (S (n - len)) by lia.
  by rewrite <- app_assoc, <- replicate_S_end.
Qed.

Lemma steps_cursor x p rs n :
  steps n (x, cursor p rs 0 None)
  = ((x, cursor p rs (n `min` length (rs_rows rs)) (current (length (rs_rows rs)) n)), answers (length (rs_rows rs)) n).
Proof.
  set (len := length (rs_rows rs)). induction n as [|n IH]; [done|].
  replace (S n) with (n + 1)%nat at 1 by lia. rewrite steps_app, IH. cbn [steps].
  destruct (decide (n < len)%nat) as [Hn|Hn].
  - rewrite Nat.min_l, step_fetch by (fold len; lia). rewrite answers_fetch by done. f_equal. f_equal.
    unfold cursor. rewrite Nat.min_l by lia. f_equal. unfold current. rewrite bool_decide_true by lia. f_equal. lia.
  - rewrite Nat.min_r, step_end by (fold len; lia). rewrite answers_end by lia. f_equal. f_equal.
    unfold cursor. rewrite Nat.min_r by lia. f_equal. unfold current. by rewrite bool_decide_false by lia.
Qed.

(** ** Properties *)

(** [n] calls ran the statement once, to [x'] with result [rs], and are at its [n]th row. *)
Definition hands_out (x' : Database VI SelectStmt B * Handle) (p : Prepared) (rs : ResultSet) (n : nat)
    (res : State * list (Res bool)) : Prop :=
  let len := length (rs_rows rs) in
  let '((y, q), l) := res in
  y = x' ∧ l = answers len n ∧ column_count q = length (rs_columns rs) ∧
  (∀ col, column_value q col
    = (if bool_decide (n ≤ len)%nat then row ← rs_rows rs !! (n - 1)%nat; row !! col else None)) ∧
  reset q = reset p.

(** C30. A prepared statement runs once and hands out its rows in order: calls of [step] on a statement
    that has not run change the database as one run of it does, answer yes once for each row of its
    result and no from then on; after a yes the columns are those of the next row, after a no there is
    no row; and a reset gives back the statement that has not run, with the same parameters. *)
Theorem prepared_cursor x p (x' : Database VI SelectStmt B * Handle) rs n :
  ps_executed p = false → run stack host (ps_stmt p) (ps_params p) x = (x', Ok rs) → (0 < n)%nat →
  hands_out x' p rs n (steps n (x, p)).
Proof.
  intros He Hr Hn. unfold hands_out. set (len := length (rs_rows rs)). destruct n as [|n]; [lia|].
  assert (steps (S n) (x, p) = steps (S n) (x', cursor p rs 0 None)) as ->.
  { cbn [steps]. by rewrite (step_first _ _ _ _ He Hr). }
  rewrite steps_cursor. split_and!; [done..| |done]. intros col. unfold column_value, current. fold len. cbn.
  case_bool_decide; case_bool_decide; (lia || done).
Qed.

End Cursor.
