(* ===== verification/SystemDemo.v ===== *)
(** * The engine's demo run on an embedded database

    The two-writer run of [EngineDemo] with its storage calls going to a file: the LSNs the backend
    hands out are those of the run, and recovery from the file gives what readers saw. *)

From S2P Require Import Prelude Text StorageTypes ObjCodec ObjStorage ObjVersions LocalStore LocalSpec Seam SeamBranch.
From S2P Require Import SeamSpec EngineTypes Wal WalSpec MvccStore Dml DmlProofs.
From S2P Require Import Recovery GroupCommit Conn EngineInv EngineSpec TxnSpec EngineDemo SystemSpec.
From S2P Require Import Numbers Values Session Funcs Ast Lex Parser Statements Expr ExprSpec Relational Select Hnsw Engine SqlSystem WriteSpec.
Import Codec Demo.

Definition disk0 : LocalEnv := fenced "db".
Definition disk1 : LocalEnv := run1 (st_append_wal demo_tok (txn_records [CreateTable (t_schema "T")])) disk0.
Definition disk2 : LocalEnv := run1 (st_append_wal demo_tok (batch_records [(1, (stmt_result ins1).2)])) disk1.

(** The result of an evaluated call, with the state it leaves. *)
Lemma run1_ok {A} (m : Comp LocalEnv StorageError A) s a : (m s).2 = Ok a → m s = (run1 m s, Ok a).
Proof. unfold run1. destruct (m s). cbn. by intros ->. Qed.

Abbreviation sys := (sys_step (VI := ListIndex) (SelectStmt := string) (S := LocalEnv) demo_tok).

Lemma sys01 : sys (init, disk0) (w1, disk1).
Proof.
  apply (sys_ddl demo_tok init disk0 disk1 (CreateTable (t_schema "T")) 2);
    [done|done|done|done| | |done|].
  - split; [vm_compute; done|]. by apply Forall_fmap, Forall_true.
  - exact (run1_ok (st_append_wal demo_tok (txn_records [CreateTable (t_schema "T")])) disk0 2 ltac:(by vm_compute)).
  - by apply (live_same 2 (w_store init) (CreateTable (t_schema "T"))).
Qed.

Lemma sys67 : sys (w6, disk1) (w7, disk2).
Proof.
  apply (sys_append demo_tok w6 disk1 disk2 [(1, (stmt_result ins1).2)] [] [(1, 1, 2)] 4);
    [done|done|done| | | |done].
  - constructor; [|constructor]. vm_compute. done.
  - split; [vm_compute; done|]. by apply Forall_fmap, Forall_true.
  - exact (run1_ok (st_append_wal demo_tok (batch_records [(1, (stmt_result ins1).2)])) disk1 4 ltac:(by vm_compute)).
Qed.

Lemma sys_reach7 : rtc sys (init, disk0) (w7, disk2).
Proof.
  eapply rtc_l; [exact sys01|].
  eapply rtc_l; [apply (sys_memory demo_tok w1 w2 disk1 step12 eq_refl)|].
  eapply rtc_l; [apply (sys_memory demo_tok w2 w3 disk1 step23 eq_refl)|].
  eapply rtc_l; [apply (sys_memory demo_tok w3 w4 disk1 step34 eq_refl)|].
  eapply rtc_l; [apply (sys_memory demo_tok w4 w5 disk1 step45 eq_refl)|].
  eapply rtc_l; [apply (sys_memory demo_tok w5 w6 disk1 step56 eq_refl)|].
  eapply rtc_l; [exact sys67|apply rtc_refl].
Qed.

Definition disk_entries : list LogEntry :=
  match (st_scan_wal 0 disk2).2 with Ok es => es | Err _ => [] end.


(** ** A SQL script on an embedded database *)

(** Two connections: one writes in a transaction while the other reads and updates. *)
Module SqlDemo.
Import Db.

Abbreviation VI := VectorIndex.
#[local] Existing Instance traced.
#[local] Instance demo_index : VectorIndexOps VI := Hnsw_ops ExprRuns.demo_host.

Abbreviation Sys := (Database VI SelectStmt (Traced (S := LocalEnv)) * list Handle)%type.

Definition sql_run1 (i : nat) (sql : string) (x : Sys) : Sys :=
  match parse sql, x.2 !! i with
  | Ok (st, _), Some h =>
      let '((d, h), _) := run (EngineStorage0 := traced demo_tok) 50 ExprRuns.demo_host st [] (x.1, h) in
      (d, <[i := h]> x.2)
  | _, _ => x
  end.

(** An append the file has room for. *)
Definition append_ok (x : LocalEnv * Call) : bool :=
  match x.2 with
  | CallAppend rs =>
      (payload_size (wal_items rs) <? 2 ^ 32) &&
      match (st_append_wal demo_tok rs x.1).2 with Ok l => l <? PENDING | Err _ => false end
  | CallPut _ _ => false
  end.

(** The transaction commits what it logged, or tells its rows apart by their vids. *)
Definition control_ok (d : Database VI SelectStmt (Traced (S := LocalEnv))) (h : Handle) (st : Statement.Stmt) : bool :=
  match txn (h_conn h), st with
  | Some t, Statement.Commit =>
      bool_decide (contents (db_store d)
        = pend_ops (txn_owner t) (contents (rollback_owner (txn_owner t) (db_store d))) (wal_ops t))
  | Some t, Statement.RollbackTo _ => distinct_vids (txn_owner t) (db_store d)
  | _, _ => true
  end.

(** The statement may run, and does not panic. *)
Definition runs (i : nat) (sql : string) (x : Sys) : bool :=
  match parse sql, x.2 !! i with
  | Ok (st, _), Some h =>
      negb (blocked x.1 h st) && control_ok x.1 h st &&
      match st with Statement.AlterTable _ (Statement.AddColumn _) => false | _ => true end &&
      let '((d, _), r) := run (EngineStorage0 := traced demo_tok) 50 ExprRuns.demo_host st [] (x.1, h) in
      match r with Err Panicked => false | _ => true end && forallb append_ok (calls_of d)
  | _, _ => false
  end.

Lemma append_behaves x : append_ok x = true → behaves demo_tok x.
Proof.
  unfold append_ok, behaves. destruct x as [s [rs|id img]]; cbn [fst snd]; [|done].
  intros [Hs Hl]%andb_true_iff. destruct (st_append_wal demo_tok rs s) as [s' [l|e]]; cbn [snd] in Hl; [|done].
  split; [|lia]. split; [lia|]. by apply Forall_fmap, Forall_true.
Qed.

Abbreviation demo_step := (clean_step demo_tok 50 ExprRuns.demo_host SessionContext_default).

Lemma ran i sql (x : Sys) : runs i sql x = true → demo_step x (sql_run1 i sql x).
Proof.
  unfold runs, sql_run1. destruct (parse sql) as [[st n]|]; [|done]. destruct (x.2 !! i) as [h|] eqn:Hh; [|done].
  destruct x as [d0 hs]. cbn [fst snd] in *. intros [[[Hb Hctl]%andb_true_iff Ha]%andb_true_iff Hrun]%andb_true_iff.
  destruct (run 50 _ st [] (d0, h)) as [[d h'] r] eqn:E. apply andb_true_iff in Hrun as [Hok Hc].
  rewrite (insert_take_drop _ _ h') by (by eapply lookup_lt_Some).
  rewrite <- (take_drop_middle hs i h Hh) at 1. apply negb_true_iff in Hb. eapply clean_run; [done|exact E|]. split.
  - destruct st; try done. by destruct action.
  - intros t Et _. unfold control_ok in Hctl. rewrite Et in Hctl. destruct st; try done. by apply bool_decide_eq_true in Hctl.
  - by intros ->.
  - apply Forall_forall. rewrite forallb_forall in Hc. intros c Hin. apply append_behaves, Hc. by apply list_elem_of_In.
Qed.

Definition sys0 : Sys := (new_db (fenced "db"), [Handle_new; Handle_new]).
Definition sys1 : Sys := sql_run1 0 "CREATE TABLE t (id BIGINT PRIMARY KEY, v TEXT)" sys0.
Definition sys2 : Sys := sql_run1 0 "BEGIN" sys1.
Definition sys3 : Sys := sql_run1 0 "INSERT INTO t VALUES (1, 'a'), (2, 'b') RETURNING id" sys2.
(** A statement that fails on its second row, taken back with a savepoint. *)
Definition sys3a : Sys := sql_run1 0 "SAVEPOINT s" sys3.
Definition sys3b : Sys := sql_run1 0 "INSERT INTO t VALUES (3, 'c'), (1, 'd')" sys3a.
Definition sys3c : Sys := sql_run1 0 "ROLLBACK TO s" sys3b.
Definition sys4 : Sys := sql_run1 1 "SELECT id FROM t" sys3c.
Definition sys5 : Sys := sql_run1 0 "COMMIT" sys4.
Definition sys6 : Sys := sql_run1 1 "UPDATE t SET v = 'c' WHERE id = 2" sys5.

(** The failed statement had left its first row. *)
Example failed_row_restored :
  contents (db_store sys3b.1) ≠ contents (db_store sys3a.1) ∧ contents (db_store sys3c.1) = contents (db_store sys3a.1).
Proof. split; [apply (bool_decide_eq_false_1 _)|apply (bool_decide_eq_true_1 _)]; by vm_compute. Qed.

Lemma reach6 : rtc demo_step (new_db (fenced "db"), []) (sys6.1, sys6.2).
Proof.
  rewrite <- surjective_pairing.
  eapply rtc_l; [apply clean_connect|]. eapply rtc_l; [apply clean_connect|].
  eapply (rtc_l _ _ sys1); [apply ran; by vm_compute|]. eapply (rtc_l _ _ sys2); [apply ran; by vm_compute|].
  eapply (rtc_l _ _ sys3); [apply ran; by vm_compute|]. eapply (rtc_l _ _ sys3a); [apply ran; by vm_compute|].
  eapply (rtc_l _ _ sys3b); [apply ran; by vm_compute|]. eapply (rtc_l _ _ sys3c); [apply ran; by vm_compute|].
  eapply (rtc_l _ _ sys4); [apply ran; by vm_compute|]. eapply (rtc_l _ _ sys5); [apply ran; by vm_compute|].
  eapply (rtc_l _ _ sys6); [apply ran; by vm_compute|].
  apply rtc_refl.
Qed.

(** A clean run is a run. *)
Lemma sql_reach6 : rtc (sql_step demo_tok 50) (new_db (fenced "db"), []) (sys6.1, sys6.2).
Proof. eapply (rtc_subrel demo_step); [|exact reach6]. intros a b. apply clean_step_sql. Qed.

Definition sql_entries : list LogEntry :=
  match (st_scan_wal 0 (backend sys6.1)).2 with Ok es => es | Err _ => [] end.


Lemma sql_one_writer_witness :
  (length (filter (λ h, holds_lane h = true) sys6.2) = if db_lane sys6.1 then 1 else 0)%nat.
Proof. exact (sql_one_writer demo_tok 50 (fenced "db") sys6.1 sys6.2 sql_reach6). Defined.

(** ** Row-level security *)

(** A table two of whose rows only some sessions may touch. *)
Definition rls1 : Sys := sql_run1 0 "INSERT INTO t VALUES (1, 'mine'), (2, 'theirs'), (3, 'mine')" sys1.
Definition rls2 : Sys := sql_run1 0 "ALTER TABLE t ENABLE ROW LEVEL SECURITY" rls1.
Definition rls3 : Sys := sql_run1 0 "CREATE POLICY p ON t USING (v = 'mine')" rls2.

Lemma reach_rls : rtc demo_step (new_db (fenced "db"), []) (rls3.1, rls3.2).
Proof.
  rewrite <- surjective_pairing.
  eapply rtc_l; [apply clean_connect|]. eapply rtc_l; [apply clean_connect|].
  eapply (rtc_l _ _ sys1); [apply ran; by vm_compute|]. eapply (rtc_l _ _ rls1); [apply ran; by vm_compute|].
  eapply (rtc_l _ _ rls2); [apply ran; by vm_compute|]. eapply (rtc_l _ _ rls3); [apply ran; by vm_compute|].
  apply rtc_refl.
Qed.

Definition demo_parse (sql : string) : Statement.Stmt :=
  match parse sql with Ok (st, _) => st | Err _ => Statement.Noop end.

(** A write statement of a later transaction on that table. *)
Definition demo_wc : WriteCtx := mkWriteCtx 10 7.
Definition demo_write (sql : string) (x : Sys) : Store VI SelectStmt * Res Mutation :=
  dml_run 50 ExprRuns.demo_host SessionContext_default [] (demo_parse sql) demo_wc (db_store x.1).

Definition rls_table : Table := match table (db_store rls3.1) "t" with Some t => t | None => mkTable (mkSchema "t" [] [] [] [] false []) [] 0 0 end.
Definition moved : Mutation :=
  mkMutation [Delete "t" 1; Insert "t" 4 [Int 11; TextV "mine"]; Delete "t" 3; Insert "t" 5 [Int 13; TextV "mine"]] 2
    (Some (mkResultSet ["id"%string] [CInteger] [[Int 11]; [Int 13]])).

Lemma writes_respect_rls_witness :
  let s' := (demo_write "UPDATE t SET id = id + 10 RETURNING id" rls3).1 in
  contents s' = pend_ops 7 (contents (db_store rls3.1)) (mut_wal moved) ∧
  Forall (permitted ExprRuns.demo_host SessionContext_default [] "t" PUpdate rls_table demo_wc) (mut_wal moved) ∧
  ∀ rs, mut_result moved = Some rs → shown ExprRuns.demo_host SessionContext_default [] rls_table rs.
Proof.
  refine (writes_respect_rls 50 ExprRuns.demo_host SessionContext_default []
    (demo_parse "UPDATE t SET id = id + 10 RETURNING id") "t" PUpdate demo_wc (db_store rls3.1) _ moved rls_table _ _ _ _).
  - exact (clean_table_inv _ _ _ _ _ _ _ (fenced_holds "db") reach_rls).
  - vm_compute. reflexivity.
  - vm_compute. reflexivity.
  - vm_compute. reflexivity.
Defined.

(** An upsert overwrites a row the policies hide from the session, and shows what it made of it. *)
Example upsert_takes_hidden_row :
  (∃ m, (demo_write "INSERT INTO t VALUES (2, 'mine') ON CONFLICT (id) DO UPDATE SET v = 'mine' RETURNING *" rls3).2 = Ok m ∧
     mut_wal m = [Delete "t" 2; Insert "t" 4 [Int 2; TextV "mine"]]) ∧
  (∃ m, (demo_write "INSERT OR REPLACE INTO t VALUES (2, 'mine')" rls3).2 = Ok m ∧
     mut_wal m = [Delete "t" 2; Insert "t" 4 [Int 2; TextV "mine"]]) ∧
  (∃ m, (demo_write "UPDATE t SET v = 'mine' WHERE id = 2" rls3).2 = Ok m ∧ mut_wal m = []).
Proof. split_and!; (eexists; split; [vm_compute; reflexivity|reflexivity]). Qed.

(** An upsert stores a row its table's CHECK refuses. *)
Definition chk1 : Sys := sql_run1 0 "CREATE TABLE c (id BIGINT PRIMARY KEY, n BIGINT CHECK (n > 0))" sys0.
Definition chk2 : Sys := sql_run1 0 "INSERT INTO c VALUES (1, 5)" chk1.

Example upsert_skips_check :
  (∃ m, (demo_write "INSERT INTO c VALUES (1, 6) ON CONFLICT (id) DO UPDATE SET n = -1" chk2).2 = Ok m ∧
     mut_wal m = [Delete "c" 1; Insert "c" 2 [Int 1; Int (-1)]]) ∧
  (demo_write "UPDATE c SET n = -1" chk2).2 = Err (Failed ErrConstraint).
Proof. split; [eexists; split; [vm_compute; reflexivity|reflexivity]|vm_compute; reflexivity]. Qed.

(** A panic in an autocommit write leaves its transaction open and the lane taken. *)
Example panic_keeps_lane :
  let x := sql_run1 0 "UPDATE c SET n = mod(n, 0.5)" chk2 in
  db_lane x.1 = true ∧ in_transaction (default Handle_new (x.2 !! 0%nat)) = true ∧
  is_ok (run (EngineStorage0 := traced demo_tok) 50 ExprRuns.demo_host (demo_parse "COMMIT") [] (x.1, default Handle_new (x.2 !! 1%nat))).2 = false.
Proof. vm_compute. done. Qed.

(** ** A prepared statement *)

Definition demo_handle : Handle := default Handle_new (rls3.2 !! 0%nat).
Definition prepared : Prepared :=
  match prepare "SELECT id FROM t WHERE id > ?" with
  | Ok p => match bind 1 (Int 0) p with Ok p => p | Err _ => p end
  | Err _ => mkPrepared Statement.Noop [] None 0 None false
  end.

Definition prepared_rows : ResultSet := mkResultSet ["id"%string] [CInteger] [[Int 1]; [Int 3]].
Definition prepared_after : Database VI SelectStmt (Traced (S := LocalEnv)) * Handle :=
  (run (EngineStorage0 := traced demo_tok) 50 ExprRuns.demo_host (ps_stmt prepared) (ps_params prepared)
     (rls3.1, demo_handle)).1.

(** Three calls on a result of two rows. *)
Lemma prepared_cursor_witness :
  hands_out prepared_after prepared prepared_rows 3
    (steps (EngineStorage0 := traced demo_tok) 50 ExprRuns.demo_host 3 ((rls3.1, demo_handle), prepared)).
Proof.
  refine (prepared_cursor (EngineStorage0 := traced demo_tok) 50 ExprRuns.demo_host (rls3.1, demo_handle) prepared prepared_after prepared_rows 3 _ _ _).
  - vm_compute. reflexivity.
  - vm_compute. reflexivity.
  - lia.
Defined.

End SqlDemo.
