(* ===== verification/GroupSpec.v ===== *)
(** * Group commit: the leader's loop ends and nobody starves

    The rounds of [lead] with commits arriving between them.  Every round takes at least the head of
    the queue, so the loop ends once arrivals stop, and a commit at position [k] has its result
    after at most [k + 1] rounds, whatever arrives behind it. *)

From S2P Require Import Prelude Text StorageTypes EngineTypes Wal MvccStore Dml Recovery GroupCommit Conn.

Section GroupSpec.
Context {VI : Type} `{!VectorIndexOps VI} {SelectStmt : Type}.
Context {B : Type} `{!EngineStorage B}.
Abbreviation Db := (Database VI SelectStmt B).
Abbreviation Store := (Store VI SelectStmt).

(** The queue holds ids of members, and ids are handed out in order. *)
Record group_ok (g : GroupCommit) : Prop := {
  go_queue : Forall (λ id, is_Some (members g !! id)) (queue g);
  go_ids : map_Forall (λ id _, id < next_id g) (members g)
}.

Definition is_done (g : GroupCommit) (id : Z) : Prop :=
  ∃ m r, members g !! id = Some m ∧ m_done m = true ∧ m_result m = Some r.

(** The iteration of [lead] up to the check of the queue. *)
Definition round (d : Db) : Db :=
  let '(g, batch) := drain_batch (db_group d) in
  let '(b, s, g) :=
    if bool_decide (batch = []) then (db_storage d, db_store d, g)
    else flush_batch es_append batch (db_storage d) (db_store d) g in
  mkDb b s (db_lane d) g (db_next_owner d).

(** ** One batch *)

Lemma take_batch_take g q n first : take_batch g q n first = take (length (take_batch g q n first)) q.
Proof.
  revert n first. induction q as [|id q IH]; intros n first; [done|]. cbn.
  destruct (negb first && _); [done|]. cbn. f_equal. apply IH.
Qed.

(** ** Results *)

Lemma alter_done id r id' (ms : gmap Z Member) m :
  ms !! id' = Some m → (m_done m = true → ∃ r', m_result m = Some r') →
  ∃ m', alter (λ m, mkMember (m_owner m) (m_records m) (Some r) true) id ms !! id' = Some m' ∧
    (m_done m = true → m_done m' = true) ∧ (id = id' → m_done m' = true) ∧
    (m_done m' = true → ∃ r', m_result m' = Some r').
Proof.
  intros Hm Hd. destruct (decide (id = id')) as [->|Hne].
  - rewrite lookup_alter_eq, Hm. cbn. eexists. split; [done|]. cbn. split_and!; eauto.
  - rewrite lookup_alter_ne, Hm by done. exists m. split_and!; done || (intros ->; done).
Qed.

Lemma resolve_done results g id m :
  members g !! id = Some m → (m_done m = true → ∃ r, m_result m = Some r) →
  ∃ m', members (resolve results g) !! id = Some m' ∧
    ((m_done m = true ∨ id ∈ results.*1) → m_done m' = true) ∧ (m_done m' = true → ∃ r, m_result m' = Some r).
Proof.
  unfold resolve. cbn. generalize (members g). intros ms. revert ms m.
  induction results as [|[i r] results IH]; intros ms m Hm Hd.
  - exists m. split_and!; [done| |done]. intros [?|H%elem_of_nil]; done.
  - destruct (alter_done i r id ms m Hm Hd) as (m1 & H1 & H2 & H3 & H4).
    destruct (IH _ m1 H1 H4) as (m2 & H5 & H6 & H7). exists m2. split_and!; [done| |done].
    intros Hor. apply H6. cbn in Hor. destruct Hor as [?|[->|?]%elem_of_cons]; auto.
Qed.

Lemma resolve_ids results g : dom (members (resolve results g)) = dom (members g).
Proof.
  unfold resolve. cbn. generalize (members g). induction results as [|[i r] results IH]; intros ms; [done|].
  cbn. by rewrite IH, dom_alter_L.
Qed.

Lemma commit_lsns_ids first acc ms : (commit_lsns first acc ms).*1.*1 = ms.*1.*1.
Proof. revert acc. induction ms as [|[[id o] n] ms IH]; intros acc; cbn; [done|]. by rewrite IH. Qed.

Lemma gather_ids g batch :
  Forall (λ id, is_Some (members g !! id)) batch → (gather g batch).2.*1.*1 = batch.
Proof.
  unfold gather. cbn. induction 1 as [|id batch [m Hm] _ IH]; [done|]. cbn. rewrite Hm. cbn. by rewrite IH.
Qed.

(** A flush gives every member of the batch a result, and takes none away. *)
Lemma flush_spec batch (b b' : B) (s s' : Store) g g' :
  Forall (λ id, is_Some (members g !! id)) batch → flush_batch es_append batch b s g = (b', s', g') →
  queue g' = queue g ∧ next_id g' = next_id g ∧ leader_active g' = leader_active g ∧
  ∃ results, members g' = members (resolve results g) ∧ results.*1 = batch.
Proof.
  intros Hb. unfold flush_batch. destruct (gather g batch) as [all ms] eqn:Eg.
  assert (ms.*1.*1 = batch) as Hms by (rewrite <- (gather_ids g batch Hb), Eg; done).
  destruct (es_append all b) as [b1 [l|e]].
  - destruct (publish l ms s) as [s1 results] eqn:Ep. intros [= <- <- <-]. split_and!; [done..|].
    exists results. split; [done|]. unfold publish in Ep. injection Ep as _ <-.
    rewrite <- Hms, <- (commit_lsns_ids (l - foldr (λ m n, m.2 + n) 0 ms + 1) 0 ms), <- !list_fmap_compose. done.
  - destruct (abort_batch e ms s) as [s1 results] eqn:Ea. intros [= <- <- <-]. split_and!; [done..|].
    exists results. split; [done|]. unfold abort_batch in Ea. injection Ea as _ <-.
    rewrite <- Hms, <- !list_fmap_compose. done.
Qed.

(** ** A round *)

Lemma round_spec (d : Db) :
  group_ok (db_group d) →
  ∃ batch results, queue (db_group d) = batch ++ queue (db_group (round d)) ∧
    (queue (db_group d) ≠ [] → batch ≠ []) ∧ results.*1 = batch ∧ next_id (db_group (round d)) = next_id (db_group d) ∧
    members (db_group (round d)) = members (resolve results (db_group d)).
Proof.
  intros [Hq Hi]. unfold round, drain_batch. set (g := db_group d) in *. set (batch := take_batch g (queue g) 0 true).
  pose proof (take_batch_take g (queue g) 0 true) as Hp. fold batch in Hp.
  assert (queue g = batch ++ drop (length batch) (queue g)) as Hsplit by (rewrite Hp at 1; by rewrite take_drop).
  assert (queue g ≠ [] → batch ≠ []) as Hne by (unfold batch; destruct (queue g); done).
  case_bool_decide as E.
  - exists [], []. cbn. rewrite E in *. split_and!; try done.
  - assert (Forall (λ id, is_Some (members (with_queue (drop (length batch) (queue g)) g) !! id)) batch) as Hb.
    { cbn. rewrite Hsplit in Hq. by apply Forall_app in Hq as [Hq _]. }
    destruct (flush_batch _ _ _ _ _) as [[b s] g'] eqn:Ef.
    destruct (flush_spec _ _ _ _ _ _ _ Hb Ef) as (H1 & H2 & _ & results & H3 & H4).
    exists batch, results. cbn. rewrite H1, H2, H3. split_and!; done.
Qed.

Lemma results_kept results g id : group_ok g →
  (∀ i m, members g !! i = Some m → m_done m = true → ∃ r, m_result m = Some r) →
  is_Some (members g !! id) → (is_done g id ∨ id ∈ results.*1) → ∃ m r, members (resolve results g) !! id = Some m ∧
    m_done m = true ∧ m_result m = Some r.
Proof.
  intros _ Hr [m Hm] Hor. destruct (resolve_done results g id m Hm (Hr _ _ Hm)) as (m' & H1 & H2 & H3).
  assert (m_done m' = true) as Hd.
  { apply H2. destruct Hor as [(m0 & r0 & Hm0 & Hd0 & _)|Hin]; [left|by right]. congruence. }
  destruct (H3 Hd) as [r Hr']. eauto 10.
Qed.

(** Done members have a result. *)
Definition results_ok (g : GroupCommit) : Prop :=
  ∀ id m, members g !! id = Some m → m_done m = true → ∃ r, m_result m = Some r.

Lemma round_group_ok (d : Db) : group_ok (db_group d) → group_ok (db_group (round d)).
Proof.
  intros Hok. destruct (round_spec d Hok) as (batch & results & Hq & _ & _ & Hn & Hm). destruct Hok as [H1 H2].
  assert (∀ id, is_Some (members (db_group (round d)) !! id) ↔ is_Some (members (db_group d) !! id)) as Hdom.
  { intros id. rewrite Hm, <- !elem_of_dom, resolve_ids. done. }
  split.
  - rewrite Hq in H1. apply Forall_app in H1 as [_ H1]. eapply Forall_impl; [exact H1|]. intros id. apply Hdom.
  - intros id m Hid. rewrite Hn. destruct (proj1 (Hdom id) (ex_intro _ m Hid)) as [m0 Hm0]. by apply (H2 _ _ Hm0).
Qed.

Lemma round_results_ok (d : Db) :
  group_ok (db_group d) → results_ok (db_group d) → results_ok (db_group (round d)).
Proof.
  intros Hok Hr. destruct (round_spec d Hok) as (batch & results & _ & _ & _ & _ & Hm).
  intros id m. rewrite Hm. intros Hid. assert (is_Some (members (db_group d) !! id)) as [m0 Hm0].
  { rewrite <- elem_of_dom, <- (resolve_ids results), elem_of_dom. eauto. }
  destruct (resolve_done results (db_group d) id m0 Hm0 (Hr _ _ Hm0)) as (m' & H1' & _ & H3). naive_solver.
Qed.

(** A round takes members off the queue. *)
Lemma round_shortens (d : Db) :
  group_ok (db_group d) → queue (db_group (round d)) ≠ [] →
  (length (queue (db_group (round d))) < length (queue (db_group d)))%nat.
Proof.
  intros Hok E. destruct (round_spec d Hok) as (batch & results & Hq & Hne & _). rewrite Hq, length_app.
  destruct (decide (queue (db_group d) = [])) as [E'|E'].
  - rewrite E' in Hq. symmetry in Hq. apply app_eq_nil in Hq as [_ Hq]. done.
  - destruct batch; [by destruct Hne|cbn; lia].
Qed.

(** Who was waiting before a round has a result or is still waiting. *)
Lemma round_waiting (d : Db) id :
  group_ok (db_group d) → results_ok (db_group d) → id ∈ queue (db_group d) →
  id ∈ queue (db_group (round d)) ∨ is_done (db_group (round d)) id.
Proof.
  intros Hok Hr Hin. destruct (round_spec d Hok) as (batch & results & Hq & _ & Hb & _ & Hm).
  pose proof Hin as Hin'. rewrite Hq in Hin'. apply elem_of_app in Hin' as [Hin'|?]; [right|by left].
  unfold is_done. rewrite Hm. apply results_kept; [done|done| |right; by rewrite Hb].
  pose proof (go_queue _ Hok) as Hf. rewrite Forall_forall in Hf. by apply Hf.
Qed.

(** ** Rounds with arrivals between them *)

Inductive GroupEvent := Arrival (o : Z) (records : list WalRecord) | Round.

Definition group_event (d : Db) (e : GroupEvent) : Db :=
  match e with
  | Arrival o records => mkDb (db_storage d) (db_store d) (db_lane d) (enqueue o records (db_group d)).1 (db_next_owner d)
  | Round => round d
  end.

Definition rounds (es : list GroupEvent) : nat :=
  length (List.filter (λ e, match e with Round => true | Arrival _ _ => false end) es).

Lemma enqueue_ok o records g :
  group_ok g → results_ok g → group_ok (enqueue o records g).1 ∧ results_ok (enqueue o records g).1 ∧
  (∀ id, is_done g id → is_done (enqueue o records g).1 id).
Proof.
  intros [H1 H2] Hr. assert (members g !! next_id g = None) as Hf.
  { destruct (members g !! next_id g) as [m|] eqn:E; [|done]. apply H2 in E. lia. }
  split; [split|split]; cbn.
  - apply Forall_app. split; [|by constructor; [rewrite lookup_insert_eq; eauto|]].
    eapply Forall_impl; [exact H1|]. cbn. intros id Hid. destruct (decide (id = next_id g)) as [->|];
      [rewrite lookup_insert_eq; eauto|by rewrite lookup_insert_ne].
  - intros id m. cbn. destruct (decide (id = next_id g)) as [->|]; [cbn; lia|]. rewrite lookup_insert_ne by done.
    intros Hid. apply H2 in Hid. cbn. lia.
  - intros id m. cbn. destruct (decide (id = next_id g)) as [->|]; [rewrite lookup_insert_eq; by intros [= <-]|].
    rewrite lookup_insert_ne by done. apply Hr.
  - intros id (m & r & Hm & Hd). exists m, r. split; [|done]. cbn. rewrite lookup_insert_ne; [done|]. congruence.
Qed.

Lemma round_keeps_done (d : Db) id :
  group_ok (db_group d) → results_ok (db_group d) → is_done (db_group d) id → is_done (db_group (round d)) id.
Proof.
  intros Hok Hr Hd. destruct (round_spec d Hok) as (batch & results & _ & _ & _ & _ & Hm). unfold is_done. rewrite Hm.
  apply results_kept; [done|done| |by left]. destruct Hd as (m & r & H & _). eauto.
Qed.

Lemma events_ok es (d : Db) :
  group_ok (db_group d) → results_ok (db_group d) →
  group_ok (db_group (foldl group_event d es)) ∧ results_ok (db_group (foldl group_event d es)) ∧
  (∀ id, is_done (db_group d) id → is_done (db_group (foldl group_event d es)) id).
Proof.
  revert d. induction es as [|[o records|] es IH]; intros d Hok Hr; [done| |]; cbn.
  - destruct (enqueue_ok o records _ Hok Hr) as (H1 & H2 & H3).
    destruct (IH (group_event d (Arrival o records)) H1 H2) as (H4 & H5 & H6).
    split_and!; [done..|]. intros id Hd. by apply H6, H3.
  - destruct (IH _ (round_group_ok d Hok) (round_results_ok d Hok Hr)) as (H4 & H5 & H6).
    split_and!; [done..|]. intros id Hd. by apply H6, round_keeps_done.
Qed.

(** A member of the queue moves to the front by at least one place per round. *)
Lemma queue_progress es (d : Db) k id :
  group_ok (db_group d) → results_ok (db_group d) → queue (db_group d) !! k = Some id → (k < rounds es)%nat →
  is_done (db_group (foldl group_event d es)) id.
Proof.
  revert d k. induction es as [|[o records|] es IH]; intros d k Hok Hr Hk Hn; cbn in *; [lia| |].
  - destruct (enqueue_ok o records _ Hok Hr) as (H1 & H2 & _). apply (IH (group_event d (Arrival o records)) k H1 H2); [|done]. cbn.
    by apply lookup_app_l_Some.
  - pose proof (round_group_ok d Hok) as H1. pose proof (round_results_ok d Hok Hr) as H2.
    destruct (round_spec d Hok) as (batch & results & Hq & Hne & Hb & _ & Hm).
    destruct (decide (k < length batch)%nat) as [Hlt|Hge].
    + apply (events_ok es (round d) H1 H2). unfold is_done. rewrite Hm. apply results_kept; [done|done| |right].
      * apply (proj1 (Forall_lookup _ _) (go_queue _ Hok) k id Hk).
      * rewrite Hb. rewrite Hq, lookup_app_l in Hk by done. by eapply list_elem_of_lookup_2.
    + apply (IH _ (k - length batch)%nat H1 H2).
      * by rewrite Hq, lookup_app_r in Hk by lia.
      * assert (batch ≠ []) by (apply Hne; by intros E; rewrite E in Hk).
        destruct batch; [done|]. unfold rounds in *. cbn in *. lia.
Qed.

(** ** The loop *)

(** [lead] is its rounds, until the queue is empty. *)
Lemma lead_round fuel (d : Db) :
  lead (S fuel) d = if bool_decide (queue (db_group (round d)) = [])
    then mkDb (db_storage (round d)) (db_store (round d)) (db_lane d) (relinquish (db_group (round d))).1 (db_next_owner d)
    else lead fuel (round d).
Proof.
  unfold round. cbn [lead]. destruct (drain_batch (db_group d)) as [g batch].
  destruct (if bool_decide (batch = []) then _ else _) as [[b s] g']. cbn. unfold relinquish. by case_bool_decide.
Qed.

Lemma lead_more n fuel (d : Db) :
  group_ok (db_group d) → (length (queue (db_group d)) ≤ n)%nat → (n < fuel)%nat → lead fuel d = lead (S n) d.
Proof.
  revert fuel d. induction n as [|n IH]; intros [|fuel] d Hok Hn Hf; try lia; rewrite (lead_round fuel d), (lead_round _ d);
    (case_bool_decide as E; [done|]); pose proof (round_shortens d Hok E); [lia|].
  apply IH; [by apply round_group_ok|lia|lia].
Qed.

Lemma lead_done fuel (d : Db) :
  group_ok (db_group d) → results_ok (db_group d) → (length (queue (db_group d)) < fuel)%nat →
  quiesced (db_group (lead fuel d)) = true ∧
  (∀ id, id ∈ queue (db_group d) ∨ is_done (db_group d) id → is_done (db_group (lead fuel d)) id).
Proof.
  revert d. induction fuel as [|fuel IH]; intros d Hok Hr Hf; [lia|]. rewrite lead_round.
  case_bool_decide as E.
  - unfold relinquish. rewrite bool_decide_true by done. cbn. split; [unfold quiesced; cbn; by rewrite bool_decide_true|].
    intros id [Hin|Hd]; [|by apply round_keeps_done]. destruct (round_waiting d id Hok Hr Hin) as [H|H]; [|done].
    rewrite E in H. by apply elem_of_nil in H.
  - pose proof (round_shortens d Hok E).
    destruct (IH (round d)) as [H1 H2]; [by apply round_group_ok|by apply round_results_ok|lia|].
    split; [done|]. intros id [Hin|Hd]; apply H2; [by apply round_waiting|right; by apply round_keeps_done].
Qed.

(** ** Properties *)

(** The leader's loop ends: with more turns than the queue is long, [lead] empties the queue,
    gives up the lead, and leaves every commit that waited with a result, durable or failed; further
    turns change nothing. *)
Theorem group_lead_terminates (d : Db) fuel :
  group_ok (db_group d) → results_ok (db_group d) → (length (queue (db_group d)) < fuel)%nat →
  quiesced (db_group (lead fuel d)) = true ∧
  Forall (is_done (db_group (lead fuel d))) (queue (db_group d)) ∧
  lead fuel d = lead (S (length (queue (db_group d)))) d.
Proof.
  intros Hok Hr Hf. destruct (lead_done fuel d Hok Hr Hf) as [H1 H2]. split_and!; [done| |by apply lead_more].
  apply Forall_forall. intros id Hin. apply H2. by left.
Qed.

(** C38. No commit starves: one that waits at position [k] of the queue has its result after [k + 1]
    rounds of the leader, however many commits arrive in between. *)
Theorem group_commit_no_starvation (d : Db) es k id :
  group_ok (db_group d) → results_ok (db_group d) → queue (db_group d) !! k = Some id → (k < rounds es)%nat →
  is_done (db_group (foldl group_event d es)) id.
Proof. apply queue_progress. Qed.

End GroupSpec.
