(* ===== verification/EngineWitness.v ===== *)
(** * The engine's theorems on concrete states

    Each theorem with hypotheses is applied to a state of the run of [Demo], or to a small store or
    queue, where the hypotheses hold by evaluation. *)

From S2P Require Import Prelude Text StorageTypes EngineTypes Wal WalSpec MvccStore Dml DmlProofs.
From S2P Require Import Recovery GroupCommit Conn EngineInv EngineSpec.
From S2P Require Import EngineDemo TxnSpec GroupSpec.
Import Demo Findings.

Module Witness.


Lemma engine_recovery_restores_witness :
  ∃ s : DStore, replay (Ok (log_entries (w_log w9))) Store_default = Ok s ∧
    contents s = contents (w_store w9) ∧ committed_lsn s = committed_lsn (w_store w9).
Proof. exact (engine_recovery_restores w9 reach9 eq_refl encodable9). Defined.

Lemma engine_crash_keeps_reads_witness :
  ∃ s : DStore, replay (Ok (log_entries (durable_log w7))) Store_default = Ok s ∧
    ∀ snap k, snap ≤ committed_lsn (w_store w7) →
      table_view snap (contents s) k = table_view snap (contents (w_store w7)) k.
Proof. exact (engine_crash_keeps_reads w7 reach7 encodable7). Defined.

Lemma engine_snapshot_stable_witness :
  table_view 2 (contents (w_store w8)) "t" = table_view 2 (contents (w_store w7)) "t".
Proof.
  apply (engine_snapshot_stable w7 w8 2 "t" reach7 step78).
  - vm_compute. discriminate.
  - intros (op & l & Hd & Hl). vm_compute in Hl. injection Hl as <- _. exact Hd.
Defined.

Lemma engine_commit_publishes_writer_view_witness :
  table_view 4 (contents (finalize_owner 1 4 (w_store w7))) "t"
  = Some (writer_view 2 1 (table_rows (w_store w7) "t")).
Proof.
  apply (engine_commit_publishes_writer_view w7 demo_batch 1 (stmt_result ins1).2 [] 2 [] 1 "t"
           (t_schema "T") (table_rows (w_store w7) "t") reach7);
    vm_compute; reflexivity.
Defined.

Lemma delete_exact_witness :
  [Delete "t" 1] = (λ r, Delete "t" (vid r)) <$>
    filter (selected (λ vals, Ok (bool_decide (cell vals 0 = Int 1))) (mkWriteCtx 10 2))
      [mkRow 1 [Int 1; TextV "a"] 10 0 0].
Proof.
  refine (proj1 (delete_exact (delete_stmt "t" 1) (mkWriteCtx 10 2) base
    (run_delete (delete_stmt "t" 1) (mkWriteCtx 10 2) base).1 (mkMutation [Delete "t" 1] 1 None)
    (mkTable (t_schema "t") [mkRow 1 [Int 1; TextV "a"] 10 0 0] 2 1) _ _ eq_refl _));
    vm_compute; reflexivity.
Defined.

(** A row that writer 1 is deleting, seen by writer 2. *)
Definition contended : DStore := (run_delete (delete_stmt "t" 1) (mkWriteCtx 10 1) base).1.

Lemma conflicting_writes_refused_witness :
  run_delete (delete_stmt "t" 1) (mkWriteCtx 10 2) contended
  ≠ (contended, Ok (mkMutation [Delete "t" 1] 1 None)).
Proof.
  refine (proj1 (conflicting_writes_refused (mkWriteCtx 10 2) contended "t"
    (mkTable (t_schema "t") [mkRow 1 [Int 1; TextV "a"] 10 PENDING 1] 2 1)
    (mkRow 1 [Int 1; TextV "a"] 10 PENDING 1) _ _ _ _) (delete_stmt "t" 1) _ contended
    (mkMutation [Delete "t" 1] 1 None) eq_refl eq_refl _).
  - vm_compute. reflexivity.
  - left.
  - vm_compute. reflexivity.
  - right. split; [reflexivity | discriminate].
  - vm_compute. reflexivity.
Defined.

(** Writer 2 of the run inserts another row after a savepoint. *)
Definition after_savepoint :=
  run_insert (values_stmt "t" OCError [[Int 9; TextV "c"]]) (mkWriteCtx 2 2) (w_store w7).

Lemma after_savepoint_statements :
  statements (mkWriteCtx 2 2) (w_store w7) (stmt_result after_savepoint).1
    ([] ++ (stmt_result after_savepoint).2).
Proof.
  destruct after_savepoint as [s [m|e]] eqn:E; [|by vm_compute in E].
  apply (stmts_snoc _ _ (w_store w7) [] s m); [constructor|]. by eapply stmt_insert; [left|exact E].
Qed.

Lemma savepoint_restores_witness :
  contents (rollback_to_savepoint 2 {[2]} ∅ (stmt_result after_savepoint).1) = contents (w_store w7).
Proof.
  pose proof (savepoint_restores w7 2 2 (stmt_result ins2).2 (stmt_result after_savepoint).1 _ reach7
    eq_refl after_savepoint_statements) as H.
  assert (pending_snapshot (w_store w7) 2 = ({[2]}, ∅)) as E by (vm_compute; reflexivity).
  rewrite E in H. apply H. vm_compute. constructor; [|constructor]. by apply (bool_decide_unpack _).
Defined.

Definition two_members : GroupCommit :=
  (enqueue 2 [encode Commit] (enqueue 1 [encode Commit] GroupCommit_new).1).1.

Lemma drain_batch_bounded_witness :
  queue two_members = [1; 2] ++ [] ∧ (queue two_members ≠ [] → [1; 2] ≠ []) ∧
  (zlen [1; 2] ≤ 1 ∨ batch_records two_members [1; 2] ≤ MAX_BATCH_RECORDS).
Proof. exact (drain_batch_bounded two_members (with_queue [] two_members) [1; 2] eq_refl). Defined.

(** Two commits wait on an empty database. *)
Definition waiting_db : Database ListIndex string (list LogEntry) :=
  mkDb (db_storage fresh_db) (db_store fresh_db) false two_members 3.

Lemma two_members_ok : group_ok two_members ∧ results_ok two_members.
Proof.
  assert (∀ id m, members two_members !! id = Some m → (id = 1 ∨ id = 2) ∧ m_done m = false) as Hm.
  { intros id m. unfold two_members, enqueue. cbn.
    destruct (decide (id = 2)) as [->|]; [rewrite lookup_insert_eq; intros [= <-]; auto|].
    rewrite lookup_insert_ne by done. destruct (decide (id = 1)) as [->|]; [rewrite lookup_insert_eq; intros [= <-]; auto|].
    by rewrite lookup_insert_ne, lookup_empty by done. }
  split; [split|].
  - repeat constructor; eexists; vm_compute; reflexivity.
  - intros id m [[->| ->] _]%Hm; vm_compute; reflexivity.
  - intros id m [_ Hd]%Hm. congruence.
Qed.

Lemma group_lead_terminates_witness :
  quiesced (db_group (lead 3 waiting_db)) = true ∧ Forall (is_done (db_group (lead 3 waiting_db))) [1; 2] ∧
  lead 3 waiting_db = lead (S (length [1; 2])) waiting_db.
Proof.
  exact (group_lead_terminates waiting_db 3 (proj1 two_members_ok) (proj2 two_members_ok) (le_n 3)).
Defined.

Lemma group_commit_no_starvation_witness :
  is_done (db_group (foldl group_event waiting_db [Round; Arrival 9 [encode Commit]; Round])) 2.
Proof.
  exact (group_commit_no_starvation waiting_db [Round; Arrival 9 [encode Commit]; Round] 1 2
    (proj1 two_members_ok) (proj2 two_members_ok) eq_refl (le_n 2)).
Defined.

Lemma commit_acknowledged_when_durable_witness :
  (group_commit 1 [encode Commit] fresh_db).2 = Ok 1.
Proof.
  pose proof (commit_acknowledged_when_durable 1 [encode Commit] fresh_db eq_refl) as H.
  destruct (group_commit 1 [encode Commit] fresh_db) as [d r]. exact (proj1 (proj2 (proj2 (proj2 H)))).
Defined.

Lemma ddl_logs_what_it_applies_witness :
  logged fresh_db (do_ddl (λ _, []) (DCreateTable (table_stmt (t_schema "T"))) fresh_db).1 2.
Proof.
  apply (ddl_logs_what_it_applies (λ _, []) (DCreateTable (table_stmt (t_schema "T")))).
  vm_compute. reflexivity.
Defined.

End Witness.
