(* ===== verification/WireDemo.v ===== *)
(** * The wire server's theorems on a concrete connection

    A client creates a table, fills it by a prepared statement and reads it back, on a database that
    keeps its log in memory; then the behaviours of the server that its comments contradict. *)

From S2P Require Import Prelude Text StorageTypes Numbers Float Chars EngineTypes Values Json Session Funcs Ast Wal WalSpec.
From S2P Require Import MvccStore Select Relational RelationalSpec Dml GroupCommit Conn Expr ExprSpec Hnsw Engine.
From S2P Require Import Wire Introspect Datapath Server WireSpec EngineInv EngineDemo.
Import Protocol Types Server.

Module WireDemo.

Abbreviation VI := VectorIndex.
#[local] Instance demo_index : VectorIndexOps VI := Hnsw_ops ExprRuns.demo_host.
#[local] Existing Instance Findings.mem_log.

Abbreviation Db := (Database VI SelectStmt (list LogEntry)).
Abbreviation Session := (Server.Session (VI := VI) (B := list LogEntry)).

Definition db0 : Db := mkDb [] Store_default false GroupCommit_new 1.
Definition no_stats : Introspect.EngineStats := Introspect.mkEngineStats 0 0 0 0 0 0 (mkStats 0 0 0 0 0 0 0 0).

(** Every engine error reads the same. *)
Definition env1 : Env := mkEnv ExprRuns.demo_host (λ _, "statement failed"%string) "bad JSON" no_stats.
Definition ascii_letter (c : Z) : bool := ((65 <=? c) && (c <=? 90)) || ((97 <=? c) && (c <=? 122)).

Abbreviation handle := (Server.handle (VI := VI) (B := list LogEntry) 50 ascii_letter 7).

Definition s0 : Session := new_session db0 [("user", "ann")]%string.
Definition after (m : Frontend) (s : Session) : Session := (handle env1 m s).1.
Definition replies (m : Frontend) (s : Session) : list string :=
  match (handle env1 m s).2 with
  | Some out => (λ f : Init.Byte.byte * bytes, string_of_list_byte [f.1]) <$> out
  | None => ["panic"]%string
  end.

Definition s1 : Session := after (Query "CREATE TABLE t (id BIGINT PRIMARY KEY, v TEXT); INSERT INTO t VALUES (1, 'a'), (2, 'b')") s0.
Definition s2 : Session := after (Parse "q" "SELECT id, v FROM t" []) s1.
Definition s3 : Session := after (Bind "p" "q" [] [] []) s2.
Definition s4 : Session := after (Describe (chr "P") "p") s3.
Definition s5 : Session := after (Execute "nope" 0) s3.

Example demo_replies :
  (replies (Query "CREATE TABLE t (id BIGINT PRIMARY KEY, v TEXT); INSERT INTO t VALUES (1, 'a'), (2, 'b')") s0,
   replies (Parse "q" "SELECT id, v FROM t" []) s1, replies (Bind "p" "q" [] [] []) s2,
   replies (Describe (chr "P") "p") s3, replies (Execute "p" 0) s4, replies (Execute "nope" 0) s3,
   replies (Execute "p" 0) s5, replies Sync s5)
  = (["C"; "C"; "Z"], ["1"], ["2"], ["T"], ["D"; "D"; "C"], ["E"], [], ["Z"])%string.
Proof. vm_compute. reflexivity. Qed.

(** ** The theorems *)

(** Text that can be sent, by evaluation. *)
Definition sendable_b (s : string) : bool := str_utf8 s && bool_decide (Init.Byte.x00 ∉ str_bytes s).
Lemma sent s : sendable_b s = true → sendable s.
Proof. unfold sendable_b. intros [H1 H2]%andb_true_iff. split; [done|]. by apply bool_decide_eq_true in H2. Qed.

Definition demo_messages : list Frontend :=
  [Query "CREATE TABLE t (id BIGINT PRIMARY KEY, v TEXT)"; Parse "i" "INSERT INTO t VALUES ($1, $2)" [20; 25];
   Bind "" "i" [1; 0] [Some (i64_be 5); None] []; Execute "" 0; Sync; Unsupported (chr "F"); Describe (chr "S") "i";
   Close (chr "S") "i"; Flush; Sync; Terminate].

Lemma demo_messages_ok : Forall frontend_ok demo_messages.
Proof.
  unfold demo_messages. repeat apply Forall_cons_2; try apply Forall_nil_2.
  all: unfold frontend_ok; (split; [by vm_compute|]); cbn beta iota; try exact I; try (apply sent; by vm_compute).
  - split_and!; [apply sent; by vm_compute|apply sent; by vm_compute|by vm_compute|]. repeat constructor; by vm_compute.
  - split_and!; [apply sent; by vm_compute|apply sent; by vm_compute|by vm_compute| |by vm_compute|by vm_compute|constructor].
    repeat constructor; by vm_compute.
  - split; [apply sent; by vm_compute|]. split; by vm_compute.
  - apply (bool_decide_unpack (chr "F" ∉ known_tags)). by vm_compute.
Qed.
 
Lemma frontend_roundtrip_witness :
  p_rep 11 read_message (concat (encode_frontend <$> demo_messages)) = Ok (Some <$> demo_messages, []).
Proof. exact (frontend_roundtrip demo_messages demo_messages_ok). Defined.

Lemma serves_client_witness :
  Server.serve 50 ascii_letter 7 (λ _, env1) db0
    (concat (probe_packet <$> [true; false]) ++ startup_packet [("user", "ann")]%string
     ++ concat (encode_frontend <$> demo_messages))
  = dialogue 50 ascii_letter 7 (λ _, env1) db0 2 [("user", "ann")]%string demo_messages.
Proof.
  refine (serves_client 50 ascii_letter 7 (λ _, env1) db0 [true; false] [("user", "ann")]%string demo_messages _ demo_messages_ok).
  split; [by vm_compute|]. constructor; [|constructor]. cbn. split_and!; [apply sent; by vm_compute|done|apply sent; by vm_compute].
Defined.

(** The answer to a message, when there is one. *)
Definition answer (m : Frontend) (s : Session) : Out := default [] (handle env1 m s).2.
Lemma answered m s : bool_decide (is_Some (handle env1 m s).2) = true → handle env1 m s = (after m s, Some (answer m s)).
Proof. unfold after, answer. intros H%bool_decide_eq_true. destruct (handle env1 m s) as [s' [o|]]; [done|]. by destruct H. Qed.



Lemma describe_then_execute_witness : handle env1 (Execute "p" 0) s4 = handle env1 (Execute "p" 0) s3.
Proof.
  refine (describe_then_execute 50 ascii_letter 7 env1 env1 (chr "P") "p" 0 s3 s4 (answer (Describe (chr "P") "p") s3) _ _ _ _).
  - discriminate.
  - by vm_compute.
  - apply answered. by vm_compute.
  - by vm_compute.
Defined.

Definition select_t : Statement.Stmt :=
  match Statements.parse "SELECT id, v FROM t" with Ok (st, _) => st | Err _ => Statement.Noop end.

(** A portal that asks for its first column in binary. *)
Definition s3b : Session := after (Bind "p" "q" [] [] [1; 0]) s2.


(** ** What the server should not do *)

(** A message whose count is negative is a capacity that overflows: the thread panics. *)
Example negative_count_panics :
  read_message (frame (chr "P", push_cstr "" ++ push_cstr "SELECT 1" ++ i16_be (-1))) = Err WirePanic.
Proof. vm_compute. reflexivity. Qed.

(** A parameter that is text becomes a number when it looks like one, by its digits in the text
    format and by its length in the binary format. *)
Example text_parameter_is_guessed :
  decode_param (Some (str_bytes "007")) 0 = Int 7 ∧ decode_param (Some (str_bytes "abcd")) 1 = Int 1633837924.
Proof. split; vm_compute; reflexivity. Qed.

(** After an error of the extended protocol the messages up to the next [Sync] should be discarded; a
    [Close] is carried out and answered, a simple query runs its writes and reports the session ready,
    and an unsupported message gets another error. *)
Definition written : string := "INSERT INTO t VALUES (3, 'c')".
Example skipping_closes : se_skip_until_sync s5 = true ∧
  replies (Close (chr "P") "p") s5 = ["3"]%string ∧ is_Some (se_portals s5 !! "p"%string) ∧
  se_portals (after (Close (chr "P") "p") s5) !! "p"%string = None.
Proof. split_and!; vm_compute; try reflexivity. by eexists. Qed.
Example skipping_writes : se_skip_until_sync s5 = true ∧ replies (Query written) s5 = ["C"; "Z"]%string ∧
  replies (Query "SELECT v FROM t WHERE id = 3") s5 = ["T"; "C"; "Z"]%string ∧
  replies (Query "SELECT v FROM t WHERE id = 3") (after (Query written) s5) = ["T"; "D"; "C"; "Z"]%string.
Proof. split_and!; vm_compute; reflexivity. Qed.
Example skipping_answers_unsupported : se_skip_until_sync s5 = true ∧ replies (Unsupported (chr "F")) s5 = ["E"]%string.
Proof. split; vm_compute; reflexivity. Qed.

(** A write whose text mentions a catalog never reaches the engine, and the client is told it succeeded. *)
Example write_is_intercepted :
  replies (Query "INSERT INTO t VALUES (3, 'about pg_cast')") s1 = ["T"; "C"; "Z"]%string ∧
  engine (after (Query "INSERT INTO t VALUES (3, 'about pg_cast')") s1) = engine s1.
Proof. split; vm_compute; reflexivity. Qed.

(** The role PostgREST sets for a request does not reach the session the policies read. *)
Example set_config_role_is_dropped :
  replies (Query "SELECT set_config('role', 'anon', true)") s1 = ["T"; "D"; "C"; "Z"]%string ∧
  engine (after (Query "SELECT set_config('role', 'anon', true)") s1) = engine s1.
Proof. split; vm_compute; reflexivity. Qed.

(** A query the server answers itself is refused when it is prepared. *)
Example prepared_probe_is_refused :
  replies (Query "SELECT name FROM pg_timezone_names") s1 = ["T"; "C"; "Z"]%string ∧
  replies (Parse "z" "SELECT name FROM pg_timezone_names" []) s1 = ["E"]%string.
Proof. split; vm_compute; reflexivity. Qed.

(** A failed transaction goes on: the status says so, and the next statement runs. *)
Definition failed_txn : Session := after (Query "BEGIN; INSERT INTO t VALUES (1, 'again')") s1.
Example failed_transaction_runs :
  status failed_txn = "E"%char ∧ replies (Query "INSERT INTO t VALUES (4, 'd')") failed_txn = ["C"; "Z"]%string.
Proof. split; vm_compute; reflexivity. Qed.

(** Text outside ASCII is rewritten byte by byte when a statement is prepared. *)
Example placeholders_garble_text : (rewrite_placeholders "SELECT 'é'").1 ≠ "SELECT 'é'"%string.
Proof. vm_compute. discriminate. Qed.

(** The filter of an update that stands after a line break is lost, and every row is updated. *)
Definition patch_sql (gap : string) : string :=
  "WITH pgrst_source AS (UPDATE " +:+ dquote +:+ "public" +:+ dquote +:+ "." +:+ dquote +:+ "t" +:+ dquote +:+ " SET "
  +:+ dquote +:+ "v" +:+ dquote +:+ " = b.v FROM (SELECT $1 AS json_data) b" +:+ gap +:+ "WHERE id = $2 RETURNING 1) SELECT 1".
Definition newline : string := String (of_code 10) EmptyString.
Example patch_loses_filter :
  (Datapath.up_where <$> Datapath.parse_update (patch_sql " ")) = Some "id = $2"%string ∧
  (Datapath.up_where <$> Datapath.parse_update (patch_sql newline)) = Some ""%string.
Proof. split; vm_compute; reflexivity. Qed.

(** A request body: an integer beyond the floats' precision changes, and a composite value is stored
    as the empty text. *)
Definition body_of (v : string) : string := "{" +:+ dquote +:+ "a" +:+ dquote +:+ ":" +:+ v +:+ "}".
Example body_values_change :
  Datapath.json_rows (body_of "9007199254740993") ["a"]%string = Some [[Int 9007199254740992]] ∧
  Datapath.json_rows (body_of "[1, 2]") ["a"]%string = Some [[TextV ""]].
Proof. split; vm_compute; reflexivity. Qed.

End WireDemo.
